(* ===== verification/_CoqProject ===== *)
-Q . S2P
Prelude.v
Btree.v
State.v
Text.v
Float.v
Domain.v
Json.v
Slot.v
Fs.v
Replace.v
Shm.v
Snapshot.v
Bitmap.v
Dl645.v
Points.v
Can.v
Outbox.v
Compaction.v
Forwarder.v
Spool.v
FileSpool.v
SpoolRecovery.v
Session.v
Calc.v
Rules.v
Executor.v
ExecutorReads.v
Scheduler.v
Watch.v
Governance.v
Manifest.v
CommandSink.v
Topology.v
Control.v
PointWatch.v
Alarm.v
Reconnect.v
CommandListener.v
Routing.v
Acquisition.v
ChannelTask.v
ChallengeLedger.v
Generations.v
Enrollment.v
Publication.v
Coordinated.v
Readers.v
Processing.v
Forecast.v
Wire.v
