(* ===== verification/Prelude.v ===== *)
(** * AetherEdge: a verification of the edge kernel

    AetherEdge is an IoT edge gateway.  Protocol adapters decode field frames
    into points; an acquisition process publishes the points in a shared-memory
    segment that every other service maps; the rule engine reads them through a
    topology generation, calculates, decides, and sends device commands through a
    governed facade to the IO service; facts that must reach the cloud are written
    to durable queues and leave through a forwarder or through a CloudLink
    session.  This library models the parts of that path where a crash, an I/O
    error, a concurrent task, a stale generation or a malformed input could
    corrupt or lose data or repeat a physical command, and proves that it does
    not, or says exactly when it does.

    ** Files, in dependency order

    Foundations:
    - [Prelude.v]: results with panics ([res]), machine integers as [Z] with
      their wrap-around, little- and big-endian byte strings, slices, stores
      into memory images; the tactics and the hint databases of the library.
    - [Btree.v]: the standard library's [BTreeMap]/[BTreeSet] over [u64] keys.
    - [State.v]: the state-and-error monad of the application code.
    - [Text.v]: formatted keys, [Float.v]: IEEE doubles and their bit patterns,
      [Json.v]: parsed documents of serde_json.
    - [Domain.v]: crates/aether-domain/src/point.rs, command.rs, error.rs.

    Data plane:
    - [Slot.v], Module [Slot]: crates/aether-dataplane/src/core/slot.rs.  Every
      atomic access of [PointSlot::set] and [try_load_consistent] is one step
      ([set_step], [load_step]) over a release/acquire memory with views.
    - [Fs.v], Module [Fs]: the file system, the [io] monad, the fault schedule,
      and the weakest precondition [wp] that the crash theorems are stated with.
      [Replace.v]: replacing a file by writing a scratch file and renaming it.
    - [Shm.v], Module [Shm]: header.rs, slot_io.rs, reader.rs, writer.rs of the
      data plane; generation swap of config.rs; the publication step of
      libs/aether-shm-bridge/src/runtime.rs ([publish_swap]).
    - [Snapshot.v], Module [Snapshot]: snapshot_format.rs, snapshot_save.rs,
      snapshot_load.rs, and [restore_exact_snapshot] of runtime.rs.
    - [Bitmap.v], Module [Bitmap]: watch_bitmap.rs, the subscription bitmap.
    - [Dl645.v], [Can.v], [Points.v]: libs/aether-core/src/codec/dl645.rs and
      can.rs, types.rs and frame.rs.

    Durable queues and CloudLink:
    - [Outbox.v], Module [Outbox]: libs/aether-store-local/src/outbox.rs (memory
      adapter) and file_outbox.rs (journal adapter), with the port's data types.
      [Compaction.v]: compaction and reopening of that journal.
    - [Forwarder.v], Module [Forwarder]: the port trait as the class
      [DurableOutbox], what it promises as the class [OutboxSpec], both adapters
      as instances, and crates/aether-application/src/outbox_forwarder.rs
      proved against the class.
    - [Spool.v], Module [Spool]: libs/aether-store-local/src/cloudlink_spool.rs
      and the data types of crates/aether-ports/src/cloudlink.rs.
      [FileSpool.v], Module [FileSpool]: file_cloudlink_spool.rs, its journal
      entries and recovery.  [SpoolRecovery.v]: its durability theorems.
    - [Session.v], Module [Session]: crates/aether-cloudlink/src/validation.rs,
      session.rs, and the receipts and replay requests of codec.rs.
    - [ChallengeLedger.v], Module [ChallengeLedger]: the record of session
      challenges and hellos, libs/aether-store-local/src/cloudlink_challenge_ledger.rs.
    - [Generations.v], Module [Generations]: integration_generation.rs of the same
      crate, with the validators of crates/aether-domain/src/integration.rs.
    - [Enrollment.v], Module [Enrollment]: the enrollment use case of
      crates/aether-application/src/gateway_enrollment.rs, its port, and the
      identity store gateway_identity.rs and gateway_identity_fs.rs, with any
      number of processes enrolling at once.

    Rules:
    - [Calc.v], Module [Calc]: libs/aether-calc/src.  [Rules.v], Module [Rules]:
      types.rs, error.rs, parser.rs of libs/aether-rules/src.
    - [Executor.v], Module [Executor]: executor.rs, action_command.rs,
      live_state.rs, logger.rs.  [ExecutorReads.v]: what a rule sees.
    - [Scheduler.v], Module [Scheduler]: scheduler.rs, with the interleaving of
      ticks, watch events, explicit executions and reloads as a step relation.
    - [Watch.v], Module [Watch]: point_watch_dispatcher.rs.

    Control:
    - [Governance.v], Module [Governance]: the capabilities, the safety policy
      and the command facades of crates/aether-application/src.
    - [Manifest.v], Module [Manifest]: libs/aether-shm-bridge/src/manifest.rs.
    - [CommandSink.v], Module [CommandSink]: command_sink.rs of the same crate.
    - [Topology.v], Module [Topology]: runtime_topology.rs, and [Control.v],
      Module [Control]: application_control.rs and rule_live_state.rs, of
      services/automation/src/infra.

    IO service, routing and alarms:
    - [Acquisition.v], Module [Acquisition]: services/io/src/store/shm_store.rs
      over libs/aether-shm-bridge/src/acquisition_writer.rs.
    - [Publication.v], Module [Publication]: runtime.rs, health.rs and
      topology_commit.rs of the same crate, the writer side: staging, migration
      and renaming of the point and health planes, and the witness that couples
      them.  [Coordinated.v], Module [Coordinated]: histories of the two planes.
      [Readers.v], Module [Readers]: the reader side, managed.rs, read_topology.rs
      and the health reader, over planes that change while they are read.
    - [PointWatch.v], Module [PointWatch]: events.rs and point_watch.rs of
      libs/aether-shm-bridge/src, the queues, drains and listeners of hints.
    - [Routing.v], Module [Routing]: routing_cache.rs and loader.rs of
      libs/aether-routing/src.
    - [CommandListener.v], Module [CommandListener]: shm_listener.rs, and
      [ChannelTask.v], Module [ChannelTask]: channel_task.rs and command_guard.rs,
      of services/io/src/core/channels.  [Reconnect.v], Module [Reconnect]:
      services/io/src/runtime/reconnect.rs.
    - [Alarm.v], Module [Alarm]: monitor.rs, db.rs, notification.rs,
      alarm_rule_mutation.rs and models.rs of services/alarm/src.

    Data processing:
    - [Processing.v], Module [Processing]: the tasks, frames, requests and results
      of crates/aether-domain/src/data_processing.rs and the source windows of
      crates/aether-ports/src/data_processing.rs.
    - [Forecast.v], Module [Forecast]: the use case of
      crates/aether-application/src/data_processing.rs, over the classes [Ports]
      (sources, processor, audit, clock) and [WireContract].
    - [Wire.v], Module [Wire]: codec.rs and dto.rs of
      crates/aether-data-processing/src, the documents of requests and results,
      over the class [Codecs]; [v1_contract] is an instance of [WireContract].

    ** How the parts meet

    [Executor] hands a rule's commands to an optional facade; [Control.write_action]
    is that facade.  It is [Governance]'s control use case over the class
    [CommandDispatcher], whose instance in [Control] resolves the target in a
    generation of [Topology] and hands a physical command to a sink, which is what
    [CommandSink] implements.  A rule's reads go through the class [RuleLiveState],
    implemented by [Control] over the same generation.  The calculation engine is
    the class [CalcEngine].  The forwarder is proved against [OutboxSpec], which
    both outboxes discharge.  [CommandListener] reads the frames the sink writes
    and hands commands to [ChannelTask], which checks them with its guard before
    the protocol (an arbitrary one) writes to the device; the theorem
    [ChannelTask.device_writes_from_sink] spans all three.  [Acquisition] takes the
    batches a channel task polled, expands them over the tables of [Routing],
    stores them in the mapping of [Shm] at the slots of [Manifest], and offers
    hints to the queues of [PointWatch], whose listener feeds [Watch].
    [Publication] creates and replaces those mappings through [Shm] and
    [Snapshot], under the manifests of [Manifest], and [Readers] reads them.  [Forecast]
    builds its frames from the constructors of [Processing] and sends them in the
    documents of [Wire] ([Wire.request_received]).  Clocks, UUIDs, handles and the
    sink are operations of the class [Control.Runtime].

    ** Correspondence

    A definition carries the name of the Rust item it translates; a method gets
    a prefix where the bare name is taken ([journal_enqueue], [cursor_new],
    [spool_open]).  [&mut self] is a state passed in and returned, [Result] is
    [res] with [Panic] for an unwinding panic (an index out of range, an
    overflow with overflow checks on), a struct is a [Record], an enum an
    [Inductive].  Error payloads that are only text are dropped; the error kind
    is kept.  Strings are their UTF-8 bytes in the storage and protocol files and
    [string] in the rule and control files.  Floating-point numbers are bit
    patterns where the code only moves them ([Slot], [Shm], [Snapshot], [Can],
    [Points]) and [Float.f64] where it computes with them.  An [Arc] whose
    identity is compared carries an allocation number.

    ** The fault model

    Each system call consumes one entry of a schedule: it succeeds, fails with
    an I/O error (a failing write may have written any prefix), or the process
    dies there.  [wp] demands that the postcondition holds on every such
    outcome, the crash ones included, so a theorem over all schedules covers a
    crash between any two system calls and inside every write.  The model is a
    process crash: what was written stays written.  Reordering of unsynced
    writes at a power failure is outside, so [fsync] is a call that can fail and
    has no other effect.  Mutexes, the outbox worker thread and the lock files
    make each call of a store one uninterrupted run of these functions.  The slot
    is the one structure shared without a lock, and there the steps interleave.
    The command sink's socket, clock and generation cell answer from an arbitrary
    schedule, and the scheduler's loop, its explicit callers and its completions
    interleave arbitrarily.

    ** What is proved

    - Shared memory: a slot load never mixes two writes
      ([Slot.try_load_consistent_not_torn]); publication of a generation is
      all-or-nothing ([Shm.publish_swap_all_or_nothing]).
      [Slot.try_load_consistent_monotone] and [Slot.try_load_consistent_quiescent]
      order loads in time.
    - Publication of topologies: through any history of processes that start,
      publish, write and die, with any call failing, a reader accepts the two
      planes only as one requested topology, never an older one than was already
      announced ([Coordinated.publication_coherent]); a start without faults always
      publishes ([Coordinated.restart_publishes]); a replaced plane carries the
      committed samples over ([Coordinated.publication_carries]); a view that
      pinned a publication returns samples of that publication only, whatever is
      published meanwhile ([Readers.view_coherent]).
    - Snapshots: save, load and restore compose to the identity on committed
      slots ([Snapshot.snapshot_restore_roundtrip]), save is atomic
      ([Snapshot.save_snapshot_atomic]).  The bitmap refines a finite set.
    - Outbox: enqueue and acknowledge are durable and all-or-nothing
      ([Outbox.journal_enqueue_durable], [Outbox.journal_acknowledge_durable]),
      reopening repairs any torn tail and compaction is invisible
      ([Compaction.journal_open_recovers], [Compaction.journal_compact_invisible]).
      The forwarder delivers at least once, in order
      ([Forwarder.drain_once_at_least_once]).
    - CloudLink: no accepted fact disappears silently over every reachable state
      of the spool ([Spool.spool_no_silent_loss]); the file adapter refines the
      in-memory one across faults and open recovers it
      ([SpoolRecovery.mutate_durable]); receipts of a replaced session change
      nothing ([Session.stale_session_receipt_ignored]).  One challenge gets one
      hello, also across restarts ([ChallengeLedger.one_hello], [hello_survives]).
    - Identity: one gateway claims one key at the cloud however many processes
      enroll and whatever fails ([Enrollment.one_identity]), the claimed identity
      loads back ([Enrollment.claimed_identity_loads]), and enrollment ends
      ([Enrollment.enroll_terminates]).  A generation number of an integration
      identifies one snapshot ([Generations.generation_identifies]).
    - Physical commands: an execution with an uncertain outcome is never repeated
      automatically on the same input ([Scheduler.uncertain_not_retried]); a
      rule's action reaches the sink only authorised, audited, within its limits
      and under the pinned generation ([Control.rule_action_checked],
      [Executor.execute_commands_governed]); the sink writes at most one frame per
      command ([CommandSink.send_one_frame]), the listener hands it over once
      ([CommandListener.sink_commands_once]), the channel task writes it at most
      once and only within the guard's limits ([ChannelTask.writes_permitted],
      [ChannelTask.device_writes_from_sink]); each governed use case calls its
      port at most once, between its audits ([Governance.use_case_protocol]).
    - Acquisition: a batch and its route targets are stored exactly and hinted
      after the authority is confirmed ([Acquisition.batch_committed]); the hints
      a listener receives are those written whole ([PointWatch.hints_delivered]);
      the routing cache is exact and replaced as one ([Routing.cache_exact]).  The
      health of a channel follows its device ([ChannelTask.health_follows]), and
      the reconnect rounds are bounded.
    - Alarms: alerts, history and rules stay consistent under every interleaving
      ([Alarm.alarms_consistent]), checks are edge-triggered ([Alarm.check_edges]),
      mutations are atomic ([Alarm.mutate_atomic]).
    - Topology: a command sequence number identifies one set of routes
      ([Topology.sequence_identifies_routes]), and a fenced read returns values of
      the generation it was planned in ([Control.fenced_read]).  The manifest's
      slots are a bijection ([Manifest.compile_bijective]).
    - Rules: the executor's outcome on every branch, and termination on acyclic
      flows within the iteration limit ([Executor.execute_outcome],
      [Executor.execute_acyclic]); watch-driven selection is equivalent to polling
      ([Scheduler.watch_equivalent]); a hint about a point reaches the rules that
      subscribe to it ([Watch.hint_reaches_rule]); flows are parsed back from
      their documents and are well typed ([Rules.extract_rule_flow_roundtrip],
      [Rules.extract_rule_flow_well_typed]).
    - Data processing: data reaches a processor only authorised, audited, complete
      and without lookahead ([Forecast.processor_sees]); derived data answers the
      request that was sent ([Forecast.derived_conforms]); requests and results
      survive the wire ([Wire.request_roundtrip], [Wire.result_roundtrip]).

    Further theorems cover the other operations (moving averages and the
    separation of rule state in [Calc], DL/T 645 and CAN decoding, reloads, spool
    replay and acknowledgement, session binding, internal point identifiers) and
    exhibit behaviour that loses data or panics, such as
    [Scheduler.Sample.stale_completion_rewinds].

    ** Bounds and fuel

    Journal recovery ([Outbox.recover_loop], [FileSpool.recover_loop]) takes the
    number of bytes as fuel: every iteration consumes at least a record header,
    so the fuel never runs out, and the recovery theorems are about results, not
    about partial runs ([Outbox.recover_loop_fuel],
    [FileSpool.spool_recover_loop_fuel]).  The executor's loop has the source's
    own bound of 100 iterations, and the sink its own number of attempts; the
    sink's wait for the authority lease polls until a deadline, at least two
    milliseconds a turn, so the number of turns the deadline allows is enough
    fuel.  Every other recursion is structural.  Decimal printing
    ([Session.print_dec]) uses 20 digits, enough for [u64].

    ** Outside the model

    Parameters with named hypotheses, and a concrete instance for the witnesses:
    serde_json (assumed to round-trip), SHA-256 and the digests of snapshots and
    transcripts (assumed to identify their content where the code relies on it),
    UUID, URL and Base64 codecs, Ed25519 key derivation, evalexpr, regex and chrono
    as the interfaces of [Calc], and canonical JSON and the RFC 3339 times of
    [Wire].  SQL queries are their result rows, and an
    SQL transaction is one step.  The uplink transport, signatures, protocol
    drivers, socket files, logging, and the ownership and modes of files are
    outside; where the code depends on such a call it may fail.  Not
    modelled: the diagnostics readers of the shared memory, the telemetry payload
    codecs of CloudLink, the integration synchronizer, and the service binaries
    around them. *)

From Stdlib Require Import ZArith Lia.
From stdpp Require Import base tactics numbers list.

#[global] Open Scope Z_scope.

(** ** Outcomes of Rust code

    [Ok]/[Err] are the two constructors of [Result]; [Panic] is an unwinding
    panic (slice index out of range, failed [assert!]).  Code that cannot panic
    is shown never to produce it. *)
Inductive res (E A : Type) : Type :=
| Ok (a : A)
| Err (e : E)
| Panic.
Arguments Ok {E A} a.
Arguments Err {E A} e.
Arguments Panic {E A}.

#[global] Instance res_ret E : MRet (res E) := fun A a => Ok a.
#[global] Instance res_bind E : MBind (res E) := fun A B f m =>
  match m with Ok a => f a | Err e => Err e | Panic => Panic end.
#[global] Instance res_fmap E : FMap (res E) := fun A B f m =>
  match m with Ok a => Ok (f a) | Err e => Err e | Panic => Panic end.

Definition ok_or {E A} (o : option A) (e : E) : res E A :=
  match o with Some a => Ok a | None => Err e end.

Definition is_ok {E A} (r : res E A) : bool :=
  match r with Ok _ => true | _ => false end.

Lemma res_bind_Ok {E A B} (m : res E A) (f : A → res E B) b :
  m ≫= f = Ok b ↔ ∃ a, m = Ok a ∧ f a = Ok b.
Proof.
  destruct m as [a|e|]; cbn; (split; [intros H|intros (x & Hx & H)]);
    try done; [by exists a|by simplify_eq].
Qed.

Lemma Ok_inj {E A} (a b : A) : @Ok E A a = Ok b → a = b.
Proof. congruence. Qed.

Lemma res_bind_no_panic {E A B} (m : res E A) (f : A → res E B) :
  m ≠ Panic → (∀ a, f a ≠ Panic) → m ≫= f ≠ Panic.
Proof. by destruct m; cbn. Qed.

Lemma ok_or_Ok {E A} (o : option A) (e : E) a : ok_or o e = Ok a ↔ o = Some a.
Proof. destruct o; cbn; naive_solver. Qed.

Lemma ok_or_no_panic {E A} (o : option A) (e : E) : ok_or o e ≠ Panic.
Proof. by destruct o. Qed.

(** Case analysis on the tests and matches of a translated function body. *)
Ltac case_if :=
  match goal with
  | |- context [if ?b then _ else _] => destruct b eqn:?
  | H : context [if ?b then _ else _] |- _ => destruct b eqn:?
  end.

Ltac inv_res :=
  repeat match goal with
  | H : Ok _ = Ok _ |- _ => injection H as H; try subst
  | H : Err _ = Err _ |- _ => injection H as H; try subst
  | H : Ok _ = Err _ |- _ => discriminate H
  | H : Err _ = Ok _ |- _ => discriminate H
  | H : Panic = Ok _ |- _ => discriminate H
  | H : Ok _ = Panic |- _ => discriminate H
  | H : Err _ = Panic |- _ => discriminate H
  | H : Panic = Err _ |- _ => discriminate H
  | H : _ ≫= _ = Ok _ |- _ => apply res_bind_Ok in H as (? & ? & ?)
  | H : ok_or _ _ = Ok _ |- _ => apply ok_or_Ok in H
  end.

(** A body built from panic-free calls does not panic. *)
Ltac no_panic :=
  repeat first
    [ done
    | apply ok_or_no_panic
    | apply res_bind_no_panic; [|intros ?]
    | case_match ].

(** Boolean comparisons of the source turned into propositions for [lia]. *)
Ltac bool_to_prop :=
  repeat match goal with
  | H : (_ && _)%bool = true |- _ => apply andb_prop in H as [? ?]
  | H : (_ || _)%bool = false |- _ => apply orb_false_elim in H as [? ?]
  | H : negb _ = true |- _ => apply negb_true_iff in H
  | H : negb _ = false |- _ => apply negb_false_iff in H
  | H : (_ =? _) = true |- _ => apply Z.eqb_eq in H
  | H : (_ =? _) = false |- _ => apply Z.eqb_neq in H
  | H : (_ <? _) = true |- _ => apply Z.ltb_lt in H
  | H : (_ <? _) = false |- _ => apply Z.ltb_ge in H
  | H : (_ <=? _) = true |- _ => apply Z.leb_le in H
  | H : (_ <=? _) = false |- _ => apply Z.leb_gt in H
  | H : (_ =? _)%nat = true |- _ => apply Nat.eqb_eq in H
  | H : (_ =? _)%nat = false |- _ => apply Nat.eqb_neq in H
  | H : (_ <? _)%nat = true |- _ => apply Nat.ltb_lt in H
  | H : (_ <? _)%nat = false |- _ => apply Nat.ltb_ge in H
  | H : (_ <=? _)%nat = true |- _ => apply Nat.leb_le in H
  | H : (_ <=? _)%nat = false |- _ => apply Nat.leb_gt in H
  end.

(** ** Machine integers

    A value of a [w]-bit unsigned type is a [Z] in [0, 2^w). *)
Definition u_max (w : Z) : Z := 2 ^ w - 1.
Definition wrap (w x : Z) : Z := x mod 2 ^ w.
Definition in_u (w x : Z) : Prop := 0 ≤ x < 2 ^ w.
Definition in_ub (w x : Z) : bool := (0 <=? x) && (x <? 2 ^ w).
Definition wrapping_add (w a b : Z) : Z := wrap w (a + b).
Definition wrapping_sub (w a b : Z) : Z := wrap w (a - b).
Definition checked_add (w a b : Z) : option Z :=
  if a + b <? 2 ^ w then Some (a + b) else None.
Definition saturating_sub (a b : Z) : Z := Z.max 0 (a - b).

Lemma in_ub_spec w x : in_ub w x = true ↔ in_u w x.
Proof. unfold in_ub, in_u. rewrite andb_true_iff, Z.leb_le, Z.ltb_lt. lia. Qed.

Lemma wrap_small w x : in_u w x → wrap w x = x.
Proof. apply Z.mod_small. Qed.

Lemma wrap_in_u w x : 0 ≤ w → in_u w (wrap w x).
Proof. intros. apply Z.mod_pos_bound. lia. Qed.

Lemma wrapping_add_sub w a b :
  0 ≤ w → in_u w a → wrapping_sub w (wrapping_add w a b) b = a.
Proof.
  intros Hw Ha. unfold wrapping_sub, wrapping_add, wrap.
  rewrite Zminus_mod_idemp_l. replace (a + b - b) with a by lia.
  by apply Z.mod_small.
Qed.

Lemma in_u_bits w x : 0 ≤ w → 0 ≤ x → (∀ j, w ≤ j → Z.testbit x j = false) → in_u w x.
Proof.
  intros Hw Hx Hb. assert (x = x mod 2 ^ w) as ->; [|apply Z.mod_pos_bound; lia].
  apply Z.bits_inj'. intros j Hj. destruct (Z.ltb_spec j w).
  - by rewrite Z.mod_pow2_bits_low.
  - rewrite Z.mod_pow2_bits_high by lia. by apply Hb.
Qed.

Lemma in_u_high w x j : in_u w x → w ≤ j → Z.testbit x j = false.
Proof.
  intros Hx Hj. unfold in_u in Hx. destruct (decide (0 ≤ w)) as [Hw|Hw].
  - rewrite <- (Z.mod_small x (2 ^ w)) by done. apply Z.mod_pow2_bits_high. lia.
  - rewrite Z.pow_neg_r in Hx by lia. lia.
Qed.

Lemma lxor_in_u w x y : 0 ≤ w → in_u w x → in_u w y → in_u w (Z.lxor x y).
Proof.
  intros Hw Hx Hy. apply in_u_bits; [done| |].
  - apply Z.lxor_nonneg. unfold in_u in *. lia.
  - intros j Hj. by rewrite Z.lxor_spec, !(in_u_high w).
Qed.

Lemma shiftr_in_u w x n : 0 ≤ w → 0 ≤ n → in_u w x → in_u w (Z.shiftr x n).
Proof.
  intros Hw Hn Hx. apply in_u_bits; [done| |].
  - apply Z.shiftr_nonneg. unfold in_u in Hx. lia.
  - intros j Hj. rewrite Z.shiftr_spec by lia. by apply (in_u_high w); [|lia].
Qed.

Lemma land_in_u w x y : 0 ≤ w → in_u w x → 0 ≤ y → in_u w (Z.land x y).
Proof.
  intros Hw Hx Hy. apply in_u_bits; [done| |].
  - apply Z.land_nonneg. by right.
  - intros j Hj. by rewrite Z.land_spec, (in_u_high w).
Qed.

(** Parity of a counter survives the wrap-around. *)
Lemma land_1 x : Z.land x 1 = x mod 2.
Proof. change 1 with (Z.ones 1). by rewrite Z.land_ones. Qed.

Lemma wrap_mod_2 w x : 1 ≤ w → wrap w x mod 2 = x mod 2.
Proof.
  intros. unfold wrap. symmetry. apply Znumtheory.Zmod_div_mod; [done|lia|].
  exists (2 ^ (w - 1)). rewrite <- (Z.pow_1_r 2) at 3. rewrite <- Z.pow_add_r by lia.
  f_equal. lia.
Qed.

Lemma Forall_filter_bool {A} (P : A → Prop) (f : A → bool) (l : list A) :
  Forall P l → Forall P (List.filter f l).
Proof. induction 1; cbn; [constructor|]. destruct (f x); [by constructor|done]. Qed.

(** ** Byte strings

    A byte is a [Z] in [0, 256); [bytes_ok] is the type invariant of [&[u8]]. *)
Definition bytes_ok (l : list Z) : Prop := Forall (in_u 8) l.

Fixpoint le_bytes (n : nat) (x : Z) : list Z :=
  match n with
  | O => []
  | S n => x mod 256 :: le_bytes n (x / 256)
  end.

Fixpoint le_val (l : list Z) : Z :=
  match l with
  | [] => 0
  | b :: l => b + 256 * le_val l
  end.

Definition be_bytes (n : nat) (x : Z) : list Z := rev (le_bytes n x).
Definition be_val (l : list Z) : Z := le_val (rev l).

Lemma length_le_bytes n x : length (le_bytes n x) = n.
Proof. revert x. induction n; cbn; auto. Qed.

Lemma length_be_bytes n x : length (be_bytes n x) = n.
Proof. unfold be_bytes. by rewrite length_rev, length_le_bytes. Qed.

Lemma le_bytes_ok n x : bytes_ok (le_bytes n x).
Proof.
  revert x. induction n; intros; constructor; [|apply IHn].
  apply Z.mod_pos_bound. lia.
Qed.

Lemma bytes_ok_app l k : bytes_ok (l ++ k) ↔ bytes_ok l ∧ bytes_ok k.
Proof. apply Forall_app. Qed.

Lemma bytes_ok_rev l : bytes_ok (rev l) ↔ bytes_ok l.
Proof.
  split; intros H; [rewrite <- (rev_involutive l)|]; by apply Forall_rev.
Qed.

Lemma be_bytes_ok n x : bytes_ok (be_bytes n x).
Proof. apply bytes_ok_rev, le_bytes_ok. Qed.

Lemma le_val_le_bytes n x : le_val (le_bytes n x) = x mod 256 ^ Z.of_nat n.
Proof.
  revert x. induction n as [|n IH]; intros x; cbn [le_bytes le_val].
  - by rewrite Z.mod_1_r.
  - rewrite IH, Nat2Z.inj_succ, Z.pow_succ_r by lia.
    rewrite (Z.rem_mul_r x 256) by lia. lia.
Qed.

Lemma pow256 n : 256 ^ Z.of_nat n = 2 ^ (8 * Z.of_nat n).
Proof. change 256 with (2 ^ 8). rewrite <- Z.pow_mul_r; [done|lia|lia]. Qed.

Lemma le_val_le_bytes_small n x :
  in_u (8 * Z.of_nat n) x → le_val (le_bytes n x) = x.
Proof. intros H. rewrite le_val_le_bytes, pow256. by apply Z.mod_small. Qed.

Lemma be_val_be_bytes_small n x :
  in_u (8 * Z.of_nat n) x → be_val (be_bytes n x) = x.
Proof.
  intros H. unfold be_val, be_bytes. rewrite rev_involutive.
  by apply le_val_le_bytes_small.
Qed.

Lemma le_val_in_u l : bytes_ok l → in_u (8 * Z.of_nat (length l)) (le_val l).
Proof.
  intros H. unfold in_u. rewrite <- pow256.
  induction H as [|b l Hb Hl IH]; cbn [le_val length]; [done|].
  rewrite Nat2Z.inj_succ, Z.pow_succ_r by lia.
  unfold in_u in Hb. change (2 ^ 8) with 256 in Hb. lia.
Qed.

Lemma le_bytes_le_val l : bytes_ok l → le_bytes (length l) (le_val l) = l.
Proof.
  induction 1 as [|b l Hb Hl IH]; cbn [le_val length le_bytes]; [done|].
  unfold in_u in Hb. change (2 ^ 8) with 256 in Hb.
  rewrite (Z.mul_comm 256), Z.mod_add, Z.mod_small by lia.
  rewrite Z.div_add, (Z.div_small b), Z.add_0_l by lia. by rewrite IH.
Qed.

Lemma be_val_in_u l : bytes_ok l → in_u (8 * Z.of_nat (length l)) (be_val l).
Proof.
  intros. unfold be_val. rewrite <- (length_rev l).
  by apply le_val_in_u, bytes_ok_rev.
Qed.

Lemma be_bytes_be_val l : bytes_ok l → be_bytes (length l) (be_val l) = l.
Proof.
  intros. unfold be_bytes, be_val. rewrite <- (length_rev l), le_bytes_le_val.
  - apply rev_involutive.
  - by apply bytes_ok_rev.
Qed.

(** ** Byte buffers: bounds-checked slices and in-place stores *)
Definition slice (off n : nat) (l : list Z) : list Z := take n (drop off l).

(** [bytes.get(off..off + n)]: [None] when the range leaves the buffer. *)
Definition get_range (off n : nat) (l : list Z) : option (list Z) :=
  if (off + n <=? length l)%nat then Some (slice off n l) else None.

(** [buf[off..off + len].copy_from_slice(bs)] within bounds. *)
Definition store (off : nat) (bs l : list Z) : list Z :=
  take off l ++ bs ++ drop (off + length bs) l.

Definition load_le (off n : nat) (l : list Z) : Z := le_val (slice off n l).
Definition store_le (off n : nat) (x : Z) (l : list Z) : list Z :=
  store off (le_bytes n x) l.

Lemma length_slice off n l :
  (off + n ≤ length l)%nat → length (slice off n l) = n.
Proof. intros. unfold slice. rewrite length_take, length_drop. lia. Qed.

Lemma slice_ok off n l : bytes_ok l → bytes_ok (slice off n l).
Proof. intros. by apply Forall_take, Forall_drop. Qed.

Lemma slice_full l : slice 0 (length l) l = l.
Proof. unfold slice. by rewrite drop_0, firstn_all. Qed.

Lemma slice_app_skip (off n : nat) (pre l : list Z) :
  off = length pre → slice off n (pre ++ l) = take n l.
Proof. intros ->. unfold slice. by rewrite drop_app_length. Qed.

Lemma slice_app_mid (off n : nat) (pre m l : list Z) :
  off = length pre → n = length m → slice off n (pre ++ m ++ l) = m.
Proof. intros -> ->. unfold slice. by rewrite drop_app_length, take_app_length. Qed.

Lemma get_range_Some off n l s :
  get_range off n l = Some s ↔ (off + n ≤ length l)%nat ∧ s = slice off n l.
Proof.
  unfold get_range. destruct (Nat.leb_spec (off + n) (length l)); naive_solver lia.
Qed.

Lemma length_store off bs l :
  (off + length bs ≤ length l)%nat → length (store off bs l) = length l.
Proof. intros. unfold store. rewrite !length_app, length_take, length_drop. lia. Qed.

Lemma store_ok off bs l : bytes_ok bs → bytes_ok l → bytes_ok (store off bs l).
Proof.
  intros. unfold store. apply bytes_ok_app. split; [by apply Forall_take|].
  apply bytes_ok_app. split; [done|by apply Forall_drop].
Qed.

Lemma slice_store_same off n bs l :
  (off + length bs ≤ length l)%nat → n = length bs → slice off n (store off bs l) = bs.
Proof.
  intros ? ->. unfold store. apply slice_app_mid; [|done].
  rewrite length_take. lia.
Qed.

Lemma slice_store_disjoint off bs o n l :
  (off + length bs ≤ length l)%nat →
  (o + n ≤ off ∨ off + length bs ≤ o)%nat →
  slice o n (store off bs l) = slice o n l.
Proof.
  intros Hl [Hd|Hd]; unfold slice, store.
  - rewrite drop_app_le by (rewrite length_take; lia).
    rewrite take_app_le by (rewrite length_drop, length_take; lia).
    rewrite skipn_firstn_comm, take_take. f_equal. lia.
  - rewrite app_assoc, drop_app_ge by (rewrite length_app, length_take; lia).
    rewrite drop_drop, length_app, length_take. do 2 f_equal. lia.
Qed.

Lemma load_store_le_same off n x l :
  (off + n ≤ length l)%nat → in_u (8 * Z.of_nat n) x →
  load_le off n (store_le off n x l) = x.
Proof.
  intros. unfold load_le, store_le.
  rewrite slice_store_same; rewrite ?length_le_bytes; [|lia|done].
  by apply le_val_le_bytes_small.
Qed.

Lemma load_store_le_disjoint off n x o m l :
  (off + n ≤ length l)%nat → (o + m ≤ off ∨ off + n ≤ o)%nat →
  load_le o m (store_le off n x l) = load_le o m l.
Proof.
  intros. unfold load_le, store_le.
  by rewrite slice_store_disjoint by (rewrite length_le_bytes; lia).
Qed.

Lemma length_store_le off n x l :
  (off + n ≤ length l)%nat → length (store_le off n x l) = length l.
Proof. intros. apply length_store. rewrite length_le_bytes. lia. Qed.

Lemma store_le_ok off n x l : bytes_ok l → bytes_ok (store_le off n x l).
Proof. intros. apply store_ok; [apply le_bytes_ok|done]. Qed.

Lemma load_le_in_u off n l :
  bytes_ok l → (off + n ≤ length l)%nat → in_u (8 * Z.of_nat n) (load_le off n l).
Proof.
  intros. unfold load_le. rewrite <- (length_slice off n l) at 1 by done.
  by apply le_val_in_u, slice_ok.
Qed.

Lemma le_bytes_slice n off bytes :
  bytes_ok bytes → (off + n ≤ length bytes)%nat →
  le_bytes n (le_val (slice off n bytes)) = slice off n bytes.
Proof.
  intros Hok Hl. pose proof (le_bytes_le_val _ (slice_ok off n _ Hok)) as H.
  by rewrite length_slice in H.
Qed.

Lemma slice_cat off n m bytes :
  slice off n bytes ++ slice (off + n) m bytes = slice off (n + m) bytes.
Proof.
  unfold slice. rewrite <- drop_drop. set (l := drop off bytes). clearbody l.
  rewrite <- (take_drop n (take (n + m) l)), take_take, skipn_firstn_comm.
  f_equal; f_equal; lia.
Qed.

Create HintDb bytes.
#[global] Hint Resolve le_bytes_ok be_bytes_ok slice_ok store_ok store_le_ok : bytes.
#[global] Hint Rewrite length_le_bytes length_be_bytes @length_app @length_take
  @length_drop : len.
