(* ===== verification/Btree.v ===== *)
(** * [BTreeMap] and [BTreeSet] keyed by [u64]

    The standard library's ordered map as the list of its bindings in key order,
    which is what [iter], [values] and [take] observe. *)

From stdpp Require Import base tactics numbers list sets sorting.
From S2P Require Import Prelude.
#[local] Open Scope Z_scope.

Section Btree.
Context {V : Type}.
Implicit Types (m : list (Z * V)) (k : Z) (v : V).

(** [insert]: replaces the value of an existing key. *)
Fixpoint bt_insert (k : Z) (v : V) (m : list (Z * V)) : list (Z * V) :=
  match m with
  | [] => [(k, v)]
  | (k', v') :: m' =>
      if k <? k' then (k, v) :: m
      else if k =? k' then (k, v) :: m'
      else (k', v') :: bt_insert k v m'
  end.

Definition bt_remove (k : Z) (m : list (Z * V)) : list (Z * V) :=
  List.filter (fun '(k', _) => negb (k' =? k)) m.

Fixpoint bt_get (k : Z) (m : list (Z * V)) : option V :=
  match m with
  | [] => None
  | (k', v') :: m => if k =? k' then Some v' else bt_get k m
  end.

Definition bt_contains (k : Z) (m : list (Z * V)) : bool :=
  match bt_get k m with Some _ => true | None => false end.

(** [first_key_value] and [pop_first]. *)
Definition bt_first (m : list (Z * V)) : option (Z * V) := head m.
Definition bt_pop_first (m : list (Z * V)) : list (Z * V) := tail m.

(** The representation invariant: keys strictly increasing. *)
Inductive bt_sorted : list (Z * V) → Prop :=
| bt_sorted_nil : bt_sorted []
| bt_sorted_cons k v m :
    Forall (fun p => k < fst p) m → bt_sorted m → bt_sorted ((k, v) :: m).

Lemma bt_insert_Forall (P : Z * V → Prop) k v m :
  P (k, v) → Forall P m → Forall P (bt_insert k v m).
Proof.
  intros Hk. induction 1 as [|[k' v'] m Hp Hm IH]; cbn; [by constructor|].
  repeat case_if; by repeat constructor.
Qed.

Lemma bt_insert_sorted k v m : bt_sorted m → bt_sorted (bt_insert k v m).
Proof.
  induction 1 as [|k' v' m Hlt Hm IH]; cbn; [by repeat constructor|].
  destruct (Z.ltb_spec k k').
  { constructor; [|by constructor]. constructor; [done|].
    eapply Forall_impl; [exact Hlt|]. cbn. intros; lia. }
  destruct (Z.eqb_spec k k') as [->|]; [by constructor|].
  constructor; [|done]. apply bt_insert_Forall; [cbn; lia|done].
Qed.

Lemma bt_remove_sorted k m : bt_sorted m → bt_sorted (bt_remove k m).
Proof.
  induction 1 as [|k' v' m Hlt Hm IH]; cbn; [constructor|]. case_if; [|done].
  constructor; [|done]. apply Forall_forall. intros p Hp.
  apply list_elem_of_In, filter_In in Hp as [Hp _].
  by apply (proj1 (Forall_forall _ _) Hlt), list_elem_of_In.
Qed.

Lemma bt_get_lt k m : Forall (fun p => k < fst p) m → bt_get k m = None.
Proof.
  induction 1 as [|[k' v'] m H _ IH]; cbn in *; [done|].
  destruct (Z.eqb_spec k k'); [lia|done].
Qed.

Lemma bt_get_insert k v m j :
  bt_sorted m → bt_get j (bt_insert k v m) = if j =? k then Some v else bt_get j m.
Proof.
  induction 1 as [|k' v' m Hlt Hm IH]; cbn; [done|].
  destruct (Z.ltb_spec k k'); cbn; [done|].
  destruct (Z.eqb_spec k k') as [->|]; cbn; [by destruct (Z.eqb_spec j k')|].
  rewrite IH. destruct (Z.eqb_spec j k'), (Z.eqb_spec j k); (done || lia).
Qed.

Lemma bt_get_remove k m j :
  bt_get j (bt_remove k m) = if j =? k then None else bt_get j m.
Proof.
  unfold bt_remove. induction m as [|[k' v'] m IH]; cbn; [by case_if|].
  destruct (Z.eqb_spec k' k) as [->|]; cbn; rewrite IH.
  - by destruct (Z.eqb_spec j k).
  - destruct (Z.eqb_spec j k') as [->|]; [|done]. by destruct (Z.eqb_spec k' k).
Qed.

Lemma bt_get_elem k v m : bt_sorted m → (k, v) ∈ m ↔ bt_get k m = Some v.
Proof.
  induction 1 as [|k' v' m Hlt Hm IH]; cbn.
  { split; [by intros ?%not_elem_of_nil|done]. }
  rewrite elem_of_cons, IH. destruct (Z.eqb_spec k k') as [->|Hne].
  - rewrite (bt_get_lt k' m) by done. naive_solver.
  - naive_solver.
Qed.

(** Inserting past the last key appends. *)
Lemma bt_insert_last k v m : Forall (fun p => fst p < k) m → bt_insert k v m = m ++ [(k, v)].
Proof.
  induction 1 as [|[k' v'] m H _ IH]; cbn in *; [done|].
  destruct (Z.ltb_spec k k'), (Z.eqb_spec k k'); try lia. by rewrite IH.
Qed.

(** Two maps with the same bindings are equal. *)
Lemma bt_ext m1 m2 :
  bt_sorted m1 → bt_sorted m2 → (∀ k, bt_get k m1 = bt_get k m2) → m1 = m2.
Proof.
  intros H1. revert m2. induction H1 as [|k v m Hlt Hm IH]; intros m2 H2 Heq.
  { destruct H2 as [|k' v' m' _ _]; [done|]. specialize (Heq k'). cbn in Heq.
    by rewrite Z.eqb_refl in Heq. }
  destruct H2 as [|k' v' m' Hlt' Hm'].
  { specialize (Heq k). cbn in Heq. by rewrite Z.eqb_refl in Heq. }
  assert (k = k') as <-.
  { destruct (Z.lt_trichotomy k k') as [Hk|[->|Hk]]; [|done|].
    - specialize (Heq k). cbn in Heq. rewrite Z.eqb_refl in Heq.
      destruct (Z.eqb_spec k k'); [done|]. rewrite bt_get_lt in Heq; [done|].
      eapply Forall_impl; [exact Hlt'|]. cbn; lia.
    - specialize (Heq k'). cbn in Heq. rewrite Z.eqb_refl in Heq.
      destruct (Z.eqb_spec k' k); [done|]. rewrite bt_get_lt in Heq; [done|].
      eapply Forall_impl; [exact Hlt|]. cbn; lia. }
  pose proof (Heq k) as Hv. cbn in Hv. rewrite Z.eqb_refl in Hv. injection Hv as <-.
  f_equal. apply IH; [done|]. intros j. specialize (Heq j). cbn in Heq.
  destruct (Z.eqb_spec j k) as [E|]; [|done]. rewrite E. by rewrite !bt_get_lt.
Qed.

Lemma bt_sorted_app_last k v m :
  bt_sorted m → Forall (fun p => fst p < k) m → bt_sorted (m ++ [(k, v)]).
Proof. intros. rewrite <- bt_insert_last by done. by apply bt_insert_sorted. Qed.

Lemma bt_sorted_NoDup m : bt_sorted m → NoDup (map fst m).
Proof.
  induction 1 as [|k v m Hlt Hm IH]; cbn; constructor; [|done].
  intros Hin. apply list_elem_of_In, in_map_iff in Hin as ([k' v'] & <- & Hin).
  apply list_elem_of_In in Hin. apply (proj1 (Forall_forall _ _) Hlt) in Hin. cbn in Hin. lia.
Qed.

Lemma bt_sorted_app_below m k v m' :
  bt_sorted (m ++ (k, v) :: m') → Forall (fun q => fst q < k) m.
Proof.
  induction m as [|[k' v'] m IH]; cbn [app]; intros Hs; [constructor|].
  inversion_clear Hs as [|? ? ? Hlt Hs']. constructor; [|by apply IH].
  apply Forall_app in Hlt as [_ Hlt]. by apply Forall_cons in Hlt as [? _].
Qed.

Lemma bt_contains_above k m : Forall (fun q => fst q < k) m → bt_contains k m = false.
Proof.
  intros H. unfold bt_contains. induction H as [|[k' v'] m H _ IH]; [done|]. cbn in *.
  by destruct (Z.eqb_spec k k'); [lia|].
Qed.

(** Removing several keys one by one. *)
Lemma bt_remove_keys (ks : list Z) m :
  fold_left (fun m p => bt_remove p m) ks m =
  List.filter (fun q => negb (bool_decide (fst q ∈ ks))) m.
Proof.
  revert m. induction ks as [|k ks IH]; intros m; cbn [fold_left].
  { symmetry. apply forallb_filter_id, forallb_forall. intros q _.
    rewrite bool_decide_false; [done|]. by intros ?%not_elem_of_nil. }
  rewrite IH. unfold bt_remove. induction m as [|[k' v'] m IHm]; [done|]. cbn [List.filter fst].
  destruct (Z.eqb_spec k' k) as [->|Hne]; cbn [negb List.filter fst].
  - rewrite (bool_decide_true (k ∈ k :: ks)) by set_solver. exact IHm.
  - rewrite IHm. by replace (bool_decide (k' ∈ k :: ks)) with (bool_decide (k' ∈ ks))
      by (apply bool_decide_ext; set_solver).
Qed.

End Btree.

(** Sorted, duplicate-free key lists: [BTreeSet<u64>] collected to a [Vec]. *)
Definition btset_of (l : list Z) : list Z :=
  map fst (fold_right (fun k m => bt_insert k tt m) [] l).

Lemma btset_of_sorted l : bt_sorted (fold_right (fun k m => bt_insert k tt m) [] l).
Proof. induction l as [|k l IH]; cbn; [constructor|by apply bt_insert_sorted]. Qed.

Lemma btset_of_NoDup l : NoDup (btset_of l).
Proof. apply bt_sorted_NoDup, btset_of_sorted. Qed.

Lemma elem_of_btset k l : k ∈ btset_of l ↔ k ∈ l.
Proof.
  unfold btset_of. trans (bt_get k (fold_right (fun k m => bt_insert k tt m) [] l) = Some tt).
  - pose proof (btset_of_sorted l) as Hs. split.
    + intros Hin. apply list_elem_of_In, in_map_iff in Hin as ([k' []] & <- & Hin).
      by apply bt_get_elem, list_elem_of_In.
    + intros Hg. apply bt_get_elem in Hg; [|done].
      apply list_elem_of_In, in_map_iff. exists (k, tt). split; [done|by apply list_elem_of_In].
  - induction l as [|k' l IH]; cbn [fold_right]; [split; [done|by intros ?%not_elem_of_nil]|].
    rewrite bt_get_insert by apply btset_of_sorted. rewrite elem_of_cons, <- IH.
    destruct (Z.eqb_spec k k'); naive_solver.
Qed.
