(* ===== verification/State.v ===== *)
(** * State passing

    Code that threads one mutable state through its calls is a function from the
    state to a result and the next state; [x ←? m; k] is [let x = m?; k]. *)

From stdpp Require Import base tactics.
From S2P Require Import Prelude.

Definition st (S A : Type) : Type := S → A * S.

#[global] Instance st_ret S : MRet (st S) := fun A a s => (a, s).
#[global] Instance st_bind S : MBind (st S) := fun A B f m s => let '(a, s) := m s in f a s.

Definition gets {S A} (f : S → A) : st S A := fun s => (f s, s).
Definition modify {S} (f : S → S) : st S unit := fun s => (tt, f s).

(** The [?] operator under state. *)
Definition st_try {S E A B} (m : st S (res E A)) (f : A → st S (res E B)) : st S (res E B) :=
  fun s => match m s with
           | (Ok a, s) => f a s
           | (Err e, s) => (Err e, s)
           | (Panic, s) => (Panic, s)
           end.

Notation "x ←? m ; k" := (st_try m (fun x => k))
  (at level 20, m at level 100, k at level 200, right associativity) : stdpp_scope.

(** [for a in l], carrying a value. *)
Fixpoint st_fold {S A B} (f : B → A → st S B) (b : B) (l : list A) : st S B :=
  match l with
  | [] => mret b
  | a :: l => b ← f b a; st_fold f b l
  end.

Lemma st_bind_inv {S A B} (m : st S A) (f : A → st S B) s b s' :
  (m ≫= f) s = (b, s') → ∃ a s1, m s = (a, s1) ∧ f a s1 = (b, s').
Proof. unfold mbind, st_bind. destruct (m s) as [a s1]. eauto. Qed.

Lemma st_try_Ok {S E A B} (m : st S (res E A)) (f : A → st S (res E B)) s b s' :
  st_try m f s = (Ok b, s') → ∃ a s1, m s = (Ok a, s1) ∧ f a s1 = (Ok b, s').
Proof. unfold st_try. destruct (m s) as [[a|e|] s1]; naive_solver. Qed.

Lemma st_try_ret {S E A B} (x : res E A) (f : A → st S (res E B)) s :
  st_try (mret x) f s = match x with Ok a => f a s | Err e => (Err e, s) | Panic => (Panic, s) end.
Proof. by destruct x. Qed.

(** A property of the state that every step of a loop keeps. *)
Lemma st_fold_inv {S A B} (f : B → A → st S B) (P : S → Prop) l b s b' s' :
  (∀ b a s b' s', a ∈ l → P s → f b a s = (b', s') → P s') →
  P s → st_fold f b l s = (b', s') → P s'.
Proof.
  intros Hf. revert b s. induction l as [|a l IH]; intros b s HP; cbn [st_fold].
  - by intros [= _ <-].
  - intros H. apply st_bind_inv in H as (b1 & s1 & H1 & H2).
    apply IH in H2; [done| |by eapply (Hf b a); [left| |]].
    intros ??????. apply Hf. by right.
Qed.
