(* ===== verification/Text.v ===== *)
(** * Formatted keys

    Integers print in decimal ([pretty] of stdpp is [Display] of the integer
    types), and [":"] separates the fields of a key.  Keys built that way are
    injective when the fields before the last have no [":"]. *)

From Stdlib Require Import Ascii.
From stdpp Require Import base tactics numbers list strings pretty.
From S2P Require Import Prelude.
#[local] Open Scope Z_scope.

(** The string lacks the character. *)
Fixpoint lacks (x : ascii) (s : string) : bool :=
  match s with
  | "" => true
  | String c s => negb (c =? x)%char && lacks x s
  end.
Notation no_colon := (lacks ":").

Lemma lacks_app x s t : lacks x (s +:+ t) = lacks x s && lacks x t.
Proof.
  induction s as [|c s IH]; [done|].
  change (String c s +:+ t) with (String c (s +:+ t)). cbn [lacks]. by rewrite IH, andb_assoc.
Qed.
Definition no_colon_app := lacks_app ":".

Lemma colon_split s s' t t' :
  no_colon s = true → no_colon s' = true → s +:+ ":" +:+ t = s' +:+ ":" +:+ t' → s = s' ∧ t = t'.
Proof.
  revert s'. induction s as [|c s IH]; intros [|c' s'] Hs Hs' H; unfold String.append in H;
    fold String.append in H; cbn in *; simplify_eq; try done.
  apply andb_prop in Hs as [_ Hs], Hs' as [_ Hs'].
  by destruct (IH s' Hs Hs') as [-> ->].
Qed.

(** A character that no printed number has. *)
Definition not_printed (x : ascii) : Prop := (∀ d, pretty_N_char d ≠ x) ∧ "-"%char ≠ x.

Lemma pretty_go_lacks x n s : not_printed x → lacks x s = true → lacks x (pretty_N_go n s) = true.
Proof.
  intros [Hx _]. revert s. induction (N.lt_wf_0 n) as [n _ IH]; intros s Hs.
  destruct (decide (0 < n)%N) as [Hn|Hn]; [|by replace n with 0%N by lia].
  rewrite pretty_N_go_step by done. apply IH; [by apply N.div_lt|]. cbn [lacks]. rewrite Hs, andb_true_r.
  by apply negb_true_iff, Ascii.eqb_neq.
Qed.

Lemma pretty_N_lacks x (n : N) : not_printed x → lacks x (pretty n) = true.
Proof.
  intros Hx. unfold pretty, pretty_N. case_match; [|by apply pretty_go_lacks]. cbn [lacks]. rewrite andb_true_r.
  apply negb_true_iff, Ascii.eqb_neq. apply (proj1 Hx 0%N).
Qed.

Lemma pretty_Z_lacks x (z : Z) : not_printed x → lacks x (pretty z) = true.
Proof.
  intros Hx. unfold pretty, pretty_Z. destruct z; [| |rewrite lacks_app]; [| |apply andb_true_iff; split];
    try by apply pretty_N_lacks.
  - cbn [lacks]. rewrite andb_true_r. apply negb_true_iff, Ascii.eqb_neq. apply (proj1 Hx 0%N).
  - cbn [lacks]. rewrite andb_true_r. by apply negb_true_iff, Ascii.eqb_neq, Hx.
Qed.

Lemma colon_not_printed : not_printed ":".
Proof. split; [|done]. intros d. unfold pretty_N_char. by repeat case_match. Qed.

Lemma pretty_N_no_colon (n : N) : no_colon (pretty n) = true.
Proof. apply pretty_N_lacks, colon_not_printed. Qed.
Lemma pretty_Z_no_colon (z : Z) : no_colon (pretty z) = true.
Proof. apply pretty_Z_lacks, colon_not_printed. Qed.

#[export] Hint Resolve pretty_N_no_colon pretty_Z_no_colon : core.

(** ** Concatenation *)

Lemma length_append (a b : string) : String.length (a +:+ b) = (String.length a + String.length b)%nat.
Proof. induction a as [|c a IH]; [done|]. change (S (String.length (a +:+ b)) = S (String.length a + String.length b)%nat). by rewrite IH. Qed.

Lemma append_assoc (a b c : string) : (a +:+ b) +:+ c = a +:+ (b +:+ c).
Proof. induction a as [|x a IH]; [done|]. change (String x ((a +:+ b) +:+ c) = String x (a +:+ (b +:+ c))). by rewrite IH. Qed.
