(* ===== verification/Float.v ===== *)
(** * IEEE 754 doubles

    Rust's [f64] as the Standard Library's [spec_float] at precision 53, which
    computes: arithmetic rounds to nearest even, comparisons are partial, and the
    one NaN stands for every payload.  A [spec_float] in canonical form is one
    bit pattern, so Leibniz equality is equality of bits there. *)

From Stdlib Require Import ZArith SpecFloat Ascii.
From stdpp Require Import base tactics numbers list strings pretty.
From S2P Require Import Prelude.

Module Float.

Definition f64 : Type := spec_float.

#[global] Instance f64_eq_dec : EqDecision f64.
Proof. solve_decision. Defined.

Definition NAN : f64 := S754_nan.
Definition zero : f64 := S754_zero false.

(** [n as f64] for an integer [n]. *)
Definition of_Z (n : Z) : f64 := binary_normalize 53 1024 n 0 false.

Definition one : f64 := of_Z 1.
Definition EPSILON : f64 := SFldexp 53 1024 one (-52).

Definition is_finite (x : f64) : bool :=
  match x with S754_zero _ | S754_finite _ _ _ => true | _ => false end.
Definition is_nan (x : f64) : bool := match x with S754_nan => true | _ => false end.

Definition add : f64 → f64 → f64 := SFadd 53 1024.
Definition sub : f64 → f64 → f64 := SFsub 53 1024.
Definition mul : f64 → f64 → f64 := SFmul 53 1024.
Definition div : f64 → f64 → f64 := SFdiv 53 1024.
Definition abs : f64 → f64 := SFabs.

Definition eqb : f64 → f64 → bool := SFeqb.
Definition ltb : f64 → f64 → bool := SFltb.
Definition leb : f64 → f64 → bool := SFleb.

(** [f64::max]: a NaN gives the other operand. *)
Definition fmax (x y : f64) : f64 :=
  if is_nan x then y else if is_nan y then x else if ltb x y then y else x.

(** [f64::min]: likewise. *)
Definition fmin (x y : f64) : f64 :=
  if is_nan x then y else if is_nan y then x else if ltb y x then y else x.

(** [f64::round]: half-way cases away from zero. *)
Definition fround (x : f64) : f64 :=
  match x with
  | S754_finite s m e =>
      if 0 <=? e then x
      else
        let q := 2 ^ (- e) in
        let r := (2 * Zpos m + q) / (2 * q) in
        if r =? 0 then S754_zero s else binary_normalize 53 1024 (if s then - r else r) 0 false
  | x => x
  end.

(** [iter().sum::<f64>()]: a left fold from [-0.0]. *)
Definition sum (l : list f64) : f64 := fold_left add l (S754_zero true).

(** [a.total_cmp(&b).is_ne()] *)
Definition total_ne (x y : f64) : bool := negb (bool_decide (x = y)).

(** [x % y]: the exact truncated remainder, with the sign of [x]. *)
Definition rem (x y : f64) : f64 :=
  match x, y with
  | S754_nan, _ | _, S754_nan | S754_infinity _, _ | _, S754_zero _ => S754_nan
  | S754_zero _, _ | _, S754_infinity _ => x
  | S754_finite s m e, S754_finite _ m' e' =>
      let e0 := Z.min e e' in
      let r := Z.shiftl (Zpos m) (e - e0) mod Z.shiftl (Zpos m') (e' - e0) in
      if r =? 0 then S754_zero s else binary_normalize 53 1024 (if s then - r else r) e0 false
  end.

(** ** [str::parse::<f64>()]

    Sign, then [inf], [infinity] or [nan] in any case, or decimal digits with an
    optional fraction and exponent; the decimal is rounded once. *)

Definition digit (c : ascii) : option Z :=
  let n := Z.of_N (N_of_ascii c) in
  if (48 <=? n) && (n <=? 57) then Some (n - 48) else None.

Definition lower (c : ascii) : ascii :=
  let n := N_of_ascii c in
  if (65 <=? n)%N && (n <=? 90)%N then ascii_of_N (n + 32) else c.

Fixpoint lowercase (s : string) : string :=
  match s with "" => "" | String c s => String (lower c) (lowercase s) end.

(** The digits at the front: their value after [acc], how many, and the rest. *)
Fixpoint digits (acc : Z) (n : nat) (s : string) : Z * nat * string :=
  match s with
  | String c s' =>
      match digit c with Some d => digits (acc * 10 + d) (S n) s' | None => (acc, n, s) end
  | "" => (acc, n, s)
  end.

Definition sign (s : string) : bool * string :=
  match s with
  | String c s' => if (c =? "-")%char then (true, s') else if (c =? "+")%char then (false, s') else (false, s)
  | "" => (false, s)
  end.

(** [m * 10 ^ e], rounded once. *)
Definition decimal (neg : bool) (m e : Z) : f64 :=
  match m with
  | Zpos p =>
      if 0 <=? e then
        let x := binary_normalize 53 1024 (m * 10 ^ e) 0 false in
        if neg then SFopp x else x
      else SFdiv 53 1024 (S754_finite neg p 0) (S754_finite false (Z.to_pos (10 ^ (- e))) 0)
  | _ => S754_zero neg
  end.

Definition exponent (s : string) : option Z :=
  match s with
  | "" => Some 0
  | String c s =>
      if (lower c =? "e")%char then
        let '(neg, s) := sign s in
        match digits 0 0 s with
        | (e, S _, "") => Some (if neg then - e else e)
        | _ => None
        end
      else None
  end.

Definition number (neg : bool) (s : string) : option f64 :=
  let '(m, n, s) := digits 0 0 s in
  let '(m, k, s) :=
    match s with
    | String c s' => if (c =? ".")%char then digits m 0 s' else (m, O, s)
    | "" => (m, O, s)
    end in
  if (n + k =? 0)%nat then None
  else e ← exponent s; Some (decimal neg m (e - Z.of_nat k)).

Definition parse_f64 (s : string) : option f64 :=
  let '(neg, s) := sign s in
  let l := lowercase s in
  if bool_decide (l = "inf" ∨ l = "infinity") then Some (S754_infinity neg)
  else if bool_decide (l = "nan") then Some S754_nan
  else number neg s.

Example parse_tenth : parse_f64 "-0.10e1" = Some (SFopp one).
Proof. by vm_compute. Qed.

Example parse_dot : parse_f64 "." = None ∧ parse_f64 "5." = Some (of_Z 5) ∧ parse_f64 "1e" = None.
Proof. by vm_compute. Qed.

(** ** [f64::to_string]

    The fewest significant digits that read back as the value, the closest such
    decimal, written without an exponent. *)

(** The least [k], from [k] on, with [num / den < 10 ^ k]. *)
Fixpoint magnitude (fuel : nat) (num den k : Z) : Z :=
  match fuel with
  | O => k
  | S fuel =>
      let below := if 0 <=? k then num <? den * 10 ^ k else num * 10 ^ (- k) <? den in
      if below then k else magnitude fuel num den (k + 1)
  end.

(** The closest decimal [d * 10 ^ (-p)] of [num / den] that reads back as [x]. *)
Definition closest (x : f64) (num den p : Z) : option Z :=
  let num := if 0 <=? p then num * 10 ^ p else num in
  let den := if 0 <=? p then den else den * 10 ^ (- p) in
  let d := num / den in
  let back d := bool_decide (decimal false d (- p) = x) in
  let up := den <? 2 * (num - d * den) in
  if up && back (d + 1) then Some (d + 1)
  else if back d then Some d
  else if back (d + 1) then Some (d + 1) else None.

Fixpoint shortest (fuel : nat) (x : f64) (num den k n : Z) : Z * Z :=
  match fuel with
  | O => (0, 0)
  | S fuel =>
      match closest x num den (n - k) with
      | Some d => (d, n - k)
      | None => shortest fuel x num den k (n + 1)
      end
  end.

(** [n] decimal digits of [d], most significant first. *)
Fixpoint padded (n : nat) (d : Z) : string :=
  match n with
  | O => ""
  | S n => padded n (d / 10) +:+ pretty (d mod 10)
  end.

Definition to_string (x : f64) : string :=
  match x with
  | S754_nan => "NaN"
  | S754_infinity s => if s then "-inf" else "inf"
  | S754_zero s => if s then "-0" else "0"
  | S754_finite s m e =>
      let num := if 0 <=? e then Zpos m * 2 ^ e else Zpos m in
      let den := if 0 <=? e then 1 else 2 ^ (- e) in
      let k := magnitude 700 num den (((Z.log2 num - Z.log2 den) * 3) / 10 - 17) in
      let '(d, p) := shortest 18 (S754_finite false m e) num den k 1 in
      (if s then "-" else "") +:+
      if p <=? 0 then pretty (d * 10 ^ (- p))
      else pretty (d / 10 ^ p) +:+ "." +:+ padded (Z.to_nat p) (d mod 10 ^ p)
  end.

Example to_string_samples :
  map to_string [of_Z 5; decimal true 1025 (-4); decimal false 1 (-9); of_Z (10 ^ 23); EPSILON;
                 decimal false 3 (-1)] =
  ["5"; "-0.1025"; "0.000000001"; "100000000000000000000000"; "0.0000000000000002220446049250313";
   "0.3"].
Proof. by vm_compute. Qed.

Example to_string_extremes :
  let tiny := decimal false 5 (-324) in
  let huge := decimal false 17976931348623157 292 in
  parse_f64 (to_string tiny) = Some tiny ∧ parse_f64 (to_string huge) = Some huge ∧
  String.length (to_string tiny) = 326%nat ∧ String.length (to_string huge) = 309%nat.
Proof. by vm_compute. Qed.

Lemma ltb_finite x : is_nan x = true → ∀ y, ltb x y = false.
Proof. by destruct x. Qed.

Lemma eqb_refl x : is_nan x = false → eqb x x = true.
Proof.
  destruct x as [s|s| |s m e]; [done|by destruct s|done|]. intros _. unfold eqb, SFeqb. cbn.
  rewrite Z.compare_refl. change (PosDef.Pos.compare_cont Eq m m) with (Pos.compare m m).
  rewrite Pos.compare_refl. by destruct s.
Qed.

Example rem_half : rem (of_Z (-7)) (of_Z 2) = of_Z (-1) ∧ rem (of_Z 5) (of_Z 3) = of_Z 2.
Proof. by vm_compute. Qed.

(** ** Comparisons *)

Lemma compare_swap x y : SFcompare y x = option_map CompOpp (SFcompare x y).
Proof.
  destruct x as [a|a| |a m e], y as [b|b| |b m' e']; try (by destruct a); try (by destruct b); try done;
    try (by destruct a, b).
  cbn. rewrite (Z.compare_antisym e e').
  change (PosDef.Pos.compare_cont Eq m' m) with (Pos.compare m' m).
  change (PosDef.Pos.compare_cont Eq m m') with (Pos.compare m m').
  rewrite (Pos.compare_antisym m m'). destruct a, b; try done; by destruct (e ?= e'), (Pos.compare m m').
Qed.

Lemma compare_Some x y : is_nan x = false → is_nan y = false → is_Some (SFcompare x y).
Proof.
  destruct x as [a|a| |a m e], y as [b|b| |b m' e']; try done; intros _ _; cbn;
    repeat (match goal with |- context [if ?b then _ else _] => destruct b end || case_match);
    by eexists.
Qed.

Lemma finite_not_nan x : is_finite x = true → is_nan x = false.
Proof. by destruct x. Qed.

(** Without a NaN the order is total. *)
Lemma ltb_leb x y : is_nan x = false → is_nan y = false → ltb x y = negb (leb y x).
Proof.
  intros Hx Hy. destruct (compare_Some x y Hx Hy) as [c Hc]. unfold ltb, leb, SFltb, SFleb.
  rewrite (compare_swap x y), Hc. by destruct c.
Qed.

Lemma leb_refl x : is_nan x = false → leb x x = true.
Proof.
  intros H. apply eqb_refl in H. revert H. unfold eqb, leb, SFeqb, SFleb.
  by destruct (SFcompare x x) as [[]|].
Qed.

Lemma sub_self x : is_finite x = true → sub x x = zero.
Proof.
  destruct x as [s| | |s m e]; try done; intros _; [by destruct s|].
  unfold sub, SFsub. by rewrite Z.sub_diag.
Qed.

(** ** Bits

    [f64::to_bits] and [f64::from_bits]: sign, eleven bits of exponent, 52 of
    mantissa.  Every NaN is the quiet one. *)

Definition to_bits (x : f64) : Z :=
  match x with
  | S754_zero s => if s then 2 ^ 63 else 0
  | S754_infinity s => (if s then 2 ^ 63 else 0) + 2047 * 2 ^ 52
  | S754_nan => 2047 * 2 ^ 52 + 2 ^ 51
  | S754_finite s m e =>
      (if s then 2 ^ 63 else 0) +
      (if Zpos m <? 2 ^ 52 then Zpos m else (e + 1075) * 2 ^ 52 + (Zpos m - 2 ^ 52))
  end.

Definition from_bits (b : Z) : f64 :=
  let s := 2 ^ 63 <=? b in
  let r := b mod 2 ^ 63 in
  let field := r / 2 ^ 52 in
  let mant := r mod 2 ^ 52 in
  if field =? 2047 then if mant =? 0 then S754_infinity s else S754_nan
  else
    match (if field =? 0 then mant else mant + 2 ^ 52) with
    | Zpos m => S754_finite s m (if field =? 0 then -1074 else field - 1075)
    | _ => S754_zero s
    end.

(** A value of the type: its mantissa and exponent are the canonical ones. *)
Definition canonical (x : f64) : bool :=
  match x with
  | S754_finite _ m e => SpecFloat.bounded 53 1024 m e
  | _ => true
  end.

Lemma digits_size m : digits2_pos m = Pos.size m.
Proof. induction m; cbn; congruence. Qed.

(** Mantissas have at most 53 bits, and fewer only at the least exponent. *)
Lemma bounded_spec m e :
  SpecFloat.bounded 53 1024 m e = true →
  Zpos m < 2 ^ 53 ∧ -1074 ≤ e ≤ 971 ∧ (Zpos m < 2 ^ 52 → e = -1074).
Proof.
  unfold SpecFloat.bounded, canonical_mantissa, fexp, emin. rewrite andb_true_iff, Z.eqb_eq, Z.leb_le, digits_size.
  intros [Hf He]. pose proof (Pos.size_gt m) as Hgt. pose proof (Pos.size_le m) as Hle.
  assert (Zpos m < 2 ^ Zpos (Pos.size m)) as Hlt by (rewrite <- Pos2Z.inj_pow; lia).
  assert (2 ^ Zpos (Pos.size m) ≤ 2 * Zpos m) as Hge by (rewrite <- Pos2Z.inj_pow; lia).
  split_and!; [|lia|lia|].
  - eapply Z.lt_le_trans; [exact Hlt|]. apply Z.pow_le_mono_r; lia.
  - intros Hm. assert (2 ^ Zpos (Pos.size m) < 2 ^ 53) as Hs by lia.
    apply Z.pow_lt_mono_r_iff in Hs; lia.
Qed.

Lemma from_to_bits x : canonical x = true → from_bits (to_bits x) = x.
Proof.
  destruct x as [s|s| |s m e]; [by destruct s..|done|]. cbn [canonical]. intros (Hm & He & Hsub)%bounded_spec.
  unfold from_bits, to_bits. set (r := if Zpos m <? 2 ^ 52 then _ else _).
  assert (0 < r < 2047 * 2 ^ 52) as Hr.
  { unfold r. case (Z.ltb_spec (Zpos m) (2 ^ 52)); intros; lia. }
  assert ((2 ^ 63 <=? (if s then 2 ^ 63 else 0) + r) = s) as ->.
  { destruct s; [apply Z.leb_le|apply Z.leb_gt]; lia. }
  assert (((if s then 2 ^ 63 else 0) + r) mod 2 ^ 63 = r) as ->.
  { destruct s; [rewrite <- (Z.mul_1_l (2 ^ 63)) at 1; rewrite Z.add_comm, Z_mod_plus_full|];
      apply Z.mod_small; lia. }
  unfold r in *. case (Z.ltb_spec (Zpos m) (2 ^ 52)) as [Hlt|Hge].
  - rewrite Z.div_small, Z.mod_small by lia. cbn [Z.eqb]. by rewrite Hsub.
  - assert ((e + 1075) * 2 ^ 52 + (Zpos m - 2 ^ 52) = (Zpos m - 2 ^ 52) + (e + 1075) * 2 ^ 52) as -> by lia.
    rewrite Z_div_plus_full, Z_mod_plus_full, Z.div_small, Z.mod_small by lia.
    rewrite (proj2 (Z.eqb_neq _ 2047)), (proj2 (Z.eqb_neq _ 0)) by lia.
    replace (Zpos m - 2 ^ 52 + 2 ^ 52) with (Zpos m) by lia. f_equal. lia.
Qed.

Lemma to_bits_in_u x : canonical x = true → in_u 64 (to_bits x).
Proof.
  unfold in_u. destruct x as [s|s| |s m e]; [by destruct s..|done|]. cbn [canonical].
  intros (Hm & He & Hsub)%bounded_spec. unfold to_bits.
  case (Z.ltb_spec (Zpos m) (2 ^ 52)); intros; destruct s; lia.
Qed.

End Float.
