(* ===== verification/Domain.v ===== *)
(** * Addresses, samples and device commands (crates/aether-domain/src/{point,command,error}.rs)

    The validated values of the control path.  The fields of the source's structs
    are private, so a value exists only through its constructor function; the
    [_ok] predicates below are what those constructors establish. *)

From Stdlib Require Import SpecFloat.
From stdpp Require Import base tactics numbers list.
From S2P Require Import Prelude Float.
#[local] Open Scope Z_scope.

Module Domain.
Import Float.

(** ** Points (point.rs) *)

Inductive PointKind := Telemetry | Status | Command | Action.

#[global] Instance PointKind_eq_dec : EqDecision PointKind.
Proof. solve_decision. Defined.

Definition is_writable (k : PointKind) : bool :=
  match k with Command | Action => true | _ => false end.

Definition is_acquisition_owned (k : PointKind) : bool :=
  match k with Telemetry | Status => true | _ => false end.

(** error.rs: the variants the control path and the alarm rules can produce. *)
Inductive DomainError :=
| EmptyIdentifier
| ZeroRevision
| EmptyCollection
| DuplicateFeature
| NonFiniteProcessingValue
| FeatureTypeMismatch
| ArrayLengthMismatch
| InvalidSampleQuality
| TimestampsNotStrictlyIncreasing
| InvalidFrameQuality
| InvalidProcessingWindow
| InvalidQuantile
| InvalidProcessingState
| PointNotWritable (k : PointKind)
| PointNotAcquisitionOwned (k : PointKind)
| PointNotCommandOwned (k : PointKind)
| NonFiniteAcquiredValue
| NonFiniteAcquiredRawValue
| NonFiniteCommandValue
| InvalidCommandWindow
| CommandExpired
| InvalidCommandConstraints
| CommandValueOutOfRange
| CommandValueOffStep
| InvalidAlarmRuleName
| InvalidAlarmTarget
| InvalidAlarmSeverity
| InvalidAlarmComparator
| NonFiniteAlarmThreshold.

Record ChannelPointAddress := ChannelPoint {
  cp_channel_id : Z; cp_kind : PointKind; cp_point_id : Z }.
Record ChannelCommandAddress := ChannelCommand {
  cc_channel_id : Z; cc_kind : PointKind; cc_point_id : Z }.
Record PointAddress := Address { instance_id : Z; kind : PointKind; point_id : Z }.

#[global] Instance ChannelCommandAddress_eq_dec : EqDecision ChannelCommandAddress.
Proof. solve_decision. Defined.
#[global] Instance PointAddress_eq_dec : EqDecision PointAddress.
Proof. solve_decision. Defined.

Definition channel_command_new (channel : Z) (k : PointKind) (point : Z)
    : res DomainError ChannelCommandAddress :=
  if negb (is_writable k) then Err (PointNotCommandOwned k)
  else Ok (ChannelCommand channel k point).

Definition channel_point_new (channel : Z) (k : PointKind) (point : Z)
    : res DomainError ChannelPointAddress :=
  if negb (is_acquisition_owned k) then Err (PointNotAcquisitionOwned k)
  else Ok (ChannelPoint channel k point).

Inductive PointQuality := Good | Uncertain | Bad | QUnavailable.

(** [age_ms as u64] is reached only for a non-negative age. *)
Definition for_sample_age (age_ms stale_after_ms : Z) : PointQuality :=
  let age := if age_ms <? 0 then 0 else age_ms in
  if age <? stale_after_ms then Good else Uncertain.

Record AcquiredPointSample := Acquired {
  as_address : ChannelPointAddress;
  as_value : f64;
  as_raw : f64;
  as_timestamp : Z;
  as_quality : PointQuality }.

Definition acquired_new (address : ChannelPointAddress) (value raw : f64) (timestamp : Z)
    (quality : PointQuality) : res DomainError AcquiredPointSample :=
  if negb (is_finite value) then Err NonFiniteAcquiredValue
  else if negb (is_finite raw) then Err NonFiniteAcquiredRawValue
  else Ok (Acquired address value raw timestamp quality).

(** ** Command limits (command.rs) *)

Definition DEFAULT_COMMAND_TTL_MS : Z := 5000.

Record CommandConstraints := Constraints {
  minimum : option f64; maximum : option f64; step : option f64 }.

Definition is_some_and {A} (f : A → bool) (o : option A) : bool := from_option f false o.

Definition constraints_new (minimum maximum step : option f64) : res DomainError CommandConstraints :=
  if is_some_and (fun v => negb (is_finite v)) minimum
     || is_some_and (fun v => negb (is_finite v)) maximum
     || is_some_and (fun v => negb (is_finite v) || leb v zero) step
     || match minimum, maximum with Some mn, Some mx => ltb mx mn | _, _ => false end
  then Err InvalidCommandConstraints
  else Ok (Constraints minimum maximum step).

Definition unbounded : CommandConstraints := Constraints None None None.

(** The literals [8.0], [1.0e-9] and [1.0e-6]. *)
Definition EIGHT : f64 := of_Z 8.
Definition BASE_TOLERANCE : f64 := decimal false 1 (-9).
Definition MAXIMUM_TOLERANCE : f64 := decimal false 1 (-6).

(** Distance of [offset] from the nearest multiple of [step]. *)
Definition step_distance (offset step : f64) : f64 :=
  let remainder := abs (rem offset step) in
  if ltb remainder (abs (sub step remainder)) then remainder else abs (sub step remainder).

Definition step_tolerance (offset step : f64) : f64 :=
  let representation_tolerance := mul (mul EPSILON (abs offset)) EIGHT in
  let base_tolerance := mul step BASE_TOLERANCE in
  let candidate :=
    if ltb base_tolerance representation_tolerance then representation_tolerance
    else base_tolerance in
  let maximum_tolerance := mul step MAXIMUM_TOLERANCE in
  if ltb candidate maximum_tolerance then candidate else maximum_tolerance.

Definition validate_value (c : CommandConstraints) (value : f64) : res DomainError unit :=
  if negb (is_finite value) then Err NonFiniteCommandValue
  else if is_some_and (fun mn => ltb value mn) (minimum c)
          || is_some_and (fun mx => ltb mx value) (maximum c)
  then Err CommandValueOutOfRange
  else
    match step c with
    | Some st =>
        let offset := sub value (default zero (minimum c)) in
        if ltb (step_tolerance offset st) (step_distance offset st) then Err CommandValueOffStep
        else Ok tt
    | None => Ok tt
    end.

(** ** Commands (command.rs) *)

Record ControlCommand := Control {
  c_id : Z; c_target : PointAddress; c_value : f64; c_issued_at : Z; c_expires_at : Z }.

Definition control_new (id : Z) (target : PointAddress) (value : f64) (issued_at expires_at : Z)
    : res DomainError ControlCommand :=
  if negb (is_writable (kind target)) then Err (PointNotWritable (kind target))
  else if negb (is_finite value) then Err NonFiniteCommandValue
  else if expires_at <=? issued_at then Err InvalidCommandWindow
  else Ok (Control id target value issued_at expires_at).

Definition control_validate_at (c : ControlCommand) (now : Z) (k : CommandConstraints)
    : res DomainError unit :=
  if c_expires_at c <=? now then Err CommandExpired else validate_value k (c_value c).

Record PhysicalDeviceCommand := Physical {
  d_id : Z; d_target : ChannelCommandAddress; d_value : f64; d_issued_at : Z; d_expires_at : Z }.

Definition physical_new (id : Z) (target : ChannelCommandAddress) (value : f64)
    (issued_at expires_at : Z) : res DomainError PhysicalDeviceCommand :=
  if negb (is_finite value) then Err NonFiniteCommandValue
  else if expires_at <=? issued_at then Err InvalidCommandWindow
  else Ok (Physical id target value issued_at expires_at).

Definition physical_validate_at (c : PhysicalDeviceCommand) (now : Z) : res DomainError unit :=
  if d_expires_at c <=? now then Err CommandExpired else Ok tt.

(** ** What the constructors establish *)

Definition constraints_ok (c : CommandConstraints) : Prop :=
  (∀ m, minimum c = Some m → is_finite m = true) ∧
  (∀ m, maximum c = Some m → is_finite m = true) ∧
  (∀ s, step c = Some s → is_finite s = true ∧ ltb zero s = true) ∧
  (∀ m m', minimum c = Some m → maximum c = Some m' → leb m m' = true).

Definition control_ok (c : ControlCommand) : Prop :=
  is_writable (kind (c_target c)) = true ∧ is_finite (c_value c) = true ∧
  c_issued_at c < c_expires_at c.

Definition physical_ok (c : PhysicalDeviceCommand) : Prop :=
  is_finite (d_value c) = true ∧ d_issued_at c < d_expires_at c.

Lemma constraints_new_ok mn mx st c :
  constraints_new mn mx st = Ok c → c = Constraints mn mx st ∧ constraints_ok c.
Proof.
  unfold constraints_new. case_if; [done|]. intros [= <-]. split; [done|]. bool_to_prop.
  unfold is_some_and in *. split_and!; cbn [minimum maximum step].
  - intros m ->. cbn in *. by bool_to_prop.
  - intros m ->. cbn in *. by bool_to_prop.
  - intros s ->. cbn in *. bool_to_prop. split; [done|].
    rewrite ltb_leb by (done || by apply finite_not_nan). by apply negb_true_iff.
  - intros m m' -> ->. cbn in *. bool_to_prop.
    rewrite ltb_leb in * by (by apply finite_not_nan). by bool_to_prop.
Qed.

Lemma validate_value_finite c v : validate_value c v = Ok tt → is_finite v = true.
Proof. unfold validate_value. by destruct (is_finite v). Qed.

Lemma validate_unbounded v : validate_value unbounded v = Ok tt ↔ is_finite v = true.
Proof. unfold validate_value. cbn. by destruct (is_finite v). Qed.

Lemma validate_value_bounds c v :
  constraints_ok c → validate_value c v = Ok tt →
  (∀ m, minimum c = Some m → leb m v = true) ∧ (∀ m, maximum c = Some m → leb v m = true).
Proof.
  intros (Hmn & Hmx & _) H. pose proof (validate_value_finite c v H) as Hv. revert H.
  unfold validate_value. rewrite Hv. cbn [negb]. case_if; [done|]. intros _. bool_to_prop.
  unfold is_some_and in *.
  split; intros m Hm; rewrite Hm in *; cbn in *.
  - rewrite ltb_leb in * by (apply finite_not_nan; auto). by bool_to_prop.
  - match goal with H : ltb m v = false |- _ => rewrite ltb_leb in H by (apply finite_not_nan; auto) end.
    by bool_to_prop.
Qed.

Lemma control_new_ok id t v i e c :
  control_new id t v i e = Ok c → c = Control id t v i e ∧ control_ok c.
Proof.
  unfold control_new. repeat case_if; try done. intros [= <-]. bool_to_prop.
  split; [done|]. split_and!; cbn; [done|done|lia].
Qed.

Lemma physical_new_ok id t v i e c :
  physical_new id t v i e = Ok c → c = Physical id t v i e ∧ physical_ok c.
Proof.
  unfold physical_new. repeat case_if; try done. intros [= <-]. bool_to_prop.
  split; [done|]. split; cbn; [done|lia].
Qed.

(** ** Admitted values *)

(** Rounding a non-negative significand gives nothing below zero. *)
Lemma round_not_negative m e l : ltb (binary_round_aux 53 1024 false m e l) zero = false.
Proof.
  unfold binary_round_aux. destruct (shr_fexp _ _ _ _ _) as [r e1].
  destruct (shr_fexp _ _ (round_nearest_even _ _) _ _) as [r' e2].
  by destruct (shr_m r'); try case_match.
Qed.

Lemma mul_not_negative x y :
  ltb zero x = true → ltb zero y = true → ltb (mul x y) zero = false.
Proof.
  destruct x as [s|[]| |[] m e], y as [s'|[]| |[] m' e']; try done. intros _ _.
  apply round_not_negative.
Qed.

Lemma step_distance_zero st : is_finite st = true → ltb zero st = true → step_distance zero st = zero.
Proof.
  intros Hf Hp. by destruct st as [[]|[]| |[] m e].
Qed.

(** A constraint set that was accepted can be satisfied: its minimum, when it
    has one, passes the range and the step check. *)
Theorem minimum_admitted (m : f64) (mx st : option f64) (c : CommandConstraints) :
  constraints_new (Some m) mx st = Ok c → validate_value c m = Ok tt.
Proof.
  intros H. apply constraints_new_ok in H as [-> (Hmn & Hmx & Hst & Hle)]. cbn in *.
  specialize (Hmn m eq_refl). unfold validate_value. cbn [minimum maximum step default].
  rewrite Hmn. change (is_some_and (fun mn => ltb m mn) (Some m)) with (ltb m m). cbn [negb].
  rewrite ltb_leb, leb_refl by (by apply finite_not_nan).
  assert (is_some_and (fun x => ltb x m) mx = false) as ->.
  { destruct mx as [x|]; [|done]. cbn.
    by rewrite ltb_leb, (Hle m x eq_refl eq_refl) by (apply finite_not_nan; auto). }
  cbn [negb orb]. destruct st as [s|]; [|done]. destruct (Hst s eq_refl) as [Hf Hp].
  rewrite sub_self, step_distance_zero by done.
  assert (ltb (step_tolerance zero s) zero = false) as ->; [|done].
  unfold step_tolerance. change (mul (mul EPSILON (abs zero)) EIGHT) with zero.
  rewrite (mul_not_negative s BASE_TOLERANCE) by done. case_match; by apply mul_not_negative.
Qed.

Definition sample_constraints : CommandConstraints :=
  Constraints (Some (of_Z 10)) (Some (of_Z 50)) (Some (decimal false 5 (-1))).

Lemma minimum_admitted_witness :
  constraints_new (Some (of_Z 10)) (Some (of_Z 50)) (Some (decimal false 5 (-1))) = Ok sample_constraints ∧
  validate_value sample_constraints (of_Z 10) = Ok tt.
Proof.
  split; [by vm_compute|].
  apply (minimum_admitted (of_Z 10) (Some (of_Z 50)) (Some (decimal false 5 (-1)))). by vm_compute.
Defined.

Example step_admits_and_rejects :
  validate_value sample_constraints (decimal false 125 (-1)) = Ok tt ∧
  validate_value sample_constraints (decimal false 123 (-1)) = Err CommandValueOffStep ∧
  validate_value sample_constraints (of_Z 51) = Err CommandValueOutOfRange ∧
  validate_value sample_constraints NAN = Err NonFiniteCommandValue.
Proof. by vm_compute. Qed.

End Domain.
