(* ===== verification/Json.v ===== *)
(** * JSON documents ([serde_json::Value])

    Parsed documents: numbers keep the three cases of serde_json, objects are
    association lists with unique keys.  Reading and printing of text is outside. *)

From stdpp Require Import base tactics numbers list strings.
From S2P Require Import Prelude Float.

Module Json.
Import Float.

Inductive Number := PosInt (n : Z) | NegInt (n : Z) | NFloat (x : f64).

Inductive Value :=
| Null
| Bool (b : bool)
| Num (n : Number)
| Str (s : string)
| Arr (l : list Value)
| Obj (l : list (string * Value)).

#[global] Instance number_eq_dec : EqDecision Number.
Proof. solve_decision. Defined.

#[global] Instance value_eq_dec : EqDecision Value.
Proof.
  hnf. fix go 1. intros v w.
  destruct v as [|a|a|a|l|l], w as [|b|b|b|k|k]; try (right; congruence).
  - by left.
  - destruct (decide (a = b)); [left|right]; congruence.
  - destruct (decide (a = b)); [left|right]; congruence.
  - destruct (decide (a = b)); [left|right]; congruence.
  - destruct (@list_eq_dec _ go l k); [left|right]; congruence.
  - assert (∀ p q : string * Value, Decision (p = q)) as D.
    { intros [s v] [t w]. destruct (decide (s = t)); [|right; congruence].
      destruct (go v w); [left|right]; congruence. }
    destruct (@list_eq_dec _ D l k); [left|right]; congruence.
Defined.

Fixpoint assoc (key : string) (l : list (string * Value)) : option Value :=
  match l with
  | [] => None
  | (k, v) :: l => if bool_decide (k = key) then Some v else assoc key l
  end.

(** [Value::get] with a string index. *)
Definition get (key : string) (v : Value) : option Value :=
  match v with Obj l => assoc key l | _ => None end.

Definition as_str (v : Value) : option string := match v with Str s => Some s | _ => None end.
Definition as_array (v : Value) : option (list Value) :=
  match v with Arr l => Some l | _ => None end.
Definition as_object (v : Value) : option (list (string * Value)) :=
  match v with Obj l => Some l | _ => None end.
Definition as_u64 (v : Value) : option Z :=
  match v with Num (PosInt n) => Some n | _ => None end.
Definition as_i64 (v : Value) : option Z :=
  match v with
  | Num (PosInt n) => if n <? 2 ^ 63 then Some n else None
  | Num (NegInt n) => Some n
  | _ => None
  end.
Definition as_f64 (v : Value) : option f64 :=
  match v with
  | Num (PosInt n) | Num (NegInt n) => Some (of_Z n)
  | Num (NFloat x) => Some x
  | _ => None
  end.

(** No number of the document is NaN or infinite. *)
Fixpoint finite_doc (v : Value) : bool :=
  match v with
  | Num (NFloat x) => is_finite x
  | Arr l => forallb finite_doc l
  | Obj l => forallb (fun '(_, v) => finite_doc v) l
  | _ => true
  end.

(** Equal documents: serde_json compares floats by value, so [-0.0] is [0.0]. *)
Definition norm_number (n : Number) : Number :=
  match n with NFloat x => NFloat (if eqb x zero then zero else x) | n => n end.

Fixpoint norm (v : Value) : Value :=
  match v with
  | Num n => Num (norm_number n)
  | Arr l => Arr (map norm l)
  | Obj l => Obj (map (fun '(k, v) => (k, norm v)) l)
  | v => v
  end.

End Json.
