(* ===== verification/Slot.v ===== *)
(** * The seqlock of [PointSlot] (crates/aether-dataplane/src/core/slot.rs)

    [PointSlot::set] and [PointSlot::try_load_consistent] run on a view-based
    release/acquire memory in which a relaxed load may return any message that
    is not older than what the thread has observed.  The model keeps every
    store ever made to a location (its modification order), the view each
    message publishes, and the current/acquire/release views of each thread, so
    the two [fence(Acquire)] of the reader and the [fence(Release)] of the
    writer do real work: dropping one breaks the theorems.  One writer thread
    owns the slot, as the code requires (io owns T/S, automation owns C/A);
    readers never store, so one reader with arbitrary interleavings stands for
    any number of them. *)

From stdpp Require Import base tactics numbers list relations.
From S2P Require Import Prelude.
#[local] Open Scope nat_scope.

Module Slot.

(** ** Memory: locations, views, messages, threads *)

(** The five atomic cells of [PointSlot]. *)
Inductive cell : Set := CValue | CRaw | CTimestamp | CQuality | CSeq.
#[global] Instance cell_eq_dec : EqDecision cell.
Proof. solve_decision. Defined.

(** A view maps each cell to the newest store observed (an index into its
    modification order). *)
Definition view : Set := cell → nat.
Definition view_bot : view := fun _ => 0.
Definition vjoin (a b : view) : view := fun c => a c `max` b c.
Definition vset (v : view) (c : cell) (t : nat) : view :=
  fun c' => if decide (c' = c) then v c' `max` t else v c'.

Record message := Msg { m_val : Z; m_view : view }.
Definition memory := cell → list message.
Definition mem_append (m : memory) (c : cell) (msg : message) : memory :=
  fun c' => if decide (c' = c) then m c' ++ [msg] else m c'.

(** [cur]: what the thread has observed; [acq]: what it observes after its next
    acquire fence; [rel]: what its relaxed stores publish (set by the last
    release fence). *)
Record thread := Thread { cur : view; acq : view; rel : view }.

Inductive ordering := Relaxed | Release.

(** [AtomicU64::load(Relaxed)] returning the store with index [t]. *)
Definition atomic_load (m : memory) (th : thread) (c : cell) (t : nat)
    : option (Z * thread) :=
  if (cur th c <=? t)%nat then
    match m c !! t with
    | Some msg =>
        Some (m_val msg,
              Thread (vset (cur th) c t)
                     (vjoin (vset (acq th) c t) (m_view msg))
                     (rel th))
    | None => None
    end
  else None.

(** [AtomicU64::store(x, Relaxed)] by the only writer: newest in the
    modification order. *)
Definition atomic_store (m : memory) (th : thread) (c : cell) (x : Z)
    : memory * thread :=
  let t := length (m c) in
  (mem_append m c (Msg x (vset (rel th) c t)),
   Thread (vset (cur th) c t) (vset (acq th) c t) (rel th)).

(** [AtomicU32::fetch_add(1, ord)] on [seq]; wraps at 32 bits.  It reads the
    newest message and continues its release sequence. *)
Definition fetch_add_seq (ord : ordering) (m : memory) (th : thread)
    : memory * thread :=
  let t := length (m CSeq) in
  let old := default (Msg 0 view_bot) (last (m CSeq)) in
  let published :=
    match ord with Relaxed => rel th | Release => cur th end in
  (mem_append m CSeq
     (Msg (wrapping_add 32 (m_val old) 1)
          (vset (vjoin published (m_view old)) CSeq t)),
   Thread (vset (cur th) CSeq t)
          (vjoin (vset (acq th) CSeq t) (m_view old)) (rel th)).

Definition fence_acquire (th : thread) : thread :=
  Thread (vjoin (cur th) (acq th)) (acq th) (rel th).
Definition fence_release (th : thread) : thread :=
  Thread (cur th) (acq th) (cur th).

(** ** The slot and its two operations *)

(** The tuple [(value, raw, timestamp, quality_code)], floats as bit patterns. *)
Record slot_data := SlotData {
  value_bits : Z; raw_bits : Z; timestamp : Z; quality_code : Z }.

(** [SLOT_UNWRITTEN_BITS]: a quiet NaN. *)
Definition SLOT_UNWRITTEN_BITS : Z := 0x7FF8000000000000%Z.

(** [PointSlot::new]. *)
Definition slot_new : slot_data :=
  SlotData SLOT_UNWRITTEN_BITS SLOT_UNWRITTEN_BITS 0 0.

(** Position of the writer inside [set] (the next statement to run). *)
Inductive set_pc :=
| WIdle
| WFence (d : slot_data)
| WValue (d : slot_data)
| WRaw (d : slot_data)
| WTimestamp (d : slot_data)
| WQuality (d : slot_data)
| WEnd (d : slot_data).

(** Position of the reader inside [try_load_consistent], with its locals. *)
Inductive load_pc :=
| RSeq1
| RCheck (seq1 : Z)
| RFence1 (seq1 : Z)
| RValue (seq1 : Z)
| RRaw (seq1 value : Z)
| RTimestamp (seq1 value raw : Z)
| RQuality (seq1 value raw ts : Z)
| RFence2 (seq1 : Z) (d : slot_data)
| RSeq2 (seq1 : Z) (d : slot_data)
| RDone (result : option slot_data).

Record sys := Sys {
  s_mem : memory;
  s_wr : thread;
  s_wpc : set_pc;
  s_rd : thread;
  s_rpc : load_pc;
  (* ghost: every value the slot was ever [set] to, oldest first *)
  s_log : list slot_data;
  (* ghost: index of the [seq] store the running load started from *)
  s_start : nat }.

Definition init_mem : memory := fun c =>
  [Msg match c with
       | CValue | CRaw => SLOT_UNWRITTEN_BITS
       | CTimestamp | CQuality | CSeq => 0
       end view_bot].
Definition init_thread : thread := Thread view_bot view_bot view_bot.
Definition init_sys : sys :=
  Sys init_mem init_thread WIdle init_thread RSeq1 [slot_new] 0.

(** First statement of [set(d)]: [seq.fetch_add(1, Relaxed)]. *)
Definition set_begin (d : slot_data) (s : sys) : sys :=
  let '(m, w) := fetch_add_seq Relaxed (s_mem s) (s_wr s) in
  Sys m w (WFence d) (s_rd s) (s_rpc s) (s_log s ++ [d]) (s_start s).

(** The remaining statements of [set], in program order. *)
Definition set_step (s : sys) : option sys :=
  let put '(m, w) pc :=
    Some (Sys m w pc (s_rd s) (s_rpc s) (s_log s) (s_start s)) in
  let m := s_mem s in
  let w := s_wr s in
  match s_wpc s with
  | WIdle => None
  | WFence d => put (m, fence_release w) (WValue d)
  | WValue d => put (atomic_store m w CValue (value_bits d)) (WRaw d)
  | WRaw d => put (atomic_store m w CRaw (raw_bits d)) (WTimestamp d)
  | WTimestamp d => put (atomic_store m w CTimestamp (timestamp d)) (WQuality d)
  | WQuality d => put (atomic_store m w CQuality (quality_code d)) (WEnd d)
  | WEnd d => put (fetch_add_seq Release m w) WIdle
  end.

(** The statements of [try_load_consistent]; [t] is the message a load
    returns. *)
Definition load_step (t : nat) (s : sys) : option sys :=
  let put th pc start :=
    Some (Sys (s_mem s) (s_wr s) (s_wpc s) th pc (s_log s) start) in
  let r := s_rd s in
  let load c := atomic_load (s_mem s) r c t in
  match s_rpc s with
  | RSeq1 =>
      match load CSeq with
      | Some (seq1, r') => put r' (RCheck seq1) t
      | None => None
      end
  | RCheck seq1 =>
      if (Z.land seq1 1 =? 0)%Z then put r (RFence1 seq1) (s_start s)
      else put r (RDone None) (s_start s)
  | RFence1 seq1 => put (fence_acquire r) (RValue seq1) (s_start s)
  | RValue seq1 =>
      match load CValue with
      | Some (value, r') => put r' (RRaw seq1 value) (s_start s)
      | None => None
      end
  | RRaw seq1 value =>
      match load CRaw with
      | Some (raw, r') => put r' (RTimestamp seq1 value raw) (s_start s)
      | None => None
      end
  | RTimestamp seq1 value raw =>
      match load CTimestamp with
      | Some (ts, r') => put r' (RQuality seq1 value raw ts) (s_start s)
      | None => None
      end
  | RQuality seq1 value raw ts =>
      match load CQuality with
      | Some (q, r') => put r' (RFence2 seq1 (SlotData value raw ts q)) (s_start s)
      | None => None
      end
  | RFence2 seq1 d => put (fence_acquire r) (RSeq2 seq1 d) (s_start s)
  | RSeq2 seq1 d =>
      match load CSeq with
      | Some (seq2, r') =>
          put r' (RDone (if (seq1 =? seq2)%Z then Some d else None)) (s_start s)
      | None => None
      end
  | RDone _ => None
  end.

(** The reader's next call, keeping everything it has observed. *)
Definition load_restart (s : sys) : sys :=
  Sys (s_mem s) (s_wr s) (s_wpc s) (s_rd s) RSeq1 (s_log s) (s_start s).

Inductive step : sys → sys → Prop :=
| step_set_begin d s : s_wpc s = WIdle → step s (set_begin d s)
| step_set s s' : set_step s = Some s' → step s s'
| step_load t s s' : load_step t s = Some s' → step s s'
| step_load_restart r s : s_rpc s = RDone r → step s (load_restart s).

Definition reachable (s : sys) : Prop := rtc step init_sys s.

(** ** Invariant *)

Definition field (c : cell) (d : slot_data) : Z :=
  match c with
  | CValue => value_bits d
  | CRaw => raw_bits d
  | CTimestamp => timestamp d
  | CQuality => quality_code d
  | CSeq => 0
  end.

(** Whether the running [set] has already stored cell [c]. *)
Definition stored (pc : set_pc) (c : cell) : bool :=
  match pc, c with
  | WIdle, _ | WEnd _, _ => true
  | WFence _, _ | WValue _, _ => false
  | WRaw _, CValue => true
  | WTimestamp _, (CValue | CRaw) => true
  | WQuality _, (CValue | CRaw | CTimestamp) => true
  | _, _ => false
  end.

Definition pc_data (pc : set_pc) : option slot_data :=
  match pc with
  | WIdle => None
  | WFence d | WValue d | WRaw d | WTimestamp d | WQuality d | WEnd d => Some d
  end.

Definition fenced (pc : set_pc) : bool :=
  match pc with WIdle | WFence _ => false | _ => true end.

(** What the memory and the writer satisfy; [S n] values have been logged. *)
Record mem_inv (m : memory) (w : thread) (pc : set_pc) (log : list slot_data)
    (n : nat) : Prop := MemInv {
  mi_log : length log = S n;
  mi_pc : ∀ d, pc_data pc = Some d → log !! n = Some d;
  mi_pos : is_Some (pc_data pc) → 0 < n;
  mi_len : ∀ c, c ≠ CSeq → length (m c) = if stored pc c then S n else n;
  mi_seq_len : length (m CSeq) =
    match pc_data pc with Some _ => 2 * n | None => S (2 * n) end;
  mi_val : ∀ c j msg, c ≠ CSeq → m c !! j = Some msg →
    ∃ d, log !! j = Some d ∧ m_val msg = field c d;
  mi_view : ∀ c j msg, c ≠ CSeq → m c !! j = Some msg →
    2 * j ≤ S (m_view msg CSeq);
  mi_seq_val : ∀ i msg, m CSeq !! i = Some msg →
    m_val msg = (Z.of_nat i mod 2 ^ 32)%Z;
  mi_seq_view : ∀ k msg c, m CSeq !! (2 * k) = Some msg → c ≠ CSeq →
    k ≤ m_view msg c;
  mi_cur : ∀ c, length (m c) ≤ S (cur w c);
  mi_rel : fenced pc = true → 2 * n ≤ S (rel w CSeq) }.

(** [x] was loaded from cell [c] out of write number [j >= k], and view [v] then
    includes the odd [seq] store that opened write [j]. *)
Definition got (v : view) (log : list slot_data) (k : nat) (c : cell) (x : Z) : Prop :=
  ∃ j d, k ≤ j ∧ log !! j = Some d ∧ x = field c d ∧ 2 * j ≤ S (v CSeq).

Definition got_all (v : view) (log : list slot_data) (k : nat) (d : slot_data) : Prop :=
  ∀ c, c ≠ CSeq → got v log k c (field c d).

(** The load started from the even [seq] store [start = 2 * k]. *)
Definition began (v : view) (start k : nat) (seq1 : Z) (low : view) : Prop :=
  start = 2 * k ∧ seq1 = (Z.of_nat start mod 2 ^ 32)%Z ∧ start ≤ v CSeq ∧
  ∀ c, c ≠ CSeq → k ≤ low c.

Definition load_inv (pc : load_pc) (r : thread) (log : list slot_data)
    (start seq_len : nat) : Prop :=
  match pc with
  | RSeq1 => True
  | RCheck seq1 =>
      seq1 = (Z.of_nat start mod 2 ^ 32)%Z ∧ start ≤ cur r CSeq ∧
      ∀ k c, start = 2 * k → c ≠ CSeq → k ≤ acq r c
  | RFence1 seq1 => ∃ k, began (cur r) start k seq1 (acq r)
  | RValue seq1 => ∃ k, began (cur r) start k seq1 (cur r)
  | RRaw seq1 value =>
      ∃ k, began (cur r) start k seq1 (cur r) ∧ got (acq r) log k CValue value
  | RTimestamp seq1 value raw =>
      ∃ k, began (cur r) start k seq1 (cur r) ∧ got (acq r) log k CValue value ∧
        got (acq r) log k CRaw raw
  | RQuality seq1 value raw ts =>
      ∃ k, began (cur r) start k seq1 (cur r) ∧ got (acq r) log k CValue value ∧
        got (acq r) log k CRaw raw ∧ got (acq r) log k CTimestamp ts
  | RFence2 seq1 d =>
      ∃ k, began (cur r) start k seq1 (cur r) ∧ got_all (acq r) log k d
  | RSeq2 seq1 d =>
      ∃ k, began (cur r) start k seq1 (cur r) ∧ got_all (cur r) log k d
  | RDone (Some d) =>
      (Z.of_nat seq_len ≤ Z.of_nat start + 2 ^ 32)%Z →
      ∃ k, start = 2 * k ∧ log !! k = Some d
  | RDone None => True
  end.

Definition inv (s : sys) : Prop :=
  (∃ n, mem_inv (s_mem s) (s_wr s) (s_wpc s) (s_log s) n) ∧
  load_inv (s_rpc s) (s_rd s) (s_log s) (s_start s) (length (s_mem s CSeq)).

(** *** Views grow *)

Lemma vset_mono v c t c' : v c' ≤ vset v c t c'.
Proof. unfold vset. case_decide; lia. Qed.

Lemma vset_at v c t : t ≤ vset v c t c.
Proof. unfold vset. case_decide; [lia|done]. Qed.

Lemma vjoin_l a b c : a c ≤ vjoin a b c.
Proof. unfold vjoin. lia. Qed.

Lemma vjoin_r a b c : b c ≤ vjoin a b c.
Proof. unfold vjoin. lia. Qed.

Create HintDb view.
#[local] Hint Resolve vset_mono vset_at vjoin_l vjoin_r : view.

Lemma mem_append_same m c msg : mem_append m c msg c = m c ++ [msg].
Proof. unfold mem_append. by case_decide. Qed.

Lemma mem_append_other m c c' msg : c' ≠ c → mem_append m c msg c' = m c'.
Proof. intros. unfold mem_append. by case_decide. Qed.

(** *** The writer preserves the memory invariant *)

Lemma seq_last m w pc log n :
  mem_inv m w pc log n →
  m_val (default (Msg 0 view_bot) (last (m CSeq))) =
    (Z.of_nat (length (m CSeq) - 1) mod 2 ^ 32)%Z ∨ length (m CSeq) = 0.
Proof.
  intros Hi. pose proof (mi_seq_val _ _ _ _ _ Hi) as Hval. destruct (last (m CSeq)) as [msg|] eqn:E.
  - left. rewrite last_lookup in E. apply Hval in E. cbn. rewrite E.
    by rewrite <- Nat.sub_1_r.
  - right. apply last_None in E. by rewrite E.
Qed.

Lemma seq_bump m w pc log n :
  mem_inv m w pc log n → 0 < length (m CSeq) →
  wrapping_add 32 (m_val (default (Msg 0 view_bot) (last (m CSeq)))) 1 =
    (Z.of_nat (length (m CSeq)) mod 2 ^ 32)%Z.
Proof.
  intros Hi Hpos. destruct (seq_last _ _ _ _ _ Hi) as [->|]; [|lia].
  unfold wrapping_add, wrap. rewrite Zplus_mod_idemp_l. f_equal. lia.
Qed.

Lemma mem_inv_begin m w log n d :
  mem_inv m w WIdle log n →
  let '(m', w') := fetch_add_seq Relaxed m w in
  mem_inv m' w' (WFence d) (log ++ [d]) (S n).
Proof.
  intros Hi. pose proof Hi as [Hlog _ _ Hlen Hslen Hval Hview Hsval Hsview Hcur _].
  cbn in Hslen, Hlen. pose proof (seq_bump _ _ _ _ _ Hi ltac:(lia)) as Hb.
  unfold fetch_add_seq. split; cbn.
  - rewrite length_app. cbn. lia.
  - intros ? [= <-]. rewrite lookup_app_r by lia. by rewrite Hlog, Nat.sub_diag.
  - lia.
  - intros c Hc. rewrite mem_append_other by done. by apply Hlen.
  - rewrite mem_append_same, length_app. cbn. lia.
  - intros c j msg Hc. rewrite mem_append_other by done. intros Hm.
    destruct (Hval _ _ _ Hc Hm) as (d' & Hd & ->). exists d'.
    split; [by apply lookup_app_l_Some|done].
  - intros c j msg Hc. rewrite mem_append_other by done. by apply Hview.
  - intros i msg. rewrite mem_append_same.
    intros [[_ Hm]|[-> <-]]%lookup_snoc_Some; [by apply Hsval|done].
  - intros k msg c. rewrite mem_append_same.
    intros [[_ Hm]|[Hk <-]]%lookup_snoc_Some Hc; [by apply (Hsview _ _ _ Hm)|lia].
  - intros c. destruct (decide (c = CSeq)) as [->|Hc].
    + rewrite mem_append_same, length_app. cbn.
      pose proof (vset_at (cur w) CSeq (length (m CSeq))). lia.
    + rewrite mem_append_other by done.
      pose proof (vset_mono (cur w) CSeq (length (m CSeq)) c). specialize (Hcur c). lia.
  - done.
Qed.

Lemma mem_inv_fence m w log n d :
  mem_inv m w (WFence d) log n → mem_inv m (fence_release w) (WValue d) log n.
Proof.
  intros [Hlog Hpc Hpos Hlen Hslen Hval Hview Hsval Hsview Hcur _].
  split; try done. cbn. intros _. specialize (Hcur CSeq). cbn in Hslen. lia.
Qed.

Lemma mem_inv_store m w pc pc' log n d c :
  mem_inv m w pc log n → c ≠ CSeq → fenced pc = true →
  pc_data pc = Some d → pc_data pc' = Some d →
  stored pc c = false → stored pc' c = true →
  (∀ c', c' ≠ CSeq → c' ≠ c → stored pc' c' = stored pc c') →
  let '(m', w') := atomic_store m w c (field c d) in
  mem_inv m' w' pc' log n.
Proof.
  intros [Hlog Hpc Hpos Hlen Hslen Hval Hview Hsval Hsview Hcur Hrel] Hc Hf Hd Hd' Hs Hs' Ho.
  specialize (Hrel Hf). pose proof (Hlen c Hc) as Hl. rewrite Hs in Hl.
  unfold atomic_store. split; cbn.
  - done.
  - rewrite Hd'. rewrite Hd in Hpc. done.
  - intros _. apply Hpos. by rewrite Hd.
  - intros c' Hc'. destruct (decide (c' = c)) as [->|Hne].
    + rewrite mem_append_same, length_app, Hs'. cbn. lia.
    + rewrite mem_append_other, Ho by done. by apply Hlen.
  - rewrite mem_append_other by done. rewrite Hslen, Hd, Hd'. done.
  - intros c' j msg Hc'. destruct (decide (c' = c)) as [->|Hne].
    + rewrite mem_append_same. intros [[_ Hm]|[-> <-]]%lookup_snoc_Some.
      * by apply Hval.
      * exists d. rewrite Hl. split; [by apply Hpc|done].
    + rewrite mem_append_other by done. by apply Hval.
  - intros c' j msg Hc'. destruct (decide (c' = c)) as [->|Hne].
    + rewrite mem_append_same. intros [[_ Hm]|[-> <-]]%lookup_snoc_Some.
      * by apply (Hview _ _ _ Hc).
      * cbn. pose proof (vset_mono (rel w) c (length (m c)) CSeq). lia.
    + rewrite mem_append_other by done. by apply Hview.
  - rewrite mem_append_other by done. done.
  - rewrite mem_append_other by done. done.
  - intros c'. destruct (decide (c' = c)) as [->|Hne].
    + rewrite mem_append_same, length_app. cbn.
      pose proof (vset_at (cur w) c (length (m c))). lia.
    + rewrite mem_append_other by done.
      pose proof (vset_mono (cur w) c (length (m c)) c'). specialize (Hcur c'). lia.
  - done.
Qed.

Lemma mem_inv_end m w log n d :
  mem_inv m w (WEnd d) log n →
  let '(m', w') := fetch_add_seq Release m w in
  mem_inv m' w' WIdle log n.
Proof.
  intros Hi. pose proof Hi as [Hlog Hpc Hpos Hlen Hslen Hval Hview Hsval Hsview Hcur Hrel].
  cbn in Hslen, Hlen. specialize (Hpos ltac:(eauto)).
  pose proof (seq_bump _ _ _ _ _ Hi ltac:(lia)) as Hb.
  unfold fetch_add_seq. split; cbn; try done.
  - intros c Hc. rewrite mem_append_other by done. by apply Hlen.
  - rewrite mem_append_same, length_app. cbn. lia.
  - intros c j msg Hc. rewrite mem_append_other by done. by apply Hval.
  - intros c j msg Hc. rewrite mem_append_other by done. by apply Hview.
  - intros i msg. rewrite mem_append_same.
    intros [[_ Hm]|[-> <-]]%lookup_snoc_Some; [by apply Hsval|done].
  - intros k msg c. rewrite mem_append_same.
    intros [[_ Hm]|[Hk <-]]%lookup_snoc_Some Hc; [by apply (Hsview _ _ _ Hm)|].
    cbn. etrans; [|apply vset_mono]. etrans; [|apply vjoin_l].
    specialize (Hcur c). rewrite Hlen in Hcur by done. lia.
  - intros c. destruct (decide (c = CSeq)) as [->|Hc].
    + rewrite mem_append_same, length_app. cbn.
      pose proof (vset_at (cur w) CSeq (length (m CSeq))). lia.
    + rewrite mem_append_other by done.
      pose proof (vset_mono (cur w) CSeq (length (m CSeq)) c). specialize (Hcur c). lia.
Qed.

Lemma set_step_mem_inv s s' n :
  set_step s = Some s' →
  mem_inv (s_mem s) (s_wr s) (s_wpc s) (s_log s) n →
  mem_inv (s_mem s') (s_wr s') (s_wpc s') (s_log s') n.
Proof.
  destruct s as [m w pc r rpc log start]. unfold set_step. cbn.
  destruct pc as [|d|d|d|d|d|d]; intros [= <-] Hi; cbn.
  - by apply mem_inv_fence.
  - eapply (mem_inv_store _ _ _ (WRaw d) _ _ d CValue) in Hi; try done.
    by intros [].
  - eapply (mem_inv_store _ _ _ (WTimestamp d) _ _ d CRaw) in Hi; try done.
    by intros [].
  - eapply (mem_inv_store _ _ _ (WQuality d) _ _ d CTimestamp) in Hi; try done.
    by intros [].
  - eapply (mem_inv_store _ _ _ (WEnd d) _ _ d CQuality) in Hi; try done.
    by intros [].
  - by apply mem_inv_end in Hi.
Qed.

(** *** The writer does not disturb a running load *)

Lemma got_mono v v' log log' k c x :
  v CSeq ≤ v' CSeq → log `prefix_of` log' → got v log k c x → got v' log' k c x.
Proof.
  intros Hv [suf ->] (j & d & ? & ? & ? & ?). exists j, d.
  split_and!; [done|by apply lookup_app_l_Some|done|lia].
Qed.

Lemma load_inv_mono pc r log log' start len len' :
  log `prefix_of` log' → len ≤ len' →
  load_inv pc r log start len → load_inv pc r log' start len'.
Proof.
  intros Hp Hl. assert (∀ v k c x, got v log k c x → got v log' k c x) as Hg.
  { intros. by eapply got_mono. }
  destruct pc as [| | | | | | | | |[d|]]; cbn; unfold got_all; try naive_solver.
  intros Hd Hb. destruct Hd as (k & -> & Hk); [lia|]. exists k. split; [done|].
  destruct Hp as [suf ->]. by apply lookup_app_l_Some.
Qed.

Lemma set_step_frame s s' :
  set_step s = Some s' →
  s_rpc s' = s_rpc s ∧ s_rd s' = s_rd s ∧ s_start s' = s_start s ∧
  s_log s' = s_log s ∧ length (s_mem s CSeq) ≤ length (s_mem s' CSeq).
Proof.
  unfold set_step. destruct (s_wpc s); intros [= <-]; cbn; split_and!; try done;
    unfold mem_append; case_decide; rewrite ?length_app; lia || done.
Qed.

(** *** The reader's steps *)

Lemma atomic_load_spec m th c t x th' :
  atomic_load m th c t = Some (x, th') →
  ∃ msg, m c !! t = Some msg ∧ x = m_val msg ∧ cur th c ≤ t ∧
    (∀ c', cur th c' ≤ cur th' c') ∧ t ≤ cur th' c ∧
    (∀ c', acq th c' ≤ acq th' c') ∧ t ≤ acq th' c ∧
    (∀ c', m_view msg c' ≤ acq th' c').
Proof.
  unfold atomic_load. destruct (Nat.leb_spec (cur th c) t); [|done].
  destruct (m c !! t) as [msg|]; [|done]. intros [= <- <-]. exists msg. cbn.
  split_and!; auto with view.
  - intros c'. etrans; [apply vset_mono|apply vjoin_l].
  - etrans; [apply vset_at|apply vjoin_l].
Qed.

Lemma began_mono v v' start k seq1 low low' :
  v CSeq ≤ v' CSeq → (∀ c, low c ≤ low' c) →
  began v start k seq1 low → began v' start k seq1 low'.
Proof.
  intros Hv Hlow (-> & -> & Hs & Hk). split_and!; [done|done|lia|].
  intros c Hc. specialize (Hk c Hc). specialize (Hlow c). lia.
Qed.

Lemma load_field m w wpc log n th c t x th' start k seq1 :
  mem_inv m w wpc log n → c ≠ CSeq →
  atomic_load m th c t = Some (x, th') →
  began (cur th) start k seq1 (cur th) →
  began (cur th') start k seq1 (cur th') ∧ got (acq th') log k c x ∧
  acq th CSeq ≤ acq th' CSeq.
Proof.
  intros Hi Hc (msg & Hm & -> & Ht & Hcur & _ & Hacq & _ & Hmv)%atomic_load_spec Hb.
  split_and!; [by eapply began_mono; eauto| |done].
  destruct (mi_val _ _ _ _ _ Hi _ _ _ Hc Hm) as (d & Hd & ->).
  exists t, d. split_and!; [|done|done|].
  - destruct Hb as (_ & _ & _ & Hk). specialize (Hk c Hc). lia.
  - pose proof (mi_view _ _ _ _ _ Hi _ _ _ Hc Hm). specialize (Hmv CSeq). lia.
Qed.

Lemma load_seq1 m w wpc log n th t seq1 th' :
  mem_inv m w wpc log n → atomic_load m th CSeq t = Some (seq1, th') →
  load_inv (RCheck seq1) th' log t (length (m CSeq)).
Proof.
  intros Hi (msg & Hm & -> & Ht & _ & Hcur & _ & _ & Hmv)%atomic_load_spec. cbn.
  split_and!; [by apply (mi_seq_val _ _ _ _ _ Hi)|done|].
  intros k c -> Hc. pose proof (mi_seq_view _ _ _ _ _ Hi _ _ c Hm Hc).
  specialize (Hmv c). lia.
Qed.

(** Bit 0 of a wrapped counter is its parity: [2^32] is even. *)
Lemma seq_even i :
  Z.land (Z.of_nat i mod 2 ^ 32) 1 = 0%Z → ∃ k, i = 2 * k.
Proof.
  intros H. change 1%Z with (Z.ones 1) in H. rewrite Z.land_ones in H by lia.
  change (2 ^ 1)%Z with 2%Z in H.
  rewrite (Z.mod_eq _ (2 ^ 32)) in H by done.
  replace (Z.of_nat i - 2 ^ 32 * (Z.of_nat i / 2 ^ 32))%Z
    with (Z.of_nat i + (- 2 ^ 31 * (Z.of_nat i / 2 ^ 32)) * 2)%Z in H by lia.
  rewrite Z.mod_add in H by done. apply Z.mod_divide in H as [q Hq]; [|done].
  exists (Z.to_nat q). lia.
Qed.

(** Two equal counter values less than one wrap apart are the same store. *)
Lemma seq_same i1 i2 :
  i1 ≤ i2 → (Z.of_nat i2 < Z.of_nat i1 + 2 ^ 32)%Z →
  (Z.of_nat i1 mod 2 ^ 32 = Z.of_nat i2 mod 2 ^ 32)%Z → i1 = i2.
Proof.
  intros Hle Hlt Heq.
  assert ((Z.of_nat i2 - Z.of_nat i1) mod 2 ^ 32 = 0)%Z as H0.
  { rewrite Zminus_mod, Heq, Z.sub_diag. done. }
  rewrite Z.mod_small in H0 by lia. lia.
Qed.

Lemma load_seq2 m w wpc log n th t seq1 seq2 th' start k d :
  mem_inv m w wpc log n → atomic_load m th CSeq t = Some (seq2, th') →
  began (cur th) start k seq1 (cur th) → got_all (cur th) log k d →
  load_inv (RDone (if (seq1 =? seq2)%Z then Some d else None)) th' log start
    (length (m CSeq)).
Proof.
  intros Hi (msg & Hm & -> & Ht & _)%atomic_load_spec (-> & -> & Hs & Hk) Hg.
  destruct (Z.eqb_spec (Z.of_nat (2 * k) mod 2 ^ 32) (m_val msg)) as [E|]; [|done].
  intros Hb. exists k. split; [done|].
  rewrite (mi_seq_val _ _ _ _ _ Hi _ _ Hm) in E.
  pose proof (lookup_lt_Some _ _ _ Hm).
  apply seq_same in E; [subst t|lia|lia].
  assert (∀ c, c ≠ CSeq → ∃ d', log !! k = Some d' ∧ field c d = field c d') as Hf.
  { intros c Hc. destruct (Hg c Hc) as (j & d' & ? & ? & ? & ?).
    assert (j = k) as -> by lia. by exists d'. }
  destruct (Hf CValue) as (d' & Hd & Hf1); [done|].
  destruct (Hf CRaw) as (? & ? & Hf2); [done|].
  destruct (Hf CTimestamp) as (? & ? & Hf3); [done|].
  destruct (Hf CQuality) as (? & ? & Hf4); [done|]. simplify_eq.
  rewrite Hd. f_equal. destruct d, d'. cbn in *. by simplify_eq.
Qed.

Lemma load_step_inv t s s' : load_step t s = Some s' → inv s → inv s'.
Proof.
  destruct s as [m w pc r rpc log start]. unfold load_step, inv. cbn.
  intros Hs [[n Hi] Hl].
  assert (∀ c x k, c ≠ CSeq → got (acq r) log k c x →
    got (vjoin (cur r) (acq r)) log k c x) as Hjoin.
  { intros c x k _. apply got_mono; [apply vjoin_r|done]. }
  destruct rpc as [|seq1|seq1|seq1|seq1 v|seq1 v raw|seq1 v raw ts|seq1 d|seq1 d|o];
    [| |..|done].
  all: repeat (case_match; try done); simplify_eq; cbn; (split; [by exists n|]).
  - by eapply load_seq1.
  - cbn in Hl. destruct Hl as (-> & ? & Hk). bool_to_prop.
    destruct (seq_even start) as [k ->]; [done|]. exists k.
    split_and!; try done. intros. by apply Hk.
  - done.
  - destruct Hl as [k Hb]. exists k. eapply began_mono; [..|done]; intros; [apply vjoin_l|apply vjoin_r].
  - destruct Hl as [k Hb].
    edestruct load_field as (? & ? & ?); [exact Hi| |done|exact Hb|]; [done|].
    by exists k.
  - destruct Hl as (k & Hb & Hv).
    edestruct load_field as (? & ? & ?); [exact Hi| |done|exact Hb|]; [done|].
    exists k; split_and!; try done.
    by eapply got_mono.
  - destruct Hl as (k & Hb & Hv & Hr).
    edestruct load_field as (? & ? & ?); [exact Hi| |done|exact Hb|]; [done|].
    exists k; split_and!; try done;
      by eapply got_mono.
  - destruct Hl as (k & Hb & Hv & Hr & Hts).
    edestruct load_field as (? & ? & ?); [exact Hi| |done|exact Hb|]; [done|].
    exists k; split_and!; try done.
    intros [] ?; cbn; try done; by eapply got_mono.
  - destruct Hl as (k & Hb & Hg). exists k. split.
    + eapply began_mono; [..|done]; intros; apply vjoin_l.
    + intros c Hc. apply Hjoin; [done|]. by apply Hg.
  - destruct Hl as (k & Hb & Hg).
    match goal with
    | Ha : atomic_load _ _ _ _ = _, He : (_ =? _)%Z = true |- _ =>
        pose proof (load_seq2 _ _ _ _ _ _ _ _ _ _ _ _ _ Hi Ha Hb Hg) as Hd;
        by rewrite He in Hd
    end.
  - done.
Qed.

Lemma inv_init : inv init_sys.
Proof.
  split; [|done]. exists 0. unfold init_sys. split; cbn; try done.
  - intros c [|j] msg _; [|done]. cbn. intros [= <-]. exists slot_new.
    split; [done|]. by destruct c.
  - intros c [|j] msg _; [|done]. cbn. lia.
  - intros [|i] msg; [|done]. by intros [= <-].
  - intros [|k] msg c; [lia|].
    by replace (S k + (S k + 0)) with (S (S (k + (k + 0)))) by lia.
Qed.

Lemma inv_step s s' : step s s' → inv s → inv s'.
Proof.
  destruct 1 as [d s Hpc|s s' Hs|t s s' Hs|r s Hr]; intros Hinv.
  - destruct Hinv as [[n Hi] Hl]. rewrite Hpc in Hi.
    eapply (mem_inv_begin _ _ _ _ d) in Hi. split; [by exists (S n)|].
    eapply load_inv_mono; [..|exact Hl]; cbn; [by eexists|].
    rewrite mem_append_same, length_app. lia.
  - destruct Hinv as [[n Hi] Hl]. split; [exists n; by eapply set_step_mem_inv|].
    apply set_step_frame in Hs as (-> & -> & -> & -> & ?).
    by eapply load_inv_mono.
  - by eapply load_step_inv.
  - by destruct Hinv as [? _].
Qed.

Lemma inv_reachable s : reachable s → inv s.
Proof.
  intros Hr. unfold reachable in Hr. revert Hr. generalize inv_init.
  generalize init_sys. induction 2; eauto using inv_step.
Qed.

(** ** Theorems *)

(** C1. No torn read.  Whenever a call of [try_load_consistent] has returned
    [Some], under any interleaving with the writer and any choice of stale
    messages the fences permit, all four fields come from one and the same
    [set] (or from the initial slot): write number [k] of the log, where
    [2 * k] is the [seq] store the call started from.  The only premise is
    that the 32-bit counter did not wrap around during the call (fewer than
    [2^31] writes). *)
Theorem try_load_consistent_not_torn (s : sys) (d : slot_data) :
  reachable s → s_rpc s = RDone (Some d) →
  (Z.of_nat (length (s_mem s CSeq)) ≤ Z.of_nat (s_start s) + 2 ^ 32)%Z →
  ∃ k, s_start s = 2 * k ∧ s_log s !! k = Some d.
Proof.
  intros Hr Hpc Hb. apply inv_reachable in Hr as [_ Hl]. rewrite Hpc in Hl. auto.
Qed.

(** [set] never enters with an odd counter: its [debug_assert!] holds, and the
    store a completed [set] published last is the whole logged tuple. *)
Lemma set_entered_even s :
  reachable s → s_wpc s = WIdle →
  ∃ n, length (s_log s) = S n ∧ length (s_mem s CSeq) = S (2 * n) ∧
    ∀ c, c ≠ CSeq → length (s_mem s c) = S n.
Proof.
  intros [[n [Hlog _ _ Hlen Hslen _ _ _ _ _ _]] _]%inv_reachable Hpc.
  rewrite Hpc in *. exists n. split_and!; [done|done|]. intros c Hc. by rewrite Hlen.
Qed.

(** Runs the reader with the choices [ts]. *)
Fixpoint load_run (ts : list nat) (s : sys) : option sys :=
  match ts with
  | [] => Some s
  | t :: ts => match load_step t s with Some s' => load_run ts s' | None => None end
  end.

(** *** Successive loads of one reader *)

Lemma start_observed_step s s' :
  step s s' → s_start s ≤ cur (s_rd s) CSeq →
  s_start s ≤ s_start s' ∧ s_start s' ≤ cur (s_rd s') CSeq.
Proof.
  destruct 1 as [d s Hpc|s s' Hs|t s s' Hs|r s Hr]; intros Hle.
  - unfold set_begin. destruct (fetch_add_seq _ _ _). by cbn.
  - apply set_step_frame in Hs as (_ & -> & -> & _). done.
  - destruct s as [m w pc r rpc log start]. unfold load_step in Hs. cbn in *.
    destruct rpc; repeat (case_match; try done); simplify_eq; cbn;
      try match goal with
      | H : atomic_load _ _ _ _ = _ |- _ =>
          apply atomic_load_spec in H as (? & ? & ? & ? & Hc & ? & ?);
          specialize (Hc CSeq)
      end; try lia; pose proof (vjoin_l (cur r) (acq r) CSeq); lia.
  - done.
Qed.

Lemma start_observed s : reachable s → s_start s ≤ cur (s_rd s) CSeq.
Proof.
  intros Hr. unfold reachable in Hr. revert Hr.
  assert (s_start init_sys ≤ cur (s_rd init_sys) CSeq) as H0 by done. revert H0.
  generalize init_sys. intros s0 H0. induction 1 as [|s1 s2 s3 Hs _ IH]; [done|].
  apply IH. by eapply start_observed_step.
Qed.

Lemma start_monotone s s' :
  rtc step s s' → s_start s ≤ cur (s_rd s) CSeq → s_start s ≤ s_start s'.
Proof.
  induction 1 as [|s1 s2 s3 Hs _ IH]; intros H0; [done|].
  destruct (start_observed_step _ _ Hs H0). etrans; eauto.
Qed.

Lemma step_grow s s' :
  step s s' →
  s_log s `prefix_of` s_log s' ∧ length (s_mem s CSeq) ≤ length (s_mem s' CSeq).
Proof.
  destruct 1 as [d s Hpc|s s' Hs|t s s' Hs|r s Hr].
  - cbn. rewrite mem_append_same, length_app. split; [by eexists|lia].
  - apply set_step_frame in Hs as (_ & _ & _ & -> & ?). done.
  - unfold load_step in Hs. destruct (s_rpc s); repeat (case_match; try done);
      by simplify_eq.
  - done.
Qed.

Lemma steps_grow s s' :
  rtc step s s' →
  s_log s `prefix_of` s_log s' ∧ length (s_mem s CSeq) ≤ length (s_mem s' CSeq).
Proof.
  induction 1 as [|s1 s2 s3 Hs _ [IH1 IH2]]; [done|].
  apply step_grow in Hs as [? ?]. split; [by etrans|lia].
Qed.

(** Loads by one reader never go back in time: if one call returned write
    [k1] and a later call (after any number of steps of both threads) returned
    write [k2], then [k1 <= k2]. *)
Theorem try_load_consistent_monotone (s1 s2 : sys) (d1 d2 : slot_data) :
  reachable s1 → rtc step s1 s2 →
  s_rpc s1 = RDone (Some d1) → s_rpc s2 = RDone (Some d2) →
  (Z.of_nat (length (s_mem s2 CSeq)) ≤ Z.of_nat (s_start s1) + 2 ^ 32)%Z →
  ∃ k1 k2, k1 ≤ k2 ∧ s_log s2 !! k1 = Some d1 ∧ s_log s2 !! k2 = Some d2.
Proof.
  intros Hr1 Hs Hp1 Hp2 Hb.
  assert (reachable s2) as Hr2 by (unfold reachable in *; by etrans).
  pose proof (start_monotone _ _ Hs (start_observed _ Hr1)) as Hmono.
  destruct (steps_grow _ _ Hs) as [Hlog Hlen].
  apply inv_reachable in Hr1 as [_ Hl1], Hr2 as [_ Hl2].
  rewrite Hp1 in Hl1. rewrite Hp2 in Hl2.
  destruct Hl1 as (k1 & H1 & Hk1); [lia|]. destruct Hl2 as (k2 & H2 & Hk2); [lia|].
  exists k1, k2. split_and!; [lia| |done].
  destruct Hlog as [suf ->]. by apply lookup_app_l_Some.
Qed.

(** *** Views stay within the stores made *)

Definition bounded (m : memory) (v : view) : Prop := ∀ c, v c < length (m c).

Record bound_inv (s : sys) : Prop := BoundInv {
  bi_msg : ∀ c i msg, s_mem s c !! i = Some msg → bounded (s_mem s) (m_view msg);
  bi_cur : bounded (s_mem s) (cur (s_rd s));
  bi_acq : bounded (s_mem s) (acq (s_rd s));
  bi_wcur : bounded (s_mem s) (cur (s_wr s));
  bi_wrel : bounded (s_mem s) (rel (s_wr s)) }.

Lemma bounded_append m c msg v : bounded m v → bounded (mem_append m c msg) v.
Proof.
  intros Hb c'. specialize (Hb c'). unfold mem_append. case_decide; [|done].
  rewrite length_app. lia.
Qed.

Lemma bounded_append_vset m c msg v :
  bounded m v → bounded (mem_append m c msg) (vset v c (length (m c))).
Proof.
  intros Hb c'. specialize (Hb c'). unfold mem_append, vset.
  case_decide; [subst|done]. rewrite length_app. cbn. lia.
Qed.

Lemma bounded_vjoin m a b : bounded m a → bounded m b → bounded m (vjoin a b).
Proof. intros Ha Hb c. specialize (Ha c). specialize (Hb c). unfold vjoin. lia. Qed.

Lemma bounded_vset m v c t : bounded m v → t < length (m c) → bounded m (vset v c t).
Proof.
  intros Hb Ht c'. specialize (Hb c'). unfold vset. case_decide; [subst; lia|done].
Qed.

#[local] Hint Resolve bounded_append bounded_append_vset bounded_vjoin bounded_vset
  : view.

Lemma msgs_append m c msg :
  (∀ c' i x, m c' !! i = Some x → bounded m (m_view x)) →
  bounded (mem_append m c msg) (m_view msg) →
  ∀ c' i x, mem_append m c msg c' !! i = Some x →
    bounded (mem_append m c msg) (m_view x).
Proof.
  intros Hm Hmsg c' i x. unfold mem_append at 1. case_decide; [subst c'|].
  - intros [[_ Hx]|[-> <-]]%lookup_snoc_Some; eauto with view.
  - intros Hx. eauto with view.
Qed.

Lemma last_bounded m c :
  0 < length (m c) → (∀ c' i x, m c' !! i = Some x → bounded m (m_view x)) →
  bounded m (m_view (default (Msg 0 view_bot) (last (m c)))).
Proof.
  intros Hpos Hm. destruct (last (m c)) as [x|] eqn:E; cbn.
  - rewrite last_lookup in E. by eapply Hm.
  - apply last_None in E. rewrite E in Hpos. cbn in Hpos. lia.
Qed.

Lemma bound_inv_writer m w pc r rpc log start m' w' pc' log' c msg :
  bound_inv (Sys m w pc r rpc log start) → m' = mem_append m c msg →
  bounded m' (m_view msg) → bounded m' (cur w') → rel w' = rel w →
  bound_inv (Sys m' w' pc' r rpc log' start).
Proof.
  intros [Hm Hc Ha Hwc Hwr] -> Hmsg Hcur Hrel. cbn in *.
  split; cbn; rewrite ?Hrel; eauto with view. by apply msgs_append.
Qed.

Lemma bound_inv_step s s' : step s s' → bound_inv s → bound_inv s'.
Proof.
  destruct 1 as [d s Hpc|s s' Hs|t s s' Hs|r s Hr]; intros Hb.
  - destruct s as [m w pc r rpc log start]. cbn in *. pose proof Hb as [Hm _ _ Hwc Hwr].
    cbn in *. eapply bound_inv_writer; [exact Hb|done|..|done]; cbn; eauto with view.
    apply bounded_append_vset, bounded_vjoin, last_bounded; try done.
    specialize (Hwc CSeq). lia.
  - destruct s as [m w pc r rpc log start]. unfold set_step in Hs. cbn in *.
    pose proof Hb as [Hm Hc Ha Hwc Hwr]. cbn in *.
    destruct pc as [|d|d|d|d|d|d]; simplify_eq;
      try (eapply bound_inv_writer; [exact Hb|done|..|done]; cbn; eauto with view).
    + by split; cbn.
    + apply bounded_append_vset, bounded_vjoin, last_bounded; try done.
      specialize (Hwc CSeq). lia.
  - destruct s as [m w pc r rpc log start]. unfold load_step in Hs. cbn in *.
    destruct Hb as [Hm Hc Ha Hwc Hwr]. cbn in *.
    destruct rpc; repeat (case_match; try done); simplify_eq; try (by split; cbn);
      try (split; cbn; by eauto with view).
    all: match goal with H : atomic_load _ _ _ _ = _ |- _ =>
      unfold atomic_load in H; repeat (case_match; try done); simplify_eq end.
    all: match goal with H : _ !! _ = Some _ |- _ =>
      pose proof (lookup_lt_Some _ _ _ H); pose proof (Hm _ _ _ H) end.
    all: split; cbn; eauto with view.
  - by destruct Hb.
Qed.

Lemma bound_inv_reachable s : reachable s → bound_inv s.
Proof.
  assert (bound_inv init_sys) as H0.
  { split; cbn; try (intros []; cbn; unfold view_bot; lia).
    intros c [|i] msg; [|done]. intros [= <-] []; cbn; unfold view_bot; lia. }
  intros Hr. unfold reachable in Hr. revert Hr H0. generalize init_sys.
  induction 1; eauto using bound_inv_step.
Qed.

(** *** Loads while no write is running *)

Definition newest (d : slot_data) (n : nat) (c : cell) : Z :=
  if decide (c = CSeq) then (Z.of_nat (2 * n) mod 2 ^ 32)%Z else field c d.

Lemma newest_load s n d c :
  reachable s → s_wpc s = WIdle → s_log s !! n = Some d → length (s_log s) = S n →
  ∃ t th', atomic_load (s_mem s) (s_rd s) c t = Some (newest d n c, th').
Proof.
  intros Hr Hpc Hd Hn. pose proof (bi_cur _ (bound_inv_reachable _ Hr) c) as Hc.
  apply inv_reachable in Hr as [[n' Hi] _]. rewrite Hpc in Hi.
  pose proof (mi_log _ _ _ _ _ Hi). assert (n' = n) as -> by lia.
  set (t := length (s_mem s c) - 1).
  destruct (lookup_lt_is_Some_2 (s_mem s c) t) as [msg Hm]; [lia|].
  exists t. unfold atomic_load. destruct (Nat.leb_spec (cur (s_rd s) c) t); [|lia].
  rewrite Hm. eexists. do 2 f_equal. unfold newest. case_decide as Hcs.
  - subst c. rewrite (mi_seq_val _ _ _ _ _ Hi _ _ Hm). do 2 f_equal.
    pose proof (mi_seq_len _ _ _ _ _ Hi) as Hl. cbn in Hl. lia.
  - destruct (mi_val _ _ _ _ _ Hi _ _ _ Hcs Hm) as (d' & Hd' & ->).
    pose proof (mi_len _ _ _ _ _ Hi _ Hcs) as Hl. cbn in Hl.
    assert (t = n) as Ht by lia. rewrite Ht in Hd'. congruence.
Qed.

(** The next position of a reader that always loads the newest store. *)
Definition newest_pc (d : slot_data) (n : nat) (pc : load_pc) : load_pc :=
  match pc with
  | RSeq1 => RCheck (newest d n CSeq)
  | RCheck q => if (Z.land q 1 =? 0)%Z then RFence1 q else RDone None
  | RFence1 q => RValue q
  | RValue q => RRaw q (value_bits d)
  | RRaw q v => RTimestamp q v (raw_bits d)
  | RTimestamp q v r => RQuality q v r (timestamp d)
  | RQuality q v r ts => RFence2 q (SlotData v r ts (quality_code d))
  | RFence2 q d' => RSeq2 q d'
  | RSeq2 q d' => RDone (if (q =? newest d n CSeq)%Z then Some d' else None)
  | RDone o => RDone o
  end.

Definition quiet (s s' : sys) (pc : load_pc) : Prop :=
  rtc step s s' ∧ s_rpc s' = pc ∧ s_wpc s' = WIdle ∧ s_log s' = s_log s ∧
  s_mem s' = s_mem s.

Lemma quiet_step s0 s pc d n :
  reachable s0 → s_log s0 !! n = Some d → length (s_log s0) = S n →
  quiet s0 s pc → ∃ s', quiet s0 s' (newest_pc d n pc).
Proof.
  intros Hr0 Hd Hn (Hs & Hp & Hw & Hlog & Hm).
  assert (reachable s) as Hr by (unfold reachable in *; by etrans).
  rewrite <- Hlog in Hd, Hn.
  assert (∀ t s', load_step t s = Some s' →
    quiet s0 s' (s_rpc s')) as Hq.
  { intros t s' Hl. pose proof Hl as Hl'. unfold load_step in Hl'.
    assert (s_wpc s' = s_wpc s ∧ s_log s' = s_log s ∧ s_mem s' = s_mem s) as (?&?&?).
    { destruct (s_rpc s); repeat (case_match; try done); by simplify_eq. }
    split_and!; [|done|congruence..]. eapply rtc_r; [done|]. by eapply step_load. }
  assert (∀ s', (∃ t, load_step t s = Some s') → s_rpc s' = newest_pc d n pc →
    ∃ s', quiet s0 s' (newest_pc d n pc)) as Hgo.
  { intros s' [t Ht] <-. exists s'. by eapply Hq. }
  assert (∀ c, ∃ t th', atomic_load (s_mem s) (s_rd s) c t = Some (newest d n c, th'))
    as Hload by (intros c; by apply newest_load).
  destruct pc; cbn [newest_pc] in *;
    try (match goal with
         | |- context [RCheck _] => destruct (Hload CSeq) as (t & th' & Ht)
         | |- context [RRaw _ _] => destruct (Hload CValue) as (t & th' & Ht)
         | |- context [RTimestamp _ _ _] => destruct (Hload CRaw) as (t & th' & Ht)
         | |- context [RQuality _ _ _ _] => destruct (Hload CTimestamp) as (t & th' & Ht)
         | |- context [RFence2 _ _] => destruct (Hload CQuality) as (t & th' & Ht)
         | |- context [RDone (if _ then Some _ else _)] =>
             destruct (Hload CSeq) as (t & th' & Ht)
         end;
         eapply Hgo; [exists t; unfold load_step; rewrite Hp, Ht; reflexivity|done]).
  - case_match; (eapply Hgo; [exists 0; unfold load_step; rewrite Hp;
      match goal with H : (_ =? _)%Z = _ |- _ => rewrite H end; reflexivity|done]).
  - eapply Hgo; [exists 0; unfold load_step; rewrite Hp; reflexivity|done].
  - eapply Hgo; [exists 0; unfold load_step; rewrite Hp; reflexivity|done].
  - exists s. by split_and!.
Qed.

Lemma newest_even d n : Z.land (newest d n CSeq) 1 = 0%Z.
Proof.
  unfold newest. case_decide; [|done]. change 1%Z with (Z.ones 1).
  rewrite Z.land_ones by lia. change (2 ^ 1)%Z with 2%Z.
  rewrite Nat2Z.inj_mul, <- Znumtheory.Zmod_div_mod; [|done..|by exists (2 ^ 31)%Z].
  change (Z.of_nat 2) with 2%Z. rewrite Z.mul_comm. by apply Z.mod_mul.
Qed.

(** Contention is the only reason for [None]: in every reachable state in
    which no [set] is running, a call of [try_load_consistent] that observes
    the newest stores returns [Some] of the last value [set], in ten steps and
    without the writer's help. *)
Theorem try_load_consistent_quiescent (s : sys) (n : nat) (d : slot_data) :
  reachable s → s_wpc s = WIdle → s_rpc s = RSeq1 →
  s_log s !! n = Some d → length (s_log s) = S n →
  ∃ s', rtc step s s' ∧ s_rpc s' = RDone (Some d) ∧ s_log s' = s_log s.
Proof.
  intros Hr Hw Hp Hd Hn.
  assert (∃ s', quiet s s' RSeq1) as Hq by (exists s; by split_and!).
  assert (∀ pc, (∃ s', quiet s s' pc) → ∃ s', quiet s s' (newest_pc d n pc)) as Hstep.
  { intros pc [s' Hs']. by eapply quiet_step. }
  do 10 apply Hstep in Hq. cbn [newest_pc] in Hq.
  rewrite newest_even in Hq. cbn [Z.eqb] in Hq. cbn [newest_pc] in Hq.
  rewrite Z.eqb_refl in Hq. destruct Hq as (s' & ? & ? & ? & ? & ?).
  exists s'. split_and!; try done. by destruct d.
Qed.

(** *** Witnesses *)

Definition d1 : slot_data := SlotData 0x4059000000000000 0x408F400000000000 1729000000 3.

(** One completed write followed by one completed load. *)
Definition run_write (s : sys) (d : slot_data) : sys :=
  let s := set_begin d s in
  Nat.iter 6 (fun s => default s (set_step s)) s.

Definition sys_after_write : sys := run_write init_sys d1.
Definition sys_after_load : sys :=
  default init_sys (load_run [2; 0; 0; 1; 1; 1; 1; 0; 2] sys_after_write).

Lemma set_iter_steps k s :
  rtc step s (Nat.iter k (fun s => default s (set_step s)) s).
Proof.
  induction k as [|k IH]; [done|]. cbn. etrans; [exact IH|].
  destruct (set_step _) as [s'|] eqn:E; cbn; [|done].
  apply rtc_once. by apply step_set.
Qed.

Lemma load_run_steps ts s s' : load_run ts s = Some s' → rtc step s s'.
Proof.
  revert s. induction ts as [|t ts IH]; cbn; intros s; [by intros [= ->]|].
  destruct (load_step t s) as [s1|] eqn:E; [|done]. intros H.
  eapply rtc_l; [by eapply step_load|by apply IH].
Qed.

Lemma sys_after_write_reachable : reachable sys_after_write.
Proof.
  unfold reachable, sys_after_write, run_write.
  eapply rtc_l; [by apply (step_set_begin d1)|]. apply set_iter_steps.
Qed.

Lemma sys_after_load_reachable : reachable sys_after_load.
Proof.
  unfold reachable. etrans; [apply sys_after_write_reachable|].
  assert (match load_run [2; 0; 0; 1; 1; 1; 1; 0; 2] sys_after_write with
          | Some _ => true | None => false end = true) as Hsome by (vm_compute; done).
  unfold sys_after_load. destruct (load_run _ sys_after_write) eqn:E; [|done].
  by eapply load_run_steps.
Qed.

Lemma try_load_consistent_not_torn_witness :
  ∃ k, s_start sys_after_load = 2 * k ∧ s_log sys_after_load !! k = Some d1.
Proof.
  apply (try_load_consistent_not_torn sys_after_load d1).
  - apply sys_after_load_reachable.
  - vm_compute. reflexivity.
  - vm_compute. discriminate.
Defined.

Lemma try_load_consistent_monotone_witness :
  ∃ k1 k2, k1 ≤ k2 ∧ s_log sys_after_load !! k1 = Some d1 ∧
    s_log sys_after_load !! k2 = Some d1.
Proof.
  apply (try_load_consistent_monotone sys_after_load sys_after_load d1 d1).
  - apply sys_after_load_reachable.
  - apply rtc_refl.
  - vm_compute. reflexivity.
  - vm_compute. reflexivity.
  - vm_compute. discriminate.
Defined.

Lemma try_load_consistent_quiescent_witness :
  ∃ s', rtc step sys_after_write s' ∧ s_rpc s' = RDone (Some d1) ∧
    s_log s' = s_log sys_after_write.
Proof.
  apply (try_load_consistent_quiescent sys_after_write 1 d1).
  - apply sys_after_write_reachable.
  - vm_compute. reflexivity.
  - vm_compute. reflexivity.
  - vm_compute. reflexivity.
  - vm_compute. reflexivity.
Defined.

End Slot.
