(* ===== verification/Fs.v ===== *)
(** * File system and faults

    The part of the operating system the storage code calls: names bound to
    inodes, inodes holding bytes.  A mapping ([mmap]) keeps its inode, so a
    [rename] over the name does not change what an existing mapping sees.
    Every system call consumes one entry of a fault schedule: it succeeds, fails
    with an I/O error (a failing [write_all] may have written a prefix), or the
    process dies there.  An exhausted schedule means no further fault. *)

From stdpp Require Import base tactics numbers list gmap strings.
From S2P Require Import Prelude.
#[local] Open Scope Z_scope.

Module Fs.

(** [std::io::ErrorKind], as far as callers distinguish it. *)
Inductive io_kind := NotFound | AlreadyExists | OtherIo.

Inductive fault := FOk | FErr (k : nat) | FCrash (k : nat).

Record world := World {
  w_names : gmap string nat;
  w_data : gmap nat (list Z);
  w_next : nat;
  w_faults : list fault }.

Definition with_names n (w : world) : world :=
  World n (w_data w) (w_next w) (w_faults w).
Definition with_data d (w : world) : world :=
  World (w_names w) d (w_next w) (w_faults w).
Definition with_faults f (w : world) : world :=
  World (w_names w) (w_data w) (w_next w) f.

(** [None]: the process died. *)
Definition io (E A : Type) : Type := world → option (res E A) * world.

#[global] Instance io_ret E : MRet (io E) := fun A a w => (Some (Ok a), w).
#[global] Instance io_bind E : MBind (io E) := fun A B f m w =>
  match m w with
  | (Some (Ok a), w') => f a w'
  | (Some (Err e), w') => (Some (Err e), w')
  | (Some Panic, w') => (Some Panic, w')
  | (None, w') => (None, w')
  end.

Definition fail {E A} (e : E) : io E A := fun w => (Some (Err e), w).
Definition lift {E A} (r : res E A) : io E A := fun w => (Some r, w).

(** Runs [m] and hands its result to the caller as a value ([match m {..}]). *)
Definition attempt {E A} (m : io E A) : io E (res E A) := fun w =>
  match m w with
  | (Some r, w') => (Some (Ok r), w')
  | (None, w') => (None, w')
  end.

Section Calls.
Context {E : Type} (of_io : io_kind → E).

(** One system call: [run] when it succeeds, [partial k] is what a failing or
    dying call may leave behind. *)
Definition syscall {A} (partial : nat → world → world)
    (run : world → (io_kind + A) * world) : io E A := fun w =>
  match w_faults w with
  | FErr k :: fs => (Some (Err (of_io OtherIo)), partial k (with_faults fs w))
  | FCrash k :: fs => (None, partial k (with_faults fs w))
  | FOk :: fs =>
      let '(r, w') := run (with_faults fs w) in
      (Some (match r with inl e => Err (of_io e) | inr a => Ok a end), w')
  | [] =>
      let '(r, w') := run w in
      (Some (match r with inl e => Err (of_io e) | inr a => Ok a end), w')
  end.

Definition no_effect (_ : nat) (w : world) : world := w.

(** [create_dir_all], [sync_all], [sync_data], [set_permissions], [mmap], [stat] on an open file:
    can fail, change no modelled byte. *)
Definition sys_nop : io E unit := syscall no_effect (fun w => (inr tt, w)).

(** [File::open(path)]. *)
Definition sys_open (path : string) : io E nat :=
  syscall no_effect (fun w =>
    (match w_names w !! path with Some i => inr i | None => inl NotFound end, w)).

Definition fresh_file (path : string) (w : world) : world :=
  World (<[path := w_next w]> (w_names w)) (<[w_next w := []]> (w_data w))
        (S (w_next w)) (w_faults w).

(** [OpenOptions::create(true)], truncating or not. *)
Definition sys_create (truncate : bool) (path : string) : io E nat :=
  syscall no_effect (fun w =>
    match w_names w !! path with
    | Some i =>
        (inr i, if truncate then with_data (<[i := []]> (w_data w)) w else w)
    | None => (inr (w_next w), fresh_file path w)
    end).

(** [OpenOptions::create_new(true)]. *)
Definition sys_create_new (path : string) : io E nat :=
  syscall no_effect (fun w =>
    match w_names w !! path with
    | Some _ => (inl AlreadyExists, w)
    | None => (inr (w_next w), fresh_file path w)
    end).

Definition file_bytes (w : world) (i : nat) : list Z :=
  default [] (w_data w !! i).

(** Overwrites at [off], extending the file when needed. *)
Definition write_bytes (off : nat) (bs l : list Z) : list Z :=
  take off l ++ bs ++ drop (off + length bs) l.

Definition put_bytes (i off : nat) (bs : list Z) (w : world) : world :=
  with_data (<[i := write_bytes off bs (file_bytes w i)]> (w_data w)) w.

(** [write_all] at cursor [off]; a failing call may have written a prefix. *)
Definition sys_write (i off : nat) (bs : list Z) : io E unit :=
  syscall (fun k => put_bytes i off (take k bs))
          (fun w => (inr tt, put_bytes i off bs w)).

Definition resize (n : nat) (l : list Z) : list Z := take n l ++ replicate (n - length l) 0.

(** [File::set_len]. *)
Definition sys_set_len (i n : nat) : io E unit :=
  syscall no_effect (fun w =>
    (inr tt, with_data (<[i := resize n (file_bytes w i)]> (w_data w)) w)).

(** Reading the whole file, or its length. *)
Definition sys_read (i : nat) : io E (list Z) :=
  syscall no_effect (fun w => (inr (file_bytes w i), w)).

(** [std::fs::rename]: atomic. *)
Definition sys_rename (a b : string) : io E unit :=
  syscall no_effect (fun w =>
    match w_names w !! a with
    | Some i => (inr tt, with_names (<[b := i]> (delete a (w_names w))) w)
    | None => (inl NotFound, w)
    end).

(** [std::fs::remove_file]. *)
Definition sys_remove (path : string) : io E unit :=
  syscall no_effect (fun w =>
    match w_names w !! path with
    | Some _ => (inr tt, with_names (delete path (w_names w)) w)
    | None => (inl NotFound, w)
    end).

End Calls.

(** The bytes a name currently denotes. *)
Definition path_bytes (w : world) (path : string) : option (list Z) :=
  match w_names w !! path with Some i => Some (file_bytes w i) | None => None end.

(** Inode numbers in use are below [w_next]. *)
Definition fs_ok (w : world) : Prop :=
  (∀ p i, w_names w !! p = Some i → (i < w_next w)%nat) ∧
  (∀ i l, w_data w !! i = Some l → (i < w_next w)%nat).

Lemma io_bind_run {E A B} (m : io E A) (f : A → io E B) w :
  (m ≫= f) w =
  match m w with
  | (Some (Ok a), w') => f a w'
  | (Some (Err e), w') => (Some (Err e), w')
  | (Some Panic, w') => (Some Panic, w')
  | (None, w') => (None, w')
  end.
Proof. done. Qed.

Lemma file_bytes_insert w i l :
  file_bytes (with_data (<[i := l]> (w_data w)) w) i = l.
Proof. unfold file_bytes. cbn. by rewrite lookup_insert_eq. Qed.

Lemma file_bytes_insert_ne w i j l :
  i ≠ j → file_bytes (with_data (<[i := l]> (w_data w)) w) j = file_bytes w j.
Proof. intros. unfold file_bytes. cbn. by rewrite lookup_insert_ne. Qed.

Lemma write_bytes_app l bs : write_bytes (length l) bs l = l ++ bs.
Proof.
  unfold write_bytes. rewrite firstn_all, drop_ge by lia. by rewrite app_nil_r.
Qed.

(** ** Weakest preconditions over every fault schedule

    [wp m Q C w]: run from [w], [m] ends in a result satisfying [Q], or the
    process dies in a world satisfying [C]. *)
Definition wp {E A} (m : io E A) (Q : res E A → world → Prop) (C : world → Prop)
    (w : world) : Prop :=
  match m w with (Some r, w') => Q r w' | (None, w') => C w' end.

Lemma wp_ret {E A} (a : A) (Q : res E A → world → Prop) C w : Q (Ok a) w → wp (mret a) Q C w.
Proof. done. Qed.

Lemma wp_bind {E A B} (m : io E A) (f : A → io E B) Q C w :
  wp m (fun r w' => match r with
                    | Ok a => wp (f a) Q C w'
                    | Err e => Q (Err e) w'
                    | Panic => Q Panic w'
                    end) C w →
  wp (m ≫= f) Q C w.
Proof. unfold wp. rewrite io_bind_run. by destruct (m w) as [[[]|] w']. Qed.

Lemma wp_attempt {E A} (m : io E A) Q C w :
  wp m (fun r w' => Q (Ok r) w') C w → wp (attempt m) Q C w.
Proof. unfold wp, attempt. by destruct (m w) as [[[]|] w']. Qed.

Lemma wp_mono {E A} (m : io E A) (Q Q' : res E A → world → Prop) (C C' : world → Prop) w :
  wp m Q C w → (∀ r w', Q r w' → Q' r w') → (∀ w', C w' → C' w') → wp m Q' C' w.
Proof. unfold wp. destruct (m w) as [[r|] w']; auto. Qed.

Lemma with_faults_id w : with_faults (w_faults w) w = w.
Proof. by destruct w. Qed.

(** How many calls the schedule still fails. *)
Definition is_fault (f : fault) : bool := match f with FOk => false | _ => true end.
Definition budget (w : world) : nat := length (List.filter is_fault (w_faults w)).

(** A system call: every outcome the schedule may choose.  The remaining faults
    never increase, and a failure uses one up. *)
Lemma wp_syscall {E A} (of_io : io_kind → E) partial run
    (Q : res E A → world → Prop) C w :
  (∀ fs, (budget (with_faults fs w) ≤ budget w)%nat →
         let '(r, w') := run (with_faults fs w) in
         Q (match r with inl e => Err (of_io e) | inr a => Ok a end) w') →
  (∀ k fs, (budget (with_faults fs w) < budget w)%nat →
           Q (Err (of_io OtherIo)) (partial k (with_faults fs w))) →
  (∀ k fs, C (partial k (with_faults fs w))) →
  wp (syscall of_io partial run) Q C w.
Proof.
  intros Hrun Herr Hcrash. unfold wp, syscall, budget in *.
  destruct (w_faults w) as [|[|k|k] fs] eqn:Hfs; auto.
  - specialize (Hrun [] ltac:(done)). rewrite <- Hfs, with_faults_id in Hrun.
    destruct (run w) as [r w']. exact Hrun.
  - specialize (Hrun fs ltac:(done)). destruct (run _) as [r w']. exact Hrun.
Qed.

Lemma file_bytes_eq w i l : w_data w !! i = Some l → file_bytes w i = l.
Proof. unfold file_bytes. by intros ->. Qed.

Lemma file_bytes_faults fs w i : file_bytes (with_faults fs w) i = file_bytes w i.
Proof. done. Qed.

(** A name keeps its bytes when other inodes change. *)
Lemma path_bytes_data w i l path :
  w_names w !! path ≠ Some i →
  path_bytes (with_data (<[i := l]> (w_data w)) w) path = path_bytes w path.
Proof.
  intros Hne. unfold path_bytes. cbn. destruct (w_names w !! path) as [j|]; [|done].
  f_equal. apply file_bytes_insert_ne. congruence.
Qed.

Section WpCalls.
Context {E : Type} (of_io : io_kind → E).
Local Notation F := with_faults.
Local Notation keeps fs w := (budget (with_faults fs w) ≤ budget w)%nat.
Local Notation spends fs w := (budget (with_faults fs w) < budget w)%nat.

Lemma wp_sys_nop (Q : res E unit → world → Prop) C w :
  (∀ fs, keeps fs w → Q (Ok tt) (F fs w)) → (∀ fs, spends fs w → Q (Err (of_io OtherIo)) (F fs w)) →
  (∀ fs, C (F fs w)) → wp (sys_nop of_io) Q C w.
Proof. intros H1 H2 H3. apply wp_syscall; intros; [by apply H1|by apply H2|by apply H3]. Qed.

Lemma wp_sys_open path (Q : res E nat → world → Prop) C w :
  (∀ fs, keeps fs w → match w_names w !! path with
         | Some i => Q (Ok i) (F fs w)
         | None => Q (Err (of_io NotFound)) (F fs w)
         end) →
  (∀ fs, spends fs w → Q (Err (of_io OtherIo)) (F fs w)) → (∀ fs, C (F fs w)) →
  wp (sys_open of_io path) Q C w.
Proof.
  intros H1 H2 H3. apply wp_syscall; [|by intros; apply H2|by intros; apply H3].
  intros fs Hf. specialize (H1 fs Hf). cbn. by destruct (_ !! _).
Qed.

Lemma wp_sys_read i (Q : res E (list Z) → world → Prop) C w :
  (∀ fs, keeps fs w → Q (Ok (file_bytes w i)) (F fs w)) → (∀ fs, spends fs w → Q (Err (of_io OtherIo)) (F fs w)) →
  (∀ fs, C (F fs w)) → wp (sys_read of_io i) Q C w.
Proof. intros H1 H2 H3. apply wp_syscall; intros; [by apply H1|by apply H2|by apply H3]. Qed.

Lemma wp_sys_create (truncate : bool) path (Q : res E nat → world → Prop) C w :
  (∀ fs, keeps fs w → match w_names w !! path with
         | Some i => Q (Ok i)
             (if truncate then with_data (<[i := []]> (w_data w)) (F fs w) else F fs w)
         | None => Q (Ok (w_next w)) (fresh_file path (F fs w))
         end) →
  (∀ fs, spends fs w → Q (Err (of_io OtherIo)) (F fs w)) → (∀ fs, C (F fs w)) →
  wp (sys_create of_io truncate path) Q C w.
Proof.
  intros H1 H2 H3. apply wp_syscall; [|by intros; apply H2|by intros; apply H3].
  intros fs Hf. specialize (H1 fs Hf). cbn. by destruct (_ !! _), truncate.
Qed.

Lemma wp_sys_create_new path (Q : res E nat → world → Prop) C w :
  (∀ fs, keeps fs w → match w_names w !! path with
         | Some i => Q (Err (of_io AlreadyExists)) (F fs w)
         | None => Q (Ok (w_next w)) (fresh_file path (F fs w))
         end) →
  (∀ fs, spends fs w → Q (Err (of_io OtherIo)) (F fs w)) → (∀ fs, C (F fs w)) →
  wp (sys_create_new of_io path) Q C w.
Proof.
  intros H1 H2 H3. apply wp_syscall; [|by intros; apply H2|by intros; apply H3].
  intros fs Hf. specialize (H1 fs Hf). cbn. by destruct (_ !! _).
Qed.

Lemma wp_sys_write i off bs (Q : res E unit → world → Prop) C w :
  (∀ fs, keeps fs w → Q (Ok tt) (put_bytes i off bs (F fs w))) →
  (∀ k fs, spends fs w → Q (Err (of_io OtherIo)) (put_bytes i off (take k bs) (F fs w))) →
  (∀ k fs, C (put_bytes i off (take k bs) (F fs w))) →
  wp (sys_write of_io i off bs) Q C w.
Proof. intros H1 H2 H3. apply wp_syscall; intros; [by apply H1|by apply H2|by apply H3]. Qed.

Lemma wp_sys_set_len i n (Q : res E unit → world → Prop) C w :
  (∀ fs, keeps fs w → Q (Ok tt)
     (with_data (<[i := resize n (file_bytes w i)]> (w_data w)) (F fs w))) →
  (∀ fs, spends fs w → Q (Err (of_io OtherIo)) (F fs w)) → (∀ fs, C (F fs w)) →
  wp (sys_set_len of_io i n) Q C w.
Proof. intros H1 H2 H3. apply wp_syscall; intros; [by apply H1|by apply H2|by apply H3]. Qed.

Lemma wp_sys_rename a b (Q : res E unit → world → Prop) C w :
  (∀ fs, keeps fs w → match w_names w !! a with
         | Some i => Q (Ok tt) (with_names (<[b := i]> (delete a (w_names w))) (F fs w))
         | None => Q (Err (of_io NotFound)) (F fs w)
         end) →
  (∀ fs, spends fs w → Q (Err (of_io OtherIo)) (F fs w)) → (∀ fs, C (F fs w)) →
  wp (sys_rename of_io a b) Q C w.
Proof.
  intros H1 H2 H3. apply wp_syscall; [|by intros; apply H2|by intros; apply H3].
  intros fs Hf. specialize (H1 fs Hf). cbn. by destruct (_ !! _).
Qed.

Lemma wp_sys_remove path (Q : res E unit → world → Prop) C w :
  (∀ fs, keeps fs w → match w_names w !! path with
         | Some _ => Q (Ok tt) (with_names (delete path (w_names w)) (F fs w))
         | None => Q (Err (of_io NotFound)) (F fs w)
         end) →
  (∀ fs, spends fs w → Q (Err (of_io OtherIo)) (F fs w)) → (∀ fs, C (F fs w)) →
  wp (sys_remove of_io path) Q C w.
Proof.
  intros H1 H2 H3. apply wp_syscall; [|by intros; apply H2|by intros; apply H3].
  intros fs Hf. specialize (H1 fs Hf). cbn. by destruct (_ !! _).
Qed.

Lemma wp_lift {A} (r : res E A) (Q : res E A → world → Prop) C w : Q r w → wp (lift r) Q C w.
Proof. done. Qed.

Lemma wp_fail {A} (e : E) (Q : res E A → world → Prop) C w : Q (Err e) w → wp (fail e) Q C w.
Proof. done. Qed.

End WpCalls.

(** ** Runs without faults

    An operation is calm when, with nothing left to fail, it does not die and
    leaves nothing to fail. *)
Definition calm {E A} (m : io E A) : Prop :=
  ∀ w, budget w = 0%nat → fst (m w) ≠ None ∧ budget (snd (m w)) = 0%nat.

Lemma calm_ret {E A} (a : A) : calm (mret a : io E A).
Proof. done. Qed.

Lemma calm_lift {E A} (r : res E A) : calm (lift r).
Proof. done. Qed.

Lemma calm_fail {E A} (e : E) : calm (fail e : io E A).
Proof. done. Qed.

Lemma calm_attempt {E A} (m : io E A) : calm m → calm (attempt m).
Proof.
  intros H w Hw. specialize (H w Hw). unfold attempt.
  by destruct (m w) as [[r|] w']; destruct H.
Qed.

Lemma calm_bind {E A B} (m : io E A) (f : A → io E B) :
  calm m → (∀ a, calm (f a)) → calm (m ≫= f).
Proof.
  intros Hm Hf w Hw. specialize (Hm w Hw). rewrite io_bind_run.
  destruct (m w) as [[[a| |]|] w']; destruct Hm; [by apply Hf|done..].
Qed.

Lemma calm_syscall {E A} (of_io : io_kind → E) partial (run : world → (io_kind + A) * world) :
  (∀ w, w_faults (snd (run w)) = w_faults w) → calm (syscall of_io partial run).
Proof.
  intros H w Hw. unfold syscall, budget in *. specialize (H w) as H1.
  destruct (w_faults w) as [|[|k|k] fs] eqn:E0; [|specialize (H (with_faults fs w))|done..].
  - destruct (run w) as [r w']. cbn in *. by rewrite H1.
  - destruct (run (with_faults fs w)) as [r w']. cbn in *. by rewrite H.
Qed.

Ltac calm :=
  repeat first
    [ apply calm_bind; [|intros ?] | apply calm_ret | apply calm_lift | apply calm_fail
    | apply calm_attempt
    | apply calm_syscall; intros ?; cbn; repeat case_match; done
    | case_match ].

(** One step of a [wp] goal; a system call splits into its outcomes. *)
Ltac wp_step :=
  match goal with
  | |- wp (_ ≫= _) _ _ _ => apply wp_bind
  | |- wp (mret _) _ _ _ => apply wp_ret
  | |- wp (lift _) _ _ _ => apply wp_lift
  | |- wp (fail _) _ _ _ => apply wp_fail
  | |- wp (attempt _) _ _ _ => apply wp_attempt
  | |- wp (sys_nop _) _ _ _ => apply wp_sys_nop; [intros ? _|intros ? _|intros ?]
  | |- wp (sys_open _ _) _ _ _ => apply wp_sys_open; [intros ? _|intros ? _|intros ?]
  | |- wp (sys_read _ _) _ _ _ => apply wp_sys_read; [intros ? _|intros ? _|intros ?]
  | |- wp (sys_create _ _ _) _ _ _ => apply wp_sys_create; [intros ? _|intros ? _|intros ?]
  | |- wp (sys_create_new _ _) _ _ _ => apply wp_sys_create_new; [intros ? _|intros ? _|intros ?]
  | |- wp (sys_write _ _ _ _) _ _ _ => apply wp_sys_write; [intros ? _|intros ? ? _|intros ? ?]
  | |- wp (sys_set_len _ _ _) _ _ _ => apply wp_sys_set_len; [intros ? _|intros ? _|intros ?]
  | |- wp (sys_rename _ _ _) _ _ _ => apply wp_sys_rename; [intros ? _|intros ? _|intros ?]
  | |- wp (sys_remove _ _) _ _ _ => apply wp_sys_remove; [intros ? _|intros ? _|intros ?]
  end.
(** The same, keeping what each outcome does to the fault budget. *)
Ltac wp_bstep :=
  match goal with
  | |- wp (sys_nop _) _ _ _ => apply wp_sys_nop; [intros ? ?|intros ? ?|intros ?]
  | |- wp (sys_read _ _) _ _ _ => apply wp_sys_read; [intros ? ?|intros ? ?|intros ?]
  | |- wp (sys_write _ _ _ _) _ _ _ => apply wp_sys_write; [intros ? ?|intros ? ? ?|intros ? ?]
  | |- wp (sys_set_len _ _ _) _ _ _ => apply wp_sys_set_len; [intros ? ?|intros ? ?|intros ?]
  | |- _ => wp_step
  end.

(** Executions without faults. *)
Lemma run_bind {E A B} (m : io E A) (f : A → io E B) w a w1 r :
  m w = (Some (Ok a), w1) → f a w1 = r → (m ≫= f) w = r.
Proof. intros Hm Hf. by rewrite io_bind_run, Hm. Qed.

Lemma run_syscall {E A} (of_io : io_kind → E) partial run (w : world) (a : A) w' :
  w_faults w = [] → run w = (inr a, w') →
  syscall of_io partial run w = (Some (Ok a), w').
Proof. intros Hf Hr. unfold syscall. by rewrite Hf, Hr. Qed.

Lemma run_open {E} (of_io : io_kind → E) path w i :
  w_faults w = [] → w_names w !! path = Some i → sys_open of_io path w = (Some (Ok i), w).
Proof. intros Hf Hp. apply run_syscall; [done|]. by rewrite Hp. Qed.

(** Steps of a client's own combinators: redefined with [::=]. *)
Ltac wp_user := fail.
Ltac wp_go :=
  repeat (first [wp_step | wp_user]; cbv beta iota;
          try solve [split_and!; done | done]).

(** Nothing but the bytes of [ino] changed. *)
Definition only (ino : nat) (w w' : world) : Prop :=
  w_names w' = w_names w ∧ w_next w' = w_next w ∧
  ∀ i, i ≠ ino → file_bytes w' i = file_bytes w i.

Lemma only_refl ino w fs : only ino w (with_faults fs w).
Proof. done. Qed.

Lemma only_trans ino w1 w2 w3 : only ino w1 w2 → only ino w2 w3 → only ino w1 w3.
Proof.
  intros (H1 & H2 & H3) (H4 & H5 & H6). split_and!; [congruence..|].
  intros i Hi. rewrite H6, H3; done.
Qed.

Lemma only_data ino w l fs : only ino w (with_data (<[ino := l]> (w_data w)) (with_faults fs w)).
Proof.
  split_and!; [done..|]. intros i Hi. by apply (file_bytes_insert_ne (with_faults fs w)).
Qed.

Lemma only_put ino w off bs fs : only ino w (put_bytes ino off bs (with_faults fs w)).
Proof. exact (only_data ino (with_faults fs w) _ fs). Qed.

(** ** Several writes in a row *)

Section Chunks.
Context {E : Type} (of_io : io_kind → E).

(** Successive [write_all] calls; the cursor moves with them. *)
Fixpoint write_chunks (i off : nat) (chunks : list (list Z)) : io E unit :=
  match chunks with
  | [] => mret tt
  | c :: cs => _ ← sys_write of_io i off c; write_chunks i (off + length c) cs
  end.

(** A prefix of the concatenation, and nothing else, may have been written. *)
Lemma wp_write_chunks i cs l w :
  file_bytes w i = l →
  wp (write_chunks i (length l) cs)
    (fun r w' => only i w w' ∧
       match r with
       | Ok _ => file_bytes w' i = l ++ concat cs
       | Err _ => ∃ k, file_bytes w' i = l ++ take k (concat cs)
       | Panic => False
       end)
    (fun w' => only i w w' ∧ ∃ k, file_bytes w' i = l ++ take k (concat cs)) w.
Proof.
  revert l w. induction cs as [|c cs IH]; intros l w Hl; cbn [write_chunks concat].
  { apply wp_ret. split; [done|]. by rewrite app_nil_r. }
  assert (∀ k fs, file_bytes (put_bytes i (length l) (take k c) (with_faults fs w)) i =
                  l ++ take (Nat.min k (length c)) (c ++ concat cs)) as Hpart.
  { intros k fs. unfold put_bytes. rewrite file_bytes_insert, file_bytes_faults, Hl, write_bytes_app.
    f_equal. rewrite take_app_le by lia. destruct (Nat.le_gt_cases k (length c)).
    - by rewrite Nat.min_l.
    - rewrite Nat.min_r by lia. rewrite !take_ge by lia. done. }
  apply wp_bind, wp_sys_write; [intros fs _|intros k fs _|intros k fs].
  2,3: split; [apply only_put|]; eexists; apply Hpart.
  rewrite <- length_app. eapply wp_mono; [apply IH| |].
  - unfold put_bytes. by rewrite file_bytes_insert, file_bytes_faults, Hl, write_bytes_app.
  - intros r w' [Ho H]. split; [eapply only_trans; [apply only_put|exact Ho]|].
    destruct r as [[]|e|]; [by rewrite H, <- app_assoc| |done].
    destruct H as [k ->]. exists (length c + k)%nat. by rewrite <- app_assoc, take_app_add.
  - intros w' [Ho [k ->]]. split; [eapply only_trans; [apply only_put|exact Ho]|].
    exists (length c + k)%nat. by rewrite <- app_assoc, take_app_add.
Qed.

End Chunks.

End Fs.
