(* ===== verification/Replace.v ===== *)
(** * Replacing files through scratch names

    The stores that rewrite a file write a scratch file first and rename it over the
    old one.  This file has the facts their crash proofs share: while only scratch
    names and the inodes they own change, every other name keeps its bytes, and the
    rename installs the scratch file's bytes at once. *)

From stdpp Require Import base tactics numbers list gmap strings.
From S2P Require Import Prelude Fs.

Module Replace.
Import Fs.

(** [t] is the only name of the inode, which holds these bytes. *)
Definition owns (t : string) (ino : nat) (bs : list Z) (w : world) : Prop :=
  w_names w !! t = Some ino ∧ (∀ q, q ≠ t → w_names w !! q ≠ Some ino) ∧ file_bytes w ino = bs.

Lemma owns_bytes t ino bs w : owns t ino bs w → path_bytes w t = Some bs.
Proof. intros (Ht & _ & Hb). unfold path_bytes. by rewrite Ht, Hb. Qed.

Lemma owns_faults t ino bs fs w : owns t ino bs w → owns t ino bs (with_faults fs w).
Proof. done. Qed.

Lemma path_bytes_faults fs w q : path_bytes (with_faults fs w) q = path_bytes w q.
Proof. done. Qed.

Section Scratch.
Context (scratch : list string).

(** Nothing outside the scratch names changed. *)
Definition others (w w' : world) : Prop :=
  fs_ok w' ∧ ∀ q, q ∉ scratch → path_bytes w' q = path_bytes w q.

Lemma others_refl w : fs_ok w → others w w.
Proof. done. Qed.

Lemma others_faults fs w w' : others w w' → others w (with_faults fs w').
Proof. done. Qed.

Lemma others_removed t w w' :
  t ∈ scratch → others w w' → others w (with_names (delete t (w_names w')) w').
Proof.
  intros Ht [[H1 H2] Hp]. split; [split; [|exact H2]|].
  - cbn. intros q i Hq. apply lookup_delete_Some in Hq as [_ Hq]. by eapply H1.
  - intros q Hq. rewrite <- Hp by done. unfold path_bytes. cbn. rewrite lookup_delete_ne; [done|]. by intros ->.
Qed.

Lemma owns_created t w : fs_ok w → owns t (w_next w) [] (fresh_file t w).
Proof.
  intros [H1 H2]. split_and!; [apply lookup_insert_eq| |apply file_bytes_eq, lookup_insert_eq].
  intros q Hq. cbn. rewrite lookup_insert_ne by done. intros Hi. specialize (H1 _ _ Hi). lia.
Qed.

Lemma others_created t w w' : t ∈ scratch → others w w' → others w (fresh_file t w').
Proof.
  intros Ht [[H1 H2] Hp]. split; [split|].
  - cbn. intros q i Hq. apply lookup_insert_Some in Hq as [[_ <-]|[_ Hq]]; [lia|]. specialize (H1 q i Hq). lia.
  - cbn. intros i l Hi. apply lookup_insert_Some in Hi as [[<- _]|[_ Hi]]; [lia|]. specialize (H2 i l Hi). lia.
  - intros q Hq. rewrite <- Hp by done. unfold path_bytes. cbn. rewrite lookup_insert_ne by (by intros ->).
    destruct (w_names w' !! q) as [j|] eqn:Hj; [|done]. f_equal. unfold file_bytes. cbn.
    rewrite lookup_insert_ne; [done|]. specialize (H1 q j Hj). lia.
Qed.

Lemma owns_put t ino bs off new w :
  owns t ino bs w → owns t ino (write_bytes off new bs) (put_bytes ino off new w).
Proof.
  intros (H1 & H2 & <-). split_and!; [done|done|]. apply file_bytes_insert.
Qed.

Lemma others_put t ino bs off new w w' :
  t ∈ scratch → owns t ino bs w' → others w w' → others w (put_bytes ino off new w').
Proof.
  intros Ht (Hn & Hs & _) [[H1 H2] Hp]. split; [split; [done|]|].
  - cbn. intros i l Hi. apply lookup_insert_Some in Hi as [[<- _]|[_ Hi]]; [by eapply H1|by eapply H2].
  - intros q Hq. rewrite <- Hp by done. apply path_bytes_data. apply Hs. by intros ->.
Qed.

(** The name [p] got the bytes; nothing else outside the scratch names changed. *)
Definition installed (p : string) (bs : list Z) (w w' : world) : Prop :=
  fs_ok w' ∧ path_bytes w' p = Some bs ∧ ∀ q, q ∉ scratch → q ≠ p → path_bytes w' q = path_bytes w q.

Lemma installed_renamed t p ino bs w w' :
  t ∈ scratch → t ≠ p → owns t ino bs w' → others w w' →
  installed p bs w (with_names (<[p := ino]> (delete t (w_names w'))) w').
Proof.
  intros Ht Htp (Hn & Hs & Hb) [[H1 H2] Hp]. split_and!; [split; [|exact H2]| |].
  - cbn. intros q i Hq. apply lookup_insert_Some in Hq as [[_ <-]|[_ Hq]]; [by eapply H1|].
    apply lookup_delete_Some in Hq as [_ Hq]. by eapply H1.
  - unfold path_bytes. cbn. rewrite lookup_insert_eq. by rewrite <- Hb.
  - intros q Hq Hqp. rewrite <- Hp by done. unfold path_bytes. cbn. rewrite lookup_insert_ne by done.
    by rewrite lookup_delete_ne by (by intros ->).
Qed.

Lemma installed_removed t p bs w w' :
  t ∈ scratch → t ≠ p → installed p bs w w' → installed p bs w (with_names (delete t (w_names w')) w').
Proof.
  intros Ht Htp ([H1 H2] & Hb & Hp). split_and!; [split; [|exact H2]| |].
  - cbn. intros q i Hq. apply lookup_delete_Some in Hq as [_ Hq]. by eapply H1.
  - unfold path_bytes in *. cbn. by rewrite lookup_delete_ne.
  - intros q Hq Hqp. rewrite <- Hp by done. unfold path_bytes. cbn. rewrite lookup_delete_ne; [done|]. by intros ->.
Qed.
End Scratch.

Lemma others_weaken s s' w w' : (∀ q, q ∈ s → q ∈ s') → others s w w' → others s' w w'.
Proof. intros Hs [Hw Hp]. split; [done|]. intros q Hq. apply Hp. auto. Qed.
Lemma others_trans s w w' w'' : others s w w' → others s w' w'' → others s w w''.
Proof. intros [_ H1] [Hw H2]. split; [done|]. intros q Hq. rewrite H2 by done. by apply H1. Qed.

(** Other files are not touched. *)
Lemma owns_removed t ino bs u w : u ≠ t → owns t ino bs w → owns t ino bs (with_names (delete u (w_names w)) w).
Proof.
  intros Hu (H1 & H2 & H3). split_and!; [cbn; by rewrite lookup_delete_ne| |done].
  intros q Hq Hi. cbn in Hi. apply lookup_delete_Some in Hi as [_ Hi]. by apply (H2 q).
Qed.

Lemma owns_created_ne t ino bs u w : fs_ok w → u ≠ t → owns t ino bs w → owns t ino bs (fresh_file u w).
Proof.
  intros [H1 _] Hu (Ht & H2 & H3). pose proof (H1 _ _ Ht). split_and!; [cbn; by rewrite lookup_insert_ne| |].
  - intros q Hq Hi. cbn in Hi. apply lookup_insert_Some in Hi as [[_ Hi]|[_ Hi]]; [lia|]. by apply (H2 q).
  - unfold file_bytes. cbn. rewrite lookup_insert_ne by lia. done.
Qed.

Lemma owns_put_ne t ino bs j off new w : j ≠ ino → owns t ino bs w → owns t ino bs (put_bytes j off new w).
Proof. intros Hj (H1 & H2 & H3). split_and!; [done|done|]. unfold put_bytes. by rewrite file_bytes_insert_ne. Qed.
End Replace.
