(* ===== verification/Shm.v ===== *)
(** * The shared-memory segment (crates/aether-dataplane/src/core)

    [header.rs], [slot_io.rs], [reader.rs], [writer.rs] and the publication half
    of [config.rs] and of [publish_generation] (libs/aether-shm-bridge/src/runtime.rs).
    A segment is the byte string of its file: a 64-byte header followed by
    32-byte slots, all fields little-endian (the native order of the supported
    targets).  A writer or reader holds the inode it mapped, so two mappings of
    one inode alias, and a mapping survives a [rename] over its path.  Slot
    accesses here are those of one process between two interleaving points;
    interleaved accesses are the subject of [Slot.v]. *)

From stdpp Require Import base tactics numbers list gmap strings.
From S2P Require Import Prelude Slot Fs.
Import Fs.
#[local] Open Scope Z_scope.

Module Shm.

(** ** Layout (header.rs) *)

(** [DataplaneError]; the diagnostic strings are not modelled. *)
Inductive DataplaneError := InvalidLayout | InvalidPath | Io (k : io_kind).

Definition AETHER_SHM_MAGIC : Z := be_val [0x41; 0x45; 0x54; 0x48; 0x45; 0x52; 0x5F; 0x5F].
Definition SHM_LAYOUT_VERSION : Z := 5.
Definition HEADER_SIZE : nat := 64.
Definition SLOT_SIZE : nat := 32.

Record HeaderSnapshot := Header {
  magic : Z;
  version : Z;
  slot_count : Z;
  writer_heartbeat : Z;
  layout_hash : Z;
  writer_generation : Z;
  publication_epoch : Z }.

(** [repr(C)] image of [ShmHeader]. *)
Definition header_bytes (h : HeaderSnapshot) : list Z :=
  le_bytes 8 (magic h) ++ le_bytes 4 (version h) ++ le_bytes 4 (slot_count h) ++
  le_bytes 8 (writer_heartbeat h) ++ le_bytes 8 (layout_hash h) ++
  le_bytes 8 (writer_generation h) ++ le_bytes 8 (publication_epoch h) ++
  replicate 16 0.

(** [ShmHeader::snapshot]. *)
Definition header_snapshot (mem : list Z) : HeaderSnapshot :=
  Header (load_le 0 8 mem) (load_le 8 4 mem) (load_le 12 4 mem) (load_le 16 8 mem)
         (load_le 24 8 mem) (load_le 32 8 mem) (load_le 40 8 mem).

Definition calculate_file_size (n : nat) : nat := HEADER_SIZE + n * SLOT_SIZE.
Definition slot_offset : nat := HEADER_SIZE.

Definition validate_mapping_layout (mapped_len n : nat) : res DataplaneError unit :=
  if u_max 32 <? Z.of_nat n then Err InvalidLayout
  else if negb (mapped_len =? calculate_file_size n)%nat then Err InvalidLayout
  else Ok tt.

(** ** Slots (slot_io.rs; slot.rs on one thread) *)

Definition slot_addr (i : nat) : nat := slot_offset + i * SLOT_SIZE.

(** [slot_io::slot_at]: asserts the index. *)
Definition slot_at (n i : nat) : res DataplaneError nat :=
  if (i <? n)%nat then Ok (slot_addr i) else Panic.

(** [PointSlot::init_unwritten]. *)
Definition init_unwritten (a : nat) (mem : list Z) : list Z :=
  store_le (a + 16) 8 Slot.SLOT_UNWRITTEN_BITS
    (store_le a 8 Slot.SLOT_UNWRITTEN_BITS mem).

(** [PointSlot::set], run to completion. *)
Definition slot_set (a : nat) (d : Slot.slot_data) (mem : list Z) : list Z :=
  let mem := store_le (a + 24) 4 (wrapping_add 32 (load_le (a + 24) 4 mem) 1) mem in
  let mem := store_le a 8 (Slot.value_bits d) mem in
  let mem := store_le (a + 16) 8 (Slot.raw_bits d) mem in
  let mem := store_le (a + 8) 8 (Slot.timestamp d) mem in
  let mem := store_le (a + 28) 4 (Slot.quality_code d) mem in
  store_le (a + 24) 4 (wrapping_add 32 (load_le (a + 24) 4 mem) 1) mem.

(** [PointSlot::try_load_consistent] with no store in between. *)
Definition try_load_consistent (a : nat) (mem : list Z) : option Slot.slot_data :=
  let seq1 := load_le (a + 24) 4 mem in
  if negb (Z.land seq1 1 =? 0) then None
  else
    let d := Slot.SlotData (load_le a 8 mem) (load_le (a + 16) 8 mem)
                           (load_le (a + 8) 8 mem) (load_le (a + 28) 4 mem) in
    let seq2 := load_le (a + 24) 4 mem in
    if seq1 =? seq2 then Some d else None.

(** [slot_io::read_slot]; the result record [SlotRead] has the four fields of
    [slot_data]. *)
Definition read_slot (mem : list Z) (n i : nat) : option Slot.slot_data :=
  if (n <=? i)%nat then None else try_load_consistent (slot_addr i) mem.

(** [SlotIoWrite::write_slot]. *)
Definition write_slot (n i : nat) (d : Slot.slot_data) (mem : list Z) : bool * list Z :=
  if (n <=? i)%nat then (false, mem) else (true, slot_set (slot_addr i) d mem).

(** [SlotWriter::set_direct]: the panicking hot path. *)
Definition set_direct (n i : nat) (d : Slot.slot_data) (mem : list Z)
    : res DataplaneError (list Z) :=
  if (i <? n)%nat then Ok (slot_set (slot_addr i) d mem) else Panic.

Fixpoint init_slots (k n : nat) (mem : list Z) : list Z :=
  match n with
  | O => mem
  | S n => init_slots (S k) n (init_unwritten (slot_addr k) mem)
  end.

(** ** Generations (writer.rs) *)

(** [new_generation] from the wall clock and the process-wide sequence. *)
Definition new_generation (wall_nanos sequence : Z) : Z :=
  Z.max (Z.land (wrapping_add 64 (wrap 64 wall_nanos) sequence) (u_max 64 - 1)) 2.

(** A stable published generation: non-zero and even. *)
Definition generation_unstable (g : Z) : bool := (g =? 0) || negb (Z.land g 1 =? 0).

Record SlotWriter := Writer { sw_ino : nat; sw_path : string; sw_slot_count : nat }.
Record SlotReader := Reader { sr_ino : nat; sr_slot_count : nat }.

(** [AuthorityWriteGuard]: the exclusive lease, tied to its canonical path. *)
Record AuthorityWriteGuard := Guard { guard_path : string }.
Definition guards (g : AuthorityWriteGuard) (path : string) : bool :=
  bool_decide (guard_path g = path).

Definition shm_io := io DataplaneError.

(** Access through a mapping: no system call. *)
Definition peek_map (i : nat) : shm_io (list Z) := fun w => (Some (Ok (file_bytes w i)), w).
Definition poke_map (i : nat) (f : list Z → list Z) : shm_io unit := fun w =>
  (Some (Ok tt), with_data (<[i := f (file_bytes w i)]> (w_data w)) w).

Definition check (b : bool) : shm_io unit := if b then mret tt else fail InvalidLayout.

(** [SlotWriter::from_mmap_with_file]. *)
Definition from_mmap_with_file (ino : nat) (path : string) (n : nat) : shm_io SlotWriter :=
  sys_nop Io ≫= fun _ =>
  mem ← peek_map ino;
  _ ← lift (validate_mapping_layout (length mem) n);
  mret (Writer ino path n).

(** [SlotWriter::create]. *)
Definition create (path : string) (n : nat) (layout epoch wall_nanos sequence : Z)
    : shm_io SlotWriter :=
  _ ← check (negb (epoch =? 0));
  _ ← check (Z.of_nat n <=? u_max 32);
  _ ← sys_nop Io;
  ino ← sys_create Io true path;
  _ ← sys_set_len Io ino (calculate_file_size n);
  _ ← sys_nop Io;
  let header := Header AETHER_SHM_MAGIC SHM_LAYOUT_VERSION (Z.of_nat n) 0 layout
                       (new_generation wall_nanos sequence) epoch in
  _ ← poke_map ino (store 0 (header_bytes header));
  writer ← from_mmap_with_file ino path n;
  _ ← poke_map ino (init_slots 0 n);
  _ ← sys_nop Io;
  mret writer.

(** [SlotReader::open]. *)
Definition reader_open (path : string) : shm_io SlotReader :=
  ino ← sys_open Io path;
  bytes ← sys_read Io ino;
  _ ← check (HEADER_SIZE <=? length bytes)%nat;
  _ ← sys_nop Io;
  mem ← peek_map ino;
  _ ← check (HEADER_SIZE <=? length mem)%nat;
  let h := header_snapshot mem in
  _ ← check (magic h =? AETHER_SHM_MAGIC);
  _ ← check (version h =? SHM_LAYOUT_VERSION);
  _ ← check (negb (publication_epoch h =? 0));
  let n := Z.to_nat (slot_count h) in
  _ ← lift (validate_mapping_layout (length mem) n);
  mret (Reader ino n).

(** [SlotWriter::open_existing]. *)
Definition open_existing (path : string) (expected_n : nat) (expected_layout : Z)
    : shm_io SlotWriter :=
  ino ← sys_open Io path;
  bytes ← sys_read Io ino;
  _ ← check (HEADER_SIZE <=? length bytes)%nat;
  _ ← sys_nop Io;
  mem ← peek_map ino;
  let h := header_snapshot mem in
  _ ← check (magic h =? AETHER_SHM_MAGIC);
  _ ← check (version h =? SHM_LAYOUT_VERSION);
  let n := Z.to_nat (slot_count h) in
  _ ← lift (validate_mapping_layout (length mem) n);
  _ ← check (n =? expected_n)%nat;
  _ ← check (layout_hash h =? expected_layout);
  _ ← check (negb (publication_epoch h =? 0));
  _ ← check (negb (generation_unstable (writer_generation h)));
  from_mmap_with_file ino path n.

(** [SlotWriter::validate_authoritative_path]: [stat] the path and compare the
    inode with the mapped one. *)
Definition validate_authoritative_path (wr : SlotWriter) : shm_io unit :=
  ino ← sys_open Io (sw_path wr);
  check (ino =? sw_ino wr)%nat.

(** [SlotWriter::open_canonical_for_replacement]. *)
Definition open_canonical_for_replacement (path : string) (g : AuthorityWriteGuard)
    : shm_io (option SlotWriter) :=
  if negb (guards g path) then fail InvalidPath
  else
    r ← attempt (reader_open path);
    match r with
    | Err (Io NotFound) => mret None
    | Err e => fail e
    | Panic => lift Panic
    | Ok rd =>
        mem ← peek_map (sr_ino rd);
        let h := header_snapshot mem in
        if generation_unstable (writer_generation h) then mret None
        else
          writer ← open_existing path (Z.to_nat (slot_count h)) (layout_hash h);
          _ ← validate_authoritative_path writer;
          mret (Some writer)
    end.

Definition set_generation (g : Z) (mem : list Z) : list Z := store_le 32 8 g mem.

(** [GenerationInvalidation]: the generation to restore on drop. *)
Record GenerationInvalidation := Invalidation { gi_ino : nat; gi_original : Z }.

(** [SlotWriter::begin_generation_swap]; the exclusive lease makes the
    compare-exchange succeed. *)
Definition begin_generation_swap (wr : SlotWriter) (g : AuthorityWriteGuard)
    : shm_io GenerationInvalidation :=
  if negb (guards g (sw_path wr)) then fail InvalidPath
  else
    _ ← validate_authoritative_path wr;
    mem ← peek_map (sw_ino wr);
    let generation := writer_generation (header_snapshot mem) in
    _ ← check (negb (generation_unstable generation));
    _ ← poke_map (sw_ino wr) (set_generation (Z.lor generation 1));
    mret (Invalidation (sw_ino wr) generation).

(** [Drop for GenerationInvalidation] when not committed. *)
Definition drop_invalidation (inv : GenerationInvalidation) : shm_io unit :=
  poke_map (gi_ino inv) (set_generation (gi_original inv)).

(** [commit_generation_swap_locked]. *)
Definition commit_generation_swap_locked (staging canonical : string)
    (g : AuthorityWriteGuard) : shm_io unit :=
  if negb (guards g canonical) then fail InvalidPath
  else sys_rename Io staging canonical.

(** The publication step of [publish_generation]: invalidate the previous
    generation, rename, commit the invalidation; the guard's [Drop] restores
    the previous generation when the rename fails. *)
Definition publish_swap (staging canonical : string) (g : AuthorityWriteGuard)
    (previous : option SlotWriter) : shm_io unit :=
  match previous with
  | None => commit_generation_swap_locked staging canonical g
  | Some wr =>
      inv ← begin_generation_swap wr g;
      r ← attempt (commit_generation_swap_locked staging canonical g);
      match r with
      | Ok _ => mret tt
      | Err e => _ ← drop_invalidation inv; fail e
      | Panic => _ ← drop_invalidation inv; lift Panic
      end
  end.

(** [SlotWriter::update_heartbeat] and [SlotReader::is_writer_alive]. *)
Definition update_heartbeat (ts : Z) (mem : list Z) : list Z := store_le 16 8 ts mem.
Definition is_writer_alive (now_ms timeout_ms : Z) (mem : list Z) : bool :=
  let last_hb := writer_heartbeat (header_snapshot mem) in
  if last_hb =? 0 then false else saturating_sub now_ms last_hb <? timeout_ms.

(** ** Reasoning about fields *)

Definition data_ok (d : Slot.slot_data) : Prop :=
  in_u 64 (Slot.value_bits d) ∧ in_u 64 (Slot.raw_bits d) ∧
  in_u 64 (Slot.timestamp d) ∧ in_u 32 (Slot.quality_code d).

(** A mapped segment of [n] slots. *)
Definition segment (n : nat) (mem : list Z) : Prop :=
  length mem = calculate_file_size n ∧ bytes_ok mem.

(** No write is in progress in slot [i]. *)
Definition slot_idle (i : nat) (mem : list Z) : Prop :=
  Z.land (load_le (slot_addr i + 24) 4 mem) 1 = 0.

Ltac mem_len := solve [ repeat rewrite length_store_le by mem_len; lia ].
Ltac mem_simp :=
  repeat first
    [ rewrite load_store_le_same by (first [mem_len | done | exact (wrap_in_u 32 _ ltac:(done))])
    | rewrite load_store_le_disjoint by mem_len ].

Lemma slot_addr_bound n i mem :
  segment n mem → (i < n)%nat → (slot_addr i + 32 ≤ length mem)%nat.
Proof. intros [-> _] ?. unfold slot_addr, calculate_file_size, slot_offset, SLOT_SIZE. lia. Qed.

Lemma slot_addr_disjoint i j :
  i ≠ j → (slot_addr i + 32 ≤ slot_addr j ∨ slot_addr j + 32 ≤ slot_addr i)%nat.
Proof. unfold slot_addr, SLOT_SIZE. lia. Qed.

Lemma length_slot_set a d mem :
  (a + 32 ≤ length mem)%nat → length (slot_set a d mem) = length mem.
Proof. intros. unfold slot_set. by repeat rewrite length_store_le by mem_len. Qed.

Lemma slot_set_ok a d mem : bytes_ok mem → bytes_ok (slot_set a d mem).
Proof. intros. unfold slot_set. by auto 10 with bytes. Qed.

Lemma slot_set_load_other a d mem o m :
  (a + 32 ≤ length mem)%nat → (o + m ≤ a ∨ a + 32 ≤ o)%nat →
  load_le o m (slot_set a d mem) = load_le o m mem.
Proof. intros. unfold slot_set. by mem_simp. Qed.

Lemma slot_set_fields a d mem :
  (a + 32 ≤ length mem)%nat → data_ok d →
  load_le a 8 (slot_set a d mem) = Slot.value_bits d ∧
  load_le (a + 16) 8 (slot_set a d mem) = Slot.raw_bits d ∧
  load_le (a + 8) 8 (slot_set a d mem) = Slot.timestamp d ∧
  load_le (a + 28) 4 (slot_set a d mem) = Slot.quality_code d ∧
  load_le (a + 24) 4 (slot_set a d mem) =
    wrapping_add 32 (wrapping_add 32 (load_le (a + 24) 4 mem) 1) 1.
Proof.
  intros Hl (Hv & Hr & Ht & Hq). unfold slot_set.
  split_and!; by mem_simp.
Qed.

Lemma seq_parity x :
  Z.land (wrapping_add 32 (wrapping_add 32 x 1) 1) 1 = Z.land x 1.
Proof.
  rewrite !land_1. unfold wrapping_add. rewrite !wrap_mod_2 by done.
  rewrite <- Zplus_mod_idemp_l, wrap_mod_2, Zplus_mod_idemp_l by done.
  replace (x + 1 + 1) with (x + 1 * 2) by lia. by rewrite Z.mod_add.
Qed.

Lemma try_load_slot_set a d mem :
  (a + 32 ≤ length mem)%nat → data_ok d → Z.land (load_le (a + 24) 4 mem) 1 = 0 →
  try_load_consistent a (slot_set a d mem) = Some d.
Proof.
  intros Hl Hd Hp. destruct (slot_set_fields a d mem Hl Hd) as (Hv & Hr & Ht & Hq & Hs).
  unfold try_load_consistent. rewrite Hv, Hr, Ht, Hq, Hs, seq_parity, Hp, !Z.eqb_refl.
  by destruct d.
Qed.

Lemma try_load_slot_set_other a d mem b :
  (a + 32 ≤ length mem)%nat → (b + 32 ≤ a ∨ a + 32 ≤ b)%nat →
  try_load_consistent b (slot_set a d mem) = try_load_consistent b mem.
Proof.
  intros. unfold try_load_consistent.
  by rewrite !slot_set_load_other by lia.
Qed.

Lemma slot_set_facts n i d mem :
  segment n mem → (i < n)%nat → data_ok d → slot_idle i mem →
  let mem' := slot_set (slot_addr i) d mem in
  segment n mem' ∧ header_snapshot mem' = header_snapshot mem ∧
  read_slot mem' n i = Some d ∧
  (∀ j, j ≠ i → read_slot mem' n j = read_slot mem n j) ∧
  (∀ j, slot_idle j mem → slot_idle j mem').
Proof.
  intros Hseg Hi Hd Hidle. cbv zeta.
  pose proof (slot_addr_bound _ _ _ Hseg Hi) as Ha. destruct Hseg as [Hlen Hok].
  split_and!.
  - split; [by rewrite length_slot_set|by apply slot_set_ok].
  - unfold header_snapshot.
    by rewrite !slot_set_load_other by (unfold slot_addr, slot_offset, HEADER_SIZE in *; lia).
  - unfold read_slot. destruct (Nat.leb_spec n i); [lia|]. by apply try_load_slot_set.
  - intros j Hj. unfold read_slot. destruct (Nat.leb_spec n j); [done|].
    apply try_load_slot_set_other; [done|]. by apply slot_addr_disjoint.
  - intros j Hj. unfold slot_idle in *. destruct (decide (j = i)) as [->|Hne].
    + destruct (slot_set_fields (slot_addr i) d mem Ha Hd) as (_ & _ & _ & _ & ->).
      by rewrite seq_parity.
    + pose proof (slot_addr_disjoint j i Hne). by rewrite slot_set_load_other by lia.
Qed.

(** ** Theorems: slots *)

(** [write_slot] and [read_slot] on one segment: an in-range write to an
    idle slot is read back exactly, leaves every other slot and the whole
    header as they were, keeps the slot idle and the segment well formed; an
    out-of-range write returns [false] and changes nothing. *)
Theorem write_slot_read_slot (n i : nat) (d : Slot.slot_data) (mem : list Z) :
  segment n mem → data_ok d → slot_idle i mem →
  let '(written, mem') := write_slot n i d mem in
  segment n mem' ∧ header_snapshot mem' = header_snapshot mem ∧
  (∀ j, j ≠ i → read_slot mem' n j = read_slot mem n j) ∧
  (if (i <? n)%nat
   then written = true ∧ read_slot mem' n i = Some d ∧ slot_idle i mem'
   else written = false ∧ mem' = mem).
Proof.
  intros Hseg Hd Hidle. unfold write_slot. rewrite Nat.leb_antisym.
  destruct (Nat.ltb_spec i n) as [Hi|Hi]; cbn [negb]; [|by split_and!].
  destruct (slot_set_facts n i d mem Hseg Hi Hd Hidle) as (H1 & H2 & H3 & H4 & H5).
  split_and!; [done..|by apply H5].
Qed.

Lemma write_slot_read_slot_witness :
  let d := Slot.SlotData 0x4037000000000000 0x4037000000000000 1000 0 in
  let '(written, mem') := write_slot 2 1 d (replicate 128 0) in
  written = true ∧ read_slot mem' 2 1 = Some d.
Proof.
  pose proof (write_slot_read_slot 2 1
    (Slot.SlotData 0x4037000000000000 0x4037000000000000 1000 0) (replicate 128 0)) as H.
  cbv zeta. destruct (write_slot _ _ _ _) as [wr mem'].
  destruct H as (_ & _ & _ & H1 & H2 & _); [|by split_and!|done|by split].
  split; [done|]. by apply Forall_replicate.
Defined.

(** ** Fresh segments *)

Lemma length_header_bytes h : length (header_bytes h) = HEADER_SIZE.
Proof.
  unfold header_bytes. autorewrite with len. by rewrite length_replicate.
Qed.

Lemma header_bytes_ok h : bytes_ok (header_bytes h).
Proof.
  unfold header_bytes. repeat (apply bytes_ok_app; split; [apply le_bytes_ok|]).
  by apply Forall_replicate.
Qed.

Definition header_ok (h : HeaderSnapshot) : Prop :=
  in_u 64 (magic h) ∧ in_u 32 (version h) ∧ in_u 32 (slot_count h) ∧
  in_u 64 (writer_heartbeat h) ∧ in_u 64 (layout_hash h) ∧
  in_u 64 (writer_generation h) ∧ in_u 64 (publication_epoch h).

(** The header image and the offsets of [snapshot] agree. *)
Lemma header_snapshot_bytes h rest :
  header_ok h → header_snapshot (header_bytes h ++ rest) = h.
Proof.
  intros (Hm & Hv & Hn & Hb & Hl & Hg & He).
  destruct h as [m v n b l g e]. cbn [magic version slot_count writer_heartbeat
    layout_hash writer_generation publication_epoch] in *.
  unfold header_snapshot. f_equal;
    first [by apply (le_val_le_bytes_small 8)|by apply (le_val_le_bytes_small 4)].
Qed.

Lemma land_even_mask x : in_u 64 x → Z.land x (u_max 64 - 1) = x - x mod 2.
Proof.
  intros Hx. replace (u_max 64 - 1) with (Z.shiftl (Z.ones 63) 1) by done.
  apply Z.bits_inj'. intros i Hi. rewrite Z.land_spec, Z.shiftl_spec by done.
  assert (x - x mod 2 = Z.shiftl (Z.shiftr x 1) 1) as ->.
  { rewrite Z.shiftl_mul_pow2, Z.shiftr_div_pow2 by lia.
    pose proof (Z.div_mod x (2 ^ 1) ltac:(done)). change (2 ^ 1) with 2 in *. lia. }
  rewrite Z.shiftl_spec by done.
  destruct (Z.leb_spec 1 i) as [H1|H1].
  - rewrite Z.shiftr_spec by lia. replace (i - 1 + 1) with i by lia.
    rewrite Z.testbit_ones_nonneg by lia.
    destruct (Z.ltb_spec (i - 1) 63) as [H2|H2]; [by rewrite andb_true_r|].
    rewrite andb_false_r. symmetry. apply Z.bits_above_log2; [unfold in_u in Hx; lia|].
    destruct (decide (x = 0)) as [->|]; [cbn; lia|].
    assert (Z.log2 x < 64); [|lia]. apply Z.log2_lt_pow2; unfold in_u in Hx; lia.
  - by rewrite !(Z.testbit_neg_r _ (i - 1)), andb_false_r by lia.
Qed.

Lemma new_generation_range (wall_nanos sequence : Z) :
  in_u 64 (new_generation wall_nanos sequence) ∧
  2 ≤ new_generation wall_nanos sequence ∧
  generation_unstable (new_generation wall_nanos sequence) = false.
Proof.
  unfold new_generation.
  set (x := wrapping_add 64 (wrap 64 wall_nanos) sequence).
  assert (in_u 64 x) as Hx by (by apply wrap_in_u).
  rewrite land_even_mask by done. unfold in_u in *.
  pose proof (Z.mod_pos_bound x 2 ltac:(done)).
  set (y := Z.max (x - x mod 2) 2). assert (2 ≤ y < 2 ^ 64) as Hy by lia.
  split_and!; try lia. unfold generation_unstable. apply orb_false_intro; [lia|].
  rewrite land_1, negb_false_iff, Z.eqb_eq. subst y.
  destruct (Z.max_spec (x - x mod 2) 2) as [[_ ->]|[_ ->]]; [done|].
  rewrite Zminus_mod_idemp_r, Z.sub_diag. done.
Qed.


(** [wp] through the combinators of this file. *)
Lemma wp_check (b : bool) (Q : res DataplaneError unit → world → Prop) C w :
  (b = true → Q (Ok tt) w) → (b = false → Q (Err InvalidLayout) w) → wp (check b) Q C w.
Proof. destruct b; cbn; auto. Qed.

Lemma wp_peek i (Q : res DataplaneError (list Z) → world → Prop) C w :
  Q (Ok (file_bytes w i)) w → wp (peek_map i) Q C w.
Proof. done. Qed.

Ltac wp_user ::=
  match goal with
  | |- wp (check _) _ _ _ => apply wp_check; intros ?
  | |- wp (peek_map _) _ _ _ => apply wp_peek
  end.

Lemma validate_mapping_layout_Ok len n :
  validate_mapping_layout len n = Ok tt ↔ Z.of_nat n ≤ u_max 32 ∧ len = calculate_file_size n.
Proof.
  unfold validate_mapping_layout.
  destruct (Z.ltb_spec (u_max 32) (Z.of_nat n)); [split; [done|lia]|].
  destruct (Nat.eqb_spec len (calculate_file_size n)); cbn; naive_solver lia.
Qed.

Lemma validate_mapping_layout_cases len n :
  validate_mapping_layout len n = Ok tt ∨ validate_mapping_layout len n = Err InvalidLayout.
Proof. unfold validate_mapping_layout. repeat case_if; auto. Qed.

(** The worlds differ in the remaining fault schedule only. *)
Definition same_files (w w' : world) : Prop :=
  w_names w' = w_names w ∧ w_data w' = w_data w ∧ w_next w' = w_next w.

(** A segment a reader may use: [slot_count] from a valid header, mapped exactly. *)
Definition published (mem : list Z) (n : nat) : Prop :=
  magic (header_snapshot mem) = AETHER_SHM_MAGIC ∧
  version (header_snapshot mem) = SHM_LAYOUT_VERSION ∧
  publication_epoch (header_snapshot mem) ≠ 0 ∧
  n = Z.to_nat (slot_count (header_snapshot mem)) ∧
  length mem = calculate_file_size n.

(** [SlotReader::open] on any file contents and any I/O faults: it never
    panics and changes no file; when it accepts, the header is valid and the
    mapping covers exactly the declared slots, so the address range of every
    slot below [slot_count] is inside the mapping. *)
Theorem reader_open_in_bounds (path : string) (w : world) :
  wp (reader_open path)
    (fun r w' => same_files w w' ∧ r ≠ Panic ∧
       ∀ rd, r = Ok rd →
         w_names w' !! path = Some (sr_ino rd) ∧
         published (file_bytes w' (sr_ino rd)) (sr_slot_count rd) ∧
         ∀ i, (i < sr_slot_count rd)%nat →
           (slot_addr i + SLOT_SIZE ≤ length (file_bytes w' (sr_ino rd)))%nat)
    (fun w' => same_files w w') w.
Proof.
  unfold reader_open. wp_go.
  destruct (w_names w !! path) as [ino|] eqn:Hp; cbv beta iota; [|by split_and!]. wp_go.
  rewrite !file_bytes_faults in *. bool_to_prop.
  set (n := Z.to_nat _). destruct (validate_mapping_layout_cases
    (length (file_bytes w ino)) n) as [Hv| ->]; [|by split_and!].
  rewrite Hv. apply validate_mapping_layout_Ok in Hv as [_ Hv]. wp_go. split_and!; [done..|].
  intros rd [= <-]. cbn [sr_ino sr_slot_count]. rewrite !file_bytes_faults. fold n.
  split_and!; [done..|]. intros i Hi. rewrite Hv.
  unfold slot_addr, calculate_file_size, slot_offset, SLOT_SIZE. lia.
Qed.

(** ** Publication *)

Lemma length_set_generation g mem :
  (64 ≤ length mem)%nat → length (set_generation g mem) = length mem.
Proof. intros. apply length_store_le. lia. Qed.

(** Restoring the generation that was read restores the mapping exactly. *)
Lemma store_store off bs bs' l :
  (off + length bs ≤ length l)%nat → length bs' = length bs →
  store off bs' (store off bs l) = store off bs' l.
Proof.
  intros Hl Hb. unfold store. rewrite take_app_le by (rewrite length_take; lia).
  rewrite take_take, Nat.min_id. do 2 f_equal.
  rewrite app_assoc, drop_app_ge by (rewrite length_app, length_take; lia).
  rewrite drop_drop. f_equal. rewrite length_app, length_take. lia.
Qed.

Lemma store_slice off n l : (off + n ≤ length l)%nat → store off (slice off n l) l = l.
Proof.
  intros. unfold store. rewrite length_slice by done. unfold slice.
  rewrite <- drop_drop, take_drop. apply take_drop.
Qed.

Lemma set_generation_restore g mem :
  bytes_ok mem → (64 ≤ length mem)%nat →
  set_generation (writer_generation (header_snapshot mem)) (set_generation g mem) = mem.
Proof.
  intros Hok Hl. unfold set_generation, store_le. cbn [writer_generation header_snapshot].
  rewrite store_store by (rewrite ?length_le_bytes; lia). unfold load_le.
  pose proof (le_bytes_le_val (slice 32 8 mem) (slice_ok _ _ _ Hok)) as Hs.
  rewrite length_slice in Hs by lia. rewrite Hs. apply store_slice. lia.
Qed.

Lemma set_generation_get g mem :
  (64 ≤ length mem)%nat → in_u 64 g →
  writer_generation (header_snapshot (set_generation g mem)) = g.
Proof. intros. apply (load_store_le_same 32 8); [lia|done]. Qed.

Lemma lor_1_odd g : 0 ≤ g → Z.land g 1 = 0 → Z.lor g 1 = g + 1.
Proof.
  intros Hg He. rewrite <- Z.lxor_lor by done. symmetry. by apply Z.add_nocarry_lxor.
Qed.

Lemma generation_stable_bounds g :
  0 ≤ g < 2 ^ 64 → generation_unstable g = false →
  Z.lor g 1 = g + 1 ∧ in_u 64 (g + 1) ∧ generation_unstable (g + 1) = true.
Proof.
  intros Hg Hu. unfold generation_unstable in *. bool_to_prop.
  split_and!; [apply lor_1_odd; [lia|done]| |].
  - unfold in_u. rewrite land_1 in *. split; [lia|].
    assert (g ≠ 2 ^ 64 - 1); [intros ->; done|lia].
  - rewrite orb_true_iff. right. rewrite land_1 in *.
    rewrite <- Zplus_mod_idemp_l. by rewrite H0.
Qed.

Section Publish.
Context (staging canonical : string) (g : AuthorityWriteGuard) (wr : SlotWriter).
Context (mem : list Z) (w : world).
Hypothesis Hguard : guards g canonical = true.
Hypothesis Hpath : sw_path wr = canonical.
Hypothesis Hcanon : w_names w !! canonical = Some (sw_ino wr).
Hypothesis Hmem : w_data w !! sw_ino wr = Some mem.
Hypothesis Hok : bytes_ok mem.
Hypothesis Hlen : (64 ≤ length mem)%nat.
Let gen : Z := writer_generation (header_snapshot mem).
Hypothesis Hstable : generation_unstable gen = false.

Lemma wp_begin_generation_swap :
  wp (begin_generation_swap wr g)
    (fun r w' => match r with
       | Ok inv => inv = Invalidation (sw_ino wr) gen ∧ w_names w' = w_names w ∧
                   w_next w' = w_next w ∧
                   w_data w' = <[sw_ino wr := set_generation (gen + 1) mem]> (w_data w)
       | Err _ => same_files w w'
       | Panic => False
       end)
    (fun w' => same_files w w') w.
Proof.
  assert (in_u 64 gen) as Hgen by (apply (load_le_in_u 32 8); [done|lia]).
  destruct (generation_stable_bounds gen Hgen Hstable) as (Hlor & _ & _).
  unfold begin_generation_swap, validate_authoritative_path.
  rewrite Hpath, Hguard. cbn [negb]. wp_go.
  rewrite Hcanon. wp_go. change (file_bytes _ _) with (file_bytes w (sw_ino wr)) in *.
  unfold wp, poke_map. change (file_bytes _ _) with (file_bytes w (sw_ino wr)) in *.
  replace (file_bytes w (sw_ino wr)) with mem in * by (symmetry; by apply file_bytes_eq).
  fold gen.
  by rewrite Hlor.
Qed.

(** The publication step under every fault schedule is all-or-nothing.  On
    success the canonical name denotes the staged segment, unchanged, and the
    mapping retained by old readers carries an odd (refused) generation; on
    failure no name and no byte of any file has changed; if the process dies,
    the canonical name still denotes the old segment, whose slots are intact
    and whose generation is either untouched or marked invalid. *)
Theorem publish_swap_all_or_nothing (j : nat) :
  staging ≠ canonical → w_names w !! staging = Some j → j ≠ sw_ino wr →
  wp (publish_swap staging canonical g (Some wr))
    (fun r w' => match r with
       | Ok _ => w_names w' !! canonical = Some j ∧ w_names w' !! staging = None ∧
                 file_bytes w' j = file_bytes w j ∧
                 generation_unstable (writer_generation
                   (header_snapshot (file_bytes w' (sw_ino wr)))) = true
       | Err _ => same_files w w'
       | Panic => False
       end)
    (fun w' => w_names w' = w_names w ∧
       (same_files w w' ∨
        w_data w' = <[sw_ino wr := set_generation (gen + 1) mem]> (w_data w))) w.
Proof.
  intros Hne Hst Hj.
  assert (in_u 64 gen) as Hgen by (apply (load_le_in_u 32 8); [done|lia]).
  destruct (generation_stable_bounds gen Hgen Hstable) as (_ & Hu & Hodd).
  unfold publish_swap. apply wp_bind.
  eapply wp_mono; [apply wp_begin_generation_swap| |intros w' Hw; split; [apply Hw|by left]].
  intros [inv|e|] w1; cbv beta iota; [intros (-> & Hn1 & Hx1 & Hd1)|done|done].
  assert (∀ fs, same_files w (with_data (<[sw_ino wr := set_generation gen
    (file_bytes w1 (sw_ino wr))]> (w_data w1)) (with_faults fs w1))) as Hback.
  { intros fs. split_and!; [done| |done]. cbn [w_data with_data].
    rewrite (file_bytes_eq w1 _ (set_generation (gen + 1) mem))
      by (by rewrite Hd1, lookup_insert_eq).
    unfold gen at 1. rewrite set_generation_restore by done.
    by rewrite Hd1, insert_insert_eq, insert_id. }
  unfold commit_generation_swap_locked. rewrite Hguard. cbn [negb]. wp_go.
  - rewrite Hn1, Hst. cbv beta iota. apply wp_ret.
    cbn [w_names with_names with_faults].
    rewrite lookup_insert_eq, lookup_insert_ne, lookup_delete_eq by done.
    split_and!; [done..| |].
    + unfold file_bytes. cbn. by rewrite Hd1, lookup_insert_ne.
    + erewrite file_bytes_eq by (cbn; by rewrite Hd1, lookup_insert_eq).
      by rewrite set_generation_get.
  - apply (Hback fs).
  - split; [done|]. by right.
Qed.

End Publish.

(** ** Creating and reopening a segment *)

Lemma le_val_zeros n : le_val (replicate n 0) = 0.
Proof. induction n as [|n IH]; cbn [replicate le_val]; lia. Qed.

Lemma load_le_zeros off n k pre :
  (length pre ≤ off)%nat → (off + n ≤ length pre + k)%nat →
  load_le off n (pre ++ replicate k 0) = 0.
Proof.
  intros Ho Hn. unfold load_le, slice.
  rewrite drop_app_ge, drop_replicate, take_replicate by done. apply le_val_zeros.
Qed.

Lemma length_init_unwritten a mem :
  (a + 32 ≤ length mem)%nat → length (init_unwritten a mem) = length mem.
Proof. intros. unfold init_unwritten. by repeat rewrite length_store_le by mem_len. Qed.

Lemma init_unwritten_other a mem o m :
  (a + 32 ≤ length mem)%nat → (o + m ≤ a ∨ a + 32 ≤ o)%nat →
  load_le o m (init_unwritten a mem) = load_le o m mem.
Proof. intros. unfold init_unwritten. by mem_simp. Qed.

Lemma init_unwritten_load a mem :
  (a + 32 ≤ length mem)%nat →
  load_le (a + 24) 4 mem = 0 → load_le (a + 8) 8 mem = 0 → load_le (a + 28) 4 mem = 0 →
  try_load_consistent a (init_unwritten a mem) = Some Slot.slot_new.
Proof.
  intros Hl Hs Ht Hq. unfold try_load_consistent, init_unwritten. mem_simp.
  by rewrite Hs, Ht, Hq.
Qed.

Lemma init_slots_spec n k mem :
  (slot_addr (k + n) ≤ length mem)%nat →
  length (init_slots k n mem) = length mem ∧
  (bytes_ok mem → bytes_ok (init_slots k n mem)) ∧
  (∀ o m, (o + m ≤ slot_addr k ∨ slot_addr (k + n) ≤ o)%nat →
     load_le o m (init_slots k n mem) = load_le o m mem) ∧
  (∀ i, (k ≤ i < k + n)%nat → (∀ o m, (slot_addr i ≤ o)%nat →
       (o + m ≤ slot_addr i + 32)%nat → load_le o m mem = 0) →
     try_load_consistent (slot_addr i) (init_slots k n mem) = Some Slot.slot_new).
Proof.
  revert k mem. induction n as [|n IH]; intros k mem Hl; cbn [init_slots].
  { split_and!; [done..|]. intros; lia. }
  assert (∀ i, slot_addr (S i) = slot_addr i + 32)%nat as HS
    by (intros; unfold slot_addr, SLOT_SIZE; lia).
  assert (∀ i j, i ≤ j → slot_addr i ≤ slot_addr j)%nat as Hmon
    by (intros; unfold slot_addr, SLOT_SIZE; lia).
  rewrite <- Nat.add_succ_comm in Hl.
  pose proof (Hmon (S k) (S k + n)%nat ltac:(lia)) as Hk. rewrite HS in Hk.
  assert (slot_addr k + 32 ≤ length mem)%nat as Ha by lia.
  destruct (IH (S k) (init_unwritten (slot_addr k) mem)) as (H1 & H2 & H3 & H4);
    [by rewrite length_init_unwritten|].
  rewrite length_init_unwritten in H1 by done. split_and!; [done|..].
  - intros Hok. apply H2. unfold init_unwritten. by auto with bytes.
  - intros o m Ho. rewrite <- Nat.add_succ_comm in Ho.
    rewrite H3, init_unwritten_other; [done|done|lia|rewrite HS; lia].
  - intros i Hi Hz. destruct (decide (i = k)) as [->|Hik].
    + unfold try_load_consistent. rewrite !H3 by (rewrite HS; lia).
      apply (init_unwritten_load (slot_addr k)); [done|..]; apply Hz; lia.
    + pose proof (Hmon (S k) i ltac:(lia)). rewrite HS in *.
      apply H4; [lia|]. intros o m Ho Hm. rewrite init_unwritten_other by lia. by apply Hz.
Qed.

Lemma run_check (b : bool) w : b = true → check b w = (Some (Ok tt), w).
Proof. by intros ->. Qed.

Ltac run_check :=
  eapply run_bind; [apply run_check; first [done | lia | by apply Z.eqb_eq]|].

Lemma from_mmap_with_file_ok path ino n w :
  w_faults w = [] → Z.of_nat n ≤ u_max 32 →
  length (file_bytes w ino) = calculate_file_size n →
  from_mmap_with_file ino path n w = (Some (Ok (Writer ino path n)), w).
Proof.
  intros Hnf Hn Hl. unfold from_mmap_with_file.
  eapply run_bind; [by apply run_syscall|]. eapply run_bind; [done|].
  eapply run_bind; [|done]. unfold lift. do 2 f_equal.
  by apply validate_mapping_layout_Ok.
Qed.

Section Open.
Context (path : string) (ino n : nat) (w : world).
Hypothesis Hnf : w_faults w = [].
Hypothesis Hname : w_names w !! path = Some ino.
Hypothesis Hpub : published (file_bytes w ino) n.
Hypothesis Hn : Z.of_nat n ≤ u_max 32.

Lemma published_long : (HEADER_SIZE <=? length (file_bytes w ino))%nat = true.
Proof.
  apply Nat.leb_le. destruct Hpub as (_ & _ & _ & _ & ->). unfold calculate_file_size. lia.
Qed.

Lemma reader_open_ok : reader_open path w = (Some (Ok (Reader ino n)), w).
Proof.
  pose proof published_long as Hlong. destruct Hpub as (Hm & Hv & He & Hc & Hl).
  unfold reader_open.
  eapply run_bind; [by apply run_open|]. eapply run_bind; [by apply run_syscall|].
  run_check. eapply run_bind; [by apply run_syscall|]. eapply run_bind; [done|].
  run_check. run_check. run_check. run_check. rewrite <- Hc.
  eapply run_bind; [|done]. unfold lift. do 2 f_equal.
  by apply validate_mapping_layout_Ok.
Qed.

Lemma open_existing_ok layout :
  layout_hash (header_snapshot (file_bytes w ino)) = layout →
  generation_unstable (writer_generation (header_snapshot (file_bytes w ino))) = false →
  open_existing path n layout w = (Some (Ok (Writer ino path n)), w).
Proof.
  intros Hlh Hg. pose proof published_long as Hlong. destruct Hpub as (Hm & Hv & He & Hc & Hl).
  unfold open_existing.
  eapply run_bind; [by apply run_open|]. eapply run_bind; [by apply run_syscall|].
  run_check. eapply run_bind; [by apply run_syscall|]. eapply run_bind; [done|].
  run_check. run_check. rewrite <- Hc.
  eapply run_bind; [unfold lift; by rewrite (proj2 (validate_mapping_layout_Ok _ _))|].
  eapply run_bind; [by apply run_check, Nat.eqb_refl|].
  run_check. run_check. eapply run_bind; [by apply run_check; rewrite Hg|].
  by apply from_mmap_with_file_ok.
Qed.

Lemma validate_authoritative_path_ok :
  validate_authoritative_path (Writer ino path n) w = (Some (Ok tt), w).
Proof.
  unfold validate_authoritative_path. eapply run_bind; [by apply run_open|].
  apply run_check, Nat.eqb_refl.
Qed.

(** Whatever state an interrupted publication left the canonical segment
    in, a replacement can start: [open_canonical_for_replacement] under the
    lease returns the writer to invalidate when the generation is stable, and
    [None] (nothing left to invalidate) when it is zero or odd. *)
Theorem open_canonical_for_replacement_restarts (g : AuthorityWriteGuard) :
  guards g path = true →
  open_canonical_for_replacement path g w =
  (Some (Ok (if generation_unstable (writer_generation (header_snapshot (file_bytes w ino)))
             then None else Some (Writer ino path n))), w).
Proof.
  intros Hg. unfold open_canonical_for_replacement. rewrite Hg. cbn [negb].
  eapply run_bind; [unfold attempt; by rewrite reader_open_ok|]. cbv beta iota.
  eapply run_bind; [done|]. cbv zeta. cbn [sr_ino].
  destruct (generation_unstable _) eqn:Hu; [done|].
  assert (Z.to_nat (slot_count (header_snapshot (file_bytes w ino))) = n) as ->
    by (by destruct Hpub as (_ & _ & _ & ? & _)).
  eapply run_bind; [by apply open_existing_ok|].
  by eapply run_bind; [apply validate_authoritative_path_ok|].
Qed.

End Open.

Lemma store_header h N :
  store 0 (header_bytes h) (replicate (HEADER_SIZE + N) 0) = header_bytes h ++ replicate N 0.
Proof.
  unfold store. rewrite length_header_bytes, take_0, Nat.add_0_l, drop_replicate.
  cbn [app]. do 2 f_equal. lia.
Qed.

(** The segment [create] builds, before and after the slots are initialised. *)
Lemma fresh_segment h n :
  header_ok h →
  let mem := init_slots 0 n (header_bytes h ++ replicate (n * SLOT_SIZE) 0) in
  length mem = calculate_file_size n ∧ bytes_ok mem ∧ header_snapshot mem = h ∧
  ∀ i, (i < n)%nat → read_slot mem n i = Some Slot.slot_new.
Proof.
  intros Hh. set (mem0 := header_bytes h ++ _).
  assert (length mem0 = calculate_file_size n) as Hl0
    by (subst mem0; by rewrite length_app, length_header_bytes, length_replicate).
  assert (bytes_ok mem0) as Hok0.
  { apply bytes_ok_app. split; [apply header_bytes_ok|]. by apply Forall_replicate. }
  destruct (init_slots_spec n 0 mem0) as (Hl & Hok & Ho & Hs); [by rewrite Hl0|].
  split_and!; [by rewrite Hl|by apply Hok| |].
  - rewrite <- (header_snapshot_bytes h (replicate (n * SLOT_SIZE) 0)) by done. fold mem0.
    unfold header_snapshot. by rewrite !Ho by (unfold slot_addr, slot_offset, HEADER_SIZE; lia).
  - intros i Hi. unfold read_slot. destruct (Nat.leb_spec n i); [lia|].
    apply Hs; [lia|]. intros o m H1 H2. apply load_le_zeros.
    + rewrite length_header_bytes. unfold slot_addr, slot_offset in *. lia.
    + rewrite length_header_bytes. unfold slot_addr, slot_offset, SLOT_SIZE in *. lia.
Qed.

Lemma run_create_file path w :
  w_faults w = [] → ∃ ino w1, sys_create Io true path w = (Some (Ok ino), w1) ∧
    w_faults w1 = [] ∧ w_names w1 !! path = Some ino ∧ file_bytes w1 ino = [].
Proof.
  intros Hf. unfold sys_create, syscall. rewrite Hf.
  destruct (w_names w !! path) as [ino|] eqn:Hp; eexists _, _; (split; [done|]); cbn.
  - split_and!; [done|done|]. by apply file_bytes_eq; cbn; rewrite lookup_insert_eq.
  - split_and!; [done|by rewrite lookup_insert_eq|].
    by apply file_bytes_eq; cbn; rewrite lookup_insert_eq.
Qed.

Lemma run_poke (ino : nat) (f : list Z → list Z) (w : world) mem :
  w_faults w = [] → file_bytes w ino = mem →
  ∃ w', poke_map ino f w = (Some (Ok tt), w') ∧ w_faults w' = [] ∧
        w_names w' = w_names w ∧ file_bytes w' ino = f mem.
Proof.
  intros Hf <-. eexists. split; [done|]. split_and!; [done..|]. apply file_bytes_insert.
Qed.

Lemma create_run path n layout epoch wall sequence w :
  w_faults w = [] → Z.of_nat n ≤ u_max 32 → epoch ≠ 0 →
  ∃ ino w', create path n layout epoch wall sequence w
            = (Some (Ok (Writer ino path n)), w') ∧
    w_faults w' = [] ∧ w_names w' !! path = Some ino ∧
    file_bytes w' ino = init_slots 0 n
      (header_bytes (Header AETHER_SHM_MAGIC SHM_LAYOUT_VERSION (Z.of_nat n) 0 layout
                       (new_generation wall sequence) epoch) ++ replicate (n * SLOT_SIZE) 0).
Proof.
  intros Hnf Hn He. destruct (run_create_file path w Hnf) as (ino & w1 & Hc & Hf1 & Hn1 & Hb1).
  set (h := Header _ _ _ _ _ _ _). set (mem0 := header_bytes h ++ _).
  set (w2 := with_data (<[ino := resize (calculate_file_size n) (file_bytes w1 ino)]>
                          (w_data w1)) w1).
  assert (file_bytes w2 ino = replicate (HEADER_SIZE + n * SLOT_SIZE) 0) as Hb2.
  { subst w2. rewrite file_bytes_insert, Hb1. unfold resize. rewrite take_nil.
    unfold calculate_file_size. cbn [app length]. by rewrite Nat.sub_0_r. }
  destruct (run_poke ino (store 0 (header_bytes h)) w2 _ Hf1 Hb2) as (w3 & Hr3 & Hf3 & Hn3 & Hb3).
  rewrite store_header in Hb3. fold mem0 in Hb3.
  destruct (run_poke ino (init_slots 0 n) w3 _ Hf3 Hb3) as (w4 & Hr4 & Hf4 & Hn4 & Hb4).
  exists ino, w4. split_and!; [|done|by rewrite Hn4, Hn3|done].
  unfold create. run_check. run_check. eapply run_bind; [by apply run_syscall|].
  eapply run_bind; [exact Hc|]. eapply run_bind; [by apply run_syscall|]. fold w2.
  eapply run_bind; [by apply run_syscall|]. cbv zeta. fold h.
  eapply run_bind; [exact Hr3|].
  eapply run_bind; [apply from_mmap_with_file_ok; [done|done|]|].
  { rewrite Hb3. subst mem0. by rewrite length_app, length_header_bytes, length_replicate. }
  eapply run_bind; [exact Hr4|]. by eapply run_bind; [by apply run_syscall|].
Qed.

(** [SlotWriter::create] without I/O faults succeeds for every slot count
    that fits [u32] and every non-zero epoch, replacing whatever the path held;
    the file it leaves is accepted by [SlotReader::open] and by
    [open_existing] with the same manifest, is the authoritative target of the
    path, carries the given identity and a stable generation, and every slot
    reads as unwritten. *)
Theorem create_then_open (path : string) (n : nat) (layout epoch wall sequence : Z) (w : world) :
  w_faults w = [] → Z.of_nat n ≤ u_max 32 → in_u 64 layout → in_u 64 epoch → epoch ≠ 0 →
  ∃ ino w', create path n layout epoch wall sequence w = (Some (Ok (Writer ino path n)), w') ∧
    reader_open path w' = (Some (Ok (Reader ino n)), w') ∧
    open_existing path n layout w' = (Some (Ok (Writer ino path n)), w') ∧
    validate_authoritative_path (Writer ino path n) w' = (Some (Ok tt), w') ∧
    segment n (file_bytes w' ino) ∧
    header_snapshot (file_bytes w' ino) =
      Header AETHER_SHM_MAGIC SHM_LAYOUT_VERSION (Z.of_nat n) 0 layout
             (new_generation wall sequence) epoch ∧
    ∀ i, (i < n)%nat → read_slot (file_bytes w' ino) n i = Some Slot.slot_new.
Proof.
  intros Hnf Hn Hlay Hep Hep0. set (h := Header _ _ _ _ _ _ _).
  assert (generation_unstable (writer_generation h) = false ∧ header_ok h) as [Hgen Hh].
  { destruct (new_generation_range wall sequence) as (? & ? & ?). split; [done|].
    unfold header_ok, in_u in *. cbn [magic version slot_count writer_heartbeat layout_hash
      writer_generation publication_epoch h]. unfold u_max in Hn. split_and!; try lia; done. }
  pose proof (fresh_segment h n Hh) as Hseg.
  set (mem := init_slots 0 n _) in Hseg. destruct Hseg as (Hl & Hok & Hhs & Hrd).
  assert (∃ ino w', create path n layout epoch wall sequence w
            = (Some (Ok (Writer ino path n)), w') ∧ w_faults w' = [] ∧
          w_names w' !! path = Some ino ∧ file_bytes w' ino = mem)
    as (ino & w' & Hrun & Hf' & Hnm & Hfb).
  { by apply create_run. }
  assert (published (file_bytes w' ino) n) as Hpub.
  { rewrite Hfb. unfold published. rewrite Hhs. cbn. split_and!; [done..|lia|done]. }
  exists ino, w'. split_and!; [done|by apply reader_open_ok| | | | |].
  - apply open_existing_ok; [done..| |]; by rewrite Hfb, Hhs.
  - by apply validate_authoritative_path_ok.
  - by rewrite Hfb.
  - by rewrite Hfb.
  - by rewrite Hfb.
Qed.

Lemma create_then_open_witness :
  ∃ ino w', create "live.shm" 3 7 1 99 2 (World ∅ ∅ 0 []) =
              (Some (Ok (Writer ino "live.shm" 3)), w') ∧
            read_slot (file_bytes w' ino) 3 2 = Some Slot.slot_new.
Proof.
  destruct (create_then_open "live.shm" 3 7 1 99 2 (World ∅ ∅ 0 []))
    as (ino & w' & H1 & _ & _ & _ & _ & _ & H2); [done..|].
  exists ino, w'. split; [done|]. apply H2. lia.
Defined.

(** A directory holding a published empty segment and a staged successor. *)
Definition two_generations : world :=
  let seg e := header_bytes (Header AETHER_SHM_MAGIC SHM_LAYOUT_VERSION 0 0 7 (2 * e) e) in
  World {["live.shm" := 0%nat; "live-9.shm" := 1%nat]} {[0%nat := seg 1; 1%nat := seg 2]} 2 [].

Lemma publish_swap_all_or_nothing_witness :
  let wr := Writer 0 "live.shm" 0 in
  match publish_swap "live-9.shm" "live.shm" (Guard "live.shm") (Some wr) two_generations with
  | (Some (Ok _), w') => w_names w' !! "live.shm"%string = Some 1%nat
  | _ => False
  end.
Proof.
  cbv zeta. set (w0 := two_generations).
  pose proof (publish_swap_all_or_nothing "live-9.shm" "live.shm" (Guard "live.shm")
    (Writer 0 "live.shm" 0) (file_bytes w0 0) w0 eq_refl eq_refl eq_refl eq_refl
    (header_bytes_ok _) (le_n 64) eq_refl 1%nat ltac:(done) eq_refl ltac:(done)) as H.
  unfold wp in H.
  assert (is_Some (fst (publish_swap "live-9.shm" "live.shm" (Guard "live.shm")
            (Some (Writer 0 "live.shm" 0)) w0)) ∧
          is_ok (default Panic (fst (publish_swap "live-9.shm" "live.shm" (Guard "live.shm")
            (Some (Writer 0 "live.shm" 0)) w0))) = true) as [Hs Hk]
    by (split; [by vm_compute; eexists|by vm_compute]).
  destruct (publish_swap _ _ _ _ _) as [[[]|] w']; [|done|done|by destruct Hs].
  by destruct H.
Defined.

Lemma open_canonical_for_replacement_restarts_witness :
  open_canonical_for_replacement "live.shm" (Guard "live.shm") two_generations =
  (Some (Ok (Some (Writer 0 "live.shm" 0))), two_generations).
Proof.
  apply (open_canonical_for_replacement_restarts "live.shm" 0 0 two_generations
           eq_refl eq_refl); [by split_and!|done|done].
Defined.

End Shm.
