(* ===== verification/Snapshot.v ===== *)
(** * Persistent snapshots (crates/aether-dataplane/src/core)

    [snapshot_format.rs], [snapshot_save.rs], [snapshot_load.rs], the snapshot
    entry point of [writer.rs] and [restore_exact_snapshot]
    (libs/aether-shm-bridge/src/runtime.rs).  The source mapping may change
    while it is saved: [mem_at i] is what the mapping holds when slot [i] is
    loaded.  [BufWriter] is a buffer that reaches the staging file at [flush];
    dropping it on an error path tries to write what it holds. *)

From stdpp Require Import base tactics numbers list gmap strings.
From S2P Require Import Prelude Slot Fs Shm.
Import Fs Shm.
#[local] Open Scope Z_scope.

Module Snapshot.

(** ** Format (snapshot_format.rs) *)

Definition SNAPSHOT_MAGIC : Z := be_val [0x41; 0x45; 0x54; 0x48; 0x53; 0x4E; 0x41; 0x50].
Definition SNAPSHOT_VERSION : Z := 1.
Definition SNAPSHOT_HEADER_SIZE : nat := 24.
Definition SLOT_ABSENT : Z := 0.
Definition SLOT_PRESENT : Z := 1.
Definition SLOT_PAYLOAD_SIZE : nat := 28.

Record SnapshotHeader := SnapHeader {
  sh_magic : Z; sh_version : Z; sh_slot_count : Z; sh_layout_hash : Z }.

Definition snapshot_header_new (n layout : Z) : SnapshotHeader :=
  SnapHeader SNAPSHOT_MAGIC SNAPSHOT_VERSION n layout.

Definition encode (h : SnapshotHeader) : list Z :=
  be_bytes 8 (sh_magic h) ++ le_bytes 4 (sh_version h) ++
  le_bytes 4 (sh_slot_count h) ++ le_bytes 8 (sh_layout_hash h).

Definition read_array (n off : nat) (bytes : list Z) : res DataplaneError (list Z) :=
  ok_or (get_range off n bytes) InvalidLayout.

Definition decode (bytes : list Z) : res DataplaneError SnapshotHeader :=
  if (length bytes <? SNAPSHOT_HEADER_SIZE)%nat then Err InvalidLayout
  else
    m ← read_array 8 0 bytes;
    v ← read_array 4 8 bytes;
    n ← read_array 4 12 bytes;
    l ← read_array 8 16 bytes;
    let h := SnapHeader (be_val m) (le_val v) (le_val n) (le_val l) in
    if negb (sh_magic h =? SNAPSHOT_MAGIC) then Err InvalidLayout
    else if negb (sh_version h =? SNAPSHOT_VERSION) then Err InvalidLayout
    else Ok h.

(** [f64::is_finite] on the bit pattern: the exponent field is not all ones. *)
Definition is_finite (bits : Z) : bool :=
  negb (Z.land (Z.shiftr bits 52) 0x7FF =? 0x7FF).

(** ** Saving (snapshot_save.rs) *)

Definition present_slot_bytes (d : Slot.slot_data) : list Z :=
  SLOT_PRESENT :: le_bytes 8 (Slot.value_bits d) ++ le_bytes 8 (Slot.raw_bits d) ++
  le_bytes 8 (Slot.timestamp d) ++ le_bytes 4 (Slot.quality_code d).

(** The loop over the slots: bytes buffered so far and the error that stopped it. *)
Fixpoint write_slots (mem_at : nat → list Z) (i k : nat) (out : list Z)
    : list Z * option DataplaneError :=
  match k with
  | O => (out, None)
  | S k =>
      match try_load_consistent (slot_addr i) (mem_at i) with
      | None => write_slots mem_at (S i) k (out ++ [SLOT_ABSENT])
      | Some d =>
          if (Slot.value_bits d =? Slot.SLOT_UNWRITTEN_BITS) &&
             (Slot.raw_bits d =? Slot.SLOT_UNWRITTEN_BITS)
          then write_slots mem_at (S i) k (out ++ [SLOT_ABSENT])
          else if negb (is_finite (Slot.value_bits d)) || negb (is_finite (Slot.raw_bits d))
          then (out, Some InvalidLayout)
          else write_slots mem_at (S i) k (out ++ present_slot_bytes d)
      end
  end.

Definition staging_path (path : string) : string := path +:+ ".tmp".

(** [File::open(parent)] then [sync_all]. *)
Definition sync_parent_directory : shm_io unit := sys_nop Io ≫= fun _ => sys_nop Io.

(** [save_snapshot_impl]; the [StagingCleanup] guard removes the staging file on
    every early return after its creation and before the rename. *)
Definition save_snapshot_impl (mem_at : nat → list Z) (n : nat) (layout : Z) (path : string)
    : shm_io unit :=
  _ ← check (Z.of_nat n <=? u_max 32);
  _ ← check (length (mem_at 0%nat) =? calculate_file_size n)%nat;
  _ ← sys_nop Io;
  ino ← sys_create Io true (staging_path path);
  let header := snapshot_header_new (Z.of_nat n) layout in
  r ← attempt
    match write_slots mem_at 0 n (encode header) with
    | (out, Some e) => _ ← attempt (sys_write Io ino 0 out); fail e
    | (out, None) =>
        _ ← sys_write Io ino 0 out;
        _ ← sys_nop Io;
        sys_rename Io (staging_path path) path
    end;
  match r with
  | Ok _ => sync_parent_directory
  | Err e => _ ← attempt (sys_remove Io (staging_path path)); fail e
  | Panic => _ ← attempt (sys_remove Io (staging_path path)); lift Panic
  end.

(** [SlotWriter::save_snapshot]. *)
Definition save_snapshot (mem_at : nat → list Z) (n : nat) (path : string) : shm_io unit :=
  let h := header_snapshot (mem_at 0%nat) in
  let current := Z.to_nat (slot_count h) in
  _ ← check (current =? n)%nat;
  save_snapshot_impl mem_at current (layout_hash h) path.

(** ** Loading (snapshot_load.rs) *)

Record SnapshotImage := Image { header : SnapshotHeader; slots : list (option Slot.slot_data) }.

Definition decode_present_slot (payload : list Z) : res DataplaneError Slot.slot_data :=
  v ← read_array 8 0 payload;
  r ← read_array 8 8 payload;
  t ← read_array 8 16 payload;
  q ← read_array 4 24 payload;
  if negb (is_finite (le_val v)) || negb (is_finite (le_val r)) then Err InvalidLayout
  else Ok (Slot.SlotData (le_val v) (le_val r) (le_val t) (le_val q)).

Fixpoint load_slots (bytes : list Z) (k cursor : nat)
    : res DataplaneError (list (option Slot.slot_data) * nat) :=
  match k with
  | O => Ok ([], cursor)
  | S k =>
      presence ← ok_or (bytes !! cursor) InvalidLayout;
      let cursor := S cursor in
      if presence =? SLOT_ABSENT then
        '(rest, cursor) ← load_slots bytes k cursor;
        Ok (None :: rest, cursor)
      else if presence =? SLOT_PRESENT then
        payload ← ok_or (get_range cursor SLOT_PAYLOAD_SIZE bytes) InvalidLayout;
        d ← decode_present_slot payload;
        '(rest, cursor) ← load_slots bytes k (cursor + SLOT_PAYLOAD_SIZE)%nat;
        Ok (Some d :: rest, cursor)
      else Err InvalidLayout
  end.

(** [SnapshotImage::load] on the bytes of the file. *)
Definition load_bytes (bytes : list Z) : res DataplaneError SnapshotImage :=
  header ← decode bytes;
  let n := Z.to_nat (sh_slot_count header) in
  if (length bytes <? SNAPSHOT_HEADER_SIZE + n)%nat then Err InvalidLayout
  else
    '(slots, cursor) ← load_slots bytes n SNAPSHOT_HEADER_SIZE;
    if negb (cursor =? length bytes)%nat then Err InvalidLayout
    else Ok (Image header slots).

(** [SnapshotImage::load]. *)
Definition load (path : string) : shm_io SnapshotImage :=
  ino ← sys_open Io path;
  bytes ← sys_read Io ino;
  lift (load_bytes bytes).

(** ** Restoring (shm-bridge runtime.rs) *)

Fixpoint restore_slots (n i : nat) (slots : list (option Slot.slot_data)) (mem : list Z)
    : res DataplaneError (list Z) :=
  match slots with
  | [] => Ok mem
  | None :: slots => restore_slots n (S i) slots mem
  | Some d :: slots => mem ← set_direct n i d mem; restore_slots n (S i) slots mem
  end.

(** [restore_exact_snapshot] into the writer's mapping [mem] of [n] slots, after
    a successful load. *)
Definition restore_exact_snapshot (img : SnapshotImage) (n manifest_n : nat)
    (manifest_layout : Z) (mem : list Z) : res DataplaneError (list Z) :=
  if negb (Z.to_nat (sh_slot_count (header img)) =? manifest_n)%nat
     || negb (sh_layout_hash (header img) =? manifest_layout)
  then Err InvalidLayout
  else restore_slots n 0 (slots img) mem.

(** ** What a snapshot contains *)

Definition unwritten (d : Slot.slot_data) : bool :=
  (Slot.value_bits d =? Slot.SLOT_UNWRITTEN_BITS) && (Slot.raw_bits d =? Slot.SLOT_UNWRITTEN_BITS).

(** A slot in the image: absent when torn or unwritten. *)
Definition capture (o : option Slot.slot_data) : option Slot.slot_data :=
  match o with Some d => if unwritten d then None else Some d | None => None end.

Definition captured (mem_at : nat → list Z) (i k : nat) : list (option Slot.slot_data) :=
  map (fun j => capture (try_load_consistent (slot_addr j) (mem_at j))) (seq i k).

Definition slot_record (o : option Slot.slot_data) : list Z :=
  match o with None => [SLOT_ABSENT] | Some d => present_slot_bytes d end.

(** The file of an image. *)
Definition image_bytes (img : SnapshotImage) : list Z :=
  encode (header img) ++ concat (map slot_record (slots img)).

(** What the format can represent: 64- and 32-bit fields, finite floats. *)
Definition record_ok (o : option Slot.slot_data) : Prop :=
  match o with
  | None => True
  | Some d => data_ok d ∧ is_finite (Slot.value_bits d) = true ∧ is_finite (Slot.raw_bits d) = true
  end.

Lemma try_load_data_ok n i mem d :
  segment n mem → (i < n)%nat → try_load_consistent (slot_addr i) mem = Some d → data_ok d.
Proof.
  intros Hseg Hi. pose proof (slot_addr_bound _ _ _ Hseg Hi) as Ha. destruct Hseg as [_ Hok].
  unfold try_load_consistent. repeat case_if; [done| |done]. intros [= <-].
  unfold data_ok. cbn [Slot.value_bits Slot.raw_bits Slot.timestamp Slot.quality_code].
  split_and!; [apply (load_le_in_u (slot_addr i) 8)|apply (load_le_in_u (slot_addr i + 16) 8)|
    apply (load_le_in_u (slot_addr i + 8) 8)|apply (load_le_in_u (slot_addr i + 28) 4)];
    (done || lia).
Qed.

Lemma write_slots_spec mem_at n k i out out' :
  (∀ j, segment n (mem_at j)) → (i + k ≤ n)%nat →
  write_slots mem_at i k out = (out', None) →
  out' = out ++ concat (map slot_record (captured mem_at i k)) ∧
  Forall record_ok (captured mem_at i k).
Proof.
  intros Hseg. revert i out. induction k as [|k IH]; intros i out Hi; cbn [write_slots].
  { intros [= <-]. by rewrite app_nil_r. }
  unfold captured. cbn [seq map concat]. fold (captured mem_at (S i) k).
  destruct (try_load_consistent _ _) as [d|] eqn:Hd; cbn [capture].
  - fold (unwritten d). destruct (unwritten d) eqn:Hu.
    + intros H. apply IH in H as [-> ?]; [|lia]. rewrite <- app_assoc. by split; [|constructor].
    + case_if; [done|]. intros H. apply IH in H as [-> ?]; [|lia]. bool_to_prop.
      rewrite <- app_assoc. split; [done|]. constructor; [|done]. split_and!; [|done..].
      apply (try_load_data_ok n i (mem_at i)); [done|lia|done].
  - intros H. apply IH in H as [-> ?]; [|lia]. rewrite <- app_assoc. by split; [|constructor].
Qed.

(** ** Decoding what was encoded *)

Definition snap_header_ok (h : SnapshotHeader) : Prop :=
  sh_magic h = SNAPSHOT_MAGIC ∧ sh_version h = SNAPSHOT_VERSION ∧
  in_u 32 (sh_slot_count h) ∧ in_u 64 (sh_layout_hash h).

Lemma length_encode h : length (encode h) = SNAPSHOT_HEADER_SIZE.
Proof. unfold encode. autorewrite with len. done. Qed.

Lemma read_array_Ok n off bytes s :
  read_array n off bytes = Ok s ↔ (off + n ≤ length bytes)%nat ∧ s = slice off n bytes.
Proof. unfold read_array. by rewrite ok_or_Ok, get_range_Some. Qed.

Lemma read_array_in n off bytes :
  (off + n ≤ length bytes)%nat → read_array n off bytes = Ok (slice off n bytes).
Proof. intros. by apply read_array_Ok. Qed.

Lemma decode_encode h rest : snap_header_ok h → decode (encode h ++ rest) = Ok h.
Proof.
  intros (Hm & Hv & Hn & Hl). unfold decode.
  assert (24 ≤ length (encode h ++ rest))%nat as Hlen
    by (rewrite length_app, length_encode; unfold SNAPSHOT_HEADER_SIZE; lia).
  destruct (Nat.ltb_spec (length (encode h ++ rest)) SNAPSHOT_HEADER_SIZE);
    [unfold SNAPSHOT_HEADER_SIZE in *; lia|].
  rewrite !read_array_in by lia. cbn [mbind res_bind].
  destruct h as [m v n l]. cbn in Hm, Hv, Hn, Hl. subst m v.
  change (slice 12 4 _) with (le_bytes 4 n). change (slice 16 8 _) with (le_bytes 8 l).
  rewrite (le_val_le_bytes_small 4 n), (le_val_le_bytes_small 8 l) by done. done.
Qed.

Lemma length_present_slot_bytes d : length (present_slot_bytes d) = S SLOT_PAYLOAD_SIZE.
Proof. unfold present_slot_bytes. cbn [length]. by autorewrite with len. Qed.

Lemma decode_present_slot_bytes d :
  record_ok (Some d) → decode_present_slot (drop 1 (present_slot_bytes d)) = Ok d.
Proof.
  intros ((Hv & Hr & Ht & Hq) & Hfv & Hfr). destruct d as [v r t q].
  cbn [Slot.value_bits Slot.raw_bits Slot.timestamp Slot.quality_code] in *.
  unfold decode_present_slot. rewrite !read_array_in by (cbn; lia). cbn [mbind res_bind].
  change (slice 0 8 _) with (le_bytes 8 v). change (slice 8 8 _) with (le_bytes 8 r).
  change (slice 16 8 _) with (le_bytes 8 t). change (slice 24 4 _) with (le_bytes 4 q).
  rewrite (le_val_le_bytes_small 8 v), (le_val_le_bytes_small 8 r),
    (le_val_le_bytes_small 8 t), (le_val_le_bytes_small 4 q) by done.
  by rewrite Hfv, Hfr.
Qed.

Lemma load_slots_records recs pre rest :
  Forall record_ok recs →
  load_slots (pre ++ concat (map slot_record recs) ++ rest) (length recs) (length pre) =
  Ok (recs, length pre + length (concat (map slot_record recs)))%nat.
Proof.
  intros Hrecs. revert pre. induction Hrecs as [|o recs Ho Hrecs IH]; intros pre.
  { cbn. by rewrite Nat.add_0_r. }
  cbn [length map concat load_slots]. rewrite <- app_assoc.
  destruct o as [d|]; cbn [slot_record].
  - change (present_slot_bytes d) with (SLOT_PRESENT :: drop 1 (present_slot_bytes d)).
    pose proof (decode_present_slot_bytes d Ho) as Hd.
    pose proof (length_drop (present_slot_bytes d) 1) as HP.
    rewrite length_present_slot_bytes in HP. set (P := drop 1 _) in *. clearbody P.
    cbn [app length]. rewrite list_lookup_middle by done. cbn [ok_or mbind res_bind].
    change (SLOT_PRESENT =? SLOT_ABSENT) with false. rewrite Z.eqb_refl. cbv iota.
    replace (pre ++ SLOT_PRESENT :: P ++ concat (map slot_record recs) ++ rest)
      with ((pre ++ [SLOT_PRESENT]) ++ P ++ concat (map slot_record recs) ++ rest)
      by (by rewrite <- app_assoc).
    rewrite (proj2 (get_range_Some _ _ _ P)).
    2:{ rewrite slice_app_mid; [|rewrite length_app; cbn; lia|lia].
        rewrite !length_app; cbn [length]. split; [lia|done]. }
    cbn [ok_or mbind res_bind]. rewrite Hd. cbn [mbind res_bind].
    specialize (IH ((pre ++ [SLOT_PRESENT]) ++ P)). rewrite <- app_assoc in IH.
    rewrite !length_app in IH. cbn [length] in IH. rewrite HP in IH.
    replace (S (length pre) + SLOT_PAYLOAD_SIZE)%nat
      with (length pre + 1 + (S SLOT_PAYLOAD_SIZE - 1))%nat by lia.
    rewrite IH. cbn [mbind res_bind]. rewrite length_app, HP.
    apply (f_equal Ok), pair_equal_spec. split; [done|lia].
  - cbn [app length]. rewrite list_lookup_middle by done. cbn [ok_or mbind res_bind].
    rewrite Z.eqb_refl.
    specialize (IH (pre ++ [SLOT_ABSENT])). rewrite <- app_assoc, length_app in IH.
    cbn [length app] in IH. rewrite Nat.add_1_r in IH. rewrite IH. cbn [mbind res_bind].
    apply (f_equal Ok), pair_equal_spec. split; [done|lia].
Qed.

Lemma length_records recs :
  (length recs ≤ length (concat (map slot_record recs)))%nat.
Proof.
  induction recs as [|o recs IH]; cbn [map concat length]; [lia|]. rewrite length_app.
  enough (1 ≤ length (slot_record o))%nat by lia.
  destruct o as [d|]; cbn [slot_record]; [rewrite length_present_slot_bytes|cbn]; lia.
Qed.

Definition image_ok (img : SnapshotImage) : Prop :=
  snap_header_ok (header img) ∧ Forall record_ok (slots img) ∧
  length (slots img) = Z.to_nat (sh_slot_count (header img)).

Lemma load_image_bytes img : image_ok img → load_bytes (image_bytes img) = Ok img.
Proof.
  intros (Hh & Hs & Hl). destruct img as [h ss]. cbn [header slots] in *.
  unfold load_bytes, image_bytes. cbn [header slots]. rewrite decode_encode by done.
  cbn [mbind res_bind]. rewrite <- Hl, length_app, length_encode.
  pose proof (length_records ss) as Hr.
  destruct (Nat.ltb_spec (SNAPSHOT_HEADER_SIZE + length (concat (map slot_record ss)))
    (SNAPSHOT_HEADER_SIZE + length ss)); [lia|].
  pose proof (load_slots_records ss (encode h) [] Hs) as Hload.
  rewrite app_nil_r, length_encode in Hload. rewrite Hload. cbn [mbind res_bind].
  by rewrite Nat.eqb_refl.
Qed.

(** ** Only encodings are accepted *)

Lemma decode_present_slot_inv payload d :
  bytes_ok payload → length payload = SLOT_PAYLOAD_SIZE → decode_present_slot payload = Ok d →
  record_ok (Some d) ∧ present_slot_bytes d = SLOT_PRESENT :: payload.
Proof.
  intros Hok Hl. unfold decode_present_slot, SLOT_PAYLOAD_SIZE in *.
  rewrite !read_array_in by lia. cbn [mbind res_bind]. case_if; [done|].
  intros [= <-]. bool_to_prop. split.
  - split; [|by split]. unfold data_ok.
    cbn [Slot.value_bits Slot.raw_bits Slot.timestamp Slot.quality_code].
    split_and!;
      [apply (load_le_in_u 0 8)|apply (load_le_in_u 8 8)|
       apply (load_le_in_u 16 8)|apply (load_le_in_u 24 4)]; (done || lia).
  - unfold present_slot_bytes. cbn [Slot.value_bits Slot.raw_bits Slot.timestamp Slot.quality_code].
    rewrite !le_bytes_slice by (done || lia).
    rewrite (slice_cat 16 8 4), (slice_cat 8 8 12), (slice_cat 0 8 20).
    f_equal. change (8 + 20)%nat with 28%nat. rewrite <- Hl. apply slice_full.
Qed.

Lemma load_slots_inv bytes k cursor recs cursor' :
  bytes_ok bytes → load_slots bytes k cursor = Ok (recs, cursor') →
  Forall record_ok recs ∧ length recs = k ∧
  drop cursor bytes = concat (map slot_record recs) ++ drop cursor' bytes.
Proof.
  intros Hok. revert cursor recs. induction k as [|k IH]; intros cursor recs; cbn [load_slots].
  { by intros [= <- <-]. }
  destruct (bytes !! cursor) as [b|] eqn:Hb; cbn [ok_or mbind res_bind]; [|done].
  apply drop_S in Hb.
  destruct (Z.eqb_spec b SLOT_ABSENT) as [->|_].
  - destruct (load_slots bytes k (S cursor)) as [[rest c]| |] eqn:Hr; cbn; [|done..].
    intros [= <- ->]. apply IH in Hr as (H1 & H2 & H3).
    split_and!; [by constructor|cbn; lia|]. cbn. by rewrite Hb, H3.
  - destruct (Z.eqb_spec b SLOT_PRESENT) as [->|_]; [|done].
    destruct (get_range (S cursor) SLOT_PAYLOAD_SIZE bytes) as [pl|] eqn:Hp;
      cbn [ok_or mbind res_bind]; [|done].
    apply get_range_Some in Hp as [Hlen ->].
    destruct (decode_present_slot _) as [d| |] eqn:Hd; cbn [mbind res_bind]; [|done..].
    apply decode_present_slot_inv in Hd as [Hrec Hbytes];
      [|by apply slice_ok|by apply length_slice].
    destruct (load_slots bytes k _) as [[rest c]| |] eqn:Hr; cbn [mbind res_bind]; [|done..].
    intros [= <- ->]. apply IH in Hr as (H1 & H2 & H3).
    split_and!; [by constructor|cbn; lia|]. cbn [map concat slot_record].
    rewrite Hbytes, Hb, <- app_assoc, <- H3. cbn [app]. f_equal. unfold slice.
    rewrite <- drop_drop. by rewrite take_drop.
Qed.

Lemma decode_inv bytes h :
  bytes_ok bytes → decode bytes = Ok h → snap_header_ok h ∧
  (SNAPSHOT_HEADER_SIZE ≤ length bytes)%nat ∧ encode h = take SNAPSHOT_HEADER_SIZE bytes.
Proof.
  intros Hok. unfold decode, SNAPSHOT_HEADER_SIZE.
  destruct (Nat.ltb_spec (length bytes) 24); [done|].
  rewrite !read_array_in by lia. cbn [mbind res_bind]. repeat case_if; [done..|].
  intros [= <-]. bool_to_prop. cbn [sh_magic sh_version sh_slot_count sh_layout_hash] in *.
  split; [|split; [done|]].
  - split_and!; [done|done|apply (load_le_in_u 12 4)|apply (load_le_in_u 16 8)]; (done || lia).
  - unfold encode. cbn [sh_magic sh_version sh_slot_count sh_layout_hash].
    rewrite !le_bytes_slice by (done || lia).
    pose proof (be_bytes_be_val _ (slice_ok 0 8 _ Hok)) as Hbe.
    rewrite length_slice in Hbe by lia. rewrite Hbe.
    by rewrite (slice_cat 12 4 8), (slice_cat 8 4 12), (slice_cat 0 8 16).
Qed.

Lemma load_slots_no_panic bytes k cursor : load_slots bytes k cursor ≠ Panic.
Proof.
  revert cursor. induction k as [|k IH]; intros cursor; [done|]. cbn [load_slots].
  unfold decode_present_slot, read_array. no_panic; apply IH.
Qed.

Lemma load_bytes_no_panic bytes : load_bytes bytes ≠ Panic.
Proof. unfold load_bytes, decode, read_array. no_panic. apply load_slots_no_panic. Qed.

(** [SnapshotImage::load] accepts exactly the files of the format: an image
    whose header, counts and finite values the format can represent loads back
    to itself, and a file that loads is, byte for byte, the encoding of the
    image it loads to (no trailing byte, no second spelling); on every other
    input it returns an error rather than panicking. *)
Theorem load_bytes_exact (bytes : list Z) (img : SnapshotImage) :
  bytes_ok bytes →
  (load_bytes bytes = Ok img ↔ image_ok img ∧ bytes = image_bytes img) ∧
  load_bytes bytes ≠ Panic.
Proof.
  intros Hok. split; [split|].
  - unfold load_bytes. intros H.
    destruct (decode bytes) as [h| |] eqn:Hd; cbn [mbind res_bind] in H; [|done..].
    apply decode_inv in Hd as (Hh & Hlen & Henc); [|done]. case_if; [done|].
    destruct (load_slots _ _ _) as [[ss c]| |] eqn:Hs; cbn [mbind res_bind] in H; [|done..].
    apply load_slots_inv in Hs as (Hrec & Hn & Hcat); [|done]. case_if; [done|].
    injection H as <-. split; [done|]. unfold image_bytes. cbn [header slots].
    apply negb_false_iff, Nat.eqb_eq in Heqb0. subst c.
    rewrite (drop_ge bytes (length bytes)), app_nil_r in Hcat by lia. by rewrite Henc, <- Hcat, take_drop.
  - intros [Hi ->]. by apply load_image_bytes.
  - apply load_bytes_no_panic.
Qed.

(** ** Replacing the snapshot file *)

(** Right after the staging file is opened: the target name is as it was and
    does not denote the staging inode. *)
Definition staged (path : string) (ino : nat) (w w' : world) : Prop :=
  w_names w' !! staging_path path = Some ino ∧ w_names w' !! path ≠ Some ino ∧
  path_bytes w' path = path_bytes w path.

Lemma staging_path_ne path : staging_path path ≠ path.
Proof.
  unfold staging_path. induction path as [|a s IH]; [done|]. intros [= H]. by apply IH.
Qed.

Lemma staged_put path ino w w' off bs fs :
  staged path ino w w' → staged path ino w (put_bytes ino off bs (with_faults fs w')).
Proof.
  intros (H1 & H2 & H3). split_and!; [done..|]. unfold put_bytes.
  by rewrite path_bytes_data.
Qed.

Lemma staged_remove path ino w w' fs :
  staged path ino w w' →
  path_bytes (with_names (delete (staging_path path) (w_names w')) (with_faults fs w')) path =
  path_bytes w path.
Proof.
  intros (_ & _ & <-). unfold path_bytes. cbn.
  by rewrite lookup_delete_ne by apply staging_path_ne.
Qed.

Section Save.
Context (mem_at : nat → list Z) (n : nat) (layout : Z) (path : string) (w : world).
Let img : SnapshotImage :=
  Image (snapshot_header_new (Z.of_nat n) layout) (captured mem_at 0 n).
Definition old_file (w' : world) : Prop := path_bytes w' path = path_bytes w path.
Definition new_file (w' : world) : Prop :=
  ∃ bs, path_bytes w' path = Some bs ∧ load_bytes bs = Ok img.
Hypothesis Hseg : ∀ j, segment n (mem_at j).
Hypothesis Hlay : in_u 64 layout.

Lemma saved_bytes_load out :
  Z.of_nat n ≤ u_max 32 →
  write_slots mem_at 0 n (encode (header img)) = (out, None) → load_bytes out = Ok img.
Proof.
  intros Hn Hw. apply (write_slots_spec mem_at n) in Hw as [-> Hrec]; [|done|lia].
  apply (load_image_bytes img). unfold image_ok, snap_header_ok, img.
  cbn [header slots snapshot_header_new sh_magic sh_version sh_slot_count sh_layout_hash].
  unfold captured. rewrite length_map, length_seq. unfold u_max in Hn.
  split_and!; try done; unfold in_u in *; lia.
Qed.

Lemma wp_remove_staging {A} (m : shm_io A) ino w1 (Q : res DataplaneError A → world → Prop) C :
  staged path ino w w1 → (∀ w', old_file w' → wp m Q C w') → (∀ w', old_file w' → C w') →
  wp (attempt (sys_remove Io (staging_path path)) ≫= fun _ => m) Q C w1.
Proof.
  intros Hst Hm HC. destruct Hst as (H1 & H2 & H3).
  wp_go; [|apply Hm|apply HC]; [|done..]. rewrite H1. apply Hm. by apply (staged_remove path ino).
Qed.

Lemma wp_fill_staging ino w1 :
  Z.of_nat n ≤ u_max 32 → staged path ino w w1 → file_bytes w1 ino = [] →
  wp match write_slots mem_at 0 n (encode (header img)) with
     | (out, Some e) => _ ← attempt (sys_write Io ino 0 out); fail e
     | (out, None) =>
         _ ← sys_write Io ino 0 out; _ ← sys_nop Io; sys_rename Io (staging_path path) path
     end
    (fun r w' => match r with
                 | Ok _ => new_file w'
                 | Err _ => staged path ino w w'
                 | Panic => False
                 end)
    old_file w1.
Proof.
  intros Hn Hst Hnew. destruct (write_slots _ _ _ _) as [out [e|]] eqn:Hw.
  - wp_go; try (by apply staged_put); by apply (staged_put path ino w w1).
  - apply saved_bytes_load in Hw; [|done].
    wp_go; try (by apply staged_put); try (by apply (staged_put path ino w w1)).
    destruct (staged_put path ino w w1 0 out fs Hst) as (Hn1 & _ & _).
    cbn [w_names with_faults put_bytes with_data] in Hn1 |- *. rewrite Hn1.
    exists out. split; [|done]. unfold path_bytes. cbn [w_names with_names].
    rewrite lookup_insert_eq. f_equal. apply file_bytes_eq. cbn.
    rewrite lookup_insert_eq, file_bytes_faults, Hnew. cbn.
    by rewrite drop_nil, app_nil_r.
Qed.

Lemma wp_after_create ino w1 :
  Z.of_nat n ≤ u_max 32 → staged path ino w w1 → file_bytes w1 ino = [] →
  wp (r ← attempt
        match write_slots mem_at 0 n (encode (header img)) with
        | (out, Some e) => _ ← attempt (sys_write Io ino 0 out); fail e
        | (out, None) =>
            _ ← sys_write Io ino 0 out; _ ← sys_nop Io; sys_rename Io (staging_path path) path
        end;
      match r with
      | Ok _ => sync_parent_directory
      | Err e => _ ← attempt (sys_remove Io (staging_path path)); fail e
      | Panic => _ ← attempt (sys_remove Io (staging_path path)); lift Panic
      end)
    (fun r w' => match r with
                 | Ok _ => new_file w'
                 | Err _ => old_file w' ∨ new_file w'
                 | Panic => False
                 end)
    (fun w' => old_file w' ∨ new_file w') w1.
Proof.
  intros Hn Hst Hnew. apply wp_bind, wp_attempt.
  eapply wp_mono; [by apply wp_fill_staging| |by left]. cbv beta.
  intros [[]|e|] w2; cbv beta iota; [|intros H2|done].
  - intros H2. unfold sync_parent_directory. wp_go; by right.
  - apply (wp_remove_staging _ ino); [done|by left|by left].
Qed.

(** Saving a snapshot under every fault schedule, with the mapping changing
    while it is read: at every point, death of the process included, the target
    path holds either its previous contents or a complete file that loads to
    the image of the values captured; a successful save leaves the latter. *)
Theorem save_snapshot_atomic :
  fs_ok w →
  (∀ i, w_names w !! staging_path path = Some i → w_names w !! path ≠ Some i) →
  wp (save_snapshot_impl mem_at n layout path)
    (fun r w' => match r with
                 | Ok _ => new_file w'
                 | Err _ => old_file w' ∨ new_file w'
                 | Panic => False
                 end)
    (fun w' => old_file w' ∨ new_file w') w.
Proof.
  intros Hfs Hdistinct. unfold save_snapshot_impl. wp_go; try (by left).
  assert (Z.of_nat n ≤ u_max 32) as Hn by lia.
  change (w_names (with_faults fs w)) with (w_names w).
  destruct (w_names w !! staging_path path) as [ino|] eqn:Hp.
  - apply (wp_after_create ino); [done| |by apply file_bytes_eq; cbn; rewrite lookup_insert_eq].
    split_and!; [done|by apply Hdistinct|]. apply (path_bytes_data (with_faults fs0 w)).
    by apply Hdistinct.
  - apply (wp_after_create (w_next w)); [done| |by apply file_bytes_eq; cbn; rewrite lookup_insert_eq].
    assert (w_names w !! path ≠ Some (w_next w)) as Hne.
    { intros Hx. apply (proj1 Hfs) in Hx. lia. }
    unfold staged, path_bytes, file_bytes. cbn.
    rewrite lookup_insert_eq, lookup_insert_ne by apply staging_path_ne.
    split_and!; [done|done|]. destruct (w_names w !! path) as [j|]; [|done].
    by rewrite lookup_insert_ne by congruence.
Qed.

End Save.

(** ** Restoring *)

Lemma restore_slots_spec n ss i mem :
  segment n mem → (i + length ss ≤ n)%nat → Forall record_ok ss →
  (∀ j, (i ≤ j < n)%nat → slot_idle j mem) →
  ∃ mem', restore_slots n i ss mem = Ok mem' ∧ segment n mem' ∧
    header_snapshot mem' = header_snapshot mem ∧
    (∀ j, (j < i)%nat → read_slot mem' n j = read_slot mem n j) ∧
    (∀ k o, ss !! k = Some o →
       read_slot mem' n (i + k) = match o with Some d => Some d | None => read_slot mem n (i + k) end).
Proof.
  revert i mem. induction ss as [|o ss IH]; intros i mem Hseg Hl Hrec Hidle.
  { exists mem. by split_and!. }
  cbn [length] in Hl. inversion_clear Hrec as [|? ? Ho Hrec'].
  destruct o as [d|]; cbn [restore_slots].
  - unfold set_direct. destruct (Nat.ltb_spec i n); [|lia]. cbn [mbind res_bind].
    destruct (slot_set_facts n i d mem) as (H1 & H2 & H3 & H4 & H5);
      [done|done|by apply Ho|by apply Hidle; lia|].
    destruct (IH (S i) _ H1) as (mem' & R1 & R2 & R3 & R4 & R5); [lia|done| |].
    { intros j Hj. apply H5, Hidle. lia. }
    exists mem'. split_and!; [done|done|by rewrite R3| |].
    + intros j Hj. rewrite R4, H4 by lia. done.
    + intros [|k] o; cbn [lookup list_lookup].
      * intros [= <-]. by rewrite Nat.add_0_r, R4 by lia.
      * intros Hk. rewrite <- Nat.add_succ_comm, (R5 k o Hk). by rewrite H4 by lia.
  - destruct (IH (S i) mem Hseg) as (mem' & R1 & R2 & R3 & R4 & R5); [lia|done| |].
    { intros j Hj. apply Hidle. lia. }
    exists mem'. split_and!; [done|done|done| |].
    + intros j Hj. by rewrite R4 by lia.
    + intros [|k] o; cbn [lookup list_lookup].
      * intros [= <-]. by rewrite Nat.add_0_r, R4 by lia.
      * intros Hk. by rewrite <- Nat.add_succ_comm, (R5 k o Hk).
Qed.

Definition unwritten_segment (n : nat) (mem : list Z) : Prop :=
  segment n mem ∧ ∀ i, (i < n)%nat → slot_idle i mem ∧ read_slot mem n i = Some Slot.slot_new.

(** C31. Save, load, restore: the bytes a save produced load, the loaded image
    is accepted by a manifest of the same slot count and layout, and restoring
    it into a fresh segment succeeds without panicking; afterwards every slot
    reads the value captured for it, and reads as unwritten when it was torn or
    unwritten.  The header of the fresh segment is untouched. *)
Theorem snapshot_restore_roundtrip (mem_at : nat → list Z) (n : nat) (layout : Z)
    (out mem : list Z) :
  (∀ j, segment n (mem_at j)) → Z.of_nat n ≤ u_max 32 → in_u 64 layout →
  unwritten_segment n mem →
  write_slots mem_at 0 n (encode (snapshot_header_new (Z.of_nat n) layout)) = (out, None) →
  ∃ img mem', load_bytes out = Ok img ∧
    restore_exact_snapshot img n n layout mem = Ok mem' ∧
    segment n mem' ∧ header_snapshot mem' = header_snapshot mem ∧
    ∀ i, (i < n)%nat →
      read_slot mem' n i =
      Some (default Slot.slot_new (capture (try_load_consistent (slot_addr i) (mem_at i)))).
Proof.
  intros Hseg Hn Hlay [Hmem Hfresh] Hw.
  pose proof (saved_bytes_load mem_at n layout Hseg Hlay out Hn Hw) as Hload.
  apply (write_slots_spec mem_at n) in Hw as [_ Hrec]; [|done|lia].
  assert (length (captured mem_at 0 n) = n) as Hl
    by (unfold captured; by rewrite length_map, length_seq).
  destruct (restore_slots_spec n (captured mem_at 0 n) 0 mem) as (mem' & R1 & R2 & R3 & _ & R5);
    [done|lia|done|intros j Hj; apply Hfresh; lia|].
  eexists _, mem'. split; [exact Hload|].
  unfold restore_exact_snapshot. cbn [header slots snapshot_header_new sh_slot_count sh_layout_hash].
  rewrite Nat2Z.id, Nat.eqb_refl, Z.eqb_refl. cbn [negb orb]. split_and!; [done..|].
  intros i Hi. specialize (R5 i (capture (try_load_consistent (slot_addr i) (mem_at i)))).
  rewrite Nat.add_0_l in R5. rewrite R5.
  - destruct (capture _) as [d|]; [done|]. by apply Hfresh.
  - unfold captured. rewrite list_lookup_fmap, lookup_seq_lt by done. done.
Qed.

(** ** Concrete instances *)

(** One slot holding 23.0, and a fresh segment of the same size. *)
Definition sample_mem : list Z :=
  slot_set (slot_addr 0)
    (Slot.SlotData 0x4037000000000000 0x4037000000000000 1000 0) (replicate 96 0).
Definition blank_mem : list Z := init_slots 0 1 (replicate 96 0).
Definition sample_file : list Z :=
  fst (write_slots (fun _ => sample_mem) 0 1 (encode (snapshot_header_new 1 7))).

Lemma sample_segment : segment 1 sample_mem.
Proof. split; [by vm_compute|]. apply slot_set_ok. by apply Forall_replicate. Qed.

Lemma load_bytes_exact_witness :
  load_bytes (image_bytes (Image (snapshot_header_new 2 7) [None; None])) =
    Ok (Image (snapshot_header_new 2 7) [None; None]).
Proof.
  apply load_bytes_exact; [|split; [|done]].
  - unfold image_bytes. apply bytes_ok_app. split; [|by repeat constructor].
    apply bytes_ok_app. split; [apply be_bytes_ok|].
    repeat (apply bytes_ok_app; split; [apply le_bytes_ok|]). apply le_bytes_ok.
  - split; [by split_and!|]. split; [by repeat constructor|done].
Defined.

Lemma save_snapshot_atomic_witness :
  wp (save_snapshot_impl (fun _ => sample_mem) 1 7 "points.snap")
    (fun r w' => match r with
       | Ok _ => new_file (fun _ => sample_mem) 1 7 "points.snap" w'
       | Err _ => old_file "points.snap" (World ∅ ∅ 0 []) w' ∨
                  new_file (fun _ => sample_mem) 1 7 "points.snap" w'
       | Panic => False
       end)
    (fun w' => old_file "points.snap" (World ∅ ∅ 0 []) w' ∨
               new_file (fun _ => sample_mem) 1 7 "points.snap" w') (World ∅ ∅ 0 []).
Proof.
  apply save_snapshot_atomic; [intros _; apply sample_segment|done|by split|done].
Defined.

Lemma snapshot_restore_roundtrip_witness :
  ∃ img mem', load_bytes sample_file = Ok img ∧
    restore_exact_snapshot img 1 1 7 blank_mem = Ok mem' ∧
    read_slot mem' 1 0 = Some (Slot.SlotData 0x4037000000000000 0x4037000000000000 1000 0).
Proof.
  destruct (snapshot_restore_roundtrip (fun _ => sample_mem) 1 7 sample_file blank_mem)
    as (img & mem' & H1 & H2 & _ & _ & H3).
  - intros _. apply sample_segment.
  - done.
  - done.
  - split; [split; [by vm_compute|]|].
    + apply (init_slots_spec 1 0); [by vm_compute; lia|by apply Forall_replicate].
    + intros i Hi. assert (i = 0)%nat as -> by lia. by vm_compute.
  - by vm_compute.
  - exists img, mem'. split_and!; [done..|]. rewrite H3 by lia. by vm_compute.
Defined.

End Snapshot.
