(* ===== verification/Bitmap.v ===== *)
(** * The subscription bitmap (crates/aether-dataplane/src/watch_bitmap.rs)

    A consumer declares the slots it watches in a file-backed bit set shared
    with the writer: a 32-byte versioned header, then 64-bit words.  Creation is
    staged and renamed under the authority lease of the path, whose sidecar lock
    file is not a modelled name. *)

From stdpp Require Import base tactics numbers list gmap strings.
From S2P Require Import Prelude Fs Shm.
Import Fs Shm.
#[local] Open Scope Z_scope.

Module Bitmap.

Definition WATCH_BITMAP_MAGIC : list Z := [0x41; 0x45; 0x54; 0x48; 0x50; 0x57; 0x42; 0x4D].
Definition WATCH_BITMAP_VERSION : Z := 1.
Definition WATCH_BITMAP_HEADER_SIZE : nat := 32.

Record BitmapLayout := Layout { bl_capacity : nat; bl_word_count : nat; bl_file_size : nat }.

(** [BitmapLayout::new]; the [usize] products cannot overflow below [u32::MAX]. *)
Definition layout_new (capacity : nat) : res DataplaneError BitmapLayout :=
  if (capacity =? 0)%nat then Err InvalidLayout
  else if u_max 32 <? Z.of_nat capacity then Err InvalidLayout
  else
    let word_count := ((capacity + 63) / 64)%nat in
    Ok (Layout capacity word_count (WATCH_BITMAP_HEADER_SIZE + word_count * 8)).

Definition encode_header (l : BitmapLayout) : list Z :=
  WATCH_BITMAP_MAGIC ++ le_bytes 4 WATCH_BITMAP_VERSION ++
  le_bytes 4 (Z.of_nat (bl_capacity l)) ++ le_bytes 4 (Z.of_nat (bl_word_count l)) ++
  replicate 12 0.

(** [BitmapLayout::decode_header] on a 32-byte array. *)
Definition decode_header (bytes : list Z) : res DataplaneError BitmapLayout :=
  if negb (bool_decide (slice 0 8 bytes = WATCH_BITMAP_MAGIC)) then Err InvalidLayout
  else if negb (load_le 8 4 bytes =? WATCH_BITMAP_VERSION) then Err InvalidLayout
  else if existsb (fun b => negb (b =? 0)) (drop 20 bytes) then Err InvalidLayout
  else
    let capacity := Z.to_nat (load_le 12 4 bytes) in
    let word_count := Z.to_nat (load_le 16 4 bytes) in
    layout ← layout_new capacity;
    if negb (bl_word_count layout =? word_count)%nat then Err InvalidLayout
    else Ok layout.

Record SubscriptionBitmap := BitmapMap { bm_ino : nat; bm_capacity : nat; bm_word_count : nat }.

(** ** Bits *)

Definition word_addr (i : nat) : nat := (WATCH_BITMAP_HEADER_SIZE + i * 8)%nat.

(** [self.words().get(i)]. *)
Definition get_word (word_count i : nat) : option nat :=
  if (i <? word_count)%nat then Some (word_addr i) else None.

Definition is_watched (b : SubscriptionBitmap) (slot : nat) (mem : list Z) : bool :=
  if (bm_capacity b <=? slot)%nat then false
  else
    let word_index := (slot / 64)%nat in
    let bit_index := Z.of_nat (slot mod 64)%nat in
    match get_word (bm_word_count b) word_index with
    | None => false
    | Some a => negb (Z.land (load_le a 8 mem) (Z.shiftl 1 bit_index) =? 0)
    end.

Definition set_watched (b : SubscriptionBitmap) (slot : nat) (mem : list Z)
    : res DataplaneError (list Z) :=
  if (bm_capacity b <=? slot)%nat then Err InvalidLayout
  else
    let word_index := (slot / 64)%nat in
    let bit_index := Z.of_nat (slot mod 64)%nat in
    match get_word (bm_word_count b) word_index with
    | None => Err InvalidLayout
    | Some a => Ok (store_le a 8 (Z.lor (load_le a 8 mem) (Z.shiftl 1 bit_index)) mem)
    end.

(** [fetch_and(!(1 << bit))]: clears one bit. *)
Definition clear_watched (b : SubscriptionBitmap) (slot : nat) (mem : list Z)
    : res DataplaneError (list Z) :=
  if (bm_capacity b <=? slot)%nat then Err InvalidLayout
  else
    let word_index := (slot / 64)%nat in
    let bit_index := Z.of_nat (slot mod 64)%nat in
    match get_word (bm_word_count b) word_index with
    | None => Err InvalidLayout
    | Some a =>
        Ok (store_le a 8 (Z.land (load_le a 8 mem)
              (wrap 64 (Z.lnot (Z.shiftl 1 bit_index)))) mem)
    end.

Fixpoint clear_words (i k : nat) (mem : list Z) : list Z :=
  match k with
  | O => mem
  | S k => clear_words (S i) k (store_le (word_addr i) 8 0 mem)
  end.
Definition clear_all (b : SubscriptionBitmap) (mem : list Z) : list Z :=
  clear_words 0 (bm_word_count b) mem.

(** [u64::count_ones]. *)
Definition count_ones (x : Z) : nat :=
  length (List.filter (fun j => Z.testbit x (Z.of_nat j)) (seq 0 64)).

Definition subscription_count (b : SubscriptionBitmap) (mem : list Z) : nat :=
  sum_list_with (fun i => count_ones (load_le (word_addr i) 8 mem)) (seq 0 (bm_word_count b)).

(** ** Files *)

(** [open_unlocked]. *)
Definition open_unlocked (path : string) (expected_capacity : nat) : shm_io SubscriptionBitmap :=
  ino ← sys_open Io path;
  bytes ← sys_read Io ino;
  let file_len := length bytes in
  _ ← check (WATCH_BITMAP_HEADER_SIZE <=? file_len)%nat;
  bytes ← sys_read Io ino;
  layout ← lift (decode_header (take WATCH_BITMAP_HEADER_SIZE bytes));
  _ ← check (bl_capacity layout =? expected_capacity)%nat;
  _ ← check (file_len =? bl_file_size layout)%nat;
  _ ← sys_nop Io;
  mret (BitmapMap ino expected_capacity (bl_word_count layout)).

(** [sync_parent_directory]. *)
Definition sync_parent : shm_io unit := sys_nop Io ≫= fun _ => sys_nop Io.

(** [open_or_create]; [staging] is the unique name of [bitmap_staging_path], and
    [BitmapStagingCleanup] unlinks it unless the rename went through. *)
Definition open_or_create (path staging : string) (capacity : nat) : shm_io SubscriptionBitmap :=
  layout ← lift (layout_new capacity);
  _ ← sys_nop Io;
  r ← attempt (open_unlocked path capacity);
  match r with
  | Ok bitmap => mret bitmap
  | Panic => lift Panic
  | Err (Io NotFound) | Err InvalidLayout =>
      _ ← sys_nop Io;
      published ← attempt (
        ino ← sys_create_new Io staging;
        _ ← sys_set_len Io ino (bl_file_size layout);
        _ ← sys_write Io ino 0 (encode_header layout);
        _ ← sys_nop Io;
        _ ← sys_nop Io;
        sys_rename Io staging path);
      match published with
      | Ok _ => _ ← sync_parent; open_unlocked path capacity
      | Err e => _ ← attempt (sys_remove Io staging); fail e
      | Panic => _ ← attempt (sys_remove Io staging); lift Panic
      end
  | Err e => fail e
  end.

(** [new_in_memory]: the bytes of the anonymous mapping. *)
Definition new_in_memory (capacity : nat) : res DataplaneError (list Z * nat) :=
  layout ← layout_new capacity;
  Ok (store 0 (encode_header layout) (replicate (bl_file_size layout) 0), bl_word_count layout).

(** ** The abstract set *)

(** A validated mapping of the bitmap. *)
Definition mapped (b : SubscriptionBitmap) (mem : list Z) : Prop :=
  bm_word_count b = ((bm_capacity b + 63) / 64)%nat ∧
  length mem = (WATCH_BITMAP_HEADER_SIZE + bm_word_count b * 8)%nat ∧ bytes_ok mem.

Definition bit (mem : list Z) (t : nat) : bool :=
  Z.testbit (load_le (word_addr (t / 64)) 8 mem) (Z.of_nat (t mod 64)).

(** The bits of the last word beyond the capacity are zero. *)
Definition padding_clear (b : SubscriptionBitmap) (mem : list Z) : Prop :=
  ∀ t, (bm_capacity b ≤ t < bm_word_count b * 64)%nat → bit mem t = false.

(** The set of slots the bitmap stands for. *)
Definition watched (b : SubscriptionBitmap) (mem : list Z) : gset nat :=
  list_to_set (List.filter (fun t => is_watched b t mem) (seq 0 (bm_capacity b))).

Lemma land_bit_test x k : 0 ≤ k → negb (Z.land x (Z.shiftl 1 k) =? 0) = Z.testbit x k.
Proof.
  intros Hk. rewrite Z.shiftl_1_l.
  destruct (Z.testbit x k) eqn:Hb.
  - apply negb_true_iff, Z.eqb_neq. intros H.
    assert (Z.testbit (Z.land x (2 ^ k)) k = true) as Ht
      by (by rewrite Z.land_spec, Hb, Z.pow2_bits_true).
    by rewrite H, Z.bits_0 in Ht.
  - apply negb_false_iff, Z.eqb_eq, Z.bits_inj'. intros j Hj.
    rewrite Z.bits_0, Z.land_spec, Z.pow2_bits_eqb by done.
    destruct (Z.eqb_spec k j) as [<-|]; [by rewrite Hb|by rewrite andb_false_r].
Qed.

Lemma slot_word b t :
  bm_word_count b = ((bm_capacity b + 63) / 64)%nat → (t < bm_capacity b)%nat →
  (t / 64 < bm_word_count b)%nat.
Proof.
  intros -> Ht. apply Nat.Div0.div_lt_upper_bound.
  pose proof (Nat.div_mod_eq (bm_capacity b + 63) 64).
  pose proof (Nat.mod_upper_bound (bm_capacity b + 63) 64 ltac:(done)). lia.
Qed.

Lemma word_addr_bound b mem i :
  mapped b mem → (i < bm_word_count b)%nat → (word_addr i + 8 ≤ length mem)%nat.
Proof. intros (_ & -> & _) ?. unfold word_addr. lia. Qed.

Lemma is_watched_bit b t mem :
  mapped b mem → is_watched b t mem = (t <? bm_capacity b)%nat && bit mem t.
Proof.
  intros (Hw & _ & _). unfold is_watched, get_word. rewrite Nat.leb_antisym.
  destruct (Nat.ltb_spec t (bm_capacity b)) as [Ht|]; cbn [negb andb]; [|done].
  pose proof (slot_word b t Hw Ht) as Hi. apply Nat.ltb_lt in Hi as ->.
  apply land_bit_test. lia.
Qed.

(** A word update changes the bits of that word only. *)
Lemma bit_store b mem i x t :
  mapped b mem → (i < bm_word_count b)%nat → in_u 64 x →
  bit (store_le (word_addr i) 8 x mem) t =
  if (t / 64 =? i)%nat then Z.testbit x (Z.of_nat (t mod 64)) else bit mem t.
Proof.
  intros Hm Hi Hx. pose proof (word_addr_bound b mem i Hm Hi). unfold bit.
  destruct (Nat.eqb_spec (t / 64) i) as [<-|Hne].
  - by rewrite load_store_le_same.
  - rewrite load_store_le_disjoint; [done|done|]. unfold word_addr. lia.
Qed.

Lemma mapped_store b mem i x :
  mapped b mem → (i < bm_word_count b)%nat → mapped b (store_le (word_addr i) 8 x mem).
Proof.
  intros Hm Hi. pose proof (word_addr_bound b mem i Hm Hi). destruct Hm as (H1 & H2 & H3).
  split_and!; [done| |by apply store_le_ok]. by rewrite length_store_le.
Qed.

Lemma word_in_u b mem i :
  mapped b mem → (i < bm_word_count b)%nat → in_u 64 (load_le (word_addr i) 8 mem).
Proof.
  intros Hm Hi. apply (load_le_in_u (word_addr i) 8); [apply Hm|by apply (word_addr_bound b)].
Qed.

Lemma slot_eq_split s t :
  (t =? s)%nat = (t / 64 =? s / 64)%nat && (t mod 64 =? s mod 64)%nat.
Proof.
  destruct (Nat.eqb_spec t s) as [->|Hne]; [by rewrite !Nat.eqb_refl|].
  destruct (Nat.eqb_spec (t / 64) (s / 64)) as [Hd|]; cbn [andb]; [|done].
  symmetry. apply Nat.eqb_neq. intros Hm. apply Hne.
  pose proof (Nat.div_mod_eq t 64). pose proof (Nat.div_mod_eq s 64). lia.
Qed.

Lemma set_watched_bits b s mem :
  mapped b mem → (s < bm_capacity b)%nat →
  ∃ mem', set_watched b s mem = Ok mem' ∧ mapped b mem' ∧
    ∀ t, bit mem' t = (t =? s)%nat || bit mem t.
Proof.
  intros Hm Hs. pose proof (slot_word b s (proj1 Hm) Hs) as Hi.
  unfold set_watched, get_word. rewrite Nat.leb_antisym.
  pose proof Hs as ->%Nat.ltb_lt. pose proof Hi as ->%Nat.ltb_lt. cbn [negb].
  eexists. split; [done|]. split; [by apply mapped_store|]. intros t.
  pose proof (word_in_u b mem _ Hm Hi) as Hx.
  pose proof (Nat.mod_upper_bound s 64 ltac:(done)) as Hsm.
  rewrite (bit_store b); [|done|done|].
  - rewrite (slot_eq_split s t). destruct (Nat.eqb_spec (t / 64) (s / 64)) as [Hd|]; [|done].
    cbn [andb]. unfold bit. rewrite Hd, Z.lor_spec, Z.shiftl_1_l, Z.pow2_bits_eqb by lia.
    rewrite orb_comm. f_equal.
    destruct (Nat.eqb_spec (t mod 64) (s mod 64)); [by apply Z.eqb_eq; lia|apply Z.eqb_neq; lia].
  - apply in_u_bits; [done| |].
    + apply Z.lor_nonneg. split; [unfold in_u in Hx; lia|]. apply Z.shiftl_nonneg. lia.
    + intros j Hj. rewrite Z.lor_spec, (in_u_high 64) by done.
      rewrite Z.shiftl_1_l, Z.pow2_bits_false by lia. done.
Qed.

Lemma clear_watched_bits b s mem :
  mapped b mem → (s < bm_capacity b)%nat →
  ∃ mem', clear_watched b s mem = Ok mem' ∧ mapped b mem' ∧
    ∀ t, bit mem' t = negb (t =? s)%nat && bit mem t.
Proof.
  intros Hm Hs. pose proof (slot_word b s (proj1 Hm) Hs) as Hi.
  unfold clear_watched, get_word. rewrite Nat.leb_antisym.
  pose proof Hs as ->%Nat.ltb_lt. pose proof Hi as ->%Nat.ltb_lt. cbn [negb].
  eexists. split; [done|]. split; [by apply mapped_store|]. intros t.
  pose proof (word_in_u b mem _ Hm Hi) as Hx.
  pose proof (Nat.mod_upper_bound s 64 ltac:(done)) as Hsm.
  pose proof (Nat.mod_upper_bound t 64 ltac:(done)) as Htm.
  rewrite (bit_store b); [|done|done|].
  - rewrite (slot_eq_split s t). destruct (Nat.eqb_spec (t / 64) (s / 64)) as [Hd|]; [|done].
    cbn [andb]. unfold bit, wrap.
    rewrite Hd, Z.land_spec, Z.mod_pow2_bits_low, Z.lnot_spec by lia.
    rewrite Z.shiftl_1_l, Z.pow2_bits_eqb by lia. rewrite andb_comm. f_equal. f_equal.
    destruct (Nat.eqb_spec (t mod 64) (s mod 64)); [by apply Z.eqb_eq; lia|apply Z.eqb_neq; lia].
  - apply in_u_bits; [done| |].
    + apply Z.land_nonneg. left. unfold in_u in Hx. lia.
    + intros j Hj. by rewrite Z.land_spec, (in_u_high 64) by done.
Qed.

Lemma clear_words_bits b k i mem :
  mapped b mem → (i + k ≤ bm_word_count b)%nat →
  mapped b (clear_words i k mem) ∧
  ∀ t, bit (clear_words i k mem) t =
       if ((i <=? t / 64) && (t / 64 <? i + k))%nat then false else bit mem t.
Proof.
  revert i mem. induction k as [|k IH]; intros i mem Hm Hk; cbn [clear_words].
  { split; [done|]. intros t. destruct (Nat.leb_spec i (t / 64)), (Nat.ltb_spec (t / 64) (i + 0)); 
    cbn; (done || lia). }
  destruct (IH (S i) (store_le (word_addr i) 8 0 mem)) as [H1 H2];
    [by apply mapped_store; [|lia]|lia|].
  split; [done|]. intros t. rewrite H2, (bit_store b) by (done || lia).
  destruct (Nat.leb_spec (S i) (t / 64)), (Nat.leb_spec i (t / 64)),
    (Nat.ltb_spec (t / 64) (S i + k)), (Nat.ltb_spec (t / 64) (i + S k)),
    (Nat.eqb_spec (t / 64) i); cbn [andb]; rewrite ?Z.bits_0; (done || lia).
Qed.

Lemma elem_of_watched b mem t : t ∈ watched b mem ↔ is_watched b t mem = true.
Proof.
  unfold watched. rewrite elem_of_list_to_set, list_elem_of_In, filter_In, in_seq. split.
  - by intros [_ ?].
  - intros H. split; [|done]. unfold is_watched in H.
    destruct (Nat.leb_spec (bm_capacity b) t); [done|lia].
Qed.

Lemma filter_ext_in_length {A} (f g : A → bool) l :
  (∀ x, In x l → f x = g x) → length (List.filter f l) = length (List.filter g l).
Proof. intros H. by rewrite (filter_ext_in _ _ _ H). Qed.

Lemma length_filter_seq_shift (f : nat → bool) a k :
  length (List.filter f (seq a k)) = length (List.filter (fun j => f (a + j)%nat) (seq 0 k)).
Proof.
  revert a. induction k as [|k IH]; intros a; [done|].
  rewrite !seq_S, !List.filter_app, !length_app, IH. cbn [List.filter].
  rewrite Nat.add_0_l. by destruct (f (a + k)%nat).
Qed.

(** Counting word by word counts the bits of all words. *)
Lemma words_count mem k :
  sum_list_with (fun i => count_ones (load_le (word_addr i) 8 mem)) (seq 0 k) =
  length (List.filter (bit mem) (seq 0 (k * 64))).
Proof.
  induction k as [|k IH]; [done|].
  rewrite seq_S, sum_list_with_app, IH, Nat.mul_succ_l, seq_app, List.filter_app, length_app.
  cbn [sum_list_with]. rewrite Nat.add_0_r, !Nat.add_0_l. f_equal.
  rewrite length_filter_seq_shift. unfold count_ones. apply filter_ext_in_length.
  intros j Hj%in_seq. unfold bit.
  assert ((k * 64 + j) / 64 = k ∧ (k * 64 + j) mod 64 = j)%nat as [-> ->]; [|done].
  rewrite Nat.div_add_l, (Nat.div_small j), Nat.add_0_r by lia. split; [done|].
  rewrite Nat.add_comm, Nat.Div0.mod_add. apply Nat.mod_small. lia.
Qed.

Lemma subscription_count_size b mem :
  mapped b mem → padding_clear b mem → subscription_count b mem = size (watched b mem).
Proof.
  intros Hm Hpad. unfold subscription_count, watched. rewrite words_count.
  rewrite size_list_to_set by (apply NoDup_ListNoDup, List.NoDup_filter, seq_NoDup).
  assert (bm_capacity b ≤ bm_word_count b * 64)%nat as Hc.
  { destruct Hm as [-> _]. pose proof (Nat.div_mod_eq (bm_capacity b + 63) 64).
    pose proof (Nat.mod_upper_bound (bm_capacity b + 63) 64 ltac:(done)). lia. }
  replace (bm_word_count b * 64)%nat
    with (bm_capacity b + (bm_word_count b * 64 - bm_capacity b))%nat by lia.
  rewrite seq_app, List.filter_app, length_app, Nat.add_0_l.
  rewrite (filter_ext_in_length (bit mem) (fun _ => false) (seq (bm_capacity b) _)).
  - rewrite filter_false. cbn [length]. rewrite Nat.add_0_r. apply filter_ext_in_length.
    intros t Ht%in_seq. rewrite is_watched_bit by done.
    by destruct (Nat.ltb_spec t (bm_capacity b)); [|lia].
  - intros t Ht%in_seq. apply Hpad. lia.
Qed.

(** What the words promise about the set they store. *)
Definition represents (b : SubscriptionBitmap) (mem : list Z) (S : gset nat) : Prop :=
  mapped b mem ∧ padding_clear b mem ∧ watched b mem = S.

Lemma represents_intro b mem (S : gset nat) :
  mapped b mem → (∀ t, (t < bm_word_count b * 64)%nat → bit mem t = bool_decide (t ∈ S)) →
  (∀ t, t ∈ S → (t < bm_capacity b)%nat) → represents b mem S.
Proof.
  intros Hm Hb HS. split_and!; [done| |].
  - intros t Ht. rewrite Hb by lia. apply bool_decide_eq_false. intros Hin%HS. lia.
  - apply set_eq. intros t. rewrite elem_of_watched, is_watched_bit by done.
    destruct (Nat.ltb_spec t (bm_capacity b)) as [Ht|Ht]; cbn [andb].
    + pose proof (slot_word b t (proj1 Hm) Ht). pose proof (Nat.div_mod_eq t 64).
      pose proof (Nat.mod_upper_bound t 64 ltac:(done)). rewrite Hb by lia.
      apply bool_decide_eq_true.
    + split; [done|]. intros Hin%HS. lia.
Qed.

Lemma represents_bit b mem S t :
  represents b mem S → (t < bm_word_count b * 64)%nat → bit mem t = bool_decide (t ∈ S).
Proof.
  intros (Hm & Hpad & <-) Ht. apply eq_bool_prop_intro. rewrite bool_decide_spec.
  rewrite elem_of_watched, is_watched_bit by done.
  destruct (Nat.ltb_spec t (bm_capacity b)) as [Hc|Hc]; cbn [andb].
  - apply Is_true_true.
  - by rewrite Hpad.
Qed.

Lemma represents_below b mem S t : represents b mem S → t ∈ S → (t < bm_capacity b)%nat.
Proof.
  intros (_ & _ & <-). rewrite elem_of_watched. unfold is_watched.
  destruct (Nat.leb_spec (bm_capacity b) t); [done|lia].
Qed.

(** The bitmap implements a finite set of slots below its capacity.  For a
    mapping that represents [S]: membership is [is_watched];
    [subscription_count] is the cardinality; [set_watched] inserts,
    [clear_watched] removes and [clear_all] empties, each leaving a mapping
    that represents the resulting set; a slot at or beyond the capacity is
    never watched and is refused by both updates. *)
Theorem bitmap_refines_set (b : SubscriptionBitmap) (mem : list Z) (S : gset nat) (s : nat) :
  represents b mem S →
  (is_watched b s mem = true ↔ s ∈ S) ∧
  subscription_count b mem = size S ∧
  represents b (clear_all b mem) ∅ ∧
  if (s <? bm_capacity b)%nat
  then (∃ mem', set_watched b s mem = Ok mem' ∧ represents b mem' ({[s]} ∪ S)) ∧
       (∃ mem', clear_watched b s mem = Ok mem' ∧ represents b mem' (S ∖ {[s]}))
  else ~ (s ∈ S) ∧ set_watched b s mem = Err InvalidLayout ∧
       clear_watched b s mem = Err InvalidLayout.
Proof.
  intros Hrep. pose proof Hrep as (Hm & Hpad & HS). split_and!.
  - by rewrite <- HS, elem_of_watched.
  - rewrite <- HS. by apply subscription_count_size.
  - destruct (clear_words_bits b (bm_word_count b) 0 mem Hm) as [Hm' Hb]; [lia|].
    apply represents_intro; [done| |set_solver]. intros t Ht. unfold clear_all. rewrite Hb.
    assert (t / 64 < bm_word_count b)%nat as Hlt by (apply Nat.Div0.div_lt_upper_bound; lia).
    by destruct (Nat.ltb_spec (t / 64) (0 + bm_word_count b)); [|lia].
  - destruct (Nat.ltb_spec s (bm_capacity b)) as [Hs|Hs].
    + destruct (set_watched_bits b s mem Hm Hs) as (m1 & R1 & M1 & B1).
      destruct (clear_watched_bits b s mem Hm Hs) as (m2 & R2 & M2 & B2).
      split; [exists m1|exists m2]; (split; [done|]); apply represents_intro; try done.
      * intros t Ht. rewrite B1, (represents_bit b mem S t) by done.
        destruct (Nat.eqb_spec t s) as [->|]; cbn [orb]; [by rewrite bool_decide_true by set_solver|].
        apply bool_decide_ext. set_solver.
      * intros t [->%elem_of_singleton|Hin]%elem_of_union; [done|by eapply represents_below].
      * intros t Ht. rewrite B2, (represents_bit b mem S t) by done.
        destruct (Nat.eqb_spec t s) as [->|]; cbn [negb andb]; [by rewrite bool_decide_false by set_solver|].
        apply bool_decide_ext. set_solver.
      * intros t [Hin _]%elem_of_difference. by eapply represents_below.
    + split; [intros Hin; apply (represents_below b mem S) in Hin; [lia|done]|].
      unfold set_watched, clear_watched. by destruct (Nat.leb_spec (bm_capacity b) s); [|lia].
Qed.

(** ** Header and files *)

Lemma layout_new_Ok cap l :
  layout_new cap = Ok l ↔ (0 < cap)%nat ∧ Z.of_nat cap ≤ u_max 32 ∧
    l = Layout cap ((cap + 63) / 64) (WATCH_BITMAP_HEADER_SIZE + (cap + 63) / 64 * 8).
Proof.
  unfold layout_new. destruct (Nat.eqb_spec cap 0); [split; [done|lia]|].
  destruct (Z.ltb_spec (u_max 32) (Z.of_nat cap)); [split; [done|lia]|].
  split; [intros [= <-]; split_and!; [lia..|done]|by intros (_ & _ & ->)].
Qed.

Lemma layout_new_bounds cap l :
  layout_new cap = Ok l → bl_capacity l = cap ∧ in_u 32 (Z.of_nat cap) ∧
    in_u 32 (Z.of_nat (bl_word_count l)).
Proof.
  intros (Hc & Hm & ->)%layout_new_Ok. cbn [bl_capacity bl_word_count]. unfold in_u, u_max in *.
  assert ((cap + 63) / 64 ≤ cap)%nat.
  { apply Nat.lt_succ_r, Nat.Div0.div_lt_upper_bound. lia. }
  split_and!; lia.
Qed.

Lemma length_encode_header l : length (encode_header l) = WATCH_BITMAP_HEADER_SIZE.
Proof. done. Qed.

Lemma encode_header_ok l : bytes_ok (encode_header l).
Proof.
  unfold encode_header. apply bytes_ok_app. split; [by repeat constructor|].
  repeat (apply bytes_ok_app; split; [apply le_bytes_ok|]). by apply Forall_replicate.
Qed.

Lemma decode_encode_header cap l :
  layout_new cap = Ok l → decode_header (encode_header l) = Ok l.
Proof.
  intros Hl. destruct (layout_new_bounds cap l Hl) as (Hc & Hcap & Hwc). unfold decode_header.
  rewrite bool_decide_true by done. cbn [negb].
  change (load_le 8 4 _) with WATCH_BITMAP_VERSION. rewrite Z.eqb_refl. cbn [negb].
  change (existsb _ _) with false. cbv iota.
  change (load_le 12 4 _) with (le_val (le_bytes 4 (Z.of_nat (bl_capacity l)))).
  change (load_le 16 4 _) with (le_val (le_bytes 4 (Z.of_nat (bl_word_count l)))).
  rewrite Hc, !(le_val_le_bytes_small 4), !Nat2Z.id by done. rewrite Hl. cbn [mbind res_bind].
  by rewrite Nat.eqb_refl.
Qed.

Lemma existsb_zero l : existsb (fun b => negb (b =? 0)) l = false → l = replicate (length l) 0.
Proof.
  induction l as [|b l IH]; cbn; [done|]. intros [Hb Hl]%orb_false_elim.
  apply negb_false_iff, Z.eqb_eq in Hb as ->. f_equal. by apply IH.
Qed.

(** The bitmap header is validated exactly: [decode_header] accepts a
    32-byte array iff it is the encoding of the layout of some capacity between
    1 and [u32::MAX], with the matching word count and zero reserved bytes. *)
Theorem decode_header_exact (bytes : list Z) (l : BitmapLayout) :
  bytes_ok bytes → length bytes = WATCH_BITMAP_HEADER_SIZE →
  decode_header bytes = Ok l ↔ layout_new (bl_capacity l) = Ok l ∧ bytes = encode_header l.
Proof.
  intros Hok Hlen. split; [|by intros [Hl ->]; eapply decode_encode_header].
  unfold decode_header. case_if; [done|]. apply negb_false_iff, bool_decide_eq_true in Heqb.
  case_if; [done|]. case_if; [done|]. bool_to_prop. apply existsb_zero in Heqb1.
  intros H. apply res_bind_Ok in H as (l' & Hl & H). case_if; [done|]. injection H as <-.
  apply negb_false_iff, Nat.eqb_eq in Heqb2.
  destruct (layout_new_bounds _ _ Hl) as (Hc & _ & _). rewrite Hc. split; [done|].
  unfold WATCH_BITMAP_HEADER_SIZE in Hlen. unfold encode_header.
  rewrite Hc, Heqb2, !Z2Nat.id by (apply (load_le_in_u _ 4); [done|lia]).
  rewrite <- Heqb, <- Heqb0. unfold load_le.
  rewrite !(le_bytes_slice 4) by (done || lia).
  rewrite length_drop, Hlen in Heqb1. change (32 - 20)%nat with 12%nat in Heqb1.
  rewrite <- Heqb1.
  replace (drop 20 bytes) with (slice 20 12 bytes)
    by (unfold slice; apply take_ge; rewrite length_drop; lia).
  rewrite (slice_cat 16 4 12), (slice_cat 12 4 16),
    (slice_cat 8 4 20), (slice_cat 0 8 24).
  rewrite <- (slice_full bytes) at 1. by rewrite Hlen.
Qed.

(** A file [open_unlocked] accepts for this capacity. *)
Definition valid_file (cap : nat) (bs : list Z) : Prop :=
  (WATCH_BITMAP_HEADER_SIZE ≤ length bs)%nat ∧
  ∃ l, decode_header (take WATCH_BITMAP_HEADER_SIZE bs) = Ok l ∧
       bl_capacity l = cap ∧ length bs = bl_file_size l.

Lemma decode_header_layout bytes l :
  decode_header bytes = Ok l → layout_new (bl_capacity l) = Ok l.
Proof.
  unfold decode_header. repeat (case_if; [done|]). intros H.
  apply res_bind_Ok in H as (l' & Hl & H). case_if; [done|]. injection H as <-.
  by destruct (layout_new_bounds _ _ Hl) as (-> & _ & _).
Qed.

Lemma decode_header_no_panic bytes : decode_header bytes ≠ Panic.
Proof. unfold decode_header, layout_new. no_panic. Qed.

Lemma wp_open_unlocked path cap w :
  wp (open_unlocked path cap)
    (fun r w' => same_files w w' ∧
       match r with
       | Ok b => w_names w !! path = Some (bm_ino b) ∧
                 bm_capacity b = cap ∧ bm_word_count b = ((cap + 63) / 64)%nat ∧
                 valid_file cap (file_bytes w (bm_ino b))
       | Err InvalidLayout | Err (Io NotFound) =>
           ∀ bs, path_bytes w path = Some bs → ~ valid_file cap bs
       | Err _ => True
       | Panic => False
       end)
    (fun w' => same_files w w') w.
Proof.
  unfold open_unlocked, path_bytes. wp_go.
  destruct (w_names w !! path) as [ino|] eqn:Hp; cbv beta iota; [|by split_and!].
  wp_go; rewrite ?file_bytes_faults in *.
  2:{ split_and!; [done..|]. intros bs [= <-] [Hl _]. apply Nat.leb_gt in H. lia. }
  apply Nat.leb_le in H.
  destruct (decode_header _) as [l|e|] eqn:Hd; cbv beta iota.
  3: by apply decode_header_no_panic in Hd.
  2:{ split_and!; [done..|]. assert (e = InvalidLayout) as ->.
      { revert Hd. unfold decode_header, layout_new. repeat case_if; cbn; try congruence.
        all: case_if; congruence. }
      intros bs [= <-] (_ & l & Hl & _). congruence. }
  pose proof (decode_header_layout _ _ Hd) as Hl.
  apply layout_new_Ok in Hl as (Hc & Hm & Hl).
  wp_go; rewrite ?file_bytes_faults in *; (split; [done|]).
  - apply Nat.eqb_eq in H0, H1. cbn [bm_ino bm_capacity bm_word_count]. subst cap.
    split_and!; [done|done|by rewrite Hl|]. by split; [|exists l].
  - intros bs [= <-] (_ & l' & Hl' & _ & Hlen). apply Nat.eqb_neq in H1. congruence.
  - intros bs [= <-] (_ & l' & Hl' & Hcap & _). apply Nat.eqb_neq in H0. congruence.
Qed.

Definition fresh_bytes (l : BitmapLayout) : list Z :=
  encode_header l ++ replicate (bl_word_count l * 8) 0.

Section OpenOrCreate.
Context (path staging : string) (cap : nat) (w : world).
Hypothesis Hfs : fs_ok w.
Hypothesis Hstaging : w_names w !! staging = None.
Hypothesis Hne : staging ≠ path.

(** No inode that existed (and may be mapped) changes, and the path denotes the
    bytes it did, or, if they were no valid bitmap, a fresh empty one. *)
Definition kept (w' : world) : Prop :=
  ∀ i, (i < w_next w)%nat → file_bytes w' i = file_bytes w i.
Definition old_or_fresh (w' : world) : Prop :=
  kept w' ∧
  (w_names w' !! path = w_names w !! path ∨
   (∀ bs, path_bytes w path = Some bs → ~ valid_file cap bs) ∧
   ∃ l, layout_new cap = Ok l ∧ path_bytes w' path = Some (fresh_bytes l)).

Definition mid_creation (ino : nat) (w' : world) : Prop :=
  (w_next w ≤ ino)%nat ∧ w_names w' !! staging = Some ino ∧
  w_names w' !! path = w_names w !! path ∧ kept w'.

Lemma mid_creation_data ino w1 l fs :
  mid_creation ino w1 →
  mid_creation ino (with_data (<[ino := l]> (w_data w1)) (with_faults fs w1)).
Proof.
  intros (H1 & H2 & H3 & H4). split_and!; [done..|]. intros i Hi. rewrite <- H4 by done.
  apply (file_bytes_insert_ne (with_faults fs w1)). lia.
Qed.

Lemma mid_creation_faults ino w1 fs : mid_creation ino w1 → mid_creation ino (with_faults fs w1).
Proof. done. Qed.

Lemma mid_creation_put ino w1 off bs :
  mid_creation ino w1 → mid_creation ino (put_bytes ino off bs w1).
Proof. intros. by apply (mid_creation_data ino w1 _ (w_faults w1)). Qed.

Ltac mid :=
  repeat first [ assumption | apply mid_creation_faults | apply mid_creation_put
               | apply mid_creation_data ].

Lemma mid_creation_err ino w1 :
  mid_creation ino w1 → old_or_fresh w1 ∧ w_names w1 !! path = w_names w !! path.
Proof. intros (_ & _ & H3 & H4). split; [split; [done|by left]|done]. Qed.

Lemma mid_creation_old ino w1 : mid_creation ino w1 → old_or_fresh w1.
Proof. intros (_ & _ & H3 & H4). split; [done|by left]. Qed.

Lemma kept_old w1 : same_files w w1 → old_or_fresh w1.
Proof.
  intros (H1 & H2 & _). split; [|left; by rewrite H1].
  intros i _. unfold file_bytes. by rewrite H2.
Qed.

Lemma resize_fresh l :
  bl_file_size l = (WATCH_BITMAP_HEADER_SIZE + bl_word_count l * 8)%nat →
  write_bytes 0 (encode_header l) (resize (bl_file_size l) []) = fresh_bytes l.
Proof.
  intros ->. unfold resize, write_bytes, fresh_bytes. rewrite take_nil, take_0. cbn [app].
  rewrite drop_replicate. rewrite Nat.sub_0_r, length_encode_header. do 2 f_equal. lia.
Qed.

Lemma fresh_valid l : layout_new cap = Ok l → valid_file cap (fresh_bytes l).
Proof.
  intros Hl. pose proof (layout_new_bounds cap l Hl) as (Hc & _ & _).
  unfold valid_file, fresh_bytes. rewrite length_app, length_encode_header, length_replicate.
  split; [lia|]. exists l. rewrite take_app_le by (rewrite length_encode_header; lia).
  rewrite take_ge by (by rewrite length_encode_header).
  split_and!; [by eapply decode_encode_header|done|].
  by apply layout_new_Ok in Hl as (_ & _ & ->).
Qed.

Lemma wp_create_staged l w1 :
  layout_new cap = Ok l → w_names w1 = w_names w → w_data w1 = w_data w → w_next w1 = w_next w →
  (∀ bs, path_bytes w path = Some bs → ~ valid_file cap bs) →
  wp (ino ← sys_create_new Io staging;
      _ ← sys_set_len Io ino (bl_file_size l);
      _ ← sys_write Io ino 0 (encode_header l);
      _ ← sys_nop Io;
      _ ← sys_nop Io;
      sys_rename Io staging path)
    (fun r w' => match r with
       | Ok _ => kept w' ∧ path_bytes w' path = Some (fresh_bytes l)
       | Err _ => old_or_fresh w' ∧ w_names w' !! path = w_names w !! path
       | Panic => False
       end)
    old_or_fresh w1.
Proof.
  intros Hl Hn1 Hd1 Hx1 Hinv.
  assert (∀ fs, old_or_fresh (with_faults fs w1)) as H0 by (intros; by apply kept_old).
  wp_go; [|by split; [apply H0|cbn; rewrite Hn1]].
  rewrite Hn1, Hstaging, Hx1.
  assert (mid_creation (w_next w) (fresh_file staging (with_faults fs w1))) as H1.
  { unfold mid_creation, fresh_file, kept, file_bytes. cbn. rewrite Hn1, Hd1, Hx1.
    rewrite lookup_insert_eq, lookup_insert_ne by done. split_and!; [lia|done|done|].
    intros i Hi. by rewrite lookup_insert_ne by lia. }
  assert (file_bytes (fresh_file staging (with_faults fs w1)) (w_next w) = []) as Hb
    by (apply file_bytes_eq; cbn; by rewrite Hx1, lookup_insert_eq).
  set (w2 := fresh_file _ _) in *. clearbody w2.
  wp_go;
    try (apply (mid_creation_err (w_next w)); mid); try (apply (mid_creation_old (w_next w)); mid).
  set (w3 := with_faults fs3 _).
  assert (mid_creation (w_next w) w3) as (H5 & H6 & H7 & H8) by (subst w3; mid).
  rewrite H6. split; [done|]. unfold path_bytes. cbn [w_names with_names].
  rewrite lookup_insert_eq. f_equal. subst w3. apply file_bytes_eq. cbn.
  rewrite lookup_insert_eq, file_bytes_faults. erewrite file_bytes_eq
    by (cbn; apply lookup_insert_eq).
  rewrite Hb. apply (f_equal Some), resize_fresh. by apply layout_new_Ok in Hl as (_ & _ & ->).
Qed.

(** The missing-or-invalid branch of [open_or_create]. *)
Lemma wp_repair l w1 :
  layout_new cap = Ok l → same_files w w1 →
  (∀ bs, path_bytes w path = Some bs → ~ valid_file cap bs) →
  wp (_ ← sys_nop Io;
      published ← attempt (
        ino ← sys_create_new Io staging;
        _ ← sys_set_len Io ino (bl_file_size l);
        _ ← sys_write Io ino 0 (encode_header l);
        _ ← sys_nop Io;
        _ ← sys_nop Io;
        sys_rename Io staging path);
      match published with
      | Ok _ => _ ← sync_parent; open_unlocked path cap
      | Err e => _ ← attempt (sys_remove Io staging); fail e
      | Panic => _ ← attempt (sys_remove Io staging); lift Panic
      end)
    (fun r w' => old_or_fresh w' ∧
       match r with
       | Ok b => w_names w' !! path = Some (bm_ino b) ∧ bm_capacity b = cap ∧
                 bm_word_count b = ((cap + 63) / 64)%nat ∧
                 valid_file cap (file_bytes w' (bm_ino b))
       | Err _ => True
       | Panic => False
       end)
    old_or_fresh w1.
Proof.
  intros Hl (Hn1 & Hd1 & Hx1) Hinv. apply wp_bind, wp_sys_nop; intros fs;
    [intros _|intros _; split; [by apply kept_old|done]|by apply kept_old].
  apply wp_bind, wp_attempt.
  eapply wp_mono; [by apply (wp_create_staged l)| |done].
  intros [[]|e|] w2; cbv beta iota; [intros [Hk Hp]|intros [Ho Hp]|done].
  - assert (∀ w3, same_files w2 w3 → old_or_fresh w3) as Hfresh.
    { intros w3 (Hn3 & Hd3 & _). split; [|right; split; [done|]].
      - intros i Hi. rewrite <- Hk by done. unfold file_bytes. by rewrite Hd3.
      - exists l. split; [done|]. rewrite <- Hp. unfold path_bytes, file_bytes. by rewrite Hn3, Hd3. }
    unfold sync_parent. wp_go; try (split; [by apply Hfresh|done]); try (by apply Hfresh).
    eapply wp_mono; [apply wp_open_unlocked| |intros w3 Hw; by apply Hfresh].
    intros r w3 [Hsf Hr]. split; [by apply Hfresh|].
    destruct r as [b|e|]; [|done|done]. destruct Hsf as (Hn3 & Hd3 & _).
    destruct Hr as (H1 & H2 & H3 & H4). split_and!; [by rewrite Hn3|done|done|].
    unfold file_bytes. rewrite Hd3. exact H4.
  - assert (∀ names fs, names !! path = w_names w2 !! path →
              old_or_fresh (with_names names (with_faults fs w2))) as Hrm.
    { intros names fs' Hnm. destruct Ho as [Hk _]. split; [exact Hk|left]. cbn. by rewrite Hnm. }
    wp_go; try (split; [exact Ho|done]); try exact Ho.
    destruct (w_names w2 !! staging); cbv beta iota; (split; [|done]); [|exact Ho].
    apply Hrm. by rewrite lookup_delete_ne.
Qed.

(** [open_or_create] under every fault schedule never disturbs a bitmap
    already in use: no existing file's bytes change (so live mappings keep
    their subscriptions), and the path keeps its file unless it was missing or
    invalid, in which case it may become a fresh, empty, valid bitmap of the
    requested capacity, never a partial one.  A successful call returns a
    mapping of a valid file at the path with the right word count. *)
Theorem open_or_create_safe :
  wp (open_or_create path staging cap)
    (fun r w' => old_or_fresh w' ∧
       match r with
       | Ok b => w_names w' !! path = Some (bm_ino b) ∧ bm_capacity b = cap ∧
                 bm_word_count b = ((cap + 63) / 64)%nat ∧
                 valid_file cap (file_bytes w' (bm_ino b))
       | Err _ => True
       | Panic => False
       end)
    old_or_fresh w.
Proof.
  unfold open_or_create. apply wp_bind, wp_lift.
  destruct (layout_new cap) as [l|e|] eqn:Hl; cbv beta iota.
  3:{ revert Hl. unfold layout_new. repeat case_if; done. }
  2:{ split; [by apply kept_old|done]. }
  wp_go; try (split; [by apply kept_old|done]); try (by apply kept_old).
  eapply wp_mono; [apply wp_open_unlocked| |intros w' Hw; by apply kept_old].
  intros r w1 [Hsf Hr]. cbv beta iota.
  assert (same_files w w1) as Hsame by done. pose proof Hsf as (Hn1 & Hd1 & Hx1).
  destruct r as [b|[| |[| |]]|]; try done; try (split; [by apply kept_old|done]).
  - split; [by apply kept_old|]. destruct Hr as (H1 & H2 & H3 & H4).
    split_and!; [by rewrite Hn1|done|done|]. unfold file_bytes. rewrite Hd1. exact H4.
  - by apply (wp_repair l).
  - by apply (wp_repair l).
Qed.

End OpenOrCreate.

(** ** Concrete instances *)

Definition sample_layout : BitmapLayout := Layout 70 2 48.
Definition sample_bitmap : SubscriptionBitmap := BitmapMap 0 70 2.

Lemma sample_represents : represents sample_bitmap (fresh_bytes sample_layout) ∅.
Proof.
  apply represents_intro; [|intros t Ht; rewrite bool_decide_false by set_solver|set_solver].
  - split_and!; [done..|]. apply bytes_ok_app. split; [apply encode_header_ok|].
    by apply Forall_replicate.
  - unfold bit, fresh_bytes. cbn in Ht.
    rewrite load_le_zeros; [by apply Z.bits_0|rewrite length_encode_header; unfold word_addr; lia|].
    rewrite length_encode_header. unfold word_addr. cbn [bl_word_count sample_layout].
    assert (t / 64 < 2)%nat by (apply Nat.Div0.div_lt_upper_bound; lia). lia.
Qed.

Lemma bitmap_refines_set_witness :
  ∃ mem, set_watched sample_bitmap 65 (fresh_bytes sample_layout) = Ok mem ∧
         represents sample_bitmap mem {[65%nat]} ∧ is_watched sample_bitmap 65 mem = true.
Proof.
  destruct (bitmap_refines_set _ _ _ 65 sample_represents) as (_ & _ & _ & (mem & H1 & H2) & _).
  rewrite union_empty_r_L in H2. exists mem. split_and!; [done|done|].
  apply (bitmap_refines_set _ _ _ 65 H2). set_solver.
Defined.

Lemma decode_header_exact_witness : decode_header (encode_header sample_layout) = Ok sample_layout.
Proof. apply decode_header_exact; [apply encode_header_ok|done|by split]. Defined.

Lemma open_or_create_safe_witness :
  wp (open_or_create "watch" "watch.init.1" 70)
    (fun r w' => old_or_fresh "watch" 70 (World ∅ ∅ 0 []) w' ∧
       match r with
       | Ok b => w_names w' !! "watch"%string = Some (bm_ino b) ∧ bm_capacity b = 70%nat ∧
                 bm_word_count b = 2%nat ∧ valid_file 70 (file_bytes w' (bm_ino b))
       | Err _ => True
       | Panic => False
       end)
    (old_or_fresh "watch" 70 (World ∅ ∅ 0 [])) (World ∅ ∅ 0 []).
Proof. apply (open_or_create_safe "watch" "watch.init.1" 70); [done|done]. Defined.

End Bitmap.
