(* ===== verification/Dl645.v ===== *)
(** * DL/T 645-2007 meter frames (libs/aether-core/src/codec/dl645.rs)

    Addresses and identifiers are byte lists in display order, fixed-size arrays
    are lists of that length.  Slice indexing and the unchecked [u32] arithmetic
    of [bcd_to_u32] yield [Panic] where Rust panics (overflow checks on). *)

From stdpp Require Import base tactics numbers list.
From S2P Require Import Prelude.
#[local] Open Scope Z_scope.

Module Dl645.

Definition FRAME_START : Z := 0x68.
Definition FRAME_END : Z := 0x16.
Definition CTRL_READ_DATA : Z := 0x11.
Definition CTRL_READ_DATA_RESP : Z := 0x91.
Definition CTRL_READ_DATA_ERR : Z := 0xD1.
Definition DATA_OFFSET : Z := 0x33.
Definition MAX_FRAME_SIZE : nat := 256.

Inductive Dl645Error :=
| NoData | DateError | NoPermission | FrameError | ChecksumError
| InvalidLength | InvalidMarkers | AddressError | OtherError.

Record Dl645Frame := Frame {
  meter_addr : list Z;
  data_id : list Z;
  data : list Z;
  data_len : nat }.

(** ** Hexadecimal text *)

Definition hex_char_to_nibble (c : Z) : option Z :=
  if (48 <=? c) && (c <=? 57) then Some (c - 48)
  else if (65 <=? c) && (c <=? 70) then Some (c - 65 + 10)
  else if (97 <=? c) && (c <=? 102) then Some (c - 97 + 10)
  else None.

Definition nibble_to_hex_char (n : Z) : Z :=
  if Z.land n 0x0F <=? 9 then 48 + n else 65 + (n - 10).

(** The pair loop shared by [MeterAddress::parse] and
    [DataIdentifier::from_hex_str]. *)
Fixpoint parse_hex_pairs (e : Dl645Error) (bytes : list Z) : res Dl645Error (list Z) :=
  match bytes with
  | c1 :: c2 :: bytes =>
      high ← ok_or (hex_char_to_nibble c1) e;
      low ← ok_or (hex_char_to_nibble c2) e;
      rest ← parse_hex_pairs e bytes;
      Ok (Z.lor (Z.shiftl high 4) low :: rest)
  | _ => Ok []
  end.

(** [MeterAddress::parse]. *)
Definition address_parse (s : list Z) : res Dl645Error (list Z) :=
  if negb (length s =? 12)%nat then Err AddressError else parse_hex_pairs AddressError s.

(** [DataIdentifier::from_hex_str]. *)
Definition from_hex_str (s : list Z) : res Dl645Error (list Z) :=
  if negb (length s =? 8)%nat then Err FrameError else parse_hex_pairs FrameError s.

(** [DataIdentifier::to_hex_string]; the [Display] of both types. *)
Fixpoint to_hex_string (bytes : list Z) : list Z :=
  match bytes with
  | [] => []
  | b :: bytes =>
      nibble_to_hex_char (Z.shiftr b 4) :: nibble_to_hex_char (Z.land b 0x0F) ::
      to_hex_string bytes
  end.

(** [DataIdentifier::from_u32]. *)
Definition from_u32 (value : Z) : list Z := be_bytes 4 value.

(** Byte order on the wire. *)
Definition from_wire_bytes (wire : list Z) : res Dl645Error (list Z) :=
  if (length wire <? 6)%nat then Err AddressError else Ok (rev (take 6 wire)).
Definition to_wire_bytes (bytes : list Z) : list Z := rev bytes.

(** ** Frames *)

(** [encode_data] and [decode_data]: a 64-byte array, input past 64 ignored. *)
Definition encode_data (l : list Z) : list Z :=
  let k := take 64 (map (fun b => wrapping_add 8 b DATA_OFFSET) l) in
  k ++ replicate (64 - length k) 0.
Definition decode_data (l : list Z) : list Z :=
  let k := take 64 (map (fun b => wrapping_sub 8 b DATA_OFFSET) l) in
  k ++ replicate (64 - length k) 0.

Definition calculate_checksum (frame : list Z) : Z :=
  let sum := fold_left (fun s b => wrapping_add 16 s b) frame 0 in
  Z.land sum 0xFF.

(** [encode_read_request]: the 256-byte buffer and the frame length. *)
Definition encode_read_request (addr di : list Z) : list Z * nat :=
  let frame := [FRAME_START] ++ to_wire_bytes addr ++ [FRAME_START; CTRL_READ_DATA; 4] ++
               map (fun b => wrapping_add 8 b DATA_OFFSET) (to_wire_bytes di) in
  let frame := frame ++ [calculate_checksum frame] ++ [FRAME_END] in
  (frame ++ replicate (MAX_FRAME_SIZE - length frame) 0, length frame).

(** [&l[a..a + n]]: panics out of range. *)
Definition slice_or_panic (a n : nat) (l : list Z) : res Dl645Error (list Z) :=
  if (a + n <=? length l)%nat then Ok (slice a n l) else Panic.

Definition decode_response (frame : list Z) : res Dl645Error Dl645Frame :=
  if (length frame <? 14)%nat then Err InvalidLength
  else if negb (nth 0 frame 0 =? FRAME_START) || negb (nth 7 frame 0 =? FRAME_START)
  then Err InvalidMarkers
  else
    let frame_end_idx := (length frame - 1)%nat in
    if negb (nth frame_end_idx frame 0 =? FRAME_END) then Err InvalidMarkers
    else
      let cs_idx := (frame_end_idx - 1)%nat in
      let expected_cs := calculate_checksum (take cs_idx frame) in
      if negb (nth cs_idx frame 0 =? expected_cs) then Err ChecksumError
      else
        addr ← from_wire_bytes (slice 1 6 frame);
        let ctrl := nth 8 frame 0 in
        let len := Z.to_nat (nth 9 frame 0) in
        if negb (length frame =? 10 + len + 2)%nat then Err InvalidLength
        else if ctrl =? CTRL_READ_DATA_ERR then
          if (0 <? len)%nat then
            let error_code := wrapping_sub 8 (nth 10 frame 0) DATA_OFFSET in
            Err (if error_code =? 0x01 then NoData
                 else if error_code =? 0x02 then DateError
                 else if error_code =? 0x04 then NoPermission
                 else if error_code =? 0x08 then FrameError
                 else OtherError)
          else Err OtherError
        else if negb (ctrl =? CTRL_READ_DATA_RESP) then Err FrameError
        else
          encoded ← slice_or_panic 10 len frame;
          let decoded := decode_data encoded in
          if (len <? 4)%nat then Err InvalidLength
          else
            let di := rev (take 4 decoded) in
            let actual := (len - 4)%nat in
            payload ← slice_or_panic 4 actual decoded;
            if (64 <? actual)%nat then Panic
            else Ok (Frame addr di (payload ++ replicate (64 - actual) 0) actual).

(** ** BCD *)

Definition u32_checked (x : Z) : res Dl645Error Z := if x <? 2 ^ 32 then Ok x else Panic.

Fixpoint bcd_loop (bytes : list Z) (value multiplier : Z) : res Dl645Error Z :=
  match bytes with
  | [] => Ok value
  | byte :: bytes =>
      let low := Z.land byte 0x0F in
      let high := Z.land (Z.shiftr byte 4) 0x0F in
      t ← u32_checked (low * multiplier);
      value ← u32_checked (value + t);
      multiplier ← u32_checked (multiplier * 10);
      t ← u32_checked (high * multiplier);
      value ← u32_checked (value + t);
      multiplier ← u32_checked (multiplier * 10);
      bcd_loop bytes value multiplier
  end.
Definition bcd_to_u32 (bytes : list Z) : res Dl645Error Z := bcd_loop bytes 0 1.

(** ** The frame format *)

Definition add33 (b : Z) : Z := wrapping_add 8 b DATA_OFFSET.
Definition sub33 (b : Z) : Z := wrapping_sub 8 b DATA_OFFSET.

(** [68 | address | 68 | ctrl | len | data + 33h], then checksum and [16]. *)
Definition frame_body (ctrl : Z) (addr payload : list Z) : list Z :=
  [FRAME_START] ++ rev addr ++ [FRAME_START; ctrl; Z.of_nat (length payload)] ++ map add33 payload.
Definition frame_bytes (ctrl : Z) (addr payload : list Z) : list Z :=
  let body := frame_body ctrl addr payload in
  body ++ [fold_right Z.add 0 body mod 256; FRAME_END].

Definition sum (l : list Z) : Z := fold_right Z.add 0 l.

Lemma sum_app l k : sum (l ++ k) = sum l + sum k.
Proof. induction l as [|b l IH]; cbn [sum fold_right app] in *; [done|]. unfold sum in *. lia. Qed.

(** The wrapping 16-bit accumulator does not lose the low byte. *)
Lemma checksum_sum l : calculate_checksum l = sum l mod 256.
Proof.
  unfold calculate_checksum. change 0xFF with (Z.ones 8). rewrite Z.land_ones by done.
  enough (∀ s, fold_left (fun s b => wrapping_add 16 s b) l s mod 2 ^ 8 = (s + sum l) mod 2 ^ 8)
    as H by (by rewrite H).
  induction l as [|b l IH]; intros s; cbn [fold_left sum fold_right].
  - f_equal. lia.
  - rewrite IH. fold (sum l). unfold wrapping_add, wrap.
    rewrite <- (Zplus_mod_idemp_l ((s + b) mod 2 ^ 16)).
    rewrite Z.mod_mod_divide by (done || by exists (2 ^ 8)).
    rewrite Zplus_mod_idemp_l. f_equal. lia.
Qed.

Lemma add_sub_33 b : in_u 8 b → sub33 (add33 b) = b.
Proof. apply wrapping_add_sub. done. Qed.

Lemma sub_add_33 b : in_u 8 b → add33 (sub33 b) = b.
Proof.
  intros Hb. unfold add33, sub33, wrapping_add, wrapping_sub, wrap.
  rewrite Zplus_mod_idemp_l. replace (b - DATA_OFFSET + DATA_OFFSET) with b by lia.
  by apply Z.mod_small.
Qed.

Lemma map_sub_add l : bytes_ok l → map sub33 (map add33 l) = l.
Proof.
  intros H. rewrite List.map_map. induction H as [|b l Hb _ IH]; cbn [map]; [done|].
  by rewrite add_sub_33, IH.
Qed.

Lemma map_add_sub l : bytes_ok l → map add33 (map sub33 l) = l.
Proof.
  intros H. rewrite List.map_map. induction H as [|b l Hb _ IH]; cbn [map]; [done|].
  by rewrite sub_add_33, IH.
Qed.

Lemma map_sub_ok l : bytes_ok (map sub33 l).
Proof. induction l; constructor; [by apply wrap_in_u|done]. Qed.

(** A frame of at least 12 bytes, cut into its fields. *)
Definition shaped (f0 : Z) (a : list Z) (f7 c len : Z) (enc : list Z) (cs e : Z) : list Z :=
  (f0 :: a ++ f7 :: c :: len :: enc) ++ [cs; e].

Lemma frame_shape frame :
  (14 ≤ length frame)%nat → ∃ f0 a f7 c len enc cs e,
    length a = 6%nat ∧ frame = shaped f0 a f7 c len enc cs e.
Proof.
  intros Hl. do 10 (destruct frame as [|? frame]; [cbn in Hl; lia|]). cbn [length] in Hl.
  destruct (exists_last (l:=frame)) as (r & e & ->); [by intros ->; cbn in Hl; lia|].
  rewrite length_app in Hl. cbn in Hl.
  destruct (exists_last (l:=r)) as (enc & cs & ->); [by intros ->; cbn in Hl; lia|].
  eexists _, [_; _; _; _; _; _], _, _, _, enc, cs, e. split; [done|].
  unfold shaped. cbn [app]. by rewrite <- app_assoc.
Qed.

(** The data area after the marker offset is removed. *)
Lemma length_decode_data l : length (decode_data l) = 64%nat.
Proof.
  unfold decode_data. rewrite length_app, length_replicate, length_take. lia.
Qed.

Lemma decode_data_short l :
  (length l ≤ 64)%nat → decode_data l = map sub33 l ++ replicate (64 - length l) 0.
Proof.
  intros Hl. unfold decode_data. fold sub33. rewrite take_ge by (by rewrite length_map).
  by rewrite length_map.
Qed.

Lemma decode_payload (addr enc : list Z) :
  (4 ≤ length enc)%nat →
  (payload ← slice_or_panic 4 (length enc - 4) (decode_data enc);
   if (64 <? length enc - 4)%nat then Panic
   else Ok (Frame addr (rev (take 4 (decode_data enc)))
              (payload ++ replicate (64 - (length enc - 4)) 0) (length enc - 4))) =
  if (64 <? length enc)%nat then Panic
  else Ok (Frame addr (rev (take 4 (map sub33 enc)))
             (drop 4 (map sub33 enc) ++ replicate (68 - length enc) 0) (length enc - 4)).
Proof.
  intros H4. unfold slice_or_panic. rewrite length_decode_data.
  destruct (Nat.ltb_spec 64 (length enc)) as [H|H].
  - by destruct (Nat.leb_spec (4 + (length enc - 4)) 64); [lia|].
  - destruct (Nat.leb_spec (4 + (length enc - 4)) 64); [|lia]. cbn [mbind res_bind].
    destruct (Nat.ltb_spec 64 (length enc - 4)); [lia|].
    rewrite decode_data_short by done. unfold slice.
    rewrite (take_app_le (map sub33 enc)), drop_app_le by (rewrite length_map; lia).
    rewrite take_app_le, (take_ge (drop _ _)) by (rewrite length_drop, length_map; lia).
    do 4 f_equal. lia.
Qed.

(** [decode_response] on the fields. *)
Lemma decode_shaped f0 a f7 c len enc cs e :
  length a = 6%nat →
  decode_response (shaped f0 a f7 c len enc cs e) =
  if (length enc <? 2)%nat then Err InvalidLength
  else if negb (f0 =? FRAME_START) || negb (f7 =? FRAME_START) then Err InvalidMarkers
  else if negb (e =? FRAME_END) then Err InvalidMarkers
  else if negb (cs =? sum (f0 :: a ++ f7 :: c :: len :: enc) mod 256) then Err ChecksumError
  else if negb (length enc =? Z.to_nat len)%nat then Err InvalidLength
  else if c =? CTRL_READ_DATA_ERR then
    if (0 <? length enc)%nat then
      let error_code := sub33 (nth 0 enc 0) in
      Err (if error_code =? 0x01 then NoData
           else if error_code =? 0x02 then DateError
           else if error_code =? 0x04 then NoPermission
           else if error_code =? 0x08 then FrameError
           else OtherError)
    else Err OtherError
  else if negb (c =? CTRL_READ_DATA_RESP) then Err FrameError
  else if (length enc <? 4)%nat then Err InvalidLength
  else if (64 <? length enc)%nat then Panic
  else Ok (Frame (rev a) (rev (take 4 (map sub33 enc)))
             (drop 4 (map sub33 enc) ++ replicate (68 - length enc) 0) (length enc - 4)).
Proof.
  intros Ha. do 6 (destruct a as [|? a]; [done|]). destruct a; [|done].
  unfold decode_response, shaped. set (body := f0 :: _).
  assert (length (body ++ [cs; e]) = 12 + length enc)%nat as Hl
    by (subst body; rewrite length_app; cbn; lia).
  assert (length body = 10 + length enc)%nat as Hb by (subst body; cbn; lia).
  rewrite !Hl.
  destruct (Nat.ltb_spec (12 + length enc) 14), (Nat.ltb_spec (length enc) 2); try lia; [done|].
  change (nth 0 (body ++ [cs; e]) 0) with f0. change (nth 7 (body ++ [cs; e]) 0) with f7.
  change (nth 8 (body ++ [cs; e]) 0) with c. change (nth 9 (body ++ [cs; e]) 0) with len.
  replace (12 + length enc - 1)%nat with (length body + 1)%nat by lia.
  replace (length body + 1 - 1)%nat with (length body + 0)%nat by lia.
  rewrite !app_nth2_plus. cbn [nth]. rewrite Nat.add_0_r, take_app_length, checksum_sum.
  do 3 (case_if; [done|]).
  change (from_wire_bytes _) with (@Ok Dl645Error _ (rev [z; z0; z1; z2; z3; z4])).
  cbn [mbind res_bind].
  replace (12 + length enc =? 10 + Z.to_nat len + 2)%nat with (length enc =? Z.to_nat len)%nat
    by (destruct (Nat.eqb_spec (length enc) (Z.to_nat len)); symmetry;
        [apply Nat.eqb_eq|apply Nat.eqb_neq]; lia).
  destruct (Nat.eqb_spec (length enc) (Z.to_nat len)) as [Hlen|]; cbn [negb]; [|done].
  rewrite <- Hlen.
  replace (nth 10 (body ++ [cs; e]) 0) with (nth 0 enc 0) by (subst body; destruct enc; [cbn in *; lia|done]).
  case_if; [done|]. case_if; [done|].
  assert (slice_or_panic 10 (length enc) (body ++ [cs; e]) = Ok enc) as ->.
  { unfold slice_or_panic. rewrite Hl.
    destruct (Nat.leb_spec (10 + length enc) (12 + length enc)); [|lia]. f_equal.
    by apply (slice_app_mid 10 _ [f0; z; z0; z1; z2; z3; z4; f7; c; len] enc). }
  cbn [mbind res_bind].
  case_if; [done|]. apply Nat.ltb_ge in Heqb4.
  rewrite decode_payload by lia. done.
Qed.

Lemma frame_bytes_shaped ctrl addr payload :
  frame_bytes ctrl addr payload =
  shaped FRAME_START (rev addr) FRAME_START ctrl (Z.of_nat (length payload)) (map add33 payload)
    (sum (frame_body ctrl addr payload) mod 256) FRAME_END.
Proof. done. Qed.

(** The result a conforming response with this content decodes to. *)
Definition response (addr di payload : list Z) : Dl645Frame :=
  Frame addr di (payload ++ replicate (64 - length payload) 0) (length payload).

Lemma decode_response_frame addr payload :
  length addr = 6%nat → bytes_ok payload → (4 ≤ length payload)%nat →
  decode_response (frame_bytes CTRL_READ_DATA_RESP addr payload) =
  if (64 <? length payload)%nat then Panic
  else Ok (response addr (rev (take 4 payload)) (drop 4 payload)).
Proof.
  intros Ha Hok Hl. rewrite frame_bytes_shaped, decode_shaped by (by rewrite length_rev).
  rewrite length_map, map_sub_add, rev_involutive, Nat2Z.id, Nat.eqb_refl by done.
  change (FRAME_START =? FRAME_START) with true. change (FRAME_END =? FRAME_END) with true.
  cbn [negb orb]. change (sum (FRAME_START :: _)) with
    (sum (frame_body CTRL_READ_DATA_RESP addr payload)). rewrite Z.eqb_refl. cbn [negb].
  destruct (Nat.ltb_spec (length payload) 2); [lia|].
  destruct (Nat.ltb_spec (length payload) 4); [lia|].
  change (CTRL_READ_DATA_RESP =? CTRL_READ_DATA_ERR) with false. cbv iota.
  destruct (64 <? length payload)%nat; [done|]. unfold response.
  rewrite length_drop. do 4 f_equal. lia.
Qed.

(** [decode_response] accepts exactly the well-formed read responses that
    carry at most 60 data bytes: correct markers, checksum, length field,
    control code 91h, and a data area holding the reversed identifier followed
    by the data, every byte offset by 33h; and it returns exactly the address,
    identifier and data of that frame. *)
Theorem decode_response_exact (frame : list Z) (f : Dl645Frame) :
  bytes_ok frame →
  decode_response frame = Ok f ↔
  ∃ addr di payload, length addr = 6%nat ∧ length di = 4%nat ∧ (length payload ≤ 60)%nat ∧
    bytes_ok addr ∧ bytes_ok di ∧ bytes_ok payload ∧
    frame = frame_bytes CTRL_READ_DATA_RESP addr (rev di ++ payload) ∧
    f = response addr di payload.
Proof.
  intros Hok. split.
  - intros H. assert (14 ≤ length frame)%nat as Hl.
    { revert H. unfold decode_response. destruct (Nat.ltb_spec (length frame) 14); [done|lia]. }
    destruct (frame_shape frame Hl) as (f0 & a & f7 & c & len & enc & cs & e & Ha & ->).
    rewrite decode_shaped in H by done.
    do 5 (case_if; [done|]). case_if; [by case_if|]. do 3 (case_if; [done|]).
    injection H as <-. bool_to_prop. subst f0 f7 e c. unfold shaped in Hok. apply bytes_ok_app in Hok as [Hbody _].
    apply Forall_cons in Hbody as [_ Hbody]. apply bytes_ok_app in Hbody as [Hao Hbody].
    do 3 (apply Forall_cons in Hbody as [? Hbody]).
    exists (rev a), (rev (take 4 (map sub33 enc))), (drop 4 (map sub33 enc)).
    rewrite !length_rev, length_take, length_drop, length_map, rev_involutive, take_drop.
    split_and!; [done|lia|lia|by apply bytes_ok_rev|by apply bytes_ok_rev, Forall_take, map_sub_ok
      |by apply Forall_drop, map_sub_ok| |].
    + assert (len = Z.of_nat (length enc)) as ->.
      { unfold in_u in *. lia. }
      rewrite frame_bytes_shaped, rev_involutive, length_map, map_add_sub by done.
      f_equal. rewrite Heqb2. unfold frame_body.
      by rewrite rev_involutive, length_map, map_add_sub.
    + unfold response. rewrite length_drop, length_map. do 2 f_equal. f_equal. lia.
  - intros (addr & di & payload & Ha & Hd & Hp & Hao & Hdo & Hpo & -> & ->).
    rewrite decode_response_frame; [|done| |rewrite length_app, length_rev; lia].
    + rewrite length_app, length_rev, Hd. destruct (Nat.ltb_spec 64 (4 + length payload)); [lia|].
      rewrite take_app_length', drop_app_length' by (rewrite length_rev; lia).
      by rewrite rev_involutive.
    + apply bytes_ok_app. split; [by apply bytes_ok_rev|done].
Qed.

(** Every outcome past the two envelope checks has a valid trailer. *)
Lemma decode_envelope frame :
  (14 ≤ length frame)%nat →
  decode_response frame = Err InvalidMarkers ∨ decode_response frame = Err ChecksumError ∨
  (nth (length frame - 1) frame 0 = FRAME_END ∧
   nth (length frame - 2) frame 0 = sum (take (length frame - 2) frame) mod 256).
Proof.
  intros Hl. unfold decode_response. rewrite checksum_sum.
  replace (length frame - 1 - 1)%nat with (length frame - 2)%nat by lia.
  destruct (Nat.ltb_spec (length frame) 14); [lia|].
  do 3 (case_if; [auto|]). bool_to_prop. auto.
Qed.

Lemma sum_take_insert (l : list Z) i k b b' :
  l !! i = Some b → (i < k)%nat →
  sum (take k (<[i := b']> l)) = sum (take k l) + b' - b.
Proof.
  intros Hi Hk. rewrite take_insert_lt by done.
  assert (take k l !! i = Some b) as Ht by (by rewrite lookup_take_lt).
  rewrite insert_take_drop by (by apply lookup_lt_Some in Ht).
  rewrite <- (take_drop_middle (take k l) i b Ht) at 3.
  rewrite !sum_app. cbn [sum fold_right]. unfold sum. lia.
Qed.

Lemma nth_insert (l : list Z) i b' k :
  (i < length l)%nat → nth k (<[i := b']> l) 0 = if (k =? i)%nat then b' else nth k l 0.
Proof.
  intros Hi. rewrite !nth_lookup. destruct (Nat.eqb_spec k i) as [->|Hne].
  - by rewrite list_lookup_insert_eq.
  - by rewrite list_lookup_insert_ne.
Qed.

(** A single corrupted byte never goes unnoticed: change any one byte of an
    accepted frame to any other value and decoding reports bad markers or a
    checksum mismatch. *)
Theorem decode_response_detects_corruption (frame : list Z) (f : Dl645Frame) (i : nat) (b b' : Z) :
  bytes_ok frame → decode_response frame = Ok f → frame !! i = Some b → in_u 8 b' → b' ≠ b →
  decode_response (<[i := b']> frame) = Err InvalidMarkers ∨
  decode_response (<[i := b']> frame) = Err ChecksumError.
Proof.
  intros Hok Hd Hi Hb' Hne. assert (14 ≤ length frame)%nat as Hl.
  { revert Hd. unfold decode_response. destruct (Nat.ltb_spec (length frame) 14); [done|lia]. }
  pose proof (lookup_lt_Some _ _ _ Hi) as Hil.
  assert (in_u 8 b) as Hb by (by apply (Forall_lookup_1 _ _ _ _ Hok Hi)).
  assert (nth i frame 0 = b) as Hn by (by rewrite nth_lookup, Hi).
  destruct (decode_envelope frame Hl) as [E|[E|[He Hc]]]; [congruence..|].
  destruct (decode_envelope (<[i := b']> frame)) as [E|[E|[He' Hc']]];
    [by rewrite length_insert|by left|by right|exfalso].
  rewrite !length_insert in *. rewrite !nth_insert in * by done.
  destruct (Nat.eqb_spec (length frame - 1) i) as [<-|H1]; [congruence|].
  destruct (Nat.eqb_spec (length frame - 2) i) as [<-|H2].
  { rewrite take_insert_ge in Hc' by lia. congruence. }
  rewrite (sum_take_insert _ _ _ b) in Hc' by (done || lia). rewrite Hc in Hc'.
  set (S := sum _) in Hc'. assert ((b' - b) mod 256 = 0) as Hm.
  { replace (b' - b) with ((S + b' - b) - S) by lia. rewrite Zminus_mod, <- Hc', Z.sub_diag. done. }
  unfold in_u in *. apply Z.mod_divide in Hm as [q Hq]; [|done]. lia.
Qed.

(** A well-formed response whose data area is longer than 64 bytes makes
    [decode_response] panic instead of returning an error: the slice of the
    64-byte work array is taken before its length is checked. *)
Theorem decode_response_panics_on_long_data (addr payload : list Z) :
  length addr = 6%nat → bytes_ok payload → (64 < length payload ≤ 255)%nat →
  decode_response (frame_bytes CTRL_READ_DATA_RESP addr payload) = Panic.
Proof.
  intros Ha Hok [Hl _]. rewrite decode_response_frame by (done || lia).
  by apply Nat.ltb_lt in Hl as ->.
Qed.

(** [encode_read_request] emits the conforming read frame of the address
    and identifier: 16 bytes, in a zero-padded 256-byte buffer. *)
Theorem encode_read_request_conforms (addr di : list Z) :
  length addr = 6%nat → length di = 4%nat →
  let '(buf, n) := encode_read_request addr di in
  n = 16%nat ∧ buf = frame_bytes CTRL_READ_DATA addr (rev di) ++ replicate 240 0.
Proof.
  intros Ha Hd. do 6 (destruct addr as [|? addr]; [done|]). destruct addr; [|done].
  do 4 (destruct di as [|? di]; [done|]). destruct di; [|done].
  split; [done|]. unfold encode_read_request. cbv zeta. rewrite checksum_sum. done.
Qed.

(** ** Text and BCD *)

Lemma nibble_roundtrip n :
  0 ≤ n < 16 → hex_char_to_nibble (nibble_to_hex_char n) = Some n.
Proof.
  intros Hn. assert (n ∈ map Z.of_nat (seq 0 16)) as Hin.
  { apply list_elem_of_In, in_map_iff. exists (Z.to_nat n). rewrite in_seq. lia. }
  revert Hin. clear Hn. revert n. apply Forall_forall. by repeat constructor.
Qed.

Lemma byte_nibbles b :
  in_u 8 b → 0 ≤ Z.shiftr b 4 < 16 ∧ 0 ≤ Z.land b 15 < 16 ∧
             Z.shiftr b 4 = b / 16 ∧ Z.land b 15 = b mod 16 ∧
             Z.lor (Z.shiftl (Z.shiftr b 4) 4) (Z.land b 15) = b.
Proof.
  intros Hb. unfold in_u in Hb. rewrite Z.shiftr_div_pow2 by done.
  change 15 with (Z.ones 4). rewrite Z.land_ones by done. change (2 ^ 4) with 16.
  pose proof (Z.div_mod b 16 ltac:(done)). pose proof (Z.mod_pos_bound b 16 ltac:(done)).
  split_and!; try done; try lia.
  assert (Z.land (Z.shiftl (b / 16) 4) (b mod 16) = 0) as Hd.
  { apply Z.bits_inj'. intros j Hj. rewrite Z.land_spec, Z.bits_0. destruct (Z.ltb_spec j 4).
    - by rewrite Z.shiftl_spec_low.
    - change 16 with (2 ^ 4). by rewrite Z.mod_pow2_bits_high, andb_false_r by lia. }
  rewrite <- Z.lxor_lor, <- Z.add_nocarry_lxor by done.
  rewrite Z.shiftl_mul_pow2 by done. change (2 ^ 4) with 16. lia.
Qed.

Lemma parse_hex_pairs_to_hex e l :
  bytes_ok l → parse_hex_pairs e (to_hex_string l) = Ok l.
Proof.
  induction 1 as [|b l Hb _ IH]; [done|]. cbn [to_hex_string parse_hex_pairs].
  destruct (byte_nibbles b Hb) as (H1 & H2 & _ & _ & H3).
  rewrite !nibble_roundtrip by done. cbn [ok_or mbind res_bind]. rewrite IH.
  cbn [mbind res_bind]. by rewrite H3.
Qed.

Lemma length_to_hex l : length (to_hex_string l) = (2 * length l)%nat.
Proof. induction l as [|b l IH]; cbn; lia. Qed.

(** Printing a meter address or a data identifier and parsing the text gives
    the same bytes back, and so does a trip through the wire byte order. *)
Theorem address_text_roundtrip (addr di : list Z) :
  length addr = 6%nat → bytes_ok addr → length di = 4%nat → bytes_ok di →
  address_parse (to_hex_string addr) = Ok addr ∧ from_hex_str (to_hex_string di) = Ok di ∧
  from_wire_bytes (to_wire_bytes addr) = Ok addr.
Proof.
  intros Ha Hao Hd Hdo. unfold address_parse, from_hex_str, from_wire_bytes, to_wire_bytes.
  rewrite !length_to_hex, Ha, Hd, !parse_hex_pairs_to_hex, length_rev, Ha by done.
  split_and!; [done..|]. cbn [Nat.ltb Nat.leb]. rewrite take_ge by (rewrite length_rev; lia).
  by rewrite rev_involutive.
Qed.

(** Least significant pair first. *)
Fixpoint bcd_value (l : list Z) : Z :=
  match l with
  | [] => 0
  | b :: l => b mod 16 + 10 * (b / 16) + 100 * bcd_value l
  end.

Lemma u32_checked_small x : x < 2 ^ 32 → u32_checked x = Ok x.
Proof. intros H. unfold u32_checked. by apply Z.ltb_lt in H as ->. Qed.

Lemma u32_checked_cases x : u32_checked x = Ok x ∨ u32_checked x = Panic.
Proof. unfold u32_checked. case_if; auto. Qed.

Lemma bcd_step b l v m :
  in_u 8 b → 0 ≤ v → 3 * v ≤ 5 * m → 1 ≤ m ≤ 1000000 →
  bcd_loop (b :: l) v m = bcd_loop l (v + (b mod 16 + 10 * (b / 16)) * m) (m * 100).
Proof.
  intros Hb Hv Hvm Hm. destruct (byte_nibbles b Hb) as (H1 & H2 & H3 & H4 & _).
  cbn [bcd_loop]. rewrite H4, H3 in *.
  assert (Z.land (b / 16) 15 = b / 16) as ->.
  { change 15 with (Z.ones 4). rewrite Z.land_ones by done. apply Z.mod_small. lia. }
  rewrite !u32_checked_small by nia. cbn [mbind res_bind].
  rewrite !u32_checked_small by nia. cbn [mbind res_bind].
  rewrite !u32_checked_small by nia. cbn [mbind res_bind]. f_equal; lia.
Qed.

Lemma bcd_loop_value l v m :
  bytes_ok l → 0 ≤ v → 3 * v ≤ 5 * m → 1 ≤ m → m * 100 ^ Z.of_nat (length l) ≤ 100000000 →
  bcd_loop l v m = Ok (v + bcd_value l * m).
Proof.
  intros Hl. revert v m. induction Hl as [|b l Hb _ IH]; intros v m Hv Hvm Hm Hb'.
  { cbn. f_equal. lia. }
  cbn [length] in Hb'. rewrite Nat2Z.inj_succ, Z.pow_succ_r in Hb' by lia.
  assert (1 ≤ 100 ^ Z.of_nat (length l)) by (pose proof (Z.pow_pos_nonneg 100
    (Z.of_nat (length l)) ltac:(done) ltac:(lia)); lia).
  destruct (byte_nibbles b Hb) as (H1 & H2 & H3 & H4 & _). rewrite H3, H4 in *.
  rewrite bcd_step by (done || nia). rewrite IH; [|nia..]. cbn [bcd_value]. f_equal. lia.
Qed.

Lemma bcd_loop_overflow b l v m :
  100000000 ≤ m → bcd_loop (b :: l) v m = Panic.
Proof.
  intros Hm. cbn [bcd_loop].
  do 5 match goal with
       | |- u32_checked ?x ≫= _ = _ =>
           destruct (u32_checked_cases x) as [->| ->]; cbn [mbind res_bind]; [|done]
       end.
  unfold u32_checked. destruct (Z.ltb_spec (m * 10 * 10) (2 ^ 32)); [lia|done].
Qed.

(** [bcd_to_u32] computes the decimal value of up to four bytes, least
    significant pair first, without overflow even for invalid nibbles; on five
    or more bytes the [u32] multiplier always overflows. *)
Theorem bcd_to_u32_bounds (l : list Z) :
  bytes_ok l →
  bcd_to_u32 l = if (length l <=? 4)%nat then Ok (bcd_value l) else Panic.
Proof.
  intros Hl. unfold bcd_to_u32. destruct (Nat.leb_spec (length l) 4) as [H|H].
  - rewrite bcd_loop_value; [f_equal; lia|done|lia..|].
    transitivity (1 * 100 ^ 4); [|done]. apply Z.mul_le_mono_nonneg_l; [lia|].
    apply Z.pow_le_mono_r; lia.
  - do 4 (destruct l as [|? l]; [cbn in H; lia|]). destruct l as [|b l]; [cbn in H; lia|].
    do 4 (apply Forall_cons in Hl as [? Hl]).
    rewrite bcd_step by (done || lia).
    destruct (byte_nibbles z ltac:(done)) as (? & ? & E1 & E2 & _). rewrite E1, E2 in *.
    rewrite bcd_step by (done || nia).
    destruct (byte_nibbles z0 ltac:(done)) as (? & ? & E3 & E4 & _). rewrite E3, E4 in *.
    rewrite bcd_step by (done || nia).
    destruct (byte_nibbles z1 ltac:(done)) as (? & ? & E5 & E6 & _). rewrite E5, E6 in *.
    rewrite bcd_step by (done || nia).
    apply bcd_loop_overflow. lia.
Qed.

(** ** Concrete instances *)

Definition sample_addr : list Z := [0x12; 0x34; 0x56; 0x78; 0x90; 0x12].
Definition sample_di : list Z := [0x00; 0x01; 0x00; 0x00].
Definition sample_payload : list Z := [0x78; 0x56; 0x34; 0x12].
Definition sample_response : list Z :=
  frame_bytes CTRL_READ_DATA_RESP sample_addr (rev sample_di ++ sample_payload).

Lemma decode_response_exact_witness :
  decode_response sample_response = Ok (response sample_addr sample_di sample_payload).
Proof.
  apply decode_response_exact; [by repeat constructor|].
  exists sample_addr, sample_di, sample_payload.
  split_and!; try done; try (by repeat constructor); cbn; lia.
Defined.

Lemma decode_response_detects_corruption_witness :
  decode_response (<[13%nat := 0x34]> sample_response) = Err InvalidMarkers ∨
  decode_response (<[13%nat := 0x34]> sample_response) = Err ChecksumError.
Proof.
  apply (decode_response_detects_corruption sample_response
    (response sample_addr sample_di sample_payload) 13 0x33 0x34);
    [by repeat constructor|by vm_compute|by vm_compute|done|done].
Defined.

Lemma decode_response_panics_on_long_data_witness :
  decode_response (frame_bytes CTRL_READ_DATA_RESP sample_addr (replicate 65 0)) = Panic.
Proof.
  apply decode_response_panics_on_long_data; [done|by apply Forall_replicate|cbn; lia].
Defined.

Lemma encode_read_request_conforms_witness :
  snd (encode_read_request sample_addr sample_di) = 16%nat.
Proof.
  pose proof (encode_read_request_conforms sample_addr sample_di eq_refl eq_refl) as H.
  destruct (encode_read_request _ _). apply H.
Defined.

Lemma address_text_roundtrip_witness :
  address_parse (to_hex_string sample_addr) = Ok sample_addr.
Proof.
  by apply (address_text_roundtrip sample_addr sample_di); try done; repeat constructor.
Defined.

Lemma bcd_to_u32_bounds_witness : bcd_to_u32 sample_payload = Ok 12345678.
Proof. rewrite bcd_to_u32_bounds by (by repeat constructor). done. Defined.

End Dl645.
