(* ===== verification/Points.v ===== *)
(** * Point types, values and batches (libs/aether-core/src/{types,frame}.rs)

    The shared vocabulary of protocol adapters: the four remote point types and
    their internal identifiers, quality codes, point values, and the
    fixed-capacity batch of readings.  An [f64] is its bit pattern. *)

From stdpp Require Import base tactics numbers list strings.
From S2P Require Import Prelude.
#[local] Open Scope Z_scope.

Module Points.

Inductive PointType := Telemetry | Signal | Control | Adjustment.

#[global] Instance PointType_eq_dec : EqDecision PointType.
Proof. solve_decision. Defined.

Definition as_str (t : PointType) : string :=
  match t with Telemetry => "T" | Signal => "S" | Control => "C" | Adjustment => "A" end.

Definition to_u8 (t : PointType) : Z :=
  match t with Telemetry => 0 | Signal => 1 | Control => 2 | Adjustment => 3 end.

Definition from_u8 (value : Z) : option PointType :=
  if value =? 0 then Some Telemetry
  else if value =? 1 then Some Signal
  else if value =? 2 then Some Control
  else if value =? 3 then Some Adjustment
  else None.

Definition from_str (s : string) : option PointType :=
  if bool_decide (s ∈ ["T"; "t"; "YC"; "yc"; "Yc"; "yC"]) then Some Telemetry
  else if bool_decide (s ∈ ["S"; "s"; "YX"; "yx"; "Yx"; "yX"]) then Some Signal
  else if bool_decide (s ∈ ["C"; "c"; "YK"; "yk"; "Yk"; "yK"]) then Some Control
  else if bool_decide (s ∈ ["A"; "a"; "YT"; "yt"; "Yt"; "yT"]) then Some Adjustment
  else None.

Definition is_measurement (t : PointType) : bool :=
  match t with Telemetry | Signal => true | _ => false end.
Definition is_action (t : PointType) : bool :=
  match t with Control | Adjustment => true | _ => false end.
Definition is_analog (t : PointType) : bool :=
  match t with Telemetry | Adjustment => true | _ => false end.
Definition is_digital (t : PointType) : bool :=
  match t with Signal | Control => true | _ => false end.

(** ** Internal identifiers *)

Definition OFFSET : Z := u_max 32 / 4.

Definition type_offset (t : PointType) : Z :=
  match t with
  | Telemetry => 0
  | Signal => OFFSET
  | Control => OFFSET * 2
  | Adjustment => OFFSET * 3
  end.

(** [u32] addition with overflow checks on. *)
Definition to_internal_id (t : PointType) (point_id : Z) : res unit Z :=
  if point_id + type_offset t <? 2 ^ 32 then Ok (point_id + type_offset t) else Panic.

Definition from_internal_id (internal_id : Z) : PointType * Z :=
  let type_index := internal_id / OFFSET in
  let original_id := internal_id mod OFFSET in
  let point_type :=
    if type_index =? 0 then Telemetry
    else if type_index =? 1 then Signal
    else if type_index =? 2 then Control
    else Adjustment in
  (point_type, original_id).

(** ** Quality and values *)

Inductive Quality := Good | Stale | CommFail | DeviceError | OutOfRange | Invalid.

Definition quality_from_u8 (value : Z) : Quality :=
  if value =? 0 then Good
  else if value =? 1 then Stale
  else if value =? 2 then CommFail
  else if value =? 3 then DeviceError
  else if value =? 4 then OutOfRange
  else Invalid.

Definition quality_to_u8 (q : Quality) : Z :=
  match q with
  | Good => 0 | Stale => 1 | CommFail => 2 | DeviceError => 3 | OutOfRange => 4 | Invalid => 0xFF
  end.

Inductive Value :=
| Float (bits : Z)
| Integer (v : Z)
| Bool (v : bool)
| String16 (buf : list Z) (len : nat).

(** [Value::from_bytes]. *)
Definition value_from_bytes (bytes : list Z) : Value :=
  let len := Nat.min (length bytes) 16 in
  String16 (take len bytes ++ replicate (16 - len) 0) len.

(** ** Batches (frame.rs) *)

Definition MAX_BATCH_POINTS : nat := 64.

Record PointReading := Reading {
  point_id : Z;
  point_type : PointType;
  value : Value;
  quality : Quality;
  timestamp : Z }.

Definition telemetry (id bits ts : Z) : PointReading := Reading id Telemetry (Float bits) Good ts.
Definition signal (id : Z) (v : bool) (ts : Z) : PointReading := Reading id Signal (Bool v) Good ts.
Definition with_quality (q : Quality) (r : PointReading) : PointReading :=
  Reading (point_id r) (point_type r) (value r) q (timestamp r).

Record PointBatch := Batch { instance_id : Z; readings_array : list PointReading; count : nat }.

Definition batch_new (id : Z) : PointBatch :=
  Batch id (replicate MAX_BATCH_POINTS (telemetry 0 0 0)) 0.

Definition push (r : PointReading) (b : PointBatch) : bool * PointBatch :=
  if (MAX_BATCH_POINTS <=? count b)%nat then (false, b)
  else (true, Batch (instance_id b) (<[count b := r]> (readings_array b)) (S (count b))).

Definition readings (b : PointBatch) : list PointReading := take (count b) (readings_array b).
Definition batch_clear (b : PointBatch) : PointBatch :=
  Batch (instance_id b) (readings_array b) 0.

(** ** Properties *)

(** Internal identifiers: for every type and every [u32] point id whose sum
    does not overflow, decoding gives the original pair back exactly when the
    point id is below [OFFSET]; below it, encoding never overflows.  Point id
    [OFFSET] itself already lands on the first identifier of the next type. *)
Theorem internal_id_roundtrip (t : PointType) (p : Z) :
  in_u 32 p →
  (p < OFFSET → ∃ id, to_internal_id t p = Ok id ∧ in_u 32 id) ∧
  (∀ id, to_internal_id t p = Ok id → from_internal_id id = (t, p) ↔ p < OFFSET).
Proof.
  intros Hp. unfold in_u in Hp. assert (OFFSET = 1073741823) as HO by done.
  split.
  - intros Hlt. unfold to_internal_id. exists (p + type_offset t).
    assert (p + type_offset t < 2 ^ 32) as H by (destruct t; cbn [type_offset]; lia).
    apply Z.ltb_lt in H as Hb. rewrite Hb. split; [done|]. unfold in_u.
    destruct t; cbn [type_offset] in *; lia.
  - intros id. unfold to_internal_id. case_if; [|done]. intros [= <-]. split.
    + intros [= _ H]. pose proof (Z.mod_pos_bound (p + type_offset t) OFFSET). lia.
    + intros Hlt. unfold from_internal_id.
      assert ((p + type_offset t) / OFFSET = to_u8 t) as Hq.
      { symmetry. apply (Z.div_unique _ _ _ p); destruct t; cbn [type_offset to_u8]; lia. }
      assert ((p + type_offset t) mod OFFSET = p) as Hm.
      { symmetry. apply (Z.mod_unique _ _ (to_u8 t)); destruct t; cbn [type_offset to_u8]; lia. }
      rewrite Hq, Hm. by destruct t.
Qed.

Lemma internal_id_roundtrip_witness :
  ∃ id, to_internal_id Adjustment 7 = Ok id ∧ from_internal_id id = (Adjustment, 7).
Proof.
  destruct (internal_id_roundtrip Adjustment 7) as [H1 H2]; [done|].
  destruct H1 as (id & Hid & _); [done|]. exists id. split; [done|]. by apply H2.
Defined.

(** Pushing a sequence of readings. *)
Fixpoint push_all (rs : list PointReading) (b : PointBatch) : list bool * PointBatch :=
  match rs with
  | [] => ([], b)
  | r :: rs =>
      let '(ok, b) := push r b in
      let '(oks, b) := push_all rs b in (ok :: oks, b)
  end.

Definition batch_ok (b : PointBatch) : Prop :=
  length (readings_array b) = MAX_BATCH_POINTS ∧ (count b ≤ MAX_BATCH_POINTS)%nat.

Lemma push_spec r b :
  batch_ok b → let '(ok, b') := push r b in
  batch_ok b' ∧ ok = (length (readings b) <? MAX_BATCH_POINTS)%nat ∧
  readings b' = take MAX_BATCH_POINTS (readings b ++ [r]) ∧
  instance_id b' = instance_id b.
Proof.
  intros [Hl Hc]. unfold push, readings.
  rewrite length_take, Hl, Nat.min_l by done.
  destruct (Nat.leb_spec MAX_BATCH_POINTS (count b)) as [H|H].
  - split; [done|]. split; [|split; [|done]].
    + symmetry. by apply Nat.ltb_ge.
    + symmetry. rewrite take_app_le by (rewrite length_take; lia).
      apply take_ge. rewrite length_take. lia.
  - split; [|split; [|split; [|done]]].
    + split; cbn [readings_array count]; [by rewrite length_insert|lia].
    + symmetry. by apply Nat.ltb_lt.
    + cbn [readings_array count].
      rewrite (take_S_r _ _ r) by (apply list_lookup_insert_eq; lia).
      rewrite take_insert_ge by lia. symmetry. apply take_ge.
      rewrite length_app, length_take. cbn. lia.
Qed.

(** A batch keeps the first 64 readings pushed, in order, and [push] says
    so: from an empty batch, pushing any sequence leaves exactly its first 64
    elements, and the [i]-th push reports success iff [i < 64]. *)
Theorem batch_keeps_first_64 (id : Z) (rs : list PointReading) :
  let '(oks, b) := push_all rs (batch_new id) in
  readings b = take MAX_BATCH_POINTS rs ∧
  oks = map (fun i => (i <? MAX_BATCH_POINTS)%nat) (seq 0 (length rs)).
Proof.
  enough (∀ b k, batch_ok b → length (readings b) = Nat.min k MAX_BATCH_POINTS →
    let '(oks, b') := push_all rs b in
    readings b' = take MAX_BATCH_POINTS (readings b ++ rs) ∧
    oks = map (fun i => (i <? MAX_BATCH_POINTS)%nat) (seq k (length rs))) as H.
  { apply (H (batch_new id) 0%nat); [|done]. split; [done|]. apply Nat.le_0_l. }
  induction rs as [|r rs IH]; intros b k Hb Hk; cbn [push_all length seq map].
  { rewrite app_nil_r, take_ge by lia. done. }
  pose proof (push_spec r b Hb) as Hp. destruct (push r b) as [ok b1].
  destruct Hp as (Hb1 & -> & Hr & _). specialize (IH b1 (S k) Hb1).
  destruct (push_all rs b1) as [oks b2].
  rewrite Hr, length_take, length_app in IH. cbn [length] in IH.
  destruct IH as [H1 ->]; [lia|]. split.
  - rewrite H1. replace (r :: rs) with ([r] ++ rs) by done. rewrite app_assoc.
    set (l := readings b ++ [r]). destruct (Nat.le_gt_cases (length l) MAX_BATCH_POINTS).
    + by rewrite (take_ge l).
    + rewrite !take_app_le by (rewrite ?length_take; lia). by rewrite take_take, Nat.min_id.
  - f_equal. rewrite Hk.
    destruct (Nat.ltb_spec k MAX_BATCH_POINTS), (Nat.ltb_spec (Nat.min k MAX_BATCH_POINTS)
      MAX_BATCH_POINTS); (done || lia).
Qed.

End Points.
