(* ===== verification/Can.v ===== *)
(** * CAN signal decoding (libs/aether-core/src/codec/can.rs)

    Field extraction from a frame and conversion to a typed value.  Floats are
    bit patterns; [f32_widen] is the [f32] to [f64] conversion on them. *)

From stdpp Require Import base tactics numbers list.
From S2P Require Import Prelude.
#[local] Open Scope Z_scope.

Module Can.

Inductive CanDataType := UInt8 | UInt16 | Int16 | UInt32 | Int32 | Float32 | Ascii.

Definition bit_length (t : CanDataType) : Z :=
  match t with
  | UInt8 => 8
  | UInt16 | Int16 => 16
  | UInt32 | Int32 | Float32 => 32
  | Ascii => 64
  end.

Inductive CanDecodeError :=
| OffsetOutOfRange | InvalidBitPosition | InsufficientData | UnsupportedBitLength.

(** [ExtractedField]: an 8-byte array and its used length. *)
Record ExtractedField := Field { f_data : list Z; f_len : nat }.

Definition field_new (bytes : list Z) : ExtractedField :=
  let len := Nat.min (length bytes) 8 in
  Field (take len bytes ++ replicate (8 - len) 0) len.
Definition field_single (b : Z) : ExtractedField := Field [b; 0; 0; 0; 0; 0; 0; 0] 1.
Definition as_slice (f : ExtractedField) : list Z := take (f_len f) (f_data f).

(** A multi-byte field of [n] bytes: the three identical match arms. *)
Definition extract_bytes (data : list Z) (off : nat) (bit_position : Z) (n : nat)
    : res CanDecodeError ExtractedField :=
  if negb (bit_position =? 0) then Err InvalidBitPosition
  else if (length data <? off + n)%nat then Err InsufficientData
  else Ok (field_new (slice off n data)).

Definition extract_field (data : list Z) (byte_offset bit_position bit_len : Z)
    : res CanDecodeError ExtractedField :=
  let off := Z.to_nat byte_offset in
  if (length data <=? off)%nat then Err OffsetOutOfRange
  else if bit_len =? 2 then
    if 6 <? bit_position then Err InvalidBitPosition
    else Ok (field_single (Z.land (Z.shiftr (nth off data 0) bit_position) 0x03))
  else if bit_len =? 8 then
    if negb (bit_position =? 0) then Err InvalidBitPosition
    else Ok (field_single (nth off data 0))
  else if bit_len =? 16 then extract_bytes data off bit_position 2
  else if bit_len =? 32 then extract_bytes data off bit_position 4
  else if bit_len =? 64 then extract_bytes data off bit_position 8
  else Err UnsupportedBitLength.

Inductive CanValue :=
| CanInteger (v : Z)
| CanFloat (bits : Z)
| CanString (buf : list Z) (len : nat).

(** [iN::from_le_bytes]: two's complement. *)
Definition to_signed (w x : Z) : Z := if x <? 2 ^ (w - 1) then x else x - 2 ^ w.

(** [f32 as f64] on bit patterns: exact; a NaN is made quiet. *)
Definition f32_widen (b : Z) : Z :=
  let s := Z.shiftl (Z.shiftr b 31) 63 in
  let e := Z.land (Z.shiftr b 23) 0xFF in
  let m := Z.land b 0x7FFFFF in
  if e =? 0xFF then
    s + Z.shiftl 0x7FF 52 +
    (if m =? 0 then 0 else Z.lor (Z.shiftl m 29) (Z.shiftl 1 51))
  else if e =? 0 then
    if m =? 0 then s
    else
      let k := Z.log2 m in
      s + Z.shiftl (k + 874) 52 + Z.shiftl (m - 2 ^ k) (52 - k)
  else s + Z.shiftl (e + 896) 52 + Z.shiftl m 29.

(** The copy loop of the [Ascii] arm, up to the first zero byte. *)
Fixpoint ascii_prefix (bytes : list Z) : list Z :=
  match bytes with
  | [] => []
  | b :: bytes => if b =? 0 then [] else b :: ascii_prefix bytes
  end.

Definition decode_value (field : ExtractedField) (t : CanDataType) : res CanDecodeError CanValue :=
  let bytes := as_slice field in
  match t with
  | UInt8 =>
      if (length bytes =? 0)%nat then Err InsufficientData
      else Ok (CanInteger (nth 0 bytes 0))
  | UInt16 =>
      if (length bytes <? 2)%nat then Err InsufficientData
      else Ok (CanInteger (le_val (take 2 bytes)))
  | Int16 =>
      if (length bytes <? 2)%nat then Err InsufficientData
      else Ok (CanInteger (to_signed 16 (le_val (take 2 bytes))))
  | UInt32 =>
      if (length bytes <? 4)%nat then Err InsufficientData
      else Ok (CanInteger (le_val (take 4 bytes)))
  | Int32 =>
      if (length bytes <? 4)%nat then Err InsufficientData
      else Ok (CanInteger (to_signed 32 (le_val (take 4 bytes))))
  | Float32 =>
      if (length bytes <? 4)%nat then Err InsufficientData
      else Ok (CanFloat (f32_widen (le_val (take 4 bytes))))
  | Ascii =>
      let s := take 8 (ascii_prefix bytes) in
      Ok (CanString (s ++ replicate (8 - length s) 0) (length s))
  end.

(** ** Integers on the wire *)

(** The value range of each integer type and its two's complement bytes. *)
Definition int_width (t : CanDataType) : option (Z * bool) :=
  match t with
  | UInt8 => Some (8, false)
  | UInt16 => Some (16, false)
  | Int16 => Some (16, true)
  | UInt32 => Some (32, false)
  | Int32 => Some (32, true)
  | _ => None
  end.
Definition in_range (w : Z) (signed : bool) (v : Z) : Prop :=
  if signed then - 2 ^ (w - 1) ≤ v < 2 ^ (w - 1) else 0 ≤ v < 2 ^ w.
Definition wire_bytes (w v : Z) : list Z := le_bytes (Z.to_nat (w / 8)) (wrap w v).

Lemma to_signed_wrap w v : 1 ≤ w → in_range w true v → to_signed w (wrap w v) = v.
Proof.
  intros Hw Hv. unfold in_range in Hv. unfold to_signed, wrap.
  assert (2 ^ w = 2 * 2 ^ (w - 1)) as E
    by (rewrite <- Z.pow_succ_r by lia; f_equal; lia).
  pose proof (Z.pow_pos_nonneg 2 (w - 1) ltac:(done) ltac:(lia)).
  destruct (Z.leb_spec 0 v).
  - rewrite Z.mod_small by lia. destruct (Z.ltb_spec v (2 ^ (w - 1))); lia.
  - assert (v mod 2 ^ w = v + 2 ^ w) as ->.
    { symmetry. apply (Z.mod_unique _ _ (-1)); lia. }
    destruct (Z.ltb_spec (v + 2 ^ w) (2 ^ (w - 1))); lia.
Qed.

Lemma as_slice_new l : (length l ≤ 8)%nat → as_slice (field_new l) = l.
Proof.
  intros Hl. unfold as_slice, field_new. cbn [f_len f_data].
  rewrite Nat.min_l by lia. rewrite firstn_all. apply take_app_length.
Qed.

(** Integer signals survive the wire: for each integer type, a value in its
    range written in little-endian two's complement at any byte offset of a
    frame is extracted and decoded to itself, signed types included. *)
Theorem can_integer_roundtrip (t : CanDataType) (w : Z) (signed : bool) (v : Z)
    (pre post : list Z) :
  int_width t = Some (w, signed) → in_range w signed v → (length pre ≤ 255)%nat →
  extract_field (pre ++ wire_bytes w v ++ post) (Z.of_nat (length pre)) 0 (bit_length t) ≫=
    (fun f => decode_value f t) = Ok (CanInteger v).
Proof.
  intros Ht Hv _. unfold extract_field. rewrite Nat2Z.id.
  assert (0 < length (wire_bytes w v))%nat as Hpos
    by (unfold wire_bytes; rewrite length_le_bytes; destruct t; cbn [int_width] in Ht;
        simplify_eq; by apply Nat.ltb_lt).
  rewrite !length_app. destruct (Nat.leb_spec
    (length pre + (length (wire_bytes w v) + length post)) (length pre)); [lia|].
  assert (∀ n, n = length (wire_bytes w v) → extract_bytes (pre ++ wire_bytes w v ++ post)
    (length pre) 0 n = Ok (field_new (wire_bytes w v))) as Hx.
  { intros n ->. unfold extract_bytes. cbn [Z.eqb negb]. rewrite !length_app.
    destruct (Nat.ltb_spec (length pre + (length (wire_bytes w v) + length post))
      (length pre + length (wire_bytes w v))); [lia|]. by rewrite slice_app_mid. }
  destruct t; cbn [int_width] in Ht; simplify_eq; cbn [bit_length Z.eqb Pos.eqb];
    try (rewrite Hx by done; cbn [mbind res_bind decode_value]; rewrite as_slice_new by (by apply Nat.leb_le)).
  - cbn [mbind res_bind negb decode_value]. unfold as_slice, field_single. cbn [take f_data f_len].
    cbn [length Nat.eqb nth]. rewrite app_nth2 by lia. rewrite Nat.sub_diag.
    change (nth 0 (wire_bytes 8 v ++ post) 0) with (wrap 8 v mod 256).
    do 2 f_equal. rewrite Z.mod_small; [|apply wrap_in_u; done]. by apply wrap_small.
  - change (length (wire_bytes 16 v) <? 2)%nat with false. cbv iota.
    change (le_val _) with (le_val (le_bytes 2 (wrap 16 v))).
    do 2 f_equal. rewrite (le_val_le_bytes_small 2) by (by apply wrap_in_u).
    by apply wrap_small.
  - change (length (wire_bytes 16 v) <? 2)%nat with false. cbv iota.
    change (le_val _) with (le_val (le_bytes 2 (wrap 16 v))).
    do 2 f_equal. rewrite (le_val_le_bytes_small 2) by (by apply wrap_in_u).
    by apply to_signed_wrap.
  - change (length (wire_bytes 32 v) <? 4)%nat with false. cbv iota.
    change (le_val _) with (le_val (le_bytes 4 (wrap 32 v))).
    do 2 f_equal. rewrite (le_val_le_bytes_small 4) by (by apply wrap_in_u).
    by apply wrap_small.
  - change (length (wire_bytes 32 v) <? 4)%nat with false. cbv iota.
    change (le_val _) with (le_val (le_bytes 4 (wrap 32 v))).
    do 2 f_equal. rewrite (le_val_le_bytes_small 4) by (by apply wrap_in_u).
    by apply to_signed_wrap.
Qed.

Lemma can_integer_roundtrip_witness :
  extract_field ([0xAA] ++ wire_bytes 16 (-5) ++ [0xBB]) 1 0 (bit_length Int16) ≫=
    (fun f => decode_value f Int16) = Ok (CanInteger (-5)).
Proof.
  by apply (can_integer_roundtrip Int16 16 true (-5) [0xAA] [0xBB]); [| |cbn; lia].
Defined.

(** ** Floats: the widening conversion is exact *)

(** Sign, and magnitude in units of the smallest subnormal, of a finite
    pattern with [eb] exponent bits and [mb] mantissa bits. *)
Definition float_exp (eb mb b : Z) : Z := (b / 2 ^ mb) mod 2 ^ eb.
Definition float_mant (mb b : Z) : Z := b mod 2 ^ mb.
Definition float_finite (eb mb b : Z) : Prop := float_exp eb mb b ≠ 2 ^ eb - 1.
Definition float_sign (eb mb b : Z) : Z := b / 2 ^ (eb + mb).
Definition float_units (eb mb b : Z) : Z :=
  if float_exp eb mb b =? 0 then float_mant mb b
  else (float_mant mb b + 2 ^ mb) * 2 ^ (float_exp eb mb b - 1).

Lemma fields64 s e m :
  0 ≤ s ≤ 1 → 0 ≤ e < 2048 → 0 ≤ m < 2 ^ 52 →
  let b := s * 2 ^ 63 + e * 2 ^ 52 + m in
  float_exp 11 52 b = e ∧ float_mant 52 b = m ∧ float_sign 11 52 b = s ∧ in_u 64 b.
Proof.
  intros Hs He Hm b. assert (b = (s * 2048 + e) * 2 ^ 52 + m) as E by lia.
  assert (b / 2 ^ 52 = s * 2048 + e) as Hd by (symmetry; apply (Z.div_unique _ _ _ m); lia).
  unfold float_exp, float_mant, float_sign, in_u. rewrite Hd. split_and!; try lia.
  - symmetry. apply (Z.mod_unique _ _ s); lia.
  - symmetry. apply (Z.mod_unique _ _ (s * 2048 + e)); lia.
  - symmetry. apply (Z.div_unique _ _ _ (e * 2 ^ 52 + m)); lia.
Qed.

Lemma f32_fields b :
  in_u 32 b →
  Z.shiftr b 31 = float_sign 8 23 b ∧ Z.land (Z.shiftr b 23) 0xFF = float_exp 8 23 b ∧
  Z.land b 0x7FFFFF = float_mant 23 b ∧ 0 ≤ float_sign 8 23 b ≤ 1 ∧
  0 ≤ float_exp 8 23 b < 256 ∧ 0 ≤ float_mant 23 b < 2 ^ 23.
Proof.
  intros Hb. unfold in_u, float_sign, float_exp, float_mant in *.
  change 0xFF with (Z.ones 8). change 0x7FFFFF with (Z.ones 23).
  rewrite !Z.land_ones, !Z.shiftr_div_pow2 by done. split_and!; try done.
  - apply Z.div_pos; lia.
  - apply Z.lt_succ_r, Z.div_lt_upper_bound; lia.
  - apply Z.mod_pos_bound. done.
  - apply Z.mod_pos_bound. done.
  - apply Z.mod_pos_bound. done.
  - apply Z.mod_pos_bound. done.
Qed.

Lemma pow2_split a b : 0 ≤ a → 0 ≤ b → 2 ^ (a + b) = 2 ^ a * 2 ^ b.
Proof. apply Z.pow_add_r. Qed.

(** [Float32] signals are widened without rounding: for every finite [f32]
    pattern, subnormals included, the [f64] pattern has the same sign and
    exactly the same magnitude, and is itself finite. *)
Theorem f32_widen_exact (b : Z) :
  in_u 32 b → float_finite 8 23 b →
  in_u 64 (f32_widen b) ∧ float_finite 11 52 (f32_widen b) ∧
  float_sign 11 52 (f32_widen b) = float_sign 8 23 b ∧
  float_units 11 52 (f32_widen b) = float_units 8 23 b * 2 ^ (1074 - 149).
Proof.
  intros Hb Hf. destruct (f32_fields b Hb) as (Es & Ee & Em & Hs & He & Hm).
  unfold float_finite in *. unfold f32_widen. cbv zeta. rewrite Es, Ee, Em.
  unfold float_units. set (s := float_sign 8 23 b) in *. set (e := float_exp 8 23 b) in *.
  set (m := float_mant 23 b) in *. clearbody s e m. rewrite !Z.shiftl_mul_pow2 by done.
  destruct (Z.eqb_spec e 255); [done|].
  destruct (Z.eqb_spec e 0) as [->|He0].
  - destruct (Z.eqb_spec m 0) as [->|Hm0].
    + destruct (fields64 s 0 0) as (F1 & F2 & F3 & F4); [lia..|].
      rewrite Z.mul_0_l, !Z.add_0_r in *. by rewrite F1, F2, F3.
    + set (k := Z.log2 m). destruct (Z.log2_spec m) as [Hk1 Hk2]; [lia|]. fold k in Hk1, Hk2.
      assert (0 ≤ k) as Hk0 by apply Z.log2_nonneg.
      assert (k < 23) as Hk by (apply Z.log2_lt_pow2; lia).
      rewrite Z.shiftl_mul_pow2 by lia.
      assert (2 ^ 52 = 2 ^ k * 2 ^ (52 - k)) as H52
        by (rewrite <- pow2_split by lia; f_equal; lia).
      assert (0 ≤ (m - 2 ^ k) * 2 ^ (52 - k) < 2 ^ 52) as HM.
      { rewrite H52. rewrite Z.pow_succ_r in Hk2 by done.
        pose proof (Z.pow_pos_nonneg 2 (52 - k) ltac:(done) ltac:(lia)). nia. }
      destruct (fields64 s (k + 874) _ Hs ltac:(lia) HM) as (F1 & F2 & F3 & F4).
      rewrite F1, F2, F3. split_and!; [done|lia|done|].
      destruct (Z.eqb_spec (k + 874) 0); [lia|].
      rewrite H52. replace (1074 - 149) with ((52 - k) + (k + 874 - 1)) by lia.
      rewrite pow2_split by lia. ring.
  - rewrite ?Z.shiftl_mul_pow2 by done.
    destruct (fields64 s (e + 896) (m * 2 ^ 29)) as (F1 & F2 & F3 & F4); [lia..|].
    rewrite F1, F2, F3. split_and!; [done|lia|done|].
    destruct (Z.eqb_spec (e + 896) 0); [lia|].
    replace (1074 - 149) with (29 + 896) by lia.
    replace (e + 896 - 1) with ((e - 1) + 896) by lia.
    rewrite (pow2_split (e - 1) 896), (pow2_split 29 896) by lia.
    change (2 ^ 52) with (2 ^ 23 * 2 ^ 29). ring.
Qed.

Lemma f32_widen_exact_witness :
  float_units 11 52 (f32_widen 0x41B80000) = float_units 8 23 0x41B80000 * 2 ^ (1074 - 149).
Proof. apply f32_widen_exact; [done|]. by vm_compute. Defined.

End Can.
