(* ===== verification/Outbox.v ===== *)
(** * The durable outbox (libs/aether-store-local/src/{file_outbox,outbox}.rs)

    The store-and-forward queue: the port's data ([aether-ports/src/outbox.rs]),
    the in-memory adapter, and the journal-backed adapter with its record
    format, recovery and compaction.  The worker thread of [FileOutbox] runs one
    request at a time, so a request is one call of [Journal]; the exclusive lock
    file is not a modelled name.  Strings are their UTF-8 bytes. *)

From stdpp Require Import base tactics numbers list gmap strings.
From S2P Require Import Prelude Btree Fs.
Import Fs.
#[local] Open Scope Z_scope.

Module Outbox.

(** ** The port (aether-ports) *)

Inductive PortErrorKind :=
| Unavailable | Timeout | NotFoundKind | Rejected | InvalidData | Conflict | Permanent.

Record OutboxMessage := Message {
  destination : list Z;
  payload : list Z;
  created_at : Z }.
Record OutboxEntry := Entry { id : Z; message : OutboxMessage; attempts : Z }.

(** ** The in-memory adapter (outbox.rs) *)

Record MemoryOutbox := Memory { mo_capacity : nat; mo_next_id : Z; mo_entries : list OutboxEntry }.

Definition memory_with_capacity (capacity : nat) : MemoryOutbox := Memory capacity 1 [].

Definition memory_enqueue (m : OutboxMessage) (s : MemoryOutbox)
    : res PortErrorKind Z * MemoryOutbox :=
  if (mo_capacity s <=? length (mo_entries s))%nat then (Err Unavailable, s)
  else
    let id := mo_next_id s in
    match checked_add 64 (mo_next_id s) 1 with
    | None => (Err Permanent, s)
    | Some next_id =>
        (Ok id, Memory (mo_capacity s) next_id (mo_entries s ++ [Entry id m 0]))
    end.

Definition memory_peek (limit : nat) (s : MemoryOutbox) : res PortErrorKind (list OutboxEntry) :=
  Ok (take limit (mo_entries s)).

Definition memory_acknowledge (ids : list Z) (s : MemoryOutbox)
    : res PortErrorKind nat * MemoryOutbox :=
  let before := length (mo_entries s) in
  let kept := List.filter (fun e => negb (bool_decide (id e ∈ ids))) (mo_entries s) in
  (Ok (before - length kept)%nat, Memory (mo_capacity s) (mo_next_id s) kept).

(** ** Journal format (file_outbox.rs) *)

Definition FILE_MAGIC : list Z := [0x41; 0x45; 0x54; 0x48; 0x4F; 0x42; 0x58; 0x31].
Definition FILE_VERSION : Z := 1.
Definition FILE_HEADER_LEN : nat := 16.
Definition RECORD_MAGIC : Z := 0x58424F41.
Definition RECORD_HEADER_LEN : nat := 12.
Definition MAX_RECORD_LEN : Z := 16 * 1024 * 1024.
Definition MAX_CAPACITY : Z := (MAX_RECORD_LEN - 5) / 8.
Definition OP_ENQUEUE : Z := 1.
Definition OP_ACKNOWLEDGE : Z := 2.
Definition OP_CHECKPOINT : Z := 3.

(** [checksum]: CRC-32, reflected. *)
Definition crc_bit (crc : Z) : Z :=
  let mask := wrapping_sub 32 0 (Z.land crc 1) in
  Z.lxor (Z.shiftr crc 1) (Z.land 0xEDB88320 mask).
Definition crc_byte (crc byte : Z) : Z :=
  let crc := Z.lxor crc byte in
  crc_bit (crc_bit (crc_bit (crc_bit (crc_bit (crc_bit (crc_bit (crc_bit crc))))))).
Definition checksum (bytes : list Z) : Z :=
  Z.lxor (fold_left crc_byte bytes (u_max 32)) (u_max 32).

(** [String::from_utf8]: the well-formed byte sequences. *)
Definition cont (b : Z) : bool := (0x80 <=? b) && (b <=? 0xBF).
Fixpoint utf8_valid (l : list Z) : bool :=
  match l with
  | [] => true
  | b :: l1 =>
      if b <? 0x80 then utf8_valid l1
      else match l1 with
      | [] => false
      | b2 :: l2 =>
          if (0xC2 <=? b) && (b <=? 0xDF) then cont b2 && utf8_valid l2
          else match l2 with
          | [] => false
          | b3 :: l3 =>
              if (0xE0 <=? b) && (b <=? 0xEF) then
                cont b2 && cont b3 && (negb (b =? 0xE0) || (0xA0 <=? b2)) &&
                (negb (b =? 0xED) || (b2 <=? 0x9F)) && utf8_valid l3
              else match l3 with
              | [] => false
              | b4 :: l4 =>
                  (0xF0 <=? b) && (b <=? 0xF4) && cont b2 && cont b3 && cont b4 &&
                  (negb (b =? 0xF0) || (0x90 <=? b2)) &&
                  (negb (b =? 0xF4) || (b2 <=? 0x8F)) && utf8_valid l4
              end
          end
      end
  end.

Definition validate_record_size (payload : list Z) : res PortErrorKind unit :=
  if (length payload =? 0)%nat || (MAX_RECORD_LEN <? Z.of_nat (length payload))
  then Err InvalidData else Ok tt.

(** [u32::try_from(len)]. *)
Definition u32_len (l : list Z) : res PortErrorKind Z :=
  if u_max 32 <? Z.of_nat (length l) then Err InvalidData else Ok (Z.of_nat (length l)).

Definition encode_enqueue (e : OutboxEntry) : res PortErrorKind (list Z) :=
  destination_len ← u32_len (destination (message e));
  payload_len ← u32_len (payload (message e));
  let bytes := [OP_ENQUEUE] ++ le_bytes 8 (id e) ++ le_bytes 8 (created_at (message e)) ++
    le_bytes 4 (attempts e) ++ le_bytes 4 destination_len ++ le_bytes 4 payload_len ++
    destination (message e) ++ payload (message e) in
  _ ← validate_record_size bytes;
  Ok bytes.

Definition encode_acknowledge (ids : list Z) : res PortErrorKind (list Z) :=
  count ← u32_len ids;
  let bytes := [OP_ACKNOWLEDGE] ++ le_bytes 4 count ++ concat (map (le_bytes 8) ids) in
  _ ← validate_record_size bytes;
  Ok bytes.

Definition encode_checkpoint (next_id : Z) : list Z := [OP_CHECKPOINT] ++ le_bytes 8 next_id.

(** [ByteCursor]: the bytes not yet consumed. *)
Definition read_bytes (n : Z) (c : list Z) : res PortErrorKind (list Z * list Z) :=
  if n <=? Z.of_nat (length c) then Ok (take (Z.to_nat n) c, drop (Z.to_nat n) c)
  else Err InvalidData.
Definition read_uint (n : nat) (c : list Z) : res PortErrorKind (Z * list Z) :=
  '(bs, c) ← read_bytes (Z.of_nat n) c;
  Ok (le_val bs, c).
Definition finish (c : list Z) : res PortErrorKind unit :=
  if (length c =? 0)%nat then Ok tt else Err InvalidData.

Record Recovered := Rec { next_id : Z; entries : list (Z * OutboxEntry) }.

(** Removes the [count] identifiers of an acknowledgement record. *)
Fixpoint remove_acks (count : nat) (c : list Z) (m : list (Z * OutboxEntry))
    : res PortErrorKind (list (Z * OutboxEntry) * list Z) :=
  match count with
  | O => Ok (m, c)
  | S count =>
      '(i, c) ← read_uint 8 c;
      remove_acks count c (bt_remove i m)
  end.

Definition apply_record (p : list Z) (r : Recovered) : res PortErrorKind Recovered :=
  '(op, c) ← read_uint 1 p;
  if op =? OP_ENQUEUE then
    '(i, c) ← read_uint 8 c;
    '(ts, c) ← read_uint 8 c;
    '(att, c) ← read_uint 4 c;
    '(dlen, c) ← read_uint 4 c;
    '(plen, c) ← read_uint 4 c;
    '(dst, c) ← read_bytes dlen c;
    if negb (utf8_valid dst) then Err InvalidData
    else
      '(pl, c) ← read_bytes plen c;
      _ ← finish c;
      if bt_contains i (entries r) then Err InvalidData
      else
        next ← ok_or (checked_add 64 i 1) InvalidData;
        Ok (Rec (Z.max (next_id r) next)
                (bt_insert i (Entry i (Message dst pl ts) att) (entries r)))
  else if op =? OP_ACKNOWLEDGE then
    '(count, c) ← read_uint 4 c;
    (* a count larger than the record can hold fails at its first missing identifier *)
    if Z.of_nat (length c) <? 8 * count then Err InvalidData
    else
      '(m, c) ← remove_acks (Z.to_nat count) c (entries r);
      _ ← finish c;
      Ok (Rec (next_id r) m)
  else if op =? OP_CHECKPOINT then
    '(n, c) ← read_uint 8 c;
    _ ← finish c;
    if n =? 0 then Err InvalidData
    else Ok (Rec (Z.max (next_id r) n) (entries r))
  else Err InvalidData.

(** Header and payload of one record, as [write_record] emits them. *)
Definition record_header (p : list Z) : list Z :=
  le_bytes 4 RECORD_MAGIC ++ le_bytes 4 (Z.of_nat (length p)) ++ le_bytes 4 (checksum p).
Definition record_bytes (p : list Z) : list Z := record_header p ++ p.

Definition file_header : list Z := FILE_MAGIC ++ le_bytes 4 FILE_VERSION ++ replicate 4 0.

(** The record loop of [recover] on the bytes after [offset]: the state and the
    length of the valid prefix.  Every iteration consumes at least a header, so
    [length rest] is enough fuel. *)
Fixpoint recover_loop (fuel : nat) (offset : nat) (rest : list Z) (r : Recovered)
    : res PortErrorKind (Recovered * nat) :=
  match fuel with
  | O => Ok (r, offset)
  | S fuel =>
      if (length rest =? 0)%nat then Ok (r, offset)
      else if (length rest <? RECORD_HEADER_LEN)%nat then Ok (r, offset)
      else
        let magic := le_val (slice 0 4 rest) in
        if negb (magic =? RECORD_MAGIC) then Err InvalidData
        else
          let payload_len := le_val (slice 4 4 rest) in
          if (payload_len =? 0) || (MAX_RECORD_LEN <? payload_len) then Err InvalidData
          else
            let expected := le_val (slice 8 4 rest) in
            if Z.of_nat (length rest) <? 12 + payload_len then Ok (r, offset)
            else
              let n := Z.to_nat payload_len in
              let p := slice RECORD_HEADER_LEN n rest in
              if negb (checksum p =? expected) then
                if (length rest =? RECORD_HEADER_LEN + n)%nat then Ok (r, offset)
                else Err InvalidData
              else
                r ← apply_record p r;
                recover_loop fuel (offset + RECORD_HEADER_LEN + n)%nat
                  (drop (RECORD_HEADER_LEN + n)%nat rest) r
  end.

(** [recover] on the bytes of a non-empty journal. *)
Definition recover_bytes (bytes : list Z) : res PortErrorKind (Recovered * nat) :=
  if (length bytes <? FILE_HEADER_LEN)%nat then Err InvalidData
  else if negb (bool_decide (take 8 bytes = FILE_MAGIC)) then Err InvalidData
  else if negb (le_val (slice 8 4 bytes) =? FILE_VERSION) then Err InvalidData
  else
    let rest := drop FILE_HEADER_LEN bytes in
    recover_loop (length rest) FILE_HEADER_LEN rest (Rec 1 []).

(** [io_error]: the kinds this model's calls can fail with. *)
Definition io_error (k : io_kind) : PortErrorKind :=
  match k with AlreadyExists => Conflict | _ => Unavailable end.
Definition port_io := io PortErrorKind.

(** ** File operations *)

(** [seek(End(0))] yields the current length. *)
Definition seek_end (ino : nat) : port_io nat :=
  bytes ← sys_read io_error ino;
  mret (length bytes).

Definition write_record (ino off : nat) (p : list Z) : port_io unit :=
  _ ← lift (validate_record_size p);
  _ ← sys_write io_error ino off (record_header p);
  sys_write io_error ino (off + RECORD_HEADER_LEN) p.

(** The rollback on failure ignores its own errors. *)
Definition append_record (ino : nat) (p : list Z) : port_io unit :=
  _ ← lift (validate_record_size p);
  start ← seek_end ino;
  result ← attempt (_ ← write_record ino start p; sys_nop io_error);
  match result with
  | Ok _ => mret tt
  | _ =>
      _ ← attempt (sys_set_len io_error ino start);
      _ ← attempt (sys_nop io_error);
      _ ← attempt (sys_nop io_error);
      lift result
  end.

Definition write_file_header (ino : nat) : port_io unit :=
  _ ← sys_set_len io_error ino 0;
  _ ← sys_write io_error ino 0 file_header;
  sys_nop io_error.

Definition truncate_tail (ino valid_len : nat) : port_io unit :=
  _ ← sys_set_len io_error ino valid_len;
  _ ← sys_nop io_error;
  sys_nop io_error.

Definition recover (ino : nat) : port_io Recovered :=
  bytes ← sys_read io_error ino;
  if (length bytes =? 0)%nat then
    _ ← write_file_header ino;
    mret (Rec 1 [])
  else
    '(r, valid_len) ← lift (recover_bytes bytes);
    _ ← (if (valid_len <? length bytes)%nat then truncate_tail ino valid_len else mret tt);
    mret r.

(** ** The journal *)

Record Journal := Jrn {
  j_path : string;
  j_capacity : nat;
  j_ino : nat;
  j_next_id : Z;
  j_entries : list (Z * OutboxEntry);
  j_poisoned : bool }.

Definition sibling_path (path suffix : string) : string := path +:+ suffix.

(** [remove_file] of a leftover, absence being no error. *)
Definition remove_stale (path : string) : port_io unit := fun w =>
  match sys_remove (fun k => k) path w with
  | (Some (Ok _), w') | (Some (Err NotFound), w') => (Some (Ok tt), w')
  | (Some (Err k), w') => (Some (Err (io_error k)), w')
  | (Some Panic, w') => (Some Panic, w')
  | (None, w') => (None, w')
  end.

(** [Journal::open]; creating the directory and taking the lock come first. *)
Definition journal_open (path : string) (capacity : nat) : port_io Journal :=
  _ ← sys_nop io_error;
  _ ← sys_nop io_error;
  _ ← remove_stale (sibling_path path ".compact.tmp");
  ino ← sys_create io_error false path;
  recovered ← recover ino;
  _ ← sys_nop io_error;
  mret (Jrn path capacity ino (next_id recovered) (entries recovered) false).

(** [FileOutbox::open]. *)
Definition outbox_open (path : string) (capacity : nat) : port_io Journal :=
  if (capacity =? 0)%nat then fail InvalidData
  else if MAX_CAPACITY <? Z.of_nat capacity then fail InvalidData
  else journal_open path capacity.

Definition ensure_healthy (j : Journal) : port_io unit :=
  if j_poisoned j then fail Permanent else mret tt.

(** [Journal::enqueue]; an error leaves the in-memory state as it was. *)
Definition journal_enqueue (m : OutboxMessage) (j : Journal) : port_io (Z * Journal) :=
  _ ← ensure_healthy j;
  if (j_capacity j <=? length (j_entries j))%nat then fail Unavailable
  else
    let i := j_next_id j in
    next ← lift (ok_or (checked_add 64 (j_next_id j) 1) Permanent);
    let e := Entry i m 0 in
    p ← lift (encode_enqueue e);
    _ ← append_record (j_ino j) p;
    mret (i, Jrn (j_path j) (j_capacity j) (j_ino j) next (bt_insert i e (j_entries j)) false).

(** [Journal::peek]. *)
Definition journal_peek (limit : nat) (j : Journal) : port_io (list OutboxEntry) :=
  _ ← ensure_healthy j;
  mret (take limit (map snd (j_entries j))).

Definition remove_all (ids : list Z) (m : list (Z * OutboxEntry)) : list (Z * OutboxEntry) :=
  fold_left (fun m i => bt_remove i m) ids m.

(** [Journal::acknowledge]. *)
Definition journal_acknowledge (ids : list Z) (j : Journal) : port_io (nat * Journal) :=
  _ ← ensure_healthy j;
  let existing := btset_of (List.filter (fun i => bt_contains i (j_entries j)) ids) in
  if (length existing =? 0)%nat then mret (0%nat, j)
  else
    p ← lift (encode_acknowledge existing);
    _ ← append_record (j_ino j) p;
    mret (length existing,
          Jrn (j_path j) (j_capacity j) (j_ino j) (j_next_id j)
              (remove_all existing (j_entries j)) false).

(** Successive [write_record] calls at the file's cursor. *)
Fixpoint write_entries (ino off : nat) (es : list OutboxEntry) : port_io unit :=
  match es with
  | [] => mret tt
  | e :: es =>
      p ← lift (encode_enqueue e);
      _ ← write_record ino off p;
      write_entries ino (off + length (record_bytes p)) es
  end.

(** The part of [compact] up to and including the rename. *)
Definition compact_file (j : Journal) : port_io unit :=
  let temp_path := sibling_path (j_path j) ".compact.tmp" in
  temp ← sys_create io_error true temp_path;
  _ ← write_file_header temp;
  let checkpoint := encode_checkpoint (j_next_id j) in
  _ ← write_record temp FILE_HEADER_LEN checkpoint;
  _ ← write_entries temp (FILE_HEADER_LEN + length (record_bytes checkpoint))
        (map snd (j_entries j));
  _ ← sys_nop io_error;
  sys_rename io_error temp_path (j_path j).

(** [Journal::compact]: reopening after the rename may poison the journal, so
    the state is returned with the result. *)
Definition journal_compact (j : Journal) : port_io (res PortErrorKind unit * Journal) :=
  r ← attempt (_ ← ensure_healthy j; compact_file j);
  match r with
  | Ok _ =>
      replacement ← attempt (ino ← sys_create io_error false (j_path j);
                             _ ← sys_nop io_error; mret ino);
      match replacement with
      | Ok ino =>
          let j := Jrn (j_path j) (j_capacity j) ino (j_next_id j) (j_entries j) (j_poisoned j) in
          synced ← attempt (_ ← sys_nop io_error; sys_nop io_error);
          mret (synced, j)
      | Err e =>
          mret (Err e, Jrn (j_path j) (j_capacity j) (j_ino j) (j_next_id j) (j_entries j) true)
      | Panic => lift Panic
      end
  | Err e => mret (Err e, j)
  | Panic => lift Panic
  end.

(** ** Records round-trip *)

(** What the Rust types guarantee of an entry. *)
Definition message_ok (m : OutboxMessage) : Prop :=
  in_u 64 (created_at m) ∧ bytes_ok (destination m) ∧ bytes_ok (payload m) ∧
  utf8_valid (destination m) = true.
Definition entry_ok (e : OutboxEntry) : Prop :=
  in_u 64 (id e) ∧ in_u 32 (attempts e) ∧ message_ok (message e).

(** A payload [write_record] accepts. *)
Definition payload_ok (p : list Z) : Prop :=
  bytes_ok p ∧ (0 < length p)%nat ∧ Z.of_nat (length p) ≤ MAX_RECORD_LEN.

Lemma crc_bit_in_u x : in_u 32 x → in_u 32 (crc_bit x).
Proof.
  intros Hx. unfold crc_bit. apply lxor_in_u; [done|by apply shiftr_in_u|].
  apply land_in_u; [done|done|]. apply wrap_in_u. done.
Qed.

Lemma checksum_in_u l : bytes_ok l → in_u 32 (checksum l).
Proof.
  intros Hl. unfold checksum. apply lxor_in_u; [done| |done].
  enough (∀ c, in_u 32 c → in_u 32 (fold_left crc_byte l c)) as H by (by apply H).
  induction Hl as [|b l Hb _ IH]; intros c Hc; cbn [fold_left]; [done|].
  apply IH. unfold crc_byte. do 8 apply crc_bit_in_u. apply lxor_in_u; [done|done|].
  unfold in_u in *. lia.
Qed.

Lemma read_bytes_app l rest :
  read_bytes (Z.of_nat (length l)) (l ++ rest) = Ok (l, rest).
Proof.
  unfold read_bytes. rewrite length_app, Nat2Z.id.
  destruct (Z.leb_spec (Z.of_nat (length l)) (Z.of_nat (length l + length rest))); [|lia].
  by rewrite take_app_length, drop_app_length.
Qed.

Lemma read_uint_app n x rest :
  in_u (8 * Z.of_nat n) x → read_uint n (le_bytes n x ++ rest) = Ok (x, rest).
Proof.
  intros Hx. unfold read_uint.
  pose proof (read_bytes_app (le_bytes n x) rest) as H. rewrite length_le_bytes in H.
  rewrite H. cbn [mbind res_bind]. by rewrite le_val_le_bytes_small.
Qed.

Lemma read_op op rest : read_uint 1 ([op] ++ rest) = Ok (op, rest).
Proof.
  unfold read_uint. pose proof (read_bytes_app [op] rest) as H. cbn [length] in H.
  rewrite H. cbn [mbind res_bind le_val]. do 2 f_equal. lia.
Qed.

Lemma u32_len_Ok l n : u32_len l = Ok n → n = Z.of_nat (length l) ∧ in_u 32 n.
Proof.
  unfold u32_len. destruct (Z.ltb_spec (u_max 32) (Z.of_nat (length l))); [done|].
  intros [= <-]. split; [done|]. unfold in_u, u_max in *. lia.
Qed.

Lemma validate_record_size_Ok p : validate_record_size p = Ok tt ↔
  (0 < length p)%nat ∧ Z.of_nat (length p) ≤ MAX_RECORD_LEN.
Proof.
  unfold validate_record_size. destruct (Nat.eqb_spec (length p) 0), (Z.ltb_spec MAX_RECORD_LEN
    (Z.of_nat (length p))); cbn; split; try done; try lia.
Qed.

Ltac res_Ok H :=
  repeat match type of H with
  | _ ≫= _ = Ok _ => apply res_bind_Ok in H as (? & ? & H)
  end.

Lemma apply_enqueue e p r :
  entry_ok e → encode_enqueue e = Ok p → id e + 1 < 2 ^ 64 →
  bt_contains (id e) (entries r) = false →
  apply_record p r = Ok (Rec (Z.max (next_id r) (id e + 1)) (bt_insert (id e) e (entries r))).
Proof.
  intros (Hid & Hatt & Hts & Hdb & Hpb & Hutf) Henc Hmax Hnew.
  unfold encode_enqueue in Henc. res_Ok Henc. apply Ok_inj in Henc as <-.
  apply u32_len_Ok in H as [-> Hdl], H0 as [-> Hpl].
  unfold apply_record.
  rewrite read_op. cbn [mbind res_bind]. rewrite Z.eqb_refl.
  rewrite (read_uint_app 8) by done. cbn [mbind res_bind].
  rewrite (read_uint_app 8) by done. cbn [mbind res_bind].
  rewrite (read_uint_app 4) by done. cbn [mbind res_bind].
  rewrite (read_uint_app 4) by done. cbn [mbind res_bind].
  rewrite (read_uint_app 4) by done. cbn [mbind res_bind].
  rewrite read_bytes_app. cbn [mbind res_bind]. rewrite Hutf. cbn [negb].
  rewrite <- (app_nil_r (payload (message e))) at 2. rewrite read_bytes_app.
  cbn [mbind res_bind finish length Nat.eqb]. rewrite Hnew. unfold checked_add.
  apply Z.ltb_lt in Hmax as ->. cbn [ok_or mbind res_bind]. by destruct e as [? [] ?].
Qed.

Lemma remove_acks_app ids m :
  Forall (in_u 64) ids →
  remove_acks (length ids) (concat (map (le_bytes 8) ids)) m = Ok (remove_all ids m, []).
Proof.
  intros H. revert m. induction H as [|i ids Hi _ IH]; intros m; [done|].
  cbn [length map concat remove_acks]. rewrite (read_uint_app 8) by done.
  cbn [mbind res_bind]. by rewrite IH.
Qed.

Lemma length_ack_ids (ids : list Z) :
  length (concat (map (le_bytes 8) ids)) = (8 * length ids)%nat.
Proof. induction ids as [|i ids IH]; cbn [map concat length]; [done|]. rewrite length_app, IH, length_le_bytes. lia. Qed.

Lemma apply_acknowledge ids p r :
  Forall (in_u 64) ids → encode_acknowledge ids = Ok p →
  apply_record p r = Ok (Rec (next_id r) (remove_all ids (entries r))).
Proof.
  intros Hids Henc. unfold encode_acknowledge in Henc. res_Ok Henc. apply Ok_inj in Henc as <-.
  apply u32_len_Ok in H as [-> Hc].
  unfold apply_record.
  rewrite read_op. cbn [mbind res_bind].
  change (OP_ACKNOWLEDGE =? OP_ENQUEUE) with false. rewrite Z.eqb_refl. cbv iota.
  rewrite (read_uint_app 4) by done. cbn [mbind res_bind]. rewrite length_ack_ids.
  destruct (Z.ltb_spec (Z.of_nat (8 * length ids)) (8 * Z.of_nat (length ids))); [lia|].
  by rewrite Nat2Z.id, remove_acks_app.
Qed.

Lemma apply_checkpoint n r :
  in_u 64 n → n ≠ 0 →
  apply_record (encode_checkpoint n) r = Ok (Rec (Z.max (next_id r) n) (entries r)).
Proof.
  intros Hn H0. unfold apply_record, encode_checkpoint.
 
  rewrite read_op. cbn [mbind res_bind].
  change (OP_CHECKPOINT =? OP_ENQUEUE) with false.
  change (OP_CHECKPOINT =? OP_ACKNOWLEDGE) with false. rewrite Z.eqb_refl. cbv iota.
  rewrite <- (app_nil_r (le_bytes 8 n)), (read_uint_app 8) by done. cbn [mbind res_bind finish].
  cbn. by apply Z.eqb_neq in H0 as ->.
Qed.

(** ** Recovery *)

(** The records of a journal, applied in order. *)
Fixpoint replay (ps : list (list Z)) (r : Recovered) : res PortErrorKind Recovered :=
  match ps with
  | [] => Ok r
  | p :: ps => r ← apply_record p r; replay ps r
  end.

Definition records (ps : list (list Z)) : list Z := concat (map record_bytes ps).
Definition journal_file (ps : list (list Z)) : list Z := file_header ++ records ps.

(** What an interrupted [write_record] may leave at the end of the file. *)
Definition torn (t : list Z) : Prop :=
  ∃ p k, payload_ok p ∧ (k < length (record_bytes p))%nat ∧ t = take k (record_bytes p).

Lemma length_record_header p : length (record_header p) = RECORD_HEADER_LEN.
Proof. unfold record_header. by autorewrite with len. Qed.

Lemma length_record_bytes p : length (record_bytes p) = (RECORD_HEADER_LEN + length p)%nat.
Proof. unfold record_bytes. by rewrite length_app, length_record_header. Qed.

Lemma payload_len_in_u p : payload_ok p → in_u 32 (Z.of_nat (length p)).
Proof. intros (_ & _ & H). unfold in_u, MAX_RECORD_LEN in *. lia. Qed.

(** The fields a reader finds in a record header. *)
Lemma record_header_fields p rest :
  payload_ok p →
  le_val (slice 0 4 (record_header p ++ rest)) = RECORD_MAGIC ∧
  le_val (slice 4 4 (record_header p ++ rest)) = Z.of_nat (length p) ∧
  le_val (slice 8 4 (record_header p ++ rest)) = checksum p.
Proof.
  intros Hp. pose proof (payload_len_in_u p Hp) as Hl.
  pose proof (checksum_in_u p (proj1 Hp)) as Hc.
  split_and!; [done|by apply (le_val_le_bytes_small 4)|by apply (le_val_le_bytes_small 4)].
Qed.

Lemma record_len_checks p :
  payload_ok p → (Z.of_nat (length p) =? 0) || (MAX_RECORD_LEN <? Z.of_nat (length p)) = false.
Proof.
  intros (_ & H1 & H2). apply orb_false_intro; [apply Z.eqb_neq; lia|apply Z.ltb_ge; lia].
Qed.

Lemma slice_take m off n (l : list Z) : (off + n ≤ m)%nat → slice off n (take m l) = slice off n l.
Proof.
  intros. unfold slice. rewrite skipn_firstn_comm, take_take. f_equal. lia.
Qed.

(** One complete record at the front of the remaining bytes. *)
Lemma recover_loop_record fuel off p rest r :
  payload_ok p →
  recover_loop (S fuel) off (record_bytes p ++ rest) r =
  (r ← apply_record p r; recover_loop fuel (off + length (record_bytes p))%nat rest r).
Proof.
  intros Hp. cbn [recover_loop]. rewrite length_app, length_record_bytes.
  destruct (Nat.eqb_spec (RECORD_HEADER_LEN + length p + length rest) 0) as [H|_];
    [unfold RECORD_HEADER_LEN in H; lia|].
  destruct (Nat.ltb_spec (RECORD_HEADER_LEN + length p + length rest) RECORD_HEADER_LEN); [lia|].
  assert (record_bytes p ++ rest = record_header p ++ p ++ rest) as ->
    by (unfold record_bytes; by rewrite <- app_assoc).
  destruct (record_header_fields p (p ++ rest) Hp) as (-> & -> & ->).
  rewrite Z.eqb_refl, record_len_checks by done. cbn [negb].
  destruct (Z.ltb_spec (Z.of_nat (RECORD_HEADER_LEN + length p + length rest))
    (12 + Z.of_nat (length p))); [unfold RECORD_HEADER_LEN in *; lia|].
  rewrite Nat2Z.id, slice_app_mid by (by rewrite ?length_record_header).
  rewrite Z.eqb_refl. cbn [negb].
  rewrite app_assoc, drop_app_length' by (by rewrite length_app, length_record_header).
  by rewrite Nat.add_assoc.
Qed.

(** A torn record at the end is dropped. *)
Lemma recover_loop_torn fuel off t r : torn t → recover_loop fuel off t r = Ok (r, off).
Proof.
  intros (p & k & Hp & Hk & ->). destruct fuel as [|fuel]; [done|]. cbn [recover_loop].
  rewrite length_record_bytes in Hk. rewrite length_take, length_record_bytes, Nat.min_l by lia.
  destruct (Nat.eqb_spec k 0); [done|]. destruct (Nat.ltb_spec k RECORD_HEADER_LEN); [done|].
  unfold RECORD_HEADER_LEN in *. rewrite (slice_take k 0 4), (slice_take k 4 4) by lia.
  unfold record_bytes. destruct (record_header_fields p p Hp) as (-> & -> & _).
  rewrite Z.eqb_refl, record_len_checks by done. cbn [negb].
  by destruct (Z.ltb_spec (Z.of_nat k) (12 + Z.of_nat (length p))); [|lia].
Qed.

Lemma torn_nil : torn [].
Proof. exists [0], 0%nat. split; [|by split; [rewrite length_record_bytes; cbn; lia|]].
  split_and!; [by repeat constructor|cbn; lia|done].
Qed.

(** Complete records in front of anything: the loop replays them and goes on. *)
Lemma recover_loop_prefix ps rest fuel off r r' :
  Forall payload_ok ps → replay ps r = Ok r' → (length (records ps ++ rest) ≤ fuel)%nat →
  ∃ fuel', (length rest ≤ fuel')%nat ∧
    recover_loop fuel off (records ps ++ rest) r =
    recover_loop fuel' (off + length (records ps)) rest r'.
Proof.
  intros Hps. revert fuel off r. induction Hps as [|p ps Hp _ IH]; intros fuel off r Hr Hf.
  { cbn [replay records map concat app length] in *. apply Ok_inj in Hr as <-.
    exists fuel. by rewrite Nat.add_0_r. }
  unfold records in *. cbn [replay map concat] in *. rewrite <- app_assoc in *.
  apply res_bind_Ok in Hr as (r1 & H1 & H2).
  rewrite length_app, length_record_bytes in Hf.
  destruct fuel as [|fuel]; [unfold RECORD_HEADER_LEN in Hf; lia|].
  rewrite recover_loop_record, H1 by done. cbn [mbind res_bind].
  destruct (IH fuel (off + length (record_bytes p))%nat r1 H2) as (fuel' & Hf' & ->);
    [unfold RECORD_HEADER_LEN in Hf; lia|].
  exists fuel'. split; [done|]. rewrite (length_app (record_bytes p)). f_equal. lia.
Qed.

Lemma recover_bytes_journal ps rest r :
  Forall payload_ok ps → replay ps (Rec 1 []) = Ok r →
  ∃ fuel, (length rest ≤ fuel)%nat ∧
    recover_bytes (journal_file ps ++ rest) =
    recover_loop fuel (length (journal_file ps)) rest r.
Proof.
  intros Hps Hr. unfold recover_bytes, journal_file. rewrite <- app_assoc.
  destruct (Nat.ltb_spec (length (file_header ++ records ps ++ rest)) FILE_HEADER_LEN) as [H|_].
  { rewrite length_app in H. change (length file_header) with FILE_HEADER_LEN in H. lia. }
  change (take 8 (file_header ++ records ps ++ rest)) with FILE_MAGIC.
  rewrite bool_decide_true by done. cbn [negb].
  change (le_val (slice 8 4 (file_header ++ records ps ++ rest))) with FILE_VERSION.
  rewrite Z.eqb_refl. cbn [negb].
  change (drop FILE_HEADER_LEN (file_header ++ records ps ++ rest)) with (records ps ++ rest).
  rewrite (length_app file_header). by apply (recover_loop_prefix ps rest _ FILE_HEADER_LEN).
Qed.

(** A journal file made of complete records followed by anything an interrupted
    append may have left recovers to exactly the state the records describe. *)
Lemma recover_journal ps t r :
  Forall payload_ok ps → torn t → replay ps (Rec 1 []) = Ok r →
  recover_bytes (journal_file ps ++ t) = Ok (r, length (journal_file ps)).
Proof.
  intros Hps Ht Hr. destruct (recover_bytes_journal ps t r Hps Hr) as (fuel & _ & ->).
  by apply recover_loop_torn.
Qed.

(** ** Appending *)

Lemma put_bytes_end w ino l bs :
  file_bytes w ino = l → file_bytes (put_bytes ino (length l) bs w) ino = l ++ bs.
Proof. intros H. unfold put_bytes. rewrite file_bytes_insert, H. apply write_bytes_app. Qed.

Lemma resize_prefix (l t : list Z) : resize (length l) (l ++ t) = l.
Proof.
  unfold resize. rewrite take_app_length, length_app.
  replace (length l - (length l + length t))%nat with 0%nat by lia. apply app_nil_r.
Qed.

(** A partially written record, in terms of its two writes. *)
Lemma take_header_part k p :
  take k (record_header p) = take (Nat.min k RECORD_HEADER_LEN) (record_bytes p).
Proof.
  unfold record_bytes. rewrite take_app_le by (rewrite length_record_header; lia).
  destruct (Nat.le_gt_cases k RECORD_HEADER_LEN); [by rewrite Nat.min_l|].
  rewrite Nat.min_r by lia. rewrite !take_ge by (rewrite length_record_header; lia). done.
Qed.

Lemma take_payload_part k p :
  record_header p ++ take k p = take (RECORD_HEADER_LEN + k) (record_bytes p).
Proof. unfold record_bytes. by rewrite <- (length_record_header p), take_app_add. Qed.

Section Append.
Context (ino : nat) (l p : list Z).
Hypothesis Hp : payload_ok p.

Definition partial (w w' : world) : Prop :=
  w_names w' = w_names w ∧ ∃ k, file_bytes w' ino = l ++ take k (record_bytes p).

Lemma wp_write_synced w :
  file_bytes w ino = l →
  wp (_ ← write_record ino (length l) p; sys_nop io_error)
    (fun r w' => match r with
       | Ok _ => w_names w' = w_names w ∧ file_bytes w' ino = l ++ record_bytes p
       | Err _ => partial w w' ∧ (budget w' < budget w)%nat
       | Panic => False
       end)
    (partial w) w.
Proof.
  intros Hl. unfold write_record.
  rewrite (proj2 (validate_record_size_Ok p)) by (by destruct Hp as (_ & ?)).
  assert (∀ k fs, partial w (put_bytes ino (length l) (take k (record_header p))
                                       (with_faults fs w))) as Hhead.
  { intros k fs. split; [done|]. eexists. rewrite put_bytes_end by done. by rewrite take_header_part. }
  do 5 (wp_bstep; cbv beta iota); [|split; [apply Hhead|exact H]|apply Hhead].
  set (w1 := put_bytes _ _ _ _).
  assert (file_bytes w1 ino = l ++ record_header p) as Hw1 by (by apply put_bytes_end).
  assert (length l + RECORD_HEADER_LEN = length (l ++ record_header p))%nat as ->
    by (by rewrite length_app, length_record_header).
  assert (∀ k fs', partial w (put_bytes ino (length (l ++ record_header p)) (take k p)
                                        (with_faults fs' w1))) as Hbody.
  { intros k fs'. split; [done|]. eexists. rewrite put_bytes_end by done.
    by rewrite <- app_assoc, take_payload_part. }
  assert (∀ fs', partial w (put_bytes ino (length (l ++ record_header p)) p
                                      (with_faults fs' w1))) as Hfull.
  { intros fs'. rewrite <- (firstn_all p) at 2. apply Hbody. }
  assert (∀ fs', file_bytes (put_bytes ino (length (l ++ record_header p)) p
                               (with_faults fs' w1)) ino = l ++ record_bytes p) as Hdone.
  { intros fs'. rewrite put_bytes_end by done. by rewrite <- app_assoc. }
  assert (budget (with_faults fs w) ≤ budget w)%nat as Hb1 by done.
  wp_bstep; cbv beta iota; [|split; [apply Hbody|]|apply Hbody].
  - wp_bstep; [split; [done|apply Hdone]|split; [apply Hfull|]|apply Hfull].
    change (budget (with_faults fs1 w1) < budget w)%nat. unfold budget in *. cbn in *. lia.
  - unfold budget in *. cbn in *. lia.
Qed.

Lemma wp_append w :
  file_bytes w ino = l →
  wp (append_record ino p)
    (fun r w' => match r with
       | Ok _ => w_names w' = w_names w ∧ file_bytes w' ino = l ++ record_bytes p
       | Err _ => (partial w w' ∧ (0 < budget w)%nat) ∧
                  ((budget w ≤ 1)%nat → w_names w' = w_names w ∧ file_bytes w' ino = l)
       | Panic => False
       end)
    (partial w) w.
Proof.
  intros Hl. unfold append_record, seek_end.
  rewrite (proj2 (validate_record_size_Ok p)) by (by destruct Hp as (_ & ?)).
  assert (∀ fs, partial w (with_faults fs w)) as H0.
  { intros fs. split; [done|]. exists 0%nat. by rewrite take_0, app_nil_r. }
  do 5 (wp_bstep; cbv beta iota); [|by split; [split; [apply H0|lia]|]|by apply H0].
  wp_bstep; cbv beta iota. rewrite Hl. do 2 (wp_bstep; cbv beta iota).
  eapply wp_mono; [by apply wp_write_synced| |done]. cbv beta.
  intros [[]|e|] w1; cbv beta iota; [by intros []|intros [Hpart Hb1]|done].
  assert (∀ w2, w_names w2 = w_names w1 → file_bytes w2 ino = file_bytes w1 ino → partial w w2)
    as Hstay by (intros w2 Hn Hf; unfold partial; by rewrite Hn, Hf).
  assert (∀ fs', w_names (with_data (<[ino := resize (length l) (file_bytes w1 ino)]> (w_data w1))
                   (with_faults fs' w1)) = w_names w ∧
            file_bytes (with_data (<[ino := resize (length l) (file_bytes w1 ino)]> (w_data w1))
                   (with_faults fs' w1)) ino = l) as Hback.
  { intros fs'. destruct Hpart as [Hn [k Hk]]. split; [done|].
    erewrite file_bytes_eq by (cbn; apply lookup_insert_eq). rewrite Hk. apply resize_prefix. }
  assert (∀ w2, w_names w2 = w_names w ∧ file_bytes w2 ino = l → partial w w2) as Hold.
  { intros w2 [Hn Hf]. split; [done|]. exists 0%nat. by rewrite take_0, app_nil_r. }
  assert (0 < budget w)%nat as Hpos.
  { assert (budget (with_faults fs w) ≤ budget w)%nat by done. lia. }
  set (Post := fun w2 => (partial w w2 ∧ (0 < budget w)%nat) ∧
    ((budget w ≤ 1)%nat → w_names w2 = w_names w ∧ file_bytes w2 ino = l)).
  assert (∀ w2, Post w2 → wp (_ ← attempt (sys_nop io_error); _ ← attempt (sys_nop io_error);
    lift (@Err PortErrorKind unit e)) (fun r w' => match r with
       | Ok _ => w_names w' = w_names w ∧ file_bytes w' ino = l ++ record_bytes p
       | Err _ => Post w'
       | Panic => False
       end) (partial w) w2) as Htail.
  { intros w2 HP. wp_go; first [exact HP | exact (proj1 (proj1 HP))]. }
  do 3 (wp_bstep; cbv beta iota); [apply Htail|apply Htail|by apply Hstay].
  - split; [split; [apply Hold, Hback|done]|intros _; apply Hback].
  - split; [by split; [apply Hstay|]|]. intros Hle.
    assert (budget (with_faults fs w) ≤ budget w)%nat by done. unfold budget in *. cbn in *. lia.
Qed.

End Append.

(** ** The journal as a durable object *)

Definition state (j : Journal) : Recovered := Rec (j_next_id j) (j_entries j).

(** Entries are keyed by their identifier, in order, below [next_id]. *)
Definition state_ok (r : Recovered) : Prop :=
  bt_sorted (entries r) ∧
  Forall (fun p => fst p = id (snd p) ∧ entry_ok (snd p) ∧ fst p < next_id r) (entries r) ∧
  1 ≤ next_id r < 2 ^ 64.

(** The file at the journal's path holds exactly the records of its state. *)
Definition journal_inv (j : Journal) (w : world) : Prop :=
  j_poisoned j = false ∧ w_names w !! j_path j = Some (j_ino j) ∧ state_ok (state j) ∧
  ∃ ps, Forall payload_ok ps ∧ file_bytes w (j_ino j) = journal_file ps ∧
        replay ps (Rec 1 []) = Ok (state j).

(** What a restart would find. *)
Definition recovers (w : world) (path : string) (r : Recovered) : Prop :=
  ∃ bytes n, path_bytes w path = Some bytes ∧ recover_bytes bytes = Ok (r, n).

Lemma replay_app ps ps' r : replay (ps ++ ps') r = replay ps r ≫= replay ps'.
Proof.
  revert r. induction ps as [|p ps IH]; intros r; cbn [replay app]; [done|].
  destruct (apply_record p r) as [r'| |]; cbn [mbind res_bind]; [apply IH|done|done].
Qed.

Lemma replay_snoc ps p r r1 r2 :
  replay ps r = Ok r1 → apply_record p r1 = Ok r2 → replay (ps ++ [p]) r = Ok r2.
Proof.
  intros H1 H2. rewrite replay_app, H1. cbn [mbind res_bind replay]. by rewrite H2.
Qed.

Lemma journal_file_snoc ps p : journal_file (ps ++ [p]) = journal_file ps ++ record_bytes p.
Proof.
  unfold journal_file, records. rewrite map_app, concat_app. cbn [map concat].
  by rewrite app_nil_r, app_assoc.
Qed.

Lemma inv_recovers j w : journal_inv j w → recovers w (j_path j) (state j).
Proof.
  intros (_ & Hn & _ & ps & Hps & Hf & Hr). eexists _, _. unfold path_bytes. rewrite Hn, Hf.
  split; [done|]. rewrite <- (app_nil_r (journal_file ps)) at 1.
  by apply recover_journal; [|apply torn_nil|].
Qed.

(** A partially appended record: the old or the new state. *)
Lemma partial_recovers ino ps p path r1 r2 (w w' : world) :
  Forall payload_ok ps → payload_ok p → replay ps (Rec 1 []) = Ok r1 →
  apply_record p r1 = Ok r2 → w_names w !! path = Some ino →
  partial ino (journal_file ps) p w w' → recovers w' path r1 ∨ recovers w' path r2.
Proof.
  intros Hps Hp Hr1 Hr2 Hn [Hn' [k Hk]]. unfold recovers, path_bytes. rewrite Hn', Hn, Hk.
  destruct (Nat.lt_ge_cases k (length (record_bytes p))) as [Hlt|Hge].
  - left. eexists _, _. split; [done|]. apply recover_journal; [done| |done]. by exists p, k.
  - right. eexists _, _. split; [done|]. rewrite take_ge, <- journal_file_snoc by done.
    rewrite <- (app_nil_r (journal_file _)) at 1. apply recover_journal; [|apply torn_nil|].
    + apply Forall_app. by split; [|constructor].
    + by apply (replay_snoc ps p _ r1).
Qed.

Lemma encode_enqueue_ok e p : entry_ok e → encode_enqueue e = Ok p → payload_ok p.
Proof.
  intros (Hid & Hatt & Hts & Hdb & Hpb & _) Henc. unfold encode_enqueue in Henc. res_Ok Henc.
  apply Ok_inj in Henc as <-. destruct x1. apply validate_record_size_Ok in H1.
  split; [|done]. apply Forall_cons. split; [done|].
  repeat (apply bytes_ok_app; split; [by auto with bytes|]). done.
Qed.

Lemma encode_enqueue_no_panic e : encode_enqueue e ≠ Panic.
Proof. unfold encode_enqueue, u32_len, validate_record_size. no_panic. Qed.

Lemma state_ok_below r : state_ok r → Forall (fun p => fst p < next_id r) (entries r).
Proof. intros (_ & H & _). eapply Forall_impl; [exact H|]. cbn. tauto. Qed.

Lemma state_ok_push r e :
  state_ok r → id e = next_id r → entry_ok e → next_id r + 1 < 2 ^ 64 →
  state_ok (Rec (next_id r + 1) (entries r ++ [(id e, e)])).
Proof.
  intros Hok Hid He Hn. pose proof (state_ok_below r Hok) as Hb. destruct Hok as (Hs & Hf & Hr).
  split; [|split; [|cbn [next_id]; lia]]; cbn [entries next_id].
  - apply bt_sorted_app_last; [done|]. by rewrite Hid.
  - apply Forall_app. split; [|constructor; [|done]].
    + eapply Forall_impl; [exact Hf|]. cbn. intros p (H1 & H2 & H3). split_and!; [done|done|lia].
    + cbn. split_and!; [done|done|lia].
Qed.

Lemma wp_journal_enqueue (m : OutboxMessage) (j : Journal) (w : world) :
  journal_inv j w → message_ok m →
  let i := j_next_id j in
  let new := Rec (i + 1) (j_entries j ++ [(i, Entry i m 0)]) in
  wp (journal_enqueue m j)
    (fun r w' => match r with
       | Ok (i', j') => i' = i ∧ state j' = new ∧ journal_inv j' w'
       | Err _ => (recovers w' (j_path j) (state j) ∨ recovers w' (j_path j) new) ∧
                  ((budget w ≤ 1)%nat → journal_inv j w')
       | Panic => False
       end)
    (fun w' => recovers w' (j_path j) (state j) ∨ recovers w' (j_path j) new) w.
Proof.
  intros Hinv Hm i new. pose proof Hinv as (Hpois & Hname & Hst & ps & Hps & Hfile & Hrep).
  pose proof (inv_recovers j w Hinv) as Hold.
  unfold journal_enqueue, ensure_healthy. rewrite Hpois.
  apply wp_bind, wp_ret. cbv beta iota.
  destruct (Nat.leb_spec (j_capacity j) (length (j_entries j))); [by split; [left|]|].
  cbv zeta. apply wp_bind, wp_lift. unfold checked_add.
  destruct (Z.ltb_spec (j_next_id j + 1) (2 ^ 64)) as [Hmax|]; cbn [ok_or];
    [|by split; [left|]].
  apply wp_bind, wp_lift. fold i.
  assert (entry_ok (Entry i m 0)) as He.
  { split_and!; [|done|apply Hm..]. destruct Hst as (_ & _ & Hr). cbn in Hr. unfold in_u. cbn. lia. }
  destruct (encode_enqueue _) as [p|e|] eqn:Henc; [|by split; [left|]|].
  2: by apply encode_enqueue_no_panic in Henc.
  assert (payload_ok p) as Hp by (by eapply encode_enqueue_ok).
  assert (bt_insert i (Entry i m 0) (j_entries j) = j_entries j ++ [(i, Entry i m 0)]) as Hins
    by (apply bt_insert_last, (state_ok_below (state j)), Hst).
  assert (apply_record p (state j) = Ok new) as Happ.
  { rewrite (apply_enqueue (Entry i m 0)); [|done|done|done|].
    - unfold new. cbn [id state next_id entries]. fold i. rewrite Hins. do 2 f_equal. lia.
    - apply bt_contains_above, (state_ok_below (state j)), Hst. }
  apply wp_bind. eapply wp_mono; [by apply (wp_append (j_ino j) (journal_file ps) p Hp)| |].
  2:{ intros w'. by apply partial_recovers. }
  intros [[]|e|] w'; cbv beta iota; [intros [Hn' Hf']|intros [[Hpart _] Hone]|done].
  - apply wp_ret. split; [done|]. split; [by unfold new; rewrite <- Hins|].
    unfold journal_inv. cbn [j_poisoned j_path j_ino]. rewrite Hn', Hf'.
    split; [done|]. split; [done|]. unfold state at 1 2. cbn [j_next_id j_entries]. rewrite Hins.
    split; [by apply (state_ok_push (state j) (Entry i m 0))|].
    exists (ps ++ [p]). split; [apply Forall_app; by split; [|constructor]|].
    split; [by rewrite journal_file_snoc|]. by eapply replay_snoc.
  - split; [by apply (partial_recovers (j_ino j) ps p _ _ _ w)|].
    intros Hb. destruct (Hone Hb) as [Hn' Hf']. unfold journal_inv. rewrite Hn', Hf'.
    split_and!; [done..|by exists ps].
Qed.

(** C20. Enqueue is durable and all-or-nothing, under every fault schedule: a
    returned identifier is fresh and its entry, with everything before it, is in
    the file before the call returns; on an error or if the process dies, a
    restart finds either the state before the call or the state after it; and
    after an error with at most one failing system call the journal still holds
    exactly the state in memory. *)
Theorem journal_enqueue_durable (m : OutboxMessage) (j : Journal) (w : world) :
  journal_inv j w → message_ok m →
  let i := j_next_id j in
  let new := Rec (i + 1) (j_entries j ++ [(i, Entry i m 0)]) in
  wp (journal_enqueue m j)
    (fun r w' => match r with
       | Ok (i', j') => i' = i ∧ state j' = new ∧ journal_inv j' w'
       | Err _ => (recovers w' (j_path j) (state j) ∨ recovers w' (j_path j) new) ∧
                  ((budget w ≤ 1)%nat → journal_inv j w')
       | Panic => False
       end)
    (fun w' => recovers w' (j_path j) (state j) ∨ recovers w' (j_path j) new) w.
Proof. apply wp_journal_enqueue. Qed.

(** ** Acknowledging *)

Definition keep_unacked (ids : list Z) (m : list (Z * OutboxEntry)) : list (Z * OutboxEntry) :=
  List.filter (fun p => negb (bool_decide (fst p ∈ ids))) m.

Lemma remove_all_filter ids m : remove_all ids m = keep_unacked ids m.
Proof. apply bt_remove_keys. Qed.

Lemma bt_contains_elem k (m : list (Z * OutboxEntry)) :
  bt_contains k m = true ↔ k ∈ map fst m.
Proof.
  unfold bt_contains. induction m as [|[k' e] m IH]; cbn; [split; [done|by intros ?%not_elem_of_nil]|].
  rewrite elem_of_cons, <- IH. destruct (Z.eqb_spec k k'); naive_solver.
Qed.

Definition existing (ids : list Z) (m : list (Z * OutboxEntry)) : list Z :=
  btset_of (List.filter (fun i => bt_contains i m) ids).

Lemma elem_of_existing k ids m : k ∈ existing ids m ↔ k ∈ ids ∧ k ∈ map fst m.
Proof.
  unfold existing. rewrite elem_of_btset, list_elem_of_In, filter_In, <- list_elem_of_In.
  by rewrite bt_contains_elem.
Qed.

Lemma keep_unacked_existing ids m : keep_unacked (existing ids m) m = keep_unacked ids m.
Proof.
  unfold keep_unacked. apply filter_ext_in. intros [k e] Hin. cbn [fst]. f_equal.
  apply bool_decide_ext. rewrite elem_of_existing. split; [tauto|]. intros H. split; [done|].
  apply list_elem_of_In, in_map_iff. by exists (k, e).
Qed.

(** The count [acknowledge] reports is the number of entries that disappear. *)
Lemma existing_count ids m :
  bt_sorted m → (length (existing ids m) + length (keep_unacked ids m) = length m)%nat.
Proof.
  intros Hs. assert (existing ids m ≡ₚ map fst (List.filter (fun p => bool_decide (fst p ∈ ids)) m)) as E.
  { apply NoDup_Permutation; [apply btset_of_NoDup| |].
    - apply bt_sorted_NoDup in Hs. clear -Hs. induction m as [|[k e] m IH]; cbn in *; [constructor|].
      apply NoDup_cons in Hs as [Hn Hs]. case_if; [|by apply IH]. cbn. constructor; [|by apply IH].
      intros Hin. apply Hn. apply list_elem_of_In, in_map_iff in Hin as (p & <- & Hp).
      apply filter_In in Hp as [Hp _]. apply list_elem_of_In, in_map_iff. by exists p.
    - intros k. rewrite elem_of_existing, !list_elem_of_In, !in_map_iff. split.
      + intros [Hi (p & <- & Hp)]. exists p. split; [done|]. apply filter_In. split; [done|].
        apply bool_decide_eq_true. by apply list_elem_of_In.
      + intros (p & <- & Hp). apply filter_In in Hp as [Hp Hd]. apply bool_decide_eq_true in Hd.
        split; [by apply list_elem_of_In|by exists p]. }
  rewrite E, length_map. unfold keep_unacked. clear. induction m as [|p m IH]; cbn; [done|].
  case_if; cbn; lia.
Qed.

Lemma state_ok_filter r f :
  state_ok r → state_ok (Rec (next_id r) (List.filter f (entries r))).
Proof.
  intros (Hs & Hf & Hn). split; [|split; [|done]]; cbn [entries next_id].
  - clear -Hs. induction Hs as [|k v m Hlt Hm IH]; cbn; [constructor|]. case_if; [|done].
    constructor; [|done]. by apply Forall_filter_bool.
  - by apply Forall_filter_bool.
Qed.

Lemma encode_acknowledge_ok ids p :
  encode_acknowledge ids = Ok p → payload_ok p.
Proof.
  intros Henc. unfold encode_acknowledge in Henc. res_Ok Henc. apply Ok_inj in Henc as <-.
  destruct x0. apply validate_record_size_Ok in H0. split; [|done].
  apply Forall_cons. split; [done|]. apply bytes_ok_app. split; [apply le_bytes_ok|].
  clear. induction ids as [|i ids IH]; cbn [map concat]; [constructor|]. apply bytes_ok_app.
  split; [apply (le_bytes_ok 8)|done].
Qed.

Lemma encode_acknowledge_no_panic ids : encode_acknowledge ids ≠ Panic.
Proof. unfold encode_acknowledge, u32_len, validate_record_size. no_panic. Qed.

Lemma btset_of_length l : (length (btset_of l) ≤ length l)%nat.
Proof.
  apply NoDup_incl_length; [apply NoDup_ListNoDup, btset_of_NoDup|].
  intros k Hk. by apply list_elem_of_In, elem_of_btset, list_elem_of_In.
Qed.

Lemma existing_length ids m : (length (existing ids m) ≤ length ids)%nat.
Proof.
  unfold existing. etrans; [apply btset_of_length|]. apply filter_length_le.
Qed.

(** Acknowledging one entry never exceeds a record. *)
Lemma encode_small ids e : (length ids ≤ 1)%nat → encode_acknowledge ids ≠ Err e.
Proof.
  intros H. destruct ids as [|i [|? ?]]; [by vm_compute|done|cbn in H; lia].
Qed.

Lemma wp_journal_acknowledge (ids : list Z) (j : Journal) (w : world) :
  journal_inv j w →
  let new := Rec (j_next_id j) (keep_unacked ids (j_entries j)) in
  wp (journal_acknowledge ids j)
    (fun r w' => match r with
       | Ok (n, j') => (n + length (j_entries j') = length (j_entries j))%nat ∧
                       state j' = new ∧ journal_inv j' w'
       | Err _ => (recovers w' (j_path j) (state j) ∨ recovers w' (j_path j) new) ∧
                  ((budget w ≤ 1)%nat → journal_inv j w') ∧
                  ((length ids ≤ 1)%nat → (0 < budget w)%nat)
       | Panic => False
       end)
    (fun w' => recovers w' (j_path j) (state j) ∨ recovers w' (j_path j) new) w.
Proof.
  intros Hinv new. pose proof Hinv as (Hpois & Hname & Hst & ps & Hps & Hfile & Hrep).
  pose proof (inv_recovers j w Hinv) as Hold.
  unfold journal_acknowledge, ensure_healthy. rewrite Hpois.
  apply wp_bind, wp_ret. cbv beta iota zeta. fold (existing ids (j_entries j)).
  set (ex := existing ids (j_entries j)).
  pose proof (existing_count ids (j_entries j) (proj1 Hst)) as Hcount. fold ex in Hcount.
  assert (remove_all ex (j_entries j) = keep_unacked ids (j_entries j)) as Hrem
    by (rewrite remove_all_filter; apply keep_unacked_existing).
  destruct (Nat.eqb_spec (length ex) 0) as [H0|_].
  { apply wp_ret. assert (keep_unacked ids (j_entries j) = j_entries j) as Hk.
    { rewrite <- Hrem. by destruct ex. }
    split_and!; [done| |done]. unfold new, state. by rewrite Hk. }
  apply wp_bind, wp_lift. destruct (encode_acknowledge ex) as [p|e|] eqn:Henc;
    [| |by apply encode_acknowledge_no_panic in Henc].
  2:{ split; [by left|]. split; [done|]. intros Hids. exfalso. apply (encode_small ex e); [|done].
      pose proof (existing_length ids (j_entries j)). unfold ex. lia. }
  assert (payload_ok p) as Hp by (by eapply encode_acknowledge_ok).
  assert (apply_record p (state j) = Ok new) as Happ.
  { rewrite (apply_acknowledge ex); [|apply Forall_forall|done].
    - cbn [state next_id entries]. by rewrite Hrem.
    - intros k [_ Hk]%elem_of_existing. apply list_elem_of_In, in_map_iff in Hk as (q & <- & Hq).
      apply list_elem_of_In in Hq. destruct Hst as (_ & Hf & _).
      destruct (proj1 (Forall_forall _ _) Hf q Hq) as (-> & (Hid & _) & _). done. }
  apply wp_bind. eapply wp_mono; [by apply (wp_append (j_ino j) (journal_file ps) p Hp)| |].
  2:{ intros w'. by apply partial_recovers. }
  intros [[]|e|] w'; cbv beta iota; [intros [Hn' Hf']|intros [[Hpart Hpos] Hone]|done].
  - apply wp_ret. unfold state at 1. cbn [j_entries j_next_id]. rewrite Hrem.
    split; [lia|]. split; [done|].
    unfold journal_inv. cbn [j_poisoned j_path j_ino]. rewrite Hn', Hf'.
    split; [done|]. split; [done|]. split; [by apply (state_ok_filter (state j))|].
    exists (ps ++ [p]). split; [apply Forall_app; by split; [|constructor]|].
    split; [by rewrite journal_file_snoc|]. by eapply replay_snoc.
  - split; [by apply (partial_recovers (j_ino j) ps p _ _ _ w)|].
    split; [|done]. intros Hb. destruct (Hone Hb) as [Hn' Hf']. unfold journal_inv. rewrite Hn', Hf'.
    split_and!; [done..|by exists ps].
Qed.

(** Acknowledge is durable and all-or-nothing, under every fault schedule:
    success reports how many entries disappeared, removes exactly the entries
    whose identifier was listed (unknown and repeated identifiers are harmless)
    and keeps the order and [next_id]; otherwise a restart finds the queue with
    all of them or with none of them. *)
Theorem journal_acknowledge_durable (ids : list Z) (j : Journal) (w : world) :
  journal_inv j w →
  let new := Rec (j_next_id j) (keep_unacked ids (j_entries j)) in
  wp (journal_acknowledge ids j)
    (fun r w' => match r with
       | Ok (n, j') => (n + length (j_entries j') = length (j_entries j))%nat ∧
                       state j' = new ∧ journal_inv j' w'
       | Err _ => (recovers w' (j_path j) (state j) ∨ recovers w' (j_path j) new) ∧
                  ((budget w ≤ 1)%nat → journal_inv j w')
       | Panic => False
       end)
    (fun w' => recovers w' (j_path j) (state j) ∨ recovers w' (j_path j) new) w.
Proof.
  intros Hinv new. eapply wp_mono; [by apply wp_journal_acknowledge| |done]. cbv beta.
  intros [[n j']|e|] w' H; [done| |done]. by destruct H as (? & ? & _).
Qed.

(** ** Whatever is on disk, a recovered state is well formed *)

Lemma read_bytes_Ok n c bs c' :
  bytes_ok c → read_bytes n c = Ok (bs, c') → bytes_ok bs ∧ bytes_ok c'.
Proof.
  intros Hc. unfold read_bytes. case_if; [|done]. intros [= <- <-].
  split; [by apply Forall_take|by apply Forall_drop].
Qed.

Lemma read_uint_Ok n c x c' :
  bytes_ok c → read_uint n c = Ok (x, c') → in_u (8 * Z.of_nat n) x ∧ bytes_ok c'.
Proof.
  intros Hc H. unfold read_uint in H. apply res_bind_Ok in H as ([bs c1] & H1 & H).
  injection H as <- <-. pose proof H1 as Hr. apply read_bytes_Ok in Hr as [Hb Hc1]; [|done].
  split; [|done]. pose proof (le_val_in_u bs Hb) as Hu.
  unfold read_bytes in H1. destruct (Z.leb_spec (Z.of_nat n) (Z.of_nat (length c))); [|done].
  injection H1 as <- _. rewrite length_take, Nat2Z.id, Nat.min_l in Hu by lia.
  by rewrite Nat2Z.id.
Qed.

Ltac read_step H :=
  let H1 := fresh "Hread" in
  apply res_bind_Ok in H as ([? ?] & H1 & H);
  first [ apply read_uint_Ok in H1 as [? ?]; [|done]
        | apply read_bytes_Ok in H1 as [? ?]; [|done] ].

Lemma remove_acks_ok count c m m' c' next :
  bytes_ok c → state_ok (Rec next m) → remove_acks count c m = Ok (m', c') →
  state_ok (Rec next m').
Proof.
  revert c m. induction count as [|n IH]; intros c m Hc Hm H; cbn [remove_acks] in H.
  { by injection H as <- _. }
  read_step H. eapply IH; [|by apply (state_ok_filter (Rec next m))|exact H]. done.
Qed.

Lemma apply_record_ok p r r' :
  bytes_ok p → state_ok r → apply_record p r = Ok r' → state_ok r'.
Proof.
  intros Hp Hr H. unfold apply_record in H. read_step H. case_if.
  { read_step H. read_step H. read_step H. read_step H. read_step H. read_step H. case_if; [done|].
    read_step H. apply res_bind_Ok in H as (? & _ & H). case_if; [done|].
    apply res_bind_Ok in H as (next & Hn & H). apply ok_or_Ok in Hn. unfold checked_add in Hn.
    case_if; [|done]. injection Hn as <-. apply Ok_inj in H as <-. bool_to_prop.
    destruct Hr as (Hs & Hf & Hb). unfold in_u in *. split; [|split]; cbn [entries next_id].
    - by apply bt_insert_sorted.
    - apply bt_insert_Forall; cbn [fst snd id].
      + split; [done|]. split; [|lia]. by split_and!.
      + eapply Forall_impl; [exact Hf|]. cbn. intros q (H1' & H2' & H3'). split_and!; [done..|lia].
    - lia. }
  case_if.
  { read_step H. case_if; [done|]. apply res_bind_Ok in H as ([m c] & Hm & H).
    apply res_bind_Ok in H as (? & _ & H). apply Ok_inj in H as <-.
    eapply (remove_acks_ok _ _ (entries r)); [|by destruct r|exact Hm]. done. }
  case_if; [|done]. read_step H. apply res_bind_Ok in H as (? & _ & H). case_if; [done|].
  apply Ok_inj in H as <-. destruct Hr as (Hs & Hf & Hb). unfold in_u in *.
  split; [done|split]; cbn [entries next_id]; [|bool_to_prop; lia].
  eapply Forall_impl; [exact Hf|]. cbn. intros q (H1' & H2' & H3'). split_and!; [done..|lia].
Qed.

(** The fuel of the record loop is never the reason it stops. *)
Lemma recover_loop_fuel f1 f2 off rest r :
  (length rest ≤ f1)%nat → (length rest ≤ f2)%nat →
  recover_loop f1 off rest r = recover_loop f2 off rest r.
Proof.
  revert f2 off rest r. induction f1 as [|f1 IH]; intros [|f2] off rest r H1 H2;
    try (destruct rest; [done|cbn in *; lia]).
  cbn [recover_loop]. repeat case_if; try done. destruct (apply_record _ r) as [r'|e|]; [|done..].
  apply IH; rewrite length_drop; unfold RECORD_HEADER_LEN; lia.
Qed.

Lemma recover_loop_ok fuel off rest r r' n :
  bytes_ok rest → state_ok r → recover_loop fuel off rest r = Ok (r', n) → state_ok r'.
Proof.
  revert off rest r. induction fuel as [|fuel IH]; intros off rest r Hb Hr H; cbn [recover_loop] in H.
  { by injection H as <- _. }
  case_if; [by injection H as <- _|]. case_if; [by injection H as <- _|].
  case_if; [done|]. case_if; [done|]. case_if; [by injection H as <- _|].
  case_if; [case_if; [by injection H as <- _|done]|].
  apply res_bind_Ok in H as (r1 & H1 & H). eapply IH; [| |exact H].
  - by apply Forall_drop.
  - eapply apply_record_ok; [|exact Hr|exact H1]. by apply slice_ok.
Qed.

Lemma recover_bytes_ok bytes r n :
  bytes_ok bytes → recover_bytes bytes = Ok (r, n) → state_ok r.
Proof.
  intros Hb. unfold recover_bytes. repeat (case_if; [done|]). apply recover_loop_ok.
  - by apply Forall_drop.
  - split; [constructor|split; [constructor|done]].
Qed.

(** Whatever bytes are in the journal file, recovery either reports an error
    or produces a well-formed queue: entries in identifier order without
    duplicates, each stored under its own identifier, and every identifier
    below [next_id], so that identifiers are never handed out twice. *)
Theorem recovered_state_well_formed (bytes : list Z) (r : Recovered) (n : nat) :
  bytes_ok bytes → recover_bytes bytes = Ok (r, n) → state_ok r.
Proof. apply recover_bytes_ok. Qed.

(** ** The theorems at a concrete journal *)

Definition sample_message : OutboxMessage := Message [109; 113] [1; 2; 3] 1700000000.
Definition sample_entry : OutboxEntry := Entry 1 sample_message 0.
Definition sample_payload : list Z :=
  Eval vm_compute in match encode_enqueue sample_entry with Ok p => p | _ => [] end.
Definition sample_journal : Journal := Jrn "outbox.log" 8 0 2 [(1, sample_entry)] false.
Definition sample_world (faults : list fault) : world :=
  World {["outbox.log" := 0%nat]} {[0%nat := journal_file [sample_payload]]} 1 faults.

Lemma sample_payload_ok : payload_ok sample_payload.
Proof. split_and!; [by repeat constructor|cbn; lia|done]. Qed.

Lemma sample_message_ok : message_ok sample_message.
Proof. split_and!; [done|by repeat constructor..|done]. Qed.

Lemma sample_replay : replay [sample_payload] (Rec 1 []) = Ok (state sample_journal).
Proof. by vm_compute. Qed.

Lemma sample_torn : torn (take 9 (record_bytes sample_payload)).
Proof. exists sample_payload, 9%nat. split; [apply sample_payload_ok|]. split; [cbn; lia|done]. Qed.

Lemma sample_inv faults : journal_inv sample_journal (sample_world faults).
Proof.
  split; [done|]. split; [done|]. split.
  - split; [constructor; constructor|]. split; [|done]. constructor; [|constructor].
    split; [done|]. split; [|done]. split; [done|]. split; [done|]. apply sample_message_ok.
  - exists [sample_payload]. split; [constructor; [apply sample_payload_ok|constructor]|].
    split; [done|]. apply sample_replay.
Qed.

Lemma journal_enqueue_durable_witness :
  match journal_enqueue sample_message sample_journal (sample_world []),
        journal_enqueue sample_message sample_journal (sample_world [FOk; FOk; FCrash 4]) with
  | (Some (Ok (i, j')), w'), (None, w'') =>
      i = 2 ∧ journal_inv j' w' ∧
      (recovers w'' "outbox.log" (state sample_journal) ∨
       recovers w'' "outbox.log" (Rec 3 [(1, sample_entry); (2, Entry 2 sample_message 0)]))
  | _, _ => False
  end.
Proof.
  pose proof (journal_enqueue_durable sample_message sample_journal (sample_world [])
    (sample_inv _) sample_message_ok) as H1.
  pose proof (journal_enqueue_durable sample_message sample_journal
    (sample_world [FOk; FOk; FCrash 4]) (sample_inv _) sample_message_ok) as H2.
  unfold wp in H1, H2.
  destruct (journal_enqueue sample_message sample_journal (sample_world [])) as [r1 w1] eqn:E1.
  destruct (journal_enqueue sample_message sample_journal (sample_world [FOk; FOk; FCrash 4]))
    as [r2 w2] eqn:E2.
  assert (match r1 with Some (Ok _) => True | _ => False end) as F1
    by (change r1 with (fst (r1, w1)); rewrite <- E1; by vm_compute).
  assert (match r2 with None => True | _ => False end) as F2
    by (change r2 with (fst (r2, w2)); rewrite <- E2; by vm_compute).
  destruct r1 as [[[i j']|e|]|]; try done. destruct r2; [done|].
  destruct H1 as (-> & _ & H1). split_and!; [done..|exact H2].
Defined.

Lemma journal_acknowledge_durable_witness :
  match journal_acknowledge [7; 1; 1] sample_journal (sample_world []) with
  | (Some (Ok (n, j')), w') => n = 1%nat ∧ journal_inv j' w'
  | _ => False
  end.
Proof.
  pose proof (journal_acknowledge_durable [7; 1; 1] sample_journal (sample_world [])
    (sample_inv _)) as H1. cbv zeta in H1. unfold wp in H1.
  destruct (journal_acknowledge [7; 1; 1] sample_journal (sample_world [])) as [r1 w1] eqn:E1.
  assert (match r1 with Some (Ok (n, _)) => n = 1%nat | _ => False end) as F1
    by (change r1 with (fst (r1, w1)); rewrite <- E1; by vm_compute).
  destruct r1 as [[[n j']|e|]|]; try done. split; [done|]. apply H1.
Defined.

Lemma recovered_state_well_formed_witness : state_ok (state sample_journal).
Proof.
  apply (recovered_state_well_formed (journal_file [sample_payload]) _
           (length (journal_file [sample_payload]))).
  - let l := eval vm_compute in (journal_file [sample_payload]) in change (bytes_ok l).
    by repeat constructor.
  - by vm_compute.
Defined.

End Outbox.
