(* ===== verification/Compaction.v ===== *)
(** * Compaction and reopening of the outbox journal

    Theorems about [compact] and [open] of libs/aether-store-local/src/file_outbox.rs;
    the definitions are those of [Outbox.v]. *)

From stdpp Require Import base tactics numbers list gmap strings.
From S2P Require Import Prelude Btree Fs Outbox.
Import Fs Outbox.
#[local] Open Scope Z_scope.

Module Compaction.

Lemma wp_write_record ino l p w :
  payload_ok p → file_bytes w ino = l →
  wp (write_record ino (length l) p)
    (fun r w' => only ino w w' ∧
       match r with Ok _ => file_bytes w' ino = l ++ record_bytes p | Err _ => True | Panic => False end)
    (only ino w) w.
Proof.
  intros Hp Hl. unfold write_record.
  rewrite (proj2 (validate_record_size_Ok p)) by (by destruct Hp as (_ & ?)).
  wp_go; try (split; [|done]); try apply only_put.
  - split.
    + eapply only_trans; [apply only_put|apply only_put].
    + rewrite <- (length_record_header p), <- length_app.
      erewrite put_bytes_end by (rewrite file_bytes_faults; by apply put_bytes_end).
      by rewrite <- app_assoc.
  - eapply only_trans; [apply only_put|apply only_put].
  - eapply only_trans; [apply only_put|apply only_put].
Qed.

(** The payloads of a list of entries. *)
Definition encodes (es : list OutboxEntry) (ps : list (list Z)) : Prop :=
  Forall2 (fun e p => encode_enqueue e = Ok p) es ps.

Lemma wp_write_entries ino es l w :
  Forall entry_ok es → file_bytes w ino = l →
  wp (write_entries ino (length l) es)
    (fun r w' => only ino w w' ∧
       match r with
       | Ok _ => ∃ ps, encodes es ps ∧ file_bytes w' ino = l ++ records ps
       | Err _ => True
       | Panic => False
       end)
    (only ino w) w.
Proof.
  intros Hes. revert l w. induction Hes as [|e es He _ IH]; intros l w Hl; cbn [write_entries].
  { apply wp_ret. split; [done|]. exists []. split; [constructor|]. by rewrite app_nil_r. }
  apply wp_bind, wp_lift. destruct (encode_enqueue e) as [p|err|] eqn:Henc; [|done|].
  2: by apply encode_enqueue_no_panic in Henc.
  assert (payload_ok p) as Hp by (by eapply encode_enqueue_ok).
  apply wp_bind. eapply wp_mono; [by apply wp_write_record| |done]. cbv beta.
  intros [[]|err|] w1 [Ho Hr]; cbv beta iota; [|by split|done].
  rewrite <- length_app. eapply wp_mono; [by apply IH| |intros w2; by apply only_trans].
  cbv beta. intros r w2 [Ho2 Hr2]. split; [by eapply only_trans|].
  destruct r as [[]|err|]; [|done|done]. destruct Hr2 as (ps & Hps & Hf).
  exists (p :: ps). split; [by constructor|]. rewrite Hf. unfold records. cbn [map concat].
  by rewrite app_assoc.
Qed.

(** Replaying a checkpoint and the live entries rebuilds the state. *)
Lemma replay_entries m ps next done_ :
  Forall2 (fun e p => encode_enqueue e = Ok p) (map snd m) ps →
  state_ok (Rec next (done_ ++ m)) →
  replay ps (Rec next done_) = Ok (Rec next (done_ ++ m)).
Proof.
  revert ps done_. induction m as [|[k e] m IH]; intros ps done_ Hps Hok.
  { inversion Hps. by rewrite app_nil_r. }
  inversion Hps as [|? p ? ps' Henc Hps']; subst. cbn [replay].
  pose proof Hok as (Hs & Hf & Hn). cbn [entries next_id] in Hs, Hf, Hn.
  apply Forall_app in Hf as [Hf1 Hf2]. apply Forall_cons in Hf2 as [(Hk & He & Hlt) Hf2].
  cbn [fst snd] in Hk, He, Hlt.
  assert (Forall (fun q => fst q < k) done_) as Hbelow by (by eapply bt_sorted_app_below).
  rewrite (apply_enqueue e); [|done|done|rewrite <- Hk; lia|].
  - cbn [mbind res_bind next_id entries]. rewrite <- Hk, Z.max_l by lia.
    rewrite bt_insert_last by done. rewrite (IH ps' (done_ ++ [(k, e)])) by (by rewrite <- ?app_assoc).
    by rewrite <- app_assoc.
  - cbn [entries]. rewrite <- Hk. by apply bt_contains_above.
Qed.

Lemma replay_compacted r ps :
  state_ok r → encodes (map snd (entries r)) ps →
  replay (encode_checkpoint (next_id r) :: ps) (Rec 1 []) = Ok r.
Proof.
  intros Hok Hps. destruct r as [next m]. cbn [next_id entries] in *. cbn [replay].
  destruct Hok as (Hs & Hf & Hn). cbn [next_id entries] in *.
  rewrite apply_checkpoint by (unfold in_u; lia). cbn [mbind res_bind next_id entries].
  rewrite Z.max_r by lia. by apply (replay_entries m ps next []).
Qed.

Lemma checkpoint_ok n : payload_ok (encode_checkpoint n).
Proof.
  split_and!; [|cbn; lia|done]. apply Forall_cons. split; [done|apply le_bytes_ok].
Qed.

Lemma encodes_ok es ps : Forall entry_ok es → encodes es ps → Forall payload_ok ps.
Proof.
  intros He H. induction H as [|e p es ps Hep _ IH]; [constructor|].
  apply Forall_cons in He as [He Hes]. constructor; [by eapply encode_enqueue_ok|by apply IH].
Qed.

(** ** Compaction *)

Lemma sibling_ne path c s : sibling_path path (String c s) ≠ path.
Proof.
  unfold sibling_path. induction path as [|a path IH]; [done|]. intros [= H]. by apply IH.
Qed.

Section Compact.
Context (j : Journal) (w : world).
Let tmp : string := sibling_path (j_path j) ".compact.tmp".
Hypothesis Hinv : journal_inv j w.
Hypothesis Hfs : fs_ok w.
Hypothesis Htmp : w_names w !! tmp ≠ Some (j_ino j).

(** While the replacement is being written, the journal is as it was. *)
Definition mid (t : nat) (w' : world) : Prop :=
  t ≠ j_ino j ∧ w_names w' !! tmp = Some t ∧
  w_names w' !! j_path j = w_names w !! j_path j ∧
  file_bytes w' (j_ino j) = file_bytes w (j_ino j).

Lemma mid_only t w1 w2 : mid t w1 → only t w1 w2 → mid t w2.
Proof.
  intros (H1 & H2 & H3 & H4) (H5 & _ & H6). unfold mid. rewrite H5, H6 by done. done.
Qed.

Lemma mid_inv t w1 : mid t w1 → journal_inv j w1.
Proof.
  intros (_ & _ & H3 & H4). destruct Hinv as (I1 & I2 & I3 & ps & I4 & I5 & I6).
  unfold journal_inv. rewrite H3, H4. split_and!; [done..|]. by exists ps.
Qed.

Lemma fresh_or_old_tmp fs :
  match w_names w !! tmp with
  | Some t => let w1 := with_data (<[t := []]> (w_data w)) (with_faults fs w) in
              mid t w1 ∧ file_bytes w1 t = []
  | None => let w1 := fresh_file tmp (with_faults fs w) in
            mid (w_next w) w1 ∧ file_bytes w1 (w_next w) = []
  end.
Proof.
  destruct Hinv as (_ & Hname & _). destruct (w_names w !! tmp) as [t|] eqn:Ht; cbv zeta.
  - split; [|by apply file_bytes_eq; cbn; rewrite lookup_insert_eq].
    split_and!; [by intros ->|done|done|]. apply (file_bytes_insert_ne (with_faults fs w)).
    by intros ->.
  - assert (j_ino j < w_next w)%nat as Hlt by (by eapply (proj1 Hfs)).
    split; [|by apply file_bytes_eq; cbn; rewrite lookup_insert_eq].
    unfold mid, file_bytes. cbn. rewrite lookup_insert_eq, !lookup_insert_ne by (lia || apply sibling_ne).
    split_and!; [lia|done..].
Qed.

Lemma wp_write_file_header t w1 :
  wp (write_file_header t)
    (fun r w' => only t w1 w' ∧
       match r with Ok _ => file_bytes w' t = file_header | Err _ => True | Panic => False end)
    (only t w1) w1.
Proof.
  unfold write_file_header. wp_go; try (split; [|done]); try apply only_data;
    try (eapply only_trans; [apply only_data|apply only_put]).
  split; [eapply only_trans; [apply only_data|apply only_put]|].
  apply file_bytes_eq. cbn. rewrite lookup_insert_eq. erewrite file_bytes_eq
    by (cbn; apply lookup_insert_eq).
  unfold resize, write_bytes. by rewrite !take_0.
Qed.

Lemma wp_compact_file :
  wp (compact_file j)
    (fun r w' => match r with
       | Ok _ => ∃ t ps, w_names w' !! j_path j = Some t ∧
           encodes (map snd (j_entries j)) ps ∧
           file_bytes w' t = journal_file (encode_checkpoint (j_next_id j) :: ps)
       | Err _ => journal_inv j w'
       | Panic => False
       end)
    (journal_inv j) w.
Proof.
  pose proof Hinv as (_ & _ & Hst & _). destruct Hst as (_ & Hent & _). cbn in Hent.
  assert (Forall entry_ok (map snd (j_entries j))) as Hes.
  { apply Forall_forall. intros e He. apply list_elem_of_In, in_map_iff in He as (q & <- & Hq).
    by apply (proj1 (Forall_forall _ _) Hent), list_elem_of_In. }
  unfold compact_file. fold tmp. cbv zeta. apply wp_bind, wp_sys_create; intros fs; [intros _| |].
  2,3: intros; by apply Hinv.
  pose proof (fresh_or_old_tmp fs) as Hcases.
  enough (∀ t w1, mid t w1 → file_bytes w1 t = [] →
    wp (_ ← write_file_header t;
        _ ← write_record t FILE_HEADER_LEN (encode_checkpoint (j_next_id j));
        _ ← write_entries t (FILE_HEADER_LEN + length (record_bytes (encode_checkpoint (j_next_id j))))
              (map snd (j_entries j));
        _ ← sys_nop io_error;
        sys_rename io_error tmp (j_path j))
      (fun r w' => match r with
       | Ok _ => ∃ t ps, w_names w' !! j_path j = Some t ∧
           encodes (map snd (j_entries j)) ps ∧
           file_bytes w' t = journal_file (encode_checkpoint (j_next_id j) :: ps)
       | Err _ => journal_inv j w'
       | Panic => False
       end) (journal_inv j) w1) as Hgo.
  { destruct (w_names w !! tmp) as [t|]; destruct Hcases; by apply Hgo. }
  clear Hcases. intros t w1 Hm1 _. apply wp_bind.
  eapply wp_mono; [apply wp_write_file_header| |]; cbv beta.
  2:{ intros w' Ho. by eapply mid_inv, mid_only. }
  intros [[]|e|] w2 [Ho2 Hf2]; cbv beta iota; [|by eapply mid_inv, mid_only|done].
  pose proof (mid_only t w1 w2 Hm1 Ho2) as Hm2. apply wp_bind.
  eapply wp_mono; [apply (wp_write_record t file_header); [apply checkpoint_ok|done]| |]; cbv beta.
  2:{ intros w' Ho. by eapply mid_inv, mid_only. }
  intros [[]|e|] w3 [Ho3 Hf3]; cbv beta iota; [|by eapply mid_inv, mid_only|done].
  pose proof (mid_only t w2 w3 Hm2 Ho3) as Hm3. apply wp_bind.
  change FILE_HEADER_LEN with (length file_header). rewrite <- length_app.
  eapply wp_mono; [by apply wp_write_entries| |]; cbv beta.
  2:{ intros w' Ho. by eapply mid_inv, mid_only. }
  intros [[]|e|] w4 [Ho4 Hf4]; cbv beta iota; [|by eapply mid_inv, mid_only|done].
  pose proof (mid_only t w3 w4 Hm3 Ho4) as Hm4. destruct Hf4 as (ps & Hps & Hf4).
  wp_go; try exact (mid_inv t w4 Hm4).
  destruct Hm4 as (Hm4 & Hn4 & _). cbn [w_names with_faults]. rewrite Hn4.
  exists t, ps. cbn [w_names with_names]. rewrite lookup_insert_eq.
  split_and!; [done..|]. change (file_bytes _ t) with (file_bytes w4 t). rewrite Hf4.
  unfold journal_file, records. cbn [map concat]. by rewrite <- app_assoc.
Qed.

(** Compaction is invisible: whatever happens during [compact], success,
    an I/O error at any point or the death of the process, the file at the path
    recovers to exactly the queue and next identifier held before; on success
    the journal in hand goes on from the compacted file, and after a failed
    reopening it refuses further use instead of writing to the unlinked file. *)
Theorem journal_compact_invisible :
  wp (journal_compact j)
    (fun r w' => recovers w' (j_path j) (state j) ∧
       match r with
       | Ok (Ok _, j') => state j' = state j ∧ journal_inv j' w'
       | Ok (_, j') => state j' = state j ∧ (journal_inv j' w' ∨ j_poisoned j' = true)
       | _ => False
       end)
    (fun w' => recovers w' (j_path j) (state j)) w.
Proof.
  pose proof Hinv as (Hpois & _ & Hst & _). unfold journal_compact. apply wp_bind, wp_attempt.
  unfold ensure_healthy. rewrite Hpois. apply wp_bind, wp_ret. cbv beta iota.
  eapply wp_mono; [apply wp_compact_file| |intros w'; by apply inv_recovers]. cbv beta.
  intros [[]|e|] w1; cbv beta iota; [intros (t & ps & Hn & Hps & Hf)|intros Hi|done].
  2:{ apply wp_ret. split; [by apply inv_recovers|]. split; [done|by left]. }
  set (j2 := Jrn (j_path j) (j_capacity j) t (j_next_id j) (j_entries j) false).
  assert (∀ w2, w_names w2 !! j_path j = Some t → file_bytes w2 t = file_bytes w1 t →
                journal_inv j2 w2) as Hnew.
  { intros w2 Hn2 Hf2. unfold journal_inv. subst j2. cbn [j_poisoned j_path j_ino].
    rewrite Hn2, Hf2, Hf. split_and!; [done..|].
    exists (encode_checkpoint (j_next_id j) :: ps). split_and!; [|done|].
    - constructor; [apply checkpoint_ok|]. eapply encodes_ok; [|exact Hps].
      destruct Hst as (_ & Hent & _). cbn in Hent. apply Forall_forall. intros e He.
      apply list_elem_of_In, in_map_iff in He as (q & <- & Hq).
      by apply (proj1 (Forall_forall _ _) Hent), list_elem_of_In.
    - by apply (replay_compacted (state j) ps). }
  assert (∀ fs, recovers (with_faults fs w1) (j_path j) (state j)) as Hrec
    by (intros fs; by apply (inv_recovers j2), Hnew).
  wp_go; try (split; [by apply Hrec|]); try (by apply Hrec); try (split; [done|by right]).
  cbn [w_names with_faults]. rewrite Hn. wp_go; try (by apply Hrec).
  all: split; [by apply Hrec|].
  all: split; [done|]; first [by right | by apply Hnew | left; by apply Hnew].
Qed.

End Compact.

(** ** Reopening *)

Lemma wp_remove_stale path (Q : res PortErrorKind unit → world → Prop) C w :
  (∀ fs, Q (Ok tt) (with_faults fs w)) →
  (∀ fs, Q (Ok tt) (with_names (delete path (w_names w)) (with_faults fs w))) →
  (∀ k fs, Q (Err k) (with_faults fs w)) → (∀ fs, C (with_faults fs w)) →
  wp (remove_stale path) Q C w.
Proof.
  intros H1 H2 H3 H4. pose proof (wp_sys_remove (fun k => k) path
    (fun r w' => match r with
       | Ok _ | Err NotFound => Q (Ok tt) w'
       | Err k => Q (Err (io_error k)) w'
       | Panic => Q Panic w'
       end) C w) as H.
  unfold wp, remove_stale in *. destruct (sys_remove _ path w) as [[[[]|[]|]|] w'];
    apply H; try done; intros; by destruct (w_names w !! path).
Qed.

Lemma replay_ok ps r r' :
  Forall payload_ok ps → state_ok r → replay ps r = Ok r' → state_ok r'.
Proof.
  intros Hps. revert r. induction Hps as [|p ps Hp _ IH]; intros r Hr H; cbn [replay] in H.
  { by apply Ok_inj in H as <-. }
  apply res_bind_Ok in H as (r1 & H1 & H). eapply IH; [|exact H].
  eapply apply_record_ok; [apply Hp|exact Hr|exact H1].
Qed.

Section Open.
Context (path : string) (capacity : nat) (ps : list (list Z)) (t : list Z) (r : Recovered).
Hypothesis Hps : Forall payload_ok ps.
Hypothesis Htorn : torn t.
Hypothesis Hreplay : replay ps (Rec 1 []) = Ok r.

Lemma initial_ok : state_ok (Rec 1 []).
Proof. split; [constructor|split; [constructor|done]]. Qed.

Lemma torn_or_clean_recovers w ino t' :
  w_names w !! path = Some ino → file_bytes w ino = journal_file ps ++ t' → torn t' →
  recovers w path r.
Proof.
  intros Hn Hf Ht. eexists _, _. unfold path_bytes. rewrite Hn, Hf. split; [done|].
  by apply recover_journal.
Qed.

Lemma wp_recover w ino :
  w_names w !! path = Some ino → file_bytes w ino = journal_file ps ++ t →
  wp (recover ino)
    (fun res w' => w_names w' = w_names w ∧
       match res with
       | Ok r' => r' = r ∧ file_bytes w' ino = journal_file ps
       | Err _ => recovers w' path r
       | Panic => False
       end)
    (fun w' => recovers w' path r) w.
Proof.
  intros Hn Hf.
  assert (∀ fs, recovers (with_faults fs w) path r) as H0
    by (intros fs; by apply (torn_or_clean_recovers _ ino t)).
  unfold recover. wp_go; try (split; [done|by apply H0]); try (by apply H0).
  rewrite Hf. destruct (Nat.eqb_spec (length (journal_file ps ++ t)) 0) as [E|_].
  { by destruct (journal_file ps) eqn:Hj. }
  rewrite (recover_journal ps t r) by done. apply wp_bind, wp_lift. cbv beta iota.
  destruct (Nat.ltb_spec (length (journal_file ps)) (length (journal_file ps ++ t))) as [Hlt|Hge].
  - assert (∀ fs, let w1 := with_data (<[ino := resize (length (journal_file ps))
        (file_bytes w ino)]> (w_data w)) (with_faults fs w) in
        w_names w1 = w_names w ∧ file_bytes w1 ino = journal_file ps) as Hcut.
    { intros fs0. split; [done|]. rewrite (file_bytes_insert (with_faults fs0 w)), Hf.
      apply resize_prefix. }
    assert (∀ w1, w_names w1 = w_names w ∧ file_bytes w1 ino = journal_file ps →
      recovers w1 path r) as H1.
    { intros w1 [Hn1 Hf1]. apply (torn_or_clean_recovers _ ino []); [by rewrite Hn1| |apply torn_nil].
      by rewrite app_nil_r. }
    generalize dependent (length (journal_file ps)). intros len _ Hcut.
    unfold truncate_tail. wp_go.
    all: try exact (H0 _). all: try (split; [reflexivity|]).
    all: try exact (H0 _). all: try exact (H1 _ (Hcut _)).
    split; [reflexivity|exact (proj2 (Hcut _))].
  - wp_go. split; [done|]. split; [done|]. rewrite file_bytes_faults, Hf.
    rewrite length_app in Hge. destruct t; [by rewrite app_nil_r|cbn in Hge; lia].
Qed.

(** C25. Opening an existing journal, whatever a crash left after its last
    complete record: [open] returns exactly the recovered state, with a journal
    whose file has been cut back to the complete records; if it fails or dies at
    any point, the next attempt still recovers the same state. *)
Theorem journal_open_recovers (w : world) :
  path_bytes w path = Some (journal_file ps ++ t) →
  wp (journal_open path capacity)
    (fun res w' => match res with
       | Ok j => state j = r ∧ j_path j = path ∧ j_capacity j = capacity ∧ journal_inv j w'
       | Err _ => recovers w' path r
       | Panic => False
       end)
    (fun w' => recovers w' path r) w.
Proof.
  intros Hb. unfold path_bytes in Hb. destruct (w_names w !! path) as [ino|] eqn:Hn; [|done].
  injection Hb as Hb.
  assert (∀ w1, w_names w1 !! path = Some ino → file_bytes w1 ino = file_bytes w ino →
                recovers w1 path r) as H0.
  { intros w1 Hn1 Hf1. apply (torn_or_clean_recovers _ ino t); [done|by rewrite Hf1|done]. }
  unfold journal_open. wp_go; try (by apply H0).
  assert (∀ w1, w_names w1 !! path = Some ino → file_bytes w1 ino = file_bytes w ino →
    wp (ino ← sys_create io_error false path; recovered ← recover ino; _ ← sys_nop io_error;
        mret (Jrn path capacity ino (next_id recovered) (entries recovered) false))
      (fun res w' => match res with
       | Ok j => state j = r ∧ j_path j = path ∧ j_capacity j = capacity ∧ journal_inv j w'
       | Err _ => recovers w' path r
       | Panic => False
       end) (fun w' => recovers w' path r) w1) as Hgo.
  { clear fs fs0. intros w1 Hn1 Hf1. apply wp_bind, wp_sys_create; [intros fs _|intros fs _|intros fs];
      [|by apply H0|by apply H0].
    rewrite Hn1. apply wp_bind.
    eapply wp_mono; [apply (wp_recover (with_faults fs w1) ino); [done|by rewrite file_bytes_faults, Hf1]
      | |done].
    intros [r'|e|] w2 [Hn2 H2]; cbv beta iota; [|done|done]. destruct H2 as [-> Hf2].
    assert (∀ fs', recovers (with_faults fs' w2) path r) as H3.
    { intros fs'. apply (torn_or_clean_recovers _ ino []); [by cbn; rewrite Hn2| |apply torn_nil].
      by rewrite app_nil_r. }
    wp_go; try (by apply H3). split_and!; [by destruct r|done|done|].
    split; [done|]. split; [by cbn; rewrite Hn2|].
    assert (state_ok r) by (eapply replay_ok; [exact Hps|apply initial_ok|exact Hreplay]).
    destruct r. split; [done|]. by exists ps. }
  apply wp_remove_stale; intros; [apply Hgo|apply Hgo|apply H0|apply H0]; try done.
  cbn. rewrite lookup_delete_ne; [done|]. apply sibling_ne.
Qed.

End Open.

(** ** The theorems at a concrete journal *)

Lemma sample_fs_ok faults : fs_ok (sample_world faults).
Proof.
  split; intros a b H; cbn in H; apply lookup_singleton_Some in H as [<- <-]; cbn; lia.
Qed.

(** A compaction dying between writing the replacement and renaming it. *)
Lemma journal_compact_invisible_witness :
  match journal_compact sample_journal (sample_world (replicate 9 FOk ++ [FCrash 0])) with
  | (None, w') => recovers w' "outbox.log" (state sample_journal)
  | _ => False
  end.
Proof.
  set (w := sample_world _).
  pose proof (journal_compact_invisible sample_journal w (sample_inv _) (sample_fs_ok _)
    ltac:(by vm_compute)) as H. unfold wp in H.
  destruct (journal_compact sample_journal w) as [r w'] eqn:E.
  assert (match r with None => True | _ => False end) as F
    by (change r with (fst (r, w')); rewrite <- E; by vm_compute).
  destruct r; [exfalso; exact F|exact H].
Defined.

Definition torn_world : world :=
  World {["outbox.log" := 0%nat]}
    {[0%nat := journal_file [sample_payload] ++ take 9 (record_bytes sample_payload)]} 1 [].

Lemma journal_open_recovers_witness :
  match journal_open "outbox.log" 8 torn_world with
  | (Some (Ok j), w') => state j = state sample_journal ∧ journal_inv j w'
  | _ => False
  end.
Proof.
  pose proof (journal_open_recovers "outbox.log" 8 [sample_payload]
    (take 9 (record_bytes sample_payload)) (state sample_journal)
    ltac:(constructor; [apply sample_payload_ok|constructor]) sample_torn sample_replay
    torn_world eq_refl) as H. unfold wp in H.
  destruct (journal_open "outbox.log" 8 torn_world) as [r w'] eqn:E.
  assert (match r with Some (Ok _) => True | _ => False end) as F
    by (change r with (fst (r, w')); rewrite <- E; by vm_compute).
  destruct r as [[j|e|]|]; try (exfalso; exact F). destruct H as (H1 & _ & _ & H2).
  exact (conj H1 H2).
Defined.

(** ** Two windows in which the journal does not recover *)

Lemma recover_short bytes :
  (0 < length bytes < FILE_HEADER_LEN)%nat → recover_bytes bytes = Err InvalidData.
Proof.
  intros H. unfold recover_bytes.
  by destruct (Nat.ltb_spec (length bytes) FILE_HEADER_LEN); [|lia].
Qed.

(** A file of 1 to 15 bytes, which a crash inside the very first header
    write leaves behind, is never repaired: every later [open] fails, under
    every schedule, and leaves the bytes as they are (although such a journal
    can hold no entry). *)
Theorem torn_file_header_is_never_repaired (path : string) (capacity : nat) (bytes : list Z)
    (w : world) :
  path_bytes w path = Some bytes → (0 < length bytes < FILE_HEADER_LEN)%nat →
  wp (journal_open path capacity)
    (fun r w' => (∃ e, r = Err e) ∧ path_bytes w' path = Some bytes)
    (fun w' => path_bytes w' path = Some bytes) w.
Proof.
  intros Hb Hlen. unfold journal_open.
  assert (∀ ino w1, w_names w1 !! path = Some ino → path_bytes w1 path = Some bytes →
    wp (recovered ← recover ino; _ ← sys_nop io_error;
        mret (Jrn path capacity ino (next_id recovered) (entries recovered) false))
      (fun r w' => (∃ e, r = Err e) ∧ path_bytes w' path = Some bytes)
      (fun w' => path_bytes w' path = Some bytes) w1) as Hgo.
  { intros ino w1 Hn H1. pose proof H1 as Hf. unfold path_bytes in Hf. rewrite Hn in Hf.
    injection Hf as Hf. unfold recover. wp_go; try exact H1; try (by split; [eexists|]).
    rewrite Hf. destruct (Nat.eqb_spec (length bytes) 0); [lia|].
    rewrite recover_short by done. apply wp_bind, wp_lift. by split; [eexists|]. }
  assert (∀ w1, path_bytes w1 path = Some bytes →
    wp (ino ← sys_create io_error false path; recovered ← recover ino; _ ← sys_nop io_error;
        mret (Jrn path capacity ino (next_id recovered) (entries recovered) false))
      (fun r w' => (∃ e, r = Err e) ∧ path_bytes w' path = Some bytes)
      (fun w' => path_bytes w' path = Some bytes) w1) as Hgo'.
  { intros w1 H1. pose proof H1 as Hf. unfold path_bytes in Hf.
    destruct (w_names w1 !! path) as [ino|] eqn:Hn; [|done].
    apply wp_bind, wp_sys_create; [intros fs _|intros fs _; by split; [eexists|]|intros fs; done].
    rewrite Hn. by apply Hgo. }
  wp_go; try exact Hb; try (by split; [eexists|]).
  apply wp_remove_stale; intros; [by apply Hgo'|apply Hgo'|by split; [eexists|]|done].
  unfold path_bytes in *. cbn. by rewrite lookup_delete_ne by apply sibling_ne.
Qed.

(** The crash that leaves such a file: the first open dies inside the header write. *)
Lemma torn_file_header_is_never_repaired_witness :
  match journal_open "outbox.log" 8 (World ∅ ∅ 0 (replicate 6 FOk ++ [FCrash 5; FOk])) with
  | (None, w') =>
      path_bytes w' "outbox.log" = Some (take 5 file_header) ∧
      match journal_open "outbox.log" 8 w' with (Some (Err _), _) => True | _ => False end
  | _ => False
  end.
Proof.
  set (first := journal_open "outbox.log" 8 (World ∅ ∅ 0 (replicate 6 FOk ++ [FCrash 5; FOk]))).
  assert (fst first = None) as H1 by (by vm_compute).
  assert (path_bytes (snd first) "outbox.log" = Some (take 5 file_header)) as H2 by (by vm_compute).
  assert (fst (journal_open "outbox.log" 8 (snd first)) = Some (Err InvalidData)) as H3
    by (by vm_compute).
  destruct first as [r w']. cbn [fst snd] in *. subst r. split; [done|].
  pose proof (torn_file_header_is_never_repaired "outbox.log" 8 (take 5 file_header) w' H2 ltac:(by vm_compute; split; repeat constructor)) as H.
  unfold wp in H. destruct (journal_open "outbox.log" 8 w') as [r' w2]. cbn in H3. subst r'.
  by destruct H as [[e He] _].
Defined.

(** A record that starts inside a torn header has the wrong magic. *)
Lemma recover_loop_misaligned fuel off k p p' r :
  (0 < k < 4)%nat → payload_ok p' → (length (take k (record_header p) ++ record_bytes p') ≤ fuel)%nat →
  recover_loop fuel off (take k (record_header p) ++ record_bytes p') r = Err InvalidData.
Proof.
  intros Hk Hp' Hf. rewrite length_app, length_take, length_record_header, length_record_bytes in Hf.
  destruct fuel as [|fuel]; [unfold RECORD_HEADER_LEN in Hf; lia|]. cbn [recover_loop].
  rewrite length_app, length_take, length_record_header, length_record_bytes.
  unfold RECORD_HEADER_LEN in *. rewrite Nat.min_l by lia.
  destruct (Nat.eqb_spec (k + (12 + length p')) 0); [lia|].
  destruct (Nat.ltb_spec (k + (12 + length p')) 12); [lia|].
  assert (k = 1 ∨ k = 2 ∨ k = 3)%nat as [->|[->| ->]] by lia; done.
Qed.

Lemma payload_size p : payload_ok p → validate_record_size p = Ok tt.
Proof.
  intros (_ & H0 & Hm). unfold validate_record_size.
  destruct (Nat.eqb_spec (length p) 0); [lia|].
  by destruct (Z.ltb_spec MAX_RECORD_LEN (Z.of_nat (length p))); [lia|].
Qed.

(** The write of the header and the [set_len] of the rollback both fail. *)
Lemma append_record_stuck ino p k w :
  payload_ok p → w_faults w = [FOk; FErr k; FErr 0] →
  append_record ino p w =
  (Some (Err (io_error OtherIo)),
   with_faults [] (put_bytes ino (length (file_bytes w ino)) (take k (record_header p)) w)).
Proof.
  intros Hp Hw. destruct w as [names data next faults]. cbn [w_faults] in Hw. subst.
  unfold append_record, write_record, seek_end, lift, mbind, io_bind, mret, io_ret, attempt.
  rewrite (payload_size p Hp). done.
Qed.

Lemma append_record_calm ino p w :
  payload_ok p → w_faults w = [] →
  ∃ w', append_record ino p w = (Some (Ok tt), w') ∧ w_names w' = w_names w ∧
    file_bytes w' ino = file_bytes w ino ++ record_bytes p.
Proof.
  intros Hp Hw. set (n := length (file_bytes w ino)).
  exists (put_bytes ino (n + RECORD_HEADER_LEN) p (put_bytes ino n (record_header p) w)).
  split_and!; [|done|].
  - destruct w as [names data next faults]. cbn [w_faults] in Hw. subst.
    unfold append_record, write_record, seek_end, lift, mbind, io_bind, mret, io_ret, attempt.
    by rewrite (payload_size p Hp).
  - unfold record_bytes. rewrite app_assoc.
    rewrite <- (length_record_header p). unfold n. rewrite <- length_app.
    by rewrite (put_bytes_end _ _ (file_bytes w ino ++ record_header p)) by (by apply put_bytes_end).
Qed.

(** An enqueue that passes its checks is one append. *)
Lemma journal_enqueue_run m j p w :
  j_poisoned j = false → (length (j_entries j) < j_capacity j)%nat → j_next_id j + 1 < 2 ^ 64 →
  encode_enqueue (Entry (j_next_id j) m 0) = Ok p →
  journal_enqueue m j w =
  (_ ← append_record (j_ino j) p;
   mret (j_next_id j, Jrn (j_path j) (j_capacity j) (j_ino j) (j_next_id j + 1)
     (bt_insert (j_next_id j) (Entry (j_next_id j) m 0) (j_entries j)) false)) w.
Proof.
  intros Hpo Hcap Hid Hp. unfold journal_enqueue, ensure_healthy. rewrite Hpo.
  rewrite io_bind_run. cbn [mret io_ret].
  destruct (Nat.leb_spec (j_capacity j) (length (j_entries j))); [lia|].
  unfold checked_add. destruct (Z.ltb_spec (j_next_id j + 1) (2 ^ 64)); [|lia].
  cbn [ok_or]. unfold lift, mbind, io_bind. by rewrite Hp.
Qed.

(** The hypothesis of at most one failing call in the enqueue and
    acknowledge theorems is needed: when an append dies inside the first bytes of
    its header and the rollback's [set_len] fails too, the journal stays in use
    behind the torn bytes.  The next enqueue reports success, and from then on
    the file is refused as a whole: that entry and every earlier one are lost. *)
Theorem failed_rollback_loses_the_journal (m m' : OutboxMessage) (p p' : list Z) (k : nat)
    (j : Journal) (w : world) :
  journal_inv j w → w_faults w = [FOk; FErr k; FErr 0] → (0 < k < 4)%nat →
  (length (j_entries j) < j_capacity j)%nat → j_next_id j + 1 < 2 ^ 64 →
  message_ok m → encode_enqueue (Entry (j_next_id j) m 0) = Ok p →
  message_ok m' → encode_enqueue (Entry (j_next_id j) m' 0) = Ok p' →
  ∃ e w1 j2 w2 bytes,
    journal_enqueue m j w = (Some (Err e), w1) ∧
    journal_enqueue m' j w1 = (Some (Ok (j_next_id j, j2)), w2) ∧
    path_bytes w2 (j_path j) = Some bytes ∧ recover_bytes bytes = Err InvalidData.
Proof.
  intros (Hpo & Hn & Hst & ps & Hps & Hf & Hrep) Hw Hk Hcap Hid Hm Hp Hm' Hp'.
  assert (∀ m1 p1, message_ok m1 → encode_enqueue (Entry (j_next_id j) m1 0) = Ok p1 →
    payload_ok p1) as Hok.
  { intros m1 p1 H1. apply encode_enqueue_ok. destruct Hst as (_ & _ & Hb).
    cbn [state next_id] in Hb. split; [unfold in_u; cbn; lia|done]. }
  assert (payload_ok p) as Hpok by eauto. assert (payload_ok p') as Hpok' by eauto.
  set (w1 := with_faults [] (put_bytes (j_ino j) (length (file_bytes w (j_ino j)))
                              (take k (record_header p)) w)).
  destruct (append_record_calm (j_ino j) p' w1) as (w2 & Ha & Hn2 & Hf2); [done..|].
  eexists _, w1, _, w2, (file_bytes w2 (j_ino j)). split_and!.
  - rewrite (journal_enqueue_run m j p) by done. unfold mbind, io_bind.
    by rewrite (append_record_stuck _ p k).
  - rewrite (journal_enqueue_run m' j p') by done. unfold mbind, io_bind. by rewrite Ha.
  - unfold path_bytes. rewrite Hn2. change (w_names w1) with (w_names w). by rewrite Hn.
  - rewrite Hf2. unfold w1. rewrite file_bytes_faults.
    rewrite (put_bytes_end _ _ (file_bytes w (j_ino j))), Hf, <- app_assoc by done.
    destruct (recover_bytes_journal ps (take k (record_header p) ++ record_bytes p') (state j) Hps Hrep)
      as (fuel & Hfuel & ->).
    by apply recover_loop_misaligned.
Qed.

Lemma failed_rollback_loses_the_journal_witness :
  match journal_enqueue sample_message sample_journal (sample_world [FOk; FErr 2; FErr 0]) with
  | (Some (Err _), w1) =>
      match journal_enqueue sample_message sample_journal w1 with
      | (Some (Ok (i, _)), w2) =>
          i = 2 ∧ recover_bytes <$> path_bytes w2 "outbox.log" = Some (Err InvalidData)
      | _ => False
      end
  | _ => False
  end.
Proof.
  destruct (encode_enqueue (Entry (j_next_id sample_journal) sample_message 0)) as [p| |] eqn:E;
    [|by vm_compute in E..].
  destruct (failed_rollback_loses_the_journal sample_message sample_message p p 2 sample_journal
    (sample_world [FOk; FErr 2; FErr 0]) (sample_inv _)) as (e & w1 & j2 & w2 & bytes & -> & -> & Hb & Hr);
    try done; try apply sample_message_ok; try (cbn; lia).
  change "outbox.log"%string with (j_path sample_journal). rewrite Hb. cbn. by rewrite Hr.
Defined.

End Compaction.
