(* ===== verification/Forwarder.v ===== *)
(** * The outbox port and the forwarder (crates/aether-ports/src/outbox.rs,
    crates/aether-application/src/outbox_forwarder.rs)

    [DurableOutbox] is the port's trait; [OutboxSpec] is what the forwarder
    relies on.  The in-memory outbox and the journal of [Outbox.v] are instances
    of both, so the theorems about [drain_once] hold for either.  The transport
    ([UplinkPublisher]) is a parameter: any function of the messages it was
    handed so far.  One pass runs to its end before the next call of the outbox. *)

From stdpp Require Import base tactics numbers list gmap strings.
From S2P Require Import Prelude Btree Fs Outbox.
Import Fs Outbox.
#[local] Open Scope Z_scope.

Module Forwarder.

(** An operation of an adapter with state [S]; [None]: the process died in it. *)
Definition op (S A : Type) : Type := S → option (res PortErrorKind A) * S.

(** The port's trait. *)
Class DurableOutbox (S : Type) := {
  enqueue : OutboxMessage → op S Z;
  peek : nat → op S (list OutboxEntry);
  acknowledge : list Z → op S nat }.

Definition unacked (ids : list Z) (q : list OutboxEntry) : list OutboxEntry :=
  List.filter (fun e => negb (bool_decide (id e ∈ ids))) q.

(** What an adapter promises: [queue] is what it holds, [survives s q] says that
    a restart from [s] finds exactly [q], and [quiet] rules out I/O failures. *)
Class OutboxSpec (S : Type) `{!DurableOutbox S} := {
  ready : S → Prop;
  quiet : S → Prop;
  queue : S → list OutboxEntry;
  survives : S → list OutboxEntry → Prop;
  ready_survives s : ready s → survives s (queue s);
  ready_ids s : ready s → NoDup (map id (queue s));
  peek_spec limit s : ready s → peek limit s = (Some (Ok (take limit (queue s))), s);
  enqueue_spec m s : ready s → message_ok m →
    match enqueue m s with
    | (Some (Ok i), s') => ready s' ∧ queue s' = queue s ++ [Entry i m 0]
    | (Some (Err _), s') | (None, s') =>
        survives s' (queue s) ∨ ∃ i, survives s' (queue s ++ [Entry i m 0])
    | (Some Panic, _) => False
    end;
  acknowledge_spec ids s : ready s →
    match acknowledge ids s with
    | (Some (Ok n), s') =>
        ready s' ∧ queue s' = unacked ids (queue s) ∧
        (n + length (queue s') = length (queue s))%nat
    | (Some (Err _), s') | (None, s') =>
        survives s' (queue s) ∨ survives s' (unacked ids (queue s))
    | (Some Panic, _) => False
    end;
  acknowledge_quiet i s : ready s → quiet s →
    match acknowledge [i] s with
    | (Some (Ok _), s') => quiet s'
    | _ => False
    end }.

(** ** The in-memory adapter *)

#[global] Instance memory_outbox : DurableOutbox MemoryOutbox := {
  enqueue m s := let '(r, s') := memory_enqueue m s in (Some r, s');
  peek limit s := (Some (memory_peek limit s), s);
  acknowledge ids s := let '(r, s') := memory_acknowledge ids s in (Some r, s') }.

(** Identifiers are below [next_id] and distinct. *)
Definition memory_inv (s : MemoryOutbox) : Prop :=
  NoDup (map id (mo_entries s)) ∧ Forall (fun e => id e < mo_next_id s) (mo_entries s).

Lemma unacked_length ids q : (length (unacked ids q) ≤ length q)%nat.
Proof. apply filter_length_le. Qed.

Lemma unacked_sublist ids q : unacked ids q `sublist_of` q.
Proof. unfold unacked. induction q as [|e q IH]; cbn; [constructor|]. case_if; by constructor. Qed.

Lemma memory_inv_new capacity : memory_inv (memory_with_capacity capacity).
Proof. split; constructor. Qed.

#[global, program] Instance memory_spec : OutboxSpec MemoryOutbox := {
  ready := memory_inv;
  quiet _ := True;
  queue := mo_entries;
  survives s q := mo_entries s = q }.
Next Obligation. done. Qed.
Next Obligation. by intros s []. Qed.
Next Obligation. done. Qed.
Next Obligation.
  intros m s [Hn Hb] _. cbn. unfold memory_enqueue. case_if; [by left|].
  unfold checked_add. case_if; [|by left]. cbn. split; [|done]. split; cbn.
  - rewrite map_app. apply NoDup_app. split; [done|]. split; [|apply NoDup_singleton].
    intros i Hi ->%list_elem_of_singleton. apply list_elem_of_In, in_map_iff in Hi as (e & He & Hin).
    apply list_elem_of_In in Hin. pose proof (proj1 (Forall_forall _ _) Hb e Hin) as Hlt.
    cbv beta in Hlt. cbn in He, Hlt. lia.
  - apply Forall_app. split; [eapply Forall_impl; [exact Hb|]; cbn; intros; lia|]. repeat constructor. cbn. lia.
Qed.
Next Obligation.
  intros ids s [Hn Hb]. cbn. fold (unacked ids (mo_entries s)).
  pose proof (unacked_length ids (mo_entries s)). split_and!; [|done|lia]. split; cbn.
  - eapply sublist_NoDup; [exact Hn|apply (fmap_sublist id), unacked_sublist].
  - by apply Forall_filter_bool.
Qed.
Next Obligation. done. Qed.

(** ** The journal adapter

    Its state is the journal in memory and the file system under it. *)

Definition run_journal {A} (f : Journal → port_io (A * Journal)) : op (Journal * world) A :=
  fun '(j, w) =>
  match f j w with
  | (Some (Ok (a, j')), w') => (Some (Ok a), (j', w'))
  | (Some (Err e), w') => (Some (Err e), (j, w'))
  | (Some Panic, w') => (Some Panic, (j, w'))
  | (None, w') => (None, (j, w'))
  end.

#[global] Instance journal_outbox : DurableOutbox (Journal * world) := {
  enqueue m := run_journal (journal_enqueue m);
  peek limit := run_journal (fun j => es ← journal_peek limit j; mret (es, j));
  acknowledge ids := run_journal (journal_acknowledge ids) }.

Lemma run_journal_wp {A} (f : Journal → port_io (A * Journal)) (j : Journal) (w : world) Q C :
  wp (f j) Q C w →
  match run_journal f (j, w) with
  | (Some (Ok a), (j', w')) => Q (Ok (a, j')) w'
  | (Some (Err e), (j', w')) => j' = j ∧ Q (Err e) w'
  | (Some Panic, (j', w')) => Q Panic w'
  | (None, (j', w')) => j' = j ∧ C w'
  end.
Proof. unfold wp, run_journal. by destruct (f j w) as [[[[]| |]|] ?]. Qed.

Definition journal_queue (s : Journal * world) : list OutboxEntry := map snd (j_entries (fst s)).
Definition journal_survives (s : Journal * world) (q : list OutboxEntry) : Prop :=
  ∃ r, recovers (snd s) (j_path (fst s)) r ∧ map snd (entries r) = q.

Lemma state_ids r : state_ok r → map id (map snd (entries r)) = map fst (entries r).
Proof.
  intros (_ & Hf & _). rewrite map_map. apply map_ext_in. intros p Hp%list_elem_of_In.
  by destruct (proj1 (Forall_forall _ _) Hf p Hp) as [-> _].
Qed.

Lemma unacked_keep ids m next :
  state_ok (Rec next m) → map snd (keep_unacked ids m) = unacked ids (map snd m).
Proof.
  intros (_ & Hf & _). cbn [entries] in Hf. unfold keep_unacked, unacked.
  induction Hf as [|p m' Hp _ IH]; cbn; [done|]. destruct Hp as [-> _].
  case_if; cbn; by rewrite IH.
Qed.

Section JournalSpec.
Local Notation inv s := (journal_inv (fst s) (snd s)).

Lemma journal_ready_survives s : inv s → journal_survives s (journal_queue s).
Proof. intros H. exists (state (fst s)). split; [by apply inv_recovers|done]. Qed.

Lemma journal_enqueue_spec m s :
  inv s → message_ok m →
  match enqueue m s with
  | (Some (Ok i), s') => inv s' ∧ journal_queue s' = journal_queue s ++ [Entry i m 0]
  | (Some (Err _), s') | (None, s') =>
      journal_survives s' (journal_queue s) ∨
      ∃ i, journal_survives s' (journal_queue s ++ [Entry i m 0])
  | (Some Panic, _) => False
  end.
Proof.
  destruct s as [j w]. intros Hinv Hm.
  pose proof (run_journal_wp _ _ _ _ _ (wp_journal_enqueue m j w Hinv Hm)) as H.
  set (new := Rec _ _) in H.
  assert (∀ w', recovers w' (j_path j) (state j) ∨ recovers w' (j_path j) new →
    journal_survives (j, w') (journal_queue (j, w)) ∨
    ∃ i, journal_survives (j, w') (journal_queue (j, w) ++ [Entry i m 0])) as Hdie.
  { intros w' [Hr|Hr]; [left; by eexists|right]. exists (j_next_id j), new. split; [done|].
    apply map_app. }
  cbn [enqueue journal_outbox].
  destruct (run_journal _ _) as [[[i|e|]|] [j' w']].
  - destruct H as (-> & Hs & H). split; [done|]. unfold journal_queue. cbn [fst].
    injection Hs as _ ->. apply map_app.
  - destruct H as (-> & H & _). by apply Hdie.
  - done.
  - destruct H as (-> & H). by apply Hdie.
Qed.

Lemma journal_acknowledge_spec ids s :
  inv s →
  match acknowledge ids s with
  | (Some (Ok n), s') =>
      inv s' ∧ journal_queue s' = unacked ids (journal_queue s) ∧
      (n + length (journal_queue s') = length (journal_queue s))%nat
  | (Some (Err _), s') | (None, s') =>
      journal_survives s' (journal_queue s) ∨ journal_survives s' (unacked ids (journal_queue s))
  | (Some Panic, _) => False
  end.
Proof.
  destruct s as [j w]. intros Hinv. pose proof (proj1 (proj2 (proj2 Hinv))) as Hst.
  pose proof (run_journal_wp _ _ _ _ _ (wp_journal_acknowledge ids j w Hinv)) as H.
  set (new := Rec _ _) in H. pose proof (unacked_keep ids _ _ Hst) as Hu.
  assert (∀ w', recovers w' (j_path j) (state j) ∨ recovers w' (j_path j) new →
    journal_survives (j, w') (journal_queue (j, w)) ∨
    journal_survives (j, w') (unacked ids (journal_queue (j, w)))) as Hdie.
  { intros w' [Hr|Hr]; [left; by eexists|right]. by exists new. }
  cbn [acknowledge journal_outbox].
  destruct (run_journal _ _) as [[[n|e|]|] [j' w']].
  - destruct H as (Hn & Hs & H). split; [done|]. unfold journal_queue. cbn [fst].
    rewrite !length_map. split; [|done]. injection Hs as _ ->. exact Hu.
  - destruct H as (-> & H & _). by apply Hdie.
  - done.
  - destruct H as (-> & H). by apply Hdie.
Qed.

End JournalSpec.

Lemma calm_acknowledge ids j : calm (journal_acknowledge ids j).
Proof. unfold journal_acknowledge, ensure_healthy, append_record, seek_end, write_record. calm. Qed.

#[global, program] Instance journal_spec : OutboxSpec (Journal * world) := {
  ready s := journal_inv (fst s) (snd s);
  quiet s := budget (snd s) = 0%nat;
  queue := journal_queue;
  survives := journal_survives;
  ready_survives := journal_ready_survives;
  enqueue_spec := journal_enqueue_spec;
  acknowledge_spec := journal_acknowledge_spec }.
Next Obligation.
  intros [j w] (_ & _ & Hst & _). unfold journal_queue. cbn [fst].
  pose proof (state_ids (state j) Hst) as E. cbn [entries state] in E. rewrite E. apply bt_sorted_NoDup, Hst.
Qed.
Next Obligation.
  intros limit [j w] (Hp & _). cbn. unfold journal_peek, ensure_healthy. cbn in Hp. by rewrite Hp.
Qed.
Next Obligation.
  intros i [j w] Hinv Hq. cbn [fst snd] in *.
  pose proof (run_journal_wp _ _ _ _ _ (wp_journal_acknowledge [i] j w Hinv)) as H.
  destruct (calm_acknowledge [i] j w Hq) as [Hlive Hb].
  cbn [acknowledge journal_outbox]. unfold run_journal in *.
  destruct (journal_acknowledge [i] j w) as [[[[n j']|e|]|] w']; cbn [fst snd] in *;
    [done| |done|done].
  destruct H as (_ & _ & _ & H). cbn [length] in H. lia.
Qed.

(** ** The forwarder *)

#[global] Instance op_ret S : MRet (op S) := fun A a s => (Some (Ok a), s).
#[global] Instance op_bind S : MBind (op S) := fun A B f m s =>
  match m s with
  | (Some (Ok a), s') => f a s'
  | (Some (Err e), s') => (Some (Err e), s')
  | (Some Panic, s') => (Some Panic, s')
  | (None, s') => (None, s')
  end.

Definition answer {S A} (r : res PortErrorKind A) : op S A := fun s => (Some r, s).

Record DrainReport := Report { examined : nat; delivered : nat }.

(** What the transport was handed, and what it answered. *)
Definition log : Type := list (OutboxMessage * res PortErrorKind unit).

Section Drain.
Context {S : Type} `{Spec : OutboxSpec S}.
(** [UplinkPublisher::publish]: any answer, depending on everything before it. *)
Variable publish : log → OutboxMessage → res PortErrorKind unit.

Definition on_outbox {A} (o : op S A) : op (S * log) A := fun '(s, l) =>
  let '(r, s') := o s in (r, (s', l)).

Definition publish_one (m : OutboxMessage) : op (S * log) unit := fun '(s, l) =>
  let r := publish l m in (Some r, (s, l ++ [(m, r)])).

Definition ensure_acknowledged (i : Z) : op S unit :=
  removed ← acknowledge [i];
  answer (if (removed =? 1)%nat then Ok tt else Err Conflict).

(** The [for] loop over the peeked entries. *)
Fixpoint drain_loop (es : list OutboxEntry) (report : DrainReport) : op (S * log) DrainReport :=
  match es with
  | [] => mret report
  | e :: es =>
      _ ← publish_one (message e);
      _ ← on_outbox (ensure_acknowledged (id e));
      drain_loop es (Report (examined report) (delivered report + 1))
  end.

Definition drain_once (limit : nat) : op (S * log) DrainReport :=
  es ← on_outbox (peek limit);
  drain_loop es (Report (length es) 0).

Definition confirmed (x : OutboxMessage * res PortErrorKind unit) : Prop := snd x = Ok tt.

Lemma unacked_head e q :
  NoDup (map id (e :: q)) → unacked [id e] (e :: q) = q.
Proof.
  intros [Hn Hd]%NoDup_cons. unfold unacked. cbn [List.filter].
  rewrite bool_decide_true by set_solver. cbn [negb]. clear Hd.
  induction q as [|e' q IH]; [done|]. cbn [List.filter map] in *.
  apply not_elem_of_cons in Hn as [Hne Hn].
  rewrite bool_decide_false by (intros ?%list_elem_of_singleton; congruence). cbn [negb].
  by rewrite IH.
Qed.

(** Acknowledging the head of the queue. *)
Lemma ensure_acknowledged_head e q s :
  ready s → queue s = e :: q →
  match ensure_acknowledged (id e) s with
  | (Some (Ok _), s') => ready s' ∧ queue s' = q
  | (Some (Err _), s') | (None, s') => survives s' (e :: q) ∨ survives s' q
  | (Some Panic, _) => False
  end.
Proof.
  intros Hr Hq. pose proof (ready_ids s Hr) as Hd. rewrite Hq in Hd.
  pose proof (acknowledge_spec [id e] s Hr) as H. rewrite Hq, unacked_head in H by done.
  unfold ensure_acknowledged, mbind, op_bind.
  destruct (acknowledge [id e] s) as [[[n|err|]|] s']; [|done..].
  destruct H as (Hr' & Hq' & Hn). rewrite Hq' in Hn. cbn [length] in Hn.
  destruct (Nat.eqb_spec n 1); [done|lia].
Qed.

Lemma drain_loop_spec es rest s l report :
  ready s → queue s = es ++ rest →
  let '(r, (s', l')) := drain_loop es report (s, l) in
  ∃ new, l' = l ++ new ∧ map fst new `prefix_of` map message es ∧
    match r with
    | Some (Ok report') =>
        report' = Report (examined report) (delivered report + length es) ∧
        ready s' ∧ queue s' = rest ∧ length new = length es ∧ Forall confirmed new
    | _ => ∃ k, survives s' (drop k (es ++ rest)) ∧ (k ≤ length new ≤ k + 1)%nat ∧
                Forall confirmed (take k new)
    end.
Proof.
  revert s l report. induction es as [|e es IH]; intros s l report Hr Hq.
  { cbn. exists []. rewrite app_nil_r. split_and!; try done.
    destruct report as [x d]. cbn. by rewrite Nat.add_0_r. }
  cbn [drain_loop]. unfold mbind, op_bind, publish_one.
  destruct (publish l (message e)) as [[]|err|] eqn:Hp.
  2,3: exists [(message e, publish l (message e))]; rewrite Hp; split; [done|];
    split; [cbn; apply prefix_cons, prefix_nil|]; exists 0%nat; rewrite drop_0, take_0, <- Hq;
    split_and!; [by apply ready_survives|cbn; lia|cbn; lia|constructor].
  set (l1 := l ++ [(message e, Ok tt)]).
  pose proof (ensure_acknowledged_head e (es ++ rest) s Hr Hq) as H. unfold on_outbox.
  assert (∀ s', survives s' (e :: es ++ rest) ∨ survives s' (es ++ rest) →
    ∃ new, l1 = l ++ new ∧ map fst new `prefix_of` map message (e :: es) ∧
    ∃ k, survives s' (drop k ((e :: es) ++ rest)) ∧ (k ≤ length new ≤ k + 1)%nat ∧
         Forall confirmed (take k new)) as Hstop.
  { intros s' Hs. exists [(message e, Ok tt)]. split; [done|].
    split; [cbn; apply prefix_cons, prefix_nil|].
    destruct Hs as [Hs|Hs]; [exists 0%nat|exists 1%nat]; (split; [exact Hs|]);
      split; cbn; [lia|constructor|lia|by repeat constructor]. }
  destruct (ensure_acknowledged (id e) s) as [[[[]|err|]|] s1]; [|by apply Hstop|done|by apply Hstop].
  destruct H as [Hr1 Hq1]. clear Hstop.
  specialize (IH s1 l1 (Report (examined report) (delivered report + 1)) Hr1 Hq1).
  destruct (drain_loop es _ (@pair S log s1 l1)) as [r [s' l']].
  destruct IH as (new & -> & Hpre & Hres). exists ((message e, Ok tt) :: new).
  split; [unfold l1; by rewrite <- app_assoc|]. split; [cbn; by apply prefix_cons|].
  assert ((∃ k, survives s' (drop k (es ++ rest)) ∧ (k ≤ length new ≤ k + 1)%nat ∧
                Forall confirmed (take k new)) →
          ∃ k, survives s' (drop k ((e :: es) ++ rest)) ∧
               (k ≤ length ((message e, Ok tt : res PortErrorKind unit) :: new) ≤ k + 1)%nat ∧
               Forall confirmed (take k ((message e, Ok tt) :: new))) as Hshift.
  { intros (k & H1 & H2 & H3). exists (1 + k)%nat. split; [done|]. split; [cbn; lia|].
    by constructor. }
  destruct r as [[report'|err|]|]; [|by apply Hshift..].
  destruct Hres as (-> & H1 & H2 & H3 & H4). cbn [examined delivered length].
  split_and!; [f_equal; lia|done|done|lia|by constructor].
Qed.

(** C22. At-least-once, in order: whatever the transport answers and whatever
    fails, one drain pass hands over a prefix of the queue, oldest first and each
    message once; success means every examined message was confirmed by the
    transport and exactly those left the queue.  If the pass fails or the
    process dies, what a restart finds lacks only messages that were confirmed,
    and at most one more message was handed over, so nothing is lost and at most
    one message can be delivered again. *)
Theorem drain_once_at_least_once (limit : nat) (s : S) (l : log) :
  ready s →
  let '(r, (s', l')) := drain_once limit (s, l) in
  ∃ new, l' = l ++ new ∧ map fst new `prefix_of` map message (take limit (queue s)) ∧
    match r with
    | Some (Ok report) =>
        examined report = Nat.min limit (length (queue s)) ∧
        delivered report = examined report ∧ length new = delivered report ∧
        Forall confirmed new ∧ ready s' ∧ queue s' = drop limit (queue s)
    | _ => ∃ k, survives s' (drop k (queue s)) ∧ (k ≤ length new ≤ k + 1)%nat ∧
                Forall confirmed (take k new)
    end.
Proof.
  intros Hr. unfold drain_once, mbind, op_bind, on_outbox. rewrite peek_spec by done.
  pose proof (drain_loop_spec (take limit (queue s)) (drop limit (queue s)) s l
    (Report (length (take limit (queue s))) 0) Hr ltac:(by rewrite take_drop)) as H.
  rewrite take_drop in H. destruct (drain_loop _ _ _) as [r [s' l']].
  destruct H as (new & -> & Hpre & H). exists new. split_and!; [done..|].
  destruct r as [[report|err|]|]; [|done..]. destruct H as (-> & H1 & H2 & H3 & H4).
  cbn [examined delivered]. rewrite length_take in *. split_and!; try done.
Qed.

Lemma ensure_acknowledged_quiet e q s :
  ready s → quiet s → queue s = e :: q →
  ∃ s', ensure_acknowledged (id e) s = (Some (Ok tt), s') ∧ ready s' ∧ quiet s' ∧ queue s' = q.
Proof.
  intros Hr Hq He. pose proof (ensure_acknowledged_head e q s Hr He) as H.
  pose proof (ready_ids s Hr) as Hd. rewrite He in Hd.
  pose proof (acknowledge_spec [id e] s Hr) as Ha. rewrite He, unacked_head in Ha by done.
  pose proof (acknowledge_quiet (id e) s Hr Hq) as Hquiet.
  unfold ensure_acknowledged, mbind, op_bind, answer in *.
  destruct (acknowledge [id e] s) as [[[n|err|]|] s1]; try done.
  destruct Ha as (_ & Hq1 & Hn). rewrite Hq1 in Hn. cbn [length] in Hn.
  destruct (Nat.eqb_spec n 1); [|lia]. exists s1. by destruct H.
Qed.

Lemma drain_loop_quiet es rest s l report :
  ready s → quiet s → queue s = es ++ rest → (∀ l m, publish l m = Ok tt) →
  ∃ s', drain_loop es report (s, l) =
    (Some (Ok (Report (examined report) (delivered report + length es))),
     (s', l ++ map (fun e => (message e, Ok tt)) es)) ∧ ready s' ∧ queue s' = rest.
Proof.
  intros Hr Hq He Hpub. revert s l report Hr Hq He.
  induction es as [|e es IH]; intros s l report Hr Hq He.
  { exists s. cbn. rewrite app_nil_r, Nat.add_0_r. by destruct report. }
  destruct (ensure_acknowledged_quiet e (es ++ rest) s Hr Hq He) as (s1 & Ha & Hr1 & Hq1 & He1).
  cbn [drain_loop]. unfold mbind, op_bind, publish_one, on_outbox. rewrite Hpub, Ha.
  destruct (IH s1 (l ++ [(message e, Ok tt)]) (Report (examined report) (delivered report + 1))
    Hr1 Hq1 He1) as (s' & -> & ?).
  exists s'. cbn [examined delivered map length]. rewrite <- app_assoc, <- Nat.add_assoc. done.
Qed.

(** Progress: with a working transport and no I/O failure, one pass delivers
    and removes exactly the oldest [limit] messages. *)
Theorem drain_once_delivers (limit : nat) (s : S) (l : log) :
  ready s → quiet s → (∀ l m, publish l m = Ok tt) →
  let n := Nat.min limit (length (queue s)) in
  ∃ s', drain_once limit (s, l) =
    (Some (Ok (Report n n)),
     (s', l ++ map (fun e => (message e, Ok tt)) (take limit (queue s)))) ∧
    ready s' ∧ queue s' = drop limit (queue s).
Proof.
  intros Hr Hq Hpub n. unfold drain_once, mbind, op_bind, on_outbox. rewrite peek_spec by done.
  destruct (drain_loop_quiet (take limit (queue s)) (drop limit (queue s)) s l
    (Report (length (take limit (queue s))) 0) Hr Hq ltac:(by rewrite take_drop) Hpub)
    as (s' & -> & ?).
  exists s'. cbn [examined delivered]. by rewrite length_take.
Qed.

End Drain.

(** ** The theorems at concrete adapters *)

Definition accept_all (_ : log) (_ : OutboxMessage) : res PortErrorKind unit := Ok tt.

(** The journal adapter dies while recording the acknowledgement: the message was
    handed over and may still be in the file. *)
Lemma drain_once_at_least_once_witness :
  match drain_once accept_all 4 ((sample_journal, sample_world [FOk; FCrash 3]), []) with
  | (None, (s', l')) =>
      length l' = 1%nat ∧
      (survives s' [sample_entry] ∨ survives s' [])
  | _ => False
  end.
Proof.
  pose proof (drain_once_at_least_once accept_all 4
    (sample_journal, sample_world [FOk; FCrash 3]) [] (sample_inv _)) as H.
  set (run := drain_once _ _ _) in *.
  assert (fst run = None ∧ length (snd (snd run)) = 1%nat) as [H1 H2] by (by vm_compute).
  destruct run as [r [s' l']]. cbn [fst snd] in *. subst r. split; [done|].
  destruct H as (new & -> & _ & k & Hs & _). destruct k as [|k]; [by left|right].
  by destruct k.
Defined.

Lemma drain_once_delivers_witness :
  ∃ s', drain_once accept_all 4 ((sample_journal, sample_world []), []) =
    (Some (Ok (Report 1 1)), (s', [(sample_message, Ok tt)])) ∧ queue s' = [].
Proof.
  assert (ready (sample_journal, sample_world [])) as Hr by apply sample_inv.
  destruct (drain_once_delivers accept_all 4 (sample_journal, sample_world []) []
    Hr eq_refl (fun _ _ => eq_refl)) as (s' & H1 & _ & H2).
  exists s'. split; [exact H1|exact H2].
Defined.

End Forwarder.
