(* ===== verification/Spool.v ===== *)
(** * The CloudLink spool (libs/aether-store-local/src/cloudlink_spool.rs,
    crates/aether-ports/src/cloudlink.rs)

    The durable stream of business facts waiting for an application receipt: the
    port's data, the state transitions shared by the in-memory and the file
    adapter, and the theorem that no accepted fact disappears silently.  Strings
    are their bytes; the state is passed explicitly, and an operation that fails
    after having changed it returns the changed state, as [&mut self] does. *)

From stdpp Require Import base tactics numbers list relations.
From S2P Require Import Prelude Btree.
#[local] Open Scope Z_scope.

Module Spool.

(** ** The port's data *)

Inductive CloudLinkMessageKind :=
| RuntimeManifestReport | TelemetryBatch | IntegrationTopologySnapshot
| IntegrationObservationBatch | DataLoss.

Inductive CloudLinkDeliveryState := Queued | Offered | TransportPublished.

Inductive CloudLinkSpoolErrorReason :=
| InvalidData | StaleSession | WrongStream | ConflictingIdentity | PositionGap
| PendingRecords | CorruptJournal | Storage.

Record CloudLinkRecordIdentity := Identity { ri_stream : list Z; ri_epoch : Z; position : Z }.
Record CloudLinkSessionBinding := Session { session_id : list Z; session_epoch : Z }.

Record CloudLinkEnqueue := Enqueue {
  e_kind : CloudLinkMessageKind;
  e_batch_id : list Z;
  e_digest : list Z;
  e_payload : list Z;
  e_created_at : Z;
  e_expires_at : option Z }.

Record CloudLinkRecord := CLRecord {
  identity : CloudLinkRecordIdentity;
  message_kind : CloudLinkMessageKind;
  batch_id : list Z;
  digest : list Z;
  r_payload : list Z;
  created_at_ms : Z;
  expires_at_ms : option Z;
  delivery : CloudLinkDeliveryState;
  offered_session : option CloudLinkSessionBinding }.

Record CloudLinkDurableAck := Ack {
  a_session : CloudLinkSessionBinding;
  a_stream : list Z;
  a_epoch : Z;
  acknowledged_position : Z;
  a_batch_id : list Z;
  a_digest : list Z;
  receipt_id : list Z }.

Inductive DurableAckOutcome := Applied (removed : nat) | Duplicate.

Record CloudLinkDataLossEvidence := Loss {
  l_stream : list Z;
  l_epoch : Z;
  first_lost : Z;
  last_lost : Z;
  earliest_retained : Z;
  l_reason : list Z;
  recorded_at : Z }.

Record CloudLinkReplayWindow := Window {
  w_records : list CloudLinkRecord;
  w_loss : option CloudLinkDataLossEvidence }.

Record CloudLinkSpoolStatus := Status {
  s_stream : list Z;
  s_epoch : Z;
  s_next : Z;
  s_earliest : Z;
  s_last_ack_position : Z;
  s_pending : nat;
  s_last_ack : option CloudLinkDurableAck;
  s_loss : option CloudLinkDataLossEvidence }.

#[global] Instance kind_eq_dec : EqDecision CloudLinkMessageKind.
Proof. solve_decision. Defined.
#[global] Instance delivery_eq_dec : EqDecision CloudLinkDeliveryState.
Proof. solve_decision. Defined.
#[global] Instance identity_eq_dec : EqDecision CloudLinkRecordIdentity.
Proof. solve_decision. Defined.
#[global] Instance session_eq_dec : EqDecision CloudLinkSessionBinding.
Proof. solve_decision. Defined.
#[global] Instance record_eq_dec : EqDecision CloudLinkRecord.
Proof. solve_decision. Defined.
#[global] Instance ack_eq_dec : EqDecision CloudLinkDurableAck.
Proof. solve_decision. Defined.
#[global] Instance loss_eq_dec : EqDecision CloudLinkDataLossEvidence.
Proof. solve_decision. Defined.

Definition from_enqueue (i : CloudLinkRecordIdentity) (e : CloudLinkEnqueue) : CloudLinkRecord :=
  CLRecord i (e_kind e) (e_batch_id e) (e_digest e) (e_payload e) (e_created_at e)
    (e_expires_at e) Queued None.

Definition set_offered (s : CloudLinkSessionBinding) (r : CloudLinkRecord) : CloudLinkRecord :=
  CLRecord (identity r) (message_kind r) (batch_id r) (digest r) (r_payload r)
    (created_at_ms r) (expires_at_ms r) Offered (Some s).

Definition set_transport_published (s : CloudLinkSessionBinding) (r : CloudLinkRecord)
    : CloudLinkRecord :=
  CLRecord (identity r) (message_kind r) (batch_id r) (digest r) (r_payload r)
    (created_at_ms r) (expires_at_ms r) TransportPublished (Some s).

Definition extend_overflow (last earliest : Z) (e : CloudLinkDataLossEvidence)
    : CloudLinkDataLossEvidence :=
  Loss (l_stream e) (l_epoch e) (first_lost e) last earliest (l_reason e) (recorded_at e).

(** ** Validation *)

Definition MAX_SPOOL_PAYLOAD_BYTES : Z := 256 * 1024.
Definition MAX_SPOOL_RECORDS : Z := 65536.

Definition is_ascii_alphanumeric (b : Z) : bool :=
  ((0x30 <=? b) && (b <=? 0x39)) || ((0x41 <=? b) && (b <=? 0x5A)) || ((0x61 <=? b) && (b <=? 0x7A)).

(** Letters, digits and [. _ : -]. *)
Definition valid_identifier (value : list Z) (maximum : nat) : bool :=
  negb (length value =? 0)%nat && (length value <=? maximum)%nat &&
  forallb (fun b => is_ascii_alphanumeric b || (b =? 0x2E) || (b =? 0x5F) || (b =? 0x3A) || (b =? 0x2D))
    value.

Definition check (b : bool) (e : CloudLinkSpoolErrorReason)
    : res CloudLinkSpoolErrorReason unit :=
  if b then Ok tt else Err e.

Definition validate_stream_id (stream_id : list Z) : res CloudLinkSpoolErrorReason unit :=
  check (valid_identifier stream_id 128) InvalidData.

Definition validate_session (s : CloudLinkSessionBinding) : res CloudLinkSpoolErrorReason unit :=
  check ((0 <? session_epoch s) && valid_identifier (session_id s) 128) InvalidData.

(** ASCII "sha256:". *)
Definition SHA256_PREFIX : list Z := [0x73; 0x68; 0x61; 0x32; 0x35; 0x36; 0x3A].

(** "sha256:" and 64 lowercase hexadecimal digits. *)
Definition digest_valid (digest : list Z) : bool :=
  (length digest =? 71)%nat && bool_decide (take 7 digest = SHA256_PREFIX) &&
  forallb (fun b => ((0x30 <=? b) && (b <=? 0x39)) || ((0x61 <=? b) && (b <=? 0x66))) (drop 7 digest).

Definition expires_after (created : Z) (expires : option Z) : bool :=
  match expires with Some t => created <? t | None => true end.

Definition validate_enqueue (e : CloudLinkEnqueue) : res CloudLinkSpoolErrorReason unit :=
  _ ← check (valid_identifier (e_batch_id e) 128) InvalidData;
  _ ← check (digest_valid (e_digest e)) InvalidData;
  _ ← check (negb (length (e_payload e) =? 0)%nat &&
             (Z.of_nat (length (e_payload e)) <=? MAX_SPOOL_PAYLOAD_BYTES)) InvalidData;
  check (expires_after (e_created_at e) (e_expires_at e)) InvalidData.

(** ** The state and its transitions *)

Record CloudLinkSpoolState := SpoolState {
  stream_id : list Z;
  stream_epoch : Z;
  next_position : Z;
  capacity : nat;
  records : list (Z * CloudLinkRecord);
  last_ack : option CloudLinkDurableAck;
  last_acknowledged_position : Z;
  data_loss : option CloudLinkDataLossEvidence }.

#[global] Instance state_eq_dec : EqDecision CloudLinkSpoolState.
Proof. solve_decision. Defined.

Definition spool (A : Type) : Type :=
  CloudLinkSpoolState → res CloudLinkSpoolErrorReason A * CloudLinkSpoolState.

Definition with_records (m : list (Z * CloudLinkRecord)) (s : CloudLinkSpoolState)
    : CloudLinkSpoolState :=
  SpoolState (stream_id s) (stream_epoch s) (next_position s) (capacity s) m (last_ack s)
    (last_acknowledged_position s) (data_loss s).

Definition spool_new (stream_id : list Z) (capacity : nat)
    : res CloudLinkSpoolErrorReason CloudLinkSpoolState :=
  _ ← validate_stream_id stream_id;
  _ ← check (negb (capacity =? 0)%nat && (Z.of_nat capacity <=? MAX_SPOOL_RECORDS)) InvalidData;
  Ok (SpoolState stream_id 1 1 capacity [] None 0 None).

Definition validate_open (stream : list Z) (new_capacity : nat) : spool bool := fun s =>
  match
    _ ← validate_stream_id stream;
    _ ← check (bool_decide (stream_id s = stream)) WrongStream;
    check (negb (new_capacity =? 0)%nat && (Z.of_nat new_capacity <=? MAX_SPOOL_RECORDS) &&
           (length (records s) <=? new_capacity)%nat) InvalidData
  with
  | Ok _ =>
      (Ok (negb (capacity s =? new_capacity)%nat),
       SpoolState (stream_id s) (stream_epoch s) (next_position s) new_capacity (records s)
         (last_ack s) (last_acknowledged_position s) (data_loss s))
  | Err e => (Err e, s)
  | Panic => (Panic, s)
  end.

(** [keys().next().copied().unwrap_or(next_position)]. *)
Definition earliest (s : CloudLinkSpoolState) : Z :=
  match bt_first (records s) with Some (p, _) => p | None => next_position s end.

(** ASCII "capacity-overflow". *)
Definition CAPACITY_OVERFLOW : list Z :=
  [0x63; 0x61; 0x70; 0x61; 0x63; 0x69; 0x74; 0x79; 0x2D; 0x6F; 0x76; 0x65; 0x72; 0x66; 0x6C;
   0x6F; 0x77].

(** The loss evidence after evicting [lost]. *)
Definition note_loss (lost at_ : Z) (s : CloudLinkSpoolState) : option CloudLinkDataLossEvidence :=
  match data_loss s with
  | Some e =>
      if (l_epoch e =? stream_epoch s) &&
         bool_decide (checked_add 64 (last_lost e) 1 = Some lost)
      then Some (extend_overflow lost (earliest s) e)
      else Some (Loss (stream_id s) (stream_epoch s) lost lost (earliest s) CAPACITY_OVERFLOW at_)
  | None =>
      Some (Loss (stream_id s) (stream_epoch s) lost lost (earliest s) CAPACITY_OVERFLOW at_)
  end.

(** Allocates the next position for a new fact, after a possible eviction. *)
Definition allocate (input : CloudLinkEnqueue) (evicted : option Z) : spool CloudLinkRecord :=
  fun s =>
  let position := next_position s in
  match checked_add 64 (next_position s) 1 with
  | None => (Err Storage, s)
  | Some next =>
      let record := from_enqueue (Identity (stream_id s) (stream_epoch s) position) input in
      let s := SpoolState (stream_id s) (stream_epoch s) next (capacity s)
                 (bt_insert position record (records s)) (last_ack s)
                 (last_acknowledged_position s) (data_loss s) in
      match evicted with
      | None => (Ok record, s)
      | Some lost =>
          (Ok record,
           SpoolState (stream_id s) (stream_epoch s) (next_position s) (capacity s) (records s)
             (last_ack s) (last_acknowledged_position s) (note_loss lost (e_created_at input) s))
      end
  end.

Definition find_batch (b : list Z) (m : list (Z * CloudLinkRecord)) : option CloudLinkRecord :=
  List.find (fun r => bool_decide (batch_id r = b)) (map snd m).

Definition enqueue (input : CloudLinkEnqueue) : spool CloudLinkRecord := fun s =>
  match validate_enqueue input with
  | Err e => (Err e, s)
  | Panic => (Panic, s)
  | Ok _ =>
      match find_batch (e_batch_id input) (records s) with
      | Some existing =>
          if bool_decide (digest existing = e_digest input) &&
             bool_decide (message_kind existing = e_kind input) &&
             bool_decide (r_payload existing = e_payload input)
          then (Ok existing, s)
          else (Err ConflictingIdentity, s)
      | None =>
          if (length (records s) =? capacity s)%nat then
            match bt_first (records s) with
            | None => (Err Storage, s)
            | Some (p, _) =>
                allocate input (Some p) (with_records (bt_remove p (records s)) s)
            end
          else allocate input None s
      end
  end.

Definition replay_from (requested_position : Z) (limit : nat) (s : CloudLinkSpoolState)
    : res CloudLinkSpoolErrorReason CloudLinkReplayWindow :=
  if (requested_position =? 0) || (limit =? 0)%nat then Err InvalidData
  else if next_position s <? requested_position then Err PositionGap
  else if requested_position <? earliest s then
    match data_loss s with
    | Some e =>
        if (first_lost e <=? requested_position) && (requested_position <=? last_lost e)
        then Ok (Window [] (Some e)) else Err PositionGap
    | None => Err PositionGap
    end
  else
    Ok (Window (take limit (map snd (List.filter (fun p => requested_position <=? fst p)
                                                 (records s)))) None).

(** [record_mut]: the record a delivery event refers to. *)
Definition record_mut (i : CloudLinkRecordIdentity) (s : CloudLinkSpoolState)
    : res CloudLinkSpoolErrorReason CloudLinkRecord :=
  if negb (bool_decide (ri_stream i = stream_id s)) || negb (ri_epoch i =? stream_epoch s)
  then Err WrongStream
  else ok_or (bt_get (position i) (records s)) PositionGap.

Definition mark_offered (i : CloudLinkRecordIdentity) (session : CloudLinkSessionBinding)
    : spool unit := fun s =>
  match (_ ← validate_session session; record_mut i s) with
  | Ok r => (Ok tt, with_records (bt_insert (position i) (set_offered session r) (records s)) s)
  | Err e => (Err e, s)
  | Panic => (Panic, s)
  end.

Definition mark_transport_published (i : CloudLinkRecordIdentity)
    (session : CloudLinkSessionBinding) : spool unit := fun s =>
  match (_ ← validate_session session; record_mut i s) with
  | Ok r =>
      if bool_decide (offered_session r = Some session)
      then (Ok tt, with_records
              (bt_insert (position i) (set_transport_published session r) (records s)) s)
      else (Err StaleSession, s)
  | Err e => (Err e, s)
  | Panic => (Panic, s)
  end.

(** The checks of [acknowledge] after the duplicate test. *)
Definition check_ack (ack : CloudLinkDurableAck) (s : CloudLinkSpoolState)
    : res CloudLinkSpoolErrorReason unit :=
  _ ← check (bool_decide (a_stream ack = stream_id s) && (a_epoch ack =? stream_epoch s)) WrongStream;
  _ ← check (last_acknowledged_position s <? acknowledged_position ack) ConflictingIdentity;
  _ ← check (valid_identifier (receipt_id ack) 128) InvalidData;
  r ← ok_or (bt_get (acknowledged_position ack) (records s)) PositionGap;
  _ ← check (bool_decide (offered_session r = Some (a_session ack))) StaleSession;
  check (bool_decide (batch_id r = a_batch_id ack) && bool_decide (digest r = a_digest ack))
    ConflictingIdentity.

Definition acknowledge (ack : CloudLinkDurableAck) : spool DurableAckOutcome := fun s =>
  match validate_session (a_session ack) with
  | Ok _ =>
      if bool_decide (last_ack s = Some ack) then (Ok Duplicate, s)
      else match check_ack ack s with
      | Ok _ =>
          let positions :=
            map fst (List.filter (fun p => fst p <=? acknowledged_position ack) (records s)) in
          let kept := fold_left (fun m p => bt_remove p m) positions (records s) in
          (Ok (Applied (length positions)),
           SpoolState (stream_id s) (stream_epoch s) (next_position s) (capacity s) kept
             (Some ack) (acknowledged_position ack) (data_loss s))
      | Err e => (Err e, s)
      | Panic => (Panic, s)
      end
  | Err e => (Err e, s)
  | Panic => (Panic, s)
  end.

Definition status (s : CloudLinkSpoolState) : CloudLinkSpoolStatus :=
  Status (stream_id s) (stream_epoch s) (next_position s) (earliest s)
    (last_acknowledged_position s) (length (records s)) (last_ack s) (data_loss s).

Definition rotate_stream_epoch : spool Z := fun s =>
  if negb (length (records s) =? 0)%nat then (Err PendingRecords, s)
  else match checked_add 64 (stream_epoch s) 1 with
  | None => (Err Storage, s)
  | Some epoch =>
      (Ok epoch, SpoolState (stream_id s) epoch 1 (capacity s) (records s) None 0 None)
  end.

(** ** Contiguous key ranges *)

(** The keys of [m] are [a, a + 1, ...]. *)
Fixpoint contiguous {V} (a : Z) (m : list (Z * V)) : Prop :=
  match m with
  | [] => True
  | (k, _) :: m => k = a ∧ contiguous (a + 1) m
  end.

Section Contiguous.
Context {V : Type}.
Implicit Types (m : list (Z * V)) (a k p : Z).

Lemma contiguous_range a m :
  contiguous a m → Forall (fun q => a ≤ fst q < a + Z.of_nat (length m)) m.
Proof.
  revert a. induction m as [|[k v] m IH]; intros a; [constructor|]. intros [-> H].
  constructor; [cbn; lia|]. eapply Forall_impl; [by apply IH|]. cbn. intros; lia.
Qed.

Lemma contiguous_sorted a m : contiguous a m → bt_sorted m.
Proof.
  revert a. induction m as [|[k v] m IH]; intros a; [constructor|]. intros [-> H].
  constructor; [|by eapply IH]. eapply Forall_impl; [by apply contiguous_range|]. cbn. intros; lia.
Qed.

Lemma contiguous_snoc a m k v :
  contiguous a m → k = a + Z.of_nat (length m) → contiguous a (m ++ [(k, v)]).
Proof.
  revert a. induction m as [|[k' v'] m IH]; intros a; cbn; [intros _ ->; split; [lia|done]|].
  intros [-> H] ->. split; [done|]. apply IH; [done|lia].
Qed.

Lemma contiguous_drop a m n : contiguous a m → contiguous (a + Z.of_nat n) (drop n m).
Proof.
  revert a m. induction n as [|n IH]; intros a m H; [by rewrite drop_0, Z.add_0_r|].
  destruct m as [|[k v] m]; [done|]. destruct H as [-> H]. cbn [drop].
  replace (a + Z.of_nat (S n)) with (a + 1 + Z.of_nat n) by lia. by apply IH.
Qed.

Lemma contiguous_get a m p :
  contiguous a m → bt_get p m = if a <=? p then snd <$> m !! Z.to_nat (p - a) else None.
Proof.
  revert a. induction m as [|[k v] m IH]; intros a; cbn [contiguous bt_get].
  { intros _. case_if; [by rewrite lookup_nil|done]. }
  intros [-> H]. rewrite (IH (a + 1) H).
  destruct (Z.leb_spec a p), (Z.leb_spec (a + 1) p), (Z.eqb_spec p a); try lia; try done.
  - replace (Z.to_nat (p - a)) with (S (Z.to_nat (p - (a + 1)))) by lia. done.
  - by replace (Z.to_nat (p - a)) with 0%nat by lia.
Qed.

Lemma contiguous_get_range a m p v :
  contiguous a m → bt_get p m = Some v → a ≤ p < a + Z.of_nat (length m).
Proof.
  intros H. rewrite (contiguous_get a) by done. destruct (Z.leb_spec a p); [|done].
  intros Hp. apply fmap_Some in Hp as (q & Hq & _). apply lookup_lt_Some in Hq. lia.
Qed.

Lemma contiguous_get_drop a m n p :
  contiguous a m → (n ≤ length m)%nat → a + Z.of_nat n ≤ p → bt_get p (drop n m) = bt_get p m.
Proof.
  intros H Hn Hp. rewrite (contiguous_get (a + Z.of_nat n)) by (by apply contiguous_drop).
  rewrite (contiguous_get a m) by done. rewrite lookup_drop.
  destruct (Z.leb_spec (a + Z.of_nat n) p), (Z.leb_spec a p); try lia. do 2 f_equal. lia.
Qed.

Lemma bt_get_app_last m k v p : p ≠ k → bt_get p (m ++ [(k, v)]) = bt_get p m.
Proof.
  intros Hne. induction m as [|[k' v'] m IH]; cbn; [by destruct (Z.eqb_spec p k)|].
  by rewrite IH.
Qed.

Lemma bt_get_last m k v : Forall (fun q => fst q < k) m → bt_get k (m ++ [(k, v)]) = Some v.
Proof.
  induction 1 as [|[k' v'] m H _ IH]; cbn in *; [by rewrite Z.eqb_refl|].
  by destruct (Z.eqb_spec k k'); [lia|].
Qed.

Lemma bt_remove_first m a v : contiguous (a + 1) m → bt_remove a ((a, v) :: m) = m.
Proof.
  intros H. unfold bt_remove. cbn [List.filter]. rewrite Z.eqb_refl. cbn [negb].
  apply forallb_filter_id, forallb_forall. intros [k u] Hin%list_elem_of_In.
  apply (proj1 (Forall_forall _ _) (contiguous_range _ _ H)) in Hin. cbn in Hin.
  destruct (Z.eqb_spec k a); [lia|done].
Qed.

Lemma contiguous_insert a m p v v0 :
  contiguous a m → bt_get p m = Some v0 →
  contiguous a (bt_insert p v m) ∧ length (bt_insert p v m) = length m.
Proof.
  revert a. induction m as [|[k u] m IH]; intros a; cbn; [done|]. intros [-> H] Hg.
  destruct (Z.eqb_spec p a) as [->|Hne].
  { destruct (Z.ltb_spec a a); [lia|]. done. }
  apply contiguous_get_range with (a := a + 1) in Hg as Hr; [|done].
  destruct (Z.ltb_spec p a); [lia|]. destruct (IH (a + 1) H Hg) as [H1 H2]. cbn.
  split; [done|]. by rewrite H2.
Qed.

Lemma contiguous_filter_ge a m p :
  contiguous a m → a ≤ p → List.filter (fun q => p <=? fst q) m = drop (Z.to_nat (p - a)) m.
Proof.
  revert a. induction m as [|[k v] m IH]; intros a; [by rewrite drop_nil|]. intros [-> H] Hp.
  cbn [List.filter fst]. destruct (Z.leb_spec p a).
  - replace (Z.to_nat (p - a)) with 0%nat by lia. rewrite drop_0. f_equal.
    destruct m as [|[k' v'] m]; [done|].
    rewrite (forallb_filter_id); [done|]. apply forallb_forall. intros [k'' v''] Hin.
    apply list_elem_of_In in Hin. pose proof (contiguous_range _ _ H) as Hr.
    apply (proj1 (Forall_forall _ _) Hr) in Hin. cbn in *. lia.
  - replace (Z.to_nat (p - a)) with (S (Z.to_nat (p - (a + 1)))) by lia. cbn [drop].
    apply IH; [done|lia].
Qed.

(** Removing every key up to [p] one by one drops a prefix. *)
Lemma contiguous_remove_upto a m p :
  contiguous a m → a ≤ p < a + Z.of_nat (length m) →
  let ks := map fst (List.filter (fun q => fst q <=? p) m) in
  fold_left (fun m k => bt_remove k m) ks m = drop (Z.to_nat (p - a + 1)) m ∧
  length ks = Z.to_nat (p - a + 1).
Proof.
  intros H Hp ks. rewrite bt_remove_keys.
  assert (∀ q, q ∈ m → bool_decide (fst q ∈ ks) = (fst q <=? p)) as Hin.
  { intros q Hq. apply eq_bool_prop_intro. rewrite bool_decide_spec, Is_true_true. unfold ks.
    rewrite list_elem_of_In, in_map_iff. split.
    - intros (q' & <- & Hq'). by apply filter_In in Hq' as [_ ?].
    - intros Hle. exists q. split; [done|]. apply filter_In. by rewrite <- list_elem_of_In. }
  assert (∀ m', m' = m → List.filter (fun q => negb (bool_decide (fst q ∈ ks))) m' =
                List.filter (fun q => p + 1 <=? fst q) m') as Hf.
  { intros m' ->. apply filter_ext_in. intros q Hq%list_elem_of_In. rewrite Hin by done.
    destruct (Z.leb_spec (fst q) p), (Z.leb_spec (p + 1) (fst q)); (done || lia). }
  rewrite Hf by done. rewrite (contiguous_filter_ge a) by (done || lia). split; [f_equal; lia|].
  unfold ks. rewrite length_map.
  assert (∀ m', length (List.filter (fun q : Z * V => fst q <=? p) m') =
    (length m' - length (List.filter (fun q => Z.leb (p + 1) (fst q)) m'))%nat ∧
    (length (List.filter (fun q : Z * V => Z.leb (p + 1) (fst q)) m') ≤ length m')%nat) as Hlen.
  { intros m'. induction m' as [|q m' [IH1 IH2]]; [done|]. cbn [List.filter length].
    destruct (Z.leb_spec (fst q) p), (Z.leb_spec (p + 1) (fst q)); cbn [length]; lia. }
  rewrite (proj1 (Hlen m)), (contiguous_filter_ge a) by (done || lia). rewrite length_drop. lia.
Qed.

End Contiguous.

(** ** The invariant *)

(** What [validate_enqueue] guarantees of a record. *)
Definition record_ok (r : CloudLinkRecord) : Prop :=
  valid_identifier (batch_id r) 128 = true ∧ digest_valid (digest r) = true ∧
  (0 < length (r_payload r))%nat ∧ Z.of_nat (length (r_payload r)) ≤ MAX_SPOOL_PAYLOAD_BYTES ∧
  expires_after (created_at_ms r) (expires_at_ms r) = true.

Definition evidence_ok (s : CloudLinkSpoolState) (e : CloudLinkDataLossEvidence) : Prop :=
  l_stream e = stream_id s ∧ l_epoch e = stream_epoch s ∧
  0 < first_lost e ≤ last_lost e ∧ last_lost e < earliest_retained e ∧
  last_lost e < earliest s.

Record spool_inv (s : CloudLinkSpoolState) : Prop := {
  inv_stream : valid_identifier (stream_id s) 128 = true;
  inv_epoch : 1 ≤ stream_epoch s < 2 ^ 64;
  inv_next : next_position s < 2 ^ 64;
  inv_capacity : (1 ≤ capacity s)%nat ∧ Z.of_nat (capacity s) ≤ MAX_SPOOL_RECORDS;
  inv_length : (length (records s) ≤ capacity s)%nat;
  inv_contiguous : contiguous (next_position s - Z.of_nat (length (records s))) (records s);
  inv_acked : 0 ≤ last_acknowledged_position s < next_position s - Z.of_nat (length (records s));
  inv_records : Forall (fun q => identity (snd q) = Identity (stream_id s) (stream_epoch s) (fst q) ∧
                                 record_ok (snd q)) (records s);
  inv_last_ack :
    match last_ack s with
    | Some a => a_stream a = stream_id s ∧ a_epoch a = stream_epoch s ∧
                acknowledged_position a = last_acknowledged_position s
    | None => last_acknowledged_position s = 0
    end;
  inv_evidence : ∀ e, data_loss s = Some e → evidence_ok s e;
  inv_covered : last_acknowledged_position s + 1 < earliest s →
    ∃ e, data_loss s = Some e ∧ first_lost e ≤ last_acknowledged_position s + 1 ∧
         last_lost e + 1 = earliest s }.

Lemma earliest_contiguous s :
  contiguous (next_position s - Z.of_nat (length (records s))) (records s) →
  earliest s = next_position s - Z.of_nat (length (records s)).
Proof.
  intros H. unfold earliest. destruct (records s) as [|[k r] m]; cbn in *; [lia|]. by destruct H.
Qed.

Lemma inv_earliest s : spool_inv s → earliest s = next_position s - Z.of_nat (length (records s)).
Proof. intros H. by apply earliest_contiguous, inv_contiguous. Qed.

Lemma check_Ok b e : check b e = Ok tt ↔ b = true.
Proof. unfold check. by destruct b. Qed.

Ltac split_checks H :=
  repeat match type of H with
  | check _ _ ≫= _ = Ok _ =>
      let H1 := fresh "Hck" in
      apply res_bind_Ok in H as ([] & H1 & H); apply check_Ok in H1
  | check _ _ = Ok _ => apply check_Ok in H
  end.

Lemma spool_new_inv stream n s : spool_new stream n = Ok s → spool_inv s.
Proof.
  unfold spool_new, validate_stream_id. intros H. split_checks H. apply Ok_inj in H as <-.
  bool_to_prop. constructor; cbn; try done; try lia.
Qed.

Lemma validate_enqueue_record_ok input i :
  validate_enqueue input = Ok tt → record_ok (from_enqueue i input).
Proof.
  unfold validate_enqueue. intros H. split_checks H. bool_to_prop.
  split_and!; cbn; try done. lia.
Qed.

(** The operations on a retained record keep its place and content. *)
Definition same_content (r r' : CloudLinkRecord) : Prop :=
  identity r' = identity r ∧ message_kind r' = message_kind r ∧ batch_id r' = batch_id r ∧
  digest r' = digest r ∧ r_payload r' = r_payload r ∧ created_at_ms r' = created_at_ms r ∧
  expires_at_ms r' = expires_at_ms r.

#[global] Instance same_content_refl : Reflexive same_content.
Proof. intros r. by split_and!. Qed.
#[global] Instance same_content_trans : Transitive same_content.
Proof. unfold same_content. intros ? ? ? (?&?&?&?&?&?&?) (?&?&?&?&?&?&?). split_and!; congruence. Qed.

Lemma same_content_ok r r' : same_content r r' → record_ok r → record_ok r'.
Proof. intros (_ & _ & H1 & H2 & H3 & H4 & H5) H. unfold record_ok. by rewrite H1, H2, H3, H4, H5. Qed.

Lemma update_record_inv s p r r' :
  spool_inv s → bt_get p (records s) = Some r → same_content r r' →
  spool_inv (with_records (bt_insert p r' (records s)) s) ∧
  earliest (with_records (bt_insert p r' (records s)) s) = earliest s.
Proof.
  intros H Hg Hc. pose proof (inv_contiguous s H) as Hcont.
  destruct (contiguous_insert _ _ p r' r Hcont Hg) as [H1 H2].
  assert (earliest (with_records (bt_insert p r' (records s)) s) = earliest s) as He.
  { rewrite !earliest_contiguous; cbn; rewrite ?H2; done. }
  split; [|done]. destruct H. constructor; rewrite ?He; cbn; rewrite ?H2; try done.
  - apply bt_insert_Forall; [|done]. cbn.
    apply bt_get_elem in Hg; [|by eapply contiguous_sorted].
    destruct (proj1 (Forall_forall _ _) inv_records0 _ Hg) as [Hi Hr]. cbn in Hi, Hr.
    split; [by rewrite (proj1 Hc)|]. by eapply same_content_ok.
  - intros e Hd. destruct (inv_evidence0 e Hd) as (?&?&?&?&?). unfold evidence_ok.
    rewrite He. split_and!; (done || lia).
Qed.

Lemma record_mut_Ok i s r :
  record_mut i s = Ok r → bt_get (position i) (records s) = Some r.
Proof. unfold record_mut. case_if; [done|]. by rewrite ok_or_Ok. Qed.

Lemma mark_offered_inv i session s : spool_inv s → spool_inv (snd (mark_offered i session s)).
Proof.
  intros H. unfold mark_offered. destruct (_ ≫= _) as [r|e|] eqn:E; [|done..]. cbn [snd].
  apply res_bind_Ok in E as (_ & _ & Hr). apply record_mut_Ok in Hr.
  by eapply update_record_inv.
Qed.

Lemma mark_transport_published_inv i session s :
  spool_inv s → spool_inv (snd (mark_transport_published i session s)).
Proof.
  intros H. unfold mark_transport_published. destruct (_ ≫= _) as [r|e|] eqn:E; [|done..].
  apply res_bind_Ok in E as (_ & _ & Hr). apply record_mut_Ok in Hr. case_if; [|done].
  by eapply update_record_inv.
Qed.

Lemma validate_open_inv stream n s : spool_inv s → spool_inv (snd (validate_open stream n s)).
Proof.
  intros H. unfold validate_open. destruct (_ ≫= _) as [[]|e|] eqn:E; [|done..]. cbn [snd].
  unfold validate_stream_id in E. split_checks E. bool_to_prop.
  destruct H. constructor; cbn; try done. lia.
Qed.

Lemma rotate_stream_epoch_inv s : spool_inv s → spool_inv (snd (rotate_stream_epoch s)).
Proof.
  intros H. unfold rotate_stream_epoch. case_if; [done|]. unfold checked_add. case_if; [|done].
  bool_to_prop. destruct H. destruct (records s) as [|q m]; [|done].
  constructor; cbn; try done; lia.
Qed.

Lemma check_ack_Ok ack s :
  check_ack ack s = Ok tt ↔
  a_stream ack = stream_id s ∧ a_epoch ack = stream_epoch s ∧
  last_acknowledged_position s < acknowledged_position ack ∧
  valid_identifier (receipt_id ack) 128 = true ∧
  ∃ r, bt_get (acknowledged_position ack) (records s) = Some r ∧
       offered_session r = Some (a_session ack) ∧
       batch_id r = a_batch_id ack ∧ digest r = a_digest ack.
Proof.
  unfold check_ack. split.
  - intros H. split_checks H. apply res_bind_Ok in H as (r & Hr & H). apply ok_or_Ok in Hr.
    split_checks H. bool_to_prop. repeat match goal with
    | H : bool_decide _ = true |- _ => apply bool_decide_eq_true in H
    end. split_and!; try done. by exists r.
  - intros (-> & -> & H1 & -> & r & -> & H2 & H3 & H4).
    rewrite Z.eqb_refl, (proj2 (Z.ltb_lt _ _) H1), bool_decide_true by done.
    cbn [andb check ok_or mbind res_bind]. by rewrite H2, H3, H4, !bool_decide_true.
Qed.

(** Removing the acknowledged prefix. *)
Definition acked_state (ack : CloudLinkDurableAck) (s : CloudLinkSpoolState) : CloudLinkSpoolState :=
  SpoolState (stream_id s) (stream_epoch s) (next_position s) (capacity s)
    (drop (Z.to_nat (acknowledged_position ack - earliest s + 1)) (records s))
    (Some ack) (acknowledged_position ack) (data_loss s).

Lemma acked_range ack s r :
  spool_inv s → bt_get (acknowledged_position ack) (records s) = Some r →
  earliest s ≤ acknowledged_position ack < next_position s.
Proof.
  intros H Hr. pose proof (inv_contiguous s H) as Hc. rewrite (inv_earliest s H).
  eapply contiguous_get_range in Hr; [|exact Hc]. lia.
Qed.

Lemma acknowledge_applied ack s :
  spool_inv s → validate_session (a_session ack) = Ok tt → last_ack s ≠ Some ack →
  check_ack ack s = Ok tt →
  acknowledge ack s =
    (Ok (Applied (Z.to_nat (acknowledged_position ack - earliest s + 1))), acked_state ack s).
Proof.
  intros H Hs Hd Hc. unfold acknowledge. rewrite Hs, bool_decide_false, Hc by done.
  apply check_ack_Ok in Hc as (_ & _ & _ & _ & r & Hr & _).
  pose proof (acked_range ack s r H Hr) as Hrange. rewrite (inv_earliest s H) in Hrange.
  unfold acked_state. rewrite (inv_earliest s H).
  destruct (contiguous_remove_upto _ _ (acknowledged_position ack) (inv_contiguous s H))
    as [-> ->]; [lia|done].
Qed.

Lemma acked_state_inv ack s :
  spool_inv s → check_ack ack s = Ok tt →
  spool_inv (acked_state ack s) ∧ earliest (acked_state ack s) = acknowledged_position ack + 1.
Proof.
  intros H Hc. apply check_ack_Ok in Hc as (H1 & H2 & H3 & _ & r & Hr & _).
  pose proof (acked_range ack s r H Hr) as Hrange. pose proof (inv_earliest s H) as He.
  set (n := Z.to_nat (acknowledged_position ack - earliest s + 1)).
  assert (length (drop n (records s)) = (length (records s) - n)%nat) as Hlen by apply length_drop.
  assert (next_position s - Z.of_nat (length (drop n (records s))) =
          acknowledged_position ack + 1) as Hpos by lia.
  pose proof (contiguous_drop _ _ n (inv_contiguous s H)) as Hcont.
  replace (next_position s - Z.of_nat (length (records s)) + Z.of_nat n)
    with (acknowledged_position ack + 1) in Hcont by lia.
  assert (earliest (acked_state ack s) = acknowledged_position ack + 1) as He'.
  { rewrite earliest_contiguous; unfold acked_state; cbn [next_position records]; fold n;
      by rewrite Hpos. }
  split; [|done]. destruct H. constructor; rewrite ?He'; unfold acked_state;
    cbn [stream_id stream_epoch next_position capacity records last_ack last_acknowledged_position
         data_loss]; fold n; rewrite ?Hpos; try done; try lia.
  - by apply Forall_drop.
  - intros e Hd. destruct (inv_evidence0 e Hd) as (?&?&?&?&?). unfold evidence_ok.
    fold n in He'. unfold acked_state in He'. fold n in He'. rewrite He'. cbn. split_and!; (done || lia).
Qed.

Lemma acknowledge_inv ack s : spool_inv s → spool_inv (snd (acknowledge ack s)).
Proof.
  intros H. destruct (validate_session (a_session ack)) as [[]|e|] eqn:Hs;
    [|unfold acknowledge; by rewrite Hs..].
  destruct (decide (last_ack s = Some ack)) as [Hd|Hd].
  { unfold acknowledge. by rewrite Hs, bool_decide_true. }
  destruct (check_ack ack s) as [[]|e|] eqn:Hc;
    [|unfold acknowledge; by rewrite Hs, bool_decide_false, Hc..].
  rewrite acknowledge_applied by done. by apply acked_state_inv.
Qed.

(** A fresh fact at the next position, [m] being the records kept. *)
Definition pushed (m : list (Z * CloudLinkRecord)) (r : CloudLinkRecord)
    (loss : option CloudLinkDataLossEvidence) (s : CloudLinkSpoolState) : CloudLinkSpoolState :=
  SpoolState (stream_id s) (stream_epoch s) (next_position s + 1) (capacity s)
    (m ++ [(next_position s, r)]) (last_ack s) (last_acknowledged_position s) loss.

Lemma pushed_earliest a m r loss s :
  contiguous a m → a + Z.of_nat (length m) = next_position s → earliest (pushed m r loss s) = a.
Proof.
  intros H Hn. unfold earliest, pushed. cbn [records]. destruct m as [|[k v] m]; cbn in *; [lia|].
  by destruct H.
Qed.

Lemma pushed_inv k r loss s :
  spool_inv s → next_position s + 1 < 2 ^ 64 →
  let m := drop k (records s) in
  let a := next_position s - Z.of_nat (length m) in
  (length m < capacity s)%nat →
  identity r = Identity (stream_id s) (stream_epoch s) (next_position s) → record_ok r →
  (∀ e, loss = Some e → evidence_ok (pushed m r loss s) e) →
  (last_acknowledged_position s + 1 < a →
   ∃ e, loss = Some e ∧ first_lost e ≤ last_acknowledged_position s + 1 ∧ last_lost e + 1 = a) →
  spool_inv (pushed m r loss s).
Proof.
  intros H Hmax m a Hlen Hid Hok Hev Hcov.
  assert (contiguous a m) as Hcont.
  { unfold a, m. destruct (decide (k ≤ length (records s))%nat).
    - replace (next_position s - Z.of_nat (length (drop k (records s))))
        with (next_position s - Z.of_nat (length (records s)) + Z.of_nat k)
        by (rewrite length_drop; lia).
      apply contiguous_drop, inv_contiguous, H.
    - by rewrite drop_ge by lia. }
  assert (earliest (pushed m r loss s) = a) as He by (apply pushed_earliest; [done|lia]).
  destruct H. constructor; rewrite ?He; unfold pushed;
    cbn [stream_id stream_epoch next_position capacity records last_ack last_acknowledged_position
         data_loss]; rewrite ?length_app; cbn [length];
    try replace (next_position s + 1 - Z.of_nat (length m + 1)) with a by lia; try done; try lia.
  - by apply contiguous_snoc; [|lia].
  - assert (length m ≤ length (records s))%nat by (unfold m; rewrite length_drop; lia). lia.
  - apply Forall_app. split; [by apply Forall_drop|]. apply Forall_cons. by split; [|constructor].
Qed.

Lemma allocate_fresh input s :
  spool_inv s → next_position s + 1 < 2 ^ 64 →
  allocate input None s =
    (Ok (from_enqueue (Identity (stream_id s) (stream_epoch s) (next_position s)) input),
     pushed (records s) (from_enqueue (Identity (stream_id s) (stream_epoch s) (next_position s)) input)
       (data_loss s) s).
Proof.
  intros H Hmax. unfold allocate, checked_add. apply Z.ltb_lt in Hmax as ->. cbv zeta.
  rewrite bt_insert_last; [done|]. eapply Forall_impl; [apply contiguous_range, inv_contiguous, H|].
  cbn. intros; lia.
Qed.

(** The evidence recorded when [a], the earliest retained position of [s], is
    evicted; [s1] is the state after the new fact was inserted. *)
Lemma note_loss_eviction a t s s1 :
  spool_inv s → a = earliest s → stream_id s1 = stream_id s → stream_epoch s1 = stream_epoch s →
  data_loss s1 = data_loss s → earliest s1 = a + 1 →
  ∃ e, note_loss a t s1 = Some e ∧
    (l_stream e = stream_id s ∧ l_epoch e = stream_epoch s ∧ 0 < first_lost e ≤ last_lost e ∧
     last_lost e < earliest_retained e ∧ last_lost e < a + 1) ∧
    first_lost e ≤ last_acknowledged_position s + 1 ∧ last_lost e + 1 = a + 1.
Proof.
  intros H Ha H1 H2 H3 H4. unfold note_loss. rewrite H1, H2, H3, H4.
  pose proof (inv_acked s H) as Hack. rewrite <- (inv_earliest s H), <- Ha in Hack.
  pose proof (inv_covered s H) as Hcov. rewrite <- Ha in Hcov.
  pose proof (inv_evidence s H) as Hev. unfold evidence_ok in Hev. rewrite <- Ha in Hev.
  pose proof (inv_earliest s H) as He. pose proof (inv_next s H) as Hnext.
  destruct (data_loss s) as [e|].
  - destruct (Hev e eq_refl) as (E1 & E2 & E3 & E4 & E5). rewrite E2, Z.eqb_refl. cbn [andb].
    destruct (decide (last_lost e + 1 = a)) as [Hadj|Hadj].
    + rewrite bool_decide_true.
      2:{ unfold checked_add. destruct (Z.ltb_spec (last_lost e + 1) (2 ^ 64)); [by rewrite Hadj|lia]. }
      eexists. split; [done|]. cbn. split_and!; try done; try lia.
      destruct (decide (last_acknowledged_position s + 1 < a)) as [Hgap|]; [|lia].
      destruct (Hcov Hgap) as (e' & [= <-] & ? & _). done.
    + rewrite bool_decide_false.
      2:{ unfold checked_add. case_if; [|done]. intros [= ?]. lia. }
      eexists. split; [done|]. cbn. split_and!; try done; try lia.
      destruct (decide (last_acknowledged_position s + 1 < a)) as [Hgap|]; [|lia].
      destruct (Hcov Hgap) as (e' & [= <-] & _ & ?). lia.
  - eexists. split; [done|]. cbn. split_and!; try done; try lia.
    destruct (decide (last_acknowledged_position s + 1 < a)) as [Hgap|]; [|lia].
    by destruct (Hcov Hgap) as (e' & ? & _).
Qed.

(** A full spool evicts one record. *)
Definition evictions (s : CloudLinkSpoolState) : nat :=
  if (length (records s) =? capacity s)%nat then 1 else 0.

Lemma evictions_le s : spool_inv s → (evictions s ≤ length (records s))%nat.
Proof.
  intros H. unfold evictions. pose proof (inv_capacity s H).
  destruct (Nat.eqb_spec (length (records s)) (capacity s)); lia.
Qed.

(** The three outcomes of [enqueue]: an idempotent repeat, a new record after at
    most one eviction, or an error that changes nothing. *)
Lemma enqueue_cases input s :
  spool_inv s → next_position s + 1 < 2 ^ 64 →
  match enqueue input s with
  | (Ok r, s') =>
      (s' = s ∧ find_batch (e_batch_id input) (records s) = Some r ∧
       digest r = e_digest input ∧ message_kind r = e_kind input ∧ r_payload r = e_payload input) ∨
      (find_batch (e_batch_id input) (records s) = None ∧
       r = from_enqueue (Identity (stream_id s) (stream_epoch s) (next_position s)) input ∧
       (∃ loss, s' = pushed (drop (evictions s) (records s)) r loss s) ∧ spool_inv s')
  | (Err _, s') => s' = s
  | (Panic, _) => False
  end.
Proof.
  intros H Hmax. unfold enqueue. destruct (validate_enqueue input) as [[]|e|] eqn:Hv; [|done|].
  2:{ exfalso. revert Hv. unfold validate_enqueue, check. no_panic. }
  destruct (find_batch _ _) as [r|] eqn:Hf.
  { case_if; [|done]. left. bool_to_prop.
    repeat match goal with H : bool_decide _ = true |- _ => apply bool_decide_eq_true in H end.
    by split_and!. }
  set (r := from_enqueue (Identity (stream_id s) (stream_epoch s) (next_position s)) input).
  assert (record_ok r) as Hok by (by apply validate_enqueue_record_ok).
  pose proof (inv_contiguous s H) as Hcont. pose proof (inv_earliest s H) as He.
  destruct (Nat.eqb_spec (length (records s)) (capacity s)) as [Hfull|Hroom].
  2:{ rewrite allocate_fresh by done. right. split; [done|]. split; [done|]. fold r. split.
      { exists (data_loss s). unfold evictions. destruct (Nat.eqb_spec (length (records s)) (capacity s));
          [lia|]. by rewrite drop_0. }
      pose proof (pushed_inv 0 r (data_loss s) s H Hmax) as Hp. rewrite drop_0 in Hp.
      apply Hp; try done.
      - pose proof (inv_length s H). lia.
      - intros e Hd. destruct (inv_evidence s H e Hd) as (?&?&?&?&?). unfold evidence_ok.
        rewrite (pushed_earliest (earliest s)) by (rewrite ?He; done || lia).
        cbn. split_and!; (done || lia).
      - rewrite <- He. apply H. }
  destruct (records s) as [|[p r0] m] eqn:Hrec.
  { pose proof (inv_capacity s H). cbn in Hfull. lia. }
  pose proof Hfull as Hfull'. cbn [bt_first head]. destruct Hcont as [-> Hcont].
  cbn [length] in Hfull, He, Hcont |- *.
  set (a := next_position s - Z.of_nat (S (length m))) in *.
  rewrite bt_remove_first by done. unfold allocate, checked_add.
  cbn [next_position with_records stream_id stream_epoch records capacity last_ack
       last_acknowledged_position data_loss].
  rewrite (proj2 (Z.ltb_lt _ _) Hmax). cbv zeta. fold r.
  rewrite bt_insert_last.
  2:{ eapply Forall_impl; [apply contiguous_range, Hcont|]. cbn. intros; lia. }
  set (s1 := SpoolState _ _ _ _ _ _ _ (data_loss s)).
  assert (earliest s1 = a + 1) as He1 by (apply (pushed_earliest (a + 1) m r (data_loss s) s); [done|lia]).
  set (loss := note_loss a (e_created_at input) s1).
  right. split; [done|]. split; [done|]. split.
  { exists loss. unfold evictions. rewrite Hrec, Hfull', Nat.eqb_refl. done. }
  pose proof (pushed_inv 1 r loss s H Hmax) as Hp. rewrite Hrec in Hp.
  cbn [drop] in Hp. rewrite drop_0 in Hp.
  replace (next_position s - Z.of_nat (length m)) with (a + 1) in Hp by lia.
  pose proof (note_loss_eviction a (e_created_at input) s s1 H (eq_sym He) eq_refl eq_refl eq_refl He1)
    as (e & Hloss & He2 & Hcov).
  pose proof (pushed_earliest (a + 1) m r loss s Hcont ltac:(lia)) as Hpe.
  apply Hp; [lia|done|done| |intros _].
  - intros e' Hloss'. replace e' with e by (unfold loss in Hloss'; congruence).
    unfold evidence_ok. rewrite Hpe. exact He2.
  - by exists e.
Qed.

(** ** Runs of the spool *)

(** A state, with the facts accepted in its current epoch. *)
Record run := Run { r_state : CloudLinkSpoolState; accepted : list CloudLinkRecord }.

(** The operations that change the state, in any order, successful or not.  The
    2^64 positions of an epoch are not exhausted. *)
Inductive spool_step : run → run → Prop :=
| step_enqueue input s h r s' :
    next_position s + 1 < 2 ^ 64 → enqueue input s = (Ok r, s') →
    spool_step (Run s h) (Run s' (h ++ [r]))
| step_enqueue_err input s h e s' :
    next_position s + 1 < 2 ^ 64 → enqueue input s = (Err e, s') →
    spool_step (Run s h) (Run s' h)
| step_offered i session s h : spool_step (Run s h) (Run (snd (mark_offered i session s)) h)
| step_published i session s h :
    spool_step (Run s h) (Run (snd (mark_transport_published i session s)) h)
| step_acknowledge ack s h : spool_step (Run s h) (Run (snd (acknowledge ack s)) h)
| step_reopen stream n s h : spool_step (Run s h) (Run (snd (validate_open stream n s)) h)
| step_rotate s h n s' :
    rotate_stream_epoch s = (Ok n, s') → spool_step (Run s h) (Run s' [])
| step_rotate_err s h e s' :
    rotate_stream_epoch s = (Err e, s') → spool_step (Run s h) (Run s' h).

Definition reachable (x : run) : Prop :=
  ∃ stream n s0, spool_new stream n = Ok s0 ∧ rtc spool_step (Run s0 []) x.

(** An accepted fact still in the retained range is retained unchanged. *)
Definition tracked (s : CloudLinkSpoolState) (r : CloudLinkRecord) : Prop :=
  let p := position (identity r) in
  1 ≤ p < next_position s ∧
  (earliest s ≤ p → ∃ r', bt_get p (records s) = Some r' ∧ same_content r r').

Definition run_inv (x : run) : Prop :=
  spool_inv (r_state x) ∧ Forall (tracked (r_state x)) (accepted x).

(** An operation that only updates delivery state. *)
Lemma tracked_update s p r0 r1 r :
  spool_inv s → bt_get p (records s) = Some r0 → same_content r0 r1 → tracked s r →
  tracked (with_records (bt_insert p r1 (records s)) s) r.
Proof.
  intros H Hg Hc [Hp Ht]. destruct (update_record_inv s p r0 r1 H Hg Hc) as [_ He].
  split; [done|]. rewrite He. intros Hle. destruct (Ht Hle) as (r' & Hr & Hsame).
  cbn [records with_records].
  rewrite bt_get_insert by (by eapply contiguous_sorted, inv_contiguous).
  destruct (Z.eqb_spec (position (identity r)) p) as [E|]; [|by exists r'].
  exists r1. split; [done|]. rewrite E, Hg in Hr. injection Hr as <-. by trans r0.
Qed.

Lemma tracked_pushed s k r1 loss r :
  spool_inv s → (k ≤ length (records s))%nat → tracked s r →
  tracked (pushed (drop k (records s)) r1 loss s) r.
Proof.
  intros H Hk [Hp Ht]. pose proof (inv_contiguous s H) as Hc. pose proof (inv_earliest s H) as He.
  split; [cbn; lia|].
  rewrite (pushed_earliest (earliest s + Z.of_nat k)).
  2:{ rewrite He. by apply contiguous_drop. }
  2:{ rewrite length_drop. lia. }
  intros Hle. destruct Ht as (r' & Hr & Hsame); [lia|]. exists r'. split; [|done].
  cbn [records pushed]. rewrite bt_get_app_last by lia.
  by rewrite (contiguous_get_drop _ _ _ _ Hc) by lia.
Qed.

Lemma tracked_acked ack s r :
  spool_inv s → check_ack ack s = Ok tt → tracked s r → tracked (acked_state ack s) r.
Proof.
  intros H Hck [Hp Ht]. destruct (acked_state_inv ack s H Hck) as [_ He'].
  apply check_ack_Ok in Hck as (_ & _ & _ & _ & r0 & Hr0 & _).
  pose proof (acked_range ack s r0 H Hr0) as Hrange. pose proof (inv_earliest s H) as He.
  split; [done|]. rewrite He'. intros Hle. destruct Ht as (r' & Hr & Hsame); [lia|].
  exists r'. split; [|done]. cbn [records acked_state].
  rewrite (contiguous_get_drop _ _ _ _ (inv_contiguous s H)); [done|lia|lia].
Qed.

Lemma find_batch_get b s r :
  spool_inv s → find_batch b (records s) = Some r →
  bt_get (position (identity r)) (records s) = Some r ∧ earliest s ≤ position (identity r) < next_position s.
Proof.
  intros H Hf. apply find_some in Hf as [Hin _]. apply in_map_iff in Hin as ([p r1] & Hr & Hin).
  cbn in Hr. subst r1. apply list_elem_of_In in Hin.
  destruct (proj1 (Forall_forall _ _) (inv_records s H) _ Hin) as [Hid _]. cbn in Hid.
  rewrite Hid. cbn [position]. pose proof (inv_contiguous s H) as Hc.
  apply bt_get_elem in Hin; [|by eapply contiguous_sorted]. split; [done|].
  rewrite (inv_earliest s H). eapply contiguous_get_range in Hin; [|exact Hc]. lia.
Qed.

Lemma enqueue_run_inv input s h r s' :
  run_inv (Run s h) → next_position s + 1 < 2 ^ 64 → enqueue input s = (Ok r, s') →
  run_inv (Run s' (h ++ [r])).
Proof.
  intros [H Hh] Hmax He. cbn [r_state accepted] in *.
  pose proof (enqueue_cases input s H Hmax) as Hc. rewrite He in Hc.
  destruct Hc as [(-> & Hf & _)|(_ & Hr & (loss & ->) & Hi)].
  - destruct (find_batch_get _ _ _ H Hf) as [Hg Hrange]. split; [done|]. cbn [r_state accepted].
    apply Forall_app. split; [done|]. apply Forall_cons. split; [|constructor].
    split; [|by exists r]. pose proof (inv_earliest s H). pose proof (inv_acked s H). lia.
  - split; [done|]. cbn [r_state accepted]. pose proof (evictions_le s H).
    apply Forall_app. split; [eapply Forall_impl; [exact Hh|]; intros; by apply tracked_pushed|].
    apply Forall_cons. split; [|constructor]. rewrite Hr. split; cbn [position identity from_enqueue].
    { pose proof (inv_acked s H). cbn. lia. }
    intros _. eexists. split; [|reflexivity]. cbn [records pushed]. apply bt_get_last.
    apply Forall_drop. eapply Forall_impl; [apply contiguous_range, (inv_contiguous s H)|].
    cbn. intros; lia.
Qed.

Lemma mark_run_inv (s : CloudLinkSpoolState) h p r0 r1 :
  run_inv (Run s h) → bt_get p (records s) = Some r0 → same_content r0 r1 →
  run_inv (Run (with_records (bt_insert p r1 (records s)) s) h).
Proof.
  intros [H Hh] Hg Hc. cbn in *. split; [by eapply update_record_inv|]. cbn.
  eapply Forall_impl; [exact Hh|]. intros. by eapply tracked_update.
Qed.

Lemma acknowledge_run_inv ack s h : run_inv (Run s h) → run_inv (Run (snd (acknowledge ack s)) h).
Proof.
  intros [H Hh]. cbn in *. destruct (validate_session (a_session ack)) as [[]|e|] eqn:Hs;
    [|unfold acknowledge; by rewrite Hs..].
  destruct (decide (last_ack s = Some ack)) as [Hd|Hd].
  { unfold acknowledge. by rewrite Hs, bool_decide_true. }
  destruct (check_ack ack s) as [[]|e|] eqn:Hc;
    [|unfold acknowledge; by rewrite Hs, bool_decide_false, Hc..].
  rewrite acknowledge_applied by done. split; [by apply acked_state_inv|]. cbn.
  eapply Forall_impl; [exact Hh|]. intros. by apply tracked_acked.
Qed.

Lemma step_run_inv x y : run_inv x → spool_step x y → run_inv y.
Proof.
  intros Hx Hstep. destruct Hstep as [input s h r s' Hm He|input s h e s' Hm He|i session s h
    |i session s h|ack s h|stream n s h|s h n s' He|s h e s' He].
  - by eapply enqueue_run_inv.
  - pose proof (enqueue_cases input s (proj1 Hx) Hm) as Hc. rewrite He in Hc. by subst s'.
  - unfold mark_offered. destruct (_ ≫= _) as [r|e|] eqn:E; [|done..].
    apply res_bind_Ok in E as (_ & _ & Hr). apply record_mut_Ok in Hr. by eapply mark_run_inv.
  - unfold mark_transport_published. destruct (_ ≫= _) as [r|e|] eqn:E; [|done..].
    apply res_bind_Ok in E as (_ & _ & Hr). apply record_mut_Ok in Hr. case_if; [|done].
    by eapply mark_run_inv.
  - by apply acknowledge_run_inv.
  - split; [by apply validate_open_inv, Hx|]. unfold validate_open.
    destruct (_ ≫= _) as [[]|e|]; apply Hx.
  - split; [|constructor]. replace s' with (snd (rotate_stream_epoch s)) by (by rewrite He).
    apply rotate_stream_epoch_inv, Hx.
  - assert (s' = s) as ->; [|done]. revert He. unfold rotate_stream_epoch.
    repeat case_match; congruence.
Qed.

Lemma reachable_inv x : reachable x → run_inv x.
Proof.
  intros (stream & n & s0 & H0 & Hsteps).
  assert (run_inv (Run s0 [])) as Hx by (split; [by eapply spool_new_inv|constructor]).
  clear H0. induction Hsteps as [x|x y z Hxy _ IH]; [done|]. by apply IH, (step_run_inv x).
Qed.

(** ** No silent loss *)

(** C13. No accepted fact disappears silently: after any sequence of operations,
    every fact accepted in the current epoch is covered by an application
    receipt, or still retained with its content, or inside the range the
    data-loss evidence reports. *)
Theorem spool_no_silent_loss (x : run) (r : CloudLinkRecord) :
  reachable x → r ∈ accepted x →
  let s := r_state x in
  let p := position (identity r) in
  p ≤ last_acknowledged_position s ∨
  (∃ r', bt_get p (records s) = Some r' ∧ same_content r r') ∨
  (∃ e, data_loss s = Some e ∧ l_epoch e = stream_epoch s ∧ first_lost e ≤ p ≤ last_lost e).
Proof.
  intros [H Hh]%reachable_inv Hr s p.
  destruct (proj1 (Forall_forall _ _) Hh r Hr) as [Hp Ht]. fold p s in Hp, Ht, H.
  destruct (decide (p ≤ last_acknowledged_position s)) as [|Hack]; [by left|right].
  destruct (decide (earliest s ≤ p)) as [Hle|Hlt]; [left; by apply Ht|right].
  destruct (inv_covered s H) as (e & He & H1 & H2); [lia|]. exists e.
  destruct (inv_evidence s H e He) as (_ & Hep & _). split_and!; [done..|lia|lia].
Qed.

Lemma replay_retained s p limit :
  spool_inv s → earliest s ≤ p ≤ next_position s → limit ≠ 0%nat →
  replay_from p limit s =
    Ok (Window (take limit (drop (Z.to_nat (p - earliest s)) (map snd (records s)))) None).
Proof.
  intros H Hp Hl. unfold replay_from. pose proof (inv_acked s H) as Hack.
  pose proof (inv_earliest s H) as He.
  destruct (Z.eqb_spec p 0); [lia|]. destruct (Nat.eqb_spec limit 0); [done|]. cbn [orb].
  destruct (Z.ltb_spec (next_position s) p); [lia|]. destruct (Z.ltb_spec p (earliest s)); [lia|].
  rewrite (contiguous_filter_ge _ _ p (inv_contiguous s H)) by lia.
  by rewrite <- He, skipn_map.
Qed.

(** Replay is gap-free: from any position the cloud has not acknowledged, the
    answer is either the retained records from exactly that position, without a
    hole and as many as the limit allows, or the evidence that the position was
    lost; never an error and never a silent skip. *)
Theorem replay_from_complete (x : run) (p : Z) (limit : nat) :
  reachable x → limit ≠ 0%nat →
  let s := r_state x in
  last_acknowledged_position s < p ≤ next_position s →
  ∃ w, replay_from p limit s = Ok w ∧
    match w_loss w with
    | None => length (w_records w) = Nat.min limit (Z.to_nat (next_position s - p)) ∧
              ∀ i r, w_records w !! i = Some r → position (identity r) = p + Z.of_nat i
    | Some e => w_records w = [] ∧ first_lost e ≤ p ≤ last_lost e
    end.
Proof.
  intros [H _]%reachable_inv Hl s Hp. fold s in H. pose proof (inv_earliest s H) as He.
  destruct (decide (earliest s ≤ p)) as [Hle|Hlt].
  - rewrite replay_retained by (done || lia). eexists. split; [done|]. cbn [w_loss w_records].
    split; [rewrite length_take, length_drop, length_map; lia|].
    intros i r Hi. apply lookup_take_Some in Hi as [Hi _]. rewrite lookup_drop in Hi.
    apply list_lookup_fmap_Some in Hi as ([k r'] & -> & Hi).
    pose proof (contiguous_get _ _ (p + Z.of_nat i) (inv_contiguous s H)) as Hg.
    destruct (Z.leb_spec (next_position s - Z.of_nat (length (records s))) (p + Z.of_nat i)); [|lia].
    replace (Z.to_nat (p + Z.of_nat i - (next_position s - Z.of_nat (length (records s)))))
      with (Z.to_nat (p - earliest s) + i)%nat in Hg by lia.
    rewrite Hi in Hg. cbn in Hg. apply bt_get_elem in Hg;
      [|eapply contiguous_sorted, inv_contiguous, H].
    destruct (proj1 (Forall_forall _ _) (inv_records s H) _ Hg) as [Hid _]. cbn in *. by rewrite Hid.
  - destruct (inv_covered s H) as (e & Hd & H1 & H2); [lia|]. unfold replay_from.
    pose proof (inv_acked s H). destruct (Z.eqb_spec p 0); [lia|].
    destruct (Nat.eqb_spec limit 0); [done|]. cbn [orb].
    destruct (Z.ltb_spec (next_position s) p); [lia|].
    destruct (Z.ltb_spec p (earliest s)); [|lia]. rewrite Hd.
    destruct (Z.leb_spec (first_lost e) p), (Z.leb_spec p (last_lost e)); try lia. cbn [andb].
    eexists. split; [done|]. cbn. split; [done|lia].
Qed.

(** Only a matching receipt removes: [acknowledge] removes records exactly
    when the receipt names this stream and epoch, a position beyond every earlier
    receipt that is still retained, the session that record was last offered on
    and its batch and digest; it then removes exactly the positions up to it.
    An exact repeat of the last receipt and every rejected receipt change
    nothing. *)
Theorem acknowledge_exact (x : run) (ack : CloudLinkDurableAck) :
  reachable x →
  let s := r_state x in
  match acknowledge ack s with
  | (Ok (Applied n), s') =>
      ∃ r, bt_get (acknowledged_position ack) (records s) = Some r ∧
        a_stream ack = stream_id s ∧ a_epoch ack = stream_epoch s ∧
        offered_session r = Some (a_session ack) ∧
        batch_id r = a_batch_id ack ∧ digest r = a_digest ack ∧
        last_acknowledged_position s < acknowledged_position ack ∧
        last_acknowledged_position s' = acknowledged_position ack ∧ last_ack s' = Some ack ∧
        records s' = List.filter (fun q => acknowledged_position ack + 1 <=? fst q) (records s) ∧
        (n + length (records s') = length (records s))%nat ∧
        next_position s' = next_position s ∧ data_loss s' = data_loss s
  | (Ok Duplicate, s') => s' = s ∧ last_ack s = Some ack
  | (Err _, s') => s' = s
  | (Panic, _) => False
  end.
Proof.
  intros [H _]%reachable_inv s. fold s in H.
  destruct (validate_session (a_session ack)) as [[]|e|] eqn:Hs.
  2: unfold acknowledge; by rewrite Hs.
  2:{ exfalso. revert Hs. unfold validate_session, check. by case_if. }
  destruct (decide (last_ack s = Some ack)) as [Hd|Hd].
  { unfold acknowledge. by rewrite Hs, bool_decide_true. }
  destruct (check_ack ack s) as [[]|e|] eqn:Hc.
  2: unfold acknowledge; by rewrite Hs, bool_decide_false, Hc.
  2:{ exfalso. revert Hc. unfold check_ack, check. no_panic. }
  rewrite acknowledge_applied by done.
  apply check_ack_Ok in Hc as (H1 & H2 & H3 & _ & r & Hr & H4 & H5 & H6). exists r.
  pose proof (acked_range ack s r H Hr) as Hrange. pose proof (inv_earliest s H) as He.
  split_and!; try done; cbn [records acked_state].
  - rewrite (contiguous_filter_ge _ _ _ (inv_contiguous s H)) by lia. f_equal. lia.
  - rewrite length_drop. lia.
Qed.

(** Enqueue: a batch identity still retained is either repeated with equal
    content, which returns the stored record and changes nothing, or refused; a
    new batch is stored under the next position, which then advances by one, the
    earliest record being evicted exactly when the spool is full; every other
    failure changes nothing. *)
Theorem enqueue_exact (x : run) (input : CloudLinkEnqueue) :
  reachable x → next_position (r_state x) + 1 < 2 ^ 64 →
  let s := r_state x in
  match enqueue input s with
  | (Ok r, s') =>
      (s' = s ∧ find_batch (e_batch_id input) (records s) = Some r ∧
       digest r = e_digest input ∧ message_kind r = e_kind input ∧ r_payload r = e_payload input) ∨
      (find_batch (e_batch_id input) (records s) = None ∧
       r = from_enqueue (Identity (stream_id s) (stream_epoch s) (next_position s)) input ∧
       next_position s' = next_position s + 1 ∧
       records s' = drop (evictions s) (records s) ++ [(next_position s, r)])
  | (Err _, s') => s' = s
  | (Panic, _) => False
  end.
Proof.
  intros [H _]%reachable_inv Hmax s. pose proof (enqueue_cases input s H Hmax) as Hc.
  destruct (enqueue input s) as [[r|e|] s']; [|done..]. destruct Hc as [Hc|Hc]; [by left|right].
  by destruct Hc as (H1 & H2 & (loss & ->) & _).
Qed.

(** ** The theorems at a concrete run *)

Definition do_enqueue (input : CloudLinkEnqueue) (x : run) : run :=
  match enqueue input (r_state x) with
  | (Ok r, s') => Run s' (accepted x ++ [r])
  | (_, s') => Run s' (accepted x)
  end.

Lemma do_enqueue_reachable input x :
  reachable x → next_position (r_state x) + 1 < 2 ^ 64 → reachable (do_enqueue input x).
Proof.
  intros Hx Hmax. pose proof (enqueue_cases input _ (proj1 (reachable_inv x Hx)) Hmax) as Hc.
  destruct Hx as (stream & n & s0 & H0 & Hs). exists stream, n, s0. split; [done|].
  unfold do_enqueue. destruct x as [s h]. cbn [r_state accepted] in *.
  destruct (enqueue input s) as [[r|e|] s'] eqn:E; [..|done].
  - eapply rtc_r; [exact Hs|]. by eapply step_enqueue.
  - eapply rtc_r; [exact Hs|]. by eapply step_enqueue_err.
Qed.

Definition sample_input (k : Z) : CloudLinkEnqueue :=
  Enqueue TelemetryBatch [0x62; 0x30 + k] (SHA256_PREFIX ++ replicate 64 0x61) [0x7B; 0x7D] (100 + k) None.

Definition sample_session : CloudLinkSessionBinding := Session [0x73] 1.

(** Capacity 2, three facts (the first is evicted), the second offered. *)
Definition sample_run : run :=
  let s0 := SpoolState [0x74] 1 1 2 [] None 0 None in
  let x := do_enqueue (sample_input 3) (do_enqueue (sample_input 2)
             (do_enqueue (sample_input 1) (Run s0 []))) in
  Run (snd (mark_offered (Identity [0x74] 1 2) sample_session (r_state x))) (accepted x).

Lemma sample_reachable : reachable sample_run.
Proof.
  set (x := do_enqueue (sample_input 3) (do_enqueue (sample_input 2)
    (do_enqueue (sample_input 1) (Run (SpoolState [0x74] 1 1 2 [] None 0 None) [])))).
  assert (reachable x) as (stream & n & s0 & H0 & Hs).
  { do 3 (apply do_enqueue_reachable; [|by vm_compute]).
    exists [0x74], 2%nat, (SpoolState [0x74] 1 1 2 [] None 0 None). by split; [vm_compute|]. }
  exists stream, n, s0. split; [done|]. eapply rtc_r; [exact Hs|].
  change sample_run with (Run (snd (mark_offered (Identity [0x74] 1 2) sample_session (r_state x)))
                              (accepted x)).
  destruct x as [s h]. apply step_offered.
Qed.

Lemma spool_no_silent_loss_witness :
  ∃ e, data_loss (r_state sample_run) = Some e ∧ first_lost e = 1 ∧ last_lost e = 1.
Proof.
  set (r := from_enqueue (Identity [0x74] 1 1) (sample_input 1)).
  assert (r ∈ accepted sample_run) as Hr by (vm_compute; constructor).
  destruct (spool_no_silent_loss sample_run r sample_reachable Hr) as [H|[(r' & H & _)|H]].
  - exfalso. revert H. by vm_compute.
  - exfalso. revert H. by vm_compute.
  - destruct H as (e & H & _). exists e. split; [exact H|]. revert H. vm_compute. by intros [= <-].
Defined.

Lemma replay_from_complete_witness :
  ∃ w, replay_from 2 10 (r_state sample_run) = Ok w ∧ length (w_records w) = 2%nat ∧ w_loss w = None.
Proof.
  destruct (replay_from_complete sample_run 2 10 sample_reachable ltac:(done) ltac:(by vm_compute))
    as (w & Hw & H).
  exists w. split; [exact Hw|]. assert (w_loss w = None) as E.
  { revert Hw. vm_compute. by intros [= <-]. }
  rewrite E in H. split; [|exact E]. destruct H as [H _]. rewrite H. by vm_compute.
Defined.

Definition sample_ack : CloudLinkDurableAck :=
  Ack sample_session [0x74] 1 2 [0x62; 0x32] (SHA256_PREFIX ++ replicate 64 0x61) [0x72].

Lemma acknowledge_exact_witness :
  match acknowledge sample_ack (r_state sample_run) with
  | (Ok (Applied n), s') => n = 1%nat ∧ last_acknowledged_position s' = 2
  | _ => False
  end.
Proof.
  pose proof (acknowledge_exact sample_run sample_ack sample_reachable) as H. cbv zeta in H.
  set (run := acknowledge sample_ack (r_state sample_run)) in *.
  assert (fst run = Ok (Applied 1)) as E by (by vm_compute).
  destruct run as [r s']. cbn [fst] in E. subst r. split; [done|].
  destruct H as (r & H). by destruct H as (_ & _ & _ & _ & _ & _ & _ & H & _).
Defined.

Lemma enqueue_exact_witness :
  match enqueue (sample_input 4) (r_state sample_run) with
  | (Ok r, s') => next_position s' = next_position (r_state sample_run) + 1
  | _ => False
  end.
Proof.
  pose proof (enqueue_exact sample_run (sample_input 4) sample_reachable ltac:(by vm_compute)) as H.
  cbv zeta in H. set (run := enqueue (sample_input 4) (r_state sample_run)) in *.
  assert (is_ok (fst run) = true) as E by (by vm_compute).
  destruct run as [[r|e|] s']; try done.
  destruct H as [(_ & H & _)|(_ & _ & H & _)]; [|exact H].
  exfalso. revert H. by vm_compute.
Defined.

End Spool.
