(* ===== verification/FileSpool.v ===== *)
(** * The file-backed CloudLink spool (libs/aether-store-local/src/file_cloudlink_spool.rs)

    The incremental journal of [Spool.v]'s transitions: record format, recovery,
    mutation and compaction, over the file system of [Fs.v].  The JSON encoding
    of journal entries (serde_json) is a parameter: a partial encoder and a
    decoder that inverts it.  The process lock is not a modelled effect; the
    mutex makes one call of the spool one run of these functions. *)

From stdpp Require Import base tactics numbers list gmap strings.
From S2P Require Import Prelude Btree Fs Spool Outbox.
Import Fs Spool.
#[local] Open Scope Z_scope.

Module FileSpool.

(** ASCII "AETHCL2\n". *)
Definition MAGIC : list Z := [0x41; 0x45; 0x54; 0x48; 0x43; 0x4C; 0x32; 0x0A].
Definition MAX_JOURNAL_RECORD_BYTES : Z := 2 * 1024 * 1024.
Definition COMPACT_AFTER_MUTATIONS : nat := 256.

Inductive JournalEntry :=
| Checkpoint (stream : list Z) (epoch next : Z) (cap : nat) (ack : option CloudLinkDurableAck)
    (acked : Z) (loss : option CloudLinkDataLossEvidence)
| ERecord (record : CloudLinkRecord)
| Enqueued (record : CloudLinkRecord) (next : Z) (loss : option CloudLinkDataLossEvidence)
| EOffered (i : CloudLinkRecordIdentity) (session : CloudLinkSessionBinding)
| EPublished (i : CloudLinkRecordIdentity) (session : CloudLinkSessionBinding)
| Acknowledged (ack : CloudLinkDurableAck)
| Rotated (epoch : Z)
| Capacity (cap : nat).

#[global] Instance entry_eq_dec : EqDecision JournalEntry.
Proof. solve_decision. Defined.

(** [crc32]: the same loop as the outbox journal's checksum. *)
Definition crc32 (bytes : list Z) : Z := Outbox.checksum bytes.

(** ** Replaying entries *)

(** What [recover] accumulates: the state, the mutation count, and whether a
    mutation was seen. *)
Record Recovery := Rcv { rc_state : option CloudLinkSpoolState; rc_mutations : nat; rc_started : bool }.

Definition corrupt {A} (r : res CloudLinkSpoolErrorReason A) : res CloudLinkSpoolErrorReason A :=
  match r with Err _ => Err CorruptJournal | _ => r end.

Definition validate_persisted_record (s : CloudLinkSpoolState) (r : CloudLinkRecord) : bool :=
  bool_decide (ri_stream (identity r) = stream_id s) &&
  (ri_epoch (identity r) =? stream_epoch s) && (0 <? position (identity r)) &&
  negb (length (batch_id r) =? 0)%nat && (length (batch_id r) <=? 128)%nat &&
  digest_valid (digest r) &&
  negb (length (r_payload r) =? 0)%nat &&
  (Z.of_nat (length (r_payload r)) <=? MAX_SPOOL_PAYLOAD_BYTES) &&
  expires_after (created_at_ms r) (expires_at_ms r).

Definition restore_checkpoint_record (r : CloudLinkRecord) (s : CloudLinkSpoolState)
    : res CloudLinkSpoolErrorReason CloudLinkSpoolState :=
  _ ← check (validate_persisted_record s r) CorruptJournal;
  let p := position (identity r) in
  _ ← check (negb (next_position s <=? p) && negb (bt_contains p (records s))) CorruptJournal;
  let s := with_records (bt_insert p r (records s)) s in
  _ ← check (length (records s) <=? capacity s)%nat CorruptJournal;
  Ok s.

Definition apply_enqueued (r : CloudLinkRecord) (next : Z) (loss : option CloudLinkDataLossEvidence)
    (s : CloudLinkSpoolState) : res CloudLinkSpoolErrorReason CloudLinkSpoolState :=
  _ ← check (validate_persisted_record s r) CorruptJournal;
  _ ← check (bool_decide (delivery r = Queued) && bool_decide (offered_session r = None) &&
             (position (identity r) =? next_position s) &&
             (next =? default 0 (checked_add 64 (next_position s) 1))) CorruptJournal;
  m ← (if (length (records s) =? capacity s)%nat
       then match bt_first (records s) with
            | Some (p, _) => Ok (bt_remove p (records s))
            | None => Err CorruptJournal
            end
       else Ok (records s));
  Ok (SpoolState (stream_id s) (stream_epoch s) next (capacity s)
        (bt_insert (position (identity r)) r m) (last_ack s) (last_acknowledged_position s) loss).

(** Replays one mutation through a transition of the state. *)
Definition replay_with {A} (f : spool A) (s : CloudLinkSpoolState)
    : res CloudLinkSpoolErrorReason (A * CloudLinkSpoolState) :=
  match f s with
  | (Ok a, s') => Ok (a, s')
  | (Err _, _) => Err CorruptJournal
  | (Panic, _) => Panic
  end.

Definition active_state (x : Recovery) : res CloudLinkSpoolErrorReason CloudLinkSpoolState :=
  ok_or (rc_state x) CorruptJournal.

Definition mutated (s : CloudLinkSpoolState) (x : Recovery) : Recovery :=
  Rcv (Some s) (rc_mutations x + 1) true.

Definition apply_entry (e : JournalEntry) (x : Recovery) : res CloudLinkSpoolErrorReason Recovery :=
  match e with
  | Checkpoint stream epoch next cap ack acked loss =>
      match rc_state x with
      | Some _ => Err CorruptJournal
      | None =>
          s ← corrupt (spool_new stream cap);
          Ok (Rcv (Some (SpoolState (stream_id s) epoch next (capacity s) (records s) ack acked loss))
                (rc_mutations x) (rc_started x))
      end
  | ERecord r =>
      if rc_started x then Err CorruptJournal
      else
        s ← active_state x;
        s ← restore_checkpoint_record r s;
        Ok (Rcv (Some s) (rc_mutations x) (rc_started x))
  | Enqueued r next loss =>
      s ← active_state x;
      s ← apply_enqueued r next loss s;
      Ok (mutated s x)
  | EOffered i session =>
      s ← active_state x;
      '(_, s) ← replay_with (mark_offered i session) s;
      Ok (mutated s x)
  | EPublished i session =>
      s ← active_state x;
      '(_, s) ← replay_with (mark_transport_published i session) s;
      Ok (mutated s x)
  | Acknowledged ack =>
      s ← active_state x;
      '(_, s) ← replay_with (acknowledge ack) s;
      Ok (mutated s x)
  | Rotated epoch =>
      s ← active_state x;
      '(n, s) ← replay_with rotate_stream_epoch s;
      if n =? epoch then Ok (mutated s x) else Err CorruptJournal
  | Capacity cap =>
      s ← active_state x;
      '(_, s) ← replay_with (validate_open (stream_id s) cap) s;
      Ok (mutated s x)
  end.

Definition validate_recovered_state (s : CloudLinkSpoolState) : bool :=
  negb (stream_epoch s =? 0) && negb (next_position s =? 0) && negb (capacity s =? 0)%nat &&
  (length (records s) <=? capacity s)%nat &&
  (last_acknowledged_position s <? next_position s) &&
  match last_ack s with
  | Some a => bool_decide (a_stream a = stream_id s) && (a_epoch a =? stream_epoch s) &&
              (acknowledged_position a =? last_acknowledged_position s)
  | None => last_acknowledged_position s =? 0
  end &&
  forallb (fun q => negb ((fst q <=? last_acknowledged_position s) || (next_position s <=? fst q)))
    (records s) &&
  match data_loss s with
  | Some l => bool_decide (l_stream l = stream_id s) && (l_epoch l =? stream_epoch s) &&
              negb (first_lost l =? 0) && (first_lost l <=? last_lost l) &&
              (last_lost l <? earliest_retained l)
  | None => true
  end.

Definition checkpoint (s : CloudLinkSpoolState) : JournalEntry :=
  Checkpoint (stream_id s) (stream_epoch s) (next_position s) (capacity s) (last_ack s)
    (last_acknowledged_position s) (data_loss s).

Definition storage (_ : io_kind) : CloudLinkSpoolErrorReason := Storage.
Definition cl_io := io CloudLinkSpoolErrorReason.

Record FileState := FState { fs_ino : nat; fs_state : CloudLinkSpoolState; fs_mutations : nat }.

Section Codec.
(** [serde_json::to_vec] and [from_slice] on journal entries. *)
Context (to_vec : JournalEntry → option (list Z)) (from_slice : list Z → option JournalEntry).

(** Length, payload and checksum of one journal record. *)
Definition entry_chunks (p : list Z) : list (list Z) :=
  [le_bytes 4 (Z.of_nat (length p)); p; le_bytes 4 (crc32 p)].

Definition encode_entry (e : JournalEntry) : res CloudLinkSpoolErrorReason (list Z) :=
  p ← ok_or (to_vec e) Storage;
  _ ← check (negb (length p =? 0)%nat && (Z.of_nat (length p) <=? MAX_JOURNAL_RECORD_BYTES)) Storage;
  _ ← check (Z.of_nat (length p) <=? u_max 32) Storage;
  Ok p.

Definition write_entry (ino off : nat) (e : JournalEntry) : cl_io nat :=
  p ← lift (encode_entry e);
  _ ← write_chunks storage ino off (entry_chunks p);
  mret (off + length (concat (entry_chunks p)))%nat.

Definition append_entry (ino : nat) (e : JournalEntry) : cl_io unit :=
  bytes ← sys_read storage ino;
  _ ← write_entry ino (length bytes) e;
  sys_nop storage.

(** The records of the state, one [Record] entry each, at the file's cursor. *)
Fixpoint write_records (ino off : nat) (rs : list CloudLinkRecord) : cl_io unit :=
  match rs with
  | [] => mret tt
  | r :: rs => off ← write_entry ino off (ERecord r); write_records ino off rs
  end.

Definition write_compacted_journal (ino : nat) (s : CloudLinkSpoolState) : cl_io unit :=
  _ ← sys_set_len storage ino 0;
  _ ← sys_nop storage;
  _ ← sys_write storage ino 0 MAGIC;
  off ← write_entry ino (length MAGIC) (checkpoint s);
  _ ← write_records ino off (map snd (records s));
  sys_nop storage.

(** The record loop of [recover] on the bytes after [offset]; the second
    component is where a torn tail starts.  A record takes at least nine bytes,
    so the number of bytes is enough fuel. *)
Fixpoint recover_loop (fuel offset : nat) (rest : list Z) (x : Recovery)
    : res CloudLinkSpoolErrorReason (Recovery * option nat) :=
  match fuel with
  | O => Ok (x, None)
  | S fuel =>
      if (length rest =? 0)%nat then Ok (x, None)
      else if (length rest <? 4)%nat then Ok (x, Some offset)
      else
        let len := le_val (take 4 rest) in
        if (len =? 0) || (MAX_JOURNAL_RECORD_BYTES <? len) then Err CorruptJournal
        else if Z.of_nat (length rest) - 4 <? len + 4 then Ok (x, Some offset)
        else
          let n := Z.to_nat len in
          let p := slice 4 n rest in
          if negb (crc32 p =? le_val (slice (4 + n) 4 rest)) then Err CorruptJournal
          else
            e ← ok_or (from_slice p) CorruptJournal;
            x ← apply_entry e x;
            recover_loop fuel (offset + 4 + n + 4)%nat (drop (4 + n + 4)%nat rest) x
  end.

Definition recover_bytes (bytes : list Z)
    : res CloudLinkSpoolErrorReason (Recovery * option nat) :=
  if (length bytes <? length MAGIC)%nat then Err Storage
  else if negb (bool_decide (take (length MAGIC) bytes = MAGIC)) then Err CorruptJournal
  else
    let rest := drop (length MAGIC) bytes in
    recover_loop (length rest) (length MAGIC) rest (Rcv None 0 false).

(** The checks after the loop. *)
Definition recovered (x : Recovery) : res CloudLinkSpoolErrorReason (CloudLinkSpoolState * nat) :=
  s ← ok_or (rc_state x) CorruptJournal;
  _ ← check (validate_recovered_state s) CorruptJournal;
  Ok (s, rc_mutations x).

Definition recover (ino : nat) : cl_io (CloudLinkSpoolState * nat) :=
  bytes ← sys_read storage ino;
  '(x, tail) ← lift (recover_bytes bytes);
  _ ← match tail with
      | Some offset => _ ← sys_set_len storage ino offset; sys_nop storage
      | None => mret tt
      end;
  lift (recovered x).

(** [compact_locked]; [temp] is the path [compaction_path] computes.  The
    in-memory file handle moves only after the rename. *)
Definition compact_locked (path temp : string) (f : FileState)
    : cl_io (res CloudLinkSpoolErrorReason unit * FileState) :=
  created ← attempt (ino ← sys_create_new storage temp; _ ← sys_nop storage; mret ino);
  match created with
  | Ok ino =>
      committed ← attempt (_ ← write_compacted_journal ino (fs_state f);
                           sys_rename storage temp path);
      match committed with
      | Ok _ =>
          sought ← attempt (sys_nop storage);
          match sought with
          | Ok _ =>
              synced ← attempt (_ ← sys_nop storage; sys_nop storage);
              mret (synced, FState ino (fs_state f) 0)
          | _ => mret (sought, f)
          end
      | _ => _ ← attempt (sys_remove storage temp); mret (committed, f)
      end
  | Err e => mret (Err e, f)
  | Panic => lift Panic
  end.

(** [mutate]: the transition runs on a copy of the state; its entry is appended
    before the copy becomes the state. *)
Definition mutate {A} (path temp : string) (operation : spool (A * JournalEntry)) (f : FileState)
    : cl_io (res CloudLinkSpoolErrorReason A * FileState) :=
  '(ready, f) ← (if (COMPACT_AFTER_MUTATIONS <=? fs_mutations f)%nat
                 then compact_locked path temp f else mret (Ok tt, f));
  match ready with
  | Ok _ =>
      match operation (fs_state f) with
      | (Ok (a, entry), next) =>
          if bool_decide (next = fs_state f) then mret (Ok a, f)
          else
            appended ← attempt (append_entry (fs_ino f) entry);
            match appended with
            | Ok _ => mret (Ok a, FState (fs_ino f) next (fs_mutations f + 1))
            | Err e => mret (Err e, f)
            | Panic => lift Panic
            end
      | (Err e, _) => mret (Err e, f)
      | (Panic, _) => lift Panic
      end
  | Err e => mret (Err e, f)
  | Panic => lift Panic
  end.

(** [FileCloudLinkSpool::open]. *)
Definition spool_open (path temp : string) (stream : list Z) (cap : nat) : cl_io FileState :=
  _ ← sys_nop storage;
  ino ← sys_create storage false path;
  _ ← sys_nop storage;
  bytes ← sys_read storage ino;
  '(s, mutations) ←
    (if (length bytes =? 0)%nat then
       s ← lift (spool_new stream cap);
       _ ← write_compacted_journal ino s;
       mret (s, 0%nat)
     else recover ino);
  match validate_open stream cap s with
  | (Ok changed, s) =>
      mutations ←
        (if (changed : bool) then _ ← append_entry ino (Capacity cap); mret (mutations + 1)%nat
         else mret mutations);
      _ ← sys_nop storage;
      let f := FState ino s mutations in
      if (COMPACT_AFTER_MUTATIONS <=? mutations)%nat then
        '(compacted, f) ← compact_locked path temp f;
        _ ← lift compacted;
        mret f
      else mret f
  | (Err e, _) => fail e
  | (Panic, _) => lift Panic
  end.

End Codec.

(** ** The operations of the port and their entries *)

Definition logging {A} (f : spool A) (entry : A → CloudLinkSpoolState → JournalEntry)
    : spool (A * JournalEntry) := fun s =>
  match f s with
  | (Ok a, s') => (Ok (a, entry a s'), s')
  | (Err e, s') => (Err e, s')
  | (Panic, s') => (Panic, s')
  end.

Definition op_enqueue (input : CloudLinkEnqueue) : spool (CloudLinkRecord * JournalEntry) :=
  logging (enqueue input) (fun r s => Enqueued r (next_position s) (data_loss s)).
Definition op_mark_offered (i : CloudLinkRecordIdentity) (session : CloudLinkSessionBinding)
    : spool (unit * JournalEntry) :=
  logging (mark_offered i session) (fun _ _ => EOffered i session).
Definition op_mark_transport_published (i : CloudLinkRecordIdentity)
    (session : CloudLinkSessionBinding) : spool (unit * JournalEntry) :=
  logging (mark_transport_published i session) (fun _ _ => EPublished i session).
Definition op_acknowledge (ack : CloudLinkDurableAck) : spool (DurableAckOutcome * JournalEntry) :=
  logging (acknowledge ack) (fun _ _ => Acknowledged ack).
Definition op_rotate : spool (Z * JournalEntry) :=
  logging rotate_stream_epoch (fun epoch _ => Rotated epoch).

(** The port's mutating operations, by the type of their result. *)
Inductive PortOp : Type → Type :=
| PEnqueue (input : CloudLinkEnqueue) : PortOp CloudLinkRecord
| POffered (i : CloudLinkRecordIdentity) (session : CloudLinkSessionBinding) : PortOp unit
| PPublished (i : CloudLinkRecordIdentity) (session : CloudLinkSessionBinding) : PortOp unit
| PAcknowledge (ack : CloudLinkDurableAck) : PortOp DurableAckOutcome
| PRotate : PortOp Z.

Definition transition {A} (o : PortOp A) : spool (A * JournalEntry) :=
  match o with
  | PEnqueue input => op_enqueue input
  | POffered i session => op_mark_offered i session
  | PPublished i session => op_mark_transport_published i session
  | PAcknowledge ack => op_acknowledge ack
  | PRotate => op_rotate
  end.

(** ** An entry replays to the transition it records *)

Lemma record_persisted s p r :
  identity r = Identity (stream_id s) (stream_epoch s) p → 0 < p → record_ok r →
  validate_persisted_record s r = true.
Proof.
  intros Hid Hp (Hb & Hd & Hl1 & Hl2 & He). unfold validate_persisted_record. rewrite Hid. cbn.
  rewrite bool_decide_true, Z.eqb_refl, (proj2 (Z.ltb_lt _ _) Hp), Hd, He by done. cbn [andb].
  unfold valid_identifier in Hb. bool_to_prop.
  destruct (Nat.eqb_spec (length (batch_id r)) 0), (Nat.leb_spec (length (batch_id r)) 128),
    (Nat.eqb_spec (length (r_payload r)) 0),
    (Z.leb_spec (Z.of_nat (length (r_payload r))) MAX_SPOOL_PAYLOAD_BYTES); (done || lia).
Qed.

(** [op] from [s] to another state is replayed by the entry it logs. *)
Definition replayed {A} (op : spool (A * JournalEntry)) (s : CloudLinkSpoolState) : Prop :=
  match op s with
  | (Ok (_, e), s') =>
      spool_inv s' ∧
      (s' ≠ s → ∀ x, rc_state x = Some s → apply_entry e x = Ok (mutated s' x))
  | (Err _, _) => True
  | (Panic, _) => False
  end.

Lemma apply_enqueued_pushed r loss s input :
  spool_inv s → next_position s + 1 < 2 ^ 64 →
  spool_inv (pushed (drop (evictions s) (records s)) r loss s) →
  r = from_enqueue (Identity (stream_id s) (stream_epoch s) (next_position s)) input →
  let s' := pushed (drop (evictions s) (records s)) r loss s in
  apply_enqueued r (next_position s') (data_loss s') s = Ok s'.
Proof.
  intros H Hmax Hi Hr s'. pose proof (inv_records _ Hi) as Hrs. cbn [records pushed] in Hrs.
  apply Forall_app in Hrs as [_ Hrs]. apply Forall_cons in Hrs as [[Hid Hok] _]. cbn in Hid, Hok.
  pose proof (inv_acked s H) as Hack. pose proof (inv_contiguous s H) as Hcont.
  unfold apply_enqueued. rewrite (record_persisted s (next_position s)) by (done || lia).
  cbn [check mbind res_bind]. subst s'. cbn [pushed next_position data_loss]. rewrite Hid.
  assert (delivery r = Queued) as -> by (by rewrite Hr).
  assert (offered_session r = None) as -> by (by rewrite Hr).
  cbn [position]. rewrite !bool_decide_true, Z.eqb_refl by done. unfold checked_add.
  rewrite (proj2 (Z.ltb_lt _ _) Hmax). cbn [default from_option andb]. rewrite Z.eqb_refl.
  cbn [check mbind res_bind].
  assert (∀ m, Forall (fun q => fst q < next_position s) m →
    bt_insert (next_position s) r m = m ++ [(next_position s, r)]) as Hins
    by (intros; by apply bt_insert_last).
  assert (Forall (fun q => fst q < next_position s) (records s)) as Hbelow.
  { eapply Forall_impl; [apply contiguous_range, Hcont|]. cbn. intros; lia. }
  unfold evictions, pushed. destruct (Nat.eqb_spec (length (records s)) (capacity s)) as [Hfull|Hroom].
  2:{ cbn [mbind res_bind]. by rewrite drop_0, Hins. }
  destruct (records s) as [|[p r0] m] eqn:Hrec; [pose proof (inv_capacity s H); cbn in Hfull; lia|].
  cbn [bt_first head]. destruct Hcont as [-> Hcont]. apply Forall_cons in Hbelow as [_ Hbelow].
  rewrite (bt_remove_first m) by done. cbn [mbind res_bind drop]. by rewrite Hins, drop_0.
Qed.

Lemma enqueue_replayed input s : spool_inv s → replayed (op_enqueue input) s.
Proof.
  intros H. unfold replayed, op_enqueue, logging.
  destruct (Z.ltb_spec (next_position s + 1) (2 ^ 64)) as [Hmax|Hmax].
  - pose proof (enqueue_cases input s H Hmax) as Hc. destruct (enqueue input s) as [[r|e|] s']; [|done..].
    destruct Hc as [(-> & _)|(_ & Hr & (loss & ->) & Hi)]; [done|]. split; [done|].
    intros _ x Hx. cbn [apply_entry]. unfold active_state. rewrite Hx. cbn [ok_or mbind res_bind].
    by rewrite (apply_enqueued_pushed r loss s input H Hmax Hi Hr).
  - assert (∀ ev s0, next_position s0 = next_position s → allocate input ev s0 = (Err Storage, s0))
      as Hfail.
    { intros ev s0 Hn. unfold allocate, checked_add. rewrite Hn.
      by destruct (Z.ltb_spec (next_position s + 1) (2 ^ 64)); [lia|]. }
    unfold enqueue. destruct (validate_enqueue input) as [[]|e|] eqn:Hv; [|done|].
    2:{ revert Hv. unfold validate_enqueue, check. no_panic. }
    repeat case_match; rewrite ?Hfail in * by done; simplify_eq; try done.
Qed.

(** The transitions [apply_entry] replays by running them again. *)
Lemma logging_replayed {A} (f : spool A) (e : A → JournalEntry) s :
  (∀ s0, spool_inv s0 → spool_inv (snd (f s0))) → fst (f s) ≠ Panic → spool_inv s →
  (∀ a s' x, f s = (Ok a, s') → rc_state x = Some s → apply_entry (e a) x = Ok (mutated s' x)) →
  replayed (logging f (fun a _ => e a)) s.
Proof.
  intros Hinv Hp H Ha. unfold replayed, logging. specialize (Hinv s H).
  destruct (f s) as [[a|err|] s'] eqn:Hf; [|done|done]. split; [done|]. intros _ x Hx.
  by eapply Ha.
Qed.

Lemma session_record_no_panic i session s :
  (_ ← validate_session session; record_mut i s) ≠ Panic.
Proof.
  unfold validate_session, check, record_mut.
  apply res_bind_no_panic; [by case_if|intros _; case_if; [done|apply ok_or_no_panic]].
Qed.

Lemma check_ack_no_panic ack s : check_ack ack s ≠ Panic.
Proof. unfold check_ack, check. no_panic. Qed.

Lemma transition_replayed {A} (o : PortOp A) s : spool_inv s → replayed (transition o) s.
Proof.
  intros H. destruct o as [input|i session|i session|ack|]; cbn [transition].
  - by apply enqueue_replayed.
  - apply (logging_replayed (mark_offered i session) (fun _ => EOffered i session)); [|..|done|].
    + intros. by apply mark_offered_inv.
    + unfold mark_offered. pose proof (session_record_no_panic i session s).
      by destruct (_ ≫= _).
    + intros a s' x Hf Hx. cbn [apply_entry]. unfold active_state, replay_with. rewrite Hx.
      cbn [ok_or mbind res_bind]. by rewrite Hf.
  - apply (logging_replayed (mark_transport_published i session) (fun _ => EPublished i session)); [|..|done|].
    + intros. by apply mark_transport_published_inv.
    + unfold mark_transport_published. pose proof (session_record_no_panic i session s).
      destruct (_ ≫= _); [by case_if|done..].
    + intros a s' x Hf Hx. cbn [apply_entry]. unfold active_state, replay_with. rewrite Hx.
      cbn [ok_or mbind res_bind]. by rewrite Hf.
  - apply (logging_replayed (acknowledge ack) (fun _ => Acknowledged ack)); [|..|done|].
    + intros. by apply acknowledge_inv.
    + unfold acknowledge. pose proof (check_ack_no_panic ack s).
      unfold validate_session, check in *. case_if; [|done]. case_if; [done|]. by destruct (check_ack ack s).
    + intros a s' x Hf Hx. cbn [apply_entry]. unfold active_state, replay_with. rewrite Hx.
      cbn [ok_or mbind res_bind]. by rewrite Hf.
  - apply (logging_replayed rotate_stream_epoch Rotated); [|..|done|].
    + intros. by apply rotate_stream_epoch_inv.
    + unfold rotate_stream_epoch. repeat case_match; simplify_eq/=; no_panic.
    + intros a s' x Hf Hx. cbn [apply_entry]. unfold active_state, replay_with. rewrite Hx.
      cbn [ok_or mbind res_bind]. rewrite Hf. cbn [mbind res_bind]. by rewrite Z.eqb_refl.
Qed.

Lemma capacity_replayed stream cap s changed s' x :
  validate_open stream cap s = (Ok changed, s') → rc_state x = Some s →
  apply_entry (Capacity cap) x = Ok (mutated s' x).
Proof.
  intros Hf Hx. cbn [apply_entry]. unfold active_state, replay_with. rewrite Hx.
  cbn [ok_or mbind res_bind].
  assert (stream_id s = stream) as ->; [|by rewrite Hf].
  revert Hf. unfold validate_open. destruct (_ ≫= _) as [[]|e|] eqn:E; [|done..]. intros _.
  unfold validate_stream_id in E. apply res_bind_Ok in E as (_ & _ & E).
  apply res_bind_Ok in E as ([] & E & _). apply check_Ok in E. by apply bool_decide_eq_true in E.
Qed.

(** A state of the spool passes the checks of [recover]. *)
Lemma validate_recovered_inv s : spool_inv s → validate_recovered_state s = true.
Proof.
  intros H. unfold validate_recovered_state. pose proof (inv_acked s H) as Hack.
  pose proof (inv_epoch s H). pose proof (inv_capacity s H). pose proof (inv_length s H) as Hlen.
  repeat match goal with |- _ && _ = true => apply andb_true_intro; split end.
  - apply negb_true_iff, Z.eqb_neq. lia.
  - apply negb_true_iff, Z.eqb_neq. lia.
  - apply negb_true_iff, Nat.eqb_neq. lia.
  - by apply Nat.leb_le.
  - apply Z.ltb_lt. lia.
  - pose proof (inv_last_ack s H) as Hla. destruct (last_ack s) as [a|]; [|by apply Z.eqb_eq].
    destruct Hla as (-> & -> & ->). by rewrite bool_decide_true, !Z.eqb_refl.
  - apply forallb_forall. intros q Hq%list_elem_of_In.
    apply (proj1 (Forall_forall _ _) (contiguous_range _ _ (inv_contiguous s H))) in Hq.
    apply negb_true_iff, orb_false_intro; [apply Z.leb_gt|apply Z.leb_gt]; lia.
  - pose proof (inv_evidence s H) as He. destruct (data_loss s) as [l|]; [|done].
    destruct (He l eq_refl) as (-> & -> & E1 & E2 & E3). rewrite bool_decide_true, Z.eqb_refl by done.
    cbn [andb]. destruct (Z.eqb_spec (first_lost l) 0), (Z.leb_spec (first_lost l) (last_lost l)),
      (Z.ltb_spec (last_lost l) (earliest_retained l)); (done || lia).
Qed.

(** ** The journal file *)

Section Journal.
Context (to_vec : JournalEntry → option (list Z)) (from_slice : list Z → option JournalEntry).

(** [serde_json] decodes what it encoded. *)
Hypothesis codec : ∀ e p, to_vec e = Some p → bytes_ok p ∧ from_slice p = Some e.

Notation encode_entry := (encode_entry to_vec).
Notation recover_loop := (recover_loop from_slice).
Notation recover_bytes := (recover_bytes from_slice).

Definition frame (p : list Z) : list Z := concat (entry_chunks p).

(** A payload the journal can hold. *)
Definition payload_ok (p : list Z) : Prop :=
  bytes_ok p ∧ (0 < length p)%nat ∧ Z.of_nat (length p) ≤ MAX_JOURNAL_RECORD_BYTES.

Definition encodes (es : list JournalEntry) (ps : list (list Z)) : Prop :=
  Forall2 (fun e p => encode_entry e = Ok p) es ps.

Fixpoint replay (es : list JournalEntry) (x : Recovery) : res CloudLinkSpoolErrorReason Recovery :=
  match es with
  | [] => Ok x
  | e :: es => x ← apply_entry e x; replay es x
  end.

Definition frames (ps : list (list Z)) : list Z := concat (map frame ps).
Definition journal (ps : list (list Z)) : list Z := MAGIC ++ frames ps.

(** What an interrupted append may leave behind the last complete record. *)
Definition torn (t : list Z) : Prop :=
  ∃ p k, payload_ok p ∧ (k < length (frame p))%nat ∧ t = take k (frame p).

Lemma encode_entry_Ok e p : encode_entry e = Ok p → payload_ok p ∧ from_slice p = Some e.
Proof.
  unfold encode_entry. intros H. apply res_bind_Ok in H as (q & Hq & H). apply ok_or_Ok in Hq.
  apply res_bind_Ok in H as ([] & H1 & H). apply check_Ok in H1.
  apply res_bind_Ok in H as ([] & _ & H). apply Ok_inj in H as <-. bool_to_prop.
  destruct (codec e q Hq) as [Hb Hs]. split; [|done]. split_and!; [done|lia|done].
Qed.

Lemma length_frame p : length (frame p) = (8 + length p)%nat.
Proof.
  unfold frame, entry_chunks. cbn [concat]. rewrite app_nil_r, !length_app, !length_le_bytes. lia.
Qed.

Lemma frame_eq p : frame p = le_bytes 4 (Z.of_nat (length p)) ++ p ++ le_bytes 4 (crc32 p).
Proof. unfold frame, entry_chunks. cbn [concat]. by rewrite app_nil_r. Qed.

Lemma spool_payload_len_in_u p : payload_ok p → in_u 32 (Z.of_nat (length p)).
Proof. intros (_ & _ & H). unfold in_u, MAX_JOURNAL_RECORD_BYTES in *. lia. Qed.

Lemma frame_length_field p rest :
  payload_ok p → le_val (take 4 (frame p ++ rest)) = Z.of_nat (length p).
Proof.
  intros Hp. rewrite frame_eq, <- app_assoc. rewrite take_app_length' by (by rewrite length_le_bytes).
  apply le_val_le_bytes_small. by apply spool_payload_len_in_u.
Qed.

Lemma spool_record_len_checks p :
  payload_ok p → (Z.of_nat (length p) =? 0) || (MAX_JOURNAL_RECORD_BYTES <? Z.of_nat (length p)) = false.
Proof.
  intros (_ & H1 & H2). apply orb_false_intro; [apply Z.eqb_neq; lia|apply Z.ltb_ge; lia].
Qed.

Lemma recover_loop_frame fuel off e p rest x :
  payload_ok p → from_slice p = Some e →
  recover_loop (S fuel) off (frame p ++ rest) x =
  (x ← apply_entry e x; recover_loop fuel (off + length (frame p))%nat rest x).
Proof.
  intros Hp He. cbn [FileSpool.recover_loop]. rewrite length_app, length_frame.
  destruct (Nat.eqb_spec (8 + length p + length rest) 0); [lia|].
  destruct (Nat.ltb_spec (8 + length p + length rest) 4); [lia|].
  rewrite frame_length_field, spool_record_len_checks by done.
  destruct (Z.ltb_spec (Z.of_nat (8 + length p + length rest) - 4) (Z.of_nat (length p) + 4)); [lia|].
  rewrite Nat2Z.id.
  assert (slice 4 (length p) (frame p ++ rest) = p) as ->.
  { rewrite frame_eq, <- !app_assoc. by apply slice_app_mid. }
  assert (le_val (slice (4 + length p) 4 (frame p ++ rest)) = crc32 p) as ->.
  { rewrite frame_eq, app_assoc, <- app_assoc, slice_app_mid.
    - apply le_val_le_bytes_small, Outbox.checksum_in_u, Hp.
    - by rewrite length_app, length_le_bytes.
    - by rewrite length_le_bytes. }
  rewrite Z.eqb_refl, He. cbn [negb ok_or mbind res_bind].
  rewrite drop_app_length' by (rewrite length_frame; lia).
  by replace (off + 4 + length p + 4)%nat with (off + (8 + length p))%nat by lia.
Qed.

(** Where a torn tail starts. *)
Definition tail_of (t : list Z) (off : nat) : option nat :=
  match t with [] => None | _ => Some off end.

Lemma spool_recover_loop_torn fuel off t x :
  torn t → (length t ≤ fuel)%nat → recover_loop fuel off t x = Ok (x, tail_of t off).
Proof.
  intros (p & k & Hp & Hk & ->) Hfuel. rewrite length_take in Hfuel.
  destruct k as [|k]; [by destruct fuel|].
  destruct fuel as [|fuel]; [lia|]. cbn [FileSpool.recover_loop].
  assert (tail_of (take (S k) (frame p)) off = Some off) as ->.
  { destruct (frame p) eqn:E; [cbn in Hk; lia|done]. }
  rewrite length_frame in Hk. rewrite length_take, length_frame, Nat.min_l by lia.
  destruct (Nat.eqb_spec (S k) 0); [lia|]. destruct (Nat.ltb_spec (S k) 4); [done|].
  rewrite take_take, Nat.min_l by lia. pose proof (frame_length_field p [] Hp) as Hf.
  rewrite app_nil_r in Hf. rewrite Hf, spool_record_len_checks by done.
  by destruct (Z.ltb_spec (Z.of_nat (S k) - 4) (Z.of_nat (length p) + 4)); [|lia].
Qed.

(** The fuel of the record loop is never the reason it stops. *)
Lemma spool_recover_loop_fuel f1 f2 off rest x :
  (length rest ≤ f1)%nat → (length rest ≤ f2)%nat →
  recover_loop f1 off rest x = recover_loop f2 off rest x.
Proof.
  revert f2 off rest x. induction f1 as [|f1 IH]; intros [|f2] off rest x H1 H2;
    try (destruct rest; [done|cbn in *; lia]).
  cbn [FileSpool.recover_loop]. repeat case_if; try done.
  destruct (ok_or _ _) as [e|e|]; [|done..]. cbn [mbind res_bind].
  destruct (apply_entry e x) as [x'|e'|]; [|done..].
  apply IH; rewrite length_drop; lia.
Qed.

Lemma spool_replay_snoc es e x x1 x2 :
  replay es x = Ok x1 → apply_entry e x1 = Ok x2 → replay (es ++ [e]) x = Ok x2.
Proof.
  revert x. induction es as [|e0 es IH]; intros x H1 H2; cbn [replay app] in *.
  - apply Ok_inj in H1 as <-. by rewrite H2.
  - apply res_bind_Ok in H1 as (x0 & -> & H1). cbn [mbind res_bind]. by apply IH.
Qed.

Lemma journal_snoc ps p : journal (ps ++ [p]) = journal ps ++ frame p.
Proof.
  unfold journal, frames. rewrite map_app, concat_app. cbn [map concat].
  by rewrite app_nil_r, app_assoc.
Qed.

(** Complete records in front of anything: the loop replays them and goes on. *)
Lemma recover_loop_frames es ps rest fuel off x x' :
  encodes es ps → replay es x = Ok x' → (length (frames ps ++ rest) ≤ fuel)%nat →
  ∃ fuel', (length rest ≤ fuel')%nat ∧
    recover_loop fuel off (frames ps ++ rest) x =
    recover_loop fuel' (off + length (frames ps)) rest x'.
Proof.
  intros Henc. revert fuel off x.
  induction Henc as [|e p es ps Hep _ IH]; intros fuel off x Hr Hf.
  { cbn [replay frames map concat app length] in *. apply Ok_inj in Hr as <-.
    exists fuel. by rewrite Nat.add_0_r. }
  unfold frames in *. cbn [replay map concat] in *. rewrite <- app_assoc in *.
  apply res_bind_Ok in Hr as (x1 & H1 & H2). rewrite length_app, length_frame in Hf.
  destruct fuel as [|fuel]; [lia|]. destruct (encode_entry_Ok e p Hep) as [Hp Hs].
  rewrite (recover_loop_frame _ _ e), H1 by done. cbn [mbind res_bind].
  destruct (IH fuel (off + length (frame p))%nat x1 H2) as (fuel' & Hf' & ->); [lia|].
  exists fuel'. split; [done|]. rewrite (length_app (frame p)). f_equal. lia.
Qed.

Lemma recover_bytes_frames es ps rest x :
  encodes es ps → replay es (Rcv None 0 false) = Ok x →
  ∃ fuel, (length rest ≤ fuel)%nat ∧
    recover_bytes (journal ps ++ rest) = recover_loop fuel (length (journal ps)) rest x.
Proof.
  intros Henc Hr. unfold FileSpool.recover_bytes, journal. rewrite <- app_assoc.
  destruct (Nat.ltb_spec (length (MAGIC ++ frames ps ++ rest)) (length MAGIC)) as [H|_].
  { rewrite length_app in H. lia. }
  rewrite take_app_length, bool_decide_true by done. cbn [negb].
  rewrite drop_app_length, (length_app MAGIC (frames ps)). by eapply recover_loop_frames.
Qed.

Lemma spool_recover_journal es ps t x :
  encodes es ps → torn t → replay es (Rcv None 0 false) = Ok x →
  recover_bytes (journal ps ++ t) = Ok (x, tail_of t (length (journal ps))).
Proof.
  intros Henc Ht Hr. destruct (recover_bytes_frames es ps t x Henc Hr) as (fuel & Hf & ->).
  by apply spool_recover_loop_torn.
Qed.

(** A record behind a single byte of an earlier one: its length field reads as
    more than two hundred times its length. *)
Lemma recover_loop_shifted fuel off p p' x :
  payload_ok p → payload_ok p' → (length (take 1 (frame p) ++ frame p') ≤ fuel)%nat →
  recover_loop fuel off (take 1 (frame p) ++ frame p') x = Ok (x, Some off) ∨
  recover_loop fuel off (take 1 (frame p) ++ frame p') x = Err CorruptJournal.
Proof.
  intros Hp Hp' Hf. pose proof Hp' as (_ & H0 & Hmax). unfold MAX_JOURNAL_RECORD_BYTES in Hmax.
  set (n := Z.of_nat (length p')).
  assert (∃ b, 0 ≤ b ∧ take 1 (frame p) = [b]) as (b & Hb & E).
  { rewrite frame_eq. eexists. split; [|cbn; reflexivity]. apply Z.mod_pos_bound. lia. }
  rewrite E in *. cbn [app] in *.
  assert (le_val (take 4 (b :: frame p')) = b + 256 * n) as Hlen.
  { change (take 4 (b :: frame p')) with (b :: take 3 (frame p')).
    rewrite frame_eq. change (le_bytes 4 (Z.of_nat (length p')))
      with (le_bytes 3 (Z.of_nat (length p')) ++ drop 3 (le_bytes 4 (Z.of_nat (length p')))).
    rewrite <- app_assoc, take_app_length' by (by rewrite length_le_bytes).
    cbn [le_val]. rewrite le_val_le_bytes_small by (unfold in_u; cbn; lia). done. }
  destruct fuel as [|fuel]; [cbn in Hf; lia|].
  cbn [FileSpool.recover_loop]. rewrite Hlen.
  assert (length (b :: frame p') = 9 + length p')%nat as -> by (cbn [length]; rewrite length_frame; lia).
  destruct (Nat.eqb_spec (9 + length p') 0); [lia|].
  destruct (Nat.ltb_spec (9 + length p') 4); [lia|].
  case_if; [by right|].
  destruct (Z.ltb_spec (Z.of_nat (9 + length p') - 4) (b + 256 * n + 4)); [by left|lia].
Qed.

End Journal.

End FileSpool.
