(* ===== verification/SpoolRecovery.v ===== *)
(** * Durability of the file-backed CloudLink spool

    Theorems about [mutate], [compact] and [open] of
    libs/aether-store-local/src/file_cloudlink_spool.rs, over every fault
    schedule; the definitions are those of [FileSpool.v]. *)

From stdpp Require Import base tactics numbers list gmap strings.
From S2P Require Import Prelude Btree Fs Outbox Spool FileSpool.
Import Fs Spool FileSpool.
#[local] Open Scope Z_scope.

Module SpoolRecovery.

Section Recovery.
Context (to_vec : JournalEntry → option (list Z)) (from_slice : list Z → option JournalEntry).
(** [serde_json] decodes what it encoded. *)
Hypothesis codec : ∀ e p, to_vec e = Some p → bytes_ok p ∧ from_slice p = Some e.

Notation encode_entry := (FileSpool.encode_entry to_vec).
Notation encodes := (FileSpool.encodes to_vec).
Notation recover_bytes := (FileSpool.recover_bytes from_slice).

Definition start : Recovery := Rcv None 0 false.

(** What a restart would find. *)
Definition recovers (w : world) (path : string) (s : CloudLinkSpoolState) : Prop :=
  ∃ bytes x tl n, path_bytes w path = Some bytes ∧ recover_bytes bytes = Ok (x, tl) ∧
                  recovered x = Ok (s, n).

(** The file at the path holds exactly the entries that lead to the state. *)
Definition file_inv (path : string) (f : FileState) (w : world) : Prop :=
  w_names w !! path = Some (fs_ino f) ∧ (fs_ino f < w_next w)%nat ∧ spool_inv (fs_state f) ∧
  ∃ es ps x, encodes es ps ∧ file_bytes w (fs_ino f) = journal ps ∧
             replay es start = Ok x ∧ rc_state x = Some (fs_state f).

Lemma recovered_inv x s : rc_state x = Some s → spool_inv s → recovered x = Ok (s, rc_mutations x).
Proof. intros Hx H. unfold recovered. rewrite Hx. cbn. by rewrite validate_recovered_inv. Qed.

Lemma spool_torn_nil : torn [].
Proof.
  exists [0], 0%nat. split; [|split; [rewrite length_frame; lia|done]].
  split_and!; [by repeat constructor|cbn; lia|done].
Qed.

Lemma recovers_torn w path ino es ps x s t :
  w_names w !! path = Some ino → encodes es ps → replay es start = Ok x →
  rc_state x = Some s → spool_inv s → torn t → file_bytes w ino = journal ps ++ t →
  recovers w path s.
Proof.
  intros Hn Henc Hr Hx Hs Ht Hf. eexists _, x, _, _. unfold path_bytes. rewrite Hn, Hf.
  split; [done|]. split; [|by apply recovered_inv].
  by apply (spool_recover_journal to_vec from_slice codec es).
Qed.

Lemma spool_inv_recovers path f w : file_inv path f w → recovers w path (fs_state f).
Proof.
  intros (Hn & _ & Hs & es & ps & x & H1 & H2 & H3 & H4).
  eapply (recovers_torn _ _ (fs_ino f) es ps x _ []); try done; [apply spool_torn_nil|].
  by rewrite app_nil_r.
Qed.

(** Nothing but the file system's fault schedule and other inodes changed. *)
Lemma inv_same path f w w' :
  file_inv path f w → w_names w' !! path = w_names w !! path → (w_next w ≤ w_next w')%nat →
  file_bytes w' (fs_ino f) = file_bytes w (fs_ino f) → file_inv path f w'.
Proof.
  intros (Hn & Hlt & Hs & es & ps & x & H) Hn' Hnext Hf'. unfold file_inv. rewrite Hn', Hf'.
  split_and!; [done|lia|done|]. by exists es, ps, x.
Qed.

(** ** Appending an entry *)

(** A complete frame, or less. *)
Definition attempted (l : list Z) (e : JournalEntry) (bytes : list Z) : Prop :=
  (∃ t, torn t ∧ bytes = l ++ t) ∨ (∃ p, encode_entry e = Ok p ∧ bytes = l ++ frame p).

Lemma attempted_take l e p k :
  encode_entry e = Ok p → attempted l e (l ++ take k (frame p)).
Proof.
  intros Henc. destruct (decide (k < length (frame p))%nat) as [Hk|Hk].
  - left. exists (take k (frame p)). split; [|done]. exists p, k.
    destruct (encode_entry_Ok to_vec from_slice codec e p Henc) as [Hp _].
    split; [exact Hp|by split].
  - right. exists p. split; [done|]. by rewrite take_ge by lia.
Qed.

Lemma attempted_nothing l e : attempted l e l.
Proof. left. exists []. split; [apply spool_torn_nil|by rewrite app_nil_r]. Qed.

Lemma wp_write_entry ino e l w :
  file_bytes w ino = l →
  wp (write_entry to_vec ino (length l) e)
    (fun r w' => only ino w w' ∧
       match r with
       | Ok off => ∃ p, encode_entry e = Ok p ∧ file_bytes w' ino = l ++ frame p ∧
                        off = length (l ++ frame p)
       | Err _ => attempted l e (file_bytes w' ino)
       | Panic => False
       end)
    (fun w' => only ino w w' ∧ attempted l e (file_bytes w' ino)) w.
Proof.
  intros Hl. unfold write_entry. apply wp_bind, wp_lift.
  destruct (encode_entry e) as [p|err|] eqn:Henc.
  2:{ split; [done|]. rewrite Hl. apply attempted_nothing. }
  2:{ exfalso. revert Henc. unfold FileSpool.encode_entry, check. no_panic. }
  apply wp_bind. eapply wp_mono; [by apply wp_write_chunks| |].
  - intros [[]|err|] w' [Ho H]; cbv beta iota; [|split; [done|]|done].
    + apply wp_ret. split; [done|]. exists p. rewrite H, length_app. done.
    + destruct H as [k ->]. by apply attempted_take.
  - intros w' [Ho [k Hk]]. split; [done|]. rewrite Hk. by apply attempted_take.
Qed.

Lemma wp_append_entry ino e l w :
  file_bytes w ino = l →
  wp (append_entry to_vec ino e)
    (fun r w' => only ino w w' ∧
       match r with
       | Ok _ => ∃ p, encode_entry e = Ok p ∧ file_bytes w' ino = l ++ frame p
       | Err _ => attempted l e (file_bytes w' ino)
       | Panic => False
       end)
    (fun w' => only ino w w' ∧ attempted l e (file_bytes w' ino)) w.
Proof.
  intros Hl. unfold append_entry. apply wp_bind, wp_sys_read; [intros fs _|intros fs _|intros fs].
  2,3: split; [apply only_refl|]; rewrite file_bytes_faults, Hl; apply attempted_nothing.
  rewrite Hl. apply wp_bind. eapply wp_mono; [by apply wp_write_entry| |done].
  intros [off|err|] w' [Ho H]; cbv beta iota; [|done|done]. destruct H as (p & Hp & Hf & _).
  apply wp_sys_nop; [intros fs' _|intros fs' _|intros fs']; (split; [done|]); rewrite file_bytes_faults.
  - by exists p.
  - right. by exists p.
  - right. by exists p.
Qed.

(** After an attempted append, a restart finds the old or the new state. *)
Lemma attempted_recovers path ino es ps x s e s' w :
  w_names w !! path = Some ino → encodes es ps → replay es start = Ok x → rc_state x = Some s →
  spool_inv s → spool_inv s' → apply_entry e x = Ok (mutated s' x) →
  attempted (journal ps) e (file_bytes w ino) →
  recovers w path s ∨ recovers w path s'.
Proof.
  intros Hn Henc Hr Hx Hs Hs' Ha [(t & Ht & Hf)|(p & Hp & Hf)].
  - left. by eapply recovers_torn.
  - right. eapply (recovers_torn _ _ ino (es ++ [e]) (ps ++ [p]) (mutated s' x) _ []); try done.
    + apply Forall2_app; [done|]. by constructor.
    + by apply (spool_replay_snoc es e start x).
    + apply spool_torn_nil.
    + rewrite app_nil_r, Hf. by rewrite journal_snoc.
Qed.

(** ** Compaction *)

Lemma wp_write_records ino rs l w :
  file_bytes w ino = l →
  wp (write_records to_vec ino (length l) rs)
    (fun r w' => only ino w w' ∧
       match r with
       | Ok _ => ∃ ps, encodes (map ERecord rs) ps ∧ file_bytes w' ino = l ++ frames ps
       | Err _ => True
       | Panic => False
       end)
    (only ino w) w.
Proof.
  revert l w. induction rs as [|r rs IH]; intros l w Hl; cbn [write_records].
  { apply wp_ret. split; [done|]. exists []. split; [constructor|]. by rewrite app_nil_r. }
  apply wp_bind. eapply wp_mono; [by apply wp_write_entry| |by intros w' []].
  intros [off|err|] w1 [Ho H]; cbv beta iota; [|done|done].
  destruct H as (p & Hp & Hf & ->). eapply wp_mono; [by apply IH| |intros w2; by apply only_trans].
  intros [[]|err|] w2 [Ho2 H2]; (split; [by eapply only_trans|]); [|done|done].
  destruct H2 as (ps & Hps & Hf2). exists (p :: ps). split; [by constructor|].
  rewrite Hf2. unfold frames. cbn [map concat]. by rewrite app_assoc.
Qed.

(** The entries of a compacted journal. *)
Definition compacted (s : CloudLinkSpoolState) : list JournalEntry :=
  checkpoint s :: map ERecord (map snd (records s)).

Lemma wp_write_compacted ino s w :
  wp (write_compacted_journal to_vec ino s)
    (fun r w' => only ino w w' ∧
       match r with
       | Ok _ => ∃ ps, encodes (compacted s) ps ∧ file_bytes w' ino = journal ps
       | Err _ => True
       | Panic => False
       end)
    (only ino w) w.
Proof.
  unfold write_compacted_journal. wp_go; try (split; [|done]); try apply only_refl; try apply only_data;
    try (eapply only_trans; [apply only_data|apply only_put]).
  set (w1 := put_bytes _ _ _ _).
  assert (only ino w w1) as Ho1 by (eapply only_trans; [apply only_data|apply only_put]).
  assert (file_bytes w1 ino = MAGIC) as Hf1.
  { unfold w1, put_bytes. rewrite file_bytes_insert. unfold write_bytes.
    erewrite file_bytes_eq by (cbn; apply lookup_insert_eq). unfold resize. by rewrite !take_0. }
  eapply wp_mono; [apply (wp_write_entry ino (checkpoint s) MAGIC w1 Hf1)| |].
  2:{ intros w' [Ho _]. by eapply only_trans. }
  intros [off|err|] w2 [Ho2 H2]; cbv beta iota; [|split; [by eapply only_trans|done]|done].
  destruct H2 as (p & Hp & Hf2 & ->). apply wp_bind.
  eapply wp_mono; [by apply wp_write_records| |].
  2:{ intros w' Ho. by eapply only_trans; [eapply only_trans|]. }
  intros [[]|err|] w3 [Ho3 H3]; cbv beta iota;
    [|split; [by eapply only_trans; [eapply only_trans|]|done]|done].
  assert (only ino w w3) as Ho by (by eapply only_trans; [eapply only_trans|]).
  destruct H3 as (ps & Hps & Hf3). wp_go; try (split; [done|]); try done.
  exists (p :: ps). split; [by constructor|]. rewrite file_bytes_faults, Hf3.
  unfold journal, frames. cbn [map concat]. by rewrite <- app_assoc.
Qed.

(** Replaying a checkpoint and its records rebuilds the state. *)
Lemma replay_records s m done_ :
  spool_inv s → records s = done_ ++ m →
  replay (map ERecord (map snd m)) (Rcv (Some (with_records done_ s)) 0 false) =
  Ok (Rcv (Some s) 0 false).
Proof.
  intros H. revert done_. induction m as [|[p r] m IH]; intros done_ Hrec; cbn [map snd replay].
  { rewrite app_nil_r in Hrec. rewrite <- Hrec. by destruct s. }
  pose proof (inv_records s H) as Hf. rewrite Hrec in Hf. apply Forall_app in Hf as [_ Hf].
  apply Forall_cons in Hf as [[Hid Hok] _]. cbn in Hid, Hok.
  pose proof (contiguous_range _ _ (inv_contiguous s H)) as Hr. rewrite Hrec in Hr.
  apply Forall_app in Hr as [_ Hr]. apply Forall_cons in Hr as [Hp _]. cbn in Hp.
  pose proof (contiguous_sorted _ _ (inv_contiguous s H)) as Hs. rewrite Hrec in Hs.
  assert (Forall (fun q => fst q < p) done_) as Hbelow by (by eapply bt_sorted_app_below).
  pose proof (inv_acked s H) as Hack. rewrite Hrec in Hack.
  cbn [apply_entry rc_started]. unfold active_state. cbn [rc_state ok_or mbind res_bind].
  unfold restore_checkpoint_record.
  rewrite (record_persisted (with_records done_ s) p) by (done || lia).
  rewrite Hid. cbn [check mbind res_bind position next_position with_records records capacity].
  destruct (Z.leb_spec (next_position s) p); [lia|].
  assert (bt_contains p done_ = false) as -> by (by apply bt_contains_above).
  cbn [negb andb check mbind res_bind]. rewrite bt_insert_last by done.
  pose proof (inv_length s H) as Hlen. rewrite Hrec, length_app in Hlen. cbn [length] in Hlen.
  rewrite length_app. cbn [length].
  destruct (Nat.leb_spec (length done_ + 1) (capacity s)); [|lia]. cbn [check mbind res_bind].
  specialize (IH (done_ ++ [(p, r)])). rewrite <- app_assoc in IH. by apply IH.
Qed.

Lemma spool_replay_compacted s :
  spool_inv s → replay (compacted s) start = Ok (Rcv (Some s) 0 false).
Proof.
  intros H. unfold compacted. cbn [replay]. unfold checkpoint, start. cbn [apply_entry rc_state].
  unfold spool_new, validate_stream_id. rewrite (inv_stream s H). pose proof (inv_capacity s H) as Hc.
  destruct (Nat.eqb_spec (capacity s) 0), (Z.leb_spec (Z.of_nat (capacity s)) MAX_SPOOL_RECORDS);
    try lia. cbn [check mbind res_bind negb andb corrupt stream_id capacity records rc_mutations rc_started].
  by apply (replay_records s (records s) []).
Qed.

Section Compact.
Context (path temp : string) (f : FileState) (w : world).
Hypothesis Hinv : file_inv path f w.

(** While the replacement is being written, the journal is as it was. *)
Definition mid (t : nat) (w' : world) : Prop :=
  t ≠ fs_ino f ∧ w_names w' !! temp = Some t ∧ file_inv path f w'.

Lemma spool_mid_only t w1 w2 : mid t w1 → only t w1 w2 → mid t w2.
Proof.
  intros (H1 & H2 & H3) (H4 & H5 & H6). unfold mid. rewrite H4. split_and!; [done..|].
  eapply inv_same; [exact H3|by rewrite H4|by rewrite H5|by apply H6].
Qed.

Lemma mid_created fs :
  w_names w !! temp = None → mid (w_next w) (fresh_file temp (with_faults fs w)).
Proof.
  intros Ht. pose proof Hinv as (Hn & Hlt & _).
  split; [lia|]. split; [by cbn; rewrite lookup_insert_eq|].
  eapply inv_same; [exact Hinv| |cbn; lia|].
  - cbn. rewrite lookup_insert_ne; [done|]. intros ->. by rewrite Hn in Ht.
  - unfold file_bytes. cbn. by rewrite lookup_insert_ne by lia.
Qed.

Lemma wp_compact_locked :
  wp (compact_locked to_vec path temp f)
    (fun r w' => match r with
       | Ok (r, f') =>
           fs_state f' = fs_state f ∧ recovers w' path (fs_state f) ∧
           match r with Ok _ => file_inv path f' w' | Err _ => True | Panic => False end
       | _ => False
       end)
    (fun w' => recovers w' path (fs_state f)) w.
Proof.
  set (Stay := fun (r : res CloudLinkSpoolErrorReason
                          (res CloudLinkSpoolErrorReason unit * FileState)) w' =>
    match r with
    | Ok (r, f') =>
        fs_state f' = fs_state f ∧ recovers w' path (fs_state f) ∧
        match r with Ok _ => file_inv path f' w' | Err _ => True | Panic => False end
    | _ => False
    end).
  assert (∀ fs, recovers (with_faults fs w) path (fs_state f)) as H0
    by (intros fs; by apply spool_inv_recovers).
  unfold compact_locked. apply wp_bind, wp_attempt, wp_bind.
  apply wp_sys_create_new; [intros fs _|intros fs _; by apply wp_ret|intros fs; by apply H0].
  destruct (w_names w !! temp) as [t|] eqn:Ht; [by apply wp_ret|].
  pose proof (mid_created fs Ht) as Hm. set (t := w_next w) in *. set (w1 := fresh_file _ _) in *.
  assert (∀ w', mid t w' → recovers w' path (fs_state f)) as Hmid
    by (intros w' (_ & _ & Hi); by apply spool_inv_recovers).
  assert (∀ fs', mid t (with_faults fs' w1)) as Hm1 by (intros fs'; exact Hm).
  apply wp_bind, wp_sys_nop; [intros fs' _|intros fs' _|intros fs'; by apply Hmid, Hm1].
  2:{ apply wp_ret. split; [done|]. split; [by apply Hmid, Hm1|done]. }
  apply wp_ret. apply wp_bind, wp_attempt, wp_bind.
  eapply wp_mono; [apply wp_write_compacted| |intros w' Ho; by eapply Hmid, spool_mid_only, Ho].
  assert (∀ err w2, mid t w2 → wp
    (_ ← attempt (sys_remove storage temp); mret (@Err CloudLinkSpoolErrorReason unit err, f)) Stay
    (fun w' => recovers w' path (fs_state f)) w2) as Hclean.
  { intros err w2 Hm2. apply wp_bind, wp_attempt. apply wp_sys_remove; [intros fs2 _|intros fs2 _|intros fs2].
    - destruct Hm2 as (Ht2 & Hn2 & Hi2). rewrite Hn2. apply wp_ret. split; [done|]. split; [|done].
      apply spool_inv_recovers. eapply inv_same; [exact Hi2| |done|done]. cbn. apply lookup_delete_ne.
      intros <-. destruct Hi2 as (Hp & _). rewrite Hn2 in Hp. by injection Hp.
    - apply wp_ret. split; [done|]. split; [by apply Hmid|done].
    - by apply Hmid. }
  intros [[]|err|] w2 [Ho2 H2]; cbv beta iota; [|apply Hclean; by eapply spool_mid_only, Ho2|done].
  pose proof (spool_mid_only t _ w2 (Hm1 fs') Ho2) as Hm2. destruct H2 as (ps & Hps & Hf2).
  apply wp_sys_rename; [intros fs2 _|intros fs2 _; by apply Hclean|intros fs2; by apply Hmid].
  pose proof Hm2 as (Hne & Hn2 & _ & Hlt2 & Hs & _). rewrite Hn2.
  assert (w_next w2 = S t) as Hnext by (by rewrite (proj1 (proj2 Ho2))).
  assert (∀ fs3 n, file_inv path (FState t (fs_state f) n)
    (with_faults fs3 (with_names (<[path:=t]> (delete temp (w_names w2))) w2))) as Hnew.
  { intros fs3 n. split; [by cbn; rewrite lookup_insert_eq|]. split; [cbn; lia|]. split; [done|].
    exists (compacted (fs_state f)), ps, (Rcv (Some (fs_state f)) 0 false).
    split_and!; [done|done|by apply spool_replay_compacted|done]. }
  assert (∀ fs3, recovers (with_faults fs3 (with_names (<[path:=t]> (delete temp (w_names w2))) w2))
                   path (fs_state f)) as Hrec
    by (intros fs3; by apply (spool_inv_recovers path (FState t (fs_state f) 0)), Hnew).
  wp_go; try (split; [done|]); try (split; [by apply Hrec|]); try (by apply Hrec); try done;
    by apply Hnew.
Qed.

End Compact.

(** ** Mutations *)

(** The append-and-install half of [mutate]. *)
Lemma wp_mutate_step {A} path (operation : spool (A * JournalEntry)) f a e next w :
  file_inv path f w → operation (fs_state f) = (Ok (a, e), next) → replayed operation (fs_state f) →
  wp (if bool_decide (next = fs_state f) then mret (Ok a, f)
      else appended ← attempt (append_entry to_vec (fs_ino f) e);
           match appended with
           | Ok _ => mret (Ok a, FState (fs_ino f) next (fs_mutations f + 1))
           | Err e => mret (Err e, f)
           | Panic => lift Panic
           end)
    (fun r w' => match r with
       | Ok (Ok a', f') => a' = a ∧ fs_state f' = next ∧ file_inv path f' w'
       | Ok (Err _, f') => f' = f ∧ (recovers w' path (fs_state f) ∨ recovers w' path next)
       | _ => False
       end)
    (fun w' => recovers w' path (fs_state f) ∨ recovers w' path next) w.
Proof.
  intros Hinv Hop Hrep. unfold replayed in Hrep. rewrite Hop in Hrep. destruct Hrep as [Hs' Hrep].
  case_bool_decide as Heq; [by apply wp_ret|].
  pose proof Hinv as (Hn & Hlt & Hs & es & ps & x & Henc & Hf & Hr & Hx). specialize (Hrep Heq x Hx).
  apply wp_bind, wp_attempt. eapply wp_mono; [by apply (wp_append_entry (fs_ino f) e (journal ps))| |].
  - intros [[]|err|] w' [(Ho1 & Ho2 & _) H]; cbv beta iota; [| |done].
    + destruct H as (p & Hp & Hf'). apply wp_ret. split; [done|]. split; [done|].
      split; [by rewrite Ho1|]. split; [by rewrite Ho2|]. split; [done|]. cbn [fs_ino fs_state].
      exists (es ++ [e]), (ps ++ [p]), (mutated next x).
      split_and!; [apply Forall2_app; [done|]; by constructor| | |done].
      * by rewrite Hf', journal_snoc.
      * by apply (spool_replay_snoc es e start x).
    + apply wp_ret. split; [done|]. by eapply (attempted_recovers path (fs_ino f) es ps x _ e);
        [rewrite Ho1|..].
  - intros w' [(Ho1 & Ho2 & _) H]. by eapply (attempted_recovers path (fs_ino f) es ps x _ e);
      [rewrite Ho1|..].
Qed.

(** What a restart may find after the operation [o] failed or the process died in it. *)
Definition before_or_after {A} (o : PortOp A) (path : string) (old : CloudLinkSpoolState)
    (w : world) : Prop :=
  recovers w path old ∨
  ∃ a e new, transition o old = (Ok (a, e), new) ∧ recovers w path new.

(** The outcome of a mutation: the transition's result on disk, or the old state. *)
Definition mutate_post {A} (o : PortOp A) (path : string) (old : CloudLinkSpoolState)
    (r : res CloudLinkSpoolErrorReason (res CloudLinkSpoolErrorReason A * FileState))
    (w : world) : Prop :=
  match r with
  | Ok (Ok a, f') => ∃ e, transition o old = (Ok (a, e), fs_state f') ∧ file_inv path f' w
  | Ok (Err _, f') => fs_state f' = old ∧ before_or_after o path old w
  | _ => False
  end.

(** The part of [mutate] after the compaction. *)
Lemma wp_mutate_op {A} (o : PortOp A) path f w :
  file_inv path f w →
  wp (match transition o (fs_state f) with
      | (Ok (a, entry), next) =>
          if bool_decide (next = fs_state f) then mret (Ok a, f)
          else appended ← attempt (append_entry to_vec (fs_ino f) entry);
               match appended with
               | Ok _ => mret (Ok a, FState (fs_ino f) next (fs_mutations f + 1))
               | Err e => mret (Err e, f)
               | Panic => lift Panic
               end
      | (Err e, _) => mret (Err e, f)
      | (Panic, _) => lift Panic
      end)
    (mutate_post o path (fs_state f)) (before_or_after o path (fs_state f)) w.
Proof.
  intros Hi. pose proof (transition_replayed o _ (proj1 (proj2 (proj2 Hi)))) as Hrep.
  destruct (transition o (fs_state f)) as [[[a e]|err|] next] eqn:Hop.
  - assert (∀ w', recovers w' path (fs_state f) ∨ recovers w' path next →
      before_or_after o path (fs_state f) w') as Hor
      by (intros w' [Hr|Hr]; [by left|right; by exists a, e, next]).
    eapply wp_mono; [by eapply (wp_mutate_step path (transition o))| |by intros w'; apply Hor].
    intros [[[a'|err|] f']| |] w'; try done; cbn [mutate_post].
    + intros (-> & <- & Hi'). by exists e.
    + intros (-> & Hr). by auto.
  - apply wp_ret. split; [done|]. by left; apply spool_inv_recovers.
  - unfold replayed in Hrep. by rewrite Hop in Hrep.
Qed.


(** ** Opening *)

Section Open.
Context (path temp : string) (es : list JournalEntry) (ps : list (list Z)) (t : list Z)
  (x : Recovery) (s : CloudLinkSpoolState).
Hypothesis Henc : encodes es ps.
Hypothesis Htorn : torn t.
Hypothesis Hreplay : replay es start = Ok x.
Hypothesis Hx : rc_state x = Some s.
Hypothesis Hs : spool_inv s.

(** The file is the journal, possibly with its torn tail. *)
Definition holds (ino : nat) (w : world) : Prop :=
  w_names w !! path = Some ino ∧ (ino < w_next w)%nat ∧
  (file_bytes w ino = journal ps ++ t ∨ file_bytes w ino = journal ps).

Lemma holds_recovers ino w : holds ino w → recovers w path s.
Proof.
  intros (Hn & _ & [Hf|Hf]); [by eapply (recovers_torn _ _ ino es ps x s t)|].
  eapply (recovers_torn _ _ ino es ps x s []); try done; [apply spool_torn_nil|]. by rewrite app_nil_r.
Qed.

Lemma spool_wp_recover ino w :
  holds ino w → file_bytes w ino = journal ps ++ t →
  wp (recover from_slice ino)
    (fun r w' => holds ino w' ∧
       match r with
       | Ok (s', n) => s' = s ∧ n = rc_mutations x ∧ file_bytes w' ino = journal ps
       | Err _ => True
       | Panic => False
       end)
    (holds ino) w.
Proof.
  intros Hh Hf. pose proof Hh as (Hn & Hlt & _).
  unfold recover. wp_go; try (by split). rewrite Hf.
  rewrite (spool_recover_journal to_vec from_slice codec es ps t x) by done. cbn [lift].
  assert (∀ w1, w_names w1 = w_names w → w_next w1 = w_next w → file_bytes w1 ino = journal ps →
    wp (lift (recovered x)) (fun r w' => holds ino w' ∧
       match r with
       | Ok (s', n) => s' = s ∧ n = rc_mutations x ∧ file_bytes w' ino = journal ps
       | Err _ => True
       | Panic => False
       end) (holds ino) w1) as Hend.
  { intros w1 Hn1 Hnext1 Hf1. apply wp_lift. rewrite (recovered_inv x s) by done.
    split; [|done]. split_and!; [by rewrite Hn1|by rewrite Hnext1|by right]. }
  apply wp_bind. unfold tail_of. destruct t as [|b t'] eqn:Et.
  { apply wp_ret. apply Hend; [done..|]. rewrite file_bytes_faults, Hf. by rewrite app_nil_r. }
  assert (∀ fs1, let w1 := with_data (<[ino := resize (length (journal ps)) (file_bytes w ino)]> (w_data w))
                   (with_faults fs1 w) in
    w_names w1 = w_names w ∧ w_next w1 = w_next w ∧ file_bytes w1 ino = journal ps) as Hcut.
  { intros fs1. split_and!; [done..|]. rewrite (file_bytes_insert (with_faults fs1 w)), Hf.
    apply Outbox.Outbox.resize_prefix. }
  generalize dependent (length (journal ps)). intros len Hcut.
  assert (∀ fs1, holds ino (with_data (<[ino := resize len (file_bytes w ino)]> (w_data w))
                   (with_faults fs1 w))) as Hcut'.
  { intros fs1. destruct (Hcut fs1) as (H1 & H2 & H3). split_and!; [exact Hn|exact Hlt|by right]. }
  wp_go; try (split; [|done]); try exact Hh; try exact (Hcut' _).
  apply Hend; [reflexivity|reflexivity|]. exact (proj2 (proj2 (Hcut fs0))).
Qed.

(** What a restart may find while the open changes the capacity from [s] to [s']. *)
Definition open_crash (s' : CloudLinkSpoolState) (w : world) : Prop :=
  recovers w path s ∨ recovers w path s'.

(** The outcome of [open]: the state under the new capacity, on disk. *)
Definition open_post (s' : CloudLinkSpoolState) (r : res CloudLinkSpoolErrorReason FileState)
    (w : world) : Prop :=
  match r with
  | Ok f => fs_state f = s' ∧ file_inv path f w
  | Err _ => open_crash s' w
  | Panic => False
  end.

(** The seek and the compaction at the end of [open]. *)
Lemma wp_open_end s' ino n w :
  file_inv path (FState ino s' n) w →
  wp (_ ← sys_nop storage;
      let f := FState ino s' n in
      if (COMPACT_AFTER_MUTATIONS <=? n)%nat then
        '(compacted, f) ← compact_locked to_vec path temp f; _ ← lift compacted; mret f
      else mret f)
    (open_post s') (open_crash s') w.
Proof.
  intros Hi. assert (∀ fs1, recovers (with_faults fs1 w) path s') as Hr
    by (intros fs1; by apply (spool_inv_recovers path (FState ino s' n))).
  apply wp_bind, wp_sys_nop; [intros fs1 _|intros fs1 _|intros fs1]; [|by right; apply Hr..].
  cbv zeta. destruct (COMPACT_AFTER_MUTATIONS <=? n)%nat; [|by apply wp_ret].
  apply wp_bind. eapply wp_mono;
    [apply (wp_compact_locked path temp (FState ino s' n)); by apply (inv_same _ _ w)| |by right].
  intros [[r f]| |] w3 H; try done; cbv beta iota. destruct H as (Hst & Hr3 & H).
  apply wp_bind, wp_lift. destruct r as [[]|err|]; [by apply wp_ret|by right|done].
Qed.

(** Logging a changed capacity. *)
Lemma wp_open_capacity stream cap s' ino w :
  w_names w !! path = Some ino → (ino < w_next w)%nat → file_bytes w ino = journal ps →
  validate_open stream cap s = (Ok true, s') → spool_inv s' →
  wp (append_entry to_vec ino (Capacity cap))
    (fun r w' => match r with
       | Ok _ => ∀ n, file_inv path (FState ino s' n) w'
       | Err _ => open_crash s' w'
       | Panic => False
       end)
    (open_crash s') w.
Proof.
  intros Hn Hlt Hf Hopen Hs'.
  assert (apply_entry (Capacity cap) x = Ok (mutated s' x)) as Ha by (by eapply capacity_replayed).
  eapply wp_mono; [by apply (wp_append_entry ino (Capacity cap) (journal ps))| |].
  2:{ intros w2 [(Ho1 & _ & _) H]. by eapply (attempted_recovers path ino es ps x); [rewrite Ho1|..]. }
  intros [[]|err|] w2 [(Ho1 & Ho2 & _) H]; cbv beta iota;
    [|by eapply (attempted_recovers path ino es ps x); [rewrite Ho1|..]|done].
  intros n. destruct H as (p & Hp & Hf2).
  split; [by rewrite Ho1|]. split; [by rewrite Ho2|]. split; [done|].
  exists (es ++ [Capacity cap]), (ps ++ [p]), (mutated s' x).
  split_and!; [apply Forall2_app; [done|]; by constructor| | |done].
  - cbn [fs_ino]. by rewrite Hf2, journal_snoc.
  - by apply (spool_replay_snoc es _ start x).
Qed.

Lemma validate_open_same stream cap s' :
  validate_open stream cap s = (Ok false, s') → s' = s.
Proof.
  unfold validate_open. destruct (_ ≫= _) as [[]|err|]; [|done..].
  intros [= Hc <-]. apply negb_false_iff, Nat.eqb_eq in Hc. rewrite <- Hc. by destruct s.
Qed.

(** Opening an existing journal, whatever an interrupted append left behind
    its last complete record: [open] succeeds only with exactly the recovered
    state (under the configured capacity) and a journal cut back to complete
    records; if it fails or dies anywhere, also inside the compaction it may
    start, the next attempt recovers the same state. *)
Theorem spool_open_recovers (stream : list Z) (cap : nat) (changed : bool)
    (s' : CloudLinkSpoolState) (w : world) (ino : nat) :
  w_names w !! path = Some ino → (ino < w_next w)%nat → file_bytes w ino = journal ps ++ t →
  validate_open stream cap s = (Ok changed, s') →
  wp (spool_open to_vec from_slice path temp stream cap) (open_post s') (open_crash s') w.
Proof.
  intros Hn Hlt Hf Hopen.
  pose proof (validate_open_inv stream cap s Hs) as Hs'. rewrite Hopen in Hs'. cbn [snd] in Hs'.
  assert (∀ w1, holds ino w1 → open_crash s' w1) as H0
    by (intros w1 Hh; left; by eapply holds_recovers).
  assert (∀ fs1, holds ino (with_faults fs1 w)) as Hh by (intros fs1; split_and!; [done|done|by left]).
  unfold spool_open. apply wp_bind, wp_sys_nop; [intros fs1 _|intros fs1 _|intros fs1]; [|exact (H0 _ (Hh _))..].
  apply wp_bind, wp_sys_create; [intros fs2 _|intros fs2 _|intros fs2]; [|exact (H0 _ (Hh _))..].
  cbn [w_names with_faults]. rewrite Hn.
  apply wp_bind, wp_sys_nop; [intros fs3 _|intros fs3 _|intros fs3]; [|exact (H0 _ (Hh _))..].
  apply wp_bind, wp_sys_read; [intros fs4 _|intros fs4 _|intros fs4]; [|exact (H0 _ (Hh _))..].
  rewrite !file_bytes_faults, Hf.
  destruct (Nat.eqb_spec (length (journal ps ++ t)) 0) as [E|_]; [by destruct (journal ps) eqn:Hj|].
  apply wp_bind. eapply wp_mono; [apply (spool_wp_recover ino); [by apply Hh|done]| |by intros w'; apply H0].
  intros [[s1 n]|err|] w1 [Hh1 H1]; cbv beta iota; [|by apply H0|done].
  destruct H1 as (-> & -> & Hf1), Hh1 as (Hn1 & Hlt1 & _). rewrite Hopen. cbv iota.
  destruct changed; apply wp_bind.
  - apply wp_bind. eapply wp_mono; [by eapply wp_open_capacity| |done].
    intros [[]|err|] w2 H; cbv beta iota; [|done..]. by apply wp_ret, wp_open_end.
  - apply wp_ret, wp_open_end. apply validate_open_same in Hopen as ->.
    split; [done|]. split; [done|]. split; [done|]. by exists es, ps, x.
Qed.

End Open.

(** ** A failed append is not rolled back *)

(** The second call of [append_entry], the write of the length, fails after one byte. *)
Lemma append_entry_stuck ino e p w :
  encode_entry e = Ok p → w_faults w = [FOk; FErr 1] →
  append_entry to_vec ino e w =
  (Some (Err Storage),
   with_faults [] (put_bytes ino (length (file_bytes w ino)) (take 1 (frame p)) w)).
Proof.
  intros Hp Hw. destruct w as [names data next faults]. cbn [w_faults] in Hw. subst.
  unfold append_entry, write_entry, lift, mbind, io_bind, mret, io_ret. by rewrite Hp.
Qed.

Lemma append_entry_calm ino e p w :
  encode_entry e = Ok p → w_faults w = [] →
  ∃ w', append_entry to_vec ino e w = (Some (Ok tt), w') ∧ w_names w' = w_names w ∧
    file_bytes w' ino = file_bytes w ino ++ frame p.
Proof.
  intros Hp Hw. set (n := length (file_bytes w ino)).
  set (h := le_bytes 4 (Z.of_nat (length p))). set (c := le_bytes 4 (crc32 p)).
  exists (put_bytes ino (n + length h + length p) c
           (put_bytes ino (n + length h) p (put_bytes ino n h w))).
  split_and!; [|done|].
  - destruct w as [names data next faults]. cbn [w_faults] in Hw. subst.
    unfold append_entry, write_entry, lift, mbind, io_bind, mret, io_ret. by rewrite Hp.
  - rewrite frame_eq, !app_assoc. fold h c. unfold n. rewrite <- !length_app.
    by rewrite (Outbox.put_bytes_end _ _ ((file_bytes w ino ++ h) ++ p))
      by (by apply Outbox.put_bytes_end, Outbox.put_bytes_end).
Qed.

(** A mutation that changes the state is one append. *)
Lemma mutate_run {A} (o : PortOp A) path temp f a e new w :
  (fs_mutations f < COMPACT_AFTER_MUTATIONS)%nat → transition o (fs_state f) = (Ok (a, e), new) →
  new ≠ fs_state f →
  mutate to_vec path temp (transition o) f w =
  (appended ← attempt (append_entry to_vec (fs_ino f) e);
   match appended with
   | Ok _ => mret (Ok a, FState (fs_ino f) new (fs_mutations f + 1))
   | Err e => mret (Err e, f)
   | Panic => lift Panic
   end) w.
Proof.
  intros Hm Ht Hne. unfold mutate. destruct (Nat.leb_spec COMPACT_AFTER_MUTATIONS (fs_mutations f)); [lia|].
  unfold mbind, io_bind, mret, io_ret. rewrite Ht. by rewrite bool_decide_false.
Qed.

(** A failed append is not rolled back: after one byte of a record reached
    the file, the spool stays in use behind it.  The next mutation, whatever it
    is, reports success and changes the state in memory, but a restart refuses
    the journal or silently returns to the state before it. *)
Theorem failed_append_loses_the_next_mutation {A B} (o : PortOp A) (o' : PortOp B)
    (path temp : string) (f : FileState) (w : world) a e p new a' e' p' new' :
  file_inv path f w → (fs_mutations f < COMPACT_AFTER_MUTATIONS)%nat →
  w_faults w = [FOk; FErr 1] →
  transition o (fs_state f) = (Ok (a, e), new) → new ≠ fs_state f → encode_entry e = Ok p →
  transition o' (fs_state f) = (Ok (a', e'), new') → new' ≠ fs_state f → encode_entry e' = Ok p' →
  ∃ err w1 f' w2,
    mutate to_vec path temp (transition o) f w = (Some (Ok (Err err, f)), w1) ∧
    mutate to_vec path temp (transition o') f w1 = (Some (Ok (Ok a', f')), w2) ∧
    fs_state f' = new' ∧
    (recovers w2 path (fs_state f) ∨
     recover_bytes <$> path_bytes w2 path = Some (Err CorruptJournal)).
Proof.
  intros (Hn & _ & Hs & es & ps & x & Henc & Hf & Hrep & Hx) Hm Hw Ht Hne Hp Ht' Hne' Hp'.
  destruct (encode_entry_Ok to_vec from_slice codec e p Hp) as [Hpok _].
  destruct (encode_entry_Ok to_vec from_slice codec e' p' Hp') as [Hpok' _].
  set (w1 := with_faults [] (put_bytes (fs_ino f) (length (file_bytes w (fs_ino f)))
                              (take 1 (frame p)) w)).
  destruct (append_entry_calm (fs_ino f) e' p' w1 Hp' ltac:(done)) as (w2 & Ha & Hn2 & Hf2).
  exists Storage, w1, (FState (fs_ino f) new' (fs_mutations f + 1)), w2. split_and!.
  - rewrite (mutate_run o _ _ _ _ _ _ _ Hm Ht Hne). unfold mbind, io_bind, attempt.
    by rewrite (append_entry_stuck _ _ _ _ Hp Hw).
  - rewrite (mutate_run o' _ _ _ _ _ _ _ Hm Ht' Hne'). unfold mbind, io_bind, attempt. by rewrite Ha.
  - done.
  - unfold recovers, path_bytes. rewrite Hn2. change (w_names w1) with (w_names w). rewrite Hn, Hf2.
    unfold w1. rewrite file_bytes_faults.
    rewrite (Outbox.put_bytes_end _ _ (file_bytes w (fs_ino f))), Hf, <- app_assoc by done.
    destruct (recover_bytes_frames to_vec from_slice codec es ps (take 1 (frame p) ++ frame p') x
      Henc Hrep) as (fuel & Hfuel & E).
    destruct (recover_loop_shifted from_slice fuel (length (journal ps)) p p' x Hpok Hpok' Hfuel)
      as [E'|E']; rewrite E' in E.
    + left. eexists _, x, _, _. split; [done|]. split; [exact E|]. by apply recovered_inv.
    + right. apply (f_equal Some), E.
Qed.

End Recovery.

(** ** The theorems at a concrete journal

    A codec for the few entries these journals use: one byte per entry. *)

Definition sample_state : CloudLinkSpoolState := SpoolState [0x74] 1 1 2 [] None 0 None.
Definition sample_op : PortOp CloudLinkRecord := PEnqueue (sample_input 1).

Definition sample_entries : list JournalEntry :=
  [checkpoint sample_state;
   match transition sample_op sample_state with (Ok (_, e), _) => e | _ => Capacity 0 end;
   Capacity 5].

Definition sample_to_vec (e : JournalEntry) : option (list Z) :=
  match list_find (fun e' => e' = e) sample_entries with
  | Some (k, _) => Some [Z.of_nat k + 1]
  | None => None
  end.
Definition sample_from_slice (p : list Z) : option JournalEntry :=
  match p with [b] => sample_entries !! Z.to_nat (b - 1) | _ => None end.

Lemma sample_codec e p : sample_to_vec e = Some p → bytes_ok p ∧ sample_from_slice p = Some e.
Proof.
  unfold sample_to_vec. destruct (list_find _ _) as [[k e']|] eqn:E; [|done]. intros [= <-].
  apply list_find_Some in E as (Hk & -> & _).
  assert (k < 3)%nat by (by apply lookup_lt_Some in Hk). split.
  - repeat constructor; lia.
  - unfold sample_from_slice. by replace (Z.to_nat (Z.of_nat k + 1 - 1)) with k by lia.
Qed.

Definition sample_file : FileState := FState 0 sample_state 0.
Definition sample_disk (tail : list Z) (faults : list fault) : world :=
  World {["spool.log" := 0%nat]} {[0%nat := journal [[1]] ++ tail]} 1 faults.

Lemma sample_state_inv : spool_inv sample_state.
Proof. by apply (spool_new_inv [0x74] 2). Qed.

Lemma sample_encodes : FileSpool.encodes sample_to_vec [checkpoint sample_state] [[1]].
Proof. constructor; [by vm_compute|constructor]. Qed.

Lemma spool_sample_replay : replay [checkpoint sample_state] start = Ok (Rcv (Some sample_state) 0 false).
Proof. by vm_compute. Qed.

Lemma sample_file_inv faults : file_inv sample_to_vec "spool.log" sample_file (sample_disk [] faults).
Proof.
  split; [done|]. split; [cbn; lia|]. split; [apply sample_state_inv|].
  exists [checkpoint sample_state], [[1]], (Rcv (Some sample_state) 0 false).
  split; [apply sample_encodes|]. split; [|split; [apply spool_sample_replay|done]].
  unfold file_bytes. cbn [sample_disk w_data]. rewrite lookup_singleton_eq. by rewrite app_nil_r.
Qed.


Lemma spool_open_recovers_witness :
  match spool_open sample_to_vec sample_from_slice "spool.log" "spool.tmp" [0x74] 5
          (sample_disk [1; 0] []) with
  | (Some (Ok f), w') => capacity (fs_state f) = 5%nat ∧ file_inv sample_to_vec "spool.log" f w'
  | _ => False
  end.
Proof.
  assert (torn [1; 0]) as Ht.
  { exists [2], 2%nat. split; [|split; [rewrite length_frame; lia|by vm_compute]].
    split; [by repeat constructor|]. split; [cbn; lia|done]. }
  pose proof (spool_open_recovers sample_to_vec sample_from_slice sample_codec "spool.log" "spool.tmp"
    [checkpoint sample_state] [[1]] [1; 0] (Rcv (Some sample_state) 0 false) sample_state
    sample_encodes Ht spool_sample_replay eq_refl sample_state_inv [0x74] 5 true
    (snd (validate_open [0x74] 5 sample_state)) (sample_disk [1; 0] []) 0 eq_refl ltac:(cbn; lia)
    ltac:(by vm_compute) ltac:(by vm_compute)) as H.
  unfold wp in H. set (run := spool_open _ _ _ _ _ _ _) in *.
  assert (match fst run with Some (Ok f) => capacity (fs_state f) = 5%nat | _ => False end) as E
    by (by vm_compute).
  destruct run as [[[f|e|]|] w']; try (exfalso; exact E). split; [exact E|]. exact (proj2 H).
Defined.

Lemma failed_append_loses_the_next_mutation_witness :
  match mutate sample_to_vec "spool.log" "spool.tmp" (transition sample_op) sample_file
          (sample_disk [] [FOk; FErr 1]) with
  | (Some (Ok (Err _, f)), w1) =>
      match mutate sample_to_vec "spool.log" "spool.tmp" (transition sample_op) f w1 with
      | (Some (Ok (Ok _, f')), w2) =>
          next_position (fs_state f') = 2 ∧
          FileSpool.recover_bytes sample_from_slice <$> path_bytes w2 "spool.log" =
          Some (Ok (Rcv (Some sample_state) 0 false, Some 17%nat))
      | _ => False
      end
  | _ => False
  end.
Proof.
  pose proof (sample_file_inv [FOk; FErr 1]) as Hinv.
  destruct (transition sample_op sample_state) as [[[a e]| |] new] eqn:E; [|by vm_compute in E..].
  assert (new ≠ sample_state) as Hne by (intros ->; by vm_compute in E).
  assert (FileSpool.encode_entry sample_to_vec e = Ok [2]) as He
    by (vm_compute in E; injection E as _ <- _; by vm_compute).
  destruct (failed_append_loses_the_next_mutation sample_to_vec sample_from_slice sample_codec
    sample_op sample_op "spool.log" "spool.tmp" sample_file (sample_disk [] [FOk; FErr 1])
    a e [2] new a e [2] new Hinv ltac:(by apply Nat.ltb_lt) eq_refl E Hne He E Hne He)
    as (err & w1 & f' & w2 & H1 & H2 & H3 & _).
  assert (FileSpool.recover_bytes sample_from_slice <$> path_bytes w2 "spool.log" =
          Some (Ok (Rcv (Some sample_state) 0 false, Some 17%nat))) as Hr.
  { assert (w2 = snd (mutate sample_to_vec "spool.log" "spool.tmp" (transition sample_op) sample_file
      (snd (mutate sample_to_vec "spool.log" "spool.tmp" (transition sample_op) sample_file
        (sample_disk [] [FOk; FErr 1]))))) as -> by (rewrite H1; cbn [snd]; by rewrite H2).
    by vm_compute. }
  rewrite H1, H2. split; [|exact Hr]. rewrite H3. vm_compute in E. by injection E as _ _ <-.
Defined.

End SpoolRecovery.
