(* ===== verification/Session.v ===== *)
(** * CloudLink sessions (crates/aether-cloudlink/src/{validation,session}.rs and
    the session-bound messages of codec.rs)

    The closed-field validators, session negotiation, and the receipts and replay
    requests a session accepts.  Strings are their bytes; the JSON decoding that
    produces these records (serde) and the signatures are outside. *)

From stdpp Require Import base tactics numbers list strings.
From S2P Require Import Prelude Btree Spool.
Import Spool.
#[local] Open Scope Z_scope.

Module Session.

(** The bytes of an ASCII literal. *)
Fixpoint bytes_of (s : string) : list Z :=
  match s with
  | EmptyString => []
  | String c s => Z.of_N (Ascii.N_of_ascii c) :: bytes_of s
  end.

Inductive CloudLinkCodecError :=
| UnsupportedMessage
| UnsupportedProtocolVersion
| InvalidField (field : string)
| InvalidCanonicalUint64 (field : string)
| IntegerOutOfRange (field : string)
| SessionMismatch
| VersionNegotiationFailed.

Notation codec := (res CloudLinkCodecError).

Definition ensure (b : bool) (e : CloudLinkCodecError) : codec unit := if b then Ok tt else Err e.

Definition CLOUDLINK_PROTOCOL_VERSION : list Z := bytes_of "1.0".
Definition CLOUDLINK_PROTOCOL : list Z := bytes_of "aether.cloudlink".
Definition HELLO_SCHEMA : list Z := bytes_of "aether.cloudlink.session-hello.v1".
Definition ACCEPTED_SCHEMA : list Z := bytes_of "aether.cloudlink.session-accepted.v1".
Definition CHALLENGE_SCHEMA : list Z := bytes_of "aether.cloudlink.session-challenge.v1".
Definition CHALLENGE_REQUEST_SCHEMA : list Z := bytes_of "aether.cloudlink.session-challenge-request.v1".
Definition DURABLE_ACK_SCHEMA : list Z := bytes_of "aether.cloudlink.durable-ack.v1".
Definition REPLAY_REQUEST_SCHEMA : list Z := bytes_of "aether.cloudlink.replay-request.v1".

(** ** Field validators (validation.rs) *)

Definition eqb_bytes (a b : list Z) : bool := bool_decide (a = b).

Definition protocol_version (value : list Z) : codec unit :=
  ensure (eqb_bytes value CLOUDLINK_PROTOCOL_VERSION) UnsupportedProtocolVersion.

Definition is_ascii_digit (b : Z) : bool := (0x30 <=? b) && (b <=? 0x39).
Definition is_lower_hex (b : Z) : bool := is_ascii_digit b || ((0x61 <=? b) && (b <=? 0x66)).

(** The value of a digit string. *)
Definition parse_dec (value : list Z) : Z := fold_left (fun n b => n * 10 + (b - 0x30)) value 0.

(** [str::parse::<u64>] on a non-empty digit string. *)
Definition parse_u64 (value : list Z) : option Z :=
  let n := parse_dec value in if n <? 2 ^ 64 then Some n else None.

(** [u64::to_string]; a [u64] has at most 20 digits. *)
Fixpoint print_dec (fuel : nat) (n : Z) : list Z :=
  match fuel with
  | O => []
  | S fuel => if n <? 10 then [0x30 + n] else print_dec fuel (n / 10) ++ [0x30 + n mod 10]
  end.
Definition to_string (n : Z) : list Z := print_dec 20 n.

Definition canonical_u64 (value : list Z) (field : string) : codec Z :=
  let canonical := eqb_bytes value [0x30] ||
    (negb (match value with b :: _ => b =? 0x30 | [] => false end) &&
     negb (length value =? 0)%nat && forallb is_ascii_digit value) in
  if negb canonical then Err (InvalidCanonicalUint64 field)
  else ok_or (parse_u64 value) (IntegerOutOfRange field).

Definition positive_u64 (value : list Z) (field : string) : codec Z :=
  parsed ← canonical_u64 value field;
  if parsed =? 0 then Err (InvalidField field) else Ok parsed.

Definition identifier_byte (b : Z) : bool :=
  is_ascii_alphanumeric b || (b =? 0x2E) || (b =? 0x5F) || (b =? 0x3A) || (b =? 0x2D).

Definition identifier (value : list Z) (field : string) (maximum : nat) : codec unit :=
  ensure ((length value <=? maximum)%nat &&
          match value with
          | b :: rest => is_ascii_alphanumeric b && forallb identifier_byte rest
          | [] => false
          end) (InvalidField field).

(** The byte at an index; every use is behind the length test. *)
Definition at_ (value : list Z) (i : nat) : Z := nth i value 0.

Definition uuid (value : list Z) (field : string) : codec unit :=
  ensure ((length value =? 36)%nat &&
          (at_ value 8 =? 0x2D) && (at_ value 13 =? 0x2D) && (at_ value 18 =? 0x2D) &&
          (at_ value 23 =? 0x2D) &&
          ((0x31 <=? at_ value 14) && (at_ value 14 <=? 0x38)) &&
          ((at_ value 19 =? 0x38) || (at_ value 19 =? 0x39) || (at_ value 19 =? 0x61) ||
           (at_ value 19 =? 0x62)) &&
          forallb (fun i => (i =? 8)%nat || (i =? 13)%nat || (i =? 18)%nat || (i =? 23)%nat ||
                            is_lower_hex (at_ value i)) (seq 0 (length value)))
    (InvalidField field).

Definition digest_field (value : list Z) (field : string) : codec unit :=
  ensure (digest_valid value) (InvalidField field).

Definition schema (value expected : list Z) : codec unit :=
  ensure (eqb_bytes value expected) UnsupportedMessage.

(** ** Session messages (session.rs) *)

Record ResumeCursor := Cursor { rc_stream : list Z; rc_epoch : list Z; rc_acked : list Z }.

Definition cursor_validate (c : ResumeCursor) : codec unit :=
  _ ← identifier (rc_stream c) "resume.stream_id" 128;
  _ ← positive_u64 (rc_epoch c) "resume.stream_epoch";
  _ ← canonical_u64 (rc_acked c) "resume.acknowledged_position";
  Ok tt.

Definition cursor_new (stream : list Z) (epoch acked : Z) : codec ResumeCursor :=
  let value := Cursor stream (to_string epoch) (to_string acked) in
  _ ← cursor_validate value;
  Ok value.

(** [parse().unwrap_or_default()]. *)
Definition cursor_epoch (c : ResumeCursor) : Z := default 0 (parse_u64 (rc_epoch c)).
Definition cursor_acked (c : ResumeCursor) : Z := default 0 (parse_u64 (rc_acked c)).

Fixpoint cursors_loop (cursors : list ResumeCursor) (seen : list (list Z * list Z)) : codec unit :=
  match cursors with
  | [] => Ok tt
  | c :: cs =>
      _ ← cursor_validate c;
      if bool_decide ((rc_stream c, rc_epoch c) ∈ seen) then Err (InvalidField "resume")
      else cursors_loop cs ((rc_stream c, rc_epoch c) :: seen)
  end.

Definition validate_cursors (cursors : list ResumeCursor) : codec unit :=
  if (32 <? length cursors)%nat then Err (InvalidField "resume") else cursors_loop cursors [].

Fixpoint versions_loop (versions : list (list Z)) (seen : list (list Z)) : codec unit :=
  match versions with
  | [] => Ok tt
  | v :: vs =>
      _ ← protocol_version v;
      if bool_decide (v ∈ seen) then Err (InvalidField "offered_protocol_versions")
      else versions_loop vs (v :: seen)
  end.

Definition validate_offered_versions (versions : list (list Z)) : codec unit :=
  if (length versions =? 0)%nat || (8 <? length versions)%nat
  then Err (InvalidField "offered_protocol_versions")
  else versions_loop versions [].

Definition base64url_byte (b : Z) : bool := is_ascii_alphanumeric b || (b =? 0x5F) || (b =? 0x2D).

Definition validate_nonce (value : list Z) (field : string) : codec unit :=
  ensure ((length value =? 43)%nat && forallb base64url_byte value) (InvalidField field).

Record MessageAuthentication := Auth { key_id : list Z; algorithm : list Z; signature : list Z }.

Definition auth_validate (a : MessageAuthentication) : codec unit :=
  _ ← identifier (key_id a) "message_authentication.key_id" 128;
  ensure (eqb_bytes (algorithm a) (bytes_of "Ed25519") && (length (signature a) =? 86)%nat &&
          forallb base64url_byte (signature a)) (InvalidField "message_authentication").

Inductive CredentialOriginModel := GatewaySigned | TrustedConnectorBrokerAttestation.

Record SessionChallenge := Challenge {
  ch_schema : list Z; ch_protocol : list Z; ch_kind : list Z; ch_gateway : list Z;
  challenge_id : list Z; cloud_nonce : list Z; issued_at_ms : list Z; expires_at : list Z;
  cloud_signature : MessageAuthentication }.

Definition challenge_validate (c : SessionChallenge) : codec unit :=
  _ ← schema (ch_schema c) CHALLENGE_SCHEMA;
  _ ← ensure (eqb_bytes (ch_protocol c) CLOUDLINK_PROTOCOL &&
              eqb_bytes (ch_kind c) (bytes_of "session-challenge")) UnsupportedMessage;
  _ ← uuid (ch_gateway c) "gateway_id";
  _ ← uuid (challenge_id c) "challenge_id";
  _ ← validate_nonce (cloud_nonce c) "cloud_nonce";
  issued ← canonical_u64 (issued_at_ms c) "issued_at_ms";
  expires ← canonical_u64 (expires_at c) "expires_at_ms";
  _ ← ensure (issued <=? expires) (InvalidField "expires_at_ms");
  auth_validate (cloud_signature c).

Record SessionChallengeRequest := ChallengeRequest {
  cr_schema : list Z; cr_protocol : list Z; cr_kind : list Z; cr_gateway : list Z;
  cr_credential : list Z; cr_generation : list Z; cr_versions : list (list Z);
  cr_nonce : list Z; cr_resume : list ResumeCursor }.

Definition challenge_request_validate (r : SessionChallengeRequest) : codec unit :=
  _ ← schema (cr_schema r) CHALLENGE_REQUEST_SCHEMA;
  _ ← ensure (eqb_bytes (cr_protocol r) CLOUDLINK_PROTOCOL &&
              eqb_bytes (cr_kind r) (bytes_of "session-challenge-request")) UnsupportedMessage;
  _ ← uuid (cr_gateway r) "gateway_id";
  _ ← identifier (cr_credential r) "credential_binding.credential_id" 256;
  _ ← positive_u64 (cr_generation r) "credential_binding.generation";
  _ ← validate_offered_versions (cr_versions r);
  _ ← validate_nonce (cr_nonce r) "client_nonce";
  validate_cursors (cr_resume r).

Record SessionHello := Hello {
  h_schema : list Z; h_protocol : list Z; h_kind : list Z; h_gateway : list Z;
  h_credential : list Z; h_generation : list Z; h_origin : CredentialOriginModel;
  h_challenge : list Z; gateway_key_id : option (list Z);
  gateway_signature : option MessageAuthentication; h_versions : list (list Z);
  h_nonce : list Z; h_resume : list ResumeCursor }.

(** The evidence the declared origin model requires, and forbids. *)
Definition origin_validate (h : SessionHello) : codec unit :=
  match h_origin h with
  | GatewaySigned =>
      key ← ok_or (gateway_key_id h) (InvalidField "gateway_key_id");
      _ ← identifier key "gateway_key_id" 128;
      sig ← ok_or (gateway_signature h) (InvalidField "gateway_signature");
      _ ← auth_validate sig;
      ensure (eqb_bytes (key_id sig) key) (InvalidField "gateway_signature.key_id")
  | TrustedConnectorBrokerAttestation =>
      match gateway_key_id h, gateway_signature h with
      | None, None => Ok tt
      | _, _ => Err (InvalidField "credential_binding.origin_model")
      end
  end.

Definition hello_validate (h : SessionHello) : codec unit :=
  _ ← schema (h_schema h) HELLO_SCHEMA;
  _ ← ensure (eqb_bytes (h_protocol h) CLOUDLINK_PROTOCOL &&
              eqb_bytes (h_kind h) (bytes_of "session-hello")) UnsupportedMessage;
  _ ← uuid (h_gateway h) "gateway_id";
  _ ← identifier (h_credential h) "credential_binding.credential_id" 256;
  _ ← positive_u64 (h_generation h) "credential_binding.generation";
  _ ← uuid (h_challenge h) "challenge_id";
  _ ← origin_validate h;
  _ ← validate_offered_versions (h_versions h);
  _ ← validate_nonce (h_nonce h) "client_nonce";
  validate_cursors (h_resume h).

Record SessionAccepted := Accepted {
  sa_schema : list Z; sa_protocol : list Z; sa_kind : list Z; sa_gateway : list Z;
  selected_version : list Z; sa_session_id : list Z; sa_session_epoch : list Z;
  sa_generation : list Z; server_time_ms : list Z; heartbeat_interval_ms : list Z;
  sa_resume : list ResumeCursor }.

Definition accepted_validate (a : SessionAccepted) : codec unit :=
  _ ← schema (sa_schema a) ACCEPTED_SCHEMA;
  _ ← ensure (eqb_bytes (sa_protocol a) CLOUDLINK_PROTOCOL &&
              eqb_bytes (sa_kind a) (bytes_of "session-accepted")) UnsupportedMessage;
  _ ← uuid (sa_gateway a) "gateway_id";
  _ ← protocol_version (selected_version a);
  _ ← uuid (sa_session_id a) "session_id";
  _ ← positive_u64 (sa_session_epoch a) "session_epoch";
  _ ← positive_u64 (sa_generation a) "credential_generation";
  _ ← canonical_u64 (server_time_ms a) "server_time_ms";
  _ ← positive_u64 (heartbeat_interval_ms a) "heartbeat_interval_ms";
  validate_cursors (sa_resume a).

Record SessionBinding := Binding {
  sb_gateway : list Z; sb_version : list Z; sb_session_id : list Z;
  sb_epoch : Z; sb_generation : Z }.

Definition bind (a : SessionAccepted) (expected_gateway : list Z) (expected_generation : Z)
    (offered : list (list Z)) (previous_epoch : Z) : codec SessionBinding :=
  _ ← accepted_validate a;
  _ ← ensure (eqb_bytes (sa_gateway a) expected_gateway) SessionMismatch;
  _ ← ensure (bool_decide (selected_version a ∈ offered)) VersionNegotiationFailed;
  epoch ← positive_u64 (sa_session_epoch a) "session_epoch";
  generation ← positive_u64 (sa_generation a) "credential_generation";
  _ ← ensure (negb ((epoch <=? previous_epoch) || negb (generation =? expected_generation)))
        SessionMismatch;
  Ok (Binding (sa_gateway a) (selected_version a) (sa_session_id a) epoch generation).

Definition spool_binding (b : SessionBinding) : CloudLinkSessionBinding :=
  Session (sb_session_id b) (sb_epoch b).

(** ** Session-bound messages (codec.rs) *)

(** The fields every post-establishment message carries. *)
Record SessionFields := Fields {
  f_schema : list Z; f_protocol : list Z; f_version : list Z; f_kind : list Z; f_gateway : list Z;
  f_session_id : list Z; f_session_epoch : list Z; f_generation : list Z }.

Definition validate_session_fields (f : SessionFields) : codec unit :=
  _ ← protocol_version (f_version f);
  _ ← uuid (f_gateway f) "gateway_id";
  _ ← uuid (f_session_id f) "session_id";
  _ ← positive_u64 (f_session_epoch f) "session_epoch";
  _ ← positive_u64 (f_generation f) "credential_generation";
  Ok tt.

(** [&&] with [?] inside: the integers are parsed only when the identities agree. *)
Definition session_match (s : SessionBinding) (f : SessionFields) : codec unit :=
  if eqb_bytes (f_version f) (sb_version s) && eqb_bytes (f_gateway f) (sb_gateway s) &&
     eqb_bytes (f_session_id f) (sb_session_id s)
  then
    epoch ← positive_u64 (f_session_epoch f) "session_epoch";
    if epoch =? sb_epoch s then
      generation ← positive_u64 (f_generation f) "credential_generation";
      ensure (generation =? sb_generation s) SessionMismatch
    else Err SessionMismatch
  else Err SessionMismatch.

Record DurableAckMessage := AckMessage {
  am_fields : SessionFields; am_stream : list Z; am_epoch : list Z; am_position : list Z;
  am_batch : list Z; am_digest : list Z; am_receipt : list Z; am_at : list Z }.

Definition ack_validate (m : DurableAckMessage) : codec unit :=
  _ ← schema (f_schema (am_fields m)) DURABLE_ACK_SCHEMA;
  _ ← ensure (eqb_bytes (f_protocol (am_fields m)) CLOUDLINK_PROTOCOL &&
              eqb_bytes (f_kind (am_fields m)) (bytes_of "durable-ack")) UnsupportedMessage;
  _ ← validate_session_fields (am_fields m);
  _ ← identifier (am_stream m) "stream_id" 128;
  _ ← positive_u64 (am_epoch m) "stream_epoch";
  _ ← positive_u64 (am_position m) "acknowledged_position";
  _ ← identifier (am_batch m) "batch_id" 128;
  _ ← digest_field (am_digest m) "digest";
  _ ← identifier (am_receipt m) "receipt_id" 128;
  _ ← canonical_u64 (am_at m) "acknowledged_at_ms";
  Ok tt.

Definition to_spool_ack (m : DurableAckMessage) (s : SessionBinding) : codec CloudLinkDurableAck :=
  _ ← ack_validate m;
  _ ← session_match s (am_fields m);
  epoch ← positive_u64 (am_epoch m) "stream_epoch";
  position ← positive_u64 (am_position m) "acknowledged_position";
  Ok (Ack (Session (f_session_id (am_fields m)) (sb_epoch s)) (am_stream m) epoch position
        (am_batch m) (am_digest m) (am_receipt m)).

Record ReplayRequest := Replay {
  rr_fields : SessionFields; rr_stream : list Z; rr_epoch : list Z; rr_from : list Z; rr_at : list Z }.

Definition replay_validate (r : ReplayRequest) : codec unit :=
  _ ← schema (f_schema (rr_fields r)) REPLAY_REQUEST_SCHEMA;
  _ ← ensure (eqb_bytes (f_protocol (rr_fields r)) CLOUDLINK_PROTOCOL &&
              eqb_bytes (f_kind (rr_fields r)) (bytes_of "replay-request")) UnsupportedMessage;
  _ ← validate_session_fields (rr_fields r);
  _ ← identifier (rr_stream r) "stream_id" 128;
  _ ← positive_u64 (rr_epoch r) "stream_epoch";
  _ ← positive_u64 (rr_from r) "from_position";
  _ ← canonical_u64 (rr_at r) "requested_at_ms";
  Ok tt.

Definition replay_validate_session (r : ReplayRequest) (s : SessionBinding) : codec unit :=
  _ ← replay_validate r;
  session_match s (rr_fields r).

(** ** Canonical decimal numbers *)

(** The texts [canonical_u64] lets through to the parser. *)
Definition canonical (v : list Z) : Prop :=
  v = [0x30] ∨ (forallb is_ascii_digit v = true ∧ ∃ b r, v = b :: r ∧ b ≠ 0x30).

Lemma parse_dec_snoc v b : parse_dec (v ++ [b]) = parse_dec v * 10 + (b - 0x30).
Proof. unfold parse_dec. by rewrite fold_left_app. Qed.

Lemma is_digit b : is_ascii_digit b = true ↔ 0x30 ≤ b ≤ 0x39.
Proof. unfold is_ascii_digit. rewrite andb_true_iff, !Z.leb_le. lia. Qed.

Lemma parse_dec_nonneg v : forallb is_ascii_digit v = true → 0 ≤ parse_dec v.
Proof.
  induction v as [|b v IH] using rev_ind; [done|]. rewrite forallb_app, andb_true_iff. cbn.
  rewrite andb_true_r, is_digit. intros [H1 H2]. rewrite parse_dec_snoc. specialize (IH H1). lia.
Qed.

(** A canonical text other than "0" of length [k] denotes at least [10 ^ (k - 1)]. *)
Lemma parse_dec_lower b r :
  forallb is_ascii_digit (b :: r) = true → b ≠ 0x30 →
  10 ^ Z.of_nat (length r) ≤ parse_dec (b :: r).
Proof.
  intros Hd Hb. induction r as [|c r IH] using rev_ind.
  { cbn in *. rewrite andb_true_r, is_digit in Hd. unfold parse_dec. cbn. lia. }
  rewrite app_comm_cons in *. rewrite forallb_app, andb_true_iff in Hd. destruct Hd as [Hd Hc].
  cbn in Hc. rewrite andb_true_r, is_digit in Hc. rewrite parse_dec_snoc, length_app. cbn [length].
  specialize (IH Hd). rewrite Nat2Z.inj_add, Z.pow_add_r by lia. change (10 ^ Z.of_nat 1) with 10. lia.
Qed.

Lemma print_parse v fuel :
  canonical v → (length v ≤ fuel)%nat → print_dec fuel (parse_dec v) = v.
Proof.
  intros [->|[Hd (b & r & -> & Hb)]] Hf; [by destruct fuel; [cbn in Hf; lia|]|].
  revert fuel Hf. induction r as [|c r IH] using rev_ind; intros fuel Hf.
  { destruct fuel; [cbn in Hf; lia|]. cbn in Hd. rewrite andb_true_r, is_digit in Hd.
    cbn [print_dec]. unfold parse_dec. cbn [fold_left].
    destruct (Z.ltb_spec (0 * 10 + (b - 48)) 10); [f_equal; lia|lia]. }
  rewrite app_comm_cons in *. pose proof Hd as Hall. rewrite forallb_app, andb_true_iff in Hd.
  destruct Hd as [Hd Hc]. cbn in Hc. rewrite andb_true_r, is_digit in Hc.
  rewrite length_app in Hf. cbn [length] in Hf. destruct fuel as [|fuel]; [lia|].
  rewrite parse_dec_snoc. cbn [print_dec].
  pose proof (parse_dec_lower b r Hd Hb) as Hlow.
  assert (1 ≤ 10 ^ Z.of_nat (length r)) by (apply (Z.pow_le_mono_r 10 0); lia).
  destruct (Z.ltb_spec (parse_dec (b :: r) * 10 + (c - 48)) 10); [lia|].
  rewrite Z.div_add_l, Z.div_small, Z.add_0_r by lia. rewrite (IH Hd) by (cbn; lia). f_equal. f_equal.
  rewrite (Z.add_comm (parse_dec (b :: r) * 10)), Z.mod_add, Z.mod_small by lia. lia.
Qed.

Lemma parse_print fuel n :
  0 ≤ n < 10 ^ Z.of_nat fuel → (0 < fuel)%nat →
  parse_dec (print_dec fuel n) = n ∧ canonical (print_dec fuel n).
Proof.
  revert n. induction fuel as [|fuel IH]; intros n Hn Hf; [lia|]. cbn [print_dec].
  destruct (Z.ltb_spec n 10).
  { split; [unfold parse_dec; cbn; lia|]. destruct (decide (n = 0)) as [->|]; [by left|].
    right. split; [cbn; rewrite andb_true_r; apply is_digit; lia|]. eexists _, []. split; [done|lia]. }
  assert (0 ≤ n / 10 < 10 ^ Z.of_nat fuel) as Hdiv.
  { rewrite Nat2Z.inj_succ, Z.pow_succ_r in Hn by lia. split; [by apply Z.div_pos; lia|].
    apply Z.div_lt_upper_bound; lia. }
  destruct fuel as [|fuel'].
  { change (10 ^ Z.of_nat 1) with 10 in Hn. lia. }
  destruct (IH (n / 10) Hdiv ltac:(lia)) as [Hp Hc]. rewrite parse_dec_snoc, Hp.
  pose proof (Z.mod_pos_bound n 10 ltac:(lia)). split.
  { rewrite (Z.div_mod n 10) at 3 by lia. lia. }
  destruct Hc as [Hc|[Hc (b & r & Hv & Hb)]].
  { rewrite Hc in Hp. change (parse_dec [0x30]) with 0 in Hp.
    pose proof (Z.div_le_lower_bound n 10 1 ltac:(lia) ltac:(lia)). lia. }
  right. rewrite forallb_app, Hc. cbn [forallb andb]. rewrite andb_true_r.
  split; [apply is_digit; lia|]. rewrite Hv. by eexists _, _.
Qed.

Lemma canonical_test v :
  eqb_bytes v [0x30] ||
    (negb (match v with b :: _ => b =? 0x30 | [] => false end) &&
     negb (length v =? 0)%nat && forallb is_ascii_digit v) = true ↔ canonical v.
Proof.
  unfold canonical, eqb_bytes. rewrite orb_true_iff, bool_decide_eq_true, !andb_true_iff, !negb_true_iff.
  destruct v as [|b r]; cbn [length Nat.eqb].
  - split; [intros [?|[[_ ?] _]]; [done|by cbn in *]|intros [?|[_ (? & ? & ? & _)]]; done].
  - rewrite Z.eqb_neq. split; intros [?|H]; [by left|right|by left|right].
    + destruct H as [[Hb _] Hd]. split; [done|]. by exists b, r.
    + destruct H as [Hd (b' & r' & [= <- <-] & Hb)]. done.
Qed.

(** The parser accepts exactly the printed form of a [u64]. *)
Lemma canonical_u64_Ok v field n :
  canonical_u64 v field = Ok n ↔ in_u 64 n ∧ v = to_string n.
Proof.
  unfold canonical_u64, parse_u64, in_u. rewrite <- (negb_involutive (_ || _)).
  destruct (negb (_ || _)) eqn:E.
  - cbn [negb]. split; [done|]. intros [Hn ->]. apply negb_true_iff in E.
    assert (canonical (to_string n)) as Hc by (apply parse_print; [lia|lia]).
    apply canonical_test in Hc. congruence.
  - apply negb_false_iff, canonical_test in E. cbn [negb]. destruct (Z.ltb_spec (parse_dec v) (2 ^ 64)) as [Hlt|Hge].
    + assert (length v ≤ 20)%nat as Hlen.
      { destruct E as [->|[Hd (b & r & -> & Hb)]]; [cbn; lia|].
        pose proof (parse_dec_lower b r Hd Hb) as Hlow.
        destruct (Nat.le_gt_cases (length (b :: r)) 20); [done|]. cbn [length] in *.
        pose proof (Z.pow_le_mono_r 10 20 (Z.of_nat (length r)) ltac:(lia) ltac:(lia)). lia. }
      pose proof (print_parse v 20 E Hlen) as Hpp.
      assert (0 ≤ parse_dec v) by (destruct E as [->|[Hd _]]; [done|by apply parse_dec_nonneg]).
      split; [intros [= <-]; split; [lia|]; by rewrite <- Hpp at 1|].
      intros [Hn Hv]. cbn. f_equal. rewrite Hv. apply parse_print; lia.
    + split; [done|]. intros [Hn ->]. exfalso. revert Hge.
      unfold to_string. rewrite (proj1 (parse_print 20 n ltac:(lia) ltac:(lia))). lia.
Qed.

Lemma to_string_inj a b : in_u 64 a → in_u 64 b → to_string a = to_string b → a = b.
Proof.
  intros Ha Hb H. assert (canonical_u64 (to_string a) "" = Ok b) as E by (by apply canonical_u64_Ok).
  assert (canonical_u64 (to_string a) "" = Ok a) as E' by (by apply canonical_u64_Ok). congruence.
Qed.

Lemma positive_u64_Ok v field n :
  positive_u64 v field = Ok n ↔ 0 < n ∧ in_u 64 n ∧ v = to_string n.
Proof.
  unfold positive_u64. rewrite res_bind_Ok. split.
  - intros (x & Hx & H). destruct (Z.eqb_spec x 0); [done|]. apply Ok_inj in H as <-.
    apply canonical_u64_Ok in Hx as [Hu ->]. unfold in_u in *. split_and!; (done || lia).
  - intros (Hp & Hu & ->). exists n. split; [by apply canonical_u64_Ok|].
    by destruct (Z.eqb_spec n 0); [lia|].
Qed.

Lemma ensure_Ok b e : ensure b e = Ok tt ↔ b = true.
Proof. unfold ensure. by destruct b. Qed.

Lemma eqb_bytes_spec a b : eqb_bytes a b = true ↔ a = b.
Proof. apply bool_decide_eq_true. Qed.

(** Splits a successful validator into its steps. *)
Ltac steps H :=
  repeat match type of H with
  | _ ≫= _ = Ok _ => let H1 := fresh "Hv" in apply res_bind_Ok in H as (? & H1 & H)
  end;
  repeat match goal with u : () |- _ => destruct u end.

Lemma accepted_validate_fields a :
  accepted_validate a = Ok tt →
  uuid (sa_session_id a) "session_id" = Ok tt ∧ selected_version a = CLOUDLINK_PROTOCOL_VERSION ∧
  (∃ e, positive_u64 (sa_session_epoch a) "session_epoch" = Ok e) ∧
  (∃ g, positive_u64 (sa_generation a) "credential_generation" = Ok g).
Proof.
  unfold accepted_validate. intros H. steps H.
  match goal with Hp : protocol_version _ = Ok _ |- _ =>
    apply ensure_Ok, eqb_bytes_spec in Hp; rename Hp into Hver end.
  split_and!; [done|done|by eexists|by eexists].
Qed.

(** ** Negotiation *)

(** Session negotiation: [bind] yields a session exactly when the acceptance
    is well formed, addressed to this gateway, selects an offered version, is for
    the expected credential generation, and its epoch, read canonically, is above
    every epoch bound before; the binding then carries exactly those values. *)
Theorem bind_exact (a : SessionAccepted) (gateway : list Z) (generation : Z)
    (offered : list (list Z)) (previous : Z) (b : SessionBinding) :
  bind a gateway generation offered previous = Ok b ↔
  accepted_validate a = Ok tt ∧ sa_gateway a = gateway ∧ selected_version a ∈ offered ∧
  (0 < generation ∧ in_u 64 generation ∧ sa_generation a = to_string generation) ∧
  (in_u 64 (sb_epoch b) ∧ sa_session_epoch a = to_string (sb_epoch b)) ∧
  previous < sb_epoch b ∧
  b = Binding gateway CLOUDLINK_PROTOCOL_VERSION (sa_session_id a) (sb_epoch b) generation.
Proof.
  unfold bind. split.
  - intros H. steps H. apply ensure_Ok, eqb_bytes_spec in Hv0. apply ensure_Ok, bool_decide_eq_true in Hv1.
    apply positive_u64_Ok in Hv2 as (He1 & He2 & He3), Hv3 as (Hg1 & Hg2 & Hg3).
    apply ensure_Ok, negb_true_iff, orb_false_iff in Hv4 as [Hlt Hgen].
    apply negb_false_iff, Z.eqb_eq in Hgen. apply Z.leb_gt in Hlt. apply Ok_inj in H as <-.
    destruct (accepted_validate_fields a Hv) as (_ & Hver & _). cbn [sb_epoch]. subst.
    split_and!; try done; [apply He2..|]. by rewrite Hver.
  - intros (Hv & -> & Hin & (Hg1 & Hg2 & Hg3) & (He1 & He2) & Hlt & Hb).
    rewrite Hv. cbn [mbind res_bind]. unfold eqb_bytes. rewrite !bool_decide_true by done.
    cbn [ensure mbind res_bind].
    destruct (accepted_validate_fields a Hv) as (_ & Hver & [e He] & [g Hg]).
    assert (e = sb_epoch b) as ->.
    { apply positive_u64_Ok in He as (_ & Hu & Hs). apply to_string_inj; [done..|congruence]. }
    assert (g = generation) as ->.
    { apply positive_u64_Ok in Hg as (_ & Hu & Hs). apply to_string_inj; [done..|congruence]. }
    rewrite He, Hg. cbn [mbind res_bind].
    destruct (Z.leb_spec (sb_epoch b) previous); [lia|]. rewrite Z.eqb_refl.
    cbn [orb negb ensure mbind res_bind]. by rewrite Hver, <- Hb.
Qed.

Lemma uuid_identifier v field :
  uuid v field = Ok tt → valid_identifier v 128 = true.
Proof.
  unfold uuid. rewrite ensure_Ok. intros H. bool_to_prop.
  match goal with Hf : forallb _ (seq _ _) = true |- _ => rename Hf into Hall end.
  match goal with Hl : length v = 36%nat |- _ => rename Hl into Hlen end.
  unfold valid_identifier. rewrite Hlen. cbn [Nat.eqb negb andb]. change (36 <=? 128)%nat with true.
  cbn [andb]. apply forallb_forall. intros b Hb. apply In_nth with (d := 0) in Hb as (i & Hi & <-).
  pose proof (proj1 (forallb_forall _ _) Hall i ltac:(apply in_seq; lia)) as Hbyte.
  fold (at_ v i). unfold is_ascii_alphanumeric, is_lower_hex, is_ascii_digit in *.
  apply orb_true_iff in Hbyte as [Hbyte|Hbyte].
  - assert (at_ v i = 0x2D) as ->; [|done].
    repeat (apply orb_true_iff in Hbyte as [Hbyte|Hbyte]); apply Nat.eqb_eq in Hbyte; subst i; done.
  - repeat (rewrite orb_true_iff || rewrite andb_true_iff). rewrite !Z.leb_le.
    apply orb_true_iff in Hbyte as [Hbyte|Hbyte]; apply andb_true_iff in Hbyte as [E1 E2];
      apply Z.leb_le in E1, E2; lia.
Qed.

Lemma identifier_valid v field n : identifier v field n = Ok tt → valid_identifier v n = true.
Proof.
  unfold identifier. rewrite ensure_Ok, andb_true_iff. intros [Hl Hv].
  unfold valid_identifier. destruct v as [|b r]; [done|]. apply andb_true_iff in Hv as [Hb Hr].
  cbn [length Nat.eqb negb andb forallb] in *. rewrite Hl, Hb. cbn [orb andb]. exact Hr.
Qed.

(** ** Receipts *)

Lemma session_match_Ok b f : session_match b f = Ok tt → f_session_id f = sb_session_id b.
Proof.
  unfold session_match. case_if; [|done]. intros _. bool_to_prop. by apply eqb_bytes_spec.
Qed.

Lemma to_spool_ack_fields m b ack :
  to_spool_ack m b = Ok ack →
  a_session ack = spool_binding b ∧ validate_session (a_session ack) = Ok tt ∧
  valid_identifier (receipt_id ack) 128 = true.
Proof.
  unfold to_spool_ack. intros H. steps H. apply Ok_inj in H as <-. cbn [a_session receipt_id].
  pose proof (session_match_Ok _ _ Hv0) as Hsid. unfold ack_validate in Hv. steps Hv.
  unfold spool_binding. rewrite <- Hsid. split; [done|].
  match goal with Hf : validate_session_fields _ = Ok _ |- _ =>
    unfold validate_session_fields in Hf; steps Hf end.
  match goal with Hr : identifier (am_receipt m) _ _ = Ok _ |- _ =>
    apply identifier_valid in Hr; split; [|exact Hr] end.
  unfold validate_session. apply check_Ok, andb_true_intro. cbn [session_epoch session_id]. split.
  - unfold session_match in Hv0. case_if; [|done]. apply res_bind_Ok in Hv0 as (e & He & Hm).
    apply positive_u64_Ok in He as (He & _). destruct (Z.eqb_spec e (sb_epoch b)) as [<-|]; [|done].
    by apply Z.ltb_lt.
  - match goal with Hu : uuid (f_session_id _) _ = Ok _ |- _ => exact (uuid_identifier _ _ Hu) end.
Qed.

(** Receipts that pass the wire checks fit the spool: a receipt verified
    against a session carries that session's spool binding, and the spool never
    refuses it as malformed; it can only disagree about the stream, the position,
    the content or the session. *)
Theorem verified_receipt_fits_spool (m : DurableAckMessage) (b : SessionBinding)
    (ack : CloudLinkDurableAck) (s : CloudLinkSpoolState) :
  to_spool_ack m b = Ok ack →
  a_session ack = spool_binding b ∧ fst (acknowledge ack s) ≠ Err InvalidData.
Proof.
  intros (Hs & Hv & Hr)%to_spool_ack_fields. split; [done|]. unfold acknowledge. rewrite Hv.
  case_bool_decide; [done|]. destruct (check_ack ack s) as [[]|e|] eqn:E; [done|cbn|done].
  intros [= ->]. unfold check_ack, check in E. rewrite Hr in E.
  repeat (case_if; cbn [mbind res_bind] in E; try done).
  destruct (bt_get _ _); cbn [ok_or mbind res_bind] in E; [|done].
  repeat (case_if; cbn [mbind res_bind] in E; try done).
Qed.

(** Receipts of an earlier session remove nothing: once a record was offered
    again on a later session, a receipt verified against an earlier one leaves
    the spool exactly as it is. *)
Theorem stale_session_receipt_ignored (x : run) (a1 a2 : SessionAccepted) (gw1 gw2 : list Z)
    (g1 g2 previous : Z) (offered1 offered2 : list (list Z)) (b1 b2 : SessionBinding)
    (m : DurableAckMessage) (ack : CloudLinkDurableAck) :
  reachable x →
  bind a1 gw1 g1 offered1 previous = Ok b1 →
  bind a2 gw2 g2 offered2 (sb_epoch b1) = Ok b2 →
  to_spool_ack m b1 = Ok ack →
  let s := r_state x in
  let offer := mark_offered (Identity (stream_id s) (stream_epoch s) (acknowledged_position ack))
                 (spool_binding b2) s in
  fst offer = Ok tt → snd (acknowledge ack (snd offer)) = snd offer.
Proof.
  intros [H _]%reachable_inv _ Hb2 Hack s offer Hoffer. fold s in H.
  apply to_spool_ack_fields in Hack as (Hs & Hv & _).
  assert (sb_epoch b1 < sb_epoch b2) as Hlt.
  { unfold bind in Hb2. steps Hb2. apply Ok_inj in Hb2 as <-. cbn [sb_epoch].
    apply ensure_Ok, negb_true_iff, orb_false_iff in Hv5 as [Hlt _]. by apply Z.leb_gt. }
  unfold offer, mark_offered in *. destruct (_ ≫= _) as [r|e|] eqn:E; [|done..]. cbn [snd] in *.
  apply res_bind_Ok in E as (_ & _ & Hr). apply record_mut_Ok in Hr. cbn [position] in *.
  unfold acknowledge. rewrite Hv. case_bool_decide; [done|].
  destruct (check_ack _ _) as [[]|e|] eqn:Hck; [|done..]. exfalso.
  apply check_ack_Ok in Hck as (_ & _ & _ & _ & r' & Hg & Hoff & _). cbn [records with_records] in Hg.
  rewrite bt_get_insert in Hg by (eapply contiguous_sorted, inv_contiguous, H).
  rewrite Z.eqb_refl in Hg. injection Hg as <-. cbn in Hoff. rewrite Hs in Hoff.
  injection Hoff as _ Hep. lia.
Qed.

(** ** Resume cursors *)

Lemma cursors_loop_Ok cs seen :
  cursors_loop cs seen = Ok tt →
  Forall (fun c => cursor_validate c = Ok tt ∧ (rc_stream c, rc_epoch c) ∉ seen) cs ∧
  NoDup (map (fun c => (rc_stream c, rc_epoch c)) cs).
Proof.
  revert seen. induction cs as [|c cs IH]; intros seen H; cbn [cursors_loop] in H.
  { split; constructor. }
  apply res_bind_Ok in H as ([] & Hc & H). case_bool_decide as Hin; [done|].
  destruct (IH _ H) as [Hf Hn]. split.
  - constructor; [done|]. eapply Forall_impl; [exact Hf|]. cbn. intros c' [? Hni]. split; [done|].
    intros Hs. apply Hni. by apply elem_of_cons; right.
  - cbn [map]. constructor; [|done]. intros Hin'.
    apply list_elem_of_In, in_map_iff in Hin' as (c' & Heq & Hc').
    apply list_elem_of_In in Hc'. destruct (proj1 (Forall_forall _ _) Hf c' Hc') as [_ Hni].
    apply Hni. rewrite Heq. by apply elem_of_cons; left.
Qed.

(** Validated resume cursors are unambiguous: at most 32 of them, and no two
    for the same stream and numeric epoch, because a number has one canonical
    text. *)
Theorem validate_cursors_unique (cs : list ResumeCursor) :
  validate_cursors cs = Ok tt →
  (length cs ≤ 32)%nat ∧ NoDup (map (fun c => (rc_stream c, cursor_epoch c)) cs).
Proof.
  unfold validate_cursors. destruct (Nat.ltb_spec 32 (length cs)); [done|]. intros Hl.
  apply cursors_loop_Ok in Hl as [Hf Hn]. split; [done|].
  assert (∀ c, c ∈ cs → in_u 64 (cursor_epoch c) ∧ rc_epoch c = to_string (cursor_epoch c)) as Hval.
  { intros c Hc. destruct (proj1 (Forall_forall _ _) Hf c Hc) as [Hv _]. unfold cursor_validate in Hv.
    apply res_bind_Ok in Hv as (_ & _ & Hv). apply res_bind_Ok in Hv as (n & Hn' & _).
    apply positive_u64_Ok in Hn' as (_ & Hu & Hs). unfold cursor_epoch, parse_u64.
    rewrite Hs. unfold to_string, in_u in *. rewrite (proj1 (parse_print 20 n ltac:(lia) ltac:(lia))).
    destruct (Z.ltb_spec n (2 ^ 64)); [done|lia]. }
  clear Hf H. induction cs as [|c cs IH]; cbn [map] in *; [constructor|].
  apply NoDup_cons in Hn as [Hni Hn]. constructor.
  - intros Hin. apply Hni. apply list_elem_of_In, in_map_iff in Hin as (c' & [= Hs He] & Hc').
    apply list_elem_of_In in Hc'. apply list_elem_of_In, in_map_iff. exists c'.
    split; [|by apply list_elem_of_In].
    destruct (Hval c ltac:(by apply elem_of_cons; left)) as [_ ->].
    destruct (Hval c' ltac:(by apply elem_of_cons; right)) as [_ ->]. by rewrite Hs, He.
  - apply IH; [done|]. intros c' Hc'. apply Hval. by apply elem_of_cons; right.
Qed.

(** ** The theorems at a concrete session *)

Definition sample_gateway : list Z := bytes_of "11111111-1111-4111-8111-111111111111".
Definition sample_uuid : list Z := bytes_of "22222222-2222-4222-8222-222222222222".

Definition sample_accepted (epoch : Z) : SessionAccepted :=
  Accepted ACCEPTED_SCHEMA CLOUDLINK_PROTOCOL (bytes_of "session-accepted") sample_gateway
    CLOUDLINK_PROTOCOL_VERSION sample_uuid (to_string epoch) (to_string 7) (to_string 1700000000000)
    (to_string 30000) [Cursor (bytes_of "t") (to_string 1) (to_string 0)].

Definition sample_binding (epoch : Z) : SessionBinding :=
  Binding sample_gateway CLOUDLINK_PROTOCOL_VERSION sample_uuid epoch 7.

Definition sample_receipt (epoch : Z) : DurableAckMessage :=
  AckMessage (Fields DURABLE_ACK_SCHEMA CLOUDLINK_PROTOCOL CLOUDLINK_PROTOCOL_VERSION
                (bytes_of "durable-ack") sample_gateway sample_uuid (to_string epoch) (to_string 7))
    (bytes_of "t") (to_string 1) (to_string 2) (bytes_of "b2")
    (SHA256_PREFIX ++ replicate 64 0x61) (bytes_of "r") (to_string 5).

Definition sample_spool_ack (epoch : Z) : CloudLinkDurableAck :=
  Ack (Session sample_uuid epoch) (bytes_of "t") 1 2 (bytes_of "b2")
    (SHA256_PREFIX ++ replicate 64 0x61) (bytes_of "r").

Lemma verified_receipt_fits_spool_witness :
  a_session (sample_spool_ack 3) = spool_binding (sample_binding 3) ∧
  fst (acknowledge (sample_spool_ack 3) (r_state sample_run)) ≠ Err InvalidData.
Proof.
  exact (verified_receipt_fits_spool (sample_receipt 3) (sample_binding 3) (sample_spool_ack 3)
    (r_state sample_run) ltac:(by vm_compute)).
Defined.

Lemma stale_session_receipt_ignored_witness :
  let s := r_state sample_run in
  let offer := mark_offered (Identity [0x74] 1 2) (spool_binding (sample_binding 4)) s in
  fst offer = Ok tt ∧ snd (acknowledge (sample_spool_ack 3) (snd offer)) = snd offer.
Proof.
  cbv zeta. split; [by vm_compute|].
  exact (stale_session_receipt_ignored sample_run (sample_accepted 3) (sample_accepted 4)
    sample_gateway sample_gateway 7 7 2 [CLOUDLINK_PROTOCOL_VERSION] [CLOUDLINK_PROTOCOL_VERSION]
    (sample_binding 3) (sample_binding 4) (sample_receipt 3) (sample_spool_ack 3) sample_reachable
    ltac:(by vm_compute) ltac:(by vm_compute) ltac:(by vm_compute) ltac:(by vm_compute)).
Defined.

Lemma validate_cursors_unique_witness :
  let cs := [Cursor (bytes_of "t") (to_string 1) (to_string 0);
             Cursor (bytes_of "t") (to_string 2) (to_string 9)] in
  NoDup (map (fun c => (rc_stream c, cursor_epoch c)) cs).
Proof. cbv zeta. apply validate_cursors_unique. by vm_compute. Defined.

End Session.
