(* ===== verification/Calc.v ===== *)
(** * The calculation engine (libs/aether-calc/src/{state,builtin_functions,evaluator,error}.rs)

    Stateful functions over an in-memory store of serialised states, the
    stateless functions, and the formula evaluator that splices stateful results
    into the text before it evaluates.  The JSON text layer, chrono's local
    calendar, the regular expressions and the expression evaluator are
    interfaces; the clock is a stream read once per call. *)

From Stdlib Require Import SpecFloat.
From stdpp Require Import base tactics numbers list strings gmap pretty.
From S2P Require Import Prelude State Text Float Json.
#[local] Open Scope Z_scope.

Module Calc.
Import Float Json.

Inductive CalcError := Expression | CState | Function_ | VariableNotFound.

(** ** States and their serialised form (state.rs) *)

Record IntegrateState := Integrate { i_last_ts : f64; accumulated : f64 }.
Record MovingAvgState := MovingAvg { values : list f64; position : nat; count : nat }.
Record RateOfChangeState := Rate { r_last_ts : f64; last_value : f64 }.
Record PeriodDeltaState := Period { snapshot : f64; period_start_ts : Z }.

(** [serde_json::to_vec] and [from_slice] through the document. *)
Class JsonText := {
  text : Type;
  print : Value → text;
  parse : text → option Value;
  parse_print : ∀ v, finite_doc v = true → parse (print v) = Some v }.

(** A non-finite number serialises as [null]. *)
Definition json_f64 (x : f64) : Value := if is_finite x then Num (NFloat x) else Null.
Definition json_usize (n : nat) : Value := Num (PosInt (Z.of_nat n)).
Definition json_i64 (n : Z) : Value := Num (if 0 <=? n then PosInt n else NegInt n).

Class Serde (S : Type) := { serialize : S → Value; deserialize : Value → option S }.

#[global] Instance integrate_serde : Serde IntegrateState := {
  serialize s := Obj [("last_ts", json_f64 (i_last_ts s)); ("accumulated", json_f64 (accumulated s))];
  deserialize v :=
    t ← get "last_ts" v ≫= as_f64; a ← get "accumulated" v ≫= as_f64; Some (Integrate t a) }.

#[global] Instance moving_avg_serde : Serde MovingAvgState := {
  serialize s := Obj [("values", Arr (map json_f64 (values s)));
                      ("position", json_usize (position s)); ("count", json_usize (count s))];
  deserialize v :=
    l ← get "values" v ≫= as_array; l ← mapM as_f64 l;
    p ← get "position" v ≫= as_u64; c ← get "count" v ≫= as_u64;
    Some (MovingAvg l (Z.to_nat p) (Z.to_nat c)) }.

#[global] Instance rate_serde : Serde RateOfChangeState := {
  serialize s := Obj [("last_ts", json_f64 (r_last_ts s)); ("last_value", json_f64 (last_value s))];
  deserialize v :=
    t ← get "last_ts" v ≫= as_f64; x ← get "last_value" v ≫= as_f64; Some (Rate t x) }.

#[global] Instance period_serde : Serde PeriodDeltaState := {
  serialize s := Obj [("snapshot", json_f64 (snapshot s));
                      ("period_start_ts", json_i64 (period_start_ts s))];
  deserialize v :=
    x ← get "snapshot" v ≫= as_f64; t ← get "period_start_ts" v ≫= as_i64; Some (Period x t) }.

Definition moving_avg_new (window_size : nat) : MovingAvgState :=
  MovingAvg (replicate (max window_size 1) zero) 0 0.

Definition average (s : MovingAvgState) : f64 :=
  if (count s =? 0)%nat || (length (values s) =? 0)%nat then zero
  else
    let n := min (count s) (length (values s)) in
    div (sum (take n (values s))) (of_Z (Z.of_nat n)).

Definition moving_avg_add (value : f64) (s : MovingAvgState) : f64 * MovingAvgState :=
  let s := if (length (values s) =? 0)%nat then MovingAvg [zero] 0 0 else s in
  let n := length (values s) in
  let pos := (position s mod n)%nat in
  let s' := MovingAvg (<[pos := value]> (values s)) ((pos + 1) mod n)%nat
              (if (count s <? n)%nat then count s + 1 else count s)%nat in
  (average s', s').

Definition state_key (context func var : string) : string :=
  "calc:state:" +:+ context +:+ ":" +:+ func +:+ ":" +:+ var.

(** ** Built-in functions (builtin_functions.rs) *)

(** chrono's [DateTime<Local>]: [with_timezone] of a UTC second, its calendar
    accessors, and the UTC second of the local midnight of its date. *)
Class Chrono := {
  DateTime : Type;
  with_timezone : Z → DateTime;
  month : DateTime → Z;
  num_days_from_monday : DateTime → Z;
  sub_days : DateTime → Z → DateTime;
  with_month : DateTime → Z → option DateTime;
  with_day : DateTime → Z → option DateTime;
  local_midnight : DateTime → option Z }.

Section Builtin.
Context `{JsonText} `{Chrono}.

(** [MemoryStateStore], and how many times the clock was read. *)
Record CalcState := MkCalc { data : gmap string text; ticks : nat }.

(** [Utc::now().timestamp()] of each reading. *)
Variable utc : nat → Z.

Definition calc (A : Type) : Type := st CalcState (res CalcError A).

Definition store_get (key : string) : st CalcState (option text) := gets (fun s => data s !! key).
Definition store_set (key : string) (v : text) : st CalcState unit :=
  modify (fun s => MkCalc (<[key := v]> (data s)) (ticks s)).
Definition store_delete (key : string) : st CalcState unit :=
  modify (fun s => MkCalc (delete key (data s)) (ticks s)).
Definition utc_now : st CalcState Z := fun s => (utc (ticks s), MkCalc (data s) (S (ticks s))).

Definition from_slice {S} `{Serde S} (t : text) : option S := parse t ≫= deserialize.
Definition save {S} `{Serde S} (key : string) (s : S) : st CalcState unit :=
  store_set key (print (serialize s)).

Definition get_period_start (now : Z) (period : string) : Z :=
  let local := with_timezone now in
  let or_now := default now in
  if bool_decide (period = "daily") then or_now (local_midnight local)
  else if bool_decide (period = "weekly") then
    or_now (local_midnight (sub_days local (num_days_from_monday local)))
  else if bool_decide (period = "monthly") then or_now (with_day local 1 ≫= local_midnight)
  else if bool_decide (period = "quarterly") then
    let quarter_month := (month local - 1) / 3 * 3 + 1 in
    or_now (with_month local quarter_month ≫= fun d => with_day d 1 ≫= local_midnight)
  else now.

Definition integrate (context var_name : string) (value unit_factor : f64) : calc f64 :=
  let key := state_key context "integrate" var_name in
  now ← utc_now;
  let now := of_Z now in
  stored ← store_get key;
  match stored with
  | Some t =>
      match from_slice t with
      | None => mret (Err CState)
      | Some s =>
          let dt := sub now (i_last_ts s) in
          if leb dt zero then mret (Ok (accumulated s))
          else
            let delta := mul (mul value dt) unit_factor in
            let new_accumulated := add (accumulated s) delta in
            _ ← save key (Integrate now new_accumulated);
            mret (Ok new_accumulated)
      end
  | None =>
      _ ← save key (Integrate now zero);
      mret (Ok zero)
  end.

Definition moving_avg (context var_name : string) (value : f64) (window : nat) : calc f64 :=
  if (window =? 0)%nat then mret (Err Function_)
  else
    let key := state_key context "moving_avg" var_name in
    stored ← store_get key;
    match
      match stored with
      | Some t =>
          match from_slice t with
          | None => None
          | Some s => Some (if (length (values s) =? window)%nat then s else moving_avg_new window)
          end
      | None => Some (moving_avg_new window)
      end
    with
    | None => mret (Err CState)
    | Some s =>
        let '(avg, s) := moving_avg_add value s in
        _ ← save key s;
        mret (Ok avg)
    end.

Definition rate_of_change (context var_name : string) (value : f64) : calc f64 :=
  let key := state_key context "rate" var_name in
  now ← utc_now;
  let now := of_Z now in
  stored ← store_get key;
  match stored with
  | Some t =>
      match from_slice t with
      | None => mret (Err CState)
      | Some s =>
          let dt := sub now (r_last_ts s) in
          let rate := if ltb zero dt then div (sub value (last_value s)) dt else NAN in
          _ ← save key (Rate now value);
          mret (Ok rate)
      end
  | None =>
      _ ← save key (Rate now value);
      mret (Ok NAN)
  end.

(** The state after the rotation and counter-reset tests. *)
Definition period_step (value : f64) (current_period_start : Z) (s : PeriodDeltaState)
    : PeriodDeltaState :=
  let s := if period_start_ts s <? current_period_start
           then Period value current_period_start else s in
  if ltb value (snapshot s) then Period value (period_start_ts s) else s.

Definition period_delta (context var_name : string) (value : f64) (period : string) : calc f64 :=
  let key := state_key context "period_delta" (var_name +:+ "_" +:+ period) in
  now ← utc_now;
  stored ← store_get key;
  match stored with
  | Some t =>
      match from_slice t with
      | None => mret (Err CState)
      | Some s =>
          let s := period_step value (get_period_start now period) s in
          let delta := sub value (snapshot s) in
          _ ← save key s;
          mret (Ok delta)
      end
  | None =>
      _ ← save key (Period value (get_period_start now period));
      mret (Ok NAN)
  end.

End Builtin.

(** ** Stateless functions *)

Definition scale (value factor : f64) : f64 := mul value factor.
Definition clamp (value min max : f64) : f64 :=
  if is_nan min || is_nan max then value
  else
    let '(lo, hi) := if leb min max then (min, max) else (max, min) in
    if ltb value lo then lo else if ltb hi value then hi else value.
Definition sign (value : f64) : f64 :=
  if ltb zero value then one else if ltb value zero then of_Z (-1) else zero.

(** ** The evaluator (evaluator.rs) *)

(** Values of the expression language. *)
Inductive EValue :=
| EString (s : string)
| EFloat (x : f64)
| EInt (i : Z)
| EBoolean (b : bool)
| ETuple (l : list EValue)
| EEmpty.

Definition to_f64 (v : EValue) : option f64 :=
  match v with EFloat x => Some x | EInt i => Some (of_Z i) | _ => None end.
Definition args2 (v : EValue) : option (EValue * EValue) :=
  match v with ETuple [a; b] => Some (a, b) | _ => None end.
Definition args3 (v : EValue) : option (EValue * EValue * EValue) :=
  match v with ETuple [a; b; c] => Some (a, b, c) | _ => None end.

(** [captures_iter] of the three patterns: the match's range and its groups. *)
Class Regexes := {
  re_integrate : string → list (nat * nat * string * option string);
  re_moving_avg : string → list (nat * nat * string * string);
  re_rate_of_change : string → list (nat * nat * string) }.

(** [evalexpr::eval_with_context] over the registered functions and variables,
    and [f64::powi] of ten, whose precision Rust leaves open. *)
Class Evalexpr := {
  eval_with_context :
    (string → option (EValue → option EValue)) → gmap string f64 → string → option EValue;
  powi10 : Z → f64 }.

Section Evaluator.
Context `{JsonText} `{Chrono} `{Regexes} `{Evalexpr}.
Variable utc : nat → Z.

Definition unary (f : f64 → f64) (args : EValue) : option EValue :=
  x ← to_f64 args; Some (EFloat (f x)).
Definition binary (f : f64 → f64 → f64) (args : EValue) : option EValue :=
  '(a, b) ← args2 args; x ← to_f64 a; y ← to_f64 b; Some (EFloat (f x y)).

(** [clamp] with its range check. *)
Definition clamp_fn (args : EValue) : option EValue :=
  '(v, lo, hi) ← args3 args;
  value ← to_f64 v; min ← to_f64 lo; max ← to_f64 hi;
  if is_nan min || is_nan max || ltb max min then None
  else Some (EFloat (clamp value min max)).

Definition round (value : f64) (decimals : Z) : f64 :=
  let factor := powi10 decimals in
  div (fround (mul value factor)) factor.

(** [decimals_i64.clamp(i32::MIN, i32::MAX) as i32] *)
Definition round_fn (args : EValue) : option EValue :=
  '(v, d) ← args2 args;
  value ← to_f64 v;
  match d with
  | EInt i =>
      Some (EFloat (round value (Z.max (- 2 ^ 31) (Z.min i (2 ^ 31 - 1)))))
  | _ => None
  end.

Definition register_stateless_functions (name : string) : option (EValue → option EValue) :=
  if bool_decide (name = "scale") then Some (binary scale)
  else if bool_decide (name = "clamp") then Some clamp_fn
  else if bool_decide (name = "abs") then Some (unary abs)
  else if bool_decide (name = "min") then Some (binary fmin)
  else if bool_decide (name = "max") then Some (binary fmax)
  else if bool_decide (name = "round") then Some round_fn
  else if bool_decide (name = "sign") then Some (unary sign)
  else None.

Definition value_to_f64 (v : EValue) : res CalcError f64 :=
  match v with
  | EFloat x => Ok x
  | EInt i => Ok (of_Z i)
  | EBoolean b => Ok (if b then one else zero)
  | _ => Err Expression
  end.

Definition evaluate_simple (formula : string) (variables : gmap string f64) : res CalcError f64 :=
  v ← ok_or (eval_with_context register_stateless_functions variables formula) Expression;
  value_to_f64 v.

Definition replace_range (start stop : nat) (by_ s : string) : string :=
  String.substring 0 start s +:+ by_ +:+ String.substring stop (String.length s - stop) s.

(** The loop over the collected matches: look the variable up, call, splice. *)
Fixpoint splice (variables : gmap string f64)
    (ms : list (nat * nat * string * (f64 → st CalcState (res CalcError f64)))) (result : string)
    : st CalcState (res CalcError string) :=
  match ms with
  | [] => mret (Ok result)
  | (start, stop, var, call) :: ms =>
      match variables !! var with
      | None => mret (Err VariableNotFound)
      | Some value =>
          x ←? call value;
          splice variables ms (replace_range start stop (to_string x) result)
      end
  end.

(** [str::parse::<usize>()] of a run of digits. *)
Definition parse_usize (s : string) : option nat :=
  match digits 0 0 s with
  | (n, S _, "") => if n <=? u_max 64 then Some (Z.to_nat n) else None
  | _ => None
  end.

Definition process_integrate (context formula : string) (variables : gmap string f64)
    : st CalcState (res CalcError string) :=
  splice variables
    (rev (map (fun '(start, stop, var, f) =>
                 (start, stop, var, fun v => integrate utc context var v (default one (f ≫= parse_f64))))
              (re_integrate formula)))
    formula.

Definition process_moving_avg (context formula : string) (variables : gmap string f64)
    : st CalcState (res CalcError string) :=
  splice variables
    (rev (omap (fun '(start, stop, var, w) =>
                  window ← parse_usize w;
                  Some (start, stop, var, fun v => moving_avg context var v window))
               (re_moving_avg formula)))
    formula.

Definition process_rate_of_change (context formula : string) (variables : gmap string f64)
    : st CalcState (res CalcError string) :=
  splice variables
    (rev (map (fun '(start, stop, var) =>
                 (start, stop, var, fun v => rate_of_change utc context var v))
              (re_rate_of_change formula)))
    formula.

Definition process_stateful_functions (context formula : string) (variables : gmap string f64)
    : st CalcState (res CalcError string) :=
  r ←? process_integrate context formula variables;
  r ←? process_moving_avg context r variables;
  process_rate_of_change context r variables.

Definition evaluate (context formula : string) (variables : gmap string f64)
    : st CalcState (res CalcError f64) :=
  processed ←? process_stateful_functions context formula variables;
  mret (evaluate_simple processed variables).

End Evaluator.

(** ** Serialised states *)

Lemma json_f64_finite x : finite_doc (json_f64 x) = true.
Proof. unfold json_f64. destruct (is_finite x) eqn:E; [|done]. by cbn. Qed.

Lemma json_f64_back x : as_f64 (json_f64 x) = if is_finite x then Some x else None.
Proof. unfold json_f64. by destruct (is_finite x). Qed.

Lemma mapM_json_f64 l :
  mapM as_f64 (map json_f64 l) = if forallb is_finite l then Some l else None.
Proof.
  induction l as [|x l IH]; [done|]. cbn [map mapM forallb]. rewrite json_f64_back, IH.
  by destruct (is_finite x), (forallb is_finite l).
Qed.

Lemma forallb_json l : forallb finite_doc (map json_f64 l) = true.
Proof. apply forallb_forall. intros v [x [<- _]]%in_map_iff. apply json_f64_finite. Qed.

Section Facts.
Context `{JsonText}.

Lemma from_slice_moving_avg s :
  from_slice (print (serialize s)) = if forallb is_finite (values s) then Some s else None.
Proof.
  unfold from_slice. rewrite parse_print.
  - destruct s as [l p c].
    change (mapM as_f64 (map json_f64 l) ≫= (fun l' =>
              Some (MovingAvg l' (Z.to_nat (Z.of_nat p)) (Z.to_nat (Z.of_nat c)))) =
            if forallb is_finite l then Some (MovingAvg l p c) else None).
    rewrite mapM_json_f64, !Nat2Z.id. by destruct (forallb is_finite l).
  - cbn. by rewrite forallb_json.
Qed.

Definition i64_ok (n : Z) : Prop := - 2 ^ 63 ≤ n < 2 ^ 63.

Lemma json_i64_back t : i64_ok t → as_i64 (json_i64 t) = Some t.
Proof.
  unfold json_i64, i64_ok. intros Hi. destruct (0 <=? t) eqn:E; [|done]. cbn [as_i64].
  destruct (t <? 2 ^ 63) eqn:E'; [done|]. bool_to_prop. lia.
Qed.

Lemma from_slice_period s :
  i64_ok (period_start_ts s) →
  from_slice (print (serialize s)) = if is_finite (snapshot s) then Some s else None.
Proof.
  intros Hi. unfold from_slice. rewrite parse_print.
  - destruct s as [x t].
    change (as_f64 (json_f64 x) ≫= (fun x' => as_i64 (json_i64 t) ≫= (fun t' => Some (Period x' t'))) =
            if is_finite x then Some (Period x t) else None).
    rewrite json_f64_back. destruct (is_finite x); [|done]. by rewrite json_i64_back.
  - cbn [serialize period_serde finite_doc forallb]. rewrite json_f64_finite. unfold json_i64. by case_match.
Qed.

(** ** The moving average is the mean of the last samples *)

(** The ring buffer after samples [xs]: the last [n] of them, zeros before the
    first, rotated so that sample [j] sits at [j mod n]. *)
Definition recent (n : nat) (xs : list f64) : list f64 :=
  drop (length xs) (replicate n zero ++ xs).
Definition ring (n : nat) (xs : list f64) : MovingAvgState :=
  let p := (length xs mod n)%nat in
  MovingAvg (drop (n - p) (recent n xs) ++ take (n - p) (recent n xs)) p (min (length xs) n).

Definition last_samples (n : nat) (xs : list f64) : list f64 := drop (length xs - n) xs.

Lemma length_recent n xs : length (recent n xs) = n.
Proof. unfold recent. rewrite length_drop, length_app, length_replicate. lia. Qed.

Lemma length_ring n xs : length (values (ring n xs)) = n.
Proof.
  unfold ring. cbn. rewrite length_app, length_drop, length_take, length_recent. lia.
Qed.

Lemma recent_snoc n xs x : (0 < n)%nat → ∃ h t, recent n xs = h :: t ∧ recent n (xs ++ [x]) = t ++ [x].
Proof.
  intros Hn. destruct (recent n xs) as [|h t] eqn:E.
  { pose proof (length_recent n xs) as Hl. rewrite E in Hl. cbn in Hl. lia. }
  exists h, t. split; [done|]. unfold recent in *. rewrite length_app. cbn [length].
  rewrite app_assoc, drop_app_le by (rewrite length_app, length_replicate; lia).
  by rewrite <- drop_drop, E.
Qed.

Lemma ring_snoc n xs x :
  (0 < n)%nat → moving_avg_add x (ring n xs) = (average (ring n (xs ++ [x])), ring n (xs ++ [x])).
Proof.
  intros Hn. unfold moving_avg_add. rewrite length_ring.
  destruct (n =? 0)%nat eqn:E0; [bool_to_prop; lia|]. rewrite !length_ring.
  set (s' := MovingAvg _ _ _). assert (s' = ring n (xs ++ [x])) as ->; [|done]. subst s'.
  destruct (recent_snoc n xs x Hn) as (h & t & Hr & Hr').
  assert (length t = n - 1)%nat as Ht.
  { pose proof (length_recent n xs) as Hl. rewrite Hr in Hl. cbn in Hl. lia. }
  unfold ring. rewrite Hr, Hr', length_app. cbn [length values position count].
  set (p := (length xs mod n)%nat). assert (p < n)%nat as Hp by (apply Nat.mod_upper_bound; lia).
  assert ((length xs + 1) mod n = (p + 1) mod n)%nat as -> by (unfold p; by rewrite Nat.Div0.add_mod_idemp_l).
  rewrite (Nat.mod_small p n) by done. f_equal.
  - replace (n - p)%nat with (S (n - p - 1)) by lia. cbn [drop take].
    assert (p = length (drop (n - p - 1) t) + 0)%nat as Hlen by (rewrite length_drop; lia).
    rewrite Hlen at 1. rewrite insert_app_r. cbn.
    destruct (decide (p + 1 < n)%nat) as [Hlt|Hge].
    + rewrite (Nat.mod_small (p + 1)) by done. replace (n - (p + 1))%nat with (n - p - 1)%nat by lia.
      rewrite drop_app_le, take_app_le by lia. by rewrite <- app_assoc.
    + replace (p + 1)%nat with n by lia. rewrite Nat.Div0.mod_same, Nat.sub_0_r.
      replace (n - p - 1)%nat with O by lia. cbn.
      rewrite (drop_ge (t ++ [x])), (take_ge (t ++ [x])) by (rewrite length_app; cbn; lia). done.
  - destruct (min (length xs) n <? n)%nat eqn:E; bool_to_prop; lia.
Qed.

Lemma ring_values n xs :
  (0 < n)%nat → take (count (ring n xs)) (values (ring n xs)) ≡ₚ last_samples n xs.
Proof.
  intros Hn. unfold ring, last_samples. cbn. set (p := (length xs mod n)%nat).
  destruct (decide (length xs < n)%nat) as [Hlt|Hge].
  - replace (length xs - n)%nat with O by lia. rewrite Nat.min_l by lia.
    assert (p = length xs) as -> by (by apply Nat.mod_small).
    assert (drop (n - length xs) (recent n xs) = xs) as ->.
    { unfold recent. rewrite drop_drop. replace (length xs + (n - length xs))%nat with n by lia.
      by rewrite drop_app_ge, length_replicate, Nat.sub_diag by (rewrite length_replicate; lia). }
    by rewrite take_app_length, drop_0.
  - rewrite Nat.min_r by lia. rewrite take_ge.
    + rewrite Permutation_app_comm, take_drop. unfold recent.
      rewrite drop_app_ge, length_replicate by (rewrite length_replicate; lia). done.
    + rewrite length_app, length_drop, length_take, length_recent. lia.
Qed.

Lemma ring_average n xs :
  (0 < n)%nat → xs ≠ [] →
  ∃ l, l ≡ₚ last_samples n xs ∧ average (ring n xs) = div (sum l) (of_Z (Z.of_nat (length l))).
Proof.
  intros Hn Hxs. exists (take (count (ring n xs)) (values (ring n xs))). split; [by apply ring_values|].
  assert (0 < length xs)%nat by (destruct xs; [done|cbn; lia]).
  unfold average. rewrite length_ring, length_take, length_ring. cbn [count ring].
  rewrite (Nat.min_l (min _ _)) by lia.
  destruct (min (length xs) n =? 0)%nat eqn:E, (n =? 0)%nat eqn:E'; bool_to_prop; try lia. done.
Qed.

(** The calls with samples [xs]. *)
Fixpoint feed (context var : string) (n : nat) (xs : list f64) : st CalcState unit :=
  match xs with
  | [] => mret tt
  | x :: xs => _ ← moving_avg context var x n; feed context var n xs
  end.

Definition holds_window (context var : string) (n : nat) (xs : list f64) (s : CalcState) : Prop :=
  data s !! state_key context "moving_avg" var = Some (print (serialize (ring n xs))) ∨
  xs = [] ∧ data s !! state_key context "moving_avg" var = None.

Lemma ring_nil n : (0 < n)%nat → ring n [] = moving_avg_new n.
Proof.
  intros Hn. unfold ring, moving_avg_new, recent. cbn [length]. rewrite Nat.Div0.mod_0_l.
  rewrite Nat.sub_0_r, app_nil_r, drop_0, drop_ge, take_ge by (by rewrite length_replicate).
  by rewrite Nat.max_l by lia.
Qed.

Lemma finite_ring n xs :
  Forall (fun x => is_finite x = true) xs → forallb is_finite (values (ring n xs)) = true.
Proof.
  intros Hf. apply forallb_forall, List.Forall_forall.
  assert (Forall (fun x => is_finite x = true) (recent n xs)) as Hr.
  { apply Forall_drop, Forall_app. split; [|done]. by apply Forall_replicate. }
  apply Forall_app. split; [by apply Forall_drop|by apply Forall_take].
Qed.

Lemma moving_avg_step context var n xs x s :
  (0 < n)%nat → Forall (fun x => is_finite x = true) xs → holds_window context var n xs s →
  ∃ s', moving_avg context var x n s = (Ok (average (ring n (xs ++ [x]))), s') ∧
        holds_window context var n (xs ++ [x]) s'.
Proof.
  intros Hn Hf Hs. unfold moving_avg. replace (n =? 0)%nat with false by (destruct n; [lia|done]).
  set (key := state_key context "moving_avg" var) in *. unfold mbind, st_bind, store_get, gets.
  assert (match data s !! key with
          | Some t => match from_slice t with
                      | Some s0 => Some (if (length (values s0) =? n)%nat then s0 else moving_avg_new n)
                      | None => None
                      end
          | None => Some (moving_avg_new n)
          end = Some (ring n xs)) as E.
  { destruct Hs as [Hs|[-> Hs]]; fold key in Hs; rewrite Hs; [|by rewrite ring_nil].
    by rewrite from_slice_moving_avg, finite_ring, length_ring, Nat.eqb_refl by done. }
  rewrite E, ring_snoc by done. eexists. split; [done|]. left. apply lookup_insert_eq.
Qed.

Lemma feed_holds context var n xs ys s :
  (0 < n)%nat → Forall (fun x => is_finite x = true) (xs ++ ys) → holds_window context var n xs s →
  holds_window context var n (xs ++ ys) (feed context var n ys s).2.
Proof.
  intros Hn. revert xs s. induction ys as [|y ys IH]; intros xs s Hf Hs.
  - by rewrite app_nil_r.
  - cbn [feed]. unfold mbind, st_bind. pose proof Hf as [Hx _]%Forall_app.
    destruct (moving_avg_step context var n xs y s Hn Hx Hs) as (s' & -> & Hs').
    rewrite cons_middle, app_assoc in Hf |- *. by apply IH.
Qed.

(** [moving_avg] answers the mean of exactly the last [n] samples (of all of them
    while there are fewer), whatever finite samples came before; the ring
    buffer only permutes the order of summation. *)
Theorem moving_avg_window (context var : string) (n : nat) (xs : list f64) (x : f64) (s : CalcState) :
  (0 < n)%nat → Forall (fun x => is_finite x = true) xs →
  data s !! state_key context "moving_avg" var = None →
  ∃ l, l ≡ₚ last_samples n (xs ++ [x]) ∧
       (moving_avg context var x n (feed context var n xs s).2).1 =
       Ok (div (sum l) (of_Z (Z.of_nat (length l)))).
Proof.
  intros Hn Hf Hs.
  destruct (moving_avg_step context var n xs x (feed context var n xs s).2) as (s' & H1 & _); [done..| |].
  - apply (feed_holds context var n [] xs s); [done..|]. by right.
  - destruct (ring_average n (xs ++ [x])) as (l & Hl & Ha); [done|by destruct xs|].
    exists l. split; [done|]. by rewrite H1, Ha.
Qed.

(** A sample that is NaN or infinite destroys the average of its variable: the
    call that takes it succeeds, its buffer serialises as [null], and every later
    call for that variable, with any sample and any window, fails and leaves the
    stored state as it is. *)
Theorem moving_avg_poisoned (context var : string) (n : nat) (x a : f64) (s s' : CalcState) :
  is_finite x = false → moving_avg context var x n s = (Ok a, s') →
  ∀ y m, (0 < m)%nat → moving_avg context var y m s' = (Err CState, s').
Proof.
  intros Hx H1 y m Hm. unfold moving_avg in *. destruct (n =? 0)%nat eqn:E; [done|].
  set (key := state_key context "moving_avg" var) in *.
  replace (m =? 0)%nat with false by (destruct m; [lia|done]).
  unfold mbind, st_bind, store_get, gets in *.
  destruct (match data s !! key with Some _ => _ | None => _ end) as [s0|] eqn:E0; [|done].
  destruct (moving_avg_add x s0) as [avg s1] eqn:Ea.
  assert (s' = MkCalc (<[key := print (serialize s1)]> (data s)) (ticks s)) as -> by (by inversion H1).
  cbn [data].
  rewrite lookup_insert_eq, from_slice_moving_avg.
  assert (forallb is_finite (values s1) = false) as ->; [|done].
  unfold moving_avg_add in Ea. injection Ea as _ <-. cbn [values].
  set (s2 := if _ : bool then _ else _).
  assert (0 < length (values s2))%nat as Hl.
  { unfold s2. destruct (length (values s0) =? 0)%nat eqn:E2; [cbn; lia|bool_to_prop; lia]. }
  apply not_true_iff_false. intros Hall. rewrite forallb_forall in Hall.
  rewrite (Hall x) in Hx; [done|]. apply list_elem_of_In, (list_elem_of_lookup_2 _ (position s2 mod length (values s2))%nat).
  apply list_lookup_insert_eq. apply Nat.mod_upper_bound. lia.
Qed.

(** ** The delta of a period *)

Context `{Chrono}.
Variable utc : nat → Z.

Fixpoint readings (context var period : string) (vs : list f64)
    : st CalcState (list (res CalcError f64)) :=
  match vs with
  | [] => mret []
  | v :: vs =>
      r ← period_delta utc context var v period;
      rs ← readings context var period vs;
      mret (r :: rs)
  end.

Definition period_key (context var period : string) : string :=
  state_key context "period_delta" (var +:+ "_" +:+ period).

(** One call on a stored state. *)
Lemma period_delta_stored context var period v (st0 : PeriodDeltaState) s :
  i64_ok (period_start_ts st0) → is_finite (snapshot st0) = true →
  data s !! period_key context var period = Some (print (serialize st0)) →
  let st1 := period_step v (get_period_start (utc (ticks s)) period) st0 in
  period_delta utc context var v period s =
    (Ok (sub v (snapshot st1)),
     MkCalc (<[period_key context var period := print (serialize st1)]> (data s)) (S (ticks s))).
Proof.
  intros Hi Hf Hs. unfold period_delta, mbind, st_bind, utc_now, store_get, gets. cbn [data ticks].
  fold (period_key context var period). rewrite Hs, from_slice_period, Hf by done. done.
Qed.

Lemma readings_same_period context var period p v0 vs s :
  i64_ok p → is_finite v0 = true →
  (∀ t, get_period_start (utc t) period = p) → Forall (fun v => ltb v v0 = false) vs →
  data s !! period_key context var period = Some (print (serialize (Period v0 p))) →
  (readings context var period vs s).1 = map (fun v => Ok (sub v v0)) vs.
Proof.
  intros Hi Hf Hp. revert s. induction vs as [|v vs IH]; intros s Hvs Hs; [done|].
  apply Forall_cons in Hvs as [Hv Hvs]. cbn [readings map]. unfold mbind, st_bind.
  rewrite (period_delta_stored _ _ _ _ (Period v0 p)), Hp by done.
  assert (period_step v p (Period v0 p) = Period v0 p) as ->.
  { unfold period_step. cbn [period_start_ts snapshot]. rewrite Z.ltb_irrefl. cbn [snapshot].
    by rewrite Hv. }
  cbn [snapshot]. specialize (IH (MkCalc (<[period_key context var period :=
    print (serialize (Period v0 p))]> (data s)) (S (ticks s))) Hvs (lookup_insert_eq _ _ _)).
  destruct (readings _ _ _ vs _) as [rs s']. cbn in *. by rewrite IH.
Qed.

(** Within one period, [period_delta] of a counter that never falls below its
    first reading answers NaN at the first call and afterwards the growth since
    that first reading. *)
Theorem period_delta_growth (context var period : string) (p : Z) (v0 : f64) (vs : list f64)
    (s : CalcState) :
  i64_ok p → is_finite v0 = true → (∀ t, get_period_start (utc t) period = p) →
  Forall (fun v => ltb v v0 = false) vs → data s !! period_key context var period = None →
  (readings context var period (v0 :: vs) s).1 = Ok NAN :: map (fun v => Ok (sub v v0)) vs.
Proof.
  intros Hi Hf Hp Hvs Hs. cbn [readings]. unfold mbind, st_bind.
  assert (period_delta utc context var v0 period s =
    (Ok NAN, MkCalc (<[period_key context var period := print (serialize (Period v0 p))]> (data s))
               (S (ticks s)))) as ->.
  { unfold period_delta, mbind, st_bind, utc_now, store_get, gets. cbn [data ticks].
    fold (period_key context var period). by rewrite Hs, Hp. }
  set (s1 := MkCalc _ _).
  pose proof (readings_same_period context var period p v0 vs s1 Hi Hf Hp Hvs
                (lookup_insert_eq _ _ _)) as E.
  destruct (readings _ _ _ vs s1) as [rs s']. cbn in *. by rewrite E.
Qed.

(** A quarterly delta restarts on any day of the quarter whose number the
    quarter's first month does not have: there the computed period start is the
    current second, so the call discards the quarter's baseline and answers zero. *)
Theorem quarterly_baseline_lost (context var : string) (v : f64) (st0 : PeriodDeltaState)
    (s : CalcState) :
  let now := utc (ticks s) in
  let local := with_timezone now in
  i64_ok (period_start_ts st0) → is_finite (snapshot st0) = true → is_finite v = true →
  data s !! period_key context var "quarterly" = Some (print (serialize st0)) →
  period_start_ts st0 < now → with_month local ((month local - 1) / 3 * 3 + 1) = None →
  period_delta utc context var v "quarterly" s =
    (Ok zero,
     MkCalc (<[period_key context var "quarterly" := print (serialize (Period v now))]> (data s))
       (S (ticks s))).
Proof.
  intros now local Hi Hf Hv Hs Hlt Hm. rewrite (period_delta_stored _ _ _ _ st0) by done.
  assert (get_period_start (utc (ticks s)) "quarterly" = now) as ->.
  { unfold get_period_start. repeat (rewrite bool_decide_eq_false_2 by done).
    rewrite bool_decide_eq_true_2 by done. fold now. fold local. by rewrite Hm. }
  unfold period_step. destruct (period_start_ts st0 <? now) eqn:E; [|bool_to_prop; lia].
  cbn [snapshot]. rewrite ltb_leb, leb_refl by (by apply finite_not_nan). cbn [negb snapshot].
  by rewrite sub_self.
Qed.

End Facts.

(** ** Rules do not share state *)

(** The engine of rule [id] runs in this context. *)
Definition rule_context (id : Z) : string := "rule_" +:+ pretty id.

Lemma rule_context_inj a b : rule_context a = rule_context b → a = b.
Proof. unfold rule_context. intros H. by apply (inj pretty), (inj (String.append "rule_")). Qed.

Lemma state_key_context c c' f f' v v' :
  no_colon c = true → no_colon c' = true → state_key c f v = state_key c' f' v' → c = c'.
Proof.
  intros Hc Hc' H. unfold state_key in H. apply (inj (String.append "calc:state:")) in H.
  by apply colon_split in H as [-> _].
Qed.

Section Isolation.
Context `{JsonText} `{Chrono} `{Regexes} `{Evalexpr}.
Variable utc : nat → Z.

(** [m] leaves the states of every other context alone. *)
Definition confined {A} (c : string) (m : st CalcState A) : Prop :=
  ∀ s a s' c' f v, m s = (a, s') → no_colon c' = true → c ≠ c' →
  data s' !! state_key c' f v = data s !! state_key c' f v.

Lemma confined_ret {A} c (a : A) : confined c (mret a).
Proof. by intros s a' s' c' f v [= _ <-]. Qed.

Lemma confined_get {A} c (g : CalcState → A) : confined c (gets g).
Proof. by intros s a' s' c' f v [= _ <-]. Qed.

Lemma confined_now c : confined c (utc_now utc).
Proof. by intros s a' s' c' f v [= _ <-]. Qed.

Lemma confined_save {S} `{Serde S} c fn v (x : S) :
  no_colon c = true → confined c (save (state_key c fn v) x).
Proof.
  intros Hc s a s' c' f w [= _ <-] Hc' Hne. cbn [data]. apply lookup_insert_ne.
  intros Heq. by apply state_key_context in Heq.
Qed.

Lemma confined_bind {A B} c (m : st CalcState A) (f : A → st CalcState B) :
  confined c m → (∀ a, confined c (f a)) → confined c (m ≫= f).
Proof.
  intros Hm Hf s b s' c' g v Hr Hc' Hne. apply st_bind_inv in Hr as (a & s1 & HA & HB).
  rewrite (Hf a _ _ _ _ _ _ HB Hc' Hne). by eapply Hm.
Qed.

Lemma confined_try {E A B} c (m : st CalcState (res E A)) (f : A → st CalcState (res E B)) :
  confined c m → (∀ a, confined c (f a)) → confined c (st_try m f).
Proof.
  intros Hm Hf s b s' c' g v Hr Hc' Hne. unfold st_try in Hr.
  destruct (m s) as [[a|e|] s1] eqn:E1; [|injection Hr as _ <-..].
  - rewrite (Hf a _ _ _ _ _ _ Hr Hc' Hne). by eapply Hm.
  - by eapply Hm.
  - by eapply Hm.
Qed.

Ltac confine :=
  repeat first
    [ apply confined_ret | apply confined_get | apply confined_now
    | apply confined_save; done
    | apply confined_bind; [|intros ?] | apply confined_try; [|intros ?] | case_match ].

Lemma integrate_confined c v x f : no_colon c = true → confined c (integrate utc c v x f).
Proof. intros Hc. unfold integrate, store_get. confine. Qed.
Lemma moving_avg_confined c v x n : no_colon c = true → confined c (moving_avg c v x n).
Proof. intros Hc. unfold moving_avg, store_get. confine. Qed.
Lemma rate_confined c v x : no_colon c = true → confined c (rate_of_change utc c v x).
Proof. intros Hc. unfold rate_of_change, store_get. confine. Qed.
Lemma period_confined c v x p : no_colon c = true → confined c (period_delta utc c v x p).
Proof. intros Hc. unfold period_delta, store_get. confine. Qed.

Lemma splice_confined c vars ms r :
  Forall (fun m => ∀ x, confined c (m.2 x)) ms → confined c (splice vars ms r).
Proof.
  intros Hms. revert r. induction Hms as [|[[[a b] v] f] ms Hm _ IH]; intros r; cbn [splice].
  - apply confined_ret.
  - case_match; [|apply confined_ret]. apply confined_try; [apply Hm|intros; apply IH].
Qed.

Lemma evaluate_confined c formula vars : no_colon c = true → confined c (evaluate utc c formula vars).
Proof.
  intros Hc. unfold evaluate, process_stateful_functions. confine; apply splice_confined, Forall_rev.
  - apply Forall_map, Forall_forall. intros [[[? ?] ?] ?] _ ?. by apply integrate_confined.
  - apply Forall_forall. intros [[[? ?] ?] ?] Hin ?.
    apply list_elem_of_omap in Hin as ([[[? ?] ?] ?] & _ & Hw).
    apply bind_Some in Hw as (? & _ & [= <- <- <- <-]). by apply moving_avg_confined.
  - apply Forall_map, Forall_forall. intros [[? ?] ?] _ ?. by apply rate_confined.
Qed.

(** The engines of two rules share the store and nothing else: whatever rule [a]
    evaluates, formula or period delta, the stored states of rule [b] stay as
    they are. *)
Theorem rules_isolated (a b : Z) (formula var period : string) (vars : gmap string f64) (v : f64)
    (s : CalcState) :
  a ≠ b → ∀ f w,
  data (evaluate utc (rule_context a) formula vars s).2 !! state_key (rule_context b) f w =
    data s !! state_key (rule_context b) f w ∧
  data (period_delta utc (rule_context a) var v period s).2 !! state_key (rule_context b) f w =
    data s !! state_key (rule_context b) f w.
Proof.
  intros Hab f w. assert (∀ i, no_colon (rule_context i) = true) as Hc.
  { intros i. unfold rule_context. rewrite no_colon_app, pretty_Z_no_colon. done. }
  assert (rule_context a ≠ rule_context b) by (intros E; by apply Hab, rule_context_inj).
  split; [destruct (evaluate _ _ _ _ s) eqn:E|destruct (period_delta _ _ _ _ _ s) eqn:E].
  - by eapply evaluate_confined.
  - by eapply period_confined.
Qed.

End Isolation.


(** ** Sample instances *)

Module Sample.

(** Documents kept as they are. *)
#[local] Instance plain_text : JsonText := { text := Value; print v := v; parse v := Some v; parse_print v _ := eq_refl }.

(** The proleptic Gregorian calendar in UTC; a date is (year, month, day). *)
Definition days_from_civil (y m d : Z) : Z :=
  let y := if m <=? 2 then y - 1 else y in
  let era := y / 400 in
  let yoe := y - era * 400 in
  let doy := (153 * (if 2 <? m then m - 3 else m + 9) + 2) / 5 + d - 1 in
  era * 146097 + (yoe * 365 + yoe / 4 - yoe / 100 + doy) - 719468.

Definition civil_from_days (z : Z) : Z * Z * Z :=
  let z := z + 719468 in
  let era := z / 146097 in
  let doe := z - era * 146097 in
  let yoe := (doe - doe / 1460 + doe / 36524 - doe / 146096) / 365 in
  let doy := doe - (365 * yoe + yoe / 4 - yoe / 100) in
  let mp := (5 * doy + 2) / 153 in
  let d := doy - (153 * mp + 2) / 5 + 1 in
  let m := if mp <? 10 then mp + 3 else mp - 9 in
  (yoe + era * 400 + (if m <=? 2 then 1 else 0), m, d).

Definition days_in_month (y m : Z) : Z :=
  if m =? 12 then 31 else days_from_civil y (m + 1) 1 - days_from_civil y m 1.

#[local] Instance utc_calendar : Chrono := {
  DateTime := Z * Z * Z;
  with_timezone t := civil_from_days (t / 86400);
  month '(y, m, d) := m;
  num_days_from_monday '(y, m, d) := (days_from_civil y m d + 3) mod 7;
  sub_days '(y, m, d) n := civil_from_days (days_from_civil y m d - n);
  with_month '(y, m, d) m' := if d <=? days_in_month y m' then Some (y, m', d) else None;
  with_day '(y, m, d) d' := if d' <=? days_in_month y m then Some (y, m, d') else None;
  local_midnight '(y, m, d) := Some (days_from_civil y m d * 86400) }.

(** One formula with one stateful call. *)
#[local] Instance one_regex : Regexes := {
  re_integrate _ := [];
  re_moving_avg s := if bool_decide (s = "moving_avg(P, 3)") then [(O, 16%nat, "P", "3")] else [];
  re_rate_of_change _ := [] }.
#[local] Instance number_eval : Evalexpr := {
  eval_with_context _ _ s := EFloat <$> parse_f64 s; powi10 n := decimal false 1 n }.

Definition empty : CalcState := MkCalc ∅ 0.
Definition noon (y m d : Z) : Z := days_from_civil y m d * 86400 + 43200.

(** Samples 1 2 3 4 with a window of three. *)
Example moving_avg_run :
  (moving_avg "c" "P" (of_Z 4) 3 (feed "c" "P" 3 [of_Z 1; of_Z 2; of_Z 3] empty).2).1 = Ok (of_Z 3).
Proof. by vm_compute. Qed.

Lemma moving_avg_window_witness :
  ∃ l, l ≡ₚ last_samples 3 ([of_Z 1; of_Z 2; of_Z 3] ++ [of_Z 4]) ∧
       (moving_avg "c" "P" (of_Z 4) 3 (feed "c" "P" 3 [of_Z 1; of_Z 2; of_Z 3] empty).2).1 =
       Ok (div (sum l) (of_Z (Z.of_nat (length l)))).
Proof. apply moving_avg_window; [lia|by repeat constructor|done]. Defined.

(** A first [rate_of_change] is NaN; averaging it breaks the average for good. *)
Lemma moving_avg_poisoned_witness :
  let s1 := (moving_avg "c" "P" NAN 3 empty).2 in
  moving_avg "c" "P" NAN 3 empty = (Ok NAN, s1) ∧
  moving_avg "c" "P" (of_Z 1) 3 s1 = (Err CState, s1).
Proof.
  assert (moving_avg "c" "P" NAN 3 empty = (Ok NAN, (moving_avg "c" "P" NAN 3 empty).2)) as E
    by (by vm_compute).
  split; [exact E|]. apply (moving_avg_poisoned "c" "P" 3 NAN NAN empty); [done|exact E|lia].
Defined.

Lemma period_delta_growth_witness :
  (readings (fun _ => noon 2026 3 5) "c" "E" "monthly" (of_Z 100 :: [of_Z 130; of_Z 160]) empty).1 =
  [Ok NAN; Ok (of_Z 30); Ok (of_Z 60)].
Proof.
  rewrite (period_delta_growth (fun _ => noon 2026 3 5) "c" "E" "monthly" (noon 2026 3 1 - 43200));
    [by vm_compute|by vm_compute|done|done|by repeat constructor|done].
Defined.

(** Readings on 2 April, 30 May, 31 May and 1 June: on 31 May the baseline of 2
    April is lost. *)
Definition quarter_clock (t : nat) : Z :=
  nth t [noon 2026 4 2; noon 2026 5 30; noon 2026 5 31; noon 2026 6 1] 0.

Example quarterly_run :
  (readings quarter_clock "c" "E" "quarterly" (map of_Z [100; 160; 161; 162]) empty).1 =
  [Ok NAN; Ok (of_Z 60); Ok zero; Ok (of_Z 1)].
Proof. by vm_compute. Qed.

Definition before_may_31 : CalcState :=
  MkCalc {[period_key "c" "E" "quarterly" := serialize (Period (of_Z 100) (noon 2026 4 1 - 43200))]} 2.

Lemma quarterly_baseline_lost_witness :
  period_delta quarter_clock "c" "E" (of_Z 161) "quarterly" before_may_31 =
  (Ok zero,
   MkCalc (<[period_key "c" "E" "quarterly" := serialize (Period (of_Z 161) (noon 2026 5 31))]>
             (data before_may_31)) 3).
Proof.
  apply (quarterly_baseline_lost quarter_clock "c" "E" (of_Z 161)
           (Period (of_Z 100) (noon 2026 4 1 - 43200)) before_may_31);
    [by vm_compute|done|done|apply lookup_singleton_eq|by vm_compute|by vm_compute].
Defined.

Lemma rules_isolated_witness :
  let s := (evaluate quarter_clock (rule_context 2) "moving_avg(P, 3)" {["P" := of_Z 5]} empty).2 in
  data s !! state_key (rule_context 2) "moving_avg" "P" ≠ None ∧
  data (evaluate quarter_clock (rule_context 1) "moving_avg(P, 3)" {["P" := of_Z 7]} s).2 !!
    state_key (rule_context 2) "moving_avg" "P" =
  data s !! state_key (rule_context 2) "moving_avg" "P".
Proof.
  intros s. split; [by vm_compute|].
  exact (proj1 (rules_isolated quarter_clock 1 2 "moving_avg(P, 3)" "" "" {["P" := of_Z 7]} zero s
                  ltac:(done) "moving_avg" "P")).
Defined.

End Sample.

End Calc.
