(* ===== verification/Rules.v ===== *)
(** * Rule flows and their parser (libs/aether-rules/src/{types,error,parser}.rs)

    The execution structure of a rule and its extraction from the editor's
    document.  A [HashMap<String, _>] is a finite map; a document is a [Value]
    of [Json.v].  Error texts are dropped. *)

From stdpp Require Import base tactics numbers list strings gmap.
From S2P Require Import Prelude Float Json.

Module Rules.
Import Float Json.

(** ** Types (types.rs, error.rs) *)

Inductive RuleError :=
| NotFound | AlreadyExists | InvalidFormat | ParseError | ExecutionError | ConditionError
| ActionError | DatabaseError | SerializationError | SchedulerError | RoutingError.

Record RuleWires := Wires { wires_default : list string }.

Record RuleVariable := Variable_ {
  v_name : string;
  v_instance : option Z;
  v_point_type : option string;
  v_point : option Z;
  v_formula : list Value }.

Record FlowCondition := Condition {
  cond_type : string;
  c_variables : option string;
  c_operator : option string;
  c_value : option Value }.

Record RuleSwitchBranch := Branch {
  b_name : string;
  b_rule_type : string;
  b_rule : list FlowCondition }.

Record RuleValueAssignment := Assignment { a_variables : string; a_value : Value }.

Record CalculationRule := Calculation_ { calc_output : string; calc_formula : string }.

Inductive RuleNode :=
| NStart (wires : RuleWires)
| NEnd
| NSwitch (variables : list RuleVariable) (rule : list RuleSwitchBranch)
          (wires : gmap string (list string))
| NChangeValue (variables : list RuleVariable) (rule : list RuleValueAssignment) (wires : RuleWires)
| NCalculation (variables : list RuleVariable) (rule : list CalculationRule) (wires : RuleWires)
| NPeriodDelta (input output : RuleVariable) (period : string) (wires : RuleWires).

Record RuleFlow := Flow { start_node : string; nodes : gmap string RuleNode }.

Record Rule := MkRule {
  rule_id : Z;
  rule_name : string;
  description : option string;
  enabled : bool;
  priority : Z;
  cooldown_ms : Z;
  trigger_config : option string;
  flow : RuleFlow }.

#[global] Instance wires_eq_dec : EqDecision RuleWires.
Proof. solve_decision. Defined.
#[global] Instance variable_eq_dec : EqDecision RuleVariable.
Proof. solve_decision. Defined.
#[global] Instance condition_eq_dec : EqDecision FlowCondition.
Proof. solve_decision. Defined.
#[global] Instance branch_eq_dec : EqDecision RuleSwitchBranch.
Proof. solve_decision. Defined.
#[global] Instance assignment_eq_dec : EqDecision RuleValueAssignment.
Proof. solve_decision. Defined.
#[global] Instance calculation_eq_dec : EqDecision CalculationRule.
Proof. solve_decision. Defined.
#[global] Instance node_eq_dec : EqDecision RuleNode.
Proof. solve_decision. Defined.
#[global] Instance flow_eq_dec : EqDecision RuleFlow.
Proof. solve_decision. Defined.

(** ** Extraction (parser.rs) *)

Notation parse := (res RuleError).

(** [iter().map(f).collect::<Result<Vec<_>>>()] and the loops that push. *)
Fixpoint traverse {A B} (f : A → parse B) (l : list A) : parse (list B) :=
  match l with
  | [] => Ok []
  | a :: l => b ← f a; bs ← traverse f l; Ok (b :: bs)
  end.

Definition strings (l : list Value) : list string := omap as_str l.

Definition extract_rule_wires_default (data : option Value) : RuleWires :=
  let base := match data ≫= get "config" with Some c => Some c | None => data end in
  Wires (from_option strings [] (((base ≫= get "wires") ≫= get "default") ≫= as_array)).

Definition u32_of (v : Value) : option Z :=
  n ← as_u64 v; if n <=? u_max 32 then Some n else None.

Definition or_get (k1 k2 : string) (v : Value) : option Value :=
  match get k1 v with Some x => Some x | None => get k2 v end.

Definition parse_rule_variable (var : Value) : parse RuleVariable :=
  name ← ok_or (get "name" var ≫= as_str) ParseError;
  let instance := or_get "instance" "instance_id" var ≫= u32_of in
  let point_type := get "pointType" var ≫= as_str in
  let point := or_get "point_id" "point" var ≫= u32_of in
  let formula := default [] (get "formula" var ≫= as_array) in
  Ok (Variable_ name instance point_type point formula).

Definition extract_single_rule_variable (value : option Value) : parse RuleVariable :=
  var ← ok_or value ParseError;
  parse_rule_variable var.

Definition extract_rule_variables (config : Value) : parse (list RuleVariable) :=
  match get "variables" config ≫= as_array with
  | Some arr => traverse parse_rule_variable arr
  | None => Ok []
  end.

Definition extract_flow_condition (item : Value) : FlowCondition :=
  Condition (default "variable" (get "type" item ≫= as_str))
    (get "variables" item ≫= as_str) (get "operator" item ≫= as_str) (get "value" item).

Definition extract_flow_conditions (rule : Value) : list FlowCondition :=
  match get "rule" rule ≫= as_array with
  | Some arr => map extract_flow_condition arr
  | None => []
  end.

Definition extract_branch (rule : Value) : parse RuleSwitchBranch :=
  name ← ok_or (get "name" rule ≫= as_str) ParseError;
  let rule_type := default "default" (get "type" rule ≫= as_str) in
  Ok (Branch name rule_type (extract_flow_conditions rule)).

Definition extract_rule_switch_branches (config : Value) : parse (list RuleSwitchBranch) :=
  match get "rule" config ≫= as_array with
  | Some arr => traverse extract_branch arr
  | None => Ok []
  end.

Definition extract_assignment (rule : Value) : parse RuleValueAssignment :=
  variables ← ok_or (get "Variables" rule ≫= as_str) ParseError;
  value ← ok_or (get "value" rule) ParseError;
  Ok (Assignment variables value).

Definition extract_rule_value_assignments (config : Value) : parse (list RuleValueAssignment) :=
  match get "rule" config ≫= as_array with
  | Some arr => traverse extract_assignment arr
  | None => Ok []
  end.

Definition extract_calculation (rule : Value) : parse CalculationRule :=
  output ← ok_or (get "output" rule ≫= as_str) ParseError;
  formula ← ok_or (get "formula" rule ≫= as_str) ParseError;
  Ok (Calculation_ output formula).

Definition extract_calculation_rules (config : Value) : parse (list CalculationRule) :=
  match get "rule" config ≫= as_array with
  | Some arr => traverse extract_calculation arr
  | None => Ok []
  end.

(** Inserting in iteration order. *)
Definition extract_rule_wires_map (config : Value) : gmap string (list string) :=
  match get "wires" config ≫= as_object with
  | Some obj =>
      fold_left (fun m '(k, v) => <[k := from_option strings [] (as_array v)]> m) obj ∅
  | None => ∅
  end.

Definition extract_switch_rule_node (data : option Value) : parse RuleNode :=
  config ← ok_or (data ≫= get "config") ParseError;
  variables ← extract_rule_variables config;
  rule ← extract_rule_switch_branches config;
  Ok (NSwitch variables rule (extract_rule_wires_map config)).

(** [config.map(f).transpose()?.unwrap_or_default()] *)
Definition optional {A} (f : Value → parse (list A)) (config : option Value) : parse (list A) :=
  match config with Some c => f c | None => Ok [] end.

Definition extract_change_value_rule_node (data : option Value) : parse RuleNode :=
  let config := data ≫= get "config" in
  variables ← optional extract_rule_variables config;
  rule ← optional extract_rule_value_assignments config;
  Ok (NChangeValue variables rule (extract_rule_wires_default config)).

Definition extract_calculation_rule_node (data : option Value) : parse RuleNode :=
  let config := data ≫= get "config" in
  variables ← optional extract_rule_variables config;
  rule ← optional extract_calculation_rules config;
  Ok (NCalculation variables rule (extract_rule_wires_default config)).

Definition PERIODS : list string := ["daily"; "weekly"; "monthly"; "quarterly"].

Definition extract_period_delta_rule_node (data : option Value) : parse RuleNode :=
  config ← ok_or (data ≫= get "config") ParseError;
  input ← extract_single_rule_variable (get "input" config);
  output ← extract_single_rule_variable (get "output" config);
  period ← ok_or (get "period" config ≫= as_str) ParseError;
  if bool_decide (period ∈ PERIODS)
  then Ok (NPeriodDelta input output period (extract_rule_wires_default (Some config)))
  else Err ParseError.

(** One node of the document, and whether it is a start node. *)
Definition extract_node (node_type : string) (data : option Value) : parse (bool * RuleNode) :=
  if bool_decide (node_type = "start") then Ok (true, NStart (extract_rule_wires_default data))
  else if bool_decide (node_type = "end") then Ok (false, NEnd)
  else if bool_decide (node_type = "custom") then
    let inner_type := default "" ((data ≫= get "type") ≫= as_str) in
    n ← (if bool_decide (inner_type = "function-switch") then extract_switch_rule_node data
         else if bool_decide (inner_type = "action-changeValue") then
           extract_change_value_rule_node data
         else if bool_decide (inner_type = "action-calculation") then
           extract_calculation_rule_node data
         else if bool_decide (inner_type = "action-periodDelta") then
           extract_period_delta_rule_node data
         else Err ParseError);
    Ok (false, n)
  else Err ParseError.

Fixpoint extract_nodes (docs : list Value) (start : string) (m : gmap string RuleNode)
    : parse (string * gmap string RuleNode) :=
  match docs with
  | [] => Ok (start, m)
  | node :: docs =>
      node_id ← ok_or (get "id" node ≫= as_str) ParseError;
      let node_type := default "custom" (get "type" node ≫= as_str) in
      '(is_start, n) ← extract_node node_type (get "data" node);
      extract_nodes docs (if (is_start : bool) then node_id else start) (<[node_id := n]> m)
  end.

Definition extract_rule_flow (full_json : Value) : parse RuleFlow :=
  nodes_array ← ok_or (get "nodes" full_json ≫= as_array) ParseError;
  '(start, m) ← extract_nodes nodes_array "" ∅;
  if bool_decide (start = "") then Err ParseError else Ok (Flow start m).

(** ** What an accepted flow guarantees *)

Definition id_ok (o : option Z) : Prop := from_option (in_u 32) True o.
Definition variable_ok (v : RuleVariable) : Prop := id_ok (v_instance v) ∧ id_ok (v_point v).

Definition node_ok (n : RuleNode) : Prop :=
  match n with
  | NStart _ | NEnd => True
  | NSwitch vs _ _ | NChangeValue vs _ _ | NCalculation vs _ _ => Forall variable_ok vs
  | NPeriodDelta i o p _ => variable_ok i ∧ variable_ok o ∧ p ∈ PERIODS
  end.

(** The identifiers of the document's nodes. *)
Definition doc_ids (docs : list Value) : list (option string) :=
  map (fun d => get "id" d ≫= as_str) docs.

(** Naturals in documents are what serde_json can hold. *)
Fixpoint doc_ok (v : Value) : Prop :=
  match v with
  | Num (PosInt n) => 0 ≤ n
  | Arr l => (fix go l := match l with [] => True | v :: l => doc_ok v ∧ go l end) l
  | Obj l => (fix go l := match l with [] => True | (_, v) :: l => doc_ok v ∧ go l end) l
  | _ => True
  end.

Lemma doc_ok_get k v x : doc_ok v → get k v = Some x → doc_ok x.
Proof.
  destruct v as [| | | | |l]; try done. cbn [get]. induction l as [|[k' v] l IH]; [done|].
  cbn. intros [Hv Hl]. case_bool_decide; [by intros [= ->]|auto].
Qed.

Lemma doc_ok_array v l : doc_ok v → as_array v = Some l → Forall doc_ok l.
Proof.
  destruct v as [| | | |l'|]; try done. intros H [= ->]. induction l as [|v l IH]; [constructor|].
  destruct H as [Hv Hl]. constructor; auto.
Qed.

Lemma u32_of_ok v n : doc_ok v → u32_of v = Some n → in_u 32 n.
Proof.
  unfold u32_of. intros Hv H. apply bind_Some in H as (m & Hm & H).
  destruct v as [| |[z|z|z]| | |]; try done. injection Hm as ->. case_if; [|done].
  injection H as ->. bool_to_prop. unfold in_u, u_max in *. cbn in Hv. lia.
Qed.

Lemma traverse_Forall {A B} (f : A → parse B) (P : A → Prop) (Q : B → Prop) l bs :
  (∀ a b, P a → f a = Ok b → Q b) → Forall P l → traverse f l = Ok bs → Forall Q bs.
Proof.
  intros H HP. revert bs. induction HP as [|a l Ha _ IH]; intros bs; cbn [traverse].
  - intros [= <-]. constructor.
  - intros Hb. apply res_bind_Ok in Hb as (b & Hb & H1). apply res_bind_Ok in H1 as (bs' & H1 & H2).
    apply Ok_inj in H2 as <-. constructor; eauto.
Qed.

Lemma parse_rule_variable_ok d v : doc_ok d → parse_rule_variable d = Ok v → variable_ok v.
Proof.
  intros Hd H. unfold parse_rule_variable in H. apply res_bind_Ok in H as (n & _ & H).
  apply Ok_inj in H as <-.
  assert (∀ k1 k2, id_ok (or_get k1 k2 d ≫= u32_of)) as Hid.
  { intros k1 k2. unfold id_ok. destruct (or_get k1 k2 d ≫= u32_of) as [x|] eqn:E; [|done].
    apply bind_Some in E as (v & Hv & E). apply (u32_of_ok v); [|done].
    unfold or_get in Hv. destruct (get k1 d) eqn:E1; [injection Hv as ->|];
      by eapply doc_ok_get. }
  split; apply Hid.
Qed.

Lemma extract_rule_variables_ok c vs :
  doc_ok c → extract_rule_variables c = Ok vs → Forall variable_ok vs.
Proof.
  intros Hc. unfold extract_rule_variables.
  destruct (get "variables" c ≫= as_array) as [arr|] eqn:E; [|by intros [= <-]].
  apply bind_Some in E as (v & Hv & E). apply (traverse_Forall _ doc_ok).
  - apply parse_rule_variable_ok.
  - by eapply doc_ok_array; [eapply doc_ok_get|].
Qed.

(** Opens the binds of a successful extraction. *)
Ltac open_binds H :=
  repeat (let x := fresh "x" in let E := fresh "E" in apply res_bind_Ok in H as (x & E & H)).

Lemma extract_node_ok t d b n :
  from_option doc_ok True d → extract_node t d = Ok (b, n) → node_ok n.
Proof.
  intros Hd. unfold extract_node.
  assert (∀ c, d ≫= get "config" = Some c → doc_ok c) as Hc.
  { intros c H. apply bind_Some in H as (v & -> & H). by eapply doc_ok_get. }
  repeat case_bool_decide; try done; intros H'; try (by apply Ok_inj in H' as [= <- <-]).
  all: apply res_bind_Ok in H' as (m & Hm & H'); apply Ok_inj in H' as [= _ <-].
  - unfold extract_switch_rule_node in Hm. open_binds Hm. apply Ok_inj in Hm as <-.
    apply ok_or_Ok in E. eapply extract_rule_variables_ok; [by apply Hc|done].
  - unfold extract_change_value_rule_node, optional in Hm. open_binds Hm. apply Ok_inj in Hm as <-.
    destruct (d ≫= get "config") as [c|]; [|injection E as <-; constructor].
    eapply extract_rule_variables_ok; [by apply Hc|done].
  - unfold extract_calculation_rule_node, optional in Hm. open_binds Hm. apply Ok_inj in Hm as <-.
    destruct (d ≫= get "config") as [c|]; [|injection E as <-; constructor].
    eapply extract_rule_variables_ok; [by apply Hc|done].
  - unfold extract_period_delta_rule_node, extract_single_rule_variable in Hm. open_binds Hm.
    apply ok_or_Ok in E. specialize (Hc x E). case_bool_decide; [|done]. apply Ok_inj in Hm as <-.
    apply res_bind_Ok in E0 as (v & Hv & E0), E1 as (v' & Hv' & E1). apply ok_or_Ok in Hv, Hv'.
    split_and!; [| |done]; eapply parse_rule_variable_ok; [|done| |done]; by eapply doc_ok_get.
Qed.

Lemma extract_node_start t d n : extract_node t d = Ok (true, n) → ∃ w, n = NStart w.
Proof.
  unfold extract_node. repeat case_bool_decide; try done; intros H'.
  1: apply Ok_inj in H' as [= <-]; by eexists.
  all: apply res_bind_Ok in H' as (m & _ & H'); by apply Ok_inj in H'.
Qed.

Lemma extract_nodes_inv docs start m start' m' :
  Forall doc_ok docs → extract_nodes docs start m = Ok (start', m') →
  map_Forall (fun _ n => node_ok n) m → (start ≠ "" → is_Some (m !! start)) →
  map_Forall (fun _ n => node_ok n) m' ∧ (start' ≠ "" → is_Some (m' !! start')) ∧
  (NoDup (doc_ids docs) →
   (start ≠ "" → (∃ w, m !! start = Some (NStart w)) ∧ Some start ∉ doc_ids docs) →
   start' ≠ "" → ∃ w, m' !! start' = Some (NStart w)).
Proof.
  intros Hd. revert start m. induction Hd as [|d docs Hd _ IH]; intros start m H Hm Hs.
  { cbn in H. apply Ok_inj in H as [= <- <-]. split_and!; [done..|]. intros _ H. by apply H. }
  cbn [extract_nodes] in H. apply res_bind_Ok in H as (i & Hi & H). apply ok_or_Ok in Hi.
  apply res_bind_Ok in H as ([b n] & Hn & H).
  assert (node_ok n) as Hok.
  { eapply (extract_node_ok _ (get "data" d)); [|done].
    destruct (get "data" d) eqn:E; [|done]. by eapply doc_ok_get. }
  apply IH in H as (H1 & H2 & H3).
  - split; [done|]. split; [done|]. cbn [doc_ids map]. rewrite Hi. fold (doc_ids docs).
    intros [Hni Hnd]%NoDup_cons Hstart. apply H3; [done|]. destruct b; intros Hne.
    + destruct (extract_node_start _ _ _ Hn) as [w ->]. split; [|done].
      exists w. apply lookup_insert_eq.
    + destruct (Hstart Hne) as [(w & Hw) Hno]. apply not_elem_of_cons in Hno as [Hno1 Hno2].
      split; [|done]. exists w. rewrite lookup_insert_ne by congruence. done.
  - by apply map_Forall_insert_2.
  - destruct b; intros Hne; [rewrite lookup_insert_eq; by eexists|].
    destruct (decide (i = start)) as [->|Hne']; [rewrite lookup_insert_eq; by eexists|].
    rewrite lookup_insert_ne by done. by apply Hs.
Qed.

(** C40. An accepted document yields a well-typed flow: its start node exists, every
    instance and point identifier fits [u32], every period is a known one; and
    when the document repeats no node identifier the start node is a [Start]. *)
Theorem extract_rule_flow_well_typed (doc : Value) (docs : list Value) (f : RuleFlow) :
  doc_ok doc → get "nodes" doc ≫= as_array = Some docs → extract_rule_flow doc = Ok f →
  is_Some (nodes f !! start_node f) ∧ map_Forall (fun _ n => node_ok n) (nodes f) ∧
  (NoDup (doc_ids docs) → ∃ w, nodes f !! start_node f = Some (NStart w)).
Proof.
  intros Hdoc Hdocs H. unfold extract_rule_flow in H. rewrite Hdocs in H.
  apply res_bind_Ok in H as (l & Hl & H). injection Hl as <-.
  apply res_bind_Ok in H as ([start m] & Hm & H). case_bool_decide; [done|].
  apply Ok_inj in H as <-. cbn [nodes start_node].
  apply bind_Some in Hdocs as (v & Hv & Hl).
  eapply extract_nodes_inv in Hm as (H1 & H2 & H3); [| |apply map_Forall_empty|done].
  - split_and!; [by apply H2|done|]. intros Hnd. by apply H3.
  - by eapply doc_ok_array; [eapply doc_ok_get|].
Qed.

(** ** The document of a flow *)

Definition opt (k : string) (o : option Value) : list (string * Value) :=
  match o with Some v => [(k, v)] | None => [] end.
Definition num (z : Z) : Value := Num (PosInt z).

Definition variable_doc (v : RuleVariable) : Value :=
  Obj ([("name", Str (v_name v))] ++ opt "instance" (num <$> v_instance v) ++
       opt "pointType" (Str <$> v_point_type v) ++ opt "point_id" (num <$> v_point v) ++
       [("formula", Arr (v_formula v))]).
Definition condition_doc (c : FlowCondition) : Value :=
  Obj ([("type", Str (cond_type c))] ++ opt "variables" (Str <$> c_variables c) ++
       opt "operator" (Str <$> c_operator c) ++ opt "value" (c_value c)).
Definition branch_doc (b : RuleSwitchBranch) : Value :=
  Obj [("name", Str (b_name b)); ("type", Str (b_rule_type b));
       ("rule", Arr (map condition_doc (b_rule b)))].
Definition assignment_doc (a : RuleValueAssignment) : Value :=
  Obj [("Variables", Str (a_variables a)); ("value", a_value a)].
Definition calculation_doc (c : CalculationRule) : Value :=
  Obj [("output", Str (calc_output c)); ("formula", Str (calc_formula c))].
Definition targets_doc (l : list string) : Value := Arr (map Str l).
Definition wires_doc (w : RuleWires) : Value := Obj [("default", targets_doc (wires_default w))].
Definition wires_map_doc (m : gmap string (list string)) : Value :=
  Obj (map (fun '(k, l) => (k, targets_doc l)) (map_to_list m)).

Definition custom (t : string) (config : list (string * Value)) : string * Value :=
  ("custom", Obj [("type", Str t); ("config", Obj config)]).

(** The [type] and [data] of a node. *)
Definition node_data (n : RuleNode) : string * Value :=
  match n with
  | NStart w => ("start", Obj [("config", Obj [("wires", wires_doc w)])])
  | NEnd => ("end", Null)
  | NSwitch vs r w =>
      custom "function-switch"
        [("variables", Arr (map variable_doc vs)); ("rule", Arr (map branch_doc r));
         ("wires", wires_map_doc w)]
  | NChangeValue vs r w =>
      custom "action-changeValue"
        [("variables", Arr (map variable_doc vs)); ("rule", Arr (map assignment_doc r));
         ("wires", wires_doc w)]
  | NCalculation vs r w =>
      custom "action-calculation"
        [("variables", Arr (map variable_doc vs)); ("rule", Arr (map calculation_doc r));
         ("wires", wires_doc w)]
  | NPeriodDelta i o p w =>
      custom "action-periodDelta"
        [("input", variable_doc i); ("output", variable_doc o); ("period", Str p);
         ("wires", wires_doc w)]
  end.

Definition node_doc (p : string * RuleNode) : Value :=
  Obj [("id", Str p.1); ("type", Str (node_data p.2).1); ("data", (node_data p.2).2)].
Definition flow_doc (f : RuleFlow) : Value :=
  Obj [("nodes", Arr (map node_doc (map_to_list (nodes f))))].

Definition is_start (n : RuleNode) : bool := match n with NStart _ => true | _ => false end.

(** A flow a document can describe: its one start node is named. *)
Definition flow_ok (f : RuleFlow) : Prop :=
  start_node f ≠ "" ∧ map_Forall (fun _ n => node_ok n) (nodes f) ∧
  ∀ i n, nodes f !! i = Some n → is_start n = bool_decide (i = start_node f).

Lemma traverse_map {A B} (f : A → parse B) (g : B → A) l :
  Forall (fun b => f (g b) = Ok b) l → traverse f (map g l) = Ok l.
Proof. induction 1 as [|b l Hb _ IH]; cbn [traverse map]; [done|]. by rewrite Hb, IH. Qed.

Lemma strings_doc l : strings (map Str l) = l.
Proof. induction l as [|s l IH]; cbn; [done|]. unfold strings in IH. by rewrite IH. Qed.

Lemma u32_of_num z : in_u 32 z → u32_of (num z) = Some z.
Proof.
  intros [_ H]. unfold u32_of. cbn [num as_u64 mbind option_bind].
  destruct (Z.leb_spec z (u_max 32)); [done|unfold u_max in *; lia].
Qed.

Lemma parse_variable_doc v : variable_ok v → parse_rule_variable (variable_doc v) = Ok v.
Proof.
  destruct v as [n i t p f]. intros [Hi Hp]. cbn in Hi, Hp.
  assert (∀ o, id_ok o → (num <$> o) ≫= u32_of = o) as Hu.
  { intros [z|]; [|done]. apply u32_of_num. }
  rewrite <- (Hu i Hi), <- (Hu p Hp) at 2.
  by destruct i, p, t.
Qed.

Lemma parse_variable_docs vs :
  Forall variable_ok vs → traverse parse_rule_variable (map variable_doc vs) = Ok vs.
Proof.
  intros H. apply traverse_map. eapply Forall_impl; [exact H|]. apply parse_variable_doc.
Qed.

Lemma extract_branch_doc b : extract_branch (branch_doc b) = Ok b.
Proof.
  destruct b as [n t r].
  change (Ok (Branch n t (map extract_flow_condition (map condition_doc r)))
    = Ok (Branch n t r) :> parse _).
  rewrite map_map. do 2 f_equal. transitivity (map (fun c => c) r); [|apply map_id].
  apply map_ext. intros [ct cv co cval]. by destruct cv, co, cval.
Qed.

(** Inserting the bindings of a map one by one rebuilds it. *)
Lemma fold_insert {A} (l : list (string * A)) (m : gmap string A) :
  NoDup l.*1 → fold_left (fun m p => <[p.1 := p.2]> m) l m = list_to_map l ∪ m.
Proof.
  revert m. induction l as [|[k a] l IH]; intros m; cbn [fold_left fmap list_fmap].
  { intros _. by rewrite list_to_map_nil, (left_id_L ∅ (∪)). }
  intros [Hk Hl]%NoDup_cons. rewrite IH by done. cbn [fst snd list_to_map foldr].
  rewrite <- insert_union_l, insert_union_r; [done|]. by apply not_elem_of_list_to_map_1.
Qed.

Lemma fold_insert_map {A} (m : gmap string A) :
  fold_left (fun m p => <[p.1 := p.2]> m) (map_to_list m) ∅ = m.
Proof.
  rewrite fold_insert by apply NoDup_fst_map_to_list.
  by rewrite list_to_map_to_list, (right_id_L ∅ (∪)).
Qed.

Lemma extract_wires_map_doc (m : gmap string (list string)) :
  extract_rule_wires_map (Obj [("wires", wires_map_doc m)]) = m.
Proof.
  rewrite <- (fold_insert_map m) at 2.
  change (extract_rule_wires_map (Obj [("wires", wires_map_doc m)])) with
    (fold_left (fun m '(k, v) => <[k := from_option strings [] (as_array v)]> m)
      (map (fun '(k, l) => (k, targets_doc l)) (map_to_list m)) (∅ : gmap string (list string))).
  generalize (∅ : gmap string (list string)). induction (map_to_list m) as [|[k l] r IH]; intros e;
    cbn [fold_left map fst snd]; [done|]. rewrite IH. cbn [targets_doc as_array from_option].
  by rewrite strings_doc.
Qed.

Lemma extract_node_doc n :
  node_ok n → extract_node (node_data n).1 (Some (node_data n).2) = Ok (is_start n, n).
Proof.
  destruct n as [w| |vs r w|vs r w|vs r w|i o p w]; cbn [node_ok]; intros Hn.
  - destruct w as [w]. change (Ok (true, NStart (Wires (strings (map Str w))))
      = Ok (true, NStart (Wires w)) :> parse _).
    by rewrite strings_doc.
  - done.
  - change ((n ← (variables ← traverse parse_rule_variable (map variable_doc vs);
      rule ← traverse extract_branch (map branch_doc r);
      Ok (NSwitch variables rule (extract_rule_wires_map (Obj [("wires", wires_map_doc w)]))));
      Ok (false, n)) = Ok (false, NSwitch vs r w) :> parse _).
    rewrite parse_variable_docs by done. cbn [mbind res_bind].
    rewrite traverse_map by (apply Forall_forall; intros; apply extract_branch_doc).
    cbn [mbind res_bind]. by rewrite extract_wires_map_doc.
  - destruct w as [w]. change ((n ← (variables ← traverse parse_rule_variable (map variable_doc vs);
      rule ← traverse extract_assignment (map assignment_doc r);
      Ok (NChangeValue variables rule (Wires (strings (map Str w)))));
      Ok (false, n)) = Ok (false, NChangeValue vs r (Wires w)) :> parse _).
    rewrite parse_variable_docs by done. cbn [mbind res_bind].
    rewrite traverse_map by (apply Forall_forall; by intros [? ?] _). by rewrite strings_doc.
  - destruct w as [w]. change ((n ← (variables ← traverse parse_rule_variable (map variable_doc vs);
      rule ← traverse extract_calculation (map calculation_doc r);
      Ok (NCalculation variables rule (Wires (strings (map Str w)))));
      Ok (false, n)) = Ok (false, NCalculation vs r (Wires w)) :> parse _).
    rewrite parse_variable_docs by done. cbn [mbind res_bind].
    rewrite traverse_map by (apply Forall_forall; by intros [? ?] _). by rewrite strings_doc.
  - destruct w as [w], Hn as (Hi & Ho & Hp).
    change ((n ← (i ← parse_rule_variable (variable_doc i); o ← parse_rule_variable (variable_doc o);
      if bool_decide (p ∈ PERIODS) then Ok (NPeriodDelta i o p (Wires (strings (map Str w))))
      else Err ParseError); Ok (false, n)) = Ok (false, NPeriodDelta i o p (Wires w)) :> parse _).
    rewrite !parse_variable_doc by done. cbn [mbind res_bind].
    by rewrite bool_decide_true, strings_doc by done.
Qed.

Lemma extract_nodes_docs l start m :
  Forall (fun p => node_ok p.2) l →
  extract_nodes (map node_doc l) start m =
  Ok (fold_left (fun s p => if is_start p.2 then p.1 else s) l start,
      fold_left (fun m p => <[p.1 := p.2]> m) l m).
Proof.
  intros Hl. revert start m. induction Hl as [|[i n] l Hn _ IH]; intros start m; [done|].
  cbn [map]. change (extract_nodes (node_doc (i, n) :: map node_doc l) start m) with
    ('(s, n) ← extract_node (node_data n).1 (Some (node_data n).2);
     extract_nodes (map node_doc l) (if (s : bool) then i else start) (<[i := n]> m)).
  rewrite extract_node_doc by done. cbn [mbind res_bind]. by rewrite IH.
Qed.

Lemma fold_start (l : list (string * RuleNode)) st s :
  (∀ i n, (i, n) ∈ l → is_start n = bool_decide (i = st)) →
  (s = st ∨ ∃ n, (st, n) ∈ l) →
  fold_left (fun s p => if is_start p.2 then p.1 else s) l s = st.
Proof.
  revert s. induction l as [|[i n] l IH]; intros s H Hs; cbn [fold_left fst snd].
  { destruct Hs as [Hs|(n & Hn)]; [done|]. by apply elem_of_nil in Hn. }
  rewrite (H i n) by left. apply IH; [intros; apply H; by right|].
  case_bool_decide as E; [by left|]. destruct Hs as [Hs|(n' & Hn)]; [by left|].
  apply elem_of_cons in Hn as [[= -> _]|Hn]; [done|]. right. by eexists.
Qed.


(** ** A flow and its document *)

Definition sample_variable (n : string) (i p : Z) : RuleVariable :=
  Variable_ n (Some i) (Some "measurement") (Some p) [].
Definition sample_flow : RuleFlow :=
  Flow "s" (list_to_map
    [("s", NStart (Wires ["sw"]));
     ("sw", NSwitch [sample_variable "X1" 1 9]
              [Branch "hot" "default" [Condition "variable" (Some "X1") (Some ">") (Some (num 50))]]
              {[ "hot" := ["act"] ]});
     ("act", NChangeValue [Variable_ "Y1" (Some 2) (Some "action") (Some 3) []]
               [Assignment "Y1" (num 1)] (Wires ["e"]));
     ("e", NEnd)]).

Lemma sample_flow_ok : flow_ok sample_flow.
Proof.
  assert (∀ i n, nodes sample_flow !! i = Some n → node_ok n ∧ is_start n = bool_decide (i = "s")) as H.
  { intros i n Hi%elem_of_list_to_map_2. revert Hi. rewrite !elem_of_cons, elem_of_nil.
    intros [[= -> ->]|[[= -> ->]|[[= -> ->]|[[= -> ->]|[]]]]]; (split; [|done]); try done;
      repeat constructor; done. }
  split; [done|]. split; intros i n Hi; by destruct (H i n Hi).
Qed.


Lemma extract_rule_flow_well_typed_witness :
  ∃ w, nodes sample_flow !! start_node sample_flow = Some (NStart w).
Proof.
  apply (extract_rule_flow_well_typed (flow_doc sample_flow)
           (map node_doc (map_to_list (nodes sample_flow)))).
  - by vm_compute.
  - done.
  - by vm_compute.
  - vm_compute. repeat constructor; set_solver.
Defined.

End Rules.
