(* ===== verification/Executor.v ===== *)
(** * Rule execution (libs/aether-rules/src/{executor,action_command,live_state,logger}.rs)

    A rule flow is walked from its start node: each node reads its variables from
    the live state, a switch chooses a wire, an action node hands commands to the
    governed facade.  The live state and the facade act on one environment, the
    calculation engine on its own store; both are interfaces.  Error texts are the
    constructors of [ExecError]. *)

From Stdlib Require Import SpecFloat.
From stdpp Require Import base tactics numbers list strings gmap pretty.
From S2P Require Import Prelude State Text Float Domain Json Outbox Calc Rules.
#[local] Open Scope Z_scope.

Module Executor.
Import Float Domain Json Rules.

(** ** Commands and live state (action_command.rs, live_state.rs) *)

Record CommandTopologyFence := Fence { expected_sequence : Z }.
Record CommandReceipt := Receipt { command_id : Z; completed_at : Z }.

Record RuleActionCommand := ActionCommand {
  ra_target : PointAddress; ra_value : f64; topology_fence : option CommandTopologyFence }.

Definition action_command_new (instance point : Z) (value : f64) : RuleActionCommand :=
  ActionCommand (Address instance Action point) value None.
Definition with_topology_fence (c : RuleActionCommand) (f : CommandTopologyFence) : RuleActionCommand :=
  ActionCommand (ra_target c) (ra_value c) (Some f).

Record RuleExecutionContext := Context_ { command_topology_fence : option CommandTopologyFence }.

Class RuleLiveState (E : Type) := {
  begin_execution : st E RuleExecutionContext;
  get_instance_for_execution : RuleExecutionContext → Z → Z → Z → st E (option (f64 * Z)) }.

(** [MemoryRuleLiveState]: unfenced, the map read as it is. *)
Definition MemoryRuleLiveState : Type := gmap (Z * Z * Z) (f64 * Z).

Definition set_instance (inst ty point : Z) (value : f64) (ts : Z) (m : MemoryRuleLiveState)
    : MemoryRuleLiveState := <[(inst, ty, point) := (value, ts)]> m.

#[global] Instance memory_live_state : RuleLiveState MemoryRuleLiveState := {
  begin_execution := mret (Context_ None);
  get_instance_for_execution _ inst ty point := gets (fun m => m !! (inst, ty, point)) }.

(** The calculation engine as the executor uses it: [CalcEngine::evaluate] and
    [builtin().period_delta] in the context of a rule. *)
Class CalcEngine (C : Type) := {
  calc_evaluate : string → string → gmap string f64 → st C (res Calc.CalcError f64);
  calc_period_delta : string → string → f64 → string → st C (res Calc.CalcError f64) }.

Definition calc_engine `{Calc.JsonText} `{Calc.Chrono} `{Calc.Regexes} `{Calc.Evalexpr}
    (utc : nat → Z) : CalcEngine Calc.CalcState := {|
  calc_evaluate := Calc.evaluate utc;
  calc_period_delta := Calc.period_delta utc |}.

(** ** Results *)

Record ActionResult := MkAction {
  target_type : string; target_id : Z; ar_point_type : string; ar_point_id : Z;
  ar_value : f64; success : bool }.

Record ConditionResult := MkCondition { expression : string; cr_result : bool; port : string }.

Definition vals : Type := gmap string f64.

Record NodeExecutionDetail := Detail {
  node_type : string;
  input_values : vals;
  condition_results : option (list ConditionResult);
  matched_port : option string;
  actions : option (list ActionResult) }.

Inductive ExecError :=
| MaxIterations
| NodeNotFound (id : string)
| ActionsFailed (failed attempted : nat)
| StartNoWire
| ReadFailed
| CycleSkipped (missing : list string)
| MatchedNoWire (port : string)
| NoMatch
| TargetNotFound (variable : string)
| ChangeNoWire
| CalcSkipped (missing : list string)
| CalcFailed (formula : string)
| CalcNoWire
| PeriodReadFailed
| PeriodSkipped (missing : list string)
| PeriodNonFinite (variable : string)
| PeriodUnavailable (variable : string)
| PeriodFailed
| PeriodNoWire
(* the texts the scheduler adds: a cancelled execution, and the note on a held rule *)
| TimedOut
| RetriesHeld (e : option ExecError).

Record RuleExecutionResult := Result {
  r_rule_id : Z;
  r_success : bool;
  actions_executed : list ActionResult;
  error : option ExecError;
  execution_path : list string;
  matched_condition : option string;
  variable_values : vals;
  point_values : vals;
  node_details : gmap string NodeExecutionDetail }.

Record RuleReadOutcome := Outcome {
  values_changed : bool; missing : list string; ro_point_values : vals }.

(** ** Helpers *)

Definition point_type_to_static (pt : option string) (default : string) : string :=
  match pt with
  | Some s =>
      if bool_decide (s = "M" ∨ s = "measurement") then "M"
      else if bool_decide (s = "A" ∨ s = "action") then "A"
      else if bool_decide (s = "T" ∨ s = "telemetry") then "T"
      else if bool_decide (s = "S" ∨ s = "status") then "S"
      else if bool_decide (s = "C" ∨ s = "control") then "C"
      else default
  | None => default
  end.

Definition validate_write_target (variable : RuleVariable) (raw_value : f64)
    (default_point_type : string) : res ActionResult (Z * Z * f64 * string) :=
  let pt := point_type_to_static (v_point_type variable) default_point_type in
  match validate_value unbounded raw_value with
  | Ok _ =>
      match v_instance variable with
      | None => Err (MkAction "instance" 0 pt 0 raw_value false)
      | Some instance_id =>
          match v_point variable with
          | None => Err (MkAction "instance" instance_id pt 0 raw_value false)
          | Some point => Ok (instance_id, point, raw_value, pt)
          end
      end
  | _ =>
      Err (MkAction "instance" (default 0 (v_instance variable)) pt (default 0 (v_point variable))
             NAN false)
  end.

(** The snapshot for the caller, and the cache afterwards. *)
Definition snapshot_or_reuse (cache : option vals) (values : vals) (values_changed : bool)
    : vals * option vals :=
  match values_changed, cache with
  | false, Some snapshot => (snapshot, cache)
  | _, _ => (values, Some values)
  end.

Definition action_skipped (variable : RuleVariable) : ActionResult :=
  MkAction "instance" (default 0 (v_instance variable))
    (point_type_to_static (v_point_type variable) "A") (default 0 (v_point variable)) NAN false.

(** [format!("{}:{}:{}", if is_action { 'A' } else { 'M' }, instance_id, point)] *)
Definition point_key (is_action : bool) (instance point : Z) : string :=
  (if is_action then "A" else "M") +:+ ":" +:+ pretty instance +:+ ":" +:+ pretty point.

(** ** Conditions *)

Definition is_or (r : option string) : bool :=
  match r with Some s => bool_decide (s ∈ ["||"; "or"; "OR"]) | None => false end.

(** The right operand; [None] when it names an unknown variable. *)
Definition right_operand (value : option Value) (values : vals) : option f64 :=
  match value with
  | Some v =>
      match as_f64 v with
      | Some n => Some n
      | None =>
          match as_i64 v with
          | Some n => Some (of_Z n)
          | None =>
              match as_str v with
              | Some s => match values !! s with Some x => Some x | None => parse_f64 s end
              | None => Some zero
              end
          end
      end
  | None => Some zero
  end.

Definition approx_equal (lhs rhs : f64) : bool :=
  eqb lhs rhs
  || (is_finite lhs && is_finite rhs
      && leb (abs (sub lhs rhs)) (mul EPSILON (fmax (fmax (abs lhs) (abs rhs)) one))).

Definition compare_op (operator : string) (lhs rhs : f64) : bool :=
  if bool_decide (operator ∈ ["=="; "eq"]) then approx_equal lhs rhs
  else if bool_decide (operator ∈ ["!="; "ne"]) then negb (approx_equal lhs rhs)
  else if bool_decide (operator ∈ [">"; "gt"]) then ltb rhs lhs
  else if bool_decide (operator ∈ ["<"; "lt"]) then ltb lhs rhs
  else if bool_decide (operator ∈ [">="; "gte"]) then leb rhs lhs
  else if bool_decide (operator ∈ ["<="; "lte"]) then leb lhs rhs
  else false.

Definition evaluate_flow_condition (cond : FlowCondition) (values : vals) : bool :=
  match c_variables cond with
  | None => false
  | Some var_name =>
      match values !! var_name with
      | None => false
      | Some lhs =>
          match right_operand (c_value cond) values with
          | None => false
          | Some rhs => compare_op (default "==" (c_operator cond)) lhs rhs
          end
      end
  end.

Fixpoint conditions_loop (conditions : list FlowCondition) (values : vals) (result : bool)
    (pending : option string) : bool :=
  match conditions with
  | [] => result
  | cond :: rest =>
      if bool_decide (cond_type cond = "relation") then
        conditions_loop rest values result (c_value cond ≫= as_str)
      else
        let c := evaluate_flow_condition cond values in
        conditions_loop rest values (if is_or pending then result || c else result && c) None
  end.

Definition evaluate_flow_conditions (conditions : list FlowCondition) (values : vals) : bool :=
  match conditions with [] => true | _ => conditions_loop conditions values true None end.

(** [trim_matches] of the double quote. *)
Definition is_quote (c : Ascii.ascii) : bool := Ascii.eqb c (Ascii.ascii_of_nat 34).
Fixpoint trim_start (s : string) : string :=
  match s with
  | String c s' => if is_quote c then trim_start s' else s
  | "" => ""
  end.
Fixpoint trim_end (s : string) : string :=
  match s with
  | String c s' =>
      match trim_end s' with
      | "" => if is_quote c then "" else String c ""
      | t => String c t
      end
  | "" => ""
  end.

Section Execute.
Context {E C : Type} `{RuleLiveState E} `{CalcEngine C}.

(** [serde_json]'s rendering of a value, and [evalexpr::eval_number_with_context]. *)
Variable json_text : Value → string.
Variable eval_number_with_context : vals → string → option f64.

(** formula.rs *)
Definition evaluate_formula (formula : string) (variables : vals) : option f64 :=
  eval_number_with_context variables formula.

(** The facade installed by the composition root. *)
Variable action_commands : option (RuleActionCommand → st E (res Outbox.PortErrorKind CommandReceipt)).

(** The environment, the calculation store, and every command handed to the facade. *)
Record world := World { env : E; calc : C; issued : list RuleActionCommand }.

Definition on_env {A} (m : st E A) : st world A :=
  fun w => let '(a, e) := m (env w) in (a, World e (calc w) (issued w)).
Definition on_calc {A} (m : st C A) : st world A :=
  fun w => let '(a, c) := m (calc w) in (a, World (env w) c (issued w)).

(** ** Reading variables *)

Definition token_text (t : Value) : string := match t with Str s => s | v => json_text v end.

Definition evaluate_token_formula (tokens : list Value) (values : vals) : option f64 :=
  evaluate_formula (String.concat " " (map token_text tokens)) values.

(** Phase 1: the variables without a formula, in order; values read before an
    error stay inserted. *)
Fixpoint read_base (execution : RuleExecutionContext) (variables : list RuleVariable)
    (values : vals) (o : RuleReadOutcome) : st world (res RuleError RuleReadOutcome * vals) :=
  match variables with
  | [] => mret (Ok o, values)
  | var :: rest =>
      if negb (bool_decide (v_formula var = [])) then read_base execution rest values o
      else
        match v_instance var, v_point var with
        | None, _ | _, None => mret (Err ExecutionError, values)
        | Some instance_id, Some point =>
            let is_action := bool_decide (default "measurement" (v_point_type var) = "action") in
            r ← on_env (get_instance_for_execution execution instance_id
                          (if is_action then 1 else 0) point);
            match r with
            | Some (value, _) =>
                if is_finite value then
                  let changed :=
                    match values !! v_name var with
                    | None => true
                    | Some previous => total_ne previous value
                    end in
                  read_base execution rest (<[v_name var := value]> values)
                    (Outcome (values_changed o || changed) (missing o)
                       (<[point_key is_action instance_id point := value]> (ro_point_values o)))
                else if is_action then read_base execution rest values o
                else read_base execution rest values
                       (Outcome (values_changed o) (missing o ++ [v_name var]) (ro_point_values o))
            | None =>
                if is_action then read_base execution rest values o
                else read_base execution rest values
                       (Outcome (values_changed o) (missing o ++ [v_name var]) (ro_point_values o))
            end
        end
  end.

(** Phase 2: the formula variables. *)
Fixpoint read_formulas (variables : list RuleVariable) (values : vals) (o : RuleReadOutcome)
    : RuleReadOutcome * vals :=
  match variables with
  | [] => (o, values)
  | var :: rest =>
      if bool_decide (v_formula var = []) then read_formulas rest values o
      else
        match evaluate_token_formula (v_formula var) values with
        | Some result =>
            let changed :=
              match values !! v_name var with
              | None => true
              | Some previous => negb (eqb previous result)
              end in
            read_formulas rest (<[v_name var := result]> values)
              (Outcome (values_changed o || changed) (missing o) (ro_point_values o))
        | None =>
            read_formulas rest values
              (Outcome (values_changed o) (missing o ++ [v_name var]) (ro_point_values o))
        end
  end.

Definition read_rule_variables_for_execution (execution : RuleExecutionContext)
    (variables : list RuleVariable) (values : vals) : st world (res RuleError RuleReadOutcome * vals) :=
  '(r, values) ← read_base execution variables values (Outcome false [] ∅);
  mret (match r with
        | Ok o => let '(o, values) := read_formulas variables values o in (Ok o, values)
        | e => (e, values)
        end).

(** ** Switches *)

Definition format_condition (cond : FlowCondition) (var : string) : string :=
  var +:+ default "==" (c_operator cond) +:+
  match c_value cond with Some v => trim_end (trim_start (json_text v)) | None => "" end.

Fixpoint format_loop (conditions : list FlowCondition) (pending : option string) : string :=
  match conditions with
  | [] => ""
  | cond :: rest =>
      if bool_decide (cond_type cond = "relation") then
        format_loop rest (c_value cond ≫= as_str)
      else
        match c_variables cond with
        | Some var =>
            (match pending with
             | Some _ => if is_or pending then " || " else " && "
             | None => ""
             end) +:+ format_condition cond var +:+ format_loop rest None
        | None => format_loop rest pending
        end
  end.

Definition format_conditions (conditions : list FlowCondition) : string :=
  format_loop conditions None.

Fixpoint evaluate_rule_switch_with_details (rules : list RuleSwitchBranch)
    (wires : gmap string (list string)) (values : vals)
    : option string * option string * option string :=
  match rules with
  | [] => (None, None, None)
  | rule :: rest =>
      if evaluate_flow_conditions (b_rule rule) values then
        ((wires !! b_name rule) ≫= head, Some (b_name rule), Some (format_conditions (b_rule rule)))
      else evaluate_rule_switch_with_details rest wires values
  end.

Definition evaluate_all_conditions (rules : list RuleSwitchBranch) (values : vals)
    : list ConditionResult :=
  map (fun rule => MkCondition (format_conditions (b_rule rule))
                     (evaluate_flow_conditions (b_rule rule) values) (b_name rule)) rules.

(** ** Writing *)

Definition write_action_point (execution : RuleExecutionContext) (instance_id point : Z)
    (value : f64) : st world bool :=
  match action_commands with
  | None => mret false
  | Some write_action =>
      let command := action_command_new instance_id point value in
      let command :=
        match command_topology_fence execution with
        | Some fence => with_topology_fence command fence
        | None => command
        end in
      _ ← modify (fun w => World (env w) (calc w) (issued w ++ [command]));
      r ← on_env (write_action command);
      mret (is_ok r)
  end.

(** Derived measurement writes are rejected. *)
Definition write_measurement_point (instance_id point : Z) (value : f64) : res RuleError unit :=
  Err ExecutionError.

Definition write_to_point (execution : RuleExecutionContext) (instance_id point : Z) (value : f64)
    (pt : string) : st world ActionResult :=
  ok ← (if bool_decide (pt = "M") then mret (is_ok (write_measurement_point instance_id point value))
        else if bool_decide (pt = "A") then write_action_point execution instance_id point value
        else mret false);
  mret (MkAction "instance" instance_id pt point value ok).

Definition assignment_value (v : Value) (values : vals) : option f64 :=
  match as_f64 v with
  | Some n => Some n
  | None =>
      match as_i64 v with
      | Some n => Some (of_Z n)
      | None =>
          match as_str v with
          | Some s => match parse_f64 s with Some n => Some n | None => values !! s end
          | None => None
          end
      end
  end.

Definition execute_rule_change_for_execution (execution : RuleExecutionContext)
    (variable : RuleVariable) (assignment : RuleValueAssignment) (values : vals)
    : st world ActionResult :=
  match assignment_value (a_value assignment) values with
  | None => mret (action_skipped variable)
  | Some raw_value =>
      match validate_write_target variable raw_value "A" with
      | Ok (instance_id, point, value, pt) => write_to_point execution instance_id point value pt
      | Err action => mret action
      | Panic => mret (action_skipped variable)
      end
  end.

Definition write_calculation_result (execution : RuleExecutionContext) (variable : RuleVariable)
    (raw_value : f64) : st world ActionResult :=
  match validate_write_target variable raw_value "M" with
  | Ok (instance_id, point, value, pt) => write_to_point execution instance_id point value pt
  | Err action => mret action
  | Panic => mret (action_skipped variable)
  end.

Definition write_period_delta_result (execution : RuleExecutionContext) (variable : RuleVariable)
    (raw_value : f64) : st world ActionResult :=
  match validate_write_target variable raw_value "M" with
  | Ok (instance_id, point, value, _) => write_to_point execution instance_id point value "M"
  | Err action => mret action
  | Panic => mret (action_skipped variable)
  end.

(** ** The walk *)

(** The mutable locals of [execute]. *)
Record Loop := MkLoop {
  result : RuleExecutionResult;
  values : vals;
  l_point_values : vals;
  values_snapshot : option vals;
  current_id : string }.

Definition set_error (e : ExecError) (r : RuleExecutionResult) : RuleExecutionResult :=
  Result (r_rule_id r) (r_success r) (actions_executed r) (Some e) (execution_path r)
    (matched_condition r) (variable_values r) (point_values r) (node_details r).
Definition set_success (b : bool) (r : RuleExecutionResult) : RuleExecutionResult :=
  Result (r_rule_id r) b (actions_executed r) (error r) (execution_path r)
    (matched_condition r) (variable_values r) (point_values r) (node_details r).
Definition push_action (a : ActionResult) (r : RuleExecutionResult) : RuleExecutionResult :=
  Result (r_rule_id r) (r_success r) (actions_executed r ++ [a]) (error r) (execution_path r)
    (matched_condition r) (variable_values r) (point_values r) (node_details r).
Definition push_path (id : string) (r : RuleExecutionResult) : RuleExecutionResult :=
  Result (r_rule_id r) (r_success r) (actions_executed r) (error r) (execution_path r ++ [id])
    (matched_condition r) (variable_values r) (point_values r) (node_details r).
Definition set_matched (m : option string) (r : RuleExecutionResult) : RuleExecutionResult :=
  Result (r_rule_id r) (r_success r) (actions_executed r) (error r) (execution_path r)
    m (variable_values r) (point_values r) (node_details r).
Definition set_variable_values (v : vals) (r : RuleExecutionResult) : RuleExecutionResult :=
  Result (r_rule_id r) (r_success r) (actions_executed r) (error r) (execution_path r)
    (matched_condition r) v (point_values r) (node_details r).
Definition set_point_values (v : vals) (r : RuleExecutionResult) : RuleExecutionResult :=
  Result (r_rule_id r) (r_success r) (actions_executed r) (error r) (execution_path r)
    (matched_condition r) (variable_values r) v (node_details r).
Definition insert_detail (id : string) (d : NodeExecutionDetail) (r : RuleExecutionResult)
    : RuleExecutionResult :=
  Result (r_rule_id r) (r_success r) (actions_executed r) (error r) (execution_path r)
    (matched_condition r) (variable_values r) (point_values r) (<[id := d]> (node_details r)).

Definition on_result (f : RuleExecutionResult → RuleExecutionResult) (l : Loop) : Loop :=
  MkLoop (f (result l)) (values l) (l_point_values l) (values_snapshot l) (current_id l).
Definition with_values (v : vals) (l : Loop) : Loop :=
  MkLoop (result l) v (l_point_values l) (values_snapshot l) (current_id l).
Definition extend_points (m : vals) (l : Loop) : Loop :=
  MkLoop (result l) (values l) (m ∪ l_point_values l) (values_snapshot l) (current_id l).
Definition with_snapshot (c : option vals) (l : Loop) : Loop :=
  MkLoop (result l) (values l) (l_point_values l) c (current_id l).
Definition with_current (id : string) (l : Loop) : Loop :=
  MkLoop (result l) (values l) (l_point_values l) (values_snapshot l) id.

(** [return Ok(result)] with an error. *)
Definition stop (e : ExecError) (l : Loop) : Loop * option string := (on_result (set_error e) l, None).

(** [mem::take] of the values and the point values into the result. *)
Definition take_values (l : Loop) : Loop :=
  MkLoop (set_point_values (l_point_values l) (set_variable_values (values l) (result l)))
    ∅ ∅ (values_snapshot l) (current_id l).

(** Follow the first default wire. *)
Definition follow (w : RuleWires) (e : ExecError) (l : Loop) : Loop * option string :=
  match wires_default w with next :: _ => (l, Some next) | [] => stop e l end.

Definition end_node (l : Loop) : Loop * option string :=
  let l := take_values l in
  let attempted := actions_executed (result l) in
  let failed := length (List.filter (fun a => negb (success a)) attempted) in
  if (failed =? 0)%nat then (on_result (set_success true) l, None)
  else (on_result (fun r => set_error (ActionsFailed failed (length attempted)) (set_success false r)) l,
        None).

(** How a node takes its snapshot; the source uses [snapshot_or_reuse]. *)
Variable snap : option vals → vals → bool → vals * option vals.

(** Enter a node after its variables were read. *)
Definition enter (o : RuleReadOutcome) (l : Loop) : vals * Loop :=
  let '(s, cache) := snap (values_snapshot l) (values l) (values_changed o) in
  (s, on_result (set_variable_values s) (with_snapshot cache l)).

Definition switch_node (execution : RuleExecutionContext) (variables : list RuleVariable)
    (rules : list RuleSwitchBranch) (wires : gmap string (list string)) (l : Loop)
    : st world (Loop * option string) :=
  '(r, v) ← read_rule_variables_for_execution execution variables (values l);
  let l := with_values v l in
  mret
    match r with
    | Ok o =>
        let l := extend_points (ro_point_values o) l in
        if negb (bool_decide (missing o = [])) then
          stop (CycleSkipped (missing o)) (take_values l)
        else
          let '(s, l) := enter o l in
          let conditions := evaluate_all_conditions rules (values l) in
          let '(next, port, cond) := evaluate_rule_switch_with_details rules wires (values l) in
          let l := on_result (set_matched cond) l in
          let l := on_result (insert_detail (current_id l)
                     (Detail "switch" s (Some conditions) port None)) l in
          match next with
          | Some n => (l, Some n)
          | None =>
              stop (match port with Some p => MatchedNoWire p | None => NoMatch end) l
          end
    | _ => stop ReadFailed (take_values l)
    end.

(** The assignments in order; each executed action is recorded. *)
Fixpoint run_assignments (execution : RuleExecutionContext) (variables : list RuleVariable)
    (assignments : list RuleValueAssignment) (node_actions : list ActionResult) (l : Loop)
    : st world (list ActionResult * Loop) :=
  match assignments with
  | [] => mret (node_actions, l)
  | a :: rest =>
      match List.find (fun v => bool_decide (v_name v = a_variables a)) variables with
      | Some var =>
          executed ← execute_rule_change_for_execution execution var a (values l);
          run_assignments execution variables rest (node_actions ++ [executed])
            (on_result (push_action executed) l)
      | None => run_assignments execution variables rest node_actions l
      end
  end.

Definition change_value_node (execution : RuleExecutionContext) (variables : list RuleVariable)
    (assignments : list RuleValueAssignment) (wires : RuleWires) (l : Loop)
    : st world (Loop * option string) :=
  match
    List.find (fun a => negb (existsb (fun v => bool_decide (v_name v = a_variables a)) variables))
      assignments
  with
  | Some a => mret (stop (TargetNotFound (a_variables a)) l)
  | None =>
      '(r, v) ← read_rule_variables_for_execution execution variables (values l);
      let l := with_values v l in
      match r with
      | Ok o =>
          let l := extend_points (ro_point_values o) l in
          if negb (bool_decide (missing o = [])) then mret (stop (CycleSkipped (missing o)) l)
          else
            let '(s, l) := enter o l in
            '(node_actions, l) ← run_assignments execution variables assignments [] l;
            let l := on_result (insert_detail (current_id l)
                       (Detail "change" s None None (Some node_actions))) l in
            mret (follow wires ChangeNoWire l)
      | _ => mret (stop ReadFailed l)
      end
  end.

(** The calculations in order; [None] after a failed evaluation. *)
Fixpoint run_calculations (execution : RuleExecutionContext) (rule_id : Z)
    (variables : list RuleVariable) (calculations : list CalculationRule)
    (node_actions : list ActionResult) (l : Loop) : st world (option (list ActionResult) * Loop) :=
  match calculations with
  | [] => mret (Some node_actions, l)
  | c :: rest =>
      r ← on_calc (calc_evaluate (Calc.rule_context rule_id) (calc_formula c) (values l));
      match r with
      | Ok x =>
          '(node_actions, l) ←
            match List.find (fun v => bool_decide (v_name v = calc_output c)) variables with
            | Some var =>
                action ← write_calculation_result execution var x;
                mret (node_actions ++ [action], on_result (push_action action) l)
            | None => mret (node_actions, l)
            end;
          run_calculations execution rule_id variables rest node_actions
            (with_values (<[calc_output c := x]> (values l)) l)
      | _ => mret (None, on_result (set_error (CalcFailed (calc_formula c))) l)
      end
  end.

Definition handle_calculation_node (execution : RuleExecutionContext) (rule_id : Z)
    (variables : list RuleVariable) (calculations : list CalculationRule) (wires : RuleWires)
    (l : Loop) : st world (Loop * option string) :=
  '(r, v) ← read_rule_variables_for_execution execution variables (values l);
  let l := with_values v l in
  match r with
  | Ok o =>
      let l := extend_points (ro_point_values o) l in
      if negb (bool_decide (missing o = [])) then mret (stop (CalcSkipped (missing o)) l)
      else
        let '(s, l) := enter o l in
        '(done, l) ← run_calculations execution rule_id variables calculations [] l;
        match done with
        | None => mret (l, None)
        | Some node_actions =>
            let l := with_snapshot None l in
            let l := on_result (insert_detail (current_id l)
                       (Detail "calculation" s None None (Some node_actions))) l in
            mret (follow wires CalcNoWire l)
        end
  | _ => mret (stop ReadFailed l)
  end.

(** [format!("{}:{}:{}", rule_id, instance, point)] *)
Definition period_state_key (rule_id : Z) (input : RuleVariable) : string :=
  pretty rule_id +:+ ":" +:+ pretty (default 0 (v_instance input)) +:+ ":" +:+
  pretty (default 0 (v_point input)).

Definition handle_period_delta_node (execution : RuleExecutionContext) (rule_id : Z)
    (input output : RuleVariable) (period : string) (wires : RuleWires) (l : Loop)
    : st world (Loop * option string) :=
  '(r, v) ← read_rule_variables_for_execution execution [input] (values l);
  let l := with_values v l in
  match r with
  | Ok o =>
      let l := extend_points (ro_point_values o) l in
      if negb (bool_decide (missing o = [])) then mret (stop (PeriodSkipped (missing o)) l)
      else
        let '(s, l) := enter o l in
        match values l !! v_name input with
        | None => mret (stop (PeriodUnavailable (v_name input)) l)
        | Some input_value =>
            if negb (is_finite input_value) then mret (stop (PeriodNonFinite (v_name input)) l)
            else
              r ← on_calc (calc_period_delta (Calc.rule_context rule_id)
                             (period_state_key rule_id input) input_value period);
              match r with
              | Ok delta =>
                  action ← write_period_delta_result execution output delta;
                  let l := on_result (push_action action) l in
                  let l := with_snapshot None (with_values (<[v_name output := delta]> (values l)) l) in
                  let l := on_result (insert_detail (current_id l)
                             (Detail "periodDelta" s None None (Some [action]))) l in
                  mret (follow wires PeriodNoWire l)
              | _ => mret (stop PeriodFailed l)
              end
        end
  | _ => mret (stop PeriodReadFailed l)
  end.

(** One node of the walk: the locals afterwards and where to go, [None] to return. *)
Definition visit (execution : RuleExecutionContext) (rule_id : Z) (node : RuleNode) (l : Loop)
    : st world (Loop * option string) :=
  match node with
  | NEnd => mret (end_node l)
  | NStart wires => mret (follow wires StartNoWire l)
  | NSwitch variables rules wires => switch_node execution variables rules wires l
  | NChangeValue variables rules wires => change_value_node execution variables rules wires l
  | NCalculation variables rules wires =>
      handle_calculation_node execution rule_id variables rules wires l
  | NPeriodDelta input output period wires =>
      handle_period_delta_node execution rule_id input output period wires l
  end.

(** The loop; the fuel is what is left of [max_iterations]. *)
Fixpoint walk (fuel : nat) (execution : RuleExecutionContext) (rule_id : Z)
    (ns : gmap string RuleNode) (l : Loop) : st world RuleExecutionResult :=
  match fuel with
  | O => mret (result (on_result (set_error MaxIterations) l))
  | S fuel =>
      let l := on_result (push_path (current_id l)) l in
      match ns !! current_id l with
      | None => mret (result (on_result (set_error (NodeNotFound (current_id l))) l))
      | Some node =>
          '(l, next) ← visit execution rule_id node l;
          match next with
          | None => mret (result l)
          | Some id => walk fuel execution rule_id ns (with_current id l)
          end
      end
  end.

Definition max_iterations : nat := 100.

Definition initial_result (rule_id : Z) : RuleExecutionResult :=
  Result rule_id false [] None [] None ∅ ∅ ∅.

Definition execute_with (rule : Rule) : st world RuleExecutionResult :=
  execution ← on_env begin_execution;
  walk max_iterations execution (rule_id rule) (nodes (flow rule))
    (MkLoop (initial_result (rule_id rule)) ∅ ∅ None (start_node (flow rule))).

End Execute.

(** [RuleExecutor::execute] *)
Definition execute {E C} `{RuleLiveState E} `{CalcEngine C} json_text eval_number_with_context action_commands
    (rule : Rule) : st (world (E := E) (C := C)) RuleExecutionResult :=
  execute_with json_text eval_number_with_context action_commands snapshot_or_reuse rule.

Section Facts.
Context {E C : Type} `{!RuleLiveState E} `{!CalcEngine C}.
Variable json_text : Value → string.
Variable eval_number : vals → string → option f64.
Variable action_commands : option (RuleActionCommand → st E (res Outbox.PortErrorKind CommandReceipt)).

Notation W := (world (E := E) (C := C)).
Notation read := (read_rule_variables_for_execution json_text eval_number).

(** ** Which commands leave the executor *)

(** [m] hands the facade only commands in [P]. *)
Definition issues {A} (P : RuleActionCommand → Prop) (m : st W A) : Prop :=
  ∀ w, ∃ new, issued (m w).2 = issued w ++ new ∧ Forall P new.

Lemma issues_ret {A} P (a : A) : issues P (mret a).
Proof. intros w. exists []. by rewrite app_nil_r. Qed.

Lemma issues_on_env {A} P (m : st E A) : issues P (on_env m).
Proof. intros w. exists []. unfold on_env. destruct (m (env w)). by rewrite app_nil_r. Qed.

Lemma issues_on_calc {A} P (m : st C A) : issues P (on_calc m).
Proof. intros w. exists []. unfold on_calc. destruct (m (calc w)). by rewrite app_nil_r. Qed.

Lemma issues_bind {A B} P (m : st W A) (f : A → st W B) :
  issues P m → (∀ a, issues P (f a)) → issues P (m ≫= f).
Proof.
  intros Hm Hf w. destruct (Hm w) as (n1 & H1 & HP1). unfold mbind, st_bind.
  destruct (m w) as [a w1] eqn:E1. destruct (Hf a w1) as (n2 & H2 & HP2).
  exists (n1 ++ n2). rewrite H2. cbn in H1. rewrite H1, app_assoc. split; [done|by apply Forall_app].
Qed.

Lemma issues_mono {A} (P Q : RuleActionCommand → Prop) (m : st W A) :
  (∀ c, P c → Q c) → issues P m → issues Q m.
Proof. intros HPQ Hm w. destruct (Hm w) as (n & Hn & HP). exists n. eauto using Forall_impl. Qed.

(** The command of a write with this context. *)
Definition command_of (execution : RuleExecutionContext) (instance point : Z) (value : f64)
    : RuleActionCommand :=
  ActionCommand (Address instance Action point) value (command_topology_fence execution).

Lemma write_action_point_issues x i p v :
  issues (eq (command_of x i p v)) (write_action_point action_commands x i p v).
Proof.
  unfold write_action_point. destruct action_commands as [f|]; [|apply issues_ret]. intros w.
  set (cmd := match command_topology_fence x with Some _ => _ | None => _ end).
  assert (cmd = command_of x i p v) as -> by (unfold cmd, command_of; by destruct command_topology_fence).
  exists [command_of x i p v]. split; [|by repeat constructor].
  unfold mbind, st_bind, modify, on_env. cbn [env calc issued].
  destruct (f _ (env w)) as [r e]. done.
Qed.

Lemma write_to_point_issues x i p v pt :
  issues (fun c => pt = "A" ∧ c = command_of x i p v) (write_to_point action_commands x i p v pt).
Proof.
  unfold write_to_point. apply issues_bind; [|intros; apply issues_ret].
  repeat case_bool_decide; try apply issues_ret.
  eapply issues_mono, write_action_point_issues. by intros c <-.
Qed.

(** A command some action variable of the flow asks for. *)
Definition targets_variable (def : string) (vs : list RuleVariable) (c : RuleActionCommand) : Prop :=
  ∃ v, v ∈ vs ∧ v_instance v = Some (instance_id (ra_target c)) ∧
       v_point v = Some (point_id (ra_target c)) ∧
       point_type_to_static (v_point_type v) def = "A".

Definition well_formed (x : RuleExecutionContext) (c : RuleActionCommand) : Prop :=
  kind (ra_target c) = Action ∧ is_finite (ra_value c) = true ∧
  topology_fence c = command_topology_fence x.

Lemma write_validated_issues x v raw def :
  issues (fun c => well_formed x c ∧ targets_variable def [v] c)
    (match validate_write_target v raw def with
     | Ok (i, p, value, pt) => write_to_point action_commands x i p value pt
     | Err a => mret a
     | Panic => mret (action_skipped v)
     end).
Proof.
  unfold validate_write_target. destruct (validate_value unbounded raw) as [[]|e|] eqn:Ev;
    try apply issues_ret.
  destruct (v_instance v) as [i|] eqn:Ei; [|apply issues_ret].
  destruct (v_point v) as [p|] eqn:Ep; [|apply issues_ret].
  eapply issues_mono, write_to_point_issues. intros c [Hpt ->]. apply validate_unbounded in Ev.
  split; [done|]. exists v. split_and!; [by apply list_elem_of_singleton|done..].
Qed.

Lemma targets_mono def v vs c : v ∈ vs → targets_variable def [v] c → targets_variable def vs c.
Proof.
  intros Hv (u & Hu & H). apply list_elem_of_singleton in Hu as ->. by exists v.
Qed.

Lemma period_result_issues x v d : issues (fun _ => False) (write_period_delta_result action_commands x v d).
Proof.
  unfold write_period_delta_result. destruct (validate_write_target v d "M") as [[[[i p] y] pt]|a|];
    try apply issues_ret.
Qed.

Lemma read_base_issues P x vs values o : issues P (read_base x vs values o).
Proof.
  revert values o. induction vs as [|v vs IH]; intros values o; cbn [read_base]; [apply issues_ret|].
  case_match; [apply IH|]. destruct (v_instance v); [|apply issues_ret].
  destruct (v_point v); [|apply issues_ret]. apply issues_bind; [apply issues_on_env|].
  intros [[y t]|]; repeat case_match; apply IH.
Qed.

Lemma read_issues P x vs values : issues P (read x vs values).
Proof.
  apply issues_bind; [apply read_base_issues|]. intros [r v]. apply issues_ret.
Qed.

Definition node_command (node : RuleNode) (c : RuleActionCommand) : Prop :=
  match node with
  | NChangeValue vs _ _ => targets_variable "A" vs c
  | NCalculation vs _ _ => targets_variable "M" vs c
  | _ => False
  end.

Lemma find_elem_of {A} (f : A → bool) l a : List.find f l = Some a → a ∈ l.
Proof. intros H. apply find_some in H as [H _]. by apply list_elem_of_In. Qed.

Lemma run_assignments_issues x vs rules acts l :
  issues (fun c => well_formed x c ∧ targets_variable "A" vs c)
    (run_assignments action_commands x vs rules acts l).
Proof.
  revert acts l. induction rules as [|a rules IH]; intros acts l; cbn [run_assignments].
  - apply issues_ret.
  - destruct (List.find _ vs) as [v|] eqn:Ef; [|apply IH]. apply find_elem_of in Ef.
    apply issues_bind; [|intros; apply IH]. unfold execute_rule_change_for_execution.
    case_match; [|apply issues_ret]. eapply issues_mono, write_validated_issues.
    intros c [Hw Ht]. split; [done|by eapply targets_mono].
Qed.

Lemma run_calculations_issues x id vs calcs acts l :
  issues (fun c => well_formed x c ∧ targets_variable "M" vs c)
    (run_calculations action_commands x id vs calcs acts l).
Proof.
  revert acts l. induction calcs as [|a calcs IH]; intros acts l; cbn [run_calculations].
  - apply issues_ret.
  - apply issues_bind; [apply issues_on_calc|]. intros [y|e|]; try apply issues_ret.
    apply issues_bind; [|intros [? ?]; apply IH]. destruct (List.find _ vs) as [v|] eqn:Ef;
      [|apply issues_ret]. apply find_elem_of in Ef. apply issues_bind; [|intros; apply issues_ret].
    eapply issues_mono, write_validated_issues. intros c [Hw Ht]. split; [done|by eapply targets_mono].
Qed.

Lemma visit_issues snap x id node l :
  issues (fun c => well_formed x c ∧ node_command node c)
    (visit json_text eval_number action_commands snap x id node l).
Proof.
  destruct node as [w| |vs rs ws|vs rs ws|vs rs ws|i o p ws]; cbn [visit node_command];
    unfold switch_node, change_value_node, handle_calculation_node, handle_period_delta_node.
  - apply issues_ret.
  - apply issues_ret.
  - apply issues_bind; [apply read_issues|]. intros [r v]. apply issues_ret.
  - case_match; [apply issues_ret|].
    apply issues_bind; [apply read_issues|]. intros [[o|e|] v]; try apply issues_ret.
    case_match; [apply issues_ret|]. destruct (enter snap o _) as [s l1].
    apply issues_bind; [apply run_assignments_issues|]. intros [acts l2]. apply issues_ret.
  - apply issues_bind; [apply read_issues|]. intros [[o|e|] v]; try apply issues_ret.
    case_match; [apply issues_ret|]. destruct (enter snap o _) as [s l1].
    apply issues_bind; [apply run_calculations_issues|]. intros [[acts|] l2]; apply issues_ret.
  - apply issues_bind; [apply read_issues|]. intros [[oc|e|] v]; try apply issues_ret.
    case_match; [apply issues_ret|]. destruct (enter snap oc _) as [s l1].
    case_match; [|apply issues_ret]. case_match; [apply issues_ret|].
    apply issues_bind; [apply issues_on_calc|]. intros [d|e|]; try apply issues_ret.
    apply issues_bind; [|intros; apply issues_ret]. by eapply issues_mono, period_result_issues.
Qed.

Definition flow_command (ns : gmap string RuleNode) (c : RuleActionCommand) : Prop :=
  ∃ id node, ns !! id = Some node ∧ node_command node c.

Lemma walk_issues snap fuel x id ns l :
  issues (fun c => well_formed x c ∧ flow_command ns c)
    (walk json_text eval_number action_commands snap fuel x id ns l).
Proof.
  revert l. induction fuel as [|fuel IH]; intros l; cbn [walk]; [apply issues_ret|].
  set (l1 := on_result (push_path (current_id l)) l). change (current_id l1) with (current_id l).
  destruct (ns !! current_id l) as [node|] eqn:En; [|apply issues_ret]. apply issues_bind.
  - eapply issues_mono, visit_issues. intros c [Hw Hc]. split; [done|]. by eexists _, _.
  - intros [l2 [next|]]; [apply IH|apply issues_ret].
Qed.

(** C26. Every command an execution hands to the facade is an Action command with a
    finite value, carries exactly the topology fence captured before the first
    read, and addresses the instance and point of an action variable of the flow. *)
Theorem execute_commands_governed (rule : Rule) (w : W) :
  let x := (begin_execution (env w)).1 in
  let '(r, w') := execute json_text eval_number action_commands rule w in
  ∃ new, issued w' = issued w ++ new ∧
         Forall (fun c => well_formed x c ∧ flow_command (nodes (flow rule)) c) new.
Proof.
  unfold execute, execute_with. unfold mbind, st_bind, on_env.
  destruct (begin_execution (env w)) as [x e]. cbn [fst].
  set (w1 := World e (calc w) (issued w)). set (l := MkLoop _ _ _ _ _).
  destruct (walk_issues snapshot_or_reuse max_iterations x (rule_id rule) (nodes (flow rule)) l w1)
    as (new & Hn & HP).
  destruct (walk _ _ _ _ _ _ _ _ _ w1) as [r w']. by exists new.
Qed.

(** ** How an execution ends *)

Definition clean (r : RuleExecutionResult) : Prop := r_success r = false ∧ error r = None.
Definition failed (r : RuleExecutionResult) : Prop :=
  r_success r = false ∧ ∃ e, error r = Some e ∧ e ≠ MaxIterations.

(** Where the wires of a node lead. *)
Definition successors (node : RuleNode) : list string :=
  match node with
  | NEnd => []
  | NStart w | NChangeValue _ _ w | NCalculation _ _ w | NPeriodDelta _ _ _ w => wires_default w
  | NSwitch _ _ ws => concat (map snd (map_to_list ws))
  end.

(** What a visit of a node other than [NEnd] leaves. *)
Definition visited (node : RuleNode) (l l' : Loop) (next : option string) : Prop :=
  execution_path (result l') = execution_path (result l) ∧
  match next with
  | Some n => n ∈ successors node ∧ clean (result l')
  | None => failed (result l')
  end.

(** The parts of the result that decide the outcome are those of [l]. *)
Definition same_outcome (l l' : Loop) : Prop :=
  execution_path (result l') = execution_path (result l) ∧
  r_success (result l') = r_success (result l) ∧ error (result l') = error (result l).

Lemma stop_visited node e l l' :
  e ≠ MaxIterations → same_outcome l l' → clean (result l) → visited node l (stop e l').1 (stop e l').2.
Proof. intros He (H1 & H2 & _) [H3 _]. split; [done|]. split; [cbn; congruence|by exists e]. Qed.

Lemma follow_visited node w e l l' :
  e ≠ MaxIterations → wires_default w ⊆ successors node → same_outcome l l' → clean (result l) →
  visited node l (follow w e l').1 (follow w e l').2.
Proof.
  intros He Hw Hs Hc. unfold follow. destruct (wires_default w) as [|n ns]; [by apply stop_visited|].
  destruct Hs as (H1 & H2 & H3), Hc. split; [done|]. split; [apply Hw; by left|cbn; split; congruence].
Qed.

Lemma run_assignments_outcome x vs rules acts l (w : W) :
  same_outcome l (run_assignments action_commands x vs rules acts l w).1.2.
Proof.
  revert acts l w. induction rules as [|a rules IH]; intros acts l w; cbn [run_assignments]; [done|].
  destruct (List.find _ vs); [|apply IH]. unfold mbind, st_bind.
  destruct (execute_rule_change_for_execution _ _ _ _ _ w) as [y w1].
  apply (IH _ (on_result (push_action y) l) w1).
Qed.

Lemma run_calculations_outcome x id vs calcs acts l (w : W) :
  clean (result l) →
  let '(r, l') := (run_calculations action_commands x id vs calcs acts l w).1 in
  execution_path (result l') = execution_path (result l) ∧
  match r with Some _ => clean (result l') | None => failed (result l') end.
Proof.
  revert acts l w. induction calcs as [|a calcs IH]; intros acts l w Hc; cbn [run_calculations]; [done|].
  unfold mbind, st_bind. destruct (on_calc _ w) as [[y|e|] w1]; cbn [fst];
    [|split; [done|]; split; [apply Hc|by eexists]..].
  destruct (List.find _ vs) as [v|].
  - destruct (write_calculation_result _ _ _ _ w1) as [y' w2]. cbn [mret st_ret].
    by apply (IH _ (with_values (<[calc_output a := y]> (values l)) (on_result (push_action y') l)) w2).
  - cbn [mret st_ret]. by apply (IH _ (with_values (<[calc_output a := y]> (values l)) l) w1).
Qed.

Lemma enter_outcome snap o l : same_outcome l (enter snap o l).2.
Proof. unfold enter. by destruct (snap _ _ _). Qed.

Lemma switch_next rules wires v n :
  (evaluate_rule_switch_with_details json_text rules wires v).1.1 = Some n →
  n ∈ successors (NSwitch [] rules wires).
Proof.
  induction rules as [|r rules IH]; cbn [evaluate_rule_switch_with_details]; [done|].
  destruct (evaluate_flow_conditions (b_rule r) v); [|apply IH]. intros Hn.
  apply bind_Some in Hn as (ws & Hws & Hn). cbn [successors]. apply list_elem_of_In, in_concat.
  exists ws. split.
  - apply in_map_iff. exists (b_name r, ws). split; [done|].
    by apply list_elem_of_In, elem_of_map_to_list.
  - destruct ws; [done|]. injection Hn as <-. by left.
Qed.

Lemma switch_visited snap x id vs rs ws l (w : W) :
  clean (result l) →
  let '(l', next) :=
    (visit json_text eval_number action_commands snap x id (NSwitch vs rs ws) l w).1 in
  visited (NSwitch vs rs ws) l l' next.
Proof.
  intros Hc. cbn [visit]. unfold switch_node.
  unfold mbind, st_bind. destruct (read _ _ _ w) as [[[o|e|] v] w1]; cbn [mret st_ret fst];
    [|by apply (stop_visited (NSwitch vs rs ws) ReadFailed l)..].
  destruct (negb _) eqn:Em;
    [by apply (stop_visited (NSwitch vs rs ws) (CycleSkipped (missing o)) l)|].
  set (l1 := extend_points _ _). pose proof (enter_outcome snap o l1) as Ho.
  destruct (enter snap o l1) as [s l2]. cbn [snd] in Ho.
  pose proof (switch_next rs ws (values l2)) as Hn.
  destruct (evaluate_rule_switch_with_details _ _ _ _) as [[[n|] port] cond].
  + cbn [fst] in Hn. destruct Ho as (H1 & H2 & H3), Hc as [Hs He].
    split; [done|]. split; [by apply Hn|split; by etrans].
  + apply (stop_visited (NSwitch vs rs ws) _ l); [by destruct port|apply Ho|done].
Qed.

Lemma change_visited snap x id vs rs ws l (w : W) :
  clean (result l) →
  let '(l', next) :=
    (visit json_text eval_number action_commands snap x id (NChangeValue vs rs ws) l w).1 in
  visited (NChangeValue vs rs ws) l l' next.
Proof.
  intros Hc. cbn [visit]. unfold change_value_node.
  destruct (List.find _ rs); [by apply (stop_visited (NChangeValue vs rs ws) _ l)|].
  unfold mbind, st_bind. destruct (read _ _ _ w) as [[[o|e|] v] w1]; cbn [mret st_ret fst];
    [|by apply (stop_visited (NChangeValue vs rs ws) ReadFailed l)..].
  destruct (negb _) eqn:Em;
    [by apply (stop_visited (NChangeValue vs rs ws) (CycleSkipped (missing o)) l)|].
  set (l1 := extend_points _ _). pose proof (enter_outcome snap o l1) as Ho.
  destruct (enter snap o l1) as [s l2]. cbn [snd] in Ho.
  pose proof (run_assignments_outcome x vs rs [] l2 w1) as Ha.
  destruct (run_assignments _ _ _ _ _ _ w1) as [[acts l3] w2]. cbn [fst snd mret st_ret] in *.
  set (l4 := on_result _ l3).
  pose proof (follow_visited (NChangeValue vs rs ws) ws ChangeNoWire l l4 ltac:(done) ltac:(done)) as H.
  destruct (follow ws ChangeNoWire l4). apply H; [|done].
  destruct Ho as (? & ? & ?), Ha as (? & ? & ?). split_and!; etrans; done.
Qed.

Lemma calculation_visited snap x id vs rs ws l (w : W) :
  clean (result l) →
  let '(l', next) :=
    (visit json_text eval_number action_commands snap x id (NCalculation vs rs ws) l w).1 in
  visited (NCalculation vs rs ws) l l' next.
Proof.
  intros Hc. cbn [visit]. unfold handle_calculation_node.
  unfold mbind, st_bind. destruct (read _ _ _ w) as [[[o|e|] v] w1]; cbn [mret st_ret fst];
    [|by apply (stop_visited (NCalculation vs rs ws) ReadFailed l)..].
  destruct (negb _) eqn:Em;
    [by apply (stop_visited (NCalculation vs rs ws) (CalcSkipped (missing o)) l)|].
  set (l1 := extend_points _ _). pose proof (enter_outcome snap o l1) as (H1 & H2 & H3).
  destruct (enter snap o l1) as [s l2]. cbn [snd] in *.
  assert (clean (result l2)) as Hc2 by (destruct Hc; split; etrans; done).
  pose proof (run_calculations_outcome x id vs rs [] l2 w1 Hc2) as Ha.
  destruct (run_calculations _ _ _ _ _ _ _ w1) as [[[acts|] l3] w2]; cbn [fst snd mret st_ret] in *;
    destruct Ha as [Hp Hr].
  + set (l4 := on_result _ _).
    pose proof (follow_visited (NCalculation vs rs ws) ws CalcNoWire l4 l4 ltac:(done) ltac:(done)
                  ltac:(done) Hr) as Hv.
    destruct (follow ws CalcNoWire l4) as [l5 n]. destruct Hv as [Hv1 Hv2]. split; [|done].
    etrans; [apply Hv1|]. by etrans; [apply Hp|].
  + split; [by etrans|done].
Qed.

Lemma period_visited snap x id i o p ws l (w : W) :
  clean (result l) →
  let '(l', next) :=
    (visit json_text eval_number action_commands snap x id (NPeriodDelta i o p ws) l w).1 in
  visited (NPeriodDelta i o p ws) l l' next.
Proof.
  intros Hc. cbn [visit]. unfold handle_period_delta_node.
  unfold mbind, st_bind. destruct (read _ _ _ w) as [[[oc|e|] v] w1]; cbn [mret st_ret fst];
    [|by apply (stop_visited (NPeriodDelta i o p ws) PeriodReadFailed l)..].
  destruct (negb _) eqn:Em;
    [by apply (stop_visited (NPeriodDelta i o p ws) (PeriodSkipped (missing oc)) l)|].
  set (l1 := extend_points _ _). pose proof (enter_outcome snap oc l1) as Ho.
  destruct (enter snap oc l1) as [s l2]. cbn [snd] in Ho.
  destruct (values l2 !! v_name i) as [y|]; [|by apply (stop_visited (NPeriodDelta i o p ws) _ l)].
  destruct (negb (is_finite y)); [by apply (stop_visited (NPeriodDelta i o p ws) _ l)|].
  destruct (on_calc _ w1) as [[d|e|] w2]; [|by apply (stop_visited (NPeriodDelta i o p ws) _ l)..].
  destruct (write_period_delta_result _ _ _ _ w2) as [a w3]. cbn [mret st_ret fst].
  set (l4 := on_result _ _).
  pose proof (follow_visited (NPeriodDelta i o p ws) ws PeriodNoWire l l4 ltac:(done) ltac:(done) Ho Hc) as Hv.
  by destruct (follow ws PeriodNoWire l4).
Qed.

Lemma visit_visited snap x id node l (w : W) :
  node ≠ NEnd → clean (result l) →
  let '(l', next) := (visit json_text eval_number action_commands snap x id node l w).1 in
  visited node l l' next.
Proof.
  intros Hne Hc. destruct node as [ws| |vs rs ws|vs rs ws|vs rs ws|i o p ws];
    [|done|by apply switch_visited|by apply change_visited|by apply calculation_visited
     |by apply period_visited].
  pose proof (follow_visited (NStart ws) ws StartNoWire l l ltac:(done) ltac:(done) ltac:(done) Hc) as H.
  cbn [visit mret st_ret fst]. by destruct (follow ws StartNoWire l).
Qed.

(** The outcome of the walk from a clean state. *)
Definition ends (ns : gmap string RuleNode) (r : RuleExecutionResult) : Prop :=
  ∃ p id, execution_path r = p ++ [id] ∧ ns !! id = Some NEnd.
Definition all_succeeded (r : RuleExecutionResult) : Prop :=
  Forall (fun a => success a = true) (actions_executed r).

Lemma filter_failed l :
  length (List.filter (fun a => negb (success a)) l) = O ↔ Forall (fun a => success a = true) l.
Proof.
  induction l as [|a l IH]; [split; [constructor|done]|]. rewrite Forall_cons, <- IH. cbn.
  destruct (success a); cbn; intuition lia.
Qed.

Lemma end_outcome l :
  clean (result l) →
  let r := result (end_node l).1 in
  execution_path r = execution_path (result l) ∧ actions_executed r = actions_executed (result l) ∧
  (r_success r = true ↔ all_succeeded r) ∧ (error r = None ↔ r_success r = true) ∧
  error r ≠ Some MaxIterations.
Proof.
  intros [Hs He]. unfold end_node, all_succeeded. cbn [take_values result actions_executed set_point_values
    set_variable_values]. destruct (_ =? 0)%nat eqn:Ez; bool_to_prop; cbn; rewrite <- filter_failed.
  - rewrite He. naive_solver.
  - naive_solver.
Qed.

Lemma snoc_inj {A} (p q : list A) a b : p ++ [a] = q ++ [b] → a = b.
Proof. by intros [_ ?]%app_inj_tail. Qed.

Lemma walk_outcome snap fuel x id ns l (w : W) :
  clean (result l) → ¬ ends ns (result l) →
  let r := (walk json_text eval_number action_commands snap fuel x id ns l w).1 in
  (length (execution_path r) ≤ length (execution_path (result l)) + fuel)%nat ∧
  (r_success r = true ↔ ends ns r ∧ all_succeeded r) ∧ (error r = None ↔ r_success r = true).
Proof.
  revert l w. induction fuel as [|fuel IH]; intros l w Hc Hne; cbn [walk].
  { destruct Hc as [Hs He]. cbn. rewrite Hs. split; [lia|]. naive_solver. }
  set (l1 := on_result (push_path (current_id l)) l). change (current_id l1) with (current_id l).
  assert (clean (result l1)) as Hc1 by done.
  assert (length (execution_path (result l1)) = S (length (execution_path (result l)))) as Hl
    by (cbn; rewrite length_app; cbn; lia).
  destruct (ns !! current_id l) as [node|] eqn:En.
  2: { destruct Hc as [Hs He]. cbn [mret st_ret fst on_result result set_error execution_path r_success error].
       change (r_success (result l1)) with (r_success (result l)). rewrite Hl, Hs.
       split; [lia|]. split; [|done]. split; [done|].
       intros [(p & i & Hp & Hi) _]. apply snoc_inj in Hp. congruence. }
  destruct (decide (node = NEnd)) as [->|Hnode].
  - cbn [visit]. unfold mbind, st_bind. cbn [mret st_ret].
    destruct (end_outcome l1 Hc1) as (Hp & Ha & Hs & He & _).
    destruct (end_node l1) as [l2 n] eqn:E2.
    assert (n = None) as -> by (revert E2; unfold end_node; case_match; congruence).
    cbn [mret st_ret fst] in *. split; [rewrite Hp; lia|]. split; [|done]. rewrite Hs.
    split; [|by intros [_ ?]]. intros H. split; [|done]. exists (execution_path (result l)), (current_id l). done.
  - pose proof (visit_visited snap x id node l1 w Hnode Hc1) as Hv. unfold mbind, st_bind.
    destruct (visit _ _ _ _ _ _ _ _ w) as [[l2 next] w2]. cbn [fst] in Hv. destruct Hv as [Hp Hv].
    assert (¬ ends ns (result l2)) as Hne2.
    { intros (p & i & Hpi & Hi). rewrite Hp in Hpi. apply snoc_inj in Hpi. congruence. }
    destruct next as [n|].
    + destruct Hv as [_ Hc2]. destruct (IH (with_current n l2) w2 Hc2 Hne2) as (H1 & H2 & H3).
      split; [|done]. etrans; [apply H1|]. cbn [with_current result]. rewrite Hp. lia.
    + destruct Hv as [Hs (e & He & _)]. cbn [mret st_ret fst]. rewrite Hs, He, Hp.
      split; [lia|]. naive_solver.
Qed.

(** C27. An execution visits at most [max_iterations] nodes and always returns a
    result; it reports success exactly when the walk reached an [End] node and
    every attempted action succeeded, and an error exactly when it does not. *)
Theorem execute_outcome (rule : Rule) (w : W) :
  let r := (execute json_text eval_number action_commands rule w).1 in
  (length (execution_path r) ≤ max_iterations)%nat ∧
  (r_success r = true ↔ ends (nodes (flow rule)) r ∧ all_succeeded r) ∧
  (error r = None ↔ r_success r = true).
Proof.
  unfold execute, execute_with, mbind, st_bind. destruct (on_env begin_execution w) as [x w1].
  apply (walk_outcome snapshot_or_reuse max_iterations x (rule_id rule) (nodes (flow rule))
           (MkLoop (initial_result (rule_id rule)) ∅ ∅ None (start_node (flow rule))) w1); [done|].
  intros (p & i & Hp & _). by destruct p.
Qed.

(** ** Flows without cycles run to the end *)

(** Every wire leads to a node of lower rank. *)
Definition ranked (ns : gmap string RuleNode) (rank : string → nat) : Prop :=
  ∀ id node next, ns !! id = Some node → next ∈ successors node → (rank next < rank id)%nat.

Lemma walk_ranked snap fuel x id ns rank l (w : W) :
  ranked ns rank → (rank (current_id l) < fuel)%nat → clean (result l) →
  error (walk json_text eval_number action_commands snap fuel x id ns l w).1 ≠ Some MaxIterations.
Proof.
  intros Hrank. revert l w. induction fuel as [|fuel IH]; intros l w Hf Hc; cbn [walk]; [lia|].
  set (l1 := on_result (push_path (current_id l)) l). change (current_id l1) with (current_id l).
  destruct (ns !! current_id l) as [node|] eqn:En; [|done].
  destruct (decide (node = NEnd)) as [->|Hnode].
  - cbn [visit]. unfold mbind, st_bind. cbn [mret st_ret].
    destruct (end_outcome l1 Hc) as (_ & _ & _ & _ & He).
    destruct (end_node l1) as [l2 n] eqn:E2.
    assert (n = None) as -> by (revert E2; unfold end_node; case_match; congruence). done.
  - pose proof (visit_visited snap x id node l1 w Hnode Hc) as Hv. unfold mbind, st_bind.
    destruct (visit _ _ _ _ _ _ _ _ w) as [[l2 next] w2]. cbn [fst] in Hv. destruct Hv as [_ Hv].
    destruct next as [n|].
    + destruct Hv as [Hn Hc2]. apply IH; [|done]. cbn. specialize (Hrank _ _ _ En Hn). lia.
    + destruct Hv as [_ (e & He & Hm)]. cbn. congruence.
Qed.


End Facts.

End Executor.
