(* ===== verification/ExecutorReads.v ===== *)
(** * What a rule sees

    Properties of the executor's reads: the value of a condition list, a missing
    measurement, and the snapshot cache against cloning at every node. *)

From stdpp Require Import base tactics numbers list strings gmap pretty.
From Stdlib Require Import SpecFloat.
From S2P Require Import Prelude State Text Float Domain Json Outbox Calc Rules Executor.
#[local] Open Scope Z_scope.

Module ExecutorReads.
Import Float Domain Json Rules Executor.

(** ** Conditions associate to the left *)

Definition is_relation (c : FlowCondition) : bool := bool_decide (cond_type c = "relation").

(** [c0 r1 c1 r2 c2 ...] *)
Definition chain (c0 : FlowCondition) (rest : list (FlowCondition * FlowCondition))
    : list FlowCondition := c0 :: concat (map (fun '(r, c) => [r; c]) rest).

(** One more condition joined by a relation. *)
Definition join (values : vals) (acc : bool) (rc : FlowCondition * FlowCondition) : bool :=
  let '(r, c) := rc in
  if is_or (c_value r ≫= as_str) then acc || evaluate_flow_condition c values
  else acc && evaluate_flow_condition c values.

Lemma loop_chain values rest acc :
  Forall (fun '(r, c) => is_relation r = true ∧ is_relation c = false) rest →
  conditions_loop (concat (map (fun '(r, c) => [r; c]) rest)) values acc None =
  fold_left (join values) rest acc.
Proof.
  intros Hr. revert acc. induction Hr as [|[r c] rest [Hr Hc] _ IH]; intros acc; [done|].
  cbn [map concat app conditions_loop fold_left join]. unfold is_relation in *. rewrite Hr.
  cbn [conditions_loop]. rewrite Hc. apply IH.
Qed.

(** Conditions joined by relations are evaluated strictly from left to right, [||]
    and [&&] with the same precedence, each relation applying to everything
    before it. *)
Theorem conditions_left_associative (values : vals) (c0 : FlowCondition)
    (rest : list (FlowCondition * FlowCondition)) :
  is_relation c0 = false →
  Forall (fun '(r, c) => is_relation r = true ∧ is_relation c = false) rest →
  evaluate_flow_conditions (chain c0 rest) values =
  fold_left (join values) rest (evaluate_flow_condition c0 values).
Proof.
  intros H0 Hr. unfold evaluate_flow_conditions, chain. cbn [conditions_loop].
  unfold is_relation in H0. rewrite H0. cbn [is_or andb]. by apply loop_chain.
Qed.

Definition cond (x : string) (op : string) (n : Z) : FlowCondition :=
  Condition "variable" (Some x) (Some op) (Some (Num (PosInt n))).
Definition rel (r : string) : FlowCondition := Condition "relation" None None (Some (Str r)).

(** [X > 1 || Y > 1 && Z > 1] with only [X] above one is false. *)
Lemma conditions_left_associative_witness :
  let values := {["X" := of_Z 5; "Y" := of_Z 0; "Z" := of_Z 0]} : vals in
  evaluate_flow_conditions (chain (cond "X" ">" 1) [(rel "||", cond "Y" ">" 1); (rel "&&", cond "Z" ">" 1)])
    values = false.
Proof.
  intros values. rewrite conditions_left_associative; [by vm_compute|done|by repeat constructor].
Defined.

(** A list that opens with an [||] relation holds whatever its condition says. *)
Lemma leading_or_holds values c :
  is_relation c = false → evaluate_flow_conditions [rel "||"; c] values = true.
Proof. intros Hc. unfold evaluate_flow_conditions. cbn. unfold is_relation in Hc. by rewrite Hc. Qed.

Section Reads.
Context {E C : Type} `{!RuleLiveState E} `{!CalcEngine C}.
Variable json_text : Value → string.
Variable eval_number : vals → string → option f64.
Variable action_commands : option (RuleActionCommand → st E (res Outbox.PortErrorKind CommandReceipt)).

Notation W := (world (E := E) (C := C)).
Notation read := (read_rule_variables_for_execution json_text eval_number).

(** ** A missing measurement stops the node *)

(** Reading does not change the environment. *)
Hypothesis reads_pure : ∀ x i t p e, (get_instance_for_execution x i t p e).2 = e.

(** A measurement variable with an address and no usable value. *)
Definition unavailable (x : RuleExecutionContext) (e : E) (v : RuleVariable) : Prop :=
  v_formula v = [] ∧ default "measurement" (v_point_type v) ≠ "action" ∧
  ∃ i p, v_instance v = Some i ∧ v_point v = Some p ∧
    match (get_instance_for_execution x i 0 p e).1 with
    | Some (y, _) => is_finite y = false
    | None => True
    end.

Lemma read_base_env x vs values o (w : W) : (read_base x vs values o w).2 = w.
Proof.
  revert values o. induction vs as [|v vs IH]; intros values o; cbn [read_base]; [done|].
  case_match; [apply IH|]. destruct (v_instance v) as [i|]; [|done]. destruct (v_point v) as [p|]; [|done].
  unfold mbind, st_bind, on_env.
  pose proof (reads_pure x i (if bool_decide (default "measurement" (v_point_type v) = "action") then 1 else 0)
                p (env w)) as Hp.
  destruct (get_instance_for_execution x i _ p (env w)) as [r e]. cbn in Hp. subst e.
  destruct w as [e c iss]. cbn [env calc issued] in *. destruct r as [[y t]|]; repeat case_match; apply IH.
Qed.

(** A variable stays in the missing list once it is there. *)
Lemma read_base_missing x vs values o (w : W) o' values' w' n :
  n ∈ missing o → read_base x vs values o w = (Ok o', values', w') → n ∈ missing o'.
Proof.
  revert values o w. induction vs as [|v vs IH]; intros values o w Hn; cbn [read_base].
  - by intros [= <- _ _].
  - case_match; [by apply IH|]. destruct (v_instance v) as [i|]; [|done].
    destruct (v_point v) as [p|]; [|done]. unfold mbind, st_bind. destruct (on_env _ w) as [r w1].
    destruct r as [[y t]|]; repeat case_match; apply IH; cbn; try done; apply elem_of_app; by left.
Qed.

Lemma read_formulas_missing vs values o n :
  n ∈ missing o → n ∈ missing (read_formulas json_text eval_number vs values o).1.
Proof.
  revert values o. induction vs as [|v vs IH]; intros values o Hn; cbn [read_formulas]; [done|].
  repeat case_match; apply IH; try done; apply elem_of_app; by left.
Qed.

Lemma read_unavailable x vs values (w : W) v :
  v ∈ vs → unavailable x (env w) v →
  match (read x vs values w).1.1 with Ok o => v_name v ∈ missing o | _ => True end.
Proof.
  intros Hv (Hf & Hm & i & p & Hi & Hp & Hg). unfold read_rule_variables_for_execution, mbind, st_bind.
  assert (∀ o values, match (read_base x vs values o w).1.1 with Ok o => v_name v ∈ missing o | _ => True end) as H.
  { clear values. induction vs as [|u vs IH]; [by apply elem_of_nil in Hv|]. intros o values.
    pose proof (read_base_env x (u :: vs) values o w) as Henv.
    apply elem_of_cons in Hv as [->|Hv].
    - cbn [read_base]. rewrite Hf, Hi, Hp, !bool_decide_eq_true_2, bool_decide_eq_false_2 by done.
      cbn [negb]. unfold mbind, st_bind, on_env.
      destruct (get_instance_for_execution x i 0 p (env w)) as [r e] eqn:Er. cbn [fst] in Hg.
      set (w1 := World e (calc w) (issued w)).
      assert (∀ o', v_name u ∈ missing o' →
        match (read_base x vs values o' w1).1.1 with Ok o => v_name u ∈ missing o | _ => True end) as Hk.
      { intros o' Ho'. destruct (read_base x vs values o' w1) as [[[o2|e2|] v2] w2] eqn:Eb; [|done..].
        cbn. by eapply read_base_missing. }
      destruct r as [[y t]|]; [rewrite Hg|]; apply Hk, elem_of_app; right; by apply list_elem_of_singleton.
    - cbn [read_base] in *. destruct (negb _); [by apply IH|].
      destruct (v_instance u) as [i'|]; [|done]. destruct (v_point u) as [p'|]; [|done].
      unfold mbind, st_bind, on_env in *.
      pose proof (reads_pure x i' (if bool_decide (default "measurement" (v_point_type u) = "action") then 1 else 0)
                    p' (env w)) as Hpure.
      destruct (get_instance_for_execution x i' _ p' (env w)) as [r e]. cbn in Hpure. subst e.
      assert (World (env w) (calc w) (issued w) = w) as -> by (by destruct w).
      destruct r as [[y t]|]; [destruct (is_finite y); [|destruct (bool_decide _)]|destruct (bool_decide _)]; by apply IH. }
  specialize (H (Outcome false [] ∅) values).
  destruct (read_base x vs values (Outcome false [] ∅) w) as [[[o|e|] v1] w1]; cbn in *; [|done..].
  pose proof (read_formulas_missing vs v1 o (v_name v) H) as Hk.
  by destruct (read_formulas _ _ vs v1 o).
Qed.

Definition node_variables (node : RuleNode) : list RuleVariable :=
  match node with
  | NStart _ | NEnd => []
  | NSwitch vs _ _ | NChangeValue vs _ _ | NCalculation vs _ _ => vs
  | NPeriodDelta i _ _ _ => [i]
  end.

Lemma read_world x vs values (w : W) : (read x vs values w).2 = w.
Proof.
  unfold read_rule_variables_for_execution, mbind, st_bind.
  pose proof (read_base_env x vs values (Outcome false [] ∅) w) as Hw.
  by destruct (read_base x vs values (Outcome false [] ∅) w) as [[r v] w1].
Qed.

(** A node that needs a measurement which is absent or not finite does nothing: no
    command is issued, no calculation state changes, and the execution ends
    there with an error. *)
Theorem missing_measurement_stops snap (x : RuleExecutionContext) (id : Z) (node : RuleNode)
    (l : Loop) (w : W) (v : RuleVariable) :
  v ∈ node_variables node → unavailable x (env w) v →
  let '(l', next, w') := visit json_text eval_number action_commands snap x id node l w in
  next = None ∧ is_Some (error (result l')) ∧ w' = w.
Proof.
  intros Hv Hu. pose proof (read_world x (node_variables node) (values l) w) as Hw.
  pose proof (read_unavailable x (node_variables node) (values l) w v Hv Hu) as Hm.
  destruct node as [ws| |vs rs ws|vs rs ws|vs rs ws|i o p ws]; try (by apply elem_of_nil in Hv);
    cbn [visit node_variables] in *;
    unfold switch_node, change_value_node, handle_calculation_node, handle_period_delta_node;
    [|destruct (List.find _ rs); [by split_and!|]|..];
    unfold mbind, st_bind;
    destruct (read x _ (values l) w) as [[[oc|e|] y] w1]; cbn [fst snd] in *; subst w1; try by split_and!.
  all: rewrite (bool_decide_eq_false_2 (missing oc = []));
    [by split_and!|intros Hnil; rewrite Hnil in Hm; by apply elem_of_nil in Hm].
Qed.

End Reads.

(** ** The snapshot cache *)

(** Values equal up to the sign of zero. *)
Definition is_zero (x : f64) : Prop := match x with S754_zero _ => True | _ => False end.
Definition feq (x y : f64) : Prop := x = y ∨ is_zero x ∧ is_zero y.

#[global] Instance feq_equivalence : Equivalence feq.
Proof.
  split.
  - by left.
  - intros x y [->|[? ?]]; [by left|by right].
  - intros x y z [->|[? ?]] [->|[? ?]]; unfold feq; auto.
Qed.

Lemma eqb_feq x y : eqb x y = true → feq x y.
Proof.
  destruct x as [a|a| |a m e], y as [b|b| |b m' e']; try done; try (by right);
    try (by destruct a); try (by destruct b); [by destruct a, b; try done; left|].
  unfold eqb, SFeqb. cbn. change (PosDef.Pos.compare_cont Eq m m') with (Pos.compare m m').
  destruct a, b; try done; destruct (e ?= e') eqn:Ee; try done; destruct (Pos.compare m m') eqn:Em; try done;
    apply Z.compare_eq in Ee as ->; apply Pos.compare_eq in Em as ->; by left.
Qed.

Definition veq (m m' : vals) : Prop := ∀ k, option_Forall2 feq (m !! k) (m' !! k).

#[global] Instance veq_equivalence : Equivalence veq.
Proof.
  split.
  - intros m k. by destruct (m !! k); constructor.
  - intros m m' H k. specialize (H k). by inversion H; constructor.
  - intros m m' m'' H H' k. specialize (H k). specialize (H' k).
    inversion H as [y z Hyz Hy Hz|]; inversion H' as [y' z' Hyz' Hy' Hz'|]; try congruence; constructor.
    assert (z = y') as -> by congruence. by etrans.
Qed.

Lemma veq_insert m k x : (∃ y, m !! k = Some y ∧ feq y x) → veq m (<[k := x]> m).
Proof.
  unfold veq, vals in *. intros (y & Hy & Hyx) k'. destruct (decide (k = k')) as [<-|Hne].
  - rewrite lookup_insert_eq, Hy. by constructor.
  - rewrite lookup_insert_ne by done. reflexivity.
Qed.

(** The reference: a clone at every node. *)
Definition clone (_ : option vals) (values : vals) (_ : bool) : vals * option vals :=
  (values, Some values).

Definition deq (d d' : NodeExecutionDetail) : Prop :=
  node_type d = node_type d' ∧ veq (input_values d) (input_values d') ∧
  condition_results d = condition_results d' ∧ matched_port d = matched_port d' ∧
  actions d = actions d'.

(** Results equal but for the sign of zeros in the recorded values. *)
Definition req (r r' : RuleExecutionResult) : Prop :=
  r_rule_id r = r_rule_id r' ∧ r_success r = r_success r' ∧
  actions_executed r = actions_executed r' ∧ error r = error r' ∧
  execution_path r = execution_path r' ∧ matched_condition r = matched_condition r' ∧
  veq (variable_values r) (variable_values r') ∧ point_values r = point_values r' ∧
  ∀ k, option_Forall2 deq (node_details r !! k) (node_details r' !! k).

(** Locals that agree, the cache of the first being current. *)
Definition leq0 (l l' : Loop) : Prop :=
  req (result l) (result l') ∧ values l = values l' ∧ l_point_values l = l_point_values l' ∧
  current_id l = current_id l'.
Definition current (l : Loop) : Prop :=
  match values_snapshot l with Some s => veq s (values l) | None => True end.

Section Setters.
Variables r r' : RuleExecutionResult.
Hypothesis Hr : req r r'.

Ltac solve_req := destruct Hr as (? & ? & ? & ? & ? & ? & ? & ? & ?); unfold req; cbn; split_and!;
  try done; try congruence.

Lemma req_error e : req (set_error e r) (set_error e r').
Proof. solve_req. Qed.
Lemma req_success b : req (set_success b r) (set_success b r').
Proof. solve_req. Qed.
Lemma req_action a : req (push_action a r) (push_action a r').
Proof. solve_req. Qed.
Lemma req_path i : req (push_path i r) (push_path i r').
Proof. solve_req. Qed.
Lemma req_matched m : req (set_matched m r) (set_matched m r').
Proof. solve_req. Qed.
Lemma req_points m : req (set_point_values m r) (set_point_values m r').
Proof. solve_req. Qed.
Lemma req_values v v' : veq v v' → req (set_variable_values v r) (set_variable_values v' r').
Proof. intros. solve_req. Qed.
Lemma req_detail i d d' : deq d d' → req (insert_detail i d r) (insert_detail i d' r').
Proof.
  intros Hd. solve_req. intros k. destruct (decide (i = k)) as [<-|Hne].
  - rewrite !lookup_insert_eq. by constructor.
  - by rewrite !lookup_insert_ne.
Qed.
End Setters.

Create HintDb req.
#[export] Hint Resolve req_error req_success req_action req_path req_matched req_points : req.

Lemma leq0_on_result f g l l' :
  leq0 l l' → (req (result l) (result l') → req (f (result l)) (g (result l'))) →
  leq0 (on_result f l) (on_result g l').
Proof. intros (H1 & H2 & H3 & H4) H. split_and!; cbn; auto. Qed.

Section Cache.
Context {E C : Type} `{!RuleLiveState E} `{!CalcEngine C}.
Variable json_text : Value → string.
Variable eval_number : vals → string → option f64.
Variable action_commands : option (RuleActionCommand → st E (res Outbox.PortErrorKind CommandReceipt)).

Notation W := (world (E := E) (C := C)).
Notation read := (read_rule_variables_for_execution json_text eval_number).
Notation do_visit := (visit json_text eval_number action_commands).

(** ** An unchanged read leaves the values as they were *)

Lemma read_base_unchanged x vs values o (w : W) o' values' w' :
  read_base x vs values o w = (Ok o', values', w') → values_changed o' = false →
  values_changed o = false ∧ veq values values'.
Proof.
  revert values o w. induction vs as [|v vs IH]; intros values o w; cbn [read_base].
  - by intros [= -> -> ->].
  - destruct (negb _); [by apply IH|]. destruct (v_instance v) as [i|]; [|done].
    destruct (v_point v) as [p|]; [|done]. unfold mbind, st_bind. destruct (on_env _ w) as [r w1].
    destruct r as [[y t]|]; [destruct (is_finite y); [|destruct (bool_decide _)]|destruct (bool_decide _)];
      intros Hr Hc; apply IH in Hr as [Ho Hv]; try done. cbn in Ho. apply orb_false_elim in Ho as [Ho Hch].
    split; [done|]. etrans; [|exact Hv]. apply veq_insert.
    destruct (values !! v_name v) as [y0|]; [|done]. exists y0. split; [done|left].
    unfold total_ne in Hch. apply negb_false_iff in Hch. by apply bool_decide_eq_true in Hch.
Qed.

Lemma read_formulas_unchanged vs values o :
  let '(o', values') := read_formulas json_text eval_number vs values o in
  values_changed o' = false → values_changed o = false ∧ veq values values'.
Proof.
  revert values o. induction vs as [|v vs IH]; intros values o; cbn [read_formulas]; [done|].
  destruct (bool_decide _); [apply IH|]. destruct (evaluate_token_formula _ _ _ _) as [y|].
  - set (o1 := Outcome _ _ _). specialize (IH (<[v_name v := y]> values) o1).
    destruct (read_formulas _ _ vs _ o1) as [o' values']. intros Hc. apply IH in Hc as [Ho Hv].
    cbn in Ho. apply orb_false_elim in Ho as [Ho Hch]. split; [done|]. etrans; [|exact Hv].
    apply veq_insert. destruct (values !! v_name v) as [y0|]; [|done]. exists y0. split; [done|].
    apply negb_false_iff in Hch. by apply eqb_feq.
  - set (o1 := Outcome _ _ _). specialize (IH values o1).
    by destruct (read_formulas _ _ vs _ o1).
Qed.

Lemma read_unchanged x vs values (w : W) o values' w' :
  read x vs values w = (Ok o, values', w') → values_changed o = false → veq values values'.
Proof.
  unfold read_rule_variables_for_execution, mbind, st_bind.
  destruct (read_base x vs values (Outcome false [] ∅) w) as [[[o1|e|] v1] w1] eqn:Eb; try done.
  cbn [mret st_ret]. pose proof (read_formulas_unchanged vs v1 o1) as Hf.
  destruct (read_formulas _ _ vs v1 o1) as [o2 v2]. intros [= -> -> _] Hc.
  destruct (Hf Hc) as [Ho Hv]. etrans; [|exact Hv]. by eapply read_base_unchanged.
Qed.

(** Entering a node: the cached snapshot is as good as a clone. *)
Lemma enter_leq o v l l' :
  leq0 l l' → current l → (values_changed o = false → veq (values l) v) →
  let '(s, l1) := enter snapshot_or_reuse o (extend_points (ro_point_values o) (with_values v l)) in
  let '(s', l2) := enter clone o (extend_points (ro_point_values o) (with_values v l')) in
  veq s s' ∧ leq0 l1 l2 ∧ current l1.
Proof.
  intros (Hr & Hv & Hp & Hc) Hcur Hch. unfold enter, clone, snapshot_or_reuse.
  unfold current in Hcur. cbn [values_snapshot extend_points with_values values l_point_values].
  destruct (values_changed o) eqn:Eo; [|destruct (values_snapshot l) as [s|] eqn:Es].
  - split; [reflexivity|]. split; [|cbn; reflexivity].
    split_and!; cbn; [by apply req_values|done|by rewrite Hp|done].
  - assert (veq s v) as Hsv by (etrans; [exact Hcur|by apply Hch]). split; [done|].
    split; [|by cbn]. split_and!; cbn; [by apply req_values|done|by rewrite Hp|done].
  - split; [reflexivity|]. split; [|cbn; reflexivity]. split_and!; cbn; [by apply req_values|done|by rewrite Hp|done].
Qed.

(** Two visits that agree: same next node and world, equal results, and locals fit
    to go on. *)
Definition agree (a b : Loop * option string * W) : Prop :=
  let '(l, n, w) := a in
  let '(l', n', w') := b in
  n = n' ∧ w = w' ∧ req (result l) (result l') ∧
  match n with Some _ => leq0 l l' ∧ current l | None => True end.

Lemma stop_agree e l l' w : req (result l) (result l') → agree (stop e l, w) (stop e l', w).
Proof. intros H. split_and!; [done..|by apply req_error|done]. Qed.

Lemma follow_agree ws e l l' w : leq0 l l' → current l → agree (follow ws e l, w) (follow ws e l', w).
Proof.
  intros Hl Hc. unfold follow. destruct (wires_default ws); [apply stop_agree, Hl|].
  split_and!; [done..|apply Hl|done|done].
Qed.

Lemma take_values_req l l' : leq0 l l' → req (result (take_values l)) (result (take_values l')).
Proof.
  intros (Hr & Hv & Hp & _). cbn. rewrite Hv, Hp. apply req_points, req_values; [done|reflexivity].
Qed.

Lemma leq0_read v m l l' :
  leq0 l l' → leq0 (extend_points m (with_values v l)) (extend_points m (with_values v l')).
Proof. intros (Hr & Hv & Hp & Hc). split_and!; cbn; [done|done|by rewrite Hp|done]. Qed.

Lemma switch_agree x id vs rs ws l l' (w : W) :
  leq0 l l' → current l →
  agree (do_visit snapshot_or_reuse x id (NSwitch vs rs ws) l w) (do_visit clone x id (NSwitch vs rs ws) l' w).
Proof.
  intros Hl Hcur. cbn [visit]. unfold switch_node, mbind, st_bind.
  rewrite <- (proj1 (proj2 Hl)).
  destruct (read x vs (values l) w) as [[[o|e|] v] w1] eqn:Er; cbn [mret st_ret].
  2,3: apply stop_agree, take_values_req; by destruct Hl as (? & ? & ? & ?).
  destruct (negb _); [by apply stop_agree, take_values_req, leq0_read|].
  pose proof (enter_leq o v l l' Hl Hcur (read_unchanged _ _ _ _ _ _ _ Er)) as He.
  destruct (enter snapshot_or_reuse o _) as [s l1], (enter clone o _) as [s' l2].
  destruct He as (Hs & Hl1 & Hc1). rewrite <- (proj1 (proj2 Hl1)).
  destruct (evaluate_rule_switch_with_details _ rs ws (values l1)) as [[next port] cnd].
  set (l3 := on_result (insert_detail _ _) _). set (l4 := on_result (insert_detail _ _) (on_result _ l2)).
  assert (leq0 l3 l4) as H34.
  { unfold l3, l4. cbn [current_id on_result]. rewrite (proj2 (proj2 (proj2 Hl1))).
    apply leq0_on_result; [|intros; by apply req_detail].
    apply leq0_on_result; [done|intros; by apply req_matched]. }
  destruct next as [n|]; [|by apply stop_agree, H34]. split_and!; [done..|apply H34|done|done].
Qed.

Lemma run_assignments_agree x vs rs acts l l' (w : W) :
  leq0 l l' → current l →
  let '(a, l1, w1) := run_assignments action_commands x vs rs acts l w in
  let '(a', l2, w2) := run_assignments action_commands x vs rs acts l' w in
  a = a' ∧ w1 = w2 ∧ leq0 l1 l2 ∧ current l1.
Proof.
  revert acts l l' w. induction rs as [|r rs IH]; intros acts l l' w Hl Hc; cbn [run_assignments]; [done|].
  destruct (List.find _ vs) as [v|]; [|by apply IH]. unfold mbind, st_bind.
  rewrite <- (proj1 (proj2 Hl)). destruct (execute_rule_change_for_execution _ _ _ _ _ w) as [a w1].
  apply IH; [|done]. apply leq0_on_result; [done|intros; by apply req_action].
Qed.

Lemma change_agree x id vs rs ws l l' (w : W) :
  leq0 l l' → current l →
  agree (do_visit snapshot_or_reuse x id (NChangeValue vs rs ws) l w)
        (do_visit clone x id (NChangeValue vs rs ws) l' w).
Proof.
  intros Hl Hcur. cbn [visit]. unfold change_value_node.
  destruct (List.find _ rs); [apply stop_agree, Hl|]. unfold mbind, st_bind.
  rewrite <- (proj1 (proj2 Hl)).
  destruct (read x vs (values l) w) as [[[o|e|] v] w1] eqn:Er; cbn [mret st_ret];
    [|apply stop_agree, Hl..].
  destruct (negb _); [apply stop_agree, Hl|].
  pose proof (enter_leq o v l l' Hl Hcur (read_unchanged _ _ _ _ _ _ _ Er)) as He.
  destruct (enter snapshot_or_reuse o _) as [s l1], (enter clone o _) as [s' l2].
  destruct He as (Hs & Hl1 & Hc1).
  pose proof (run_assignments_agree x vs rs [] l1 l2 w1 Hl1 Hc1) as Ha.
  destruct (run_assignments _ x vs rs [] l1 w1) as [[a l3] w2],
    (run_assignments _ x vs rs [] l2 w1) as [[a' l4] w3]. destruct Ha as (-> & -> & Hl2 & Hc2).
  apply follow_agree; [|done]. rewrite (proj2 (proj2 (proj2 Hl2))).
  apply leq0_on_result; [done|intros; by apply req_detail].
Qed.

Lemma run_calculations_agree x id vs cs acts l l' (w : W) :
  leq0 l l' →
  let '(a, l1, w1) := run_calculations action_commands x id vs cs acts l w in
  let '(a', l2, w2) := run_calculations action_commands x id vs cs acts l' w in
  a = a' ∧ w1 = w2 ∧ leq0 l1 l2.
Proof.
  revert acts l l' w. induction cs as [|c cs IH]; intros acts l l' w Hl; cbn [run_calculations]; [done|].
  unfold mbind, st_bind. rewrite <- (proj1 (proj2 Hl)).
  destruct (on_calc _ w) as [[y|e|] w1]; cbn [mret st_ret].
  2,3: split_and!; [done..|apply leq0_on_result; [done|intros; by apply req_error]].
  destruct (List.find _ vs) as [v|]; [|cbn [mret st_ret]; apply IH;
    destruct Hl as (? & Hv & ? & ?); split_and!; cbn; [done|by rewrite Hv|done|done]].
  destruct (write_calculation_result _ _ _ _ w1) as [a w2]. cbn [mret st_ret]. apply IH.
  destruct Hl as (? & Hv & ? & ?); split_and!; cbn; [by apply req_action|by rewrite Hv|done|done].
Qed.

Lemma calculation_agree x id vs rs ws l l' (w : W) :
  leq0 l l' → current l →
  agree (do_visit snapshot_or_reuse x id (NCalculation vs rs ws) l w)
        (do_visit clone x id (NCalculation vs rs ws) l' w).
Proof.
  intros Hl Hcur. cbn [visit]. unfold handle_calculation_node, mbind, st_bind.
  rewrite <- (proj1 (proj2 Hl)).
  destruct (read x vs (values l) w) as [[[o|e|] v] w1] eqn:Er; cbn [mret st_ret];
    [|apply stop_agree, Hl..].
  destruct (negb _); [apply stop_agree, Hl|].
  pose proof (enter_leq o v l l' Hl Hcur (read_unchanged _ _ _ _ _ _ _ Er)) as He.
  destruct (enter snapshot_or_reuse o _) as [s l1], (enter clone o _) as [s' l2].
  destruct He as (Hs & Hl1 & Hc1).
  pose proof (run_calculations_agree x id vs rs [] l1 l2 w1 Hl1) as Ha.
  destruct (run_calculations _ x id vs rs [] l1 w1) as [[a l3] w2],
    (run_calculations _ x id vs rs [] l2 w1) as [[a' l4] w3]. destruct Ha as (<- & -> & Hl2).
  destruct a as [acts|]; [|split_and!; [done..|apply Hl2|done]].
  apply follow_agree; [|done]. cbn [with_snapshot current_id]. rewrite (proj2 (proj2 (proj2 Hl2))).
  apply leq0_on_result; [done|intros; by apply req_detail].
Qed.

Lemma period_agree x id i o p ws l l' (w : W) :
  leq0 l l' → current l →
  agree (do_visit snapshot_or_reuse x id (NPeriodDelta i o p ws) l w)
        (do_visit clone x id (NPeriodDelta i o p ws) l' w).
Proof.
  intros Hl Hcur. cbn [visit]. unfold handle_period_delta_node, mbind, st_bind.
  rewrite <- (proj1 (proj2 Hl)).
  destruct (read x [i] (values l) w) as [[[oc|e|] v] w1] eqn:Er; cbn [mret st_ret];
    [|apply stop_agree, Hl..].
  destruct (negb _); [apply stop_agree, Hl|].
  pose proof (enter_leq oc v l l' Hl Hcur (read_unchanged _ _ _ _ _ _ _ Er)) as He.
  destruct (enter snapshot_or_reuse oc _) as [s l1], (enter clone oc _) as [s' l2].
  destruct He as (Hs & Hl1 & Hc1). rewrite <- (proj1 (proj2 Hl1)).
  destruct (values l1 !! v_name i) as [y|]; [|apply stop_agree, Hl1].
  destruct (negb (is_finite y)); [apply stop_agree, Hl1|].
  destruct (on_calc _ w1) as [[d|e|] w2]; [|apply stop_agree, Hl1..].
  destruct (write_period_delta_result _ _ _ _ w2) as [a w3]. cbn [mret st_ret].
  apply follow_agree; [|done]. cbn [with_snapshot with_values on_result current_id].
  rewrite (proj2 (proj2 (proj2 Hl1))). apply leq0_on_result; [|intros; by apply req_detail].
  destruct Hl1 as (? & Hv & ? & ?); split_and!; cbn; [by apply req_action|by rewrite Hv|done|done].
Qed.

Lemma end_agree l l' (w : W) : leq0 l l' → agree (end_node l, w) (end_node l', w).
Proof.
  intros Hl. pose proof (take_values_req l l' Hl) as Hr. unfold end_node.
  pose proof Hr as (_ & _ & Ha & _). rewrite Ha.
  destruct (_ =? 0)%nat; split_and!; try done; cbn.
  - by apply req_success.
  - by apply req_error, req_success.
Qed.

Lemma visit_agree x id node l l' (w : W) :
  leq0 l l' → current l →
  agree (do_visit snapshot_or_reuse x id node l w) (do_visit clone x id node l' w).
Proof.
  intros Hl Hc. destruct node; [by apply follow_agree|by apply end_agree|by apply switch_agree
    |by apply change_agree|by apply calculation_agree|by apply period_agree].
Qed.

Lemma walk_agree fuel x id ns l l' (w : W) :
  leq0 l l' → current l →
  let '(r, w1) := walk json_text eval_number action_commands snapshot_or_reuse fuel x id ns l w in
  let '(r', w2) := walk json_text eval_number action_commands clone fuel x id ns l' w in
  w1 = w2 ∧ req r r'.
Proof.
  revert l l' w. induction fuel as [|fuel IH]; intros l l' w Hl Hc; cbn [walk].
  { split; [done|]. by apply req_error, Hl. }
  pose proof (proj2 (proj2 (proj2 Hl))) as Hid. cbn [on_result current_id]. rewrite <- Hid.
  assert (leq0 (on_result (push_path (current_id l)) l) (on_result (push_path (current_id l)) l')) as Hl1
    by (apply leq0_on_result; [done|intros; by apply req_path]).
  destruct (ns !! current_id l) as [node|].
  - pose proof (visit_agree x id node _ _ w Hl1 Hc) as Hv. unfold mbind, st_bind.
    destruct (do_visit snapshot_or_reuse x id node _ w) as [[l1 n1] w1],
      (do_visit clone x id node _ w) as [[l2 n2] w2]. destruct Hv as (<- & <- & Hr & Hn).
    destruct n1 as [n|]; [|done]. destruct Hn as [(H1 & H2 & H3 & _) Hcur]. by apply IH.
  - split; [done|]. apply req_error, Hl1.
Qed.

(** The snapshot cache is invisible: an execution leaves the same world and returns
    the same result as one that clones the variable values at every node, up to
    the sign of zeros in the recorded values. *)
Theorem snapshot_cache_equivalent (rule : Rule) (w : W) :
  let '(r, w1) := execute json_text eval_number action_commands rule w in
  let '(r', w2) := execute_with json_text eval_number action_commands clone rule w in
  w1 = w2 ∧ req r r'.
Proof.
  unfold execute, execute_with, mbind, st_bind. destruct (on_env begin_execution w) as [x w1].
  apply walk_agree; [|done]. split_and!; try done.
  split_and!; try done. intros k. cbn. rewrite lookup_empty. constructor.
Qed.

End Cache.

(** ** A sample rule *)

Module Sample.
Export Calc.Sample.

(** Above 49 degrees, open valve 7 of instance 3. *)
Definition threshold_flow : RuleFlow := Flow "start" {[
  "start" := NStart (Wires ["check"]);
  "check" := NSwitch [Variable_ "X1" (Some 2) (Some "measurement") (Some 4) []]
               [Branch "hot" "default" [Condition "variable" (Some "X1") (Some ">=") (Some (num 49))]]
               {["hot" := ["open"]]};
  "open" := NChangeValue [Variable_ "valve" (Some 3) (Some "action") (Some 7) []]
              [Assignment "valve" (num 1)] (Wires ["end"]);
  "end" := NEnd ]}.

Definition threshold_rule : Rule := MkRule 12 "threshold" None true 0 0 None threshold_flow.

Definition measured (x : f64) : MemoryRuleLiveState := {[(2, 0, 4) := (x, 1)]}.
Definition accept (c : RuleActionCommand) : st MemoryRuleLiveState (res Outbox.PortErrorKind CommandReceipt) :=
  mret (Ok (Receipt 1 0)).

#[local] Instance sample_engine : CalcEngine (@Calc.CalcState plain_text) :=
  @calc_engine plain_text utc_calendar one_regex number_eval (fun _ => 0).

Definition run_sample (x : f64) :=
  execute (fun _ => "49") (fun v s => v !! s) (Some accept) threshold_rule (World (measured x) Calc.Sample.empty []).

Example threshold_fires :
  issued (run_sample (of_Z 50)).2 = [ActionCommand (Address 3 Action 7) one None] ∧
  r_success (run_sample (of_Z 50)).1 = true ∧
  execution_path (run_sample (of_Z 50)).1 = ["start"; "check"; "open"; "end"] ∧
  matched_condition (run_sample (of_Z 50)).1 = Some "X1>=49".
Proof. by vm_compute. Qed.

Example threshold_silent :
  issued (run_sample (of_Z 40)).2 = [] ∧ error (run_sample (of_Z 40)).1 = Some NoMatch ∧
  issued (run_sample NAN).2 = [] ∧ error (run_sample NAN).1 = Some (CycleSkipped ["X1"]).
Proof. by vm_compute. Qed.

Definition rank (id : string) : nat :=
  if bool_decide (id = "start") then 3 else if bool_decide (id = "check") then 2
  else if bool_decide (id = "open") then 1 else 0.

Lemma threshold_ranked : ranked (nodes threshold_flow) rank.
Proof.
  assert (map_Forall (fun id node => Forall (fun n => (rank n < rank id)%nat) (successors node))
            (nodes threshold_flow)) as H by (apply (bool_decide_unpack _); by vm_compute).
  intros id node next Hn Hs. specialize (H id node Hn). by eapply Forall_forall in H.
Qed.


Lemma missing_measurement_stops_witness :
  let x := Context_ None in
  let l := MkLoop (initial_result 12) ∅ ∅ None "check" in
  let w := World (∅ : MemoryRuleLiveState) Calc.Sample.empty [] in
  let node := NSwitch [Variable_ "X1" (Some 2) (Some "measurement") (Some 4) []] [] ∅ in
  let '(l', next, w') := visit (fun _ => "49") (fun v s => v !! s) (Some accept) snapshot_or_reuse x 12 node l w in
  next = None ∧ is_Some (error (result l')) ∧ w' = w.
Proof.
  intros x l w node.
  apply (missing_measurement_stops (fun _ => "49") (fun v s => v !! s) (Some accept)
           ltac:(done) snapshot_or_reuse x 12 node l w (Variable_ "X1" (Some 2) (Some "measurement") (Some 4) [])).
  - by left.
  - split; [done|]. split; [done|]. by exists 2, 4.
Defined.

End Sample.

End ExecutorReads.
