(* ===== verification/Scheduler.v ===== *)
(** * The rule scheduler (libs/aether-rules/src/scheduler.rs)

    Which rules run, and when.  A loop samples the subscribed points on a tick or
    on a watch event, selects the rules that are due, executes them without a
    lock, and then records what happened; explicit executions and reloads come in
    between.  An execution that may have reached a device without completing
    leaves a hold on its rule's input.  Instants are nanoseconds; a hold is an
    [Arc], so it has an identity besides its content; serde's conversions of
    triggers and flows are parameters. *)

From Stdlib Require Import SpecFloat.
From stdpp Require Import base tactics numbers list strings gmap pretty.
From S2P Require Import Prelude State Text Float Outbox Rules Executor.
#[local] Open Scope Z_scope.

Module Scheduler.
Import Float Rules.

(** ** Triggers *)

Inductive PointKind := Measurement | Action.
Record PointRef := Point { pr_instance : Z; pr_point_type : PointKind; pr_point : Z }.

#[global] Instance PointKind_eq_dec : EqDecision PointKind.
Proof. solve_decision. Defined.
#[global] Instance PointRef_eq_dec : EqDecision PointRef.
Proof. solve_decision. Defined.

Definition action_flag (k : PointKind) : bool := match k with Measurement => false | Action => true end.

#[global] Instance PointRef_countable : Countable PointRef.
Proof.
  refine (inj_countable (fun r => (pr_instance r, action_flag (pr_point_type r), pr_point r))
    (fun '(i, a, p) => Some (Point i (if a : bool then Action else Measurement) p)) _).
  by intros [i [] p].
Defined.

Definition cache_key (r : PointRef) : string :=
  (match pr_point_type r with Measurement => "M" | Action => "A" end) +:+ ":" +:+
  pretty (pr_instance r) +:+ ":" +:+ pretty (pr_point r).

Inductive ValueDeadband := Absolute (threshold : f64) | Percent (threshold : f64).

Definition exceeds (d : ValueDeadband) (last new : f64) : bool :=
  let delta := abs (sub new last) in
  match d with
  | Absolute threshold => ltb threshold delta
  | Percent threshold =>
      let basis := abs last in
      if eqb basis zero then negb (eqb new zero)
      else ltb threshold (mul (div delta basis) (of_Z 100))
  end.

Inductive TriggerConfig :=
| Interval (interval_ms : Z)
| OnChange (point_refs : list PointRef) (time_deadband_ms : option Z)
    (value_deadband : option ValueDeadband).

(** A sampled snapshot: absent, present without a usable value, or a value. *)
Definition snapshot : Type := gmap string (option f64).

Record OnChangeState := MkOnChange { last_value : gmap string f64; last_trigger : option Z }.

(** [now.duration_since(last).as_millis() as u64] *)
Definition elapsed_ms (now last : Z) : Z := wrap 64 (Z.max 0 (now - last) / 1000000).

(** [snapshot.get(&key).copied().flatten().filter(is_finite)] *)
Definition finite_at (s : snapshot) (r : PointRef) : option f64 :=
  match s !! cache_key r with
  | Some (Some v) => if is_finite v then Some v else None
  | _ => None
  end.

Definition point_changed (state : OnChangeState) (value_deadband : option ValueDeadband)
    (s : snapshot) (r : PointRef) : bool :=
  match finite_at s r with
  | None => false
  | Some new_value =>
      match last_value state !! cache_key r with
      | None => true
      | Some last =>
          match value_deadband with
          | Some vd => exceeds vd last new_value
          | None => total_ne last new_value
          end
      end
  end.

Definition should_trigger_onchange (state : OnChangeState) (point_refs : list PointRef)
    (time_deadband_ms : option Z) (value_deadband : option ValueDeadband) (s : snapshot) (now : Z)
    : bool :=
  if match time_deadband_ms, last_trigger state with
     | Some td, Some last => elapsed_ms now last <? td
     | _, _ => false
     end
  then false
  else existsb (point_changed state value_deadband s) point_refs.

(** ** Scheduled rules *)

Record RetryHold := Hold { hold_id : nat; held : snapshot }.

Record ScheduledRule := Scheduled {
  rule : Rule;
  trigger : TriggerConfig;
  last_execution : option Z;
  last_cooldown_start : option Z;
  retry_hold : option RetryHold;
  onchange_state : OnChangeState }.

Record ExecutionSelection := Selection {
  sel_rule : Rule; sel_trigger : TriggerConfig; sel_hold : option RetryHold }.

Definition select_execution (s : ScheduledRule) : ExecutionSelection :=
  Selection (rule s) (trigger s) (retry_hold s).

Definition refs_of (t : TriggerConfig) : list PointRef :=
  match t with OnChange refs _ _ => refs | Interval _ => [] end.
Definition trigger_subscriptions (t : TriggerConfig) : gset PointRef := list_to_set (refs_of t).

(** A subscribed value the hold does not cover. *)
Definition input_changed (h s : snapshot) (r : PointRef) : bool :=
  match finite_at s r with
  | None => false
  | Some value =>
      match h !! cache_key r with Some (Some prior) => total_ne prior value | _ => true end
  end.

Definition automatic_retry_held (e : ScheduledRule) (s : snapshot) : bool :=
  match retry_hold e with
  | None => false
  | Some h =>
      match trigger e with
      | Interval _ => true
      | OnChange refs _ _ => negb (existsb (input_changed (held h) s) refs)
      end
  end.

Definition held_input (t : TriggerConfig) (s : snapshot) : snapshot :=
  match t with
  | Interval _ => ∅
  | OnChange refs _ _ =>
      fold_left (fun out r => <[cache_key r := finite_at s r]> out) refs ∅
  end.

(** [Arc::new] takes the next identity. *)
Definition set_retry_hold (hold : bool) (s : snapshot) (e : ScheduledRule) : st nat ScheduledRule :=
  fun n =>
  let h := if hold then Some (Hold n (held_input (trigger e) s)) else None in
  (Scheduled (rule e) (trigger e) (last_execution e) (last_cooldown_start e) h (onchange_state e),
   if hold then S n else n).

(** The value an execution saw at a point: the executor's, else the sample. *)
Definition observed (point_values : gmap string f64) (s : snapshot) (r : PointRef) : option f64 :=
  match point_values !! cache_key r with
  | Some v => Some v
  | None => match s !! cache_key r with Some o => o | None => None end
  end.

Definition advance_onchange (point_values : gmap string f64) (s : snapshot) (now : Z)
    (e : ScheduledRule) : ScheduledRule :=
  match trigger e with
  | Interval _ => e
  | OnChange refs _ _ =>
      let record m r :=
        match observed point_values s r with
        | Some v => if is_finite v then <[cache_key r := v]> m else m
        | None => m
        end in
      Scheduled (rule e) (trigger e) (last_execution e) (last_cooldown_start e) (retry_hold e)
        (MkOnChange (fold_left record refs (last_value (onchange_state e))) (Some now))
  end.

(** ** Executions *)

Record ExecutionAttempt := Attempt {
  a_result : res RuleError Executor.RuleExecutionResult; timed_out : bool }.

Definition hold_automatic_retry (a : ExecutionAttempt) : bool :=
  timed_out a ||
  match a_result a with
  | Ok r => negb (Executor.r_success r) &&
            existsb (fun x => Executor.success x && bool_decide (Executor.ar_point_type x = "A"))
              (Executor.actions_executed r)
  | _ => false
  end.

Definition with_error (e : Executor.ExecError) (r : Executor.RuleExecutionResult)
    : Executor.RuleExecutionResult :=
  Executor.Result (Executor.r_rule_id r) (Executor.r_success r) (Executor.actions_executed r) (Some e)
    (Executor.execution_path r) (Executor.matched_condition r) (Executor.variable_values r)
    (Executor.point_values r) (Executor.node_details r).

(** [None]: the timeout elapsed first. *)
Definition execute_with_timeout (r : Rule)
    (finished : option (res RuleError Executor.RuleExecutionResult)) : ExecutionAttempt :=
  let a :=
    match finished with
    | Some result => Attempt result false
    | None => Attempt (Ok (Executor.Result (rule_id r) false [] (Some Executor.TimedOut) [] None ∅ ∅ ∅)) true
    end in
  if hold_automatic_retry a then
    match a_result a with
    | Ok result =>
        Attempt (Ok (with_error (Executor.RetriesHeld (Executor.error result)) result)) (timed_out a)
    | _ => a
    end
  else a.

(** What the live state answers to one batch of reads. *)
Definition live_view : Type := Z → Z → Z → option (f64 * Z).

Definition fetch_point_snapshot (live : live_view) (subscriptions : gset PointRef) : snapshot :=
  fold_left (fun out r =>
    let value :=
      match live (pr_instance r) (match pr_point_type r with Measurement => 0 | Action => 1 end)
              (pr_point r) with
      | Some (v, _) => if is_finite v then Some v else None
      | None => None
      end in
    <[cache_key r := value]> out) (elements subscriptions) ∅.

Definition retry_input (live : live_view) (a : ExecutionAttempt) (t : TriggerConfig) (s : snapshot)
    : option snapshot :=
  if negb (hold_automatic_retry a) then None
  else if timed_out a then Some (fetch_point_snapshot live (trigger_subscriptions t))
  else Some (match a_result a with
             | Ok r => (Some <$> filter (fun kv => is_finite kv.2 = true) (Executor.point_values r)) ∪ s
             | _ => s
             end).

(** ** The scheduler's operations *)

Section Scheduler.
Context {J : Type} `{EqDecision J}.
Variable trigger_to_value : TriggerConfig → option J.
Variable flow_to_value : RuleFlow → option J.
Variable trigger_from_str : string → option TriggerConfig.

Definition same_json (a b : option J) : bool :=
  match a, b with Some x, Some y => bool_decide (x = y) | _, _ => false end.

Definition same_execution_definition (left : Rule) (left_trigger : TriggerConfig)
    (right : Rule) (right_trigger : TriggerConfig) : bool :=
  (rule_id left =? rule_id right) && Bool.eqb (enabled left) (enabled right) &&
  same_json (trigger_to_value left_trigger) (trigger_to_value right_trigger) &&
  same_json (flow_to_value (flow left)) (flow_to_value (flow right)).

Definition same_definition (e : ScheduledRule) (sel : ExecutionSelection) : bool :=
  same_execution_definition (rule e) (trigger e) (sel_rule sel) (sel_trigger sel).

Definition accepts_completion (e : ScheduledRule) (sel : ExecutionSelection) : bool :=
  same_definition e sel &&
  match retry_hold e, sel_hold sel with
  | None, None => true
  | Some current, Some selected => (hold_id current =? hold_id selected)%nat
  | _, _ => false
  end.

Definition resolve_trigger (raw : option string) (cooldown : Z) : TriggerConfig * bool :=
  let fallback := Interval (if 0 <? cooldown then cooldown else 1000) in
  match raw with
  | None => (fallback, false)
  | Some json => match trigger_from_str json with Some t => (t, false) | None => (fallback, true) end
  end.

Definition preserve_schedule_state (previous loaded : list ScheduledRule) : list ScheduledRule :=
  let carried : gmap Z ScheduledRule :=
    fold_left (fun m e => <[rule_id (rule e) := e]> m) previous ∅ in
  map (fun e =>
    match carried !! rule_id (rule e) with
    | None => e
    | Some prior =>
        Scheduled (rule e) (trigger e) (last_execution prior) (last_cooldown_start prior)
          (if same_execution_definition (rule e) (trigger e) (rule prior) (trigger prior)
           then retry_hold prior else retry_hold e)
          (onchange_state prior)
    end) loaded.

Definition load_rule (r : Rule) : ScheduledRule :=
  Scheduled r (resolve_trigger (trigger_config r) (cooldown_ms r)).1 None None None (MkOnChange ∅ None).

Definition load_rules (db_rules : list Rule) (previous : list ScheduledRule) : list ScheduledRule :=
  preserve_schedule_state previous (map load_rule db_rules).

(** *** Selection: phases 0 and 1 of a tick, and of a watch event *)

Definition cooldown_ok (now : Z) (e : ScheduledRule) : bool :=
  if 0 <? cooldown_ms (rule e) then
    match last_cooldown_start e with
    | None => true
    | Some start => cooldown_ms (rule e) <=? elapsed_ms now start
    end
  else true.

Definition subscriptions (P : ScheduledRule → bool) (rules : list ScheduledRule) : gset PointRef :=
  list_to_set (concat (map (fun e => if enabled (rule e) && P e then refs_of (trigger e) else []) rules)).

Definition due (s : snapshot) (now : Z) (e : ScheduledRule) : bool :=
  match trigger e with
  | Interval interval_ms =>
      match last_execution e with None => true | Some last => interval_ms <=? elapsed_ms now last end
  | OnChange refs td vd => should_trigger_onchange (onchange_state e) refs td vd s now
  end.

Definition is_onchange (t : TriggerConfig) : bool :=
  match t with OnChange _ _ _ => true | Interval _ => false end.

Definition tick_select (s : snapshot) (now : Z) (rules : list ScheduledRule)
    : list (ExecutionSelection * bool) :=
  omap (fun e =>
    if negb (enabled (rule e)) || automatic_retry_held e s then None
    else if due s now e && cooldown_ok now e then Some (select_execution e, is_onchange (trigger e))
    else None) rules.

Definition in_ids (ids : list Z) (e : ScheduledRule) : bool := bool_decide (rule_id (rule e) ∈ ids).

Definition watch_select (ids : list Z) (s : snapshot) (now : Z) (rules : list ScheduledRule)
    : list ExecutionSelection :=
  omap (fun e =>
    if negb (enabled (rule e)) || negb (in_ids ids e) || automatic_retry_held e s then None
    else
      match trigger e with
      | Interval _ => None
      | OnChange refs td vd =>
          if should_trigger_onchange (onchange_state e) refs td vd s now && cooldown_ok now e
          then Some (select_execution e) else None
      end) rules.

(** *** Completion: phase 3 *)

Record Update := MkUpdate {
  u_rule_id : Z;
  u_start_cooldown : bool;
  u_hold_retry : bool;
  u_advance : bool;
  u_point_values : gmap string f64;
  u_selection : ExecutionSelection;
  u_retry_input : option snapshot }.

(** The record of one outcome; [onchange] is [true] on the watch path. *)
Definition update_of (sel : ExecutionSelection) (onchange : bool) (a : ExecutionAttempt)
    (input : option snapshot) : Update :=
  match a_result a with
  | Ok r =>
      MkUpdate (rule_id (sel_rule sel))
        (Executor.r_success r && negb (bool_decide (Executor.actions_executed r = [])))
        (hold_automatic_retry a) (onchange && Executor.r_success r) (Executor.point_values r) sel input
  | _ => MkUpdate (rule_id (sel_rule sel)) false (hold_automatic_retry a) false ∅ sel input
  end.

Definition accept_or_hold_completion (live : live_view) (e : ScheduledRule) (sel : ExecutionSelection)
    (hold : bool) : st nat (bool * ScheduledRule) :=
  if accepts_completion e sel then mret (true, e)
  else if hold && same_definition e sel then
    e' ← set_retry_hold true (fetch_point_snapshot live (trigger_subscriptions (trigger e))) e;
    mret (false, e')
  else mret (false, e).

Definition record_execution (now : Z) (e : ScheduledRule) : ScheduledRule :=
  Scheduled (rule e) (trigger e) (Some now) (last_cooldown_start e) (retry_hold e) (onchange_state e).
Definition start_cooldown (now : Z) (e : ScheduledRule) : ScheduledRule :=
  Scheduled (rule e) (trigger e) (last_execution e) (Some now) (retry_hold e) (onchange_state e).

Definition complete_update (live : live_view) (now : Z) (s : snapshot) (u : Update)
    (e : ScheduledRule) : st nat ScheduledRule :=
  '(accepted, e) ← accept_or_hold_completion live e (u_selection u) (u_hold_retry u);
  if accepted : bool then
    e ← set_retry_hold (u_hold_retry u) (default s (u_retry_input u)) (record_execution now e);
    let e := if u_start_cooldown u then start_cooldown now e else e in
    mret (if u_advance u then advance_onchange (u_point_values u) s now e else e)
  else mret e.

(** [rules.iter_mut().find(|scheduled| scheduled.rule.id == id)] *)
Fixpoint with_rule (id : Z) (f : ScheduledRule → st nat ScheduledRule) (rules : list ScheduledRule)
    : st nat (list ScheduledRule) :=
  match rules with
  | [] => mret []
  | e :: rest =>
      if rule_id (rule e) =? id then e ← f e; mret (e :: rest)
      else rest ← with_rule id f rest; mret (e :: rest)
  end.

Definition complete_updates (now : Z) (s : snapshot) (us : list (Update * live_view))
    (rules : list ScheduledRule) : st nat (list ScheduledRule) :=
  st_fold (fun rules '(u, live) => with_rule (u_rule_id u) (complete_update live now s u) rules) rules us.

(** *** Explicit execution *)

Definition manual_select (r : Rule) (t : TriggerConfig) (rules : list ScheduledRule)
    : option ExecutionSelection :=
  select_execution <$>
    head (filter (fun e => same_execution_definition (rule e) (trigger e) r t = true) rules).

Definition manual_complete (live : live_view) (now id : Z) (selection : option ExecutionSelection)
    (a : ExecutionAttempt) (input : option snapshot) (s : snapshot) (rules : list ScheduledRule)
    : st nat (list ScheduledRule) :=
  match selection with
  | None => mret rules
  | Some sel =>
      with_rule id (fun e =>
        '(accepted, e) ← accept_or_hold_completion live e sel (hold_automatic_retry a);
        if accepted : bool then
          if hold_automatic_retry a then set_retry_hold true (default s input) e
          else
            match retry_hold e, a_result a with
            | Some _, Ok r =>
                if Executor.r_success r then
                  e ← set_retry_hold false s e;
                  let e := record_execution now e in
                  let e := if bool_decide (Executor.actions_executed r = []) then e
                           else start_cooldown now e in
                  mret (advance_onchange (Executor.point_values r) s now e)
                else mret e
            | _, _ => mret e
            end
        else mret e) rules
  end.

Definition execute_rule_result (a : ExecutionAttempt) : res RuleError Executor.RuleExecutionResult :=
  if timed_out a then Err SchedulerError else a_result a.

(** ** Interleaving

    The loop's ticks and watch events are sequential; reloads and explicit
    executions run beside them and meet them at the rule set's lock.  A step is
    one critical section, or the sampling before it. *)

Inductive loop_state :=
| Idle
| Sampled (ids : option (list Z)) (now : Z) (s : snapshot)
| Running (now : Z) (s : snapshot) (jobs : list (ExecutionSelection * bool)).

Record Manual := MkManual {
  m_rule : Rule; m_trigger : TriggerConfig; m_selection : option ExecutionSelection; m_snapshot : snapshot }.

Record system := System {
  rules : list ScheduledRule; next_hold : nat; loop : loop_state; manuals : list Manual }.

Inductive label :=
| LReload (db_rules : list Rule)
| LSample
| LSelect (s : snapshot) (selected : list ExecutionSelection)
| LComplete (us : list Update)
| LManualStart
| LManualComplete (id : Z) (selection : option ExecutionSelection) (a : ExecutionAttempt).

Definition loop_select (ids : option (list Z)) (s : snapshot) (now : Z) (l : list ScheduledRule)
    : list (ExecutionSelection * bool) :=
  match ids with
  | None => tick_select s now l
  | Some ids => map (fun sel => (sel, true)) (watch_select ids s now l)
  end.

(** The outcome of one job, with the views its two possible reads see. *)
Record outcome := MkOutcome {
  o_job : ExecutionSelection * bool;
  o_attempt : ExecutionAttempt; o_input : live_view; o_hold : live_view }.

Definition outcome_update (s : snapshot) (o : outcome) : Update :=
  update_of (o_job o).1 (o_job o).2 (o_attempt o)
    (retry_input (o_input o) (o_attempt o) (sel_trigger (o_job o).1) s).

Inductive step : system → label → system → Prop :=
| step_reload sy db :
    NoDup (map rule_id db) →
    step sy (LReload db) (System (load_rules db (rules sy)) (next_hold sy) (loop sy) (manuals sy))
| step_sample sy ids now live :
    loop sy = Idle →
    step sy LSample
      (System (rules sy) (next_hold sy)
         (Sampled ids now (fetch_point_snapshot live
            (subscriptions (fun e => match ids with Some ids => in_ids ids e | None => true end)
               (rules sy)))) (manuals sy))
| step_select sy ids now s :
    loop sy = Sampled ids now s →
    let jobs := loop_select ids s now (rules sy) in
    step sy (LSelect s (map fst jobs))
      (System (rules sy) (next_hold sy) (match jobs with [] => Idle | _ => Running now s jobs end)
         (manuals sy))
| step_complete sy now s jobs os l n :
    loop sy = Running now s jobs → map o_job os ≡ₚ jobs →
    complete_updates now s (map (fun o => (outcome_update s o, o_hold o)) os) (rules sy) (next_hold sy)
      = (l, n) →
    step sy (LComplete (map (outcome_update s) os)) (System l n Idle (manuals sy))
| step_manual_start sy r live :
    let t := (resolve_trigger (trigger_config r) (cooldown_ms r)).1 in
    step sy LManualStart
      (System (rules sy) (next_hold sy) (loop sy)
         (MkManual r t (manual_select r t (rules sy))
            (fetch_point_snapshot live (trigger_subscriptions t)) :: manuals sy))
| step_manual_complete sy m ms a live now input l n :
    manuals sy ≡ₚ m :: ms →
    manual_complete live now (rule_id (m_rule m)) (m_selection m) a
      (retry_input input a (m_trigger m) (m_snapshot m)) (m_snapshot m) (rules sy) (next_hold sy) = (l, n) →
    step sy (LManualComplete (rule_id (m_rule m)) (m_selection m) a) (System l n (loop sy) ms).

Inductive reachable : system → Prop :=
| reach_init : reachable (System [] 0 Idle [])
| reach_step sy l sy' : reachable sy → step sy l sy' → reachable sy'.

(** The scheduled entry of a rule. *)
Definition entry (id : Z) (l : list ScheduledRule) : option ScheduledRule :=
  head (filter (fun e => rule_id (rule e) = id) l).

(** ** Holds *)

Definition bounded (n : nat) (o : option RetryHold) : Prop := ∀ h, o = Some h → (hold_id h < n)%nat.

Definition job_bounded (n : nat) (j : ExecutionSelection * bool) : Prop := bounded n (sel_hold j.1).
Definition loop_bounded (n : nat) (l : loop_state) : Prop :=
  match l with Running _ _ jobs => Forall (job_bounded n) jobs | _ => True end.
Definition manual_bounded (n : nat) (m : Manual) : Prop :=
  ∀ sel, m_selection m = Some sel → bounded n (sel_hold sel).

Definition resolved (r : Rule) : TriggerConfig := (resolve_trigger (trigger_config r) (cooldown_ms r)).1.

(** Rules have distinct ids and their own triggers, and every hold in use was allocated. *)
Definition inv (sy : system) : Prop :=
  NoDup (map (fun e => rule_id (rule e)) (rules sy)) ∧
  Forall (fun e => trigger e = resolved (rule e)) (rules sy) ∧
  Forall (fun e => bounded (next_hold sy) (retry_hold e)) (rules sy) ∧
  loop_bounded (next_hold sy) (loop sy) ∧ Forall (manual_bounded (next_hold sy)) (manuals sy).

Definition on_hold (id : Z) (l : list ScheduledRule) : Prop :=
  ∃ e h, entry id l = Some e ∧ retry_hold e = Some h.

Lemma bounded_mono n n' o : (n ≤ n')%nat → bounded n o → bounded n' o.
Proof. unfold bounded. intros Hn Hb h Hh. specialize (Hb h Hh). lia. Qed.

Lemma entry_cons id e l :
  entry id (e :: l) = if decide (rule_id (rule e) = id) then Some e else entry id l.
Proof. unfold entry. rewrite filter_cons. by case_decide. Qed.

Lemma entry_Some id l e :
  NoDup (map (fun e => rule_id (rule e)) l) →
  entry id l = Some e ↔ e ∈ l ∧ rule_id (rule e) = id.
Proof.
  induction l as [|x l IH]; cbn [map]; [intros; split; [done|by intros [?%elem_of_nil _]]|].
  intros [Hx Hl]%NoDup_cons. rewrite entry_cons, elem_of_cons. case_decide as Hd.
  - split; [intros [= <-]; auto|]. intros [[->|He] Hid]; [done|]. destruct Hx. rewrite Hd, <- Hid.
    apply list_elem_of_fmap. eauto.
  - rewrite IH by done. split; [naive_solver|]. intros [[->|He] Hid]; [done|auto].
Qed.

Lemma same_definition_refl e sel :
  same_definition e sel = true →
  same_execution_definition (rule e) (trigger e) (rule e) (trigger e) = true.
Proof.
  unfold same_definition, same_execution_definition, same_json.
  rewrite !andb_true_iff, !Z.eqb_eq, !Bool.eqb_true_iff. repeat case_match; intros; destruct_and?; try done.
  by rewrite !bool_decide_eq_true.
Qed.

(** *** What one completion does to the entry of its rule *)

(** [hold] and [accepted] say whether the outcome is uncertain and fits the entry. *)
Definition completed (hold accepted same : bool) (n : nat) (e : ScheduledRule) (n' : nat)
    (e' : ScheduledRule) : Prop :=
  rule e' = rule e ∧ trigger e' = trigger e ∧
  ((∃ h, retry_hold e' = Some h ∧ hold_id h = n ∧ n' = S n) ∨
   n' = n ∧ hold && same = false ∧
   (retry_hold e' = retry_hold e ∨ retry_hold e' = None ∧ hold = false ∧ accepted = true)).

Lemma advance_onchange_fields pv s now e :
  let e' := advance_onchange pv s now e in
  rule e' = rule e ∧ trigger e' = trigger e ∧ retry_hold e' = retry_hold e ∧
  last_execution e' = last_execution e ∧ last_cooldown_start e' = last_cooldown_start e.
Proof. unfold advance_onchange. destruct e as [? []]; by cbn. Qed.

Lemma accepts_same e sel : accepts_completion e sel = true → same_definition e sel = true.
Proof. unfold accepts_completion. by intros [? _]%andb_prop. Qed.

Lemma complete_update_completed live now s u e n e' n' :
  complete_update live now s u e n = (e', n') →
  completed (u_hold_retry u) (accepts_completion e (u_selection u)) (same_definition e (u_selection u))
    n e n' e'.
Proof.
  unfold complete_update, accept_or_hold_completion, mbind, st_bind.
  destruct (accepts_completion e (u_selection u)) eqn:Ea.
  - cbn. rewrite (accepts_same _ _ Ea). destruct (u_advance u);
      [|by destruct (u_hold_retry u), (u_start_cooldown u); intros [= <- <-]; split_and!; eauto 7].
    destruct (u_hold_retry u), (u_start_cooldown u); intros [= <- <-]; unfold completed;
      edestruct advance_onchange_fields as (-> & -> & -> & _); cbn; split_and!; eauto 7.
  - destruct (u_hold_retry u), (same_definition e (u_selection u)); cbn; intros [= <- <-];
      split_and!; eauto 7.
Qed.

Lemma manual_complete_completed live now id sel a input s l n l' n' :
  manual_complete live now id (Some sel) a input s l n = (l', n') →
  ∃ f, with_rule id f l n = (l', n') ∧
    ∀ e n e' n', f e n = (e', n') →
      completed (hold_automatic_retry a)
        (accepts_completion e sel && match a_result a with Ok r => Executor.r_success r | _ => false end)
        (same_definition e sel) n e n' e'.
Proof.
  intros Hm. eexists. split; [exact Hm|]. clear. intros e n e' n'.
  unfold accept_or_hold_completion, mbind, st_bind. destruct (accepts_completion e sel) eqn:Ea.
  - cbn. rewrite (accepts_same _ _ Ea). destruct (hold_automatic_retry a) eqn:Eh.
    { intros [= <- <-]. split_and!; eauto 7. }
    destruct (retry_hold e) as [h|] eqn:Er, (a_result a) as [r|?|]; try (intros [= <- <-]; split_and!; eauto 7).
    destruct (Executor.r_success r); [|intros [= <- <-]; split_and!; eauto 7].
    case_bool_decide; intros [= <- <-]; unfold completed;
      edestruct advance_onchange_fields as (-> & -> & -> & _); cbn; split_and!; eauto 7.
  - destruct (hold_automatic_retry a) eqn:Eh, (same_definition e sel); cbn; rewrite ?Eh; intros [= <- <-];
      split_and!; eauto 7.
Qed.

Lemma with_rule_None id f l n : entry id l = None → with_rule id f l n = (l, n).
Proof.
  induction l as [|e l IH]; [done|]. rewrite entry_cons. cbn [with_rule]. case_decide; [done|].
  intros Hl. case (Z.eqb_spec (rule_id (rule e)) id) as [?|_]; [done|]. unfold mbind, st_bind. by rewrite IH.
Qed.

(** [with_rule] replaces the entry of its rule, which keeps its identity. *)
Lemma with_rule_Some id f l n l' n' e :
  entry id l = Some e →
  (∀ e n e' n', f e n = (e', n') → rule e' = rule e) →
  with_rule id f l n = (l', n') →
  ∃ l1 l2 e', l = l1 ++ e :: l2 ∧ l' = l1 ++ e' :: l2 ∧ f e n = (e', n') ∧
    Forall (fun x => rule_id (rule x) ≠ id) l1 ∧ rule_id (rule e) = id.
Proof.
  intros He Hf. revert l' n'. induction l as [|x l IH]; [done|]; intros l' n'. rewrite entry_cons in He.
  cbn [with_rule]. unfold mbind, st_bind. case_decide as Hd.
  - simplify_eq. rewrite Z.eqb_refl. destruct (f e n) as [e' n1] eqn:Ef. intros [= <- <-].
    by exists [], l, e'.
  - case (Z.eqb_spec (rule_id (rule x)) id) as [?|_]; [done|].
    destruct (with_rule id f l n) as [l1 n1] eqn:El. intros [= <- <-].
    destruct (IH He _ _ eq_refl) as (a & b & e' & -> & -> & Ef & Ha & Hid).
    exists (x :: a), b, e'. split_and!; [done..|by constructor|done].
Qed.

Lemma entry_app id l1 l2 :
  Forall (fun x => rule_id (rule x) ≠ id) l1 → entry id (l1 ++ l2) = entry id l2.
Proof. induction 1; [done|]. cbn [app]. rewrite entry_cons. by case_decide. Qed.

Lemma entry_replace j l1 l2 e e' :
  rule e' = rule e → j ≠ rule_id (rule e) → entry j (l1 ++ e' :: l2) = entry j (l1 ++ e :: l2).
Proof.
  intros Hr Hj. induction l1 as [|x l1 IH]; cbn [app]; rewrite !entry_cons; [rewrite Hr|by rewrite IH].
  by case_decide.
Qed.

(** One critical section that completes an execution of rule [id]. *)
Record section (id : Z) (hold : bool) (sel : ExecutionSelection) (ok : bool) (n : nat)
    (l : list ScheduledRule) (n' : nat) (l' : list ScheduledRule) : Prop := {
  sec_rules : map (fun e => (rule e, trigger e)) l' = map (fun e => (rule e, trigger e)) l;
  sec_next : (n ≤ n')%nat;
  sec_bounded : Forall (fun e => bounded n (retry_hold e)) l →
                Forall (fun e => bounded n' (retry_hold e)) l';
  sec_other j : j ≠ id → entry j l' = entry j l;
  sec_entry e : entry id l = Some e →
    ∃ e', entry id l' = Some e' ∧
          completed hold (accepts_completion e sel && ok) (same_definition e sel) n e n' e' }.

Lemma with_rule_section id hold sel ok f l n l' n' :
  (∀ e n e' n', f e n = (e', n') →
     completed hold (accepts_completion e sel && ok) (same_definition e sel) n e n' e') →
  with_rule id f l n = (l', n') → section id hold sel ok n l n' l'.
Proof.
  intros Hf Hw. destruct (entry id l) as [e|] eqn:He; cycle 1.
  { rewrite with_rule_None in Hw by done. injection Hw as <- <-. split; [done|lia|done|done|congruence]. }
  pose proof Hw as (l1 & l2 & e' & -> & -> & Ef & Hl1 & Hid)%(with_rule_Some id f _ _ _ _ e);
    [|done|by intros ???? (? & _)%Hf].
  apply Hf in Ef as Hc. pose proof Hc as (Hr & Ht & Hh). assert (n ≤ n')%nat by (destruct Hh as [(? & _ & _ & ->)|(-> & _)]; lia). split.
  - by rewrite !map_app; cbn; rewrite Hr, Ht.
  - done.
  - rewrite !Forall_app, !Forall_cons. intros (H1 & He' & H2).
    split_and!; [eapply Forall_impl; [exact H1|by intros; eapply bounded_mono]| |
                 eapply Forall_impl; [exact H2|by intros; eapply bounded_mono]].
    intros h Hh'. destruct Hh as [(h' & Hh & ? & ?)|(-> & _ & [Hh|(Hh & _)])]; rewrite Hh in Hh';
      simplify_eq; [lia|by apply He'].
  - intros j Hj. apply entry_replace; congruence.
  - intros e0 He0. assert (e0 = e) as -> by congruence. exists e'. split; [|done].
    rewrite entry_app, entry_cons by done. rewrite Hr. by case_decide.
Qed.

Lemma update_section live now s u l n l' n' :
  with_rule (u_rule_id u) (complete_update live now s u) l n = (l', n') →
  section (u_rule_id u) (u_hold_retry u) (u_selection u) true n l n' l'.
Proof.
  apply with_rule_section. intros e m e' m' H. rewrite andb_true_r. by eapply complete_update_completed.
Qed.

(** The entry still has its hold, or one allocated since [n0]. *)
Definition kept (n0 : nat) (e0 e : ScheduledRule) : Prop :=
  rule e = rule e0 ∧ trigger e = trigger e0 ∧
  ∃ h, retry_hold e = Some h ∧ (retry_hold e0 = Some h ∨ (n0 ≤ hold_id h)%nat).

Lemma accepts_bounded n0 e sel h :
  bounded n0 (sel_hold sel) → retry_hold e = Some h → (n0 ≤ hold_id h)%nat →
  accepts_completion e sel = false.
Proof.
  intros Hb Hh Hn. unfold accepts_completion. rewrite Hh. apply andb_false_intro2.
  destruct (sel_hold sel) as [h'|]; [|done]. specialize (Hb h' eq_refl).
  apply Nat.eqb_neq. lia.
Qed.

Lemma accepts_like e e0 sel :
  rule e = rule e0 → trigger e = trigger e0 → retry_hold e = retry_hold e0 →
  accepts_completion e sel = accepts_completion e0 sel.
Proof. unfold accepts_completion, same_definition. by intros -> -> ->. Qed.

Lemma section_kept id hold sel ok n l n' l' n0 j e0 e :
  section id hold sel ok n l n' l' → (n0 ≤ n)%nat → bounded n0 (sel_hold sel) →
  entry j l = Some e → kept n0 e0 e →
  (j = id → hold = false → ok = true → accepts_completion e0 sel = false) →
  ∃ e', entry j l' = Some e' ∧ kept n0 e0 e'.
Proof.
  intros Hs Hn Hb He (Hr & Ht & h & Hh & Hor) Hno. destruct (decide (j = id)) as [->|Hj]; cycle 1.
  { exists e. rewrite (sec_other _ _ _ _ _ _ _ _ Hs) by done. split; [done|]. repeat split; eauto. }
  destruct (sec_entry _ _ _ _ _ _ _ _ Hs e He) as (e' & He' & Hr' & Ht' & Hc). exists e'. split; [done|].
  split; [congruence|]. split; [congruence|].
  destruct Hc as [(h' & Hh' & Hid & _)|(_ & _ & [Hsame|(_ & Hf & Hacc)])].
  - exists h'. split; [done|]. right. lia.
  - exists h. rewrite Hsame. eauto.
  - apply andb_prop in Hacc as [Hacc Hok]. exfalso. destruct Hor as [Hh0|Hn0].
    + rewrite (accepts_like e e0) in Hacc by congruence. by rewrite Hno in Hacc.
    + by rewrite (accepts_bounded n0 e sel h) in Hacc.
Qed.

Lemma complete_updates_inv now s us l n l' n' :
  complete_updates now s us l n = (l', n') →
  map (fun e => (rule e, trigger e)) l' = map (fun e => (rule e, trigger e)) l ∧ (n ≤ n')%nat ∧
  (Forall (fun e => bounded n (retry_hold e)) l → Forall (fun e => bounded n' (retry_hold e)) l').
Proof.
  revert l n. induction us as [|[u live] us IH]; intros l n.
  { intros [= <- <-]. split_and!; [done|lia|done]. }
  intros (l1 & n1 & H1 & H2)%st_bind_inv. apply update_section in H1 as [Hids Hn Hb _ _].
  apply IH in H2 as (Hids2 & Hn2 & Hb2). split_and!; [congruence|lia|auto].
Qed.

Lemma complete_updates_kept now s us l n l' n' n0 j e0 e :
  complete_updates now s us l n = (l', n') → (n0 ≤ n)%nat →
  Forall (fun ul => bounded n0 (sel_hold (u_selection ul.1))) us →
  entry j l = Some e → kept n0 e0 e →
  Forall (fun ul => u_rule_id ul.1 = j → u_hold_retry ul.1 = false →
                    accepts_completion e0 (u_selection ul.1) = false) us →
  ∃ e', entry j l' = Some e' ∧ kept n0 e0 e'.
Proof.
  intros H Hn Hb. revert l n e H Hn. induction Hb as [|[u live] us Hu Hb IH]; intros l n e.
  { intros [= <- <-] _ He Hk _. eauto. }
  intros (l1 & n1 & H1 & H2)%st_bind_inv Hn He Hk [Hno Hnos]%Forall_cons.
  apply update_section in H1 as Hs. pose proof (sec_next _ _ _ _ _ _ _ _ Hs) as Hn1.
  eapply section_kept in Hs as (e1 & He1 & Hk1); [|done..|]; [|by intros; apply Hno].
  eapply IH; [exact H2|lia|done..].
Qed.

(** An uncertain outcome of the entry's definition leaves a new hold. *)
Lemma complete_updates_uncertain now s us l n l' n' n0 j e u live :
  complete_updates now s us l n = (l', n') → (n0 ≤ n)%nat →
  Forall (fun ul => bounded n0 (sel_hold (u_selection ul.1))) us →
  entry j l = Some e → (u, live) ∈ us → u_rule_id u = j → u_hold_retry u = true →
  same_definition e (u_selection u) = true →
  ∃ e' h, entry j l' = Some e' ∧ retry_hold e' = Some h ∧ (n0 ≤ hold_id h)%nat.
Proof.
  intros H Hn Hb He Hin Hid Hh Hsame. revert l n e H Hn He Hsame Hin.
  induction Hb as [|[u1 live1] us Hu Hb IH]; intros l n e; [by intros ???? []%elem_of_nil|].
  intros (l1 & n1 & H1 & H2)%st_bind_inv Hn He Hsame Hin.
  apply update_section in H1 as Hs. pose proof (sec_next _ _ _ _ _ _ _ _ Hs) as Hn1.
  apply elem_of_cons in Hin as [[= -> ->]|Hin].
  - subst j. destruct (sec_entry _ _ _ _ _ _ _ _ Hs e He) as (e1 & He1 & Hr & Ht & Hc).
    destruct Hc as [(h & Hh1 & Hhid & _)|(_ & Hf & _)]; [|by rewrite Hh, Hsame in Hf].
    eapply (complete_updates_kept _ _ _ _ _ _ _ n0 _ e1) in H2 as (e2 & He2 & _ & _ & h2 & Hh2 & Hor);
      [|lia|done|done| |].
    + exists e2, h2. split_and!; [done|done|]. destruct Hor; [|done]. assert (h2 = h) as -> by congruence. lia.
    + repeat split; eauto.
    + eapply Forall_impl; [exact Hb|]. intros ul Hbu _ _. apply (accepts_bounded n0 e1 _ h); [exact Hbu|done|lia].
  - assert (∃ e1, entry j l1 = Some e1 ∧ rule e1 = rule e ∧ trigger e1 = trigger e) as (e1 & He1 & Hr & Ht).
    { destruct (decide (j = u_rule_id u1)) as [->|Hj].
      - destruct (sec_entry _ _ _ _ _ _ _ _ Hs e He) as (e1 & ? & ? & ? & _). eauto.
      - exists e. by rewrite (sec_other _ _ _ _ _ _ _ _ Hs). }
    eapply IH; [exact H2|lia|done| |done]. unfold same_definition in *. by rewrite Hr, Ht.
Qed.

(** *** Reload *)

Lemma entry_map id (g : ScheduledRule → ScheduledRule) l :
  (∀ e, rule (g e) = rule e) → entry id (map g l) = g <$> entry id l.
Proof.
  intros Hg. induction l as [|e l IH]; [done|]. cbn [map]. rewrite !entry_cons, Hg, IH. by case_decide.
Qed.

Lemma entry_None id l : Forall (fun x => rule_id (rule x) ≠ id) l → entry id l = None.
Proof. intros Hl. rewrite <- (app_nil_r l). by rewrite entry_app. Qed.

Lemma carried_lookup id l (m : gmap Z ScheduledRule) :
  NoDup (map (fun e => rule_id (rule e)) l) →
  fold_left (fun m e => <[rule_id (rule e) := e]> m) l m !! id =
  match entry id l with Some e => Some e | None => m !! id end.
Proof.
  revert m. induction l as [|e l IH]; intros m; cbn [map fold_left]; [done|].
  intros [He Hl]%NoDup_cons. rewrite IH, entry_cons by done. case_decide as Hd.
  - rewrite entry_None.
    + by rewrite Hd, lookup_insert_eq.
    + apply Forall_forall. intros x Hx ?. apply He, list_elem_of_fmap. exists x. split; congruence.
  - destruct (entry id l); [done|]. by rewrite lookup_insert_ne.
Qed.

(** The entry of a loaded rule: its own definition, and the state of the entry
    it replaces. *)
Lemma load_rules_entry db previous r :
  NoDup (map rule_id db) → NoDup (map (fun e => rule_id (rule e)) previous) → r ∈ db →
  entry (rule_id r) (load_rules db previous) =
  Some (match entry (rule_id r) previous with
        | None => load_rule r
        | Some prior =>
            Scheduled r (resolved r) (last_execution prior) (last_cooldown_start prior)
              (if same_execution_definition r (resolved r) (rule prior) (trigger prior)
               then retry_hold prior else None) (onchange_state prior)
        end).
Proof.
  intros Hdb Hp Hr. unfold load_rules, preserve_schedule_state.
  rewrite entry_map by (intros e; by case_match).
  assert (entry (rule_id r) (map load_rule db) = Some (load_rule r)) as ->.
  { apply entry_Some; [by rewrite map_map|]. split; [|done]. apply list_elem_of_fmap. eauto. }
  cbn [fmap option_fmap option_map rule load_rule]. rewrite carried_lookup by done.
  destruct (entry (rule_id r) previous); by rewrite ?lookup_empty.
Qed.

Lemma load_rules_fields db previous :
  map (fun e => (rule e, trigger e)) (load_rules db previous) = map (fun r => (r, resolved r)) db.
Proof.
  unfold load_rules, preserve_schedule_state. rewrite !map_map. apply map_ext. intros r. by case_match.
Qed.

Lemma load_rules_bounded db previous n :
  Forall (fun e => bounded n (retry_hold e)) previous →
  Forall (fun e => bounded n (retry_hold e)) (load_rules db previous).
Proof.
  intros Hp. unfold load_rules, preserve_schedule_state. rewrite map_map. apply Forall_map, Forall_true.
  intros r. cbn [compose]. case_match eqn:Hl; [|done]. cbn [retry_hold]. case_match; [|done].
  enough (∀ l (m : gmap Z ScheduledRule), Forall (fun e => bounded n (retry_hold e)) l →
    map_Forall (fun _ e => bounded n (retry_hold e)) m →
    map_Forall (fun _ e => bounded n (retry_hold e))
      (fold_left (fun m e => <[rule_id (rule e) := e]> m) l m)) as Hm.
  { by eapply Hm in Hl; [|done|apply map_Forall_empty]. }
  clear. intros l m Hl. revert m. induction Hl as [|e l He Hl IH]; [done|]; intros m Hm. apply IH.
  by apply map_Forall_insert_2.
Qed.

(** *** The invariant *)

Lemma fields_rules l l' :
  map (fun e => (rule e, trigger e)) l' = map (fun e => (rule e, trigger e)) l →
  map (fun e => rule_id (rule e)) l' = map (fun e => rule_id (rule e)) l ∧
  (Forall (fun e => trigger e = resolved (rule e)) l → Forall (fun e => trigger e = resolved (rule e)) l').
Proof.
  revert l'. induction l as [|e l IH]; intros [|e' l'] H; try done. injection H as Hr Ht Hl.
  apply IH in Hl as [Hi Hf]. split; [cbn; by rewrite Hr, Hi|]. rewrite !Forall_cons. intros [??].
  split; [congruence|auto].
Qed.

Lemma loop_bounded_mono n n' l : (n ≤ n')%nat → loop_bounded n l → loop_bounded n' l.
Proof.
  intros Hn. destruct l; [done..|]. intros Hl. eapply Forall_impl; [exact Hl|]. intros ?. by apply bounded_mono.
Qed.

Lemma manuals_bounded_mono n n' l :
  (n ≤ n')%nat → Forall (manual_bounded n) l → Forall (manual_bounded n') l.
Proof. intros Hn Hl. eapply Forall_impl; [exact Hl|]. intros m Hm sel Hs. by eapply bounded_mono, Hm. Qed.

Lemma select_bounded n ids s now l :
  Forall (fun e => bounded n (retry_hold e)) l → Forall (job_bounded n) (loop_select ids s now l).
Proof.
  rewrite Forall_forall. intros Hl. apply Forall_forall. intros j Hj.
  destruct ids as [ids|]; cbn in Hj; [apply list_elem_of_fmap in Hj as (sel & -> & Hj)|];
    apply list_elem_of_omap in Hj as (e & He & Hj); apply Hl in He; repeat case_match; simplify_eq; done.
Qed.

Lemma manual_section sy m ms a live now input l n :
  manuals sy ≡ₚ m :: ms → Forall (manual_bounded (next_hold sy)) (manuals sy) →
  manual_complete live now (rule_id (m_rule m)) (m_selection m) a input (m_snapshot m)
    (rules sy) (next_hold sy) = (l, n) →
  match m_selection m with
  | None => l = rules sy ∧ n = next_hold sy
  | Some sel => bounded (next_hold sy) (sel_hold sel) ∧
      section (rule_id (m_rule m)) (hold_automatic_retry a) sel
        (match a_result a with Ok r => Executor.r_success r | _ => false end)
        (next_hold sy) (rules sy) n l
  end.
Proof.
  intros Hp Hb Hc. destruct (m_selection m) as [sel|] eqn:Es; [|by injection Hc as <- <-].
  rewrite Hp, Forall_cons in Hb. split; [by apply Hb|].
  apply manual_complete_completed in Hc as (f & Hw & Hf). by eapply with_rule_section in Hw.
Qed.

Lemma step_inv sy l sy' : inv sy → step sy l sy' → inv sy' ∧ (next_hold sy ≤ next_hold sy')%nat.
Proof.
  intros (Hnd & Ht & Hb & Hl & Hm) Hstep. destruct Hstep as [sy db Hdb|sy ids now live Hi|sy ids now s Hs jobs
    |sy now s jobs os l n Hr Hp Hc|sy r live t|sy m ms a live now input l n Hp Hc];
    unfold inv; cbn [rules next_hold loop manuals].
  - split; [|lia]. pose proof (load_rules_fields db (rules sy)) as Hf. split_and!; [..|done|done].
    + apply (f_equal (map (fun x => rule_id x.1))) in Hf. rewrite !map_map in Hf. cbn in Hf. by rewrite Hf.
    + assert (Forall (fun x => x.2 = resolved x.1) (map (fun r => (r, resolved r)) db)) as Hd
        by by apply Forall_map, Forall_true.
      rewrite <- Hf in Hd. by apply Forall_map in Hd.
    + by apply load_rules_bounded.
  - split; [|lia]. by split_and!.
  - split; [|lia]. split_and!; try done. pose proof (select_bounded (next_hold sy) ids s now (rules sy) Hb) as Hj.
    fold jobs in Hj. by destruct jobs.
  - apply complete_updates_inv in Hc as (Hf & Hn & Hb'). split; [|lia]. apply fields_rules in Hf as [Hi Hf].
    split_and!; [by rewrite Hi|auto|auto|done|by eapply manuals_bounded_mono].
  - split; [|lia]. split_and!; try done. constructor; [|done]. intros sel. cbn [m_selection].
    unfold manual_select. intros (e & He & ->)%fmap_Some. cbn. apply head_Some_elem_of in He.
    apply list_elem_of_filter in He as [_ He]. rewrite Forall_forall in Hb. by apply Hb.
  - pose proof (manual_section _ _ _ _ _ _ _ _ _ Hp Hm Hc) as Hsec. pose proof Hm as Hm'.
    rewrite Hp, Forall_cons in Hm'. destruct Hm' as [_ Hms].
    destruct (m_selection m) as [sel|].
    + destruct Hsec as [_ [Hf Hn Hb' _ _]]. apply fields_rules in Hf as [Hi Hf]. split; [|lia].
      split_and!; [by rewrite Hi|auto|auto|by eapply loop_bounded_mono|by eapply manuals_bounded_mono].
    + destruct Hsec as [-> ->]. split; [|lia]. by split_and!.
Qed.

Lemma schedule_reachable_inv sy : reachable sy → inv sy.
Proof.
  induction 1 as [|sy l sy' _ IH Hs]; [by repeat constructor|]. by apply (step_inv sy l).
Qed.

(** *** Persistence *)

(** What ends a hold: the definition changes or is unloaded, an execution that
    was selected under this very hold completes without doubt. *)
Definition releases (sy : system) (l : label) (id : Z) : Prop :=
  ∃ e, entry id (rules sy) = Some e ∧
  match l with
  | LReload db =>
      Forall (fun r => same_execution_definition r (resolved r) (rule e) (trigger e) = false) db
  | LComplete us =>
      Exists (fun u => u_rule_id u = id ∧ u_hold_retry u = false ∧
                       accepts_completion e (u_selection u) = true) us
  | LManualComplete id' (Some sel) a =>
      id' = id ∧ hold_automatic_retry a = false ∧ accepts_completion e sel = true ∧
      match a_result a with Ok r => Executor.r_success r = true | _ => False end
  | _ => False
  end.

(** The step completes an execution of the loaded definition with an unknown
    effect: it timed out, or failed after a device accepted an action. *)
Definition uncertain (sy : system) (l : label) (id : Z) : Prop :=
  ∃ e, entry id (rules sy) = Some e ∧
  match l with
  | LComplete us =>
      Exists (fun u => u_rule_id u = id ∧ u_hold_retry u = true ∧
                       same_definition e (u_selection u) = true) us
  | LManualComplete id' (Some sel) a =>
      id' = id ∧ hold_automatic_retry a = true ∧ same_definition e sel = true
  | _ => False
  end.

Lemma outcomes_bounded n s os jobs :
  Forall (job_bounded n) jobs → map o_job os ≡ₚ jobs →
  Forall (fun ul : Update * live_view => bounded n (sel_hold (u_selection ul.1)))
    (map (fun o => (outcome_update s o, o_hold o)) os).
Proof.
  intros Hj Hp. rewrite <- Hp, Forall_map in Hj. apply Forall_map. eapply Forall_impl; [exact Hj|].
  intros o Ho. cbn. unfold outcome_update, update_of. by case_match.
Qed.

Lemma kept_refl n0 e h : retry_hold e = Some h → kept n0 e e.
Proof. repeat split; eauto. Qed.

Lemma Forall_map_updates (P : Update → Prop) s (os : list outcome) :
  Forall (fun ul : Update * live_view => P ul.1) (map (fun o => (outcome_update s o, o_hold o)) os) ↔
  Forall P (map (outcome_update s) os).
Proof. by rewrite !Forall_map. Qed.

Lemma step_keeps sy l sy' id :
  inv sy → step sy l sy' → on_hold id (rules sy) → (¬ releases sy l id) → on_hold id (rules sy').
Proof.
  intros (Hnd & Ht & Hb & Hl & Hm) Hstep (e & h & He & Hh) Hno. destruct Hstep as [sy db Hdb|sy ids now live Hi
    |sy ids now s Hs jobs|sy now s jobs os l n Hr Hp Hc|sy r live t|sy m ms a live now input l n Hp Hc];
    cbn [rules]; try by exists e, h.
  - destruct (decide (Forall (fun r => same_execution_definition r (resolved r) (rule e) (trigger e) = false) db))
      as [Hf|(r & Hr & Hs)%not_Forall_Exists%Exists_exists]; [destruct Hno; by exists e| |intros ?; apply _].
    apply not_false_is_true in Hs. assert (rule_id r = id) as <-.
    { unfold same_execution_definition in Hs. rewrite !andb_true_iff, Z.eqb_eq in Hs.
      apply entry_Some in He as [_ <-]; [|done]. apply Hs. }
    eexists _, h. split; [by apply load_rules_entry|]. rewrite He. cbn. by rewrite Hs.
  - rewrite Hr in Hl. eapply (complete_updates_kept _ _ _ _ _ _ _ (next_hold sy) id e e) in Hc
      as (e' & He' & _ & _ & h' & Hh' & _); [by exists e', h'|lia|by eapply outcomes_bounded|done
      |by eapply kept_refl|].
    apply (Forall_map_updates (fun u => u_rule_id u = id → u_hold_retry u = false →
                                        accepts_completion e (u_selection u) = false)).
    apply Forall_forall. intros u Hu Hid Hhold. destruct (accepts_completion e (u_selection u)) eqn:Ea; [|done].
    destruct Hno. exists e. split; [done|]. apply Exists_exists. eauto.
  - pose proof (manual_section _ _ _ _ _ _ _ _ _ Hp Hm Hc) as Hsec.
    destruct (m_selection m) as [sel|] eqn:Es; [|destruct Hsec as [-> _]; by exists e, h].
    destruct Hsec as [Hbs Hsec]. eapply (section_kept _ _ _ _ _ _ _ _ (next_hold sy) id e e) in Hsec
      as (e' & He' & _ & _ & h' & Hh' & _); [by exists e', h'|lia|done|done|by eapply kept_refl|].
    intros Hid Hhold Hok. destruct (accepts_completion e sel) eqn:Ea; [|done].
    destruct Hno. exists e. split; [done|]. split_and!; [done..|]. by destruct (a_result a).
Qed.

Lemma step_uncertain sy l sy' id : inv sy → step sy l sy' → uncertain sy l id → on_hold id (rules sy').
Proof.
  intros (Hnd & Ht & Hb & Hl & Hm) Hstep (e & He & Hu). destruct Hstep as [| | |sy now s jobs os l n Hr Hp Hc
    | |sy m ms a live now input l n Hp Hc]; try done; cbn [rules].
  - apply Exists_exists in Hu as (u & (o & -> & Ho)%list_elem_of_fmap & Hid & Hhold & Hsame). rewrite Hr in Hl.
    eapply complete_updates_uncertain in Hc as (e' & h & He' & Hh & _); [by exists e', h|done
      |by eapply outcomes_bounded|done| |done..]. apply list_elem_of_fmap. by exists o.
  - pose proof (manual_section _ _ _ _ _ _ _ _ _ Hp Hm Hc) as Hsec. destruct (m_selection m) as [sel|]; [|done].
    destruct Hu as (<- & Hhold & Hsame). destruct Hsec as [_ Hsec].
    destruct (sec_entry _ _ _ _ _ _ _ _ Hsec e He) as (e' & He' & _ & _ & Hcomp).
    destruct Hcomp as [(h & Hh & _)|(_ & Hf & _)]; [by exists e', h|]. by rewrite Hhold, Hsame in Hf.
Qed.

(** Steps none of which ends the hold of rule [id]. *)
Inductive guarded (id : Z) : system → system → Prop :=
| guarded_refl sy : guarded id sy sy
| guarded_step sy l sy' sy'' :
    step sy l sy' → (¬ releases sy l id) → guarded id sy' sy'' → guarded id sy sy''.

Lemma guarded_keeps id sy sy' :
  guarded id sy sy' → inv sy → on_hold id (rules sy) → inv sy' ∧ on_hold id (rules sy').
Proof.
  induction 1 as [|sy l sy' sy'' Hs Hno _ IH]; [done|]. intros Hi Hh.
  apply IH; [by apply (step_inv sy l)|by eapply step_keeps].
Qed.

Lemma held_selection s e :
  automatic_retry_held e s = false → ∀ h, retry_hold e = Some h →
  ∃ r v, r ∈ refs_of (trigger e) ∧ is_onchange (trigger e) = true ∧ finite_at s r = Some v ∧
         held h !! cache_key r ≠ Some (Some v).
Proof.
  unfold automatic_retry_held. intros Ha h Hh. rewrite Hh in Ha. destruct (trigger e) as [|refs td vd]; [done|].
  apply negb_false_iff, existsb_exists in Ha as (r & Hr & Hc). unfold input_changed in Hc.
  destruct (finite_at s r) as [v|] eqn:Hv; [|done]. exists r, v. split_and!; [by apply list_elem_of_In|done|done|].
  intros Heq. rewrite Heq in Hc. unfold total_ne in Hc. by rewrite bool_decide_true in Hc.
Qed.

(** C2. A command whose effect is unknown is never retried blindly: after an execution
    of a loaded rule timed out or failed with an accepted action, in every
    interleaving with ticks, watch events, reloads and explicit executions, no
    tick and no watch event selects the rule again before its definition changes
    or an execution selected under that hold completes without doubt, unless a
    subscribed point has a finite value that differs from the held input. *)
Theorem uncertain_not_retried (id : Z) (sy sy1 sy2 sy3 : system) (l : label) (s : snapshot)
    (selected : list ExecutionSelection) (sel : ExecutionSelection) :
  reachable sy → step sy l sy1 → uncertain sy l id → guarded id sy1 sy2 →
  step sy2 (LSelect s selected) sy3 → sel ∈ selected → rule_id (sel_rule sel) = id →
  ∃ h r v, sel_hold sel = Some h ∧ is_onchange (sel_trigger sel) = true ∧
           r ∈ refs_of (sel_trigger sel) ∧ finite_at s r = Some v ∧ held h !! cache_key r ≠ Some (Some v).
Proof.
  intros Hreach Hs1 Hu Hg Hs2 Hsel Hid. apply schedule_reachable_inv in Hreach as Hi.
  pose proof (step_uncertain _ _ _ _ Hi Hs1 Hu) as Hh. apply (step_inv _ _ _ Hi) in Hs1 as [Hi1 _].
  destruct (guarded_keeps _ _ _ Hg Hi1 Hh) as [(Hnd & _) (e & h & He & Hhe)].
  inversion Hs2 as [| |? ids now ? Hl jobs| | |]; subst. apply list_elem_of_fmap in Hsel as ([sel' b] & -> & Hj).
  assert (∃ e', e' ∈ rules sy2 ∧ sel' = select_execution e' ∧ automatic_retry_held e' s = false)
    as (e' & He' & -> & Ha).
  { unfold jobs, loop_select in Hj. destruct ids; [apply list_elem_of_fmap in Hj as (? & [= <- _] & Hj)|];
      apply list_elem_of_omap in Hj as (e' & He' & Hj); exists e';
      destruct (_ || automatic_retry_held e' s) eqn:Ha in Hj; try done;
      apply orb_false_elim in Ha as [_ Ha]; split_and!; try done; by repeat case_match; simplify_eq. }
  assert (e' = e) as ->.
  { assert (entry (rule_id (rule e')) (rules sy2) = Some e') by by apply entry_Some. cbn in He. congruence. }
  destruct (held_selection s e Ha h Hhe) as (r & v & ?). exists h, r, v. naive_solver.
Qed.

(** ** Samples *)

Lemma cache_key_inj r r' : cache_key r = cache_key r' → r = r'.
Proof.
  destruct r as [i k p], r' as [i' k' p']. unfold cache_key. cbn [pr_instance pr_point_type pr_point].
  intros [Hk Hr]%colon_split; [|by destruct k|by destruct k'].
  apply colon_split in Hr as [->%(inj pretty) ->%(inj pretty)]; [|auto..]. by destruct k, k'.
Qed.

Lemma fold_insert_lookup (f : PointRef → option f64) l (m : gmap string (option f64)) r :
  fold_left (fun out r => <[cache_key r := f r]> out) l m !! cache_key r =
  if decide (r ∈ l) then Some (f r) else m !! cache_key r.
Proof.
  revert m. induction l as [|x l IH]; intros m; cbn [fold_left]; [done|]. rewrite IH.
  case_decide as Hr; [by rewrite decide_True by by right|]. destruct (decide (r = x)) as [Hx|Hx].
  - rewrite Hx, lookup_insert_eq, decide_True; [done|by left].
  - rewrite lookup_insert_ne by (intros ?%cache_key_inj; congruence). rewrite decide_False; [done|].
    intros [?|?]%elem_of_cons; congruence.
Qed.

(** The finite value the live state has at a point. *)
Definition live_value (live : live_view) (r : PointRef) : option f64 :=
  match live (pr_instance r) (match pr_point_type r with Measurement => 0 | Action => 1 end)
          (pr_point r) with
  | Some (v, _) => if is_finite v then Some v else None
  | None => None
  end.

Lemma live_value_finite live r v : live_value live r = Some v → is_finite v = true.
Proof. unfold live_value. repeat case_match; naive_solver. Qed.

Lemma fetch_finite live subs r :
  r ∈ subs → finite_at (fetch_point_snapshot live subs) r = live_value live r.
Proof.
  intros Hr. unfold finite_at, fetch_point_snapshot. rewrite (fold_insert_lookup (live_value live)).
  rewrite decide_True by by apply elem_of_elements.
  destruct (live_value live r) as [v|] eqn:Hv; [|done]. by rewrite (live_value_finite _ _ _ Hv).
Qed.

(** Decisions depend on a snapshot only at the points of the trigger. *)
Definition agree (l : list PointRef) (s s' : snapshot) : Prop := ∀ r, r ∈ l → finite_at s r = finite_at s' r.

Lemma existsb_ext {A} (f g : A → bool) l : (∀ x, x ∈ l → f x = g x) → existsb f l = existsb g l.
Proof.
  induction l as [|x l IH]; intros Hf; [done|]. cbn [existsb]. rewrite Hf by by left. rewrite IH; [done|].
  intros y Hy. apply Hf. by right.
Qed.

Lemma retry_held_agree e s s' :
  agree (refs_of (trigger e)) s s' → automatic_retry_held e s = automatic_retry_held e s'.
Proof.
  unfold automatic_retry_held. destruct (retry_hold e) as [h|]; [|done]. destruct (trigger e) as [|refs td vd]; [done|].
  cbn. intros Ha. f_equal. apply existsb_ext. intros r Hr. unfold input_changed. by rewrite (Ha r Hr).
Qed.

Lemma should_trigger_agree st refs td vd s s' now :
  agree refs s s' →
  should_trigger_onchange st refs td vd s now = should_trigger_onchange st refs td vd s' now.
Proof.
  intros Ha. unfold should_trigger_onchange. case_match; [done|]. apply existsb_ext. intros r Hr.
  unfold point_changed. by rewrite (Ha r Hr).
Qed.

Lemma subscribed P e l r :
  e ∈ l → enabled (rule e) = true → P e = true → r ∈ refs_of (trigger e) → r ∈ subscriptions P l.
Proof.
  intros He Hen HP Hr. apply elem_of_list_to_set, list_elem_of_In, in_concat.
  exists (refs_of (trigger e)). split; [|by apply list_elem_of_In]. apply in_map_iff. exists e.
  rewrite Hen, HP. split; [done|by apply list_elem_of_In].
Qed.

Lemma omap_filter_map {A B C} (f : A → option C) (g : A → option B) (P : B → bool) (h : B → C) l :
  (∀ a, a ∈ l → f a = match g a with Some b => if P b then Some (h b) else None | None => None end) →
  omap f l = map h (List.filter P (omap g l)).
Proof.
  induction l as [|a l IH]; intros Hf; [done|]. cbn [omap list_omap]. rewrite (Hf a) by by left.
  rewrite IH by (intros; apply Hf; by right). destruct (g a) as [b|]; [|done]. cbn [List.filter].
  by destruct (P b).
Qed.

(** C36. The event-driven path never differs from the tick: on the same live state and
    instant, a watch event selects exactly the change-triggered rules among its
    candidates that a full tick would select. *)
Theorem watch_equivalent (live : live_view) (ids : list Z) (now : Z) (l : list ScheduledRule) :
  watch_select ids (fetch_point_snapshot live (subscriptions (in_ids ids) l)) now l =
  map fst (List.filter (fun j => j.2 && bool_decide (rule_id (sel_rule j.1) ∈ ids))
    (tick_select (fetch_point_snapshot live (subscriptions (fun _ => true) l)) now l)).
Proof.
  apply omap_filter_map. intros e He. destruct (enabled (rule e)) eqn:Hen; cbn [negb orb]; [|done].
  destruct (in_ids ids e) eqn:Hin; cbn [negb orb].
  - assert (agree (refs_of (trigger e)) (fetch_point_snapshot live (subscriptions (in_ids ids) l))
              (fetch_point_snapshot live (subscriptions (fun _ => true) l))) as Ha.
    { intros r Hr. rewrite !fetch_finite; [done|by eapply subscribed..]. }
    rewrite (retry_held_agree _ _ _ Ha). case_match; [done|]. unfold due.
    destruct (trigger e) as [ms|refs td vd] eqn:Ht; [by destruct (_ && _)|].
    rewrite (should_trigger_agree _ _ _ _ _ _ _ Ha). destruct (_ && _); [|done]. cbn [fst snd andb is_onchange].
    cbn [sel_rule select_execution]. unfold in_ids in Hin. by rewrite Hin.
  - destruct (automatic_retry_held _ _); [done|]. destruct (_ && _); [|done]. cbn [fst snd]. unfold in_ids in Hin.
    cbn [sel_rule select_execution]. by rewrite Hin, andb_false_r.
Qed.

(** ** Change detection *)

Lemma exceeds_self d v :
  is_finite v = true → match d with Absolute t | Percent t => ltb t zero = false end →
  exceeds d v v = false.
Proof.
  intros Hv Ht. unfold exceeds. rewrite sub_self by done. destruct d as [t|t]; [done|].
  destruct v as [s|s| |s m e]; done.
Qed.

Lemma advanced_lookup pv s refs (m : gmap string f64) r v :
  r ∈ refs → observed pv s r = Some v → is_finite v = true →
  fold_left (fun m r =>
    match observed pv s r with
    | Some v => if is_finite v then <[cache_key r := v]> m else m
    | None => m
    end) refs m !! cache_key r = Some v.
Proof.
  intros Hr Ho Hf.
  enough (∀ m : gmap string f64, r ∈ refs ∨ m !! cache_key r = Some v → fold_left (fun m r =>
    match observed pv s r with
    | Some v => if is_finite v then <[cache_key r := v]> m else m
    | None => m
    end) refs m !! cache_key r = Some v) by auto.
  clear Hr m. induction refs as [|x refs IH]; intros m; cbn [fold_left]; [by intros [[]%elem_of_nil|]|].
  intros Hor. apply IH. destruct (decide (x = r)) as [->|Hx].
  - right. by rewrite Ho, Hf, lookup_insert_eq.
  - destruct Hor as [[?|?]%elem_of_cons|Hm]; [congruence|auto|]. right.
    destruct (observed pv s x) as [w|]; [|done]. destruct (is_finite w); [|done].
    rewrite lookup_insert_ne; [done|]. intros ?%cache_key_inj. congruence.
Qed.

(** A change fires once: after a completed execution recorded its input, the rule
    does not trigger again while every sampled value is the recorded one,
    whatever the deadbands, as long as no threshold is negative. *)
Theorem advance_quiet (e : ScheduledRule) (refs : list PointRef) (td : option Z) (vd : option ValueDeadband)
    (pv : gmap string f64) (s s' : snapshot) (now now' : Z) :
  trigger e = OnChange refs td vd →
  match vd with Some (Absolute t) | Some (Percent t) => ltb t zero = false | None => True end →
  (∀ r v, r ∈ refs → finite_at s' r = Some v → observed pv s r = Some v) →
  due s' now' (advance_onchange pv s now e) = false.
Proof.
  intros Ht Hvd Hobs. unfold due, advance_onchange. rewrite Ht. cbn [trigger onchange_state].
  unfold should_trigger_onchange. match goal with |- (if ?b then _ else _) = _ => destruct b end; [done|]. apply not_true_is_false.
  intros (r & Hr & Hc)%existsb_exists. apply list_elem_of_In in Hr. unfold point_changed in Hc.
  destruct (finite_at s' r) as [v|] eqn:Hv; [|done].
  assert (is_finite v = true) as Hf by (unfold finite_at in Hv; repeat case_match; naive_solver).
  cbn [last_value] in Hc. rewrite (advanced_lookup pv s refs _ r v) in Hc by auto.
  destruct vd as [d|]; [rewrite exceeds_self in Hc by (destruct d; auto); done|].
  unfold total_ne in Hc. by rewrite bool_decide_true in Hc.
Qed.

(** ** Reload *)

(** A reload forgets nothing about the rules it loads again: last execution,
    cooldown and change baseline are carried over by id, and an unchanged rule's
    entry, its hold included, is exactly the one before. *)
Theorem reload_keeps (db : list Rule) (sy : system) (r : Rule) (e : ScheduledRule) :
  reachable sy → NoDup (map rule_id db) → r ∈ db → entry (rule_id r) (rules sy) = Some e →
  ∃ e', entry (rule_id r) (load_rules db (rules sy)) = Some e' ∧ rule e' = r ∧
    last_execution e' = last_execution e ∧ last_cooldown_start e' = last_cooldown_start e ∧
    onchange_state e' = onchange_state e ∧
    (rule e = r → is_Some (trigger_to_value (trigger e)) → is_Some (flow_to_value (flow r)) → e' = e).
Proof.
  intros (Hnd & Hres & _)%schedule_reachable_inv Hdb Hr He. eexists. split; [by apply load_rules_entry|]. rewrite He.
  split_and!; [done..|]. intros <- [x Hx] [y Hy]. apply entry_Some in He as [He _]; [|done].
  rewrite Forall_forall in Hres. rewrite <- (Hres e He).
  assert (same_execution_definition (rule e) (trigger e) (rule e) (trigger e) = true) as ->; [|by destruct e].
  unfold same_execution_definition, same_json. rewrite Hx, Hy, !bool_decide_true, Z.eqb_refl by done.
  by destruct (enabled (rule e)).
Qed.

End Scheduler.

(** ** The explicit-execution port ([AutomationRuleExecutor for RuleScheduler]) *)

Definition rule_execution_port_error (e : RuleError) : Outbox.PortErrorKind :=
  match e with
  | NotFound | InvalidFormat | ParseError | SerializationError => Outbox.InvalidData
  | AlreadyExists => Outbox.Conflict
  | ExecutionError | ConditionError | ActionError | RoutingError => Outbox.Rejected
  | DatabaseError | SchedulerError => Outbox.Unavailable
  end.

Record RuleExecutionReceipt := Receipt {
  rr_rule_id : Z; rr_completed_at : Z; actions_attempted : Z; actions_succeeded : Z }.

(** [now] is [chrono::Utc::now().timestamp_millis()]. *)
Definition execute_port (execute_rule : Z → res RuleError Executor.RuleExecutionResult) (now : Z) (id : Z)
    : res Outbox.PortErrorKind RuleExecutionReceipt :=
  if 2 ^ 63 <=? id then Err Outbox.InvalidData
  else
    match execute_rule id with
    | Err e => Err (rule_execution_port_error e)
    | Panic => Panic
    | Ok r =>
        let attempted := Z.of_nat (length (Executor.actions_executed r)) in
        let succeeded := Z.of_nat (length (List.filter Executor.success (Executor.actions_executed r))) in
        if negb (in_ub 32 attempted) then Err Outbox.InvalidData
        else if negb (in_ub 32 succeeded) then Err Outbox.InvalidData
        else if negb (Executor.r_success r) then Err Outbox.Rejected
        else Ok (Receipt id (Z.max now 0) attempted succeeded)
    end.

(** ** A run *)

Module Sample.

Definition TriggerOrFlow : Type := TriggerConfig + RuleFlow.
#[global] Instance deadband_eq_dec : EqDecision ValueDeadband.
Proof. solve_decision. Defined.
#[global] Instance trigger_eq_dec : EqDecision TriggerConfig.
Proof. solve_decision. Defined.
#[global] Instance trigger_or_flow_eq_dec : EqDecision TriggerOrFlow.
Proof. unfold TriggerOrFlow. apply _. Defined.

Definition trigger_value (t : TriggerConfig) : option TriggerOrFlow := Some (inl t).
Definition flow_value (f : RuleFlow) : option TriggerOrFlow := Some (inr f).
Definition parse_trigger (s : string) : option TriggerConfig :=
  if bool_decide (s = "change") then Some (OnChange [Point 1 Measurement 0] (Some 200) None) else None.

Definition watched : Rule := MkRule 7 "watched" None true 0 0 (Some "change") Rules.sample_flow.
Definition constant (v : f64) : live_view := fun _ _ _ => Some (v, 0).

(** Load, sample 1.0, select, time out, reload, sample 2.0. *)
Definition loaded : system := System (load_rules trigger_value flow_value parse_trigger [watched] []) 0 Idle [].
Definition sampled (v : f64) (now : Z) (sy : system) : system :=
  System (rules sy) (next_hold sy)
    (Sampled None now (fetch_point_snapshot (constant v) (subscriptions (fun _ => true) (rules sy)))) (manuals sy).
Definition selected (sy : system) : system :=
  match loop sy with
  | Sampled ids now s =>
      let jobs := loop_select ids s now (rules sy) in
      System (rules sy) (next_hold sy) (match jobs with [] => Idle | _ => Running now s jobs end) (manuals sy)
  | _ => sy
  end.
Definition timeout_of (j : ExecutionSelection * bool) : outcome :=
  MkOutcome j (execute_with_timeout (sel_rule j.1) None) (constant one) (constant one).
Definition timeout_updates (sy : system) : list Update :=
  match loop sy with Running _ s jobs => map (outcome_update s) (map timeout_of jobs) | _ => [] end.
Definition all_timed_out (sy : system) : system :=
  match loop sy with
  | Running now s jobs =>
      let '(l, n) := complete_updates trigger_value flow_value now s
        (map (fun o => (outcome_update s o, o_hold o)) (map timeout_of jobs)) (rules sy) (next_hold sy) in
      System l n Idle (manuals sy)
  | _ => sy
  end.

Definition running : system := Eval vm_compute in selected (sampled one 5 loaded).
Definition timed_out_run : system := Eval vm_compute in all_timed_out running.
Definition sampled_again : system := Eval vm_compute in sampled (of_Z 2) 300000000 timed_out_run.
Definition two : snapshot := {[ "M:1:0" := Some (of_Z 2) ]}.
Definition first : ExecutionSelection :=
  Selection watched (OnChange [Point 1 Measurement 0] (Some 200) None) None.
Definition second : ExecutionSelection :=
  Selection watched (OnChange [Point 1 Measurement 0] (Some 200) None)
    (Some (Hold 0 {[ "M:1:0" := Some one ]})).

Notation step := (step trigger_value flow_value parse_trigger).
Notation reachable := (reachable trigger_value flow_value parse_trigger).

(** The same sample again selects nothing; the changed one does. *)
Example held_run :
  tick_select (fetch_point_snapshot (constant one) {[ Point 1 Measurement 0 ]}) 300000000 (rules timed_out_run) = [] ∧
  map fst (tick_select two 300000000 (rules timed_out_run)) = [second].
Proof. by vm_compute. Qed.

Lemma step_selected sy sy' ids now s l :
  loop sy = Sampled ids now s → map fst (loop_select ids s now (rules sy)) = l → selected sy = sy' →
  step sy (LSelect s l) sy'.
Proof. intros Hl <- <-. unfold selected. rewrite Hl. by apply step_select with (now := now). Qed.

Lemma step_sampled sy v now sy' : loop sy = Idle → sampled v now sy = sy' → step sy LSample sy'.
Proof. intros Hl <-. by apply step_sample with (ids := None) (live := constant v). Qed.

Lemma loaded_reachable : reachable loaded.
Proof.
  eapply reach_step; [apply reach_init|]. apply (step_reload _ _ _ (System [] 0 Idle []) [watched]).
  by repeat constructor; intros ?%elem_of_nil.
Qed.

Lemma running_reachable : reachable running.
Proof.
  apply (reach_step _ _ _ (sampled one 5 loaded) (LSelect {[ "M:1:0" := Some one ]} [first])).
  - eapply reach_step; [apply loaded_reachable|].
    by apply (step_sampled _ one 5).
  - by apply (step_selected _ _ None 5); vm_compute.
Qed.

Lemma timeout_step : step running (LComplete (timeout_updates running)) timed_out_run.
Proof.
  eapply (step_complete _ _ _ running 5 {[ "M:1:0" := Some one ]}
    [(first, true)] (map timeout_of [(first, true)])); by vm_compute.
Qed.

Lemma sample_step : step timed_out_run LSample sampled_again.
Proof. by apply (step_sampled _ (of_Z 2) 300000000); vm_compute. Qed.

Lemma select_step : step sampled_again (LSelect two [second]) (selected sampled_again).
Proof. by apply (step_selected _ _ None 300000000); vm_compute. Qed.

Lemma uncertain_not_retried_witness :
  ∃ h r v, sel_hold second = Some h ∧ is_onchange (sel_trigger second) = true ∧
    r ∈ refs_of (sel_trigger second) ∧ finite_at two r = Some v ∧ held h !! cache_key r ≠ Some (Some v).
Proof.
  apply (uncertain_not_retried trigger_value flow_value parse_trigger 7 running timed_out_run sampled_again
    (selected sampled_again) (LComplete (timeout_updates running)) two [second] second).
  - apply running_reachable.
  - apply timeout_step.
  - eexists. split; [by vm_compute|]. apply Exists_cons. left. by vm_compute.
  - eapply guarded_step; [apply sample_step| |apply guarded_refl]. by intros (e & _ & []).
  - apply select_step.
  - by left.
  - done.
Defined.

Lemma advance_quiet_witness :
  due {[ "M:1:0" := Some one ]} 900000000
    (advance_onchange ∅ {[ "M:1:0" := Some one ]} 5
       (load_rule parse_trigger watched)) = false.
Proof.
  apply (advance_quiet (load_rule parse_trigger watched) [Point 1 Measurement 0] (Some 200) None); [done|done|].
  intros r v ->%list_elem_of_singleton Hv. by vm_compute in Hv |- *.
Defined.

Lemma reload_keeps_witness :
  ∃ e', entry 7 (load_rules trigger_value flow_value parse_trigger [watched] (rules running)) = Some e' ∧
        rule e' = watched.
Proof.
  destruct (reload_keeps trigger_value flow_value parse_trigger [watched] running watched
    (load_rule parse_trigger watched)) as (e' & He' & Hr & _).
  - apply running_reachable.
  - by repeat constructor; intros ?%elem_of_nil.
  - by left.
  - by vm_compute.
  - by exists e'.
Defined.

(** A hold that came and went while a tick was executing does not fence the tick's
    completion: it is accepted and moves the rule's last execution back. *)
Definition succeeded : ExecutionAttempt :=
  Attempt (Ok (Executor.Result 7 true [] None [] None ∅ ∅ ∅)) false.
Definition held_by_manual : list ScheduledRule * nat :=
  manual_complete trigger_value flow_value (constant one) 8 7 (Some first)
    (execute_with_timeout watched None) (Some {[ "M:1:0" := Some one ]}) ∅ (rules loaded) 0%nat.
Definition released_by_manual : list ScheduledRule * nat :=
  manual_complete trigger_value flow_value (constant one) 10 7 (Some second) succeeded None
    {[ "M:1:0" := Some one ]} held_by_manual.1 held_by_manual.2.
Definition completed_late : list ScheduledRule * nat :=
  complete_updates trigger_value flow_value 5 {[ "M:1:0" := Some one ]}
    [(update_of first true succeeded None, constant one)] released_by_manual.1 released_by_manual.2.

Example stale_completion_rewinds :
  map retry_hold held_by_manual.1 = [sel_hold second] ∧
  map last_execution released_by_manual.1 = [Some 10] ∧ map last_execution completed_late.1 = [Some 5].
Proof. by vm_compute. Qed.

End Sample.
End Scheduler.
