(* ===== verification/Watch.v ===== *)
(** * Point-watch dispatch (libs/aether-rules/src/point_watch_dispatcher.rs)

    The index from a channel point to the rules that subscribe to the instance
    points it feeds, and the bounded channel over which a hint about that point
    wakes the scheduler. *)

From stdpp Require Import base tactics numbers list strings gmap sorting.
From S2P Require Import Prelude State Float Domain Rules Scheduler.
#[local] Open Scope Z_scope.

Module Watch.
Import Float Rules Scheduler.

#[global] Instance channel_kind_countable : Countable Domain.PointKind.
Proof.
  refine (inj_countable
    (fun k => match k with Domain.Telemetry => 0%nat | Domain.Status => 1%nat
                         | Domain.Command => 2%nat | Domain.Action => 3%nat end)
    (fun n => match n with 0%nat => Some Domain.Telemetry | 1%nat => Some Domain.Status
                         | 2%nat => Some Domain.Command | _ => Some Domain.Action end) _).
  by intros [].
Defined.

#[global] Instance ChannelPointAddress_eq_dec : EqDecision Domain.ChannelPointAddress.
Proof. solve_decision. Defined.
#[global] Instance ChannelPointAddress_countable : Countable Domain.ChannelPointAddress.
Proof.
  refine (inj_countable (fun a => (Domain.cp_channel_id a, Domain.cp_kind a, Domain.cp_point_id a))
    (fun '(c, k, p) => Some (Domain.ChannelPoint c k p)) _).
  by intros [].
Defined.

Record MeasurementRouteBinding := Route {
  rb_instance_id : Z; rb_point_id : Z; rb_target : Domain.ChannelPointAddress }.

Definition EVENT_CHANNEL_CAPACITY : nat := 1024.

Record WatchEvent := Event {
  rule_ids : list Z; we_channel_id : Z; we_point_kind : Domain.PointKind; we_point_id : Z;
  we_value : f64; we_raw : f64; we_timestamp_ms : Z }.
Record PointWatchHint := Hint {
  h_channel_id : Z; h_point_kind : Domain.PointKind; h_point_id : Z;
  h_value : f64; h_raw : f64; h_timestamp_ms : Z }.

Definition index_key : Type := Z * Domain.PointKind * Z.

(** The dispatcher with the channel it feeds: events not yet received. *)
Record PointWatchDispatcher := Dispatcher {
  sub_index : gmap index_key (list Z); events : list WatchEvent; dropped_count : Z }.

Definition dispatcher_new : PointWatchDispatcher := Dispatcher ∅ [] 0.

(** [map.entry(k).or_default().push(v)] *)
Definition push_at {K V} `{Countable K} (k : K) (v : V) (m : gmap K (list V)) : gmap K (list V) :=
  <[k := default [] (m !! k) ++ [v]]> m.

Definition target_key (a : Domain.ChannelPointAddress) : index_key :=
  (Domain.cp_channel_id a, Domain.cp_kind a, Domain.cp_point_id a).

Definition instance_to_channel (routes : list MeasurementRouteBinding)
    : gmap (Z * Z) (list Domain.ChannelPointAddress) :=
  fold_left (fun m route => push_at (rb_instance_id route, rb_point_id route) (rb_target route) m) routes ∅.

(** The pairs the two inner loops push, in order. *)
Definition rule_targets (routes : gmap (Z * Z) (list Domain.ChannelPointAddress)) (e : ScheduledRule)
    : list (Domain.ChannelPointAddress * Z) :=
  if negb (enabled (rule e)) then []
  else
    match trigger e with
    | Interval _ => []
    | OnChange refs _ _ =>
        concat (map (fun r => map (fun t => (t, rule_id (rule e)))
                                (default [] (routes !! (pr_instance r, pr_point r)))) refs)
    end.

Definition sort_key (a : Domain.ChannelPointAddress) : Z * Z * Z :=
  (Domain.cp_channel_id a, if decide (Domain.cp_kind a = Domain.Status) then 1 else 0, Domain.cp_point_id a).
Definition sort_le (a b : Domain.ChannelPointAddress) : Prop :=
  let '(c, k, p) := sort_key a in
  let '(c', k', p') := sort_key b in
  c < c' ∨ c = c' ∧ (k < k' ∨ k = k' ∧ p ≤ p').
#[global] Instance sort_le_dec : RelDecision sort_le.
Proof. intros a b. unfold sort_le, sort_key. apply _. Defined.

Definition rebuild_from_rules (rules : list ScheduledRule) (measurement_routes : list MeasurementRouteBinding)
    (d : PointWatchDispatcher) : list Domain.ChannelPointAddress * PointWatchDispatcher :=
  let targets := concat (map (rule_targets (instance_to_channel measurement_routes)) rules) in
  let index := fold_left (fun m '(t, id) => push_at (target_key t) id m) targets ∅ in
  let subscriptions : gset Domain.ChannelPointAddress := list_to_set (map fst targets) in
  (merge_sort sort_le (elements subscriptions), Dispatcher index (events d) (dropped_count d)).

Definition dispatch (hint : PointWatchHint) (d : PointWatchDispatcher) : PointWatchDispatcher :=
  match sub_index d !! (h_channel_id hint, h_point_kind hint, h_point_id hint) with
  | None => d
  | Some ids =>
      let event := Event ids (h_channel_id hint) (h_point_kind hint) (h_point_id hint)
                     (h_value hint) (h_raw hint) (h_timestamp_ms hint) in
      if (length (events d) <? EVENT_CHANNEL_CAPACITY)%nat
      then Dispatcher (sub_index d) (events d ++ [event]) (dropped_count d)
      else Dispatcher (sub_index d) (events d) (wrapping_add 64 (dropped_count d) 1)
  end.

Definition subscription_count (d : PointWatchDispatcher) : nat := size (sub_index d).

(** ** The index *)

(** Rule [e] is woken by the channel point [t]. *)
Definition wakes (routes : list MeasurementRouteBinding) (t : Domain.ChannelPointAddress) (e : ScheduledRule)
    : Prop :=
  enabled (rule e) = true ∧
  ∃ r, r ∈ refs_of (trigger e) ∧ Route (pr_instance r) (pr_point r) t ∈ routes.

Lemma push_all_lookup {K V} `{Countable K} (l : list (K * V)) (m : gmap K (list V)) k v :
  v ∈ default [] (fold_left (fun m '(k, v) => push_at k v m) l m !! k) ↔
  v ∈ default [] (m !! k) ∨ (k, v) ∈ l.
Proof.
  revert m. induction l as [|[k' v'] l IH]; intros m; cbn [fold_left].
  { split; [auto|]. by intros [?|[]%elem_of_nil]. }
  rewrite IH, elem_of_cons. unfold push_at. destruct (decide (k = k')) as [->|Hk].
  - rewrite lookup_insert_eq. cbn. rewrite elem_of_app, list_elem_of_singleton. naive_solver.
  - rewrite lookup_insert_ne by done. naive_solver.
Qed.

Lemma instance_to_channel_spec routes i p t :
  t ∈ default [] (instance_to_channel routes !! (i, p)) ↔ Route i p t ∈ routes.
Proof.
  unfold instance_to_channel.
  assert (fold_left (fun m route => push_at (rb_instance_id route, rb_point_id route) (rb_target route) m)
            routes ∅ =
          fold_left (fun m '(k, v) => push_at k v m)
            (map (fun b => ((rb_instance_id b, rb_point_id b), rb_target b)) routes)
            (∅ : gmap (Z * Z) (list Domain.ChannelPointAddress))) as ->.
  { generalize (∅ : gmap (Z * Z) (list Domain.ChannelPointAddress)).
    induction routes as [|b routes IH]; intros m; [done|]. by cbn [map fold_left]. }
  rewrite push_all_lookup, lookup_empty. split.
  - intros [[]%elem_of_nil|([] & Hb & Hin)%list_elem_of_fmap]. by simplify_eq/=.
  - intros Hin. right. apply list_elem_of_fmap. by exists (Route i p t).
Qed.

Lemma rule_targets_spec routes e t id :
  (t, id) ∈ rule_targets (instance_to_channel routes) e ↔ id = rule_id (rule e) ∧ wakes routes t e.
Proof.
  unfold rule_targets, wakes. destruct (enabled (rule e)); cbn [negb]; [|split; [by intros []%elem_of_nil|naive_solver]].
  destruct (trigger e) as [ms|refs td vd]; cbn [refs_of].
  { split; [by intros []%elem_of_nil|]. by intros (_ & _ & r & []%elem_of_nil & _). }
  rewrite list_elem_of_In, in_concat. split.
  - intros (l & (r & <- & Hr)%in_map_iff & (t' & [= <- <-] & Ht)%in_map_iff).
    split_and!; [done|done|]. exists r. split; [by apply list_elem_of_In|].
    by apply instance_to_channel_spec, list_elem_of_In.
  - intros (-> & _ & r & Hr & Ht). eexists. split; [by apply in_map_iff; exists r; split; [|apply list_elem_of_In]|].
    apply in_map_iff. exists t. split; [done|]. by apply list_elem_of_In, instance_to_channel_spec.
Qed.

Lemma targets_spec routes rules t id :
  (t, id) ∈ concat (map (rule_targets (instance_to_channel routes)) rules) ↔
  ∃ e, e ∈ rules ∧ id = rule_id (rule e) ∧ wakes routes t e.
Proof.
  rewrite list_elem_of_In, in_concat. split.
  - intros (l & (e & <- & He)%in_map_iff & Ht). exists e. split; [by apply list_elem_of_In|].
    by apply rule_targets_spec, list_elem_of_In.
  - intros (e & He & Ht). eexists. split; [by apply in_map_iff; exists e; split; [|apply list_elem_of_In]|].
    by apply list_elem_of_In, rule_targets_spec.
Qed.

Lemma index_nonempty routes rules d k ids :
  sub_index (rebuild_from_rules rules routes d).2 !! k = Some ids → ids ≠ [].
Proof.
  unfold rebuild_from_rules. cbn [snd sub_index].
  enough (∀ (l : list (Domain.ChannelPointAddress * Z)) (m : gmap index_key (list Z)),
    map_Forall (fun _ ids => ids ≠ []) m →
    map_Forall (fun _ ids => ids ≠ []) (fold_left (fun m '(t, id) => push_at (target_key t) id m) l m)) as Hm.
  { intros Hl. eapply Hm in Hl; [exact Hl|apply map_Forall_empty]. }
  intros l. induction l as [|[t id] l IH]; intros m Hm; [done|]. cbn [fold_left]. apply IH.
  apply map_Forall_insert_2; [|done]. by destruct (default [] _).
Qed.

Lemma target_key_inj t t' : target_key t = target_key t' → t = t'.
Proof. destruct t, t'. by intros [= -> -> ->]. Qed.

Lemma index_spec routes rules d t id :
  id ∈ default [] (sub_index (rebuild_from_rules rules routes d).2 !! target_key t) ↔
  ∃ e, e ∈ rules ∧ id = rule_id (rule e) ∧ wakes routes t e.
Proof.
  unfold rebuild_from_rules. cbn [snd sub_index]. rewrite <- targets_spec.
  set (l := concat _).
  assert (fold_left (fun m '(t, id) => push_at (target_key t) id m) l ∅ =
          fold_left (fun m '(k, v) => push_at k v m) (map (fun x => (target_key x.1, x.2)) l)
            (∅ : gmap index_key (list Z))) as ->.
  { generalize (∅ : gmap index_key (list Z)). clearbody l.
    induction l as [|[a b] l IH]; intros m; [done|]. by cbn [map fold_left]. }
  rewrite push_all_lookup, lookup_empty. split.
  - intros [[]%elem_of_nil|([t' id'] & Hb & Hin)%list_elem_of_fmap]. apply pair_equal_spec in Hb as [->%target_key_inj ->].
    done.
  - intros Hin. right. apply list_elem_of_fmap. by exists (t, id).
Qed.

(** The rebuilt index is exact: the published channel points are those that feed a
    subscribed point of an enabled change-triggered rule, and a hint about one of
    them queues one event naming exactly the rules it wakes; other hints queue
    nothing, and a full channel drops the event and counts it. *)
Theorem dispatch_exact (l : list ScheduledRule) (routes : list MeasurementRouteBinding)
    (d : PointWatchDispatcher) (hint : PointWatchHint) :
  let '(published, d1) := rebuild_from_rules l routes d in
  let t := Domain.ChannelPoint (h_channel_id hint) (h_point_kind hint) (h_point_id hint) in
  let d2 := dispatch hint d1 in
  NoDup published ∧ (∀ t, t ∈ published ↔ ∃ e, e ∈ l ∧ wakes routes t e) ∧
  (t ∉ published → d2 = d1) ∧
  (t ∈ published → (length (events d) < EVENT_CHANNEL_CAPACITY)%nat →
     ∃ ev, events d2 = events d ++ [ev] ∧ dropped_count d2 = dropped_count d ∧
           ∀ id, id ∈ rule_ids ev ↔ ∃ e, e ∈ l ∧ id = rule_id (rule e) ∧ wakes routes t e) ∧
  (t ∈ published → (EVENT_CHANNEL_CAPACITY ≤ length (events d))%nat →
     events d2 = events d ∧ dropped_count d2 = wrapping_add 64 (dropped_count d) 1).
Proof.
  destruct (rebuild_from_rules l routes d) as [published d1] eqn:Er. cbn zeta.
  set (t := Domain.ChannelPoint _ _ _).
  assert (∀ t, t ∈ published ↔ ∃ e, e ∈ l ∧ wakes routes t e) as Hpub.
  { intros t'. injection Er as <- _. rewrite merge_sort_Permutation, elem_of_elements, elem_of_list_to_set.
    rewrite list_elem_of_fmap. split.
    - intros ([t1 id] & -> & (e & He & _ & Hw)%targets_spec). eauto.
    - intros (e & He & Hw). exists (t', rule_id (rule e)). split; [done|]. apply targets_spec. eauto. }
  pose proof (fun id => index_spec routes l d t id) as Hix. rewrite Er in Hix. cbn [snd] in Hix.
  assert (events d1 = events d ∧ dropped_count d1 = dropped_count d) as [He Hd] by by injection Er as _ <-.
  change (target_key t) with (h_channel_id hint, h_point_kind hint, h_point_id hint) in Hix.
  unfold dispatch. destruct (sub_index d1 !! _) as [ids|] eqn:Hl; cbn [default from_option id] in Hix.
  - rewrite He, Hd. split_and!; [|done|..].
    + injection Er as <- _. rewrite merge_sort_Permutation. apply NoDup_elements.
    + intros Hnp. destruct ids as [|id ids].
      * pose proof (index_nonempty routes l d _ [] ltac:(by rewrite Er)). done.
      * destruct Hnp. apply Hpub. destruct (Hix id) as [Hi _]. destruct Hi as (e & ? & _ & ?); [by left|]. eauto.
    + intros _ Hlt%Nat.ltb_lt. rewrite Hlt. cbn. eexists. split_and!; [done|done|]. exact Hix.
    + intros _ Hge%Nat.ltb_ge. rewrite Hge. done.
  - assert (t ∉ published) as Hnp.
    { intros (e & Hin & Hw)%Hpub. apply (not_elem_of_nil (rule_id (rule e))), Hix. eauto. }
    split_and!; try done. injection Er as <- _. rewrite merge_sort_Permutation. apply NoDup_elements.
Qed.


(** A rule on point 1:0 fed by telemetry point 3 of channel 9. *)
Definition sample_hint : PointWatchHint := Hint 9 Domain.Telemetry 3 one one 0.
Definition sample_routes : list MeasurementRouteBinding := [Route 1 0 (Domain.ChannelPoint 9 Domain.Telemetry 3)].


End Watch.
