(* ===== verification/Governance.v ===== *)
(** * Governed use cases (crates/aether-application/src)

    Capabilities, the safety policy and the command facades of the application
    layer: control.rs, rule_execution.rs, rule_mutation.rs, action_routing.rs,
    measurement_routing.rs, alarm_rule.rs, alert_resolution.rs,
    channel_management.rs and channel_reconciliation.rs.  Every facade runs one
    protocol (authorise, validate, audit the attempt, call its port once, audit
    the outcome); [governed] is that protocol and each facade instantiates it.

    An audit record keeps the request, the receipt and the failure its detail
    text is formatted from.  Ports and the audit sink act on one environment. *)

From Stdlib Require Import Ascii.
From stdpp Require Import base tactics numbers list strings gmap.
From S2P Require Import Prelude State Float Domain Outbox Executor.
#[local] Open Scope Z_scope.

Module Governance.
Import Float Domain.

(** ** Capabilities (capability.rs) *)

Inductive OperationKind := Query | CommandOp.
Inductive RiskLevel := Low | Medium | High.
Inductive ConfirmationPolicy := Never | Policy | Always.
Inductive AuditPolicy := NotRequired | Required.

Record CapabilityDescriptor := Capability {
  cap_name : string;
  cap_kind : OperationKind;
  cap_risk : RiskLevel;
  required_permission : string;
  confirmation : ConfirmationPolicy;
  cap_audit : AuditPolicy;
  idempotent : bool }.

Definition READ_POINT_CAPABILITY : CapabilityDescriptor :=
  Capability "device.read_point" Query Low "device.read" Never NotRequired true.
Definition WRITE_POINT_CAPABILITY : CapabilityDescriptor :=
  Capability "device.write_point" CommandOp High "device.control" Always Required false.
Definition EXECUTE_RULE_CAPABILITY : CapabilityDescriptor :=
  Capability "automation.rule.execute" CommandOp High "automation.rule.execute" Always Required false.
Definition MANAGE_RULE_CAPABILITY : CapabilityDescriptor :=
  Capability "automation.rule.manage" CommandOp High "automation.rule.manage" Always Required false.
Definition MANAGE_ROUTING_CAPABILITY : CapabilityDescriptor :=
  Capability "automation.routing.manage" CommandOp High "automation.routing.manage" Always Required false.
Definition MANAGE_INSTANCE_CAPABILITY : CapabilityDescriptor :=
  Capability "automation.instance.manage" CommandOp High "automation.instance.manage" Always Required false.
Definition MANAGE_CHANNEL_CAPABILITY : CapabilityDescriptor :=
  Capability "io.channel.manage" CommandOp High "io.channel.manage" Always Required false.
Definition RECONCILE_CHANNELS_CAPABILITY : CapabilityDescriptor :=
  Capability "io.channel.reconcile" CommandOp High "io.channel.manage" Always Required false.
Definition MANAGE_ALARM_RULE_CAPABILITY : CapabilityDescriptor :=
  Capability "alarm.rule.manage" CommandOp High "alarm.rule.manage" Always Required false.
Definition RESOLVE_ALERT_CAPABILITY : CapabilityDescriptor :=
  Capability "alarm.alert.resolve" CommandOp High "alarm.alert.resolve" Always Required false.
Definition TASKS_LIST_CAPABILITY : CapabilityDescriptor :=
  Capability "data_processing.tasks.list" Query Low "data_processing.read" Never NotRequired true.
Definition PROCESSOR_HEALTH_CAPABILITY : CapabilityDescriptor :=
  Capability "data_processing.processors.health" Query Low "data_processing.read" Never NotRequired true.
Definition PROCESS_DATA_CAPABILITY : CapabilityDescriptor :=
  Capability "data_processing.process" Query Medium "data_processing.run" Policy Required false.

Definition CAPABILITY_CATALOG : list CapabilityDescriptor :=
  [READ_POINT_CAPABILITY; WRITE_POINT_CAPABILITY; EXECUTE_RULE_CAPABILITY; MANAGE_RULE_CAPABILITY;
   MANAGE_ROUTING_CAPABILITY; MANAGE_INSTANCE_CAPABILITY; MANAGE_CHANNEL_CAPABILITY;
   RECONCILE_CHANNELS_CAPABILITY; MANAGE_ALARM_RULE_CAPABILITY; RESOLVE_ALERT_CAPABILITY;
   TASKS_LIST_CAPABILITY; PROCESSOR_HEALTH_CAPABILITY; PROCESS_DATA_CAPABILITY].

(** ** Requests, policy and errors (context.rs, policy.rs, error.rs) *)

Record Actor := MkActor { actor_id : string; permissions : gset string }.
Definition actor_new (id : string) : Actor := MkActor id ∅.
Definition with_permission (p : string) (a : Actor) : Actor :=
  MkActor (actor_id a) ({[p]} ∪ permissions a).
Definition has_permission (p : string) (a : Actor) : bool := bool_decide (p ∈ permissions a).

Record RequestContext := Request {
  request_id : string; actor : Actor; confirmed : bool; timestamp : Z }.

(** Without the text of the errors. *)
Inductive ApplicationError :=
| PermissionDenied (capability permission : string)
| ConfirmationRequired (capability : string)
| InvalidCommand (e : DomainError)
| InvalidProcessingRequest (e : DomainError)
| InputQualityRejected (e : DomainError)
| InvalidProcessingConfiguration
| InvalidChannelMutation
| InvalidProcessorResult
| ProcessingUnavailable (reason : string) (retryable : bool) (retry_after_ms : option Z)
| HistoryQueryFailed (k : Outbox.PortErrorKind)
| CovariateSourceFailed (k : Outbox.PortErrorKind)
| ProcessorFailed (k : Outbox.PortErrorKind)
| ProcessingCodec
| ProcessingRequestTooLarge (encoded_bytes max_bytes : Z)
| AuditUnavailable (k : Outbox.PortErrorKind)
| Port (k : Outbox.PortErrorKind).

Definition authorize (d : CapabilityDescriptor) (c : RequestContext) : res ApplicationError unit :=
  if negb (has_permission (required_permission d) (actor c)) then
    Err (PermissionDenied (cap_name d) (required_permission d))
  else
    match confirmation d with
    | Always => if confirmed c then Ok tt else Err (ConfirmationRequired (cap_name d))
    | _ => Ok tt
    end.

(** ** Audit records and accepted outcomes (aether-ports/src/audit.rs, acceptance.rs) *)

Inductive AuditOutcome := ARejected | Attempted | Succeeded | Failed.
Inductive Failure := FApplication (e : ApplicationError) | FPort (k : Outbox.PortErrorKind).

Record AuditRecord (Req R : Type) := Audit {
  au_request_id : string;
  au_actor_id : string;
  au_capability : string;
  au_outcome : AuditOutcome;
  au_timestamp : Z;
  au_subject : Req;
  au_completion : option R;
  au_failure : option Failure }.
Arguments Audit {Req R}.
Arguments au_outcome {Req R}.
Arguments au_subject {Req R}.

Inductive CompletionAuditStatus := Recorded | Incomplete (failure : Outbox.PortErrorKind).
Record AcceptedOutcome (R : Type) := Accepted {
  receipt : R; ao_request_id : string; completion_audit : CompletionAuditStatus }.
Arguments Accepted {R}.
Arguments receipt {R}.

(** ** The protocol of the facades *)

Section Governed.
Context {E Req R P : Type}.
Variable audit_sink : AuditRecord Req R → st E (res Outbox.PortErrorKind unit).

(** What happened, in order: audit writes with their result, and port calls. *)
Inductive event := EAudit (r : AuditRecord Req R) (ok : bool) | ECall (p : P).
Record gworld := GWorld { g_env : E; g_log : list event }.

Definition record_audit (cap : CapabilityDescriptor) (c : RequestContext) (subject : Req)
    (o : AuditOutcome) (completion : option R) (failure : option Failure)
    : st gworld (res ApplicationError unit) := fun w =>
  let r := Audit (request_id c) (actor_id (actor c)) (cap_name cap) o (timestamp c) subject
             completion failure in
  let '(x, e) := audit_sink r (g_env w) in
  (match x with Ok _ => Ok tt | Err k => Err (AuditUnavailable k) | Panic => Panic end,
   GWorld e (g_log w ++ [EAudit r (is_ok x)])).

Definition call_port (call : P → st E (res Outbox.PortErrorKind R)) (p : P)
    : st gworld (res Outbox.PortErrorKind R) := fun w =>
  let '(x, e) := call p (g_env w) in (x, GWorld e (g_log w ++ [ECall p])).

Definition governed (cap : CapabilityDescriptor) (c : RequestContext) (subject : Req)
    (prepare : res ApplicationError P) (call : P → st E (res Outbox.PortErrorKind R))
    (note : R → option R) : st gworld (res ApplicationError (AcceptedOutcome R)) :=
  match authorize cap c with
  | Err e =>
      _ ←? record_audit cap c subject ARejected None (Some (FApplication e));
      mret (Err e)
  | Panic => mret Panic
  | Ok _ =>
      match prepare with
      | Err e =>
          _ ←? record_audit cap c subject ARejected None (Some (FApplication e));
          mret (Err e)
      | Panic => mret Panic
      | Ok p =>
          _ ←? record_audit cap c subject Attempted None None;
          x ← call_port call p;
          match x with
          | Ok r =>
              a ← record_audit cap c subject Succeeded (note r) None;
              mret (match a with
                    | Ok _ => Ok (Accepted r (request_id c) Recorded)
                    | Err (AuditUnavailable k) => Ok (Accepted r (request_id c) (Incomplete k))
                    | Err e => Err e
                    | Panic => Panic
                    end)
          | Err k =>
              _ ←? record_audit cap c subject Failed None (Some (FPort k));
              mret (Err (Port k))
          | Panic => mret Panic
          end
      end
  end.

(** ** What the protocol guarantees *)

(** The events of one run, with the capability's requirements met whenever the
    port was called. *)
Definition protocol (cap : CapabilityDescriptor) (c : RequestContext)
    (prepare : res ApplicationError P) (r : res ApplicationError (AcceptedOutcome R))
    (evs : list event) : Prop :=
  match evs with
  | [] => r = Panic
  | [EAudit a ok] =>
      (au_outcome a = ARejected ∧ (authorize cap c ≠ Ok tt ∨ is_ok prepare = false) ∨
       au_outcome a = Attempted ∧ ok = false) ∧ is_ok r = false
  | EAudit a ok :: ECall p :: rest =>
      au_outcome a = Attempted ∧ ok = true ∧ authorize cap c = Ok tt ∧ prepare = Ok p ∧
      match rest with
      | [] => r = Panic
      | [EAudit b ok'] =>
          au_outcome b = Succeeded ∧ (∃ y st, r = Ok (Accepted y (request_id c) st) ∧
                                       (st = Recorded ↔ ok' = true) ∨ r = Panic) ∨
          au_outcome b = Failed ∧ is_ok r = false
      | _ => False
      end
  | _ => False
  end.

Lemma record_audit_log cap c s o n f w :
  let '(x, w') := record_audit cap c s o n f w in
  ∃ a, au_outcome a = o ∧ g_log w' = g_log w ++ [EAudit a (is_ok x)] ∧
       match x with Err (AuditUnavailable _) | Ok _ | Panic => True | _ => False end.
Proof.
  unfold record_audit. destruct (audit_sink _ (g_env w)) as [[[]|k|] e];
    (eexists; split_and!; [|reflexivity|done]; reflexivity).
Qed.

Lemma governed_log cap c s prepare call note w :
  let '(r, w') := governed cap c s prepare call note w in
  ∃ evs, g_log w' = g_log w ++ evs ∧ protocol cap c prepare r evs.
Proof.
  unfold governed.
  assert (∀ e w, is_ok prepare = false ∨ authorize cap c ≠ Ok tt →
    let '(r, w') := (_ ←? record_audit cap c s ARejected None (Some (FApplication e)); mret (Err e)) w in
    ∃ evs, g_log w' = g_log w ++ evs ∧ protocol cap c prepare r evs) as Hrej.
  { intros e w0 Hwhy. unfold st_try. pose proof (record_audit_log cap c s ARejected None (Some (FApplication e)) w0) as H.
    destruct (record_audit _ _ _ ARejected _ _ w0) as [x w1]. destruct H as (a & Ha & Hl & _).
    destruct x as [[]|e'|]; cbn; eexists; (split; [exact Hl|]); cbn; (split; [|done]); left; tauto. }
  destruct (authorize cap c) as [[]|e|] eqn:Ea; [|apply Hrej; by right|].
  2: { exists []. by rewrite app_nil_r. }
  destruct prepare as [p|e|] eqn:Ep; [|apply Hrej; by left|].
  2: { exists []. by rewrite app_nil_r. }
  unfold st_try at 1. pose proof (record_audit_log cap c s Attempted None None w) as H.
  destruct (record_audit _ _ _ Attempted _ _ w) as [[[]|e|] w1]; destruct H as (a & Ha & Hl & _).
  2,3: cbn; eexists; split; [exact Hl|cbn; split; [by right|done]].
  unfold mbind, st_bind, call_port. destruct (call p (g_env w1)) as [x e1]. set (w2 := GWorld e1 _).
  destruct x as [y|k|].
  - pose proof (record_audit_log cap c s Succeeded (note y) None w2) as H.
    destruct (record_audit _ _ _ Succeeded _ _ w2) as [x w3]. destruct H as (b & Hb & Hl3 & Hx).
    cbn [mret st_ret]. exists [EAudit a true; ECall p; EAudit b (is_ok x)]. split.
    { rewrite Hl3. cbn. by rewrite Hl, <- !app_assoc. }
    cbn. split_and!; [done..|]. left. split; [done|].
    destruct x as [[]|[]|]; try done; eexists y, _; [by left|by left|by right].
    Unshelve. exact Recorded.
  - unfold st_try. pose proof (record_audit_log cap c s Failed None (Some (FPort k)) w2) as H.
    destruct (record_audit _ _ _ Failed _ _ w2) as [x w3]. destruct H as (b & Hb & Hl3 & _).
    destruct x as [[]|e'|]; cbn; (eexists [EAudit a true; ECall p; EAudit b _]; split;
      [rewrite Hl3; cbn; by rewrite Hl, <- !app_assoc|cbn; split_and!; [done..|by right]]).
  - exists [EAudit a true; ECall p]. cbn. by rewrite Hl, <- app_assoc.
Qed.

(** What the environment sees, observed through a projection that audit writes do
    not change: one call of the port, after the recorded attempt, or nothing. *)
Lemma governed_env {X} (proj : E → X) cap c s prepare call note w :
  (∀ a e, proj (audit_sink a e).2 = proj e) →
  let '(r, w') := governed cap c s prepare call note w in
  proj (g_env w') = proj (g_env w) ∧ is_ok r = false ∨
  ∃ p e x e' a rest, prepare = Ok p ∧ proj e = proj (g_env w) ∧ call p e = (x, e') ∧
    proj (g_env w') = proj e' ∧ (is_ok r = true → is_ok x = true) ∧
    g_log w' = g_log w ++ EAudit a true :: rest ∧ au_outcome a = Attempted.
Proof.
  intros Hproj. unfold governed.
  assert (∀ o n f w, proj (g_env (record_audit cap c s o n f w).2) = proj (g_env w)) as Ha.
  { intros o n f w0. unfold record_audit. set (a := Audit _ _ _ _ _ _ _ _). specialize (Hproj a (g_env w0)).
    destruct (audit_sink a (g_env w0)) as [[| |] e]; exact Hproj. }
  assert (∀ e w, let '(r, w') := (_ ←? record_audit cap c s ARejected None (Some (FApplication e));
    mret (Err e)) w in proj (g_env w') = proj (g_env w) ∧ @is_ok _ (AcceptedOutcome R) r = false) as Hrej.
  { intros e w0. unfold st_try. specialize (Ha ARejected None (Some (FApplication e)) w0).
    by destruct (record_audit _ _ _ ARejected _ _ w0) as [[[]|x|] w1]. }
  destruct (authorize cap c) as [[]|e|];
    [|specialize (Hrej e w); destruct (st_try _ _ w); by left|by left].
  destruct prepare as [p|e|]; [|specialize (Hrej e w); destruct (st_try _ _ w); by left|by left].
  unfold st_try at 1. pose proof (record_audit_log cap c s Attempted None None w) as Hl.
  pose proof (Ha Attempted None None w) as Hw1.
  destruct (record_audit _ _ _ Attempted _ _ w) as [[[]|e|] w1]; [|by left..].
  destruct Hl as (a & Hao & Hl & _). cbn [snd is_ok] in Hw1, Hl. unfold mbind, st_bind, call_port.
  destruct (call p (g_env w1)) as [x e1] eqn:Ec. set (w2 := GWorld e1 _).
  assert (∀ r w', proj (g_env w') = proj e1 → (is_ok r = true → is_ok x = true) →
    (∃ rest, g_log w' = g_log w2 ++ rest) →
    proj (g_env w') = proj (g_env w) ∧ @is_ok ApplicationError (AcceptedOutcome R) r = false ∨
    ∃ p0 e x e' a rest, Ok (E := ApplicationError) p = Ok p0 ∧ proj e = proj (g_env w) ∧ call p0 e = (x, e') ∧
      proj (g_env w') = proj e' ∧ (is_ok r = true → is_ok x = true) ∧
      g_log w' = g_log w ++ EAudit a true :: rest ∧ au_outcome a = Attempted) as Hyes.
  { intros r w' Hp Hr (rest & Hrest). right. exists p, (g_env w1), x, e1, a, ([ECall p] ++ rest).
    split_and!; try done. rewrite Hrest. unfold w2. cbn [g_log]. rewrite Hl, <- !app_assoc. done. }
  destruct x as [y|k|].
  - specialize (Ha Succeeded (note y) None w2). pose proof (record_audit_log cap c s Succeeded (note y) None w2) as Hl2.
    destruct (record_audit _ _ _ Succeeded _ _ w2) as [z w3]. destruct Hl2 as (b & _ & Hl2 & _).
    apply Hyes; [exact Ha|done|by eexists].
  - unfold st_try. specialize (Ha Failed None (Some (FPort k)) w2).
    pose proof (record_audit_log cap c s Failed None (Some (FPort k)) w2) as Hl2.
    destruct (record_audit _ _ _ Failed _ _ w2) as [[[]|z|] w3]; destruct Hl2 as (b & _ & Hl2 & _);
      (apply Hyes; [exact Ha|done|by eexists]).
  - apply Hyes; [done|done|]. exists []. by rewrite app_nil_r.
Qed.

End Governed.

(** ** Device control (control.rs) *)

(** The identity every audit record of one command carries. *)
Record CommandSubject := Subject {
  s_command_id : Z; s_target : PointAddress; s_value : f64;
  s_fence : option Executor.CommandTopologyFence }.

(** The two dispatch operations of the port. *)
Class CommandDispatcher (E : Type) := {
  dispatch : ControlCommand → st E (res Outbox.PortErrorKind Executor.CommandReceipt);
  dispatch_fenced : ControlCommand → Executor.CommandTopologyFence →
    st E (res Outbox.PortErrorKind Executor.CommandReceipt) }.

Definition saturating_add (w a b : Z) : Z := Z.min (a + b) (u_max w).

(** The command of a request, valid for [DEFAULT_COMMAND_TTL_MS]. *)
Definition build_command (c : RequestContext) (s : CommandSubject) : res ApplicationError ControlCommand :=
  match control_new (s_command_id s) (s_target s) (s_value s) (timestamp c)
          (saturating_add 64 (timestamp c) DEFAULT_COMMAND_TTL_MS) with
  | Ok k => Ok k
  | Err e => Err (InvalidCommand e)
  | Panic => Panic
  end.

Section Facades.
Context {E : Type}.

Definition write_point_inner `{CommandDispatcher E}
    (audit : AuditRecord CommandSubject Executor.CommandReceipt → st E (res Outbox.PortErrorKind unit))
    (c : RequestContext) (s : CommandSubject)
    : st gworld (res ApplicationError (AcceptedOutcome Executor.CommandReceipt)) :=
  governed audit WRITE_POINT_CAPABILITY c s (build_command c s)
    (fun k => match s_fence s with Some f => dispatch_fenced k f | None => dispatch k end)
    (fun _ => None).

Definition write_point `{CommandDispatcher E} audit (c : RequestContext) (id : Z)
    (target : PointAddress) (value : f64) :=
  write_point_inner audit c (Subject id target value None).
Definition write_point_fenced `{CommandDispatcher E} audit (c : RequestContext) (id : Z)
    (target : PointAddress) (value : f64) (fence : Executor.CommandTopologyFence) :=
  write_point_inner audit c (Subject id target value (Some fence)).

(** ** The other facades: a request handed to its port *)

Context {Req R : Type}.
Variable audit : AuditRecord Req R → st E (res Outbox.PortErrorKind unit).
Variable port : Req → st E (res Outbox.PortErrorKind R).

Definition execute_rule (c : RequestContext) (rule_id : Req) :=
  governed audit EXECUTE_RULE_CAPABILITY c rule_id (Ok rule_id) port Some.
Definition mutate_rule_revisioned (c : RequestContext) (command : Req) :=
  governed audit MANAGE_RULE_CAPABILITY c command (Ok command) port Some.
Definition mutate_action_routing (c : RequestContext) (command : Req) :=
  governed audit MANAGE_ROUTING_CAPABILITY c command (Ok command) port Some.
Definition mutate_measurement_routing (c : RequestContext) (mutation : Req) :=
  governed audit MANAGE_ROUTING_CAPABILITY c mutation (Ok mutation) port Some.
Definition mutate_alarm_rule (c : RequestContext) (mutation : Req) :=
  governed audit MANAGE_ALARM_RULE_CAPABILITY c mutation (Ok mutation) port Some.
Definition resolve_alert (c : RequestContext) (alert_id : Req) :=
  governed audit RESOLVE_ALERT_CAPABILITY c alert_id (Ok alert_id) port (fun _ => None).
Definition reconcile_channels (c : RequestContext) (scope : Req) :=
  governed audit RECONCILE_CHANNELS_CAPABILITY c scope (Ok scope) port Some.

End Facades.

(** ** Channel mutations (channel_management.rs, aether-ports/src/channel.rs) *)

Inductive ChannelParameterValue :=
| PNull
| PBool (b : bool)
| PInteger (n : Z)
| PFloat (x : f64)
| PString (s : string)
| PArray (l : list ChannelParameterValue)
| PObject (l : list (string * ChannelParameterValue)).

Record ChannelLoggingPolicy := Logging {
  log_enabled : bool; level : option string; file : option string }.

Record ChannelDefinition := ChannelDef {
  requested_channel_id : option Z;
  def_name : string;
  def_description : option string;
  protocol_name : string;
  parameters : list (string * ChannelParameterValue);
  def_logging : ChannelLoggingPolicy;
  def_enabled : bool }.

Record ChannelPatch := Patch {
  p_name : option string;
  p_description : option string;
  p_protocol : option string;
  p_parameters : option (list (string * ChannelParameterValue));
  p_logging : option ChannelLoggingPolicy }.

Inductive ChannelMutation :=
| MCreate (definition : ChannelDefinition)
| MUpdate (channel_id expected_revision : Z) (patch : ChannelPatch)
| MDelete (channel_id expected_revision : Z)
| MSetEnabled (channel_id expected_revision : Z) (enabled : bool).

Definition mutation_channel_id (m : ChannelMutation) : option Z :=
  match m with
  | MCreate d => requested_channel_id d
  | MUpdate id _ _ | MDelete id _ | MSetEnabled id _ _ => Some id
  end.

Definition mutation_expected_revision (m : ChannelMutation) : option Z :=
  match m with
  | MCreate _ => None
  | MUpdate _ r _ | MDelete _ r | MSetEnabled _ r _ => Some r
  end.

Definition patch_is_empty (p : ChannelPatch) : bool :=
  match p with Patch None None None None None => true | _ => false end.

Fixpoint parameter_value_is_finite (v : ChannelParameterValue) : bool :=
  match v with
  | PFloat x => is_finite x
  | PArray l => forallb parameter_value_is_finite l
  | PObject l => forallb (fun '(_, v) => parameter_value_is_finite v) l
  | _ => true
  end.

Definition validate_parameters (ps : list (string * ChannelParameterValue)) : res ApplicationError unit :=
  if forallb (fun '(_, v) => parameter_value_is_finite v) ps then Ok tt else Err InvalidChannelMutation.

(** [trim().is_empty()] on the UTF-8 bytes: only White_Space code points. *)
Fixpoint blank (l : list Z) : bool :=
  match l with
  | [] => true
  | a :: l1 =>
      if ((9 <=? a) && (a <=? 13)) || (a =? 32) then blank l1
      else
        match l1 with
        | b :: l2 =>
            if (a =? 0xC2) && ((b =? 0x85) || (b =? 0xA0)) then blank l2
            else
              match l2 with
              | c :: l3 =>
                  if ((a =? 0xE1) && (b =? 0x9A) && (c =? 0x80))
                     || ((a =? 0xE2) && (b =? 0x80) &&
                         ((c <=? 0x8A) || (c =? 0xA8) || (c =? 0xA9) || (c =? 0xAF)))
                     || ((a =? 0xE2) && (b =? 0x81) && (c =? 0x9F))
                     || ((a =? 0xE3) && (b =? 0x80) && (c =? 0x80))
                  then blank l3 else false
              | [] => false
              end
        | [] => false
        end
  end.

Fixpoint utf8 (s : string) : list Z :=
  match s with "" => [] | String c s => Z.of_N (N_of_ascii c) :: utf8 s end.

Definition validate_non_blank (value : string) : res ApplicationError unit :=
  if blank (utf8 value) then Err InvalidChannelMutation else Ok tt.

(** [if let Some(v) = o { f(v)? }] *)
Definition when {A} (o : option A) (f : A → res ApplicationError unit) : res ApplicationError unit :=
  match o with Some a => f a | None => Ok tt end.

Definition validate_mutation (m : ChannelMutation) : res ApplicationError unit :=
  if is_some_and (fun id => 10000 <=? id) (mutation_channel_id m) then Err InvalidChannelMutation
  else if is_some_and (fun r => r =? 0) (mutation_expected_revision m) then Err InvalidChannelMutation
  else
    match m with
    | MCreate d =>
        _ ← validate_non_blank (def_name d);
        _ ← validate_non_blank (protocol_name d);
        validate_parameters (parameters d)
    | MUpdate _ _ p =>
        if patch_is_empty p then Err InvalidChannelMutation
        else
          _ ← when (p_name p) validate_non_blank;
          _ ← when (p_protocol p) validate_non_blank;
          when (p_parameters p) validate_parameters
    | MDelete _ _ | MSetEnabled _ _ _ => Ok tt
    end.

Definition mutate_channel {E R}
    (audit : AuditRecord ChannelMutation R → st E (res Outbox.PortErrorKind unit))
    (port : ChannelMutation → st E (res Outbox.PortErrorKind R))
    (c : RequestContext) (m : ChannelMutation) :=
  governed audit MANAGE_CHANNEL_CAPABILITY c m (_ ← validate_mutation m; Ok m) port Some.

(** ** Claims *)


(** Every capability that changes state is high-risk, demands explicit
    confirmation and a durable audit, and is never advertised as idempotent; the
    names in the catalog are unique. *)
Theorem catalog_posture :
  Forall (fun d => cap_kind d = CommandOp →
            cap_risk d = High ∧ confirmation d = Always ∧ cap_audit d = Required ∧ idempotent d = false)
    CAPABILITY_CATALOG ∧
  NoDup (map cap_name CAPABILITY_CATALOG).
Proof. split; [by repeat constructor|]. apply (bool_decide_unpack _). by vm_compute. Qed.

Lemma saturating_add_pos w a b : 0 < b → 0 ≤ a < u_max w → a < saturating_add w a b.
Proof. unfold saturating_add. lia. Qed.

Lemma build_command_ok c s k :
  build_command c s = Ok k →
  control_ok k ∧ c_id k = s_command_id s ∧ c_target k = s_target s ∧ c_value k = s_value s ∧
  c_issued_at k = timestamp c ∧ c_expires_at k = saturating_add 64 (timestamp c) DEFAULT_COMMAND_TTL_MS.
Proof.
  unfold build_command. destruct (control_new _ _ _ _ _) as [k'|e|] eqn:Ek; try done. intros [= <-].
  by apply control_new_ok in Ek as [-> ?].
Qed.

Lemma authorize_ok d c :
  authorize d c = Ok tt ↔
  required_permission d ∈ permissions (actor c) ∧ (confirmation d = Always → confirmed c = true).
Proof.
  unfold authorize, has_permission. case_bool_decide as Hp; cbn [negb].
  - destruct (confirmation d), (confirmed c); naive_solver.
  - naive_solver.
Qed.

End Governance.
