(* ===== verification/Manifest.v ===== *)
(** * The point manifest (libs/aether-shm-bridge/src/manifest.rs)

    Which shared-memory slot each configured channel point has.  Addresses are
    kept in the order of their key; a channel's first command-owned slot is
    aligned to a cache line when the channel also has acquisition-owned points.
    The layout hash (rustc-hash) is a parameter. *)

From stdpp Require Import base tactics numbers list sorting.
From S2P Require Import Prelude Domain Outbox.
#[local] Open Scope Z_scope.

Module Manifest.
Import Domain.

Definition POINT_SLOTS_PER_CACHE_LINE : nat := 2.

Record PhysicalPointAddress := PhysicalPoint {
  pa_channel_id : Z; pa_kind : PointKind; pa_point_id : Z }.

#[global] Instance PhysicalPointAddress_eq_dec : EqDecision PhysicalPointAddress.
Proof. solve_decision. Defined.

Definition from_command_address (a : ChannelCommandAddress) : PhysicalPointAddress :=
  PhysicalPoint (cc_channel_id a) (cc_kind a) (cc_point_id a).
Definition from_point_address (a : ChannelPointAddress) : PhysicalPointAddress :=
  PhysicalPoint (cp_channel_id a) (cp_kind a) (cp_point_id a).

Definition kind_index (k : PointKind) : Z :=
  match k with Telemetry => 0 | Status => 1 | Command => 2 | Action => 3 end.

Definition address_key (a : PhysicalPointAddress) : Z * Z * Z :=
  (pa_channel_id a, kind_index (pa_kind a), pa_point_id a).

(** The order of keys: that of tuples. *)
Definition key_lt (a b : Z * Z * Z) : Prop :=
  let '(c, k, p) := a in
  let '(c', k', p') := b in
  c < c' ∨ c = c' ∧ (k < k' ∨ k = k' ∧ p < p').
Definition key_ltb (a b : Z * Z * Z) : bool :=
  let '(c, k, p) := a in
  let '(c', k', p') := b in
  (c <? c') || ((c =? c') && ((k <? k') || ((k =? k') && (p <? p')))).

Record ChannelPointManifest := MkManifest {
  points_by_address : list PhysicalPointAddress;
  slots_by_address : list nat;
  slot_count : nat;
  layout_hash : Z }.

(** [BTreeMap::insert] by key; [None] when the key was there. *)
Fixpoint insert_address (a : PhysicalPointAddress) (l : list PhysicalPointAddress)
    : option (list PhysicalPointAddress) :=
  match l with
  | [] => Some [a]
  | b :: rest =>
      if key_ltb (address_key a) (address_key b) then Some (a :: l)
      else if key_ltb (address_key b) (address_key a) then
        match insert_address a rest with Some r => Some (b :: r) | None => None end
      else None
  end.

Fixpoint canonicalize (addresses : list PhysicalPointAddress) (max_slots : nat)
    (canonical : list PhysicalPointAddress) : res Outbox.PortErrorKind (list PhysicalPointAddress) :=
  match addresses with
  | [] => Ok canonical
  | a :: rest =>
      if (max_slots <=? length canonical)%nat then Err Outbox.InvalidData
      else
        match insert_address a canonical with
        | Some c => canonicalize rest max_slots c
        | None => Err Outbox.InvalidData
        end
  end.

(** The loop of [allocate_slots] with its locals. *)
Fixpoint allocate_loop (l : list PhysicalPointAddress) (next : nat) (previous : option Z)
    (channel_has_acquisition command_boundary_aligned : bool) : list nat * nat :=
  match l with
  | [] => ([], next)
  | a :: rest =>
      let fresh := negb (bool_decide (previous = Some (pa_channel_id a))) in
      let has := if fresh then false else channel_has_acquisition in
      let aligned := if fresh then false else command_boundary_aligned in
      let '(has, aligned, slot) :=
        if is_acquisition_owned (pa_kind a) then (true, aligned, next)
        else if has && negb aligned then
          (has, true, if (next mod POINT_SLOTS_PER_CACHE_LINE =? 0)%nat then next else S next)
        else (has, aligned, next) in
      let '(slots, count) := allocate_loop rest (S slot) (Some (pa_channel_id a)) has aligned in
      (slot :: slots, count)
  end.

Definition allocate_slots (l : list PhysicalPointAddress) : list nat * nat :=
  allocate_loop l 0 None false false.

Section Manifest.
Variable calculate_layout_hash : list PhysicalPointAddress → list nat → nat → Z.

Definition compile (addresses : list PhysicalPointAddress) (max_slots : nat)
    : res Outbox.PortErrorKind ChannelPointManifest :=
  points ← canonicalize addresses max_slots [];
  let '(slots, count) := allocate_slots points in
  if (max_slots <? count)%nat then Err Outbox.InvalidData
  else Ok (MkManifest points slots count (calculate_layout_hash points slots count)).

(** Binary search over the sorted addresses, and over the sorted slots. *)
Definition slot_for (m : ChannelPointManifest) (a : PhysicalPointAddress) : option nat :=
  '(i, _) ← list_find (fun b => address_key b = address_key a) (points_by_address m);
  slots_by_address m !! i.

Definition physical_point_at (m : ChannelPointManifest) (slot : nat) : option PhysicalPointAddress :=
  '(i, _) ← list_find (eq slot) (slots_by_address m);
  points_by_address m !! i.

(** ** Order *)

Lemma key_ltb_spec a b : key_ltb a b = true ↔ key_lt a b.
Proof.
  destruct a as [[c k] p], b as [[c' k'] p']. unfold key_ltb, key_lt.
  rewrite !orb_true_iff, !andb_true_iff, !orb_true_iff, !andb_true_iff, !Z.ltb_lt, !Z.eqb_eq. tauto.
Qed.

Lemma key_lt_irrefl a : ¬ key_lt a a.
Proof. destruct a as [[c k] p]. cbn. lia. Qed.

Lemma key_lt_trans a b c : key_lt a b → key_lt b c → key_lt a c.
Proof. destruct a as [[??]?], b as [[??]?], c as [[??]?]. cbn. lia. Qed.

Lemma key_total a b : ¬ key_lt a b → ¬ key_lt b a → a = b.
Proof.
  destruct a as [[c k] p], b as [[c' k'] p']. cbn. intros H1 H2.
  assert (c = c') as -> by lia. assert (k = k') as -> by lia. assert (p = p') as -> by lia. done.
Qed.

Lemma kind_index_inj k k' : kind_index k = kind_index k' → k = k'.
Proof. by destruct k, k'. Qed.

Lemma address_key_inj a b : address_key a = address_key b → a = b.
Proof.
  destruct a, b. unfold address_key. cbn. intros [= -> Hk ->]. by apply kind_index_inj in Hk as ->.
Qed.

Definition addr_lt (a b : PhysicalPointAddress) : Prop := key_lt (address_key a) (address_key b).

(** Strictly increasing by key. *)
Notation ordered := (StronglySorted addr_lt).

Lemma insert_address_spec a l l' :
  ordered l → insert_address a l = Some l' → ordered l' ∧ a ∉ l ∧ ∀ b, b ∈ l' ↔ b = a ∨ b ∈ l.
Proof.
  intros Hl. revert l'. induction Hl as [|b l Hl IH Hb]; intros l'; cbn [insert_address].
  - intros [= <-]. split_and!; [by repeat constructor|by apply not_elem_of_nil|].
    intros x. rewrite list_elem_of_singleton, elem_of_nil. tauto.
  - destruct (key_ltb (address_key a) (address_key b)) eqn:E1.
    { apply key_ltb_spec in E1. intros [= <-].
      assert (Forall (addr_lt a) (b :: l)) as Ha.
      { constructor; [done|]. eapply Forall_impl; [exact Hb|]. intros x. by apply key_lt_trans. }
      split_and!; [constructor; [by constructor|exact Ha]| |intros x; by rewrite elem_of_cons].
      intros Hin. rewrite Forall_forall in Ha. by apply Ha, key_lt_irrefl in Hin. }
    destruct (key_ltb (address_key b) (address_key a)) eqn:E2; [|done].
    apply key_ltb_spec in E2. destruct (insert_address a l) as [r|] eqn:Er; [|done]. intros [= <-].
    destruct (IH r eq_refl) as (Ho & Hn & Hin). split_and!.
    + constructor; [done|]. apply Forall_forall. intros x [->|Hx]%Hin; [done|].
      rewrite Forall_forall in Hb. by apply Hb.
    + rewrite elem_of_cons. intros [->|?]; [by apply key_lt_irrefl in E2|done].
    + intros x. rewrite !elem_of_cons, Hin. tauto.
Qed.

Lemma insert_address_some a l : ordered l → a ∉ l → is_Some (insert_address a l).
Proof.
  intros Hl. induction Hl as [|b l Hl IH Hb]; intros Hn; cbn [insert_address]; [by eexists|].
  destruct (key_ltb (address_key a) _) eqn:E1; [by eexists|].
  destruct (key_ltb (address_key b) _) eqn:E2.
  - rewrite not_elem_of_cons in Hn. destruct IH as [r ->]; [tauto|by eexists].
  - destruct Hn. apply elem_of_cons. left. apply address_key_inj, key_total;
      intros H; apply key_ltb_spec in H; congruence.
Qed.

Lemma length_insert_address a l l' : insert_address a l = Some l' → length l' = S (length l).
Proof.
  revert l'. induction l as [|b l IH]; intros l'; cbn [insert_address]; [by intros [= <-]|].
  destruct (key_ltb (address_key a) _); [by intros [= <-]|].
  destruct (key_ltb (address_key b) _); [|done].
  destruct (insert_address a l) as [r|]; [|done]. intros [= <-]. cbn. by rewrite (IH r).
Qed.

Lemma canonicalize_spec addresses max canonical r :
  ordered canonical → canonicalize addresses max canonical = Ok r →
  ordered r ∧ NoDup addresses ∧ (∀ a, a ∈ addresses → a ∉ canonical) ∧
  ∀ a, a ∈ r ↔ a ∈ canonical ∨ a ∈ addresses.
Proof.
  revert canonical. induction addresses as [|a rest IH]; intros canonical Ho; cbn [canonicalize].
  - intros [= <-]. split_and!; [done|constructor|by intros ? ?%elem_of_nil|].
    intros x. rewrite elem_of_nil. tauto.
  - destruct (max <=? length canonical)%nat; [done|].
    destruct (insert_address a canonical) as [c|] eqn:Ei; [|done]. intros Hc.
    apply insert_address_spec in Ei as (Ho' & Hn & Hin); [|done].
    destruct (IH c Ho' Hc) as (H1 & H2 & H3 & H4). split_and!; [done| | |].
    + constructor; [|done]. intros Ha. apply (H3 a Ha), Hin. by left.
    + intros x [->|Hx]%elem_of_cons; [done|]. intros Hxc. apply (H3 x Hx), Hin. by right.
    + intros x. rewrite H4, Hin, elem_of_cons. tauto.
Qed.

(** ** Slots *)

Lemma allocate_cons a rest next prev has al :
  ∃ has' al' slot,
    (next ≤ slot)%nat ∧
    allocate_loop (a :: rest) next prev has al =
      (slot :: (allocate_loop rest (S slot) (Some (pa_channel_id a)) has' al').1,
       (allocate_loop rest (S slot) (Some (pa_channel_id a)) has' al').2).
Proof.
  cbn [allocate_loop]. set (h := if _ : bool then false else has). set (x := if _ : bool then false else al).
  destruct (is_acquisition_owned (pa_kind a)); [|destruct (h && negb x); [destruct (_ =? 0)%nat|]];
    match goal with |- context [allocate_loop rest ?n ?p ?h ?b] => exists h, b, (n - 1)%nat end;
    cbn [Nat.sub]; rewrite ?Nat.sub_0_r; (split; [lia|]); by destruct (allocate_loop rest _ _ _ _).
Qed.

Lemma allocate_increasing l next prev has al :
  let '(slots, count) := allocate_loop l next prev has al in
  length slots = length l ∧ StronglySorted lt slots ∧
  Forall (fun s => next ≤ s < count)%nat slots ∧ (next ≤ count)%nat.
Proof.
  revert next prev has al. induction l as [|a l IH]; intros next prev has al.
  { cbn. split_and!; [done|constructor..|lia]. }
  destruct (allocate_cons a l next prev has al) as (h & x & slot & Hs & ->).
  specialize (IH (S slot) (Some (pa_channel_id a)) h x).
  destruct (allocate_loop l (S slot) _ h x) as [slots count]. destruct IH as (H1 & H2 & H3 & H4). cbn [fst snd].
  assert (Forall (fun s => slot < s < count)%nat slots) as H5
    by (eapply Forall_impl; [exact H3|]; cbn; lia).
  split_and!; [cbn; lia| | |lia].
  - constructor; [done|]. eapply Forall_impl; [exact H5|]. cbn. lia.
  - constructor; [lia|]. eapply Forall_impl; [exact H5|]. cbn. lia.
Qed.

Lemma even_up n : ((if (n mod 2 =? 0)%nat then n else S n) mod 2 = 0)%nat.
Proof.
  destruct (n mod 2 =? 0)%nat eqn:E; bool_to_prop; [done|].
  pose proof (Nat.mod_upper_bound n 2). pose proof (Nat.div_mod_eq n 2).
  replace (S n) with ((n / 2 + 1) * 2)%nat by lia. apply Nat.Div0.mod_mul.
Qed.

(** The command slots of channel [ch] start at an even boundary not below [next]. *)
Lemma allocate_boundary l next ch :
  StronglySorted addr_lt l → Forall (fun a => ch ≤ pa_channel_id a) l →
  ∃ e, (next ≤ e)%nat ∧ (e mod 2 = 0)%nat ∧
       ∀ j b s, l !! j = Some b → (allocate_loop l next (Some ch) true false).1 !! j = Some s →
       pa_channel_id b = ch → is_acquisition_owned (pa_kind b) = false → (e ≤ s)%nat.
Proof.
  intros Hl. revert next. induction Hl as [|a l Hl IH Ha]; intros next Hch.
  { exists (2 * next)%nat. split_and!; [lia|by rewrite Nat.mul_comm, Nat.Div0.mod_mul|done]. }
  apply Forall_cons in Hch as [Hca Hch]. destruct (decide (pa_channel_id a = ch)) as [Heq|Hne].
  - destruct (is_acquisition_owned (pa_kind a)) eqn:Ek.
    + destruct (IH (S next) Hch) as (e & He & Hev & Hj). exists e. split_and!; [lia|done|].
      intros j b s Hb Hs Hbc Hbk. cbn [allocate_loop] in Hs. rewrite Heq in Hs.
      rewrite bool_decide_eq_true_2, Ek in Hs by done. cbn [negb] in Hs.
      destruct j as [|j]; [cbn in Hb; congruence|]. eapply Hj; [exact Hb| |done|done].
      by destruct (allocate_loop l (S next) (Some ch) true false).
    + exists (if (next mod 2 =? 0)%nat then next else S next). split_and!; [by case_match; lia|apply even_up|].
      intros j b s _ Hs _ _. cbn [allocate_loop] in Hs.
      rewrite Heq, bool_decide_eq_true_2, Ek in Hs by done. cbn [negb andb] in Hs.
      unfold POINT_SLOTS_PER_CACHE_LINE in Hs. set (e := if _ : bool then _ else _) in *.
      pose proof (allocate_increasing l (S e) (Some ch) true true) as Hi.
      destruct (allocate_loop l (S e) (Some ch) true true) as [slots count]. destruct Hi as (_ & _ & Hi & _).
      destruct j as [|j]; cbn in Hs; [injection Hs as <-; lia|].
      eapply Forall_lookup_1 in Hi; [|exact Hs]. cbn in Hi. lia.
  - exists (2 * next)%nat. split_and!; [lia|by rewrite Nat.mul_comm, Nat.Div0.mod_mul|].
    intros j b s Hb _ Hbc _. assert (b ∈ a :: l) as Hin by (by eapply list_elem_of_lookup_2).
    exfalso. apply elem_of_cons in Hin as [->|Hin]; [done|]. rewrite Forall_forall in Ha.
    specialize (Ha b Hin). unfold addr_lt, address_key, key_lt in Ha. lia.
Qed.

Lemma addr_lt_channel x y :
  addr_lt x y →
  pa_channel_id x ≤ pa_channel_id y ∧
  (pa_channel_id x = pa_channel_id y →
   is_acquisition_owned (pa_kind x) = false → is_acquisition_owned (pa_kind y) = false).
Proof.
  unfold addr_lt, address_key, key_lt. intros Hx. split; [lia|]. intros Hxy Hk.
  destruct (pa_kind x), (pa_kind y); cbn in *; try done; lia.
Qed.

(** Once a channel's boundary is set, only its command points remain. *)
Lemma allocate_ownership l next prev has al :
  StronglySorted addr_lt l →
  (al = true → ∀ c, prev = Some c → Forall (fun a => pa_channel_id a = c → is_acquisition_owned (pa_kind a) = false) l) →
  ∀ i j a b s t, l !! i = Some a → l !! j = Some b →
  (allocate_loop l next prev has al).1 !! i = Some s → (allocate_loop l next prev has al).1 !! j = Some t →
  pa_channel_id a = pa_channel_id b → is_acquisition_owned (pa_kind a) = true →
  is_acquisition_owned (pa_kind b) = false → (s / 2 < t / 2)%nat.
Proof.
  intros Hl. revert next prev has al. induction Hl as [|x l Hl IH Hx]; intros next prev has al Hal; [done|].
  intros i j a b s t Ha Hb Hs Ht Hc Hka Hkb.
  assert (∀ y, y ∈ l → pa_channel_id x ≤ pa_channel_id y ∧ (pa_channel_id x = pa_channel_id y →
            is_acquisition_owned (pa_kind x) = false → is_acquisition_owned (pa_kind y) = false)) as Hord.
  { intros y Hy. rewrite Forall_forall in Hx. by apply addr_lt_channel, Hx. }
  destruct i as [|i], j as [|j]; cbn [lookup list_lookup] in Ha, Hb; simplify_eq; [congruence|..].
  - (* the acquisition point is first: the commands of its channel lie past a boundary *)
    cbn [allocate_loop] in Hs, Ht. set (h := if _ : bool then false else has) in *.
    set (al' := if _ : bool then false else al) in *. rewrite Hka in Hs, Ht.
    assert (al' = false) as Hf.
    { unfold al'. case_bool_decide as Hp; cbn; [|done]. destruct al; [|done].
      specialize (Hal eq_refl _ Hp). apply Forall_cons in Hal as [Hal _]. by rewrite Hal in Hka. }
    rewrite Hf in Hs, Ht. destruct (allocate_boundary l (S next) (pa_channel_id a)) as (e & He & Hev & Hj); [done| |].
    { apply Forall_forall. intros y Hy. by apply Hord. }
    destruct (allocate_loop l (S next) (Some (pa_channel_id a)) true false) as [slots count] eqn:El.
    cbn in Hs, Ht. simplify_eq. specialize (Hj j b t Hb Ht (eq_sym Hc) Hkb).
    pose proof (Nat.div_mod_eq e 2). apply Nat.Div0.div_lt_upper_bound.
    pose proof (Nat.Div0.div_le_mono e t 2 Hj). lia.
  - (* a command point before an acquisition point of its channel: excluded by the order *)
    destruct (Hord a) as [_ Hk]; [by eapply list_elem_of_lookup_2|]. rewrite Hk in Hka; congruence.
  - cbn [allocate_loop] in Hs, Ht. set (h := if _ : bool then false else has) in *.
    set (al' := if _ : bool then false else al) in *.
    assert (al' = true → Forall (fun y => pa_channel_id y = pa_channel_id x →
              is_acquisition_owned (pa_kind y) = false) l) as Hal'.
    { unfold al'. case_bool_decide as Hp; cbn; [|done]. intros ->.
      specialize (Hal eq_refl _ Hp). by apply Forall_cons in Hal as [_ Hal]. }
    assert (∀ n h' x', (x' = true → Forall (fun y => pa_channel_id y = pa_channel_id x →
              is_acquisition_owned (pa_kind y) = false) l) →
      (allocate_loop l n (Some (pa_channel_id x)) h' x').1 !! i = Some s →
      (allocate_loop l n (Some (pa_channel_id x)) h' x').1 !! j = Some t → (s / 2 < t / 2)%nat) as Hrec.
    { intros n h' x' Hx' Hs' Ht'. eapply (IH n (Some (pa_channel_id x)) h' x'); [|exact Ha|exact Hb|done..].
      intros Hxt c [= <-]. auto. }
    destruct (is_acquisition_owned (pa_kind x)) eqn:Ekx; [|destruct (h && negb al')];
      match type of Hs with context [allocate_loop ?k ?n ?p ?h ?b] => specialize (Hrec n h b);
        destruct (allocate_loop k n p h b) as [slots count]; cbn in Hs, Ht; apply Hrec; try done end.
    intros _. apply Forall_forall. intros y Hy Hyx. by apply (proj2 (Hord y Hy)).
Qed.

(** ** The manifest as a bijection *)

Lemma find_index {A} (P : A → Prop) `{∀ x, Decision (P x)} l a :
  (∀ x y, P x → P y → x ∈ l → y ∈ l → x = y) → NoDup l → P a →
  ∀ i, (∃ x, list_find P l = Some (i, x) ∧ a ∈ l) ↔ l !! i = Some a.
Proof.
  intros Hinj Hnd Ha i. split.
  - intros (x & Hx & Hin). apply list_find_Some in Hx as (Hi & Px & _).
    rewrite Hi. f_equal. apply Hinj; [done..|by eapply list_elem_of_lookup_2|done].
  - intros Hi. exists a. split; [|by eapply list_elem_of_lookup_2]. apply list_find_Some.
    split_and!; [done..|]. intros j y Hj Hlt Py.
    assert (y = a) as -> by (apply Hinj; [done|done|by eapply list_elem_of_lookup_2|by eapply list_elem_of_lookup_2]).
    pose proof (NoDup_lookup l i j a Hnd Hi Hj). lia.
Qed.

Lemma ordered_NoDup l : StronglySorted addr_lt l → NoDup l.
Proof.
  induction 1 as [|a l Hl IH Ha]; constructor; [|done]. intros Hin. rewrite Forall_forall in Ha.
  by apply Ha, key_lt_irrefl in Hin.
Qed.

Lemma increasing_NoDup (l : list nat) : StronglySorted lt l → NoDup l.
Proof.
  induction 1 as [|a l Hl IH Ha]; constructor; [|done]. intros Hin. rewrite Forall_forall in Ha.
  by apply Ha, Nat.lt_irrefl in Hin.
Qed.

Definition manifest_ok (m : ChannelPointManifest) : Prop :=
  StronglySorted addr_lt (points_by_address m) ∧
  allocate_slots (points_by_address m) = (slots_by_address m, slot_count m).

Lemma compile_ok addresses max m :
  compile addresses max = Ok m →
  manifest_ok m ∧ NoDup addresses ∧ (∀ a, a ∈ points_by_address m ↔ a ∈ addresses) ∧
  (slot_count m ≤ max)%nat.
Proof.
  unfold compile. intros H. apply res_bind_Ok in H as (ps & Hp & H).
  apply canonicalize_spec in Hp as (Ho & Hnd & _ & Hin); [|constructor].
  destruct (allocate_slots ps) as [slots count] eqn:Ea.
  destruct (max <? count)%nat eqn:Em; [done|]. injection H as <-. bool_to_prop. split_and!; cbn; try done.
  intros a. rewrite Hin, elem_of_nil. tauto.
Qed.

Lemma slot_for_spec m a s :
  manifest_ok m →
  slot_for m a = Some s ↔ ∃ i, points_by_address m !! i = Some a ∧ slots_by_address m !! i = Some s.
Proof.
  intros [Ho _]. unfold slot_for. rewrite bind_Some. split.
  - intros ([i x] & Hf & Hs). pose proof Hf as (Hi & Hk & _)%list_find_Some.
    apply address_key_inj in Hk as ->. eauto.
  - intros (i & Hi & Hs). apply (find_index (fun b => address_key b = address_key a)) in Hi as (x & Hx & _).
    + by exists (i, x).
    + intros x y Hx Hy _ _. apply address_key_inj. congruence.
    + by apply ordered_NoDup.
    + done.
Qed.

Lemma physical_point_at_spec m a s :
  manifest_ok m →
  physical_point_at m s = Some a ↔ ∃ i, points_by_address m !! i = Some a ∧ slots_by_address m !! i = Some s.
Proof.
  intros [Ho Ha]. unfold physical_point_at. rewrite bind_Some. split.
  - intros ([i x] & Hf & Hs). apply list_find_Some in Hf as (Hi & -> & _). eauto.
  - intros (i & Hi & Hs). apply (find_index (eq s)) in Hs as (x & Hx & _).
    + by exists (i, x).
    + congruence.
    + apply increasing_NoDup. pose proof (allocate_increasing (points_by_address m) 0 None false false) as Hinc.
      unfold allocate_slots in Ha. rewrite Ha in Hinc. apply Hinc.
    + done.
Qed.

Lemma slots_length m : manifest_ok m → length (slots_by_address m) = length (points_by_address m).
Proof.
  intros [_ Ha]. pose proof (allocate_increasing (points_by_address m) 0 None false false) as Hinc.
  unfold allocate_slots in Ha. rewrite Ha in Hinc. apply Hinc.
Qed.

Lemma slot_for_bound m a s : manifest_ok m → slot_for m a = Some s → (s < slot_count m)%nat.
Proof.
  intros Hok Hs. apply slot_for_spec in Hs as (i & _ & Hs); [|done]. destruct Hok as [_ Ha].
  pose proof (allocate_increasing (points_by_address m) 0 None false false) as Hi.
  unfold allocate_slots in Ha. rewrite Ha in Hi. destruct Hi as (_ & _ & Hf & _).
  eapply Forall_lookup_1 in Hf; [|exact Hs]. cbn in Hf. lia.
Qed.

(** C32. A compiled manifest gives every configured address its own slot below the
    slot count and no slot to anything else: the slot lookup and the reverse
    lookup are inverse to each other, and a duplicate address is refused. *)
Theorem compile_bijective (addresses : list PhysicalPointAddress) (max : nat)
    (m : ChannelPointManifest) :
  compile addresses max = Ok m →
  NoDup addresses ∧ (slot_count m ≤ max)%nat ∧
  (∀ a, a ∈ addresses ↔ is_Some (slot_for m a)) ∧
  (∀ a s, slot_for m a = Some s ↔ physical_point_at m s = Some a) ∧
  (∀ a s, slot_for m a = Some s → (s < slot_count m)%nat).
Proof.
  intros H. apply compile_ok in H as (Hok & Hnd & Hin & Hmax). split_and!; [done|done|..].
  - intros a. rewrite <- Hin. split.
    + intros [i Hi]%list_elem_of_lookup. assert (is_Some (slots_by_address m !! i)) as [s Hs].
      { apply lookup_lt_is_Some. rewrite slots_length by done. by eapply lookup_lt_Some. }
      exists s. apply slot_for_spec; eauto.
    + intros [s Hs]. apply slot_for_spec in Hs as (i & Hi & _); [|done]. by eapply list_elem_of_lookup_2.
  - intros a s. by rewrite slot_for_spec, physical_point_at_spec.
  - intros a s. by apply slot_for_bound.
Qed.

(** The two writers of a channel never share a cache line: no slot of an
    acquisition-owned point lies in the same line as a slot of a command-owned
    point of the same channel. *)
Theorem ownership_separated (addresses : list PhysicalPointAddress) (max : nat)
    (m : ChannelPointManifest) (a b : PhysicalPointAddress) (s t : nat) :
  compile addresses max = Ok m → slot_for m a = Some s → slot_for m b = Some t →
  pa_channel_id a = pa_channel_id b → is_acquisition_owned (pa_kind a) = true →
  is_acquisition_owned (pa_kind b) = false →
  (s / POINT_SLOTS_PER_CACHE_LINE ≠ t / POINT_SLOTS_PER_CACHE_LINE)%nat.
Proof.
  intros H Hs Ht Hc Hka Hkb. apply compile_ok in H as (Hok & _). pose proof Hok as [Ho Ha].
  apply slot_for_spec in Hs as (i & Hi & Hsi), Ht as (j & Hj & Htj); [|done..].
  unfold allocate_slots in Ha.
  assert (s / 2 < t / 2)%nat; [|unfold POINT_SLOTS_PER_CACHE_LINE; lia].
  refine (allocate_ownership (points_by_address m) 0 None false false Ho _ i j a b s t Hi Hj _ _ Hc Hka Hkb);
    [done|by rewrite Ha..].
Qed.

End Manifest.

(** Three telemetry points and one action point of a channel: a padding slot. *)
Definition sample_addresses : list PhysicalPointAddress :=
  [PhysicalPoint 7 Action 1; PhysicalPoint 7 Telemetry 9; PhysicalPoint 7 Telemetry 4;
   PhysicalPoint 7 Status 2; PhysicalPoint 9 Command 1].
Definition sample_manifest : ChannelPointManifest :=
  MkManifest [PhysicalPoint 7 Telemetry 4; PhysicalPoint 7 Telemetry 9; PhysicalPoint 7 Status 2;
              PhysicalPoint 7 Action 1; PhysicalPoint 9 Command 1] [0; 1; 2; 4; 5]%nat 6 0.

Lemma compile_bijective_witness :
  compile (fun _ _ _ => 0) sample_addresses 8 = Ok sample_manifest ∧ NoDup sample_addresses.
Proof.
  split; [by vm_compute|]. apply (compile_bijective (fun _ _ _ => 0) sample_addresses 8 sample_manifest).
  by vm_compute.
Defined.

Lemma ownership_separated_witness : (2 / POINT_SLOTS_PER_CACHE_LINE ≠ 4 / POINT_SLOTS_PER_CACHE_LINE)%nat.
Proof.
  apply (ownership_separated (fun _ _ _ => 0) sample_addresses 8 sample_manifest
           (PhysicalPoint 7 Status 2) (PhysicalPoint 7 Action 1)); by vm_compute.
Defined.

End Manifest.
