(* ===== verification/CommandSink.v ===== *)
(** * The device command sink (libs/aether-shm-bridge/src/command_sink.rs)

    A physical command is mirrored into its shared-memory slot and then written as
    one 56-byte frame to the IO service's socket.  Everything outside the sink
    (clocks, the generation cell other tasks replace, the canonical path, the
    socket) answers each query from an arbitrary schedule, cancellation by the
    transport deadline included.  [ne] byte order is little-endian. *)

From stdpp Require Import base tactics numbers list.
From S2P Require Import Prelude State Float Domain Outbox Shm Manifest Executor.
#[local] Open Scope Z_scope.

Module CommandSink.
Import Float Domain.

(** ** The frame *)

Definition FRAME_SIZE : nat := 56.

Record DeviceCommandFrame := Frame {
  f_channel_id : Z; f_point_id : Z; f_point_type : Z; f_padding : list Z; f_value_bits : Z;
  f_timestamp_ms : Z; f_expires_at_ms : Z; f_producer_id : Z; f_sequence : Z }.

(** The code of a command-owned kind; other kinds are refused. *)
Definition frame_new (c : PhysicalDeviceCommand) (producer_id sequence : Z) : option DeviceCommandFrame :=
  let t := d_target c in
  let frame k :=
    Frame (cc_channel_id t) (cc_point_id t) k (replicate 7 0) (to_bits (d_value c))
      (d_issued_at c) (d_expires_at c) producer_id sequence in
  match cc_kind t with
  | Command => Some (frame 2)
  | Action => Some (frame 3)
  | Telemetry | Status => None
  end.

Definition to_bytes (f : DeviceCommandFrame) : list Z :=
  le_bytes 4 (f_channel_id f) ++ le_bytes 4 (f_point_id f) ++ [f_point_type f] ++ f_padding f ++
  le_bytes 8 (f_value_bits f) ++ le_bytes 8 (f_timestamp_ms f) ++ le_bytes 8 (f_expires_at_ms f) ++
  le_bytes 8 (f_producer_id f) ++ le_bytes 8 (f_sequence f).

Definition from_bytes (b : list Z) : DeviceCommandFrame :=
  Frame (load_le 0 4 b) (load_le 4 4 b) (nth 8 b 0) (slice 9 7 b) (load_le 16 8 b)
    (load_le 24 8 b) (load_le 32 8 b) (load_le 40 8 b) (load_le 48 8 b).

Definition frame_point_kind (f : DeviceCommandFrame) : option PointKind :=
  if f_point_type f =? 2 then Some Command else if f_point_type f =? 3 then Some Action else None.
Definition frame_value (f : DeviceCommandFrame) : f64 := from_bits (f_value_bits f).

(** ** State and surroundings *)

Record CommandGeneration := Generation {
  cg_id : nat;  (* identity of the [Arc] *)
  cg_manifest : Manifest.ChannelPointManifest;
  cg_slot_count : nat;
  expected_generation : Z }.

Inductive Connection := Connected | Refused | ConnectTimeout | ConnectCancelled.
(** How [write_all] ended; a write that did not complete accepted [n] bytes. *)
Inductive Write := Written | WriteFailed (n : nat) | WriteTimeout (n : nat) | WriteCancelled (n : nat).

Record outside := Outside {
  system_time_ms : nat → Z;
  instant : nat → Z;
  cell : nat → option CommandGeneration;
  lease : nat → res Shm.DataplaneError bool;
  canonical_path : nat → res Shm.DataplaneError unit;
  header_generation : nat → Z;
  late : nat → Z;
  locked : nat → bool;
  connect : nat → Connection;
  written : nat → Write;
  slept : nat → bool }.

Record CommandNotifier := Notifier {
  stream : option nat;
  producer_id : Z;
  next_sequence : Z;
  last_connect_attempt : option Z;
  backoff : Z }.

Inductive event :=
| EMirror (slot : nat) (value raw : f64) (timestamp quality : Z)
| EWrite (stream : nat) (bytes : list Z)
| EInvalidate (generation : nat)
| ERebuild.

Record sink := Sink {
  notifier : option CommandNotifier; next_stream : nat; asked : nat; log : list event }.

Definition ask {A} (f : nat → A) : st sink A := fun w =>
  (f (asked w), Sink (notifier w) (next_stream w) (S (asked w)) (log w)).
Definition emit (e : event) : st sink unit := fun w =>
  (tt, Sink (notifier w) (next_stream w) (asked w) (log w ++ [e])).
Definition set_notifier (n : CommandNotifier) : st sink unit := fun w =>
  (tt, Sink (Some n) (next_stream w) (asked w) (log w)).
Definition open_stream : st sink nat := fun w =>
  (next_stream w, Sink (notifier w) (S (next_stream w)) (asked w) (log w)).

Definition NOTIFIER_SEND_RETRIES : nat := 3.
Definition MIN_BACKOFF : Z := 1000000000.
Definition MAX_BACKOFF : Z := 5000000000.

Inductive CommandNotifyError := Expired | NotifyTimeout | NotifyIo.
(** How a notification ended; [Cancelled]: dropped at an await by the deadline. *)
Inductive notified := Done | NotifyErr (e : CommandNotifyError) | Cancelled.

Section Sink.
Variable o : outside.

(** ** The notifier *)

Definition disconnect (n : CommandNotifier) (retry_immediately : bool) : st sink CommandNotifier :=
  now ← ask (instant o);
  let n := Notifier None (producer_id n) (next_sequence n)
             (if retry_immediately then None else Some now) (backoff n) in
  _ ← set_notifier n;
  mret n.

Definition failed_connect (n : CommandNotifier) : st sink CommandNotifier :=
  now ← ask (instant o);
  let n := Notifier (stream n) (producer_id n) (next_sequence n) (Some now)
             (Z.min (2 * backoff n) MAX_BACKOFF) in
  _ ← set_notifier n;
  mret n.

Definition try_reconnect (n : CommandNotifier) : st sink (notified * CommandNotifier) :=
  match stream n with
  | Some _ => mret (Done, n)
  | None =>
      now ← ask (instant o);
      if match last_connect_attempt n with Some a => Z.max 0 (now - a) <? backoff n | None => false end
      then mret (Done, n)
      else
        c ← ask (connect o);
        match c with
        | Connected =>
            s ← open_stream;
            let n := Notifier (Some s) (producer_id n) (next_sequence n) None MIN_BACKOFF in
            _ ← set_notifier n;
            mret (Done, n)
        | Refused => n ← failed_connect n; mret (Done, n)
        | ConnectTimeout => n ← failed_connect n; mret (NotifyErr NotifyTimeout, n)
        | ConnectCancelled => mret (Cancelled, n)
        end
  end.

Definition take_stream (n : CommandNotifier) : CommandNotifier :=
  Notifier None (producer_id n) (next_sequence n) (last_connect_attempt n) (backoff n).
Definition give_stream (s : nat) (n : CommandNotifier) : CommandNotifier :=
  Notifier (Some s) (producer_id n) (next_sequence n) (last_connect_attempt n) (backoff n).

(** A failed or timed-out attempt: retried unless it was the last. *)
Definition failed_write (n : CommandNotifier) (remaining : nat) (e : CommandNotifyError)
    (again : CommandNotifier → st sink (notified * CommandNotifier)) : st sink (notified * CommandNotifier) :=
  match remaining with
  | O => n ← disconnect n false; mret (NotifyErr e, n)
  | S _ =>
      n ← disconnect n true;
      ok ← ask (slept o);
      if ok : bool then again n else mret (Cancelled, n)
  end.

Fixpoint attempts (remaining : nat) (expires_at : Z) (frame : list Z) (n : CommandNotifier)
    : st sink (notified * CommandNotifier) :=
  match remaining with
  | O => mret (NotifyErr NotifyIo, n)
  | S remaining =>
      now ← ask (system_time_ms o);
      if expires_at <=? now then mret (NotifyErr Expired, n)
      else
        '(r, n) ← try_reconnect n;
        match r with
        | Done =>
            match stream n with
            | None => mret (NotifyErr NotifyIo, n)
            | Some s =>
                let n := take_stream n in
                _ ← set_notifier n;
                x ← ask (written o);
                match x with
                | Written =>
                    _ ← emit (EWrite s frame);
                    let n := give_stream s n in
                    _ ← set_notifier n;
                    mret (Done, n)
                | WriteFailed k =>
                    _ ← emit (EWrite s (take (min k (length frame - 1)) frame));
                    failed_write n remaining NotifyIo (attempts remaining expires_at frame)
                | WriteTimeout k =>
                    _ ← emit (EWrite s (take (min k (length frame - 1)) frame));
                    failed_write n remaining NotifyTimeout (attempts remaining expires_at frame)
                | WriteCancelled k =>
                    _ ← emit (EWrite s (take (min k (length frame - 1)) frame));
                    mret (Cancelled, n)
                end
            end
        | r => mret (r, n)
        end
  end.

Definition notify (c : PhysicalDeviceCommand) (n : CommandNotifier) : st sink (notified * CommandNotifier) :=
  '(r, n) ← try_reconnect n;
  match r with
  | Done =>
      now ← ask (system_time_ms o);
      if d_expires_at c <=? now then mret (NotifyErr Expired, n)
      else
        let sequence := next_sequence n in
        let n := Notifier (stream n) (producer_id n) (Z.max (wrapping_add 64 sequence 1) 1)
                   (last_connect_attempt n) (backoff n) in
        _ ← set_notifier n;
        match frame_new c (producer_id n) sequence with
        | None => mret (NotifyErr NotifyIo, n)
        | Some f => attempts NOTIFIER_SEND_RETRIES (d_expires_at c) (to_bytes f) n
        end
  | r => mret (r, n)
  end.

(** [publish_generation]: the writer's check of its path, its slots and its header
    against the manifest; the new [Arc] has identity [id]. *)
Definition stable (generation : Z) : bool := negb (generation =? 0) && (generation mod 2 =? 0).

Definition dataplane_port_error (e : Shm.DataplaneError) : Outbox.PortErrorKind :=
  match e with Shm.Io _ => Outbox.Unavailable | _ => Outbox.Conflict end.

Definition publish_generation (path : res Shm.DataplaneError unit) (writer_slots : nat)
    (h : Shm.HeaderSnapshot) (m : Manifest.ChannelPointManifest) (id : nat)
    : res Outbox.PortErrorKind CommandGeneration :=
  match path with
  | Err e => Err (dataplane_port_error e)
  | Panic => Panic
  | Ok _ =>
      if negb (writer_slots =? Manifest.slot_count m)%nat
         || negb (Shm.slot_count h =? Z.of_nat (Manifest.slot_count m))
         || negb (Shm.layout_hash h =? Manifest.layout_hash m)
      then Err Outbox.Conflict
      else if negb (stable (Shm.writer_generation h)) then Err Outbox.Conflict
      else Ok (Generation id m writer_slots (Shm.writer_generation h))
  end.

(** [configure_notifier]: the first connection attempt may fail. *)
Definition configure_notifier (path_is_empty : bool) (producer : Z) : st sink (res Outbox.PortErrorKind unit) :=
  if path_is_empty then mret (Err Outbox.InvalidData) else
  c ← ask (connect o);
  s ← (match c with Connected => s ← open_stream; mret (Some s) | _ => mret None end);
  now ← ask (instant o);
  let n := Notifier s producer 1 (match s with Some _ => None | None => Some now end) MIN_BACKOFF in
  w ← gets notifier;
  match w with
  | Some _ => mret (Err Outbox.Conflict)
  | None => _ ← set_notifier n; mret (Ok tt)
  end.

(** ** Authority *)

Definition current_generation : st sink (res Outbox.PortErrorKind CommandGeneration) :=
  c ← ask (cell o);
  match c with
  | Some g => mret (Ok g)
  | None => _ ← emit ERebuild; mret (Err Outbox.Unavailable)
  end.

Definition same_generation (c : option CommandGeneration) (g : CommandGeneration) : bool :=
  match c with Some c => (cg_id c =? cg_id g)%nat | None => false end.

Definition invalidate_stale_generation (g : CommandGeneration) : st sink unit :=
  c ← ask (cell o);
  _ ← (if same_generation c g then emit (EInvalidate (cg_id g)) else mret tt);
  emit ERebuild.

Definition validate_authority (g : CommandGeneration) : st sink (res Outbox.PortErrorKind unit) :=
  c ← ask (cell o);
  if negb (same_generation c g) then
    _ ← invalidate_stale_generation g; mret (Err Outbox.Conflict)
  else
    p ← ask (canonical_path o);
    match p with
    | Err e => _ ← invalidate_stale_generation g; mret (Err (dataplane_port_error e))
    | Panic => mret Panic
    | Ok _ =>
        actual ← ask (header_generation o);
        if (actual =? expected_generation g) && stable actual then mret (Ok tt)
        else _ ← invalidate_stale_generation g; mret (Err Outbox.Conflict)
    end.

(** One turn every 2 ms at least: turn [i] happens [2 * i] ms or more after the
    first, so turn 175 is past [AUTHORITY_READ_TIMEOUT]. *)
Fixpoint acquire_authority (turns : nat) (elapsed : Z) (expires_at : Z) : st sink (res Outbox.PortErrorKind unit) :=
  l ← ask (lease o);
  match l with
  | Ok true => mret (Ok tt)
  | Err e => mret (Err (dataplane_port_error e))
  | Panic => mret Panic
  | Ok false =>
      now ← ask (system_time_ms o);
      if expires_at <=? now then mret (Err Outbox.Rejected)
      else
        extra ← ask (late o);
        if 350 <=? elapsed + Z.max 0 extra then mret (Err Outbox.Timeout)
        else
          match turns with
          | O => mret (Err Outbox.Timeout)
          | S turns => acquire_authority turns (elapsed + 2) expires_at
          end
  end.

(** ** Sending *)

Definition rejected (x : res DomainError unit) : res Outbox.PortErrorKind unit :=
  match x with Ok _ => Ok tt | Err _ => Err Outbox.Rejected | Panic => Panic end.

(** [encode_point_quality(PointQuality::Good)] *)
Definition GOOD : Z := 0.

Definition mirror (g : CommandGeneration) (c : PhysicalDeviceCommand) : st sink (res Outbox.PortErrorKind unit) :=
  match Manifest.slot_for (cg_manifest g) (Manifest.from_command_address (d_target c)) with
  | None => mret (Err Outbox.NotFoundKind)
  | Some slot =>
      if (slot <? cg_slot_count g)%nat then
        _ ← emit (EMirror slot (d_value c) (d_value c) (d_issued_at c) GOOD); mret (Ok tt)
      else mret Panic
  end.

Definition transport (c : PhysicalDeviceCommand) (n : CommandNotifier) : st sink (res Outbox.PortErrorKind unit) :=
  '(r, n) ← notify c n;
  match r with
  | Done => mret (Ok tt)
  | Cancelled => _ ← disconnect n false; mret (Err Outbox.Timeout)
  | NotifyErr Expired => mret (Err Outbox.Rejected)
  | NotifyErr NotifyTimeout => mret (Err Outbox.Timeout)
  | NotifyErr NotifyIo => mret (Err Outbox.Unavailable)
  end.

(** From the transport write to the receipt. *)
Definition accept_frame (g : CommandGeneration) (c : PhysicalDeviceCommand) (n : CommandNotifier)
    : st sink (res Outbox.PortErrorKind Executor.CommandReceipt) :=
  _ ←? transport c n;
  _ ←? validate_authority g;
  now ← ask (system_time_ms o);
  mret (Ok (Executor.Receipt (d_id c) now)).

(** With the notifier's lock. *)
Definition deliver (g : CommandGeneration) (c : PhysicalDeviceCommand) (n : CommandNotifier)
    : st sink (res Outbox.PortErrorKind Executor.CommandReceipt) :=
  ok ← ask (locked o);
  if negb ok then mret (Err Outbox.Timeout)
  else
    now ← ask (system_time_ms o);
    match rejected (physical_validate_at c now) with
    | Err e => mret (Err e)
    | Panic => mret Panic
    | Ok _ => _ ←? validate_authority g; accept_frame g c n
    end.

Definition send (c : PhysicalDeviceCommand) : st sink (res Outbox.PortErrorKind Executor.CommandReceipt) :=
  now ← ask (system_time_ms o);
  match rejected (physical_validate_at c now) with
  | Err e => mret (Err e)
  | Panic => mret Panic
  | Ok _ =>
      g ←? current_generation;
      _ ←? acquire_authority 175 0 (d_expires_at c);
      _ ←? validate_authority g;
      _ ←? mirror g c;
      _ ←? validate_authority g;
      n ← gets notifier;
      match n with
      | None => mret (Err Outbox.Unavailable)
      | Some n => deliver g c n
      end
  end.

(** ** What reaches the socket *)

Definition current (w : sink) : option nat := notifier w ≫= stream.

(** The chunks written, on one stream and in all. *)
Definition writes (s : nat) (l : list event) : list (list Z) :=
  omap (fun e => match e with EWrite s' b => if decide (s = s') then Some b else None | _ => None end) l.
Definition sent (l : list event) : list (list Z) :=
  omap (fun e => match e with EWrite _ b => Some b | _ => None end) l.

(** Whole frames, and at most one fragment after them, on a stream that is closed. *)
Definition framed (open : bool) (l : list (list Z)) : Prop :=
  ∃ fs p, l = fs ++ p ∧ Forall (fun b => length b = FRAME_SIZE) fs ∧
          (p = [] ∨ open = false ∧ ∃ b, p = [b] ∧ (length b < FRAME_SIZE)%nat).

Definition aligned (w : sink) : Prop :=
  (∀ s, framed (bool_decide (current w = Some s)) (writes s (log w))) ∧
  (∀ s, (next_stream w ≤ s)%nat → writes s (log w) = []) ∧
  (∀ s, current w = Some s → (s < next_stream w)%nat).

Lemma writes_app s l l' : writes s (l ++ l') = writes s l ++ writes s l'.
Proof. apply omap_app. Qed.
Lemma sent_app l l' : sent (l ++ l') = sent l ++ sent l'.
Proof. apply omap_app. Qed.

Lemma framed_close b l : framed b l → framed false l.
Proof. intros (fs & p & -> & Hfs & Hp). exists fs, p. naive_solver. Qed.

Lemma framed_push open fs b :
  framed true fs → (if open : bool then length b = FRAME_SIZE else length b ≤ FRAME_SIZE)%nat →
  framed open (fs ++ [b]).
Proof.
  intros (fs' & p & -> & Hfs & [->|[? _]]) Hb; [|done]. rewrite app_nil_r.
  destruct (decide (length b = FRAME_SIZE)) as [He|He].
  - exists (fs' ++ [b]), []. rewrite app_nil_r, Forall_app, Forall_singleton. auto.
  - exists fs', [b]. split_and!; [done|done|]. right. destruct open; [lia|]. split; [done|]. exists b. split; [done|lia].
Qed.

(** *** Triples *)

Definition triple {A} (P : sink → Prop) (m : st sink A) (Q : A → sink → Prop) : Prop :=
  ∀ w, P w → Q (m w).1 (m w).2.

Lemma triple_bind {A B} P (m : st sink A) R (k : A → st sink B) Q :
  triple P m R → (∀ a, triple (R a) (k a) Q) → triple P (m ≫= k) Q.
Proof.
  intros Hm Hk w Hw. unfold mbind, st_bind. specialize (Hm w Hw). destruct (m w) as [a w']. by apply Hk.
Qed.

Lemma triple_try {E A B} P (m : st sink (res E A)) R (k : A → st sink (res E B)) Q :
  triple P m R → (∀ a, triple (R (Ok a)) (k a) Q) →
  (∀ e w, R (Err e) w → Q (Err e) w) → (∀ w, R Panic w → Q Panic w) → triple P (st_try m k) Q.
Proof.
  intros Hm Hk He Hp w Hw. unfold st_try. specialize (Hm w Hw). destruct (m w) as [[a|e|] w'];
    [by apply Hk|by apply He|by apply Hp].
Qed.

Lemma triple_at {A} P (m : st sink A) Q w : P w → triple P m Q → Q (m w).1 (m w).2.
Proof. intros Hw Hm. by apply Hm. Qed.

Lemma triple_ret {A} P (a : A) (Q : A → sink → Prop) : (∀ w, P w → Q a w) → triple P (mret a) Q.
Proof. intros H w Hw. by apply H. Qed.

Lemma triple_post {A} P (m : st sink A) (Q Q' : A → sink → Prop) :
  triple P m Q → (∀ a w, Q a w → Q' a w) → triple P m Q'.
Proof. intros Hm HQ w Hw. by apply HQ, Hm. Qed.

(** What an operation appended, with the notifier it left. *)
Record progressing (n : option CommandNotifier) (l0 : list event) (Q : list event → Prop) (w : sink) : Prop := {
  pr_aligned : aligned w;
  pr_notifier : notifier w = n;
  pr_events : ∃ evs, log w = l0 ++ evs ∧ Q evs }.
Definition progress (n : CommandNotifier) := progressing (Some n).

Lemma triple_ask {A} (f : nat → A) n l0 Q :
  triple (progressing n l0 Q) (ask f) (fun _ => progressing n l0 Q).
Proof. intros w [(H1 & H2 & H3) Hn He]. by split. Qed.

(** Replacing the notifier by one with the same stream, or none. *)
Lemma triple_set n n' l0 Q :
  (stream n' = stream n ∨ stream n' = None) →
  triple (progress n l0 Q) (set_notifier n') (fun _ => progress n' l0 Q).
Proof.
  intros Hs w [(H1 & H2 & H3) Hn He]. cbn. unfold current in *. rewrite Hn in *. cbn in *.
  split; [|done|done]. unfold aligned, current. cbn. destruct Hs as [->| ->]; [done|].
  split_and!; [|done|done]. intros s. eapply framed_close, H1.
Qed.

Lemma triple_open n n' l0 Q s0 :
  stream n = None → stream n' = Some s0 →
  triple (fun w => progress n l0 Q w ∧ next_stream w = s0)
    (_ ← open_stream; set_notifier n') (fun _ => progress n' l0 Q).
Proof.
  intros Hn0 Hn' w [[(H1 & H2 & H3) Hn He] Hs]. split; [|done|done]. unfold aligned.
  assert (current ((_ ← open_stream; set_notifier n') w).2 = Some s0) as -> by done. split_and!.
  - intros s. case_bool_decide as Hd; [|by eapply framed_close, H1]. injection Hd as ->.
    change (framed true (writes s (log w))). rewrite H2 by lia. exists [], []. auto.
  - intros s Hle. change (S (next_stream w) ≤ s)%nat in Hle. apply H2. lia.
  - intros s [= <-]. change (s0 < S (next_stream w))%nat. lia.
Qed.

Lemma failed_connect_spec n l0 Q :
  triple (progress n l0 Q) (failed_connect n) (fun n' => progress n' l0 Q).
Proof.
  eapply triple_bind; [apply triple_ask|]. intros now.
  eapply triple_bind; [apply triple_set; by left|intros; by apply triple_ret].
Qed.

Lemma disconnect_spec n l0 Q b :
  triple (progress n l0 Q) (disconnect n b) (fun n' => progress n' l0 Q).
Proof.
  eapply triple_bind; [apply triple_ask|]. intros now.
  eapply triple_bind; [apply triple_set; by right|intros; by apply triple_ret].
Qed.

Lemma try_reconnect_spec n l0 Q :
  triple (progress n l0 Q) (try_reconnect n) (fun r => progress r.2 l0 Q).
Proof.
  unfold try_reconnect. destruct (stream n) as [s|] eqn:Es; [by apply triple_ret|].
  eapply triple_bind; [apply triple_ask|]. intros now. case_match; [by apply triple_ret|].
  eapply triple_bind; [apply triple_ask|]. intros [| | |].
  - intros w Hw. pose proof (triple_open n (Notifier (Some (next_stream w)) (producer_id n) (next_sequence n)
      None MIN_BACKOFF) l0 Q _ Es eq_refl w (conj Hw eq_refl)) as Ho. exact Ho.
  - eapply triple_bind; [apply failed_connect_spec|intros; by apply triple_ret].
  - eapply triple_bind; [apply failed_connect_spec|intros; by apply triple_ret].
  - by apply triple_ret.
Qed.

(** *** Writing *)

Definition fragment (frame b : list Z) : Prop := ∃ k, b = take k frame ∧ (k < length frame)%nat.

(** The stream is out of the notifier while a write is in flight. *)
Record taken (n : CommandNotifier) (s : nat) (l0 : list event) (Q : list event → Prop) (w : sink) : Prop := {
  tk_progress : progress n l0 Q w;
  tk_none : stream n = None;
  tk_open : framed true (writes s (log w));
  tk_known : (s < next_stream w)%nat }.

Lemma triple_take n s l0 Q :
  stream n = Some s →
  triple (progress n l0 Q) (set_notifier (take_stream n)) (fun _ => taken (take_stream n) s l0 Q).
Proof.
  intros Hs w Hw. pose proof (triple_set n (take_stream n) l0 Q (or_intror eq_refl) w Hw) as Hp.
  destruct Hw as [(H1 & _ & H3) Hn _]. assert (current w = Some s) as Hc by by unfold current; rewrite Hn.
  split; [done|done| |]; cbn; [|auto]. specialize (H1 s). by rewrite bool_decide_true in H1.
Qed.

Lemma triple_ask_taken {A} (f : nat → A) n s l0 Q : triple (taken n s l0 Q) (ask f) (fun _ => taken n s l0 Q).
Proof. intros w [Hp Hn Ho Hk]. split; [by apply (triple_ask f) in Hp|done..]. Qed.

Lemma triple_write n s b l0 Q Q' :
  (length b ≤ FRAME_SIZE)%nat → (∀ evs, Q evs → Q' (evs ++ [EWrite s b])) →
  triple (taken n s l0 Q) (emit (EWrite s b))
    (fun _ w => progress n l0 Q' w ∧ (length b = FRAME_SIZE → taken n s l0 Q' w)).
Proof.
  intros Hb HQ w [[(H1 & H2 & H3) Hn (evs & He & Hq)] Hnone Hopen Hk]. cbn [emit fst snd].
  assert (progress n l0 Q' (Sink (notifier w) (next_stream w) (asked w) (log w ++ [EWrite s b]))) as Hp.
  { split; [|done|exists (evs ++ [EWrite s b]); cbn; rewrite He, app_assoc; auto].
    unfold aligned, current in *. cbn [notifier log next_stream]. rewrite Hn in *. cbn in H1, H3 |- *.
    rewrite Hnone in *. split_and!; [..|done].
    - intros s'. rewrite writes_app. cbn [writes omap list_omap]. destruct (decide (s' = s)) as [->|Hne].
      + by apply (framed_push false).
      + rewrite app_nil_r. eapply framed_close, H1.
    - intros s' Hs'. rewrite writes_app, H2 by done. cbn [writes omap list_omap].
      rewrite decide_False; [done|lia]. }
  split; [done|]. intros Hlen. split; [done|done| |done]. cbn [log]. rewrite writes_app.
  cbn [writes omap list_omap]. rewrite decide_True by done. by apply (framed_push true).
Qed.

Lemma triple_give n s l0 Q :
  triple (taken n s l0 Q) (set_notifier (give_stream s n)) (fun _ => progress (give_stream s n) l0 Q).
Proof.
  intros w [[(H1 & H2 & H3) Hn He] Hnone Hopen Hk]. split; [|done|done]. unfold aligned, current. cbn.
  split_and!; [|done|by intros ? [= <-]]. intros s'. case_bool_decide as Hd; [by injection Hd as <-|].
  eapply framed_close, H1.
Qed.

(** The chunks of a notification: fragments of its frame, then the whole frame
    exactly when it ended well. *)
Definition chunks (frame : list Z) (r : notified) (evs : list event) : Prop :=
  ∃ ps, sent evs = ps ++ (match r with Done => [frame] | _ => [] end) ∧ Forall (fragment frame) ps.

Definition fragments (frame : list Z) (evs : list event) : Prop := Forall (fragment frame) (sent evs).

Lemma fragments_snoc frame s k evs :
  length frame = FRAME_SIZE → fragments frame evs →
  fragments frame (evs ++ [EWrite s (take (min k (length frame - 1)) frame)]).
Proof.
  intros Hl Hf. unfold fragments. rewrite sent_app. apply Forall_app. split; [done|]. constructor; [|done].
  exists (min k (length frame - 1)). split; [done|]. rewrite Hl. unfold FRAME_SIZE. lia.
Qed.

Lemma chunks_fragments frame r evs : r ≠ Done → fragments frame evs → chunks frame r evs.
Proof. intros Hr Hf. exists (sent evs). by destruct r; rewrite ?app_nil_r. Qed.

Lemma progress_mono n l0 (Q Q' : list event → Prop) w :
  (∀ evs, Q evs → Q' evs) → progress n l0 Q w → progress n l0 Q' w.
Proof. intros HQ [H1 H2 (evs & He & Hq)]. split; eauto. Qed.

Lemma attempts_spec k expires frame n l0 :
  length frame = FRAME_SIZE →
  triple (progress n l0 (fragments frame)) (attempts k expires frame n)
    (fun r => progress r.2 l0 (chunks frame r.1)).
Proof.
  intros Hl. assert (∀ r n w, r ≠ Done → progress n l0 (fragments frame) w → progress n l0 (chunks frame r) w)
    as Hend by (intros; eapply progress_mono; [|done]; auto using chunks_fragments).
  revert n. induction k as [|k IH]; intros n; cbn [attempts]; [by apply triple_ret; intros; apply Hend|].
  eapply triple_bind; [apply triple_ask|]. intros now. case_match; [by apply triple_ret; intros; apply Hend|].
  eapply triple_bind; [apply try_reconnect_spec|]. intros [r n1]. cbn [snd].
  destruct r; [|by apply triple_ret; intros; apply Hend..].
  destruct (stream n1) as [s|] eqn:Es; [|by apply triple_ret; intros; apply Hend].
  assert (∀ e m, triple (fun w => progress m l0 (fragments frame) w)
    (failed_write m k e (attempts k expires frame)) (fun r => progress r.2 l0 (chunks frame r.1))) as Hfail.
  { intros e m. destruct k as [|k']; cbn [failed_write].
    - eapply triple_bind; [apply disconnect_spec|]. intros m'. by apply triple_ret; intros; apply Hend.
    - eapply triple_bind; [apply disconnect_spec|]. intros m'. eapply triple_bind; [apply triple_ask|].
      intros []; [apply IH|by apply triple_ret; intros; apply Hend]. }
  eapply triple_bind; [by apply triple_take|]. intros u. eapply triple_bind; [apply triple_ask_taken|].
  assert (∀ j, (length (take (min j (length frame - 1)) frame) ≤ FRAME_SIZE)%nat) as Hj.
  { intros j. rewrite length_take, Hl. unfold FRAME_SIZE. lia. }
  intros [|j|j|j]; (eapply triple_bind; [|intros u']).
  - apply (triple_write _ _ _ _ _ (chunks frame Done)); [lia|]. intros evs Hf. exists (sent evs).
    by rewrite sent_app.
  - intros w [_ Ht]. specialize (Ht Hl). by apply (triple_give _ s) in Ht.
  - apply (triple_write _ _ _ _ _ (fragments frame)); [done|]. intros. by apply fragments_snoc.
  - intros w [Hp _]. by apply Hfail.
  - apply (triple_write _ _ _ _ _ (fragments frame)); [done|]. intros. by apply fragments_snoc.
  - intros w [Hp _]. by apply Hfail.
  - apply (triple_write _ _ _ _ _ (fragments frame)); [done|]. intros. by apply fragments_snoc.
  - intros w [Hp _]. by apply Hend.
Qed.

Lemma to_bytes_length f : length (f_padding f) = 7%nat → length (to_bytes f) = FRAME_SIZE.
Proof. intros Hp. unfold to_bytes. rewrite !length_app, Hp, !length_le_bytes. done. Qed.

Lemma frame_new_padding c p q f : frame_new c p q = Some f → f_padding f = replicate 7 0.
Proof. unfold frame_new. by destruct (cc_kind (d_target c)); intros [= <-]. Qed.

(** What a command puts on the socket: nothing, or the chunks of one frame. *)
Definition delivered (c : PhysicalDeviceCommand) (r : notified) (evs : list event) : Prop :=
  r ≠ Done ∧ sent evs = [] ∨
  ∃ p q f, frame_new c p q = Some f ∧ chunks (to_bytes f) r evs.

Definition silent (evs : list event) : Prop := sent evs = [].

Lemma notify_spec c n l0 (Q : list event → Prop) :
  (∀ evs, Q evs → sent evs = []) →
  triple (progress n l0 Q) (notify c n) (fun r => progress r.2 l0 (delivered c r.1)).
Proof.
  intros HQ. assert (∀ r n w, r ≠ Done → progress n l0 Q w → progress n l0 (delivered c r) w) as Hend.
  { intros r m w Hr. apply progress_mono. intros evs Hs%HQ. by left. }
  unfold notify. eapply triple_bind; [apply try_reconnect_spec|]. intros [r n1]. cbn [snd].
  destruct r; [|by apply triple_ret; intros; apply Hend..].
  eapply triple_bind; [apply triple_ask|]. intros now. case_match; [by apply triple_ret; intros; apply Hend|].
  eapply triple_bind; [apply triple_set; by left|]. intros u.
  destruct (frame_new c _ _) as [f|] eqn:Ef; [|by apply triple_ret; intros; apply Hend].
  intros w Hw. eapply triple_post; [apply attempts_spec| |].
  - apply to_bytes_length. by rewrite (frame_new_padding _ _ _ _ Ef).
  - intros [r m] w' Hw'. eapply progress_mono; [|exact Hw']. intros evs Hc. right. eauto.
  - eapply progress_mono; [|exact Hw]. intros evs Hs%HQ. unfold fragments. by rewrite Hs.
Qed.

(** *** Operations that write nothing to the socket *)

Definition quiet_event (e : event) : bool := match e with EWrite _ _ => false | _ => true end.
Definition keeps (Q : list event → Prop) : Prop := ∀ evs e, quiet_event e = true → Q evs → Q (evs ++ [e]).

Lemma triple_emit n l0 (Q : list event → Prop) e :
  quiet_event e = true → keeps Q →
  triple (progressing n l0 Q) (emit e) (fun _ => progressing n l0 Q).
Proof.
  intros He HQ w [(H1 & H2 & H3) Hn (evs & Hl & Hq)].
  assert (∀ s, writes s (log w ++ [e]) = writes s (log w)) as Hw.
  { intros s. rewrite writes_app. destruct e; [|done|..]; cbn; by rewrite app_nil_r. }
  split; [|done|exists (evs ++ [e]); cbn; rewrite Hl, app_assoc; auto].
  unfold aligned, current in *. cbn [emit fst snd notifier log next_stream].
  split_and!; [intros; by rewrite Hw|intros; rewrite Hw; auto|done].
Qed.

Lemma current_generation_spec n l0 Q :
  keeps Q → triple (progressing n l0 Q) current_generation (fun _ => progressing n l0 Q).
Proof.
  intros HQ. eapply triple_bind; [apply triple_ask|]. intros [g|]; [by apply triple_ret|].
  eapply triple_bind; [by apply triple_emit|intros; by apply triple_ret].
Qed.

Lemma invalidate_spec g n l0 Q :
  keeps Q → triple (progressing n l0 Q) (invalidate_stale_generation g) (fun _ => progressing n l0 Q).
Proof.
  intros HQ. eapply triple_bind; [apply triple_ask|]. intros c.
  eapply triple_bind; [|intros; by apply triple_emit]. case_match; [by apply triple_emit|by apply triple_ret].
Qed.

Lemma validate_authority_spec g n l0 Q :
  keeps Q → triple (progressing n l0 Q) (validate_authority g) (fun _ => progressing n l0 Q).
Proof.
  intros HQ. assert (∀ e : Outbox.PortErrorKind, triple (progressing n l0 Q)
    (_ ← invalidate_stale_generation g; mret (Err e)) (fun _ : res Outbox.PortErrorKind unit => progressing n l0 Q))
    as Hinv by (intros; eapply triple_bind; [by apply invalidate_spec|intros; by apply triple_ret]).
  eapply triple_bind; [apply triple_ask|]. intros c. case_match; [apply Hinv|].
  eapply triple_bind; [apply triple_ask|]. intros [|e|]; [|apply Hinv|by apply triple_ret].
  eapply triple_bind; [apply triple_ask|]. intros actual. case_match; [by apply triple_ret|apply Hinv].
Qed.

Lemma acquire_authority_spec k t e n l0 Q :
  triple (progressing n l0 Q) (acquire_authority k t e) (fun _ => progressing n l0 Q).
Proof.
  revert t. induction k as [|k IH]; intros t; cbn [acquire_authority];
    (eapply triple_bind; [apply triple_ask|]; intros [[]|x|]; try by apply triple_ret);
    (eapply triple_bind; [apply triple_ask|]; intros now; case_match; [by apply triple_ret|]);
    (eapply triple_bind; [apply triple_ask|]; intros d; case_match; try by apply triple_ret). apply IH.
Qed.

(** *** A whole send *)

(** The command's value was mirrored into the slot of its target. *)
Definition mirrored (c : PhysicalDeviceCommand) (evs : list event) : Prop :=
  ∃ g slot, Manifest.slot_for (cg_manifest g) (Manifest.from_command_address (d_target c)) = Some slot ∧
            EMirror slot (d_value c) (d_value c) (d_issued_at c) GOOD ∈ evs.

Definition send_post (c : PhysicalDeviceCommand) (l0 : list event)
    (r : res Outbox.PortErrorKind Executor.CommandReceipt) (w : sink) : Prop :=
  aligned w ∧
  ∃ before after d, log w = l0 ++ before ++ after ∧ sent before = [] ∧
    (sent after ≠ [] → mirrored c before) ∧ delivered c d after ∧
    ∀ receipt, r = Ok receipt → d = Done ∧ Executor.command_id receipt = d_id c.

Lemma keeps_silent : keeps silent.
Proof. intros evs e He Hs. unfold silent in *. rewrite sent_app, Hs. by destruct e. Qed.

Lemma keeps_mirrored c : keeps (fun evs => silent evs ∧ mirrored c evs).
Proof.
  intros evs e He [Hs (g & slot & Hg & Hin)]. split; [by apply keeps_silent|].
  exists g, slot. split; [done|]. apply elem_of_app. by left.
Qed.

Lemma keeps_delivered c d : keeps (delivered c d).
Proof.
  intros evs e He. unfold delivered, chunks. rewrite sent_app. destruct e; [|done|..]; cbn; by rewrite app_nil_r.
Qed.

Lemma send_early c n l0 (Q : list event → Prop) r w :
  (∀ evs, Q evs → silent evs) → is_ok r = false → progressing n l0 Q w → send_post c l0 r w.
Proof.
  intros HQ Hr [Ha _ (evs & He & Hs%HQ)]. split; [done|]. exists evs, [], Cancelled.
  rewrite app_nil_r. split_and!; [done|done|done|by left|by intros ? ->].
Qed.

Lemma transport_spec c n l0 :
  triple (progress n l0 (fun evs => evs = [])) (transport c n)
    (fun r w => ∃ d n', progressing n' l0 (delivered c d) w ∧ (is_ok r = true → d = Done)).
Proof.
  unfold transport. eapply triple_bind; [apply notify_spec; by intros ? ->|]. intros [r n']. cbn [fst snd].
  destruct r as [|[]|]; try by (apply triple_ret; intros w Hw; eexists _, _; split; [exact Hw|]).
  eapply triple_bind; [apply disconnect_spec|]. intros n2. apply triple_ret. intros w Hw.
  by eexists _, _; split; [exact Hw|].
Qed.

Lemma accept_frame_spec g c n l0 :
  triple (progress n l0 (fun evs => evs = [])) (accept_frame g c n)
    (fun r w => ∃ d n', progressing n' l0 (delivered c d) w ∧
       ∀ receipt, r = Ok receipt → d = Done ∧ Executor.command_id receipt = d_id c).
Proof.
  eapply triple_try; [apply transport_spec|..].
  - intros u w (d & n' & Hp & Hd). specialize (Hd eq_refl). subst d.
    eapply triple_at; [exact Hp|]. eapply triple_try; [apply validate_authority_spec, keeps_delivered|..].
    + intros u'. eapply triple_bind; [apply triple_ask|]. intros now. apply triple_ret. intros w' Hw.
      eexists _, _. split; [exact Hw|]. by intros ? [= <-].
    + intros e w' Hw. eexists _, _. by split; [exact Hw|].
    + intros w' Hw. eexists _, _. by split; [exact Hw|].
  - intros e w (d & n' & Hp & _). eexists _, _. by split; [exact Hp|].
  - intros w (d & n' & Hp & _). eexists _, _. by split; [exact Hp|].
Qed.

Lemma deliver_spec g c n l0 :
  triple (progress n l0 (fun evs => silent evs ∧ mirrored c evs)) (deliver g c n) (send_post c l0).
Proof.
  set (Q := fun evs => silent evs ∧ mirrored c evs).
  assert (∀ (r : res Outbox.PortErrorKind Executor.CommandReceipt) n w,
    is_ok r = false → progressing n l0 Q w → send_post c l0 r w)
    as Hend by (intros ???; apply send_early; by intros ? []).
  eapply triple_bind; [apply triple_ask|]. intros []; cbn [negb]; [|by apply triple_ret; intros; eapply Hend].
  eapply triple_bind; [apply triple_ask|]. intros now.
  destruct (rejected _); [|by apply triple_ret; intros; eapply Hend..].
  eapply triple_try; [apply validate_authority_spec, keeps_mirrored|intros u|intros ?? Hp; exact (Hend (Err _) _ _ eq_refl Hp)
    |intros ? Hp; exact (Hend Panic _ _ eq_refl Hp)].
  intros w [Ha Hn (before & He & Hs & Hm)].
  assert (progress n (log w) (fun evs => evs = []) w) as Hw.
  { split; [done|done|]. exists []. by rewrite app_nil_r. }
  destruct (accept_frame_spec g c n (log w) w Hw) as (d & n' & [Ha' _ (after & He' & Hd)] & Hr).
  split; [done|]. exists before, after, d. rewrite He', He, app_assoc. done.
Qed.

Lemma mirror_spec g c n l0 :
  triple (progressing n l0 silent) (mirror g c)
    (fun r => progressing n l0 (fun evs => silent evs ∧ (is_ok r = true → mirrored c evs))).
Proof.
  assert (∀ r : res Outbox.PortErrorKind unit, is_ok r = false → triple (progressing n l0 silent) (mret r)
    (fun r => progressing n l0 (fun evs => silent evs ∧ (is_ok r = true → mirrored c evs)))) as Hno.
  { intros r Hr. apply triple_ret. intros w [Ha Hn (evs & He & Hs)]. split; [done|done|]. exists evs.
    rewrite Hr. done. }
  unfold mirror. destruct (Manifest.slot_for _ _) as [slot|] eqn:Hslot; [|by apply Hno].
  case_match; [|by apply Hno]. intros w Hw.
  apply (triple_emit n l0 silent (EMirror slot (d_value c) (d_value c) (d_issued_at c) GOOD)) in Hw as Hw';
    [|done|apply keeps_silent]. destruct Hw as [_ _ (evs & He & Hs)]. destruct Hw' as [Ha Hn _].
  split; [done|done|]. exists (evs ++ [EMirror slot (d_value c) (d_value c) (d_issued_at c) GOOD]).
  split; [rewrite app_assoc, <- He; done|]. split; [by apply keeps_silent|]. intros _. exists g, slot. split; [done|]. apply elem_of_app. right. by left.
Qed.

(** C9. For every behaviour of clocks, generations, file system and socket, a send puts
    at most one whole frame on the socket and it is the frame of that command;
    everything else it writes are fragments on streams it abandons, so each
    stream carries whole frames and at most one final fragment; nothing is
    written before the value is mirrored into the target's slot, and a receipt
    is returned only after the whole frame was written. *)
Theorem send_one_frame (c : PhysicalDeviceCommand) (w : sink) :
  aligned w → send_post c (log w) (send c w).1 (send c w).2.
Proof.
  intros Ha. assert (progressing (notifier w) (log w) silent w) as Hw.
  { split; [done|done|]. exists []. by rewrite app_nil_r. }
  revert Hw. generalize (notifier w) as n, (log w) as l0. intros n l0. revert w Ha.
  enough (triple (progressing n l0 silent) (send c) (send_post c l0)) as Ht by (intros w _; apply Ht).
  assert (∀ (r : res Outbox.PortErrorKind Executor.CommandReceipt) n w, is_ok r = false →
    progressing n l0 silent w → send_post c l0 r w) as Hend by (intros ???; by apply send_early).
  assert (∀ (r : res Outbox.PortErrorKind Executor.CommandReceipt) n w, is_ok r = false →
    progressing n l0 (fun evs => silent evs ∧ mirrored c evs) w → send_post c l0 r w) as Hend'
    by (intros ???; apply send_early; by intros ? []).
  eapply triple_bind; [apply triple_ask|]. intros now.
  destruct (rejected _); [|by apply triple_ret; intros; eapply Hend..].
  eapply triple_try; [apply current_generation_spec, keeps_silent|intros g|intros ?? Hp; exact (Hend (Err _) _ _ eq_refl Hp)
    |intros ? Hp; exact (Hend Panic _ _ eq_refl Hp)].
  eapply triple_try; [apply acquire_authority_spec|intros u0|intros ?? Hp; exact (Hend (Err _) _ _ eq_refl Hp)
    |intros ? Hp; exact (Hend Panic _ _ eq_refl Hp)].
  eapply triple_try; [apply validate_authority_spec, keeps_silent|intros u1|intros ?? Hp; exact (Hend (Err _) _ _ eq_refl Hp)
    |intros ? Hp; exact (Hend Panic _ _ eq_refl Hp)].
  eapply triple_try; [apply mirror_spec|intros u2|..];
    [|intros ? w [? ? (evs & ? & ? & _)]; eapply Hend; [done|split; eauto]
     |intros w [? ? (evs & ? & ? & _)]; eapply Hend; [done|split; eauto]].
  intros w Hw. assert (progressing n l0 (fun evs => silent evs ∧ mirrored c evs) w) as Hw'.
  { destruct Hw as [? ? (evs & ? & ? & Hm)]. split; eauto. }
  eapply triple_at; [exact Hw'|].
  eapply triple_try; [apply validate_authority_spec, keeps_mirrored|intros u3|intros ?? Hp; exact (Hend' (Err _) _ _ eq_refl Hp)
    |intros ? Hp; exact (Hend' Panic _ _ eq_refl Hp)].
  clear w Hw Hw'. intros w Hw. unfold mbind, st_bind, gets. rewrite (pr_notifier _ _ _ _ Hw).
  destruct n as [n|]; [by apply (deliver_spec g c n l0)|by eapply Hend'].
Qed.

(** A published generation over a compiled manifest never makes the mirror leave
    the mapping. *)
Lemma mirror_in_bounds path slots h m id g c w :
  Manifest.manifest_ok m → publish_generation path slots h m id = Ok g → (mirror g c w).1 ≠ Panic.
Proof.
  intros Hm. unfold publish_generation. destruct path; try done. repeat case_match; try done. intros [= <-].
  unfold mirror. cbn [cg_manifest cg_slot_count]. destruct (Manifest.slot_for m _) as [slot|] eqn:Hs; [|done].
  apply Manifest.slot_for_bound in Hs; [|done]. case_match eqn:Hlt; [done|]. apply Nat.ltb_ge in Hlt.
  match goal with H : negb _ || _ || _ = false |- _ =>
    apply orb_false_elim in H as [[H%negb_false_iff%Nat.eqb_eq _]%orb_false_elim _]; lia end.
Qed.
End Sink.

Lemma frame_from_to (c : PhysicalDeviceCommand) (producer sequence : Z) (f : DeviceCommandFrame) :
  in_u 32 (cc_channel_id (d_target c)) → in_u 32 (cc_point_id (d_target c)) →
  in_u 64 (d_issued_at c) → in_u 64 (d_expires_at c) → in_u 64 producer → in_u 64 sequence →
  canonical (d_value c) = true → frame_new c producer sequence = Some f →
  from_bytes (to_bytes f) = f.
Proof.
  intros Hc Hp Hi He Hpr Hs Hv Hf. pose proof (to_bits_in_u _ Hv) as Hu. unfold frame_new in Hf.
  destruct (cc_kind (d_target c)); try done; injection Hf as <-; unfold from_bytes; f_equal;
    match goal with
    | |- load_le ?o ?n _ = ?x => transitivity (le_val (le_bytes n x)); [reflexivity|by apply le_val_le_bytes_small]
    | |- _ => reflexivity
    end.
Qed.

(** The IO side reads back exactly the command the sink wrote: the 56 bytes of a
    command's frame decode to its target, kind, value, times and identity, bit
    for bit. *)
Theorem frame_roundtrip (c : PhysicalDeviceCommand) (producer sequence : Z) (f : DeviceCommandFrame) :
  in_u 32 (cc_channel_id (d_target c)) → in_u 32 (cc_point_id (d_target c)) →
  in_u 64 (d_issued_at c) → in_u 64 (d_expires_at c) → in_u 64 producer → in_u 64 sequence →
  canonical (d_value c) = true → frame_new c producer sequence = Some f →
  length (to_bytes f) = FRAME_SIZE ∧
  let f' := from_bytes (to_bytes f) in
  f' = f ∧ frame_value f' = d_value c ∧ frame_point_kind f' = Some (cc_kind (d_target c)) ∧
  f_channel_id f' = cc_channel_id (d_target c) ∧ f_point_id f' = cc_point_id (d_target c) ∧
  f_timestamp_ms f' = d_issued_at c ∧ f_expires_at_ms f' = d_expires_at c ∧
  f_producer_id f' = producer ∧ f_sequence f' = sequence.
Proof.
  intros Hc Hp Hi He Hpr Hs Hv Hf. split; [apply to_bytes_length; by rewrite (frame_new_padding _ _ _ _ Hf)|].
  rewrite (frame_from_to c producer sequence) by done. unfold frame_value.
  assert (f_value_bits f = to_bits (d_value c)) as -> by (unfold frame_new in Hf; by destruct (cc_kind (d_target c)); try done; injection Hf as <-).
  rewrite from_to_bits by done. unfold frame_new in Hf.
  by destruct (cc_kind (d_target c)); try done; injection Hf as <-.
Qed.

(** ** A run: the first write fails after ten bytes, the second succeeds *)

Module Sample.

Definition command : PhysicalDeviceCommand := Physical 5 (ChannelCommand 7 Action 1) one 1000 6000.
Definition generation : CommandGeneration := Generation 0 Manifest.sample_manifest 6 2.
Definition flaky : outside := {|
  system_time_ms := fun _ => 1500; instant := fun _ => 0; cell := fun _ => Some generation;
  lease := fun _ => Ok true; canonical_path := fun _ => Ok tt; header_generation := fun _ => 2;
  late := fun _ => 0; locked := fun _ => true; connect := fun _ => Connected;
  written := fun t => if (t <? 20)%nat then WriteFailed 10 else Written; slept := fun _ => true |}.
Definition start : sink := Sink (Some (Notifier None 77 1 None MIN_BACKOFF)) 0 0 [].
Definition frame : DeviceCommandFrame := Frame 7 1 3 (replicate 7 0) (to_bits one) 1000 6000 77 1.

Lemma start_aligned : aligned start.
Proof.
  split_and!; [|done|done]. intros s. exists [], []. split_and!; [done|done|by left].
Qed.

Example flaky_run :
  (send flaky command start).1 = Ok (Executor.Receipt 5 1500) ∧
  log (send flaky command start).2 =
    [EMirror 4 one one 1000 0; EWrite 0 (take 10 (to_bytes frame)); EWrite 1 (to_bytes frame)].
Proof. by vm_compute. Qed.

Lemma send_one_frame_witness :
  aligned start ∧ send_post command [] (send flaky command start).1 (send flaky command start).2.
Proof. split; [apply start_aligned|]. apply (send_one_frame flaky command start). apply start_aligned. Defined.

Lemma frame_roundtrip_witness :
  frame_new command 77 1 = Some frame ∧ frame_value (from_bytes (to_bytes frame)) = one.
Proof. split; [done|]. by apply (frame_roundtrip command 77 1 frame). Defined.

End Sample.
End CommandSink.
