(* ===== verification/Topology.v ===== *)
(** * Automation topology generations (services/automation/src/infra/runtime_topology.rs)

    The immutable view that routing, limits and live state are read from, and its
    replacement: refreshes from SQLite, revocation of a routing plane around a
    mutation, and restoration.  Operations that replace the generation hold the
    refresh gate, so they are sequential.  A generation is an [Arc]: it has an
    identity.  What the shared-memory planes and the command sink answer to a
    refresh is an argument of it. *)

From stdpp Require Import base tactics numbers list gmap.
From S2P Require Import Prelude State Float Domain Outbox Manifest Executor.
#[local] Open Scope Z_scope.

Module Topology.
Import Float Domain.

Record RoutedCommandTarget := Routed { rt_target : ChannelCommandAddress; rt_constraints : CommandConstraints }.

Definition LogicalPointRoutes : Type := gmap (Z * Z) Manifest.PhysicalPointAddress.
Definition LogicalCommandRoutes : Type := gmap (Z * Z) RoutedCommandTarget.

(** The layouts of the two physical planes. *)
Record Layout := MkLayout {
  point_manifest : Manifest.ChannelPointManifest; health_hash : Z; health_slots : nat }.

Record CandidateParts := Parts {
  p_layout : Layout;
  p_measurement_routes : LogicalPointRoutes;
  p_action_routes : LogicalCommandRoutes;
  p_digest : Z }.

Record AutomationTopologyGeneration := Generation {
  g_id : nat;
  g_layout : Layout;
  measurement_routes : LogicalPointRoutes;
  action_routes : LogicalCommandRoutes;
  digest : Z;
  sequence : Z;
  physical_validated : bool;
  measurement_routes_revoked : bool;
  action_routes_revoked : bool }.

Definition compose (id : nat) (layout : Layout) (parts : CandidateParts) (validated : bool) (seq : Z)
    : AutomationTopologyGeneration :=
  Generation id layout (p_measurement_routes parts) (p_action_routes parts) (p_digest parts) seq
    validated false false.

Definition measurement_route (g : AutomationTopologyGeneration) (instance point : Z)
    : option Manifest.PhysicalPointAddress := measurement_routes g !! (instance, point).
Definition command_route (g : AutomationTopologyGeneration) (instance point : Z)
    : option RoutedCommandTarget := action_routes g !! (instance, point).
Definition action_route (g : AutomationTopologyGeneration) (instance point : Z)
    : option Manifest.PhysicalPointAddress :=
  (fun r => Manifest.from_command_address (rt_target r)) <$> command_route g instance point.

Definition has_physical_layout (g : AutomationTopologyGeneration) (parts : CandidateParts) : bool :=
  let a := g_layout g in
  let b := p_layout parts in
  (Manifest.layout_hash (point_manifest a) =? Manifest.layout_hash (point_manifest b)) &&
  (Manifest.slot_count (point_manifest a) =? Manifest.slot_count (point_manifest b))%nat &&
  (health_hash a =? health_hash b) && (health_slots a =? health_slots b)%nat.

(** [read_slot] is the point source of this generation. *)
Definition read_instance_point (g : AutomationTopologyGeneration)
    (read_slot : nat → res Outbox.PortErrorKind (option (f64 * Z))) (instance : Z) (action : bool) (point : Z)
    : res Outbox.PortErrorKind (option (f64 * Z)) :=
  match (if action then action_route g instance point else measurement_route g instance point) with
  | None => Ok None
  | Some target =>
      match Manifest.slot_for (point_manifest (g_layout g)) target with
      | None => Err Outbox.Conflict
      | Some slot =>
          match read_slot slot with
          | Ok None => Ok None
          | Ok (Some (value, timestamp)) =>
              if is_nan value then Ok None
              else if negb (is_finite value) then Err Outbox.InvalidData
              else Ok (Some (value, timestamp))
          | Err e => Err e
          | Panic => Panic
          end
      end
  end.

(** ** The handle *)

(** [publications] counts the sequences taken, without the wrap-around. *)
Record handle := Handle {
  current : AutomationTopologyGeneration;
  change_sequence : Z;
  publications : Z;
  next_id : nat;
  published : list AutomationTopologyGeneration }.

Definition fetch_sequence : st handle Z := fun h =>
  let n := wrapping_add 64 (change_sequence h) 1 in
  (n, Handle (current h) n (publications h + 1) (next_id h) (published h)).

Definition fresh_id : st handle nat := fun h =>
  (next_id h, Handle (current h) (change_sequence h) (publications h) (S (next_id h)) (published h)).

Definition store (g : AutomationTopologyGeneration) : st handle unit := fun h =>
  (tt, Handle g (change_sequence h) (publications h) (next_id h) (published h ++ [g])).

Definition new_lazy (parts : CandidateParts) : handle :=
  let g := compose 0 (p_layout parts) parts false 0 in Handle g 0 0 1 [g].

Inductive RefreshMode := ValidatePhysical | PublishConfiguration.
Inductive RoutingPlane := Measurement | Action.

(** What the physical planes and the sink answer during a refresh. *)
Record physical := Physical {
  layouts_ok : bool;
  writer_available : bool;
  opened : res Outbox.PortErrorKind unit;
  authority : res Outbox.PortErrorKind (res Outbox.PortErrorKind unit) }.

Definition physical_publication_conflict (k : Outbox.PortErrorKind) : Outbox.PortErrorKind :=
  match k with Outbox.InvalidData => Outbox.Conflict | k => k end.

Definition publish (layout : Layout) (parts : CandidateParts) (validated : bool)
    : st handle (res Outbox.PortErrorKind bool) :=
  seq ← fetch_sequence;
  id ← fresh_id;
  _ ← store (compose id layout parts validated seq);
  mret (Ok true).

(** The slow path: reopen both planes, then publish under validated authority. *)
Definition reopen (parts : CandidateParts) (changed : bool) (p : physical)
    : st handle (res Outbox.PortErrorKind bool) :=
  match opened p with
  | Err k => mret (Err (physical_publication_conflict k))
  | Panic => mret (Err Outbox.Permanent)
  | Ok _ =>
      cur ← gets current;
      seq ← (if changed then fetch_sequence else mret (sequence cur));
      id ← fresh_id;
      match authority p with
      | Err k => mret (Err (physical_publication_conflict k))
      | Panic => mret Panic
      | Ok (Err k) => mret (Err k)
      | Ok Panic => mret Panic
      | Ok (Ok _) => _ ← store (compose id (p_layout parts) parts true seq); mret (Ok changed)
      end
  end.

Definition refresh_locked (mode : RefreshMode) (snapshot : res Outbox.PortErrorKind CandidateParts)
    (p : physical) : st handle (res Outbox.PortErrorKind bool) :=
  match snapshot with
  | Err k => mret (Err k)
  | Panic => mret Panic
  | Ok parts =>
      cur ← gets current;
      let physical_changed := negb (has_physical_layout cur parts) in
      let logical_changed :=
        negb (digest cur =? p_digest parts) || measurement_routes_revoked cur || action_routes_revoked cur in
      let physical_current := physical_validated cur && layouts_ok p in
      if negb physical_changed && negb logical_changed
         && match mode with PublishConfiguration => true | ValidatePhysical => false end
      then mret (Ok false)
      else if negb physical_changed && physical_current && writer_available p then
        if negb logical_changed then mret (Ok false) else publish (g_layout cur) parts true
      else if negb physical_changed && logical_changed && negb (physical_validated cur) then
        publish (g_layout cur) parts false
      else reopen parts (logical_changed || physical_changed || negb (physical_validated cur)) p
  end.

(** Clears one routing plane of the current generation. *)
Definition revoke_routes_locked (plane : RoutingPlane) : st handle AutomationTopologyGeneration :=
  cur ← gets current;
  if match plane with Measurement => measurement_routes_revoked cur | Action => action_routes_revoked cur end
  then mret cur
  else
    seq ← fetch_sequence;
    id ← fresh_id;
    let revoked :=
      match plane with
      | Measurement => Generation id (g_layout cur) ∅ (action_routes cur) (digest cur) seq
                         (physical_validated cur) true (action_routes_revoked cur)
      | Action => Generation id (g_layout cur) (measurement_routes cur) ∅ (digest cur) seq
                    (physical_validated cur) (measurement_routes_revoked cur) true
      end in
    _ ← store revoked;
    mret revoked.

Definition refresh (snapshot : res Outbox.PortErrorKind CandidateParts) (p : physical)
    : st handle (res Outbox.PortErrorKind bool) :=
  r ← refresh_locked ValidatePhysical snapshot p;
  match r with
  | Err Outbox.InvalidData => _ ← revoke_routes_locked Action; mret (Err Outbox.InvalidData)
  | r => mret r
  end.

Definition refresh_or_revoke_commands (snapshot : res Outbox.PortErrorKind CandidateParts) (p : physical)
    : st handle (res Outbox.PortErrorKind bool) :=
  r ← refresh_locked PublishConfiguration snapshot p;
  match r with
  | Err k => _ ← revoke_routes_locked Action; mret (Err k)
  | r => mret r
  end.

Record RoutingMutationLease := Lease {
  plane : RoutingPlane;
  restore_generation : option AutomationTopologyGeneration;
  revoked_generation : AutomationTopologyGeneration }.

Definition begin_routing_mutation (pl : RoutingPlane) : st handle RoutingMutationLease :=
  previous ← gets current;
  revoked ← revoke_routes_locked pl;
  mret (Lease pl (if (g_id previous =? g_id revoked)%nat then None else Some previous) revoked).

Definition restore_revoked_generation (previous revoked : AutomationTopologyGeneration) : st handle unit :=
  cur ← gets current;
  if negb (g_id cur =? g_id revoked)%nat then mret tt else store previous.

Definition commit_started (l : RoutingMutationLease) : RoutingMutationLease :=
  Lease (plane l) None (revoked_generation l).

(** [restore_before_commit], and what dropping the lease schedules. *)
Definition lease_restore (l : RoutingMutationLease) : st handle unit :=
  match restore_generation l with
  | None => mret tt
  | Some previous => restore_revoked_generation previous (revoked_generation l)
  end.

Definition lease_publish (l : RoutingMutationLease) (snapshot : res Outbox.PortErrorKind CandidateParts)
    (p : physical) : st handle (res Outbox.PortErrorKind bool) :=
  refresh_locked PublishConfiguration snapshot p.

(** ** Interleaving

    The refresh gate admits one replacement at a time, and a lease keeps it. *)

Record state := State { topology : handle; lease : option RoutingMutationLease }.

Section Reachable.
(** The SQLite snapshots that occur; their digest identifies their routes. *)
Variable admitted : CandidateParts → Prop.
Hypothesis digest_identifies : ∀ p q, admitted p → admitted q → p_digest p = p_digest q →
  p_measurement_routes p = p_measurement_routes q ∧ p_action_routes p = p_action_routes q.

Definition loads (snapshot : res Outbox.PortErrorKind CandidateParts) : Prop :=
  ∀ parts, snapshot = Ok parts → admitted parts.

Inductive step : state → state → Prop :=
| step_refresh h snapshot p : loads snapshot →
    step (State h None) (State (refresh snapshot p h).2 None)
| step_refresh_or_revoke h snapshot p : loads snapshot →
    step (State h None) (State (refresh_or_revoke_commands snapshot p h).2 None)
| step_begin h pl :
    step (State h None) (State (begin_routing_mutation pl h).2 (Some (begin_routing_mutation pl h).1))
| step_commit h l : step (State h (Some l)) (State h (Some (commit_started l)))
| step_restore h l : step (State h (Some l)) (State (lease_restore l h).2 None)
| step_publish h l snapshot p : loads snapshot →
    step (State h (Some l)) (State (lease_publish l snapshot p h).2 None).

Inductive reachable : state → Prop :=
| reach_init parts : admitted parts → reachable (State (new_lazy parts) None)
| reach_step s s' : reachable s → step s s' → reachable s'.

Definition same_routes (g g' : AutomationTopologyGeneration) : Prop :=
  measurement_routes g = measurement_routes g' ∧ action_routes g = action_routes g'.

(** Routes are those of an admitted snapshot with the generation's digest, or revoked. *)
Definition sourced (g : AutomationTopologyGeneration) : Prop :=
  ∃ parts, admitted parts ∧ p_digest parts = digest g ∧
    measurement_routes g = (if measurement_routes_revoked g then ∅ else p_measurement_routes parts) ∧
    action_routes g = (if action_routes_revoked g then ∅ else p_action_routes parts).

Record good (h : handle) : Prop := {
  good_current : current h ∈ published h;
  good_sources : Forall sourced (published h);
  good_ids : Forall (fun g => (g_id g < next_id h)%nat) (published h);
  good_counter : 0 ≤ publications h ∧ (publications h < 2 ^ 64 → change_sequence h = publications h);
  good_bound : publications h < 2 ^ 64 → Forall (fun g => 0 ≤ sequence g ≤ publications h) (published h);
  good_routes : publications h < 2 ^ 64 →
    ∀ g g', g ∈ published h → g' ∈ published h → sequence g = sequence g' → same_routes g g' }.

Lemma current_sourced h : good h → sourced (current h).
Proof. intros [Hc Hs _ _ _ _]. rewrite Forall_forall in Hs. auto. Qed.

(** Taking a sequence and an identity without publishing. *)
Lemma good_skip h n : good h → (next_id h ≤ n)%nat →
  good (Handle (current h) (wrapping_add 64 (change_sequence h) 1) (publications h + 1) n (published h)).
Proof.
  intros [Hc Hs Hi [Hp He] Hb Hr] Hn. split; cbn.
  - done.
  - done.
  - eapply Forall_impl; [exact Hi|]. cbn. intros. lia.
  - split; [lia|]. intros Hlt. rewrite He by lia. unfold wrapping_add. apply wrap_small. unfold in_u. lia.
  - intros Hlt. eapply Forall_impl; [apply Hb; lia|]. cbn. intros. lia.
  - intros Hlt. apply Hr. lia.
Qed.

Lemma good_id h n : good h → (next_id h ≤ n)%nat →
  good (Handle (current h) (change_sequence h) (publications h) n (published h)).
Proof.
  intros [Hc Hs Hi Hp Hb Hr] Hn. split; cbn; try done. eapply Forall_impl; [exact Hi|]. cbn. intros. lia.
Qed.

(** Storing a generation: under a new sequence, or with the routes of a published
    generation of the same sequence. *)
Lemma good_store h g : good h → sourced g → (g_id g < next_id h)%nat →
  (publications h < 2 ^ 64 → (0 ≤ sequence g ≤ publications h) ∧
     ∀ g', g' ∈ published h → sequence g = sequence g' → same_routes g g') →
  good (store g h).2.
Proof.
  intros [Hc Hs Hi Hp Hb Hr] Hg Hid Hseq. split; cbn.
  - apply elem_of_app. right. by left.
  - apply Forall_app. by rewrite Forall_singleton.
  - apply Forall_app. by rewrite Forall_singleton.
  - done.
  - intros Hlt. apply Forall_app. rewrite Forall_singleton. split; [auto|apply Hseq, Hlt].
  - intros Hlt. destruct (Hseq Hlt) as [_ Hsame].
    assert (∀ a b, same_routes a b → same_routes b a) as Hsym by (by intros ?? [? ?]; split).
    intros a b [Ha|Ha%list_elem_of_singleton]%elem_of_app [Hb'|Hb'%list_elem_of_singleton]%elem_of_app Heq;
      subst; auto. by split.
Qed.

(** Publishing under the sequence just taken. *)
Lemma good_publish h g n : good h → sourced g → sequence g = wrapping_add 64 (change_sequence h) 1 →
  (g_id g < n)%nat → (next_id h ≤ n)%nat →
  good (Handle g (wrapping_add 64 (change_sequence h) 1) (publications h + 1) n (published h ++ [g])).
Proof.
  intros Hh Hg Hs Hid Hn. pose proof (good_skip h n Hh Hn) as Hh'.
  apply (good_store _ g) in Hh'; [exact Hh'|done|done|]. cbn. intros Hlt. rewrite Hs.
  destruct Hh as [_ _ _ [Hp He] Hb _]. rewrite (He ltac:(lia)).
  assert (wrapping_add 64 (publications h) 1 = publications h + 1) as ->.
  { unfold wrapping_add. apply wrap_small. unfold in_u. lia. }
  split; [lia|]. intros g' Hg' Heq. specialize (Hb ltac:(lia)). rewrite Forall_forall in Hb.
  specialize (Hb g' Hg'). lia.
Qed.

(** ** Every operation keeps the handle good *)

Lemma compose_sourced id layout parts b seq : admitted parts → sourced (compose id layout parts b seq).
Proof. intros Hp. by exists parts. Qed.

Lemma publish_good layout parts b h : good h → admitted parts → good (publish layout parts b h).2.
Proof. intros Hh Hp. apply (good_publish h (compose _ _ _ _ _)); [done|by apply compose_sourced|done|cbn; lia..]. Qed.

Lemma reopen_good parts changed p h :
  good h → admitted parts →
  (changed = false → digest (current h) = p_digest parts ∧ measurement_routes_revoked (current h) = false ∧
                     action_routes_revoked (current h) = false) →
  good (reopen parts changed p h).2.
Proof.
  intros Hh Hp Hch. unfold reopen, mbind, st_bind, gets. destruct (opened p); [|done..]. destruct changed.
  - cbn [fetch_sequence fresh_id]. pose proof (good_skip h (S (next_id h)) Hh (Nat.le_succ_diag_r _)) as Hskip.
    destruct (authority p) as [[| |]| |]; try exact Hskip.
    apply (good_publish h (compose _ _ _ _ _)); [done|by apply compose_sourced|done|cbn; lia..].
  - destruct (Hch eq_refl) as (Hd & Hm & Ha). cbn [mret st_ret fresh_id].
    pose proof (good_id h (S (next_id h)) Hh (Nat.le_succ_diag_r _)) as Hskip.
    destruct (authority p) as [[| |]| |]; try exact Hskip.
    apply (good_store _ (compose (next_id h) (p_layout parts) parts true (sequence (current h)))) in Hskip;
      [exact Hskip|by apply compose_sourced|cbn; lia|]. cbn. intros Hlt. split.
    + destruct Hh as [Hc _ _ _ Hb _]. specialize (Hb Hlt). rewrite Forall_forall in Hb. by apply Hb.
    + intros g' Hg' Heq. destruct (current_sourced h Hh) as (q & Hq & Hqd & Hqm & Hqa).
      rewrite Hm in Hqm. rewrite Ha in Hqa.
      destruct (digest_identifies parts q Hp Hq ltac:(congruence)) as [Em Ea].
      destruct (good_routes h Hh Hlt (current h) g' (good_current h Hh) Hg' Heq) as [Rm Ra].
      split; cbn; congruence.
Qed.

Lemma refresh_locked_good mode snapshot p h : good h → loads snapshot → good (refresh_locked mode snapshot p h).2.
Proof.
  intros Hh Hl. unfold refresh_locked. destruct snapshot as [parts|k|]; [|done..].
  specialize (Hl parts eq_refl). unfold mbind at 1, st_bind at 1, gets.
  repeat match goal with |- good ((if ?b then _ else _) h).2 => destruct b end;
    [done|done|by apply publish_good|by apply publish_good|]. apply reopen_good; [done|done|].
  rewrite !orb_false_iff, negb_false_iff, Z.eqb_eq. naive_solver.
Qed.

Lemma revoke_good pl h : good h → good (revoke_routes_locked pl h).2.
Proof.
  intros Hh. unfold revoke_routes_locked, mbind, st_bind, gets.
  destruct (current_sourced h Hh) as (q & Hq & Hqd & Hqm & Hqa).
  destruct pl; [destruct (measurement_routes_revoked (current h)) eqn:Hr
               |destruct (action_routes_revoked (current h)) eqn:Hr]; try done;
    (refine (good_publish h (Generation _ _ _ _ _ _ _ _ _) (S (next_id h)) Hh _ eq_refl _ _); cbn; [|lia..]);
    exists q; cbn; by rewrite ?Hqm, ?Hqa, ?Hr.
Qed.

(** A lease that is held pins the generation in which its plane is revoked. *)
Definition leased (s : state) : Prop :=
  ∀ l, lease s = Some l →
    revoked_generation l = current (topology s) ∧
    match plane l with
    | Measurement => measurement_routes_revoked (current (topology s)) = true
    | Action => action_routes_revoked (current (topology s)) = true
    end ∧
    ∀ g, restore_generation l = Some g → g ∈ published (topology s).

Lemma restore_good g r h : good h → g ∈ published h → good (restore_revoked_generation g r h).2.
Proof.
  intros Hh Hg. unfold restore_revoked_generation, mbind, st_bind, gets. case_match; [done|].
  pose proof Hh as [_ Hs Hi _ Hb Hr]. rewrite !Forall_forall in Hs, Hi. apply good_store; [done|auto|auto|].
  intros Hlt. specialize (Hb Hlt). rewrite Forall_forall in Hb. split; [auto|]. intros. by apply Hr.
Qed.

Lemma begin_leased pl h : good h →
  leased (State (begin_routing_mutation pl h).2 (Some (begin_routing_mutation pl h).1)).
Proof.
  intros Hh l [= <-]. unfold begin_routing_mutation, revoke_routes_locked, mbind, st_bind, gets.
  destruct pl; [destruct (measurement_routes_revoked (current h)) eqn:Hr
               |destruct (action_routes_revoked (current h)) eqn:Hr];
    cbn -[Nat.eqb]; (split_and!; [done|done|]); intros g; case_match; try done; intros [= <-];
    try apply elem_of_app; try left; by apply good_current.
Qed.

Lemma reachable_good s : reachable s → good (topology s) ∧ leased s.
Proof.
  induction 1 as [parts Hp|s s' _ [IH Hl] Hs].
  - split; [|done]. split; cbn.
    + by left.
    + repeat constructor. by apply compose_sourced.
    + repeat constructor.
    + done.
    + intros _. repeat constructor; cbn; lia.
    + intros _ g g' ->%list_elem_of_singleton ->%list_elem_of_singleton _. by split.
  - destruct Hs as [h sn p Hsn|h sn p Hsn|h pl|h l|h l|h l sn p Hsn]; cbn [topology] in *.
    + split; [|done]. unfold refresh, mbind, st_bind.
      pose proof (refresh_locked_good ValidatePhysical sn p h IH Hsn) as Hg.
      destruct (refresh_locked ValidatePhysical sn p h) as [r h']. cbn [snd] in Hg.
      destruct r as [|[]|]; try exact Hg. by apply (revoke_good Action) in Hg; destruct (revoke_routes_locked Action h').
    + split; [|done]. unfold refresh_or_revoke_commands, mbind, st_bind.
      pose proof (refresh_locked_good PublishConfiguration sn p h IH Hsn) as Hg.
      destruct (refresh_locked PublishConfiguration sn p h) as [r h']. cbn [snd] in Hg.
      destruct r as [| |]; try exact Hg. by apply (revoke_good Action) in Hg; destruct (revoke_routes_locked Action h').
    + split; [|by apply begin_leased]. unfold begin_routing_mutation, mbind, st_bind, gets.
      apply (revoke_good pl) in IH. by destruct (revoke_routes_locked pl h).
    + split; [done|]. intros l' [= <-]. cbn. by destruct (Hl l eq_refl) as (? & ? & _).
    + split; [|done]. unfold lease_restore. destruct (restore_generation l) as [g|] eqn:Hg; [|done].
      apply restore_good; [done|]. by apply (Hl l eq_refl).
    + split; [|done]. by apply refresh_locked_good.
Qed.

(** C23. The sequence a rule captures before it reads identifies the routes: any two
    published generations with the same sequence route every measurement and
    every command alike, through refreshes, revocations, restorations and
    failures, until the 64-bit counter wraps. *)
Theorem sequence_identifies_routes (s : state) (g g' : AutomationTopologyGeneration) :
  reachable s → publications (topology s) < 2 ^ 64 →
  g ∈ published (topology s) → g' ∈ published (topology s) → sequence g = sequence g' →
  ∀ instance point, measurement_route g instance point = measurement_route g' instance point ∧
                    command_route g instance point = command_route g' instance point.
Proof.
  intros Hr Hlt Hg Hg' Heq i p. apply reachable_good in Hr as [Hr _].
  destruct (good_routes _ Hr Hlt g g' Hg Hg' Heq) as [Hm Ha].
  unfold measurement_route, command_route. by rewrite Hm, Ha.
Qed.

(** A routing mutation fails closed: from the moment its lease is taken until it
    publishes or restores, the plane it changes routes nothing. *)
Theorem mutation_fails_closed (s : state) (l : RoutingMutationLease) (instance point : Z) :
  reachable s → lease s = Some l →
  match plane l with
  | Measurement => measurement_route (current (topology s)) instance point = None
  | Action => command_route (current (topology s)) instance point = None ∧
              action_route (current (topology s)) instance point = None
  end.
Proof.
  intros [Hg Hl]%reachable_good Hs. destruct (Hl l Hs) as (_ & Hr & _).
  destruct (current_sourced _ Hg) as (q & _ & _ & Hqm & Hqa).
  destruct (plane l); rewrite Hr in *; unfold measurement_route, action_route, command_route.
  - rewrite Hqm. apply (lookup_empty (M := gmap (Z * Z))).
  - rewrite Hqa. assert ((∅ : LogicalCommandRoutes) !! (instance, point) = None) as ->; [|done].
    apply (lookup_empty (M := gmap (Z * Z))).
Qed.
End Reachable.

(** ** A run: an action-routing mutation that is restored *)

Module Sample.

Definition layout : Layout := MkLayout Manifest.sample_manifest 0 0.
Definition target : RoutedCommandTarget :=
  Routed (ChannelCommand 7 Domain.Action 1) (Constraints (Some zero) (Some (of_Z 10)) None).
Definition parts : CandidateParts :=
  Parts layout {[ (1, 4) := Manifest.PhysicalPoint 7 Telemetry 4 ]} {[ (1, 2) := target ]} 11.
Definition admitted (p : CandidateParts) : Prop := p = parts.

Lemma digest_identifies : ∀ p q, admitted p → admitted q → p_digest p = p_digest q →
  p_measurement_routes p = p_measurement_routes q ∧ p_action_routes p = p_action_routes q.
Proof. by intros ?? -> ->. Qed.

Definition initial : state := State (new_lazy parts) None.
Definition mutating : state :=
  State (begin_routing_mutation Action (new_lazy parts)).2
    (Some (begin_routing_mutation Action (new_lazy parts)).1).
Definition restored : state :=
  State (lease_restore (begin_routing_mutation Action (new_lazy parts)).1 (topology mutating)).2 None.

Example mutation_run :
  command_route (current (topology initial)) 1 2 = Some target ∧
  command_route (current (topology mutating)) 1 2 = None ∧ sequence (current (topology mutating)) = 1 ∧
  current (topology restored) = current (topology initial).
Proof. by vm_compute. Qed.

Lemma mutating_reachable : reachable admitted mutating.
Proof. eapply reach_step; [by apply (reach_init admitted parts)|]. apply step_begin. Qed.

Lemma restored_reachable : reachable admitted restored.
Proof. eapply reach_step; [apply mutating_reachable|]. apply step_restore. Qed.

Lemma sequence_identifies_routes_witness :
  measurement_route (current (topology restored)) 1 4 = measurement_route (current (topology initial)) 1 4.
Proof.
  apply (sequence_identifies_routes admitted digest_identifies restored (current (topology restored))
           (current (topology initial))).
  - apply restored_reachable.
  - done.
  - apply list_elem_of_In. vm_compute. auto.
  - apply list_elem_of_In. vm_compute. auto.
  - done.
Defined.

Lemma mutation_fails_closed_witness : command_route (current (topology mutating)) 1 2 = None.
Proof.
  destruct (mutation_fails_closed admitted digest_identifies mutating
    (begin_routing_mutation Action (new_lazy parts)).1 1 2) as [H _]; [apply mutating_reachable|done|exact H].
Defined.

End Sample.
End Topology.
