(* ===== verification/Control.v ===== *)
(** * Rule actions to device commands (services/automation/src/infra)

    application_control.rs: the facade a rule's action goes through, which is the
    governed control use case under the rule engine's own identity, and the
    dispatcher behind it, which resolves a logical target in one pinned topology
    generation and hands one physical command to the device sink.
    rule_live_state.rs: the fenced live state a rule reads.  Clock, UUIDs, the
    topology handle, channel health and the sink are operations of the runtime. *)

From stdpp Require Import base tactics numbers list strings gmap.
From S2P Require Import Prelude State Float Domain Outbox Manifest Executor Governance Topology.
#[local] Open Scope Z_scope.

Module Control.
Import Float Domain Governance.

Definition COMMISSIONED_RULE_ACTOR_ID : string := "local:aether-automation-rule-engine".

(** The services the dispatcher and the facade use. *)
Class Runtime (E : Type) := {
  new_uuid : st E Z;
  utc_now_ms : st E Z;
  pin_command : st E Topology.AutomationTopologyGeneration;
  channel_health : Topology.AutomationTopologyGeneration → Z → st E (res Outbox.PortErrorKind (option bool));
  sink_send : PhysicalDeviceCommand → st E (res Outbox.PortErrorKind Executor.CommandReceipt) }.

(** ** Dispatch *)

Definition validate_command_topology_fence (fence : option Executor.CommandTopologyFence)
    (current_sequence : option Z) : res Outbox.PortErrorKind unit :=
  match fence with
  | None => Ok tt
  | Some fence =>
      match current_sequence with
      | None => Err Outbox.Unavailable
      | Some current =>
          if negb (current =? Executor.expected_sequence fence) then Err Outbox.Conflict else Ok tt
      end
  end.

Section Control.
Context {E : Type} `{Runtime E}.

(** The environment with what the sink was given: the pinned generation, the time
    of the check, the health answer and the command. *)
Record call := Call {
  c_generation : Topology.AutomationTopologyGeneration; c_now : Z; c_health : option bool;
  c_command : PhysicalDeviceCommand }.
Record denv := DEnv { inner : E; calls : list call }.

Definition on_inner {A} (m : st E A) : st denv A := fun d =>
  let '(a, e) := m (inner d) in (a, DEnv e (calls d)).

Definition send_logged (k : call) : st denv (res Outbox.PortErrorKind Executor.CommandReceipt) := fun d =>
  let '(r, e) := sink_send (c_command k) (inner d) in (r, DEnv e (calls d ++ [k])).

Definition reject {A} (x : res DomainError A) : res Outbox.PortErrorKind A :=
  match x with Ok a => Ok a | Err _ => Err Outbox.Rejected | Panic => Panic end.

Definition dispatch_inner (command : ControlCommand) (fence : option Executor.CommandTopologyFence)
    : st denv (res Outbox.PortErrorKind Executor.CommandReceipt) :=
  let logical := c_target command in
  if negb (is_writable (kind logical)) then mret (Err Outbox.Rejected)
  else
    g ← on_inner pin_command;
    _ ←? mret (validate_command_topology_fence fence (Some (Topology.sequence g)));
    match Topology.command_route g (instance_id logical) (point_id logical) with
    | None => mret (Err Outbox.Rejected)
    | Some routed =>
        let target := Topology.rt_target routed in
        now ← on_inner utc_now_ms;
        let now := Z.max now 0 in
        _ ←? mret (reject (control_validate_at command now (Topology.rt_constraints routed)));
        health ←? on_inner (channel_health g (cc_channel_id target));
        match health with
        | Some true =>
            p ←? mret (reject (physical_new (c_id command) target (c_value command)
                                 (c_issued_at command) (c_expires_at command)));
            send_logged (Call g now health p)
        | _ => mret (Err Outbox.Unavailable)
        end
    end.

#[global] Instance automation_dispatcher : CommandDispatcher denv := {
  dispatch k := dispatch_inner k None;
  dispatch_fenced k f := dispatch_inner k (Some f) }.

(** ** The rule engine's facade *)

Variable uuid_string : Z → string.
Variable audit_sink : AuditRecord CommandSubject Executor.CommandReceipt → st E (res Outbox.PortErrorKind unit).

Definition audit (r : AuditRecord CommandSubject Executor.CommandReceipt)
    : st denv (res Outbox.PortErrorKind unit) := on_inner (audit_sink r).

Definition world : Type :=
  gworld (E := denv) (Req := CommandSubject) (R := Executor.CommandReceipt) (P := ControlCommand).

Definition rule_action_port_error (e : ApplicationError) : Outbox.PortErrorKind :=
  match e with
  | AuditUnavailable k | Port k => k
  | InvalidCommand _ => Outbox.InvalidData
  | PermissionDenied _ _ | ConfirmationRequired _ => Outbox.Rejected
  | _ => Outbox.Permanent
  end.

Definition on_env {A} (m : st E A) : st world A := fun w =>
  let '(a, d) := on_inner m (g_env w) in (a, GWorld d (g_log w)).

Definition write_action (c : Executor.RuleActionCommand)
    : st world (res Outbox.PortErrorKind Executor.CommandReceipt) :=
  id ← on_env new_uuid;
  now ← on_env utc_now_ms;
  let context := Request (uuid_string id)
                   (with_permission "device.control" (actor_new COMMISSIONED_RULE_ACTOR_ID))
                   true (Z.max now 0) in
  r ← (match Executor.topology_fence c with
       | Some fence => write_point_fenced audit context id (Executor.ra_target c) (Executor.ra_value c) fence
       | None => write_point audit context id (Executor.ra_target c) (Executor.ra_value c)
       end);
  mret (match r with
        | Ok acceptance => Ok (receipt acceptance)
        | Err e => Err (rule_action_port_error e)
        | Panic => Panic
        end).

(** ** What the sink is given *)

(** The checks one call of the sink has passed. *)
Definition checked (command : ControlCommand) (fence : option Executor.CommandTopologyFence) (k : call) : Prop :=
  let g := c_generation k in
  let p := c_command k in
  ∃ routed, Topology.command_route g (instance_id (c_target command)) (point_id (c_target command)) = Some routed ∧
    validate_value (Topology.rt_constraints routed) (c_value command) = Ok tt ∧
    p = Physical (c_id command) (Topology.rt_target routed) (c_value command)
          (c_issued_at command) (c_expires_at command) ∧
    c_now k < c_expires_at command ∧ c_health k = Some true ∧
    (∀ f, fence = Some f → Topology.sequence g = Executor.expected_sequence f) ∧
    is_writable (kind (c_target command)) = true.

Lemma dispatch_inner_checked command fence d :
  let '(r, d') := dispatch_inner command fence d in
  ∃ new, calls d' = calls d ++ new ∧ Forall (checked command fence) new ∧ (length new ≤ 1)%nat ∧
         (is_ok r = true → length new = 1%nat).
Proof.
  assert (∀ (r : res Outbox.PortErrorKind Executor.CommandReceipt) d', is_ok r = false → calls d' = calls d →
    ∃ new, calls d' = calls d ++ new ∧ Forall (checked command fence) new ∧ (length new ≤ 1)%nat ∧
           (is_ok r = true → length new = 1%nat)) as Hno.
  { intros r d' Hr Hd. exists []. rewrite app_nil_r, Hr. split_and!; [done|done|cbn; lia|done]. }
  unfold dispatch_inner. destruct (is_writable (kind (c_target command))) eqn:Hk; cbn [negb]; [|by apply Hno].
  unfold mbind, st_bind, on_inner at 1. destruct (pin_command (inner d)) as [g e1]. rewrite st_try_ret.
  destruct (validate_command_topology_fence fence _) as [[]|x|] eqn:Hf; [|by apply Hno..].
  destruct (Topology.command_route g _ _) as [routed|] eqn:Hr; [|by apply Hno].
  unfold on_inner at 1. change (inner (DEnv e1 (calls d))) with e1. destruct (utc_now_ms e1) as [now e2].
  rewrite st_try_ret. destruct (control_validate_at command _ _) as [[]|x|] eqn:Hv; cbn [reject]; [|by apply Hno..].
  unfold st_try at 1, on_inner at 1. change (inner (DEnv e2 _)) with e2.
  destruct (channel_health g _ e2) as [[health|x|] e3]; [|by apply Hno..].
  destruct health as [[]|]; [|by apply Hno..]. rewrite st_try_ret.
  destruct (physical_new _ _ _ _ _) as [p|x|] eqn:Hp; cbn [reject]; [|by apply Hno..].
  unfold send_logged. change (inner (DEnv e3 _)) with e3. change (c_command (Call g _ _ p)) with p.
  destruct (sink_send p e3) as [r e4].
  eexists [_]. split_and!; [done| |cbn; lia|done]. apply Forall_singleton. exists routed.
  apply physical_new_ok in Hp as [-> _]. unfold control_validate_at in Hv. case_match; [done|].
  split_and!; cbn; [done|done|done|lia|done| |done]. intros f ->. cbn in Hf. case_match; [done|]. lia.
Qed.

Lemma audit_calls a d : calls (audit a d).2 = calls d.
Proof. unfold audit, on_inner. by destruct (audit_sink a (inner d)). Qed.

(** The sink calls and audit events of one request. *)
Definition reached (k : ControlCommand) (fence : option Executor.CommandTopologyFence) (ok : bool)
    (w w' : world) : Prop :=
  ∃ new evs, calls (g_env w') = calls (g_env w) ++ new ∧ g_log w' = g_log w ++ evs ∧
    (length new ≤ 1)%nat ∧ Forall (checked k fence) new ∧ (ok = true → length new = 1%nat) ∧
    (new ≠ [] → ∃ a rest, evs = EAudit a true :: rest ∧ au_outcome a = Attempted).

Lemma write_point_inner_reached c s (w : world) :
  let '(r, w') := write_point_inner audit c s w in
  (∃ evs, calls (g_env w') = calls (g_env w) ∧ g_log w' = g_log w ++ evs ∧ is_ok r = false) ∨
  ∃ k, build_command c s = Ok k ∧ reached k (s_fence s) (is_ok r) w w'.
Proof.
  unfold write_point_inner. set (call := fun k => _).
  pose proof (governed_env audit calls WRITE_POINT_CAPABILITY c s (build_command c s) call (fun _ => None) w
    audit_calls) as Henv.
  pose proof (governed_log audit WRITE_POINT_CAPABILITY c s (build_command c s) call (fun _ => None) w) as Hlog.
  destruct (governed _ _ _ _ _ _ _ w) as [r w']. destruct Hlog as (evs0 & Hl0 & _).
  destruct Henv as [[Hc Hr]|(k & e & x & e' & a & rest & Hk & He & Hcall & Hc & Hok & Hl & Ho)]; [left; eauto|].
  right. exists k. split; [done|]. pose proof (dispatch_inner_checked k (s_fence s) e) as Hd.
  assert (call k e = dispatch_inner k (s_fence s) e) as Hcd by by unfold call; destruct (s_fence s).
  rewrite <- Hcd, Hcall in Hd. destruct Hd as (new & Hn & Hf & Hlen & Hone).
  exists new, (EAudit a true :: rest). split_and!; [congruence|done|done|done|auto|]. intros _. by exists a, rest.
Qed.

(** C3. Everything a rule's action puts before the device sink has been checked: the
    sink is called at most once, exactly once when the action reports a receipt,
    after the attempt was durably audited, with the rule's value at the target
    the pinned generation routes it to, within that generation's constraints, on
    an online channel, before its expiry, and, for a fenced command, in the very
    generation sequence the rule captured. *)
Theorem rule_action_checked (c : Executor.RuleActionCommand) (w : world) :
  let '(r, w') := write_action c w in
  ∃ new evs, calls (g_env w') = calls (g_env w) ++ new ∧ g_log w' = g_log w ++ evs ∧
    (length new ≤ 1)%nat ∧ (is_ok r = true → length new = 1%nat) ∧
    (new ≠ [] → ∃ a rest, evs = EAudit a true :: rest ∧ au_outcome a = Attempted) ∧
    Forall (fun k => ∃ routed,
      Topology.command_route (c_generation k) (instance_id (Executor.ra_target c))
        (point_id (Executor.ra_target c)) = Some routed ∧
      d_target (c_command k) = Topology.rt_target routed ∧ d_value (c_command k) = Executor.ra_value c ∧
      validate_value (Topology.rt_constraints routed) (Executor.ra_value c) = Ok tt ∧
      c_health k = Some true ∧ c_now k < d_expires_at (c_command k) ∧
      d_expires_at (c_command k) ≤ d_issued_at (c_command k) + DEFAULT_COMMAND_TTL_MS ∧
      (∀ f, Executor.topology_fence c = Some f →
            Topology.sequence (c_generation k) = Executor.expected_sequence f)) new.
Proof.
  unfold write_action.
  assert (∀ A (m : st E A) (w : world), calls (g_env (on_env m w).2) = calls (g_env w) ∧
            g_log (on_env m w).2 = g_log w) as Henv.
  { intros A m w0. unfold on_env, on_inner. by destruct (m (inner (g_env w0))). }
  unfold mbind, st_bind. destruct (Henv _ new_uuid w) as [Hc1 Hl1]. destruct (on_env new_uuid w) as [id w1].
  destruct (Henv _ utc_now_ms w1) as [Hc2 Hl2]. destruct (on_env utc_now_ms w1) as [now w2]. cbn [snd] in *.
  set (context := Request _ _ _ _). set (s := Subject id (Executor.ra_target c) (Executor.ra_value c)
    (Executor.topology_fence c)).
  assert ((match Executor.topology_fence c with
       | Some fence => write_point_fenced audit context id (Executor.ra_target c) (Executor.ra_value c) fence
       | None => write_point audit context id (Executor.ra_target c) (Executor.ra_value c)
       end) w2 = write_point_inner audit context s w2) as ->.
  { unfold s. by destruct (Executor.topology_fence c). }
  pose proof (write_point_inner_reached context s w2) as Hr.
  destruct (write_point_inner audit context s w2) as [r w'].
  destruct Hr as [(evs & Hc & Hl & Hok)|(k & Hk & new & evs & Hc & Hl & Hlen & Hf & Hone & Haud)].
  - exists [], evs. rewrite app_nil_r. split_and!; [congruence|congruence|cbn; lia| |done|done].
    destruct r; done.
  - exists new, evs. split_and!; [congruence|congruence|done| |done|].
    + intros Hok. apply Hone. by destruct r.
    + apply build_command_ok in Hk as (_ & _ & Ht & Hv & Hi & He). eapply Forall_impl; [exact Hf|].
      intros k0 (routed & Hroute & Hval & Hp & Hnow & Hh & Hfence & _). exists routed.
      rewrite Ht, Hv in *. rewrite Hp. cbn. split_and!; try done.
      rewrite He, Hi. unfold saturating_add. cbn. lia.
Qed.
End Control.

(** ** The fenced live state (rule_live_state.rs)

    What successive loads of the topology find, and what its point source reads. *)

Record live_env := LiveEnv {
  views : nat → Topology.AutomationTopologyGeneration;
  slots : nat → nat → res Outbox.PortErrorKind (option (f64 * Z));
  loads : nat }.

Definition load_view (e : live_env) : Topology.AutomationTopologyGeneration * live_env :=
  (views e (loads e), LiveEnv (views e) (slots e) (S (loads e))).

Definition read_point (g : Topology.AutomationTopologyGeneration) (e : live_env) (instance ty point : Z)
    : option (f64 * Z) :=
  match Topology.read_instance_point g (slots e (loads e)) instance (negb (ty =? 0)) point with
  | Ok x => x
  | _ => None
  end.

#[global] Instance shm_live_state : Executor.RuleLiveState live_env := {
  Executor.begin_execution := fun e =>
    let '(g, e) := load_view e in (Executor.Context_ (Some (Executor.Fence (Topology.sequence g))), e);
  Executor.get_instance_for_execution := fun x instance ty point e =>
    match Executor.command_topology_fence x with
    | None => (None, e)
    | Some fence =>
        let '(g, e) := load_view e in
        if negb (Topology.sequence g =? Executor.expected_sequence fence) then (None, e)
        else (read_point g e instance ty point, e)
    end }.

(** C35. A fenced read never mixes generations: it returns a value only from a
    generation with the captured sequence, through that generation's own route
    and slot, and the value is finite. *)
Theorem fenced_read (e : live_env) (x : Executor.RuleExecutionContext) (instance ty point : Z) (v : f64) (ts : Z) :
  (Executor.get_instance_for_execution x instance ty point e).1 = Some (v, ts) →
  let g := views e (loads e) in
  ∃ fence target slot, Executor.command_topology_fence x = Some fence ∧
    Topology.sequence g = Executor.expected_sequence fence ∧
    (if negb (ty =? 0) then Topology.action_route g instance point
     else Topology.measurement_route g instance point) = Some target ∧
    Manifest.slot_for (Topology.point_manifest (Topology.g_layout g)) target = Some slot ∧
    slots e (S (loads e)) slot = Ok (Some (v, ts)) ∧ is_finite v = true.
Proof.
  cbn. destruct (Executor.command_topology_fence x) as [fence|]; [|done].
  case (Z.eqb_spec (Topology.sequence (views e (loads e))) (Executor.expected_sequence fence)) as [Hs|]; [|done].
  cbn [negb fst]. unfold read_point, Topology.read_instance_point. cbn [loads slots].
  set (route := if negb (ty =? 0) then _ else _). destruct route as [target|] eqn:Ht; [|done].
  destruct (Manifest.slot_for _ target) as [slot|] eqn:Hsl; [|done].
  destruct (slots e (S (loads e)) slot) as [[[v' ts']|]| |] eqn:Hr; [|done..].
  destruct (is_nan v') eqn:Hn; [done|]. destruct (is_finite v') eqn:Hf; [|done]. cbn. intros [= -> ->].
  exists fence, target, slot. done.
Qed.

(** ** A run *)

Module Sample.

(** One generation, a clock at 1000, every channel online, a sink that accepts. *)
#[global] Instance accepting : Runtime unit := {
  new_uuid := mret 42;
  utc_now_ms := mret 1000;
  pin_command := mret (Topology.current (Topology.topology Topology.Sample.initial));
  channel_health _ _ := mret (Ok (Some true));
  sink_send p := mret (Ok (Executor.Receipt (d_id p) 1001)) }.

Definition start : world (E := unit) := GWorld (DEnv tt []) [].
Definition act (v : f64) (seq : Z) :=
  write_action (fun _ => "u") (fun _ => mret (Ok tt))
    (Executor.ActionCommand (Address 1 Domain.Action 2) v (Some (Executor.Fence seq))) start.

(** In range and fenced; out of range; fenced to another generation. *)
Example act_run :
  (act (of_Z 5) 0).1 = Ok (Executor.Receipt 42 1001) ∧
  map c_command (calls (g_env (act (of_Z 5) 0).2)) =
    [Domain.Physical 42 (ChannelCommand 7 Domain.Action 1) (of_Z 5) 1000 6000] ∧
  (act (of_Z 11) 0).1 = Err Outbox.Rejected ∧ calls (g_env (act (of_Z 11) 0).2) = [] ∧
  (act (of_Z 5) 3).1 = Err Outbox.Conflict ∧ calls (g_env (act (of_Z 5) 3).2) = [].
Proof. by vm_compute. Qed.

Definition one_view : live_env :=
  LiveEnv (fun _ => Topology.current (Topology.topology Topology.Sample.initial))
    (fun _ _ => Ok (Some (one, 9))) 0.

Lemma fenced_read_witness :
  (Executor.get_instance_for_execution (Executor.Context_ (Some (Executor.Fence 0))) 1 0 4 one_view).1
    = Some (one, 9) ∧ is_finite one = true.
Proof.
  split; [by vm_compute|].
  destruct (fenced_read one_view (Executor.Context_ (Some (Executor.Fence 0))) 1 0 4 one 9)
    as (? & ? & ? & ? & ? & ? & ? & ? & H); [by vm_compute|exact H].
Defined.

End Sample.
End Control.
