(* ===== verification/PointWatch.v ===== *)
(** * Point-watch hints on the wire (libs/aether-shm-bridge/src/{events,point_watch}.rs)

    After a slot is written the acquisition process sends a 16-byte hint to every
    consumer whose subscription bitmap has the slot set: a bounded queue per
    consumer, a task that drains it into a socket, and the consumer's listener.
    Clocks, connections and writes answer from an arbitrary schedule. *)

From stdpp Require Import base tactics numbers list.
From S2P Require Import Prelude State Domain Outbox Bitmap Manifest.
#[local] Open Scope Z_scope.

Module PointWatch.
Import Domain.

(** ** The frame (events.rs) *)

Definition POINT_WATCH_FRAME_MARKER : list Z := [0xA5; 1; 0x5A].
Definition SIZE : nat := 16.

Record PointWatchEvent := Event {
  ev_channel_id : Z; ev_point_id : Z; ev_slot_index : Z; ev_point_type : Z }.

Definition point_kind_code (k : PointKind) : Z :=
  match k with Telemetry => 0 | Status => 1 | Command => 2 | Action => 3 end.

Definition event_new (channel : Z) (k : PointKind) (point : Z) (slot : nat)
    : res Outbox.PortErrorKind PointWatchEvent :=
  if Z.of_nat slot <? 2 ^ 32 then Ok (Event channel point (Z.of_nat slot) (point_kind_code k))
  else Err Outbox.InvalidData.

Definition point_kind (e : PointWatchEvent) : option PointKind :=
  if ev_point_type e =? 0 then Some Telemetry
  else if ev_point_type e =? 1 then Some Status
  else if ev_point_type e =? 2 then Some Command
  else if ev_point_type e =? 3 then Some Action
  else None.

Definition from_bytes (b : list Z) : res Outbox.PortErrorKind PointWatchEvent :=
  if bool_decide (slice 13 3 b ≠ POINT_WATCH_FRAME_MARKER) then Err Outbox.InvalidData
  else
    let e := Event (load_le 0 4 b) (load_le 4 4 b) (load_le 8 4 b) (nth 12 b 0) in
    match point_kind e with None => Err Outbox.InvalidData | Some _ => Ok e end.

Definition to_bytes (e : PointWatchEvent) : list Z :=
  le_bytes 4 (ev_channel_id e) ++ le_bytes 4 (ev_point_id e) ++ le_bytes 4 (ev_slot_index e) ++
  [ev_point_type e] ++ POINT_WATCH_FRAME_MARKER.

Definition address_of (e : PointWatchEvent) (k : PointKind) : Manifest.PhysicalPointAddress :=
  Manifest.PhysicalPoint (ev_channel_id e) k (ev_point_id e).

(** The hint still names the typed slot of the consumer's manifest. *)
Definition matches_manifest (e : PointWatchEvent) (m : Manifest.ChannelPointManifest) : bool :=
  match point_kind e with
  | None => false
  | Some k =>
      match Manifest.slot_for m (address_of e k) with
      | Some slot => (Z.of_nat slot <? 2 ^ 32) && (Z.of_nat slot =? ev_slot_index e)
      | None => false
      end
  end.

Definition event_ok (e : PointWatchEvent) : Prop :=
  in_u 32 (ev_channel_id e) ∧ in_u 32 (ev_point_id e) ∧ in_u 32 (ev_slot_index e) ∧ is_Some (point_kind e).

Lemma event_bytes_length e : length (to_bytes e) = SIZE.
Proof. reflexivity. Qed.

Lemma from_to_bytes e : event_ok e → from_bytes (to_bytes e) = Ok e.
Proof.
  intros (Hc & Hp & Hs & [k Hk]). unfold from_bytes.
  assert (Event (load_le 0 4 (to_bytes e)) (load_le 4 4 (to_bytes e)) (load_le 8 4 (to_bytes e))
            (nth 12 (to_bytes e) 0) = e) as E.
  { destruct e as [c p s t]. cbn [ev_channel_id ev_point_id ev_slot_index] in *. f_equal;
      match goal with
      | |- load_le _ ?n _ = ?x => transitivity (le_val (le_bytes n x)); [reflexivity|by apply le_val_le_bytes_small]
      | |- _ => reflexivity
      end. }
  rewrite E, Hk. rewrite bool_decide_false; [done|]. intros H. by apply H.
Qed.

Lemma event_new_ok channel k point slot e :
  in_u 32 channel → in_u 32 point → event_new channel k point slot = Ok e →
  event_ok e ∧ point_kind e = Some k ∧ address_of e k = Manifest.PhysicalPoint channel k point ∧
  ev_slot_index e = Z.of_nat slot.
Proof.
  intros Hc Hp. unfold event_new. case (Z.ltb_spec (Z.of_nat slot) (2 ^ 32)) as [Hs|]; [|done]. intros [= <-].
  assert (point_kind (Event channel point (Z.of_nat slot) (point_kind_code k)) = Some k) as Hk by by destruct k.
  split_and!; [|done..]. split_and!; [done|done| |by eexists]. cbn. unfold in_u. lia.
Qed.

(** ** The listener (events.rs) *)

Definition LISTENER_CAPACITY : nat := 1024.

(** The receiving end: the hints queued for the consumer and the drop counter. *)
Record listener := Listener { l_queue : list PointWatchEvent; l_dropped : Z }.

Definition try_send (capacity : nat) (e : PointWatchEvent) (l : listener) : listener :=
  if (length (l_queue l) <? capacity)%nat then Listener (l_queue l ++ [e]) (l_dropped l)
  else Listener (l_queue l) (wrapping_add 64 (l_dropped l) 1).

(** One connection, from its first byte to its end or to the first bad frame; the
    consumer holds its receiver.  Every turn takes [SIZE] bytes. *)
Fixpoint consume_connection (fuel : nat) (bytes : list Z) (l : listener) : listener :=
  match fuel with
  | O => l
  | S fuel =>
      if (length bytes <? SIZE)%nat then l
      else
        match from_bytes (take SIZE bytes) with
        | Ok e => consume_connection fuel (drop SIZE bytes) (try_send LISTENER_CAPACITY e l)
        | _ => Listener (l_queue l) (wrapping_add 64 (l_dropped l) 1)
        end
  end.

(** Handing over a list of hints. *)
Definition send_all (l : listener) (es : list PointWatchEvent) : listener :=
  fold_left (fun l e => try_send LISTENER_CAPACITY e l) es l.

(** Whole frames are forwarded in order; a fragment before the end is dropped. *)
Lemma consume_frames es fragment fuel l :
  Forall event_ok es → (length fragment < SIZE)%nat → (length es < fuel)%nat →
  consume_connection fuel (concat (map to_bytes es) ++ fragment) l = send_all l es.
Proof.
  intros Hes Hf. revert fuel l. induction Hes as [|e es He _ IH]; intros [|fuel] l Hn; try (cbn in Hn; lia).
  - cbn [map concat app consume_connection]. case (Nat.ltb_spec (length fragment) SIZE); [done|lia].
  - cbn [map concat]. rewrite <- app_assoc. cbn [consume_connection].
    case (Nat.ltb_spec (length (to_bytes e ++ concat (map to_bytes es) ++ fragment)) SIZE) as [Hlt|_].
    { rewrite length_app, event_bytes_length in Hlt. lia. }
    rewrite <- (event_bytes_length e), take_app_length, drop_app_length, from_to_bytes by done.
    apply IH. cbn in Hn. lia.
Qed.

(** ** The publisher (point_watch.rs) *)

Definition CHANNEL_CAPACITY : nat := 2048.

Record PublisherTarget := Target {
  subscriptions : Bitmap.SubscriptionBitmap; subscription_words : list Z; t_queue : list PointWatchEvent }.

Record PointWatchPublisher := Publisher { targets : list PublisherTarget; dropped_count : Z }.

(** [point_committed] at one consumer; [event] is what an earlier consumer's turn built. *)
Definition offer (slot : nat) (sample : AcquiredPointSample) (t : PublisherTarget)
    (event : option PointWatchEvent) (dropped : Z) : PublisherTarget * option PointWatchEvent * Z :=
  if negb (Bitmap.is_watched (subscriptions t) slot (subscription_words t)) then (t, event, dropped)
  else
    let a := as_address sample in
    let created :=
      match event with
      | Some e => Ok e
      | None => event_new (cp_channel_id a) (cp_kind a) (cp_point_id a) slot
      end in
    match created with
    | Ok hint =>
        if (length (t_queue t) <? CHANNEL_CAPACITY)%nat
        then (Target (subscriptions t) (subscription_words t) (t_queue t ++ [hint]), Some hint, dropped)
        else (t, Some hint, wrapping_add 64 dropped 1)
    | _ => (t, event, wrapping_add 64 dropped 1)
    end.

Fixpoint offer_all (slot : nat) (sample : AcquiredPointSample) (l : list PublisherTarget)
    (event : option PointWatchEvent) (dropped : Z) : list PublisherTarget * Z :=
  match l with
  | [] => ([], dropped)
  | t :: l =>
      let '(t, event, dropped) := offer slot sample t event dropped in
      let '(l, dropped) := offer_all slot sample l event dropped in
      (t :: l, dropped)
  end.

Definition point_committed (slot : nat) (sample : AcquiredPointSample) (p : PointWatchPublisher)
    : PointWatchPublisher :=
  let '(l, dropped) := offer_all slot sample (targets p) None (dropped_count p) in Publisher l dropped.

(** What one consumer's queue gets: the hint, if it watches the slot and has room. *)
Definition offered (slot : nat) (sample : AcquiredPointSample) (t : PublisherTarget) : list PointWatchEvent :=
  let a := as_address sample in
  if Bitmap.is_watched (subscriptions t) slot (subscription_words t) && (length (t_queue t) <? CHANNEL_CAPACITY)%nat
  then match event_new (cp_channel_id a) (cp_kind a) (cp_point_id a) slot with Ok e => [e] | _ => [] end
  else [].

Lemma offer_all_queues slot sample l event dropped :
  (∀ e, event = Some e → event_new (cp_channel_id (as_address sample)) (cp_kind (as_address sample))
                           (cp_point_id (as_address sample)) slot = Ok e) →
  (offer_all slot sample l event dropped).1 =
  map (fun t => Target (subscriptions t) (subscription_words t) (t_queue t ++ offered slot sample t)) l.
Proof.
  revert event dropped. induction l as [|t l IH]; intros event dropped He; [done|]. cbn [offer_all map].
  assert (∀ t' event' dropped', offer slot sample t event dropped = (t', event', dropped') →
    t' = Target (subscriptions t) (subscription_words t) (t_queue t ++ offered slot sample t) ∧
    ∀ e, event' = Some e → event_new (cp_channel_id (as_address sample)) (cp_kind (as_address sample))
                             (cp_point_id (as_address sample)) slot = Ok e) as Hstep.
  { intros t' event' dropped'. unfold offer, offered. destruct (Bitmap.is_watched _ _ _); cbn [negb andb].
    2: { intros [= <- <- <-]. rewrite app_nil_r. by destruct t. }
    assert (match event with Some e => Ok e | None => event_new (cp_channel_id (as_address sample))
      (cp_kind (as_address sample)) (cp_point_id (as_address sample)) slot end =
      event_new (cp_channel_id (as_address sample)) (cp_kind (as_address sample)) (cp_point_id (as_address sample)) slot)
      as -> by (destruct event as [e|]; [by rewrite (He e)|done]).
    destruct (event_new _ _ _ slot) as [hint|k|] eqn:Hn; destruct (_ <? _)%nat; intros [= <- <- <-];
      rewrite ?app_nil_r; (split; [by destruct t|]); [congruence|congruence|done..]. }
  destruct (offer slot sample t event dropped) as [[t' event'] dropped'] eqn:Ho.
  destruct (Hstep _ _ _ eq_refl) as [-> He']. specialize (IH event' dropped' He').
  destruct (offer_all slot sample l event' dropped') as [l' d']. cbn [fst] in *. by rewrite IH.
Qed.

(** ** The drain task (point_watch.rs) *)

(** How [write_all] ended; one that did not complete accepted [n] bytes. *)
Inductive Write := Written | Broken (n : nat) | Shutdown (n : nat).

Record outside := Outside { instant : nat → Z; connects : nat → bool; written : nat → Write }.

(** The log keeps, for each frame begun, its stream and the bytes accepted. *)
Record sent := Sent { on_stream : nat; of_event : PointWatchEvent; accepted : nat }.

Record drain := Drain {
  d_stream : option nat; d_next : nat; d_backoff : Z; d_last_attempt : option Z; d_dropped : Z;
  d_asked : nat; d_log : list sent }.

Definition MIN_BACKOFF : Z := 1000000000.
Definition MAX_BACKOFF : Z := 5000000000.

Section Drain.
Variable o : outside.

Definition ask {A} (f : nat → A) : st drain A := fun d =>
  (f (d_asked d), Drain (d_stream d) (d_next d) (d_backoff d) (d_last_attempt d) (d_dropped d) (S (d_asked d)) (d_log d)).
Definition emit (x : sent) : st drain unit := fun d =>
  (tt, Drain (d_stream d) (d_next d) (d_backoff d) (d_last_attempt d) (d_dropped d) (d_asked d) (d_log d ++ [x])).
Definition add_dropped (n : nat) : st drain unit := fun d =>
  (tt, Drain (d_stream d) (d_next d) (d_backoff d) (d_last_attempt d)
         (wrapping_add 64 (d_dropped d) (Z.of_nat n)) (d_asked d) (d_log d)).
Definition set_stream (s : option nat) (backoff : Z) (last : option Z) : st drain unit := fun d =>
  (tt, Drain s (d_next d) backoff last (d_dropped d) (d_asked d) (d_log d)).

(** [connect]: a new stream, or none. *)
Definition connect : st drain (option nat) := fun d =>
  let n := d_asked d in
  let ok := connects o n in
  (if ok then Some (d_next d) else None,
   Drain (d_stream d) (if ok then S (d_next d) else d_next d) (d_backoff d) (d_last_attempt d) (d_dropped d)
     (S n) (d_log d)).

Definition reconnect : st drain unit :=
  stream ← gets d_stream;
  match stream with
  | Some _ => mret tt
  | None =>
      last ← gets d_last_attempt;
      backoff ← gets d_backoff;
      now ← ask (instant o);
      if match last with None => true | Some a => backoff <=? now - a end then
        at_ ← ask (instant o);
        s ← connect;
        match s with
        | Some s => set_stream (Some s) MIN_BACKOFF None
        | None => set_stream None (Z.min (2 * backoff) MAX_BACKOFF) (Some at_)
        end
      else mret tt
  end.

(** The frames of one batch; [None] when the task was cancelled in a write. *)
Fixpoint write_batch (s : nat) (l : list PointWatchEvent) : st drain (option nat) :=
  match l with
  | [] => mret (Some O)
  | e :: l =>
      x ← ask (written o);
      match x with
      | Written =>
          _ ← emit (Sent s e SIZE);
          n ← write_batch s l;
          mret (S <$> n)
      | Broken k => _ ← emit (Sent s e (min k (SIZE - 1))); mret (Some O)
      | Shutdown k => _ ← emit (Sent s e (min k (SIZE - 1))); mret None
      end
  end.

(** One turn of the loop; [false] ends the task, which drops its stream. *)
Definition drain_batch (batch : list PointWatchEvent) : st drain bool :=
  _ ← reconnect;
  stream ← gets d_stream;
  match stream with
  | None => _ ← add_dropped (length batch); mret true
  | Some s =>
      n ← write_batch s batch;
      match n with
      | None => _ ← set_stream None MIN_BACKOFF None; mret false
      | Some delivered =>
          if negb (delivered =? length batch)%nat then
            _ ← add_dropped (length batch - delivered);
            now ← ask (instant o);
            _ ← set_stream None MIN_BACKOFF (Some now);
            mret true
          else mret true
      end
  end.

(** The task over the batches the queue yields, up to [MAX_BATCH] hints each. *)
Fixpoint drain_batches (l : list (list PointWatchEvent)) : st drain bool :=
  match l with
  | [] => mret true
  | b :: l => go ← drain_batch b; if go : bool then drain_batches l else mret false
  end.

Definition drain_target (l : list (list PointWatchEvent)) : st drain bool :=
  s ← connect;
  _ ← set_stream s MIN_BACKOFF None;
  drain_batches l.

Definition drain_start : drain := Drain None 0 MIN_BACKOFF None 0 0 [].

(** *** What reaches a stream *)

Definition on (s : nat) (d : drain) : list sent := filter (fun x => on_stream x = s) (d_log d).
Definition stream_bytes (s : nat) (d : drain) : list Z :=
  concat (map (fun x => take (accepted x) (to_bytes (of_event x))) (on s d)).
Definition whole (l : list sent) : list PointWatchEvent :=
  map of_event (filter (fun x => accepted x = SIZE) l).

(** Whole frames, then at most one fragment, then nothing. *)
Definition framed (open : bool) (l : list sent) : Prop :=
  ∃ fs frag, l = fs ++ frag ∧ Forall (fun x => accepted x = SIZE) fs ∧
    (frag = [] ∨ open = false ∧ ∃ x, frag = [x] ∧ (accepted x < SIZE)%nat).

Definition aligned (d : drain) : Prop :=
  (∀ s, framed (bool_decide (d_stream d = Some s)) (on s d)) ∧
  (∀ s, (d_next d ≤ s)%nat → on s d = []) ∧ (∀ s, d_stream d = Some s → (s < d_next d)%nat).

Lemma framed_bytes open l :
  framed open l → ∃ frag, concat (map (fun x => take (accepted x) (to_bytes (of_event x))) l) =
    concat (map to_bytes (whole l)) ++ frag ∧ (length frag < SIZE)%nat.
Proof.
  intros (fs & frag & -> & Hfs & Hfrag). rewrite map_app, concat_app. unfold whole. rewrite filter_app, map_app, map_app, concat_app.
  assert (concat (map (fun x => take (accepted x) (to_bytes (of_event x))) fs) =
          concat (map to_bytes (map of_event (filter (fun x => accepted x = SIZE) fs)))) as ->.
  { induction Hfs as [|x fs Hx _ IH]; [done|]. rewrite filter_cons, decide_True by done. cbn [map concat].
    by rewrite IH, Hx, firstn_all2. }
  destruct Hfrag as [->|(_ & x & -> & Hx)].
  - exists []. cbn [filter list_filter map concat]. rewrite !app_nil_r. split; [done|]. unfold SIZE. cbn. lia.
  - rewrite filter_cons, filter_nil, decide_False by lia. cbn [map concat app]. rewrite app_nil_r.
    rewrite app_nil_r. eexists. split; [done|]. rewrite length_take, event_bytes_length. lia.
Qed.

Lemma write_batch_spec s l d :
  let '(r, d') := write_batch s l d in
  ∃ n frag asked', d' = Drain (d_stream d) (d_next d) (d_backoff d) (d_last_attempt d) (d_dropped d) asked'
                          (d_log d ++ map (fun e => Sent s e SIZE) (take n l) ++ frag) ∧
    (frag = [] ∧ n = length l ∧ r = Some n ∨
     (∃ e k, frag = [Sent s e k] ∧ (k < SIZE)%nat) ∧ (n < length l)%nat ∧ (r = Some n ∨ r = None)).
Proof.
  revert d. induction l as [|e l IH]; intros d; cbn [write_batch].
  - exists 0%nat, [], (d_asked d). rewrite app_nil_r. split; [by destruct d|]. by left.
  - unfold mbind, st_bind. cbn [ask]. destruct (written o (d_asked d)) as [|k|k].
    + cbn [emit]. set (d1 := Drain _ _ _ _ _ _ _). specialize (IH d1). destruct (write_batch s l d1) as [r d'].
      destruct IH as (n & frag & asked' & -> & Hor). exists (S n), frag, asked'. cbn [d1 take map d_stream d_next
        d_backoff d_last_attempt d_dropped d_log]. split; [by rewrite <- app_assoc|].
      destruct Hor as [(-> & -> & ->)|(Hf & Hn & [->| ->])]; cbn; [by left|right..];
        (split_and!; [done|lia|auto]).
    + cbn [emit]. exists 0%nat, [Sent s e (min k (SIZE - 1))], (S (d_asked d)). cbn. split; [done|]. right.
      split_and!; [|lia|by left]. eexists _, _. split; [done|]. unfold SIZE. lia.
    + cbn [emit]. exists 0%nat, [Sent s e (min k (SIZE - 1))], (S (d_asked d)). cbn. split; [done|]. right.
      split_and!; [|lia|by right]. eexists _, _. split; [done|]. unfold SIZE. lia.
Qed.

Lemma whole_app l k : whole (l ++ k) = whole l ++ whole k.
Proof. unfold whole. by rewrite filter_app, map_app. Qed.

Lemma whole_frames s l : whole (map (fun e => Sent s e SIZE) l) = l.
Proof.
  unfold whole. induction l as [|e l IH]; [done|]. cbn [map]. rewrite filter_cons, decide_True by done. cbn. by rewrite IH.
Qed.

Lemma whole_fragment s e k : (k < SIZE)%nat → whole [Sent s e k] = [].
Proof. intros H. unfold whole. rewrite filter_cons, filter_nil, decide_False; [done|]. cbn. lia. Qed.

(** Appending to the open stream. *)
Lemma aligned_append s l frag d stream backoff last dropped asked' :
  aligned d → d_stream d = Some s →
  (frag = [] ∧ stream = Some s ∨ (∃ e k, frag = [Sent s e k] ∧ (k < SIZE)%nat) ∧ stream = None) →
  aligned (Drain stream (d_next d) backoff last dropped asked'
             (d_log d ++ map (fun e => Sent s e SIZE) l ++ frag)).
Proof.
  intros (Hf & Hn & Hs) Hd Hfrag. unfold aligned. cbn [d_stream d_next].
  assert (∀ s', on s' (Drain stream (d_next d) backoff last dropped asked'
             (d_log d ++ map (fun e => Sent s e SIZE) l ++ frag)) =
    on s' d ++ if decide (s' = s) then map (fun e => Sent s e SIZE) l ++ frag else []) as Hon.
  { intros s'. unfold on. cbn [d_log]. rewrite filter_app. f_equal.
    assert (Forall (fun x => on_stream x = s) (map (fun e => Sent s e SIZE) l ++ frag)) as Hall.
    { apply Forall_app. split; [by apply Forall_map, Forall_true|].
      destruct Hfrag as [[-> _]|[(e & k & -> & _) _]]; [done|by apply Forall_singleton]. }
    case_decide as Hss.
    - subst s'. clear - Hall. induction Hall as [|x xs Hx _ IH]; [done|]. rewrite filter_cons, decide_True by done.
      by rewrite IH.
    - clear - Hall Hss. induction Hall as [|x xs Hx _ IH]; [done|]. rewrite filter_cons, decide_False by congruence. done. }
  assert (d_stream d = Some s → (s < d_next d)%nat) as Hlt by auto. split_and!.
  - intros s'. rewrite Hon. specialize (Hf s'). destruct (decide (s' = s)) as [Hss|Hss].
    + subst s'. rewrite bool_decide_true in Hf by done. destruct Hf as (fs & fr & -> & Hfs & [->|[? _]]); [|done].
      rewrite app_nil_r. exists (fs ++ map (fun e => Sent s e SIZE) l), frag. rewrite <- app_assoc. split_and!; [done| |].
      * apply Forall_app. split; [done|by apply Forall_map, Forall_true].
      * destruct Hfrag as [[-> _]|[(e & k & -> & Hk) ->]]; [by left|]. right. split; [by apply bool_decide_false|]. eauto.
    + rewrite app_nil_r. rewrite (bool_decide_false (d_stream d = Some s')) in Hf by congruence.
      rewrite bool_decide_false; [done|]. destruct Hfrag as [[_ ->]|[_ ->]]; congruence.
  - intros s' Hle. rewrite Hon, Hn by done. rewrite decide_False; [done|]. specialize (Hlt Hd). lia.
  - intros s' ->. destruct Hfrag as [[_ [= ->]]|[_ ?]]; [auto|done].
Qed.

(** The books of the task: [taken] came off the queue. *)
Definition delivered (d : drain) : list PointWatchEvent := whole (d_log d).
Definition accounted (taken : list PointWatchEvent) (d : drain) : Prop :=
  delivered d `sublist_of` taken ∧
  d_dropped d = wrap 64 (Z.of_nat (length taken) - Z.of_nat (length (delivered d))).

Lemma reconnect_aligned d : aligned d →
  let d' := (reconnect d).2 in
  aligned d' ∧ d_log d' = d_log d ∧ d_dropped d' = d_dropped d.
Proof.
  intros Ha. pose proof Ha as (Hf & Hn & Hs). unfold reconnect, mbind, st_bind, gets. destruct (d_stream d) as [s|] eqn:E.
  { cbn. by split. }
  cbn [ask]. destruct (match d_last_attempt d with None => true | Some a => _ end); cbn [ask connect]; cycle 1.
  { cbn. split; [|done]. unfold aligned. cbn [d_stream d_next]. by rewrite E. }
  cbn [d_asked]. destruct (connects o (S (S (d_asked d)))); cbn; (split; [|done]).
  - split_and!; cbn [d_stream d_next].
    + intros s. change (on s _) with (on s d). specialize (Hf s). rewrite bool_decide_false in Hf by done.
      destruct (decide (s = d_next d)) as [->|Hne]; [|rewrite bool_decide_false; [done|congruence]].
      rewrite Hn by done. exists [], []. split_and!; [done|done|by left].
    + intros s Hle. change (on s _) with (on s d). apply Hn. lia.
    + intros s [= <-]. lia.
  - split_and!; cbn [d_stream d_next]; [|done|done]. intros s. by specialize (Hf s).
Qed.

Lemma drain_batch_spec taken b d :
  aligned d → accounted taken d →
  let '(go, d') := drain_batch b d in
  aligned d' ∧ delivered d' `sublist_of` taken ++ b ∧ (go = true → accounted (taken ++ b) d').
Proof.
  intros Ha [Hsub Hdr]. unfold drain_batch, mbind at 1, st_bind at 1.
  pose proof (reconnect_aligned d Ha) as (Ha1 & Hl1 & Hd1). destruct (reconnect d) as [u d1]. cbn [snd] in *.
  assert (delivered d1 = delivered d) as Hdel by (unfold delivered; by rewrite Hl1).
  rewrite <- Hdel in Hsub, Hdr. rewrite <- Hd1 in Hdr. clear Hdel Hl1 Hd1 Ha d u.
  unfold mbind at 1, st_bind at 1, gets at 1. destruct (d_stream d1) as [s|] eqn:E; cycle 1.
  { cbn. split_and!; [done|by apply sublist_inserts_r|]. intros _. split; [by apply sublist_inserts_r|].
    cbn [d_dropped]. change (delivered _) with (delivered d1). rewrite Hdr, length_app. unfold wrapping_add, wrap.
    rewrite Zplus_mod_idemp_l. f_equal. lia. }
  unfold mbind at 1, st_bind at 1. pose proof (write_batch_spec s b d1) as Hw. destruct (write_batch s b d1) as [r d2].
  destruct Hw as (n & frag & asked' & -> & Hor).
  set (log := d_log d1 ++ map (fun e => Sent s e SIZE) (take n b) ++ frag).
  assert (whole log = delivered d1 ++ take n b) as Hlog.
  { unfold log, delivered. rewrite !whole_app, whole_frames.
    destruct Hor as [(-> & _)|((e & k & -> & Hk) & _)]; [|rewrite whole_fragment by done]; by rewrite app_nil_r. }
  assert (whole log `sublist_of` taken ++ b) as Hsub2 by (rewrite Hlog; apply sublist_app; [done|apply sublist_take]).
  destruct Hor as [(-> & -> & ->)|(Hfrag & Hn & [->| ->])].
  - rewrite Nat.eqb_refl. cbn [negb mret st_ret]. split_and!.
    + rewrite E. apply (aligned_append s (take (length b) b) [] d1); [done|done|by left].
    + exact Hsub2.
    + intros _. split; [exact Hsub2|]. cbn [d_dropped]. unfold delivered. cbn [d_log]. fold log.
      rewrite Hlog, firstn_all, Hdr, !length_app. f_equal. lia.
  - assert ((n =? length b)%nat = false) as -> by (apply Nat.eqb_neq; lia). cbn.
    cbn [d_stream d_next d_backoff d_last_attempt d_dropped d_asked d_log]. split_and!.
    + apply (aligned_append s (take n b) frag d1); [done|done|by right].
    + exact Hsub2.
    + intros _. split; [exact Hsub2|]. cbn [d_dropped]. unfold delivered. cbn [d_log]. fold log.
      rewrite Hlog, Hdr, !length_app, length_take. unfold wrapping_add, wrap. rewrite Zplus_mod_idemp_l. f_equal. lia.
  - cbn. split_and!; [|exact Hsub2|done]. apply (aligned_append s (take n b) frag d1); [done|done|by right].
Qed.

Lemma drain_batches_spec taken l d :
  aligned d → accounted taken d →
  let '(go, d') := drain_batches l d in
  aligned d' ∧ delivered d' `sublist_of` taken ++ concat l ∧ (go = true → accounted (taken ++ concat l) d').
Proof.
  revert taken d. induction l as [|b l IH]; intros taken d Ha Hc; cbn [drain_batches concat].
  { rewrite app_nil_r. cbn. split_and!; [done|apply Hc|done]. }
  unfold mbind, st_bind. pose proof (drain_batch_spec taken b d Ha Hc) as Hb.
  destruct (drain_batch b d) as [[] d1]; destruct Hb as (Ha1 & Hs1 & Hc1).
  - specialize (IH (taken ++ b) d1 Ha1 (Hc1 eq_refl)). by rewrite app_assoc.
  - cbn. split_and!; [done| |done]. rewrite app_assoc. by apply sublist_inserts_r.
Qed.

Lemma elem_of_whole e l : e ∈ whole l ↔ ∃ x, x ∈ l ∧ of_event x = e ∧ accepted x = SIZE.
Proof.
  unfold whole. rewrite list_elem_of_fmap. split.
  - intros (x & -> & [Hx Hin]%list_elem_of_filter). eauto.
  - intros (x & Hin & <- & Hx). exists x. split; [done|]. by apply list_elem_of_filter.
Qed.

Lemma length_frames es : length (concat (map to_bytes es)) = (SIZE * length es)%nat.
Proof. induction es as [|e es IH]; [done|]. cbn [map concat]. rewrite length_app, IH, event_bytes_length. cbn [length]. lia. Qed.

(** C34. Hints are never garbled and never lost unnoticed.  Whatever connections and
    writes fail, a listener that reads any one stream to its end is handed
    exactly the hints whose frames were completely written there, in order; the
    delivered hints are those taken from the queue, in order and without
    repetition; and as long as the task runs the drop counter is the number of
    the others. *)
Theorem hints_delivered (l : list (list PointWatchEvent)) :
  Forall event_ok (concat l) →
  let '(go, d) := drain_target l drain_start in
  (∀ s fuel w, (length (stream_bytes s d) < fuel)%nat →
     consume_connection fuel (stream_bytes s d) w = send_all w (whole (on s d))) ∧
  delivered d `sublist_of` concat l ∧
  (go = true → d_dropped d = wrap 64 (Z.of_nat (length (concat l)) - Z.of_nat (length (delivered d)))).
Proof.
  intros Hok. unfold drain_target, mbind, st_bind. cbn [connect drain_start d_asked d_next].
  set (d0 := Drain _ _ _ _ _ _ _). cbn [set_stream]. set (d1 := Drain _ _ _ _ _ _ _).
  assert (aligned d1) as Ha.
  { unfold aligned, d1, d0. destruct (connects o 0); (split_and!; cbn [d_stream d_next];
      [intros s; exists [], []; split_and!; [done|done|by left]|done|]); [intros s [= <-]; lia|done]. }
  pose proof (drain_batches_spec [] l d1 Ha (conj (sublist_nil_l _) eq_refl)) as H.
  destruct (drain_batches l d1) as [go d]. destruct H as (Hal & Hsub & Hacc). cbn [app] in *.
  split_and!; [|done|by intros [_ ?]%Hacc]. intros s fuel w Hf.
  destruct Hal as [Hfr _]. destruct (framed_bytes _ _ (Hfr s)) as (frag & Hb & Hlen).
  fold (stream_bytes s d) in Hb. rewrite Hb in Hf |- *. apply consume_frames; [|done|].
  - apply Forall_forall. intros e (x & [_ Hx]%list_elem_of_filter & He & Hs)%elem_of_whole.
    rewrite Forall_forall in Hok. apply Hok. eapply elem_of_sublist; [|exact Hsub]. apply elem_of_whole. eauto.
  - rewrite length_app, length_frames in Hf. unfold SIZE in Hf. lia.
Qed.

End Drain.

(** ** A run: the first connection breaks in its second frame *)

Module Sample.

Definition hint (n : Z) : PointWatchEvent := Event 7 n n 0.
Definition flaky : outside :=
  Outside (fun n => 1000000000 * Z.of_nat n) (fun _ => true) (fun n => if (n =? 2)%nat then Broken 5 else Written).

Example hints_run :
  let '(go, d) := drain_target flaky [[hint 1; hint 2]; [hint 3]] drain_start in
  go = true ∧ delivered d = [hint 1; hint 3] ∧ d_dropped d = 1 ∧
  stream_bytes 0 d = to_bytes (hint 1) ++ take 5 (to_bytes (hint 2)) ∧
  consume_connection 100 (stream_bytes 0 d) (Listener [] 0) = Listener [hint 1] 0.
Proof. by vm_compute. Qed.

Lemma hints_delivered_witness :
  Forall event_ok (concat [[hint 1; hint 2]; [hint 3]]) ∧
  delivered (drain_target flaky [[hint 1; hint 2]; [hint 3]] drain_start).2 `sublist_of` [hint 1; hint 2; hint 3].
Proof.
  assert (Forall event_ok (concat [[hint 1; hint 2]; [hint 3]])) as Hok.
  { repeat apply Forall_cons_2; try apply Forall_nil_2; (split_and!; [done..|by eexists]). }
  split; [exact Hok|]. pose proof (hints_delivered flaky _ Hok) as H.
  destruct (drain_target flaky _ drain_start) as [go d]. exact (proj1 (proj2 H)).
Defined.

End Sample.
End PointWatch.
