(* ===== verification/Alarm.v ===== *)
(** * Alarm rules, alerts and the alarm monitor (services/alarm/src)

    models.rs, db.rs, notification.rs, monitor.rs and alarm_rule_mutation.rs of the
    alarm service, with the values of crates/aether-domain/src/alarm.rs and the
    port of crates/aether-ports/src/alarm.rs.  The three tables are lists of rows
    in the order of their identifiers, and a transaction is one function of the
    tables that commits or leaves them alone.  The monitor's checks run
    concurrently with each other and with the HTTP commands; between two of its
    database calls anything else may commit.  Clock, live values and storage
    failures answer from an arbitrary schedule. *)

From stdpp Require Import base tactics numbers list strings pretty relations.
From S2P Require Import Prelude State Float Domain Json Outbox Governance.
#[local] Open Scope Z_scope.

Module Alarm.
Import Float Domain.

(** ** Policy values (aether-domain/src/alarm.rs) *)

Inductive AlarmComparator :=
| GreaterThan | LessThan | GreaterThanOrEqual | LessThanOrEqual | Equal | NotEqual.

Definition as_str (c : AlarmComparator) : string :=
  match c with
  | GreaterThan => ">"
  | LessThan => "<"
  | GreaterThanOrEqual => ">="
  | LessThanOrEqual => "<="
  | Equal => "=="
  | NotEqual => "!="
  end.

Definition comparator_try_from (s : string) : res DomainError AlarmComparator :=
  if bool_decide (s = ">") then Ok GreaterThan
  else if bool_decide (s = "<") then Ok LessThan
  else if bool_decide (s = ">=") then Ok GreaterThanOrEqual
  else if bool_decide (s = "<=") then Ok LessThanOrEqual
  else if bool_decide (s = "==") then Ok Equal
  else if bool_decide (s = "!=") then Ok NotEqual
  else Err InvalidAlarmComparator.

Definition severity_new (value : Z) : res DomainError Z :=
  if (value <? 1) || (3 <? value) then Err InvalidAlarmSeverity else Ok value.

Inductive AlarmRuleTarget :=
| Point (service_type : string) (channel_id : Z) (data_type : string) (point_id : Z)
| ChannelOnline (channel_id : Z).

Definition is_blank (s : string) : bool := Governance.blank (Governance.utf8 s).

Definition target_point (service_type : string) (channel : Z) (data_type : string) (point : Z)
    : res DomainError AlarmRuleTarget :=
  if is_blank service_type || is_blank data_type then Err InvalidAlarmTarget
  else Ok (Point service_type channel data_type point).

Record AlarmRuleDefinition := Definition_ {
  ad_target : AlarmRuleTarget; ad_name : string; ad_severity : Z; ad_comparator : AlarmComparator;
  ad_threshold : f64; ad_enabled : bool; ad_description : option string }.

Definition definition_new (target : AlarmRuleTarget) (name : string) (severity : Z)
    (comparator : AlarmComparator) (threshold : f64) (enabled : bool) (description : option string)
    : res DomainError AlarmRuleDefinition :=
  if is_blank name then Err InvalidAlarmRuleName
  else if negb (is_finite threshold) then Err NonFiniteAlarmThreshold
  else Ok (Definition_ target name severity comparator threshold enabled description).

(** ** The mutation port (aether-ports/src/alarm.rs) *)

Record AlarmRulePatch := Patch {
  pt_target : option AlarmRuleTarget; pt_name : option string; pt_severity : option Z;
  pt_comparator : option AlarmComparator; pt_threshold : option f64; pt_enabled : option bool;
  pt_description : option (option string) }.

Definition patch_new (target : option AlarmRuleTarget) (name : option string) (severity : option Z)
    (comparator : option AlarmComparator) (threshold : option f64) (enabled : option bool)
    (description : option (option string)) : res DomainError AlarmRulePatch :=
  if match name with Some n => is_blank n | None => false end then Err InvalidAlarmRuleName
  else if match threshold with Some t => negb (is_finite t) | None => false end
  then Err NonFiniteAlarmThreshold
  else Ok (Patch target name severity comparator threshold enabled description).

Inductive AlarmRuleMutation :=
| Create (definition : AlarmRuleDefinition)
| Update (rule_id : Z) (patch : AlarmRulePatch)
| SetEnabled (rule_id : Z) (enabled : bool)
| Delete (rule_id : Z).

Inductive AlarmRuleMutationKind := KCreate | KUpdate | KEnable | KDisable | KDelete.

Definition mutation_kind (m : AlarmRuleMutation) : AlarmRuleMutationKind :=
  match m with
  | Create _ => KCreate
  | Update _ _ => KUpdate
  | SetEnabled _ true => KEnable
  | SetEnabled _ false => KDisable
  | Delete _ => KDelete
  end.

Record AlarmRuleMutationReceipt := Receipt { rc_rule_id : Z; rc_kind : AlarmRuleMutationKind }.
Record AlertResolutionReceipt := Resolution { rs_alert_id : Z; rs_rule_id : Z; rs_resolved_at : Z }.

(** ** Rows (models.rs) *)

Record AlertRule := Rule {
  rule_id : Z; service_type : string; channel_id : Z; data_type : string; point_id : Z;
  rule_name : string; warning_level : Z; operator : string; value : f64; enabled : bool;
  description : option string; created_at : Z; updated_at : Z }.

(** [1e-6] *)
Definition TOLERANCE : f64 := decimal false 1 (-6).

Definition evaluate (r : AlertRule) (current : f64) : bool :=
  let far := abs (sub current (value r)) in
  if bool_decide (operator r = ">") then ltb (value r) current
  else if bool_decide (operator r = "<") then ltb current (value r)
  else if bool_decide (operator r = ">=") then leb (value r) current
  else if bool_decide (operator r = "<=") then leb current (value r)
  else if bool_decide (operator r = "==") then ltb far TOLERANCE
  else if bool_decide (operator r = "!=") then leb TOLERANCE far
  else false.

Definition CHANNEL_ONLINE_DATA_TYPE : string := "online".
Definition is_channel_online_rule (r : AlertRule) : bool :=
  bool_decide (service_type r = "io") && bool_decide (data_type r = CHANNEL_ONLINE_DATA_TYPE).

Definition logical_key (r : AlertRule) : string :=
  if is_channel_online_rule r then "io:online"
  else service_type r +:+ ":" +:+ pretty (channel_id r) +:+ ":" +:+ data_type r.

(** The document of [snapshot], before it is printed. *)
Definition integer (n : Z) : Json.Value := Json.Num (if 0 <=? n then Json.PosInt n else Json.NegInt n).
Definition snapshot (r : AlertRule) : Json.Value :=
  Json.Obj [("rule_name", Json.Str (rule_name r));
            ("warning_level", integer (warning_level r));
            ("operator", Json.Str (operator r));
            ("value", if is_finite (value r) then Json.Num (Json.NFloat (value r)) else Json.Null);
            ("description", match description r with Some d => Json.Str d | None => Json.Null end)].

Record Alert := MkAlert {
  a_id : Z; a_rule_id : Z; a_rule_snapshot : Json.Value; a_service_type : string; a_channel_id : Z;
  a_data_type : string; a_point_id : Z; a_rule_name : string; a_warning_level : Z; a_operator : string;
  a_threshold_value : f64; a_current_value : f64; a_triggered_at : Z }.

Inductive EventType := Trigger | Recovery.
#[global] Instance EventType_eq_dec : EqDecision EventType.
Proof. solve_decision. Defined.

Record AlertEvent := Event {
  e_id : Z; e_rule_id : Z; e_rule_snapshot : Json.Value; e_service_type : string; e_channel_id : Z;
  e_data_type : string; e_point_id : Z; e_rule_name : string; e_warning_level : Z; e_operator : string;
  e_threshold_value : f64; e_trigger_value : option f64; e_recovery_value : option f64;
  e_event_type : EventType; e_triggered_at : option Z; e_recovered_at : option Z; e_duration : option Z }.

(** The tables and their [AUTOINCREMENT] counters.  The [status] column of an alert
    is always ['active'] and has no field. *)
Record db := Db {
  rules : list AlertRule; rule_seq : Z;
  alerts : list Alert; alert_seq : Z;
  events : list AlertEvent; event_seq : Z }.

(** The next identifier; an insertion fails once they are used up. *)
Definition autoincrement (seq : Z) : option Z := if seq <? 2 ^ 63 - 1 then Some (seq + 1) else None.

Definition event_of (id : Z) (a : Alert) (recovery : option f64) (ty : EventType)
    (recovered duration : option Z) : AlertEvent :=
  Event id (a_rule_id a) (a_rule_snapshot a) (a_service_type a) (a_channel_id a) (a_data_type a)
    (a_point_id a) (a_rule_name a) (a_warning_level a) (a_operator a) (a_threshold_value a)
    (Some (a_current_value a)) recovery ty (Some (a_triggered_at a)) recovered duration.

Definition trigger_event (a : Alert) (id : Z) : AlertEvent := event_of id a None Trigger None None.

(** [duration] is a difference of two clock readings, far inside [i64]. *)
Definition recovery_event (a : Alert) (recovery : option f64) (now id : Z) : AlertEvent :=
  event_of id a recovery Recovery (Some now) (Some (now - a_triggered_at a)).

Definition insert_event (e : Z → AlertEvent) (d : db) : option db :=
  id ← autoincrement (event_seq d);
  Some (Db (rules d) (rule_seq d) (alerts d) (alert_seq d) (events d ++ [e id]) id).

(** ** Statements (db.rs, alarm_rule_mutation.rs) *)

Definition delete_alert (id : Z) (d : db) : db :=
  Db (rules d) (rule_seq d) (filter (fun a => a_id a ≠ id) (alerts d)) (alert_seq d) (events d) (event_seq d).

Definition update_rules (f : list AlertRule → list AlertRule) (d : db) : db :=
  Db (f (rules d)) (rule_seq d) (alerts d) (alert_seq d) (events d) (event_seq d).

Definition alert_of (r : AlertRule) (current : f64) (now id : Z) : Alert :=
  MkAlert id (rule_id r) (snapshot r) (service_type r) (channel_id r) (data_type r) (point_id r)
    (rule_name r) (warning_level r) (operator r) (value r) current now.

(** [insert_alert]: the row and its trigger event, while the rule is enabled. *)
Definition insert_alert_tx (r : AlertRule) (current : f64) (now : Z) (d : db) : option (option Z * db) :=
  if existsb (fun x => (rule_id x =? rule_id r) && enabled x) (rules d) then
    id ← autoincrement (alert_seq d);
    let a := alert_of r current now id in
    d ← insert_event (trigger_event a)
          (Db (rules d) (rule_seq d) (alerts d ++ [a]) id (events d) (event_seq d));
    Some (Some id, d)
  else Some (None, d).

Definition update_alert_value_tx (id : Z) (current : f64) (d : db) : db :=
  let set a :=
    if a_id a =? id then
      MkAlert (a_id a) (a_rule_id a) (a_rule_snapshot a) (a_service_type a) (a_channel_id a)
        (a_data_type a) (a_point_id a) (a_rule_name a) (a_warning_level a) (a_operator a)
        (a_threshold_value a) current (a_triggered_at a)
    else a in
  Db (rules d) (rule_seq d) (map set (alerts d)) (alert_seq d) (events d) (event_seq d).

(** [resolve_alert]: the history row of the alert the caller read, then the deletion. *)
Definition resolve_alert_tx (a : Alert) (recovery : f64) (now : Z) (d : db) : option db :=
  d ← insert_event (recovery_event a (Some recovery) now) d;
  Some (delete_alert (a_id a) d).

Definition alerts_of (id : Z) (d : db) : list Alert := filter (fun a => a_rule_id a = id) (alerts d).

(** [resolve_alerts]: every active alert of a rule becomes history. *)
Fixpoint resolve_each (now : Z) (l : list Alert) (d : db) : option db :=
  match l with
  | [] => Some d
  | a :: l =>
      d ← insert_event (recovery_event a None now) d;
      resolve_each now l (delete_alert (a_id a) d)
  end.
Definition resolve_alerts (id now : Z) (d : db) : option (list Alert * db) :=
  d' ← resolve_each now (alerts_of id d) d;
  Some (alerts_of id d, d').

Record StoredTarget := Stored {
  st_service_type : string; st_channel_id : Z; st_data_type : string; st_point_id : Z }.
#[global] Instance StoredTarget_eq_dec : EqDecision StoredTarget.
Proof. solve_decision. Defined.

Definition from_domain (t : AlarmRuleTarget) : StoredTarget :=
  match t with
  | Point s c t p => Stored s c t p
  | ChannelOnline c => Stored "io" c CHANNEL_ONLINE_DATA_TYPE 0
  end.
Definition from_stored (r : AlertRule) : StoredTarget :=
  Stored (service_type r) (channel_id r) (data_type r) (point_id r).

Definition find_rule (id : Z) (d : db) : option AlertRule := head (filter (fun r => rule_id r = id) (rules d)).

(** SQLite's [LOWER] folds ASCII letters. *)
Definition others (excluding : option Z) (r : AlertRule) : bool :=
  match excluding with None => true | Some id => negb (rule_id r =? id) end.
Definition duplicate_name (name : string) (excluding : option Z) (d : db) : bool :=
  existsb (fun r => bool_decide (lowercase (rule_name r) = lowercase name) && others excluding r) (rules d).
Definition duplicate_target (t : StoredTarget) (excluding : option Z) (d : db) : bool :=
  existsb (fun r => bool_decide (from_stored r = t) && others excluding r) (rules d).

(** ** Notifications (notification.rs) *)

Record AlarmNotification := Notification {
  n_alert_id : Z; n_timestamp : Z; n_service_type : string; n_channel_id : Z; n_data_type : string;
  n_point_id : Z; n_warning_level : Z; n_status : Z; n_value : f64; n_message : string }.

Definition triggered (id : Z) (r : AlertRule) (current : f64) (now : Z) : AlarmNotification :=
  Notification id now (service_type r) (channel_id r) (data_type r) (point_id r) (warning_level r) 1 current
    (rule_name r +:+ ": " +:+ to_string current +:+ " " +:+ operator r +:+ " " +:+ to_string (value r)).

Definition recovered (id : Z) (r : AlertRule) (recovery : option f64) (reason : string) (now : Z)
    : AlarmNotification :=
  let '(message, v) :=
    match recovery with
    | Some v => (rule_name r +:+ " recovered: " +:+ to_string v +:+ " (no longer " +:+ operator r +:+ " "
                   +:+ to_string (value r) +:+ ")", v)
    | None => (rule_name r +:+ " recovered: " +:+ reason, zero)
    end in
  Notification id now (service_type r) (channel_id r) (data_type r) (point_id r) (warning_level r) 0 v message.

Record AlarmCounts := Counts { total : Z; low : Z; medium : Z; high : Z }.

Definition count_level (l : Z) (d : db) : Z :=
  Z.of_nat (length (filter (fun a => a_warning_level a = l) (alerts d))).
Definition by_level (total : Z) (d : db) : AlarmCounts :=
  Counts total (count_level 1 d) (count_level 2 d) (count_level 3 d).

(** ** The running service *)

Record outside := Outside {
  utc_now : nat → Z;
  live : nat → AlertRule → res Outbox.PortErrorKind (option (f64 * Z));
  storage : nat → bool }.

Inductive publication := PAlarm (n : AlarmNotification) | PCounts (c : AlarmCounts).

Record world := World { tables : db; asked : nat; published : list publication }.

Definition ask {A} (f : nat → A) : st world A := fun w =>
  (f (asked w), World (tables w) (S (asked w)) (published w)).
Definition publish (p : publication) : st world unit := fun w =>
  (tt, World (tables w) (asked w) (published w ++ [p])).

Section Service.
Variable o : outside.

(** A transaction: commits [f]'s tables, or rolls back on its error, on a full
    table or on a storage failure, which is [Err failure]. *)
Definition transaction {E A} (failure : E) (f : db → res E (A * db)) : st world (res E A) :=
  ok ← ask (storage o);
  if negb ok then mret (Err failure)
  else fun w =>
    match f (tables w) with
    | Ok (a, d) => (Ok a, World d (asked w) (published w))
    | Err e => (Err e, w)
    | Panic => (Panic, w)
    end.

Definition or_full {E A} (failure : E) (x : option A) : res E A :=
  match x with Some a => Ok a | None => Err failure end.

(** *** db.rs *)

Definition insert_alert (r : AlertRule) (current : f64) : st world (res unit (option Z)) :=
  now ← ask (utc_now o);
  transaction tt (fun d => or_full tt (insert_alert_tx r current now d)).
Definition update_alert_value (id : Z) (current : f64) : st world (res unit unit) :=
  transaction tt (fun d => Ok (tt, update_alert_value_tx id current d)).
Definition resolve_alert (a : Alert) (recovery : f64) : st world (res unit unit) :=
  now ← ask (utc_now o);
  transaction tt (fun d => or_full tt (d ← resolve_alert_tx a recovery now d; Some (tt, d))).
Definition get_alert_by_rule_id (id : Z) : st world (res unit (option Alert)) :=
  transaction tt (fun d => Ok (head (alerts_of id d), d)).
Definition get_all_enabled_rules : st world (res unit (list AlertRule)) :=
  transaction tt (fun d => Ok (filter (fun r => enabled r = true) (rules d), d)).

(** Two queries; either may fail. *)
Definition get_active_alarm_counts : st world (res unit AlarmCounts) :=
  total ←? transaction tt (fun d => Ok (Z.of_nat (length (alerts d)), d));
  transaction tt (fun d => Ok (by_level total d, d)).

Definition send_alarm_count_broadcast : st world unit :=
  c ← get_active_alarm_counts;
  match c with Ok c => publish (PCounts c) | _ => mret tt end.

(** *** monitor.rs: one check, cut at the points where other work can commit *)

Inductive task :=
| Reading (r : AlertRule)
| Looking (r : AlertRule) (current : f64)
| Deciding (r : AlertRule) (current : f64) (existing : option Alert)
| Notifying (r : AlertRule) (n : AlarmNotification)
| Finished (r : AlertRule).

Definition check_read (r : AlertRule) : st world task :=
  x ← ask (live o);
  match x r with
  | Ok (Some (v, _)) => mret (Looking r v)
  | _ => mret (Finished r)
  end.

Definition check_lookup (r : AlertRule) (current : f64) : st world task :=
  x ← get_alert_by_rule_id (rule_id r);
  match x with
  | Ok existing => mret (Deciding r current existing)
  | _ => mret (Finished r)
  end.

Definition check_write (r : AlertRule) (current : f64) (existing : option Alert) : st world task :=
  if evaluate r current then
    match existing with
    | Some a => _ ← update_alert_value (a_id a) current; mret (Finished r)
    | None =>
        x ← insert_alert r current;
        match x with
        | Ok (Some id) =>
            now ← ask (utc_now o);
            mret (Notifying r (triggered id r current now))
        | _ => mret (Finished r)
        end
    end
  else
    match existing with
    | Some a =>
        x ← resolve_alert a current;
        match x with
        | Ok _ =>
            now ← ask (utc_now o);
            mret (Notifying r (recovered (a_id a) r (Some current) "condition recovered" now))
        | _ => mret (Finished r)
        end
    | None => mret (Finished r)
    end.

Definition check_notify (r : AlertRule) (n : AlarmNotification) : st world task :=
  _ ← publish (PAlarm n);
  _ ← send_alarm_count_broadcast;
  mret (Finished r).

Definition check_step (t : task) : st world task :=
  match t with
  | Reading r => check_read r
  | Looking r v => check_lookup r v
  | Deciding r v a => check_write r v a
  | Notifying r n => check_notify r n
  | Finished r => mret (Finished r)
  end.

Definition check_single_rule (r : AlertRule) : st world unit :=
  t ← check_step (Reading r);
  t ← check_step t;
  t ← check_step t;
  _ ← check_step t;
  mret tt.

(** *** alarm_rule_mutation.rs *)

Definition not_found {A} (x : option A) : res Outbox.PortErrorKind A := or_full Outbox.NotFoundKind x.
Definition full {A} (x : option A) : res Outbox.PortErrorKind A := or_full Outbox.Unavailable x.

Definition reject_duplicates (name : string) (t : StoredTarget) (excluding : option Z) (d : db)
    : res Outbox.PortErrorKind unit :=
  if duplicate_name name excluding d then Err Outbox.Conflict
  else if duplicate_target t excluding d then Err Outbox.Conflict
  else Ok tt.

Definition sqlite_rule_id (id : Z) : res Outbox.PortErrorKind Z :=
  if id <=? 2 ^ 63 - 1 then Ok id else Err Outbox.InvalidData.
Definition sqlite_alert_id (id : Z) : res Outbox.PortErrorKind Z :=
  if id <=? 2 ^ 63 - 1 then Ok id else Err Outbox.InvalidData.
Definition alarm_rule_id (id : Z) : res Outbox.PortErrorKind Z :=
  if 0 <=? id then Ok id else Err Outbox.InvalidData.

Definition insert_rule (r : Z → AlertRule) (d : db) : option (Z * db) :=
  id ← autoincrement (rule_seq d);
  Some (id, Db (rules d ++ [r id]) id (alerts d) (alert_seq d) (events d) (event_seq d)).

(** The row of a definition. *)
Definition defined (x : AlarmRuleDefinition) (now id : Z) : AlertRule :=
  let t := from_domain (ad_target x) in
  Rule id (st_service_type t) (st_channel_id t) (st_data_type t) (st_point_id t) (ad_name x)
    (ad_severity x) (as_str (ad_comparator x)) (ad_threshold x) (ad_enabled x) (ad_description x) now now.

Definition create_tx (x : AlarmRuleDefinition) (now : Z) (d : db) : res Outbox.PortErrorKind (Z * db) :=
  let t := from_domain (ad_target x) in
  _ ← reject_duplicates (ad_name x) t None d;
  full (insert_rule (defined x now) d).

Definition create (x : AlarmRuleDefinition) : st world (res Outbox.PortErrorKind AlarmRuleMutationReceipt) :=
  now ← ask (utc_now o);
  id ←? transaction Outbox.Unavailable (create_tx x now);
  id ←? mret (alarm_rule_id id);
  mret (Ok (Receipt id KCreate)).

(** The row an update leaves. *)
Definition patched (p : AlarmRulePatch) (now : Z) (r : AlertRule) : AlertRule :=
  let t := match pt_target p with Some t => from_domain t | None => from_stored r end in
  Rule (rule_id r) (st_service_type t) (st_channel_id t) (st_data_type t) (st_point_id t)
    (default (rule_name r) (pt_name p)) (default (warning_level r) (pt_severity p))
    (match pt_comparator p with Some c => as_str c | None => operator r end)
    (default (value r) (pt_threshold p)) (default (enabled r) (pt_enabled p))
    (default (description r) (pt_description p)) (created_at r) now.

(** [UPDATE alert_rule ... WHERE id = ?] *)
Definition set_rule (id : Z) (f : AlertRule → AlertRule) (d : db) : db :=
  update_rules (map (fun r => if rule_id r =? id then f r else r)) d.

Definition resolve_unless (enabled : bool) (id now : Z) (d : db)
    : res Outbox.PortErrorKind (list Alert * db) :=
  if enabled then Ok ([], d) else full (resolve_alerts id now d).

Definition update_tx (id : Z) (p : AlarmRulePatch) (now : Z) (d : db)
    : res Outbox.PortErrorKind (AlertRule * list Alert * db) :=
  existing ← not_found (find_rule id d);
  let updated := patched p now existing in
  _ ← reject_duplicates (rule_name updated) (from_stored updated) (Some id) d;
  '(resolved, d) ← resolve_unless (enabled updated) id now (set_rule id (patched p now) d);
  Ok (updated, resolved, d).

Definition broadcast_resolved (r : AlertRule) (l : list Alert) (reason : string) : st world unit :=
  _ ← st_fold (fun _ a => now ← ask (utc_now o); publish (PAlarm (recovered (a_id a) r None reason now))) tt l;
  send_alarm_count_broadcast.

Definition broadcast_any (r : AlertRule) (l : list Alert) (reason : string) : st world unit :=
  match l with [] => mret tt | _ => broadcast_resolved r l reason end.

Definition update (rule_id : Z) (p : AlarmRulePatch)
    : st world (res Outbox.PortErrorKind AlarmRuleMutationReceipt) :=
  id ←? mret (sqlite_rule_id rule_id);
  now ← ask (utc_now o);
  x ←? transaction Outbox.Unavailable (update_tx id p now);
  let '(updated, resolved) := x in
  _ ← broadcast_any updated resolved "rule disabled";
  mret (Ok (Receipt rule_id KUpdate)).

Definition with_enabled (b : bool) (now : Z) (r : AlertRule) : AlertRule :=
  Rule (rule_id r) (service_type r) (channel_id r) (data_type r) (point_id r) (rule_name r)
    (warning_level r) (operator r) (value r) b (description r) (created_at r) now.

Definition set_enabled_tx (id : Z) (b : bool) (now : Z) (d : db)
    : res Outbox.PortErrorKind (AlertRule * list Alert * db) :=
  r ← not_found (find_rule id d);
  '(resolved, d) ← resolve_unless b id now (set_rule id (with_enabled b now) d);
  Ok (r, resolved, d).

Definition set_enabled (rule_id : Z) (b : bool)
    : st world (res Outbox.PortErrorKind AlarmRuleMutationReceipt) :=
  id ←? mret (sqlite_rule_id rule_id);
  now ← ask (utc_now o);
  x ←? transaction Outbox.Unavailable (set_enabled_tx id b now);
  let '(r, resolved) := x in
  _ ← broadcast_any (with_enabled b (updated_at r) r) resolved "rule disabled";
  mret (Ok (Receipt rule_id (if b then KEnable else KDisable))).

Definition delete_tx (id now : Z) (d : db) : res Outbox.PortErrorKind (AlertRule * list Alert * db) :=
  r ← not_found (find_rule id d);
  '(resolved, d) ← full (resolve_alerts id now d);
  Ok (r, resolved, update_rules (filter (fun r => rule_id r ≠ id)) d).

Definition delete (rule_id : Z) : st world (res Outbox.PortErrorKind AlarmRuleMutationReceipt) :=
  id ←? mret (sqlite_rule_id rule_id);
  now ← ask (utc_now o);
  x ←? transaction Outbox.Unavailable (delete_tx id now);
  let '(r, resolved) := x in
  _ ← broadcast_any r resolved "rule deleted";
  mret (Ok (Receipt rule_id KDelete)).

Definition mutate (m : AlarmRuleMutation) : st world (res Outbox.PortErrorKind AlarmRuleMutationReceipt) :=
  match m with
  | Create x => create x
  | Update id p => update id p
  | SetEnabled id b => set_enabled id b
  | Delete id => delete id
  end.

(** [resolve]: [DELETE ... RETURNING], then the history row. *)
Definition resolve_tx (id now : Z) (d : db) : res Outbox.PortErrorKind (Alert * db) :=
  a ← not_found (head (filter (fun a => a_id a = id) (alerts d)));
  full (d ← insert_event (recovery_event a (Some (a_current_value a)) now) (delete_alert id d); Some (a, d)).

Definition rule_of_alert (a : Alert) (now : Z) : AlertRule :=
  Rule (a_rule_id a) (a_service_type a) (a_channel_id a) (a_data_type a) (a_point_id a) (a_rule_name a)
    (a_warning_level a) (a_operator a) (a_threshold_value a) true None (a_triggered_at a) now.

Definition resolved_at_ms (seconds : Z) : res Outbox.PortErrorKind Z :=
  if (0 <=? seconds) && (seconds * 1000 <=? u_max 64) then Ok (seconds * 1000) else Err Outbox.InvalidData.

Definition resolve (alert_id : Z) : st world (res Outbox.PortErrorKind AlertResolutionReceipt) :=
  id ←? mret (sqlite_alert_id alert_id);
  now ← ask (utc_now o);
  a ←? transaction Outbox.Unavailable (resolve_tx id now);
  at_ ← ask (utc_now o);
  _ ← publish (PAlarm (recovered (a_id a) (rule_of_alert a now) (Some (a_current_value a))
                         "manually resolved" at_));
  _ ← send_alarm_count_broadcast;
  rule_id ←? mret (alarm_rule_id (a_rule_id a));
  at_ms ←? mret (resolved_at_ms now);
  mret (Ok (Resolution alert_id rule_id at_ms)).

(** ** Interleaving *)

Record system := System { now_ : world; checks : list task }.

Inductive command := CMutate (m : AlarmRuleMutation) | CResolve (alert_id : Z).
Definition run_command (c : command) (w : world) : world :=
  match c with CMutate m => (mutate m w).2 | CResolve id => (resolve id w).2 end.

(** The monitor starts a round (a tick over all enabled rules, or the ones a
    point-watch event names) when the previous round is over; a check proceeds;
    a command of the HTTP interface runs; counts are broadcast. *)
Inductive step : system → system → Prop :=
| step_round w l l' w' (named : AlertRule → bool) :
    Forall (fun t => ∃ r, t = Finished r) l →
    get_all_enabled_rules w = (Ok l', w') →
    step (System w l) (System w' (map Reading (filter named l')))
| step_check w l1 t l2 t' w' :
    check_step t w = (t', w') →
    step (System w (l1 ++ t :: l2)) (System w' (l1 ++ t' :: l2))
| step_command w l c :
    step (System w l) (System (run_command c w) l)
| step_broadcast w l :
    step (System w l) (System (send_alarm_count_broadcast w).2 l).

Definition empty_db : db := Db [] 0 [] 0 [] 0.
Definition start : system := System (World empty_db 0 []) [].
Definition reachable (s : system) : Prop := rtc step start s.

(** ** What the tables always satisfy *)

Definition history (ty : EventType) (id : Z) (l : list AlertEvent) : list AlertEvent :=
  filter (fun e => e_event_type e = ty ∧ e_rule_id e = id) l.

(** The trigger row an active alert was inserted with. *)
Definition recorded (a : Alert) (e : AlertEvent) : Prop :=
  e_event_type e = Trigger ∧ e_rule_id e = a_rule_id a ∧ e_rule_snapshot e = a_rule_snapshot a ∧
  e_triggered_at e = Some (a_triggered_at a).

Record good (d : db) : Prop := Good {
  good_rule_seq : 0 ≤ rule_seq d;
  good_rule_ids : NoDup (map rule_id (rules d)) ∧ Forall (fun r => rule_id r ≤ rule_seq d) (rules d);
  good_names : NoDup (map (fun r => lowercase (rule_name r)) (rules d));
  good_targets : NoDup (map from_stored (rules d));
  good_alerts : NoDup (map a_rule_id (alerts d));
  good_alert_ids : NoDup (map a_id (alerts d)) ∧ Forall (fun a => a_id a ≤ alert_seq d) (alerts d);
  good_enabled : ∀ a, a ∈ alerts d → ∃ r, r ∈ rules d ∧ rule_id r = a_rule_id a ∧ enabled r = true;
  good_recorded : ∀ a, a ∈ alerts d → ∃ e, e ∈ events d ∧ recorded a e;
  good_episodes : ∀ id, (length (history Trigger id (events d)) ≤
    length (history Recovery id (events d)) + length (alerts_of id d))%nat }.

(** From [d] to [d'] an alert is kept or deleted, and a new one, with a new
    identifier, belongs to a rule in [P]. *)
Definition evolves (P : Z → Prop) (d d' : db) : Prop :=
  alert_seq d ≤ alert_seq d' ∧
  ∀ b, b ∈ alerts d' →
    (∃ a, a ∈ alerts d ∧ a_id a = a_id b ∧ a_rule_id a = a_rule_id b) ∨
    (alert_seq d < a_id b ∧ P (a_rule_id b)).

Lemma evolves_refl P d : evolves P d d.
Proof. split; [lia|]. eauto. Qed.

Lemma evolves_trans P d1 d2 d3 : evolves P d1 d2 → evolves P d2 d3 → evolves P d1 d3.
Proof.
  intros [Hs1 H1] [Hs2 H2]. split; [lia|]. intros b [(a & Ha & Hi & Hr)|[Hi HP]]%H2; [|right; split; [lia|done]].
  apply H1 in Ha as [(a0 & ? & ? & ?)|[??]]; [left; exists a0; split_and!; congruence|].
  right. rewrite <- Hi, <- Hr. done.
Qed.

Lemma evolves_weaken P d d' : evolves (fun _ => False) d d' → evolves P d d'.
Proof. intros [Hs H]. split; [done|]. intros b [?|[_ []]]%H. by left. Qed.

(** *** Lists with distinct keys *)

Lemma NoDup_map_filter {A B} (f : A → B) (P : A → Prop) `{∀ x, Decision (P x)} l :
  NoDup (map f l) → NoDup (map f (filter P l)).
Proof.
  intros Hl. induction l as [|x l IH]; [done|]. cbn in Hl. apply NoDup_cons in Hl as [Hx Hl]. rewrite filter_cons.
  case_decide; [|auto]. cbn. apply NoDup_cons. split; [|auto]. intros (y & Hy & [_ Hin]%list_elem_of_filter)%list_elem_of_fmap.
  apply Hx, list_elem_of_fmap. eauto.
Qed.

Lemma NoDup_map_snoc {A B} (f : A → B) l x : NoDup (map f l) → f x ∉ map f l → NoDup (map f (l ++ [x])).
Proof. intros Hl Hx. rewrite map_app. apply NoDup_app. split_and!; [done| |apply NoDup_singleton].
  intros y Hy ->%list_elem_of_singleton. done.
Qed.

Lemma map_key_inj {A B} (f : A → B) l x y : NoDup (map f l) → x ∈ l → y ∈ l → f x = f y → x = y.
Proof.
  intros Hl. induction l as [|z l IH]; [by intros ?%elem_of_nil|]. cbn in Hl. apply NoDup_cons in Hl as [Hz Hl].
  intros [->|Hx]%elem_of_cons [->|Hy]%elem_of_cons Hf; [done|..|auto]; exfalso; apply Hz, list_elem_of_fmap; eauto.
Qed.

(** Replacing the element with one identifier. *)
Lemma NoDup_map_set {A B} (id : A → Z) (f : A → B) (g : A → A) k l :
  (∀ x, id (g x) = id x) → NoDup (map id l) → NoDup (map f l) →
  (∀ x y, x ∈ l → id x = k → y ∈ l → id y ≠ k → f y ≠ f (g x)) →
  NoDup (map f (map (fun x => if id x =? k then g x else x) l)).
Proof.
  intros Hid Hi Hf. induction l as [|x l IH]; intros Hno; [done|]. cbn in *.
  apply NoDup_cons in Hi as [Hxi Hi], Hf as [Hxf Hf]. apply NoDup_cons. split; [|apply IH; auto; set_solver].
  intros (y & Hy & (z & -> & Hz)%list_elem_of_fmap)%list_elem_of_fmap.
  case (Z.eqb_spec (id x) k) as [Hx|Hx] in Hy; case (Z.eqb_spec (id z) k) as [Hk|Hk] in Hy.
  - apply Hxi, list_elem_of_fmap. exists z. split; [congruence|done].
  - eapply (Hno x z); [set_solver|done|set_solver|done|done].
  - eapply (Hno z x); [set_solver|done|set_solver|done|done].
  - apply Hxf, list_elem_of_fmap. eauto.
Qed.

Lemma filter_ext_in {A} (P Q : A → Prop) `{∀ x, Decision (P x)} `{∀ x, Decision (Q x)} (l : list A) :
  (∀ x, x ∈ l → P x ↔ Q x) → filter P l = filter Q l.
Proof.
  induction l as [|x l IH]; intros Hl; [done|]. rewrite !filter_cons, IH by set_solver.
  assert (P x ↔ Q x) by set_solver. repeat case_decide; naive_solver.
Qed.

Lemma alerts_of_elem id d a : a ∈ alerts_of id d ↔ a_rule_id a = id ∧ a ∈ alerts d.
Proof. unfold alerts_of. by rewrite list_elem_of_filter. Qed.

Lemma alerts_of_nil id d : alerts_of id d = [] ↔ ∀ a, a ∈ alerts d → a_rule_id a ≠ id.
Proof.
  split.
  - intros H a Ha Hr. assert (a ∈ alerts_of id d) as Hin by by apply alerts_of_elem. rewrite H in Hin. set_solver.
  - intros H. destruct (alerts_of id d) as [|a l] eqn:E; [done|].
    assert (a ∈ alerts_of id d) as [Hr Ha]%alerts_of_elem by (rewrite E; left). by destruct (H a Ha).
Qed.

Lemma alerts_of_single id d : good d → (length (alerts_of id d) ≤ 1)%nat.
Proof.
  intros Hd. pose proof (NoDup_map_filter a_rule_id (fun a => a_rule_id a = id) _ (good_alerts d Hd)) as Hn.
  fold (alerts_of id d) in Hn. destruct (alerts_of id d) as [|a [|b l]] eqn:E; cbn; try lia. exfalso.
  assert (a ∈ alerts_of id d ∧ b ∈ alerts_of id d) as [[Ha _]%alerts_of_elem [Hb _]%alerts_of_elem]
    by (rewrite E; set_solver).
  cbn in Hn. apply NoDup_cons in Hn as [Hn _]. apply Hn. rewrite Ha, Hb. left.
Qed.

Lemma history_snoc ty id l e :
  history ty id (l ++ [e]) = history ty id l ++ (if decide (e_event_type e = ty ∧ e_rule_id e = id) then [e] else []).
Proof. unfold history. by rewrite filter_app, filter_cons, filter_nil. Qed.

(** *** Transactions keep the tables good *)

(** An alert [a], current or read some time ago, names at most its own row. *)
Definition names_own (a : Alert) (d : db) : Prop :=
  ∀ b, b ∈ alerts d → a_id b = a_id a → a_rule_id b = a_rule_id a.

Lemma names_own_elem a d : good d → a ∈ alerts d → names_own a d.
Proof. intros Hd Ha b Hb Hi. by rewrite (map_key_inj a_id (alerts d) b a) by (done || apply Hd). Qed.

Lemma alerts_of_delete id a d :
  good d → names_own a d →
  (length (alerts_of id d) ≤ length (alerts_of id (delete_alert (a_id a) d)) +
     if decide (id = a_rule_id a) then 1 else 0)%nat.
Proof.
  intros Hd Ha. case_decide as Hi; [pose proof (alerts_of_single id d Hd); lia|].
  unfold alerts_of, delete_alert. cbn [alerts]. rewrite list_filter_filter, Nat.add_0_r.
  rewrite (filter_ext_in _ (fun b => a_rule_id b = id ∧ a_id b ≠ a_id a)); [done|].
  intros b Hb. split; [|naive_solver]. intros Hr. split; [done|]. intros ?%Ha; [congruence|done].
Qed.

(** A recovery row and the deletion of the alert it is of. *)
Lemma good_resolve a recovery now id d :
  good d → names_own a d →
  good (Db (rules d) (rule_seq d) (filter (fun b => a_id b ≠ a_id a) (alerts d)) (alert_seq d)
          (events d ++ [recovery_event a recovery now id]) id).
Proof.
  intros Hd Ha. pose proof (fun i => alerts_of_delete i a d Hd Ha) as Hdel. destruct Hd as [? ? ? ? Hr [Hi Hs] He Hrec Hep].
  constructor; cbn [rules rule_seq alerts alert_seq events event_seq]; try done.
  - by apply NoDup_map_filter.
  - split; [by apply NoDup_map_filter|]. apply Forall_forall. intros b [_ Hb]%list_elem_of_filter. rewrite Forall_forall in Hs. auto.
  - intros b [_ Hb]%list_elem_of_filter. auto.
  - intros b [_ (e & ? & ?)%Hrec]%list_elem_of_filter. exists e. split; [|done]. apply elem_of_app. by left.
  - intros i. rewrite !history_snoc, !length_app. specialize (Hep i). specialize (Hdel i).
    change (alerts_of i (delete_alert (a_id a) d)) with (filter (fun b => a_rule_id b = i) (filter (fun b => a_id b ≠ a_id a) (alerts d))) in Hdel.
    unfold alerts_of at 1. cbn [alerts]. repeat case_decide; cbn in *; naive_solver lia.
Qed.

Lemma evolves_delete P x d d' :
  alerts d' = filter (fun b => a_id b ≠ x) (alerts d) → alert_seq d' = alert_seq d → evolves P d d'.
Proof. intros Ha Hs. split; [lia|]. rewrite Ha. intros b [_ Hb]%list_elem_of_filter. left. eauto. Qed.

Lemma resolve_alert_tx_good P a recovery now d d' :
  resolve_alert_tx a recovery now d = Some d' → good d → names_own a d → good d' ∧ evolves P d d'.
Proof.
  unfold resolve_alert_tx, insert_event. destruct (autoincrement (event_seq d)) as [id|]; [|done]. intros [= <-] Hd Ha.
  split; [exact (good_resolve a _ now id d Hd Ha)|]. by eapply evolves_delete.
Qed.

Lemma resolve_each_good P now l d d' :
  resolve_each now l d = Some d' → good d → Forall (fun a => names_own a d) l →
  good d' ∧ evolves P d d' ∧ rules d' = rules d ∧ rule_seq d' = rule_seq d ∧
  (∀ b, b ∈ alerts d' → b ∈ alerts d ∧ a_id b ∉ map a_id l).
Proof.
  revert d. induction l as [|a l IH]; intros d.
  { intros [= <-] Hd _. split_and!; [done|apply evolves_refl|done|done|]. intros b Hb. split; [done|by intros ?%elem_of_nil]. }
  cbn [resolve_each]. unfold insert_event. destruct (autoincrement (event_seq d)) as [id|]; [|done].
  cbn [mbind option_bind]. intros Hr Hd [Ha Hl]%Forall_cons. apply IH in Hr as (Hg & He & Hru & Hse & Hal).
  - split_and!; [done| |done|done|].
    + eapply evolves_trans; [|exact He]. by eapply evolves_delete.
    + intros b Hb. apply Hal in Hb as [[Hi Hb]%list_elem_of_filter Hn]. split; [done|]. cbn. by apply not_elem_of_cons.
  - exact (good_resolve a None now id d Hd Ha).
  - eapply Forall_impl; [exact Hl|]. intros a' Ha' b [_ Hb]%list_elem_of_filter. auto.
Qed.

Lemma resolve_alerts_good P id now d l d' :
  resolve_alerts id now d = Some (l, d') → good d →
  good d' ∧ evolves P d d' ∧ rules d' = rules d ∧ rule_seq d' = rule_seq d ∧ l = alerts_of id d ∧
  alerts_of id d' = [].
Proof.
  unfold resolve_alerts. destruct (resolve_each now (alerts_of id d) d) as [d1|] eqn:Hr; [|done]. intros [= <- <-] Hd.
  apply (resolve_each_good P) in Hr as (Hg & He & Hru & Hse & Hal); [|done|].
  - split_and!; try done. apply alerts_of_nil. intros a [Ha Hn]%Hal Hi. apply Hn, list_elem_of_fmap.
    exists a. split; [done|]. by apply alerts_of_elem.
  - apply Forall_forall. intros a [_ Ha]%alerts_of_elem. by apply names_own_elem.
Qed.

Lemma insert_alert_tx_good r current now d x d' :
  insert_alert_tx r current now d = Some (x, d') → good d → alerts_of (rule_id r) d = [] →
  good d' ∧ evolves (eq (rule_id r)) d d'.
Proof.
  unfold insert_alert_tx. destruct (existsb _ (rules d)) eqn:Hex; cycle 1.
  { intros [= _ <-] ??. split; [done|apply evolves_refl]. }
  unfold autoincrement at 1. case (Z.ltb_spec (alert_seq d) (2 ^ 63 - 1)) as [Hs|]; [|done]. cbn [mbind option_bind].
  set (a := alert_of r current now _). unfold insert_event. cbn [event_seq].
  destruct (autoincrement (event_seq d)) as [eid|]; [|done]. intros [= _ <-] Hd Hno.
  rewrite alerts_of_nil in Hno. apply existsb_exists in Hex as (x0 & Hx & [Hid Hen]%andb_prop).
  apply list_elem_of_In in Hx. destruct Hd as [? ? ? ? Hr [Hi Hsq] He Hrec Hep]. split; [|split].
  - constructor; cbn [rules rule_seq alerts alert_seq events event_seq]; try done.
    + apply NoDup_map_snoc; [done|]. intros (b & Hb & Hin)%list_elem_of_fmap. by apply (Hno b).
    + rewrite Forall_forall in Hsq. split.
      * apply NoDup_map_snoc; [done|]. intros (b & Hb & Hin%Hsq)%list_elem_of_fmap. cbn in Hb. lia.
      * apply Forall_app. split; [apply Forall_forall; intros b Hb%Hsq; lia|]. apply Forall_singleton. cbn. lia.
    + intros b [Hb| ->%list_elem_of_singleton]%elem_of_app; [auto|]. exists x0. split_and!; [done| |done]. cbn. lia.
    + intros b [(e & ? & ?)%Hrec| ->%list_elem_of_singleton]%elem_of_app.
      * exists e. split; [apply elem_of_app; by left|done].
      * eexists. split; [apply elem_of_app; right; by left|]. done.
    + intros i. specialize (Hep i). rewrite !history_snoc, !length_app. unfold alerts_of in *. cbn [alerts].
      rewrite filter_app, length_app, filter_cons, filter_nil.
      change (a_rule_id a) with (rule_id r).
      change (e_rule_id (trigger_event a eid)) with (rule_id r).
      change (e_event_type (trigger_event a eid)) with Trigger.
      repeat case_decide; cbn [length]; naive_solver lia.
  - cbn. lia.
  - intros b [Hb| ->%list_elem_of_singleton]%elem_of_app; [left; eauto|right; cbn; split; [lia|done]].
Qed.

Lemma update_alert_value_good P id current d :
  good d → good (update_alert_value_tx id current d) ∧ evolves P d (update_alert_value_tx id current d).
Proof.
  intros Hd. set (d' := update_alert_value_tx id current d).
  assert (∀ b, b ∈ alerts d' → ∃ a, a ∈ alerts d ∧ a_id a = a_id b ∧ a_rule_id a = a_rule_id b ∧
    a_rule_snapshot a = a_rule_snapshot b ∧ a_triggered_at a = a_triggered_at b) as Hb.
  { intros b (a & -> & Ha)%list_elem_of_fmap. exists a. by case_match. }
  assert (∀ B (f : Alert → B), (∀ a c, f (MkAlert (a_id a) (a_rule_id a) (a_rule_snapshot a) (a_service_type a)
     (a_channel_id a) (a_data_type a) (a_point_id a) (a_rule_name a) (a_warning_level a) (a_operator a)
     (a_threshold_value a) c (a_triggered_at a)) = f a) → map f (alerts d') = map f (alerts d)) as Hm.
  { intros B f Hf. cbn. rewrite map_map. apply map_ext. intros a. by case_match. }
  destruct Hd as [? ? ? ? Hr [Hi Hs] He Hrec Hep]. split.
  - constructor; try done.
    + by rewrite Hm.
    + split; [by rewrite Hm|]. apply Forall_forall. intros b (a & Ha & Hia & _)%Hb. rewrite <- Hia.
      rewrite Forall_forall in Hs. auto.
    + intros b (a & Ha & _ & Hra & _)%Hb. rewrite <- Hra. auto.
    + intros b (a & (e & Hin & Hx)%Hrec & _ & Hra & Hsn & Ht)%Hb. exists e. split; [done|].
      unfold recorded in *. by rewrite <- Hra, <- Hsn, <- Ht.
    + intros i. specialize (Hep i). enough (length (alerts_of i d') = length (alerts_of i d)) as -> by done.
      unfold alerts_of. cbn. clear. induction (alerts d) as [|a l IH]; [done|]. cbn [map]. rewrite !filter_cons.
      repeat case_decide; repeat case_match; cbn in *; congruence.
  - split; [done|]. intros b (a & Ha & Hia & Hra & _)%Hb. left. eauto.
Qed.

(** The rules change while no alert needs what they lose. *)
Lemma good_update_rules f seq d :
  good d → rule_seq d ≤ seq →
  NoDup (map rule_id (f (rules d))) → Forall (fun r => rule_id r ≤ seq) (f (rules d)) →
  NoDup (map (fun r => lowercase (rule_name r)) (f (rules d))) → NoDup (map from_stored (f (rules d))) →
  (∀ a r, a ∈ alerts d → r ∈ rules d → rule_id r = a_rule_id a → enabled r = true →
     ∃ r', r' ∈ f (rules d) ∧ rule_id r' = rule_id r ∧ enabled r' = true) →
  good (Db (f (rules d)) seq (alerts d) (alert_seq d) (events d) (event_seq d)).
Proof.
  intros [? ? ? ? Hr Hi He Hrec Hep] Hs H1 H2 H3 H4 H5. constructor; cbn; try done; [lia|].
  intros a Ha. destruct (He a Ha) as (r & Hin & Hid & Hen). destruct (H5 a r Ha Hin Hid Hen) as (r' & ? & ? & ?).
  exists r'. split_and!; congruence.
Qed.

Lemma find_rule_Some id d r : good d → find_rule id d = Some r →
  r ∈ rules d ∧ rule_id r = id ∧ ∀ x, x ∈ rules d → rule_id x = id → x = r.
Proof.
  intros Hd Hf. apply head_Some_elem_of in Hf. apply list_elem_of_filter in Hf as [Hi Hr]. split_and!; [done..|].
  intros x Hx Hxi. apply (map_key_inj rule_id (rules d)); [apply Hd|done|done|congruence].
Qed.

Lemma good_set_rule id g d r :
  good d → find_rule id d = Some r → (∀ x, rule_id (g x) = rule_id x) →
  (∀ y, y ∈ rules d → rule_id y ≠ id →
     lowercase (rule_name y) ≠ lowercase (rule_name (g r)) ∧ from_stored y ≠ from_stored (g r)) →
  (enabled (g r) = true ∨ alerts_of id d = []) →
  good (set_rule id g d).
Proof.
  intros Hd (Hr & Hid & Huniq)%find_rule_Some Hg Hno Hen; [|done].
  pose proof (good_rule_ids d Hd) as [Hi Hs].
  apply (good_update_rules (map (fun x => if rule_id x =? id then g x else x))); [done|lia|..].
  - apply NoDup_map_set; [done..|]. intros x y _ Hx _ Hy. rewrite Hg. congruence.
  - rewrite Forall_forall in Hs. apply Forall_forall. intros y (x & -> & Hx%Hs)%list_elem_of_fmap.
    case_match; [rewrite Hg|]; done.
  - apply (NoDup_map_set rule_id); [done..|apply Hd|]. intros x y Hx Hxi Hy Hyi.
    rewrite (Huniq x Hx Hxi). by apply Hno.
  - apply (NoDup_map_set rule_id); [done..|apply Hd|]. intros x y Hx Hxi Hy Hyi.
    rewrite (Huniq x Hx Hxi). by apply Hno.
  - intros a x Ha Hx Hxa Hxe. exists (if rule_id x =? id then g x else x).
    split_and!; [apply list_elem_of_fmap; eauto|by case_match; rewrite ?Hg|].
    case (Z.eqb_spec (rule_id x) id) as [Hxi|]; [|done]. rewrite (Huniq x Hx Hxi). destruct Hen as [?|Hal]; [done|].
    rewrite alerts_of_nil in Hal. destruct (Hal a Ha). congruence.
Qed.

Lemma reject_duplicates_Ok name t id d : reject_duplicates name t (Some id) d = Ok tt →
  ∀ y, y ∈ rules d → rule_id y ≠ id → lowercase (rule_name y) ≠ lowercase name ∧ from_stored y ≠ t.
Proof.
  unfold reject_duplicates, duplicate_name, duplicate_target.
  destruct (existsb _ _) eqn:H1; [done|]. destruct (existsb _ _) eqn:H2 in |- *; [done|]. intros _ y Hy Hi.
  apply list_elem_of_In in Hy.
  split; intros E; [assert (true = false) as ?; [|done]; rewrite <- H1|assert (true = false) as ?; [|done]; rewrite <- H2];
    symmetry; apply existsb_exists; exists y; (split; [done|]); cbn; rewrite bool_decide_true by done;
    case (Z.eqb_spec (rule_id y) id); done.
Qed.

Lemma reject_duplicates_new name t d : reject_duplicates name t None d = Ok tt →
  lowercase name ∉ map (fun r => lowercase (rule_name r)) (rules d) ∧ t ∉ map from_stored (rules d).
Proof.
  unfold reject_duplicates, duplicate_name, duplicate_target.
  destruct (existsb _ _) eqn:H1; [done|]. destruct (existsb _ _) eqn:H2 in |- *; [done|]. intros _.
  split; intros (y & E & Hy%list_elem_of_In)%list_elem_of_fmap;
    [assert (true = false) as ?; [|done]; rewrite <- H1|assert (true = false) as ?; [|done]; rewrite <- H2];
    symmetry; apply existsb_exists; exists y; (split; [done|]); cbn; by rewrite bool_decide_true.
Qed.

(** Resolution does not look at the rules. *)
Lemma resolve_each_rules f now l d :
  resolve_each now l (update_rules f d) = update_rules f <$> resolve_each now l d.
Proof.
  revert d. induction l as [|a l IH]; intros d; [done|]. cbn [resolve_each]. unfold insert_event. cbn [event_seq update_rules].
  destruct (autoincrement (event_seq d)) as [id|]; [|done]. cbn [mbind option_bind]. by rewrite <- IH.
Qed.

Lemma resolve_unless_set b id g now d r l d' :
  good d → find_rule id d = Some r → (∀ x, rule_id (g x) = rule_id x) → enabled (g r) = b →
  (∀ y, y ∈ rules d → rule_id y ≠ id →
     lowercase (rule_name y) ≠ lowercase (rule_name (g r)) ∧ from_stored y ≠ from_stored (g r)) →
  resolve_unless b id now (set_rule id g d) = Ok (l, d') →
  good d' ∧ evolves (fun _ => False) d d' ∧ rules d' = rules (set_rule id g d) ∧
  (b = false → l = alerts_of id d ∧ alerts_of id d' = []) ∧ (b = true → l = [] ∧ alerts d' = alerts d).
Proof.
  intros Hd Hf Hg Hb Hno. unfold resolve_unless. destruct b.
  { intros [= <- <-]. split_and!; try done; [|by split; [|eauto]]. apply (good_set_rule id g d r); auto. }
  unfold resolve_alerts, set_rule. rewrite resolve_each_rules. set (f := map _).
  change (alerts_of id (update_rules f d)) with (alerts_of id d).
  destruct (resolve_each now (alerts_of id d) d) as [d1|] eqn:Hr; [|done]. intros [= <- <-].
  assert (resolve_alerts id now d = Some (alerts_of id d, d1)) as Hx by (unfold resolve_alerts; by rewrite Hr).
  apply (resolve_alerts_good (fun _ => False)) in Hx as (Hg1 & He & Hru & Hse & _ & Hal); [|done].
  split_and!; [|exact He|cbn; by rewrite Hru|done|done].
  apply (good_set_rule id g d1 r); [done|unfold find_rule in *; by rewrite Hru|done|by rewrite Hru|by right].
Qed.

Lemma create_tx_good x now d id d' :
  create_tx x now d = Ok (id, d') → good d →
  good d' ∧ evolves (fun _ => False) d d' ∧ 0 ≤ id ∧ alerts d' = alerts d ∧ alerts_of id d = [] ∧
  find_rule id d' = Some (defined x now id).
Proof.
  unfold create_tx. destruct (reject_duplicates _ _ _ d) as [[]| |] eqn:Hdup; [|done..]. cbn [mbind res_bind].
  unfold insert_rule, autoincrement. case (Z.ltb_spec (rule_seq d) (2 ^ 63 - 1)) as [Hs|]; [|done]. cbn [mbind option_bind].
  set (r := defined x now _). intros [= <- <-] Hd. pose proof (good_rule_seq d Hd).
  apply reject_duplicates_new in Hdup as [Hn Ht]. pose proof (good_rule_ids d Hd) as [Hi Hsq].
  rewrite Forall_forall in Hsq. split_and!; [|by split; [|eauto]|lia|done| |].
  - apply (good_update_rules (fun l => l ++ [r])); [done|lia|..].
    + apply NoDup_map_snoc; [done|]. intros (y & Hy & Hin%Hsq)%list_elem_of_fmap. cbn in Hy. lia.
    + apply Forall_app. split; [apply Forall_forall; intros y Hy%Hsq; lia|]. apply Forall_singleton. cbn. lia.
    + apply NoDup_map_snoc; [apply Hd|done].
    + apply NoDup_map_snoc; [apply Hd|]. subst r. unfold from_stored. cbn. by destruct (ad_target x).
    + intros a y _ Hy _ Hen. exists y. split_and!; [apply elem_of_app; by left|done|done].
  - apply alerts_of_nil. intros a (y & Hy%Hsq & Hyi & _)%(good_enabled d Hd). lia.
  - unfold find_rule. cbn [rules]. rewrite filter_app, filter_cons, filter_nil, decide_True by done.
    assert (filter (fun y => rule_id y = rule_seq d + 1) (rules d) = []) as ->; [|done].
    rewrite (filter_ext_in _ (fun _ => False)); [|intros y Hy%Hsq; lia].
    clear. induction (rules d) as [|y l IH]; [done|]. rewrite filter_cons. case_decide; [done|exact IH].
Qed.

Lemma find_set_rule id g d r : good d → find_rule id d = Some r → (∀ x, rule_id (g x) = rule_id x) →
  find_rule id (set_rule id g d) = Some (g r).
Proof.
  intros _ Hf Hg. unfold find_rule in *. cbn [rules set_rule update_rules]. induction (rules d) as [|x l IH]; [done|].
  cbn [map]. rewrite filter_cons in *. case (Z.eqb_spec (rule_id x) id) as [Hx|Hx].
  - rewrite decide_True by (by rewrite Hg). rewrite decide_True in Hf by done. by injection Hf as <-.
  - rewrite decide_False by done. rewrite decide_False in Hf by done. auto.
Qed.

(** What disabling, updating or deleting a rule leaves. *)
Definition cleared (b : bool) (id : Z) (l : list Alert) (d d' : db) : Prop :=
  (b = false → l = alerts_of id d ∧ alerts_of id d' = []) ∧ (b = true → l = [] ∧ alerts d' = alerts d).

Lemma update_tx_good id p now d r l d' :
  update_tx id p now d = Ok (r, l, d') → good d →
  good d' ∧ evolves (fun _ => False) d d' ∧
  (∃ r0, find_rule id d = Some r0 ∧ r = patched p now r0 ∧ find_rule id d' = Some r) ∧ cleared (enabled r) id l d d'.
Proof.
  unfold update_tx. destruct (find_rule id d) as [r0|] eqn:Hf; [|done]. cbn [not_found or_full mbind res_bind].
  destruct (reject_duplicates _ _ _ d) as [[]| |] eqn:Hdup; [|done..]. cbn [mbind res_bind].
  destruct (resolve_unless _ id now _) as [[l1 d1]| |] eqn:Hr; [|done..]. intros [= <- <- <-] Hd.
  apply (resolve_unless_set _ _ _ _ _ r0) in Hr as (Hg & He & Hru & Hl & Hl'); [|done..|by apply reject_duplicates_Ok].
  split_and!; [done|done| |done]. exists r0. split_and!; [done|done|]. unfold find_rule. rewrite Hru. by apply find_set_rule.
Qed.

Lemma set_enabled_tx_good id b now d r l d' :
  set_enabled_tx id b now d = Ok (r, l, d') → good d →
  good d' ∧ evolves (fun _ => False) d d' ∧ find_rule id d = Some r ∧
  find_rule id d' = Some (with_enabled b now r) ∧ cleared b id l d d'.
Proof.
  unfold set_enabled_tx. destruct (find_rule id d) as [r0|] eqn:Hf; [|done]. cbn [not_found or_full mbind res_bind].
  destruct (resolve_unless _ id now _) as [[l1 d1]| |] eqn:Hr; [|done..]. intros [= <- <- <-] Hd.
  apply (resolve_unless_set _ _ _ _ _ r0) in Hr as (Hg & He & Hru & Hl & Hl'); [|done..|].
  - split_and!; [done|done|done| |done]. unfold find_rule. rewrite Hru. by apply find_set_rule.
  - apply find_rule_Some in Hf as (Hin & Hid & _); [|done]. intros y Hy Hne. split; intros E; apply Hne.
    + rewrite (map_key_inj (fun r => lowercase (rule_name r)) (rules d) y r0); [done|apply Hd|done..].
    + rewrite (map_key_inj from_stored (rules d) y r0); [done|apply Hd|done..].
Qed.

Lemma delete_tx_good id now d r l d' :
  delete_tx id now d = Ok (r, l, d') → good d →
  good d' ∧ evolves (fun _ => False) d d' ∧ find_rule id d' = None ∧ cleared false id l d d'.
Proof.
  unfold delete_tx. destruct (find_rule id d) as [r0|] eqn:Hf; [|done]. cbn [not_found or_full mbind res_bind].
  destruct (resolve_alerts id now d) as [[l1 d1]|] eqn:Hr; [|done]. intros [= <- <- <-] Hd.
  apply (resolve_alerts_good (fun _ => False)) in Hr as (Hg & He & Hru & Hse & -> & Hal); [|done].
  split_and!; [|done| |done].
  - pose proof (good_rule_ids d1 Hg) as [Hi Hs]. rewrite Forall_forall in Hs.
    apply (good_update_rules (filter (fun r => rule_id r ≠ id))); [done|lia|by apply NoDup_map_filter| | | |].
    + apply Forall_forall. intros y [_ Hy%Hs]%list_elem_of_filter. done.
    + apply NoDup_map_filter, Hg.
    + apply NoDup_map_filter, Hg.
    + intros a y Ha Hy Hya Hen. exists y. split_and!; [|done|done]. apply list_elem_of_filter. split; [|done].
      intros Hyi. rewrite alerts_of_nil in Hal. destruct (Hal a Ha). congruence.
  - unfold find_rule. cbn [rules update_rules]. clear. induction (rules d1) as [|x rs IH]; [done|].
    rewrite filter_cons. case_decide; [|done]. by rewrite filter_cons, decide_False.
Qed.

Lemma resolve_tx_good id now d a d' :
  resolve_tx id now d = Ok (a, d') → good d →
  good d' ∧ evolves (fun _ => False) d d' ∧ a ∈ alerts d ∧ a_id a = id ∧ alerts_of (a_rule_id a) d' = [].
Proof.
  unfold resolve_tx. destruct (head (filter _ (alerts d))) as [a0|] eqn:Ha; [|done]. cbn [not_found or_full mbind res_bind].
  apply head_Some_elem_of, list_elem_of_filter in Ha as [Hid Ha].
  unfold insert_event. cbn [event_seq delete_alert]. destruct (autoincrement (event_seq d)) as [eid|]; [|done].
  intros [= <- <-] Hd. subst id. split_and!; [|by eapply evolves_delete|done|done|].
  - by apply good_resolve, names_own_elem.
  - apply alerts_of_nil. intros b [Hne Hb]%list_elem_of_filter Hr. apply Hne.
    by rewrite (map_key_inj a_rule_id (alerts d) b a0) by (done || apply Hd).
Qed.

(** *** Commands *)

Definition alarm_ids (l : list publication) : list Z :=
  omap (fun p => match p with PAlarm n => Some (n_alert_id n) | PCounts _ => None end) l.

(** Only notifications, about the alerts [ids]. *)
Definition notifies (ids : list Z) (w w' : world) : Prop :=
  tables w' = tables w ∧ ∃ new, published w' = published w ++ new ∧ alarm_ids new = ids.

Lemma notifies_trans i j w1 w2 w3 : notifies i w1 w2 → notifies j w2 w3 → notifies (i ++ j) w1 w3.
Proof.
  intros (H1 & n1 & P1 & A1) (H2 & n2 & P2 & A2). split; [congruence|]. exists (n1 ++ n2).
  split; [by rewrite P2, P1, app_assoc|]. unfold alarm_ids in *. by rewrite omap_app, A1, A2.
Qed.

Lemma notifies_refl w : notifies [] w w.
Proof. split; [done|]. exists []. by rewrite app_nil_r. Qed.

Lemma ask_notifies {A} (f : nat → A) w : notifies [] w (ask f w).2.
Proof. split; [done|]. exists []. by rewrite app_nil_r. Qed.

(** A transaction commits or changes nothing. *)
Lemma transaction_spec {E A} (e : E) f w :
  let '(r, w') := transaction (A := A) e f w in
  published w' = published w ∧
  match r with
  | Ok a => f (tables w) = Ok (a, tables w')
  | Err _ => tables w' = tables w
  | Panic => f (tables w) = Panic
  end.
Proof.
  unfold transaction, mbind, st_bind, ask. destruct (storage o (asked w)); cbn; [|done].
  by destruct (f (tables w)) as [[a d]| |] eqn:Hf.
Qed.

Lemma send_counts_notifies w : notifies [] w (send_alarm_count_broadcast w).2.
Proof.
  unfold send_alarm_count_broadcast, get_active_alarm_counts, st_try, mbind, st_bind.
  pose proof (transaction_spec tt (fun d => Ok (Z.of_nat (length (alerts d)), d)) w) as H1.
  destruct (transaction _ _ w) as [[n|[]|] w1]; destruct H1 as [Hp1 H1]; [|split; [done|]; exists []; by rewrite app_nil_r|done].
  injection H1 as _ Ht1.
  pose proof (transaction_spec tt (fun d => Ok (by_level n d, d)) w1) as H2.
  destruct (transaction _ _ w1) as [[c|[]|] w2]; destruct H2 as [Hp2 H2]; [| |done].
  - injection H2 as _ Ht2. split; [cbn; congruence|]. exists [PCounts c]. split; [cbn; congruence|done].
  - split; [cbn; congruence|]. exists []. split; [rewrite app_nil_r; cbn; congruence|done].
Qed.

Lemma broadcast_notifies r l reason w : notifies (map a_id l) w (broadcast_any r l reason w).2.
Proof.
  destruct l as [|a0 l0]; [apply notifies_refl|]. unfold broadcast_any, broadcast_resolved. revert w.
  generalize (a0 :: l0). intros l. unfold mbind, st_bind.
  enough (∀ w, notifies (map a_id l) w (st_fold (fun _ a => now ← ask (utc_now o);
    publish (PAlarm (recovered (a_id a) r None reason now))) tt l w).2) as Hf.
  { intros w. specialize (Hf w). destruct (st_fold _ tt l w) as [u w1]. rewrite <- (app_nil_r (map a_id l)).
    eapply notifies_trans; [exact Hf|apply send_counts_notifies]. }
  clear. induction l as [|a l IH]; intros w; [apply notifies_refl|]. cbn [st_fold map].
  unfold mbind at 1, st_bind at 1. cbn [mbind st_bind ask]. 
  change (a_id a :: map a_id l) with ([a_id a] ++ map a_id l). eapply notifies_trans; [|apply IH].
  split; [done|]. cbn. eexists. done.
Qed.

(** The rule a mutation leaves under the identity of its receipt. *)
Definition rule_effect (m : AlarmRuleMutation) (id : Z) (d d' : db) : Prop :=
  match m with
  | Create x => ∃ now, find_rule id d' = Some (defined x now id)
  | Update _ p => ∃ now r, find_rule id d = Some r ∧ find_rule id d' = Some (patched p now r)
  | SetEnabled _ b => ∃ now r, find_rule id d = Some r ∧ find_rule id d' = Some (with_enabled b now r)
  | Delete _ => find_rule id d' = None
  end.

Definition monitored (id : Z) (d : db) : bool :=
  match find_rule id d with Some r => enabled r | None => false end.

(** What a finished mutation did. *)
Definition mutated (m : AlarmRuleMutation) (w : world)
    (x : res Outbox.PortErrorKind AlarmRuleMutationReceipt * world) : Prop :=
  let '(r, w') := x in
  match r with
  | Err _ => tables w' = tables w ∧ published w' = published w
  | Panic => False
  | Ok receipt =>
      let id := rc_rule_id receipt in
      rc_kind receipt = mutation_kind m ∧ good (tables w') ∧ evolves (fun _ => False) (tables w) (tables w') ∧
      rule_effect m id (tables w) (tables w') ∧
      ∃ resolved new, published w' = published w ++ new ∧ alarm_ids new = map a_id resolved ∧
        if monitored id (tables w') then resolved = [] ∧ alerts (tables w') = alerts (tables w)
        else resolved = alerts_of id (tables w) ∧ alerts_of id (tables w') = []
  end.

Lemma existing_mutated m rid (f : Z → Z → db → res Outbox.PortErrorKind (AlertRule * list Alert * db)) g reason w :
  good (tables w) →
  (∀ now d, f rid now d ≠ Panic) →
  (∀ now d r l d', f rid now d = Ok (r, l, d') → good d →
     good d' ∧ evolves (fun _ => False) d d' ∧ rule_effect m rid d d' ∧ cleared (monitored rid d') rid l d d') →
  mutated m w ((id ←? mret (sqlite_rule_id rid);
                now ← ask (utc_now o);
                x ←? transaction Outbox.Unavailable (f id now);
                let '(r, l) := x in
                _ ← broadcast_any (g r) l reason;
                mret (Ok (Receipt rid (mutation_kind m)))) w).
Proof.
  intros Hw Hno Hf. unfold sqlite_rule_id. rewrite st_try_ret. destruct (rid <=? _); [|done].
  unfold mbind at 1, st_bind at 1. destruct (ask (utc_now o) w) as [now w1] eqn:Ha. injection Ha as <- <-.
  unfold st_try. set (w1 := World _ _ _). set (now := utc_now o _).
  pose proof (transaction_spec Outbox.Unavailable (f rid now) w1) as Ht.
  destruct (transaction _ _ w1) as [[[r l]|e|] w2]; destruct Ht as [Hp Ht]; [|done|by destruct (Hno now (tables w1))].
  apply Hf in Ht as (Hg & He & Hr & Hc1 & Hc2); [|done].
  pose proof (broadcast_notifies (g r) l reason w2) as (Hb & new & Hnew & Hids). unfold mbind, st_bind.
  destruct (broadcast_any _ _ _ w2) as [u w3]. cbn [snd] in *. split_and!; cbn [rc_rule_id]; [done|by rewrite Hb..|].
  exists l, new. rewrite Hnew, Hp, Hb. split_and!; [done|done|]. destruct (monitored rid (tables w2)); auto.
Qed.

Lemma resolve_unless_no_panic b id now d : resolve_unless b id now d ≠ Panic.
Proof. unfold resolve_unless. destruct b; [done|]. by destruct (resolve_alerts id now d). Qed.

Lemma mutate_spec m w : good (tables w) → mutated m w (mutate m w).
Proof.
  intros Hw. destruct m as [x|rid p|rid b|rid]; cbn [mutate].
  - unfold create, mbind at 1, st_bind at 1. destruct (ask (utc_now o) w) as [now w1] eqn:Ha. injection Ha as <- <-.
    unfold st_try at 1. set (w1 := World _ _ _). set (now := utc_now o _).
    pose proof (transaction_spec Outbox.Unavailable (create_tx x now) w1) as Ht.
    destruct (transaction _ _ w1) as [[id|e|] w2]; destruct Ht as [Hp Ht]; [|done|].
    + apply create_tx_good in Ht as (Hg & He & Hid & Hal & Hno & Hr); [|done]. rewrite st_try_ret. unfold alarm_rule_id.
      case (Z.leb_spec 0 id) as [_|]; [|lia]. split_and!; [done|done|done|by exists now|].
      exists [], []. rewrite app_nil_r. split_and!; [done|done|]. cbn [rc_rule_id].
      destruct (monitored id (tables w2)); split; [done|done|done|]. unfold alerts_of in *. by rewrite Hal.
    + unfold create_tx, reject_duplicates in Ht. destruct (duplicate_name _ _ _); [done|].
      destruct (duplicate_target _ _ _); [done|]. cbn [mbind res_bind] in Ht. by destruct (insert_rule _ _).
  - apply (existing_mutated (Update rid p) rid (fun id now => update_tx id p now) (fun r => r)); [done|..].
    + intros now d H. unfold update_tx in H. destruct (find_rule rid d); [|done]. cbn [not_found or_full mbind res_bind] in H.
      unfold reject_duplicates in H. destruct (duplicate_name _ _ _); [done|]. destruct (duplicate_target _ _ _); [done|].
      cbn [mbind res_bind] in H. destruct (resolve_unless _ _ _ _) as [[??]| |] eqn:Hr; [done|done|].
      by apply resolve_unless_no_panic in Hr.
    + intros now d r l d' H Hd. apply update_tx_good in H as (Hg & He & (r0 & H0 & -> & H1) & Hc); [|done].
      split_and!; [done|done|by exists now, r0|]. unfold monitored. by rewrite H1.
  - unfold set_enabled.
    replace (if b then KEnable else KDisable) with (mutation_kind (SetEnabled rid b)) by by destruct b.
    apply (existing_mutated (SetEnabled rid b) rid (fun id now => set_enabled_tx id b now)
             (fun r => with_enabled b (updated_at r) r)); [done|..].
    + intros now d H. unfold set_enabled_tx in H. destruct (find_rule rid d); [|done]. cbn [not_found or_full mbind res_bind] in H.
      destruct (resolve_unless _ _ _ _) as [[??]| |] eqn:Hr; [done|done|]. by apply resolve_unless_no_panic in Hr.
    + intros now d r l d' H Hd. apply set_enabled_tx_good in H as (Hg & He & H0 & H1 & Hc); [|done].
      split_and!; [done|done|by exists now, r|]. unfold monitored. by rewrite H1.
  - apply (existing_mutated (Delete rid) rid delete_tx (fun r => r)); [done|..].
    + intros now d H. unfold delete_tx in H. destruct (find_rule rid d); [|done]. cbn [not_found or_full mbind res_bind] in H.
      by destruct (resolve_alerts _ _ _) as [[??]|].
    + intros now d r l d' H Hd. apply delete_tx_good in H as (Hg & He & H1 & Hc); [|done].
      split_and!; [done|done|done|]. unfold monitored. by rewrite H1.
Qed.

(** What a manual resolution did. *)
Lemma resolve_spec id w : good (tables w) →
  let '(r, w') := resolve id w in
  good (tables w') ∧ evolves (fun _ => False) (tables w) (tables w') ∧ r ≠ Panic ∧
  (tables w' = tables w ∧ published w' = published w ∧ is_ok r = false ∨
   ∃ a new, a ∈ alerts (tables w) ∧ a_id a = id ∧ alerts_of (a_rule_id a) (tables w') = [] ∧
     published w' = published w ++ new ∧ alarm_ids new = [id]).
Proof.
  intros Hw. unfold resolve, sqlite_alert_id. rewrite st_try_ret.
  destruct (id <=? _); [|split_and!; [done|apply evolves_refl|done|by left]].
  unfold mbind at 1, st_bind at 1. destruct (ask (utc_now o) w) as [now w1] eqn:Ha. injection Ha as <- <-.
  unfold st_try at 1. set (w1 := World _ _ _). set (now := utc_now o _).
  pose proof (transaction_spec Outbox.Unavailable (resolve_tx id now) w1) as Ht.
  destruct (transaction _ _ w1) as [[a|e|] w2]; destruct Ht as [Hp Ht].
  - apply resolve_tx_good in Ht as (Hg & He & Hin & Hid & Hal); [|done].
    unfold mbind, st_bind. destruct (ask (utc_now o) w2) as [at_ w3] eqn:Ha. injection Ha as <- <-.
    cbn [publish]. set (w4 := World _ _ _). pose proof (send_counts_notifies w4) as (Hb & new & Hnew & Hids).
    destruct (send_alarm_count_broadcast w4) as [u w5]. cbn [snd tables w4] in Hb. rewrite !st_try_ret.
    assert (∀ (x : res Outbox.PortErrorKind AlertResolutionReceipt), x ≠ Panic →
      good (tables w5) ∧ evolves (fun _ => False) (tables w) (tables w5) ∧ x ≠ Panic ∧
      (tables w5 = tables w ∧ published w5 = published w ∧ is_ok x = false ∨
       ∃ a new, a ∈ alerts (tables w) ∧ a_id a = id ∧ alerts_of (a_rule_id a) (tables w5) = [] ∧
         published w5 = published w ++ new ∧ alarm_ids new = [id])) as Hend.
    { intros x Hx. rewrite Hb. split_and!; [done|done|done|]. right.
      exists a, (PAlarm (recovered (a_id a) (rule_of_alert a now) (Some (a_current_value a)) "manually resolved"
        (utc_now o (asked w2))) :: new). split_and!; [done|done|done| |].
      - cbn [snd] in Hnew. rewrite Hnew. cbn [published w4]. by rewrite Hp, <- app_assoc.
      - change (alarm_ids (?p :: new)) with (a_id a :: alarm_ids new). by rewrite Hids, Hid. }
    destruct (alarm_rule_id _) as [rid|e|] eqn:E1; [|by apply Hend|by unfold alarm_rule_id in E1; case_match].
    rewrite st_try_ret. destruct (resolved_at_ms now) as [ms|e|] eqn:E2; [by apply Hend..|].
    by unfold resolved_at_ms in E2; case_match.
  - split_and!; [by rewrite Ht|by rewrite Ht; apply evolves_refl|done|by left].
  - unfold resolve_tx in Ht. destruct (head _); [|done]. cbn [not_found or_full mbind res_bind] in Ht.
    by destruct (insert_event _ _).
Qed.

(** *** The invariant of the running service *)

Definition task_rule (t : task) : AlertRule :=
  match t with Reading r | Looking r _ | Deciding r _ _ | Notifying r _ | Finished r => r end.

(** A decision knows whether its rule has an alert, except that a command may have
    resolved it since. *)
Definition task_ok (d : db) (t : task) : Prop :=
  match t with
  | Deciding r _ None => alerts_of (rule_id r) d = []
  | Deciding r _ (Some a) => a_rule_id a = rule_id r ∧ a_id a ≤ alert_seq d ∧ names_own a d
  | _ => True
  end.

Definition inv (s : system) : Prop :=
  good (tables (now_ s)) ∧ NoDup (map (fun t => rule_id (task_rule t)) (checks s)) ∧
  Forall (task_ok (tables (now_ s))) (checks s).

Lemma task_ok_evolves (P : Z → Prop) d d' t :
  evolves P d d' → ¬ P (rule_id (task_rule t)) → task_ok d t → task_ok d' t.
Proof.
  intros [Hs Hb] HP. destruct t as [r|r v|r v [a|]|r n|r]; try done; cbn [task_rule task_ok] in *.
  - intros (Hr & Hi & Ho). split_and!; [done|lia|]. intros b [(a0 & Ha0 & Hi0 & Hr0)|[Hn _]]%Hb Hba; [|lia].
    rewrite <- Hr0. apply Ho; [done|lia].
  - rewrite !alerts_of_nil. intros Hno b [(a & Ha & _ & <-)|[_ Hp]]%Hb; [auto|]. congruence.
Qed.

Lemma transaction_keeps {E A} (P : Z → Prop) (e : E) f w :
  (∀ a d', f (tables w) = Ok (a, d') → good d' ∧ evolves P (tables w) d') → good (tables w) →
  f (tables w) ≠ Panic →
  let '(r, w') := transaction (A := A) e f w in
  good (tables w') ∧ evolves P (tables w) (tables w') ∧ r ≠ Panic.
Proof.
  intros Hf Hw Hp. pose proof (transaction_spec e f w) as Ht.
  destruct (transaction e f w) as [[a|x|] w']; destruct Ht as [_ Ht]; [|rewrite Ht|done].
  - by apply Hf in Ht as [??].
  - split_and!; [done|apply evolves_refl|done].
Qed.

Lemma check_write_inv r v existing w t' w' :
  check_write r v existing w = (t', w') → good (tables w) → task_ok (tables w) (Deciding r v existing) →
  good (tables w') ∧ evolves (eq (rule_id r)) (tables w) (tables w') ∧
  (t' = Finished r ∨ ∃ n, t' = Notifying r n).
Proof.
  unfold check_write. intros Hc Hw Hok.
  destruct (evaluate r v), existing as [a|]; cbn [task_ok] in Hok.
  - apply st_bind_inv in Hc as (x & w1 & Hx & [= <- <-]).
    pose proof (transaction_keeps (eq (rule_id r)) tt (fun d => Ok (tt, update_alert_value_tx (a_id a) v d)) w) as Ht.
    unfold update_alert_value in Hx. rewrite Hx in Ht.
    destruct Ht as (? & ? & ?); [|done|done|by eauto]. intros ? ? [= _ <-]. by apply update_alert_value_good.
  - apply st_bind_inv in Hc as (x & w1 & Hx & Hc).
    unfold insert_alert, mbind, st_bind in Hx. destruct (ask (utc_now o) w) as [now w0] eqn:Ha. injection Ha as <- <-.
    match type of Hx with transaction tt ?f ?w0 = _ =>
      pose proof (transaction_keeps (eq (rule_id r)) tt f w0) as Ht end.
    rewrite Hx in Ht. destruct Ht as (Hg & He & Hp).
    + intros x0 d'. cbn [tables]. destruct (insert_alert_tx r v _ (tables w)) as [[y d1]|] eqn:Hi; [|done].
      intros [= -> <-]. by apply insert_alert_tx_good in Hi.
    + done.
    + cbn [tables]. by destruct (insert_alert_tx r v _ (tables w)).
    + destruct x as [[id|]|[]|]; injection Hc as <- <-; eauto.
  - apply st_bind_inv in Hc as (x & w1 & Hx & Hc).
    unfold resolve_alert, mbind, st_bind in Hx. destruct (ask (utc_now o) w) as [now w0] eqn:Ha. injection Ha as <- <-.
    match type of Hx with transaction tt ?f ?w0 = _ =>
      pose proof (transaction_keeps (eq (rule_id r)) tt f w0) as Ht end.
    rewrite Hx in Ht. destruct Ht as (Hg & He & Hp).
    + intros x0 d'. cbn [tables]. destruct (resolve_alert_tx a v _ (tables w)) as [d1|] eqn:Hi; [|done].
      intros [= _ <-]. by apply (resolve_alert_tx_good (eq (rule_id r))) in Hi; [|done|apply Hok].
    + done.
    + cbn [tables]. by destruct (resolve_alert_tx a v _ (tables w)).
    + destruct x as [[]|[]|]; injection Hc as <- <-; eauto.
  - injection Hc as <- <-. split_and!; [done|apply evolves_refl|by left].
Qed.

Lemma check_step_inv t w t' w' :
  check_step t w = (t', w') → good (tables w) → task_ok (tables w) t →
  good (tables w') ∧ evolves (eq (rule_id (task_rule t))) (tables w) (tables w') ∧
  task_ok (tables w') t' ∧ task_rule t' = task_rule t.
Proof.
  intros Hc Hw Hok. destruct t as [r|r v|r v a|r n|r]; cbn [check_step task_rule] in *.
  - unfold check_read, mbind, st_bind in Hc. cbn [ask] in Hc. destruct (live o (asked w) r) as [[[v ts]|]| |];
      injection Hc as <- <-; (split_and!; [done|apply evolves_refl|done|done]).
  - unfold check_lookup in Hc. apply st_bind_inv in Hc as (x & w1 & Hx & Hc). unfold get_alert_by_rule_id in Hx.
    pose proof (transaction_spec tt (fun d => Ok (head (alerts_of (rule_id r) d), d)) w) as Ht. rewrite Hx in Ht.
    destruct Ht as [_ Ht]. assert (tables w1 = tables w) as E by (destruct x as [y|[]|]; [by injection Ht|done|done]).
    destruct x as [y|[]|]; injection Hc as <- <-; rewrite E; (split_and!; [done|apply evolves_refl|..|done]); try done.
    injection Ht as <- _. cbn [task_ok]. destruct (alerts_of (rule_id r) (tables w)) as [|a l] eqn:Hal; [done|].
    assert (a ∈ alerts_of (rule_id r) (tables w)) as [Hr Ha]%alerts_of_elem by (rewrite Hal; left).
    split_and!; [done| |by apply names_own_elem]. pose proof (good_alert_ids _ Hw) as [_ Hs].
    rewrite Forall_forall in Hs. by apply Hs.
  - apply check_write_inv in Hc as (Hg & He & Ht); [|done..]. split_and!; [done|done|..];
      by destruct Ht as [->|[n ->]].
  - unfold check_notify, mbind, st_bind in Hc. cbn [publish] in Hc.
    match type of Hc with (let '(_, _) := ?m ?w0 in _) = _ => pose proof (send_counts_notifies w0) as (Hb & _);
      destruct (m w0) as [u w1] end. injection Hc as <- <-. cbn [snd tables] in Hb. rewrite Hb.
    split_and!; [done|apply evolves_refl|done|done].
  - injection Hc as <- <-. split_and!; [done|apply evolves_refl|done|done].
Qed.

Lemma alarm_step_inv s s' : step s s' → inv s → inv s'.
Proof.
  intros Hs (Hg & Hn & Hk). destruct Hs as [w l l' w' named Hf Hr|w l1 t l2 t' w' Hc|w l c|w l];
    unfold inv; cbn [now_ checks] in *.
  - pose proof (transaction_spec tt (fun d => Ok (filter (fun r => enabled r = true) (rules d), d)) w) as Ht.
    unfold get_all_enabled_rules in Hr. rewrite Hr in Ht. destruct Ht as [_ [= <- Ht]]. rewrite <- Ht.
    split_and!; [done| |apply Forall_map, Forall_true; done]. rewrite map_map. cbn [task_rule].
    apply NoDup_map_filter, NoDup_map_filter, Hg.
  - apply Forall_app in Hk as [Hk1 [Hkt Hk2]%Forall_cons].
    apply check_step_inv in Hc as (Hg' & He & Hok & Hr); [|done..].
    rewrite map_app in Hn. cbn [map] in Hn.
    assert (∀ x, x ∈ l1 ∨ x ∈ l2 → rule_id (task_rule t) ≠ rule_id (task_rule x)) as Hne.
    { apply NoDup_app in Hn as (_ & H1 & [H2 _]%NoDup_cons). intros x [Hx|Hx] E.
      - apply (H1 (rule_id (task_rule x))); [apply list_elem_of_fmap; eauto|]. rewrite E. left.
      - apply H2, list_elem_of_fmap. eauto. }
    split_and!; [done|rewrite map_app; cbn [map]; by rewrite Hr|].
    rewrite Forall_forall in Hk1, Hk2. apply Forall_app. split; [|apply Forall_cons; split; [done|]];
      apply Forall_forall; intros x Hx; (eapply task_ok_evolves; [exact He|cbn; auto|auto]).
  - assert (good (tables (run_command c w)) ∧ evolves (fun _ => False) (tables w) (tables (run_command c w))) as [Hg' He].
    { destruct c as [m|id]; cbn [run_command].
      - pose proof (mutate_spec m w Hg) as Hm. unfold mutated in Hm. destruct (mutate m w) as [[x|e|] w'].
        + by destruct Hm as (_ & ? & ? & _).
        + destruct Hm as [E _]. cbn [snd]. rewrite E. split; [done|apply evolves_refl].
        + done.
      - pose proof (resolve_spec id w Hg) as Hm. destruct (resolve id w) as [x w']. by destruct Hm as (? & ? & _). }
    split_and!; [done|done|]. eapply Forall_impl; [exact Hk|]. intros t. apply (task_ok_evolves _ _ _ t He). by intros [].
  - pose proof (send_counts_notifies w) as (E & _). by rewrite E.
Qed.

Lemma alarm_inv_reachable s : reachable s → inv s.
Proof.
  intros Hr. unfold reachable in Hr. assert (inv start) as Hi.
  { split_and!; [|apply NoDup_nil_2|done]. constructor; cbn; try (done || apply NoDup_nil_2).
    all: try (split; [apply NoDup_nil_2|done]). all: intros a Ha; by apply elem_of_nil in Ha. }
  induction Hr as [|s1 s2 s3 Hs _ IH]; [done|]. apply IH. by apply (alarm_step_inv s1).
Qed.

(** *** One check without interference *)

Lemma transaction_commits {E A} (e : E) f w :
  storage o (asked w) = true →
  transaction (A := A) e f w =
  match f (tables w) with
  | Ok (a, d) => (Ok a, World d (S (asked w)) (published w))
  | Err x => (Err x, World (tables w) (S (asked w)) (published w))
  | Panic => (Panic, World (tables w) (S (asked w)) (published w))
  end.
Proof. intros H. unfold transaction, mbind, st_bind, ask. rewrite H. cbn. by destruct (f (tables w)) as [[]| |]. Qed.

Lemma autoincrement_free n : n < 2 ^ 63 - 1 → autoincrement n = Some (n + 1).
Proof. intros H. unfold autoincrement. by case (Z.ltb_spec n (2 ^ 63 - 1)); [|lia]. Qed.

Lemma insert_alert_tx_enabled r v now d :
  r ∈ rules d → enabled r = true → alert_seq d < 2 ^ 63 - 1 → event_seq d < 2 ^ 63 - 1 →
  let a := alert_of r v now (alert_seq d + 1) in
  insert_alert_tx r v now d =
  Some (Some (a_id a), Db (rules d) (rule_seq d) (alerts d ++ [a]) (a_id a)
          (events d ++ [trigger_event a (event_seq d + 1)]) (event_seq d + 1)).
Proof.
  intros Hr He Ha Hs. unfold insert_alert_tx.
  assert (existsb (fun x => (rule_id x =? rule_id r) && enabled x) (rules d) = true) as ->.
  { apply existsb_exists. exists r. split; [by apply list_elem_of_In|]. by rewrite Z.eqb_refl, He. }
  rewrite autoincrement_free by done. cbn [mbind option_bind]. unfold insert_event. cbn [event_seq].
  by rewrite autoincrement_free.
Qed.

Lemma check_notify_spec r n w : let w' := (check_step (Notifying r n) w).2 in
  tables w' = tables w ∧ ∃ new, published w' = published w ++ new ∧ alarm_ids new = [n_alert_id n].
Proof.
  cbn. unfold check_notify, mbind, st_bind. cbn [publish]. set (w1 := World _ _ _).
  pose proof (send_counts_notifies w1) as (Hb & new & Hn & Hi). destruct (send_alarm_count_broadcast w1) as [u w2].
  cbn [snd mret st_ret] in *. split; [done|]. exists (PAlarm n :: new). rewrite Hn. cbn [published w1]. rewrite <- app_assoc.
  split; [done|]. change (alarm_ids (PAlarm n :: new)) with (n_alert_id n :: alarm_ids new). by rewrite Hi.
Qed.

Lemma check_single_rule_unfold r w v ts :
  live o (asked w) r = Ok (Some (v, ts)) → storage o (S (asked w)) = true →
  (check_single_rule r w).2 =
  ((t ← check_write r v (head (alerts_of (rule_id r) (tables w)));
    check_step t) (World (tables w) (S (S (asked w))) (published w))).2.
Proof.
  intros Hl Hs. unfold check_single_rule, mbind, st_bind. cbn [check_step]. unfold check_read, mbind, st_bind.
  cbn [ask]. rewrite Hl. cbn [mret st_ret check_step]. unfold check_lookup, get_alert_by_rule_id, mbind, st_bind.
  rewrite transaction_commits by done. cbn [tables mret st_ret check_step asked published].
  destruct (check_write r v _ _) as [t w1]. by destruct (check_step t w1).
Qed.

(** The value an update writes into an alert. *)
Definition with_value (v : f64) (a : Alert) : Alert :=
  MkAlert (a_id a) (a_rule_id a) (a_rule_snapshot a) (a_service_type a) (a_channel_id a) (a_data_type a)
    (a_point_id a) (a_rule_name a) (a_warning_level a) (a_operator a) (a_threshold_value a) v (a_triggered_at a).

Lemma alerts_of_update a v d :
  good d → alerts_of (a_rule_id a) d = [a] →
  alerts_of (a_rule_id a) (update_alert_value_tx (a_id a) v d) = [with_value v a].
Proof.
  intros Hd Ha. assert (a ∈ alerts_of (a_rule_id a) d) as [_ Hin]%alerts_of_elem by (rewrite Ha; left).
  pose proof (names_own_elem a d Hd Hin) as Ho. unfold alerts_of in *. cbn [alerts update_alert_value_tx].
  assert (∀ l, (∀ b, b ∈ l → a_id b = a_id a → a_rule_id b = a_rule_id a) →
    filter (fun b => a_rule_id b = a_rule_id a) (map (fun b => if a_id b =? a_id a then with_value v b else b) l) =
    map (fun b => if a_id b =? a_id a then with_value v b else b) (filter (fun b => a_rule_id b = a_rule_id a) l)) as Hc.
  { clear. induction l as [|b l IH]; intros Hl; [done|]. cbn [map]. rewrite !filter_cons, IH by set_solver.
    assert (a_rule_id (if a_id b =? a_id a then with_value v b else b) = a_rule_id b) as -> by by case_match.
    by case_decide. }
  change (map _ (alerts d)) with (map (fun b => if a_id b =? a_id a then with_value v b else b) (alerts d)).
  rewrite Hc, Ha by done. cbn. by rewrite Z.eqb_refl.
Qed.

(** One undisturbed check of an enabled rule is edge-triggered: the condition
    becoming true inserts one alert with its trigger row and notifies once, the
    condition staying true only refreshes the alert's value, the condition
    becoming false writes one recovery row, removes the alert and notifies once,
    and nothing else changes anything. *)
Theorem check_edges (r : AlertRule) (w : world) (v : f64) (ts : Z) :
  good (tables w) → r ∈ rules (tables w) → enabled r = true →
  live o (asked w) r = Ok (Some (v, ts)) → (∀ n, storage o n = true) →
  alert_seq (tables w) < 2 ^ 63 - 1 → event_seq (tables w) < 2 ^ 63 - 1 →
  let w' := (check_single_rule r w).2 in
  let d := tables w in
  let d' := tables w' in
  ∃ new, published w' = published w ++ new ∧
  match head (alerts_of (rule_id r) d), evaluate r v with
  | None, false => d' = d ∧ new = []
  | None, true => ∃ now, let a := alert_of r v now (alert_seq d + 1) in
      alerts d' = alerts d ++ [a] ∧ events d' = events d ++ [trigger_event a (event_seq d + 1)] ∧
      alarm_ids new = [a_id a]
  | Some a, true =>
      alerts_of (rule_id r) d' = [with_value v a] ∧ events d' = events d ∧ new = []
  | Some a, false => ∃ now, alerts_of (rule_id r) d' = [] ∧
      events d' = events d ++ [recovery_event a (Some v) now (event_seq d + 1)] ∧ alarm_ids new = [a_id a]
  end.
Proof.
  intros Hg Hr He Hl Hs Has Hes w' d d'. subst w' d' d. rewrite (check_single_rule_unfold r w v ts) by done.
  set (w0 := World (tables w) _ _). pose proof (alerts_of_single (rule_id r) _ Hg) as H1.
  destruct (alerts_of (rule_id r) (tables w)) as [|a l] eqn:Hal; [|destruct l; [|cbn in H1; lia]]; cbn [head].
  all: unfold check_write; destruct (evaluate r v).
  - unfold mbind, st_bind, insert_alert, mbind, st_bind. cbn [ask]. rewrite transaction_commits by done.
    cbn [tables asked published w0]. set (now := utc_now o _). rewrite insert_alert_tx_enabled by done.
    cbn [or_full mret st_ret]. set (w1 := World _ _ _). set (n := triggered _ _ _ _).
    destruct (check_notify_spec r n (World (tables w1) (S (asked w1)) (published w1))) as (Ht & new & Hn & Hi).
    cbn [check_step] in *.
    rewrite Ht, Hn. exists new. split; [done|]. by exists now.
  - exists []. by rewrite app_nil_r.
  - assert (a_rule_id a = rule_id r) as Hra.
    { assert (a ∈ alerts_of (rule_id r) (tables w)) as [Hra _]%alerts_of_elem by (rewrite Hal; left). done. }
    unfold mbind, st_bind, update_alert_value. rewrite transaction_commits by done.
    cbn [tables asked published w0 mret st_ret check_step snd]. exists []. rewrite app_nil_r. split_and!; [done| |done..].
    rewrite <- Hra in *. by apply alerts_of_update.
  - assert (a ∈ alerts_of (rule_id r) (tables w)) as [Hra Hin]%alerts_of_elem by (rewrite Hal; left).
    unfold mbind, st_bind, resolve_alert, mbind, st_bind. cbn [ask]. rewrite transaction_commits by done.
    cbn [tables asked published w0]. set (now := utc_now o _). unfold resolve_alert_tx, insert_event.
    rewrite autoincrement_free by done. cbn [mbind option_bind or_full mret st_ret].
    set (w1 := World _ _ _). set (n := recovered _ _ _ _ _).
    destruct (check_notify_spec r n (World (tables w1) (S (asked w1)) (published w1))) as (Ht & new & Hn & Hi).
    cbn [check_step] in *.
    rewrite Ht, Hn. exists new. split; [done|]. exists now. split_and!; [|done|done].
    apply alerts_of_nil. intros b [Hne Hb]%list_elem_of_filter Hrb. apply Hne.
    by rewrite (map_key_inj a_rule_id (alerts (tables w)) b a) by (congruence || done || apply Hg).
Qed.


(** C29. An alarm-rule mutation is all or nothing: an error changes no table and
    sends nothing; a receipt means that the rule was written as asked and that,
    if the rule is then disabled or gone, none of its alerts is active any more
    and each one that was has been reported recovered, and otherwise that no alert
    changed. *)
Theorem mutate_atomic (m : AlarmRuleMutation) (s : system) :
  reachable s →
  let w := now_ s in
  let '(r, w') := mutate m w in
  match r with
  | Err _ => tables w' = tables w ∧ published w' = published w
  | Panic => False
  | Ok receipt =>
      let id := rc_rule_id receipt in
      rc_kind receipt = mutation_kind m ∧ rule_effect m id (tables w) (tables w') ∧
      ∃ resolved new, published w' = published w ++ new ∧ alarm_ids new = map a_id resolved ∧
        if monitored id (tables w') then resolved = [] ∧ alerts (tables w') = alerts (tables w)
        else resolved = alerts_of id (tables w) ∧ alerts_of id (tables w') = []
  end.
Proof.
  intros [Hg _]%alarm_inv_reachable w. pose proof (mutate_spec m w Hg) as Hm. unfold mutated in Hm.
  destruct (mutate m w) as [[x|e|] w']; [|done..]. by destruct Hm as (? & _ & _ & ? & ?).
Qed.

End Service.

(** ** Runs *)

Module Sample.

(** The point reads 95 up to the eleventh answer, then 70; storage never fails. *)
Definition o : outside :=
  Outside (fun n => 1000 + Z.of_nat n)
    (fun n _ => Ok (Some (of_Z (if (n <? 11)%nat then 95 else 70), 0))) (fun _ => true).

Definition hot : AlarmRuleDefinition :=
  Definition_ (Point "io" 7 "T" 3) "temperature" 2 GreaterThan (of_Z 80) true None.

(** The commissioned rule, and the service after one tick. *)
Definition commissioned : world := run_command o (CMutate (Create hot)) (World empty_db 0 []).
Definition rule : AlertRule := defined hot 1000 1.
Definition alarmed : world := (check_single_rule o rule (get_all_enabled_rules o commissioned).2).2.

Example alarm_run :
  alarm_ids (published alarmed) = [1] ∧
  map e_event_type (events (tables alarmed)) = [Trigger] ∧
  match mutate o (Create hot) alarmed with (Err Outbox.Conflict, _) => True | _ => False end ∧
  map e_event_type (events (tables (run_command o (CMutate (SetEnabled 1 false)) alarmed))) = [Trigger; Recovery] ∧
  alerts (tables (run_command o (CMutate (Delete 1)) alarmed)) = [].
Proof. by vm_compute. Qed.

Ltac check_next := eapply rtc_l; [eapply (step_check o _ [] _ []); vm_compute; reflexivity|].

Lemma alarmed_reachable : reachable o (System alarmed [Finished rule]).
Proof.
  eapply rtc_l; [apply (step_command o _ [] (CMutate (Create hot)))|].
  eapply rtc_l; [eapply (step_round o _ [] _ _ (fun _ => true)); [constructor|vm_compute; reflexivity]|].
  do 4 check_next. apply rtc_refl.
Qed.

(** A check that read the alert before it was resolved by hand resolves it again:
    one episode, two recovery rows and two recovery notifications. *)
Example recovered_twice : ∃ s, reachable o s ∧
  length (history Trigger 1 (events (tables (now_ s)))) = 1%nat ∧
  length (history Recovery 1 (events (tables (now_ s)))) = 2%nat ∧
  alarm_ids (published (now_ s)) = [1; 1; 1].
Proof.
  eexists. split; [|].
  - unfold reachable; etrans; [apply alarmed_reachable|].
    eapply rtc_l; [eapply (step_round o _ _ _ _ (fun _ => true)); [by repeat econstructor|vm_compute; reflexivity]|].
    do 2 check_next.
    eapply rtc_l; [apply (step_command o _ _ (CResolve 1))|].
    do 2 check_next. apply rtc_refl.
  - by vm_compute.
Qed.


Lemma mutate_atomic_witness : reachable o (System alarmed [Finished rule]) ∧
  rule_effect (SetEnabled 1 false) 1 (tables alarmed) (tables (mutate o (SetEnabled 1 false) alarmed).2).
Proof.
  split; [apply alarmed_reachable|].
  pose proof (mutate_atomic o (SetEnabled 1 false) _ alarmed_reachable) as H.
  revert H. vm_compute. intros (_ & H & _). exact H.
Defined.

Lemma commissioned_good : good (tables (get_all_enabled_rules o commissioned).2).
Proof.
  assert (reachable o (System commissioned [])) as [H _]%alarm_inv_reachable.
  { eapply rtc_l; [apply (step_command o _ [] (CMutate (Create hot)))|apply rtc_refl]. }
  exact H.
Qed.

Lemma check_edges_witness :
  good (tables (get_all_enabled_rules o commissioned).2) ∧
  rule ∈ rules (tables (get_all_enabled_rules o commissioned).2) ∧
  ∃ new, published alarmed = published (get_all_enabled_rules o commissioned).2 ++ new.
Proof.
  split; [exact commissioned_good|]. split; [vm_compute; left|].
  destruct (check_edges o rule (get_all_enabled_rules o commissioned).2 (of_Z 95) 0 commissioned_good) as (new & H & _);
    [vm_compute; left|done|by vm_compute|done|by vm_compute|by vm_compute|]. by exists new.
Defined.

End Sample.
End Alarm.
