(* ===== verification/Reconnect.v ===== *)
(** * The reconnection state machine (services/io/src/runtime/reconnect.rs)

    Attempt counting, the failed state and its automatic recovery.  Instants and
    durations are nanoseconds; an operation that reads the clock takes the reading
    as an argument.  Counters wrap as in a release build.  The length of the
    backoff delay, a floating-point power with random jitter, is not modelled: it
    is only slept. *)

From stdpp Require Import base tactics numbers list.
From S2P Require Import Prelude.
#[local] Open Scope Z_scope.

Module Reconnect.

Inductive ReconnectState := Connected | Disconnected | Reconnecting | Failed.
#[global] Instance ReconnectState_eq_dec : EqDecision ReconnectState.
Proof. solve_decision. Defined.

Record AutoRecoveryPolicy := AutoRecovery { cooldown : Z; max_recovery_rounds : Z }.

(** Of the policy, what the state machine reads. *)
Record ReconnectPolicy := Policy { max_attempts : Z }.

Record ReconnectContext := Context_ {
  current_attempt : Z; last_attempt : option Z; connection_state : ReconnectState }.

Record ReconnectStats := Stats {
  total_attempts : Z; failed_reconnects : Z; last_connected : option Z; connection_start : option Z }.

Record ReconnectHelper := Helper {
  policy : ReconnectPolicy; context : ReconnectContext; stats : ReconnectStats;
  auto_recovery : option AutoRecoveryPolicy; failed_at : option Z; recovery_rounds : Z }.

Definition helper_new (p : ReconnectPolicy) : ReconnectHelper :=
  Helper p (Context_ 0 None Disconnected) (Stats 0 0 None None) None None 0.

Definition with_auto_recovery (a : AutoRecoveryPolicy) (h : ReconnectHelper) : ReconnectHelper :=
  if 0 <? max_recovery_rounds a
  then Helper (policy h) (context h) (stats h) (Some a) (failed_at h) (recovery_rounds h)
  else h.

Definition state (h : ReconnectHelper) : ReconnectState := connection_state (context h).

Definition reset (h : ReconnectHelper) : ReconnectHelper :=
  Helper (policy h)
    (Context_ 0 None (if decide (state h = Connected) then Connected else Disconnected))
    (stats h) (auto_recovery h) (failed_at h) (recovery_rounds h).

Definition check_auto_recovery (now : Z) (h : ReconnectHelper) : bool * ReconnectHelper :=
  match auto_recovery h with
  | None => (false, h)
  | Some a =>
      if negb (bool_decide (state h = Failed)) then (false, h)
      else
        let at_ := default now (failed_at h) in
        let h := Helper (policy h) (context h) (stats h) (auto_recovery h) (Some at_) (recovery_rounds h) in
        if max_recovery_rounds a <=? recovery_rounds h then (false, h)
        else if Z.max 0 (now - at_) <? cooldown a then (false, h)
        else
          (true, reset (Helper (policy h) (context h) (stats h) (auto_recovery h) None
                          (wrapping_add 32 (recovery_rounds h) 1)))
  end.

Definition recovery_cooldown_remaining (now : Z) (h : ReconnectHelper) : option Z :=
  a ← auto_recovery h;
  if negb (bool_decide (state h = Failed)) then None
  else if max_recovery_rounds a <=? recovery_rounds h then None
  else
    at_ ← failed_at h;
    let elapsed := Z.max 0 (now - at_) in
    Some (if cooldown a <=? elapsed then 0 else cooldown a - elapsed).

Definition mark_connected (now : Z) (h : ReconnectHelper) : ReconnectHelper :=
  Helper (policy h) (Context_ 0 (last_attempt (context h)) Connected)
    (Stats (total_attempts (stats h)) (failed_reconnects (stats h)) (Some now) (Some now))
    (auto_recovery h) None 0.

Definition mark_disconnected (h : ReconnectHelper) : ReconnectHelper :=
  Helper (policy h) (Context_ (current_attempt (context h)) (last_attempt (context h)) Disconnected)
    (Stats (total_attempts (stats h)) (failed_reconnects (stats h)) (last_connected (stats h)) None)
    (auto_recovery h) (failed_at h) (recovery_rounds h).

Definition exhausted (h : ReconnectHelper) : bool :=
  (0 <? max_attempts (policy h)) && (max_attempts (policy h) <=? current_attempt (context h)).

Definition fail (now : Z) (s : ReconnectStats) (h : ReconnectHelper) : ReconnectHelper :=
  Helper (policy h) (Context_ (current_attempt (context h)) (last_attempt (context h)) Failed) s
    (auto_recovery h) (Some (default now (failed_at h))) (recovery_rounds h).

Definition record_attempt (now : Z) (h : ReconnectHelper) : bool * ReconnectHelper :=
  if exhausted h then (false, fail now (stats h) h)
  else
    (true, Helper (policy h) (Context_ (wrapping_add 32 (current_attempt (context h)) 1) (Some now) Reconnecting)
             (Stats (wrapping_add 64 (total_attempts (stats h)) 1) (failed_reconnects (stats h))
                (last_connected (stats h)) (connection_start (stats h)))
             (auto_recovery h) (failed_at h) (recovery_rounds h)).

Definition record_failure (now : Z) (h : ReconnectHelper) : ReconnectHelper :=
  let s := Stats (total_attempts (stats h)) (wrapping_add 64 (failed_reconnects (stats h)) 1)
             (last_connected (stats h)) (connection_start (stats h)) in
  if exhausted h then fail now s h
  else
    Helper (policy h) (Context_ (current_attempt (context h)) (last_attempt (context h)) Disconnected) s
      (auto_recovery h) (failed_at h) (recovery_rounds h).

(** ** How often a dead device is tried *)

(** What the channel task does to the helper between two successes; [Lost] is the
    first failure it notices. *)
Inductive event := Lost | Attempt (now : Z) | Failure (now : Z) | Recovery (now : Z).

Definition apply (e : event) (h : ReconnectHelper) : ReconnectHelper :=
  match e with
  | Lost => mark_disconnected h
  | Attempt now => (record_attempt now h).2
  | Failure now => record_failure now h
  | Recovery now => (check_auto_recovery now h).2
  end.

(** The attempts a sequence of events makes. *)
Definition attempted (e : event) (h : ReconnectHelper) : Z :=
  match e with Attempt now => if (record_attempt now h).1 then 1 else 0 | _ => 0 end.
Fixpoint attempts (es : list event) (h : ReconnectHelper) : Z :=
  match es with [] => 0 | e :: es => attempted e h + attempts es (apply e h) end.
Definition run (es : list event) (h : ReconnectHelper) : ReconnectHelper := fold_left (fun h e => apply e h) es h.

Definition rounds (h : ReconnectHelper) : Z :=
  match auto_recovery h with Some a => max_recovery_rounds a | None => 0 end.

(** A helper whose policy came from configuration. *)
Definition bounded (h : ReconnectHelper) : Prop :=
  0 < max_attempts (policy h) < 2 ^ 32 ∧ 0 ≤ current_attempt (context h) ≤ max_attempts (policy h) ∧
  0 ≤ recovery_rounds h ≤ rounds h ∧ rounds h < 2 ^ 32.

(** Attempts that are still possible before the device is given up. *)
Definition allowance (h : ReconnectHelper) : Z :=
  max_attempts (policy h) * (rounds h - recovery_rounds h) + (max_attempts (policy h) - current_attempt (context h)).

Lemma wrapping_add_small w a : 0 ≤ a → a + 1 < 2 ^ w → wrapping_add w a 1 = a + 1.
Proof. intros ??. unfold wrapping_add, wrap. apply Z.mod_small. lia. Qed.

Lemma apply_bounded e h :
  bounded h → bounded (apply e h) ∧ attempted e h + allowance (apply e h) ≤ allowance h ∧
    max_attempts (policy (apply e h)) = max_attempts (policy h) ∧ rounds (apply e h) = rounds h.
Proof.
  intros (Hm & Hc & Hr & Hb). unfold bounded, allowance. destruct e as [|now|now|now]; cbn [apply attempted].
  - cbn. unfold rounds in *. cbn. lia.
  - unfold record_attempt, exhausted. destruct (Z.ltb_spec 0 (max_attempts (policy h))); [|lia].
    cbn [andb]. destruct (Z.leb_spec (max_attempts (policy h)) (current_attempt (context h))).
    + cbn. unfold rounds in *. cbn. lia.
    + cbn [fst snd policy context current_attempt recovery_rounds]. rewrite wrapping_add_small by lia.
      unfold rounds in *. cbn. lia.
  - unfold record_failure. destruct (exhausted h); cbn; unfold rounds in *; cbn; lia.
  - unfold check_auto_recovery, rounds in *. destruct (auto_recovery h) as [a|] eqn:Ha; [|cbn; rewrite Ha; lia].
    destruct (bool_decide (state h = Failed)); cbn [negb]; [|cbn; rewrite Ha; lia].
    cbn [recovery_rounds]. destruct (Z.leb_spec (max_recovery_rounds a) (recovery_rounds h)); [cbn; rewrite ?Ha; lia|].
    destruct (_ <? cooldown a); [cbn; rewrite ?Ha; lia|].
    cbn. rewrite ?Ha, wrapping_add_small by lia. nia.
Qed.

Lemma attempts_allowance es h : bounded h → attempts es h ≤ allowance h.
Proof.
  revert h. induction es as [|e es IH]; intros h Hb; cbn [attempts].
  - destruct Hb as (Hm & Hc & Hr & _). unfold allowance. nia.
  - destruct (apply_bounded e h Hb) as (Hb' & Ha & _). specialize (IH _ Hb'). lia.
Qed.

(** A dead device is tried a bounded number of times: from a new helper, or from
    the moment its connection is lost, no sequence of attempts, failures and
    recovery checks without a success makes more than [max_attempts] attempts in
    each of the first round and the configured recovery rounds. *)
Theorem attempts_bounded (h : ReconnectHelper) (now : Z) (es : list event) :
  0 < max_attempts (policy h) < 2 ^ 32 → 0 ≤ rounds h < 2 ^ 32 →
  attempts es (mark_connected now h) ≤ max_attempts (policy h) * (rounds h + 1).
Proof.
  intros Hm Hr. etransitivity; [apply attempts_allowance|].
  - unfold bounded. cbn. unfold rounds in *. cbn. lia.
  - unfold allowance. cbn. unfold rounds in *. cbn. lia.
Qed.

(** With recovery rounds left, a failed helper whose cooldown has passed becomes
    ready for a new attempt, which then succeeds or fails as the first one did. *)
Theorem failed_recovers (h : ReconnectHelper) (a : AutoRecoveryPolicy) (at_ now : Z) :
  auto_recovery h = Some a → state h = Failed → failed_at h = Some at_ →
  0 ≤ recovery_rounds h < max_recovery_rounds a → max_recovery_rounds a < 2 ^ 32 →
  cooldown a ≤ now - at_ → 0 < max_attempts (policy h) →
  let '(recovered, h') := check_auto_recovery now h in
  recovered = true ∧ state h' = Disconnected ∧ recovery_rounds h' = recovery_rounds h + 1 ∧
  (record_attempt now h').1 = true.
Proof.
  intros Ha Hs Hf Hr Hm Hc Hp. unfold check_auto_recovery. rewrite Ha, Hs, Hf. cbn.
  rewrite bool_decide_true by done. cbn. case (Z.leb_spec (max_recovery_rounds a) (recovery_rounds h)); [lia|]. intros _.
  case (Z.ltb_spec (Z.max 0 (now - at_)) (cooldown a)); [lia|]. intros _. split_and!; [done| | |].
  - unfold state. cbn. by rewrite decide_False by (unfold state in *; cbn; congruence).
  - cbn. apply wrapping_add_small; lia.
  - unfold record_attempt, exhausted. cbn. destruct (0 <? _), (Z.leb_spec (max_attempts (policy h)) 0); try done; lia.
Qed.

Module Sample.
Definition recovering : ReconnectHelper := with_auto_recovery (AutoRecovery 300 2) (helper_new (Policy 3)).
Definition dead : list event :=
  concat (replicate 20 [Attempt 0; Failure 0; Recovery 1000]).
Example dead_run : attempts dead (mark_connected 0 recovering) = 9 ∧ state (run dead (mark_connected 0 recovering)) = Failed.
Proof. by vm_compute. Qed.

Lemma attempts_bounded_witness : attempts dead (mark_connected 0 recovering) ≤ 3 * (2 + 1).
Proof. apply (attempts_bounded recovering 0 dead); vm_compute; split; congruence. Defined.

Definition given_up : ReconnectHelper := run [Attempt 0; Failure 0; Attempt 1; Failure 1; Attempt 2; Failure 2] recovering.
Lemma failed_recovers_witness : (record_attempt 400 (check_auto_recovery 400 given_up).2).1 = true.
Proof.
  pose proof (failed_recovers given_up (AutoRecovery 300 2) 2 400 eq_refl eq_refl eq_refl) as H.
  destruct (check_auto_recovery 400 given_up) as [b h]. apply H; vm_compute; try split; congruence.
Defined.
End Sample.
End Reconnect.
