(* ===== verification/CommandListener.v ===== *)
(** * The command listener of the IO service (services/io/src/core/channels/shm_listener.rs)

    Connections deliver the frames the command sink wrote.  Each frame passes the
    window check and a per-point sequence filter shared by all connections, and is
    then sent to the command queue of its channel.  Connections run concurrently:
    a frame is read and filtered in one step, its send to the queue is a later one,
    and steps of other connections may come between.  The outcome of a send is
    arbitrary.  Binding and removing the socket file are not modelled. *)

From stdpp Require Import base tactics numbers list gmap strings pretty sorting.
From S2P Require Import Prelude Float Domain Points CommandSink.
#[local] Open Scope Z_scope.

Module CommandListener.
Import Float Domain.
Abbreviation frame := CommandSink.DeviceCommandFrame.

(** ** Channel commands (types.rs) *)

Inductive ChannelCommand :=
| Control (command_id : string) (point_id : Z) (value : f64) (timestamp expires_at_ms : Z)
| Adjustment (command_id : string) (point_id : Z) (value : f64) (timestamp expires_at_ms : Z)
| BatchControl (command_id : string) (points : list (Z * f64)) (timestamp expires_at_ms : Z)
| BatchAdjustment (command_id : string) (points : list (Z * f64)) (timestamp expires_at_ms : Z).

(** [{:016x}] of a 64-bit number. *)
Definition hex_digit (d : Z) : Ascii.ascii :=
  Ascii.ascii_of_N (Z.to_N (if d <? 10 then 48 + d else 87 + d)).
Fixpoint hex (n : nat) (x : Z) (acc : string) : string :=
  match n with O => acc | S n => hex n (x / 16) (String (hex_digit (x mod 16)) acc) end.

Definition uds_command_id (producer_id seq : Z) : string :=
  "uds-" +:+ hex 16 producer_id "" +:+ "-" +:+ pretty seq.

Definition build_command (t : Points.PointType) (point_id : Z) (value : f64)
    (timestamp expires_at_ms producer_id seq : Z) : ChannelCommand :=
  let command_id := uds_command_id producer_id seq in
  match t with
  | Points.Control => Control command_id point_id value timestamp expires_at_ms
  | _ => Adjustment command_id point_id value timestamp expires_at_ms
  end.

(** ** The sequence filter *)

Abbreviation seq_key := (Z * Z * Z)%type.
Abbreviation SequenceMap := (gmap seq_key (Z * Z)).

Definition key_of (f : frame) : seq_key :=
  (CommandSink.f_channel_id f, CommandSink.f_point_type f, CommandSink.f_point_id f).

(** Sequence numbers are compared as wrapping counters. *)
Definition is_behind (seq last_seq : Z) : bool := u_max 64 / 2 <? wrapping_sub 64 seq last_seq.

Definition filter_sequence (f : frame) (m : SequenceMap) : option SequenceMap :=
  let entry := (CommandSink.f_producer_id f, CommandSink.f_sequence f) in
  match m !! key_of f with
  | Some (last_producer, last_seq) =>
      let same_producer := last_producer =? CommandSink.f_producer_id f in
      if same_producer && is_behind (CommandSink.f_sequence f) last_seq then None
      else if same_producer && (CommandSink.f_sequence f =? last_seq) then None
      else Some (<[key_of f := entry]> m)
  | None => Some (<[key_of f := entry]> m)
  end.

(** ** One notification *)

Definition as_i64 (x : Z) : Z := if x <? 2 ^ 63 then x else x - 2 ^ 64.

(** The kind and window checks; the clock may be before the epoch. *)
Definition point_type (f : frame) : option Points.PointType :=
  match CommandSink.frame_point_kind f with
  | Some Command => Some Points.Control
  | Some Action => Some Points.Adjustment
  | Some Telemetry | Some Status | None => None
  end.

Definition in_window (now : option Z) (f : frame) : bool :=
  match now with
  | None => false
  | Some t =>
      let now_ms := Z.min t (u_max 64) in
      negb ((CommandSink.f_expires_at_ms f <=? CommandSink.f_timestamp_ms f)
            || (CommandSink.f_expires_at_ms f <=? now_ms))
  end.

(** The command of a frame that passed the filter, with its channel; a value that is
    not finite is discarded here, after its sequence number was taken. *)
Definition command_of (f : frame) : option (Z * ChannelCommand) :=
  t ← point_type f;
  match validate_value unbounded (CommandSink.frame_value f) with
  | Ok _ =>
      Some (CommandSink.f_channel_id f,
            build_command t (CommandSink.f_point_id f) (CommandSink.frame_value f)
              (as_i64 (CommandSink.f_timestamp_ms f)) (Z.min (CommandSink.f_expires_at_ms f) (2 ^ 63 - 1))
              (CommandSink.f_producer_id f) (CommandSink.f_sequence f))
  | _ => None
  end.

(** [handle_notification] up to the send: the new filter when the frame passed it. *)
Definition accept (now : option Z) (f : frame) (m : SequenceMap) : option SequenceMap :=
  match point_type f with
  | None => None
  | Some _ => if in_window now f then filter_sequence f m else None
  end.

(** ** The listener and its connections *)

(** Bytes that arrived and are not read, and the command being sent. *)
Record connection := Conn { unread : list Z; sending : option (Z * ChannelCommand) }.

Inductive entry :=
| LBytes (c : nat) (bs : list Z)
| LRead (c : nat) (bs : list Z)
| LAccept (c : nat) (f : frame) (now : option Z)
| LSend (c : nat) (q : nat) (m : ChannelCommand).

Record ShmCommandListener := Listener {
  command_senders : gmap Z nat;  (* the queue of each channel *)
  last_sequences : SequenceMap;
  dropped_count : Z;
  connections : gmap nat connection;
  next_connection : nat;
  log : list entry }.

Definition listener_new : ShmCommandListener := Listener ∅ ∅ 0 ∅ 0 [].

Definition set_connection (c : nat) (k : connection) (l : ShmCommandListener) : ShmCommandListener :=
  Listener (command_senders l) (last_sequences l) (dropped_count l) (<[c := k]> (connections l))
    (next_connection l) (log l).
Definition emit (e : entry) (l : ShmCommandListener) : ShmCommandListener :=
  Listener (command_senders l) (last_sequences l) (dropped_count l) (connections l)
    (next_connection l) (log l ++ [e]).
Definition set_sequences (m : SequenceMap) (l : ShmCommandListener) : ShmCommandListener :=
  Listener (command_senders l) m (dropped_count l) (connections l) (next_connection l) (log l).

Definition register_channel (channel : Z) (q : nat) (l : ShmCommandListener) : ShmCommandListener :=
  Listener (<[channel := q]> (command_senders l)) (last_sequences l) (dropped_count l) (connections l)
    (next_connection l) (log l).
Definition unregister_channel (channel : Z) (l : ShmCommandListener) : ShmCommandListener :=
  Listener (delete channel (command_senders l)) (last_sequences l) (dropped_count l) (connections l)
    (next_connection l) (log l).

(** One turn of [handle_connection]: a whole frame is read and filtered. *)
Definition read_frame (c : nat) (now : option Z) (l : ShmCommandListener) : ShmCommandListener :=
  match connections l !! c with
  | Some (Conn bs None) =>
      if (length bs <? CommandSink.FRAME_SIZE)%nat then l
      else
        let bytes := take CommandSink.FRAME_SIZE bs in
        let rest := drop CommandSink.FRAME_SIZE bs in
        let f := CommandSink.from_bytes bytes in
        let l := emit (LRead c bytes) l in
        match accept now f (last_sequences l) with
        | None => set_connection c (Conn rest None) l
        | Some m => set_connection c (Conn rest (command_of f)) (emit (LAccept c f now) (set_sequences m l))
        end
  | _ => l
  end.

(** How the send to a registered queue ended. *)
Inductive send_outcome := Sent | Closed | TimedOut.

Definition deliver (c : nat) (o : send_outcome) (l : ShmCommandListener) : ShmCommandListener :=
  match connections l !! c with
  | Some (Conn bs (Some (channel, m))) =>
      let l := set_connection c (Conn bs None) l in
      match command_senders l !! channel with
      | None => l
      | Some q =>
          match o with
          | Sent => emit (LSend c q m) l
          | Closed => l
          | TimedOut =>
              Listener (command_senders l) (last_sequences l) (wrapping_add 64 (dropped_count l) 1)
                (connections l) (next_connection l) (log l)
          end
      end
  | _ => l
  end.

Definition accept_connection (l : ShmCommandListener) : ShmCommandListener :=
  Listener (command_senders l) (last_sequences l) (dropped_count l)
    (<[next_connection l := Conn [] None]> (connections l)) (S (next_connection l)) (log l).

(** The peer writes; what arrives after the end of a connection is lost. *)
Definition arrive (c : nat) (bs : list Z) (l : ShmCommandListener) : ShmCommandListener :=
  match connections l !! c with
  | Some (Conn u s) => emit (LBytes c bs) (set_connection c (Conn (u ++ bs) s) l)
  | None => l
  end.

(** End of stream, a read error or the shutdown end a connection that is reading. *)
Definition close_connection (c : nat) (l : ShmCommandListener) : ShmCommandListener :=
  match connections l !! c with
  | Some (Conn _ None) =>
      Listener (command_senders l) (last_sequences l) (dropped_count l) (delete c (connections l))
        (next_connection l) (log l)
  | _ => l
  end.

Inductive event :=
| EConnect | EArrive (c : nat) (bs : list Z) | ERead (c : nat) (now : option Z)
| EDeliver (c : nat) (o : send_outcome) | EClose (c : nat)
| ERegister (channel : Z) (q : nat) | EUnregister (channel : Z).

Definition step (l : ShmCommandListener) (e : event) : ShmCommandListener :=
  match e with
  | EConnect => accept_connection l
  | EArrive c bs => arrive c bs l
  | ERead c now => read_frame c now l
  | EDeliver c o => deliver c o l
  | EClose c => close_connection c l
  | ERegister channel q => register_channel channel q l
  | EUnregister channel => unregister_channel channel l
  end.

Definition run (es : list event) : ShmCommandListener := fold_left step es listener_new.

(** ** What a run did *)

Definition received (c : nat) (l : list entry) : list Z :=
  concat (omap (fun e => match e with LBytes c' bs => if decide (c = c') then Some bs else None | _ => None end) l).
Definition read_by (c : nat) (l : list entry) : list (list Z) :=
  omap (fun e => match e with LRead c' bs => if decide (c = c') then Some bs else None | _ => None end) l.
Definition accepted_by (c : nat) (l : list entry) : list frame :=
  omap (fun e => match e with LAccept c' f _ => if decide (c = c') then Some f else None | _ => None end) l.
Definition accepted (k : seq_key) (l : list entry) : list frame :=
  omap (fun e => match e with LAccept _ f _ => if decide (key_of f = k) then Some f else None | _ => None end) l.
Definition sent_by (c : nat) (l : list entry) : list ChannelCommand :=
  omap (fun e => match e with LSend c' _ m => if decide (c = c') then Some m else None | _ => None end) l.
Definition commands (fs : list frame) : list ChannelCommand := omap (fun f => snd <$> command_of f) fs.

(** Of two frames accepted one after the other for a point, the second is from
    another producer or is ahead by less than half the range. *)
Definition ahead (f g : frame) : Prop :=
  CommandSink.f_producer_id f = CommandSink.f_producer_id g →
  CommandSink.f_sequence g ≠ CommandSink.f_sequence f ∧
  wrapping_sub 64 (CommandSink.f_sequence g) (CommandSink.f_sequence f) < 2 ^ 63.
Fixpoint advances (fs : list frame) : Prop :=
  match fs with
  | [] => True
  | f :: rest => match rest with [] => True | g :: _ => ahead f g end ∧ advances rest
  end.

Definition in_time (e : entry) : Prop :=
  match e with
  | LAccept _ f now =>
      is_Some (point_type f) ∧ CommandSink.f_timestamp_ms f < CommandSink.f_expires_at_ms f ∧
      ∃ t, now = Some t ∧ Z.min t (u_max 64) < CommandSink.f_expires_at_ms f
  | _ => True
  end.

#[local] Arguments received : simpl never.
#[local] Arguments read_by : simpl never.
#[local] Arguments accepted_by : simpl never.
#[local] Arguments accepted : simpl never.
#[local] Arguments sent_by : simpl never.

(** ** The invariant *)

Definition pending (l : ShmCommandListener) (c : nat) : option (Z * ChannelCommand) :=
  connections l !! c ≫= sending.

Definition read_ok (l : ShmCommandListener) (c : nat) : Prop :=
  match connections l !! c with
  | Some k => concat (read_by c (log l)) ++ unread k = received c (log l)
  | None => concat (read_by c (log l)) `prefix_of` received c (log l)
  end.

Definition identity (f : frame) : Z * Z := (CommandSink.f_producer_id f, CommandSink.f_sequence f).

Record inv (l : ShmCommandListener) : Prop := {
  inv_last k : last_sequences l !! k = identity <$> last (accepted k (log l));
  inv_advances k : advances (accepted k (log l));
  inv_sent c : sent_by c (log l) ++ option_list (snd <$> pending l c) `sublist_of` commands (accepted_by c (log l));
  inv_read c : read_ok l c;
  inv_whole c : Forall (fun b => length b = CommandSink.FRAME_SIZE) (read_by c (log l));
  inv_accepted c : accepted_by c (log l) `sublist_of` map CommandSink.from_bytes (read_by c (log l));
  inv_in_time : Forall in_time (log l);
  inv_fresh c : (next_connection l ≤ c)%nat → connections l !! c = None ∧ received c (log l) = [] }.

Lemma received_app c l l' : received c (l ++ l') = received c l ++ received c l'.
Proof. unfold received. by rewrite omap_app, concat_app. Qed.
Lemma read_by_app c l l' : read_by c (l ++ l') = read_by c l ++ read_by c l'.
Proof. apply omap_app. Qed.
Lemma accepted_by_app c l l' : accepted_by c (l ++ l') = accepted_by c l ++ accepted_by c l'.
Proof. apply omap_app. Qed.
Lemma accepted_app k l l' : accepted k (l ++ l') = accepted k l ++ accepted k l'.
Proof. apply omap_app. Qed.
Lemma sent_by_app c l l' : sent_by c (l ++ l') = sent_by c l ++ sent_by c l'.
Proof. apply omap_app. Qed.
Lemma commands_app l l' : commands (l ++ l') = commands l ++ commands l'.
Proof. apply omap_app. Qed.
Lemma received_one c e :
  received c [e] = match e with LBytes c' bs => if decide (c = c') then bs else [] | _ => [] end.
Proof. destruct e; try done. unfold received. cbn. case_decide; cbn; by rewrite ?app_nil_r. Qed.
Lemma read_by_one c e :
  read_by c [e] = match e with LRead c' bs => if decide (c = c') then [bs] else [] | _ => [] end.
Proof. destruct e; try done. unfold read_by. cbn. by case_decide. Qed.
Lemma accepted_by_one c e :
  accepted_by c [e] = match e with LAccept c' f _ => if decide (c = c') then [f] else [] | _ => [] end.
Proof. destruct e; try done. unfold accepted_by. cbn. by case_decide. Qed.
Lemma accepted_one k e :
  accepted k [e] = match e with LAccept _ f _ => if decide (key_of f = k) then [f] else [] | _ => [] end.
Proof. destruct e; try done. unfold accepted. cbn. by case_decide. Qed.
Lemma sent_by_one c e :
  sent_by c [e] = match e with LSend c' _ m => if decide (c = c') then [m] else [] | _ => [] end.
Proof. destruct e; try done. unfold sent_by. cbn. by case_decide. Qed.
#[local] Hint Rewrite received_one read_by_one accepted_by_one accepted_one sent_by_one : listener.
#[local] Hint Rewrite received_app read_by_app accepted_by_app accepted_app sent_by_app commands_app app_nil_r : listener.

(** Reads the log after one more entry. *)
Ltac logged := cbn [log emit set_connection set_sequences connections last_sequences next_connection];
  repeat (progress autorewrite with listener; cbn iota).

Lemma advances_snoc fs g :
  advances fs → (∀ f, last fs = Some f → ahead f g) → advances (fs ++ [g]).
Proof.
  induction fs as [|f [|f' fs] IH]; [done| |].
  - intros _ H. cbn. split; [by apply H|done].
  - intros [Hf Ha] H. split; [done|]. by apply IH.
Qed.

Lemma filter_sequence_spec f m m' :
  filter_sequence f m = Some m' →
  m' = <[key_of f := identity f]> m ∧
  ∀ p s, m !! key_of f = Some (p, s) → p = CommandSink.f_producer_id f →
    CommandSink.f_sequence f ≠ s ∧ wrapping_sub 64 (CommandSink.f_sequence f) s < 2 ^ 63.
Proof.
  unfold filter_sequence. destruct (m !! key_of f) as [[p s]|]; [|intros [= <-]; split; [done|naive_solver]].
  unfold is_behind. case (Z.eqb_spec p (CommandSink.f_producer_id f)) as [->|Hp]; cbn [andb].
  - case (Z.ltb_spec (u_max 64 / 2) (wrapping_sub 64 (CommandSink.f_sequence f) s)) as [|Hs]; [done|].
    case (Z.eqb_spec (CommandSink.f_sequence f) s); [done|]. intros Hn [= <-]. split; [done|].
    intros p s' [= -> ->] _. split; [done|]. change (u_max 64 / 2) with (2 ^ 63 - 1) in Hs. lia.
  - intros [= <-]. split; [done|]. naive_solver.
Qed.

Lemma accept_spec now f m m' :
  accept now f m = Some m' → filter_sequence f m = Some m' ∧ ∀ c, in_time (LAccept c f now).
Proof.
  unfold accept. destruct (point_type f) eqn:Ht; [|done]. destruct (in_window now f) eqn:Hw; [|done].
  intros ->. split; [done|]. intros c. cbn. rewrite Ht. unfold in_window in Hw. destruct now as [t|]; [|done].
  apply negb_true_iff, orb_false_iff in Hw as [H1%Z.leb_gt H2%Z.leb_gt]. split_and!; [by eexists|lia|eauto].
Qed.

Lemma inv_new : inv listener_new.
Proof. split; try done. intros c. apply prefix_nil. Qed.

Lemma connect_inv l : inv l → inv (accept_connection l).
Proof.
  intros [H1 H2 H3 H4 H5 H6 H7 H8]. destruct (H8 (next_connection l)) as [Hn Hr]; [done|].
  split; cbn; auto.
  - intros c. specialize (H3 c). unfold pending in *. cbn. destruct (decide (next_connection l = c)) as [<-|].
    + rewrite lookup_insert_eq. by rewrite Hn in H3.
    + by rewrite lookup_insert_ne.
  - intros c. specialize (H4 c). unfold read_ok in *. cbn. destruct (decide (next_connection l = c)) as [<-|].
    + rewrite lookup_insert_eq. rewrite Hn, Hr in H4. apply prefix_nil_inv in H4. by rewrite Hr, H4.
    + by rewrite lookup_insert_ne.
  - intros c Hc. rewrite lookup_insert_ne by lia. apply H8. lia.
Qed.

Lemma arrive_inv c bs l : inv l → inv (arrive c bs l).
Proof.
  intros [H1 H2 H3 H4 H5 H6 H7 H8]. unfold arrive. destruct (connections l !! c) as [[u s]|] eqn:Hc; [|by split].
  split; logged; intros; logged; auto.
  - specialize (H3 c0). unfold pending in *. logged. destruct (decide (c = c0)) as [<-|].
    + rewrite lookup_insert_eq. by rewrite Hc in H3.
    + by rewrite lookup_insert_ne.
  - specialize (H4 c0). unfold read_ok in *. logged. destruct (decide (c = c0)) as [<-|].
    + rewrite lookup_insert_eq. rewrite Hc in H4. cbn [unread] in *. rewrite decide_True by done. by rewrite app_assoc, H4.
    + rewrite lookup_insert_ne, decide_False by done. by rewrite app_nil_r.
  - apply Forall_app. split; [done|]. by apply Forall_singleton.
  - assert (c ≠ c0) by (intros ->; naive_solver). rewrite lookup_insert_ne, decide_False by done. rewrite app_nil_r. auto.
Qed.

Lemma close_inv c l : inv l → inv (close_connection c l).
Proof.
  intros [H1 H2 H3 H4 H5 H6 H7 H8]. unfold close_connection. destruct (connections l !! c) as [[u [|]]|] eqn:Hc; [by split| |by split].
  split; cbn; auto.
  - intros c0. specialize (H3 c0). unfold pending in *. cbn. destruct (decide (c = c0)) as [<-|].
    + rewrite lookup_delete_eq. by rewrite Hc in H3.
    + by rewrite lookup_delete_ne.
  - intros c0. specialize (H4 c0). unfold read_ok in *. cbn. destruct (decide (c = c0)) as [<-|].
    + rewrite lookup_delete_eq. rewrite Hc in H4. rewrite <- H4. by apply prefix_app_r.
    + by rewrite lookup_delete_ne.
  - intros c0 Hn. destruct (H8 c0 Hn). split; [|done]. destruct (decide (c = c0)) as [<-|];
      [by rewrite lookup_delete_eq|by rewrite lookup_delete_ne].
Qed.

(** The entry of a connection that has sent its command, or given it up. *)
Lemma sent_pending c bs channel m l :
  inv l → connections l !! c = Some (Conn bs (Some (channel, m))) →
  inv (set_connection c (Conn bs None) l) ∧ ∀ q, inv (emit (LSend c q m) (set_connection c (Conn bs None) l)).
Proof.
  intros [H1 H2 H3 H4 H5 H6 H7 H8] Hc.
  assert (∀ c0, read_ok (set_connection c (Conn bs None) l) c0) as Hr.
  { intros c0. specialize (H4 c0). unfold read_ok in *. logged. destruct (decide (c = c0)) as [<-|].
    - rewrite lookup_insert_eq. by rewrite Hc in H4.
    - by rewrite lookup_insert_ne. }
  assert (∀ c0, (next_connection l ≤ c0)%nat → <[c:=Conn bs None]> (connections l) !! c0 = None) as Hf.
  { intros c0 Hn. destruct (H8 c0 Hn). rewrite lookup_insert_ne; [done|]. intros ->. naive_solver. }
  assert (∀ c0, sent_by c0 (log l) ++ (if decide (c0 = c) then [m] else []) ++
    option_list (snd <$> pending (set_connection c (Conn bs None) l) c0) `sublist_of` commands (accepted_by c0 (log l))) as Hs.
  { intros c0. specialize (H3 c0). unfold pending in *. logged. case_decide as Hd.
    - subst c0. rewrite Hc in H3. rewrite lookup_insert_eq. exact H3.
    - by rewrite lookup_insert_ne. }
  split; [|intros q]; split; logged; intros; logged; auto.
  - etransitivity; [|apply Hs]. apply sublist_app; [done|]. apply sublist_inserts_l. done.
  - naive_solver.
  - rewrite <- app_assoc. apply Hs.
  - specialize (Hr c0). unfold read_ok in *. by logged.
  - apply Forall_app. split; [done|]. by apply Forall_singleton.
  - naive_solver.
Qed.

Lemma deliver_inv c o l : inv l → inv (deliver c o l).
Proof.
  intros H. unfold deliver. destruct (connections l !! c) as [[bs [[channel m]|]]|] eqn:Hc; [|done..].
  destruct (sent_pending _ _ _ _ _ H Hc) as [H1 H2]. cbn [command_senders set_connection].
  destruct (command_senders l !! channel) as [q|]; [|done]. destruct o; [apply H2|done|]. by destruct H1.
Qed.

(** A frame that is read and not accepted. *)
Lemma read_inv c bs l :
  inv l → connections l !! c = Some (Conn bs None) → (CommandSink.FRAME_SIZE ≤ length bs)%nat →
  inv (set_connection c (Conn (drop CommandSink.FRAME_SIZE bs) None) (emit (LRead c (take CommandSink.FRAME_SIZE bs)) l)).
Proof.
  intros [H1 H2 H3 H4 H5 H6 H7 H8] Hc Hl. split; logged; intros; logged; auto.
  - specialize (H3 c0). unfold pending in *. logged. destruct (decide (c = c0)) as [<-|].
    + rewrite lookup_insert_eq. by rewrite Hc in H3.
    + by rewrite lookup_insert_ne.
  - specialize (H4 c0). unfold read_ok in *. logged. rewrite concat_app. destruct (decide (c = c0)) as [<-|].
    + rewrite lookup_insert_eq. rewrite Hc in H4. cbn [unread] in *. rewrite decide_True by done. cbn [concat].
      by rewrite app_nil_r, <- app_assoc, take_drop.
    + rewrite lookup_insert_ne, decide_False by done. cbn [concat]. by rewrite app_nil_r.
  - apply Forall_app. split; [done|]. case_decide; [|done]. apply Forall_singleton. rewrite length_take. lia.
  - rewrite map_app. by apply sublist_inserts_r.
  - apply Forall_app. split; [done|]. by apply Forall_singleton.
  - assert (c ≠ c0) by (intros ->; naive_solver). rewrite lookup_insert_ne by done. auto.
Qed.

(** A frame that is read and accepted, before its command is sent. *)
Lemma accept_inv c bs now m f l :
  f = CommandSink.from_bytes (take CommandSink.FRAME_SIZE bs) → inv l → connections l !! c = Some (Conn bs None) → (CommandSink.FRAME_SIZE ≤ length bs)%nat →
  accept now f (last_sequences l) = Some m →
  inv (set_connection c (Conn (drop CommandSink.FRAME_SIZE bs) (command_of f))
    (emit (LAccept c f now) (set_sequences m (emit (LRead c (take CommandSink.FRAME_SIZE bs)) l)))).
Proof.
  intros Ef Hi Hc Hl Hm. pose proof (read_inv c bs l Hi Hc Hl) as [_ _ _ R4 R5 _ R7 R8].
  destruct Hi as [H1 H2 H3 H4 H5 H6 H7 H8]. destruct (accept_spec _ _ _ _ Hm) as [[-> Hf]%filter_sequence_spec Ht].
  split; logged; intros; logged; auto.
  - destruct (decide (key_of f = k)) as [<-|]; [by rewrite lookup_insert_eq, last_snoc|].
    rewrite lookup_insert_ne by done. by rewrite app_nil_r.
  - case_decide as Hk; [|by rewrite app_nil_r]. apply advances_snoc; [done|]. intros g Hg Hp.
    rewrite <- Hk in Hg. apply (Hf (CommandSink.f_producer_id g)); [|done]. by rewrite H1, Hg.
  - specialize (H3 c0). unfold pending in *. logged. destruct (decide (c = c0)) as [<-|].
    + rewrite lookup_insert_eq, decide_True by done. rewrite Hc in H3. cbn in H3. rewrite app_nil_r in H3.
      cbn. apply sublist_app; [done|]. unfold commands. cbn. by destruct (command_of f).
    + rewrite lookup_insert_ne, decide_False by done. cbn. by rewrite app_nil_r.
  - specialize (R4 c0). unfold read_ok in *. revert R4. logged. by destruct (decide (c = c0)) as [<-|];
      rewrite ?lookup_insert_eq, ?lookup_insert_ne by done.
  - specialize (R5 c0). revert R5. by logged.
  - rewrite map_app. specialize (H6 c0). apply sublist_app; [done|]. subst f. by repeat case_decide.
  - apply Forall_app. split; [revert R7; by logged|]. by apply Forall_singleton.
  - destruct (R8 c0) as [Ra Rb]; [done|]. revert Ra Rb. logged. intros Ra Rb. split; [|done].
    assert (c ≠ c0) by (intros ->; naive_solver). rewrite lookup_insert_ne in * by done. done.
Qed.

Lemma listener_step_inv l e : inv l → inv (step l e).
Proof.
  destruct e as [|c bs|c now|c o|c|channel q|channel]; cbn [step]; intros Hi.
  - by apply connect_inv.
  - by apply arrive_inv.
  - unfold read_frame. destruct (connections l !! c) as [[bs [|]]|] eqn:Hc; [done| |done].
    destruct (Nat.ltb_spec (length bs) CommandSink.FRAME_SIZE); [done|]. cbn [last_sequences emit].
    destruct (accept _ _ _) eqn:Hm; [by apply accept_inv|by apply read_inv].
  - by apply deliver_inv.
  - by apply close_inv.
  - by destruct Hi.
  - by destruct Hi.
Qed.

Lemma run_inv es : inv (run es).
Proof. unfold run. generalize inv_new. generalize listener_new. induction es; cbn; auto using listener_step_inv. Qed.

(** ** What the filter promises *)

(** For every interleaving of connections, arrivals, registrations and send outcomes:
    the frames accepted for a point never repeat or fall behind within one producer,
    and every accepted frame is command-owned, has a proper window and is not
    expired; each connection hands over, in order and at most once each, commands
    of the frames accepted on it. *)
Theorem listener_filters (es : list event) :
  (∀ k, advances (accepted k (log (run es)))) ∧
  (∀ c, sent_by c (log (run es)) `sublist_of` commands (accepted_by c (log (run es)))) ∧
  Forall in_time (log (run es)).
Proof.
  destruct (run_inv es) as [_ H2 H3 _ _ _ H7 _]. split_and!; [done| |done].
  intros c. etransitivity; [|apply H3]. by apply sublist_inserts_r.
Qed.

(** ** From the sink to the channel queues *)

(** A command and the sequence number the sink gave it. *)
Abbreviation numbered := (PhysicalDeviceCommand * Z)%type.

Definition well_formed (n : numbered) : Prop :=
  in_u 32 (cc_channel_id (d_target n.1)) ∧ in_u 32 (cc_point_id (d_target n.1)) ∧
  in_u 63 (d_issued_at n.1) ∧ in_u 63 (d_expires_at n.1) ∧ in_u 63 n.2 ∧ canonical (d_value n.1) = true.

Definition frames_of (producer : Z) (ns : list numbered) : list frame :=
  omap (fun n => CommandSink.frame_new n.1 producer n.2) ns.

(** What the channel task gets for a command the sink sent. *)
Definition channel_command (producer : Z) (n : numbered) : option ChannelCommand :=
  let id := uds_command_id producer n.2 in
  match cc_kind (d_target n.1) with
  | Command => Some (Control id (cc_point_id (d_target n.1)) (d_value n.1) (d_issued_at n.1) (d_expires_at n.1))
  | Action => Some (Adjustment id (cc_point_id (d_target n.1)) (d_value n.1) (d_issued_at n.1) (d_expires_at n.1))
  | Telemetry | Status => None
  end.

(** Chunks of equal size are a prefix when their concatenation is. *)
Lemma chunks_prefix {A} (n : nat) (xs ys : list (list A)) :
  n ≠ 0%nat → Forall (fun b => length b = n) xs → Forall (fun b => length b = n) ys →
  concat xs `prefix_of` concat ys → xs `prefix_of` ys.
Proof.
  intros Hn Hx. revert ys. induction Hx as [|x xs Hx Hxs IH]; intros ys Hy Hp; [apply prefix_nil|].
  destruct Hy as [|y ys Hy Hys]; cbn in Hp.
  - destruct Hp as [k Hk]. destruct x; [cbn in Hx; lia|done].
  - assert (x = y) as ->.
    { destruct Hp as [k Hk]. rewrite <- app_assoc in Hk. apply app_inj_1 in Hk; [by destruct Hk|congruence]. }
    apply prefix_cons, IH; [done|]. by apply prefix_app_inv in Hp.
Qed.

Lemma frame_new_roundtrip p n f :
  in_u 64 p → well_formed n → CommandSink.frame_new n.1 p n.2 = Some f →
  length (CommandSink.to_bytes f) = CommandSink.FRAME_SIZE ∧ CommandSink.from_bytes (CommandSink.to_bytes f) = f.
Proof.
  intros Hp (H1 & H2 & H3 & H4 & H5 & H6) Hf. split.
  - apply CommandSink.to_bytes_length. by rewrite (CommandSink.frame_new_padding _ _ _ _ Hf).
  - unfold in_u in *. apply (CommandSink.frame_from_to n.1 p n.2); unfold in_u; try done; lia.
Qed.

Lemma frame_new_command p n f m :
  well_formed n → CommandSink.frame_new n.1 p n.2 = Some f → command_of f = Some m →
  channel_command p n = Some m.2.
Proof.
  intros (_ & _ & H3 & H4 & _ & H6) Hf Hm. unfold CommandSink.frame_new in Hf. unfold channel_command, command_of in *.
  unfold in_u in H3, H4. destruct (cc_kind (d_target n.1)); try done; injection Hf as <-; cbn in Hm;
    unfold CommandSink.frame_value in Hm; cbn [CommandSink.f_value_bits] in Hm; rewrite from_to_bits in Hm by done;
    (destruct (validate_value unbounded (d_value n.1)); try done); injection Hm as <-; cbn [snd];
    unfold as_i64; (destruct (Z.ltb_spec (d_issued_at n.1) (2 ^ 63)); [|lia]); by rewrite Z.min_l by lia.
Qed.

Lemma advances_sorted p fs :
  Forall (fun f => CommandSink.f_producer_id f = p ∧ in_u 63 (CommandSink.f_sequence f)) fs → advances fs →
  StronglySorted Z.lt (map CommandSink.f_sequence fs).
Proof.
  intros Hf Ha. apply Sorted_StronglySorted; [intros ???; lia|]. revert Ha.
  induction Hf as [|f [|g fs] [Hp Hs] Hfs IH]; [constructor|by repeat constructor|].
  intros [Hg Ha]. constructor; [by apply IH|]. constructor. inversion Hfs as [|?? [Hp' Hs'] _]; subst.
  destruct (Hg (eq_sym Hp')) as [Hn Hw]. unfold in_u, wrapping_sub, wrap in *.
  destruct (Z.lt_trichotomy (CommandSink.f_sequence f) (CommandSink.f_sequence g)) as [|[|Hgt]]; [done|congruence|].
  exfalso. rewrite <- (Z.mod_unique_pos _ (2 ^ 64) (-1) (CommandSink.f_sequence g - CommandSink.f_sequence f + 2 ^ 64)) in Hw; lia.
Qed.

Section Composition.
Context (es : list event) (p : Z) (out : nat → list numbered).
Hypothesis Hp : in_u 64 p.
Hypothesis Hout : ∀ c, Forall well_formed (out c).
(** On each connection, the bytes that arrived so far are those of the sink's frames. *)
Hypothesis Hbytes : ∀ c,
  received c (log (run es)) `prefix_of` concat (map CommandSink.to_bytes (frames_of p (out c))).

Lemma accepted_from_sink c : accepted_by c (log (run es)) `sublist_of` frames_of p (out c).
Proof.
  destruct (run_inv es) as [_ _ _ H4 H5 H6 _ _]. etransitivity; [apply H6|].
  assert (Forall (fun f => length (CommandSink.to_bytes f) = CommandSink.FRAME_SIZE ∧
    CommandSink.from_bytes (CommandSink.to_bytes f) = f) (frames_of p (out c))) as Hf.
  { apply Forall_forall. intros f (n & Hn & Hnf)%list_elem_of_omap. eapply frame_new_roundtrip; eauto.
    by eapply Forall_forall in Hout. }
  assert (read_by c (log (run es)) `prefix_of` map CommandSink.to_bytes (frames_of p (out c))) as [k Hk].
  { apply (chunks_prefix CommandSink.FRAME_SIZE); [done|done| |].
    - apply Forall_map. eapply Forall_impl; [exact Hf|]. by intros ? [].
    - etransitivity; [|apply Hbytes]. specialize (H4 c). unfold read_ok in H4.
      destruct (connections _ !! c); [|done]. rewrite <- H4. by apply prefix_app_r. }
  transitivity (map CommandSink.from_bytes (map CommandSink.to_bytes (frames_of p (out c)))).
  - rewrite Hk, map_app. by apply sublist_inserts_r.
  - rewrite map_map. clear Hk. induction Hf as [|f fs [_ Hr] _ IH]; cbn [map]; [done|]. rewrite Hr. by constructor.
Qed.

Lemma commands_from_sink c : commands (frames_of p (out c)) `sublist_of` omap (channel_command p) (out c).
Proof.
  unfold frames_of. induction (Hout c) as [|n ns Hn _ IH]; [done|]. cbn [omap list_omap].
  destruct (CommandSink.frame_new n.1 p n.2) as [f|] eqn:Hf.
  - unfold commands. cbn [omap list_omap]. destruct (command_of f) as [m|] eqn:Hm; cbn.
    + rewrite (frame_new_command _ _ _ _ Hn Hf Hm). by constructor.
    + destruct (channel_command p n); [by constructor|done].
  - destruct (channel_command p n); [by constructor|done].
Qed.

Lemma sent_from_sink c : sent_by c (log (run es)) `sublist_of` omap (channel_command p) (out c).
Proof.
  destruct (run_inv es) as [_ _ H3 _ _ _ _ _]. etransitivity; [|apply commands_from_sink]. etransitivity; [by apply sublist_inserts_r|].
  etransitivity; [apply H3|]. unfold commands. induction (accepted_from_sink c); cbn; [done|by case_match; [constructor|]|].
  case_match; [by constructor|done].
Qed.

(** C24. What the sink wrote is what the channel tasks get, at most once: however the
    connections interleave and whatever is lost, the commands a connection hands
    over are, in order, commands the sink sent on it, with their identity, point,
    value and window unchanged, and per point their sequence numbers strictly
    increase across all connections. *)
Theorem sink_commands_once :
  (∀ c, sent_by c (log (run es)) `sublist_of` omap (channel_command p) (out c)) ∧
  (∀ k, StronglySorted Z.lt (map CommandSink.f_sequence (accepted k (log (run es))))).
Proof.
  split; [apply sent_from_sink|]. destruct (run_inv es) as [_ H2 _ _ _ _ _ _]. intros k.
  apply (advances_sorted p); [|done]. apply Forall_forall. intros f (e & He & Hf)%list_elem_of_omap.
  destruct e as [| |c f' now|]; try done. case_decide; [|done]. injection Hf as ->.
  assert (f ∈ frames_of p (out c)) as (n & Hn & Hnf)%list_elem_of_omap.
  { eapply elem_of_sublist; [|apply accepted_from_sink]. apply list_elem_of_omap. exists (LAccept c f now).
    by rewrite decide_True. }
  pose proof (Hout c) as Ho. eapply Forall_forall in Ho as (_ & _ & _ & _ & Hs & _); [|exact Hn].
  unfold CommandSink.frame_new in Hnf. by destruct (cc_kind (d_target n.1)); try done; injection Hnf as <-.
Qed.
End Composition.

(** ** A run: the sink reconnects and repeats its last frame *)

Module Sample.
Definition first : numbered := (CommandSink.Sample.command, 1).
Definition second : numbered := (Physical 6 (Domain.ChannelCommand 7 Action 1) zero 1000 6000, 2).
Definition out (c : nat) : list numbered :=
  match c with 0%nat => [first; second] | 1%nat => [second] | _ => [] end.
Definition wire (ns : list numbered) : list Z := concat (map CommandSink.to_bytes (frames_of 77 ns)).

(** The last byte of the first connection is lost; its end is noticed late. *)
Definition events : list event :=
  [ ERegister 7 0; EConnect; EArrive 0 (take 60 (wire [first; second])); ERead 0 (Some 1500);
    EConnect; EArrive 1 (wire [second]); EArrive 0 (take 51 (drop 60 (wire [first; second])));
    ERead 0 (Some 1501); ERead 1 (Some 1501); EDeliver 1 Sent; EDeliver 0 Sent; EClose 0; ERead 1 (Some 1502) ].

Definition command_1 : ChannelCommand := Adjustment "uds-000000000000004d-1" 1 one 1000 6000.
Definition command_2 : ChannelCommand := Adjustment "uds-000000000000004d-2" 1 zero 1000 6000.

(** Two connections are not ordered with each other: the older command was accepted
    first and reaches the queue last. *)
Example overtaken :
  omap (fun e => match e with LSend c q m => Some (c, q, m) | _ => None end) (log (run events)) =
    [(1%nat, 0%nat, command_2); (0%nat, 0%nat, command_1)] ∧
  map CommandSink.f_sequence (accepted (7, 3, 1) (log (run events))) = [1; 2].
Proof. by vm_compute. Qed.

(** A repeated frame, one that expired and one that is not finite are not handed over. *)
Definition nan_third : numbered := (Physical 6 (Domain.ChannelCommand 7 Action 1) NAN 1000 6000, 3).
Definition odd_events : list event :=
  ERegister 7 0 :: EConnect :: EArrive 0 (wire [first; first; second; nan_third]) ::
  concat (map (fun now => [ERead 0 (Some now); EDeliver 0 Sent]) [1500; 1501; 6000; 1502]).
Example discarded :
  sent_by 0 (log (run odd_events)) = [command_1] ∧
  map CommandSink.f_sequence (accepted (7, 3, 1) (log (run odd_events))) = [1; 3].
Proof. by vm_compute. Qed.

Lemma sink_commands_once_witness :
  (∀ c, sent_by c (log (run events)) `sublist_of` omap (channel_command 77) (out c)) ∧
  StronglySorted Z.lt (map CommandSink.f_sequence (accepted (7, 3, 1) (log (run events)))).
Proof.
  destruct (sink_commands_once events 77 out) as [H1 H2].
  - by vm_compute.
  - intros [|[|c]]; [repeat constructor..|constructor]; vm_compute; congruence.
  - intros [|[|c]].
    + eexists. vm_compute. reflexivity.
    + eexists. vm_compute. reflexivity.
    + exists []. reflexivity.
  - split; [exact H1|exact (H2 (7, 3, 1))].
Defined.
End Sample.
End CommandListener.
