(* ===== verification/Routing.v ===== *)
(** * The routing cache (libs/aether-routing/src/{loader,routing_cache}.rs)

    Enabled rows of the routing tables become string maps, and the string maps
    become the structured tables that IO looks routes up in.  A [HashMap] is
    consumed in an arbitrary order.  [update] replaces the tables one after the
    other, so a reader may run between two replacements. *)

From Stdlib Require Import Ascii.
From stdpp Require Import base tactics numbers list gmap strings pretty.
From S2P Require Import Prelude Text Float Domain Watch.
#[local] Open Scope Z_scope.

Module Routing.
Import Float Domain.

Abbreviation route_key := (Z * PointKind * Z)%type.

Record C2MTarget := C2M { mt_instance_id : Z; mt_point_id : Z }.
Record C2CTarget := C2C {
  ct_channel_id : Z; ct_point_kind : PointKind; ct_point_id : Z; ct_scale : f64; ct_offset : f64 }.
Record M2CTarget := M2C { nt_channel_id : Z; nt_point_kind : PointKind; nt_point_id : Z }.

#[global] Instance C2MTarget_eq_dec : EqDecision C2MTarget.
Proof. solve_decision. Defined.
#[global] Instance M2CTarget_eq_dec : EqDecision M2CTarget.
Proof. solve_decision. Defined.

Definition transform (t : C2CTarget) (value : f64) : f64 := add (mul (ct_scale t) value) (ct_offset t).

(** ** Parsing (routing_cache.rs) *)

(** [str::split(c)]. *)
Fixpoint split (c : ascii) (s : string) : list string :=
  match s with
  | "" => [""]
  | String x s =>
      if (x =? c)%char then "" :: split c s
      else match split c s with h :: t => String x h :: t | [] => [String x ""] end
  end.

(** The first piece of [splitn], and what is left for the others. *)
Fixpoint split_once (c : ascii) (s : string) : string * option string :=
  match s with
  | "" => ("", None)
  | String x s =>
      if (x =? c)%char then ("", Some s)
      else let '(h, t) := split_once c s in (String x h, t)
  end.

(** [str::parse::<u32>()]: an optional plus sign, and digits. *)
Definition strip_plus (s : string) : string :=
  match s with String c s' => if (c =? "+")%char then s' else s | "" => s end.
Definition parse_u32 (s : string) : option Z :=
  match digits 0 0 (strip_plus s) with
  | (v, S _, "") => if v <? 2 ^ 32 then Some v else None
  | _ => None
  end.

Definition parse_c2m_target (s : string) : option C2MTarget :=
  match split ":" s with
  | [a; _; b] => i ← parse_u32 a; p ← parse_u32 b; Some (C2M i p)
  | _ => None
  end.

Definition parse_point_type (s : string) : option PointKind :=
  if bool_decide (s = "T") then Some Telemetry
  else if bool_decide (s = "S") then Some Status
  else if bool_decide (s = "C") then Some Command
  else if bool_decide (s = "A") then Some Action
  else None.

Definition parse_channel_point (s : string) : option route_key :=
  match split ":" s with
  | [a; k; b] => i ← parse_u32 a; k ← parse_point_type k; p ← parse_u32 b; Some (i, k, p)
  | _ => None
  end.

Definition parse_c2c_value (s : string) : option C2CTarget :=
  let '(target, rest) := split_once "|" s in
  match parse_channel_point target with
  | None => None
  | Some (c, k, p) =>
      let second := split_once "|" <$> rest in
      let scale := fst <$> second in
      let offset := second ≫= snd in
      Some (C2C c k p (default one (scale ≫= parse_f64)) (default zero (offset ≫= parse_f64)))
  end.

(** ** The tables (routing_cache.rs) *)

Record RoutingCache := Cache {
  c2m : gmap route_key C2MTarget;
  c2c : gmap route_key C2CTarget;
  m2c : gmap route_key M2CTarget;
  c2m_reverse : gmap (Z * Z) route_key }.

Definition cache_new : RoutingCache := Cache ∅ ∅ ∅ ∅.

(** Insertion of the entries that parse, in the order the map yields them. *)
Definition insert_parsed {K V} `{Countable K} (parse : string * string → option (K * V))
    (m : gmap K V) (kv : string * string) : gmap K V :=
  match parse kv with Some (k, v) => <[k := v]> m | None => m end.
Definition build {K V} `{Countable K} (parse : string * string → option (K * V))
    (data : list (string * string)) : gmap K V :=
  fold_left (insert_parsed parse) data ∅.

Definition parse_c2m (kv : string * string) : option (route_key * C2MTarget) :=
  k ← parse_channel_point kv.1; t ← parse_c2m_target kv.2; Some (k, t).
Definition parse_reverse (kv : string * string) : option (Z * Z * route_key) :=
  '(k, t) ← parse_c2m kv; Some ((mt_instance_id t, mt_point_id t), k).
Definition parse_m2c (kv : string * string) : option (route_key * M2CTarget) :=
  k ← parse_channel_point kv.1; '(c, t, p) ← parse_channel_point kv.2; Some (k, M2C c t p).
Definition parse_c2c (kv : string * string) : option (route_key * C2CTarget) :=
  k ← parse_channel_point kv.1; t ← parse_c2c_value kv.2; Some (k, t).

Definition build_tables (c2m_data m2c_data c2c_data : list (string * string)) : RoutingCache :=
  Cache (build parse_c2m c2m_data) (build parse_c2c c2c_data) (build parse_m2c m2c_data)
    (build parse_reverse c2m_data).
Definition from_maps := build_tables.

Definition lookup_c2m_by_parts (r : RoutingCache) (c : Z) (k : PointKind) (p : Z) : option C2MTarget :=
  c2m r !! (c, k, p).
Definition lookup_c2m (r : RoutingCache) (key : string) : option C2MTarget :=
  k ← parse_channel_point key; c2m r !! k.
Definition lookup_c2m_reverse (r : RoutingCache) (i p : Z) : option route_key := c2m_reverse r !! (i, p).
Definition lookup_m2c_by_parts (r : RoutingCache) (i : Z) (k : PointKind) (p : Z) : option M2CTarget :=
  m2c r !! (i, k, p).
Definition lookup_m2c (r : RoutingCache) (key : string) : option M2CTarget :=
  k ← parse_channel_point key; m2c r !! k.
Definition lookup_c2c_by_parts (r : RoutingCache) (c : Z) (k : PointKind) (p : Z) : option C2CTarget :=
  c2c r !! (c, k, p).

(** [update]: four replacements, each of them atomic. *)
Definition update_steps (new : RoutingCache) : list (RoutingCache → RoutingCache) :=
  [ fun r => Cache (c2m new) (c2c r) (m2c r) (c2m_reverse r);
    fun r => Cache (c2m r) (c2c new) (m2c r) (c2m_reverse r);
    fun r => Cache (c2m r) (c2c r) (m2c new) (c2m_reverse r);
    fun r => Cache (c2m r) (c2c r) (m2c r) (c2m_reverse new) ].
Definition update (new r : RoutingCache) : RoutingCache := fold_left (fun r f => f r) (update_steps new) r.

(** What [content_hash] hashes: the two tables it loads, one after the other, with
    [between] replacements of a concurrent [update] before the first load and
    between the two. *)
Definition hashed (before between : nat) (new r : RoutingCache)
    : gmap route_key C2MTarget * gmap route_key M2CTarget :=
  let r1 := fold_left (fun r f => f r) (take before (update_steps new)) r in
  let r2 := fold_left (fun r f => f r) (take (before + between) (update_steps new)) r in
  (c2m r1, m2c r2).

(** ** Loading (loader.rs) *)

Definition parse_channel_point_kind (value : string) : option PointKind :=
  let l := lowercase value in
  if bool_decide (l = "t" ∨ l = "yc") then Some Telemetry
  else if bool_decide (l = "s" ∨ l = "yx") then Some Status
  else if bool_decide (l = "c" ∨ l = "yk") then Some Command
  else if bool_decide (l = "a" ∨ l = "yt") then Some Action
  else None.

Definition kind_code (k : PointKind) : string :=
  match k with Telemetry => "T" | Status => "S" | Command => "C" | Action => "A" end.
Definition channel_route_key (channel : Z) (k : PointKind) (point : Z) : string :=
  pretty channel +:+ ":" +:+ kind_code k +:+ ":" +:+ pretty point.

(** The enabled rows of the three tables. *)
Record measurement_row := MRow { mr_instance : Z; mr_channel : Z; mr_type : string; mr_channel_point : Z; mr_measurement : Z }.
Record action_row := ARow { ar_instance : Z; ar_action : Z; ar_channel : Z; ar_type : string; ar_channel_point : Z }.
Record channel_row := CRow {
  cr_source_channel : Z; cr_source_type : string; cr_source_point : Z;
  cr_target_channel : Z; cr_target_type : string; cr_target_point : Z; cr_scale : f64; cr_offset : f64 }.

(** One row's entry, if its types are known. *)
Definition c2m_entry (r : measurement_row) : option (string * string) :=
  k ← parse_channel_point_kind (mr_type r);
  Some (channel_route_key (mr_channel r) k (mr_channel_point r),
        pretty (mr_instance r) +:+ ":" +:+ "M" +:+ ":" +:+ pretty (mr_measurement r)).
Definition m2c_entry (r : action_row) : option (string * string) :=
  k ← parse_channel_point_kind (ar_type r);
  Some (channel_route_key (ar_instance r) Action (ar_action r),
        channel_route_key (ar_channel r) k (ar_channel_point r)).
Definition c2c_entry (r : channel_row) : option (string * string) :=
  s ← parse_channel_point_kind (cr_source_type r);
  t ← parse_channel_point_kind (cr_target_type r);
  let to_key := channel_route_key (cr_target_channel r) t (cr_target_point r) in
  Some (channel_route_key (cr_source_channel r) s (cr_source_point r),
        if eqb (cr_scale r) one && eqb (cr_offset r) zero then to_key
        else to_key +:+ "|" +:+ to_string (cr_scale r) +:+ "|" +:+ to_string (cr_offset r)).

Definition load {R} (entry : R → option (string * string)) (rows : list R) : gmap string string :=
  fold_left (fun m r => match entry r with Some (k, v) => <[k := v]> m | None => m end) rows ∅.
Definition load_c2m_routes := load c2m_entry.
Definition load_m2c_routes := load m2c_entry.
(** A database without the table has no such routes. *)
Definition load_c2c_routes (rows : option (list channel_row)) : gmap string string :=
  match rows with Some rows => load c2c_entry rows | None => ∅ end.

(** ** Printing and parsing *)

(** No [c] in the string. *)
Fixpoint free (c : ascii) (s : string) : bool :=
  match s with "" => true | String x s => negb (x =? c)%char && free c s end.

Lemma free_app c s t : free c (s +:+ t) = free c s && free c t.
Proof.
  induction s as [|x s IH]; [done|]. change (String x s +:+ t) with (String x (s +:+ t)). cbn [free].
  by rewrite IH, andb_assoc.
Qed.

Lemma below_ten (P : N → Prop) x :
  (x < 10)%N → P 0%N → P 1%N → P 2%N → P 3%N → P 4%N → P 5%N → P 6%N → P 7%N → P 8%N → P 9%N → P x.
Proof.
  intros Hx. intros. assert (x = 0 ∨ x = 1 ∨ x = 2 ∨ x = 3 ∨ x = 4 ∨ x = 5 ∨ x = 6 ∨ x = 7 ∨ x = 8 ∨ x = 9)%N
    as H' by lia. by destruct_or! H'; subst.
Qed.

Lemma digit_pretty x : (x < 10)%N → digit (pretty_N_char x) = Some (Z.of_N x).
Proof. intros Hx. by apply (below_ten (fun x => digit (pretty_N_char x) = Some (Z.of_N x))). Qed.

Lemma digits_go x : ∃ len, ((0 < x)%N → len ≠ 0%nat) ∧ ∀ s acc k,
  digits acc k (pretty_N_go x s) = digits (acc * 10 ^ Z.of_nat len + Z.of_N x) (k + len) s.
Proof.
  induction (N.lt_wf_0 x) as [x _ IH]. destruct (decide (0 < x)%N) as [Hx|Hx].
  - destruct (IH (x / 10)%N) as (len & _ & Hlen); [by apply N.div_lt|]. exists (S len). split; [done|].
    intros s acc k. rewrite pretty_N_go_step by done. rewrite Hlen. cbn [digits].
    rewrite digit_pretty by (apply N.mod_lt; done). f_equal; [|lia].
    rewrite (Nat2Z.inj_succ len), Z.pow_succ_r by lia. rewrite N2Z.inj_div, N2Z.inj_mod.
    pose proof (Z.div_mod (Z.of_N x) 10). lia.
  - replace x with 0%N by lia. exists 0%nat. split; [done|]. intros s acc k. rewrite pretty_N_go_0. f_equal; lia.
Qed.

(** Every character of a printed number is a digit. *)
Lemma pretty_go_chars (P : string → Prop) x s :
  (∀ d s, (d < 10)%N → P s → P (String (pretty_N_char d) s)) → P s → P (pretty_N_go x s).
Proof.
  intros HP. revert s. induction (N.lt_wf_0 x) as [x _ IH]. intros s Hs. destruct (decide (0 < x)%N) as [Hx|Hx].
  - rewrite pretty_N_go_step by done. apply IH; [by apply N.div_lt|]. apply HP; [by apply N.mod_lt|done].
  - by replace x with 0%N by lia.
Qed.

Lemma parse_u32_pretty z : in_u 32 z → parse_u32 (pretty z) = Some z.
Proof.
  intros [Hz Hb]. unfold parse_u32. destruct z as [|p|]; [done| |lia].
  change (pretty (Zpos p)) with (pretty_N_go (Npos p) "").
  replace (strip_plus (pretty_N_go (Npos p) "")) with (pretty_N_go (Npos p) "").
  2: { symmetry. apply (pretty_go_chars (fun s => strip_plus s = s)); [|done]. intros d s Hd _.
       by apply (below_ten (fun d => strip_plus (String (pretty_N_char d) s) = String (pretty_N_char d) s)). }
  destruct (digits_go (Npos p)) as (len & Hl & ->). cbn [digits]. destruct len as [|len]; [by destruct Hl|].
  cbn [Nat.add]. rewrite Z.mul_0_l, Z.add_0_l. cbn [Z.of_N]. destruct (Z.ltb_spec (Zpos p) (2 ^ 32)); [done|lia].
Qed.

Lemma free_pretty c (z : Z) : digit c = None → c ≠ "-"%char → free c (pretty z) = true.
Proof.
  intros Hc Hd. assert (∀ p, free c (pretty_N_go (Npos p) "") = true) as Hp.
  { intros p. apply (pretty_go_chars (fun s => free c s = true)); [|done]. intros d s Hd' Hs. cbn [free].
    rewrite Hs, andb_true_r. apply negb_true_iff, Ascii.eqb_neq. intros <-. by rewrite digit_pretty in Hc. }
  assert (free c "0" = true) as H0.
  { cbn [free]. rewrite andb_true_r. apply negb_true_iff, Ascii.eqb_neq. by intros <-. }
  destruct z as [|p|p]; [done|apply Hp|]. change (pretty (Zneg p)) with ("-" +:+ pretty_N_go (Npos p) "").
  rewrite free_app, Hp, andb_true_r. cbn [free]. rewrite andb_true_r. apply negb_true_iff, Ascii.eqb_neq. congruence.
Qed.

Lemma free_to_string (x : f64) : free "|" (to_string x) = true.
Proof.
  assert (∀ z : Z, free "|" (pretty z) = true) as Hp by (intros; by apply free_pretty).
  assert (∀ n d, free "|" (padded n d) = true) as Hpad.
  { induction n; intros d; cbn [padded]; [done|]. by rewrite free_app, IHn, Hp. }
  destruct x as [s|s| |s m e]; [by destruct s..|done|]. unfold to_string. cbv zeta.
  destruct (shortest _ _ _ _ _ _) as [d p]. rewrite free_app. apply andb_true_intro. split; [by destruct s|].
  case_match; [apply Hp|]. by rewrite !free_app, Hp, Hpad.
Qed.

Lemma split_app c s t : free c s = true → split c (s +:+ String c t) = s :: split c t.
Proof.
  induction s as [|x s IH]; cbn [free].
  - intros _. change ("" +:+ String c t) with (String c t). cbn [split]. by rewrite Ascii.eqb_refl.
  - intros [Hx%negb_true_iff Hs]%andb_prop. change (String x s +:+ String c t) with (String x (s +:+ String c t)).
    cbn [split]. by rewrite Hx, IH.
Qed.
Lemma split_free c s : free c s = true → split c s = [s].
Proof.
  induction s as [|x s IH]; cbn [free]; [done|]. intros [Hx%negb_true_iff Hs]%andb_prop. cbn [split]. by rewrite Hx, IH.
Qed.
Lemma split_once_app c s t : free c s = true → split_once c (s +:+ String c t) = (s, Some t).
Proof.
  induction s as [|x s IH]; cbn [free].
  - intros _. change ("" +:+ String c t) with (String c t). cbn [split_once]. by rewrite Ascii.eqb_refl.
  - intros [Hx%negb_true_iff Hs]%andb_prop. change (String x s +:+ String c t) with (String x (s +:+ String c t)).
    cbn [split_once]. by rewrite Hx, IH.
Qed.
Lemma split_once_free c s : free c s = true → split_once c s = (s, None).
Proof.
  induction s as [|x s IH]; cbn [free]; [done|]. intros [Hx%negb_true_iff Hs]%andb_prop. cbn [split_once]. by rewrite Hx, IH.
Qed.

Lemma free_kind k c : c = ":"%char ∨ c = "|"%char → free c (kind_code k) = true.
Proof. by intros [->| ->]; destruct k. Qed.

Lemma parse_channel_route_key c k p :
  in_u 32 c → in_u 32 p → parse_channel_point (channel_route_key c k p) = Some (c, k, p).
Proof.
  intros Hc Hp. unfold parse_channel_point, channel_route_key.
  change (":" +:+ kind_code k +:+ ":" +:+ pretty p) with (String ":" (kind_code k +:+ String ":" (pretty p))).
  rewrite split_app by by apply free_pretty. rewrite split_app by auto using free_kind.
  rewrite split_free by by apply free_pretty. rewrite !parse_u32_pretty by done. by destruct k.
Qed.

(** ** The tables without the detour through strings *)

Definition c2m_route (r : measurement_row) : option (route_key * C2MTarget) :=
  k ← parse_channel_point_kind (mr_type r);
  Some ((mr_channel r, k, mr_channel_point r), C2M (mr_instance r) (mr_measurement r)).
Definition m2c_route (r : action_row) : option (route_key * M2CTarget) :=
  k ← parse_channel_point_kind (ar_type r);
  Some ((ar_instance r, Action, ar_action r), M2C (ar_channel r) k (ar_channel_point r)).
(** An offset of minus zero of an identity transform is read as zero. *)
Definition c2c_route (r : channel_row) : option (route_key * C2CTarget) :=
  s ← parse_channel_point_kind (cr_source_type r);
  t ← parse_channel_point_kind (cr_target_type r);
  let identity := eqb (cr_scale r) one && eqb (cr_offset r) zero in
  Some ((cr_source_channel r, s, cr_source_point r),
        C2C (cr_target_channel r) t (cr_target_point r)
          (if identity then one else cr_scale r) (if identity then zero else cr_offset r)).

(** Later rows replace earlier ones. *)
Definition table {R V} (route : R → option (route_key * V)) (rows : list R) : gmap route_key V :=
  fold_left (fun m r => match route r with Some (k, v) => <[k := v]> m | None => m end) rows ∅.

Section Equivalence.
Context {R V : Type} (entry : R → option (string * string)) (parse : string * string → option (route_key * V))
  (route : R → option (route_key * V)) (good : R → Prop).

Definition shown (k : route_key) : string := channel_route_key k.1.1 k.1.2 k.2.
Definition key_ok (k : route_key) : Prop := in_u 32 k.1.1 ∧ in_u 32 k.2.

(** A good row's entry is printed under its key, and parses back to its route. *)
Hypothesis Hrow : ∀ r, good r →
  match route r with
  | None => entry r = None
  | Some (k, v) => key_ok k ∧ ∃ w, entry r = Some (shown k, w) ∧ parse (shown k, w) = Some (k, v)
  end.

Lemma shown_inj k k' : key_ok k → key_ok k' → shown k = shown k' → k = k'.
Proof.
  intros [] [] He. enough (Some k = Some k') by congruence. destruct k as [[c t] p], k' as [[c' t'] p']. unfold shown in He. cbn in *.
  rewrite <- (parse_channel_route_key c t p), <- (parse_channel_route_key c' t' p') by done. by rewrite He.
Qed.

(** Every entry is under the string of its key. *)
Definition printed (kv : string * string) : Prop :=
  ∃ k v w, key_ok k ∧ kv = (shown k, w) ∧ parse kv = Some (k, v).

Lemma build_lookup l k v :
  Forall printed l → NoDup (map fst l) → key_ok k →
  build parse l !! k = Some v ↔ ∃ w, (shown k, w) ∈ l ∧ parse (shown k, w) = Some (k, v).
Proof.
  intros Hp Hn Hk. revert Hp Hn. induction l as [|kv l IH] using rev_ind; intros Hp Hn.
  - unfold build. cbn. rewrite lookup_empty. split; [done|]. by intros (w & Hin%elem_of_nil & _).
  - apply Forall_app in Hp as [Hp (k1 & v1 & w1 & Hk1 & -> & Hv1)%Forall_singleton].
    rewrite map_app in Hn. apply NoDup_app in Hn as (Hn & Hd & _). specialize (IH Hp Hn).
    unfold build. rewrite fold_left_app. cbn. fold (build parse l). unfold insert_parsed. rewrite Hv1.
    destruct (decide (k1 = k)) as [->|Hne].
    + rewrite lookup_insert_eq. split.
      * intros [= ->]. exists w1. split; [|done]. apply elem_of_app. right. by left.
      * intros (w & [Hin|[= ->]%list_elem_of_singleton]%elem_of_app & Hw); [|congruence].
        exfalso. apply (Hd (shown k)); [by apply (list_elem_of_fmap_2 fst _ _ Hin)|by left].
    + rewrite lookup_insert_ne by done. rewrite IH. split; intros (w & Hin & Hw); exists w; (split; [|done]).
      * apply elem_of_app. by left.
      * apply elem_of_app in Hin as [|[= He ->]%list_elem_of_singleton]; [done|]. by destruct Hne; apply shown_inj.
Qed.

Lemma load_snoc rows r :
  load entry (rows ++ [r]) = match entry r with Some (k, v) => <[k := v]> (load entry rows) | None => load entry rows end.
Proof. unfold load. by rewrite fold_left_app. Qed.

Lemma table_snoc rows r :
  table route (rows ++ [r]) = match route r with Some (k, v) => <[k := v]> (table route rows) | None => table route rows end.
Proof. unfold table. by rewrite fold_left_app. Qed.

Lemma load_lookup rows :
  Forall good rows → map_Forall (fun k w => printed (k, w)) (load entry rows) ∧
  (∀ k, is_Some (table route rows !! k) → key_ok k) ∧
  ∀ k v, key_ok k → table route rows !! k = Some v ↔
    ∃ w, load entry rows !! shown k = Some w ∧ parse (shown k, w) = Some (k, v).
Proof.
  induction rows as [|r rows IH] using rev_ind; intros Hg.
  - split_and!; [by apply map_Forall_empty|by intros k [? ?]|]. intros k v _. unfold load, table. cbn. rewrite !lookup_empty.
    split; [done|by intros (w & ? & _)].
  - apply Forall_app in Hg as [(IH1 & IH2 & IH3)%IH Hr%Forall_singleton%Hrow]. rewrite load_snoc, table_snoc.
    destruct (route r) as [[k1 v1]|]; [|by rewrite Hr]. destruct Hr as (Hk1 & w1 & -> & Hw1). split_and!.
    + apply map_Forall_insert_2; [|done]. by exists k1, v1, w1.
    + intros k. destruct (decide (k1 = k)) as [->|]; [done|]. rewrite lookup_insert_ne by done. apply IH2.
    + intros k v Hk. destruct (decide (k1 = k)) as [->|Hne].
      * rewrite !lookup_insert_eq. naive_solver.
      * rewrite !lookup_insert_ne; [by apply IH3|by intros ?%shown_inj|done].
Qed.

(** Whatever order the map yields its entries in. *)
Lemma build_load rows l :
  Forall good rows → l ≡ₚ map_to_list (load entry rows) → build parse l = table route rows.
Proof.
  intros Hg Hl. destruct (load_lookup rows Hg) as (Hp & Ht & Hlk).
  assert (Forall printed l) as Hpl.
  { rewrite Hl. apply Forall_forall. intros [k w] Hin%elem_of_map_to_list. by apply Hp. }
  assert (NoDup (map fst l)) as Hn by (rewrite Hl; apply NoDup_fst_map_to_list).
  assert (∀ k, is_Some (build parse l !! k) → key_ok k) as Hb.
  { clear -Hpl. induction l as [|kv l IH] using rev_ind; [by intros k [? ?]|].
    apply Forall_app in Hpl as [Hpl (k1 & v1 & w1 & Hk1 & -> & Hv1)%Forall_singleton]. intros k.
    unfold build. rewrite fold_left_app. cbn. unfold insert_parsed at 1. rewrite Hv1.
    destruct (decide (k1 = k)) as [->|]; [done|]. rewrite lookup_insert_ne by done. by apply IH. }
  apply map_eq. intros k. apply option_eq. intros v. split; intros Hv.
  - assert (key_ok k) as Hk by eauto. apply Hlk; [done|]. apply build_lookup in Hv as (w & Hin & Hw); [|done..].
    exists w. split; [|done]. apply elem_of_map_to_list. by rewrite <- Hl.
  - assert (key_ok k) as Hk by eauto. apply Hlk in Hv as (w & Hin & Hw); [|done]. apply build_lookup; [done..|].
    exists w. split; [|done]. rewrite Hl. by apply elem_of_map_to_list.
Qed.
End Equivalence.

Lemma build_elem {K V} `{Countable K} (parse : string * string → option (K * V)) l x :
  (∀ y, build parse l !! x = Some y → ∃ kv, kv ∈ l ∧ parse kv = Some (x, y)) ∧
  (∀ kv y, kv ∈ l → parse kv = Some (x, y) → is_Some (build parse l !! x)).
Proof.
  induction l as [|kv l [IH1 IH2]] using rev_ind.
  - split; [intros y; unfold build; cbn; by rewrite lookup_empty|]. by intros kv y ?%elem_of_nil.
  - unfold build. rewrite fold_left_app. cbn. fold (build parse l). unfold insert_parsed. split.
    + intros y. destruct (parse kv) as [[k v]|] eqn:Hp.
      * destruct (decide (k = x)) as [->|Hne].
        -- rewrite lookup_insert_eq. intros [= ->]. exists kv. split; [|done]. apply elem_of_app. right. by left.
        -- rewrite lookup_insert_ne by done. intros (kv' & ? & ?)%IH1. exists kv'. rewrite elem_of_app. auto.
      * intros (kv' & ? & ?)%IH1. exists kv'. rewrite elem_of_app. auto.
    + intros kv' y Hin Hy. destruct (parse kv) as [[k v]|] eqn:Hp.
      * destruct (decide (k = x)) as [->|Hne]; [rewrite lookup_insert_eq; by eexists|]. rewrite lookup_insert_ne by done.
        apply elem_of_app in Hin as [Hin| ->%list_elem_of_singleton]; [by eapply IH2|congruence].
      * apply elem_of_app in Hin as [Hin| ->%list_elem_of_singleton]; [by eapply IH2|congruence].
Qed.

Definition measurement_ok (r : measurement_row) : Prop :=
  in_u 32 (mr_instance r) ∧ in_u 32 (mr_channel r) ∧ in_u 32 (mr_channel_point r) ∧ in_u 32 (mr_measurement r).
Definition action_ok (r : action_row) : Prop :=
  in_u 32 (ar_instance r) ∧ in_u 32 (ar_action r) ∧ in_u 32 (ar_channel r) ∧ in_u 32 (ar_channel_point r).
Definition reads_back (x : f64) : Prop := parse_f64 (to_string x) = Some x.
Definition channel_ok (r : channel_row) : Prop :=
  in_u 32 (cr_source_channel r) ∧ in_u 32 (cr_source_point r) ∧ in_u 32 (cr_target_channel r) ∧
  in_u 32 (cr_target_point r) ∧ reads_back (cr_scale r) ∧ reads_back (cr_offset r).

Lemma parse_c2m_printed i p : in_u 32 i → in_u 32 p →
  parse_c2m_target (pretty i +:+ ":" +:+ "M" +:+ ":" +:+ pretty p) = Some (C2M i p).
Proof.
  intros Hi Hp. unfold parse_c2m_target. change (":" +:+ "M" +:+ ":" +:+ pretty p) with (String ":" ("M" +:+ String ":" (pretty p))).
  rewrite split_app by by apply free_pretty. rewrite split_app by done. rewrite split_free by by apply free_pretty.
  by rewrite !parse_u32_pretty.
Qed.

Lemma parse_c2c_printed c k p x y : in_u 32 c → in_u 32 p → reads_back x → reads_back y →
  parse_c2c_value (channel_route_key c k p) = Some (C2C c k p one zero) ∧
  parse_c2c_value (channel_route_key c k p +:+ "|" +:+ to_string x +:+ "|" +:+ to_string y) = Some (C2C c k p x y).
Proof.
  intros Hc Hp Hx Hy. assert (free "|" (channel_route_key c k p) = true) as Hf.
  { unfold channel_route_key. rewrite !free_app, !free_pretty, free_kind by auto. done. }
  unfold parse_c2c_value. split.
  - rewrite split_once_free by done. by rewrite parse_channel_route_key.
  - change ("|" +:+ to_string x +:+ "|" +:+ to_string y) with (String "|" (to_string x +:+ String "|" (to_string y))).
    rewrite split_once_app by done. rewrite parse_channel_route_key by done. cbn [fmap option_fmap option_map].
    rewrite split_once_app by apply free_to_string. unfold mbind, option_bind. cbn [fst snd]. by rewrite Hx, Hy.
Qed.

Lemma c2m_rows r : measurement_ok r →
  match c2m_route r with
  | None => c2m_entry r = None
  | Some (k, v) => key_ok k ∧ ∃ w, c2m_entry r = Some (shown k, w) ∧ parse_c2m (shown k, w) = Some (k, v)
  end.
Proof.
  intros (Hi & Hc & Hp & Hm). unfold c2m_route, c2m_entry. destruct (parse_channel_point_kind (mr_type r)) as [k|]; [|done].
  cbn. split; [done|]. eexists. split; [reflexivity|]. unfold parse_c2m, shown. cbn [fst snd].
  rewrite parse_channel_route_key by done. cbn. by rewrite parse_c2m_printed.
Qed.

Lemma m2c_rows r : action_ok r →
  match m2c_route r with
  | None => m2c_entry r = None
  | Some (k, v) => key_ok k ∧ ∃ w, m2c_entry r = Some (shown k, w) ∧ parse_m2c (shown k, w) = Some (k, v)
  end.
Proof.
  intros (Hi & Ha & Hc & Hp). unfold m2c_route, m2c_entry. destruct (parse_channel_point_kind (ar_type r)) as [k|]; [|done].
  cbn. split; [done|]. eexists. split; [reflexivity|]. unfold parse_m2c, shown. cbn [fst snd].
  by rewrite !parse_channel_route_key.
Qed.

Lemma c2c_rows r : channel_ok r →
  match c2c_route r with
  | None => c2c_entry r = None
  | Some (k, v) => key_ok k ∧ ∃ w, c2c_entry r = Some (shown k, w) ∧ parse_c2c (shown k, w) = Some (k, v)
  end.
Proof.
  intros (Hs & Hp & Ht & Hq & Hx & Hy). unfold c2c_route, c2c_entry.
  destruct (parse_channel_point_kind (cr_source_type r)) as [s|]; [|done].
  destruct (parse_channel_point_kind (cr_target_type r)) as [t|]; [|done].
  cbn [mbind option_bind]. split; [done|]. eexists. split; [reflexivity|]. unfold parse_c2c, shown. cbn [fst snd].
  rewrite parse_channel_route_key by done. cbn [mbind option_bind].
  destruct (parse_c2c_printed (cr_target_channel r) t (cr_target_point r) _ _ Ht Hq Hx Hy) as [E1 E2].
  destruct (_ && _); by rewrite ?E1, ?E2.
Qed.

(** C33. The cache routes as the rows say: printing the rows into string maps, consuming
    these in any order and parsing them back gives the tables one gets from the
    rows directly, later rows replacing earlier ones; and the reverse table names
    for an instance point a channel point that feeds it, whenever there is one. *)
Theorem cache_exact (mrows : list measurement_row) (arows : list action_row) (crows : option (list channel_row))
    (l1 l2 l3 : list (string * string)) :
  Forall measurement_ok mrows → Forall action_ok arows → Forall channel_ok (default [] crows) →
  l1 ≡ₚ map_to_list (load_c2m_routes mrows) → l2 ≡ₚ map_to_list (load_m2c_routes arows) →
  l3 ≡ₚ map_to_list (load_c2c_routes crows) →
  let r := from_maps l1 l2 l3 in
  c2m r = table c2m_route mrows ∧ m2c r = table m2c_route arows ∧ c2c r = table c2c_route (default [] crows) ∧
  (∀ i p k, lookup_c2m_reverse r i p = Some k → c2m r !! k = Some (C2M i p)) ∧
  (∀ k i p, c2m r !! k = Some (C2M i p) → is_Some (lookup_c2m_reverse r i p)).
Proof.
  intros Hm Ha Hc H1 H2 H3 r. assert (c2m r = table c2m_route mrows) as E1 by exact (build_load _ _ _ _ c2m_rows _ _ Hm H1).
  split; [done|]. split; [exact (build_load _ _ _ _ m2c_rows _ _ Ha H2)|].
  split. { destruct crows as [crows|]; [exact (build_load _ _ _ _ c2c_rows _ _ Hc H3)|].
           cbn in H3. rewrite map_to_list_empty in H3. apply Permutation_nil_r in H3 as ->. done. }
  destruct (load_lookup _ _ _ _ c2m_rows mrows Hm) as (Hp & _ & _). split.
  - intros i p k Hr. apply (build_elem parse_reverse) in Hr as ([s w] & Hin & Hk). unfold parse_reverse in Hk.
    destruct (parse_c2m (s, w)) as [[k' [i' p']]|] eqn:Hpc; [|done]. cbn in Hk. injection Hk as -> -> ->.
    rewrite H1 in Hin. apply elem_of_map_to_list in Hin as Hl. apply Hp in Hl as (k' & v & w' & Hok & [= -> <-] & Hk').
    rewrite Hpc in Hk'. injection Hk' as <- <-. apply (build_lookup parse_c2m); [|rewrite H1; apply NoDup_fst_map_to_list|done|].
    + rewrite H1. apply Forall_forall. intros [s' w'] Hl%elem_of_map_to_list. by apply Hp.
    + exists w. rewrite H1. done.
  - intros k i p Hk. apply (build_elem parse_c2m) in Hk as (kv & Hin & Hkv).
    apply (proj2 (build_elem parse_reverse l1 (i, p)) kv k); [done|]. unfold parse_reverse. by rewrite Hkv.
Qed.

Module Sample.
Definition mrows : list measurement_row := [MRow 23 2 "T" 1 1; MRow 23 3 "yx" 4 1; MRow 24 2 "bogus" 9 9].
Definition arows : list action_row := [ARow 23 4 2 "YT" 1].
Definition crows : list channel_row := [CRow 2 "T" 1 5 "T" 7 (decimal false 25 (-1)) (of_Z 10)].

(** Two channel points feed one instance point: which of them the reverse table names
    depends on the order the hash map yields. *)
Definition fan_in : list (string * string) := [("2:T:1", "23:M:1"); ("3:S:4", "23:M:1")].
Example reverse_depends_on_order :
  lookup_c2m_reverse (from_maps fan_in [] []) 23 1 = Some (3, Status, 4) ∧
  lookup_c2m_reverse (from_maps (rev fan_in) [] []) 23 1 = Some (2, Telemetry, 1).
Proof. by vm_compute. Qed.

(** A reader that loads both tables during an update may mix the two generations. *)
Definition old_cache : RoutingCache := from_maps [("2:T:1", "23:M:1")] [("23:A:4", "2:A:1")] [].
Definition new_cache : RoutingCache := from_maps [("2:T:2", "23:M:2")] [("23:A:5", "2:A:2")] [].
Example hash_mixes_generations :
  hashed 1 0 new_cache old_cache = (c2m new_cache, m2c old_cache) ∧
  hashed 0 3 new_cache old_cache = (c2m old_cache, m2c new_cache) ∧
  bool_decide (c2m new_cache = c2m old_cache) = false ∧ bool_decide (m2c new_cache = m2c old_cache) = false.
Proof. split_and!; [done|done|by vm_compute..]. Qed.

Lemma cache_exact_witness :
  c2c (from_maps (map_to_list (load_c2m_routes mrows)) (map_to_list (load_m2c_routes arows))
        (map_to_list (load_c2c_routes (Some crows)))) !! (2, Telemetry, 1) =
    Some (C2C 5 Telemetry 7 (decimal false 25 (-1)) (of_Z 10)).
Proof.
  destruct (cache_exact mrows arows (Some crows) _ _ _ ltac:(repeat constructor; vm_compute; congruence)
    ltac:(repeat constructor; vm_compute; congruence) ltac:(repeat constructor; vm_compute; congruence)
    (reflexivity _) (reflexivity _) (reflexivity _)) as (_ & _ & E & _).
  rewrite E. by vm_compute.
Defined.
End Sample.
End Routing.
