(* ===== verification/Acquisition.v ===== *)
(** * Acquired samples on their way into shared memory
    (services/io/src/store/shm_store.rs, libs/aether-shm-bridge/src/acquisition_writer.rs)

    A protocol batch is typed, expanded along the channel-to-channel routes and
    committed to the slots of one generation; after the commit the point-watch
    publisher is told about every slot.  The mapping is the byte memory of the
    shared-memory segment.  What other processes do to the file and to its header is
    answered by an arbitrary schedule.  The routing table is not replaced during one
    batch. *)

From stdpp Require Import base tactics numbers list gmap.
From S2P Require Import Prelude State Float Domain Points Outbox Slot Shm Manifest Bitmap CommandSink Watch Routing PointWatch.
#[local] Open Scope Z_scope.

Module Acquisition.
Import Float Domain.

(** ** The acquisition writer (acquisition_writer.rs) *)

Definition encode_point_quality (q : PointQuality) : Z :=
  match q with Good => 0 | Uncertain => 1 | Bad => 2 | QUnavailable => 3 end.

Definition encode (s : AcquiredPointSample) : Slot.slot_data :=
  Slot.SlotData (to_bits (as_value s)) (to_bits (as_raw s)) (as_timestamp s) (encode_point_quality (as_quality s)).

(** The slot count of the header is that of the writer: no code changes it while the
    mapping lives. *)
Record ShmAcquisitionStateWriter := StateWriter {
  writer_slots : nat;
  manifest : Manifest.ChannelPointManifest;
  expected_generation : Z;
  has_gate : bool }.

(** The gate's lock is intact, the cross-process lease, the canonical path, the
    generation and the layout hash of the header. *)
Record outside := Outside {
  gate : nat → bool;
  lease : nat → res Shm.DataplaneError unit;
  path : nat → res Shm.DataplaneError unit;
  generation : nat → Z;
  hash : nat → Z }.

(** The mapping, the observer, the counter of missed slots. *)
Record plane := Plane {
  mem : list Z; observer : option PointWatch.PointWatchPublisher; slot_miss_count : Z; time : nat }.

Section Writer.
Variable o : outside.

Definition ask {A} (f : nat → A) : st plane A := fun w =>
  (f (time w), Plane (mem w) (observer w) (slot_miss_count w) (S (time w))).

Definition validate_generation (a : ShmAcquisitionStateWriter) : st plane (res Outbox.PortErrorKind unit) :=
  p ← ask (path o);
  match p with
  | Err e => mret (Err (CommandSink.dataplane_port_error e))
  | Panic => mret Panic
  | Ok _ =>
      g ← ask (generation o);
      h ← ask (hash o);
      mret (if (g =? expected_generation a) && CommandSink.stable (expected_generation a)
               && (h =? Manifest.layout_hash (manifest a))
               && (writer_slots a =? Manifest.slot_count (manifest a))%nat
            then Ok tt else Err Outbox.Conflict)
  end.

(** The slots of a batch: all of them, or the first error. *)
Fixpoint resolve (a : ShmAcquisitionStateWriter) (seen : list Manifest.PhysicalPointAddress)
    (samples : list AcquiredPointSample) : res Outbox.PortErrorKind (list (nat * AcquiredPointSample)) :=
  match samples with
  | [] => Ok []
  | sample :: samples =>
      let address := as_address sample in
      if negb (is_acquisition_owned (cp_kind address)) then Err Outbox.Rejected
      else
        let physical := Manifest.from_point_address address in
        if bool_decide (physical ∈ seen) then Err Outbox.InvalidData
        else
          match Manifest.slot_for (manifest a) physical with
          | None => Err Outbox.NotFoundKind
          | Some slot =>
              if (writer_slots a <=? slot)%nat then Err Outbox.Conflict
              else
                rest ← resolve a (physical :: seen) samples;
                Ok ((slot, sample) :: rest)
          end
  end.

Fixpoint write_slots (n : nat) (l : list (nat * AcquiredPointSample)) (m : list Z)
    : res Shm.DataplaneError (list Z) :=
  match l with
  | [] => Ok m
  | (slot, sample) :: l => m ← Shm.set_direct n slot (encode sample) m; write_slots n l m
  end.

Definition notify (l : list (nat * AcquiredPointSample)) (p : PointWatch.PointWatchPublisher)
    : PointWatch.PointWatchPublisher :=
  fold_left (fun p '(slot, sample) => PointWatch.point_committed slot sample p) l p.

Definition commit_batch (a : ShmAcquisitionStateWriter) (samples : list AcquiredPointSample)
    : st plane (res Outbox.PortErrorKind nat) :=
  intact ← ask (gate o);
  if has_gate a && negb intact then mret (Err Outbox.Permanent) else
  l ← ask (lease o);
  match l with
  | Err e => mret (Err (CommandSink.dataplane_port_error e))
  | Panic => mret Panic
  | Ok _ =>
      _ ←? validate_generation a;
      match resolve a [] samples with
      | Err e => mret (Err e)
      | Panic => mret Panic
      | Ok resolved =>
          m ← gets mem;
          match write_slots (writer_slots a) resolved m with
          | Ok m =>
              _ ← modify (fun w => Plane m (observer w) (slot_miss_count w) (time w));
              _ ←? validate_generation a;
              _ ← modify (fun w => Plane (mem w) (notify resolved <$> observer w) (slot_miss_count w) (time w));
              mret (Ok (length samples))
          | _ => mret Panic
          end
      end
  end.
End Writer.

(** ** The data store (shm_store.rs) *)

Inductive Value := VFloat (v : f64) | VInteger (v : Z) | VBool (v : bool).
Definition as_f64 (v : Value) : option f64 :=
  match v with VFloat x => Some x | VInteger x => Some (of_Z x) | VBool b => Some (if b then one else zero) end.

(** Times are the milliseconds of the [DateTime]. *)
Record DataPoint := Data {
  dp_id : Z; dp_type : Points.PointType; dp_value : Value; dp_quality : PointQuality;
  dp_timestamp : Z; dp_source_timestamp : option Z }.

Inductive GatewayError := EInvalidData | EPointNotFound | EConnection | EWriteTimeout | EConfig.

Definition invalid {A} (r : res DomainError A) : res GatewayError A :=
  match r with Ok a => Ok a | Err _ => Err EInvalidData | Panic => Panic end.

Definition acquired_kind (t : Points.PointType) : option PointKind :=
  match t with
  | Points.Telemetry => Some Telemetry
  | Points.Signal => Some Status
  | Points.Control | Points.Adjustment => None
  end.

Definition acquired_sample (channel_id : Z) (point : DataPoint) : res GatewayError AcquiredPointSample :=
  k ← ok_or (acquired_kind (dp_type point)) EInvalidData;
  value ← ok_or (v ← as_f64 (dp_value point); if is_finite v then Some v else None) EInvalidData;
  let timestamp := default (dp_timestamp point) (dp_source_timestamp point) in
  timestamp ← (if timestamp <? 0 then Err EInvalidData else Ok timestamp);
  address ← invalid (channel_point_new channel_id k (dp_id point));
  invalid (acquired_new address value value timestamp (dp_quality point)).

Fixpoint batch_to_acquired_samples (channel_id : Z) (batch : list DataPoint)
    : res GatewayError (list AcquiredPointSample) :=
  match batch with
  | [] => Ok []
  | point :: batch =>
      s ← acquired_sample channel_id point;
      l ← batch_to_acquired_samples channel_id batch;
      Ok (s :: l)
  end.

Definition MAX_C2C_CASCADE_DEPTH : nat := 2.

(** [remaining] is the cascade depth that is left. *)
Fixpoint expand_c2c_from (remaining : nat) (r : Routing.RoutingCache) (source : AcquiredPointSample)
    (path positions : gset ChannelPointAddress) (expanded : list AcquiredPointSample)
    : res GatewayError (gset ChannelPointAddress * list AcquiredPointSample) :=
  match remaining with
  | O => Ok (positions, expanded)
  | S remaining =>
      let a := as_address source in
      if negb (is_acquisition_owned (cp_kind a)) then Err EInvalidData
      else
        match Routing.lookup_c2c_by_parts r (cp_channel_id a) (cp_kind a) (cp_point_id a) with
        | None => Ok (positions, expanded)
        | Some t =>
            if negb (is_acquisition_owned (Routing.ct_point_kind t)) then Err EInvalidData
            else
              target ← invalid (channel_point_new (Routing.ct_channel_id t) (Routing.ct_point_kind t) (Routing.ct_point_id t));
              if bool_decide (target ∈ path ∨ target ∈ positions) then Ok (positions, expanded)
              else
                let value := Routing.transform t (as_value source) in
                s ← invalid (acquired_new target value value (as_timestamp source) (as_quality source));
                expand_c2c_from remaining r s ({[target]} ∪ path) ({[target]} ∪ positions) (expanded ++ [s])
        end
  end.

Fixpoint index (samples : list AcquiredPointSample) (positions : gset ChannelPointAddress)
    : res GatewayError (gset ChannelPointAddress) :=
  match samples with
  | [] => Ok positions
  | s :: samples =>
      if bool_decide (as_address s ∈ positions) then Err EInvalidData
      else index samples ({[as_address s]} ∪ positions)
  end.

Fixpoint expand_all (r : Routing.RoutingCache) (sources : list AcquiredPointSample)
    (positions : gset ChannelPointAddress) (expanded : list AcquiredPointSample)
    : res GatewayError (list AcquiredPointSample) :=
  match sources with
  | [] => Ok expanded
  | s :: sources =>
      '(positions, expanded) ← expand_c2c_from MAX_C2C_CASCADE_DEPTH r s {[as_address s]} positions expanded;
      expand_all r sources positions expanded
  end.

Definition expand_c2c (r : Routing.RoutingCache) (samples : list AcquiredPointSample)
    : res GatewayError (list AcquiredPointSample) :=
  positions ← index samples ∅;
  expand_all r samples positions samples.

Definition map_acquisition_write_error (e : Outbox.PortErrorKind) : GatewayError :=
  match e with
  | Outbox.NotFoundKind => EPointNotFound
  | Outbox.Unavailable | Outbox.Conflict => EConnection
  | Outbox.Timeout => EWriteTimeout
  | Outbox.Rejected | Outbox.InvalidData => EInvalidData
  | Outbox.Permanent => EConfig
  end.

(** What a batch is to put into shared memory. *)
Definition batch_samples (r : Routing.RoutingCache) (channel_id : Z) (batch : list DataPoint)
    : res GatewayError (list AcquiredPointSample) :=
  s ← batch_to_acquired_samples channel_id batch; expand_c2c r s.

(** [layout] is the generation the handle holds, if it still holds one. *)
Definition write_batch (o : outside) (r : Routing.RoutingCache) (layout : option ShmAcquisitionStateWriter)
    (channel_id : Z) (batch : list DataPoint) : st plane (res GatewayError unit) :=
  match batch with
  | [] => mret (Ok tt)
  | _ =>
      match batch_samples r channel_id batch with
      | Err e => mret (Err e)
      | Panic => mret Panic
      | Ok samples =>
          match layout with
          | None => mret (Err EConfig)
          | Some a =>
              result ← commit_batch o a samples;
              match result with
              | Ok _ => mret (Ok tt)
              | Err e =>
                  _ ← modify (fun w =>
                        match e with
                        | Outbox.NotFoundKind =>
                            Plane (mem w) (observer w) (wrapping_add 64 (slot_miss_count w) 1) (time w)
                        | _ => w
                        end);
                  mret (Err (map_acquisition_write_error e))
              | Panic => mret Panic
              end
          end
      end
  end.

(** ** The commit *)

Definition sample_ok (s : AcquiredPointSample) : Prop :=
  canonical (as_value s) = true ∧ canonical (as_raw s) = true ∧ in_u 64 (as_timestamp s).

Lemma encode_ok s : sample_ok s → Shm.data_ok (encode s).
Proof.
  intros (Hv & Hr & Ht). split_and!; [by apply to_bits_in_u..|done|]. cbn. unfold in_u. by destruct (as_quality s).
Qed.

Lemma slot_for_inj m a b s :
  Manifest.manifest_ok m → Manifest.slot_for m a = Some s → Manifest.slot_for m b = Some s → a = b.
Proof.
  intros Hm Ha Hb. apply Manifest.slot_for_spec, (Manifest.physical_point_at_spec m a s Hm) in Ha; [|done].
  apply Manifest.slot_for_spec, (Manifest.physical_point_at_spec m b s Hm) in Hb; [|done]. congruence.
Qed.

(** What a successful resolution found. *)
Definition resolved (a : ShmAcquisitionStateWriter) (l : list (nat * AcquiredPointSample)) : Prop :=
  Forall (fun '(slot, s) => (slot < writer_slots a)%nat ∧
            Manifest.slot_for (manifest a) (Manifest.from_point_address (as_address s)) = Some slot) l ∧
  NoDup (map fst l).

Lemma slots_resolve_spec a seen samples l :
  Manifest.manifest_ok (manifest a) → resolve a seen samples = Ok l →
  map snd l = samples ∧ resolved a l ∧
  Forall (fun s => Manifest.from_point_address (as_address s) ∉ seen) samples.
Proof.
  intros Hm. revert seen l. induction samples as [|s samples IH]; intros seen l; cbn [resolve].
  { intros [= <-]. by repeat constructor. }
  case_match; [done|]. case_bool_decide as Hs; [done|].
  destruct (Manifest.slot_for (manifest a) _) as [slot|] eqn:Hslot; [|done].
  case (Nat.leb_spec (writer_slots a) slot) as [|Hlt]; [done|].
  intros Hrest. apply res_bind_Ok in Hrest as (rest & Hr & [= <-]). apply IH in Hr as (<- & [Hf Hn] & Hseen). cbn [map fst snd].
  split_and!; [done| |].
  - split; [by constructor|]. constructor; [|done]. intros ([slot' s'] & Heq & Hin)%list_elem_of_fmap. cbn in Heq. subst slot'.
    destruct (proj1 (Forall_forall _ _) Hf _ Hin) as [_ Hslot'].
    apply (list_elem_of_fmap_2 snd) in Hin. eapply Forall_forall in Hseen; [|exact Hin]. destruct Hseen.
    cbn [snd]. rewrite (slot_for_inj _ _ _ _ Hm Hslot' Hslot). by left.
  - constructor; [done|]. eapply Forall_impl; [exact Hseen|]. intros x Hx ?. apply Hx. by right.
Qed.

Definition idle (m : list Z) : Prop := ∀ i, Shm.slot_idle i m.

(** Exactly the listed slots hold exactly the listed samples. *)
Definition stored (n : nat) (l : list (nat * AcquiredPointSample)) (m m' : list Z) : Prop :=
  Shm.segment n m' ∧ idle m' ∧ Shm.header_snapshot m' = Shm.header_snapshot m ∧
  (∀ slot s, (slot, s) ∈ l → Shm.read_slot m' n slot = Some (encode s)) ∧
  (∀ j, j ∉ map fst l → Shm.read_slot m' n j = Shm.read_slot m n j).

Lemma acquired_slots_spec n l m :
  Shm.segment n m → idle m → Forall (fun '(slot, s) => (slot < n)%nat ∧ sample_ok s) l → NoDup (map fst l) →
  ∃ m', write_slots n l m = Ok m' ∧ stored n l m m'.
Proof.
  intros Hs Hi Hl. revert m Hs Hi. induction Hl as [|[slot s] l [Hlt Hok] _ IH]; intros m Hs Hi Hn.
  { exists m. split; [done|]. split_and!; try done. by intros ?? ?%elem_of_nil. }
  cbn [map fst] in Hn. apply NoDup_cons in Hn as [Hni Hn].
  destruct (Shm.slot_set_facts n slot (encode s) m Hs Hlt (encode_ok s Hok) (Hi slot)) as (Hs1 & Hh1 & Hr1 & Ho1 & Hi1).
  destruct (IH _ Hs1 (fun i => Hi1 i (Hi i)) Hn) as (m' & Hw & Hs2 & Hi2 & Hh2 & Hr2 & Ho2).
  exists m'. cbn [write_slots]. unfold Shm.set_direct. case (Nat.ltb_spec slot n); [|lia]. intros _. cbn.
  split; [exact Hw|]. split_and!; [done|done|congruence| |].
  - intros slot' s' [[= -> ->]|Hin]%elem_of_cons; [|by apply Hr2]. by rewrite Ho2, Hr1.
  - intros j [Hj Hj']%not_elem_of_cons. by rewrite Ho2, Ho1.
Qed.

Lemma validate_generation_plane o a w :
  mem (validate_generation o a w).2 = mem w ∧ observer (validate_generation o a w).2 = observer w ∧
  slot_miss_count (validate_generation o a w).2 = slot_miss_count w.
Proof. unfold validate_generation, mbind, st_bind, ask. cbn. by destruct (path o (time w)). Qed.

(** What a commit may do: nothing, everything with the hints, or everything without
    the hints when the generation is no longer authoritative afterwards. *)
Inductive commit_effect (a : ShmAcquisitionStateWriter) (samples : list AcquiredPointSample) (w : plane)
    : res Outbox.PortErrorKind nat → plane → Prop :=
| commit_refused e w' :
    mem w' = mem w → observer w' = observer w → slot_miss_count w' = slot_miss_count w →
    commit_effect a samples w (Err e) w'
| commit_stored l w' :
    map snd l = samples → resolved a l → stored (writer_slots a) l (mem w) (mem w') →
    observer w' = notify l <$> observer w → slot_miss_count w' = slot_miss_count w →
    commit_effect a samples w (Ok (length samples)) w'
| commit_unconfirmed e l w' :
    map snd l = samples → resolved a l → stored (writer_slots a) l (mem w) (mem w') →
    observer w' = observer w → slot_miss_count w' = slot_miss_count w →
    commit_effect a samples w (Err e) w'.

Section Commit.
Context (o : outside) (a : ShmAcquisitionStateWriter).
Hypothesis Hmanifest : Manifest.manifest_ok (manifest a).
(** The dataplane reports errors, it does not panic. *)
Hypothesis Houtside : ∀ t, lease o t ≠ Panic ∧ path o t ≠ Panic.

Lemma validate_no_panic w : (validate_generation o a w).1 ≠ Panic.
Proof.
  unfold validate_generation, mbind, st_bind, ask. cbn. destruct (Houtside (time w)) as [_ Hp].
  destruct (path o (time w)); [|done..]. cbn. by case_match.
Qed.

Lemma resolve_no_panic seen samples : resolve a seen samples ≠ Panic.
Proof.
  revert seen. induction samples as [|s samples IH]; intros seen; cbn [resolve]; [done|].
  repeat case_match; try done. by apply res_bind_no_panic.
Qed.

Lemma commit_spec samples w r w' :
  Shm.segment (writer_slots a) (mem w) → idle (mem w) → Forall sample_ok samples →
  commit_batch o a samples w = (r, w') → commit_effect a samples w r w'.
Proof.
  intros Hs Hi Hok. unfold commit_batch. unfold mbind at 1, st_bind at 1, ask at 1.
  destruct (has_gate a && negb (gate o (time w))); [intros [= <- <-]; by apply commit_refused|].
  unfold mbind at 1, st_bind at 1, ask at 1. cbn [time]. destruct (Houtside (S (time w))) as [Hl _].
  destruct (lease o (S (time w))) as [u| |] eqn:He; [|intros [= <- <-]; by apply commit_refused|done].
  set (w1 := Plane _ _ _ _).
  destruct (validate_generation_plane o a w1) as (Hm1 & Hp1 & Hc1). pose proof (validate_no_panic w1) as Hv1.
  unfold st_try at 1. destruct (validate_generation o a w1) as [[u1|e1|] w2]; cbn [fst snd] in *;
    [|intros [= <- <-]; by apply commit_refused|done].
  pose proof (resolve_no_panic [] samples). destruct (resolve a [] samples) as [l|e|] eqn:Hr;
    [|intros [= <- <-]; by apply commit_refused|done].
  apply slots_resolve_spec in Hr as (Hsnd & [Hf Hn] & _); [|done]. unfold mbind at 1, st_bind at 1, gets. rewrite Hm1. change (mem w1) with (mem w).
  destruct (acquired_slots_spec (writer_slots a) l (mem w) Hs Hi) as (m' & Hw & Hst); [|done|].
  { subst samples. apply Forall_forall. intros [slot s] Hin. split.
    - by destruct (proj1 (Forall_forall _ _) Hf _ Hin).
    - apply (list_elem_of_fmap_2 snd) in Hin. by eapply (proj1 (Forall_forall _ _) Hok). }
  rewrite Hw. unfold mbind at 1, st_bind at 1, modify at 1. set (w3 := Plane m' _ _ _).
  destruct (validate_generation_plane o a w3) as (Hm3 & Hp3 & Hc3). pose proof (validate_no_panic w3) as Hv3.
  unfold st_try. destruct (validate_generation o a w3) as [[u3|e3|] w4]; cbn [fst snd] in *; [| |done]; intros [= <- <-].
  - apply (commit_stored _ _ _ l); [done|done|by cbn; rewrite Hm3|cbn; by rewrite Hp3; cbn; rewrite Hp1|cbn; by rewrite Hc3; cbn; rewrite Hc1].
  - apply (commit_unconfirmed _ _ _ _ l); [done|done|by cbn; rewrite Hm3|by rewrite Hp3; cbn; rewrite Hp1|by rewrite Hc3; cbn; rewrite Hc1].
Qed.
End Commit.

(** ** Channel-to-channel expansion *)

Definition route_of (r : Routing.RoutingCache) (s : AcquiredPointSample) : option Routing.C2CTarget :=
  let a := as_address s in Routing.lookup_c2c_by_parts r (cp_channel_id a) (cp_kind a) (cp_point_id a).
Definition target_address (t : Routing.C2CTarget) : ChannelPointAddress :=
  ChannelPoint (Routing.ct_channel_id t) (Routing.ct_point_kind t) (Routing.ct_point_id t).

(** [d] is the sample that the route of [s] makes of it. *)
Definition routed (r : Routing.RoutingCache) (s d : AcquiredPointSample) : Prop :=
  ∃ t, route_of r s = Some t ∧ is_finite (Routing.transform t (as_value s)) = true ∧
       d = Acquired (target_address t) (Routing.transform t (as_value s)) (Routing.transform t (as_value s))
             (as_timestamp s) (as_quality s).
Fixpoint hops (r : Routing.RoutingCache) (n : nat) (s d : AcquiredPointSample) : Prop :=
  match n with O => d = s | S n => ∃ m, routed r s m ∧ hops r n m d end.

Abbreviation addresses := (map as_address).

(** The indexed addresses are those of the samples so far, without repetition. *)
Definition indexed (positions : gset ChannelPointAddress) (l : list AcquiredPointSample) : Prop :=
  (∀ a, a ∈ positions ↔ a ∈ addresses l) ∧ NoDup (addresses l).

Lemma indexed_snoc positions l d :
  indexed positions l → as_address d ∉ positions → indexed ({[as_address d]} ∪ positions) (l ++ [d]).
Proof.
  intros [Hp Hn] Hd. split.
  - intros a. rewrite elem_of_union, elem_of_singleton, Hp, map_app, elem_of_app. cbn. rewrite list_elem_of_singleton. tauto.
  - rewrite map_app. apply NoDup_app. split_and!; [done| |apply NoDup_singleton].
    intros a Ha ->%list_elem_of_singleton. by apply Hd, Hp.
Qed.

Lemma acquired_new_Ok a v raw t q s :
  invalid (acquired_new a v raw t q) = Ok s → s = Acquired a v raw t q ∧ is_finite v = true.
Proof.
  unfold acquired_new. destruct (is_finite v); [|done]. cbn. destruct (is_finite raw); [|done]. cbn. by intros [= <-].
Qed.

Lemma expand_from_spec n r s path positions l positions' l' :
  indexed positions l → (∀ a, a ∈ path → a ∈ positions) →
  expand_c2c_from n r s path positions l = Ok (positions', l') →
  ∃ d, l' = l ++ d ∧ indexed positions' l' ∧
       Forall (fun x => ∃ k, (1 ≤ k ≤ n)%nat ∧ hops r k s x) d ∧
       (∀ t, n ≠ 0%nat → route_of r s = Some t → target_address t ∈ addresses l').
Proof.
  revert s path positions l. induction n as [|n IH]; intros s path positions l Hi Hp; cbn [expand_c2c_from].
  { intros [= <- <-]. exists []. rewrite app_nil_r. by split_and!. }
  fold (route_of r s). case_match; [done|]. destruct (route_of r s) as [t|] eqn:Ht.
  2: { intros [= <- <-]. exists []. rewrite app_nil_r. by split_and!. }
  case_match eqn:Hk; [done|]. unfold channel_point_new. rewrite Hk. cbn [invalid mbind res_bind]. fold (target_address t).
  case_bool_decide as Hin.
  { intros [= <- <-]. exists []. rewrite app_nil_r. split_and!; [done|done|done|]. intros t' _ [= <-]. apply Hi. naive_solver. }
  intros He. apply res_bind_Ok in He as (m & [-> Hf]%acquired_new_Ok & He). set (m := Acquired _ _ _ _ _) in He.
  assert (routed r s m) as Hm by by exists t.
  apply IH in He as (d & -> & Hi' & Hd & _).
  - exists (m :: d). rewrite <- app_assoc in *. cbn [app] in *. split_and!; [done|done| |].
    + constructor; [exists 1%nat; split; [lia|by exists m]|]. eapply Forall_impl; [exact Hd|]. intros x (k & Hk' & Hx).
      exists (S k). split; [lia|by exists m].
    + intros t' _ [= <-]. rewrite map_app. apply elem_of_app. right. by left.
  - apply (indexed_snoc positions l m); [done|]. naive_solver.
  - intros a. rewrite !elem_of_union. naive_solver.
Qed.

Lemma cascade_index_spec l done positions positions' :
  indexed positions done → index l positions = Ok positions' → indexed positions' (done ++ l).
Proof.
  revert done positions. induction l as [|s l IH]; intros done positions Hi; cbn [index].
  { intros [= <-]. by rewrite app_nil_r. }
  case_bool_decide as Hin; [by intros|]. intros Hl. apply (IH (done ++ [s])) in Hl; [|by apply indexed_snoc].
  by rewrite <- app_assoc in Hl.
Qed.

Lemma expand_all_spec r sources positions l out :
  indexed positions l → (∀ s, s ∈ sources → as_address s ∈ positions) →
  expand_all r sources positions l = Ok out →
  ∃ d, out = l ++ d ∧ NoDup (addresses out) ∧
       Forall (fun x => ∃ s k, s ∈ sources ∧ (1 ≤ k ≤ MAX_C2C_CASCADE_DEPTH)%nat ∧ hops r k s x) d ∧
       (∀ s t, s ∈ sources → route_of r s = Some t → target_address t ∈ addresses out).
Proof.
  revert positions l. induction sources as [|s sources IH]; intros positions l Hi Hs; cbn [expand_all].
  { intros [= <-]. exists []. rewrite app_nil_r. split_and!; [done|apply Hi|done|]. by intros ?? ?%elem_of_nil. }
  intros He. apply res_bind_Ok in He as ([positions1 l1] & H1 & H2).
  apply expand_from_spec in H1 as (d1 & -> & Hi1 & Hd1 & Ht1); [|done|].
  2: { intros a ->%elem_of_singleton. apply Hs. by left. }
  apply IH in H2 as (d2 & -> & Hn & Hd2 & Ht2); [|done|].
  2: { intros x Hx. apply Hi1. rewrite map_app. apply elem_of_app. left. apply Hi. apply Hs. by right. }
  exists (d1 ++ d2). split_and!; [by rewrite app_assoc|done| |].
  - apply Forall_app. split; (eapply Forall_impl; [eassumption|]).
    + intros x (k & Hk & Hx). exists s, k. split; [by left|done].
    + intros x (x' & k & Hin & Hk & Hx). exists x', k. split; [by right|done].
  - intros x t [->|Hx]%elem_of_cons Hr.
    + rewrite map_app. apply elem_of_app. left. by apply Ht1.
    + by eapply Ht2.
Qed.

(** What a batch stands for: the typed samples of its points, in order, and then the
    samples their routes make of them, over at most two hops and without repeating
    an address; every routed point of the batch has its target among them. *)
Definition exact_batch (r : Routing.RoutingCache) (channel_id : Z) (batch : list DataPoint)
    (samples : list AcquiredPointSample) : Prop :=
  ∃ sources derived, samples = sources ++ derived ∧
    Forall2 (fun p s => acquired_sample channel_id p = Ok s) batch sources ∧
    NoDup (addresses samples) ∧
    Forall (fun x => ∃ s k, s ∈ sources ∧ (1 ≤ k ≤ MAX_C2C_CASCADE_DEPTH)%nat ∧ hops r k s x) derived ∧
    (∀ s t, s ∈ sources → route_of r s = Some t → target_address t ∈ addresses samples).

Lemma batch_samples_exact r channel_id batch samples :
  batch_samples r channel_id batch = Ok samples → exact_batch r channel_id batch samples.
Proof.
  unfold batch_samples. intros H. apply res_bind_Ok in H as (sources & Hs & H).
  assert (Forall2 (fun p s => acquired_sample channel_id p = Ok s) batch sources) as Hf.
  { clear H. revert sources Hs. induction batch as [|p batch IH]; intros sources; cbn [batch_to_acquired_samples].
    - by intros [= <-].
    - intros H. apply res_bind_Ok in H as (s & Hs & H). apply res_bind_Ok in H as (l & Hl & [= <-]). by constructor; auto. }
  unfold expand_c2c in H. apply res_bind_Ok in H as (positions & Hp & H).
  apply (cascade_index_spec sources [] ∅) in Hp; [|by split; [set_solver|constructor]]. cbn in Hp.
  apply expand_all_spec in H as (d & -> & Hn & Hd & Ht); [by exists sources, d|done|].
  intros s Hin. apply Hp. by apply list_elem_of_fmap_2.
Qed.

Lemma batch_no_panic r channel_id batch : batch_samples r channel_id batch ≠ Panic.
Proof.
  assert (∀ A (x : res DomainError A), x ≠ Panic → invalid x ≠ Panic) as Hinv by (by intros A []).
  assert (∀ c k p, channel_point_new c k p ≠ Panic) as Hcp by (intros; unfold channel_point_new; by case_match).
  assert (∀ a v raw t q, acquired_new a v raw t q ≠ Panic) as Han by (intros; unfold acquired_new; by repeat case_match).
  assert (∀ n s path positions l, expand_c2c_from n r s path positions l ≠ Panic) as Hex.
  { induction n as [|n IH]; intros; cbn [expand_c2c_from]; [done|]. case_match; [done|]. case_match; [|done]. case_match; [done|].
    apply res_bind_no_panic; [auto|]. intros. case_match; [done|]. apply res_bind_no_panic; auto. }
  assert (∀ sources positions l, expand_all r sources positions l ≠ Panic) as Hall.
  { induction sources as [|s sources IH]; intros; cbn [expand_all]; [done|]. apply res_bind_no_panic; [auto|]. intros []; auto. }
  assert (∀ l positions, index l positions ≠ Panic) as Hix by (induction l; intros; cbn [index]; [done|by case_match]).
  apply res_bind_no_panic.
  - induction batch as [|p batch IH]; cbn [batch_to_acquired_samples]; [done|]. apply res_bind_no_panic.
    + unfold acquired_sample. repeat (apply res_bind_no_panic; [|intros]); auto using ok_or_no_panic. by case_match.
    + intros. by apply res_bind_no_panic.
  - intros. apply res_bind_no_panic; auto.
Qed.

(** ** The whole write *)

(** The slots of exactly the batch's samples hold exactly these samples. *)
Definition batch_stored (r : Routing.RoutingCache) (a : ShmAcquisitionStateWriter) (channel_id : Z)
    (batch : list DataPoint) (w w' : plane) (l : list (nat * AcquiredPointSample)) : Prop :=
  exact_batch r channel_id batch (map snd l) ∧ resolved a l ∧ stored (writer_slots a) l (mem w) (mem w').


(** ** A run: one telemetry point, forwarded to another, watched by one consumer *)

Module Sample.
Definition layout : ShmAcquisitionStateWriter := StateWriter 6 Manifest.sample_manifest 2 true.
Definition cache : Routing.RoutingCache :=
  Routing.Cache ∅ {[ (7, Telemetry, 4) := Routing.C2C 7 Telemetry 9 (of_Z 2) one ]} ∅ ∅.
Definition batch : list DataPoint := [Data 4 Points.Telemetry (VFloat (of_Z 21)) Good 1000 None].
Definition calm : outside := Outside (fun _ => true) (fun _ => Ok tt) (fun _ => Ok tt) (fun _ => 2) (fun _ => 0).
(** The generation is replaced while the batch is written. *)
Definition replaced : outside :=
  Outside (fun _ => true) (fun _ => Ok tt) (fun _ => Ok tt) (fun t => if (t <? 5)%nat then 2 else 4) (fun _ => 0).
(** The consumer watches slot 1 only. *)
Definition watcher : PointWatch.PublisherTarget :=
  PointWatch.Target (Bitmap.BitmapMap 0 64 1) (replicate Bitmap.WATCH_BITMAP_HEADER_SIZE 0 ++ le_bytes 8 2) [].
Definition start : plane := Plane (replicate 256 0) (Some (PointWatch.Publisher [watcher] 0)) 0 0.

Definition sample_4 : AcquiredPointSample := Acquired (ChannelPoint 7 Telemetry 4) (of_Z 21) (of_Z 21) 1000 Good.
Definition sample_9 : AcquiredPointSample := Acquired (ChannelPoint 7 Telemetry 9) (of_Z 43) (of_Z 43) 1000 Good.

Definition queues (w : plane) : list (list PointWatch.PointWatchEvent) :=
  match observer w with Some p => map PointWatch.t_queue (PointWatch.targets p) | None => [] end.

Example committed_run :
  let '(result, w) := write_batch calm cache (Some layout) 7 batch start in
  result = Ok tt ∧ Shm.read_slot (mem w) 6 0 = Some (encode sample_4) ∧
  Shm.read_slot (mem w) 6 1 = Some (encode sample_9) ∧ queues w = [[PointWatch.Event 7 9 1 0]].
Proof. by vm_compute. Qed.

Example replaced_run :
  let '(result, w) := write_batch replaced cache (Some layout) 7 batch start in
  result = Err EConnection ∧ Shm.read_slot (mem w) 6 1 = Some (encode sample_9) ∧ queues w = [[]].
Proof. by vm_compute. Qed.

Lemma load_zeros off n k : load_le off n (replicate k 0) = 0.
Proof.
  unfold load_le, slice. rewrite drop_replicate, take_replicate. induction (_ `min` _)%nat as [|m IH]; [done|].
  cbn [replicate le_val]. by rewrite IH.
Qed.

End Sample.
End Acquisition.
