(* ===== verification/ChannelTask.v ===== *)
(** * The channel task (services/io/src/core/channels/{command_guard,channel_task}.rs)

    One task owns a protocol client.  It validates and dispatches business commands,
    polls, stores what it read, publishes whether the channel is online, and
    reconnects.  The protocol is any implementation of the runtime interface over a
    state of its own; clocks, the commands that arrive during a backoff and the
    timeouts answer from arbitrary schedules.  Logging is not modelled. *)

From stdpp Require Import base tactics numbers list gmap strings.
From S2P Require Import Prelude State Float Domain Points CommandSink Routing Acquisition Reconnect CommandListener.
#[local] Open Scope Z_scope.

Module ChannelTask.
Import Float Domain.
Abbreviation plane := Acquisition.plane.
Abbreviation ReconnectHelper := Reconnect.ReconnectHelper.
Abbreviation ChannelCommand := CommandListener.ChannelCommand.

(** ** The command guard (command_guard.rs) *)

Record ControlPoint := CPoint { kp_id : Z; on_value : Z; off_value : Z }.
Record AdjustmentPoint := APoint { jp_id : Z; min_value : option f64; max_value : option f64; jp_step : f64 }.

Inductive CommandGuardError :=
| UnknownWritablePoint (t : Points.PointType) (point_id : Z)
| InvalidCommand (e : DomainError).

Record CommandGuard := Guard {
  g_channel_id : Z; controls : gmap Z CommandConstraints; adjustments : gmap Z CommandConstraints }.

Definition guarded {A} (r : res DomainError A) : res CommandGuardError A :=
  match r with Ok a => Ok a | Err e => Err (InvalidCommand e) | Panic => Panic end.

Definition control_constraints (p : ControlPoint) : res DomainError CommandConstraints :=
  let mn := of_Z (Z.min (on_value p) (off_value p)) in
  let mx := of_Z (Z.max (on_value p) (off_value p)) in
  constraints_new (Some mn) (Some mx) (if ltb mn mx then Some (sub mx mn) else None).
Definition adjustment_constraints (p : AdjustmentPoint) : res DomainError CommandConstraints :=
  constraints_new (min_value p) (max_value p) (Some (jp_step p)).

(** Later points replace earlier ones of the same id. *)
Fixpoint collect {A} (id : A → Z) (limits : A → res DomainError CommandConstraints)
    (points : list A) (m : gmap Z CommandConstraints) : res CommandGuardError (gmap Z CommandConstraints) :=
  match points with
  | [] => Ok m
  | p :: points => c ← guarded (limits p); collect id limits points (<[id p := c]> m)
  end.

Definition from_runtime (channel_id : Z) (cs : list ControlPoint) (js : list AdjustmentPoint)
    : res CommandGuardError CommandGuard :=
  controls ← collect kp_id control_constraints cs ∅;
  adjustments ← collect jp_id adjustment_constraints js ∅;
  Ok (Guard channel_id controls adjustments).

(** [u64::try_from] of a signed time. *)
Definition time_from_i64 (t : Z) : res CommandGuardError Z :=
  if t <? 0 then Err (InvalidCommand InvalidCommandWindow) else Ok t.

Definition limits_of (g : CommandGuard) (t : Points.PointType) (point_id : Z) : option CommandConstraints :=
  match t with
  | Points.Control => controls g !! point_id
  | Points.Adjustment => adjustments g !! point_id
  | _ => None
  end.

Definition validate (g : CommandGuard) (t : Points.PointType) (point_id : Z) (value : f64)
    (issued_at_ms expires_at_ms now_ms : Z) : res CommandGuardError unit :=
  constraints ← ok_or (limits_of g t point_id) (UnknownWritablePoint t point_id);
  issued_at ← time_from_i64 issued_at_ms;
  expires_at ← time_from_i64 expires_at_ms;
  now ← time_from_i64 now_ms;
  command ← guarded (control_new 0 (Address (g_channel_id g) Action point_id) value issued_at expires_at);
  guarded (control_validate_at command now constraints).

(** ** The protocol (protocols/runtime.rs, protocols/core/traits.rs) *)

Inductive PState := PDisconnected | PConnecting | PConnected | PReconnecting | PError.
Definition is_connected (s : PState) : bool := match s with PConnected => true | _ => false end.

(** What an adapter provides.  The errors carry only text.  [abandon] is what is left of
    a protocol whose connect was cancelled by the timeout. *)
Class ChannelRuntime (P : Type) := {
  is_event_driven : P → bool;
  connect : st P (res unit unit);
  disconnect : st P (res unit unit);
  start_events : st P (res unit unit);
  stop_events : st P (res unit unit);
  poll_once : st P (list Acquisition.DataPoint);
  write_control : list (Z * f64) → st P (res unit nat);
  write_adjustment : list (Z * f64) → st P (res unit nat);
  diagnostics : P → res unit Z;
  connection_state : P → PState;
  set_log_config : Z → P → P;
  abandon : P → P }.

(** The cached state (types.rs). *)
Definition cached_code (s : PState) : Z :=
  match s with PConnected => 3 | PConnecting => 2 | PReconnecting => 5 | PDisconnected => 4 | PError => 7 end.

Inductive ProtocolCommand := Connect | Disconnect | SetLogLevel (level : string) | Shutdown.
Inductive DataEvent := DataUpdate (b : list Acquisition.DataPoint) | ConnectionChanged (s : PState) | EventError | Heartbeat.
Inductive TickAction := Continue | Break | Proceed.

(** ** The task's state *)

Record ChannelSharedState := Shared {
  cached_connection_state : Z; cached_diagnostics : option Z; watchdog_heartbeat_ms : Z;
  reconnect_total_attempts : Z; reconnect_failed : bool; last_successful_read_ms : Z }.
Record locals := Locals {
  helper : ReconnectHelper; failed_log_tick_counter : Z; prev_online : option bool;
  prev_error_count : Z; consecutive_zero_data : Z }.

(** Calls that leave the task. *)
Inductive call :=
| KConnect | KDisconnect | KStart | KStop
| KWrite (t : Points.PointType) (points : list (Z * f64)) (now : Z)
| KOnline (online : bool)
| KReply (ok : bool).

Section Task.
Context {P : Type} `{ChannelRuntime P}.

Record task := Task {
  protocol : P; loc : locals; shared : ChannelSharedState; shm : plane; log : list call; clock : nat }.

(** The context of the task and what surrounds it. *)
Record ChannelPollContext := Ctx {
  channel_id : Z; zero_data_threshold : Z; command_guard : CommandGuard;
  unix_timestamp_ms : nat → Z; instant : nat → Z;
  during_backoff : nat → option ProtocolCommand;
  connect_in_time : nat → bool;
  plane_outside : Acquisition.outside; routing_cache : Routing.RoutingCache;
  layout : option Acquisition.ShmAcquisitionStateWriter }.
Variable ctx : ChannelPollContext.

Definition set_protocol (p : P) (w : task) : task := Task p (loc w) (shared w) (shm w) (log w) (clock w).
Definition set_shared (s : ChannelSharedState) (w : task) : task := Task (protocol w) (loc w) s (shm w) (log w) (clock w).
Definition set_shm (s : plane) (w : task) : task := Task (protocol w) (loc w) (shared w) s (log w) (clock w).
Definition set_loc (l : locals) (w : task) : task := Task (protocol w) l (shared w) (shm w) (log w) (clock w).
Definition emit (k : call) : st task unit :=
  modify (fun w => Task (protocol w) (loc w) (shared w) (shm w) (log w ++ [k]) (clock w)).
Definition ask {A} (f : nat → A) : st task A := fun w =>
  (f (clock w), Task (protocol w) (loc w) (shared w) (shm w) (log w) (S (clock w))).
Definition on_protocol {A} (m : st P A) : st task A := fun w =>
  let '(a, p) := m (protocol w) in (a, set_protocol p w).

Definition on_helper (f : ReconnectHelper → ReconnectHelper) : st task unit :=
  modify (fun w => let l := loc w in
    set_loc (Locals (f (helper l)) (failed_log_tick_counter l) (prev_online l) (prev_error_count l)
               (consecutive_zero_data l)) w).
Definition set_failed_ticks (n : Z) : st task unit :=
  modify (fun w => let l := loc w in
    set_loc (Locals (helper l) n (prev_online l) (prev_error_count l) (consecutive_zero_data l)) w).
Definition set_prev_online (b : bool) : st task unit :=
  modify (fun w => let l := loc w in
    set_loc (Locals (helper l) (failed_log_tick_counter l) (Some b) (prev_error_count l) (consecutive_zero_data l)) w).
Definition set_zero_data (n : Z) : st task unit :=
  modify (fun w => let l := loc w in
    set_loc (Locals (helper l) (failed_log_tick_counter l) (prev_online l) (prev_error_count l) n) w).
Definition set_error_count (n : Z) : st task unit :=
  modify (fun w => let l := loc w in
    set_loc (Locals (helper l) (failed_log_tick_counter l) (prev_online l) n (consecutive_zero_data l)) w).

Definition store_cached_state (code : Z) : st task unit :=
  modify (fun w => let s := shared w in
    set_shared (Shared code (cached_diagnostics s) (watchdog_heartbeat_ms s) (reconnect_total_attempts s)
                  (reconnect_failed s) (last_successful_read_ms s)) w).
Definition store_diagnostics (n : Z) : st task unit :=
  modify (fun w => let s := shared w in
    set_shared (Shared (cached_connection_state s) (Some n) (watchdog_heartbeat_ms s) (reconnect_total_attempts s)
                  (reconnect_failed s) (last_successful_read_ms s)) w).
Definition store_watchdog (t : Z) : st task unit :=
  modify (fun w => let s := shared w in
    set_shared (Shared (cached_connection_state s) (cached_diagnostics s) t (reconnect_total_attempts s)
                  (reconnect_failed s) (last_successful_read_ms s)) w).
Definition store_total_attempts (n : Z) : st task unit :=
  modify (fun w => let s := shared w in
    set_shared (Shared (cached_connection_state s) (cached_diagnostics s) (watchdog_heartbeat_ms s) n
                  (reconnect_failed s) (last_successful_read_ms s)) w).
Definition store_reconnect_failed (b : bool) : st task unit :=
  modify (fun w => let s := shared w in
    set_shared (Shared (cached_connection_state s) (cached_diagnostics s) (watchdog_heartbeat_ms s)
                  (reconnect_total_attempts s) b (last_successful_read_ms s)) w).
Definition store_last_read (t : Z) : st task unit :=
  modify (fun w => let s := shared w in
    set_shared (Shared (cached_connection_state s) (cached_diagnostics s) (watchdog_heartbeat_ms s)
                  (reconnect_total_attempts s) (reconnect_failed s) t) w).

(** ** Steps *)

Definition update_cached_state : st task unit :=
  s ← gets (fun w => connection_state (protocol w)); store_cached_state (cached_code s).

Definition publish_online (b : bool) : st task unit :=
  p ← gets (fun w => prev_online (loc w));
  if bool_decide (p = Some b) then mret tt
  else _ ← set_prev_online b; emit (KOnline b).

Definition check_online_change : st task unit :=
  s ← gets (fun w => connection_state (protocol w)); publish_online (is_connected s).

Definition publish_state : st task unit := _ ← update_cached_state; check_online_change.

Definition call_connect : st task (res unit unit) := _ ← emit KConnect; on_protocol connect.
Definition call_disconnect : st task (res unit unit) := _ ← emit KDisconnect; on_protocol disconnect.
Definition call_start : st task (res unit unit) := _ ← emit KStart; on_protocol start_events.
Definition call_stop : st task (res unit unit) := _ ← emit KStop; on_protocol stop_events.

Definition connect_and_start_events : st task (res unit unit) :=
  _ ←? call_connect;
  event_driven ← gets (fun w => is_event_driven (protocol w));
  if event_driven : bool then
    r ← call_start;
    match r with
    | Err e => _ ← call_disconnect; mret (Err e)
    | r => mret r
    end
  else mret (Ok tt).

Definition stop_events_and_disconnect : st task (res unit unit) :=
  event_driven ← gets (fun w => is_event_driven (protocol w));
  stop_result ← (if event_driven : bool then call_stop else mret (Ok tt));
  disconnect_result ← call_disconnect;
  mret (match stop_result with Ok _ => disconnect_result | r => r end).

Definition write_batch_and_mark_fresh (batch : list Acquisition.DataPoint) (freshness_ms : Z)
    : st task (res Acquisition.GatewayError unit) := fun w =>
  let '(r, s) := Acquisition.write_batch (plane_outside ctx) (routing_cache ctx) (layout ctx) (channel_id ctx) batch (shm w) in
  match r with
  | Ok _ => (r, (store_last_read freshness_ms (set_shm s w)).2)
  | _ => (r, set_shm s w)
  end.

Definition handle_protocol_event (e : DataEvent) : st task unit :=
  match e with
  | DataUpdate [] => mret tt
  | DataUpdate batch =>
      now_ms ← ask (unix_timestamp_ms ctx);
      _ ← store_watchdog now_ms;
      _ ← write_batch_and_mark_fresh batch now_ms;
      mret tt
  | ConnectionChanged s => _ ← store_cached_state (cached_code s); publish_online (is_connected s)
  | EventError => mret tt
  | Heartbeat => now_ms ← ask (unix_timestamp_ms ctx); store_watchdog now_ms
  end.

Definition log_config (level : string) : option Z :=
  let l := lowercase level in
  if bool_decide (l = "debug" ∨ l = "verbose") then Some 2
  else if bool_decide (l = "info" ∨ l = "standard") then Some 1
  else if bool_decide (l = "error" ∨ l = "minimal") then Some 0
  else None.

Definition apply_log_level (level : string) : st task bool :=
  match log_config level with
  | Some c => _ ← modify (fun w => set_protocol (set_log_config c (protocol w)) w); mret true
  | None => mret false
  end.

(** The result says whether the task exits. *)
Definition handle_protocol_command (c : ProtocolCommand) : st task bool :=
  match c with
  | Connect => r ← connect_and_start_events; _ ← emit (KReply (is_ok r)); mret false
  | Disconnect => _ ← stop_events_and_disconnect; _ ← emit (KReply true); mret false
  | SetLogLevel level => ok ← apply_log_level level; _ ← emit (KReply ok); mret false
  | Shutdown => _ ← call_disconnect; mret true
  end.

(** *** Business commands *)

Definition dispatch (t : Points.PointType) (points : list (Z * f64)) (issued expires : Z) : st task unit :=
  now_ms ← ask (unix_timestamp_ms ctx);
  if forallb (fun '(p, v) => is_ok (validate (command_guard ctx) t p v issued expires now_ms)) points then
    _ ← emit (KWrite t points now_ms);
    _ ← on_protocol (match t with Points.Control => write_control points | _ => write_adjustment points end);
    mret tt
  else mret tt.

Definition handle_business_command (c : ChannelCommand) : st task unit :=
  match c with
  | CommandListener.Control _ p v issued expires => dispatch Points.Control [(p, v)] issued expires
  | CommandListener.Adjustment _ p v issued expires => dispatch Points.Adjustment [(p, v)] issued expires
  | CommandListener.BatchControl _ points issued expires => dispatch Points.Control points issued expires
  | CommandListener.BatchAdjustment _ points issued expires => dispatch Points.Adjustment points issued expires
  end.

(** *** Reconnection *)

(** A command during the backoff; [Break] is returned at once. *)
Definition handle_backoff_command (c : ProtocolCommand) : st task (option TickAction) :=
  match c with
  | Shutdown => mret (Some Break)
  | Connect =>
      r ← connect_and_start_events;
      _ ← (if is_ok r then
             now ← ask (instant ctx);
             _ ← on_helper (Reconnect.mark_connected now);
             set_failed_ticks 0
           else mret tt);
      _ ← emit (KReply (is_ok r));
      mret None
  | Disconnect => _ ← stop_events_and_disconnect; _ ← emit (KReply true); mret None
  | SetLogLevel level => ok ← apply_log_level level; _ ← emit (KReply ok); mret None
  end.

Definition attempt_reconnect : st task TickAction :=
  in_time ← ask (connect_in_time ctx);
  r ← (if in_time : bool then connect_and_start_events
       else _ ← emit KConnect;
            _ ← modify (fun w => set_protocol (abandon (protocol w)) w);
            mret (Err tt));
  now ← ask (instant ctx);
  _ ← match r with
      | Ok _ =>
          _ ← on_helper (Reconnect.mark_connected now);
          _ ← store_reconnect_failed false;
          set_failed_ticks 0
      | _ => on_helper (Reconnect.record_failure now)
      end;
  _ ← publish_state;
  mret Continue.

(** A tick while the helper has failed. *)
Definition failed_tick (h : ReconnectHelper) : st task TickAction :=
  _ ← store_reconnect_failed true;
  now ← ask (instant ctx);
  let '(recovered, h') := Reconnect.check_auto_recovery now h in
  _ ← on_helper (fun _ => h');
  _ ← (if recovered : bool then _ ← store_reconnect_failed false; set_failed_ticks 0
       else n ← gets (fun w => failed_log_tick_counter (loc w)); set_failed_ticks (wrapping_add 32 n 1));
  _ ← publish_state;
  mret Continue.

(** A tick that may start an attempt. *)
Definition lost_tick (h : ReconnectHelper) : st task TickAction :=
  let h := if bool_decide (Reconnect.state h = Reconnect.Connected) then Reconnect.mark_disconnected h else h in
  now ← ask (instant ctx);
  let '(allowed, h') := Reconnect.record_attempt now h in
  _ ← on_helper (fun _ => h');
  if negb allowed then _ ← publish_state; mret Continue
  else if 1 <? Reconnect.total_attempts (Reconnect.stats h') then
    c ← ask (during_backoff ctx);
    match c with
    | None => attempt_reconnect
    | Some c =>
        a ← handle_backoff_command c;
        _ ← publish_state;
        mret (default Continue a)
    end
  else attempt_reconnect.

Definition handle_disconnected : st task TickAction :=
  h ← gets (fun w => helper (loc w));
  _ ← store_total_attempts (Reconnect.total_attempts (Reconnect.stats h));
  match Reconnect.state h with
  | Reconnect.Failed => failed_tick h
  | Reconnect.Reconnecting => mret Continue
  | Reconnect.Connected | Reconnect.Disconnected => lost_tick h
  end.

(** *** The poll tick *)

Definition refresh_diagnostics : st task unit :=
  d ← gets (fun w => diagnostics (protocol w));
  match d with
  | Ok n =>
      prev ← gets (fun w => prev_error_count (loc w));
      _ ← (if prev <? n then set_error_count n else mret tt);
      store_diagnostics n
  | _ => mret tt
  end.

Definition poll_connected (event_driven : bool) : st task TickAction :=
  h ← gets (fun w => helper (loc w));
  _ ← (if bool_decide (Reconnect.state h = Reconnect.Connected) then mret tt
       else now ← ask (instant ctx);
            _ ← on_helper (Reconnect.mark_connected now);
            _ ← set_failed_ticks 0;
            store_reconnect_failed false);
  batch ← on_protocol poll_once;
  stop ← (match batch with
          | [] =>
              if negb event_driven && (0 <? zero_data_threshold ctx) then
                n ← gets (fun w => consecutive_zero_data (loc w));
                let n := wrapping_add 32 n 1 in
                _ ← set_zero_data n;
                if zero_data_threshold ctx <=? n then
                  _ ← stop_events_and_disconnect; _ ← set_zero_data 0; mret true
                else mret false
              else mret false
          | _ =>
              _ ← set_zero_data 0;
              freshness_ms ← ask (unix_timestamp_ms ctx);
              _ ← write_batch_and_mark_fresh batch freshness_ms;
              mret false
          end);
  _ ← (if stop : bool then mret tt else refresh_diagnostics);
  _ ← publish_state;
  mret Proceed.

Definition handle_poll_tick : st task TickAction :=
  event_driven ← gets (fun w => is_event_driven (protocol w));
  now_ms ← ask (unix_timestamp_ms ctx);
  _ ← store_watchdog now_ms;
  s ← gets (fun w => connection_state (protocol w));
  if negb (is_connected s) then handle_disconnected else poll_connected event_driven.

(** *** The loop *)

(** What the [select!] of the loop takes next; [Background] is what the protocol's own
    tasks do to it in between. *)
Inductive input :=
| Protocol (c : ProtocolCommand) | Business (c : ChannelCommand) | Event (e : DataEvent) | Tick
| Background (p : P).

(** One turn; the result says whether the loop goes on. *)
Definition turn (i : input) : st task bool :=
  match i with
  | Protocol Shutdown => mret false
  | Protocol c => exit ← handle_protocol_command c; mret (negb exit)
  | Business c => _ ← handle_business_command c; mret true
  | Event e => _ ← handle_protocol_event e; mret true
  | Tick => a ← handle_poll_tick; mret (match a with Break => false | _ => true end)
  | Background p => _ ← modify (set_protocol p); mret true
  end.

Fixpoint turns (ins : list input) : st task bool :=
  match ins with
  | [] => mret true
  | i :: ins => go ← turn i; if go : bool then turns ins else mret false
  end.

Definition finish : st task unit :=
  _ ← stop_events_and_disconnect;
  _ ← store_cached_state 4;
  emit (KOnline false).

(** The task, up to where it waits for more input. *)
Definition run_unified_channel_task (ins : list input) : st task unit :=
  _ ← publish_state;
  go ← turns ins;
  if go : bool then mret tt else finish.

Definition task_start (p : P) (policy : Reconnect.ReconnectPolicy) (recovery : option Reconnect.AutoRecoveryPolicy)
    (s : plane) (initial : Z) : task :=
  let h := Reconnect.helper_new policy in
  let h := match recovery with Some a => Reconnect.with_auto_recovery a h | None => h end in
  Task p (Locals h 0 None 0 0) (Shared initial None 0 0 false 0) s [] 0.

(** ** Device writes *)

Definition writes (l : list call) : list (Points.PointType * list (Z * f64) * Z) :=
  omap (fun k => match k with KWrite t points now => Some (t, points, now) | _ => None end) l.

Lemma device_writes_app l l' : writes (l ++ l') = writes l ++ writes l'.
Proof. apply omap_app. Qed.

(** Operations that keep a property of the task. *)
Definition preserves (I : task → Prop) {A} (m : st task A) : Prop := ∀ w, I w → I (m w).2.

Lemma preserves_ret I {A} (a : A) : preserves I (mret a).
Proof. by intros w. Qed.
Lemma preserves_gets I {A} (f : task → A) : preserves I (gets f).
Proof. by intros w. Qed.
Lemma preserves_bind I {A B} (m : st task A) (f : A → st task B) :
  preserves I m → (∀ a, preserves I (f a)) → preserves I (m ≫= f).
Proof. intros Hm Hf w Hw. specialize (Hm w Hw). unfold mbind, st_bind. destruct (m w) as [a w1]. by apply Hf. Qed.
Lemma preserves_try I {E A B} (m : st task (res E A)) (f : A → st task (res E B)) :
  preserves I m → (∀ a, preserves I (f a)) → preserves I (st_try m f).
Proof. intros Hm Hf w Hw. specialize (Hm w Hw). unfold st_try. destruct (m w) as [[] w1]; [by apply Hf|done..]. Qed.

(** Operations that write nothing to the device. *)
Definition quiet {A} (m : st task A) : Prop := ∀ l, preserves (fun w => writes (log w) = l) m.

Lemma quiet_at {A} (m : st task A) w : quiet m → writes (log (m w).2) = writes (log w).
Proof. intros Hm. by apply Hm. Qed.
Lemma quiet_ret {A} (a : A) : quiet (mret a).
Proof. intros l. apply preserves_ret. Qed.
Lemma quiet_gets {A} (f : task → A) : quiet (gets f).
Proof. intros l. apply preserves_gets. Qed.
Lemma quiet_ask {A} (f : nat → A) : quiet (ask f).
Proof. by intros l w. Qed.
Lemma quiet_on_protocol {A} (m : st P A) : quiet (on_protocol m).
Proof. intros l w. unfold on_protocol. by destruct (m (protocol w)). Qed.
Lemma quiet_modify f : (∀ w, log (f w) = log w) → quiet (modify f).
Proof. intros Hf l w. cbn. by rewrite Hf. Qed.
Lemma quiet_emit k : match k with KWrite _ _ _ => False | _ => True end → quiet (emit k).
Proof. intros Hk l w <-. cbn. rewrite device_writes_app. destruct k; try done; by rewrite app_nil_r. Qed.
Lemma quiet_bind {A B} (m : st task A) (f : A → st task B) : quiet m → (∀ a, quiet (f a)) → quiet (m ≫= f).
Proof. intros Hm Hf l. apply preserves_bind; [apply Hm|intros a; apply Hf]. Qed.
Lemma quiet_try {E A B} (m : st task (res E A)) (f : A → st task (res E B)) :
  quiet m → (∀ a, quiet (f a)) → quiet (st_try m f).
Proof. intros Hm Hf l. apply preserves_try; [apply Hm|intros a; apply Hf]. Qed.

Create HintDb quiet.
#[local] Hint Resolve quiet_ret quiet_gets quiet_ask quiet_on_protocol quiet_bind quiet_try : quiet.
#[local] Hint Extern 1 (quiet (modify _)) => (by apply quiet_modify) : quiet.
#[local] Hint Extern 1 (quiet (emit _)) => (by apply quiet_emit) : quiet.
Ltac quiet := repeat first [progress eauto with quiet | apply quiet_bind; [|intros] | apply quiet_try; [|intros] | case_match].

Lemma publish_state_quiet : quiet publish_state.
Proof. unfold publish_state, update_cached_state, check_online_change, publish_online, store_cached_state, set_prev_online. quiet. Qed.
Lemma connect_quiet : quiet connect_and_start_events.
Proof. unfold connect_and_start_events, call_connect, call_start, call_disconnect. quiet. Qed.
Lemma stop_quiet : quiet stop_events_and_disconnect.
Proof. unfold stop_events_and_disconnect, call_stop, call_disconnect. quiet. Qed.
Lemma fresh_quiet batch t : quiet (write_batch_and_mark_fresh batch t).
Proof. intros l w. unfold write_batch_and_mark_fresh. destruct (Acquisition.write_batch _ _ _ _ _ _) as [[] s]; done. Qed.
Lemma log_level_quiet level : quiet (apply_log_level level).
Proof. unfold apply_log_level. quiet. Qed.
#[local] Hint Resolve publish_state_quiet connect_quiet stop_quiet fresh_quiet log_level_quiet : quiet.

Lemma event_quiet e : quiet (handle_protocol_event e).
Proof.
  unfold handle_protocol_event, store_watchdog, store_cached_state, publish_online, set_prev_online. quiet.
Qed.
Lemma protocol_quiet c : quiet (handle_protocol_command c).
Proof. unfold handle_protocol_command, call_disconnect. quiet. Qed.
Lemma attempt_quiet : quiet attempt_reconnect.
Proof. unfold attempt_reconnect, on_helper, store_reconnect_failed, set_failed_ticks. quiet. Qed.
Lemma backoff_quiet c : quiet (handle_backoff_command c).
Proof. unfold handle_backoff_command, on_helper, set_failed_ticks. quiet. Qed.
#[local] Hint Resolve attempt_quiet backoff_quiet : quiet.
Lemma disconnected_quiet : quiet handle_disconnected.
Proof.
  unfold handle_disconnected, failed_tick, lost_tick, store_total_attempts, store_reconnect_failed, on_helper, set_failed_ticks.
  quiet.
Qed.
Lemma poll_quiet b : quiet (poll_connected b).
Proof.
  unfold poll_connected, on_helper, set_failed_ticks, store_reconnect_failed, set_zero_data, refresh_diagnostics,
    set_error_count, store_diagnostics. quiet.
Qed.
#[local] Hint Resolve disconnected_quiet poll_quiet : quiet.
Lemma tick_quiet : quiet handle_poll_tick.
Proof. unfold handle_poll_tick, store_watchdog. quiet. Qed.

Definition target_of (c : ChannelCommand) : Points.PointType * list (Z * f64) :=
  match c with
  | CommandListener.Control _ p v _ _ => (Points.Control, [(p, v)])
  | CommandListener.Adjustment _ p v _ _ => (Points.Adjustment, [(p, v)])
  | CommandListener.BatchControl _ points _ _ => (Points.Control, points)
  | CommandListener.BatchAdjustment _ points _ _ => (Points.Adjustment, points)
  end.
Definition window_of (c : ChannelCommand) : Z * Z :=
  match c with
  | CommandListener.Control _ _ _ issued expires | CommandListener.Adjustment _ _ _ issued expires
  | CommandListener.BatchControl _ _ issued expires | CommandListener.BatchAdjustment _ _ issued expires => (issued, expires)
  end.

(** What the guard stands for: every point of the command is configured as writable
    with the command's type, its value is finite and within the point's limits, and
    the command is issued, dispatched and expires in this order. *)
Definition permitted (g : CommandGuard) (c : ChannelCommand) (now : Z) : Prop :=
  Forall (fun '(p, v) => is_finite v = true ∧
    ∃ k, limits_of g (target_of c).1 p = Some k ∧ validate_value k v = Ok tt) (target_of c).2 ∧
  ((target_of c).2 ≠ [] → 0 ≤ (window_of c).1 < (window_of c).2 ∧ 0 ≤ now < (window_of c).2).

Lemma validate_spec g t p v issued expires now :
  is_ok (validate g t p v issued expires now) = true →
  is_finite v = true ∧ (∃ k, limits_of g t p = Some k ∧ validate_value k v = Ok tt) ∧
  0 ≤ issued < expires ∧ 0 ≤ now < expires.
Proof.
  unfold validate, time_from_i64. destruct (limits_of g t p) as [k|] eqn:Hk; [|done]. cbn.
  case (Z.ltb_spec issued 0); [done|]. intros Hi. cbn. case (Z.ltb_spec expires 0); [done|]. intros He. cbn.
  case (Z.ltb_spec now 0); [done|]. intros Hn. cbn. unfold control_new. cbn. destruct (is_finite v) eqn:Hf; [|done]. cbn.
  case (Z.leb_spec expires issued); [done|]. intros Hw. cbn. unfold control_validate_at. cbn.
  case (Z.leb_spec expires now); [done|]. intros Hx. cbn. destruct (validate_value k v) as [[]| |] eqn:Hv; [|done..]. intros _.
  split_and!; try done; try lia. eauto.
Qed.

Lemma business_writes c w :
  let w' := (handle_business_command c w).2 in
  writes (log w') = writes (log w) ∨
  ∃ now, writes (log w') = writes (log w) ++ [((target_of c).1, (target_of c).2, now)] ∧
         permitted (command_guard ctx) c now.
Proof.
  assert (∀ t points issued expires, target_of c = (t, points) → window_of c = (issued, expires) →
    writes (log (dispatch t points issued expires w).2) = writes (log w) ∨
    ∃ now, writes (log (dispatch t points issued expires w).2) = writes (log w) ++ [((target_of c).1, (target_of c).2, now)] ∧
         permitted (command_guard ctx) c now) as Hd.
  { intros t points issued expires Ht Hw. unfold dispatch, mbind, st_bind, ask. cbn [fst snd].
    set (now := unix_timestamp_ms ctx (clock w)). destruct (forallb _ points) eqn:Hall; [|by left]. right. exists now.
    unfold permitted. rewrite Ht, Hw. cbn [fst snd]. split.
    - cbn [emit modify]. match goal with |- context [on_protocol ?m ?w0] => pose proof (quiet_at _ w0 (quiet_on_protocol m)) as Hq;
        destruct (on_protocol m w0) as [r w1] end. cbn [snd mret st_ret] in *. rewrite Hq. cbn [log]. by rewrite device_writes_app.
    - rewrite forallb_forall in Hall. split.
      + apply Forall_forall. intros [p v] Hin%list_elem_of_In. apply (Hall (p, v)), validate_spec in Hin. naive_solver.
      + intros Hne. destruct points as [|[p v] points]; [done|]. specialize (Hall (p, v) (or_introl eq_refl)).
        apply validate_spec in Hall. naive_solver. }
  destruct c; cbn [handle_business_command]; by apply Hd.
Qed.

Definition business (ins : list input) : list ChannelCommand :=
  omap (fun i => match i with Business c => Some c | _ => None end) ins.

(** The writes of a run are those of some of its commands, in order. *)
Definition writes_of (cs : list (ChannelCommand * Z)) : list (Points.PointType * list (Z * f64) * Z) :=
  map (fun '(c, now) => ((target_of c).1, (target_of c).2, now)) cs.
Definition dispatched (ins : list input) (l : list call) (l' : list call) : Prop :=
  ∃ cs, map fst cs `sublist_of` business ins ∧ writes l' = writes l ++ writes_of cs ∧
        Forall (fun '(c, now) => permitted (command_guard ctx) c now) cs.

Lemma dispatched_none ins l l' : writes l' = writes l → dispatched ins l l'.
Proof. intros Hw. exists []. split_and!; [apply sublist_nil_l|by rewrite app_nil_r|done]. Qed.

Lemma dispatched_cons i ins l l1 l2 : dispatched [i] l l1 → dispatched ins l1 l2 → dispatched (i :: ins) l l2.
Proof.
  intros (cs1 & H1 & W1 & P1) (cs2 & H2 & W2 & P2). exists (cs1 ++ cs2). split_and!.
  - rewrite map_app. change (i :: ins) with ([i] ++ ins). unfold business. rewrite omap_app. by apply sublist_app.
  - unfold writes_of. by rewrite W2, W1, map_app, app_assoc.
  - by apply Forall_app.
Qed.

Lemma turn_dispatched i w : dispatched [i] (log w) (log (turn i w).2).
Proof.
  assert (∀ A B (m : st task A) (f : A → B), quiet m →
    dispatched [i] (log w) (log ((a ← m; mret (f a)) w).2)) as Hq.
  { intros A B m f Hm. apply dispatched_none, quiet_at, quiet_bind; [done|]. intros a. apply quiet_ret. }
  destruct i as [c|c|e| |p]; cbn [turn].
  - destruct c; try apply Hq; try apply protocol_quiet. by apply dispatched_none.
  - unfold mbind, st_bind. pose proof (business_writes c w) as Hb. destruct (handle_business_command c w) as [u w'].
    cbn [snd mret] in *. destruct Hb as [Hb|(now & Hb & Hp)]; [by apply dispatched_none|].
    exists [(c, now)]. split_and!; [done|done|by apply Forall_singleton].
  - apply Hq, event_quiet.
  - apply Hq, tick_quiet.
  - by apply dispatched_none.
Qed.

Lemma turns_dispatched ins w : dispatched ins (log w) (log (turns ins w).2).
Proof.
  revert w. induction ins as [|i ins IH]; intros w; cbn [turns]; [by apply dispatched_none|].
  unfold mbind, st_bind. pose proof (turn_dispatched i w) as Ht. destruct (turn i w) as [go w']. cbn [snd] in Ht.
  eapply dispatched_cons; [exact Ht|]. destruct go; [apply IH|by apply dispatched_none].
Qed.

Lemma run_dispatched (ins : list input) (w : task) :
  log w = [] → dispatched ins [] (log (run_unified_channel_task ins w).2).
Proof.
  intros Hl. unfold run_unified_channel_task, mbind, st_bind. pose proof (quiet_at _ w publish_state_quiet) as Hp.
  destruct (publish_state w) as [u w1]. cbn [snd] in Hp. rewrite Hl in Hp.
  pose proof (turns_dispatched ins w1) as (cs & Hs & Hw & Hf). destruct (turns ins w1) as [go w2]. cbn [snd] in Hw.
  exists cs. split_and!; [done| |done]. rewrite <- Hp, <- Hw. destruct go; [done|].
  apply quiet_at. unfold finish, store_cached_state. quiet.
Qed.

(** Whatever the protocol, the clocks and the order of inputs, the device is written
    only for business commands that were handed to the task, at most once each, in
    order and with exactly the points of the command, and only if the guard's policy
    permits the command at the moment of the write. *)
Theorem writes_permitted (ins : list input) (p : P) (policy : Reconnect.ReconnectPolicy)
    (recovery : option Reconnect.AutoRecoveryPolicy) (s : plane) (initial : Z) :
  dispatched ins [] (log (run_unified_channel_task ins (task_start p policy recovery s initial)).2).
Proof. by apply run_dispatched. Qed.


(** ** The published connection state *)

Definition onlines (l : list call) : list bool := omap (fun k => match k with KOnline b => Some b | _ => None end) l.
Definition alternates (l : list bool) : Prop := ∀ i a b, l !! i = Some a → l !! S i = Some b → a ≠ b.

(** What the published state depends on. *)
Definition view (w : task) : list bool * option bool * ReconnectHelper :=
  (onlines (log w), prev_online (loc w), helper (loc w)).
Definition on_view (J : list bool * option bool * ReconnectHelper → Prop) (w : task) : Prop := J (view w).

(** Only changes are published, and the last one is remembered. *)
Definition recorded : list bool * option bool * ReconnectHelper → Prop :=
  fun '(l, p, _) => last l = p ∧ alternates l.
(** The reconnection helper is not inside an attempt. *)
Definition settled : list bool * option bool * ReconnectHelper → Prop :=
  fun '(_, _, h) => Reconnect.state h ≠ Reconnect.Reconnecting.

Definition published (w : task) : Prop :=
  cached_connection_state (shared w) = cached_code (connection_state (protocol w)) ∧
  prev_online (loc w) = Some (is_connected (connection_state (protocol w))).

Lemma onlines_app l l' : onlines (l ++ l') = onlines l ++ onlines l'.
Proof. apply omap_app. Qed.

Lemma alternates_snoc l b : alternates l → last l ≠ Some b → alternates (l ++ [b]).
Proof.
  intros Ha Hl i x y Hx Hy. destruct (decide (S i < length l)%nat) as [Hlt|Hge].
  - rewrite lookup_app_l in Hx, Hy by lia. by eapply Ha.
  - assert (S i = length l) as Hi by (apply lookup_lt_Some in Hy; rewrite length_app in Hy; cbn in Hy; lia).
    rewrite lookup_app_l in Hx by lia. rewrite lookup_app_r, Hi, Nat.sub_diag in Hy by lia. injection Hy as <-.
    rewrite last_lookup, <- Hi in Hl. cbn in Hl. congruence.
Qed.

Lemma view_publish_recorded b : preserves (on_view recorded) (publish_online b).
Proof.
  intros w [Hl Ha]. unfold publish_online, mbind, st_bind. cbn. case_bool_decide as Hb; [done|].
  unfold on_view, view. cbn. rewrite onlines_app. cbn. split; [by rewrite last_snoc|]. apply alternates_snoc; [done|by rewrite Hl].
Qed.
Lemma view_publish_settled b : preserves (on_view settled) (publish_online b).
Proof. intros w Hs. unfold publish_online, mbind, st_bind. cbn. by case_bool_decide. Qed.
Lemma view_ask J {A} (f : nat → A) : preserves (on_view J) (ask f).
Proof. by intros w. Qed.
Lemma view_on_protocol J {A} (m : st P A) : preserves (on_view J) (on_protocol m).
Proof. intros w. unfold on_protocol. by destruct (m (protocol w)). Qed.
Lemma view_modify J f : (∀ w, view (f w) = view w) → preserves (on_view J) (modify f).
Proof. intros Hf w. unfold on_view. cbn. by rewrite Hf. Qed.
Lemma view_emit J k : match k with KOnline _ => False | _ => True end → preserves (on_view J) (emit k).
Proof.
  intros Hk w. unfold on_view, view. cbn. rewrite onlines_app. destruct k; try done; cbn; by rewrite app_nil_r.
Qed.
Lemma view_helper_recorded f : preserves (on_view recorded) (on_helper f).
Proof. by intros w. Qed.
Lemma view_helper_settled f :
  (∀ h, Reconnect.state (f h) ≠ Reconnect.Reconnecting) → preserves (on_view settled) (on_helper f).
Proof. intros Hf w _. apply Hf. Qed.
Lemma view_fresh J batch t : preserves (on_view J) (write_batch_and_mark_fresh batch t).
Proof. intros w. unfold write_batch_and_mark_fresh. by destruct (Acquisition.write_batch _ _ _ _ _ _) as [[] s]. Qed.

Lemma mark_connected_settled now h : Reconnect.state (Reconnect.mark_connected now h) ≠ Reconnect.Reconnecting.
Proof. done. Qed.
Lemma record_failure_settled now h : Reconnect.state (Reconnect.record_failure now h) ≠ Reconnect.Reconnecting.
Proof. unfold Reconnect.record_failure. by destruct (Reconnect.exhausted h). Qed.

Create HintDb view.
#[local] Hint Resolve preserves_ret preserves_gets preserves_bind preserves_try view_publish_recorded view_publish_settled
  view_ask view_on_protocol view_fresh view_helper_recorded view_helper_settled mark_connected_settled
  record_failure_settled : view.
#[local] Hint Extern 1 (preserves (on_view _) (modify _)) => (by apply view_modify) : view.
#[local] Hint Extern 1 (preserves (on_view _) (emit _)) => (by apply view_emit) : view.
Ltac view := repeat first [progress eauto with view | apply preserves_bind; [|intros] | apply preserves_try; [|intros] | case_match].

Section View.
Variable J : list bool * option bool * ReconnectHelper → Prop.
Hypothesis Hpublish : ∀ b, preserves (on_view J) (publish_online b).
Hypothesis Hconnected : ∀ now, preserves (on_view J) (on_helper (Reconnect.mark_connected now)).

Lemma view_state : preserves (on_view J) publish_state.
Proof. unfold publish_state, update_cached_state, check_online_change, store_cached_state. view. Qed.
Lemma view_connect : preserves (on_view J) connect_and_start_events.
Proof. unfold connect_and_start_events, call_connect, call_start, call_disconnect. view. Qed.
Lemma view_stop : preserves (on_view J) stop_events_and_disconnect.
Proof. unfold stop_events_and_disconnect, call_stop, call_disconnect. view. Qed.
Lemma view_log_level level : preserves (on_view J) (apply_log_level level).
Proof. unfold apply_log_level. view. Qed.
#[local] Hint Resolve view_state view_connect view_stop view_log_level : view.

Lemma view_event e : preserves (on_view J) (handle_protocol_event e).
Proof. unfold handle_protocol_event, store_watchdog, store_cached_state. view. Qed.
Lemma view_protocol c : preserves (on_view J) (handle_protocol_command c).
Proof. unfold handle_protocol_command, call_disconnect. view. Qed.
Lemma view_business c : preserves (on_view J) (handle_business_command c).
Proof. unfold handle_business_command, dispatch. view. Qed.
Lemma view_poll b : preserves (on_view J) (poll_connected b).
Proof.
  unfold poll_connected, set_failed_ticks, store_reconnect_failed, set_zero_data, refresh_diagnostics,
    set_error_count, store_diagnostics. view.
Qed.
End View.
#[local] Hint Resolve view_state view_connect view_stop view_log_level view_event view_protocol view_business view_poll : view.

Lemma attempt_recorded : preserves (on_view recorded) attempt_reconnect.
Proof. unfold attempt_reconnect, store_reconnect_failed, set_failed_ticks. view. Qed.
Lemma backoff_recorded c : preserves (on_view recorded) (handle_backoff_command c).
Proof. unfold handle_backoff_command, set_failed_ticks. view. Qed.
#[local] Hint Resolve attempt_recorded backoff_recorded : view.
Lemma disconnected_recorded : preserves (on_view recorded) handle_disconnected.
Proof. unfold handle_disconnected, failed_tick, lost_tick, store_total_attempts, store_reconnect_failed, set_failed_ticks. view. Qed.
#[local] Hint Resolve disconnected_recorded : view.
Lemma turn_recorded i : preserves (on_view recorded) (turn i).
Proof. unfold turn, handle_poll_tick, store_watchdog. view. Qed.

(** Operations after which a property holds. *)
Definition establishes (I : task → Prop) {A} (m : st task A) : Prop := ∀ w, I (m w).2.

Lemma establishes_last I {A B} (m : st task A) (f : A → st task B) : (∀ a, establishes I (f a)) → establishes I (m ≫= f).
Proof. intros Hf w. unfold mbind, st_bind. destruct (m w) as [a w1]. apply Hf. Qed.
Lemma establishes_first I {A B} (m : st task A) (f : A → st task B) :
  establishes I m → (∀ a, preserves I (f a)) → establishes I (m ≫= f).
Proof. intros Hm Hf w. specialize (Hm w). unfold mbind, st_bind. destruct (m w) as [a w1]. by apply Hf. Qed.

Lemma publish_state_published {A} (a : A) : establishes published (_ ← publish_state; mret a).
Proof.
  apply establishes_first; [|by intros ?? ?]. intros w. unfold publish_state, update_cached_state, check_online_change,
    publish_online, mbind, st_bind. cbn. by case_bool_decide.
Qed.

Lemma attempt_published : establishes published attempt_reconnect.
Proof. unfold attempt_reconnect. do 4 (apply establishes_last; intros). apply publish_state_published. Qed.

Lemma attempt_settled : establishes (on_view settled) attempt_reconnect.
Proof.
  unfold attempt_reconnect. apply establishes_last. intros in_time. apply establishes_last. intros r.
  apply establishes_last. intros now. apply establishes_first; [|intros; view].
  assert (∀ f, (∀ h, Reconnect.state (f h) ≠ Reconnect.Reconnecting) → establishes (on_view settled) (on_helper f)) as Hh.
  { intros f Hf w. apply Hf. }
  destruct r; try (apply Hh; apply record_failure_settled).
  apply establishes_first; [apply Hh; apply mark_connected_settled|]. intros _. unfold store_reconnect_failed, set_failed_ticks. view.
Qed.

Lemma helper_settled f :
  (∀ h, Reconnect.state (f h) ≠ Reconnect.Reconnecting) → establishes (on_view settled) (on_helper f).
Proof. intros Hf w. apply Hf. Qed.

Lemma failed_ends h : Reconnect.state h ≠ Reconnect.Reconnecting →
  establishes published (failed_tick h) ∧ establishes (on_view settled) (failed_tick h).
Proof.
  intros Hs. unfold failed_tick. split; (do 2 (apply establishes_last; intros)).
  - case_match. do 2 (apply establishes_last; intros). apply publish_state_published.
  - case_match eqn:Hc. apply establishes_first.
    + apply helper_settled. intros _. unfold Reconnect.check_auto_recovery in Hc. destruct (Reconnect.auto_recovery h) as [x|]; [|by injection Hc as <- <-].
      case_bool_decide; [|by injection Hc as <- <-]. cbn in Hc.
      repeat case_match; injection Hc as <- <-; try done. unfold Reconnect.reset, Reconnect.state. cbn. by case_decide.
    + intros _. unfold store_reconnect_failed, set_failed_ticks. view.
Qed.

Section Backoff.
Hypothesis Hbackoff : ∀ t, during_backoff ctx t = None.

Lemma lost_ends h : establishes published (lost_tick h) ∧ establishes (on_view settled) (lost_tick h).
Proof.
  assert (∀ w, (ask (during_backoff ctx) w).1 = None) as Hb by (intros w; apply Hbackoff).
  unfold lost_tick. set (h0 := if bool_decide _ then _ else h). clearbody h0.
  split; apply establishes_last; intros now; destruct (Reconnect.record_attempt now h0) as [b r] eqn:Hr.
  - apply establishes_last. intros _. case_match; [apply publish_state_published|]. case_match; [|apply attempt_published].
    intros w. unfold mbind, st_bind. specialize (Hb w). destruct (ask (during_backoff ctx) w) as [c w1]. cbn in Hb. subst c.
    apply attempt_published.
  - destruct b; cbn [negb].
    + apply establishes_last. intros _. case_match; [|apply attempt_settled]. intros w. unfold mbind, st_bind. specialize (Hb w).
      destruct (ask (during_backoff ctx) w) as [c w1]. cbn in Hb. subst c. apply attempt_settled.
    + apply establishes_first; [|intros; view]. apply helper_settled. intros _. unfold Reconnect.record_attempt in Hr.
      case_match; [|done]. by injection Hr as <-.
Qed.

(** From a property to another. *)
Definition leads (I : task → Prop) {A} (m : st task A) (K : task → Prop) : Prop := ∀ w, I w → K (m w).2.
Lemma leads_bind I K {A B} (m : st task A) (f : A → st task B) :
  preserves I m → (∀ a, leads I (f a) K) → leads I (m ≫= f) K.
Proof. intros Hm Hf w Hw. specialize (Hm w Hw). unfold mbind, st_bind. destruct (m w) as [a w1]. by apply Hf. Qed.

Lemma disconnected_ends :
  leads (on_view settled) handle_disconnected published ∧ preserves (on_view settled) handle_disconnected.
Proof.
  assert (∀ K, (∀ h, Reconnect.state h ≠ Reconnect.Reconnecting → establishes K (failed_tick h)) →
    (∀ h, establishes K (lost_tick h)) → leads (on_view settled) handle_disconnected K) as Hk.
  { intros K Hf Hl w Hs. unfold handle_disconnected. unfold mbind at 1, st_bind at 1, gets at 1.
    unfold mbind at 1, st_bind at 1. cbn [store_total_attempts modify]. unfold on_view, view, settled in Hs.
    destruct (Reconnect.state (helper (loc w))) eqn:Hst; [apply Hl|apply Hl|done|apply Hf; congruence]. }
  split; apply Hk; intros; by apply failed_ends || apply lost_ends.
Qed.

Lemma poll_published b : establishes published (poll_connected b).
Proof. unfold poll_connected. do 5 (apply establishes_last; intros). apply publish_state_published. Qed.

(** With no command during a backoff, a tick always publishes the state it leaves, and
    leaves the helper outside an attempt. *)
Lemma tick_ends : leads (on_view settled) handle_poll_tick published ∧ preserves (on_view settled) handle_poll_tick.
Proof.
  unfold handle_poll_tick, store_watchdog. split; (do 4 (apply leads_bind; [view|intros]); case_match).
  - apply disconnected_ends.
  - intros w _. apply poll_published.
  - apply disconnected_ends.
  - apply (view_poll settled); auto with view.
Qed.

Lemma turn_settled i : preserves (on_view settled) (turn i).
Proof. unfold turn. pose proof (proj2 tick_ends). view. Qed.

Lemma turns_snoc ins i w :
  turns (ins ++ [i]) w = let '(go, w1) := turns ins w in if go : bool then turn i w1 else (false, w1).
Proof.
  revert w. induction ins as [|j ins IH]; intros w; cbn [turns app].
  - unfold mbind, st_bind. cbn. destruct (turn i w) as [[] w1]; done.
  - unfold mbind, st_bind. destruct (turn j w) as [[] w1]; [apply IH|done].
Qed.

Lemma turns_preserve I ins : (∀ i, preserves I (turn i)) → preserves I (turns ins).
Proof.
  intros Hi. induction ins as [|i ins IH]; cbn [turns]; [apply preserves_ret|].
  apply preserves_bind; [apply Hi|]. intros []; [done|apply preserves_ret].
Qed.

(** While nobody sends commands during a backoff, what a channel publishes is what its
    protocol says: after any inputs that end in a poll tick, the last health value
    written is whether the protocol is connected now, the cached state is the
    protocol's, and of the values written no two in a row are equal. *)
Theorem health_follows (ins : list input) (p : P) (policy : Reconnect.ReconnectPolicy)
    (recovery : option Reconnect.AutoRecoveryPolicy) (s : plane) (initial : Z) :
  let start := (publish_state (task_start p policy recovery s initial)).2 in
  let '(go, w) := turns (ins ++ [Tick]) start in
  go = true →
  last (onlines (log w)) = Some (is_connected (connection_state (protocol w))) ∧
  cached_connection_state (shared w) = cached_code (connection_state (protocol w)) ∧
  alternates (onlines (log w)).
Proof.
  intros start. assert (on_view recorded start ∧ on_view settled start) as [Hr Hs].
  { split; apply view_state; auto with view; [by split|]. unfold on_view, view, settled. cbn. by destruct recovery as [a|];
      [unfold Reconnect.with_auto_recovery; case_match|]. }
  rewrite turns_snoc. pose proof (turns_preserve _ ins turn_recorded start Hr) as Hr1.
  pose proof (turns_preserve _ ins turn_settled start Hs) as Hs1. destruct (turns ins start) as [[] w1]; [|done].
  cbn [snd] in *. unfold turn, mbind, st_bind. pose proof (proj1 tick_ends w1 Hs1) as [Hc Ho].
  assert (on_view recorded (handle_poll_tick w1).2) as [Hl Ha].
  { pose proof (turn_recorded Tick w1 Hr1) as H'. unfold turn, mbind, st_bind in H'. by destruct (handle_poll_tick w1). }
  destruct (handle_poll_tick w1) as [a w2]. intros _. cbn [snd mret st_ret] in *. split_and!; [by rewrite Hl, Ho|done|done].
Qed.
End Backoff.

(** ** A command during the backoff *)

Definition connects (l : list call) : nat := length (omap (fun k => match k with KConnect => Some tt | _ => None end) l).

#[local] Arguments connects : simpl never.

Lemma connects_app l l' : connects (l ++ l') = (connects l + connects l')%nat.
Proof. unfold connects. by rewrite omap_app, length_app. Qed.

(** The helper is inside an attempt and the protocol is not connected. *)
Definition stalled (w : task) : Prop :=
  Reconnect.state (helper (loc w)) = Reconnect.Reconnecting ∧ is_connected (connection_state (protocol w)) = false.

Lemma tick_stalled w :
  stalled w → let '(a, w') := handle_poll_tick w in
  a = Continue ∧ protocol w' = protocol w ∧ loc w' = loc w ∧ log w' = log w.
Proof.
  intros [Hs Hc]. unfold handle_poll_tick, mbind, st_bind. cbn. rewrite Hc. cbn. unfold handle_disconnected, mbind, st_bind. cbn.
  by rewrite Hs.
Qed.

Lemma ticks_stalled n w :
  stalled w → let '(go, w') := turns (replicate n Tick) w in go = true ∧ stalled w' ∧ log w' = log w.
Proof.
  revert w. induction n as [|n IH]; intros w Hw; cbn [replicate turns]; [done|].
  unfold mbind, st_bind. cbn [turn]. unfold mbind, st_bind. pose proof (tick_stalled w Hw) as Ht.
  destruct (handle_poll_tick w) as [a w1]. destruct Ht as (-> & Hp & Hl & Hlog). cbn.
  assert (stalled w1) as Hw1 by (unfold stalled; by rewrite Hp, Hl). specialize (IH w1 Hw1).
  destruct (turns (replicate n Tick) w1) as [go w2]. destruct IH as (-> & H1 & H2). by rewrite H2.
Qed.

Definition waiting (n : nat) (w : task) : Prop := stalled w ∧ connects (log w) = n.

Lemma publish_waiting n : preserves (waiting n) publish_state.
Proof.
  intros w [[Hs Hc] Hn]. unfold publish_state, update_cached_state, check_online_change, publish_online, mbind, st_bind. cbn.
  case_bool_decide; repeat split; try done. cbn. rewrite connects_app, <- Hn. unfold connects at 2. cbn. lia.
Qed.

Lemma backoff_waiting level n :
  (∀ c p, connection_state (set_log_config c p) = connection_state p) →
  ∀ w, waiting n w → let '(a, w') := handle_backoff_command (SetLogLevel level) w in a = None ∧ waiting n w'.
Proof.
  intros Hcfg w [[Hs Hc] Hn]. unfold handle_backoff_command, apply_log_level, mbind, st_bind.
  destruct (log_config level) as [c|]; cbn; repeat split; try done; cbn; rewrite ?Hcfg; try done;
    rewrite connects_app, <- Hn; unfold connects at 2; cbn; lia.
Qed.

(** Changing the log level of a channel that is waiting to reconnect ends its
    reconnection: the attempt counts as running for ever, and no number of further
    ticks connects again, although attempts were left. *)
Theorem log_level_stalls (w : task) (level : string) (n : nat) :
  Reconnect.state (helper (loc w)) = Reconnect.Disconnected → Reconnect.exhausted (helper (loc w)) = false →
  0 < Reconnect.total_attempts (Reconnect.stats (helper (loc w))) < 2 ^ 64 - 1 →
  is_connected (connection_state (protocol w)) = false →
  (∀ c p, connection_state (set_log_config c p) = connection_state p) →
  during_backoff ctx (S (S (clock w))) = Some (SetLogLevel level) →
  let '(go, w') := turns (replicate (S n) Tick) w in
  go = true ∧ connects (log w') = connects (log w) ∧ stalled w'.
Proof.
  intros Hs He Ht Hc Hcfg Hb.
  assert (∃ w1, handle_poll_tick w = (Continue, w1) ∧ connects (log w1) = connects (log w) ∧ stalled w1) as (w1 & Hw1 & Hn & Hst).
  { unfold handle_poll_tick, mbind, st_bind. cbn. rewrite Hc. cbn. unfold handle_disconnected, mbind, st_bind. cbn. rewrite Hs.
    unfold lost_tick, mbind, st_bind. cbn. rewrite bool_decide_false by (by rewrite Hs). unfold Reconnect.record_attempt. rewrite He. cbn.
    unfold wrapping_add, wrap. rewrite Z.mod_small by lia. destruct (Z.ltb_spec 1 (Reconnect.total_attempts (Reconnect.stats (helper (loc w))) + 1)); [|lia].
    match goal with |- context [during_backoff ctx (clock ?x)] => set (w2 := x) end.
    assert (clock w2 = S (S (clock w))) as Hclk by done.
    assert (waiting (connects (log w)) w2) as Hw2 by by repeat split.
    clearbody w2. rewrite Hclk, Hb. match goal with |- context [handle_backoff_command _ ?x] =>
      pose proof (backoff_waiting level (connects (log w)) Hcfg x Hw2) as Hend; destruct (handle_backoff_command _ x) as [a w3] end.
    destruct Hend as [-> Hw3]. pose proof (publish_waiting (connects (log w)) w3 Hw3) as Hw4. destruct (publish_state w3) as [u w4].
    exists w4. split; [done|]. by destruct Hw4. }
  cbn [replicate turns turn]. unfold mbind, st_bind. rewrite Hw1. cbn. pose proof (ticks_stalled n w1 Hst) as Hs1.
  destruct (turns (replicate n Tick) w1) as [go w']. destruct Hs1 as (-> & H1 & H2). by rewrite H2.
Qed.
End Task.

(** ** Runs with a device that refuses its first connections *)

Module Sample.
Record device := Device { refusals : nat; up : bool; values : list (Z * f64) }.

#[local] Instance device_runtime : ChannelRuntime device := {|
  is_event_driven _ := false;
  connect := fun d => match refusals d with
                      | O => (Ok tt, Device 0 true (values d))
                      | S n => (Err tt, Device n false (values d))
                      end;
  disconnect := fun d => (Ok tt, Device (refusals d) false (values d));
  start_events := fun d => (Ok tt, d);
  stop_events := fun d => (Ok tt, d);
  poll_once := fun d => ([Acquisition.Data 4 Points.Telemetry (Acquisition.VFloat one) Good 1000 None], d);
  write_control points := fun d => (Ok (length points), Device (refusals d) (up d) (values d ++ points));
  write_adjustment points := fun d => (Ok (length points), Device (refusals d) (up d) (values d ++ points));
  diagnostics _ := Ok 0;
  connection_state d := if up d then PConnected else PDisconnected;
  set_log_config _ d := d;
  abandon d := Device (refusals d) false (values d) |}.

Definition guard : CommandGuard :=
  Guard 7 ∅ {[ 1 := Constraints (Some zero) (Some (of_Z 50)) (Some one) ]}.
Example guard_built : from_runtime 7 [] [APoint 1 (Some zero) (Some (of_Z 50)) one] = Ok guard.
Proof. by vm_compute. Qed.

Definition context (backoff : nat → option ProtocolCommand) : ChannelPollContext :=
  Ctx 7 0 guard (fun _ => 2000) (fun t => Z.of_nat t) backoff (fun _ => true) Acquisition.Sample.calm Routing.cache_new
    (Some Acquisition.Sample.layout).
Definition calm := context (fun _ => None).
Definition start (n : nat) : @task device :=
  task_start (Device n false []) (Reconnect.Policy 5) None (Acquisition.Plane (replicate 256 0) None 0 0) 0.

(** Two refusals, then data; the channel is published offline and online once. *)
Example reconnects :
  let '(go, w) := turns calm [Tick; Tick; Tick; Tick] (publish_state (start 2)).2 in
  go = true ∧ onlines (log w) = [false; true] ∧ connects (log w) = 3%nat ∧ last_successful_read_ms (shared w) = 2000.
Proof. by vm_compute. Qed.

(** The same device when the log level is changed during the first backoff. *)
Definition disturbed := context (fun t => if (t =? 6)%nat then Some (SetLogLevel "debug") else None).
Example never_reconnects :
  let '(go, w) := turns disturbed (replicate 50 Tick) (publish_state (start 2)).2 in
  go = true ∧ connects (log w) = 1%nat ∧ Reconnect.state (helper (loc w)) = Reconnect.Reconnecting.
Proof. by vm_compute. Qed.

Definition after_one : @task device := (turns disturbed [Tick] (publish_state (start 2)).2).2.
Lemma log_level_stalls_witness :
  connects (log (turns disturbed (replicate 51 Tick) after_one).2) = connects (log after_one).
Proof.
  pose proof (log_level_stalls disturbed after_one "debug" 50) as H.
  assert (connects (log (turns disturbed (replicate 51 Tick) after_one).2) = connects (log after_one) ∧ True) as [E _]; [|exact E].
  split; [|done]. destruct (turns disturbed (replicate 51 Tick) after_one) as [go w]. cbn [snd].
  apply H; vm_compute; try reflexivity; try (split; reflexivity).
Defined.

Lemma health_follows_witness :
  let r := turns calm ([Tick; Tick; Tick] ++ [Tick]) (publish_state (start 2)).2 in
  r.1 = true ∧ last (onlines (log r.2)) = Some true.
Proof.
  cbv zeta. pose proof (health_follows calm (fun _ => eq_refl) [Tick; Tick; Tick] (Device 2 false []) (Reconnect.Policy 5) None
    (Acquisition.Plane (replicate 256 0) None 0 0) 0) as H. cbv zeta in H. fold (start 2) in H.
  assert ((turns calm ([Tick; Tick; Tick] ++ [Tick]) (publish_state (start 2)).2).1 = true) as E1 by (vm_compute; reflexivity).
  assert (is_connected (connection_state (protocol
    (turns calm ([Tick; Tick; Tick] ++ [Tick]) (publish_state (start 2)).2).2)) = true) as E2 by (vm_compute; reflexivity).
  destruct (turns calm ([Tick; Tick; Tick] ++ [Tick]) (publish_state (start 2)).2) as [go w].
  split; [exact E1|]. destruct (H E1) as [H1 _]. cbn [snd] in E2. rewrite E2 in H1. exact H1.
Defined.

(** The commands of the listener's run, dispatched by the task. *)
Definition commands : list (@input device) :=
  [Business CommandListener.Sample.command_2; Business CommandListener.Sample.command_1].

Example dispatched_run :
  writes (log (run_unified_channel_task calm commands (start 0)).2) =
    [(Points.Adjustment, [(1, zero)], 2000); (Points.Adjustment, [(1, one)], 2000)].
Proof. by vm_compute. Qed.

End Sample.
End ChannelTask.
