(* ===== verification/ChallengeLedger.v ===== *)
(** * The CloudLink challenge ledger (libs/aether-store-local/src/cloudlink_challenge_ledger.rs)

    A bounded, owner-only file that remembers which session challenges were answered
    and with which hello, so that a reconnect or a restart never answers one
    challenge twice with different bytes.  Every mutation rewrites the whole file
    through a temporary file and a rename, under an arbitrary schedule of failing
    calls and process deaths.  Texts are UTF-8 byte lists.  SHA-256 and the JSON
    codec are outside code: parameters, the codec with its round-trip law.  File
    permissions, links and the advisory lock are calls that may fail. *)

From stdpp Require Import base tactics numbers list gmap strings sorting.
From S2P Require Import Prelude Fs Replace Outbox.
#[local] Open Scope Z_scope.

Module ChallengeLedger.
Import Fs Replace.

Definition LEDGER_SCHEMA : string := "aether.edge.cloudlink-challenge-ledger.v1".
Definition MAX_CAPACITY : nat := 256.
Definition MAX_TRANSCRIPT_BYTES : Z := 64 * 1024.
Definition MAX_LEDGER_BYTES : Z := 32 * 1024 * 1024.

Inductive LedgerError :=
| InvalidInput | CapacityExceeded | ConflictingReplay | CompletedReplay | MessageExpired
| MissingChallenge | InvalidTransition | InsecurePermissions | Corrupt | Storage.

Abbreviation text := (list Z).

Inductive Reservation := Prepare (challenge request : text) | RetryHello (hello : text).
Record PendingChallengeRequest := PendingChallenge { payload : text; pc_expires_at_ms : Z }.

Inductive ChallengeStatus := Pending | Completed.
Record ChallengeRecord := Challenge {
  challenge_id : text; cr_expires_at_ms : Z; challenge_digest : text;
  challenge : option text; request : option text; hello : option text;
  status : ChallengeStatus; completion_order : option Z }.
Record PendingRequest := PRequest { pr_expires_at_ms : Z; pr_request : text }.
Record LedgerState := Ledger {
  schema : string; capacity : nat; pending_request : option PendingRequest;
  next_completion_order : Z; records : list ChallengeRecord }.

#[global] Instance ChallengeStatus_eq_dec : EqDecision ChallengeStatus.
Proof. solve_decision. Defined.
#[global] Instance ChallengeRecord_eq_dec : EqDecision ChallengeRecord.
Proof. solve_decision. Defined.
#[global] Instance PendingRequest_eq_dec : EqDecision PendingRequest.
Proof. solve_decision. Defined.
#[global] Instance LedgerState_eq_dec : EqDecision LedgerState.
Proof. solve_decision. Defined.

Definition ledger_empty (capacity : nat) : LedgerState := Ledger LEDGER_SCHEMA capacity None 1 [].

(** ** Inputs *)

Definition is_hex (b : Z) : bool := ((48 <=? b) && (b <=? 57)) || ((97 <=? b) && (b <=? 102)).
Definition valid_identity (v : text) : bool :=
  let at_ i := nth i v 0 in
  (length v =? 36)%nat && (at_ 8%nat =? 45) && (at_ 13%nat =? 45) && (at_ 18%nat =? 45) && (at_ 23%nat =? 45)
  && (49 <=? at_ 14%nat) && (at_ 14%nat <=? 56)
  && ((at_ 19%nat =? 56) || (at_ 19%nat =? 57) || (at_ 19%nat =? 97) || (at_ 19%nat =? 98))
  && forallb (fun i => bool_decide (i ∈ [8; 13; 18; 23]%nat) || is_hex (at_ i)) (seq 0 (length v)).
Definition valid_transcript (v : text) : bool :=
  negb (length v =? 0)%nat && (Z.of_nat (length v) <=? MAX_TRANSCRIPT_BYTES) && Outbox.utf8_valid v.
Definition valid_digest (v : text) : bool := (length v =? 64)%nat && forallb is_hex v.

Definition is_completed (r : ChallengeRecord) : bool :=
  match status r with Completed => true | Pending => false end.
Definition invalid_text (o : option text) : bool := match o with Some v => negb (valid_transcript v) | None => true end.

(** One record, against the identities and completion orders before it. *)
Definition record_valid (next : Z) (ids : list text) (orders : list Z) (r : ChallengeRecord) : bool :=
  valid_identity (challenge_id r) && negb (bool_decide (challenge_id r ∈ ids))
  && negb (cr_expires_at_ms r =? 0) && valid_digest (challenge_digest r)
  && match status r with
     | Pending =>
         negb (invalid_text (challenge r)) && negb (invalid_text (request r))
         && match hello r with Some h => valid_transcript h | None => true end
         && match completion_order r with Some _ => false | None => true end
     | Completed =>
         match challenge r, request r, hello r, completion_order r with
         | None, None, None, Some order => (order <? next) && negb (bool_decide (order ∈ orders))
         | _, _, _, _ => false
         end
     end.

Fixpoint records_valid (next : Z) (ids : list text) (orders : list Z) (l : list ChallengeRecord) : bool :=
  match l with
  | [] => true
  | r :: l =>
      record_valid next ids orders r &&
      records_valid next (challenge_id r :: ids) (option_list (completion_order r) ++ orders) l
  end.

Definition validate (configured_capacity : nat) (s : LedgerState) : res LedgerError unit :=
  if negb (bool_decide (schema s = LEDGER_SCHEMA)) || negb (capacity s =? configured_capacity)%nat
     || (capacity s <? length (records s))%nat || (next_completion_order s =? 0)
  then Err Corrupt
  else if match pending_request s with
          | Some p => (pr_expires_at_ms p =? 0) || negb (valid_transcript (pr_request p))
          | None => false
          end
  then Err Corrupt
  else if records_valid (next_completion_order s) [] [] (records s) then Ok tt else Err Corrupt.

(** ** Transitions

    The closures that [mutate] runs on a copy of the state. *)

Definition set_pending (p : option PendingRequest) (s : LedgerState) : LedgerState :=
  Ledger (schema s) (capacity s) p (next_completion_order s) (records s).
Definition set_records (l : list ChallengeRecord) (s : LedgerState) : LedgerState :=
  Ledger (schema s) (capacity s) (pending_request s) (next_completion_order s) l.

Definition prepare_request_tx (req : text) (expires_at_ms now : Z) (s : LedgerState)
    : res LedgerError (PendingChallengeRequest * LedgerState) :=
  let s := match pending_request s with
           | Some p => if pr_expires_at_ms p <=? now then set_pending None s else s
           | None => s
           end in
  match pending_request s with
  | Some p => Ok (PendingChallenge (pr_request p) (pr_expires_at_ms p), s)
  | None => Ok (PendingChallenge req expires_at_ms, set_pending (Some (PRequest expires_at_ms req)) s)
  end.

Definition find_record (id : text) (l : list ChallengeRecord) : option ChallengeRecord :=
  snd <$> list_find (fun r => challenge_id r = id) l.
(** The record that [find] returned, replaced. *)
Fixpoint update_record (id : text) (f : ChallengeRecord → ChallengeRecord) (l : list ChallengeRecord) : list ChallengeRecord :=
  match l with
  | [] => []
  | r :: l => if decide (challenge_id r = id) then f r :: l else r :: update_record id f l
  end.

(** The live pending request of a reservation takes the challenge's deadline. *)
Definition bind_request (req : text) (expires_at_ms now : Z) (s : LedgerState) : res LedgerError LedgerState :=
  match pending_request s with
  | Some p =>
      if pr_expires_at_ms p <=? now then Err MissingChallenge
      else if negb (bool_decide (pr_request p = req)) then Err ConflictingReplay
      else Ok (set_pending (Some (PRequest expires_at_ms (pr_request p))) s)
  | None => Err MissingChallenge
  end.

Definition order_ltb (a b : option Z) : bool :=
  match a, b with
  | None, Some _ => true
  | Some x, Some y => x <? y
  | _, None => false
  end.

(** The index of the completed record with the least order, the first of several. *)
Fixpoint oldest (i : nat) (best : option (nat * option Z)) (l : list ChallengeRecord) : option nat :=
  match l with
  | [] => fst <$> best
  | r :: l =>
      let best :=
        if is_completed r then
          match best with
          | Some (_, order) => if order_ltb (completion_order r) order then Some (i, completion_order r) else best
          | None => Some (i, completion_order r)
          end
        else best in
      oldest (S i) best l
  end.
Definition evict (s : LedgerState) : LedgerState :=
  if (length (records s) =? capacity s)%nat then
    match oldest 0 None (records s) with
    | Some i => set_records (take i (records s) ++ drop (S i) (records s)) s
    | None => s
    end
  else s.

(** Byte-wise order of the identities. *)
Fixpoint bytes_leb (a b : text) : bool :=
  match a, b with
  | [], _ => true
  | _, [] => false
  | x :: a, y :: b => (x <? y) || ((x =? y) && bytes_leb a b)
  end.
Definition by_id (a b : ChallengeRecord) : Prop := bytes_leb (challenge_id a) (challenge_id b) = true.
#[global] Instance by_id_dec a b : Decision (by_id a b).
Proof. unfold by_id. apply _. Defined.

Definition live (now : Z) (r : ChallengeRecord) : Prop := is_completed r = true ∨ now < cr_expires_at_ms r.
#[global] Instance live_dec now r : Decision (live now r).
Proof. unfold live. apply _. Defined.

Section Ledger.
Context (transcript_digest : text → text).

Definition reserve_tx (id : text) (expires_at_ms : Z) (ch req : text) (now : Z) (s : LedgerState)
    : res LedgerError (Reservation * LedgerState) :=
  let digest := transcript_digest ch in
  let s := set_records (filter (live now) (records s)) s in
  match find_record id (records s) with
  | Some r =>
      if negb (cr_expires_at_ms r =? expires_at_ms) || negb (bool_decide (challenge_digest r = digest))
      then Err ConflictingReplay
      else if is_completed r then Err CompletedReplay
      else
        s ← bind_request req expires_at_ms now s;
        c ← ok_or (challenge r) Corrupt;
        q ← ok_or (request r) Corrupt;
        Ok (match hello r with Some h => RetryHello h | None => Prepare c q end, s)
  | None =>
      s ← bind_request req expires_at_ms now s;
      let s := evict s in
      if (length (records s) =? capacity s)%nat then Err CapacityExceeded
      else
        let r := Challenge id expires_at_ms digest (Some ch) (Some req) None Pending None in
        Ok (Prepare ch req, set_records (merge_sort by_id (records s ++ [r])) s)
  end.

Definition store_hello_tx (id h : text) (s : LedgerState) : res LedgerError (text * LedgerState) :=
  match find_record id (records s) with
  | None => Err MissingChallenge
  | Some r =>
      if is_completed r then Err CompletedReplay
      else
        match hello r with
        | Some existing => if bool_decide (existing = h) then Ok (existing, s) else Err ConflictingReplay
        | None =>
            Ok (h, set_records (update_record id (fun r => Challenge (challenge_id r) (cr_expires_at_ms r)
                     (challenge_digest r) (challenge r) (request r) (Some h) (status r) (completion_order r)) (records s)) s)
        end
  end.

Definition complete_tx (id : text) (s : LedgerState) : res LedgerError (unit * LedgerState) :=
  match find_record id (records s) with
  | None => Err MissingChallenge
  | Some r =>
      if is_completed r then Err CompletedReplay
      else
        match hello r with
        | None => Err InvalidTransition
        | Some _ =>
            req ← ok_or (request r) Corrupt;
            match pending_request s with
            | Some p =>
                if negb (bool_decide (pr_request p = req)) then Err InvalidTransition
                else
                  let order := next_completion_order s in
                  next ← ok_or (checked_add 64 order 1) Storage;
                  Ok (tt, Ledger (schema s) (capacity s) None next
                            (update_record id (fun r => Challenge (challenge_id r) (cr_expires_at_ms r)
                               (challenge_digest r) None None None Completed (Some order)) (records s)))
            | None => Err InvalidTransition
            end
        end
  end.

(** ** Persistence *)

(** The derived JSON codec and its law. *)
Context (to_vec : LedgerState → list Z) (from_slice : list Z → option LedgerState).

Definition storage (_ : io_kind) : LedgerError := Storage.
(** Marks a missing file, for the two calls that tell it from other failures. *)
Definition or_missing (k : io_kind) : LedgerError := match k with NotFound => MissingChallenge | _ => Storage end.

Context (path temporary : string).

(** The last call opens and syncs the directory. *)
Definition replace_file (bytes : list Z) : io LedgerError unit :=
  ino ← sys_create_new storage temporary;
  _ ← sys_write storage ino 0 bytes;
  _ ← sys_nop storage;
  _ ← sys_rename storage temporary path;
  _ ← sys_nop storage;
  sys_nop storage.

Definition write_state (s : LedgerState) : io LedgerError unit :=
  let bytes := to_vec s in
  if (length bytes =? 0)%nat || (MAX_LEDGER_BYTES <? Z.of_nat (length bytes)) then fail Corrupt
  else
    removed ← attempt (sys_remove or_missing temporary);
    match removed with
    | Ok _ | Err MissingChallenge =>
        result ← attempt (replace_file bytes);
        match result with
        | Ok _ => mret tt
        | Err e => _ ← attempt (sys_remove storage temporary); fail e
        | Panic => lift Panic
        end
    | _ => fail Storage
    end.

(** [mutate]: the result, and what the mutex holds afterwards. *)
Definition mutate {A} (tx : LedgerState → res LedgerError (A * LedgerState)) (current : LedgerState)
    : io LedgerError (res LedgerError A * LedgerState) :=
  match tx current with
  | Err e => mret (Err e, current)
  | Panic => lift Panic
  | Ok (a, next) =>
      match validate (capacity current) next with
      | Ok _ =>
          if bool_decide (next = current) then mret (Ok a, current)
          else
            written ← attempt (write_state next);
            match written with
            | Ok _ => mret (Ok a, next)
            | Err e => mret (Err e, current)
            | Panic => lift Panic
            end
      | Err e => mret (Err e, current)
      | Panic => lift Panic
      end
  end.

Definition prepare_request (req : text) (expires_at_ms now : Z) (s : LedgerState)
    : io LedgerError (res LedgerError PendingChallengeRequest * LedgerState) :=
  if negb (valid_transcript req) || (expires_at_ms =? 0) then mret (Err InvalidInput, s)
  else if expires_at_ms <=? now then mret (Err MessageExpired, s)
  else mutate (prepare_request_tx req expires_at_ms now) s.

Definition reserve (id : text) (expires_at_ms : Z) (ch req : text) (now : Z) (s : LedgerState)
    : io LedgerError (res LedgerError Reservation * LedgerState) :=
  if negb (valid_identity id) || (expires_at_ms =? 0) || negb (valid_transcript ch) || negb (valid_transcript req)
  then mret (Err InvalidInput, s)
  else if expires_at_ms <=? now then mret (Err MessageExpired, s)
  else mutate (reserve_tx id expires_at_ms ch req now) s.

Definition store_hello (id h : text) (s : LedgerState) : io LedgerError (res LedgerError text * LedgerState) :=
  if negb (valid_identity id) || negb (valid_transcript h) then mret (Err InvalidInput, s)
  else mutate (store_hello_tx id h) s.

Definition complete (id : text) (s : LedgerState) : io LedgerError (res LedgerError unit * LedgerState) :=
  if negb (valid_identity id) then mret (Err InvalidInput, s) else mutate (complete_tx id) s.

(** Checks of the parent directory, of the lock file and of the permissions are calls
    that may fail. *)
Definition ledger_open (cap : nat) : io LedgerError LedgerState :=
  if negb ((1 <=? cap)%nat && (cap <=? MAX_CAPACITY)%nat) then fail InvalidInput
  else
    _ ← sys_nop storage;
    _ ← sys_nop storage;
    opened ← attempt (sys_open or_missing path);
    match opened with
    | Ok ino =>
        _ ← sys_nop storage;
        bytes ← sys_read storage ino;
        if (length bytes =? 0)%nat || (MAX_LEDGER_BYTES <? Z.of_nat (length bytes)) then fail Corrupt
        else
          s ← lift (ok_or (from_slice bytes) Corrupt);
          _ ← lift (validate cap s);
          mret s
    | Err MissingChallenge =>
        let s := ledger_empty cap in
        _ ← write_state s;
        mret s
    | _ => fail Storage
    end.

(** ** Histories *)

Inductive op :=
| DPrepare (req : text) (expires now : Z)
| DReserve (id : text) (expires : Z) (ch req : text) (now : Z)
| DHello (id h : text)
| DComplete (id : text)
| DOpen (cap : nat)
| DKill.

(** The process, if it runs, with its state; the disk; the latest evaluation time; and
    the hellos returned to the caller, with identity, deadline and digest of their
    challenge. *)
Record system := Sys {
  mem : option LedgerState; disk : world; clock : Z; returned : list (text * Z * text * text) }.

Definition finish {A} (m : io LedgerError (res LedgerError A * LedgerState))
    (note : A → LedgerState → list (text * Z * text * text)) (fs : list fault) (now : Z) (y : system) : system :=
  match m (with_faults fs (disk y)) with
  | (Some (Ok (r, s)), w) =>
      Sys (Some s) w now (match r with Ok a => note a s | _ => [] end ++ returned y)
  | (_, w) => Sys None w now (returned y)
  end.

Definition note_hello (id : text) (h : text) (s : LedgerState) : list (text * Z * text * text) :=
  match find_record id (records s) with
  | Some r => [(id, cr_expires_at_ms r, challenge_digest r, h)]
  | None => []
  end.
Definition note_reservation (id : text) (expires : Z) (ch : text) (r : Reservation) : list (text * Z * text * text) :=
  match r with RetryHello h => [(id, expires, transcript_digest ch, h)] | Prepare _ _ => [] end.

(** One event, with the faults its calls meet; evaluation times do not go back. *)
Definition step (y : system) (e : op * list fault) : system :=
  let '(o, fs) := e in
  match o, mem y with
  | DPrepare req expires now, Some s =>
      if now <? clock y then y else finish (prepare_request req expires now s) (fun _ _ => []) fs now y
  | DReserve id expires ch req now, Some s =>
      if now <? clock y then y
      else finish (reserve id expires ch req now s) (fun r _ => note_reservation id expires ch r) fs now y
  | DHello id h, Some s => finish (store_hello id h s) (note_hello id) fs (clock y) y
  | DComplete id, Some s => finish (complete id s) (fun _ _ => []) fs (clock y) y
  | DOpen cap, None =>
      match ledger_open cap (with_faults fs (disk y)) with
      | (Some (Ok s), w) => Sys (Some s) w (clock y) (returned y)
      | (_, w) => Sys None w (clock y) (returned y)
      end
  | DKill, _ => Sys None (disk y) (clock y) (returned y)
  | _, _ => y
  end.

(** From a disk without a ledger. *)
Definition run (w : world) (es : list (op * list fault)) : system := fold_left step es (Sys None w 0 []).

(** ** Writing *)

Section Persistence.
Hypothesis Hnames : path ≠ temporary.

Definition size_ok (s : LedgerState) : Prop :=
  (length (to_vec s) =? 0)%nat || (MAX_LEDGER_BYTES <? Z.of_nat (length (to_vec s))) = false.

(** The file is as it was; it holds the new state; one or the other. *)
Definition old (w w' : world) : Prop := fs_ok w' ∧ path_bytes w' path = path_bytes w path.
Definition new (s : LedgerState) (w' : world) : Prop := fs_ok w' ∧ path_bytes w' path = Some (to_vec s) ∧ size_ok s.
Definition old_or_new (s : LedgerState) (w w' : world) : Prop := old w w' ∨ new s w'.

#[local] Abbreviation scratch := [temporary].

Lemma others_old w w' : others scratch w w' → old w w'.
Proof. intros [Hw Hp]. split; [done|]. apply Hp. by intros ->%list_elem_of_singleton. Qed.

Lemma installed_new s w w' : installed scratch path (to_vec s) w w' → size_ok s → new s w'.
Proof. by intros (Hw & Hp & _). Qed.

Definition written (s : LedgerState) (w : world) {A} (r : res LedgerError A) (w' : world) : Prop :=
  match r with Ok _ => new s w' | Err _ => old_or_new s w w' | Panic => False end.

Lemma wp_cleanup s e w w2 :
  size_ok s → others scratch w w2 ∨ installed scratch path (to_vec s) w w2 →
  wp (_ ← attempt (sys_remove storage temporary); @fail LedgerError unit e) (written s w) (old_or_new s w) w2.
Proof.
  intros Hs H2. assert (old_or_new s w w2) as Hend by (destruct H2; [left; by apply others_old|right; by eapply installed_new]).
  apply wp_bind, wp_attempt. apply wp_sys_remove; [intros fs _|intros fs _|intros fs]; [|by apply wp_fail|done].
  destruct (w_names w2 !! temporary) eqn:Ht; apply wp_fail; [|done].
  destruct H2 as [H2|H2]; [left; apply others_old|right; eapply installed_new; [|done]].
  - apply (others_removed _ _ _ (with_faults fs w2)); [by left|done].
  - apply (installed_removed _ _ _ _ _ (with_faults fs w2)); [by left|done|done].
Qed.

Lemma wp_replaced s w w1 :
  others scratch w w1 → size_ok s →
  wp (result ← attempt (replace_file (to_vec s));
      match result with
      | Ok _ => mret tt
      | Err e => _ ← attempt (sys_remove storage temporary); fail e
      | Panic => lift Panic
      end) (written s w) (old_or_new s w) w1.
Proof.
  intros Ho Hsize. apply wp_bind, wp_attempt. unfold replace_file. pose proof (fun e w2 => wp_cleanup s e w w2 Hsize) as Hclean.
  assert (∀ w', others scratch w w' → old_or_new s w w') as Hold by (intros w' H'; left; by apply others_old).
  assert (temporary ∈ scratch) as Ht by by left.
  apply wp_bind, wp_sys_create_new; [intros fs _|intros fs _|intros fs]; [|by apply Hclean; left|by apply Hold].
  destruct (w_names w1 !! temporary); [by apply Hclean; left|].
  pose proof (owns_created temporary (with_faults fs w1) (proj1 Ho)) as Hb1.
  pose proof (others_created _ temporary w (with_faults fs w1) Ht Ho) as Hs1. change (w_next (with_faults fs w1)) with (w_next w1) in Hb1.
  set (w2 := fresh_file _ _) in *. clearbody w2.
  assert (∀ bs fs', others scratch w (put_bytes (w_next w1) 0 bs (with_faults fs' w2))) as Hput
    by (intros bs fs'; by apply (others_put _ temporary _ [] _ _ _ (with_faults fs' w2))).
  apply wp_bind, wp_sys_write; [intros fs1 _|intros k fs1 _|intros k fs1]; [|by apply Hclean; left|by apply Hold].
  specialize (Hput (to_vec s) fs1). pose proof (owns_put _ _ _ 0 (to_vec s) (with_faults fs1 w2) Hb1) as Hb2.
  cbn [write_bytes take app] in Hb2. rewrite drop_nil, app_nil_r in Hb2. set (w3 := put_bytes _ _ _ _) in *. clearbody w3.
  apply wp_bind, wp_sys_nop; [intros fs2 _|intros fs2 _|intros fs2]; [|by apply Hclean; left|by apply Hold].
  apply wp_bind, wp_sys_rename; [intros fs3 _|intros fs3 _|intros fs3]; [|by apply Hclean; left|by apply Hold].
  cbn [w_names with_faults]. rewrite (proj1 Hb2).
  assert (∀ fs4, installed scratch path (to_vec s) w (with_names (<[path := w_next w1]> (delete temporary (w_names w3))) (with_faults fs4 w3))) as Hnew
    by (intros fs4; by apply (installed_renamed _ _ _ _ _ _ (with_faults fs4 w3))).
  assert (∀ fs4, old_or_new s w (with_names (<[path := w_next w1]> (delete temporary (w_names w3))) (with_faults fs4 w3))) as Hend
    by (intros fs4; right; eapply installed_new; [apply Hnew|done]).
  apply wp_bind, wp_sys_nop; [intros fs4 _|intros fs4 _|intros fs4]; [|apply Hclean; right; apply Hnew|apply Hend].
  apply wp_sys_nop; [intros fs5 _|intros fs5 _|intros fs5]; [|apply Hclean; right; apply Hnew|apply Hend].
  apply wp_ret. eapply installed_new; [apply Hnew|done].
Qed.

(** At every point the file holds the old bytes or the whole new state; success means
    the new state. *)
Lemma wp_write_state s w : fs_ok w → wp (write_state s) (written s w) (old_or_new s w) w.
Proof.
  intros Hw. unfold write_state. destruct (_ || _) eqn:Hsize; [by apply wp_fail; left|].
  apply wp_bind, wp_attempt, wp_sys_remove; [intros fs _|intros fs _; apply wp_fail; by left|intros fs; by left].
  destruct (w_names w !! temporary) eqn:Ht; apply wp_replaced; try done.
  apply (others_removed _ _ _ (with_faults fs w)); [by left|done].
Qed.

(** A mutation that succeeds leaves its state in memory and on disk, or changes
    nothing; one that fails leaves memory as it was, and on disk the old bytes or the
    state it computed; so does the death of the process. *)
Definition computed {A} (tx : LedgerState → res LedgerError (A * LedgerState)) (current s : LedgerState) : Prop :=
  ∃ a, tx current = Ok (a, s) ∧ validate (capacity current) s = Ok tt.
Definition old_or_computed {A} (tx : LedgerState → res LedgerError (A * LedgerState)) (current : LedgerState) (w w' : world) : Prop :=
  old w w' ∨ ∃ s, computed tx current s ∧ new s w'.

Lemma wp_mutate {A} (tx : LedgerState → res LedgerError (A * LedgerState)) current w :
  fs_ok w → tx current ≠ Panic →
  wp (mutate tx current)
    (fun r w' => match r with
       | Ok (Ok a, s) => tx current = Ok (a, s) ∧ validate (capacity current) s = Ok tt ∧ (s = current ∧ old w w' ∨ new s w')
       | Ok (Err _, s) => s = current ∧ old_or_computed tx current w w'
       | _ => False
       end) (old_or_computed tx current w) w.
Proof.
  intros Hw Hp. unfold mutate. destruct (tx current) as [[a next]|e|] eqn:Htx; [|apply wp_ret; by split; [|left]|done].
  assert (validate (capacity current) next ≠ Panic) as Hv by (unfold validate; by repeat case_match).
  destruct (validate (capacity current) next) as [[]|e|] eqn:Hval; [|apply wp_ret; by split; [|left]|done].
  case_bool_decide as He.
  - subst next. apply wp_ret. split_and!; [done|done|]. by left.
  - assert (computed tx current next) as Hc by by exists a.
    apply wp_bind, wp_attempt. eapply wp_mono; [by apply wp_write_state| |].
    + intros [[]|e|] w' Hw'; cbn in Hw'; [|apply wp_ret; split; [done|]|done].
      * apply wp_ret. split_and!; [done|done|by right].
      * destruct Hw'; [by left|right; eauto].
    + intros w' [Hw'|Hw']; [by left|right; eauto].
Qed.

(** ** One challenge *)

Section Challenge.
Context (id0 : text) (exp0 : Z) (dig0 : text).

Definition is_the (r : ChallengeRecord) : Prop :=
  challenge_id r = id0 ∧ cr_expires_at_ms r = exp0 ∧ challenge_digest r = dig0.

(** Whatever was returned for the challenge is what its record holds, and the record
    stays until the deadline. *)
Definition keeps_hello (H : list text) (now : Z) (l : list ChallengeRecord) : Prop :=
  (∀ h r, h ∈ H → r ∈ l → is_the r → hello r = Some h) ∧
  (H ≠ [] → (∃ r, r ∈ l ∧ is_the r) ∨ exp0 ≤ now).
Definition never_completed (l : list ChallengeRecord) : Prop := ∀ r, r ∈ l → challenge_id r = id0 → status r = Pending.

Lemma keeps_later H now now' l : now ≤ now' → keeps_hello H now l → keeps_hello H now' l.
Proof. intros Hn [H1 H2]. split; [done|]. intros Hne. destruct (H2 Hne); [by left|right; lia]. Qed.

Lemma find_record_spec id l r : find_record id l = Some r → r ∈ l ∧ challenge_id r = id.
Proof.
  unfold find_record. destruct (list_find _ l) as [[i x]|] eqn:Hf; [|done]. intros [= ->].
  apply list_find_Some in Hf as (Hi & Hx & _). split; [by eapply list_elem_of_lookup_2|done].
Qed.
Lemma find_record_none id l : find_record id l = None → ∀ r, r ∈ l → challenge_id r ≠ id.
Proof.
  unfold find_record. destruct (list_find _ l) eqn:Hf; [done|]. intros _. apply list_find_None in Hf. by apply Forall_forall.
Qed.

Lemma update_record_spec id f l :
  (∀ r', r' ∈ update_record id f l → r' ∈ l ∨ ∃ r, find_record id l = Some r ∧ r' = f r) ∧
  (∀ r, r ∈ l → r ∈ update_record id f l ∨ find_record id l = Some r ∧ f r ∈ update_record id f l).
Proof.
  induction l as [|x l [IH1 IH2]]; [by split; [intros r' ?%elem_of_nil|intros r ?%elem_of_nil]|].
  cbn [update_record]. unfold find_record in *. cbn [list_find]. destruct (decide (challenge_id x = id)) as [Hx|Hx].
  - cbn. split.
    + intros r' [->|Hr]%elem_of_cons; [right; by exists x|left; by right].
    + intros r [->|Hr]%elem_of_cons; [right; split; [done|by left]|left; by right].
  - split.
    + intros r' [->|Hr]%elem_of_cons; [left; by left|]. destruct (IH1 _ Hr) as [?|(r & Hf & ->)]; [left; by right|].
      right. exists r. split; [|done]. destruct (list_find _ l) as [[i y]|]; [|done]. by cbn in *.
    + intros r [->|Hr]%elem_of_cons; [left; by left|]. destruct (IH2 _ Hr) as [?|[Hf Hin]]; [left; by right|].
      right. split; [|by right]. destruct (list_find _ l) as [[i y]|]; [|done]. by cbn in *.
Qed.

Lemma oldest_completed l i best k :
  (∀ b, best = Some b → (b.1 < i)%nat) →
  oldest i best l = Some k → (k < i)%nat ∧ fst <$> best = Some k ∨ (i ≤ k)%nat ∧ ∃ r, l !! (k - i)%nat = Some r ∧ is_completed r = true.
Proof.
  revert i best. induction l as [|r l IH]; intros i best Hb; cbn [oldest].
  { intros Hk. left. split; [|done]. destruct best as [b|]; [|done]. injection Hk as <-. by apply Hb. }
  destruct (is_completed r) eqn:Hr.
  - intros Hk. set (best' := match best with Some _ => _ | None => _ end) in Hk.
    assert (best' = best ∨ fst <$> best' = Some i) as Hbest.
    { unfold best'. destruct best as [[j o]|]; [destruct (order_ltb _ _)|]; auto. }
    apply IH in Hk as [[Hlt Hk]|[Hle (x & Hx & Hc)]].
    + destruct Hbest as [E|E]; [left; split; [|by rewrite <- E]|].
      * rewrite E in Hk. destruct best as [b|]; [|done]. injection Hk as <-. by apply Hb.
      * right. rewrite E in Hk. injection Hk as <-. split; [lia|]. exists r. by rewrite Nat.sub_diag.
    + right. split; [lia|]. exists x. split; [|done]. by replace (k - i)%nat with (S (k - S i)) by lia.
    + intros b Hb'. destruct Hbest as [E|E]; [rewrite E in Hb'; specialize (Hb b Hb'); lia|].
      rewrite Hb' in E. injection E as E. lia.
  - intros Hk. apply IH in Hk as [[Hlt Hk]|[Hle (x & Hx & Hc)]]; [|right; split; [lia|]; exists x; split; [|done]|].
    + left. split; [|done]. destruct best as [b|]; [|done]. injection Hk as <-. by apply Hb.
    + by replace (k - i)%nat with (S (k - S i)) by lia.
    + intros b Hb'. specialize (Hb b Hb'). lia.
Qed.

(** Eviction removes at most one record, and that one was completed. *)
Lemma evict_records s :
  (∀ r, r ∈ records (evict s) → r ∈ records s) ∧
  (∀ r, r ∈ records s → is_completed r = false → r ∈ records (evict s)).
Proof.
  unfold evict. case_match; [|done]. destruct (oldest 0 None (records s)) as [k|] eqn:Ho; [|done].
  apply oldest_completed in Ho as [[? _]|[_ (x & Hx & Hc)]]; [lia| |done]. rewrite Nat.sub_0_r in Hx. cbn [records set_records].
  split; intros r Hr.
  - apply elem_of_app in Hr as [Hr|Hr].
    + eapply elem_of_sublist; [exact Hr|apply sublist_take].
    + eapply elem_of_sublist; [exact Hr|apply sublist_drop].
  - intros Hp. rewrite <- (take_drop_middle _ _ _ Hx) in Hr. rewrite elem_of_app, elem_of_cons in Hr. rewrite elem_of_app.
    destruct Hr as [Hr|[->|Hr]]; [by left|congruence|by right].
Qed.

(** *** What the transitions keep *)

(** From [l] at [clock] to [l'] at [now]. *)
Definition kept (clock now : Z) (l l' : list ChallengeRecord) : Prop :=
  (∀ H, keeps_hello H clock l → keeps_hello H now l') ∧ (never_completed l → never_completed l').

Lemma prepare_kept req exp clock now s a s' :
  clock ≤ now → prepare_request_tx req exp now s = Ok (a, s') → kept clock now (records s) (records s').
Proof.
  intros Hc Hp. assert (records s' = records s) as ->.
  { unfold prepare_request_tx in Hp. by repeat (case_match; simplify_eq/=). }
  split; [|done]. intros H. by apply keeps_later.
Qed.

Lemma bind_request_records req exp now s s' :
  bind_request req exp now s = Ok s' → records s' = records s ∧ capacity s' = capacity s.
Proof. unfold bind_request. repeat (case_match; try done). by intros [= <-]. Qed.

Lemma filter_kept clock now l : clock ≤ now → never_completed l → kept clock now l (filter (live now) l).
Proof.
  intros Hc Hn. split.
  - intros H [H1 H2]. split.
    + intros h r Hh [_ Hr]%list_elem_of_filter. by apply H1.
    + intros Hne. destruct (H2 Hne) as [(r & Hr & Ht)|]; [|right; lia].
      destruct (decide (live now r)) as [Hl|Hl]; [left; exists r; by rewrite list_elem_of_filter|right].
      destruct Ht as (_ & <- & _). unfold live in Hl. lia.
  - intros _ r [_ Hr]%list_elem_of_filter. by apply Hn.
Qed.

Lemma reserve_kept id exp ch req clock now s a s' :
  clock ≤ now → now < exp → never_completed (records s) →
  reserve_tx id exp ch req now s = Ok (a, s') → kept clock now (records s) (records s').
Proof.
  intros Hc He Hn. unfold reserve_tx. cbn [records set_records].
  pose proof (filter_kept clock now _ Hc Hn) as Hf. set (l := filter (live now) (records s)) in *.
  destruct (find_record id l) as [r|] eqn:Hfind.
  - case_match; [done|]. case_match; [done|]. intros Hr. apply res_bind_Ok in Hr as (s1 & [E _]%bind_request_records & Hr).
    apply res_bind_Ok in Hr as (c & _ & Hr). apply res_bind_Ok in Hr as (q & _ & [= _ <-]). by rewrite E.
  - intros Hr. apply res_bind_Ok in Hr as (s1 & [E _]%bind_request_records & Hr). cbn [records set_records] in E.
    case_match; [done|]. injection Hr as _ <-. cbn [records set_records].
    destruct (evict_records s1) as [Hev1 Hev2]. rewrite E in Hev1, Hev2. destruct Hf as [Hf1 Hf2].
    set (r0 := Challenge _ _ _ _ _ _ _ _). pose proof (find_record_none _ _ Hfind) as Hnone.
    assert (∀ r, r ∈ merge_sort by_id (records (evict s1) ++ [r0]) ↔ r ∈ records (evict s1) ∨ r = r0) as Hin.
    { intros r. rewrite (merge_sort_Permutation by_id), elem_of_app, list_elem_of_singleton. done. }
    split.
    + intros hs HG. destruct (Hf1 hs HG) as [K1 K2]. split.
      * intros h r Hh [Hr|Hr]%Hin Ht; [by apply (K1 h r); auto|]. subst r. exfalso.
        destruct K2 as [(r & Hr & Ht')|Hx]; [by intros ->; by apply elem_of_nil in Hh| |].
        -- apply (Hnone r Hr). destruct Ht as (<- & _), Ht' as (-> & _). done.
        -- destruct Ht as (_ & E' & _). cbn in E'. lia.
      * intros Hne. destruct (K2 Hne) as [(r & Hr & Ht)|]; [left|by right]. exists r. split; [|done]. apply Hin. left.
        apply Hev2; [done|]. unfold is_completed. by rewrite (Hf2 Hn r Hr (proj1 Ht)).
    + intros _ r [Hr|Hr]%Hin; [by apply (Hf2 Hn); auto|by subst r].
Qed.

Lemma hello_kept id h clock s a s' :
  store_hello_tx id h s = Ok (a, s') → kept clock clock (records s) (records s').
Proof.
  unfold store_hello_tx. destruct (find_record id (records s)) as [r|] eqn:Hfind; [|done]. destruct (is_completed r) eqn:Hcr; [done|].
  destruct (hello r) as [e|] eqn:Hh.
  { case_match; [|done]. intros [= _ <-]. by split. }
  intros [= _ <-]. cbn [records set_records]. set (f := fun r => Challenge _ _ _ _ _ _ _ _).
  destruct (update_record_spec id f (records s)) as [Hu1 Hu2]. pose proof (find_record_spec _ _ _ Hfind) as [Hr Hid].
  split.
  - intros H [H1 H2]. split.
    + intros h' r' Hh' Hr' Ht. destruct (Hu1 r' Hr') as [Hr1|(r1 & Hf & ->)]; [by apply (H1 h' r')|].
      rewrite Hfind in Hf. injection Hf as <-. specialize (H1 h' r Hh' Hr Ht). congruence.
    + intros Hne. destruct (H2 Hne) as [(x & Hx & Ht)|]; [left|by right].
      destruct (Hu2 x Hx) as [?|[_ ?]]; [by exists x|by exists (f x)].
  - intros Hn r' Hr' Hid'. destruct (Hu1 r' Hr') as [?|(r1 & Hf & ->)]; [by apply Hn|].
    rewrite Hfind in Hf. injection Hf as <-. by apply (Hn r).
Qed.

Lemma complete_kept id clock s a s' :
  id ≠ id0 → complete_tx id s = Ok (a, s') → kept clock clock (records s) (records s').
Proof.
  intros Hne. unfold complete_tx. destruct (find_record id (records s)) as [r|] eqn:Hfind; [|done].
  case_match; [done|]. case_match; [|done]. intros Hr. apply res_bind_Ok in Hr as (req & _ & Hr).
  case_match; [|done]. case_match; [done|]. apply res_bind_Ok in Hr as (next & _ & [= _ <-]). cbn [records].
  set (f := fun r => Challenge _ _ _ _ _ _ _ _). destruct (update_record_spec id f (records s)) as [Hu1 Hu2].
  pose proof (find_record_spec _ _ _ Hfind) as [Hr Hid].
  assert (∀ r', r' ∈ update_record id f (records s) → challenge_id r' = id0 → r' ∈ records s) as Hold.
  { intros r' Hr' Hid'. destruct (Hu1 r' Hr') as [?|(r1 & Hf & ->)]; [done|]. rewrite Hfind in Hf. injection Hf as <-.
    cbn in Hid'. congruence. }
  split.
  - intros hs [K1 K2]. split; [intros h' r' Hh' Hr' Ht; apply (K1 h' r'); auto; apply Hold; [done|apply Ht]|].
    intros Hne'. destruct (K2 Hne') as [(x & Hx & Ht)|]; [left|by right]. exists x. split; [|done].
    destruct (Hu2 x Hx) as [?|[Hf _]]; [done|]. apply find_record_spec in Hf as [_ Hf]. destruct Ht as [Ht _]. congruence.
  - intros Hn r' Hr' Hid'. apply Hn; [by apply Hold|done].
Qed.

(** *** The invariant *)

Lemma records_unique next ids orders l :
  records_valid next ids orders l = true →
  (∀ r, r ∈ l → challenge_id r ∉ ids) ∧ (∀ r r', r ∈ l → r' ∈ l → challenge_id r = challenge_id r' → r = r').
Proof.
  revert ids orders. induction l as [|x l IH]; intros ids orders; cbn [records_valid].
  { intros _. split; [by intros r ?%elem_of_nil|by intros r r' ?%elem_of_nil]. }
  intros [Hx Hl]%andb_prop. apply IH in Hl as [H1 H2]. unfold record_valid in Hx.
  assert (challenge_id x ∉ ids) as Hids.
  { repeat match goal with H : _ && _ = true |- _ => apply andb_prop in H as [? ?] end.
    match goal with H : negb (bool_decide (challenge_id x ∈ ids)) = true |- _ => apply negb_true_iff, bool_decide_eq_false in H; done end. }
  split.
  - intros r [->|Hr]%elem_of_cons; [done|]. specialize (H1 r Hr). set_solver.
  - intros r r' [->|Hr]%elem_of_cons [->|Hr']%elem_of_cons He; [done| | |by apply H2].
    + destruct (H1 r' Hr'). rewrite He. by left.
    + destruct (H1 r Hr). rewrite <- He. by left.
Qed.

Definition cap_ok (cap : nat) : Prop := (1 <= cap <= MAX_CAPACITY)%nat.
Definition valid (s : LedgerState) : Prop := validate (capacity s) s = Ok tt ∧ cap_ok (capacity s).

Lemma validate_valid cap s : cap_ok cap → validate cap s = Ok tt → valid s.
Proof.
  intros Hcap. unfold valid, validate. destruct (capacity s =? cap)%nat eqn:E.
  - apply Nat.eqb_eq in E as ->. rewrite Nat.eqb_refl. done.
  - cbn. by rewrite orb_true_r.
Qed.

Lemma valid_unique s r r' :
  valid s → r ∈ records s → r' ∈ records s → challenge_id r = challenge_id r' → r = r'.
Proof.
  intros [Hv _]. unfold validate in Hv. repeat (case_match; try done);
  match goal with H : records_valid _ _ _ _ = true |- _ => apply records_unique in H as [_ H]; apply H end.
Qed.

Lemma self_kept s r h now : valid s → r ∈ records s → is_the r → hello r = Some h → keeps_hello [h] now (records s).
Proof.
  intros Hv Hr Ht Hh. split; [|intros _; left; by exists r]. intros h' r' ->%list_elem_of_singleton Hr' Ht'.
  assert (r' = r) as -> by (apply (valid_unique s); [done..|destruct Ht as [-> _], Ht' as [-> _]; done]). done.
Qed.

Definition good (H : list text) (now : Z) (s : LedgerState) : Prop :=
  valid s ∧ keeps_hello H now (records s) ∧ never_completed (records s).
Definition coupled (now : Z) (s d : LedgerState) : Prop :=
  ∀ r h, r ∈ records s → is_the r → hello r = Some h → keeps_hello [h] now (records d).

(** The hellos that were returned for the challenge. *)
Definition hellos (l : list (text * Z * text * text)) : list text :=
  omap (fun '(i, e, g, h) => if decide (i = id0 ∧ e = exp0 ∧ g = dig0) then Some h else None) l.

Lemma hellos_app l l' : hellos (l ++ l') = hellos l ++ hellos l'.
Proof. apply omap_app. Qed.

Definition on_disk (y : system) (d : LedgerState) : Prop :=
  path_bytes (disk y) path = Some (to_vec d) ∧ size_ok d ∧ good (hellos (returned y)) (clock y) d.

Record inv (y : system) : Prop := {
  inv_fs : fs_ok (disk y);
  inv_equal h h' : h ∈ hellos (returned y) → h' ∈ hellos (returned y) → h = h';
  inv_disk : (path_bytes (disk y) path = None ∧ mem y = None ∧ hellos (returned y) = []) ∨
    ∃ d, on_disk y d ∧
      ∀ s, mem y = Some s → good (hellos (returned y)) (clock y) s ∧ coupled (clock y) s d }.

Lemma good_kept H clock now s s' :
  good H clock s → valid s' → kept clock now (records s) (records s') → good H now s'.
Proof. intros (_ & Hk & Hn) Hv [K1 K2]. split_and!; [done|by apply K1|by apply K2]. Qed.

Lemma good_later H clock now s : clock ≤ now → good H clock s → good H now s.
Proof. intros Hc (Hv & Hk & Hn). split_and!; [done|by eapply keeps_later|done]. Qed.

Lemma keeps_app H H' now l : keeps_hello H now l → keeps_hello H' now l → keeps_hello (H ++ H') now l.
Proof.
  intros [A1 A2] [B1 B2]. split.
  - intros h r [Hh|Hh]%elem_of_app; [by apply A1|by apply B1].
  - intros Hne. destruct H as [|h H]; [by apply B2|by apply A2].
Qed.

Lemma keeps_each H now l : (∀ h, h ∈ H → keeps_hello [h] now l) → keeps_hello H now l.
Proof.
  induction H as [|h H IH]; intros Hh; [by split; [intros h r ?%elem_of_nil|]|].
  apply (keeps_app [h] H); [apply Hh; by left|]. apply IH. intros h' Hh'. apply Hh. by right.
Qed.

Definition mutated {A} (tx : LedgerState → res LedgerError (A * LedgerState)) (current : LedgerState) (w : world)
    (r : res LedgerError (res LedgerError A * LedgerState)) (w' : world) : Prop :=
  match r with
  | Ok (Ok a, s) => tx current = Ok (a, s) ∧ validate (capacity current) s = Ok tt ∧ (s = current ∧ old w w' ∨ new s w')
  | Ok (Err _, s) => s = current ∧ old_or_computed tx current w w'
  | _ => False
  end.

Section Finish.
Context {A : Type} (tx : LedgerState → res LedgerError (A * LedgerState))
  (note : A → LedgerState → list (text * Z * text * text)) (now : Z) (y : system) (s d : LedgerState).
Hypothesis Hinv : inv y.
Hypothesis Hmem : mem y = Some s.
Hypothesis Hclock : clock y ≤ now.
Hypothesis Hd : on_disk y d.
Hypothesis Hcoupled : coupled (clock y) s d.
Hypothesis Hs : good (hellos (returned y)) (clock y) s.
Hypothesis Hkept : ∀ a s', tx s = Ok (a, s') → kept (clock y) now (records s) (records s').

(** Nothing is returned: the file is the old one, or one of the transition. *)
Lemma unreturned_inv w' m :
  old_or_computed tx s (disk y) w' → m = None ∨ m = Some s → inv (Sys m w' now (returned y)).
Proof.
  intros Hw Hm. destruct Hd as (Hp & Hsz & Hg). split; cbn [disk mem clock returned].
  - destruct Hw as [[? _]|(x & _ & ? & _)]; done.
  - apply (inv_equal _ Hinv).
  - right. destruct Hw as [[_ Ho]|(x & (a & Htx & Hv) & _ & Hb & Hsx)].
    + exists d. split; [split_and!; cbn; [congruence|done|by apply (good_later _ (clock y))]|]. intros s0 Hs0.
      destruct Hm as [->| ->]; [done|]. injection Hs0 as <-. split; [by apply (good_later _ (clock y))|].
      intros r h Hr Ht Hh. eapply keeps_later; [exact Hclock|]. by eapply Hcoupled.
    + apply validate_valid in Hv; [|apply Hs]. specialize (Hkept _ _ Htx).
      exists x. split; [split_and!; cbn; [done|done|by apply (good_kept _ (clock y) _ s)]|]. intros s0 Hs0.
      destruct Hm as [->| ->]; [done|]. injection Hs0 as <-. split; [by apply (good_later _ (clock y))|].
      intros r h Hr Ht Hh. apply Hkept. eapply self_kept; [apply Hs|done..].
Qed.

Hypothesis Hnote : ∀ a s', tx s = Ok (a, s') → ∀ h, h ∈ hellos (note a s') →
  ∃ r, r ∈ records s' ∧ is_the r ∧ hello r = Some h.

Lemma returned_inv w' a s' :
  tx s = Ok (a, s') → validate (capacity s) s' = Ok tt → s' = s ∧ old (disk y) w' ∨ new s' w' →
  inv (Sys (Some s') w' now (note a s' ++ returned y)).
Proof.
  intros Htx Hv%validate_valid Hw; [|apply Hs]. pose proof (Hkept _ _ Htx) as Hk. pose proof (Hnote _ _ Htx) as Hn.
  assert (good (hellos (returned y)) now s') as Hg' by (by apply (good_kept _ (clock y) _ s)).
  assert (∀ h, h ∈ hellos (note a s') → keeps_hello [h] now (records s')) as Heach.
  { intros h (r & Hr & Ht & Hh)%Hn. by eapply self_kept. }
  assert (good (hellos (note a s' ++ returned y)) now s') as Hgn.
  { rewrite hellos_app. destruct Hg' as (_ & Hk' & Hn'). split_and!; [done| |done]. apply keeps_app; [by apply keeps_each|done]. }
  split; cbn [disk mem clock returned].
  - destruct Hw as [[_ [? _]]|[? _]]; done.
  - assert (∀ h h', h ∈ hellos (note a s') → h' ∈ hellos (note a s' ++ returned y) → h = h') as Hone.
    { intros h h' (r & Hr & Ht & Hh)%Hn Hh'. destruct Hgn as (_ & [K _] & _). specialize (K h' r Hh' Hr Ht). congruence. }
    intros h h' Hh Hh'. pose proof Hh as Hx. pose proof Hh' as Hx'. rewrite hellos_app, elem_of_app in Hx, Hx'.
    destruct Hx as [Hx|Hx]; [by apply Hone|]. destruct Hx' as [Hx'|Hx']; [symmetry; by apply Hone|by apply (inv_equal _ Hinv)].
  - right. destruct Hw as [[-> [_ Ho]]|(_ & Hb & Hsx)].
    + destruct Hd as (Hp & Hsz & Hg). exists d. assert (coupled now s d) as Hcn.
      { intros r h Hr Ht Hh. eapply keeps_later; [exact Hclock|]. by eapply Hcoupled. }
      split; [split_and!; cbn; [congruence|done|]|by intros s0 [= <-]].
      rewrite hellos_app. apply (good_later _ _ now) in Hg as (Hvd & Hkd & Hnd); [|done]. split_and!; [done| |done].
      apply keeps_app; [|done]. apply keeps_each. intros h (r & Hr & Ht & Hh)%Hn. by eapply Hcn.
    + exists s'. split; [by split_and!|]. intros s0 [= <-]. split; [done|]. intros r h Hr Ht Hh. by eapply self_kept.
Qed.

Lemma finish_inv m fs :
  wp m (mutated tx s (with_faults fs (disk y))) (old_or_computed tx s (with_faults fs (disk y))) (with_faults fs (disk y)) →
  inv (finish m note fs now y).
Proof.
  unfold wp, finish. destruct (m (with_faults fs (disk y))) as [[[[[a|e|] s']|e|]|] w']; try done; cbn [mutated].
  - intros (Htx & Hv & Hw). by apply returned_inv.
  - intros [-> Hw]. apply unreturned_inv; [done|by right].
  - intros Hw. apply unreturned_inv; [done|by left].
Qed.
End Finish.

(** *** What is returned comes from the record *)

Lemma find_updated id f l :
  (∀ r, challenge_id (f r) = challenge_id r) → find_record id (update_record id f l) = f <$> find_record id l.
Proof.
  intros Hf. unfold find_record. induction l as [|x l IH]; [done|]. cbn [update_record list_find].
  destruct (decide (challenge_id x = id)) as [Hx|Hx]; cbn [list_find].
  - rewrite decide_True by (by rewrite Hf). done.
  - rewrite decide_False by done. destruct (list_find _ l) as [[]|], (list_find _ (update_record id f l)) as [[]|]; cbn in IH |- *; congruence.
Qed.

Lemma hello_noted id h s a s' x :
  store_hello_tx id h s = Ok (a, s') → x ∈ hellos (note_hello id a s') →
  ∃ r, r ∈ records s' ∧ is_the r ∧ hello r = Some x.
Proof.
  intros Htx. unfold note_hello. destruct (find_record id (records s')) as [r|] eqn:Hf; [|by intros ?%elem_of_nil].
  cbn. case_decide as Ht; [|by intros ?%elem_of_nil]. intros ->%list_elem_of_singleton.
  exists r. pose proof (find_record_spec _ _ _ Hf) as [Hr Hid]. destruct Ht as (Hi & He & Hg). split_and!; [done|unfold is_the; split_and!; congruence|].
  unfold store_hello_tx in Htx. destruct (find_record id (records s)) as [r0|] eqn:Hf0; [|done]. destruct (is_completed r0); [done|].
  destruct (hello r0) as [e|] eqn:Hh.
  - case_bool_decide; [|done]. injection Htx as <- <-. congruence.
  - injection Htx as <- <-. cbn [records set_records] in Hf. rewrite find_updated, Hf0 in Hf by done. by injection Hf as <-.
Qed.

Lemma reservation_noted id exp ch req now s a s' x :
  reserve_tx id exp ch req now s = Ok (a, s') → x ∈ hellos (note_reservation id exp ch a) →
  ∃ r, r ∈ records s' ∧ is_the r ∧ hello r = Some x.
Proof.
  intros Htx. unfold note_reservation. destruct a as [|h]; [by intros ?%elem_of_nil|]. cbn.
  case_decide as Ht; [|by intros ?%elem_of_nil]. intros ->%list_elem_of_singleton. destruct Ht as (Hi & Hx & Hd).
  unfold reserve_tx in Htx. cbn [records set_records] in Htx. set (l := filter (live now) (records s)) in *.
  destruct (find_record id l) as [r|] eqn:Hf.
  - case_match eqn:He; [done|]. case_match; [done|]. apply res_bind_Ok in Htx as (s1 & [E _]%bind_request_records & Htx).
    apply res_bind_Ok in Htx as (c & _ & Htx). apply res_bind_Ok in Htx as (q & _ & [= Hh <-]).
    apply orb_false_elim in He as [He%negb_false_iff%Z.eqb_eq Hg%negb_false_iff%bool_decide_eq_true].
    pose proof (find_record_spec _ _ _ Hf) as [Hr Hid]. exists r. rewrite E.
    split_and!; [done|unfold is_the; split_and!; congruence|]. destruct (hello r); [congruence|done].
  - apply res_bind_Ok in Htx as (s1 & _ & Htx). by case_match.
Qed.

Lemma tx_no_panic s :
  (∀ req exp now, prepare_request_tx req exp now s ≠ Panic) ∧
  (∀ id exp ch req now, reserve_tx id exp ch req now s ≠ Panic) ∧
  (∀ id h, store_hello_tx id h s ≠ Panic) ∧ (∀ id, complete_tx id s ≠ Panic).
Proof.
  assert (∀ req exp now s, bind_request req exp now s ≠ Panic) as Hb by (intros; unfold bind_request; by repeat case_match).
  split_and!; intros; unfold prepare_request_tx, reserve_tx, store_hello_tx, complete_tx;
    repeat first [done | apply res_bind_no_panic; [first [apply ok_or_no_panic | apply Hb]|intros] | case_match].
Qed.

Lemma wp_refused {A} (tx : LedgerState → res LedgerError (A * LedgerState)) e s w :
  fs_ok w → wp (mret (Err e, s)) (mutated tx s w) (old_or_computed tx s w) w.
Proof. intros Hw. apply wp_ret. split; [done|]. by left. Qed.

Lemma wp_mutated {A} (tx : LedgerState → res LedgerError (A * LedgerState)) s w :
  fs_ok w → tx s ≠ Panic → wp (mutate tx s) (mutated tx s w) (old_or_computed tx s w) w.
Proof. intros Hw Hp. by apply wp_mutate. Qed.

Section Steps.
Hypothesis Hcodec : ∀ s, from_slice (to_vec s) = Some s.

Lemma empty_good H now cap : cap_ok cap → (H = [] ∨ exp0 ≤ now) → good H now (ledger_empty cap).
Proof.
  intros Hcap HH. split_and!.
  - split; [|done]. unfold validate. cbn. by rewrite Nat.eqb_refl.
  - split; [by intros h r _ ?%elem_of_nil|]. intros Hne. destruct HH; [done|by right].
  - by intros r ?%elem_of_nil.
Qed.

Lemma wp_ledger_open cap w :
  fs_ok w →
  wp (ledger_open cap)
    (fun r w' => match r with
       | Ok s => (cap_ok cap ∧ path_bytes w path = None ∧ s = ledger_empty cap ∧ new s w') ∨
                 (∃ b, path_bytes w path = Some b ∧ from_slice b = Some s) ∧ validate cap s = Ok tt ∧ old w w'
       | Err _ => old w w' ∨ cap_ok cap ∧ path_bytes w path = None ∧ new (ledger_empty cap) w'
       | Panic => False
       end)
    (fun w' => old w w' ∨ cap_ok cap ∧ path_bytes w path = None ∧ new (ledger_empty cap) w') w.
Proof.
  intros Hw. unfold ledger_open. destruct (negb _) eqn:Hcap; [apply wp_fail; by left|].
  apply negb_false_iff, andb_prop in Hcap as [Hc1%Nat.leb_le Hc2%Nat.leb_le]. pose proof (conj Hc1 Hc2 : cap_ok cap) as Hcap.
  apply wp_bind, wp_sys_nop; [intros fs _|intros fs _; by left|intros fs; by left].
  apply wp_bind, wp_sys_nop; [intros fs1 _|intros fs1 _; by left|intros fs1; by left].
  apply wp_bind, wp_attempt, wp_sys_open; [intros fs2 _|intros fs2 _; apply wp_fail; by left|intros fs2; by left].
  cbn [w_names with_faults]. destruct (w_names w !! path) as [ino|] eqn:Hino.
  - assert (path_bytes w path = Some (file_bytes w ino)) as Hb by (unfold path_bytes; by rewrite Hino).
    apply wp_bind, wp_sys_nop; [intros fs3 _|intros fs3 _; by left|intros fs3; by left].
    apply wp_bind, wp_sys_read; [intros fs4 _|intros fs4 _; by left|intros fs4; by left].
    rewrite !file_bytes_faults. destruct (_ || _); [apply wp_fail; by left|].
    apply wp_bind, wp_lift. destruct (from_slice (file_bytes w ino)) as [s|] eqn:Hs; cbn [ok_or]; [|by left].
    apply wp_bind, wp_lift. assert (validate cap s ≠ Panic) by (unfold validate; by repeat case_match).
    destruct (validate cap s) as [[]|e|] eqn:Hv; [|by left|done]. apply wp_ret. right.
    split_and!; [eauto|done|done].
  - assert (path_bytes w path = None) as Hb by (unfold path_bytes; by rewrite Hino).
    apply wp_bind. eapply wp_mono; [by apply (wp_write_state (ledger_empty cap))| |].
    + intros [[]|e|] w' Hw'; cbn in Hw'; [apply wp_ret; by left| |done]. destruct Hw' as [?|?]; [by left|by right].
    + intros w' [?|?]; [by left|by right].
Qed.

Lemma open_inv cap fs y :
  inv y → mem y = None → inv (step y (DOpen cap, fs)).
Proof.
  intros Hi Hm. cbn [step]. rewrite Hm. pose proof (wp_ledger_open cap (with_faults fs (disk y)) (inv_fs _ Hi)) as Hw.
  unfold wp in Hw. pose proof (inv_equal _ Hi) as He.
  assert (∀ w', old (with_faults fs (disk y)) w' ∨ cap_ok cap ∧ path_bytes (disk y) path = None ∧ new (ledger_empty cap) w' →
    inv (Sys None w' (clock y) (returned y))) as Hdead.
  { intros w' [[Hf Ho]|(Hcap & Hn & Hf & Hb & Hs)]; (split; cbn [disk mem clock returned]; [done|done|]).
    - destruct (inv_disk _ Hi) as [(? & _ & ?)|(d & (Hp & Hs & Hg) & _)]; [left; by rewrite Ho|right].
      exists d. split; [|done]. split_and!; cbn; [|done|done]. by rewrite Ho.
    - right. destruct (inv_disk _ Hi) as [(_ & _ & HH)|(d & (Hp & _) & _)]; [|congruence].
      exists (ledger_empty cap). split; [|done]. split_and!; cbn; [done|done|]. apply empty_good; [done|by left]. }
  destruct (ledger_open cap (with_faults fs (disk y))) as [[[s|e|]|] w']; [|by apply Hdead|done|by apply Hdead].
  change (path_bytes (with_faults fs (disk y)) path) with (path_bytes (disk y) path) in *.
  destruct Hw as [(Hcap & Hn & -> & Hf & Hb & Hs)|((b & Hb & Hd) & Hv & Hf & Ho)]; (split; cbn [disk mem clock returned]; [done|done|]).
  - right. destruct (inv_disk _ Hi) as [(_ & _ & HH)|(d & (Hp & _) & _)]; [|congruence].
    assert (good (hellos (returned y)) (clock y) (ledger_empty cap)) as Hg by (apply empty_good; [done|by left]).
    exists (ledger_empty cap). split; [by split_and!|]. intros s0 [= <-]. split; [done|]. by intros r h ?%elem_of_nil.
  - destruct (inv_disk _ Hi) as [(Hn & _)|(d & (Hp & Hs & Hg) & _)]; [congruence|].
    assert (s = d) as -> by (rewrite Hp in Hb; injection Hb as <-; rewrite Hcodec in Hd; congruence).
    right. exists d. split; [split_and!; cbn; [by rewrite Ho|done|done]|]. intros s0 [= <-]. split; [done|].
    intros r h Hr Ht Hh. by eapply self_kept; [apply Hg|..].
Qed.

Lemma ledger_step_inv y o fs : o ≠ DComplete id0 → inv y → inv (step y (o, fs)).
Proof.
  intros Ho Hi. destruct o as [req exp now|id exp ch req now|id h|id|cap|].
  6: { cbn [step]. split; cbn [disk mem clock returned]; [apply Hi|apply Hi|]. destruct (inv_disk _ Hi) as [(? & _ & ?)|(d & Hd & _)];
         [by left|right; by exists d]. }
  5: { destruct (mem y) eqn:Hm; [by cbn [step]; rewrite Hm|by apply open_inv]. }
  all: cbn [step]; destruct (mem y) as [s|] eqn:Hm; [|done].
  all: destruct (inv_disk _ Hi) as [(_ & ? & _)|(d & Hd & Hc)]; [congruence|]; destruct (Hc s Hm) as [Hs Hcp].
  all: pose proof (tx_no_panic s) as (P1 & P2 & P3 & P4); pose proof (inv_fs _ Hi) as Hfs.
  - case (Z.ltb_spec now (clock y)) as [|Hle]; [done|]. unfold prepare_request.
    eapply (finish_inv (prepare_request_tx req exp now) _ now y s d); try done.
    + intros a s' Htx. by eapply prepare_kept.
    + by intros a s' _ h ?%elem_of_nil.
    + repeat case_match; [by apply wp_refused..|by apply wp_mutated].
  - case (Z.ltb_spec now (clock y)) as [|Hle]; [done|]. unfold reserve.
    destruct (negb (valid_identity id) || _ || _ || _).
    { eapply (finish_inv (fun _ => Err InvalidInput) _ now y s d); try done. by apply wp_refused. }
    case (Z.leb_spec exp now) as [|Hlt].
    { eapply (finish_inv (fun _ => Err InvalidInput) _ now y s d); try done. by apply wp_refused. }
    eapply (finish_inv (reserve_tx id exp ch req now) _ now y s d); try done.
    + intros a s' Htx. eapply reserve_kept; [done|done|apply Hs|done].
    + intros a s' Htx h Hh. by eapply reservation_noted.
    + by apply wp_mutated.
  - unfold store_hello. eapply (finish_inv (store_hello_tx id h) _ (clock y) y s d); try done.
    + intros a s' Htx. by eapply hello_kept.
    + intros a s' Htx x Hx. by eapply hello_noted.
    + case_match; [by apply wp_refused|by apply wp_mutated].
  - unfold complete. eapply (finish_inv (complete_tx id) _ (clock y) y s d); try done.
    + intros a s' Htx. eapply complete_kept; [|done]. congruence.
    + by intros a s' _ h ?%elem_of_nil.
    + case_match; [by apply wp_refused|by apply wp_mutated].
Qed.

Lemma ledger_run_inv w es :
  fs_ok w → path_bytes w path = None → Forall (fun e => e.1 ≠ DComplete id0) es → inv (run w es).
Proof.
  intros Hw Hp. unfold run. induction es as [|[o fs] es IH] using rev_ind.
  - intros _. split; cbn; [done|by intros h h' ?%elem_of_nil|]. by left.
  - intros [Hes Ho]%Forall_app. rewrite fold_left_app. cbn [fold_left]. apply ledger_step_inv; [|by apply IH].
    by inversion Ho.
Qed.

(** Without faults the stored ledger opens as it is. *)
Lemma reopened y d :
  on_disk y d →
  ledger_open (capacity d) (with_faults [] (disk y)) = (Some (Ok d), with_faults [] (disk y)).
Proof.
  intros (Hp & Hsz & [[Hv [Hc1 Hc2]] _]). unfold ledger_open. rewrite (proj2 (Nat.leb_le _ _) Hc1), (proj2 (Nat.leb_le _ _) Hc2).
  unfold path_bytes in Hp. destruct (w_names (disk y) !! path) as [ino|] eqn:Hino; [|done]. injection Hp as Hp.
  set (w := with_faults [] (disk y)). cbn [andb negb].
  eapply run_bind; [by apply run_syscall|]. eapply run_bind; [by apply run_syscall|].
  eapply run_bind; [unfold attempt; by rewrite (run_open _ _ _ ino)|]. cbv beta iota.
  eapply run_bind; [by apply run_syscall|]. eapply run_bind; [by apply run_syscall|].
  change (file_bytes w ino) with (file_bytes (disk y) ino). rewrite Hp. unfold size_ok in Hsz. rewrite Hsz, Hcodec.
  eapply run_bind; [done|]. eapply run_bind; [unfold lift; by rewrite Hv|done].
Qed.
End Steps.
End Challenge.


(** An answer outlives the process.  Whatever history came before, failing calls and
    deaths in the middle of a write included, a hello returned for a challenge that was
    not completed and whose deadline has not passed is in the ledger a fault-free restart
    opens; and that restart succeeds: a stored ledger always decodes, validates and is
    within the size limit. *)
Theorem hello_survives (w : world) (es : list (op * list fault)) (id : text) (expires : Z) (digest h : text) :
  (∀ s, from_slice (to_vec s) = Some s) → fs_ok w → path_bytes w path = None →
  Forall (fun e => e.1 ≠ DComplete id) es →
  (id, expires, digest, h) ∈ returned (run w es) → clock (run w es) < expires →
  ∃ s r, ledger_open (capacity s) (with_faults [] (disk (run w es))) = (Some (Ok s), with_faults [] (disk (run w es))) ∧
    r ∈ records s ∧ challenge_id r = id ∧ cr_expires_at_ms r = expires ∧ challenge_digest r = digest ∧
    status r = Pending ∧ hello r = Some h.
Proof.
  intros Hcodec Hw Hp Hes Hh Hexp. pose proof (ledger_run_inv id expires digest Hcodec w es Hw Hp Hes) as Hi.
  assert (h ∈ hellos id expires digest (returned (run w es))) as Hin.
  { apply list_elem_of_omap. eexists. split; [exact Hh|]. cbn. by rewrite decide_True. }
  destruct (inv_disk _ _ _ _ Hi) as [(_ & _ & E)|(d & Hd & _)]; [rewrite E in Hin; by apply elem_of_nil in Hin|].
  pose proof Hd as (_ & _ & _ & [K1 K2] & Hn).
  destruct K2 as [(r & Hr & Ht)|]; [by intros E; rewrite E in Hin; apply elem_of_nil in Hin| |lia].
  exists d, r. split; [by eapply reopened|]. pose proof (K1 h r Hin Hr Ht). destruct Ht as (? & ? & ?).
  split_and!; try done. by apply Hn.
Qed.
End Persistence.
End Ledger.

(** ** A sample history *)
Module Sample.

#[local] Instance status_countable : Countable ChallengeStatus :=
  inj_countable' (fun s => match s with Pending => true | Completed => false end)
                 (fun b : bool => if b then Pending else Completed) ltac:(by intros []).
#[local] Instance pending_countable : Countable PendingRequest :=
  inj_countable' (fun p => (pr_expires_at_ms p, pr_request p)) (fun '(a, b) => PRequest a b) ltac:(by intros []).

(** One number per field. *)
Definition to_z {A} `{Countable A} (a : A) : Z := Z.pos (encode a).
Definition from_z {A} `{Countable A} (z : Z) : option A := match z with Z.pos p => decode p | _ => None end.
Lemma from_to_z {A} `{Countable A} (a : A) : from_z (to_z a) = Some a.
Proof. apply decode_encode. Qed.

Definition record_to (r : ChallengeRecord) : list Z :=
  [to_z (challenge_id r); cr_expires_at_ms r; to_z (challenge_digest r); to_z (challenge r); to_z (request r);
   to_z (hello r); to_z (status r); to_z (completion_order r)].
Fixpoint records_from (l : list Z) : option (list ChallengeRecord) :=
  match l with
  | [] => Some []
  | i :: x :: g :: c :: q :: h :: st :: o :: l =>
      i ← from_z i; g ← from_z g; c ← from_z c; q ← from_z q; h ← from_z h; st ← from_z st; o ← from_z o;
      rs ← records_from l;
      Some (Challenge i x g c q h st o :: rs)
  | _ => None
  end.
Definition to_vec (s : LedgerState) : list Z :=
  to_z (schema s) :: to_z (capacity s) :: to_z (pending_request s) :: next_completion_order s :: concat (map record_to (records s)).
Definition from_slice (l : list Z) : option LedgerState :=
  match l with
  | s :: c :: p :: n :: l => s ← from_z s; c ← from_z c; p ← from_z p; rs ← records_from l; Some (Ledger s c p n rs)
  | _ => None
  end.

Lemma records_from_to l : records_from (concat (map record_to l)) = Some l.
Proof.
  induction l as [|r l IH]; [done|]. cbn [map concat]. unfold record_to at 1. cbn [app records_from].
  rewrite !from_to_z, IH. by destruct r.
Qed.
Lemma ledger_codec s : from_slice (to_vec s) = Some s.
Proof. unfold to_vec, from_slice. rewrite !from_to_z, records_from_to. by destruct s. Qed.

Definition digest (_ : text) : text := repeat 48 64.
Definition id : text := repeat 48 8 ++ [45] ++ repeat 48 4 ++ [45] ++ [52; 48; 48; 48] ++ [45] ++ [56; 48; 48; 48] ++ [45] ++ repeat 48 12.
Definition empty_disk : world := World ∅ ∅ 0 [].

(** The process dies while it renames the file that holds the hello, restarts, stores
    it, fails to sync a repetition, and after another restart repeats it. *)
Definition history : list (op * list fault) :=
  [(DOpen 4, []); (DPrepare [49] 100 0, []); (DReserve id 100 [50] [49] 1, []);
   (DHello id [51], [FOk; FOk; FOk; FOk; FCrash 0]); (DOpen 4, []); (DHello id [51], []);
   (DReserve id 100 [50] [49] 2, [FOk; FErr 0]); (DKill, []); (DOpen 4, []); (DReserve id 100 [50] [49] 3, [])].

#[local] Abbreviation final := (run digest to_vec from_slice "ledger.json" "ledger.tmp" empty_disk history).

Lemma returned_thrice : returned final = [(id, 100, digest [50], [51]); (id, 100, digest [50], [51]); (id, 100, digest [50], [51])].
Proof. vm_compute. reflexivity. Qed.
Lemma ledger_clock : clock final = 3.
Proof. vm_compute. reflexivity. Qed.
Lemma empty_disk_ok : fs_ok empty_disk.
Proof. split; intros ? ? H; cbn in H; rewrite lookup_empty in H; done. Qed.
Lemma not_completed : Forall (fun e : op * list fault => e.1 ≠ DComplete id) history.
Proof. by repeat constructor. Qed.

Lemma names_differ : "ledger.json" ≠ "ledger.tmp".
Proof. done. Qed.
Lemma no_ledger : path_bytes empty_disk "ledger.json" = None.
Proof. done. Qed.
Lemma hello_returned : (id, 100, digest [50], [51]) ∈ returned final.
Proof. rewrite returned_thrice. by left. Qed.
Lemma not_expired : clock final < 100.
Proof. by rewrite ledger_clock. Qed.


Lemma hello_survives_witness :
  ∃ s r, ledger_open to_vec from_slice "ledger.json" "ledger.tmp" (capacity s) (with_faults [] (disk final)) = (Some (Ok s), with_faults [] (disk final)) ∧
    r ∈ records s ∧ challenge_id r = id ∧ cr_expires_at_ms r = 100 ∧ challenge_digest r = digest [50] ∧
    status r = Pending ∧ hello r = Some [51].
Proof.
  exact (hello_survives digest to_vec from_slice "ledger.json" "ledger.tmp" names_differ empty_disk history id 100 (digest [50]) [51]
    ledger_codec empty_disk_ok no_ledger not_completed hello_returned not_expired).
Defined.
End Sample.
End ChallengeLedger.
