(* ===== verification/Generations.v ===== *)
(** * Topology generations of delegated integrations
    (libs/aether-store-local/src/integration_generation.rs)

    A process-exclusive file that binds a generation number to the digest of every
    integration's latest topology snapshot.  A reservation rewrites the file through
    a replacement file and a rename, under an arbitrary schedule of failing calls and
    process deaths.  Texts are lists of Unicode scalar values.  The JSON codec is a
    parameter with its round-trip law and the fact that it contains every digest. *)

From stdpp Require Import base tactics numbers list gmap strings sorting.
From S2P Require Import Prelude Fs Replace Outbox.
#[local] Open Scope Z_scope.

Module Generations.
Import Fs Replace.

Abbreviation text := (list Z).

(** ** Validated values (crates/aether-domain/src/integration.rs) *)

Definition MAX_IDENTIFIER_BYTES : Z := 512.

(** [str::len]: a scalar value takes one to four bytes. *)
Definition char_len (c : Z) : Z := if c <? 0x80 then 1 else if c <? 0x800 then 2 else if c <? 0x10000 then 3 else 4.
Definition str_len (s : text) : Z := fold_right (fun c n => char_len c + n) 0 s.
Definition is_whitespace (c : Z) : bool :=
  ((9 <=? c) && (c <=? 13)) || (c =? 32) || (c =? 0x85) || (c =? 0xA0) || (c =? 0x1680)
  || ((0x2000 <=? c) && (c <=? 0x200A)) || (c =? 0x2028) || (c =? 0x2029) || (c =? 0x202F) || (c =? 0x205F) || (c =? 0x3000).
Definition is_control (c : Z) : bool := (c <? 32) || ((127 <=? c) && (c <=? 159)).

(** [value.trim() != value]: a first or last character is white space. *)
Definition trimmed (s : text) : bool :=
  match s with [] => true | c :: _ => negb (is_whitespace c) && negb (is_whitespace (List.last s c)) end.
Definition validated_identifier (s : text) : option text :=
  if (length s =? 0)%nat || negb (trimmed s) || (MAX_IDENTIFIER_BYTES <? str_len s) || existsb is_control s then None
  else Some s.

Definition generation_new (value : Z) : option Z := if value =? 0 then None else Some value.

(** [sha256:] *)
Definition digest_prefix : text := [115; 104; 97; 50; 53; 54; 58].
Definition is_lower_hex (c : Z) : bool := ((48 <=? c) && (c <=? 57)) || ((97 <=? c) && (c <=? 102)).
Definition digest_new (s : text) : option text :=
  if bool_decide (take 7 s = digest_prefix) && (str_len (drop 7 s) =? 64) && forallb is_lower_hex (drop 7 s)
  then Some s else None.

(** ** The store *)

Definition FILE_SCHEMA : string := "aether.edge.integration-generations.v1".
Definition MAX_FILE_BYTES : Z := 4 * 1024 * 1024.
Definition MAX_ENTRIES : Z := 65536.

Abbreviation ScopeKey := (text * text)%type.
Record GenerationEntry := Entry { generation : Z; snapshot_digest : text }.
Record FileEntry := FEntry { fe_gateway_id : text; fe_integration_id : text; fe_generation : Z; fe_snapshot_digest : text }.
Record FileDocument := Document { schema : string; entries : list FileEntry }.

#[global] Instance GenerationEntry_eq_dec : EqDecision GenerationEntry.
Proof. solve_decision. Defined.

Abbreviation state := (gmap ScopeKey GenerationEntry).

(** The order of a [BTreeMap]'s keys. *)
Fixpoint text_leb (a b : text) : bool :=
  match a, b with
  | [], _ => true
  | _, [] => false
  | x :: a, y :: b => (x <? y) || ((x =? y) && text_leb a b)
  end.
Definition key_le (a b : ScopeKey * GenerationEntry) : Prop :=
  (if bool_decide (a.1.1 = b.1.1) then text_leb a.1.2 b.1.2 else text_leb a.1.1 b.1.1) = true.
#[global] Instance key_le_dec a b : Decision (key_le a b).
Proof. unfold key_le. apply _. Defined.

Definition file_entry (x : ScopeKey * GenerationEntry) : FileEntry :=
  FEntry x.1.1 x.1.2 (generation x.2) (snapshot_digest x.2).
Definition document (m : state) : FileDocument :=
  Document FILE_SCHEMA (map file_entry (merge_sort key_le (map_to_list m))).

Definition storage_error (_ : io_kind) : Outbox.PortErrorKind := Outbox.Unavailable.
(** Marks a missing file, for the two calls that tell it from other failures. *)
Definition or_missing (k : io_kind) : Outbox.PortErrorKind :=
  match k with NotFound => Outbox.NotFoundKind | _ => Outbox.Unavailable end.

Definition checked_generation (value : Z) : res Outbox.PortErrorKind Z := ok_or (generation_new value) Outbox.Permanent.

(** The loop of [load] over the document. *)
Fixpoint load_entries (l : list FileEntry) (m : state) : res Outbox.PortErrorKind state :=
  match l with
  | [] => Ok m
  | e :: l =>
      _ ← ok_or (validated_identifier (fe_gateway_id e)) Outbox.Permanent;
      _ ← ok_or (validated_identifier (fe_integration_id e)) Outbox.Permanent;
      _ ← ok_or (digest_new (fe_snapshot_digest e)) Outbox.Permanent;
      _ ← checked_generation (fe_generation e);
      let key := (fe_gateway_id e, fe_integration_id e) in
      match m !! key with
      | Some _ => Err Outbox.Permanent
      | None => load_entries l (<[key := Entry (fe_generation e) (fe_snapshot_digest e)]> m)
      end
  end.

Section Store.
Context (to_vec : FileDocument → list Z) (from_slice : list Z → option FileDocument).
Context (path temporary : string).

Definition load : io Outbox.PortErrorKind state :=
  opened ← attempt (sys_open or_missing path);
  match opened with
  | Ok ino =>
      len ← sys_read storage_error ino;
      if (length len =? 0)%nat || (MAX_FILE_BYTES <? Z.of_nat (length len)) then fail Outbox.Permanent
      else
        bytes ← sys_read storage_error ino;
        d ← lift (ok_or (from_slice bytes) Outbox.Permanent);
        if negb (bool_decide (schema d = FILE_SCHEMA)) || (MAX_ENTRIES <? Z.of_nat (length (entries d))) then fail Outbox.Permanent
        else lift (load_entries (entries d) ∅)
  | Err Outbox.NotFoundKind => mret ∅
  | _ => fail Outbox.Unavailable
  end.

(** The directory and the lock file are calls that may fail; the lock itself is the
    rule that at most one process has the store open. *)
Definition store_open : io Outbox.PortErrorKind state :=
  _ ← sys_nop storage_error;
  _ ← sys_nop storage_error;
  _ ← sys_nop storage_error;
  removed ← attempt (sys_remove or_missing temporary);
  match removed with
  | Ok _ | Err Outbox.NotFoundKind => load
  | _ => fail Outbox.Unavailable
  end.

(** A failing write or rename removes the replacement file. *)
Definition or_cleanup (m : io Outbox.PortErrorKind unit) : io Outbox.PortErrorKind unit :=
  r ← attempt m;
  match r with
  | Ok _ => mret tt
  | Err e => _ ← attempt (sys_remove storage_error temporary); fail e
  | Panic => lift Panic
  end.

Definition persist (m : state) : io Outbox.PortErrorKind unit :=
  let bytes := to_vec (document m) in
  if (length bytes =? 0)%nat || (MAX_FILE_BYTES <? Z.of_nat (length bytes)) then fail Outbox.Permanent
  else
    ino ← sys_create_new storage_error temporary;
    _ ← or_cleanup (_ ← sys_write storage_error ino 0 bytes; sys_nop storage_error);
    _ ← or_cleanup (sys_rename storage_error temporary path);
    sys_nop storage_error.

(** The result, and what the mutex holds afterwards. *)
Definition reserve_generation (key : ScopeKey) (digest : text) (current : state)
    : io Outbox.PortErrorKind (res Outbox.PortErrorKind Z * state) :=
  let write next_generation :=
    let next := <[key := Entry next_generation digest]> current in
    written ← attempt (persist next);
    match written with
    | Ok _ => mret (checked_generation next_generation, next)
    | Err e => mret (Err e, current)
    | Panic => lift Panic
    end in
  match current !! key with
  | Some entry =>
      if bool_decide (snapshot_digest entry = digest) then mret (checked_generation (generation entry), current)
      else
        match checked_add 64 (generation entry) 1 with
        | Some next_generation => write next_generation
        | None => mret (Err Outbox.Permanent, current)
        end
  | None => write 1
  end.

(** ** Histories *)

Inductive op := GReserve (gateway integration digest : text) | GOpen | GKill.

(** The process, if it has the store open; the disk; and what was returned, latest
    first. *)
Record system := Sys { mem : option state; disk : world; returned : list (ScopeKey * text * Z) }.

Definition step (y : system) (e : op * list fault) : system :=
  let '(o, fs) := e in
  let w := with_faults fs (disk y) in
  match o, mem y with
  | GReserve gateway integration digest, Some m =>
      match validated_identifier gateway, validated_identifier integration, digest_new digest with
      | Some gateway, Some integration, Some digest =>
          match reserve_generation (gateway, integration) digest m w with
          | (Some (Ok (r, m)), w) =>
              Sys (Some m) w (match r with Ok g => [((gateway, integration), digest, g)] | _ => [] end ++ returned y)
          | (_, w) => Sys None w (returned y)
          end
      | _, _, _ => y
      end
  | GOpen, None =>
      match store_open w with
      | (Some (Ok m), w) => Sys (Some m) w (returned y)
      | (_, w) => Sys None w (returned y)
      end
  | GKill, _ => Sys None (disk y) (returned y)
  | _, _ => y
  end.

Definition run (w : world) (es : list (op * list fault)) : system := fold_left step es (Sys None w []).

(** ** What the file holds *)

Definition size_ok (m : state) : Prop :=
  (length (to_vec (document m)) =? 0)%nat || (MAX_FILE_BYTES <? Z.of_nat (length (to_vec (document m)))) = false.
Definition old (w w' : world) : Prop := fs_ok w' ∧ path_bytes w' path = path_bytes w path.
Definition new (m : state) (w' : world) : Prop :=
  fs_ok w' ∧ path_bytes w' path = Some (to_vec (document m)) ∧ size_ok m.

Definition entry_ok (k : ScopeKey) (e : GenerationEntry) : Prop :=
  validated_identifier k.1 = Some k.1 ∧ validated_identifier k.2 = Some k.2 ∧
  digest_new (snapshot_digest e) = Some (snapshot_digest e) ∧ 0 < generation e.
Definition valid (m : state) : Prop := ∀ k e, m !! k = Some e → entry_ok k e.

(** The state a restart finds. *)
Definition stored (m : state) (w : world) : Prop :=
  (path_bytes w path = None ∧ m = ∅) ∨ (path_bytes w path = Some (to_vec (document m)) ∧ size_ok m).

Lemma stored_old m w w' : stored m w → old w w' → stored m w'.
Proof. unfold stored. by intros Hs [_ ->]. Qed.
Lemma stored_new m w : new m w → stored m w.
Proof. intros (_ & ? & ?). by right. Qed.

Section Persistence.
Hypothesis Hnames : path ≠ temporary.
#[local] Abbreviation scratch := [temporary].

Lemma others_unchanged w w' : others scratch w w' → old w w'.
Proof. intros [Hw Hp]. split; [done|]. apply Hp. by intros ->%list_elem_of_singleton. Qed.

Lemma wp_or_cleanup (m : io Outbox.PortErrorKind unit) (Q : res Outbox.PortErrorKind unit → world → Prop) C w0 w :
  wp m (fun r w' => match r with
     | Ok _ => Q (Ok tt) w'
     | Err e => others scratch w0 w' ∧ (∀ w'', others scratch w0 w'' → Q (Err e) w'' ∧ C w'')
     | Panic => False
     end) C w →
  wp (or_cleanup m) Q C w.
Proof.
  intros Hm. unfold or_cleanup. apply wp_bind, wp_attempt. eapply wp_mono; [exact Hm| |done].
  intros [[]|e|] w' Hw'; [by apply wp_ret| |done]. destruct Hw' as [Ho Hq].
  apply wp_bind, wp_attempt, wp_sys_remove; [intros fs _|intros fs _|intros fs]; [|apply wp_fail; by apply Hq|by apply Hq].
  destruct (w_names w' !! temporary); apply wp_fail; apply Hq; [|done].
  apply (others_removed _ _ _ (with_faults fs w')); [by left|done].
Qed.

(** At every point the file is the old one or the whole new one. *)
Lemma wp_persist m w :
  fs_ok w →
  wp (persist m)
    (fun r w' => match r with Ok _ => new m w' | Err _ => old w w' ∨ new m w' | Panic => False end)
    (fun w' => old w w' ∨ new m w') w.
Proof.
  intros Hw. unfold persist. destruct (_ || _) eqn:Hsize; [apply wp_fail; by left|].
  assert (temporary ∈ scratch) as Ht by by left.
  assert (∀ w', others scratch w w' → old w w' ∨ new m w') as Hold by (intros w' H'; left; by apply others_unchanged).
  apply wp_bind, wp_sys_create_new; [intros fs _|intros fs _; by left|intros fs; by left].
  destruct (w_names w !! temporary); [by left|].
  pose proof (owns_created temporary (with_faults fs w) Hw) as Hb1.
  pose proof (others_created _ temporary w (with_faults fs w) Ht (others_refl _ _ Hw)) as Hs1.
  change (w_next (with_faults fs w)) with (w_next w) in Hb1. set (w2 := fresh_file _ _) in *. clearbody w2.
  assert (∀ bs fs', others scratch w (put_bytes (w_next w) 0 bs (with_faults fs' w2))) as Hput
    by (intros bs fs'; by apply (others_put _ temporary _ [] _ _ _ (with_faults fs' w2))).
  apply wp_bind, (wp_or_cleanup _ _ _ w), wp_bind, wp_sys_write; [intros fs1 _|intros k fs1 _; by auto|intros k fs1; by auto].
  specialize (Hput (to_vec (document m)) fs1). pose proof (owns_put _ _ _ 0 (to_vec (document m)) (with_faults fs1 w2) Hb1) as Hb2.
  cbn [write_bytes take app] in Hb2. rewrite drop_nil, app_nil_r in Hb2. set (w3 := put_bytes _ _ _ _) in *. clearbody w3.
  apply wp_sys_nop; [intros fs2 _|intros fs2 _; by auto|intros fs2; by apply Hold].
  apply wp_bind, (wp_or_cleanup _ _ _ w), wp_sys_rename; [intros fs3 _|intros fs3 _; by auto|intros fs3; by apply Hold].
  cbn [w_names with_faults]. rewrite (proj1 Hb2).
  assert (∀ fs4, new m (with_names (<[path := w_next w]> (delete temporary (w_names w3))) (with_faults fs4 w3))) as Hnew.
  { intros fs4. destruct (installed_renamed scratch temporary path (w_next w) (to_vec (document m)) w (with_faults fs4 w3))
      as (? & ? & _); [done|done|done|done|]. by split_and!. }
  apply wp_sys_nop; [intros fs4 _; apply Hnew|intros fs4 _; right; apply Hnew|intros fs4; right; apply Hnew].
Qed.

(** ** Reading the file back *)

Lemma load_entries_document l m :
  NoDup l.*1 → (∀ k e, (k, e) ∈ l → entry_ok k e ∧ m !! k = None) →
  load_entries (map file_entry l) m = Ok (list_to_map l ∪ m).
Proof.
  revert m. induction l as [|[k e] l IH]; intros m Hnd Hok; [cbn; by rewrite (left_id_L ∅ (∪))|].
  rewrite fmap_cons in Hnd. apply NoDup_cons in Hnd as [Hk Hnd]. destruct (Hok k e) as [(V1 & V2 & V3 & V4) Hnone]; [by left|].
  destruct k as [g i], e as [n d]. cbn [map file_entry load_entries fst snd fe_gateway_id fe_integration_id fe_generation fe_snapshot_digest generation snapshot_digest] in *.
  rewrite V1, V2, V3. unfold checked_generation, generation_new. rewrite (proj2 (Z.eqb_neq n 0)) by lia. cbn. rewrite Hnone.
  rewrite IH; [|done|].
  - f_equal. apply map_eq. intros j. rewrite !lookup_union. destruct (decide (j = (g, i))) as [->|Hj].
    + rewrite !lookup_insert_eq. assert ((list_to_map l : state) !! (g, i) = None) as -> by (by apply not_elem_of_list_to_map_1).
      rewrite Hnone. done.
    + rewrite !lookup_insert_ne by done. done.
  - intros k e Hin. destruct (Hok k e) as [H1 H2]; [by right|]. split; [done|]. rewrite lookup_insert_ne; [done|].
    intros E. apply Hk. rewrite E. apply list_elem_of_fmap. by exists (k, e).
Qed.

Lemma load_document m : valid m → load_entries (entries (document m)) ∅ = Ok m.
Proof.
  intros Hv. cbn [entries document]. assert (merge_sort key_le (map_to_list m) ≡ₚ map_to_list m) as Hp by apply merge_sort_Permutation.
  assert (NoDup (merge_sort key_le (map_to_list m)).*1) as Hnd by (rewrite Hp; apply NoDup_fst_map_to_list).
  rewrite load_entries_document.
  - f_equal. rewrite (right_id_L ∅ (∪)). rewrite (list_to_map_proper _ _ Hnd Hp).
    apply list_to_map_to_list.
  - done.
  - intros k e. rewrite Hp, elem_of_map_to_list. intros Hk. split; [by apply Hv|done].
Qed.

Section Codec.
Hypothesis Hcodec : ∀ d, from_slice (to_vec d) = Some d.

(** What opening does to the disk, and what it finds. *)
Lemma wp_store_open m w :
  stored m w → valid m → fs_ok w →
  wp store_open (fun r w' => old w w' ∧ ∀ m', r = Ok m' → m' = m) (old w) w.
Proof.
  intros Hs Hv Hw. unfold store_open.
  apply wp_bind, wp_sys_nop; [intros fs _|by intros fs _|by intros fs].
  apply wp_bind, wp_sys_nop; [intros fs1 _|by intros fs1 _|by intros fs1].
  apply wp_bind, wp_sys_nop; [intros fs2 _|by intros fs2 _|by intros fs2].
  assert (∀ w', old w w' → wp load (fun r w' => old w w' ∧ ∀ m', r = Ok m' → m' = m) (old w) w') as Hload.
  { intros w' Ho. pose proof (stored_old _ _ _ Hs Ho) as Hs'. unfold load.
    apply wp_bind, wp_attempt, wp_sys_open; [intros fs3 _|intros fs3 _; apply wp_fail; by split|by intros fs3].
    cbn [w_names with_faults]. unfold stored, path_bytes in Hs'. destruct (w_names w' !! path) as [ino|] eqn:Hino.
    2: { destruct Hs' as [[_ ->]|[? _]]; [|done]. apply wp_ret. split; [done|]. by intros m' [= <-]. }
    destruct Hs' as [[? _]|[[= Hb] _]]; [done|].
    apply wp_bind, wp_sys_read; [intros fs4 _|by intros fs4 _|by intros fs4].
    rewrite file_bytes_faults, Hb. destruct (_ || _); [by apply wp_fail|].
    apply wp_bind, wp_sys_read; [intros fs5 _|by intros fs5 _|by intros fs5].
    rewrite !file_bytes_faults, Hb, Hcodec. apply wp_bind, wp_lift. cbn [ok_or].
    destruct (_ || _); [by apply wp_fail|]. apply wp_lift. rewrite load_document by done. split; [done|]. by intros m' [= <-]. }
  apply wp_bind, wp_attempt, wp_sys_remove; [intros fs3 _|intros fs3 _; apply wp_fail; by split|by intros fs3].
  cbn [w_names with_faults]. destruct (w_names w !! temporary); apply Hload; [|done].
  apply others_unchanged. apply (others_removed _ _ _ (with_faults fs3 w)); [by left|done].
Qed.

(** ** The invariant *)

Abbreviation answer := (ScopeKey * text * Z)%type.

Definition covers (m : state) (x : answer) : Prop :=
  ∃ e, m !! x.1.1 = Some e ∧ x.2 ≤ generation e ∧ (x.2 = generation e → snapshot_digest e = x.1.2).
(** The disk is ahead of the memory where a failed reservation left its entry. *)
Definition coupled (m d : state) : Prop :=
  ∀ k e, m !! k = Some e → ∃ e', d !! k = Some e' ∧ (e' = e ∨ generation e < generation e').
(** A later answer for the same scope: not smaller, and equal only for the same digest. *)
Definition later (x y : answer) : Prop := x.1.1 = y.1.1 → y.2 ≤ x.2 ∧ (y.2 = x.2 → y.1.2 = x.1.2).

Record inv (y : system) : Prop := {
  inv_fs : fs_ok (disk y);
  inv_sorted : StronglySorted later (returned y);
  inv_disk : ∃ d, stored d (disk y) ∧ valid d ∧ Forall (covers d) (returned y) ∧
    ∀ m, mem y = Some m → valid m ∧ Forall (covers m) (returned y) ∧ coupled m d }.

(** The map of a reservation that writes. *)
Definition advance (m : state) (k : ScopeKey) (digest : text) (g : Z) : Prop :=
  0 < g ∧ ∀ e, m !! k = Some e → generation e < g.

Lemma advance_covers m k digest g x :
  advance m k digest g → covers m x → covers (<[k := Entry g digest]> m) x.
Proof.
  intros [_ Hg] (e & He & Hle & Heq). unfold covers. destruct (decide (x.1.1 = k)) as [Hx|Hx].
  - rewrite Hx in *. rewrite lookup_insert_eq. specialize (Hg e He). eexists. split; [done|]. cbn. split; [lia|]. lia.
  - rewrite lookup_insert_ne by done. by exists e.
Qed.

Lemma advance_coupled m k digest g : advance m k digest g → coupled m (<[k := Entry g digest]> m).
Proof.
  intros [_ Hg] j e He. destruct (decide (j = k)) as [->|Hj].
  - rewrite lookup_insert_eq. eexists. split; [done|]. right. cbn. by apply Hg.
  - rewrite lookup_insert_ne by done. exists e. by split; [|left].
Qed.

Lemma coupled_refl m : coupled m m.
Proof. intros k e He. exists e. by split; [|left]. Qed.

Lemma covers_coupled m d x : coupled m d → covers m x → covers d x.
Proof.
  intros Hc (e & He & Hle & Heq). destruct (Hc _ _ He) as (e' & He' & [->|Hlt]); [by exists e|].
  exists e'. split_and!; [done|lia|]. lia.
Qed.

Lemma covers_later m x k digest g e :
  covers m x → m !! k = Some e → generation e < g ∨ generation e = g ∧ snapshot_digest e = digest → later (k, digest, g) x.
Proof.
  intros (e' & He' & Hle & Heq) He Hg. unfold later. cbn. intros Hk. rewrite <- Hk, He in He'. injection He' as ->.
  split; [lia|]. intros E. destruct Hg as [Hg|[Hg Hd]]; [lia|]. rewrite <- Hd. symmetry. apply Heq. lia.
Qed.

Lemma valid_insert m k digest g :
  valid m → entry_ok k (Entry g digest) → valid (<[k := Entry g digest]> m).
Proof. intros Hv Hk j e [[<- <-]|[_ He]]%lookup_insert_Some; [done|by apply Hv]. Qed.

Section Reserve.
Context (y : system) (m d : state) (k : ScopeKey) (digest : text) (g : Z) (w : world).
Hypothesis Hsorted : StronglySorted later (returned y).
Hypothesis Hd : stored d w ∧ valid d ∧ Forall (covers d) (returned y).
Hypothesis Hm : valid m ∧ Forall (covers m) (returned y) ∧ coupled m d.
Hypothesis Hadv : advance m k digest g.
Hypothesis Hok : entry_ok k (Entry g digest).
#[local] Abbreviation next := (<[k := Entry g digest]> m).

(** The reservation failed or the process died. *)
Lemma unreturned w' mem' :
  old w w' ∨ new next w' → mem' = None ∨ mem' = Some m → inv (Sys mem' w' (returned y)).
Proof.
  intros Hw Hmem. destruct Hd as (D1 & D2 & D3), Hm as (M1 & M2 & M3). split; cbn [disk mem returned].
  - destruct Hw as [[? _]|[? _]]; done.
  - done.
  - destruct Hw as [Hw|Hw].
    + exists d. split_and!; [by eapply stored_old|done|done|]. intros m' Hm'. destruct Hmem as [->| ->]; [done|]. by injection Hm' as <-.
    + exists next. split_and!; [by apply stored_new|by apply valid_insert| |].
      * eapply Forall_impl; [exact M2|]. intros x. by apply advance_covers.
      * intros m' Hm'. destruct Hmem as [->| ->]; [done|]. injection Hm' as <-. split_and!; [done|done|by apply advance_coupled].
Qed.

Lemma reserved w' : new next w' → inv (Sys (Some next) w' ((k, digest, g) :: returned y)).
Proof.
  intros Hw. destruct Hm as (M1 & M2 & M3). assert (Forall (covers next) ((k, digest, g) :: returned y)) as Hc.
  { constructor; [|eapply Forall_impl; [exact M2|]; intros x; by apply advance_covers].
    exists (Entry g digest). cbn. rewrite lookup_insert_eq. split_and!; [done|lia|done]. }
  split; cbn [disk mem returned].
  - apply Hw.
  - constructor; [done|]. eapply Forall_impl; [exact M2|]. intros x Hx. pose proof Hx as (e & He & _).
    unfold later. cbn. intros Hk. rewrite <- Hk in He. eapply covers_later; [exact Hx|exact He| |exact Hk].
    left. by apply Hadv.
  - exists next. split_and!; [by apply stored_new|by apply valid_insert|done|]. intros m' [= <-].
    split_and!; [by apply valid_insert|done|apply coupled_refl].
Qed.
End Reserve.

Lemma validated_same s s' : validated_identifier s = Some s' → s' = s.
Proof. unfold validated_identifier. case_match; [done|]. by intros [= ->]. Qed.
Lemma digest_same s s' : digest_new s = Some s' → s' = s.
Proof. unfold digest_new. case_match; [|done]. by intros [= ->]. Qed.

Lemma open_step y fs : inv y → mem y = None → inv (step y (GOpen, fs)).
Proof.
  intros Hi Hm. cbn [step]. rewrite Hm. destruct (inv_disk _ Hi) as (d & D1 & D2 & D3 & _).
  pose proof (wp_store_open d (with_faults fs (disk y)) D1 D2 (inv_fs _ Hi)) as Hw. unfold wp in Hw.
  assert (∀ w' m', old (with_faults fs (disk y)) w' → m' = None ∨ m' = Some d → inv (Sys m' w' (returned y))) as Hend.
  { intros w' m' Ho Hm'. split; cbn [disk mem returned]; [apply Ho|apply Hi|]. exists d.
    split_and!; [by eapply stored_old|done|done|]. intros m Hmem. destruct Hm' as [->| ->]; [done|]. injection Hmem as <-.
    split_and!; [done|done|apply coupled_refl]. }
  destruct (store_open (with_faults fs (disk y))) as [[[m|e|]|] w']; [|apply Hend; [apply Hw|by left]..|apply Hend; [apply Hw|by left]].
  destruct Hw as [Ho Hw]. rewrite (Hw m eq_refl). apply Hend; [done|by right].
Qed.

Lemma reserve_step y m k digest fs :
  inv y → mem y = Some m → validated_identifier k.1 = Some k.1 → validated_identifier k.2 = Some k.2 →
  digest_new digest = Some digest →
  inv (match reserve_generation k digest m (with_faults fs (disk y)) with
       | (Some (Ok (r, m)), w) => Sys (Some m) w (match r with Ok g => [(k, digest, g)] | _ => [] end ++ returned y)
       | (_, w) => Sys None w (returned y)
       end).
Proof.
  intros Hi Hmem V1 V2 V3. destruct (inv_disk _ Hi) as (d & D1 & D2 & D3 & Hm). specialize (Hm m Hmem).
  assert (∀ g, advance m k digest g →
    inv (match (written ← attempt (persist (<[k := Entry g digest]> m));
                match written with
                | Ok _ => mret (checked_generation g, <[k := Entry g digest]> m)
                | Err e => mret (Err e, m)
                | Panic => lift Panic
                end) (with_faults fs (disk y)) with
         | (Some (Ok (r, m)), w) => Sys (Some m) w (match r with Ok g => [(k, digest, g)] | _ => [] end ++ returned y)
         | (_, w) => Sys None w (returned y)
         end)) as Hwrite.
  { intros g Hadv. pose proof Hadv as [Hpos _]. assert (entry_ok k (Entry g digest)) as Hok by done.
    pose proof (wp_persist (<[k := Entry g digest]> m) (with_faults fs (disk y)) (inv_fs _ Hi)) as Hw. unfold wp in Hw.
    pose proof (unreturned y m d k digest g (with_faults fs (disk y)) (inv_sorted _ Hi) (conj D1 (conj D2 D3)) Hm Hadv Hok) as Hun.
    pose proof (reserved y m d k digest g (inv_sorted _ Hi) Hm Hadv Hok) as Hre.
    rewrite io_bind_run. unfold attempt. destruct (persist _ _) as [[[[]|e|]|] w']; cbn; [|apply Hun; [done|by right]|done|apply Hun; [done|by left]].
    unfold checked_generation, generation_new. rewrite (proj2 (Z.eqb_neq g 0)) by lia. by apply Hre. }
  unfold reserve_generation. destruct (m !! k) as [e|] eqn:Hk.
  - destruct Hm as (M1 & M2 & M3). pose proof (M1 _ _ Hk) as (_ & _ & _ & Hpos). case_bool_decide as Hdig.
    + cbn. unfold checked_generation, generation_new. rewrite (proj2 (Z.eqb_neq (generation e) 0)) by lia. cbn.
      assert (covers m (k, digest, generation e)) as Hself by (exists e; cbn; split_and!; [done|lia|done]).
      split; cbn [disk mem returned]; [apply Hi| |].
      * constructor; [apply Hi|]. eapply Forall_impl; [exact M2|]. intros x Hx. eapply covers_later; [done|done|]. by right.
      * exists d. split_and!; [done|done| |].
        -- constructor; [by eapply covers_coupled|done].
        -- intros m' [= <-]. split_and!; [done|by constructor|done].
    + unfold checked_add. destruct (_ <? _); cbn.
      * apply Hwrite. split; [lia|]. intros e' He'. rewrite Hk in He'. injection He' as <-. lia.
      * split; cbn [disk mem returned]; [apply Hi|apply Hi|]. exists d. split_and!; [done|done|done|]. by intros m' [= <-].
  - apply Hwrite. split; [lia|]. intros e' He'. rewrite Hk in He'. done.
Qed.

Lemma generations_step_inv y e : inv y → inv (step y e).
Proof.
  intros Hi. destruct e as [[gateway integration digest| |] fs]; destruct (mem y) as [m|] eqn:Hm; cbn [step]; rewrite ?Hm; try done.
  - destruct (validated_identifier gateway) as [g|] eqn:E1; [|done]. destruct (validated_identifier integration) as [i|] eqn:E2; [|done].
    destruct (digest_new digest) as [d|] eqn:E3; [|done].
    apply validated_same in E1 as H1. apply validated_same in E2 as H2. apply digest_same in E3 as H3. subst g i d.
    by apply (reserve_step y m (gateway, integration) digest fs Hi Hm).
  - pose proof (open_step y fs Hi Hm) as Ho. cbn [step] in Ho. by rewrite Hm in Ho.
  - split; cbn [disk mem returned]; [apply Hi|apply Hi|]. destruct (inv_disk _ Hi) as (d & ? & ? & ? & _). by exists d.
  - split; cbn [disk mem returned]; [apply Hi|apply Hi|]. destruct (inv_disk _ Hi) as (d & ? & ? & ? & _). by exists d.
Qed.

Lemma generations_inv w es : fs_ok w → path_bytes w path = None → inv (run w es).
Proof.
  intros Hw Hp. unfold run. induction es as [|e es IH] using rev_ind.
  - split; cbn; [done|constructor|]. exists ∅. split_and!; [by left|by intros k e He; rewrite lookup_empty in He|constructor|done].
  - rewrite fold_left_app. cbn [fold_left]. by apply generations_step_inv.
Qed.

(** A stored state always opens. *)
Hypothesis Hdigests : ∀ d, (∀ e, e ∈ entries d → digest_new (fe_snapshot_digest e) = Some (fe_snapshot_digest e)) →
  64 * Z.of_nat (length (entries d)) ≤ Z.of_nat (length (to_vec d)).

Lemma stored_entries m : valid m → size_ok m → Z.of_nat (length (entries (document m))) ≤ MAX_ENTRIES.
Proof.
  intros Hv Hs. assert (64 * Z.of_nat (length (entries (document m))) ≤ Z.of_nat (length (to_vec (document m)))) as Hd.
  { apply Hdigests. cbn [entries document]. intros e Hin. apply list_elem_of_In, in_map_iff in Hin as ([k x] & <- & Hin).
    apply list_elem_of_In in Hin. rewrite (merge_sort_Permutation key_le), elem_of_map_to_list in Hin. by apply Hv in Hin as (_ & _ & ? & _). }
  unfold size_ok in Hs. apply orb_false_elim in Hs as [_ Hs%Z.ltb_ge]. unfold MAX_FILE_BYTES, MAX_ENTRIES in *. lia.
Qed.

Lemma load_stored m w :
  stored m w → valid m → w_faults w = [] → load w = (Some (Ok m), w).
Proof.
  intros Hs Hv Hf. unfold load. unfold stored, path_bytes in Hs. destruct (w_names w !! path) as [ino|] eqn:Hino.
  - destruct Hs as [[? _]|[[= Hb] Hs]]; [done|]. eapply run_bind; [unfold attempt; by rewrite (run_open _ _ _ ino)|]. cbv beta iota.
    eapply run_bind; [by apply run_syscall|]. rewrite Hb. pose proof (stored_entries _ Hv Hs) as Hn. unfold size_ok in Hs. rewrite Hs.
    eapply run_bind; [by apply run_syscall|]. rewrite Hb, Hcodec. eapply run_bind; [done|].
    assert (negb (bool_decide (schema (document m) = FILE_SCHEMA)) || (MAX_ENTRIES <? Z.of_nat (length (entries (document m)))) = false) as ->.
    { rewrite bool_decide_true by done. apply Z.ltb_ge. done. }
    by rewrite load_document.
  - destruct Hs as [[_ ->]|[? _]]; [|done]. unfold attempt, sys_open, syscall. rewrite io_bind_run, Hf, Hino. done.
Qed.

Lemma reopens m w :
  stored m w → valid m → fs_ok w → ∃ w', store_open (with_faults [] w) = (Some (Ok m), w').
Proof.
  intros Hs Hv Hw. assert (∀ w', old w w' → w_faults w' = [] → load w' = (Some (Ok m), w')) as Hload.
  { intros w' Ho Hf. apply load_stored; [by eapply stored_old|done|done]. }
  destruct (w_names w !! temporary) as [i|] eqn:Ht; eexists; unfold store_open;
    (eapply run_bind; [by apply run_syscall|]); (eapply run_bind; [by apply run_syscall|]); (eapply run_bind; [by apply run_syscall|]).
  - eapply run_bind; [unfold attempt, sys_remove, syscall; cbn; rewrite Ht; done|]. cbv beta iota. apply Hload; [|done].
    apply others_unchanged. apply (others_removed _ _ _ (with_faults [] w)); [by left|done].
  - eapply run_bind; [unfold attempt, sys_remove, syscall; cbn; rewrite Ht; done|]. cbv beta iota. by apply Hload.
Qed.
End Codec.

(** C19. A generation number means one topology.  Through any history of reservations,
    restarts, failing system calls and deaths of the process, the generations returned
    for one integration never decrease, two equal ones were returned for the same
    digest, and a fault-free restart succeeds and finds, for everything that was ever
    returned, that generation with its digest or a later one. *)
Theorem generation_identifies (w : world) (es : list (op * list fault)) :
  (∀ d, from_slice (to_vec d) = Some d) →
  (∀ d, (∀ e, e ∈ entries d → digest_new (fe_snapshot_digest e) = Some (fe_snapshot_digest e)) →
     64 * Z.of_nat (length (entries d)) ≤ Z.of_nat (length (to_vec d))) →
  fs_ok w → path_bytes w path = None →
  let y := run w es in
  StronglySorted later (returned y) ∧
  ∃ m w', store_open (with_faults [] (disk y)) = (Some (Ok m), w') ∧ ∀ x, x ∈ returned y → covers m x.
Proof.
  intros Hcodec Hdigests Hw Hp y. pose proof (generations_inv Hcodec w es Hw Hp) as Hi. split; [apply Hi|].
  destruct (inv_disk _ Hi) as (d & D1 & D2 & D3 & _). exists d.
  destruct (reopens Hcodec Hdigests d (disk y) D1 D2 (inv_fs _ Hi)) as (w' & Ho). exists w'. split; [done|]. by apply Forall_forall.
Qed.
End Persistence.
End Store.

(** ** A sample history *)
Module Sample.

(** One number per field, and the digests' length as padding. *)
Definition entry_to (e : FileEntry) : list Z :=
  [Z.pos (encode (fe_gateway_id e)); Z.pos (encode (fe_integration_id e)); fe_generation e; Z.pos (encode (fe_snapshot_digest e))].
Definition to_vec (d : FileDocument) : list Z :=
  Z.pos (encode (schema d)) :: Z.of_nat (length (entries d)) ::
  concat (map entry_to (entries d)) ++ replicate (64 * length (entries d)) 0.
Fixpoint entries_from (n : nat) (l : list Z) : option (list FileEntry) :=
  match n, l with
  | O, _ => Some []
  | S n, Z.pos g :: Z.pos i :: x :: Z.pos d :: l =>
      g ← decode g; i ← decode i; d ← decode d; es ← entries_from n l; Some (FEntry g i x d :: es)
  | _, _ => None
  end.
Definition from_slice (l : list Z) : option FileDocument :=
  match l with
  | Z.pos s :: n :: l => s ← decode s; es ← entries_from (Z.to_nat n) l; Some (Document s es)
  | _ => None
  end.

Lemma entries_from_to l rest : entries_from (length l) (concat (map entry_to l) ++ rest) = Some l.
Proof.
  induction l as [|e l IH]; [done|]. cbn [map concat length]. unfold entry_to at 1. cbn [app entries_from].
  rewrite !decode_encode. cbn. rewrite IH. by destruct e.
Qed.
Lemma generations_codec d : from_slice (to_vec d) = Some d.
Proof. unfold to_vec, from_slice. rewrite decode_encode, Nat2Z.id. cbn -[entries_from]. rewrite entries_from_to. by destruct d. Qed.
Lemma generations_digests d :
  (∀ e, e ∈ entries d → digest_new (fe_snapshot_digest e) = Some (fe_snapshot_digest e)) →
  64 * Z.of_nat (length (entries d)) ≤ Z.of_nat (length (to_vec d)).
Proof. intros _. unfold to_vec. cbn [length]. rewrite length_app, length_replicate. lia. Qed.

Definition gateway : text := [103].
Definition plant : text := [112].
Definition digest (c : Z) : text := digest_prefix ++ repeat c 64.

(** Reserve, repeat, change the digest while the process dies after the rename, and ask
    again for the first digest after the restart: it gets a generation of its own. *)
Definition history : list (op * list fault) :=
  [(GOpen, []); (GReserve gateway plant (digest 97), []); (GReserve gateway plant (digest 97), []);
   (GReserve gateway plant (digest 98), [FOk; FOk; FOk; FOk; FCrash 0]); (GOpen, []);
   (GReserve gateway plant (digest 97), []); (GReserve gateway plant (digest 98), [FOk; FErr 3]);
   (GReserve gateway plant (digest 98), [])].

Definition empty_disk : world := World ∅ ∅ 0 [].
Lemma generations_empty_disk : fs_ok empty_disk.
Proof. split; intros ? ? H; cbn in H; rewrite lookup_empty in H; done. Qed.

#[local] Abbreviation final := (run to_vec from_slice "generations.json" "generations.json.replace.tmp" empty_disk history).
Example generations_returned : map snd (returned final) = [4; 3; 1; 1].
Proof. vm_compute. reflexivity. Qed.

Lemma generations_names : "generations.json" ≠ "generations.json.replace.tmp".
Proof. done. Qed.
Lemma generations_no_file : path_bytes empty_disk "generations.json" = None.
Proof. done. Qed.

Lemma generation_identifies_witness :
  StronglySorted later (returned final) ∧
  ∃ m w', store_open from_slice "generations.json" "generations.json.replace.tmp" (with_faults [] (disk final)) = (Some (Ok m), w') ∧
    ∀ x, x ∈ returned final → covers m x.
Proof.
  exact (generation_identifies to_vec from_slice "generations.json" "generations.json.replace.tmp" generations_names empty_disk history
    generations_codec generations_digests generations_empty_disk generations_no_file).
Defined.
End Sample.
End Generations.
