(* ===== verification/Enrollment.v ===== *)
(** * Gateway enrollment and its identity store
    (crates/aether-application/src/gateway_enrollment.rs,
    libs/aether-store-local/src/{gateway_identity,gateway_identity_fs}.rs,
    crates/aether-ports/src/gateway_enrollment.rs)

    A gateway generates a key pair, persists it, records that a claim is pending,
    claims its public key in the cloud and records the receipt.  Several processes may
    run the use case at once: each call of the store is one step under its file lock,
    and between two steps other processes run, calls fail and processes die.  The URL
    and UUID libraries, Base64, SHA-256, Ed25519 and the JSON codec are parameters,
    some with their round-trip laws; the key generator, the clock and the cloud answer
    arbitrarily.  Owners, modes and links of files are calls that may fail. *)

From stdpp Require Import base tactics numbers list gmap strings pretty.
From S2P Require Import Prelude Text Fs Replace.
#[local] Open Scope Z_scope.

Module Enrollment.
Import Fs Replace.

(** ** Identities (aether-ports/src/gateway_enrollment.rs) *)

Definition MAX_CLOUD_ENROLLMENT_REVISION : Z := 9007199254740991.

Inductive CloudEndpointPolicy := Production | AllowLoopbackHttp.
Inductive TargetError := InvalidCloudOrigin | InsecureCloudOrigin | InvalidTenantId | InvalidProjectId | InvalidGatewayId.
Inductive GatewayIdentityError :=
| GenerationFailed | Unavailable | InsecureStorage | CorruptState | Conflict | InvalidTransition | InvalidState.
Inductive CloudEnrollmentClientError := InvalidConfiguration | Rejected | CloudConflict | InvalidResponse | Timeout | CloudUnavailable.

(** A UUID is its 128-bit value. *)
Record GatewayEnrollmentTarget := Target { cloud_origin : string; tenant_id : Z; project_id : Z; gateway_id : Z }.
#[global] Instance GatewayEnrollmentTarget_eq_dec : EqDecision GatewayEnrollmentTarget.
Proof. solve_decision. Defined.

Inductive GatewayEnrollmentPhase := KeyGenerated | ClaimPending (key : Z) | Claimed (key revision : Z).
(** The fingerprint is a function of the public key and has no field. *)
Record ConfiguredGatewayIdentity := Identity {
  target : GatewayEnrollmentTarget; public_key : list Z; phase : GatewayEnrollmentPhase }.

Record CloudEnrollmentClaim := Claim {
  c_target : GatewayEnrollmentTarget; c_public_key : list Z; c_idempotency_key : Z; c_enrollment_token : string }.
Record CloudEnrollmentReceipt := Receipt { r_gateway_id : string; r_revision : Z }.

(** What the URL parser reports. *)
Record Url := MkUrl {
  cannot_be_a_base : bool; username : string; password : option string; url_path : string; query : option string;
  fragment : option string; host_str : option string; scheme : string; origin : option string }.

Definition newline : string := String (Ascii.ascii_of_nat 10) "".

Fixpoint strip_prefix (p s : string) : option string :=
  match p, s with
  | "", _ => Some s
  | String a p, String b s => if Ascii.eqb a b then strip_prefix p s else None
  | _, _ => None
  end.
Definition is_ascii_digit (c : Ascii.ascii) : bool :=
  let n := Ascii.nat_of_ascii c in (48 <=? n)%nat && (n <=? 57)%nat.
Fixpoint all_digits (s : string) : bool :=
  match s with "" => true | String c s => is_ascii_digit c && all_digits s end.
Fixpoint strip_slash (s : string) : string :=
  match s with
  | "" => ""
  | String c "" => if Ascii.eqb c (Ascii.ascii_of_nat 47) then "" else s
  | String c s => String c (strip_slash s)
  end.

Definition loopback_authority (authority host : string) : bool :=
  bool_decide (authority = host) ||
  match strip_prefix host authority with
  | Some suffix => match strip_prefix ":" suffix with
                   | Some port => negb (bool_decide (port = "")) && all_digits port
                   | None => false
                   end
  | None => false
  end.
Definition has_exact_loopback_http_authority (input : string) : bool :=
  match strip_prefix "http://" input with
  | Some authority => existsb (loopback_authority (strip_slash authority)) ["localhost"; "127.0.0.1"]
  | None => false
  end.

Section Enrollment.
Context (url_parse : string → option Url) (uuid_parse : string → option Z) (uuid_to_string : Z → string).
Context (uuid_v5 : string → Z) (fingerprint : list Z → string) (verifying_key : list Z → list Z).
Context (base64_encode : list Z → string) (base64_decode : string → option (list Z)).

Definition normalize_cloud_origin (input : string) (policy : CloudEndpointPolicy) : res TargetError string :=
  parsed ← ok_or (url_parse input) InvalidCloudOrigin;
  if cannot_be_a_base parsed || negb (bool_decide (username parsed = "")) || bool_decide (is_Some (password parsed))
     || negb (bool_decide (url_path parsed = "/")) || bool_decide (is_Some (query parsed)) || bool_decide (is_Some (fragment parsed))
  then Err InvalidCloudOrigin
  else
    _ ← ok_or (host_str parsed) InvalidCloudOrigin;
    _ ← (if bool_decide (scheme parsed = "https") then Ok tt
         else if bool_decide (scheme parsed = "http") then
           match policy with
           | AllowLoopbackHttp => if has_exact_loopback_http_authority input then Ok tt else Err InsecureCloudOrigin
           | Production => Err InsecureCloudOrigin
           end
         else Err InvalidCloudOrigin);
    ok_or (origin parsed) InvalidCloudOrigin.

Definition canonical_non_nil_uuid (input : string) : option Z :=
  u ← uuid_parse input;
  if negb (u =? 0) && bool_decide (uuid_to_string u = input) then Some u else None.

Definition target_new (origin tenant project gateway : string) (policy : CloudEndpointPolicy)
    : res TargetError GatewayEnrollmentTarget :=
  origin ← normalize_cloud_origin origin policy;
  tenant ← ok_or (canonical_non_nil_uuid tenant) InvalidTenantId;
  project ← ok_or (canonical_non_nil_uuid project) InvalidProjectId;
  gateway ← ok_or (canonical_non_nil_uuid gateway) InvalidGatewayId;
  Ok (Target origin tenant project gateway).

Definition idempotency_key (i : ConfiguredGatewayIdentity) : option Z :=
  match phase i with KeyGenerated => None | ClaimPending k | Claimed k _ => Some k end.

Definition stable_key (t : GatewayEnrollmentTarget) (pk : list Z) : Z :=
  uuid_v5 ("aether.cloud.gateway-enrollment-claim.v1" +:+ newline +:+ cloud_origin t +:+ newline
    +:+ uuid_to_string (tenant_id t) +:+ newline +:+ uuid_to_string (project_id t) +:+ newline
    +:+ uuid_to_string (gateway_id t) +:+ newline +:+ fingerprint pk).
Definition stable_idempotency_key (i : ConfiguredGatewayIdentity) : Z := stable_key (target i) (public_key i).

Definition validated_idempotency_key (i : ConfiguredGatewayIdentity) : res GatewayIdentityError Z :=
  let expected := stable_idempotency_key i in
  match idempotency_key i with
  | Some stored => if stored =? expected then Ok expected else Err InvalidState
  | None => Ok expected
  end.

Definition key_generated (t : GatewayEnrollmentTarget) (pk : list Z) : ConfiguredGatewayIdentity := Identity t pk KeyGenerated.
Definition claim_pending (t : GatewayEnrollmentTarget) (pk : list Z) (key : Z) : res GatewayIdentityError ConfiguredGatewayIdentity :=
  let i := Identity t pk (ClaimPending key) in
  _ ← validated_idempotency_key i;
  Ok i.
Definition revision_ok (revision : Z) : bool := (1 <=? revision) && (revision <=? MAX_CLOUD_ENROLLMENT_REVISION).
Definition claimed (t : GatewayEnrollmentTarget) (pk : list Z) (key revision : Z) : res GatewayIdentityError ConfiguredGatewayIdentity :=
  if negb (revision_ok revision) then Err InvalidState
  else
    let i := Identity t pk (Claimed key revision) in
    _ ← validated_idempotency_key i;
    Ok i.

(** ** The stored document (gateway_identity.rs) *)

Definition STATE_SCHEMA : string := "aether.edge.gateway-enrollment-state.v1".

Inductive StoredPhase :=
| SKeyGenerated (recorded_at_ms : Z)
| SClaimPending (idempotency_key : string) (recorded_at_ms : Z)
| SClaimed (idempotency_key : string) (revision recorded_at_ms : Z).
Record StoredState := Stored {
  s_schema : string; s_cloud_origin : string; s_tenant_id : string; s_project_id : string; s_gateway_id : string;
  s_public_key : string; s_fingerprint : string; s_phase : StoredPhase }.

Context (to_vec : StoredState → list Z) (from_slice : list Z → option StoredState).

Definition stored_state (i : ConfiguredGatewayIdentity) (p : StoredPhase) : StoredState :=
  let t := target i in
  Stored STATE_SCHEMA (cloud_origin t) (uuid_to_string (tenant_id t)) (uuid_to_string (project_id t))
    (uuid_to_string (gateway_id t)) (base64_encode (public_key i)) (fingerprint (public_key i)) p.
Definition serialize_state (i : ConfiguredGatewayIdentity) (p : StoredPhase) : list Z := to_vec (stored_state i p).

Definition decode_public_key (s : string) : res GatewayIdentityError (list Z) :=
  raw ← ok_or (base64_decode s) CorruptState;
  if negb (length raw =? 32)%nat || negb (bool_decide (base64_encode raw = s)) then Err CorruptState else Ok raw.
Definition decode_idempotency_key (s : string) : res GatewayIdentityError Z :=
  u ← ok_or (uuid_parse s) CorruptState;
  if negb (bool_decide (uuid_to_string u = s)) || (u =? 0) then Err CorruptState else Ok u.
Definition corrupt {E A} (r : res E A) : res GatewayIdentityError A :=
  match r with Ok a => Ok a | Err _ => Err CorruptState | Panic => Panic end.
Definition endpoint_policy (origin : string) : CloudEndpointPolicy :=
  match strip_prefix "http://" origin with Some _ => AllowLoopbackHttp | None => Production end.

Definition decode_stored_state (bytes : list Z) : res GatewayIdentityError ConfiguredGatewayIdentity :=
  d ← ok_or (from_slice bytes) CorruptState;
  if negb (bool_decide (s_schema d = STATE_SCHEMA)) then Err CorruptState
  else
    t ← corrupt (target_new (s_cloud_origin d) (s_tenant_id d) (s_project_id d) (s_gateway_id d) (endpoint_policy (s_cloud_origin d)));
    if negb (bool_decide (cloud_origin t = s_cloud_origin d)) then Err CorruptState
    else
      pk ← decode_public_key (s_public_key d);
      if negb (bool_decide (fingerprint pk = s_fingerprint d)) then Err CorruptState
      else
        match s_phase d with
        | SKeyGenerated _ => Ok (key_generated t pk)
        | SClaimPending key _ => k ← decode_idempotency_key key; corrupt (claim_pending t pk k)
        | SClaimed key revision _ => k ← decode_idempotency_key key; corrupt (claimed t pk k revision)
        end.

Definition decode_stored_identity (seed state : list Z) : res GatewayIdentityError (ConfiguredGatewayIdentity * list Z) :=
  i ← decode_stored_state state;
  if negb (bool_decide (verifying_key seed = public_key i)) then Err CorruptState else Ok (i, seed).

(** ** The file layout (gateway_identity_fs.rs) *)

Definition SEED_FILE_NAME : string := "gateway-identity.seed".
Definition STATE_FILE_NAME : string := "gateway-enrollment.json".
Definition MAX_STATE_BYTES : Z := 16 * 1024.

(** The identity directory is [parent/name]. *)
Context (parent name : string).
Definition join (d f : string) : string := d +:+ "/" +:+ f.
Definition directory : string := join parent name.
Definition seed_path : string := join directory SEED_FILE_NAME.
Definition state_path : string := join directory STATE_FILE_NAME.
(** Process identifiers and sequence numbers are reused across restarts. *)
Definition unique_temporary_path (d : string) (pid sequence : Z) : string :=
  join d ("." +:+ name +:+ ".tmp-" +:+ pretty pid +:+ "-" +:+ pretty sequence).

Definition unavailable (_ : io_kind) : GatewayIdentityError := Unavailable.
Definition insecure (_ : io_kind) : GatewayIdentityError := InsecureStorage.
(** Marks a missing or an existing name, for the calls that tell these from other failures. *)
Definition or_missing (k : io_kind) : GatewayIdentityError := match k with NotFound => CorruptState | _ => Unavailable end.
Definition or_exists (k : io_kind) : GatewayIdentityError := match k with AlreadyExists => Conflict | _ => Unavailable end.

(** [symlink_metadata]; [false]: not found. *)
Definition exists_path (p : string) : io GatewayIdentityError bool :=
  r ← attempt (sys_open or_missing p);
  match r with
  | Ok _ => mret true
  | Err CorruptState => mret false
  | _ => fail Unavailable
  end.

Definition validate_existing_directory_chain (p : string) : io GatewayIdentityError bool :=
  found ← exists_path p;
  if negb found then mret false else _ ← sys_nop insecure; mret true.

Definition open_existing_private_file (p : string) : io GatewayIdentityError (option nat) :=
  found ← exists_path p;
  if negb found then mret None
  else
    _ ← sys_nop insecure;
    ino ← sys_open insecure p;
    _ ← sys_nop insecure;
    mret (Some ino).

Definition open_required (p : string) : io GatewayIdentityError nat :=
  o ← open_existing_private_file p;
  lift (ok_or o CorruptState).

Definition read_seed (p : string) : io GatewayIdentityError (list Z) :=
  ino ← open_required p;
  len ← sys_read unavailable ino;
  if negb (length len =? 32)%nat then fail CorruptState
  else
    seed ← sys_read (fun _ => CorruptState) ino;
    _ ← sys_nop unavailable;
    mret seed.

Definition read_state (p : string) : io GatewayIdentityError (list Z) :=
  ino ← open_required p;
  len ← sys_read unavailable ino;
  if (length len =? 0)%nat || (MAX_STATE_BYTES <? Z.of_nat (length len)) then fail CorruptState
  else
    state ← sys_read unavailable ino;
    if negb (length state =? length len)%nat then fail CorruptState else mret state.

Definition read_secret_identity : io GatewayIdentityError (option (list Z * list Z)) :=
  found ← validate_existing_directory_chain directory;
  if negb found then mret None
  else
    seed ← read_seed seed_path;
    state ← read_state state_path;
    mret (Some (seed, state)).

(** The parent directories, the lock file, the lock and its check. *)
Definition lock_for_write : io GatewayIdentityError unit :=
  _ ← sys_nop unavailable;
  _ ← sys_nop unavailable;
  _ ← sys_nop unavailable;
  sys_nop insecure.

Definition validate_state_size (state : list Z) : res GatewayIdentityError unit :=
  if (length state =? 0)%nat || (MAX_STATE_BYTES <? Z.of_nat (length state)) then Err InvalidState else Ok tt.

Definition write_new_private_file (p : string) (bytes : list Z) : io GatewayIdentityError unit :=
  ino ← sys_create_new or_exists p;
  _ ← sys_nop unavailable;
  _ ← sys_nop insecure;
  _ ← sys_write unavailable ino 0 bytes;
  sys_nop unavailable.

(** A directory is a name of its own; its files are the names below it. *)
Definition create_private_directory (p : string) : io GatewayIdentityError unit :=
  r ← attempt (sys_create_new or_exists p);
  match r with
  | Ok _ => _ ← sys_nop unavailable; sys_nop insecure
  | Err Conflict => sys_nop insecure
  | _ => fail Unavailable
  end.

(** [rename] of a directory moves the directory and its files at once. *)
Definition move_name (a b : string) (m : gmap string nat) : gmap string nat :=
  match m !! a with Some i => <[b := i]> (delete a m) | None => m end.
Definition sys_rename_dir (a b : string) (files : list string) : io GatewayIdentityError unit :=
  syscall unavailable no_effect (fun w =>
    match w_names w !! a with
    | Some _ => (inr tt, with_names (fold_left (fun m f => move_name (join a f) (join b f) m) files (move_name a b (w_names w))) w)
    | None => (inl NotFound, w)
    end).

Definition require_no_directory : io GatewayIdentityError unit :=
  found ← exists_path directory;
  if negb found then mret tt else fail Conflict.

Definition write_initial (seed state : list Z) (pid sequence : Z) : io GatewayIdentityError unit :=
  _ ← lift (validate_state_size state);
  _ ← require_no_directory;
  let staging := unique_temporary_path parent pid sequence in
  _ ← create_private_directory staging;
  result ← attempt (
    _ ← write_new_private_file (join staging SEED_FILE_NAME) seed;
    _ ← write_new_private_file (join staging STATE_FILE_NAME) state;
    _ ← sys_nop unavailable;
    _ ← require_no_directory;
    _ ← sys_rename_dir staging directory [SEED_FILE_NAME; STATE_FILE_NAME];
    sys_nop unavailable);
  match result with
  | Ok _ => mret tt
  | Err e =>
      _ ← attempt (sys_remove unavailable (join staging SEED_FILE_NAME));
      _ ← attempt (sys_remove unavailable (join staging STATE_FILE_NAME));
      _ ← attempt (sys_remove unavailable staging);
      fail e
  | Panic => lift Panic
  end.

Definition replace_state (state : list Z) (pid sequence : Z) : io GatewayIdentityError unit :=
  _ ← lift (validate_state_size state);
  found ← validate_existing_directory_chain directory;
  if negb found then fail CorruptState
  else
    _ ← open_required state_path;
    let temporary := unique_temporary_path directory pid sequence in
    result ← attempt (
      _ ← write_new_private_file temporary state;
      _ ← open_required state_path;
      _ ← sys_rename unavailable temporary state_path;
      sys_nop unavailable);
    match result with
    | Ok _ => mret tt
    | Err e => _ ← attempt (sys_remove unavailable temporary); fail e
    | Panic => lift Panic
    end.

(** ** The store (gateway_identity.rs) *)

Definition load_internal : io GatewayIdentityError (option (ConfiguredGatewayIdentity * list Z)) :=
  files ← read_secret_identity;
  match files with
  | Some (seed, state) => x ← lift (decode_stored_identity seed state); mret (Some x)
  | None => mret None
  end.

(** [None]: unconfigured. *)
Definition load : io GatewayIdentityError (option ConfiguredGatewayIdentity) :=
  x ← load_internal;
  mret (fst <$> x).

Definition require_matching_identity (current expected : ConfiguredGatewayIdentity) : res GatewayIdentityError unit :=
  if bool_decide (target current = target expected) && bool_decide (public_key current = public_key expected)
  then Ok tt else Err Conflict.
Definition ensure_input_key_matches (i : ConfiguredGatewayIdentity) (key : Z) : res GatewayIdentityError unit :=
  k ← validated_idempotency_key i;
  if k =? key then Ok tt else Err InvalidState.

Definition persist_key_generated (t : GatewayEnrollmentTarget) (seed pk : list Z) (recorded_at pid sequence : Z)
    : io GatewayIdentityError unit :=
  if negb (bool_decide (verifying_key seed = pk)) then fail InvalidState
  else
    let desired := key_generated t pk in
    _ ← lock_for_write;
    current ← load;
    match current with
    | Some current => lift (require_matching_identity current desired)
    | None => write_initial seed (serialize_state desired (SKeyGenerated recorded_at)) pid sequence
    end.

Definition mark_claim_pending (i : ConfiguredGatewayIdentity) (key recorded_at pid sequence : Z) : io GatewayIdentityError unit :=
  _ ← lift (ensure_input_key_matches i key);
  _ ← lock_for_write;
  current ← load;
  current ← lift (ok_or current InvalidTransition);
  _ ← lift (require_matching_identity current i);
  match phase current with
  | KeyGenerated => replace_state (serialize_state current (SClaimPending (uuid_to_string key) recorded_at)) pid sequence
  | ClaimPending k | Claimed k _ => if k =? key then mret tt else fail Conflict
  end.

Definition mark_claimed (i : ConfiguredGatewayIdentity) (key revision recorded_at pid sequence : Z) : io GatewayIdentityError unit :=
  _ ← lift (ensure_input_key_matches i key);
  _ ← lift (claimed (target i) (public_key i) key revision);
  _ ← lock_for_write;
  current ← load;
  current ← lift (ok_or current InvalidTransition);
  _ ← lift (require_matching_identity current i);
  match phase current with
  | KeyGenerated => fail InvalidTransition
  | ClaimPending k =>
      if k =? key then replace_state (serialize_state current (SClaimed (uuid_to_string key) revision recorded_at)) pid sequence
      else fail Conflict
  | Claimed k r => if (k =? key) && (r =? revision) then mret tt else fail Conflict
  end.

(** The source of the signing key. *)
Definition load_claimed_identity : io GatewayIdentityError (option (ConfiguredGatewayIdentity * list Z)) :=
  x ← load_internal;
  match x with
  | Some (i, seed) =>
      match phase i with
      | Claimed key revision => i ← lift (claimed (target i) (public_key i) key revision); mret (Some (i, seed))
      | _ => mret None
      end
  | None => mret None
  end.

(** ** The use case (gateway_enrollment.rs) *)

Inductive GatewayEnrollmentError :=
| EIdentity (e : GatewayIdentityError) | EIdentityConflict | EClock | ECloud (e : CloudEnrollmentClientError)
| EInvalidCloudReceipt | EInvalidStoredIdentity.
Record GatewayEnrollmentResult := EnrollmentResult { r_identity : ConfiguredGatewayIdentity; was_already_claimed : bool }.

Definition status : io GatewayIdentityError (res GatewayEnrollmentError (option ConfiguredGatewayIdentity)) :=
  r ← attempt load;
  match r with
  | Ok None => mret (Ok None)
  | Ok (Some i) =>
      match validated_idempotency_key i with
      | Ok _ => mret (Ok (Some i))
      | _ => mret (Err EInvalidStoredIdentity)
      end
  | Err e => mret (Err (EIdentity e))
  | Panic => lift Panic
  end.

Definition validate_receipt (i : ConfiguredGatewayIdentity) (r : CloudEnrollmentReceipt) : res GatewayEnrollmentError unit :=
  let same := match uuid_parse (r_gateway_id r) with
              | Some u => negb (u =? 0) && bool_decide (uuid_to_string u = r_gateway_id r) && (u =? gateway_id (target i))
              | None => false
              end in
  if negb same || negb (revision_ok (r_revision r)) then Err EInvalidCloudReceipt else Ok tt.

(** What the generator, the clock, the process and the cloud answer to one step. *)
Record answers := Answers {
  a_generate : res GatewayIdentityError (list Z * list Z); a_now : option Z;
  a_cloud : CloudEnrollmentClaim → res CloudEnrollmentClientError CloudEnrollmentReceipt; a_pid : Z; a_sequence : Z }.

(** [enroll], cut before each call of the store and of the cloud. *)
Inductive task :=
| TLoad (t : GatewayEnrollmentTarget) (token : string)
| TPersist (t : GatewayEnrollmentTarget) (token : string)
| TPending (i : ConfiguredGatewayIdentity) (key : Z) (token : string)
| TClaim (i : ConfiguredGatewayIdentity) (key : Z) (token : string)
| TRecord (i : ConfiguredGatewayIdentity) (key revision : Z)
| TDone (r : res GatewayEnrollmentError GatewayEnrollmentResult).

Definition failed (e : GatewayEnrollmentError) : task := TDone (Err e).

(** The part of [enroll] after the identity is known. *)
Definition enroll_identity (i : ConfiguredGatewayIdentity) (token : string) : task :=
  match validated_idempotency_key i with
  | Ok key =>
      match phase i with
      | Claimed _ _ => TDone (Ok (EnrollmentResult i true))
      | KeyGenerated => TPending i key token
      | ClaimPending _ => TClaim i key token
      end
  | _ => failed EInvalidStoredIdentity
  end.

Definition on_success (r : res GatewayIdentityError unit) (k : task) : task :=
  match r with Ok _ => k | Err e => failed (EIdentity e) | Panic => TDone Panic end.

(** The next task, and the claim that was sent. *)
Definition enroll_step (a : answers) (k : task) : io GatewayIdentityError (task * list CloudEnrollmentClaim) :=
  match k with
  | TLoad t token =>
      r ← attempt load;
      mret (match r with
            | Ok None => TPersist t token
            | Ok (Some i) => if bool_decide (target i = t) then enroll_identity i token else failed EIdentityConflict
            | Err e => failed (EIdentity e)
            | Panic => TDone Panic
            end, [])
  | TPersist t token =>
      match a_generate a, a_now a with
      | Err e, _ => mret (failed (EIdentity e), [])
      | Panic, _ => lift Panic
      | Ok _, None => mret (failed EClock, [])
      | Ok (seed, pk), Some now =>
          r ← attempt (persist_key_generated t seed pk now (a_pid a) (a_sequence a));
          mret (on_success r (enroll_identity (key_generated t pk) token), [])
      end
  | TPending i key token =>
      match a_now a with
      | None => mret (failed EClock, [])
      | Some now =>
          r ← attempt (mark_claim_pending i key now (a_pid a) (a_sequence a));
          mret (on_success r (match claim_pending (target i) (public_key i) key with
                              | Ok p => TClaim p key token
                              | _ => failed EInvalidStoredIdentity
                              end), [])
      end
  | TClaim i key token =>
      let c := Claim (target i) (public_key i) key token in
      mret (match a_cloud a c with
            | Ok receipt => match validate_receipt i receipt with
                            | Ok _ => TRecord i key (r_revision receipt)
                            | _ => failed EInvalidCloudReceipt
                            end
            | Err e => failed (ECloud e)
            | Panic => TDone Panic
            end, [c])
  | TRecord i key revision =>
      match a_now a with
      | None => mret (failed EClock, [])
      | Some now =>
          r ← attempt (mark_claimed i key revision now (a_pid a) (a_sequence a));
          mret (on_success r (match claimed (target i) (public_key i) key revision with
                              | Ok c => TDone (Ok (EnrollmentResult c false))
                              | _ => failed EInvalidCloudReceipt
                              end), [])
      end
  | TDone r => mret (TDone r, [])
  end.

Fixpoint enroll_steps (n : nat) (a : nat → answers) (k : task) : io GatewayIdentityError (task * list CloudEnrollmentClaim) :=
  match n with
  | O => mret (k, [])
  | S n =>
      '(k, c) ← enroll_step (a n) k;
      '(k, cs) ← enroll_steps n a k;
      mret (k, c ++ cs)
  end.
Definition enroll (a : nat → answers) (t : GatewayEnrollmentTarget) (token : string)
    : io GatewayIdentityError (task * list CloudEnrollmentClaim) := enroll_steps 5 a (TLoad t token).

(** ** Several processes *)

Inductive event := EStart (p : nat) (t : GatewayEnrollmentTarget) (token : string) | EStep (p : nat) (a : answers) | EKill (p : nat).
Record system := Sys { tasks : gmap nat task; disk : world; sent : list CloudEnrollmentClaim }.

Definition step (y : system) (e : event * list fault) : system :=
  let '(o, fs) := e in
  match o with
  | EStart p t token => Sys (<[p := TLoad t token]> (tasks y)) (disk y) (sent y)
  | EKill p => Sys (delete p (tasks y)) (disk y) (sent y)
  | EStep p a =>
      match tasks y !! p with
      | None => y
      | Some k =>
          match enroll_step a k (with_faults fs (disk y)) with
          | (Some (Ok (k, c)), w) => Sys (<[p := k]> (tasks y)) w (c ++ sent y)
          | (_, w) => Sys (delete p (tasks y)) w (sent y)
          end
      end
  end.

Definition run (w : world) (es : list (event * list fault)) : system := fold_left step es (Sys ∅ w []).

(** ** One invocation *)

Definition rank (k : task) : nat :=
  match k with TLoad _ _ => 5 | TPersist _ _ => 4 | TPending _ _ _ => 3 | TClaim _ _ _ => 2 | TRecord _ _ _ => 1 | TDone _ => 0 end.

Lemma identity_rank i token : (rank (enroll_identity i token) ≤ 3)%nat.
Proof. unfold enroll_identity. repeat case_match; cbn; lia. Qed.
Lemma success_rank r k n : (rank k ≤ n)%nat → (rank (on_success r k) ≤ n)%nat.
Proof. destruct r; cbn; lia. Qed.

Lemma attempt_run {A} (m : io GatewayIdentityError A) {B} (f : res GatewayIdentityError A → B) w b w' :
  (r ← attempt m; mret (f r)) w = (Some (Ok b), w') → ∃ r, b = f r.
Proof. rewrite io_bind_run. unfold attempt. destruct (m w) as [[r|] w1]; [|done]. intros [= <- <-]. by exists r. Qed.

Lemma step_rank a k w k' c w' :
  enroll_step a k w = (Some (Ok (k', c)), w') →
  (rank k' ≤ pred (rank k))%nat ∧ ((length c ≤ 1)%nat ∧ (c ≠ [] → rank k = 2%nat)).
Proof.
  destruct k as [tg token|tg token|j key token|j key token|j key revision|r]; cbn [enroll_step].
  - intros ([x|e|] & [= -> ->])%attempt_run; cbn; (split; [|split; [lia|done]]); [|lia|lia].
    destruct x as [i|]; cbn; [|lia]. case_bool_decide; cbn; [|lia]. pose proof (identity_rank i token). lia.
  - destruct (a_generate a) as [[s pk]|e|]; [destruct (a_now a)| |done].
    + intros (r & [= -> ->])%attempt_run. split; [|by split; [cbn; lia|]]. apply success_rank, identity_rank.
    + intros [= <- <- _]. cbn. split; [lia|by split; [lia|]].
    + intros [= <- <- _]. cbn. split; [lia|by split; [lia|]].
  - destruct (a_now a).
    + intros (r & [= -> ->])%attempt_run. split; [|by split; [cbn; lia|]]. apply success_rank. case_match; cbn; lia.
    + intros [= <- <- _]. cbn. split; [lia|by split; [lia|]].
  - intros [= <- <- _]. split; [|by split; [cbn; lia|]]. cbn. repeat case_match; cbn; lia.
  - destruct (a_now a).
    + intros (r & [= -> ->])%attempt_run. split; [|by split; [cbn; lia|]]. apply success_rank. case_match; cbn; lia.
    + intros [= <- <- _]. cbn. split; [lia|by split; [lia|]].
  - intros [= <- <- _]. cbn. split; [lia|by split; [lia|]].
Qed.

Lemma steps_rank n a k w k' c w' :
  enroll_steps n a k w = (Some (Ok (k', c)), w') →
  (rank k' ≤ rank k - n)%nat ∧ (length c ≤ 1)%nat ∧ ((rank k < 2)%nat → c = []).
Proof.
  revert k w k' c. induction n as [|n IH]; intros k w k' c; cbn [enroll_steps].
  { intros [= <- <- _]. cbn. split; [lia|by split; [lia|]]. }
  rewrite io_bind_run. destruct (enroll_step (a n) k w) as [[[[k1 c1]|e|]|] w1] eqn:H1; try done.
  rewrite io_bind_run. destruct (enroll_steps n a k1 w1) as [[[[k2 c2]|e|]|] w2] eqn:H2; try done. intros [= <- <- <-].
  apply step_rank in H1 as (R1 & L1 & N1). apply IH in H2 as (R2 & L2 & N2). split; [lia|]. rewrite length_app.
  destruct c1 as [|x c1]; [split; [cbn; lia|]; intros Hk; apply N2; lia|].
  specialize (N1 ltac:(done)). rewrite N2 by lia. cbn in *. split; [lia|]. lia.
Qed.

(** One invocation of the use case makes at most one request to the cloud and, unless
    the process dies, ends with a result: no branch loops or waits for another. *)
Theorem enroll_terminates (a : nat → answers) (t : GatewayEnrollmentTarget) (token : string) (w : world) :
  match enroll a t token w with
  | (Some (Ok (k, c)), _) => (∃ r, k = TDone r) ∧ (length c ≤ 1)%nat
  | _ => True
  end.
Proof.
  destruct (enroll a t token w) as [[[[k c]|e|]|] w'] eqn:H; try done. apply steps_rank in H as (R & L & _). cbn in R.
  split; [|done]. destruct k; cbn in R; try lia. by eexists.
Qed.

(** ** Names *)


Lemma join_inj d a b : join d a = join d b → a = b.
Proof. intros H. apply (inj (String.append d)) in H. by apply (inj (String.append "/")) in H. Qed.

Lemma join_length d f : String.length (join d f) = (String.length d + 1 + String.length f)%nat.
Proof. unfold join. rewrite !length_append. cbn. lia. Qed.

Lemma temporary_length d pid sequence :
  (String.length d + String.length name + 8 ≤ String.length (unique_temporary_path d pid sequence))%nat.
Proof. unfold unique_temporary_path. rewrite join_length, !length_append. cbn. lia. Qed.

(** The names the store reads. *)
Definition protected (q : string) : Prop := q = directory ∨ q = seed_path ∨ q = state_path.

Lemma paths_distinct : directory ≠ seed_path ∧ directory ≠ state_path ∧ seed_path ≠ state_path.
Proof.
  split_and!; intros H; [apply (f_equal String.length) in H; unfold seed_path, state_path in H; rewrite join_length in H; cbn in H; lia..|].
  by apply join_inj in H.
Qed.

Lemma replacement_distinct pid sequence q :
  protected q → unique_temporary_path directory pid sequence ≠ q.
Proof.
  intros [->|[->| ->]] H.
  - apply (f_equal String.length) in H. pose proof (temporary_length directory pid sequence). lia.
  - by apply join_inj in H.
  - by apply join_inj in H.
Qed.

Lemma shifted_slash c n r1 r2 :
  c ≠ Ascii.ascii_of_nat 47 → String c (n +:+ r1) ≠ n +:+ ("/" +:+ r2).
Proof.
  revert c. induction n as [|d n IH]; intros c Hc H; [by injection H as ->|].
  injection H as -> H. by apply (IH d Hc).
Qed.

Definition staging_names (pid sequence : Z) : list string :=
  let s := unique_temporary_path parent pid sequence in [s; join s SEED_FILE_NAME; join s STATE_FILE_NAME].

Lemma staging_distinct pid sequence q : protected q → q ∉ staging_names pid sequence.
Proof.
  intros Hq Hin. pose proof (temporary_length parent pid sequence) as Hl.
  assert (∀ s, s ∈ staging_names pid sequence → s ≠ q) as Hne; [|by apply (Hne q)]. clear Hin.
  assert (∀ f, unique_temporary_path parent pid sequence ≠ join (join parent name) f) as Hfile.
  { intros f H. unfold unique_temporary_path, join at 1 in H. unfold join in H. rewrite !append_assoc in H.
    apply (inj (String.append parent)), (inj (String.append "/")) in H. revert H. exact (shifted_slash (Ascii.ascii_of_nat 46) _ _ _ ltac:(done)). }
  intros s Hs H. unfold staging_names in Hs. rewrite !elem_of_cons, elem_of_nil in Hs.
  unfold protected, seed_path, state_path, directory in Hq.
  destruct Hs as [->|[->|[->|[]]]], Hq as [->|[->| ->]]; try (by apply Hfile in H);
    apply (f_equal String.length) in H; rewrite ?join_length in H; cbn in H; lia.
Qed.

(** ** Reading *)

Definition same (w w' : world) : Prop := ∃ fs, w' = with_faults fs w.
Lemma same_refl w : same w w.
Proof. exists (w_faults w). by rewrite with_faults_id. Qed.
Lemma same_faults w w' fs : same w w' → same w (with_faults fs w').
Proof. intros [fs' ->]. by exists fs. Qed.

(** [m] changes nothing; a value it returns satisfies [P]. *)
Definition reads {A} (m : io GatewayIdentityError A) (P : world → A → Prop) : Prop :=
  ∀ w w1, same w w1 →
    wp m (fun r w' => same w w' ∧ match r with Ok a => P w a | Err _ => True | Panic => False end) (same w) w1.

Lemma reads_bind {A B} (m : io GatewayIdentityError A) (f : A → io GatewayIdentityError B) P Q :
  reads m P → (∀ w a, P w a → ∀ w1, same w w1 →
    wp (f a) (fun r w' => same w w' ∧ match r with Ok b => Q w b | Err _ => True | Panic => False end) (same w) w1) →
  reads (m ≫= f) Q.
Proof.
  intros Hm Hf w w1 Hw. apply wp_bind. eapply wp_mono; [by apply Hm| |done].
  intros [a|e|] w' [Hw' Ha]; [by apply Hf|done|done].
Qed.

Lemma reads_nop of_io : reads (sys_nop of_io) (fun _ _ => True).
Proof. intros w w1 Hw. apply wp_sys_nop; [intros fs _|intros fs _|intros fs]; [split; [|done]..|]; by apply same_faults. Qed.

Lemma reads_read of_io ino : reads (sys_read of_io ino) (fun w bs => bs = file_bytes w ino).
Proof.
  intros w w1 [fs1 ->]. apply wp_sys_read; [intros fs _|intros fs _|intros fs]; [split; [|done]..|]; by exists fs.
Qed.

Lemma reads_open of_io p : reads (sys_open of_io p) (fun w ino => w_names w !! p = Some ino).
Proof.
  intros w w1 [fs1 ->]. apply wp_sys_open; [intros fs _|intros fs _|intros fs]; [|split; [by exists fs|done]|by exists fs].
  cbn. destruct (w_names w !! p); split; by try exists fs.
Qed.

Lemma reads_exists p : reads (exists_path p) (fun w b => b = true ↔ is_Some (path_bytes w p)).
Proof.
  intros w w1 [fs1 ->]. unfold exists_path.
  apply wp_bind, wp_attempt, wp_sys_open; [intros fs _|intros fs _; apply wp_fail; by split; [exists fs|]|by intros fs; exists fs].
  cbn [w_names with_faults]. destruct (w_names w !! p) eqn:Hp; apply wp_ret; (split; [by exists fs|]); unfold path_bytes; rewrite Hp; naive_solver.
Qed.

Lemma reads_chain p : reads (validate_existing_directory_chain p) (fun w b => b = true ↔ is_Some (path_bytes w p)).
Proof.
  eapply reads_bind; [apply reads_exists|]. intros w [] Hb w1 Hw; cbn [negb].
  - apply wp_bind. eapply wp_mono; [by apply (reads_nop insecure w)| |done]. by intros [[]|e|] w' [Hw' ?].
  - apply wp_ret. by split.
Qed.

Lemma reads_open_required p : reads (open_required p) (fun w ino => w_names w !! p = Some ino).
Proof.
  eapply (reads_bind _ _ (fun w o => ∀ ino, o = Some ino → w_names w !! p = Some ino)).
  - eapply reads_bind; [apply reads_exists|]. intros w [] Hb w1 Hw; cbn [negb]; [|apply wp_ret; by split].
    apply wp_bind. eapply wp_mono; [by apply (reads_nop insecure w)| |done]. intros [[]|e|] w2 [Hw2 ?]; [|done|done].
    apply wp_bind. eapply wp_mono; [by apply (reads_open insecure p w)| |done]. intros [ino|e|] w3 [Hw3 Hi]; [|done|done].
    apply wp_bind. eapply wp_mono; [by apply (reads_nop insecure w)| |done]. intros [[]|e|] w4 [Hw4 ?]; [|done|done].
    apply wp_ret. split; [done|]. by intros ino' [= <-].
  - intros w [ino|] Ho w1 Hw; apply wp_lift; cbn; (split; [done|]); [by apply Ho|done].
Qed.

Lemma names_bytes w p ino : w_names w !! p = Some ino → path_bytes w p = Some (file_bytes w ino).
Proof. unfold path_bytes. by intros ->. Qed.

Lemma reads_seed p : reads (read_seed p) (fun w s => path_bytes w p = Some s).
Proof.
  eapply reads_bind; [apply reads_open_required|]. intros w ino Hi w1 Hw.
  apply wp_bind. eapply wp_mono; [by apply (reads_read unavailable ino w)| |done]. intros [len|e|] w2 [Hw2 Hl]; [cbv beta in Hl; subst len|done|done].
  destruct (negb _); [by apply wp_fail|].
  apply wp_bind. eapply wp_mono; [by apply (reads_read (fun _ => CorruptState) ino w)| |done]. intros [s|e|] w3 [Hw3 Hl]; [cbv beta in Hl; subst s|done|done].
  apply wp_bind. eapply wp_mono; [by apply (reads_nop unavailable w)| |done]. intros [[]|e|] w4 [Hw4 ?]; [|done|done].
  apply wp_ret. split; [done|by apply names_bytes].
Qed.

Lemma reads_state p : reads (read_state p) (fun w s => path_bytes w p = Some s).
Proof.
  eapply reads_bind; [apply reads_open_required|]. intros w ino Hi w1 Hw.
  apply wp_bind. eapply wp_mono; [by apply (reads_read unavailable ino w)| |done]. intros [len|e|] w2 [Hw2 Hl]; [cbv beta in Hl; subst len|done|done].
  destruct (_ || _); [by apply wp_fail|].
  apply wp_bind. eapply wp_mono; [by apply (reads_read unavailable ino w)| |done]. intros [s|e|] w3 [Hw3 Hl]; [cbv beta in Hl; subst s|done|done].
  destruct (negb _); [by apply wp_fail|]. apply wp_ret. split; [done|by apply names_bytes].
Qed.

Lemma decode_no_panic seed state : decode_stored_identity seed state ≠ Panic.
Proof.
  assert (∀ i, validated_idempotency_key i ≠ Panic) as Hv by (intros i; unfold validated_idempotency_key; by repeat case_match).
  assert (∀ s, decode_idempotency_key s ≠ Panic) as Hk by (intros s; unfold decode_idempotency_key; no_panic).
  assert (∀ s, decode_public_key s ≠ Panic) as Hp by (intros s; unfold decode_public_key; no_panic).
  assert (∀ E A (r : res E A), r ≠ Panic → corrupt r ≠ Panic) as Hc by (by intros E A []).
  assert (∀ a b c d e, target_new a b c d e ≠ Panic) as Ht by (intros; unfold target_new, normalize_cloud_origin; no_panic).
  unfold decode_stored_identity, decode_stored_state, claim_pending, claimed.
  repeat first [done | apply ok_or_no_panic | apply Hk | apply Hp | apply Hv | apply Hc | apply Ht
    | apply res_bind_no_panic; [|intros ?] | case_match].
Qed.

(** What the files of the identity directory decode to. *)
Definition held (w : world) (i : ConfiguredGatewayIdentity) (seed : list Z) : Prop :=
  is_Some (path_bytes w directory) ∧ path_bytes w seed_path = Some seed ∧
  ∃ state, path_bytes w state_path = Some state ∧ decode_stored_identity seed state = Ok (i, seed).

Lemma decoded_seed seed state i s : decode_stored_identity seed state = Ok (i, s) → s = seed.
Proof. unfold decode_stored_identity. intros (x & _ & H)%res_bind_Ok. case_match; [done|]. by injection H as _ ->. Qed.

Lemma reads_internal :
  reads load_internal (fun w x => match x with Some (i, seed) => held w i seed | None => path_bytes w directory = None end).
Proof.
  eapply (reads_bind _ _ (fun w o => match o with
    | Some (seed, state) => is_Some (path_bytes w directory) ∧ path_bytes w seed_path = Some seed ∧ path_bytes w state_path = Some state
    | None => path_bytes w directory = None end)).
  - eapply reads_bind; [apply reads_chain|]. intros w [] Hb w1 Hw; cbn [negb].
    + apply wp_bind. eapply wp_mono; [by apply (reads_seed seed_path w)| |done]. intros [s|e|] w2 [Hw2 Hs]; [|done|done].
      apply wp_bind. eapply wp_mono; [by apply (reads_state state_path w)| |done]. intros [st|e|] w3 [Hw3 Hst]; [|done|done].
      apply wp_ret. split; [done|]. split_and!; [by apply Hb|done|done].
    + apply wp_ret. split; [done|]. destruct (path_bytes w directory); [|done]. destruct Hb as [_ Hb]. by discriminate Hb.
  - intros w [[seed state]|] Ho w1 Hw; [|by apply wp_ret]. apply wp_bind, wp_lift. pose proof (decode_no_panic seed state).
    destruct (decode_stored_identity seed state) as [[i s]|e|] eqn:Hd; [|done|done]. apply wp_ret. split; [done|].
    apply decoded_seed in Hd as Hs. subst s. destruct Ho as (? & ? & ?). split_and!; [done|done|by exists state].
Qed.

Lemma reads_load :
  reads load (fun w x => match x with Some i => ∃ seed, held w i seed | None => path_bytes w directory = None end).
Proof.
  eapply reads_bind; [apply reads_internal|]. intros w x Hx w1 Hw. apply wp_ret. split; [done|].
  destruct x as [[i seed]|]; cbn; [by exists seed|done].
Qed.

Lemma reads_lock : reads lock_for_write (fun _ _ => True).
Proof.
  intros w w1 Hw. unfold lock_for_write.
  apply wp_bind. eapply wp_mono; [by apply (reads_nop unavailable w)| |done]. intros [[]|e|] w2 [Hw2 ?]; [|done|done].
  apply wp_bind. eapply wp_mono; [by apply (reads_nop unavailable w)| |done]. intros [[]|e|] w3 [Hw3 ?]; [|done|done].
  apply wp_bind. eapply wp_mono; [by apply (reads_nop unavailable w)| |done]. intros [[]|e|] w4 [Hw4 ?]; [|done|done].
  by apply (reads_nop insecure w).
Qed.


(** ** Writing *)

Lemma wp_write_new p bytes w :
  fs_ok w →
  wp (write_new_private_file p bytes)
    (fun r w' => others [p] w w' ∧ match r with Ok _ => path_bytes w' p = Some bytes | Err _ => True | Panic => False end)
    (others [p] w) w.
Proof.
  intros Hw. unfold write_new_private_file. assert (p ∈ [p]) as Hp by by left.
  apply wp_bind, wp_sys_create_new; [intros fs _|by intros fs _|by intros fs].
  destruct (w_names w !! p); [done|].
  pose proof (owns_created p (with_faults fs w) Hw) as Hb1. change (w_next (with_faults fs w)) with (w_next w) in Hb1.
  pose proof (others_created _ p w (with_faults fs w) Hp (others_refl _ _ Hw)) as Hs1. set (w2 := fresh_file _ _) in *. clearbody w2.
  apply wp_bind, wp_sys_nop; [intros fs1 _|by intros fs1 _|by intros fs1].
  apply wp_bind, wp_sys_nop; [intros fs2 _|by intros fs2 _|by intros fs2].
  assert (∀ bs fs', others [p] w (put_bytes (w_next w) 0 bs (with_faults fs' w2))) as Hput
    by (intros bs fs'; by apply (others_put _ p _ [] _ _ _ (with_faults fs' w2))).
  apply wp_bind, wp_sys_write; [intros fs3 _|intros k fs3 _; by split; [apply Hput|]|intros k fs3; apply Hput].
  pose proof (owns_bytes _ _ _ _ (owns_put _ _ _ 0 bytes (with_faults fs3 w2) Hb1)) as Hb2.
  cbn [write_bytes take app] in Hb2. rewrite drop_nil, app_nil_r in Hb2. specialize (Hput bytes fs3).
  apply wp_sys_nop; [intros fs4 _; by split|intros fs4 _; by split|by intros fs4].
Qed.

(** The whole identity is installed. *)
Definition holding (seed state : list Z) (w : world) : Prop :=
  fs_ok w ∧ is_Some (path_bytes w directory) ∧ path_bytes w seed_path = Some seed ∧ path_bytes w state_path = Some state.

Section Initial.
Context (seed state : list Z) (pid sequence : Z).
#[local] Abbreviation staging := (unique_temporary_path parent pid sequence).
#[local] Abbreviation scratch := (staging_names pid sequence).

Lemma moved_value a b (m : gmap string nat) q i : move_name a b m !! q = Some i → ∃ q', m !! q' = Some i.
Proof.
  unfold move_name. destruct (m !! a) as [j|] eqn:Ha; [|by exists q].
  intros [[_ <-]|[_ H]]%lookup_insert_Some; [by exists a|]. apply lookup_delete_Some in H as [_ H]. by exists q.
Qed.

Lemma staged_distinct :
  staging ≠ join staging SEED_FILE_NAME ∧ staging ≠ join staging STATE_FILE_NAME ∧ join staging SEED_FILE_NAME ≠ join staging STATE_FILE_NAME.
Proof.
  split_and!; intros H; [apply (f_equal String.length) in H; rewrite join_length in H; cbn in H; lia..|]. by apply join_inj in H.
Qed.

Ltac ne := first [done | by apply not_eq_sym | by auto | apply not_eq_sym; by auto].

Lemma moved_holding w :
  fs_ok w → is_Some (path_bytes w staging) → path_bytes w (join staging SEED_FILE_NAME) = Some seed →
  path_bytes w (join staging STATE_FILE_NAME) = Some state →
  holding seed state (with_names (fold_left (fun m f => move_name (join staging f) (join directory f) m)
    [SEED_FILE_NAME; STATE_FILE_NAME] (move_name staging directory (w_names w))) w).
Proof.
  intros [H1 H2] Hs Hseed Hstate. pose proof staged_distinct as (S1 & S2 & S3). pose proof paths_distinct as (P1 & P2 & P3).
  assert (∀ q s, protected q → s ∈ scratch → q ≠ s) as Hne by (intros q s Hq Hin ->; by eapply staging_distinct).
  assert (staging ∈ scratch ∧ join staging SEED_FILE_NAME ∈ scratch ∧ join staging STATE_FILE_NAME ∈ scratch) as (N1 & N2 & N3)
    by (unfold staging_names; set_solver).
  assert (protected directory ∧ protected seed_path ∧ protected state_path) as (R1 & R2 & R3) by (unfold protected; naive_solver).
  cbn [fold_left]. fold seed_path state_path. unfold path_bytes in *.
  destruct (w_names w !! staging) as [i0|] eqn:E0; [|by destruct Hs]. destruct (w_names w !! join staging SEED_FILE_NAME) as [i1|] eqn:E1; [|done].
  destruct (w_names w !! join staging STATE_FILE_NAME) as [i2|] eqn:E2; [|done].
  set (m := move_name _ _ _). assert (m = <[state_path := i2]> (delete (join staging STATE_FILE_NAME)
    (<[seed_path := i1]> (delete (join staging SEED_FILE_NAME) (<[directory := i0]> (delete staging (w_names w))))))) as Hm.
  { assert (move_name staging directory (w_names w) = <[directory := i0]> (delete staging (w_names w))) as M1
      by (unfold move_name; by rewrite E0).
    unfold m. rewrite M1. clear m M1. set (m1 := <[directory := i0]> _).
    assert (move_name (join staging SEED_FILE_NAME) seed_path m1 = <[seed_path := i1]> (delete (join staging SEED_FILE_NAME) m1)) as M2.
    { unfold move_name, m1. by rewrite lookup_insert_ne, lookup_delete_ne, E1 by ne. }
    rewrite M2. unfold move_name, m1. by rewrite lookup_insert_ne, lookup_delete_ne, lookup_insert_ne, lookup_delete_ne, E2 by ne. }
  assert (∀ q i, m !! q = Some i → (i < w_next w)%nat) as Hval.
  { intros q i Hq. apply moved_value in Hq as (q1 & Hq). apply moved_value in Hq as (q2 & Hq). apply moved_value in Hq as (q3 & Hq).
    by eapply H1. }
  clearbody m. split_and!; [split; [exact Hval|exact H2]|..].
  - unfold path_bytes. cbn [w_names with_names]. rewrite Hm, lookup_insert_ne, lookup_delete_ne, lookup_insert_ne, lookup_delete_ne, lookup_insert_eq by ne. by eexists.
  - unfold path_bytes. cbn [w_names with_names]. rewrite Hm, lookup_insert_ne, lookup_delete_ne, lookup_insert_eq by ne. exact Hseed.
  - unfold path_bytes. cbn [w_names with_names]. rewrite Hm, lookup_insert_eq. exact Hstate.
Qed.

Definition absent (w : world) : Prop := fs_ok w ∧ path_bytes w directory = None.
Definition settled (w : world) : Prop := absent w ∨ holding seed state w.

Lemma settled_others w w' : path_bytes w directory = None → others scratch w w' → settled w'.
Proof. intros Hd [Hw Hp]. left. split; [done|]. rewrite Hp; [done|]. apply staging_distinct. by left. Qed.

Lemma settled_removed q w : q ∈ scratch → settled w → settled (with_names (delete q (w_names w)) w).
Proof.
  intros Hq Hs. assert (∀ p, protected p → path_bytes (with_names (delete q (w_names w)) w) p = path_bytes w p) as Hp.
  { intros p Hp. unfold path_bytes. cbn [w_names with_names]. rewrite lookup_delete_ne; [done|]. intros ->. by eapply staging_distinct. }
  assert (fs_ok w → fs_ok (with_names (delete q (w_names w)) w)) as Hf.
  { intros [H1 H2]. split; [|exact H2]. cbn. intros p i Hi. apply lookup_delete_Some in Hi as [_ Hi]. by eapply H1. }
  destruct Hs as [[H1 H2]|(H1 & H2 & H3 & H4)]; [left|right].
  - split; [auto|]. rewrite Hp; [done|by left].
  - split_and!; [auto|rewrite Hp; [done|by left]|rewrite Hp; [done|by right; left]|rewrite Hp; [done|by right; right]].
Qed.

Lemma wp_remove_scratch q w (Q : res GatewayIdentityError (res GatewayIdentityError unit) → world → Prop) :
  q ∈ scratch → settled w → (∀ r w', settled w' → Q (Ok r) w') → wp (attempt (sys_remove unavailable q)) Q settled w.
Proof.
  intros Hq Hs HQ. apply wp_attempt, wp_sys_remove; [intros fs _|intros fs _; by apply HQ|by intros fs].
  destruct (w_names w !! q); apply HQ; [|done]. by apply (settled_removed q (with_faults fs w)).
Qed.

Lemma wp_create_directory p w :
  fs_ok w →
  wp (create_private_directory p)
    (fun r w' => others [p] w w' ∧ match r with Ok _ => is_Some (path_bytes w' p) | Err _ => True | Panic => False end)
    (others [p] w) w.
Proof.
  intros Hw. unfold create_private_directory. assert (p ∈ [p]) as Hp by by left.
  apply wp_bind, wp_attempt, wp_sys_create_new; [intros fs _|intros fs _; by apply wp_fail|by intros fs].
  destruct (w_names w !! p) as [j|] eqn:Hj.
  - assert (is_Some (path_bytes w p)) as Hs by (unfold path_bytes; rewrite Hj; by eexists).
    apply wp_sys_nop; [by intros fs1 _|by intros fs1 _|by intros fs1].
  - pose proof (owns_created p (with_faults fs w) Hw) as Hb%owns_bytes.
    pose proof (others_created _ p w (with_faults fs w) Hp (others_refl _ _ Hw)) as Ho. set (w2 := fresh_file _ _) in *. clearbody w2.
    apply wp_bind, wp_sys_nop; [intros fs1 _|by intros fs1 _|by intros fs1].
    apply wp_sys_nop; [intros fs2 _|by intros fs2 _|by intros fs2]. split; [done|]. rewrite path_bytes_faults. by eexists.
Qed.

Lemma wp_require_none w :
  fs_ok w → path_bytes w directory = None →
  wp require_no_directory (fun r w' => same w w' ∧ r ≠ Panic) (same w) w.
Proof.
  intros Hw Hd. unfold require_no_directory. apply wp_bind.
  eapply wp_mono; [apply (reads_exists directory w), same_refl| |done]. intros [b|e|] w' [Hw' Hb]; [|done|done].
  destruct b; cbn [negb]; [|by apply wp_ret]. rewrite Hd in Hb. by destruct Hb as [[? ?] _].
Qed.

(** Either nothing is installed, or the whole identity is. *)
Lemma wp_write_initial w :
  absent w →
  wp (write_initial seed state pid sequence)
    (fun r w' => match r with Ok _ => holding seed state w' | Err _ => settled w' | Panic => False end) settled w.
Proof.
  intros [Hw Hd]. assert (∀ w', same w w' → settled w') as Hsame by (intros w' [fs ->]; by left).
  unfold write_initial. apply wp_bind, wp_lift. unfold validate_state_size. destruct (_ || _); [by left|].
  apply wp_bind. eapply wp_mono; [by apply wp_require_none| |exact Hsame]. intros [[]|e|] w1 [[fs1 ->] Hr]; [|by left|done]. clear Hr.
  assert (staging ∈ scratch ∧ join staging SEED_FILE_NAME ∈ scratch ∧ join staging STATE_FILE_NAME ∈ scratch) as (N1 & N2 & N3)
    by (unfold staging_names; set_solver). pose proof staged_distinct as (S1 & S2 & S3).
  assert (∀ q w' w'', q ∈ scratch → others scratch w w' → others [q] w' w'' → others scratch w w'') as Hmore.
  { intros q w' w'' Hq H1 H2. eapply others_trans; [exact H1|]. eapply others_weaken; [|exact H2]. by intros x ->%list_elem_of_singleton. }
  assert (∀ q w' w'' p, others [q] w' w'' → p ≠ q → path_bytes w'' p = path_bytes w' p) as Hkeep.
  { intros q w' w'' p [_ H2] Hne. apply H2. by intros ->%list_elem_of_singleton. }
  apply wp_bind. eapply wp_mono; [by apply (wp_create_directory staging (with_faults fs1 w))| |].
  2: { intros w' Ho. apply (settled_others w); [done|]. by apply (Hmore staging (with_faults fs1 w)). }
  intros [[]|e|] w2 [O2 Hs2]; [|apply (settled_others w); [done|]; by apply (Hmore staging (with_faults fs1 w))|done].
  apply (Hmore staging (with_faults fs1 w)) in O2; [|done|done].
  assert (∀ e w', settled w' → wp (_ ← attempt (sys_remove unavailable (join staging SEED_FILE_NAME));
    _ ← attempt (sys_remove unavailable (join staging STATE_FILE_NAME)); _ ← attempt (sys_remove unavailable staging); @fail _ unit e)
    (fun r w' => match r with Ok _ => holding seed state w' | Err _ => settled w' | Panic => False end) settled w') as Hclean.
  { intros e w' Hs. do 3 (apply wp_bind, wp_remove_scratch; [done|done|intros _ ? ?]). by apply wp_fail. }
  assert (∀ w', others scratch w w' → settled w') as Hold by (intros w'; by apply settled_others).
  apply wp_bind, wp_attempt, wp_bind. eapply wp_mono; [apply wp_write_new, O2| |intros w' Ho; apply Hold; exact (Hmore _ _ _ N2 O2 Ho)].
  intros [[]|e|] w3 [O3 Hs3]; [|apply Hclean, Hold; exact (Hmore _ _ _ N2 O2 O3)|done].
  rewrite <- (Hkeep _ _ _ staging O3 S1) in Hs2. apply Hmore with (1 := N2) (2 := O2) in O3.
  apply wp_bind. eapply wp_mono; [apply wp_write_new, O3| |intros w' Ho; apply Hold; exact (Hmore _ _ _ N3 O3 Ho)].
  intros [[]|e|] w4 [O4 Hs4]; [|apply Hclean, Hold; exact (Hmore _ _ _ N3 O3 O4)|done].
  rewrite <- (Hkeep _ _ _ staging O4 S2) in Hs2. rewrite <- (Hkeep _ _ _ _ O4 S3) in Hs3. apply Hmore with (1 := N3) (2 := O3) in O4.
  apply wp_bind, wp_sys_nop; [intros fs5 _|intros fs5 _; by apply Hclean, Hold|intros fs5; by apply Hold].
  assert (path_bytes w4 directory = None) as Hd4 by (rewrite <- Hd; apply O4, staging_distinct; by left).
  apply wp_bind. eapply wp_mono; [apply (wp_require_none (with_faults fs5 w4)); [apply O4|done]| |intros w' [fs6 ->]; by apply Hold].
  intros [[]|e|] w5 [[fs6 ->] Hr]; [|by apply Hclean, Hold|done]. clear Hr.
  apply wp_bind. unfold sys_rename_dir. apply wp_syscall; [intros fs7 _|intros k fs7 _; by apply Hclean, Hold|intros k fs7; by apply Hold].
  cbn [w_names with_faults]. unfold path_bytes in Hs2 at 1. destruct (w_names w4 !! staging) as [i0|] eqn:E0; [|by destruct Hs2].
  assert (holding seed state (with_names (fold_left (fun m f => move_name (join staging f) (join directory f) m)
    [SEED_FILE_NAME; STATE_FILE_NAME] (move_name staging directory (w_names w4))) (with_faults fs7 w4))) as Hh.
  { apply (moved_holding (with_faults fs7 w4)); [apply O4|unfold path_bytes; cbn [w_names with_faults]; rewrite E0; by eexists|done|done]. }
  apply wp_sys_nop; [intros fs8 _; by apply wp_ret|intros fs8 _; apply Hclean; by right|intros fs8; by right].
Qed.
End Initial.

Section ReplaceState.
Context (seed state0 state : list Z) (pid sequence : Z).
#[local] Abbreviation temporary := (unique_temporary_path directory pid sequence).

Lemma holding_others s w w' : holding seed s w → others [temporary] w w' → holding seed s w'.
Proof.
  intros (_ & H2 & H3 & H4) [Hw Hp].
  assert (∀ q, protected q → path_bytes w' q = path_bytes w q) as Hq.
  { intros q Hq. apply Hp. intros ->%list_elem_of_singleton. by eapply replacement_distinct. }
  split_and!; [done|rewrite Hq; [done|by left]|rewrite Hq; [done|by right; left]|rewrite Hq; [done|by right; right]].
Qed.

Lemma holding_renamed w w' ino :
  holding seed state0 w → others [temporary] w w' → w_names w' !! temporary = Some ino → file_bytes w' ino = state →
  holding seed state (with_names (<[state_path := ino]> (delete temporary (w_names w'))) w').
Proof.
  intros Hh Ho Ht Hb. destruct (holding_others _ _ _ Hh Ho) as ([H1 H2] & Hd & Hs & _). pose proof paths_distinct as (P1 & P2 & P3).
  assert (∀ q, protected q → temporary ≠ q) as Hne by (intros q Hq; by apply replacement_distinct).
  split_and!; [split; [|exact H2]|..]; unfold path_bytes in *; cbn [w_names with_names] in *.
  - cbn. intros q i Hq. apply lookup_insert_Some in Hq as [[_ <-]|[_ Hq]]; [by eapply H1|].
    apply lookup_delete_Some in Hq as [_ Hq]. by eapply H1.
  - rewrite lookup_insert_ne, lookup_delete_ne by (first [by apply not_eq_sym | by apply Hne; left]). done.
  - rewrite lookup_insert_ne, lookup_delete_ne by (first [by apply not_eq_sym | by apply Hne; right; left]). done.
  - rewrite lookup_insert_eq. by rewrite <- Hb.
Qed.

Definition either (w : world) : Prop := holding seed state0 w ∨ holding seed state w.

Lemma either_others w w' : either w → others [temporary] w w' → either w'.
Proof. intros [H|H] Ho; [left|right]; by eapply holding_others. Qed.

Lemma wp_drop_temporary e w :
  either w →
  wp (_ ← attempt (sys_remove unavailable temporary); @fail _ unit e)
    (fun r w' => match r with Ok _ => holding seed state w' | Err _ => either w' | Panic => False end) either w.
Proof.
  intros He. assert (fs_ok w) as Hw by (destruct He as [[? _]|[? _]]; done).
  apply wp_bind, wp_attempt, wp_sys_remove; [intros fs _|intros fs _; by apply wp_fail|by intros fs].
  destruct (w_names w !! temporary); apply wp_fail; [|done]. apply (either_others (with_faults fs w)); [done|].
  apply (others_removed _ _ _ (with_faults fs w)); [by left|done].
Qed.

Lemma wp_replace_state w :
  holding seed state0 w →
  wp (replace_state state pid sequence)
    (fun r w' => match r with Ok _ => holding seed state w' | Err _ => either w' | Panic => False end) either w.
Proof.
  intros Hh. assert (∀ w', same w w' → either w') as Hsame by (intros w' [fs ->]; by left).
  unfold replace_state. apply wp_bind, wp_lift. unfold validate_state_size. destruct (_ || _); [by left|].
  apply wp_bind. eapply wp_mono; [apply (reads_chain directory w), same_refl| |exact Hsame].
  intros [b|e|] w1 [Hw1 Hb]; [|by apply Hsame|done]. destruct b; cbn [negb]; [|apply wp_fail; by apply Hsame].
  apply wp_bind. eapply wp_mono; [by apply (reads_open_required state_path w)| |exact Hsame].
  intros [j|e|] w2 [[fs2 ->] Hj]; [|by apply Hsame; exists fs2|done]. set (w2 := with_faults fs2 w).
  assert (∀ w', others [temporary] w w' → either w') as Hold by (intros w' Ho; left; by eapply holding_others).
  apply wp_bind, wp_attempt, wp_bind. eapply wp_mono; [apply (wp_write_new temporary state w2), Hh| |exact Hold].
  intros [[]|e|] w3 [O3 Hs3]; [|by apply wp_drop_temporary, Hold|done]. change (others [temporary] w w3) in O3.
  apply wp_bind. eapply wp_mono; [apply (reads_open_required state_path w3), same_refl| |intros w' [fs4 ->]; by apply Hold].
  intros [j'|e|] w4 [[fs4 ->] Hj']; [|by apply wp_drop_temporary, Hold|done].
  apply wp_bind, wp_sys_rename; [intros fs5 _|intros fs5 _; by apply wp_drop_temporary, Hold|intros fs5; by apply Hold].
  cbn [w_names with_faults]. unfold path_bytes in Hs3. destruct (w_names w3 !! temporary) as [ino|] eqn:Ht; [|done]. injection Hs3 as Hs3.
  assert (∀ fs6, holding seed state (with_names (<[state_path := ino]> (delete temporary (w_names w3))) (with_faults fs6 w3))) as Hnew
    by (intros fs6; by apply (holding_renamed w (with_faults fs6 w3))).
  apply wp_sys_nop; [intros fs6 _; apply wp_ret; apply Hnew|intros fs6 _; apply wp_drop_temporary; right; apply Hnew|intros fs6; right; apply Hnew].
Qed.
End ReplaceState.

(** ** What the disk holds *)

Section Laws.
Hypothesis Huuid : ∀ u, uuid_parse (uuid_to_string u) = Some u.
Hypothesis Hbase64 : ∀ b, base64_decode (base64_encode b) = Some b.
Hypothesis Hcodec : ∀ s, from_slice (to_vec s) = Some s.

Definition stored_phase (f : GatewayEnrollmentPhase) (p : StoredPhase) : Prop :=
  match f, p with
  | KeyGenerated, SKeyGenerated _ => True
  | ClaimPending k, SClaimPending s _ => s = uuid_to_string k
  | Claimed k r, SClaimed s r' _ => s = uuid_to_string k ∧ r' = r
  | _, _ => False
  end.

Lemma canonical_inj u u' : canonical_non_nil_uuid (uuid_to_string u) = Some u' → u' = u.
Proof. unfold canonical_non_nil_uuid. rewrite Huuid. cbn. case_match; [|done]. by intros [= ->]. Qed.

Lemma corrupt_Ok {E A} (r : res E A) a : corrupt r = Ok a → r = Ok a.
Proof. destruct r; [|done|done]. by intros [= ->]. Qed.

Lemma decoded_key k k' : decode_idempotency_key (uuid_to_string k) = Ok k' → k' = k.
Proof. unfold decode_idempotency_key. rewrite Huuid. cbn. case_match; [done|]. by intros [= ->]. Qed.

Lemma claim_pending_Ok tg pk k i : claim_pending tg pk k = Ok i → i = Identity tg pk (ClaimPending k).
Proof. unfold claim_pending. by intros (? & _ & [= <-])%res_bind_Ok. Qed.
Lemma claimed_Ok tg pk k r i : claimed tg pk k r = Ok i → i = Identity tg pk (Claimed k r) ∧ k = stable_key tg pk ∧ revision_ok r = true.
Proof.
  unfold claimed. destruct (revision_ok r); [|done]. cbn [negb]. intros (k' & Hk & [= <-])%res_bind_Ok. split_and!; [done| |done].
  unfold validated_idempotency_key in Hk. cbn in Hk. case_match eqn:E; [|done]. by apply Z.eqb_eq in E.
Qed.

(** Decoding gives back what was written, or fails. *)
Lemma decode_stored i p j :
  stored_phase (phase i) p → decode_stored_state (serialize_state i p) = Ok j → j = i.
Proof.
  destruct i as [[o te pr g] pk ph]. unfold decode_stored_state, serialize_state. rewrite Hcodec. cbn. intros Hp.
  intros (tg & Ht & H)%res_bind_Ok. destruct (negb (bool_decide (cloud_origin tg = o))) eqn:Ho; [done|].
  apply negb_false_iff, bool_decide_eq_true in Ho.
  assert (tg = Target o te pr g) as ->.
  { apply corrupt_Ok in Ht. unfold target_new in Ht. apply res_bind_Ok in Ht as (o' & _ & Ht).
    apply res_bind_Ok in Ht as (x1 & H1%ok_or_Ok%canonical_inj & Ht). apply res_bind_Ok in Ht as (x2 & H2%ok_or_Ok%canonical_inj & Ht).
    apply res_bind_Ok in Ht as (x3 & H3%ok_or_Ok%canonical_inj & [= <-]). cbn in *. congruence. }
  apply res_bind_Ok in H as (pk' & Hk & H). assert (pk' = pk) as ->.
  { unfold decode_public_key in Hk. rewrite Hbase64 in Hk. cbn in Hk. destruct (_ || _) in Hk; [done|]. by injection Hk as ->. }
  case_match; [done|]. destruct ph as [|k|k r], p as [rec|s rec|s r' rec]; cbn in Hp; try done.
  - by injection H as <-.
  - subst s. apply res_bind_Ok in H as (k' & ->%decoded_key & H). by apply corrupt_Ok, claim_pending_Ok in H.
  - destruct Hp as [-> ->]. apply res_bind_Ok in H as (k' & ->%decoded_key & H). by apply corrupt_Ok, claimed_Ok in H as [-> _].
Qed.

Record on_disk (seed : list Z) (i : ConfiguredGatewayIdentity) (w : world) : Prop := {
  od_state : ∃ p, holding seed (serialize_state i p) w ∧ stored_phase (phase i) p ∧ validate_state_size (serialize_state i p) = Ok tt;
  od_seed : verifying_key seed = public_key i;
  od_length : length seed = 32%nat;
  od_key k : idempotency_key i = Some k → k = stable_idempotency_key i;
  od_revision k r : phase i = Claimed k r → revision_ok r = true }.

Lemma on_disk_same seed i w w' : on_disk seed i w → same w w' → on_disk seed i w'.
Proof. intros [(p & Hh & Hp & Hs) H2 H3 H4 H5] [fs ->]. split; [by exists p|done..]. Qed.

Lemma on_disk_held seed i w j s : on_disk seed i w → held w j s → j = i ∧ s = seed.
Proof.
  intros [(p & (_ & _ & Hs & Hst) & Hp & _) _ _ _ _] (_ & Hs' & st & Hst' & Hd). rewrite Hs in Hs'. injection Hs' as <-.
  rewrite Hst in Hst'. injection Hst' as <-. unfold decode_stored_identity in Hd. apply res_bind_Ok in Hd as (x & Hx & Hd).
  apply decode_stored in Hx; [|done]. subst x. case_match; [done|]. by injection Hd as ->.
Qed.

Lemma stable_validated i : (∀ k, idempotency_key i = Some k → k = stable_idempotency_key i) →
  validated_idempotency_key i = Ok (stable_idempotency_key i).
Proof. intros Hk. unfold validated_idempotency_key. destruct (idempotency_key i) as [k|]; [|done]. rewrite (Hk k eq_refl). by rewrite Z.eqb_refl. Qed.

(** One transition of the stored identity. *)
Definition advances (i i' : ConfiguredGatewayIdentity) : Prop :=
  target i' = target i ∧ public_key i' = public_key i ∧
  (phase i' = phase i ∨ phase i = KeyGenerated ∧ (∃ k, phase i' = ClaimPending k) ∨
   (∃ k, phase i = ClaimPending k) ∧ ∃ k r, phase i' = Claimed k r).
Lemma advances_refl i : advances i i.
Proof. split_and!; [done|done|by left]. Qed.

Definition advanced (seed : list Z) (i : ConfiguredGatewayIdentity) (w : world) : Prop := ∃ i', on_disk seed i' w ∧ advances i i'.

(** ** The store's transitions *)

Lemma wp_load_disk seed i w w1 :
  on_disk seed i w → same w w1 →
  wp load (fun r w' => same w w' ∧ match r with Ok x => x = Some i | Err _ => True | Panic => False end) (same w) w1.
Proof.
  intros Hd Hw. eapply wp_mono; [by apply (reads_load w)| |done]. intros [x|e|] w' [Hw' Hx]; [split; [done|]|done|done].
  destruct x as [j|]; [destruct Hx as (s & Hx); by destruct (on_disk_held _ _ _ _ _ Hd Hx) as [-> _]|].
  destruct (od_state _ _ _ Hd) as (p & (_ & [b Hb] & _) & _). cbn in Hx. congruence.
Qed.

Lemma wp_load_absent w w1 :
  absent w → same w w1 →
  wp load (fun r w' => same w w' ∧ match r with Ok x => x = None | Err _ => True | Panic => False end) (same w) w1.
Proof.
  intros [_ Hd] Hw. eapply wp_mono; [by apply (reads_load w)| |done]. intros [x|e|] w' [Hw' Hx]; [split; [done|]|done|done].
  destruct x as [j|]; [|done]. destruct Hx as (s & [b Hb] & _). congruence.
Qed.

Lemma absent_same w w' : absent w → same w w' → absent w'.
Proof. by intros ? [fs ->]. Qed.

Lemma wp_persist_absent tg s pk now pid sequence w :
  absent w → length s = 32%nat →
  wp (persist_key_generated tg s pk now pid sequence)
    (fun r w' => match r with
       | Ok _ => on_disk s (key_generated tg pk) w'
       | Err _ => absent w' ∨ on_disk s (key_generated tg pk) w'
       | Panic => False
       end) (fun w' => absent w' ∨ on_disk s (key_generated tg pk) w') w.
Proof.
  intros Ha Hlen. assert (∀ w', same w w' → absent w' ∨ on_disk s (key_generated tg pk) w') as Hsame by (intros w' Hw'; left; by eapply absent_same).
  unfold persist_key_generated. case_bool_decide as Hk; cbn [negb]; [|apply wp_fail; by left].
  apply wp_bind. eapply wp_mono; [apply (reads_lock w), same_refl| |exact Hsame]. intros [[]|e|] w1 [Hw1 ?]; [|by apply Hsame|done].
  apply wp_bind. eapply wp_mono; [by apply (wp_load_absent w)| |exact Hsame]. intros [x|e|] w2 [Hw2 Hx]; [subst x|by apply Hsame|done].
  destruct Hw2 as [fs2 ->]. set (st := serialize_state (key_generated tg pk) (SKeyGenerated now)).
  destruct (validate_state_size st) as [[]|e|] eqn:Hsize.
  2: { unfold write_initial. apply wp_bind, wp_lift. rewrite Hsize. by left. }
  2: { unfold validate_state_size in Hsize. by case_match. }
  assert (∀ w', holding s st w' → on_disk s (key_generated tg pk) w') as Hhold.
  { intros w' Hh. split; [by exists (SKeyGenerated now)|done..]. }
  eapply wp_mono; [by apply (wp_write_initial s st pid sequence (with_faults fs2 w))| |].
  - intros [[]|e|] w' Hw'; [by apply Hhold| |done]. destruct Hw'; [by left|right; by apply Hhold].
  - intros w' [?|?]; [by left|right; by apply Hhold].
Qed.

Lemma wp_persist_disk tg s pk now pid sequence seed i w :
  on_disk seed i w →
  wp (persist_key_generated tg s pk now pid sequence)
    (fun r w' => same w w' ∧ match r with Ok _ => target i = tg ∧ public_key i = pk | Err _ => True | Panic => False end) (same w) w.
Proof.
  intros Hd. unfold persist_key_generated. destruct (negb _); [apply wp_fail; by split; [apply same_refl|]|].
  apply wp_bind. eapply wp_mono; [apply (reads_lock w), same_refl| |done]. intros [[]|e|] w1 [Hw1 ?]; [|done|done].
  apply wp_bind. eapply wp_mono; [by apply (wp_load_disk seed i w)| |done]. intros [x|e|] w2 [Hw2 Hx]; [subst x|done|done].
  apply wp_lift. unfold require_matching_identity. repeat case_bool_decide; by split.
Qed.

(** Replacing the stored phase by the next one. *)
Lemma wp_advance seed i f p pid sequence w :
  on_disk seed i w → stored_phase f p → advances i (Identity (target i) (public_key i) f) →
  (∀ k, idempotency_key (Identity (target i) (public_key i) f) = Some k → k = stable_idempotency_key i) →
  (∀ k r, f = Claimed k r → revision_ok r = true) →
  wp (replace_state (serialize_state i p) pid sequence)
    (fun r w' => match r with
       | Ok _ => on_disk seed (Identity (target i) (public_key i) f) w'
       | Err _ => advanced seed i w'
       | Panic => False
       end) (advanced seed i) w.
Proof.
  intros Hd Hp Hadv Hkey Hrev. destruct (od_state _ _ _ Hd) as (p0 & Hh & Hp0 & Hs0). set (st := serialize_state i p).
  destruct (validate_state_size st) as [[]|e|] eqn:Hsize.
  2: { unfold replace_state. apply wp_bind, wp_lift. rewrite Hsize. exists i. split; [done|apply advances_refl]. }
  2: { unfold validate_state_size in Hsize. by case_match. }
  assert (∀ w', holding seed st w' → on_disk seed (Identity (target i) (public_key i) f) w') as Hnew.
  { intros w' Hw'. split; [by exists p|apply Hd|apply Hd|done|done]. }
  assert (∀ w', either seed (serialize_state i p0) st w' → advanced seed i w') as Hend.
  { intros w' [Hw'|Hw']; [exists i; split; [|apply advances_refl]|eexists; split; [by apply Hnew|done]].
    split; [by exists p0|apply Hd..]. }
  eapply wp_mono; [by apply (wp_replace_state seed (serialize_state i p0) st)| |exact Hend].
  intros [[]|e|] w' Hw'; [by apply Hnew|by apply Hend|done].
Qed.

(** What a transition for a task's identity [j] does to the stored identity [i]. *)
Definition marked (seed : list Z) (i j : ConfiguredGatewayIdentity) (P : GatewayEnrollmentPhase → Prop)
    (r : res GatewayIdentityError unit) (w' : world) : Prop :=
  match r with
  | Ok _ => ∃ i', on_disk seed i' w' ∧ advances i i' ∧ target i' = target j ∧ public_key i' = public_key j ∧ P (phase i')
  | Err _ => advanced seed i w'
  | Panic => False
  end.

Lemma ensure_no_panic j key : ensure_input_key_matches j key ≠ Panic.
Proof.
  unfold ensure_input_key_matches. apply res_bind_no_panic; [|intros k; by case_match].
  unfold validated_idempotency_key. by repeat case_match.
Qed.

Lemma claimed_no_panic tg pk key revision : claimed tg pk key revision ≠ Panic.
Proof.
  unfold claimed. case_match; [done|]. apply res_bind_no_panic; [|done]. unfold validated_idempotency_key. by repeat case_match.
Qed.

Lemma ensure_passes j key : ensure_input_key_matches j key = Ok tt → key = stable_idempotency_key j.
Proof.
  unfold ensure_input_key_matches. intros (k & Hk & H)%res_bind_Ok. unfold validated_idempotency_key in Hk.
  assert (k = stable_idempotency_key j) as -> by (destruct (idempotency_key j) as [s|]; [destruct (s =? _) in Hk|]; congruence).
  destruct (_ =? key) eqn:E; [|done]. by apply Z.eqb_eq in E as ->.
Qed.

(** The calls both transitions begin with. *)
Lemma wp_current seed i j w (f : ConfiguredGatewayIdentity → io GatewayIdentityError unit) P :
  on_disk seed i w →
  (∀ w1, same w w1 → target i = target j → public_key i = public_key j → wp (f i) (marked seed i j P) (advanced seed i) w1) →
  wp (_ ← lock_for_write;
      current ← load;
      current ← lift (ok_or current InvalidTransition);
      _ ← lift (require_matching_identity current j);
      f current) (marked seed i j P) (advanced seed i) w.
Proof.
  intros Hd Hf. assert (∀ w', same w w' → advanced seed i w') as Hsame
    by (intros w' Hw'; exists i; split; [by eapply on_disk_same|apply advances_refl]).
  apply wp_bind. eapply wp_mono; [apply (reads_lock w), same_refl| |exact Hsame]. intros [[]|e|] w1 [Hw1 ?]; [|by apply Hsame|done].
  apply wp_bind. eapply wp_mono; [by apply (wp_load_disk seed i w)| |exact Hsame]. intros [x|e|] w2 [Hw2 Hx]; [subst x|by apply Hsame|done].
  apply wp_bind, wp_lift. cbn [ok_or]. apply wp_bind, wp_lift. unfold require_matching_identity.
  repeat case_bool_decide; cbn [andb]; [by apply Hf|by apply Hsame..].
Qed.

Lemma wp_mark_pending seed i j key now pid sequence w :
  on_disk seed i w →
  wp (mark_claim_pending j key now pid sequence) (marked seed i j (fun f => f ≠ KeyGenerated)) (advanced seed i) w.
Proof.
  intros Hd. assert (∀ w', same w w' → advanced seed i w') as Hsame
    by (intros w' Hw'; exists i; split; [by eapply on_disk_same|apply advances_refl]).
  unfold mark_claim_pending. apply wp_bind, wp_lift. pose proof (ensure_no_panic j key) as Hnp.
  destruct (ensure_input_key_matches j key) as [[]|e|] eqn:He; [|apply Hsame, same_refl|done]. apply ensure_passes in He.
  apply wp_current; [done|]. intros w1 Hw1 Ht Hpk. pose proof (on_disk_same _ _ _ _ Hd Hw1) as Hd1.
  assert (∀ f, phase i = f → f ≠ KeyGenerated → marked seed i j (fun f => f ≠ KeyGenerated) (Ok tt) w1) as Hdone.
  { intros f Hf Hne. exists i. split_and!; [done|apply advances_refl|done|done|congruence]. }
  destruct (phase i) as [|k|k r] eqn:Hph.
  - eapply wp_mono; [apply (wp_advance seed i (ClaimPending key)); [done|done| | |done]| |done].
    + split_and!; [done|done|]. right. left. split; [done|by eexists].
    + intros k [= <-]. rewrite He. unfold stable_idempotency_key. by rewrite Ht, Hpk.
    + intros [[]|e|] w' Hw'; [|done|done]. eexists. split_and!; [exact Hw'| |done|done|done].
      split_and!; [done|done|]. right. left. split; [done|by eexists].
  - destruct (k =? key); [apply wp_ret; by apply (Hdone _ eq_refl)|apply wp_fail; by apply Hsame].
  - destruct (k =? key); [apply wp_ret; by apply (Hdone _ eq_refl)|apply wp_fail; by apply Hsame].
Qed.

Lemma wp_mark_claimed seed i j key revision now pid sequence w :
  on_disk seed i w →
  wp (mark_claimed j key revision now pid sequence) (marked seed i j (eq (Claimed key revision))) (advanced seed i) w.
Proof.
  intros Hd. assert (∀ w', same w w' → advanced seed i w') as Hsame
    by (intros w' Hw'; exists i; split; [by eapply on_disk_same|apply advances_refl]).
  unfold mark_claimed. apply wp_bind, wp_lift. pose proof (ensure_no_panic j key) as Hnp.
  destruct (ensure_input_key_matches j key) as [[]|e|] eqn:He; [|apply Hsame, same_refl|done]. apply ensure_passes in He.
  apply wp_bind, wp_lift. destruct (claimed (target j) (public_key j) key revision) as [c|e|] eqn:Hcl; [|apply Hsame, same_refl|].
  2: { exfalso. revert Hcl. apply claimed_no_panic. }
  apply claimed_Ok in Hcl as (_ & _ & Hrev).
  apply wp_current; [done|]. intros w1 Hw1 Ht Hpk. pose proof (on_disk_same _ _ _ _ Hd Hw1) as Hd1.
  destruct (phase i) as [|k|k r] eqn:Hph; [apply wp_fail; by apply Hsame| |].
  - destruct (k =? key); [|apply wp_fail; by apply Hsame].
    eapply wp_mono; [apply (wp_advance seed i (Claimed key revision)); [done|done| | |by intros ? ? [= _ <-]]| |done].
    + split_and!; [done|done|]. right. right. split; [by eexists|by do 2 eexists].
    + intros k' [= <-]. rewrite He. unfold stable_idempotency_key. by rewrite Ht, Hpk.
    + intros [[]|e|] w' Hw'; [|done|done]. eexists. split_and!; [exact Hw'| |done|done|done].
      split_and!; [done|done|]. right. right. split; [by eexists|by do 2 eexists].
  - destruct ((k =? key) && (r =? revision)) eqn:E; [|apply wp_fail; by apply Hsame].
    apply andb_prop in E as [->%Z.eqb_eq ->%Z.eqb_eq]. apply wp_ret. exists i. by split_and!; [|apply advances_refl|..].
Qed.

(** ** The invariant *)

(** A task that has no identity yet. *)
Definition undecided (k : task) : Prop :=
  match k with TLoad _ _ | TPersist _ _ | TDone (Err _) | TDone Panic => True | _ => False end.
Definition same_identity (i j : ConfiguredGatewayIdentity) (key : Z) : Prop :=
  target j = target i ∧ public_key j = public_key i ∧ key = stable_idempotency_key i.
Definition agrees (i : ConfiguredGatewayIdentity) (k : task) : Prop :=
  match k with
  | TPending j key _ => same_identity i j key
  | TClaim j key _ | TRecord j key _ => same_identity i j key ∧ phase i ≠ KeyGenerated
  | TDone (Ok r) => r_identity r = i ∧ ∃ key revision, phase i = Claimed key revision
  | _ => True
  end.
Definition claim_for (i : ConfiguredGatewayIdentity) (c : CloudEnrollmentClaim) : Prop :=
  c_target c = target i ∧ c_public_key c = public_key i ∧ c_idempotency_key c = stable_idempotency_key i.

Record decided (y : system) (seed : list Z) (i : ConfiguredGatewayIdentity) : Prop := {
  dc_disk : on_disk seed i (disk y);
  dc_tasks p k : tasks y !! p = Some k → agrees i k;
  dc_sent : Forall (claim_for i) (sent y);
  dc_pending : sent y ≠ [] → phase i ≠ KeyGenerated }.
Definition inv (y : system) : Prop :=
  (absent (disk y) ∧ sent y = [] ∧ ∀ p k, tasks y !! p = Some k → undecided k) ∨ ∃ seed i, decided y seed i.

Lemma undecided_agrees i k : undecided k → agrees i k.
Proof. destruct k as [| | | | |[]]; done. Qed.

Lemma advances_stable i i' : advances i i' → stable_idempotency_key i' = stable_idempotency_key i.
Proof. intros (Ht & Hp & _). unfold stable_idempotency_key. by rewrite Ht, Hp. Qed.
Lemma advances_phase i i' : advances i i' → phase i ≠ KeyGenerated → phase i' ≠ KeyGenerated.
Proof. intros (_ & _ & [->|[[Hg _]|[_ (k & r & ->)]]]) Hne; done. Qed.

Lemma agrees_advances i i' k : advances i i' → agrees i k → agrees i' k.
Proof.
  intros Ha. pose proof (advances_stable _ _ Ha) as Hst. pose proof (advances_phase _ _ Ha) as Hph.
  assert (∀ j key, same_identity i j key → same_identity i' j key) as Hsame.
  { intros j key (H1 & H2 & ->). destruct Ha as (Ht & Hp & _). split_and!; congruence. }
  destruct k as [| |j key tok|j key tok|j key rev|[r|e|]]; cbn; [done|done|auto|naive_solver|naive_solver| |done|done].
  intros [Hr (key & rev & Hc)]. assert (i' = i) as ->; [|by eauto].
  destruct Ha as (Ht & Hp & [H|[[H _]|[(k & H) _]]]); [|congruence..]. destruct i, i'; cbn in *. congruence.
Qed.

Lemma claim_advances i i' c : advances i i' → claim_for i c → claim_for i' c.
Proof. intros Ha (H1 & H2 & H3). pose proof (advances_stable _ _ Ha). destruct Ha as (Ht & Hp & _). split_and!; congruence. Qed.

(** A step of process [p] that leaves the disk at [w] and the process at [k']. *)
Lemma decided_step y seed i i' p w c (k' : option task) :
  decided y seed i → on_disk seed i' w → advances i i' → (∀ k, k' = Some k → agrees i' k) →
  Forall (claim_for i') c → (c ≠ [] → phase i' ≠ KeyGenerated) →
  inv (Sys (partial_alter (fun _ => k') p (tasks y)) w (c ++ sent y)).
Proof.
  intros Hd Hw Ha Hk Hc Hcp. right. exists seed, i'. split; cbn [disk tasks sent].
  - done.
  - intros q k Hq. destruct (decide (q = p)) as [->|Hne].
    + rewrite lookup_partial_alter_eq in Hq. by apply Hk.
    + rewrite lookup_partial_alter_ne in Hq by done. eapply agrees_advances; [exact Ha|]. by eapply dc_tasks.
  - apply Forall_app. split; [done|]. eapply Forall_impl; [apply (dc_sent _ _ _ Hd)|]. intros x. by apply claim_advances.
  - intros Hne. destruct c as [|x c]; [|by apply Hcp]. eapply advances_phase; [exact Ha|]. by apply (dc_pending _ _ _ Hd).
Qed.

Lemma undecided_step y p w (k' : option task) :
  sent y = [] → (∀ q k, tasks y !! q = Some k → undecided k) → absent w → (∀ k, k' = Some k → undecided k) →
  inv (Sys (partial_alter (fun _ => k') p (tasks y)) w (sent y)).
Proof.
  intros Hs Hu Hw Hk. left. split_and!; [done|done|]. intros q k Hq. cbn in Hq. destruct (decide (q = p)) as [->|Hne].
  - rewrite lookup_partial_alter_eq in Hq. by apply Hk.
  - rewrite lookup_partial_alter_ne in Hq by done. by eapply Hu.
Qed.

Lemma identity_agrees i token :
  (∀ k, idempotency_key i = Some k → k = stable_idempotency_key i) → agrees i (enroll_identity i token).
Proof.
  intros Hk. unfold enroll_identity. rewrite stable_validated by done. destruct (phase i) eqn:Hp; cbn; [done| |by eauto].
  split; [done|congruence].
Qed.

(** ** One step *)

Definition progressed (seed : list Z) (i : ConfiguredGatewayIdentity)
    (r : res GatewayIdentityError (task * list CloudEnrollmentClaim)) (w' : world) : Prop :=
  ∃ i', on_disk seed i' w' ∧ advances i i' ∧
    match r with
    | Ok (k, c) => agrees i' k ∧ Forall (claim_for i') c ∧ (c ≠ [] → phase i' ≠ KeyGenerated)
    | _ => True
    end.

Lemma progressed_quiet seed i i' k w' :
  on_disk seed i' w' → advances i i' → agrees i' k → progressed seed i (Ok (k, [])) w'.
Proof. intros H1 H2 H3. exists i'. by split_and!. Qed.

Lemma progressed_failed seed i e w' : advanced seed i w' → progressed seed i (Ok (failed e, [])) w'.
Proof. intros (i' & H1 & H2). by eapply progressed_quiet. Qed.

Lemma step_decided seed i k a w :
  on_disk seed i w → agrees i k → wp (enroll_step a k) (progressed seed i) (advanced seed i) w.
Proof.
  intros Hd Hk. assert (∀ w', same w w' → advanced seed i w') as Hsame
    by (intros w' Hw'; exists i; split; [by eapply on_disk_same|apply advances_refl]).
  assert (advanced seed i w) as Hnow by apply Hsame, same_refl.
  destruct k as [tg token|tg token|j key token|j key token|j key revision|r]; cbn [enroll_step].
  - apply wp_bind, wp_attempt. eapply wp_mono; [apply (wp_load_disk seed i w); [done|apply same_refl]| |exact Hsame].
    intros [x|e|] w' [Hw' Hx]; [subst x| |done]; apply wp_ret; [|apply progressed_failed; by apply Hsame].
    case_bool_decide; [|apply progressed_failed; by apply Hsame].
    eapply progressed_quiet; [by eapply on_disk_same|apply advances_refl|]. apply identity_agrees, Hd.
  - destruct (a_generate a) as [[s pk]|e|]; [|apply wp_ret; by apply progressed_failed|apply wp_lift; by destruct Hnow as (i' & ? & ?); exists i'].
    destruct (a_now a) as [now|]; [|apply wp_ret; by apply progressed_failed].
    apply wp_bind, wp_attempt. eapply wp_mono; [by apply (wp_persist_disk tg s pk now _ _ seed i w)| |exact Hsame].
    intros [[]|e|] w' [Hw' Hx]; [|apply wp_ret; apply progressed_failed; by apply Hsame|done]. apply wp_ret. destruct Hx as [Ht Hpk].
    eapply progressed_quiet; [by eapply on_disk_same|apply advances_refl|]. cbn. unfold enroll_identity. cbn.
    unfold same_identity, stable_idempotency_key. cbn. by rewrite Ht, Hpk.
  - destruct (a_now a) as [now|]; [|apply wp_ret; by apply progressed_failed]. destruct Hk as (Ht & Hpk & Hkey).
    apply wp_bind, wp_attempt. eapply wp_mono; [by apply (wp_mark_pending seed i j key now)| |done].
    intros [[]|e|] w' Hw'; [|apply wp_ret; by apply progressed_failed|done]. destruct Hw' as (i' & Hd' & Ha & Ht' & Hp' & Hph).
    apply wp_ret. cbn [on_success]. eapply progressed_quiet; [done|done|].
    destruct (claim_pending _ _ _) as [x|e|] eqn:Hx; [|done|done]. apply claim_pending_Ok in Hx. subst x. cbn.
    pose proof (advances_stable _ _ Ha). split; [|done]. split_and!; cbn; congruence.
  - destruct Hk as [(Ht & Hpk & Hkey) Hph]. apply wp_ret. exists i. split_and!; [done|apply advances_refl| | |done].
    + destruct (a_cloud a _) as [receipt|e|]; [|done|done]. destruct (validate_receipt _ _); [|done|done]. by split.
    + apply Forall_singleton. by split_and!.
  - destruct (a_now a) as [now|]; [|apply wp_ret; by apply progressed_failed]. destruct Hk as [(Ht & Hpk & Hkey) Hph].
    apply wp_bind, wp_attempt. eapply wp_mono; [by apply (wp_mark_claimed seed i j key revision now)| |done].
    intros [[]|e|] w' Hw'; [|apply wp_ret; by apply progressed_failed|done]. destruct Hw' as (i' & Hd' & Ha & Ht' & Hp' & Hph').
    apply wp_ret. cbn [on_success]. eapply progressed_quiet; [done|done|].
    destruct (claimed _ _ _ _) as [x|e|] eqn:Hx; [|done|done]. apply claimed_Ok in Hx as [-> _]. cbn. split; [|by eauto].
    destruct i'; cbn in *. congruence.
  - apply wp_ret. eapply progressed_quiet; [done|apply advances_refl|done].
Qed.

(** A generated seed is a 32-byte array. *)
Definition answers_ok (a : answers) : Prop := ∀ s pk, a_generate a = Ok (s, pk) → length s = 32%nat.
Definition event_ok (e : event * list fault) : Prop := match e.1 with EStep _ a => answers_ok a | _ => True end.

Definition begun (w : world) : Prop := absent w ∨ ∃ s i, on_disk s i w.

Lemma step_absent k a w :
  absent w → undecided k → answers_ok a →
  wp (enroll_step a k)
    (fun r w' => match r with
       | Ok (k', c) => c = [] ∧ (absent w' ∧ undecided k' ∨ ∃ s i, on_disk s i w' ∧ agrees i k')
       | _ => begun w'
       end) begun w.
Proof.
  intros Ha Hk Hok. assert (∀ w', same w w' → absent w') as Hsame by (intros w' Hw'; by eapply absent_same).
  destruct k as [tg token|tg token| | | |r]; try done; cbn [enroll_step].
  - apply wp_bind, wp_attempt. eapply wp_mono; [apply (wp_load_absent w); [done|apply same_refl]| |intros w' Hw'; left; by apply Hsame].
    intros [x|e|] w' [Hw' Hx]; [subst x| |done]; apply wp_ret; (split; [done|]); left; by split; [apply Hsame|].
  - destruct (a_generate a) as [[s pk]|e|] eqn:Hg; [|apply wp_ret; split; [done|]; by left|apply wp_lift; by left].
    destruct (a_now a) as [now|]; [|apply wp_ret; split; [done|]; by left].
    apply wp_bind, wp_attempt. eapply wp_mono; [apply (wp_persist_absent tg s pk now); [done|by eapply Hok]| |intros w' [?|?]; [by left|right; by eauto]].
    intros [[]|e|] w' Hw'; [| |done]; apply wp_ret; (split; [done|]).
    + right. exists s, (key_generated tg pk). split; [done|]. by apply identity_agrees.
    + destruct Hw' as [?|?]; [by left|right; by eauto].
  - apply wp_ret. split; [done|]. by left.
Qed.

Lemma enrollment_step_inv y e : event_ok e → inv y → inv (step y e).
Proof.
  intros Hok Hi. destruct e as [[p tg token|p a|p] fs]; cbn [step].
  - destruct Hi as [(Ha & Hs & Hu)|(seed & i & Hd)].
    + apply (undecided_step y p (disk y) (Some (TLoad tg token))); [done|done|done|]. by intros k [= <-].
    + apply (decided_step y seed i i p (disk y) [] (Some (TLoad tg token))); [done|apply Hd|apply advances_refl| |done|done]. by intros k [= <-].
  - destruct (tasks y !! p) as [k|] eqn:Hp; [|done]. set (w := with_faults fs (disk y)).
    assert (same (disk y) w) as Hw by by exists fs. clearbody w.
    destruct Hi as [(Ha & Hs & Hu)|(seed & i & Hd)].
    + pose proof (step_absent k a w (absent_same _ _ Ha Hw) (Hu p k Hp) Hok) as Hstep. unfold wp in Hstep.
      assert (∀ w', begun w' → inv (Sys (delete p (tasks y)) w' (sent y))) as Hend.
      { intros w' [Hw'|(s & i & Hd)]; [by apply (undecided_step y p w' None)|]. right. exists s, i. split; cbn; [done| |by rewrite Hs|by rewrite Hs].
        intros q k' [_ Hq]%lookup_delete_Some. eapply undecided_agrees, Hu. exact Hq. }
      destruct (enroll_step a k w) as [[[[k' c]|e|]|] w']; [|by apply Hend..]. destruct Hstep as [-> [[Ha' Hu']|(s & i & Hd & Hk')]].
      * apply (undecided_step y p w' (Some k')); [done|done|done|]. by intros ? [= <-].
      * right. exists s, i. split; cbn; [done| |by rewrite Hs|by rewrite Hs].
        intros q x [[_ <-]|[_ Hq]]%lookup_insert_Some; [done|]. eapply undecided_agrees, Hu. exact Hq.
    + pose proof (step_decided seed i k a w (on_disk_same _ _ _ _ (dc_disk _ _ _ Hd) Hw) (dc_tasks _ _ _ Hd p k Hp)) as Hstep. unfold wp in Hstep.
      assert (∀ w', advanced seed i w' → inv (Sys (delete p (tasks y)) w' (sent y))) as Hend.
      { intros w' (i' & Hd' & Ha). by apply (decided_step y seed i i' p w' [] None). }
      destruct (enroll_step a k w) as [[[[k' c]|e|]|] w'].
      * destruct Hstep as (i' & Hd' & Ha & Hk' & Hc & Hne). apply (decided_step y seed i i' p w' c (Some k')); try done. by intros ? [= <-].
      * apply Hend. destruct Hstep as (i' & Hd' & Ha & _). by exists i'.
      * apply Hend. destruct Hstep as (i' & Hd' & Ha & _). by exists i'.
      * by apply Hend.
  - destruct Hi as [(Ha & Hs & Hu)|(seed & i & Hd)].
    + by apply (undecided_step y p (disk y) None).
    + apply (decided_step y seed i i p (disk y) [] None); [done|apply Hd|apply advances_refl|done|done|done].
Qed.

Lemma enrollment_inv w es : fs_ok w → path_bytes w directory = None → Forall event_ok es → inv (run w es).
Proof.
  intros Hw Hp. unfold run. induction es as [|e es IH] using rev_ind; intros Hok; [left|].
  - split_and!; [done|done|]. intros q k Hq. cbn in Hq. by rewrite lookup_empty in Hq.
  - apply Forall_app in Hok as [Hes He]. rewrite fold_left_app. cbn [fold_left]. apply enrollment_step_inv; [by inversion He|by apply IH].
Qed.

(** C12. One gateway, one key.  However many processes run the enrollment at once, with
    whatever targets, and whichever calls fail or processes die, every claim that is
    ever sent to the cloud has the same target, the same public key and the same
    idempotency key; and from the first claim on the disk holds the private seed of that
    public key, with the claim recorded as pending or claimed. *)
Theorem one_identity (w : world) (es : list (event * list fault)) :
  fs_ok w → path_bytes w directory = None → Forall event_ok es →
  let y := run w es in
  (∀ c c', c ∈ sent y → c' ∈ sent y →
     c_target c = c_target c' ∧ c_public_key c = c_public_key c' ∧ c_idempotency_key c = c_idempotency_key c') ∧
  (∀ c, c ∈ sent y → ∃ seed i p,
     path_bytes (disk y) seed_path = Some seed ∧ verifying_key seed = c_public_key c ∧
     path_bytes (disk y) state_path = Some (serialize_state i p) ∧ target i = c_target c ∧ public_key i = c_public_key c ∧
     match p with
     | SKeyGenerated _ => False
     | SClaimPending k _ | SClaimed k _ _ => k = uuid_to_string (c_idempotency_key c)
     end).
Proof.
  intros Hw Hp Hes y. destruct (enrollment_inv w es Hw Hp Hes) as [(_ & Hs & _)|(seed & i & [[(p & Hh & Hph & _) Hseed _ Hkey _] _ Hsent Hpend])].
  { unfold y. rewrite Hs. split; [by intros c c' ?%elem_of_nil|by intros c ?%elem_of_nil]. }
  fold y in Hh, Hsent, Hpend. rewrite Forall_forall in Hsent. split.
  - intros c c' (H1 & H2 & H3)%Hsent (H4 & H5 & H6)%Hsent. split_and!; congruence.
  - intros c Hc. pose proof (Hsent c Hc) as (H1 & H2 & H3). destruct Hh as (_ & _ & Hs1 & Hs2).
    assert (phase i ≠ KeyGenerated) as Hne by (apply Hpend; by intros E; rewrite E in Hc; apply elem_of_nil in Hc).
    exists seed, i, p. split_and!; [done|congruence|done|done|done|]. unfold stored_phase in Hph. unfold idempotency_key in Hkey.
    destruct (phase i) as [|k|k r], p; try done; [|destruct Hph as [Hph _]]; rewrite Hph, H3; f_equal; by apply Hkey.
Qed.

(** ** Reading the claimed key without faults *)

Lemma run_exists p w ino : w_faults w = [] → w_names w !! p = Some ino → exists_path p w = (Some (Ok true), w).
Proof. intros Hf Hp. unfold exists_path. eapply run_bind; [unfold attempt; by rewrite (run_open _ _ _ ino)|done]. Qed.

Lemma run_required p w ino : w_faults w = [] → w_names w !! p = Some ino → open_required p w = (Some (Ok ino), w).
Proof.
  intros Hf Hp. unfold open_required. eapply (run_bind _ _ _ (Some ino) w); [|done]. unfold open_existing_private_file.
  eapply run_bind; [by eapply run_exists|]. cbn [negb]. eapply run_bind; [by apply run_syscall|].
  eapply run_bind; [by apply run_open|]. by eapply run_bind; [apply run_syscall|].
Qed.

Lemma run_read_identity seed state w :
  w_faults w = [] → holding seed state w → length seed = 32%nat → validate_state_size state = Ok tt →
  read_secret_identity w = (Some (Ok (Some (seed, state))), w).
Proof.
  intros Hf (_ & Hd & Hs & Hst) Hlen Hsize. unfold path_bytes in *.
  destruct (w_names w !! directory) as [i0|] eqn:E0; [|by destruct Hd]. destruct (w_names w !! seed_path) as [i1|] eqn:E1; [|done].
  destruct (w_names w !! state_path) as [i2|] eqn:E2; [|done]. injection Hs as Hs. injection Hst as Hst.
  unfold validate_state_size in Hsize. destruct (_ || _) eqn:Hsz in Hsize; [done|].
  unfold read_secret_identity. eapply run_bind.
  { unfold validate_existing_directory_chain. eapply run_bind; [by eapply run_exists|]. cbn [negb].
    by eapply run_bind; [apply run_syscall|]. }
  cbn [negb]. eapply run_bind.
  { unfold read_seed. eapply run_bind; [by eapply run_required|]. eapply run_bind; [by apply run_syscall|].
    rewrite Hs, Hlen. cbn [negb Nat.eqb]. eapply run_bind; [by apply run_syscall|]. eapply run_bind; [by apply run_syscall|]. by rewrite Hs. }
  eapply (run_bind _ _ _ state w); [|done].
  unfold read_state. eapply run_bind; [by eapply run_required|]. eapply run_bind; [by apply run_syscall|].
  rewrite Hst, Hsz. eapply run_bind; [by apply run_syscall|]. rewrite Hst, Nat.eqb_refl. done.
Qed.

Definition revalidates (tg : GatewayEnrollmentTarget) : Prop :=
  target_new (cloud_origin tg) (uuid_to_string (tenant_id tg)) (uuid_to_string (project_id tg)) (uuid_to_string (gateway_id tg))
    (endpoint_policy (cloud_origin tg)) = Ok tg.

Lemma decodes i p seed :
  (∀ s, uuid_v5 s ≠ 0) → (∀ s, length (verifying_key s) = 32%nat) → revalidates (target i) → stored_phase (phase i) p →
  verifying_key seed = public_key i → (∀ k, idempotency_key i = Some k → k = stable_idempotency_key i) →
  (∀ k r, phase i = Claimed k r → revision_ok r = true) →
  decode_stored_identity seed (serialize_state i p) = Ok (i, seed).
Proof.
  intros Hv5 Hlen Hre Hp Hseed Hkey Hrev. destruct i as [tg pk ph]. cbn in Hseed. subst pk. set (pk := verifying_key seed) in *.
  assert (decode_public_key (base64_encode pk) = Ok pk) as Hpk.
  { unfold decode_public_key. rewrite Hbase64. cbn. unfold pk. rewrite Hlen. cbn. by rewrite bool_decide_true. }
  assert (∀ k, k = stable_key tg pk → decode_idempotency_key (uuid_to_string k) = Ok k) as Hdec.
  { intros k ->. unfold decode_idempotency_key. rewrite Huuid. cbn. rewrite bool_decide_true by done. cbn.
    unfold stable_key. by rewrite (proj2 (Z.eqb_neq _ _) (Hv5 _)). }
  unfold decode_stored_identity. assert (decode_stored_state (serialize_state (Identity tg pk ph) p) = Ok (Identity tg pk ph)) as ->; [|cbn; by rewrite bool_decide_true].
  unfold decode_stored_state, serialize_state. rewrite Hcodec. cbn [ok_or mbind res_bind stored_state s_schema s_cloud_origin s_tenant_id
    s_project_id s_gateway_id s_public_key s_fingerprint s_phase target public_key].
  unfold revalidates in Hre. cbn [target] in Hre. rewrite Hre. cbn [corrupt]. rewrite Hpk, !bool_decide_true by done. cbn [negb].
  unfold idempotency_key in Hkey. cbn [phase] in *.
  destruct ph as [|k|k r], p as [rec|s rec|s r' rec]; cbn in Hp; try done;
    cbn -[claim_pending claimed]; rewrite !bool_decide_true by done; cbn [negb].
  - done.
  - subst s. rewrite Hdec by (by apply Hkey). cbn -[claim_pending]. unfold claim_pending. by rewrite stable_validated.
  - destruct Hp as [-> ->]. rewrite Hdec by (by apply Hkey). cbn -[claimed]. unfold claimed.
    rewrite (Hrev k r eq_refl). cbn [negb]. by rewrite stable_validated.
Qed.

(** C30. Once an enrollment reported success, the identity it reported stays available:
    whatever runs or fails afterwards, a fault-free reader of the claimed identity gets
    exactly that identity, with the private seed of its public key. *)
Theorem claimed_identity_loads (w : world) (es : list (event * list fault)) (p : nat) (r : GatewayEnrollmentResult) :
  (∀ s, uuid_v5 s ≠ 0) → (∀ s, length (verifying_key s) = 32%nat) →
  fs_ok w → path_bytes w directory = None → Forall event_ok es →
  let y := run w es in
  tasks y !! p = Some (TDone (Ok r)) → revalidates (target (r_identity r)) →
  ∃ seed, load_claimed_identity (with_faults [] (disk y)) = (Some (Ok (Some (r_identity r, seed))), with_faults [] (disk y)) ∧
    verifying_key seed = public_key (r_identity r).
Proof.
  intros Hv5 Hlen Hw Hp Hes y Ht Hre. destruct (enrollment_inv w es Hw Hp Hes) as [(_ & _ & Hu)|(seed & i & Hd)]; [by apply Hu in Ht|].
  destruct (dc_tasks _ _ _ Hd _ _ Ht) as [Hr (key & rev & Hph)]. rewrite Hr in *. exists seed.
  destruct (dc_disk _ _ _ Hd) as [(sp & Hh & Hsp & Hsize) Hseed Hl Hkey Hrev]. split; [|done].
  unfold load_claimed_identity. eapply run_bind.
  { unfold load_internal. eapply run_bind; [by apply (run_read_identity seed (serialize_state i sp))|]. cbv beta iota.
    rewrite decodes by done. by eapply run_bind. }
  cbv beta iota. rewrite Hph. unfold lift, claimed. rewrite (Hrev _ _ Hph). cbn [negb].
  assert (Identity (target i) (public_key i) (Claimed key rev) = i) as -> by (destruct i; cbn in *; congruence).
  rewrite stable_validated by done. done.
Qed.
End Laws.
End Enrollment.

(** ** A sample history *)
Module Sample.

Fixpoint pos_to (p : positive) : string :=
  match p with xI p => "1" +:+ pos_to p | xO p => "0" +:+ pos_to p | xH => "" end.
Fixpoint pos_from (s : string) : positive :=
  match s with "" => xH | String c s => if Ascii.eqb c (Ascii.ascii_of_nat 49) then xI (pos_from s) else xO (pos_from s) end.
Lemma pos_from_to p : pos_from (pos_to p) = p.
Proof.
  induction p as [p IH|p IH|]; [|..|done].
  - change (xI (pos_from (pos_to p)) = xI p). by rewrite IH.
  - change (xO (pos_from (pos_to p)) = xO p). by rewrite IH.
Qed.

Definition uuid_to_string (u : Z) : string := pos_to (encode u).
Definition uuid_parse (s : string) : option Z := decode (pos_from s).
Lemma sample_uuid u : uuid_parse (uuid_to_string u) = Some u.
Proof. unfold uuid_parse, uuid_to_string. by rewrite pos_from_to, decode_encode. Qed.

Definition base64_encode (b : list Z) : string := pos_to (encode b).
Definition base64_decode (s : string) : option (list Z) := decode (pos_from s).
Lemma sample_base64 b : base64_decode (base64_encode b) = Some b.
Proof. unfold base64_decode, base64_encode. by rewrite pos_from_to, decode_encode. Qed.

Definition phase_to (p : StoredPhase) : list Z :=
  match p with
  | SKeyGenerated at_ => [0; at_]
  | SClaimPending k at_ => [1; Z.pos (encode k); at_]
  | SClaimed k r at_ => [2; Z.pos (encode k); r; at_]
  end.
Definition phase_from (l : list Z) : option StoredPhase :=
  match l with
  | [0; at_] => Some (SKeyGenerated at_)
  | [1; Z.pos k; at_] => k ← decode k; Some (SClaimPending k at_)
  | [2; Z.pos k; r; at_] => k ← decode k; Some (SClaimed k r at_)
  | _ => None
  end.
Definition to_vec (s : StoredState) : list Z :=
  map (fun x => Z.pos (encode x)) [s_schema s; s_cloud_origin s; s_tenant_id s; s_project_id s; s_gateway_id s; s_public_key s; s_fingerprint s]
  ++ phase_to (s_phase s).
Definition from_slice (l : list Z) : option StoredState :=
  match l with
  | Z.pos a :: Z.pos b :: Z.pos c :: Z.pos d :: Z.pos e :: Z.pos f :: Z.pos g :: l =>
      a ← decode a; b ← decode b; c ← decode c; d ← decode d; e ← decode e; f ← decode f; g ← decode g;
      p ← phase_from l; Some (Stored a b c d e f g p)
  | _ => None
  end.
Lemma sample_enrollment_codec s : from_slice (to_vec s) = Some s.
Proof.
  unfold to_vec, from_slice. cbn [map app]. rewrite !decode_encode. cbn. destruct s as [? ? ? ? ? ? ? []]; cbn; by rewrite ?decode_encode.
Qed.

Definition url_parse (s : string) : option Url :=
  if bool_decide (s = "https://cloud") then Some (MkUrl false "" None "/" None None (Some "cloud") "https" (Some "https://cloud")) else None.
Definition uuid_v5 (_ : string) : Z := 7.
Definition fingerprint (_ : list Z) : string := "f".
Definition verifying_key (s : list Z) : list Z := take 32 (s ++ repeat 0 32).
Lemma sample_key_length s : length (verifying_key s) = 32%nat.
Proof. unfold verifying_key. rewrite length_take, length_app, repeat_length. lia. Qed.
Lemma sample_v5 s : uuid_v5 s ≠ 0.
Proof. done. Qed.

Definition cloud : GatewayEnrollmentTarget := Target "https://cloud" 1 2 3.
Definition answer (b pid : Z) (r : res CloudEnrollmentClientError CloudEnrollmentReceipt) : answers :=
  Answers (Ok (repeat b 32, repeat b 32)) (Some 5) (fun _ => r) pid 1.
Definition accepted : res CloudEnrollmentClientError CloudEnrollmentReceipt := Ok (Receipt (uuid_to_string 3) 9).

(** Two processes find no identity; the one that installs its key dies before it can
    say so, the other's key is refused.  A third one claims and gets no answer; a fourth
    one claims again and records the receipt. *)
Definition history : list (event * list fault) :=
  [(EStart 0 cloud "a", []); (EStart 1 cloud "b", []); (EStep 0 (answer 1 0 accepted), []); (EStep 1 (answer 2 1 accepted), []);
   (EStep 1 (answer 2 1 accepted), replicate 22 FOk ++ [FCrash 0]); (EStep 0 (answer 1 0 accepted), []);
   (EStart 2 cloud "c", []); (EStep 2 (answer 3 2 accepted), []); (EStep 2 (answer 3 2 accepted), []);
   (EStep 2 (answer 3 2 (Err Timeout)), []);
   (EStart 3 cloud "d", []); (EStep 3 (answer 4 3 accepted), []); (EStep 3 (answer 4 3 accepted), []); (EStep 3 (answer 4 3 accepted), [])].

Definition empty_disk : world := World ∅ ∅ 0 [].
Lemma sample_empty_disk : fs_ok empty_disk.
Proof. split; intros ? ? H; cbn in H; rewrite lookup_empty in H; done. Qed.
Lemma sample_no_directory : path_bytes empty_disk (directory "/data" "identity") = None.
Proof. done. Qed.
Lemma sample_events : Forall event_ok history.
Proof. repeat constructor; by intros s pk [= <- _]. Qed.

#[local] Abbreviation final := (run url_parse uuid_parse uuid_to_string uuid_v5 fingerprint verifying_key base64_encode base64_decode
  to_vec from_slice "/data" "identity" empty_disk history).

Definition result : GatewayEnrollmentResult := EnrollmentResult (Identity cloud (repeat 2 32) (Claimed 7 9)) false.
Lemma sample_claims : map (fun c => (c_public_key c, c_enrollment_token c)) (sent final) = [(repeat 2 32, "d"); (repeat 2 32, "c")].
Proof. vm_compute. reflexivity. Qed.
Lemma sample_result : tasks final !! 3%nat = Some (TDone (Ok result)).
Proof. vm_compute. reflexivity. Qed.
Lemma sample_revalidates : revalidates url_parse uuid_parse uuid_to_string (target (r_identity result)).
Proof. vm_compute. reflexivity. Qed.

Lemma one_identity_witness :
  (∀ c c', c ∈ sent final → c' ∈ sent final →
     c_target c = c_target c' ∧ c_public_key c = c_public_key c' ∧ c_idempotency_key c = c_idempotency_key c') ∧
  (∀ c, c ∈ sent final → ∃ seed i p,
     path_bytes (disk final) (seed_path "/data" "identity") = Some seed ∧ verifying_key seed = c_public_key c ∧
     path_bytes (disk final) (state_path "/data" "identity") = Some (serialize_state uuid_to_string fingerprint base64_encode to_vec i p) ∧
     target i = c_target c ∧ public_key i = c_public_key c ∧
     match p with
     | SKeyGenerated _ => False
     | SClaimPending k _ | SClaimed k _ _ => k = uuid_to_string (c_idempotency_key c)
     end).
Proof.
  exact (one_identity url_parse uuid_parse uuid_to_string uuid_v5 fingerprint verifying_key base64_encode base64_decode to_vec from_slice
    "/data" "identity" sample_uuid sample_base64 sample_enrollment_codec empty_disk history sample_empty_disk sample_no_directory sample_events).
Defined.

Lemma claimed_identity_loads_witness :
  ∃ seed, load_claimed_identity url_parse uuid_parse uuid_to_string uuid_v5 fingerprint verifying_key base64_encode base64_decode from_slice
      "/data" "identity" (with_faults [] (disk final)) = (Some (Ok (Some (r_identity result, seed))), with_faults [] (disk final)) ∧
    verifying_key seed = public_key (r_identity result).
Proof.
  exact (claimed_identity_loads url_parse uuid_parse uuid_to_string uuid_v5 fingerprint verifying_key base64_encode base64_decode to_vec from_slice
    "/data" "identity" sample_uuid sample_base64 sample_enrollment_codec empty_disk history 3%nat result sample_v5 sample_key_length
    sample_empty_disk sample_no_directory sample_events sample_result sample_revalidates).
Defined.
End Sample.
End Enrollment.
