(* ===== verification/Publication.v ===== *)
(** * Coordinated publication of the shared-memory planes
    (libs/aether-shm-bridge/src/runtime.rs, health.rs, topology_commit.rs)

    The IO service owns two segments: the points and the health of the channels.  A
    topology change replaces both by staging files and renames, under one lease, and
    ends by writing a witness that names the epoch and the identity of both.  Readers
    accept the planes only when the witness and both headers agree.

    The advisory lock files are calls that may fail; a lease makes a transaction one
    run with respect to other transactions and to the readers that validate.  File
    errors of a kind that [map_io_error] calls permanent are not distinguished.  The
    layout hash of the health manifest (rustc-hash) is a parameter. *)

From Stdlib Require Import Ascii.
From stdpp Require Import base tactics numbers list gmap strings pretty sorting.
From S2P Require Import Prelude Text Float Outbox Slot Fs Shm Snapshot Manifest CommandSink.
#[local] Open Scope Z_scope.

Module Publication.
Import Fs Shm.

(** ** Paths (config.rs, topology_commit.rs) *)

(** Everything up to the last separator, and the file name. *)
Fixpoint split_file (s : string) : string * string :=
  match s with
  | "" => ("", "")
  | String c r =>
      let '(d, f) := split_file r in
      match d with
      | String _ _ => (String c d, f)
      | "" => if (c =? "/")%char then (String c "", f) else ("", String c f)
      end
  end.

(** [rsplit_once('.')]. *)
Fixpoint rsplit_dot (s : string) : option (string * string) :=
  match s with
  | "" => None
  | String c r =>
      match rsplit_dot r with
      | Some (a, b) => Some (String c a, b)
      | None => if (c =? ".")%char then Some ("", r) else None
      end
  end.

Definition generation_file_path (base : string) (generation : Z) : string :=
  let '(parent, file_name) := split_file base in
  parent +:+
  match rsplit_dot file_name with
  | Some (String c stem, ext) => String c stem +:+ "-" +:+ pretty generation +:+ "." +:+ ext
  | _ => file_name +:+ "-" +:+ pretty generation
  end.

(** [channel_health_path_from_shm] (health.rs), for a path that ends in a file name. *)
Definition channel_health_path_from_shm (shm_path : string) : string :=
  let '(parent, file_name) := split_file shm_path in
  parent +:+
  match rsplit_dot file_name with
  | Some (String c stem, ext) => String c stem +:+ "-health" +:+ "." +:+ ext
  | _ => file_name +:+ "-health"
  end.

Definition topology_commit_path_from_shm (point_path : string) : string :=
  let '(parent, file_name) := split_file point_path in
  parent +:+ file_name +:+ ".topology-commit".

Definition commit_staging_path (point_path : string) : string :=
  let '(parent, file_name) := split_file (topology_commit_path_from_shm point_path) in
  parent +:+ "." +:+ file_name +:+ ".staging".

(** ** Errors *)

Definition map_err {E E' A} (f : E → E') (m : io E A) : io E' A := fun w =>
  match m w with
  | (Some (Ok a), w') => (Some (Ok a), w')
  | (Some (Err e), w') => (Some (Err (f e)), w')
  | (Some Panic, w') => (Some Panic, w')
  | (None, w') => (None, w')
  end.

(** [map_dataplane_error] of managed.rs, used by the health plane and the witness. *)
Definition managed_error (e : DataplaneError) : Outbox.PortErrorKind :=
  match e with
  | InvalidLayout => Outbox.InvalidData
  | InvalidPath => Outbox.Permanent
  | Io _ => Outbox.Unavailable
  end.
(** [map_dataplane_error] of runtime.rs, used by the point plane. *)
Definition runtime_error (e : DataplaneError) : Outbox.PortErrorKind :=
  match e with Io _ => Outbox.Unavailable | _ => Outbox.Conflict end.

Definition port_io := io Outbox.PortErrorKind.
Definition require (b : bool) (e : Outbox.PortErrorKind) : port_io unit := if b then mret tt else fail e.

(** The leases of authority.rs. *)
Definition acquire_write (path : string) : shm_io AuthorityWriteGuard :=
  _ ← sys_nop Io; mret (Guard path).
Definition acquire_read : shm_io unit := sys_nop Io.

Definition validate_topology_publication_epoch (epoch : Z) : res Outbox.PortErrorKind unit :=
  if (epoch =? 0) || (epoch =? u_max 64) then Err Outbox.InvalidData else Ok tt.

(** ** The channel-health manifest (health.rs) *)

Record ChannelHealthManifest := HealthManifest { channel_ids : list Z; health_layout_hash : Z }.

Fixpoint find_duplicate (l : list Z) : option Z :=
  match l with
  | a :: ((b :: _) as rest) => if a =? b then Some a else find_duplicate rest
  | _ => None
  end.

Section HealthManifest.
Variable calculate_health_layout_hash : list Z → Z.

Definition compile_health (ids : list Z) (max_slots : nat) : res Outbox.PortErrorKind ChannelHealthManifest :=
  if (max_slots <? length ids)%nat then Err Outbox.InvalidData
  else
    let configured := merge_sort Z.le ids in
    match find_duplicate configured with
    | Some _ => Err Outbox.InvalidData
    | None => Ok (HealthManifest configured (calculate_health_layout_hash configured))
    end.
End HealthManifest.

Definition health_slot_for (m : ChannelHealthManifest) (channel : Z) : option nat :=
  fst <$> list_find (eq channel) (channel_ids m).
Definition health_contains (m : ChannelHealthManifest) (channel : Z) : bool :=
  match health_slot_for m channel with Some _ => true | None => false end.
Definition health_slot_count (m : ChannelHealthManifest) : nat := length (channel_ids m).

(** ** Copying the live state into the staged generation

    The result, and the memory of the staged mapping afterwards. *)

(** [Manifest::iter_physical_points]. *)
Definition iter_physical_points (m : Manifest.ChannelPointManifest) : list (nat * Manifest.PhysicalPointAddress) :=
  zip (Manifest.slots_by_address m) (Manifest.points_by_address m).

Fixpoint migrate_points (n : nat) (points : list (nat * Manifest.PhysicalPointAddress))
    (previous : Manifest.ChannelPointManifest) (previous_mem : list Z) (previous_n : nat) (mem : list Z)
    : res Outbox.PortErrorKind unit * list Z :=
  match points with
  | [] => (Ok tt, mem)
  | (target_slot, address) :: points =>
      match Manifest.slot_for previous address with
      | None => migrate_points n points previous previous_mem previous_n mem
      | Some previous_slot =>
          match read_slot previous_mem previous_n previous_slot with
          | None => (Err Outbox.Conflict, mem)
          | Some sample =>
              if Float.is_nan (Float.from_bits (Slot.value_bits sample))
              then migrate_points n points previous previous_mem previous_n mem
              else
                match set_direct n target_slot sample mem with
                | Ok mem => migrate_points n points previous previous_mem previous_n mem
                | _ => (Panic, mem)
                end
          end
      end
  end.

Definition valid_health (d : Slot.slot_data) : bool :=
  let reads x := Float.eqb (Float.from_bits (Slot.value_bits d)) x && Float.eqb (Float.from_bits (Slot.raw_bits d)) x in
  reads Float.zero || reads Float.one.

Fixpoint migrate_channels (n : nat) (channels : list Z) (manifest previous : ChannelHealthManifest)
    (previous_mem : list Z) (previous_n : nat) (mem : list Z) : res Outbox.PortErrorKind unit * list Z :=
  match channels with
  | [] => (Ok tt, mem)
  | channel :: channels =>
      let next := migrate_channels n channels manifest previous previous_mem previous_n in
      if negb (health_contains previous channel) then next mem
      else
        match health_slot_for previous channel, health_slot_for manifest channel with
        | Some previous_slot, Some target_slot =>
            match read_slot previous_mem previous_n previous_slot with
            | None => (Err Outbox.Conflict, mem)
            | Some sample =>
                if Float.is_nan (Float.from_bits (Slot.value_bits sample)) then next mem
                else if negb (valid_health sample) then (Err Outbox.InvalidData, mem)
                else
                  match set_direct n target_slot sample mem with
                  | Ok mem => next mem
                  | _ => (Panic, mem)
                  end
            end
        | _, _ => (Err Outbox.Conflict, mem)
        end
  end.

(** Runs a copy on the mapping of [writer]. *)
Definition on_mapping {A} (writer : SlotWriter) (f : list Z → res Outbox.PortErrorKind A * list Z) : port_io A := fun w =>
  let '(r, mem) := f (file_bytes w (sw_ino writer)) in
  (Some r, with_data (<[sw_ino writer := mem]> (w_data w)) w).
Definition mapping (writer : SlotWriter) : port_io (list Z) := fun w => (Some (Ok (file_bytes w (sw_ino writer))), w).

(** ** Publishing one plane

    The clock readings of one publication: the staging name, and the two readings of
    [new_generation]. *)
Record clock := Clock { staging_nanos : Z; wall_nanos : Z; generation_sequence : Z }.

Definition staging_path (canonical : string) (k : clock) : string :=
  generation_file_path canonical (Z.max (wrap 64 (staging_nanos k)) 1).

(** The common part of [publish_generation] and [publish_health_writer]: stage, fill,
    flush, discover the previous writer, swap and reopen.  A failure before the rename
    removes the staging file. *)
Definition publish_plane (err : DataplaneError → Outbox.PortErrorKind) (canonical : string) (n : nat) (layout epoch : Z)
    (k : clock) (fill : SlotWriter → port_io unit) (g : AuthorityWriteGuard) (previous : option SlotWriter)
    : port_io SlotWriter :=
  let staging := staging_path canonical k in
  r ← attempt (
    writer ← map_err err (create staging n layout epoch (wall_nanos k) (generation_sequence k));
    _ ← fill writer;
    _ ← map_err err (sys_nop Io);
    discovered ← (match previous with
                  | Some _ => mret None
                  | None => map_err err (open_canonical_for_replacement canonical g)
                  end);
    map_err err (publish_swap staging canonical g (match previous with Some p => Some p | None => discovered end)));
  match r with
  | Ok _ => map_err err (open_existing canonical n layout)
  | Err e => _ ← attempt (map_err err (sys_remove Io staging)); fail e
  | Panic => _ ← attempt (map_err err (sys_remove Io staging)); lift Panic
  end.

(** ** The point plane (runtime.rs) *)

Record ShmRuntimeConfig := RuntimeConfig { config_path : string; max_slots : nat }.
Record ShmWriterGeneration := WriterGeneration {
  g_writer : SlotWriter; g_manifest : Manifest.ChannelPointManifest; g_expected : Z }.

Definition writer_header (writer : SlotWriter) : port_io HeaderSnapshot :=
  mem ← mapping writer; mret (header_snapshot mem).

(** [ShmAcquisitionStateWriter::validate_generation]. *)
Definition validate_generation (g : ShmWriterGeneration) : port_io unit :=
  _ ← map_err CommandSink.dataplane_port_error (validate_authoritative_path (g_writer g));
  header ← writer_header (g_writer g);
  require ((writer_generation header =? g_expected g) && negb (generation_unstable (g_expected g))
           && (layout_hash header =? Manifest.layout_hash (g_manifest g))
           && (Z.to_nat (slot_count header) =? Manifest.slot_count (g_manifest g))%nat) Outbox.Conflict.

Definition compose (writer : SlotWriter) (manifest : Manifest.ChannelPointManifest) : port_io ShmWriterGeneration :=
  header ← writer_header writer;
  let g := WriterGeneration writer manifest (writer_generation header) in
  _ ← validate_generation g;
  mret g.

Definition validate_capacity (config : ShmRuntimeConfig) (manifest : Manifest.ChannelPointManifest)
    : res Outbox.PortErrorKind unit :=
  if (Manifest.slot_count manifest <=? max_slots config)%nat then Ok tt else Err Outbox.InvalidData.

Definition restore_snapshot (writer : SlotWriter) (path : string) (manifest : Manifest.ChannelPointManifest) : port_io unit :=
  image ← map_err runtime_error (Snapshot.load path);
  on_mapping writer (fun mem =>
    match Snapshot.restore_exact_snapshot image (sw_slot_count writer) (Manifest.slot_count manifest)
            (Manifest.layout_hash manifest) mem with
    | Ok mem => (Ok tt, mem)
    | Err e => (Err (runtime_error e), mem)
    | Panic => (Panic, mem)
    end).

Definition fill_points (manifest : Manifest.ChannelPointManifest) (snapshot : option string)
    (previous : option ShmWriterGeneration) (writer : SlotWriter) : port_io unit :=
  match snapshot, previous with
  | Some path, _ => restore_snapshot writer path manifest
  | None, Some p =>
      previous_mem ← mapping (g_writer p);
      _ ← on_mapping writer (migrate_points (sw_slot_count writer) (iter_physical_points manifest) (g_manifest p)
                               previous_mem (sw_slot_count (g_writer p)));
      on_mapping writer (fun mem => (Ok tt, update_heartbeat (writer_heartbeat (header_snapshot previous_mem)) mem))
  | None, None => mret tt
  end.

Definition publish_generation (config : ShmRuntimeConfig) (manifest : Manifest.ChannelPointManifest)
    (snapshot : option string) (previous : option ShmWriterGeneration) (epoch : Z) (k : clock)
    : port_io ShmWriterGeneration :=
  g ← map_err runtime_error (acquire_write (config_path config));
  writer ← publish_plane runtime_error (config_path config) (Manifest.slot_count manifest)
             (Manifest.layout_hash manifest) epoch k (fill_points manifest snapshot previous) g (g_writer <$> previous);
  compose writer manifest.

(** [ShmWriterHandle::create] and [rebuild]; the result becomes the current
    generation of the handle. *)
Definition create_points (config : ShmRuntimeConfig) (manifest : Manifest.ChannelPointManifest)
    (snapshot : option string) (epoch : Z) (k : clock) : port_io ShmWriterGeneration :=
  _ ← lift (validate_topology_publication_epoch epoch);
  _ ← lift (validate_capacity config manifest);
  publish_generation config manifest snapshot None epoch k.

Definition rebuild_points (config : ShmRuntimeConfig) (current : option ShmWriterGeneration)
    (manifest : Manifest.ChannelPointManifest) (epoch : Z) (k : clock) : port_io ShmWriterGeneration :=
  _ ← lift (validate_topology_publication_epoch epoch);
  _ ← (match current with
       | Some g => header ← writer_header (g_writer g); require (negb (publication_epoch header =? epoch)) Outbox.InvalidData
       | None => mret tt
       end);
  _ ← lift (validate_capacity config manifest);
  publish_generation config manifest None current epoch k.

(** ** The health plane (health.rs) *)

Record ShmChannelHealthWriter := HealthWriter { hw_writer : SlotWriter; hw_manifest : ChannelHealthManifest }.

Definition fill_health (manifest : ChannelHealthManifest) (previous : option ShmChannelHealthWriter)
    (writer : SlotWriter) : port_io unit :=
  match previous with
  | Some p =>
      previous_mem ← mapping (hw_writer p);
      _ ← on_mapping writer (migrate_channels (sw_slot_count writer) (channel_ids manifest) manifest (hw_manifest p)
                               previous_mem (sw_slot_count (hw_writer p)));
      on_mapping writer (fun mem => (Ok tt, update_heartbeat (writer_heartbeat (header_snapshot previous_mem)) mem))
  | None => mret tt
  end.

Definition publish_health_writer (canonical : string) (manifest : ChannelHealthManifest)
    (previous : option ShmChannelHealthWriter) (g : AuthorityWriteGuard) (epoch : Z) (k : clock)
    : port_io ShmChannelHealthWriter :=
  writer ← publish_plane managed_error canonical (health_slot_count manifest) (health_layout_hash manifest) epoch k
             (fill_health manifest previous) g (hw_writer <$> previous);
  mret (HealthWriter writer manifest).

(** [ShmChannelHealthWriterHandle::rebuild]. *)
Definition rebuild_health (path : string) (current : option ShmChannelHealthWriter)
    (manifest : ChannelHealthManifest) (epoch : Z) (k : clock) : port_io ShmChannelHealthWriter :=
  _ ← lift (validate_topology_publication_epoch epoch);
  _ ← (match current with
       | Some h => header ← writer_header (hw_writer h); require (negb (publication_epoch header =? epoch)) Outbox.InvalidData
       | None => mret tt
       end);
  g ← map_err managed_error (acquire_write path);
  _ ← (match current with
       | Some h => map_err managed_error (validate_authoritative_path (hw_writer h))
       | None => mret tt
       end);
  publish_health_writer path manifest current g epoch k.

Definition HEALTH_QUALITY_GOOD : Z := 0.

(** [ShmChannelHealthWriterHandle::set_online] and [update_heartbeat]. *)
Definition set_online (current : option ShmChannelHealthWriter) (channel : Z) (online : bool) (timestamp_ms : Z)
    : port_io unit :=
  h ← lift (ok_or current Outbox.Unavailable);
  slot ← lift (ok_or (health_slot_for (hw_manifest h) channel) Outbox.Permanent);
  _ ← map_err managed_error acquire_read;
  _ ← map_err managed_error (validate_authoritative_path (hw_writer h));
  let value := Float.to_bits (if online then Float.one else Float.zero) in
  _ ← on_mapping (hw_writer h) (fun mem =>
        let '(written, mem) := write_slot (sw_slot_count (hw_writer h)) slot
                                 (Slot.SlotData value value timestamp_ms HEALTH_QUALITY_GOOD) mem in
        (if written then Ok tt else Err Outbox.InvalidData, mem));
  map_err managed_error (validate_authoritative_path (hw_writer h)).

Definition update_health_heartbeat (current : option ShmChannelHealthWriter) (timestamp_ms : Z) : port_io unit :=
  h ← lift (ok_or current Outbox.Unavailable);
  _ ← map_err managed_error acquire_read;
  _ ← map_err managed_error (validate_authoritative_path (hw_writer h));
  _ ← on_mapping (hw_writer h) (fun mem => (Ok tt, update_heartbeat timestamp_ms mem));
  map_err managed_error (validate_authoritative_path (hw_writer h)).

(** ** The witness (topology_commit.rs) *)

Definition COMMIT_MAGIC : list Z := [0x41; 0x45; 0x54; 0x48; 0x54; 0x50; 0x30; 0x31].
Definition COMMIT_VERSION : Z := 1.
Definition COMMIT_BYTES : nat := 80.
Definition CHECKSUM_OFFSET : nat := 72.

Record TopologyPublicationCommit := Commit {
  tc_epoch : Z;
  point_layout_hash : Z; point_slot_count : Z; point_writer_generation : Z;
  health_hash : Z; health_slots : Z; health_writer_generation : Z }.

#[global] Instance commit_eq_dec : EqDecision TopologyPublicationCommit.
Proof. solve_decision. Defined.

Definition validate_header_epoch (h : HeaderSnapshot) (epoch : Z) : res Outbox.PortErrorKind unit :=
  if negb (publication_epoch h =? epoch) then Err Outbox.Conflict
  else if generation_unstable (writer_generation h) then Err Outbox.Conflict
  else Ok tt.

Definition from_readers (epoch : Z) (point health : HeaderSnapshot) : res Outbox.PortErrorKind TopologyPublicationCommit :=
  _ ← validate_header_epoch point epoch;
  _ ← validate_header_epoch health epoch;
  Ok (Commit epoch (layout_hash point) (slot_count point) (writer_generation point)
             (layout_hash health) (slot_count health) (writer_generation health)).

Definition matches_readers (c : TopologyPublicationCommit) (point health : HeaderSnapshot) : bool :=
  negb (tc_epoch c =? 0)
  && (publication_epoch point =? tc_epoch c)
  && (publication_epoch health =? tc_epoch c)
  && (layout_hash point =? point_layout_hash c)
  && (slot_count point =? point_slot_count c)
  && (writer_generation point =? point_writer_generation c)
  && (layout_hash health =? health_hash c)
  && (slot_count health =? health_slots c)
  && (writer_generation health =? health_writer_generation c).

Definition commit_fields (c : TopologyPublicationCommit) : list Z :=
  COMMIT_MAGIC ++ le_bytes 4 COMMIT_VERSION ++ replicate 4 0 ++ le_bytes 8 (tc_epoch c) ++
  le_bytes 8 (point_layout_hash c) ++ le_bytes 8 (point_slot_count c) ++ le_bytes 8 (point_writer_generation c) ++
  le_bytes 8 (health_hash c) ++ le_bytes 8 (health_slots c) ++ le_bytes 8 (health_writer_generation c).
Definition encode (c : TopologyPublicationCommit) : list Z :=
  let bytes := commit_fields c in
  bytes ++ le_bytes 4 (Outbox.checksum bytes) ++ replicate 4 0.

Definition decode (bytes : list Z) : res Outbox.PortErrorKind TopologyPublicationCommit :=
  if negb (length bytes =? COMMIT_BYTES)%nat then Err Outbox.Conflict
  else if negb (bool_decide (slice 0 8 bytes = COMMIT_MAGIC)) then Err Outbox.Conflict
  else if negb (load_le 8 4 bytes =? COMMIT_VERSION) then Err Outbox.Conflict
  else if negb (load_le CHECKSUM_OFFSET 4 bytes =? Outbox.checksum (take CHECKSUM_OFFSET bytes)) then Err Outbox.Conflict
  else
    let c := Commit (load_le 16 8 bytes) (load_le 24 8 bytes) (load_le 32 8 bytes) (load_le 40 8 bytes)
                    (load_le 48 8 bytes) (load_le 56 8 bytes) (load_le 64 8 bytes) in
    if (tc_epoch c =? 0) || (tc_epoch c =? u_max 64) then Err Outbox.Conflict else Ok c.

Definition unavailable (_ : io_kind) : Outbox.PortErrorKind := Outbox.Unavailable.
Definition transition (_ : io_kind) : Outbox.PortErrorKind := Outbox.Conflict.

Definition validate_plane_paths (point_path health_path : string) : res Outbox.PortErrorKind unit :=
  if bool_decide (point_path = health_path) then Err Outbox.InvalidData
  else if bool_decide (topology_commit_path_from_shm point_path = health_path) then Err Outbox.InvalidData
  else Ok tt.

(** A reader and the header it maps. *)
Definition open_plane (path : string) : port_io HeaderSnapshot :=
  rd ← map_err managed_error (reader_open path);
  mem ← map_err managed_error (peek_map (sr_ino rd));
  mret (header_snapshot mem).

Definition or_missing (k : io_kind) : Outbox.PortErrorKind :=
  match k with NotFound => Outbox.NotFoundKind | _ => Outbox.Unavailable end.

Definition observed_plane_epoch (path : string) : port_io (option Z) :=
  r ← attempt (sys_open or_missing path);
  match r with
  | Err Outbox.NotFoundKind => mret None
  | Err e => fail e
  | Panic => lift Panic
  | Ok _ =>
      header ← open_plane path;
      _ ← lift (validate_topology_publication_epoch (publication_epoch header));
      mret (Some (publication_epoch header))
  end.

Definition read_topology_publication_commit (point_path : string) : port_io TopologyPublicationCommit :=
  ino ← sys_open transition (topology_commit_path_from_shm point_path);
  bytes ← sys_read transition ino;
  lift (decode bytes).

(** Both shared leases, in path order. *)
Definition acquire_authority_pair : port_io unit :=
  _ ← map_err managed_error acquire_read;
  map_err managed_error acquire_read.

Record TopologyPublicationGuard := PublicationGuard { guard_point_path : string; allocated : option (string * Z) }.

Definition begin_topology_publication (point_path : string) : port_io TopologyPublicationGuard :=
  _ ← map_err managed_error (acquire_write (topology_commit_path_from_shm point_path));
  mret (PublicationGuard point_path None).

Definition next_publication_epoch (p : TopologyPublicationGuard) (health_path : string)
    : port_io (Z * TopologyPublicationGuard) :=
  _ ← lift (validate_plane_paths (guard_point_path p) health_path);
  match allocated p with
  | Some (path, epoch) => if bool_decide (path = health_path) then mret (epoch, p) else fail Outbox.InvalidData
  | None =>
      _ ← acquire_authority_pair;
      point ← observed_plane_epoch (guard_point_path p);
      health ← observed_plane_epoch health_path;
      let floor := Z.max (default 0 point) (default 0 health) in
      r ← attempt (read_topology_publication_commit (guard_point_path p));
      let floor := match r with Ok c => Z.max floor (tc_epoch c) | _ => floor end in
      match checked_add 64 floor 1 with
      | None => fail Outbox.InvalidData
      | Some next =>
          _ ← lift (validate_topology_publication_epoch next);
          mret (next, PublicationGuard (guard_point_path p) (Some (health_path, next)))
      end
  end.

(** The staging file is removed when a step before the rename fails. *)
Definition write_witness (point_path : string) (c : TopologyPublicationCommit) : port_io unit :=
  let staging := commit_staging_path point_path in
  _ ← sys_nop unavailable;
  r ← attempt (
    ino ← sys_create unavailable true staging;
    _ ← sys_write unavailable ino 0 (encode c);
    _ ← sys_nop unavailable;
    sys_rename unavailable staging (topology_commit_path_from_shm point_path));
  match r with
  | Ok _ => _ ← sys_nop unavailable; sys_nop unavailable
  | Err e => _ ← attempt (sys_remove unavailable staging); fail e
  | Panic => _ ← attempt (sys_remove unavailable staging); lift Panic
  end.

Definition commit_topology_publication_under_guard (point_path health_path : string) (epoch : Z)
    : port_io TopologyPublicationCommit :=
  _ ← lift (validate_plane_paths point_path health_path);
  _ ← lift (validate_topology_publication_epoch epoch);
  existing ← attempt (read_topology_publication_commit point_path);
  _ ← require (match existing with Ok c => tc_epoch c <? epoch | _ => true end) Outbox.Conflict;
  _ ← acquire_authority_pair;
  point ← open_plane point_path;
  health ← open_plane health_path;
  c ← lift (from_readers epoch point health);
  _ ← write_witness point_path c;
  observed ← read_topology_publication_commit point_path;
  _ ← require (bool_decide (observed = c)) Outbox.Conflict;
  mret c.

(** [TopologyPublicationGuard::commit]. *)
Definition commit (p : TopologyPublicationGuard) (health_path : string) (epoch : Z) : port_io TopologyPublicationCommit :=
  _ ← lift (validate_plane_paths (guard_point_path p) health_path);
  _ ← require (match allocated p with
               | Some (path, e) => bool_decide (path = health_path) && (e =? epoch)
               | None => true
               end) Outbox.InvalidData;
  commit_topology_publication_under_guard (guard_point_path p) health_path epoch.

Definition validate_topology_publication_locked (point_path health_path : string) (point_hash : Z) (point_n : nat)
    (expected_health_hash : Z) (health_n : nat) : port_io TopologyPublicationCommit :=
  point ← open_plane point_path;
  health ← open_plane health_path;
  _ ← require ((layout_hash point =? point_hash) && (Z.to_nat (slot_count point) =? point_n)%nat
               && (layout_hash health =? expected_health_hash) && (Z.to_nat (slot_count health) =? health_n)%nat)
              Outbox.Conflict;
  c ← read_topology_publication_commit point_path;
  _ ← require (matches_readers c point health) Outbox.Conflict;
  mret c.

Definition validate_topology_publication (point_path health_path : string) (point_hash : Z) (point_n : nat)
    (expected_health_hash : Z) (health_n : nat) : port_io TopologyPublicationCommit :=
  _ ← map_err managed_error acquire_read;
  _ ← acquire_authority_pair;
  validate_topology_publication_locked point_path health_path point_hash point_n expected_health_hash health_n.

(** ** Transactions

    The handles of an IO process: the current generation of each plane. *)
Record process := Process { current_points : option ShmWriterGeneration; current_health : option ShmChannelHealthWriter }.

(** The desired topology and the clock readings of one transaction. *)
Record request := Request {
  points : Manifest.ChannelPointManifest; channels : ChannelHealthManifest; point_clock : clock; health_clock : clock }.

Section Transactions.
Variables (config : ShmRuntimeConfig) (health_path : string).

(** [publish_topology_generation]; a plane that was rebuilt stays the current one
    when a later step fails. *)
Definition publish_topology_generation (p : process) (q : request)
    : port_io (res Outbox.PortErrorKind TopologyPublicationCommit * process) :=
  begun ← attempt (publication ← begin_topology_publication (config_path config); next_publication_epoch publication health_path);
  match begun with
  | Err e => mret (Err e, p)
  | Panic => lift Panic
  | Ok (epoch, publication) =>
      r ← attempt (rebuild_points config (current_points p) (points q) epoch (point_clock q));
      match r with
      | Err e => mret (Err e, p)
      | Panic => lift Panic
      | Ok generation =>
          let p := Process (Some generation) (current_health p) in
          r ← attempt (rebuild_health health_path (current_health p) (channels q) epoch (health_clock q));
          match r with
          | Err e => mret (Err e, p)
          | Panic => lift Panic
          | Ok health =>
              let p := Process (current_points p) (Some health) in
              r ← attempt (commit publication health_path epoch);
              match r with Panic => lift Panic | _ => mret (r, p) end
          end
      end
  end.

(** The start of the IO service (services/io/src/main.rs): a failed restore falls
    back to a fresh plane; any other failure ends the process. *)
Definition start_publication (snapshot : option string) (fallback : clock) (q : request)
    : port_io (TopologyPublicationCommit * process) :=
  publication ← begin_topology_publication (config_path config);
  '(epoch, publication) ← next_publication_epoch publication health_path;
  r ← attempt (create_points config (points q) snapshot epoch (point_clock q));
  generation ← (match r, snapshot with
                | Ok generation, _ => mret generation
                | Err e, Some _ => create_points config (points q) None epoch fallback
                | Err e, None => fail e
                | Panic, _ => lift Panic
                end);
  health ← rebuild_health health_path None (channels q) epoch (health_clock q);
  c ← commit publication health_path epoch;
  mret (c, Process (Some generation) (Some health)).
End Transactions.

(** ** Specifications over every fault schedule

    [spec m P I w]: [m] ends in a value with [P], or in an error that [F] explains or
    that used up one of the at most [b] faults, or the process dies; in the last two
    cases [I] holds of the files. *)
Section Spec.
Context (b : nat) (F : Prop).

Definition spec {E A} (m : io E A) (P : A → world → Prop) (I : world → Prop) (w : world) : Prop :=
  (budget w ≤ b)%nat →
  wp m (fun r w' => (budget w' ≤ b)%nat ∧
          match r with
          | Ok a => P a w'
          | Err _ => I w' ∧ (F ∨ (budget w' < b)%nat)
          | Panic => False
          end) I w.

Lemma spec_ret {E A} (a : A) (P : A → world → Prop) I w : P a w → spec (E := E) (mret a) P I w.
Proof. by split. Qed.

Lemma spec_bind {E A B} (m : io E A) (f : A → io E B) (P : A → world → Prop) Q I w :
  spec m P I w → (∀ a w', P a w' → spec (f a) Q I w') → spec (m ≫= f) Q I w.
Proof.
  intros Hm Hf Hb. apply wp_bind. eapply wp_mono; [by apply Hm| |done].
  intros [a|e|] w' [Hb' H]; [by apply Hf|done|done].
Qed.

Lemma spec_mono {E A} (m : io E A) (P P' : A → world → Prop) (I I' : world → Prop) w :
  spec m P I w → (∀ a w', P a w' → P' a w') → (∀ w', I w' → I' w') → spec m P' I' w.
Proof.
  intros Hm HP HI Hb. eapply wp_mono; [by apply Hm| |done]. intros [a|e|] w' [Hb' H]; split; try done; [by apply HP|].
  destruct H as [? ?]. split; [by apply HI|done].
Qed.

Lemma spec_fail {E A} (e : E) (P : A → world → Prop) (I : world → Prop) w :
  I w → F ∨ (budget w < b)%nat → spec (fail e) P I w.
Proof. by split. Qed.

Lemma spec_lift {E A} (r : res E A) (P : A → world → Prop) (I : world → Prop) w :
  r ≠ Panic → (∀ a, r = Ok a → P a w) → (∀ e, r = Err e → F ∧ I w) → spec (lift r) P I w.
Proof.
  intros Hr HP HI Hb. unfold wp, lift. destruct r as [a|e|]; [split; auto| |done].
  destruct (HI e); auto.
Qed.

Lemma spec_require (c : bool) e (P : unit → world → Prop) (I : world → Prop) w :
  (c = true → P tt w) → (c = false → F ∧ I w) → spec (require c e) P I w.
Proof. intros H1 H2. destruct c; [apply spec_ret, H1; done|destruct H2; [done|]; apply spec_fail; auto]. Qed.

Lemma spec_check (c : bool) (P : unit → world → Prop) (I : world → Prop) w :
  (c = true → P tt w) → (c = false → F ∧ I w) → spec (check c) P I w.
Proof. intros H1 H2. destruct c; [apply spec_ret, H1; done|destruct H2; [done|]; apply spec_fail; auto]. Qed.

Lemma spec_attempt {E A} (m : io E A) (P : A → world → Prop) I w :
  spec m P I w →
  spec (attempt m) (fun r w' => match r with
                                | Ok a => P a w'
                                | Err _ => I w' ∧ (F ∨ (budget w' < b)%nat)
                                | Panic => False
                                end) I w.
Proof. intros Hm Hb. apply wp_attempt. eapply wp_mono; [by apply Hm|done|done]. Qed.

Lemma spec_map_err {E E' A} (f : E → E') (m : io E A) (P : A → world → Prop) I w :
  spec m P I w → spec (map_err f m) P I w.
Proof.
  intros Hm Hb. specialize (Hm Hb). unfold wp, map_err in *. by destruct (m w) as [[[]|] w'].
Qed.

(** System calls: the successful outcome, and that [I] holds of the files as they
    are when the call fails. *)
Lemma spec_call {E A} (of_io : io_kind → E) (partial : nat → world → world) run (P : A → world → Prop) (I : world → Prop) w :
  (∀ fs k, budget (partial k (with_faults fs w)) = budget (with_faults fs w)) →
  (∀ fs, (budget (with_faults fs w) ≤ b)%nat →
     match run (with_faults fs w) with
     | (inr a, w') => budget w' = budget (with_faults fs w) ∧ P a w'
     | (inl _, w') => budget w' = budget (with_faults fs w) ∧ F ∧ I w'
     end) →
  (∀ k fs, I (partial k (with_faults fs w))) →
  spec (syscall of_io partial run) P I w.
Proof.
  intros Hk Hrun HI Hb. apply wp_syscall.
  - intros fs Hfs. specialize (Hrun fs ltac:(lia)). destruct (run _) as [[e|a] w'].
    + destruct Hrun as (Hw & HF & Hi). rewrite Hw. split; [lia|auto].
    + destruct Hrun as (Hw & HP). rewrite Hw. split; [lia|done].
  - intros k fs Hfs. rewrite Hk. split; [lia|]. split; [done|]. right. lia.
  - done.
Qed.
End Spec.

Lemma budget_id fs w n d x : budget (World n d x (w_faults (with_faults fs w))) = budget (with_faults fs w).
Proof. done. Qed.

(** ** Staging *)

(** No file has two names. *)
Definition nolinks (w : world) : Prop :=
  ∀ p q i, w_names w !! p = Some i → w_names w !! q = Some i → p = q.

Definition files_ok (w : world) : Prop := fs_ok w ∧ nolinks w ∧ ∀ i, bytes_ok (file_bytes w i).

Section Staged.
Context (s : string).

(** Only the name [s] and the file it names changed. *)
Definition staged (w w' : world) : Prop :=
  files_ok w' ∧ (w_next w ≤ w_next w')%nat ∧
  (∀ q, q ≠ s → w_names w' !! q = w_names w !! q) ∧
  (∀ i, (i < w_next w)%nat → w_names w !! s ≠ Some i → file_bytes w' i = file_bytes w i) ∧
  (∀ i, w_names w' !! s = Some i → w_names w !! s = Some i ∨ (w_next w ≤ i)%nat).

Ltac stage := unfold staged, files_ok, fs_ok, nolinks in *; split_and!.

Definition own (i : nat) (w w' : world) : Prop := staged w w' ∧ w_names w' !! s = Some i.

Lemma staged_refl w : files_ok w → staged w w.
Proof. intros (H & H3 & H4). stage; try done; [by apply H..|by left]. Qed.

Lemma staged_faults fs w w' : staged w w' → staged w (with_faults fs w').
Proof. done. Qed.

Lemma own_faults i fs w w' : own i w w' → own i w (with_faults fs w').
Proof. done. Qed.

Lemma own_fresh w w' : staged w w' → w_names w' !! s = None → own (w_next w') w (fresh_file s w').
Proof.
  intros (([H1 H2] & H3 & H4) & Hn & Hq & Hd & Hs) Hnone. split; [|cbn; apply lookup_insert_eq].
  stage; cbn.
  - intros p i Hp. apply lookup_insert_Some in Hp as [[_ <-]|[_ Hp]]; [lia|]. specialize (H1 _ _ Hp). lia.
  - intros i l Hi. apply lookup_insert_Some in Hi as [[<- _]|[_ Hi]]; [lia|]. specialize (H2 _ _ Hi). lia.
  - intros p q i Hp Hq'. apply lookup_insert_Some in Hp as [[<- <-]|[? Hp]], Hq' as [[<- Hi]|[? Hq']]; try done.
    + specialize (H1 _ _ Hq'). lia.
    + subst i. specialize (H1 _ _ Hp). lia.
    + by apply (H3 p q i).
  - intros i. unfold file_bytes. cbn. destruct (decide (i = w_next w')) as [->|Hi]; [rewrite lookup_insert_eq; constructor|].
    rewrite lookup_insert_ne by done. apply H4.
  - lia.
  - intros q Hne. rewrite lookup_insert_ne by done. by apply Hq.
  - intros i Hi Hne. unfold file_bytes. cbn. rewrite lookup_insert_ne by lia. by apply Hd.
  - intros i Hi. rewrite lookup_insert_eq in Hi. injection Hi as <-. by right.
Qed.

Lemma own_data i l w w' : bytes_ok l → own i w w' → own i w (with_data (<[i := l]> (w_data w')) w').
Proof.
  intros Hl [(([H1 H2] & H3 & H4) & Hn & Hq & Hd & Hs) Hi]. split; [|done]. stage; try done; cbn.
  - intros j k Hj. apply lookup_insert_Some in Hj as [[<- _]|[_ Hj]]; [by apply (H1 s)|by eapply H2].
  - intros j. destruct (decide (i = j)) as [<-|Hj]; [by rewrite file_bytes_insert|by rewrite file_bytes_insert_ne].
  - intros j Hj Hne. rewrite file_bytes_insert_ne; [by apply Hd|]. intros <-. destruct (Hs _ Hi); [done|lia].
Qed.

Lemma staged_removed w w' : staged w w' → staged w (with_names (delete s (w_names w')) w').
Proof.
  intros (([H1 H2] & H3 & H4) & Hn & Hq & Hd & Hs). stage; try done; cbn.
  - intros p i Hp. apply lookup_delete_Some in Hp as [_ Hp]. by eapply H1.
  - intros p q i Hp Hq'. apply lookup_delete_Some in Hp as [_ Hp], Hq' as [_ Hq']. by apply (H3 p q i).
  - intros q Hne. rewrite lookup_delete_ne by done. by apply Hq.
  - intros i Hi. by rewrite lookup_delete_eq in Hi.
Qed.

(** An old file keeps its bytes. *)
Lemma staged_bytes q i w w' : files_ok w → staged w w' → q ≠ s → w_names w !! q = Some i → file_bytes w' i = file_bytes w i.
Proof.
  intros ([H1 _] & Hl & _) (_ & _ & _ & Hd & _) Hne Hq. apply Hd; [by eapply H1|]. intros Hs. by apply Hne, (Hl _ _ i).
Qed.

Context (b : nat) (F : Prop).

Lemma spec_nop {E} (of_io : io_kind → E) (P : unit → world → Prop) (I : world → Prop) w :
  (∀ fs, P tt (with_faults fs w)) → (∀ fs, I (with_faults fs w)) → spec b F (sys_nop of_io) P I w.
Proof. intros HP HI. apply spec_call; auto. Qed.

(** The mapping of the staging file. *)
Definition new_segment (n : nat) (layout epoch wall sequence : Z) : list Z :=
  init_slots 0 n (header_bytes (Header AETHER_SHM_MAGIC SHM_LAYOUT_VERSION (Z.of_nat n) 0 layout
                                  (new_generation wall sequence) epoch) ++ replicate (n * SLOT_SIZE) 0).

Lemma spec_poke i f w w' (P : unit → world → Prop) I :
  own i w w' → bytes_ok (f (file_bytes w' i)) → (∀ w1, own i w w1 → file_bytes w1 i = f (file_bytes w' i) → P tt w1) → spec b F (poke_map i f) P I w'.
Proof.
  intros Ho Hok HP Hb. unfold wp, poke_map. split; [exact Hb|]. apply HP; [by apply own_data|apply file_bytes_insert].
Qed.

Lemma spec_create n layout epoch wall sequence w w' :
  staged w w' → epoch ≠ 0 → Z.of_nat n ≤ u_max 32 →
  spec b F (create s n layout epoch wall sequence)
    (fun wr w1 => ∃ ino, wr = Writer ino s n ∧ own ino w w1 ∧ file_bytes w1 ino = new_segment n layout epoch wall sequence)
    (staged w) w'.
Proof.
  intros Hs He Hn. unfold create.
  eapply spec_bind; [apply (spec_check _ _ _ (fun _ => eq w'))|]; [done|by intros ?; bool_to_prop|intros [] ? <-].
  eapply spec_bind; [apply (spec_check _ _ _ (fun _ => eq w'))|]; [done|intros ?; bool_to_prop; lia|intros [] ? <-].
  eapply spec_bind; [apply (spec_nop _ (fun _ w1 => staged w w1)); [done|done]|]. intros [] w1 H1.
  eapply spec_bind; [apply (spec_call _ _ _ _ _ (fun ino w2 => own ino w w2 ∧ file_bytes w2 ino = []))|].
  { done. }
  { intros fs _. cbn. destruct (w_names w1 !! s) as [i|] eqn:Hi.
    - split; [done|]. split; [apply (own_data i [] w (with_faults fs w1)); [constructor|by split]|exact (file_bytes_insert (with_faults fs w1) i [])].
    - split; [done|]. split; [by apply (own_fresh w (with_faults fs w1))|apply file_bytes_eq, lookup_insert_eq]. }
  { done. }
  intros ino w2 [H2 Hb2].
  eapply spec_bind; [apply (spec_call _ _ _ _ _ (fun _ w3 => own ino w w3 ∧ file_bytes w3 ino = replicate (calculate_file_size n) 0))|].
  { done. }
  { intros fs _. split; [done|]. split; [apply (own_data ino _ w (with_faults fs w2)); [|done]|].
    { unfold resize. apply bytes_ok_app. split; [apply Forall_take; rewrite file_bytes_faults, Hb2; constructor|by apply Forall_replicate]. }
    rewrite (file_bytes_insert (with_faults fs w2)), file_bytes_faults, Hb2. unfold resize. rewrite take_nil. cbn [app length].
    by rewrite Nat.sub_0_r. }
  { intros k fs. apply H2. }
  intros [] w3 [H3 Hb3].
  eapply spec_bind; [apply (spec_nop _ (fun _ w4 => own ino w w4 ∧ file_bytes w4 ino = replicate (calculate_file_size n) 0)); [done|by intros ?; apply H3]|].
  intros [] w4 [H4 Hb4]. cbv zeta. set (h := Header _ _ _ _ _ _ _).
  eapply spec_bind; [eapply (spec_poke ino _ w w4 (fun _ w5 => own ino w w5 ∧ file_bytes w5 ino = header_bytes h ++ replicate (n * SLOT_SIZE) 0)); [done| |]|].
  { rewrite Hb4. apply store_ok; [apply header_bytes_ok|by apply Forall_replicate]. }
  { intros w5 H5 Hb5. split; [done|]. rewrite Hb5, Hb4. unfold calculate_file_size. apply store_header. }
  intros [] w5 [H5 Hb5]. unfold from_mmap_with_file.
  eapply (spec_bind _ _ _ _ (fun wr w6 => wr = Writer ino s n ∧ own ino w w6 ∧ file_bytes w6 ino = header_bytes h ++ replicate (n * SLOT_SIZE) 0)).
  { eapply spec_bind; [apply (spec_nop _ (fun _ w6 => own ino w w6 ∧ file_bytes w6 ino = header_bytes h ++ replicate (n * SLOT_SIZE) 0));
      [done|by intros ?; apply H5]|]. intros [] w6 [H6 Hb6].
    intros Hbud. apply wp_bind, wp_peek. rewrite Hb6. apply wp_bind, wp_lift.
    rewrite (proj2 (validate_mapping_layout_Ok _ n)); [by split|].
    split; [done|]. by rewrite length_app, length_header_bytes, length_replicate. }
  intros wr w6 (-> & H6 & Hb6).
  eapply spec_bind; [eapply (spec_poke ino _ w w6 (fun _ w7 => own ino w w7 ∧ file_bytes w7 ino = new_segment n layout epoch wall sequence)); [done| |]|].
  { rewrite Hb6. apply init_slots_spec; [|apply bytes_ok_app; split; [apply header_bytes_ok|by apply Forall_replicate]].
    rewrite length_app, length_header_bytes, length_replicate. unfold slot_addr, slot_offset. lia. }
  { intros w7 H7 Hb7. split; [done|]. by rewrite Hb7, Hb6. }
  intros [] w7 [H7 Hb7].
  eapply spec_bind; [apply (spec_nop _ (fun _ w8 => own ino w w8 ∧ file_bytes w8 ino = new_segment n layout epoch wall sequence)); [done|by intros ?; apply H7]|].
  intros [] w8 [H8 Hb8]. apply spec_ret. eauto.
Qed.
End Staged.

(** ** Planes *)

Section Planes.
Context (n : nat) (layout epoch : Z).

(** A segment with this identity. *)
Definition plane (mem : list Z) : Prop :=
  segment n mem ∧ magic (header_snapshot mem) = AETHER_SHM_MAGIC ∧ version (header_snapshot mem) = SHM_LAYOUT_VERSION ∧
  slot_count (header_snapshot mem) = Z.of_nat n ∧ layout_hash (header_snapshot mem) = layout ∧
  publication_epoch (header_snapshot mem) = epoch.
Definition stable (mem : list Z) : Prop := generation_unstable (writer_generation (header_snapshot mem)) = false.
Definition marked (mem : list Z) : Prop := generation_unstable (writer_generation (header_snapshot mem)) = true.
Definition idle (mem : list Z) : Prop := ∀ i, (i < n)%nat → slot_idle i mem.
Definition ready (mem : list Z) : Prop := plane mem ∧ stable mem ∧ idle mem.

Lemma plane_small mem : plane mem → Z.of_nat n ≤ u_max 32.
Proof.
  intros ([Hl Hok] & _ & _ & Hc & _). rewrite <- Hc. assert (in_u 32 (slot_count (header_snapshot mem))) as H.
  { apply (load_le_in_u 12 4); [done|]. rewrite Hl. unfold calculate_file_size, HEADER_SIZE. lia. }
  unfold in_u, u_max in *. lia.
Qed.

Lemma plane_long mem : plane mem → (64 ≤ length mem)%nat.
Proof. intros [[Hl _] _]. rewrite Hl. unfold calculate_file_size, HEADER_SIZE. lia. Qed.

Lemma plane_published mem : plane mem → epoch ≠ 0 → published mem n.
Proof.
  intros ([Hl _] & Hm & Hv & Hc & _ & He) Hne. unfold published. rewrite Hc, He, Nat2Z.id. by split_and!.
Qed.

Lemma read_slot_idle i mem d : read_slot mem n i = Some d → slot_idle i mem.
Proof.
  unfold read_slot, try_load_consistent, slot_idle. destruct (n <=? i)%nat; [done|].
  destruct (Z.eqb_spec (Z.land (load_le (slot_addr i + 24) 4 mem) 1) 0); [done|done].
Qed.

Lemma idle_reads i mem : idle mem → (i < n)%nat → is_Some (read_slot mem n i).
Proof.
  intros Hi Hn. specialize (Hi i Hn). unfold read_slot, try_load_consistent, slot_idle in *.
  destruct (Nat.leb_spec n i); [lia|]. rewrite Hi. cbn [Z.eqb negb]. rewrite Z.eqb_refl. eauto.
Qed.

Lemma read_slot_lt i mem d : read_slot mem n i = Some d → (i < n)%nat.
Proof. unfold read_slot. destruct (Nat.leb_spec n i); [done|lia]. Qed.

Lemma read_slot_data i mem d : segment n mem → read_slot mem n i = Some d → data_ok d.
Proof.
  intros Hs Hr. pose proof (read_slot_lt _ _ _ Hr) as Hi. unfold read_slot in Hr.
  destruct (n <=? i)%nat; [done|]. by eapply Snapshot.try_load_data_ok.
Qed.

Lemma new_segment_ready wall sequence :
  Z.of_nat n ≤ u_max 32 → in_u 64 layout → in_u 64 epoch →
  ready (new_segment n layout epoch wall sequence) ∧
  ∀ i, (i < n)%nat → read_slot (new_segment n layout epoch wall sequence) n i = Some Slot.slot_new.
Proof.
  intros Hn Hl He. destruct (new_generation_range wall sequence) as (Hg & _ & Hu).
  destruct (fresh_segment (Header AETHER_SHM_MAGIC SHM_LAYOUT_VERSION (Z.of_nat n) 0 layout (new_generation wall sequence) epoch) n)
    as (H1 & H2 & H3 & H4).
  { unfold header_ok; cbn; split_and!; try done; unfold in_u, u_max in *; lia. }
  fold (new_segment n layout epoch wall sequence) in *.
  unfold ready, plane, stable. rewrite H3. split_and!; try done.
  intros i Hi. by eapply read_slot_idle, H4.
Qed.

(** Fields outside a store. *)
Lemma store_le_reads o m x mem i :
  (o + m ≤ 64)%nat → (64 ≤ length mem)%nat → read_slot (store_le o m x mem) n i = read_slot mem n i.
Proof.
  intros Ho Hl. unfold read_slot, try_load_consistent, slot_addr, slot_offset, HEADER_SIZE.
  by rewrite !load_store_le_disjoint by lia.
Qed.

Lemma store_le_idle o m x mem : (o + m ≤ 64)%nat → (64 ≤ length mem)%nat → idle mem → idle (store_le o m x mem).
Proof.
  intros Ho Hl Hi i Hn. unfold slot_idle, slot_addr, slot_offset, HEADER_SIZE in *.
  rewrite load_store_le_disjoint by lia. by apply Hi.
Qed.

Lemma set_generation_plane g mem : plane mem → plane (set_generation g mem).
Proof.
  intros Hp. pose proof (plane_long _ Hp) as Hlong. destruct Hp as ([Hl Hok] & Hm & Hv & Hc & Hh & He).
  unfold plane, segment, set_generation, header_snapshot in *. cbn in *.
  rewrite length_store_le, !load_store_le_disjoint by lia. split_and!; try done. by apply store_le_ok.
Qed.

Lemma heartbeat_plane t mem : plane mem → plane (update_heartbeat t mem).
Proof.
  intros Hp. pose proof (plane_long _ Hp) as Hlong. destruct Hp as ([Hl Hok] & Hm & Hv & Hc & Hh & He).
  unfold plane, segment, update_heartbeat, header_snapshot in *. cbn in *.
  rewrite length_store_le, !load_store_le_disjoint by lia. split_and!; try done. by apply store_le_ok.
Qed.

Lemma heartbeat_stable t mem : (64 ≤ length mem)%nat → stable mem → stable (update_heartbeat t mem).
Proof. intros Hl. unfold stable, update_heartbeat. cbn. by rewrite load_store_le_disjoint by lia. Qed.

Lemma heartbeat_ready t mem : ready mem → ready (update_heartbeat t mem).
Proof.
  intros (Hp & Hs & Hi). pose proof (plane_long _ Hp).
  split_and!; [by apply heartbeat_plane|by apply heartbeat_stable|by apply store_le_idle; [lia|..]].
Qed.

Lemma set_generation_marked mem :
  plane mem → stable mem → marked (set_generation (Z.lor (writer_generation (header_snapshot mem)) 1) mem).
Proof.
  intros Hp Hst. pose proof (plane_long _ Hp) as Hl. destruct Hp as [[_ Hok] _].
  assert (in_u 64 (writer_generation (header_snapshot mem))) as Hg by (apply (load_le_in_u 32 8); [done|lia]).
  destruct (generation_stable_bounds _ Hg Hst) as (-> & Hu & Hodd). unfold marked. by rewrite set_generation_get.
Qed.

Lemma header_plane mem mem' : plane mem → segment n mem' → header_snapshot mem' = header_snapshot mem → plane mem'.
Proof. intros (_ & H) Hs Hh. split; [done|]. by rewrite Hh. Qed.

(** A write through the bounds-checked path. *)
Lemma set_direct_facts i d mem :
  segment n mem → idle mem → (i < n)%nat → data_ok d →
  ∃ mem', set_direct n i d mem = Ok mem' ∧ segment n mem' ∧ header_snapshot mem' = header_snapshot mem ∧ idle mem' ∧
    read_slot mem' n i = Some d ∧ (∀ j, j ≠ i → read_slot mem' n j = read_slot mem n j).
Proof.
  intros Hs Hi Hn Hd. unfold set_direct. destruct (Nat.ltb_spec i n); [|lia].
  destruct (slot_set_facts n i d mem Hs Hn Hd (Hi i Hn)) as (H1 & H2 & H3 & H4 & H5).
  eexists. split_and!; try done. intros j Hj. by apply H5, Hi.
Qed.
End Planes.

(** ** Migration *)

(** What is carried over: a committed, observed sample. *)
Definition observed (mem : list Z) (n : nat) (slot : option nat) : option Slot.slot_data :=
  slot ← slot;
  d ← read_slot mem n slot;
  if Float.is_nan (Float.from_bits (Slot.value_bits d)) then None else Some d.

(** The staged slots [l] after a copy that carries [f] over. *)
Definition migrated {A} (n : nat) (f : A → option Slot.slot_data) (l : list (nat * A)) (mem mem' : list Z) : Prop :=
  segment n mem' ∧ header_snapshot mem' = header_snapshot mem ∧ idle n mem' ∧
  (∀ j, j ∉ l.*1 → read_slot mem' n j = read_slot mem n j).

Definition carried {A} (n : nat) (f : A → option Slot.slot_data) (l : list (nat * A)) (mem mem' : list Z) : Prop :=
  ∀ slot a, (slot, a) ∈ l → read_slot mem' n slot = match f a with Some d => Some d | None => read_slot mem n slot end.

Lemma migrated_keep {A} n (f : A → option Slot.slot_data) slot a l mem mem' :
  f a = None → migrated n f l mem mem' → migrated n f ((slot, a) :: l) mem mem'.
Proof. intros Hf (H1 & H2 & H3 & H4). split_and!; try done. intros j Hj. apply H4. set_solver. Qed.

Lemma carried_keep {A} n (f : A → option Slot.slot_data) slot a l mem mem' :
  f a = None → slot ∉ l.*1 → migrated n f l mem mem' → carried n f l mem mem' → carried n f ((slot, a) :: l) mem mem'.
Proof.
  intros Hf Hn (_ & _ & _ & Ho) Hc s' a' [Heq|Hin]%elem_of_cons; [|by apply Hc].
  simplify_eq. rewrite Hf. by apply Ho.
Qed.

Lemma migrated_set {A} n (f : A → option Slot.slot_data) slot a l mem mem1 mem' :
  header_snapshot mem1 = header_snapshot mem → (∀ j, j ≠ slot → read_slot mem1 n j = read_slot mem n j) →
  migrated n f l mem1 mem' → migrated n f ((slot, a) :: l) mem mem'.
Proof.
  intros Hh Hr (H1 & H2 & H3 & H4). split_and!; [done|by rewrite H2|done|]. intros j Hj. cbn in Hj.
  rewrite H4, Hr; [done|set_solver|set_solver].
Qed.

Lemma carried_set {A} n (f : A → option Slot.slot_data) slot a d l mem mem1 mem' :
  f a = Some d → slot ∉ l.*1 → read_slot mem1 n slot = Some d → (∀ j, j ≠ slot → read_slot mem1 n j = read_slot mem n j) →
  migrated n f l mem1 mem' → carried n f l mem1 mem' → carried n f ((slot, a) :: l) mem mem'.
Proof.
  intros Hf Hn Hd Hr (_ & _ & _ & Ho) Hc s' a' [Heq|Hin]%elem_of_cons.
  - simplify_eq. rewrite Hf, Ho by done. done.
  - rewrite (Hc _ _ Hin). destruct (f a'); [done|]. apply Hr. intros ->. apply Hn. apply list_elem_of_fmap. by eexists (_, _).
Qed.

Lemma migrate_points_spec n l previous pm pn mem :
  segment n mem → idle n mem → segment pn pm → Forall (fun x => x.1 < n)%nat l → NoDup l.*1 →
  let f a := observed pm pn (Manifest.slot_for previous a) in
  ∃ r mem', migrate_points n l previous pm pn mem = (r, mem') ∧ r ≠ Panic ∧ migrated n f l mem mem' ∧
    (r = Ok tt → carried n f l mem mem').
Proof.
  intros Hs Hi Hp Hl Hnd f. revert mem Hs Hi. induction l as [|[slot a] l IH]; intros mem Hs Hi; cbn [migrate_points].
  { eexists _, _. split_and!; [done|done|by split_and!|]. intros _ ? ? H%elem_of_nil. done. }
  inversion_clear Hl as [|? ? Hlt Hl']. cbn [fmap list_fmap] in Hnd. inversion_clear Hnd as [|? ? Hnot Hnd'].
  cbn [fst] in *.
  assert (∀ mem, segment n mem → idle n mem → f a = None →
    ∃ r mem', migrate_points n l previous pm pn mem = (r, mem') ∧ r ≠ Panic ∧ migrated n f ((slot, a) :: l) mem mem' ∧
      (r = Ok tt → carried n f ((slot, a) :: l) mem mem')) as Hkeep.
  { intros mem0 Hs0 Hi0 Hf. destruct (IH Hl' Hnd' mem0 Hs0 Hi0) as (r & mem' & H1 & H2 & H3 & H4).
    exists r, mem'. split_and!; [done|done|by apply migrated_keep|]. intros Hr. apply carried_keep; auto. }
  unfold f, observed in Hkeep. destruct (Manifest.slot_for previous a) as [ps|] eqn:Hps; cbn [mbind option_bind] in Hkeep; [|by apply Hkeep].
  destruct (read_slot pm pn ps) as [d|] eqn:Hrd; cbn [mbind option_bind] in Hkeep.
  2: { eexists _, _. split_and!; [done|done|by split_and!|done]. }
  destruct (Float.is_nan _) eqn:Hnan; [by apply Hkeep|]. clear Hkeep.
  destruct (set_direct_facts n slot d mem Hs Hi Hlt (read_slot_data _ _ _ _ Hp Hrd)) as (mem1 & -> & S1 & S2 & S3 & S4 & S5).
  destruct (IH Hl' Hnd' mem1 S1 S3) as (r & mem' & H1 & H2 & H3 & H4).
  exists r, mem'. split_and!; [done|done|by eapply migrated_set|]. intros Hr.
  eapply carried_set; [|done|exact S4|exact S5|exact H3|by apply H4].
  unfold f, observed. rewrite Hps. cbn [mbind option_bind]. rewrite Hrd. cbn [mbind option_bind]. by rewrite Hnan.
Qed.

Lemma migrate_channels_spec n l manifest previous pm pn mem :
  segment n mem → idle n mem → segment pn pm → Forall (fun x => health_slot_for manifest x.2 = Some x.1 ∧ x.1 < n)%nat l → NoDup l.*1 →
  let f c := observed pm pn (health_slot_for previous c) in
  ∃ r mem', migrate_channels n l.*2 manifest previous pm pn mem = (r, mem') ∧ r ≠ Panic ∧ migrated n f l mem mem' ∧
    (r = Ok tt → carried n f l mem mem').
Proof.
  intros Hs Hi Hp Hl Hnd f. revert mem Hs Hi. induction l as [|[slot c] l IH]; intros mem Hs Hi; cbn [fmap list_fmap migrate_channels snd].
  { eexists _, _. split_and!; [done|done|by split_and!|]. intros _ ? ? H%elem_of_nil. done. }
  inversion_clear Hl as [|? ? [Hc Hlt] Hl']. cbn [fmap list_fmap] in Hnd. inversion_clear Hnd as [|? ? Hnot Hnd'].
  cbn [fst snd] in *. fold (list_fmap _ _ (@snd nat Z) l).
  assert (∀ mem, segment n mem → idle n mem → f c = None →
    ∃ r mem', migrate_channels n l.*2 manifest previous pm pn mem = (r, mem') ∧ r ≠ Panic ∧ migrated n f ((slot, c) :: l) mem mem' ∧
      (r = Ok tt → carried n f ((slot, c) :: l) mem mem')) as Hkeep.
  { intros mem0 Hs0 Hi0 Hf. destruct (IH Hl' Hnd' mem0 Hs0 Hi0) as (r & mem' & H1 & H2 & H3 & H4).
    exists r, mem'. split_and!; [done|done|by apply migrated_keep|]. intros Hr. apply carried_keep; auto. }
  unfold f, observed in Hkeep. unfold health_contains.
  destruct (health_slot_for previous c) as [ps|] eqn:Hps; cbn [mbind option_bind negb] in *; [|by apply Hkeep].
  rewrite Hc. destruct (read_slot pm pn ps) as [d|] eqn:Hrd; cbn [mbind option_bind] in Hkeep.
  2: { eexists _, _. split_and!; [done|done|by split_and!|done]. }
  destruct (Float.is_nan _) eqn:Hnan; [by apply Hkeep|]. clear Hkeep.
  destruct (valid_health d); cbn [negb].
  2: { eexists _, _. split_and!; [done|done|by split_and!|done]. }
  destruct (set_direct_facts n slot d mem Hs Hi Hlt (read_slot_data _ _ _ _ Hp Hrd)) as (mem1 & -> & S1 & S2 & S3 & S4 & S5).
  destruct (IH Hl' Hnd' mem1 S1 S3) as (r & mem' & H1 & H2 & H3 & H4).
  exists r, mem'. split_and!; [done|done|by eapply migrated_set|]. intros Hr.
  eapply carried_set; [|done|exact S4|exact S5|exact H3|by apply H4].
  unfold f, observed. rewrite Hps. cbn [mbind option_bind]. rewrite Hrd. cbn [mbind option_bind]. by rewrite Hnan.
Qed.

(** The slots of a manifest are its own. *)
Lemma iter_points_ok m :
  Manifest.manifest_ok m →
  Forall (fun x => x.1 < Manifest.slot_count m)%nat (iter_physical_points m) ∧ NoDup (iter_physical_points m).*1.
Proof.
  intros Hok. pose proof (Manifest.slots_length m Hok) as Hlen. unfold iter_physical_points. rewrite fst_zip by lia.
  pose proof Hok as [_ Ha].
  pose proof (Manifest.allocate_increasing (Manifest.points_by_address m) 0 None false false) as Hi.
  unfold Manifest.allocate_slots in Ha. rewrite Ha in Hi. split; [|by apply Manifest.increasing_NoDup, Hi].
  apply Forall_lookup. intros i [slot a] H. apply lookup_zip_Some in H as [H1 H2]. cbn.
  destruct Hi as (_ & _ & Hf & _). eapply Forall_lookup_1 in Hf; [|exact H1]. cbn in Hf. lia.
Qed.

Lemma iter_points_slot m a slot :
  Manifest.manifest_ok m → Manifest.slot_for m a = Some slot ↔ (slot, a) ∈ iter_physical_points m.
Proof.
  intros Hok. rewrite Manifest.slot_for_spec by done. unfold iter_physical_points. rewrite list_elem_of_lookup.
  split; intros [i H]; exists i; [apply lookup_zip_Some|apply lookup_zip_Some in H]; naive_solver.
Qed.

Definition health_ok (m : ChannelHealthManifest) : Prop := NoDup (channel_ids m).
Definition iter_channels (m : ChannelHealthManifest) : list (nat * Z) := imap pair (channel_ids m).

Lemma health_slot_spec m c i : health_ok m → health_slot_for m c = Some i ↔ channel_ids m !! i = Some c.
Proof.
  intros Hnd. unfold health_slot_for. rewrite fmap_Some. split.
  - intros ([j x] & Hf & ->). apply list_find_Some in Hf as (Hx & -> & _). done.
  - intros Hi. apply (Manifest.find_index (eq c)) in Hi as (x & Hx & _); [by exists (i, x)|by intros ? ? -> ->|done|done].
Qed.

Lemma iter_channels_elem m i c : (i, c) ∈ iter_channels m ↔ channel_ids m !! i = Some c.
Proof.
  unfold iter_channels. rewrite list_elem_of_lookup. setoid_rewrite list_lookup_imap. setoid_rewrite fmap_Some.
  split; [intros (j & x & Hx & [= -> ->]); done|intros Hi; by exists i, c].
Qed.

Lemma iter_channels_ok m :
  health_ok m →
  (iter_channels m).*2 = channel_ids m ∧
  Forall (fun x => health_slot_for m x.2 = Some x.1 ∧ x.1 < health_slot_count m)%nat (iter_channels m) ∧
  NoDup (iter_channels m).*1.
Proof.
  intros Hok. split_and!.
  - unfold iter_channels. rewrite fmap_imap. apply list_eq. intros i. rewrite list_lookup_imap. by destruct (channel_ids m !! i).
  - apply Forall_forall. intros [i c] Hin%iter_channels_elem. cbn. split; [by apply health_slot_spec|by eapply lookup_lt_Some].
  - unfold iter_channels. rewrite fmap_imap. apply NoDup_alt. intros i j x Hi Hj.
    rewrite list_lookup_imap in Hi, Hj. apply fmap_Some in Hi as (? & _ & Hi), Hj as (? & _ & Hj). cbn in *. congruence.
Qed.

(** ** Filling the staged generation *)

(** A mapping of this process is still a segment, and not the staging file. *)
Definition mapped (s : string) (wr : SlotWriter) (w : world) : Prop :=
  (sw_ino wr < w_next w)%nat ∧ w_names w !! s ≠ Some (sw_ino wr) ∧ segment (sw_slot_count wr) (file_bytes w (sw_ino wr)).

Lemma mapped_bytes s wr w w' : mapped s wr w → staged s w w' → file_bytes w' (sw_ino wr) = file_bytes w (sw_ino wr).
Proof. intros (H1 & H2 & _) (_ & _ & _ & Hd & _). by apply Hd. Qed.

(** The samples of the previous generation. *)
Definition point_sample (previous : option ShmWriterGeneration) (w : world) (a : Manifest.PhysicalPointAddress) : option Slot.slot_data :=
  p ← previous;
  observed (file_bytes w (sw_ino (g_writer p))) (sw_slot_count (g_writer p)) (Manifest.slot_for (g_manifest p) a).
Definition channel_sample (previous : option ShmChannelHealthWriter) (w : world) (c : Z) : option Slot.slot_data :=
  p ← previous;
  observed (file_bytes w (sw_ino (hw_writer p))) (sw_slot_count (hw_writer p)) (health_slot_for (hw_manifest p) c).

(** Every slot of the new manifest holds the sample of its address, or is unwritten. *)
Definition holds {A} (n : nat) (slot_of : A → option nat) (f : A → option Slot.slot_data) (mem : list Z) : Prop :=
  ∀ a slot, slot_of a = Some slot → read_slot mem n slot = Some (default Slot.slot_new (f a)).

Section Fill.
Context (s : string) (b : nat) (F : Prop) (w : world) (ino : nat) (layout epoch : Z).

Lemma spec_on_mapping {A} p k (f : list Z → res Outbox.PortErrorKind A * list Z) r mem w' (P : A → world → Prop) :
  own s ino w w' → f (file_bytes w' ino) = (r, mem) → bytes_ok mem → r ≠ Panic → (∀ e, r = Err e → F) →
  (∀ a w1, r = Ok a → own s ino w w1 → file_bytes w1 ino = mem → P a w1) →
  spec b F (on_mapping (Writer ino p k) f) P (staged s w) w'.
Proof.
  intros Ho Hf Hm Hr HF HP Hb. unfold wp, on_mapping. cbn [sw_ino]. rewrite Hf. split; [exact Hb|].
  pose proof (own_data s ino mem w w' Hm Ho) as Ho'.
  destruct r as [a|e|]; [apply HP; [done|done|apply file_bytes_insert]|split; [apply Ho'|left; by eapply HF]|done].
Qed.

Lemma spec_mapping wr (P : list Z → world → Prop) I w' :
  P (file_bytes w' (sw_ino wr)) w' → spec b F (mapping wr) P I w'.
Proof. by split. Qed.

(** The heartbeat of the previous writer is kept. *)
Lemma spec_fill_heartbeat n K t w' :
  own s ino w w' → ready n layout epoch (file_bytes w' ino) →
  (∀ mem, (64 ≤ length mem)%nat → K mem → K (update_heartbeat t mem)) → K (file_bytes w' ino) →
  spec b F (on_mapping (Writer ino s n) (fun mem => (Ok tt, update_heartbeat t mem)))
    (fun _ w1 => own s ino w w1 ∧ ready n layout epoch (file_bytes w1 ino) ∧ K (file_bytes w1 ino)) (staged s w) w'.
Proof.
  intros Ho Hr HK Hk. pose proof (heartbeat_ready _ _ _ t _ Hr) as Hr'.
  eapply spec_on_mapping; [done|done|by apply Hr'|done|done|]. intros [] w1 _ H1 ->.
  split_and!; [done|done|]. apply HK; [|done]. eapply plane_long, Hr.
Qed.

Lemma holds_heartbeat {A} n (slot_of : A → option nat) f t mem :
  (64 ≤ length mem)%nat → holds n slot_of f mem → holds n slot_of f (update_heartbeat t mem).
Proof. intros Hl Hh a slot Ha. unfold update_heartbeat. rewrite store_le_reads by lia. by apply Hh. Qed.

(** A copy of the live state into a staged, unwritten segment. *)
Lemma migrated_ready {A} n (f : A → option Slot.slot_data) l mem mem' :
  ready n layout epoch mem → migrated n f l mem mem' → ready n layout epoch mem'.
Proof.
  intros (Hp & Hs & Hi) (H1 & H2 & H3 & _). split_and!; [by eapply header_plane|by unfold stable in *; rewrite H2|done].
Qed.

Lemma carried_holds {A} n (slot_of : A → option nat) f l mem mem' :
  (∀ a slot, slot_of a = Some slot → (slot, a) ∈ l) → (∀ a slot, slot_of a = Some slot → slot < n)%nat →
  (∀ i, (i < n)%nat → read_slot mem n i = Some Slot.slot_new) → carried n f l mem mem' → holds n slot_of f mem'.
Proof.
  intros Hin Hlt Hnew Hc a slot Ha. rewrite (Hc _ _ (Hin _ _ Ha)). destruct (f a); [done|]. apply Hnew. by eapply Hlt.
Qed.

Lemma spec_restore_snapshot (manifest : Manifest.ChannelPointManifest) path w' :
  F → own s ino w w' → ready (Manifest.slot_count manifest) layout epoch (file_bytes w' ino) →
  spec b F (restore_snapshot (Writer ino s (Manifest.slot_count manifest)) path manifest)
    (fun _ w1 => own s ino w w1 ∧ ready (Manifest.slot_count manifest) layout epoch (file_bytes w1 ino)) (staged s w) w'.
Proof.
  intros HF Ho Hr. set (mem := file_bytes w' ino) in *. unfold restore_snapshot.
  eapply (spec_bind _ _ _ _ (fun img w1 => own s ino w w1 ∧ file_bytes w1 ino = mem ∧ Snapshot.image_ok img)).
  - apply spec_map_err. unfold Snapshot.load.
    eapply spec_bind; [apply (spec_call _ _ _ _ _ (fun _ w1 => own s ino w w1 ∧ file_bytes w1 ino = mem))|].
    { done. }
    { intros fs _. cbn. destruct (w_names w' !! path); [done|]. split_and!; [done|done|apply Ho]. }
    { intros ? fs. apply Ho. }
    intros i w1 [H1 Hm1].
    eapply spec_bind; [apply (spec_call _ _ _ _ _ (fun bytes w2 => own s ino w w2 ∧ file_bytes w2 ino = mem ∧ bytes_ok bytes))|].
    { done. }
    { intros fs _. cbn. split_and!; [done|done|done|]. apply H1. }
    { intros ? fs. apply H1. }
    intros bytes w2 (H2 & Hm2 & Hok). apply spec_lift; [apply Snapshot.load_bytes_no_panic| |].
    + intros img Hi. split_and!; [done|done|]. by apply Snapshot.load_bytes_exact in Hi as [? _].
    + intros e _. split; [done|apply H2].
  - intros img w1 (H1 & Hm1 & Hrec & Hrecs & Hcount). rewrite <- Hm1 in *. destruct Hr as (Hp & Hs & Hi). cbn [sw_slot_count].
    set (k := Manifest.slot_count manifest) in *.
    set (step := fun mem0 : list Z => _).
    assert (∃ r mem', step (file_bytes w1 ino) = (r, mem') ∧ r ≠ Panic ∧ segment k mem' ∧ idle k mem' ∧
      header_snapshot mem' = header_snapshot (file_bytes w1 ino)) as (r & mem' & E & Hr & Sg & Si & Sh).
    { unfold step, Snapshot.restore_exact_snapshot. destruct (_ || _) eqn:Hc.
      { eexists _, _. split_and!; [done|done|by apply Hp|done|done]. }
      apply orb_false_iff in Hc as [Hc _]. rewrite negb_false_iff, Nat.eqb_eq in Hc.
      destruct (Snapshot.restore_slots_spec k (Snapshot.slots img) 0 (file_bytes w1 ino)) as (mem' & -> & R2 & R3 & R4 & R5);
        [apply Hp|rewrite Hcount, Hc; cbn; lia|done|intros j Hj; apply Hi; lia|].
      eexists _, _. split_and!; [done|done|done| |done]. intros i Hlt.
      destruct (lookup_lt_is_Some_2 (Snapshot.slots img) i) as [o Ho']; [rewrite Hcount, Hc; done|].
      pose proof (R5 _ _ Ho') as Hread. cbn [Nat.add] in Hread. destruct o as [d|]; [by eapply read_slot_idle|].
      destruct (idle_reads k i (file_bytes w1 ino) Hi Hlt) as [d Hd]. rewrite Hd in Hread. by eapply read_slot_idle. }
    eapply spec_on_mapping; [done|exact E|by apply Sg|done|done|]. intros [] w2 _ H2 ->. split; [done|].
    split_and!; [by eapply header_plane|by unfold stable in *; rewrite Sh|done].
Qed.

Lemma spec_fill_points (manifest : Manifest.ChannelPointManifest) snapshot previous w' :
  let n := Manifest.slot_count manifest in
  Manifest.manifest_ok manifest → own s ino w w' → ready n layout epoch (file_bytes w' ino) →
  (∀ i, (i < n)%nat → read_slot (file_bytes w' ino) n i = Some Slot.slot_new) →
  (∀ p, previous = Some p → mapped s (g_writer p) w) → (is_Some snapshot ∨ is_Some previous → F) →
  spec b F (fill_points manifest snapshot previous (Writer ino s n))
    (fun _ w1 => own s ino w w1 ∧ ready n layout epoch (file_bytes w1 ino) ∧
       (snapshot = None → holds n (Manifest.slot_for manifest) (point_sample previous w) (file_bytes w1 ino)))
    (staged s w) w'.
Proof.
  intros n Hok Ho Hr Hnew Hp HF. destruct (iter_points_ok _ Hok) as [Hlt Hnd]. unfold fill_points.
  destruct snapshot as [path|]; [|destruct previous as [p|]].
  - eapply spec_mono; [apply spec_restore_snapshot; eauto| |done]. intros [] w1 [H1 H2]. by split_and!.
  - specialize (Hp p eq_refl). assert F as Hf by (apply HF; right; eauto).
    eapply spec_bind; [apply (spec_mapping _ (fun pm w1 => w1 = w' ∧ pm = file_bytes w (sw_ino (g_writer p))))|].
    { split; [done|]. eapply mapped_bytes; [done|apply Ho]. }
    intros pm w1 [-> ->]. cbn [sw_slot_count].
    set (pm := file_bytes w (sw_ino (g_writer p))). set (pn := sw_slot_count (g_writer p)).
    destruct (migrate_points_spec n (iter_physical_points manifest) (g_manifest p) pm pn (file_bytes w' ino))
      as (r & mem & E & Hnp & Hm & Hc); [apply Hr..|apply Hp|done|done|].
    pose proof (migrated_ready _ _ _ _ _ Hr Hm) as Hr'.
    eapply (spec_bind _ _ _ _ (fun _ w1 => own s ino w w1 ∧ ready n layout epoch (file_bytes w1 ino) ∧
      holds n (Manifest.slot_for manifest) (point_sample (Some p) w) (file_bytes w1 ino))).
    { eapply spec_on_mapping; [done|exact E|by apply Hr'|done|done|]. intros [] w2 -> H2 ->. split_and!; [done|done|].
      eapply carried_holds; [|intros ? ?; by apply Manifest.slot_for_bound|exact Hnew|by apply Hc].
      intros a slot. apply iter_points_slot, Hok. }
    intros [] w2 (H2 & H3 & H4). eapply spec_mono; [eapply spec_fill_heartbeat; [exact H2|exact H3| |exact H4]| |done].
    + intros mem' Hl. by apply holds_heartbeat.
    + intros [] w3 (? & ? & ?). by split_and!.
  - apply spec_ret. split_and!; [done|done|]. intros _ a slot Ha. apply Hnew. by eapply Manifest.slot_for_bound.
Qed.

Lemma spec_fill_health (manifest : ChannelHealthManifest) previous w' :
  let n := health_slot_count manifest in
  health_ok manifest → own s ino w w' → ready n layout epoch (file_bytes w' ino) →
  (∀ i, (i < n)%nat → read_slot (file_bytes w' ino) n i = Some Slot.slot_new) →
  (∀ p, previous = Some p → mapped s (hw_writer p) w) → (is_Some previous → F) →
  spec b F (fill_health manifest previous (Writer ino s n))
    (fun _ w1 => own s ino w w1 ∧ ready n layout epoch (file_bytes w1 ino) ∧
       holds n (health_slot_for manifest) (channel_sample previous w) (file_bytes w1 ino))
    (staged s w) w'.
Proof.
  intros n Hok Ho Hr Hnew Hp HF. destruct (iter_channels_ok _ Hok) as (Hids & Hlt & Hnd). unfold fill_health.
  assert (∀ a slot, health_slot_for manifest a = Some slot → (slot < n)%nat) as Hbound.
  { intros a slot Ha%health_slot_spec; [|done]. by eapply lookup_lt_Some. }
  destruct previous as [p|].
  - specialize (Hp p eq_refl). assert F as Hf by (apply HF; eauto).
    eapply spec_bind; [apply (spec_mapping _ (fun pm w1 => w1 = w' ∧ pm = file_bytes w (sw_ino (hw_writer p))))|].
    { split; [done|]. eapply mapped_bytes; [done|apply Ho]. }
    intros pm w1 [-> ->]. cbn [sw_slot_count].
    set (pm := file_bytes w (sw_ino (hw_writer p))). set (pn := sw_slot_count (hw_writer p)).
    destruct (migrate_channels_spec n (iter_channels manifest) manifest (hw_manifest p) pm pn (file_bytes w' ino))
      as (r & mem & E & Hnp & Hm & Hc); [apply Hr..|apply Hp|done|done|]. rewrite Hids in E.
    pose proof (migrated_ready _ _ _ _ _ Hr Hm) as Hr'.
    eapply (spec_bind _ _ _ _ (fun _ w1 => own s ino w w1 ∧ ready n layout epoch (file_bytes w1 ino) ∧
      holds n (health_slot_for manifest) (channel_sample (Some p) w) (file_bytes w1 ino))).
    { eapply spec_on_mapping; [done|exact E|by apply Hr'|done|done|]. intros [] w2 -> H2 ->. split_and!; [done|done|].
      eapply carried_holds; [|exact Hbound|exact Hnew|by apply Hc].
      intros a slot Ha. apply iter_channels_elem. by apply health_slot_spec. }
    intros [] w2 (H2 & H3 & H4). eapply spec_fill_heartbeat; [exact H2|exact H3| |exact H4].
    intros mem' Hl. by apply holds_heartbeat.
  - apply spec_ret. split_and!; [done|done|]. intros a slot Ha. apply Hnew. by eapply Hbound.
Qed.
End Fill.

(** ** Opening a plane *)

(** The files are as they were. *)
Definition quiet (w w' : world) : Prop := ∃ fs, w' = with_faults fs w.

Lemma quiet_refl w : quiet w w.
Proof. exists (w_faults w). by destruct w. Qed.

Lemma quiet_trans w w' fs : quiet w w' → quiet w (with_faults fs w').
Proof. intros [fs' ->]. by exists fs. Qed.

Section Opening.
Context (b : nat) (F : Prop) (c : string).

Lemma spec_open {E} (of_io : io_kind → E) i w w' :
  quiet w w' → w_names w !! c = Some i → spec b F (sys_open of_io c) (fun j w1 => j = i ∧ quiet w w1) (quiet w) w'.
Proof.
  intros Hq Hi. apply spec_call; [done| |intros ? fs; by apply quiet_trans].
  intros fs _. cbn. destruct Hq as [fs' ->]. cbn. rewrite Hi. split_and!; [done|done|by exists fs].
Qed.

Lemma spec_read {E} (of_io : io_kind → E) i w w' :
  quiet w w' → spec b F (sys_read of_io i) (fun bs w1 => bs = file_bytes w i ∧ quiet w w1) (quiet w) w'.
Proof.
  intros Hq. apply spec_call; [done| |intros ? fs; by apply quiet_trans].
  intros fs _. cbn. destruct Hq as [fs' ->]. split_and!; [done|done|by exists fs].
Qed.

Lemma spec_peek i w w' : quiet w w' → spec b F (peek_map i) (fun bs w1 => bs = file_bytes w i ∧ quiet w w1) (quiet w) w'.
Proof. intros [fs ->] Hb. by split; [|split; [|exists fs]]. Qed.

Lemma spec_nop_quiet {E} (of_io : io_kind → E) w w' :
  quiet w w' → spec b F (sys_nop of_io) (fun _ w1 => quiet w w1) (quiet w) w'.
Proof. intros Hq. apply spec_nop; intros fs; by apply quiet_trans. Qed.

Lemma spec_check_quiet (x : bool) w w' :
  x = true → quiet w w' → spec b F (check x) (fun _ w1 => quiet w w1) (quiet w) w'.
Proof. intros -> Hq. by apply spec_ret. Qed.

Ltac quietly :=
  repeat first
    [ eapply spec_bind; [first [eapply spec_open | eapply spec_read | eapply spec_peek | eapply spec_nop_quiet
                               | eapply spec_check_quiet]; eauto|]; cbv beta; [first [intros ? ? [-> ?]|intros [] ? ?]]
    | progress cbv zeta ].

Context (i n : nat) (layout epoch : Z) (w : world).
Hypothesis Hname : w_names w !! c = Some i.
Hypothesis Hplane : plane n layout epoch (file_bytes w i).
Hypothesis Hepoch : epoch ≠ 0.

Lemma plane_checks :
  (HEADER_SIZE <=? length (file_bytes w i))%nat = true ∧
  (magic (header_snapshot (file_bytes w i)) =? AETHER_SHM_MAGIC) = true ∧
  (version (header_snapshot (file_bytes w i)) =? SHM_LAYOUT_VERSION) = true ∧
  negb (publication_epoch (header_snapshot (file_bytes w i)) =? 0) = true ∧
  (Z.to_nat (slot_count (header_snapshot (file_bytes w i))) = n) ∧
  validate_mapping_layout (length (file_bytes w i)) n = Ok tt.
Proof.
  pose proof (plane_long _ _ _ _ Hplane) as Hl. pose proof (plane_small _ _ _ _ Hplane) as Hs.
  destruct Hplane as ([Hlen _] & -> & -> & -> & _ & ->). rewrite Nat2Z.id. split_and!; try done.
  - apply Nat.leb_le. unfold HEADER_SIZE. lia.
  - by apply negb_true_iff, Z.eqb_neq.
  - by apply validate_mapping_layout_Ok.
Qed.

Lemma spec_reader_open w' :
  quiet w w' → spec b F (reader_open c) (fun rd w1 => rd = Reader i n ∧ quiet w w1) (quiet w) w'.
Proof.
  intros Hq. destruct plane_checks as (H1 & H2 & H3 & H4 & H5 & H6). unfold reader_open. quietly.
  rewrite H5. eapply (spec_bind _ _ _ _ (fun _ w1 => quiet w w1)); [rewrite H6; by apply spec_ret|].
  intros _ w1 Hq1. by apply spec_ret.
Qed.

Lemma spec_open_existing w' :
  stable (file_bytes w i) → quiet w w' →
  spec b F (open_existing c n layout) (fun wr w1 => wr = Writer i c n ∧ quiet w w1) (quiet w) w'.
Proof.
  intros Hs Hq. destruct plane_checks as (H1 & H2 & H3 & H4 & H5 & H6).
  assert (layout_hash (header_snapshot (file_bytes w i)) =? layout = true) as H7
    by (apply Z.eqb_eq; apply Hplane).
  assert (negb (generation_unstable (writer_generation (header_snapshot (file_bytes w i)))) = true) as H8
    by (unfold stable in Hs; by rewrite Hs).
  unfold open_existing. quietly.
  rewrite H5. eapply (spec_bind _ _ _ _ (fun _ w1 => quiet w w1)); [rewrite H6; by apply spec_ret|]. intros [] w1 Hq1.
  eapply spec_bind; [apply spec_check_quiet; [apply Nat.eqb_refl|exact Hq1]|]. intros [] w2 Hq2. quietly.
  unfold from_mmap_with_file. quietly.
  eapply (spec_bind _ _ _ _ (fun _ w1 => quiet w w1)); [rewrite H6; by apply spec_ret|]. intros _ w3 Hq3. by apply spec_ret.
Qed.

Lemma spec_validate_path wr w' :
  sw_path wr = c → sw_ino wr = i → quiet w w' →
  spec b F (validate_authoritative_path wr) (fun _ w1 => quiet w w1) (quiet w) w'.
Proof.
  intros Hp Hi Hq. unfold validate_authoritative_path. rewrite Hp, Hi. quietly.
  apply spec_check_quiet; [apply Nat.eqb_refl|done].
Qed.
End Opening.

(** A file that exists is not reported missing. *)
Lemma open_found c i w : w_names w !! c = Some i → (reader_open c w).1 ≠ Some (Err (Io NotFound)).
Proof.
  intros Hi H. assert (wp (reader_open c) (fun r _ => r ≠ Err (Io NotFound)) (fun _ => True) w) as Hwp.
  { unfold reader_open. apply wp_bind, wp_sys_open; [intros fs _; rewrite Hi|done|done].
    apply wp_bind, wp_sys_read; [intros fs1 _|done|done]. unfold check.
    apply wp_bind. case_match; [|done]. apply wp_ret. apply wp_bind, wp_sys_nop; [intros fs2 _|done|done].
    apply wp_bind, wp_peek. cbv zeta. repeat (apply wp_bind; case_match; [apply wp_ret|done]).
    apply wp_bind, wp_lift. unfold validate_mapping_layout. cbv beta.
    destruct (_ <? _); [done|]. destruct (_ =? calculate_file_size _)%nat; cbn [negb]; [by apply wp_ret|done]. }
  unfold wp in Hwp. destruct (reader_open c w) as [[r|] w']; [|done]. cbn in H. by injection H as ->.
Qed.

Lemma spec_attempt_found {A} b (F : Prop) (m : shm_io A) (P : A → world → Prop) I w :
  spec b F m P I w → (m w).1 ≠ Some (Err (Io NotFound)) →
  spec b F (attempt m) (fun r w' => match r with
                                | Ok a => P a w'
                                | Err e => e ≠ Io NotFound ∧ I w' ∧ (F ∨ (budget w' < b)%nat)
                                | Panic => False
                                end) I w.
Proof.
  intros Hm Hne Hb. specialize (Hm Hb). unfold wp, attempt in *. destruct (m w) as [[[a|e|]|] w']; try done.
  destruct Hm as (H1 & H2 & H3). split; [done|]. split; [|done]. intros ->. by apply Hne.
Qed.

(** With a stale mapping the check fails and nothing happens. *)
Lemma spec_validate_any b (F : Prop) wr w w' :
  F → quiet w w' →
  spec b F (validate_authoritative_path wr) (fun _ w1 => quiet w w1 ∧ w_names w !! sw_path wr = Some (sw_ino wr)) (quiet w) w'.
Proof.
  intros HF Hq. unfold validate_authoritative_path.
  eapply (spec_bind _ _ _ _ (fun i w1 => quiet w w1 ∧ w_names w !! sw_path wr = Some i)).
  - apply spec_call; [done| |intros ? fs; by apply quiet_trans]. intros fs _. destruct Hq as [fs' ->]. cbn.
    destruct (w_names w !! sw_path wr); split_and!; try done; by exists fs.
  - intros i w1 [H1 H2]. apply spec_check; [|done]. intros Hi%Nat.eqb_eq. by subst.
Qed.

(** ** Swapping a plane *)

Section Swap.
Context (s c : string) (ret : list Z → Prop).
Hypothesis Hsc : s ≠ c.

(** What a publication may leave: the canonical name denotes the old file, possibly
    marked invalid, or a new one; every other file is untouched.  A file that lost the
    name is as [ret] says. *)
Definition after (new : list Z → Prop) (w w' : world) : Prop :=
  files_ok w' ∧ (w_next w ≤ w_next w')%nat ∧
  (∀ q, q ≠ s → q ≠ c → w_names w' !! q = w_names w !! q) ∧
  (∀ i, (i < w_next w)%nat → w_names w !! s ≠ Some i →
     file_bytes w' i = file_bytes w i ∨
     w_names w !! c = Some i ∧ ∃ g, file_bytes w' i = set_generation g (file_bytes w i)) ∧
  (∀ i, w_names w' !! s = Some i → w_names w !! s = Some i ∨ (w_next w ≤ i)%nat) ∧
  (w_names w' !! c = w_names w !! c ∨
   ∃ j, w_names w' !! c = Some j ∧ (w_names w !! s = Some j ∨ (w_next w ≤ j)%nat) ∧ new (file_bytes w' j)) ∧
  (∀ i, w_names w !! c = Some i → w_names w' !! c = Some i ∨ ret (file_bytes w' i)).

Lemma staged_after new w w' : staged s w w' → after new w w'.
Proof.
  intros (H1 & H2 & H3 & H4 & H5). unfold after. split_and!; [apply H1..|done| | |done| |].
  - intros q Hs _. by apply H3.
  - intros i Hi Hn. left. by apply H4.
  - left. by apply H3.
  - intros i Hi. left. by rewrite H3.
Qed.

Lemma after_removed new w w' : after new w w' → after new w (with_names (delete s (w_names w')) w').
Proof.
  intros (([H1 H2] & H3 & H4) & Hn & Hq & Hd & Hs & Hc & Hr). unfold after, files_ok, fs_ok, nolinks in *. split_and!; try done; cbn.
  - intros p i Hp. apply lookup_delete_Some in Hp as [_ Hp]. by eapply H1.
  - intros p q i Hp Hq'. apply lookup_delete_Some in Hp as [_ Hp], Hq' as [_ Hq']. by apply (H3 p q i).
  - intros q Hne Hne'. rewrite lookup_delete_ne by done. by apply Hq.
  - intros i Hi. by rewrite lookup_delete_eq in Hi.
  - rewrite lookup_delete_ne by done. exact Hc.
  - intros i Hi. rewrite lookup_delete_ne by done. by apply Hr.
Qed.

Context (b : nat) (F : Prop) (w : world) (ino : nat) (new : list Z → Prop).
Hypothesis Hw : files_ok w.
(** The previous plane, if there is one, is intact. *)
Hypothesis Hold : ∀ i, w_names w !! c = Some i → ∃ n layout epoch, plane n layout epoch (file_bytes w i) ∧ epoch ≠ 0.

(** The staging file is complete. *)
Definition complete (w' : world) : Prop := own s ino w w' ∧ new (file_bytes w' ino).

Lemma complete_quiet w1 w2 : quiet w1 w2 → complete w1 → complete w2.
Proof. by intros [fs ->]. Qed.

Lemma complete_name w1 : complete w1 → w_names w1 !! c = w_names w !! c.
Proof. intros [[(_ & _ & Hq & _) _] _]. by apply Hq. Qed.

Lemma complete_bytes w1 i : complete w1 → w_names w !! c = Some i → file_bytes w1 i = file_bytes w i.
Proof. intros [[Hst _] _] Hi. by eapply (staged_bytes s c). Qed.

Lemma spec_discover g w1 :
  guards g c = true → complete w1 →
  spec b F (open_canonical_for_replacement c g)
    (fun o w2 => complete w2 ∧ match o with
       | Some wr => ∃ i n, wr = Writer i c n ∧ w_names w !! c = Some i ∧ stable (file_bytes w i)
       | None => ∀ i, w_names w !! c = Some i → marked (file_bytes w i)
       end)
    (after new w) w1.
Proof.
  intros Hg Hc. unfold open_canonical_for_replacement. rewrite Hg. cbn [negb].
  assert (∀ w2, quiet w1 w2 → after new w w2) as Hquiet.
  { intros w2 [fs ->]. apply staged_after. apply Hc. }
  destruct (w_names w !! c) as [i|] eqn:Hi.
  - destruct (Hold i eq_refl) as (n & layout & epoch & Hp & He).
    assert (w_names w1 !! c = Some i) as Hi1 by (by rewrite complete_name).
    assert (file_bytes w1 i = file_bytes w i) as Hb1 by (by apply complete_bytes).
    assert (plane n layout epoch (file_bytes w1 i)) as Hp1 by (by rewrite Hb1).
    assert (Z.to_nat (slot_count (header_snapshot (file_bytes w1 i))) = n ∧ layout_hash (header_snapshot (file_bytes w1 i)) = layout) as [Hn Hl].
    { destruct Hp1 as (_ & _ & _ & -> & Hl & _). by rewrite Nat2Z.id. }
    eapply (spec_bind _ _ _ _ (fun r w2 => match r with
      | Ok rd => rd = Reader i n ∧ quiet w1 w2
      | Err e => e ≠ Io NotFound ∧ quiet w1 w2 ∧ (F ∨ (budget w2 < b)%nat)
      | Panic => False
      end)).
    { eapply spec_mono; [apply spec_attempt_found; [by eapply spec_reader_open; [..|apply quiet_refl]|by eapply open_found]|intros ? ? H; exact H|exact Hquiet]. }
    intros [rd|e|] w2 H2; [|destruct e as [| |[]]|done]; cbv beta iota in *.
    2-6: destruct H2 as (H2 & H3 & H4).
    2,3,5,6: by apply spec_fail; [apply Hquiet|].
    2: done.
    destruct H2 as [-> Hq2]. cbn [sr_ino].
    eapply spec_bind; [eapply spec_mono; [apply spec_peek; exact Hq2|intros ? ? H; exact H|exact Hquiet]|].
    intros mem w3 [-> Hq3]. cbv zeta. destruct (generation_unstable _) eqn:Hu.
    { apply spec_ret. split; [by eapply complete_quiet|]. intros ? [= <-]. unfold marked. by rewrite <- Hb1. }
    rewrite Hn, Hl.
    eapply spec_bind; [eapply spec_mono; [eapply (spec_open_existing _ _ _ i n layout epoch w1); done|intros ? ? H; exact H|exact Hquiet]|].
    intros wr w4 [-> Hq4].
    eapply spec_bind; [eapply spec_mono; [eapply (spec_validate_path _ _ c i); done|intros ? ? H; exact H|exact Hquiet]|].
    intros [] w5 Hq5. apply spec_ret. split; [by eapply complete_quiet|].
    exists i, n. split_and!; [done|done|]. unfold stable. by rewrite <- Hb1.
  - assert (w_names w1 !! c = None) as Hi1 by (by rewrite complete_name).
    eapply (spec_bind _ _ _ _ (fun r w2 => quiet w1 w2 ∧ (r = Err (Io NotFound) ∨ r = Err (Io OtherIo) ∧ (budget w2 < b)%nat))).
    { intros Hb. apply wp_attempt. unfold reader_open. apply wp_bind, wp_sys_open.
      - intros fs Hfs. rewrite Hi1. split; [lia|]. split; [by exists fs|by left].
      - intros fs Hfs. split; [lia|]. split; [by exists fs|]. right. split; [done|lia].
      - intros fs. apply Hquiet. by exists fs. }
    intros r w2 [Hq [->|[-> Hb2]]]; cbv iota.
    + apply spec_ret. split; [by eapply complete_quiet|done].
    + apply spec_fail; [by apply Hquiet|by right].
Qed.

(** Marking and unmarking the old file. *)
Lemma after_marked w1 i g :
  after new w w1 → w_names w !! c = Some i → w_names w1 !! c = Some i →
  after new w (with_data (<[i := set_generation g (file_bytes w1 i)]> (w_data w1)) w1).
Proof.
  intros (([H1 H2] & H3 & H4) & Hn & Hq & Hd & Hs & Hc & Hr) Hi Hi1.
  assert (i < w_next w)%nat as Hlt by (destruct Hw as ([Hw1 _] & _); by apply (Hw1 c)).
  assert (∀ j, w_names w !! s = Some j ∨ (w_next w ≤ j)%nat → i ≠ j) as Hfresh.
  { intros j [Hj|Hj] <-; [|lia]. destruct Hw as (_ & Hl & _). by apply Hsc, (Hl _ _ i). }
  assert (set_generation g (file_bytes w1 i) = set_generation g (file_bytes w i)) as Hb.
  { destruct (Hold i Hi) as (n & l & e & Hp & _). pose proof (plane_long _ _ _ _ Hp) as Hlong.
    destruct (Hd i Hlt) as [->|[_ [g' ->]]]; [|done|].
    - intros Hns. by apply (Hfresh i); [left|].
    - unfold set_generation, store_le. apply store_store; rewrite !length_le_bytes; lia. }
  unfold after, files_ok, fs_ok, nolinks in *. split_and!; try done; cbn.
  - intros j l Hj. apply lookup_insert_Some in Hj as [[<- _]|[_ Hj]]; [lia|by eapply H2].
  - intros j. destruct (decide (i = j)) as [<-|Hne]; [rewrite file_bytes_insert; apply store_le_ok, H4|by rewrite file_bytes_insert_ne].
  - intros j Hj Hns. destruct (decide (i = j)) as [<-|Hne].
    + right. split; [done|]. exists g. by rewrite file_bytes_insert, Hb.
    + rewrite file_bytes_insert_ne by done. by apply Hd.
  - destruct Hc as [Hc|(j & Hj & Hf & Hnew)]; [by left|]. right. exists j. split_and!; [done|done|].
    by rewrite file_bytes_insert_ne by (by apply Hfresh).
  - intros j Hj. left. congruence.
Qed.

(** The staging file is complete and about to be renamed. *)
Definition about (w' : world) : Prop :=
  after new w w' ∧ w_names w' !! s = Some ino ∧ new (file_bytes w' ino) ∧
  w_names w' !! c = w_names w !! c ∧ ∀ i, w_names w !! c = Some i → ret (file_bytes w' i).
Definition installed (w' : world) : Prop := after new w w' ∧ w_names w' !! c = Some ino ∧ new (file_bytes w' ino).

Lemma complete_about w1 : complete w1 → (∀ i, w_names w !! c = Some i → ret (file_bytes w i)) → about w1.
Proof.
  intros Hc Hr. pose proof Hc as [[Hst Ho] Hn]. split_and!; [by apply staged_after|done|done|by apply complete_name|].
  intros i Hi. rewrite (complete_bytes w1 i); auto.
Qed.

Lemma renamed_installed w1 : about w1 → installed (with_names (<[c := ino]> (delete s (w_names w1))) w1).
Proof.
  intros ((([H1 H2] & H3 & H4) & Hn & Hq & Hd & Hs & Hc & _) & Ho & Hnew & _ & Hr).
  assert (∀ q i, q ≠ c → <[c:=ino]> (delete s (w_names w1)) !! q = Some i → w_names w1 !! q = Some i ∧ q ≠ s) as Hother.
  { intros q i Hqc. rewrite lookup_insert_ne by done. intros [Hqs ?]%lookup_delete_Some. by split. }
  unfold installed. cbn [w_names with_names]. rewrite lookup_insert_eq. split_and!; [|done|done].
  unfold after, files_ok, fs_ok, nolinks in *. split_and!; try done; cbn.
  - intros p i Hp. apply lookup_insert_Some in Hp as [[_ <-]|[_ Hp]]; [by apply (H1 s)|].
    apply lookup_delete_Some in Hp as [_ Hp]. by apply (H1 p).
  - intros p q i Hp Hq'. destruct (decide (p = c)) as [->|Hpc], (decide (q = c)) as [->|Hqc]; [done|..].
    + rewrite lookup_insert_eq in Hp. apply Hother in Hq' as [Hq' Hqs]; [|done]. simplify_eq. by apply (H3 q s) in Hq'.
    + rewrite lookup_insert_eq in Hq'. apply Hother in Hp as [Hp Hps]; [|done]. simplify_eq. by apply (H3 p s) in Hp.
    + apply Hother in Hp as [Hp _], Hq' as [Hq' _]; [|done..]. by apply (H3 p q i).
  - intros q Hqs Hqc. rewrite lookup_insert_ne, lookup_delete_ne by done. by apply Hq.
  - intros i Hi. rewrite lookup_insert_ne, lookup_delete_eq in Hi by done. done.
  - right. exists ino. rewrite lookup_insert_eq. split_and!; [done|by apply Hs|done].
  - intros i Hi. right. by apply Hr.
Qed.

Lemma spec_rename g w1 :
  guards g c = true → about w1 →
  spec b F (commit_generation_swap_locked s c g) (fun _ w2 => installed w2) about w1.
Proof.
  intros Hg Hc. unfold commit_generation_swap_locked. rewrite Hg. cbn [negb]. apply spec_call; [done| |intros ? fs; exact Hc].
  intros fs _. cbn. pose proof Hc as (_ & -> & _). split; [done|]. by apply (renamed_installed (with_faults fs w1)).
Qed.

Lemma marked_about w1 i g :
  complete w1 → w_names w !! c = Some i → ret (set_generation g (file_bytes w i)) →
  about (with_data (<[i := set_generation g (file_bytes w1 i)]> (w_data w1)) w1).
Proof.
  intros Hc Hi Hr. assert (w_names w1 !! c = Some i) as Hi1 by (by rewrite complete_name).
  split_and!; [apply after_marked; [by apply staged_after, Hc|done|done]|apply Hc| |exact (complete_name w1 Hc)|].
  - rewrite file_bytes_insert_ne; [apply Hc|]. intros ->.
    destruct Hc as [[((_ & Hl & _) & _ & Hq & _) Ho] _]. by apply Hsc, (Hl _ _ ino).
  - intros j Hj. assert (j = i) as -> by congruence. rewrite file_bytes_insert. by rewrite (complete_bytes w1 i).
Qed.

Lemma spec_publish_swap g previous w1 :
  guards g c = true → complete w1 →
  match previous with
  | Some wr => sw_path wr = c ∧ (w_names w !! c = Some (sw_ino wr) ∧ stable (file_bytes w (sw_ino wr)) ∨ F)
  | None => ∀ i, w_names w !! c = Some i → marked (file_bytes w i)
  end → (∀ mem, marked mem → ret mem) →
  spec b F (publish_swap s c g previous) (fun _ w2 => installed w2) (after new w) w1.
Proof.
  intros Hg Hc Hp Hret. assert (∀ w2, quiet w1 w2 → after new w w2) as Hquiet.
  { intros w2 [fs ->]. apply staged_after. apply Hc. }
  unfold publish_swap. destruct previous as [wr|].
  2: { eapply spec_mono; [apply spec_rename; [done|apply complete_about; [done|]; intros i Hi; by apply Hret, Hp]|done|by intros w2 [? _]]. }
  destruct Hp as [Hpath Hcur].
  eapply (spec_bind _ _ _ _ (fun inv w2 => w_names w !! c = Some (gi_ino inv) ∧
    ∃ w3 g', complete w3 ∧ ret (set_generation g' (file_bytes w (gi_ino inv))) ∧ quiet (with_data (<[gi_ino inv := set_generation g' (file_bytes w3 (gi_ino inv))]> (w_data w3)) w3) w2)).
  { unfold begin_generation_swap. rewrite Hpath, Hg. cbn [negb].
    eapply (spec_bind _ _ _ _ (fun _ w2 => quiet w1 w2 ∧ w_names w !! c = Some (sw_ino wr))).
    { destruct Hcur as [[Hcur _]|HF].
      - eapply spec_mono; [apply (spec_validate_path _ _ c (sw_ino wr) w1 ltac:(by rewrite complete_name)); [done|done|apply quiet_refl]|done|exact Hquiet].
      - eapply spec_mono; [apply (spec_validate_any _ _ _ w1); [done|apply quiet_refl]| |exact Hquiet].
        intros [] w2 [H1 H2]. rewrite Hpath, complete_name in H2 by done. done. }
    intros [] w2 [Hq2 Hi].
    eapply spec_bind; [eapply spec_mono; [apply spec_peek; exact Hq2|intros ? ? H; exact H|exact Hquiet]|].
    intros mem w3 [-> Hq3]. cbv zeta.
    eapply (spec_bind _ _ _ _ (fun _ w4 => quiet w1 w4 ∧ stable (file_bytes w1 (sw_ino wr)))).
    { apply spec_check; [by intros ?%negb_true_iff|]. intros Hu%negb_false_iff. split; [|by apply Hquiet].
      destruct Hcur as [[_ Hst]|HF]; [|done]. unfold stable in Hst. by rewrite (complete_bytes w1 (sw_ino wr)), Hst in Hu. }
    intros [] w4 [Hq4 Hst4]. intros Hb4. apply wp_bind. unfold wp, poke_map. split; [exact Hb4|]. split; [done|].
    eexists w4, _. split; [by eapply complete_quiet|]. split; [|apply quiet_refl].
    cbn [gi_ino]. rewrite (complete_bytes w1 (sw_ino wr)) by done. destruct (Hold _ Hi) as (n & l & e & Hpl & _).
    rewrite (complete_bytes w1 (sw_ino wr)) in Hst4 by done. by apply Hret, (set_generation_marked n l e). }
  intros inv w2 (Hi & w3 & g' & Hc3 & Hr3 & Hq). cbn [gi_ino] in *.
  assert (∀ w4, quiet (with_data (<[gi_ino inv := set_generation g' (file_bytes w3 (gi_ino inv))]> (w_data w3)) w3) w4 → about w4) as Habout.
  { intros w4 [fs ->]. by apply (marked_about w3 (gi_ino inv) g'). }
  eapply spec_bind; [eapply spec_mono; [apply spec_attempt, spec_rename; [done|by apply Habout]|intros ? ? H; exact H|by intros ? [? _]]|].
  intros [[]|e|] w5 H5; cbv beta iota in *; [by apply spec_ret| |done]. destruct H5 as [(H5 & _ & _ & Hn5 & _) Hb5].
  intros Hb. apply wp_bind. unfold drop_invalidation, wp, poke_map. cbv beta iota.
  split; [exact Hb|]. split; [apply after_marked; [done|done|by rewrite Hn5]|exact Hb5].
Qed.
End Swap.

(** Removing a staging file after a failure: the explanation of the failure stays. *)
Lemma spec_remove {E} b (of_io : io_kind → E) s (I : world → Prop) F w :
  (∀ w, I w → I (with_names (delete s (w_names w)) w)) → (∀ fs w, I w → I (with_faults fs w)) → I w → F ∨ (budget w < b)%nat →
  spec b F (attempt (sys_remove of_io s)) (fun _ w1 => I w1 ∧ (F ∨ (budget w1 < b)%nat)) I w.
Proof.
  intros Hd Hf HI HF Hb. apply wp_attempt, wp_sys_remove.
  - intros fs Hfs. destruct (w_names w !! s); (split; [cbn in *; lia|]); (split; [|destruct HF; [by left|right; cbn in *; lia]]).
    + apply (Hd (with_faults fs w)). by apply Hf.
    + by apply Hf.
  - intros fs Hfs. split; [lia|]. split; [by apply Hf|]. right. lia.
  - intros fs. by apply Hf.
Qed.

Lemma attempt_map_err {E E' A} (f : E → E') (m : io E A) w :
  attempt (map_err f m) w =
  match attempt m w with
  | (Some (Ok r), w') => (Some (Ok match r with Ok a => Ok a | Err e => Err (f e) | Panic => Panic end), w')
  | (Some (Err e), w') => (Some (Err (f e)), w')
  | (Some Panic, w') => (Some Panic, w')
  | (None, w') => (None, w')
  end.
Proof. unfold attempt, map_err. by destruct (m w) as [[[]|] w']. Qed.

Lemma spec_remove_mapped {E E'} b (of_io : io_kind → E) (f : E → E') s (I : world → Prop) F w :
  (∀ w, I w → I (with_names (delete s (w_names w)) w)) → (∀ fs w, I w → I (with_faults fs w)) → I w → F ∨ (budget w < b)%nat →
  spec b F (attempt (map_err f (sys_remove of_io s))) (fun _ w1 => I w1 ∧ (F ∨ (budget w1 < b)%nat)) I w.
Proof.
  intros Hd Hf HI HF Hb. pose proof (spec_remove b of_io s I F w Hd Hf HI HF Hb) as H.
  unfold wp in *. rewrite attempt_map_err. by destruct (attempt _ w) as [[[]|] w'].
Qed.

Lemma installed_quiet s c ret w ino new w1 w2 : quiet w1 w2 → installed s c ret w ino new w1 → installed s c ret w ino new w2.
Proof. by intros [fs ->]. Qed.

Section PublishPlane.
Context (b : nat) (F : Prop) (err : DataplaneError → Outbox.PortErrorKind) (c : string) (k : clock) (w : world).
Context (n : nat) (layout epoch : Z) (g : AuthorityWriteGuard) (previous : option SlotWriter).
Context (fill : SlotWriter → port_io unit) (K : list Z → Prop).
Let s := staging_path c k.
Definition new_plane (mem : list Z) : Prop := ready n layout epoch mem ∧ K mem.
Hypothesis Hsc : s ≠ c.
Hypothesis Hw : files_ok w.
Hypothesis Hold : ∀ i, w_names w !! c = Some i → ∃ n layout epoch, plane n layout epoch (file_bytes w i) ∧ epoch ≠ 0.
Hypothesis Hg : guards g c = true.
Hypothesis Hepoch : epoch ≠ 0 ∧ in_u 64 epoch.
Hypothesis Hn : Z.of_nat n ≤ u_max 32.
Hypothesis Hlayout : in_u 64 layout.
Hypothesis Hprevious : ∀ wr, previous = Some wr →
  sw_path wr = c ∧ (w_names w !! c = Some (sw_ino wr) ∧ stable (file_bytes w (sw_ino wr)) ∨ F).
Hypothesis Hfill : ∀ ino w1, own s ino w w1 → ready n layout epoch (file_bytes w1 ino) →
  (∀ i, (i < n)%nat → read_slot (file_bytes w1 ino) n i = Some Slot.slot_new) →
  spec b F (fill (Writer ino s n)) (fun _ w2 => own s ino w w2 ∧ ready n layout epoch (file_bytes w2 ino) ∧ K (file_bytes w2 ino)) (staged s w) w1.

Lemma spec_publish_plane :
  spec b F (publish_plane err c n layout epoch k fill g previous)
    (fun wr w' => ∃ ino, wr = Writer ino c n ∧ installed s c marked w ino new_plane w') (after s c marked new_plane w) w.
Proof.
  unfold publish_plane. fold s. cbv zeta.
  eapply (spec_bind _ _ _ _ (fun r w1 => match r with
    | Ok _ => ∃ ino, installed s c marked w ino new_plane w1
    | Err _ => after s c marked new_plane w w1 ∧ (F ∨ (budget w1 < b)%nat)
    | Panic => False
    end)).
  - apply spec_attempt. eapply spec_bind; [apply spec_map_err; eapply spec_mono|].
    { apply (spec_create s b F n layout epoch _ _ w w); [by apply staged_refl|apply Hepoch|done]. }
    { intros ? ? H; exact H. } { intros w1 H1. by apply staged_after. }
    intros wr w1 (ino & -> & Ho & Hb).
    destruct (new_segment_ready n layout epoch (wall_nanos k) (generation_sequence k) Hn Hlayout (proj2 Hepoch)) as [Hr Hu].
    rewrite <- Hb in Hr, Hu.
    eapply (spec_bind _ _ _ _ (fun _ w2 => complete s w ino new_plane w2)).
    { eapply spec_mono; [by apply Hfill| |intros w2; apply staged_after, Hsc]. intros [] w2 (H1 & H2 & H3). by split. }
    intros [] w2 Hc2.
    eapply spec_bind; [apply spec_map_err, (spec_nop b F Io (fun _ w3 => complete s w ino new_plane w3)); [done|]|].
    { intros fs. apply (staged_after s c marked Hsc). apply Hc2. }
    intros [] w3 Hc3.
    eapply (spec_bind _ _ _ _ (fun o w4 => complete s w ino new_plane w4 ∧
      match (match previous with Some p => Some p | None => o end) with
      | Some wr => sw_path wr = c ∧ (w_names w !! c = Some (sw_ino wr) ∧ stable (file_bytes w (sw_ino wr)) ∨ F)
      | None => ∀ i, w_names w !! c = Some i → marked (file_bytes w i)
      end)).
    { destruct previous as [p|]; [apply spec_ret; split; [done|by apply Hprevious]|]. apply spec_map_err.
      eapply spec_mono; [by apply spec_discover| |done]. intros [wr|] w4 [H4 H5]; (split; [done|]); [|done].
      destruct H5 as (i & m & -> & Hi & Hst). split; [done|by left]. }
    intros o w4 [Hc4 Hp4]. apply spec_map_err. eapply spec_mono; [by apply (spec_publish_swap s c marked Hsc b F w ino new_plane)| |done].
    intros [] w5 H5. by exists ino.
  - intros [[]|e|] w1 H1; cbv iota; [| |done].
    + destruct H1 as [ino H1]. pose proof H1 as (_ & Hname & Hr & _).
      apply spec_map_err. eapply spec_mono; [apply (spec_open_existing b F c ino n layout epoch w1); [done|apply Hr|apply Hepoch|apply Hr|apply quiet_refl]| |].
      * intros wr w2 [-> Hq]. exists ino. split; [done|]. by eapply installed_quiet.
      * intros w2 Hq. by eapply installed_quiet.
    + destruct H1 as [H1 Hb1].
      eapply (spec_bind _ _ _ _ (fun _ w2 => after s c marked new_plane w w2 ∧ (F ∨ (budget w2 < b)%nat))).
      * apply spec_remove_mapped; [intros; by apply after_removed|done|done|done].
      * intros r w2 [H2 Hb2]. by apply spec_fail.
Qed.
End PublishPlane.

(** ** What the planes show *)

Definition epoch_ok (e : Z) : Prop := e ≠ 0 ∧ e ≠ u_max 64 ∧ in_u 64 e.

(** The header behind a name. *)
Definition header_at (c : string) (w : world) : option HeaderSnapshot :=
  i ← w_names w !! c; Some (header_snapshot (file_bytes w i)).

Lemma header_at_bytes c w : header_at c w = header_snapshot <$> path_bytes w c.
Proof. unfold header_at, path_bytes. by destruct (w_names w !! c). Qed.

(** The identity of a plane: its layout and its epoch. *)
Definition identity (h : HeaderSnapshot) : Z * Z * Z := (slot_count h, layout_hash h, publication_epoch h).
Definition identity_at (c : string) (w : world) : option (Z * Z * Z) := identity <$> header_at c w.

(** A visible plane is a segment with a usable epoch. *)
Definition good (c : string) (w : world) : Prop :=
  ∀ i, w_names w !! c = Some i → ∃ n layout epoch, plane n layout epoch (file_bytes w i) ∧ epoch_ok epoch.

(** A mapping a process holds for the plane [c]: its file has no other name. *)
Definition handle_ok (c : string) (wr : SlotWriter) (w : world) : Prop :=
  sw_path wr = c ∧ (sw_ino wr < w_next w)%nat ∧ (∀ q, w_names w !! q = Some (sw_ino wr) → q = c) ∧
  ∃ layout epoch, plane (sw_slot_count wr) layout epoch (file_bytes w (sw_ino wr)).

(** A file some process has mapped from the name [x_path] and reads: its identity does
    not change, and once it lost the name it is marked and never gets it back. *)
Record watched := Watched { x_path : string; x_ino : nat; x_slots : nat; x_layout : Z; x_epoch : Z; x_retired : bool }.
Definition watched_ok (x : watched) (w : world) : Prop :=
  (x_ino x < w_next w)%nat ∧ (∀ q, w_names w !! q = Some (x_ino x) → q = x_path x) ∧
  plane (x_slots x) (x_layout x) (x_epoch x) (file_bytes w (x_ino x)) ∧
  (if x_retired x then w_names w !! x_path x ≠ Some (x_ino x) ∧ marked (file_bytes w (x_ino x))
   else w_names w !! x_path x = Some (x_ino x) ∨ marked (file_bytes w (x_ino x))).

Lemma handle_mapped s c wr w : s ≠ c → handle_ok c wr w → mapped s wr w.
Proof.
  intros Hsc (_ & H1 & H2 & l & e & H3 & _). split_and!; [done| |apply H3..]. intros Hs. by apply Hsc, H2.
Qed.

Lemma good_old c w : good c w → ∀ i, w_names w !! c = Some i → ∃ n layout epoch, plane n layout epoch (file_bytes w i) ∧ epoch ≠ 0.
Proof. intros H i Hi. destruct (H i Hi) as (n & l & e & Hp & He & _). eauto. Qed.

Section AfterAny.
Context (s c : string) (ret : list Z → Prop) (new : list Z → Prop) (w w' : world).
Hypothesis Hw : files_ok w.
Hypothesis Hafter : after s c ret new w w'.

(** An old file keeps its bytes, except for the mark on the plane. *)
Lemma after_bytes q i :
  q ≠ s → q ≠ c → w_names w !! q = Some i → file_bytes w' i = file_bytes w i.
Proof.
  intros Hs Hc Hi. destruct Hw as ([H1 _] & Hl & _). destruct Hafter as (_ & _ & _ & Hd & _).
  destruct (Hd i) as [H|[Hci _]]; [by eapply H1| |done|].
  - intros Hsi. by apply Hs, (Hl _ _ i).
  - by destruct Hc; apply (Hl _ _ i).
Qed.

Lemma after_header q : q ≠ s → q ≠ c → header_at q w' = header_at q w.
Proof.
  intros Hs Hc. unfold header_at. destruct Hafter as (_ & _ & Hq & _). rewrite Hq by done.
  destruct (w_names w !! q) as [i|] eqn:Hi; [|done]. cbn. by rewrite (after_bytes q).
Qed.

Lemma after_path_bytes q : q ≠ s → q ≠ c → path_bytes w' q = path_bytes w q.
Proof.
  intros Hs Hc. unfold path_bytes. destruct Hafter as (_ & _ & Hq & _). rewrite Hq by done.
  destruct (w_names w !! q) as [i|] eqn:Hi; [|done]. cbn. by rewrite (after_bytes q).
Qed.

Lemma after_good_other q : q ≠ s → q ≠ c → good q w → good q w'.
Proof.
  intros Hs Hc Hg i Hi. destruct Hafter as (_ & _ & Hq & _). rewrite Hq in Hi by done.
  rewrite (after_bytes q) by done. by apply Hg.
Qed.

Lemma after_handle c' wr : s ≠ c' → handle_ok c' wr w → handle_ok c' wr w'.
Proof.
  intros Hsc' (H1 & H2 & H3 & l & e & Hp). destruct Hafter as (_ & Hn & Hq & Hd & Hs & Hc & _).
  assert (w_names w !! s ≠ Some (sw_ino wr)) as Hns by (intros H; by apply Hsc', H3).
  split_and!; [done|lia| |].
  - intros q Hi. destruct (decide (q = s)) as [->|Hqs]; [destruct (Hs _ Hi); [done|lia]|].
    destruct (decide (q = c)) as [->|Hqc]; [|rewrite Hq in Hi by done; by apply H3].
    destruct Hc as [Hc|(j & Hj & Hf & _)]; [rewrite Hc in Hi; by apply H3|]. rewrite Hj in Hi. injection Hi as ->.
    destruct Hf; [done|lia].
  - exists l, e. destruct (Hd _ H2 Hns) as [->|[_ [g ->]]]; [done|by apply set_generation_plane].
Qed.

Lemma after_watched x :
  s ≠ x_path x → (x_path x = c → ∀ mem, ret mem → marked mem) → watched_ok x w → watched_ok x w'.
Proof.
  intros Hsx Hret (H1 & H2 & H3 & H4). destruct Hafter as (_ & Hn & Hq & Hd & Hs & Hc & Hr).
  assert (w_names w !! s ≠ Some (x_ino x)) as Hns by (intros H; by apply Hsx, H2).
  assert (∀ q, w_names w' !! q = Some (x_ino x) → w_names w !! q = Some (x_ino x)) as Hback.
  { intros q Hi. destruct (decide (q = s)) as [->|Hqs]; [destruct (Hs _ Hi); [done|lia]|].
    destruct (decide (q = c)) as [->|Hqc]; [|by rewrite Hq in Hi].
    destruct Hc as [Hc|(j & Hj & Hf & _)]; [by rewrite Hc in Hi|]. rewrite Hj in Hi. injection Hi as ->. destruct Hf; [done|lia]. }
  destruct (Hd _ H1 Hns) as [Hb|[Hi [g Hb]]].
  - split_and!; [lia|auto|by rewrite Hb|]. rewrite Hb. destruct (x_retired x); [naive_solver|].
    destruct H4 as [H4|H4]; [|by right]. destruct (decide (x_path x = c)) as [Hxc|Hxc]; [|left; by rewrite Hq].
    rewrite Hxc in *. destruct (Hr _ H4) as [?|Hm]; [by left|right]. rewrite Hb in Hm. by apply Hret.
  - assert (x_path x = c) as Hxc by (symmetry; auto). unfold watched_ok. rewrite Hxc in *.
    split_and!; [lia|intros q Hqi; by apply H2, Hback|rewrite Hb; by apply set_generation_plane|].
    destruct (x_retired x); [naive_solver|]. destruct (Hr _ Hi) as [?|Hm]; [by left|right; by apply Hret].
Qed.
End AfterAny.

Section After.
Context (s c : string) (n : nat) (layout epoch : Z) (K : list Z → Prop) (w w' : world).
Hypothesis Hsc : s ≠ c.
Hypothesis Hw : files_ok w.
Hypothesis Hafter : after s c marked (new_plane n layout epoch K) w w'.
Hypothesis Hepoch : epoch_ok epoch.

Lemma plane_identity m l e mem : plane m l e mem → identity (header_snapshot mem) = (Z.of_nat m, l, e).
Proof. intros (_ & _ & _ & H1 & H2 & H3). unfold identity. by rewrite H1, H2, H3. Qed.

Lemma after_good : good c w → good c w'.
Proof.
  intros Hg i Hi. destruct Hafter as (_ & _ & _ & Hd & _ & Hc & _).
  destruct Hc as [Hc|(j & Hj & _ & [Hr _] & _)]; [|rewrite Hj in Hi; injection Hi as <-; eauto].
  rewrite Hc in Hi. destruct (Hg i Hi) as (m & l & e & Hp & He). destruct Hw as ([H1 _] & Hl & _).
  destruct (Hd i) as [->|[_ [g ->]]]; [by eapply H1| |eauto|].
  - intros Hsi. by apply Hsc, (Hl _ _ i).
  - exists m, l, e. split; [by apply set_generation_plane|done].
Qed.

Lemma after_identity :
  good c w → identity_at c w' = identity_at c w ∨ identity_at c w' = Some (Z.of_nat n, layout, epoch).
Proof.
  intros Hg. destruct Hafter as (_ & _ & _ & Hd & _ & Hc & _). unfold identity_at, header_at.
  destruct Hc as [Hc|(j & Hj & _ & [Hr _] & _)]; [left|right].
  - rewrite Hc. destruct (w_names w !! c) as [i|] eqn:Hi; [|done]. cbn. f_equal.
    destruct (Hg i Hi) as (m & l & e & Hp & He). destruct Hw as ([H1 _] & Hl & _).
    destruct (Hd i) as [->|[_ [g ->]]]; [by eapply H1| |done|].
    + intros Hsi. by apply Hsc, (Hl _ _ i).
    + rewrite (plane_identity _ _ _ _ Hp). by apply plane_identity, set_generation_plane.
  - rewrite Hj. cbn. f_equal. by apply plane_identity.
Qed.

End After.

(** A new plane and the mapping its publisher keeps. *)
Lemma installed_handle s c ino n layout epoch K w w' :
  installed s c marked w ino (new_plane n layout epoch K) w' →
  handle_ok c (Writer ino c n) w' ∧ ready n layout epoch (file_bytes w' ino) ∧
  header_at c w' = Some (header_snapshot (file_bytes w' ino)).
Proof.
  intros ((([H1 _] & Hl & _) & _) & Hc & [Hr _]). split_and!; [|done|unfold header_at; by rewrite Hc].
  split_and!; [done|by eapply H1| |exists layout, epoch; apply Hr]. intros q Hq. by apply (Hl _ _ ino).
Qed.

(** ** The witness file *)

Definition commit_ok (c : TopologyPublicationCommit) : Prop :=
  epoch_ok (tc_epoch c) ∧ in_u 64 (point_layout_hash c) ∧ in_u 64 (point_slot_count c) ∧ in_u 64 (point_writer_generation c) ∧
  in_u 64 (health_hash c) ∧ in_u 64 (health_slots c) ∧ in_u 64 (health_writer_generation c).

Lemma commit_fields_ok c : length (commit_fields c) = CHECKSUM_OFFSET ∧ bytes_ok (commit_fields c).
Proof.
  split; [done|]. unfold commit_fields. repeat (apply bytes_ok_app; split; [first [apply le_bytes_ok|by repeat constructor]|]).
  apply le_bytes_ok.
Qed.

Lemma encode_bytes c : bytes_ok (encode c).
Proof.
  unfold encode. cbv zeta. apply bytes_ok_app. split; [apply commit_fields_ok|]. apply bytes_ok_app. split; [apply le_bytes_ok|by apply Forall_replicate].
Qed.

(** The witness that is written is read back. *)
Lemma decode_witness c : commit_ok c → decode (encode c) = Ok c.
Proof.
  intros (He & H1 & H2 & H3 & H4 & H5 & H6). destruct (commit_fields_ok c) as [Hl Hok].
  unfold decode, encode. cbv zeta.
  assert (take CHECKSUM_OFFSET (commit_fields c ++ le_bytes 4 (Outbox.checksum (commit_fields c)) ++ replicate 4 0) = commit_fields c) as ->
    by (rewrite <- Hl; apply take_app_length).
  assert (load_le CHECKSUM_OFFSET 4 (commit_fields c ++ le_bytes 4 (Outbox.checksum (commit_fields c)) ++ replicate 4 0)
          = Outbox.checksum (commit_fields c)) as ->.
  { unfold load_le. change (slice CHECKSUM_OFFSET 4 _) with (le_bytes 4 (Outbox.checksum (commit_fields c))).
    apply (le_val_le_bytes_small 4), Outbox.checksum_in_u, Hok. }
  change (length (commit_fields c ++ _ ++ _) =? COMMIT_BYTES)%nat with true. cbn [negb].
  rewrite bool_decide_eq_true_2 by done. cbn [negb].
  change (load_le 8 4 (commit_fields c ++ _ ++ _)) with (le_val (le_bytes 4 COMMIT_VERSION)).
  change (le_val (le_bytes 4 COMMIT_VERSION) =? COMMIT_VERSION) with true. cbn [negb].
  assert (Commit (load_le 16 8 (commit_fields c ++ le_bytes 4 (Outbox.checksum (commit_fields c)) ++ replicate 4 0))
    (load_le 24 8 (commit_fields c ++ le_bytes 4 (Outbox.checksum (commit_fields c)) ++ replicate 4 0))
    (load_le 32 8 (commit_fields c ++ le_bytes 4 (Outbox.checksum (commit_fields c)) ++ replicate 4 0))
    (load_le 40 8 (commit_fields c ++ le_bytes 4 (Outbox.checksum (commit_fields c)) ++ replicate 4 0))
    (load_le 48 8 (commit_fields c ++ le_bytes 4 (Outbox.checksum (commit_fields c)) ++ replicate 4 0))
    (load_le 56 8 (commit_fields c ++ le_bytes 4 (Outbox.checksum (commit_fields c)) ++ replicate 4 0))
    (load_le 64 8 (commit_fields c ++ le_bytes 4 (Outbox.checksum (commit_fields c)) ++ replicate 4 0)) = c) as ->.
  { destruct c as [e a1 a2 a3 a4 a5 a6]. cbn [tc_epoch point_layout_hash point_slot_count point_writer_generation health_hash health_slots health_writer_generation] in *.
    f_equal; apply (le_val_le_bytes_small 8); [apply He|done..]. }
  destruct He as (He1 & He2 & _). rewrite Z.eqb_refl, (proj2 (Z.eqb_neq _ _) He1), (proj2 (Z.eqb_neq _ _) He2). done.
Qed.

(** ** The two planes *)

Section Transaction.
Context (config : ShmRuntimeConfig) (health_path : string) (X : list watched).
Let point_path := config_path config.
Let commit_path := topology_commit_path_from_shm point_path.

(** The names are distinct, and no staging name is one of them. *)
Definition paths_ok : Prop :=
  point_path ≠ health_path ∧ commit_path ≠ point_path ∧ commit_path ≠ health_path ∧
  ∀ x, x ∈ [point_path; health_path; commit_path] →
    commit_staging_path point_path ≠ x ∧ ∀ g, generation_file_path point_path g ≠ x ∧ generation_file_path health_path g ≠ x.

Context (Hpaths : paths_ok) (Hmax : Z.of_nat (max_slots config) ≤ u_max 32).

Definition points_held (g : option ShmWriterGeneration) : list (string * SlotWriter) :=
  match g with Some g => [(point_path, g_writer g)] | None => [] end.
Definition health_held (h : option ShmChannelHealthWriter) : list (string * SlotWriter) :=
  match h with Some h => [(health_path, hw_writer h)] | None => [] end.
Definition held (p : process) : list (string * SlotWriter) := points_held (current_points p) ++ health_held (current_health p).

(** The files, the mappings [l] that processes hold, and the files [X] that are read. *)
Definition base (l : list (string * SlotWriter)) (w : world) : Prop :=
  files_ok w ∧ good point_path w ∧ good health_path w ∧
  (∀ c wr, (c, wr) ∈ l → (c = point_path ∨ c = health_path) ∧ handle_ok c wr w) ∧
  ∀ x, x ∈ X → (x_path x = point_path ∨ x_path x = health_path) ∧ watched_ok x w.

Definition request_ok (q : request) : Prop :=
  Manifest.manifest_ok (points q) ∧ health_ok (channels q) ∧ in_u 64 (Manifest.layout_hash (points q)) ∧
  in_u 64 (health_layout_hash (channels q)) ∧ Z.of_nat (health_slot_count (channels q)) ≤ u_max 32.

Lemma staging_points k : ∀ x, x ∈ [point_path; health_path; commit_path] → staging_path point_path k ≠ x.
Proof. intros x Hx. by apply Hpaths. Qed.
Lemma staging_health k : ∀ x, x ∈ [point_path; health_path; commit_path] → staging_path health_path k ≠ x.
Proof. intros x Hx. by apply Hpaths. Qed.

Definition is_plane (c : string) : Prop := c = point_path ∨ c = health_path.
Lemma is_plane_elem c : is_plane c → c ∈ [point_path; health_path; commit_path].
Proof. intros [->| ->]; set_solver. Qed.

(** What publishing the plane [c] does to everything that is looked at. *)
Lemma base_after l s c n layout epoch K w w' :
  is_plane c → (∀ x, x ∈ [point_path; health_path; commit_path] → s ≠ x) → epoch_ok epoch →
  base l w → after s c marked (new_plane n layout epoch K) w w' →
  base l w' ∧ (identity_at c w' = identity_at c w ∨ identity_at c w' = Some (Z.of_nat n, layout, epoch)) ∧
  path_bytes w' commit_path = path_bytes w commit_path ∧ ∀ c', is_plane c' → c' ≠ c → path_bytes w' c' = path_bytes w c'.
Proof.
  intros Hc Hs He (Hw & Hp & Hh & Hl & HX) Ha. pose proof (Hs c (is_plane_elem c Hc)) as Hsc.
  assert (∀ c', is_plane c' → good c' w → good c' w') as Hgood.
  { intros c' Hc' Hg. destruct (decide (c' = c)) as [->|Hne]; [by eapply after_good|].
    eapply (after_good_other s c); [done..| |done|done]. apply not_eq_sym, Hs, is_plane_elem, Hc'. }
  split_and!.
  - split_and!; [apply Ha..|apply Hgood; [by left|done]|apply Hgood; [by right|done]| |].
    + intros c' wr Hin. destruct (Hl c' wr Hin) as [Hc' Hok]. split; [done|].
      eapply after_handle; [done| |done]. apply Hs, is_plane_elem, Hc'.
    + intros x Hx. destruct (HX x Hx) as [Hc' Hok]. split; [done|].
      eapply after_watched; [done| |done|done]. apply Hs, is_plane_elem, Hc'.
  - eapply after_identity; [done..|]. destruct Hc as [->| ->]; done.
  - destruct Hpaths as (_ & H1 & H2 & _). eapply after_path_bytes; [done|done|apply not_eq_sym, Hs; set_solver|].
    destruct Hc as [->| ->]; done.
  - intros c' Hc' Hne. eapply after_path_bytes; [done|done|apply not_eq_sym, Hs, is_plane_elem, Hc'|done].
Qed.

Context (b : nat) (F : Prop).

Definition point_plane (q : Manifest.ChannelPointManifest) (snapshot : option string) (previous : option ShmWriterGeneration)
    (epoch : Z) (w : world) : list Z → Prop :=
  new_plane (Manifest.slot_count q) (Manifest.layout_hash q) epoch
    (fun mem => snapshot = None → holds (Manifest.slot_count q) (Manifest.slot_for q) (point_sample previous w) mem).
Definition health_plane (q : ChannelHealthManifest) (previous : option ShmChannelHealthWriter) (epoch : Z) (w : world) : list Z → Prop :=
  new_plane (health_slot_count q) (health_layout_hash q) epoch
    (holds (health_slot_count q) (health_slot_for q) (channel_sample previous w)).

Lemma spec_compose s new ino manifest w w' :
  (∀ mem, new mem → ∃ epoch, ready (Manifest.slot_count manifest) (Manifest.layout_hash manifest) epoch mem) →
  installed s point_path marked w ino new w' →
  spec b F (compose (Writer ino point_path (Manifest.slot_count manifest)) manifest)
    (fun g w1 => g_writer g = Writer ino point_path (Manifest.slot_count manifest) ∧ g_manifest g = manifest ∧
       installed s point_path marked w ino new w1)
    (after s point_path marked new w) w'.
Proof.
  intros Hnew Hi. pose proof Hi as (_ & Hname & Hm). destruct (Hnew _ Hm) as (epoch & Hp & Hst & _).
  assert (∀ w1, quiet w' w1 → after s point_path marked new w w1) as Hq. { intros w1 [fs ->]. apply Hi. }
  unfold compose, writer_header.
  eapply (spec_bind _ _ _ _ (fun h w1 => h = header_snapshot (file_bytes w' ino) ∧ w1 = w')).
  { eapply spec_bind; [apply (spec_mapping _ _ _ (fun mem w1 => mem = file_bytes w' ino ∧ w1 = w')); done|].
    intros mem w1 [-> ->]. by apply spec_ret. }
  intros h w1 [-> ->]. cbv zeta.
  eapply (spec_bind _ _ _ _ (fun _ w2 => quiet w' w2)).
  { unfold validate_generation, writer_header. cbn [g_writer g_manifest g_expected].
    eapply spec_bind; [apply spec_map_err; eapply spec_mono; [apply (spec_validate_path b F point_path ino w' Hname); [done|done|apply quiet_refl]|intros ? ? H; exact H|exact Hq]|].
    { intros [] w2 [fs ->].
      eapply (spec_bind _ _ _ _ (fun h w1 => h = header_snapshot (file_bytes w' ino) ∧ quiet w' w1)).
      { eapply spec_bind; [apply (spec_mapping _ _ _ (fun mem w1 => mem = file_bytes w' ino ∧ quiet w' w1)); split; [done|by exists fs]|].
        intros mem w3 [-> H3]. by apply spec_ret. }
      intros h w3 [-> H3]. apply spec_require; [done|]. intros Hx. exfalso. revert Hx. unfold stable in Hst. rewrite Hst.
      destruct Hp as (_ & _ & _ & Hc & Hl & _). rewrite Hc, Hl, !Z.eqb_refl, Nat2Z.id, Nat.eqb_refl. done. } }
  intros [] w2 [fs ->]. by apply spec_ret.
Qed.

Lemma spec_publish_generation l manifest snapshot previous epoch k w :
  base l w → Manifest.manifest_ok manifest → in_u 64 (Manifest.layout_hash manifest) →
  Z.of_nat (Manifest.slot_count manifest) ≤ u_max 32 → epoch_ok epoch →
  (∀ p, previous = Some p → (point_path, g_writer p) ∈ l) → (is_Some snapshot ∨ is_Some previous → F) →
  spec b F (publish_generation config manifest snapshot previous epoch k)
    (fun g w' => ∃ ino, g_writer g = Writer ino point_path (Manifest.slot_count manifest) ∧ g_manifest g = manifest ∧
       installed (staging_path point_path k) point_path marked w ino (point_plane manifest snapshot previous epoch w) w')
    (after (staging_path point_path k) point_path marked (point_plane manifest snapshot previous epoch w) w) w.
Proof.
  intros (Hw & Hp & Hh & Hl & HX) Hm Hlay Hn He Hprev HF. pose proof (staging_points k point_path ltac:(set_solver)) as Hsc.
  unfold publish_generation, acquire_write. fold point_path.
  eapply (spec_bind _ _ _ _ (fun g w1 => g = Guard point_path ∧ quiet w w1)).
  { apply spec_map_err. eapply spec_bind; [apply (spec_nop b F Io (fun _ w1 => quiet w w1))|].
    - intros fs. by exists fs.
    - intros fs. by apply (staged_after _ _ _ Hsc), staged_faults, staged_refl.
    - intros [] w1 H1. by apply spec_ret. }
  intros g w1 [-> [fs ->]].
  eapply (spec_bind _ _ _ _ (fun wr w2 => ∃ ino, wr = Writer ino point_path (Manifest.slot_count manifest) ∧
    installed (staging_path point_path k) point_path marked w ino (point_plane manifest snapshot previous epoch w) w2)).
  { apply (spec_publish_plane b F runtime_error point_path k (with_faults fs w)); try done.
    - by apply good_old.
    - apply bool_decide_eq_true. done.
    - split; apply He.
    - intros wr Hwr. destruct previous as [p|]; [|done]. injection Hwr as <-. destruct (Hl _ _ (Hprev p eq_refl)) as [_ H].
      split; [exact (proj1 H)|]. right. apply HF. eauto.
    - intros ino w1 Ho Hr Hnew. apply (spec_fill_points _ b F (with_faults fs w)); try done.
      intros p ->. destruct (Hl _ _ (Hprev p eq_refl)) as [_ H]. by eapply handle_mapped in H. }
  intros wr w2 (ino & -> & H2). eapply spec_mono; [eapply spec_compose; [|exact H2]| |done].
  - intros mem [Hr _]. eauto.
  - intros g w3 (H3 & H4 & H5). eauto.
Qed.

Lemma spec_rebuild_health l current manifest epoch k w :
  base l w → health_ok manifest → in_u 64 (health_layout_hash manifest) → Z.of_nat (health_slot_count manifest) ≤ u_max 32 → epoch_ok epoch →
  (∀ p, current = Some p → (health_path, hw_writer p) ∈ l) → (is_Some current → F) →
  spec b F (rebuild_health health_path current manifest epoch k)
    (fun h w' => ∃ ino, h = HealthWriter (Writer ino health_path (health_slot_count manifest)) manifest ∧
       installed (staging_path health_path k) health_path marked w ino (health_plane manifest current epoch w) w')
    (after (staging_path health_path k) health_path marked (health_plane manifest current epoch w) w) w.
Proof.
  intros (Hw & Hp & Hh & Hl & HX) Hm Hlay Hn He Hprev HF. pose proof (staging_health k health_path ltac:(set_solver)) as Hsc.
  set (I := after _ _ _ _ w).
  assert (∀ w1, quiet w w1 → I w1) as Hq. { intros w1 [fs ->]. by apply (staged_after _ _ _ Hsc), staged_faults, staged_refl. }
  unfold rebuild_health, acquire_write.
  eapply (spec_bind _ _ _ _ (fun _ w1 => w1 = w)).
  { apply spec_lift; [unfold validate_topology_publication_epoch; by case_match|done|].
    unfold validate_topology_publication_epoch. destruct He as (H1 & H2 & _).
    destruct (Z.eqb_spec epoch 0), (Z.eqb_spec epoch (u_max 64)); done. }
  intros [] w1 ->.
  eapply (spec_bind _ _ _ _ (fun _ w1 => w1 = w)).
  { destruct current as [h|]; [|by apply spec_ret]. unfold writer_header.
    eapply (spec_bind _ _ _ _ (fun _ w1 => w1 = w)).
    - eapply spec_bind; [apply (spec_mapping _ _ _ (fun _ w1 => w1 = w)); done|]. intros mem w1 ->. by apply spec_ret.
    - intros hd w1 ->. apply spec_require; [done|]. intros _. split; [apply HF; eauto|]. apply Hq, quiet_refl. }
  intros [] w1 ->.
  eapply (spec_bind _ _ _ _ (fun g w1 => g = Guard health_path ∧ quiet w w1)).
  { apply spec_map_err. eapply spec_bind; [apply (spec_nop b F Io (fun _ w1 => quiet w w1))|].
    - intros fs. by exists fs.
    - intros fs. apply Hq. by exists fs.
    - intros [] w1 H1. by apply spec_ret. }
  intros g w1 [-> Hq1].
  eapply (spec_bind _ _ _ _ (fun _ w1 => quiet w w1)).
  { destruct current as [h|]; [|by apply spec_ret]. apply spec_map_err.
    eapply spec_mono; [apply (spec_validate_any b F _ w); [apply HF; eauto|done]|by intros [] ? [? _]|done]. }
  intros [] w2 [fs ->]. unfold publish_health_writer.
  eapply (spec_bind _ _ _ _ (fun wr w2 => ∃ ino, wr = Writer ino health_path (health_slot_count manifest) ∧
    installed (staging_path health_path k) health_path marked w ino (health_plane manifest current epoch w) w2)).
  { apply (spec_publish_plane b F managed_error health_path k (with_faults fs w)); try done.
    - by apply good_old.
    - apply bool_decide_eq_true. done.
    - split; apply He.
    - intros wr Hwr. destruct current as [p|]; [|done]. injection Hwr as <-. destruct (Hl _ _ (Hprev p eq_refl)) as [_ H].
      split; [exact (proj1 H)|]. right. apply HF. eauto.
    - intros ino w3 Ho Hr Hnew. apply (spec_fill_health _ b F (with_faults fs w)); try done.
      intros p ->. destruct (Hl _ _ (Hprev p eq_refl)) as [_ H]. by eapply handle_mapped in H. }
  intros wr w2 (ino & -> & H2). apply spec_ret. eauto.
Qed.

(** ** One transaction

    [e] is the epoch allocated to the request [q], and [w] the world it began in. *)

Definition point_identity (q : request) (e : Z) : Z * Z * Z :=
  (Z.of_nat (Manifest.slot_count (points q)), Manifest.layout_hash (points q), e).
Definition health_identity (q : request) (e : Z) : Z * Z * Z :=
  (Z.of_nat (health_slot_count (channels q)), health_layout_hash (channels q), e).

(** Nothing but the point plane may have been replaced. *)
Definition begun (l : list (string * SlotWriter)) (q : request) (e : Z) (w w' : world) : Prop :=
  base l w' ∧ (identity_at point_path w' = identity_at point_path w ∨ identity_at point_path w' = Some (point_identity q e)) ∧
  identity_at health_path w' = identity_at health_path w ∧ path_bytes w' commit_path = path_bytes w commit_path.

(** The new plane of [c] is in place and stable. *)
Definition placed (c : string) (i : Z * Z * Z) (h : HeaderSnapshot) (w : world) : Prop :=
  header_at c w = Some h ∧ identity h = i ∧ generation_unstable (writer_generation h) = false ∧
  in_u 64 (layout_hash h) ∧ in_u 32 (slot_count h) ∧ in_u 64 (writer_generation h).

(** The witness names both planes of the request. *)
Definition witnessed (q : request) (e : Z) (c : TopologyPublicationCommit) (w : world) : Prop :=
  path_bytes w commit_path = Some (encode c) ∧ commit_ok c ∧ tc_epoch c = e ∧
  identity_at point_path w = Some (point_identity q e) ∧ identity_at health_path w = Some (health_identity q e).

(** What a transaction may leave behind, wherever it stops. *)
Definition outcome (l : list (string * SlotWriter)) (q : request) (e : Z) (w w' : world) : Prop :=
  base l w' ∧ (identity_at point_path w' = identity_at point_path w ∨ identity_at point_path w' = Some (point_identity q e)) ∧
  (identity_at health_path w' = identity_at health_path w ∨ identity_at health_path w' = Some (health_identity q e)) ∧
  (path_bytes w' commit_path = path_bytes w commit_path ∨ ∃ c, witnessed q e c w').

Lemma begun_outcome l q e w w' : begun l q e w w' → outcome l q e w w'.
Proof. intros (H1 & H2 & H3 & H4). split_and!; [apply H1..|done|by left|by left]. Qed.

Lemma begun_quiet l q e w w1 w2 : quiet w1 w2 → begun l q e w w1 → begun l q e w w2.
Proof. by intros [fs ->]. Qed.

Lemma base_weaken l l' w : (∀ x, x ∈ l' → x ∈ l) → base l w → base l' w.
Proof. intros Hl (H1 & H2 & H3 & H4 & H5). split_and!; [done..| |done]. intros c wr Hin. apply H4. auto. Qed.

Lemma base_cons l c wr w : is_plane c → handle_ok c wr w → base l w → base ((c, wr) :: l) w.
Proof.
  intros Hc Hok (H1 & H2 & H3 & H4 & H5). split_and!; [done..| |done]. intros c' wr' [Heq|Hin]%elem_of_cons; [|by apply H4]. by simplify_eq.
Qed.

Lemma begun_after l q e k K w w1 w2 :
  epoch_ok e → begun l q e w w1 →
  after (staging_path point_path k) point_path marked (new_plane (Manifest.slot_count (points q)) (Manifest.layout_hash (points q)) e K) w1 w2 →
  begun l q e w w2.
Proof.
  intros He (Hb & Hp & Hh & Hc) Ha. destruct (base_after l _ point_path _ _ _ _ w1 w2 (or_introl eq_refl) (staging_points k) He Hb Ha) as (H1 & H2 & H3 & H4).
  split_and!; [apply H1..| | |by rewrite H3].
  - destruct H2 as [->|H2]; [done|by right].
  - unfold identity_at in *. rewrite header_at_bytes, H4, <- header_at_bytes; [done|by right|]. apply not_eq_sym, Hpaths.
Qed.

Lemma installed_placed s c ino n layout epoch K w w' :
  installed s c marked w ino (new_plane n layout epoch K) w' →
  ∃ h, placed c (Z.of_nat n, layout, epoch) h w'.
Proof.
  intros Hi. destruct (installed_handle _ _ _ _ _ _ _ _ _ Hi) as (_ & (Hp & Hst & _) & Hh).
  exists (header_snapshot (file_bytes w' ino)). pose proof Hp as ([_ Hok] & _).
  pose proof (plane_long _ _ _ _ Hp). split_and!; [done|by eapply plane_identity|done|..].
  - apply (load_le_in_u 24 8); [done|lia].
  - apply (load_le_in_u 12 4); [done|lia].
  - apply (load_le_in_u 32 8); [done|lia].
Qed.

(** The slots of the plane [c] hold what [f] says. *)
Definition shows {A} (c : string) (n : nat) (slot_of : A → option nat) (f : A → option Slot.slot_data) (w : world) : Prop :=
  ∃ mem, path_bytes w c = Some mem ∧ holds n slot_of f mem.

Lemma shows_path {A} c n (slot_of : A → option nat) f w w' : path_bytes w' c = path_bytes w c → shows c n slot_of f w → shows c n slot_of f w'.
Proof. intros Hp (mem & H1 & H2). exists mem. by rewrite Hp. Qed.

(** The points are in place; the mappings of the health plane were not touched. *)
Definition points_placed (l : list (string * SlotWriter)) (q : request) (e : Z) (snapshot : option string)
    (previous : option ShmWriterGeneration) (w w1 : world) (g : ShmWriterGeneration) (w2 : world) : Prop :=
  begun ((point_path, g_writer g) :: l) q e w w2 ∧ (∃ h, placed point_path (point_identity q e) h w2) ∧
  (snapshot = None → shows point_path (Manifest.slot_count (points q)) (Manifest.slot_for (points q)) (point_sample previous w1) w2) ∧
  ∀ wr, (health_path, wr) ∈ l → file_bytes w2 (sw_ino wr) = file_bytes w1 (sw_ino wr).

(** Creating or rebuilding the points. *)
Lemma spec_points l q e snapshot previous k w w1 :
  request_ok q → validate_capacity config (points q) = Ok tt → epoch_ok e → begun l q e w w1 →
  (∀ p, previous = Some p → (point_path, g_writer p) ∈ l) → (is_Some snapshot ∨ is_Some previous → F) →
  spec b F (publish_generation config (points q) snapshot previous e k)
    (fun g w2 => points_placed l q e snapshot previous w w1 g w2)
    (begun l q e w) w1.
Proof.
  intros (Hm & _ & Hlay & _) Hcap He Hb Hprev HF.
  assert (Z.of_nat (Manifest.slot_count (points q)) ≤ u_max 32) as Hn.
  { unfold validate_capacity in Hcap. destruct (Nat.leb_spec (Manifest.slot_count (points q)) (max_slots config)); [lia|done]. }
  eapply spec_mono; [apply (spec_publish_generation l); try done; apply Hb| |].
  - intros g w2 (ino & Hg & _ & Hi). pose proof (installed_placed _ _ _ _ _ _ _ _ _ Hi) as Hpl.
    destruct (installed_handle _ _ _ _ _ _ _ _ _ Hi) as (Hh & _ & _).
    assert (begun l q e w w2) as Hb2 by (eapply begun_after; [done|done|apply Hi]).
    split; [|split; [done|split]].
    + destruct Hb2 as (H1 & H2). split; [|done]. rewrite Hg. apply base_cons; [by left|done|done].
    + intros Hs. destruct Hi as (_ & Hc & _ & Hk). eexists. split; [unfold path_bytes; by rewrite Hc|by apply Hk].
    + intros wr Hwr. destruct Hb as ((Hw & _ & _ & Hl & _) & _). destruct (Hl _ _ Hwr) as [_ (_ & Hlt & Honly & _)].
      destruct Hi as ((_ & _ & _ & Hd & _) & _). destruct (Hd _ Hlt) as [H|[H _]]; [|done|].
      * intros H. apply Honly in H. by apply (staging_points k health_path ltac:(set_solver)).
      * apply Honly in H. by apply Hpaths in H.
  - intros w2 Ha. by eapply begun_after.
Qed.

(** Rebuilding the health plane. *)
Lemma spec_health l q e current k hp w w1 :
  request_ok q → epoch_ok e → begun l q e w w1 → placed point_path (point_identity q e) hp w1 →
  (∀ p, current = Some p → (health_path, hw_writer p) ∈ l) → (is_Some current → F) →
  spec b F (rebuild_health health_path current (channels q) e k)
    (fun h w2 => base ((health_path, hw_writer h) :: l) w2 ∧ placed point_path (point_identity q e) hp w2 ∧
       (∃ hh, placed health_path (health_identity q e) hh w2) ∧ path_bytes w2 commit_path = path_bytes w commit_path ∧
       path_bytes w2 point_path = path_bytes w1 point_path ∧
       shows health_path (health_slot_count (channels q)) (health_slot_for (channels q)) (channel_sample current w1) w2)
    (outcome l q e w) w1.
Proof.
  intros (_ & Hm & _ & Hlay & Hn) He (Hb & Hp & Hid & Hc) Hpl Hprev HF.
  assert (∀ K w2, after (staging_path health_path k) health_path marked
    (new_plane (health_slot_count (channels q)) (health_layout_hash (channels q)) e K) w1 w2 →
    base l w2 ∧ (identity_at health_path w2 = identity_at health_path w1 ∨ identity_at health_path w2 = Some (health_identity q e)) ∧
    path_bytes w2 commit_path = path_bytes w commit_path ∧ path_bytes w2 point_path = path_bytes w1 point_path) as Hafter.
  { intros K w2 Ha. destruct (base_after l _ health_path _ _ _ _ w1 w2 (or_intror eq_refl) (staging_health k) He Hb Ha) as (H1 & H2 & H3 & H4).
    split_and!; [apply H1..|done|by rewrite H3|]. apply H4; [by left|apply Hpaths]. }
  eapply spec_mono; [apply (spec_rebuild_health l); done| |].
  - intros h w2 (ino & -> & Hi). pose proof (installed_placed _ _ _ _ _ _ _ _ _ Hi) as [hh Hpl2].
    destruct (installed_handle _ _ _ _ _ _ _ _ _ Hi) as (Hh & _ & _).
    destruct (Hafter _ _ (proj1 Hi)) as (H1 & _ & H3 & H4). cbn [hw_writer]. split_and!; [by apply base_cons; [right|..]| |by exists hh|done|done|].
    + destruct Hpl as (H5 & H6). split; [by rewrite header_at_bytes, H4, <- header_at_bytes|done].
    + destruct Hi as (_ & Hn2 & _ & Hk). eexists. split; [unfold path_bytes; by rewrite Hn2|done].
  - intros w2 Ha. destruct (Hafter _ _ Ha) as (H1 & H2 & H3 & H4). unfold identity_at in *. split_and!; [apply H1..| | |by left].
    + right. unfold identity_at. rewrite header_at_bytes, H4, <- header_at_bytes. destruct Hpl as (-> & <- & _). done.
    + unfold identity_at. by rewrite <- Hid.
Qed.

(** Reading the headers. *)
Lemma spec_open_plane c w w' i n layout epoch :
  w_names w !! c = Some i → plane n layout epoch (file_bytes w i) → epoch ≠ 0 → quiet w w' →
  spec b F (open_plane c) (fun h w1 => h = header_snapshot (file_bytes w i) ∧ quiet w w1) (quiet w) w'.
Proof.
  intros Hi Hp He Hq. unfold open_plane. eapply spec_bind; [apply spec_map_err; by eapply spec_reader_open|].
  intros rd w1 [-> Hq1]. eapply spec_bind; [apply spec_map_err; by eapply spec_peek|].
  intros mem w2 [-> Hq2]. by apply spec_ret.
Qed.

Lemma spec_stat c w w' :
  quiet w w' →
  spec b F (attempt (sys_open or_missing c))
    (fun r w1 => quiet w w1 ∧ match r with
       | Ok i => w_names w !! c = Some i
       | Err e => w_names w !! c = None ∧ e = Outbox.NotFoundKind ∨ e = Outbox.Unavailable ∧ (budget w1 < b)%nat
       | Panic => False
       end) (quiet w) w'.
Proof.
  intros [fs0 ->] Hb. apply wp_attempt, wp_sys_open; cbn [w_names with_faults].
  - intros fs Hfs. destruct (w_names w !! c); (split; [cbn in *; lia|]); (split; [by exists fs|]); [done|by left].
  - intros fs Hfs. split; [cbn in *; lia|]. split; [by exists fs|]. right. split; [done|cbn in *; lia].
  - intros fs. by exists fs.
Qed.

Lemma spec_observed c w w' :
  good c w → quiet w w' →
  spec b F (observed_plane_epoch c) (fun o w1 => o = publication_epoch <$> header_at c w ∧ quiet w w1) (quiet w) w'.
Proof.
  intros Hg Hq. unfold observed_plane_epoch, header_at. eapply spec_bind; [by apply spec_stat|].
  intros [i|er|] w1 [Hq1 H1]; cbv iota in *; [| |done].
  - destruct (Hg i H1) as (n & l & e & Hp & He).
    eapply spec_bind; [eapply spec_open_plane; [done|done|apply He|done]|]. intros h w2 [-> Hq2].
    eapply (spec_bind _ _ _ _ (fun _ w3 => w3 = w2)).
    { apply spec_lift; [unfold validate_topology_publication_epoch; by case_match|done|].
      unfold validate_topology_publication_epoch. destruct He as (He1 & He2 & _). destruct Hp as (_ & _ & _ & _ & _ & ->).
      by rewrite (proj2 (Z.eqb_neq _ _) He1), (proj2 (Z.eqb_neq _ _) He2). }
    intros [] w3 ->. apply spec_ret. by rewrite H1.
  - destruct H1 as [[Hnone ->]|[-> Hb]]; [apply spec_ret; by rewrite Hnone|apply spec_fail; auto].
Qed.

(** Reading the witness; it is missing, or a witness. *)
Definition witness_ok (w : world) : Prop :=
  ∀ bs, path_bytes w commit_path = Some bs → ∃ c, bs = encode c ∧ commit_ok c.

Lemma spec_read_witness w w' :
  witness_ok w → quiet w w' →
  spec b F (attempt (read_topology_publication_commit point_path))
    (fun r w1 => quiet w w1 ∧ r ≠ Panic ∧ ∀ c, r = Ok c → path_bytes w commit_path = Some (encode c) ∧ commit_ok c) (quiet w) w'.
Proof.
  intros Hok Hq Hb. apply wp_attempt. unfold read_topology_publication_commit. fold commit_path. destruct Hq as [fs0 ->].
  apply wp_bind, wp_sys_open; cbn [w_names with_faults]; [intros fs Hfs|intros fs Hfs|intros fs; by exists fs].
  2: { split; [cbn in *; lia|]. split_and!; [by exists fs|done|done]. }
  destruct (w_names w !! commit_path) as [i|] eqn:Hi; cbv beta iota.
  2: { split; [cbn in *; lia|]. split_and!; [by exists fs|done|done]. }
  apply wp_bind, wp_sys_read; [intros fs1 Hfs1|intros fs1 Hfs1|intros fs1; by exists fs1]; cbv beta iota.
  2: { split; [cbn in *; lia|]. split_and!; [by exists fs1|done|done]. }
  apply wp_lift. split; [cbn in *; lia|]. change (file_bytes _ i) with (file_bytes w i).
  assert (path_bytes w commit_path = Some (file_bytes w i)) as Hpb by (unfold path_bytes; by rewrite Hi).
  destruct (Hok _ Hpb) as (c & Heq & Hc). rewrite Heq, decode_witness by done. split_and!; [by exists fs1|done|].
  intros c' [= <-]. by rewrite Hpb, Heq.
Qed.

(** The epochs in use. *)
Definition below (w : world) (e : Z) : Prop :=
  (∀ h, header_at point_path w = Some h → publication_epoch h < e) ∧ (∀ h, header_at health_path w = Some h → publication_epoch h < e).
Definition exhausted (w : world) : Prop :=
  ∃ e, u_max 64 - 1 ≤ e ∧ ((∃ h, header_at point_path w = Some h ∧ publication_epoch h = e) ∨
    (∃ h, header_at health_path w = Some h ∧ publication_epoch h = e) ∨ ∃ c, (path_bytes w commit_path = Some (encode c) ∧ commit_ok c) ∧ tc_epoch c = e).

Lemma header_epoch c w h : good c w → header_at c w = Some h → epoch_ok (publication_epoch h).
Proof.
  unfold header_at. intros Hg Hh. destruct (w_names w !! c) as [i|] eqn:Hi; [|done]. cbn in Hh. injection Hh as <-.
  destruct (Hg i Hi) as (n & l & e & Hp & He). by destruct Hp as (_ & _ & _ & _ & _ & ->).
Qed.

(** The allocated epoch is beyond every epoch a reader can see. *)
Lemma spec_next_epoch l w w' :
  base l w → witness_ok w → (exhausted w → F) → quiet w w' →
  spec b F (next_publication_epoch (PublicationGuard point_path None) health_path)
    (fun r w1 => quiet w w1 ∧ epoch_ok r.1 ∧ below w r.1 ∧ r.2 = PublicationGuard point_path (Some (health_path, r.1)))
    (quiet w) w'.
Proof.
  intros (_ & Hp & Hh & _) Hwit HF Hq. unfold next_publication_epoch. cbn [guard_point_path allocated].
  eapply (spec_bind _ _ _ _ (fun _ w1 => w1 = w')).
  { apply spec_lift; unfold validate_plane_paths; fold commit_path; destruct Hpaths as (H1 & _ & H2 & _);
      rewrite !bool_decide_eq_false_2 by done; done. }
  intros [] w1 ->. unfold acquire_authority_pair, acquire_read.
  eapply (spec_bind _ _ _ _ (fun _ w1 => quiet w w1)).
  { eapply spec_bind; [apply spec_map_err; by apply spec_nop_quiet|]. intros [] w1 Hq1. apply spec_map_err. by apply spec_nop_quiet. }
  intros [] w1 Hq1. eapply spec_bind; [by apply spec_observed|]. intros ? w2 [-> Hq2].
  eapply spec_bind; [by apply spec_observed|]. intros ? w3 [-> Hq3]. cbv zeta.
  eapply spec_bind; [by apply spec_read_witness|]. intros r w4 (Hq4 & Hnp & Hr).
  set (floor := match r with Ok c => _ | _ => _ end).
  set (ep := default 0 (publication_epoch <$> header_at point_path w)) in *.
  set (eh := default 0 (publication_epoch <$> header_at health_path w)) in *.
  assert (∀ h, header_at point_path w = Some h → publication_epoch h = ep) as Hep by (unfold ep; by intros h ->).
  assert (∀ h, header_at health_path w = Some h → publication_epoch h = eh) as Heh by (unfold eh; by intros h ->).
  assert (0 ≤ ep ∧ (ep = 0 ∨ ∃ h, header_at point_path w = Some h ∧ publication_epoch h = ep)) as [Hp0 Hp1].
  { unfold ep. destruct (header_at point_path w) as [h|] eqn:E; cbn; [|by split; [|left]].
    pose proof (header_epoch _ _ _ Hp E) as (_ & _ & Hu). unfold in_u in Hu. split; [lia|right; eauto]. }
  assert (0 ≤ eh ∧ (eh = 0 ∨ ∃ h, header_at health_path w = Some h ∧ publication_epoch h = eh)) as [Hh0 Hh1].
  { unfold eh. destruct (header_at health_path w) as [h|] eqn:E; cbn; [|by split; [|left]].
    pose proof (header_epoch _ _ _ Hh E) as (_ & _ & Hu). unfold in_u in Hu. split; [lia|right; eauto]. }
  assert (ep ≤ floor ∧ eh ≤ floor ∧ (floor = ep ∨ floor = eh ∨ ∃ c, (path_bytes w commit_path = Some (encode c) ∧ commit_ok c) ∧ tc_epoch c = floor)) as (Hf1 & Hf2 & Hf3).
  { unfold floor. destruct r as [c| |].
    - specialize (Hr c eq_refl). split; [lia|]. split; [lia|].
      destruct (Z.max_spec (Z.max ep eh) (tc_epoch c)) as [[? ->]|[? ->]]; [right; right; eauto|].
      destruct (Z.max_spec ep eh) as [[? ->]|[? ->]]; auto.
    - destruct (Z.max_spec ep eh) as [[? ->]|[? ->]]; split_and!; auto; lia.
    - destruct (Z.max_spec ep eh) as [[? ->]|[? ->]]; split_and!; auto; lia. }
  clearbody floor.
  assert (u_max 64 - 1 ≤ floor → exhausted w) as Hex.
  { intros Hf. exists floor. split; [done|]. change (u_max 64) with (2 ^ 64 - 1) in Hf.
    destruct Hf3 as [He|[He|Hc]]; [left|right; left|right; right; exact Hc]; rewrite He in *; [destruct Hp1|destruct Hh1]; (lia || done). }
  unfold checked_add. destruct (Z.ltb_spec (floor + 1) (2 ^ 64)) as [Hle|Hgt].
  - eapply (spec_bind _ _ _ _ (fun _ w5 => w5 = w4 ∧ epoch_ok (floor + 1))).
    { unfold validate_topology_publication_epoch. rewrite (proj2 (Z.eqb_neq (floor + 1) 0)) by lia. cbn [orb].
      destruct (Z.eqb_spec (floor + 1) (u_max 64)) as [He|He]; (apply spec_lift; [done| |]); try done.
      - intros ? _. split; [|done]. apply HF, Hex. lia.
      - intros [] _. split; [done|]. unfold epoch_ok, in_u. lia. }
    intros [] w5 [-> He]. apply spec_ret. cbn [fst snd]. split; [done|]. split; [done|]. split; [|done].
    split; intros h Hd; [rewrite (Hep _ Hd)|rewrite (Heh _ Hd)]; lia.
  - apply spec_fail; [done|]. left. apply HF, Hex. change (u_max 64) with (2 ^ 64 - 1). lia.
Qed.

(** ** Writing the witness *)

Lemma staging_commit x : x ∈ [point_path; health_path; commit_path] → commit_staging_path point_path ≠ x.
Proof. intros Hx. by apply Hpaths. Qed.

(** The old witness, or the new one; no other file changed. *)
Definition unmarked (w w' : world) : Prop :=
  ∀ i, (i < w_next w)%nat → w_names w !! commit_staging_path point_path ≠ Some i → file_bytes w' i = file_bytes w i.
Definition rewritten (c : TopologyPublicationCommit) (w w' : world) : Prop :=
  after (commit_staging_path point_path) commit_path (fun _ => True) (eq (encode c)) w w' ∧ unmarked w w'.

Lemma spec_write_witness c w w' :
  files_ok w → quiet w w' →
  spec b F (write_witness point_path c)
    (fun _ w1 => ∃ ino, installed (commit_staging_path point_path) commit_path (fun _ => True) w ino (eq (encode c)) w1 ∧ unmarked w w1)
    (rewritten c w) w'.
Proof.
  intros Hw Hq. set (st := commit_staging_path point_path). pose proof (staging_commit commit_path ltac:(set_solver)) as Hsc. fold st in Hsc.
  set (I := rewritten c w). change st with (commit_staging_path point_path) in Hsc.
  assert (∀ w1, staged st w w1 → I w1) as HsI. { intros w1 H1. split; [by apply (staged_after _ _ _ Hsc)|destruct H1 as (_ & _ & _ & H1 & _); exact H1]. }
  assert (∀ w1, quiet w w1 → I w1) as HqI. { intros w1 [fs ->]. by apply HsI, staged_faults, staged_refl. }
  assert (∀ i fs w1, own st i w w1 → I (with_faults fs w1)) as HoI. { intros i fs w1 [H1 _]. by apply HsI. }
  unfold write_witness. fold st commit_path. cbv zeta.
  eapply spec_bind; [eapply spec_mono; [by apply spec_nop_quiet|intros ? ? H; exact H|exact HqI]|]. intros [] w1 [fs0 ->].
  eapply (spec_bind _ _ _ _ (fun r w2 => match r with
    | Ok _ => ∃ ino, installed st commit_path (fun _ => True) w ino (eq (encode c)) w2 ∧ unmarked w w2
    | Err _ => I w2 ∧ (F ∨ (budget w2 < b)%nat)
    | Panic => False
    end)).
  - apply spec_attempt.
    eapply spec_bind; [apply (spec_call _ _ _ _ _ (fun ino w2 => own st ino w w2 ∧ file_bytes w2 ino = []))|].
    { done. }
    { intros fs _. cbn. destruct (w_names w !! st) as [i|] eqn:Hi.
      - split; [done|]. split; [|exact (file_bytes_insert (with_faults fs w) i [])].
        apply (own_data st i [] w (with_faults fs w)); [constructor|]. split; [by apply staged_faults, staged_refl|done].
      - split; [done|]. split; [|apply file_bytes_eq, lookup_insert_eq].
        apply (own_fresh st w (with_faults fs w)); [by apply staged_faults, staged_refl|done]. }
    { intros ? fs. apply HqI. by exists fs. }
    intros ino w2 [H2 Hb2].
    assert (∀ bs fs, bytes_ok bs → own st ino w (put_bytes ino 0 bs (with_faults fs w2))) as Hput.
    { intros bs fs Hbs. apply (own_data st ino _ w (with_faults fs w2)); [|done].
      rewrite file_bytes_faults, Hb2. unfold write_bytes. cbn. rewrite drop_nil, app_nil_r. done. }
    eapply spec_bind; [apply (spec_call _ _ _ _ _ (fun _ w3 => own st ino w w3 ∧ file_bytes w3 ino = encode c))|].
    { done. }
    { intros fs _. split; [done|]. split; [apply Hput, encode_bytes|].
      unfold put_bytes. rewrite (file_bytes_insert (with_faults fs w2)), file_bytes_faults, Hb2. unfold write_bytes. cbn [take app].
      by rewrite drop_nil, app_nil_r. }
    { intros k fs. apply (HoI ino (w_faults (with_faults fs w2)) (put_bytes ino 0 (take k (encode c)) (with_faults fs w2))).
      apply Hput, Forall_take, encode_bytes. }
    intros [] w3 [H3 Hb3].
    eapply spec_bind; [apply (spec_nop b F unavailable (fun _ w4 => own st ino w w4 ∧ file_bytes w4 ino = encode c)); [done|by intros fs; eapply HoI]|].
    intros [] w4 [H4 Hb4]. apply spec_call; [done| |by intros ? fs; eapply HoI].
    intros fs _. cbn. pose proof H4 as [Hst Hn]. rewrite Hn. split; [done|]. exists ino.
    split; [|destruct Hst as (_ & _ & _ & Hd & _); exact Hd]. apply (renamed_installed _ _ _ Hsc w ino _ (with_faults fs w4)), complete_about; [done|done|by split|done].
  - intros [[]|er|] w2 H2; cbv iota; [| |done].
    + destruct H2 as [ino H2].
      eapply (spec_bind _ _ _ _ (fun _ w3 => installed st commit_path (fun _ => True) w ino (eq (encode c)) w3 ∧ unmarked w w3)).
      { apply spec_nop; [done|intros fs; split; apply H2]. }
      intros [] w3 H3. apply spec_nop; [intros fs; by exists ino|intros fs; split; apply H3].
    + destruct H2 as [H2 Hb2].
      eapply (spec_bind _ _ _ _ (fun _ w3 => I w3 ∧ (F ∨ (budget w3 < b)%nat))).
      * apply spec_remove; [intros w3 [H3 H4]; split; [by apply after_removed|done]|done|done|done].
      * intros r w3 [H3 Hb3]. by apply spec_fail.
Qed.

Lemma rewritten_view l c w w' :
  base l w → rewritten c w w' →
  base l w' ∧ (∀ x, is_plane x → path_bytes w' x = path_bytes w x) ∧
  (path_bytes w' commit_path = path_bytes w commit_path ∨ path_bytes w' commit_path = Some (encode c)).
Proof.
  intros (Hw & Hp & Hh & Hl & HX) [Ha Hu].
  assert (∀ x, is_plane x → x ≠ commit_staging_path point_path ∧ x ≠ commit_path) as Hne.
  { intros x Hx. split; [by apply not_eq_sym, staging_commit, is_plane_elem|]. destruct Hpaths as (_ & H1 & H2 & _).
    destruct Hx as [->| ->]; by apply not_eq_sym. }
  split_and!.
  - split_and!; [apply Ha..| | | |].
    + eapply (after_good_other (commit_staging_path point_path) commit_path); [done..|apply Hne; by left|apply Hne; by left|done].
    + eapply (after_good_other (commit_staging_path point_path) commit_path); [done..|apply Hne; by right|apply Hne; by right|done].
    + intros x wr Hin. destruct (Hl x wr Hin) as [Hx Hok]. split; [done|].
      eapply after_handle; [done| |done]. by apply staging_commit, is_plane_elem.
    + intros x Hx. destruct (HX x Hx) as [Hc' Hok]. split; [done|].
      eapply after_watched; [done|by apply staging_commit, is_plane_elem| |done]. intros Hxc. by destruct (proj2 (Hne _ Hc')).
  - intros x Hx. eapply after_path_bytes; [done|done|by apply Hne..].
  - pose proof Ha as (_ & _ & _ & _ & _ & Hc & _). unfold path_bytes. destruct Hc as [Hc|(j & -> & _ & Hj)]; [left|right; by rewrite Hj].
    rewrite Hc. destruct (w_names w !! commit_path) as [i|] eqn:Hi; [|done]. f_equal. destruct Hw as ([H1 _] & Hnl & _).
    apply Hu; [by eapply H1|]. intros Hs. pose proof (staging_commit commit_path ltac:(set_solver)) as Hsc. by apply Hsc, (Hnl _ _ i).
Qed.

Lemma spec_read_commit c w w' :
  path_bytes w commit_path = Some (encode c) → commit_ok c → quiet w w' →
  spec b F (read_topology_publication_commit point_path) (fun c' w1 => c' = c ∧ quiet w w1) (quiet w) w'.
Proof.
  intros Hb Hok Hq. unfold read_topology_publication_commit. fold commit_path. unfold path_bytes in Hb.
  destruct (w_names w !! commit_path) as [i|] eqn:Hi; [|done]. injection Hb as Hb.
  eapply spec_bind; [by eapply spec_open|]. intros j w1 [-> Hq1]. eapply spec_bind; [by eapply spec_read|].
  intros bs w2 [-> Hq2]. rewrite Hb, decode_witness by done. apply spec_lift; [done| |done]. by intros ? [= <-].
Qed.

(** The witness of two headers. *)
Definition witness_of (e : Z) (hp hh : HeaderSnapshot) : TopologyPublicationCommit :=
  Commit e (layout_hash hp) (slot_count hp) (writer_generation hp) (layout_hash hh) (slot_count hh) (writer_generation hh).

Lemma header_open c w h :
  good c w → header_at c w = Some h →
  ∃ i n layout epoch, w_names w !! c = Some i ∧ plane n layout epoch (file_bytes w i) ∧ epoch ≠ 0 ∧ h = header_snapshot (file_bytes w i).
Proof.
  unfold header_at. intros Hg Hh. destruct (w_names w !! c) as [i|] eqn:Hi; [|done]. injection Hh as <-.
  destruct (Hg i Hi) as (n & l & e & Hp & He & _). by exists i, n, l, e.
Qed.

Lemma spec_commit l q e hp hh w :
  epoch_ok e → base l w → placed point_path (point_identity q e) hp w → placed health_path (health_identity q e) hh w →
  witness_ok w → (∀ c, path_bytes w commit_path = Some (encode c) → commit_ok c → tc_epoch c < e) →
  spec b F (commit (PublicationGuard point_path (Some (health_path, e))) health_path e)
    (fun c w1 => c = witness_of e hp hh ∧ base l w1 ∧ witnessed q e c w1 ∧ ∀ x, is_plane x → path_bytes w1 x = path_bytes w x)
    (fun w1 => base l w1 ∧ (∀ x, is_plane x → path_bytes w1 x = path_bytes w x) ∧
       (path_bytes w1 commit_path = path_bytes w commit_path ∨ ∃ c, witnessed q e c w1)) w.
Proof.
  intros He Hbase (Hp1 & Hp2 & Hp3 & Hp4 & Hp5 & Hp6) (Hh1 & Hh2 & Hh3 & Hh4 & Hh5 & Hh6) Hwit Hlast. set (I := fun w1 => _ ∧ _).
  pose proof Hbase as (Hw & Hgp & Hgh & _).
  assert (∀ w1, quiet w w1 → I w1) as HqI. { intros w1 [fs ->]. split_and!; [done|done|by left]. }
  assert (publication_epoch hp = e ∧ publication_epoch hh = e) as [Hep Heh].
  { unfold identity, point_identity, health_identity in *. by simplify_eq. }
  set (c := witness_of e hp hh).
  assert (commit_ok c) as Hcok. { unfold in_u in *. split_and!; cbn; unfold in_u; try done; try apply He; lia. }
  assert (∀ w1, base l w1 → (∀ x, is_plane x → path_bytes w1 x = path_bytes w x) → path_bytes w1 commit_path = Some (encode c) → witnessed q e c w1) as Hwd.
  { intros w1 _ Hhd Hb. split_and!; [done|apply Hcok..|done| |]; unfold identity_at; rewrite header_at_bytes, Hhd, <- header_at_bytes; [by rewrite Hp1; cbn; f_equal|by left|by rewrite Hh1; cbn; f_equal|by right]. }
  assert (∀ w1, rewritten c w w1 → I w1) as HrI.
  { intros w1 Hr. destruct (rewritten_view l c w w1 Hbase Hr) as (H1 & H2 & H3). split; [done|]. split; [done|]. destruct H3; [by left|right; eauto]. }
  unfold commit. cbn [guard_point_path allocated]. unfold commit_topology_publication_under_guard.
  assert (validate_plane_paths point_path health_path = Ok tt) as Hvp.
  { unfold validate_plane_paths. fold commit_path. destruct Hpaths as (H1 & _ & H2 & _). by rewrite !bool_decide_eq_false_2. }
  rewrite Hvp, bool_decide_eq_true_2, Z.eqb_refl by done. cbn [andb].
  eapply (spec_bind _ _ _ _ (fun _ w1 => w1 = w)); [by apply spec_lift|]. intros [] w1 ->.
  eapply (spec_bind _ _ _ _ (fun _ w1 => w1 = w)); [by apply spec_require|]. intros [] w1 ->.
  eapply (spec_bind _ _ _ _ (fun _ w1 => w1 = w)); [by apply spec_lift|]. intros [] w1 ->.
  eapply (spec_bind _ _ _ _ (fun _ w1 => w1 = w)).
  { unfold validate_topology_publication_epoch. destruct He as (H1 & H2 & _).
    rewrite (proj2 (Z.eqb_neq _ _) H1), (proj2 (Z.eqb_neq _ _) H2). by apply spec_lift. }
  intros [] w1 ->.
  eapply spec_bind; [eapply spec_mono; [apply spec_read_witness; [done|apply quiet_refl]|intros ? ? H; exact H|exact HqI]|].
  intros r w1 (Hq1 & _ & Hr).
  eapply (spec_bind _ _ _ _ (fun _ w2 => quiet w w2)).
  { apply spec_require; [done|]. intros Hx. exfalso. destruct r as [c'| |]; [|done..]. destruct (Hr c' eq_refl) as [Hr1 Hr2]. specialize (Hlast c' Hr1 Hr2). lia. }
  intros [] w2 Hq2. unfold acquire_authority_pair, acquire_read.
  eapply (spec_bind _ _ _ _ (fun _ w1 => quiet w w1)).
  { eapply spec_mono; [|intros ? ? H; exact H|exact HqI].
    eapply spec_bind; [apply spec_map_err; by apply spec_nop_quiet|]. intros [] w3 Hq3. apply spec_map_err. by apply spec_nop_quiet. }
  intros [] w3 Hq3.
  destruct (header_open _ _ _ Hgp Hp1) as (ip & np & lp & ep & Pi & Pp & Pe & ->).
  destruct (header_open _ _ _ Hgh Hh1) as (ih & nh & lh & eh & Hi & Hp & Hpe & ->).
  eapply spec_bind; [eapply spec_mono; [by eapply spec_open_plane|intros ? ? H; exact H|exact HqI]|]. intros ? w4 [-> Hq4].
  eapply spec_bind; [eapply spec_mono; [by eapply spec_open_plane|intros ? ? H; exact H|exact HqI]|]. intros ? w5 [-> Hq5].
  eapply (spec_bind _ _ _ _ (fun c' w6 => c' = c ∧ w6 = w5)).
  { assert (from_readers e (header_snapshot (file_bytes w ip)) (header_snapshot (file_bytes w ih)) = Ok c) as ->.
    { unfold from_readers, validate_header_epoch. by rewrite Hep, Heh, Z.eqb_refl, Hp3, Hh3. }
    apply spec_lift; [done| |done]. by intros ? [= <-]. }
  intros ? w6 [-> ->].
  eapply spec_bind; [eapply spec_mono; [by apply spec_write_witness|intros ? ? H; exact H|exact HrI]|].
  intros [] w7 (ino & Hin & Hun).
  destruct (rewritten_view l c w w7 Hbase (conj (proj1 Hin) Hun)) as (Hb7 & Hh7 & _).
  assert (path_bytes w7 commit_path = Some (encode c)) as Hpb. { destruct Hin as (_ & H1 & H2). unfold path_bytes. rewrite H1. by f_equal. }
  assert (∀ w8, quiet w7 w8 → I w8) as Hq7I. { intros w8 [fs ->]. split_and!; [apply Hb7..|done|right; eauto]. }
  eapply spec_bind; [eapply spec_mono; [apply (spec_read_commit c w7); [done|done|apply quiet_refl]|intros ? ? H; exact H|exact Hq7I]|].
  intros ? w8 [-> [fs ->]].
  eapply (spec_bind _ _ _ _ (fun _ w9 => w9 = with_faults fs w7)).
  { apply spec_require; [done|]. by rewrite bool_decide_eq_true_2. }
  intros [] w9 ->. apply spec_ret. split_and!; [done|apply Hb7..|by apply (Hwd w7)|done].
Qed.

(** ** Whole transactions *)

Lemma spec_epoch_valid e (P : unit → world → Prop) I w :
  epoch_ok e → P tt w → spec b F (lift (validate_topology_publication_epoch e)) P I w.
Proof.
  intros (H1 & H2 & _) HP. unfold validate_topology_publication_epoch.
  rewrite (proj2 (Z.eqb_neq _ _) H1), (proj2 (Z.eqb_neq _ _) H2). apply spec_lift; [done| |done]. by intros [] _.
Qed.

Lemma spec_capacity m (P : unit → world → Prop) (I : world → Prop) w :
  (validate_capacity config m = Ok tt → P tt w) → (validate_capacity config m ≠ Ok tt → F) → I w →
  spec b F (lift (validate_capacity config m)) P I w.
Proof.
  intros HP HF HI. unfold validate_capacity in *. destruct (_ <=? _)%nat; (apply spec_lift; [done| |]); try done; intros ? Hx; simplify_eq; auto.
Qed.

Lemma spec_create_points l q e snapshot k w w1 :
  request_ok q → (validate_capacity config (points q) ≠ Ok tt → F) → epoch_ok e → begun l q e w w1 → (is_Some snapshot → F) →
  spec b F (create_points config (points q) snapshot e k) (points_placed l q e snapshot None w w1) (begun l q e w) w1.
Proof.
  intros Hq Hcap He Hb HF. unfold create_points.
  eapply (spec_bind _ _ _ _ (fun _ w2 => w2 = w1)); [by apply spec_epoch_valid|]. intros [] w2 ->.
  eapply (spec_bind _ _ _ _ (fun _ w2 => w2 = w1 ∧ validate_capacity config (points q) = Ok tt)); [by apply spec_capacity|].
  intros [] w2 [-> Hc]. apply spec_points; try done. intros [H|[? H]]; [by apply HF|done].
Qed.

Lemma spec_rebuild_points l q e current k w w1 :
  F → request_ok q → epoch_ok e → begun l q e w w1 → (∀ p, current = Some p → (point_path, g_writer p) ∈ l) →
  spec b F (rebuild_points config current (points q) e k) (points_placed l q e None current w w1) (begun l q e w) w1.
Proof.
  intros HF Hq He Hb Hprev. unfold rebuild_points.
  eapply (spec_bind _ _ _ _ (fun _ w2 => w2 = w1)); [by apply spec_epoch_valid|]. intros [] w2 ->.
  eapply (spec_bind _ _ _ _ (fun _ w2 => w2 = w1)).
  { destruct current as [g|]; [|by apply spec_ret]. unfold writer_header.
    eapply (spec_bind _ _ _ _ (fun _ w2 => w2 = w1)).
    - eapply spec_bind; [apply (spec_mapping _ _ _ (fun _ w2 => w2 = w1)); done|]. intros mem w2 ->. by apply spec_ret.
    - intros hd w2 ->. by apply spec_require. }
  intros [] w2 ->.
  eapply (spec_bind _ _ _ _ (fun _ w2 => w2 = w1 ∧ validate_capacity config (points q) = Ok tt)); [by apply spec_capacity|].
  intros [] w2 [-> Hc]. by apply spec_points.
Qed.

(** What a transaction may leave, whenever it stops. *)
Definition fresh (w : world) (e : Z) : Prop := epoch_ok e ∧ below w e.
Definition left_by (l : list (string * SlotWriter)) (q : request) (w w' : world) : Prop :=
  quiet w w' ∨ ∃ e, fresh w e ∧ outcome l q e w w'.
(** The witness is behind the planes. *)
Definition witness_behind (w : world) : Prop :=
  ∀ bs, path_bytes w commit_path = Some bs → ∃ c hp hh, bs = encode c ∧ commit_ok c ∧
    header_at point_path w = Some hp ∧ tc_epoch c ≤ publication_epoch hp ∧
    header_at health_path w = Some hh ∧ tc_epoch c ≤ publication_epoch hh.

Lemma encode_inj c c' : commit_ok c → commit_ok c' → encode c = encode c' → c = c'.
Proof. intros H H' Heq. pose proof (decode_witness c H) as E. rewrite Heq, decode_witness in E by done. congruence. Qed.

Lemma witness_behind_ok w : witness_behind w → witness_ok w.
Proof. intros H bs Hb. destruct (H bs Hb) as (c & _ & _ & ? & ? & _). eauto. Qed.

(** Between the point plane and the witness. *)
Lemma spec_rest l q e current k hp w w1 :
  request_ok q → fresh w e → witness_behind w → begun l q e w w1 → placed point_path (point_identity q e) hp w1 →
  (∀ p, current = Some p → (health_path, hw_writer p) ∈ l) → (is_Some current → F) →
  spec b F (rebuild_health health_path current (channels q) e k)
    (fun h w2 => base ((health_path, hw_writer h) :: l) w2 ∧ outcome ((health_path, hw_writer h) :: l) q e w w2 ∧
       spec b F (commit (PublicationGuard point_path (Some (health_path, e))) health_path e)
         (fun c w3 => base ((health_path, hw_writer h) :: l) w3 ∧ outcome ((health_path, hw_writer h) :: l) q e w w3 ∧ witnessed q e c w3 ∧
            (∃ hp hh, header_at point_path w3 = Some hp ∧ header_at health_path w3 = Some hh ∧ c = witness_of e hp hh) ∧
            path_bytes w3 point_path = path_bytes w1 point_path ∧
            shows health_path (health_slot_count (channels q)) (health_slot_for (channels q)) (channel_sample current w1) w3)
         (outcome ((health_path, hw_writer h) :: l) q e w) w2)
    (outcome l q e w) w1.
Proof.
  intros Hq [He Hbelow] Hwit Hb Hpl Hprev HF. eapply spec_mono; [by eapply spec_health| |done].
  intros h w2 (Hb2 & Hp2 & [hh Hh2] & Hc2 & Hpp & Hsh). set (l' := (health_path, hw_writer h) :: l) in *.
  assert (∀ w3, base l' w3 → (∀ x, is_plane x → path_bytes w3 x = path_bytes w2 x) →
    (path_bytes w3 commit_path = path_bytes w2 commit_path ∨ ∃ c, witnessed q e c w3) → outcome l' q e w w3) as Hout.
  { intros w3 H1 H2 H3. split_and!; [apply H1..| | |].
    - right. unfold identity_at. rewrite header_at_bytes, H2, <- header_at_bytes by (by left). destruct Hp2 as (-> & <- & _). done.
    - right. unfold identity_at. rewrite header_at_bytes, H2, <- header_at_bytes by (by right). destruct Hh2 as (-> & <- & _). done.
    - destruct H3 as [H3|H3]; [left; by rewrite H3|by right]. }
  split; [done|]. split; [apply Hout; [done|done|by left]|].
  eapply spec_mono; [apply (spec_commit l' q e hp hh); try done| |].
  - intros bs Hbs. rewrite Hc2 in Hbs. by apply (witness_behind_ok w Hwit).
  - intros c Hc Hcok. rewrite Hc2 in Hc. destruct (Hwit _ Hc) as (c' & hp' & hh' & Henc & Hok & Hhp & Hle & _).
    apply encode_inj in Henc as ->; [|done..]. destruct Hbelow as [H1 _]. specialize (H1 _ Hhp). lia.
  - intros c w3 (-> & H1 & H2 & H3). split; [done|]. split; [apply Hout; [done|done|right; eauto]|]. split; [done|]. split.
    + exists hp, hh. rewrite !header_at_bytes, (H3 point_path), (H3 health_path), <- !header_at_bytes by (unfold is_plane; auto).
      split_and!; [apply Hp2|apply Hh2|done].
    + split; [by rewrite H3 by (by left)|]. eapply shows_path; [apply H3; by right|done].
  - intros w3 (H1 & H2 & H3). by apply Hout.
Qed.

Lemma begun_weaken l l' q e w w' : (∀ x, x ∈ l' → x ∈ l) → begun l q e w w' → begun l' q e w w'.
Proof. intros Hl (H1 & H2). split; [by eapply base_weaken|done]. Qed.
Lemma outcome_weaken l l' q e w w' : (∀ x, x ∈ l' → x ∈ l) → outcome l q e w w' → outcome l' q e w w'.
Proof. intros Hl (H1 & H2). split; [by eapply base_weaken|done]. Qed.

Lemma begun_start l q e w w' : base l w → quiet w w' → begun l q e w w'.
Proof. intros Hb [fs ->]. split_and!; [apply Hb..|by left|done|done]. Qed.

(** The outcome of a transaction that returned a witness. *)
Definition finished (l : list (string * SlotWriter)) (q : request) (w : world) (c : TopologyPublicationCommit) (w' : world) : Prop :=
  ∃ e, fresh w e ∧ outcome l q e w w' ∧ witnessed q e c w' ∧
    ∃ hp hh, header_at point_path w' = Some hp ∧ header_at health_path w' = Some hh ∧ c = witness_of e hp hh.

Lemma spec_begin l w :
  base l w → witness_behind w → (exhausted w → F) →
  spec b F (publication ← begin_topology_publication point_path; next_publication_epoch publication health_path)
    (fun r w1 => quiet w w1 ∧ fresh w r.1 ∧ r.2 = PublicationGuard point_path (Some (health_path, r.1))) (quiet w) w.
Proof.
  intros Hb Hwit HF. eapply (spec_bind _ _ _ _ (fun g w1 => g = PublicationGuard point_path None ∧ quiet w w1)).
  - unfold begin_topology_publication, acquire_write.
    eapply (spec_bind _ _ _ _ (fun _ w1 => quiet w w1)); [|intros g w1 Hq; by apply spec_ret].
    apply spec_map_err. eapply spec_bind; [apply spec_nop_quiet, quiet_refl|]. intros [] w1 Hq. by apply spec_ret.
  - intros g w1 [-> Hq]. eapply spec_mono; [eapply spec_next_epoch; [done|by apply witness_behind_ok|done|done]| |done].
    intros r w2 (H1 & H2 & H3 & H4). by split_and!.
Qed.

Lemma spec_assoc {E A B C} (m : io E A) (f : A → io E B) (g : B → io E C) P I w :
  spec b F ((m ≫= f) ≫= g) P I w → spec b F (m ≫= fun a => f a ≫= g) P I w.
Proof. intros H Hb. specialize (H Hb). unfold wp in *. rewrite !io_bind_run in *. by destruct (m w) as [[[]|] w']. Qed.

Lemma spec_attempt_any {E A} (m : io E A) (P : A → world → Prop) I w :
  spec b True m P I w →
  spec b F (attempt m) (fun r w' => match r with Ok a => P a w' | Err _ => I w' | Panic => False end) I w.
Proof.
  intros Hm Hb. apply wp_attempt. eapply wp_mono; [by apply Hm| |done]. intros [a|er|] w' [H1 H2]; [done| |done].
  split; [done|]. apply H2.
Qed.
End Transaction.

Section Start.
Context (config : ShmRuntimeConfig) (health_path : string) (X : list watched) (b : nat) (F : Prop).
Hypothesis Hpaths : paths_ok config health_path.
Hypothesis Hmax : Z.of_nat (max_slots config) ≤ u_max 32.

Lemma spec_start l snapshot fallback q w :
  base config health_path X l w → request_ok q → witness_behind config health_path w → (exhausted config health_path w → F) →
  (validate_capacity config (points q) ≠ Ok tt → F) →
  spec b F (start_publication config health_path snapshot fallback q)
    (fun r w' => base config health_path X (held config health_path r.2 ++ l) w' ∧ finished config health_path X l q w r.1 w')
    (left_by config health_path X l q w) w.
Proof.
  intros Hb Hq Hwit HF Hcap. unfold start_publication. apply spec_assoc.
  eapply spec_bind; [eapply spec_mono; [by eapply spec_begin|intros ? ? H; exact H|by left]|].
  intros [e g] w1 (Hq1 & Hfr & Hg). cbn [fst snd] in *. subst g.
  assert (∀ w', begun config health_path X l q e w w' → left_by config health_path X l q w w') as Hleft.
  { intros w' Hw'. right. exists e. split; [done|by apply begun_outcome]. }
  pose proof (begun_start config health_path X l q e w w1 Hb Hq1) as Hbg. pose proof Hfr as [He _].
  apply spec_assoc. eapply (spec_bind _ _ _ _ (fun g w2 => begun config health_path X ((config_path config, g_writer g) :: l) q e w w2 ∧
    ∃ h, placed (config_path config) (point_identity q e) h w2)).
  { eapply spec_mono; [|intros ? ? H; exact H|exact Hleft].
    assert (∀ G : Prop, (validate_capacity config (points q) ≠ Ok tt → G) → ∀ s k w2, (is_Some s → G) → begun config health_path X l q e w w2 →
      spec b G (create_points config (points q) s e k)
        (fun g w2 => begun config health_path X ((config_path config, g_writer g) :: l) q e w w2 ∧ ∃ h, placed (config_path config) (point_identity q e) h w2)
        (begun config health_path X l q e w) w2) as Hcreate.
    { intros G HG s k w2 Hs Hw2. eapply spec_mono; [by apply spec_create_points| |done]. intros g w3 (H1 & H2 & _). done. }
    destruct snapshot as [path|].
    - eapply spec_bind; [apply spec_attempt_any, Hcreate; done|].
      intros [g|er|] w2 H2; cbv iota; [by apply spec_ret|by apply Hcreate; [|intros [? ?]|]|done].
    - eapply spec_bind; [apply spec_attempt, Hcreate; [done|by intros [? ?]|done]|].
      intros [g|er|] w2 H2; cbv iota; [by apply spec_ret| |done]. destruct H2 as [H2 H3]. by apply spec_fail. }
  intros g w2 [Hb2 [hp Hp2]]. set (l2 := (config_path config, g_writer g) :: l) in *.
  assert (∀ l' w', (∀ x, x ∈ l → x ∈ l') → outcome config health_path X l' q e w w' → left_by config health_path X l q w w') as Hout.
  { intros l' w' Hl H. right. exists e. split; [done|by eapply outcome_weaken]. }
  eapply spec_bind; [eapply spec_mono; [by apply (spec_rest config health_path X Hpaths Hmax b F l2 q e None (health_clock q) hp w w2)|intros ? ? H; exact H|]|].
  { intros w3. apply Hout. set_solver. }
  intros h w3 (_ & _ & Hcommit).
  eapply spec_bind; [eapply spec_mono; [exact Hcommit|intros ? ? H; exact H|intros w4; apply Hout; set_solver]|].
  intros c w4 (H1 & H2 & H3 & H4 & _). apply spec_ret. cbn [fst snd]. split.
  - eapply base_weaken; [|exact H1]. unfold held, l2. cbn [points_held health_held current_points current_health]. set_solver.
  - exists e. split_and!; [done|by apply Hfr..|eapply outcome_weaken; [|exact H2]; set_solver|done|done].
Qed.

(** Publishing from a running process: its mappings may be stale. *)
Lemma spec_publish l p q w :
  F → base config health_path X (held config health_path p ++ l) w → request_ok q → witness_behind config health_path w →
  spec b F (publish_topology_generation config health_path p q)
    (fun r w' => base config health_path X (held config health_path r.2 ++ l) w' ∧ left_by config health_path X l q w w' ∧
       ∀ c, r.1 = Ok c → finished config health_path X l q w c w' ∧
         shows (config_path config) (Manifest.slot_count (points q)) (Manifest.slot_for (points q)) (point_sample (current_points p) w) w' ∧
         shows health_path (health_slot_count (channels q)) (health_slot_for (channels q)) (channel_sample (current_health p) w) w')
    (left_by config health_path X l q w) w.
Proof.
  intros HF Hb Hq Hwit. unfold publish_topology_generation. set (l0 := held config health_path p ++ l) in *.
  assert (∀ x, x ∈ l → x ∈ l0) as Hl0 by (unfold l0; set_solver).
  eapply spec_bind; [eapply spec_mono; [apply spec_attempt; by eapply spec_begin|intros ? ? H; exact H|by left]|].
  intros [[e g]|er|] w1 H1; cbv iota; [| |done].
  2: { destruct H1 as [[fs ->] _]. apply spec_ret. cbn [fst snd]. split_and!; [apply Hb..|by left; exists fs|done]. }
  destruct H1 as (Hq1 & Hfr & Hg). cbn [fst snd] in *. subst g.
  assert (∀ l' w', (∀ x, x ∈ l → x ∈ l') → outcome config health_path X l' q e w w' → left_by config health_path X l q w w') as Hout.
  { intros l' w' Hl H. right. exists e. split; [done|by eapply outcome_weaken]. }
  assert (∀ w', begun config health_path X l0 q e w w' → left_by config health_path X l q w w') as Hleft.
  { intros w' Hw'. apply (Hout l0); [done|by apply begun_outcome]. }
  pose proof (begun_start config health_path X l0 q e w w1 Hb Hq1) as Hbg. pose proof Hfr as [He _].
  eapply spec_bind; [eapply spec_mono; [apply spec_attempt, (spec_rebuild_points config health_path X Hpaths Hmax b F l0 q e (current_points p)); try done|intros ? ? H; exact H|exact Hleft]|].
  { intros g Hg. unfold l0, held. rewrite Hg. cbn. set_solver. }
  intros [g|er|] w2 H2; cbv iota; [| |done].
  2: { destruct H2 as [H2 _]. apply spec_ret. cbn [fst snd]. split_and!; [apply H2..|by apply Hleft|done]. }
  destruct H2 as (Hb2 & [hp Hp2] & Hsp & Hsame). specialize (Hsp eq_refl). set (l2 := (config_path config, g_writer g) :: l0) in *.
  cbn [current_points current_health].
  eapply spec_bind; [eapply spec_mono; [apply spec_attempt, (spec_rest config health_path X Hpaths Hmax b F l2 q e (current_health p) (health_clock q) hp w w2); try done|intros ? ? H; exact H|]|].
  { intros h Hh. unfold l2, l0, held. rewrite Hh. cbn. set_solver. }
  { intros w3. apply Hout. set_solver. }
  intros [h|er|] w3 H3; cbv iota; [| |done].
  2: { destruct H3 as [H3 _]. apply spec_ret. cbn [fst snd]. split_and!; [|by eapply Hout; [|exact H3]; set_solver|done].
       eapply base_weaken; [|apply H3]. unfold l2, l0, held. cbn [points_held current_points current_health]. set_solver. }
  destruct H3 as (Hb3 & _ & Hcommit). set (l3 := (health_path, hw_writer h) :: l2) in *.
  assert (∀ x, x ∈ held config health_path (Process (Some g) (Some h)) ++ l → x ∈ l3) as Hl3.
  { unfold l3, l2, l0, held. cbn [points_held health_held current_points current_health]. set_solver. }
  eapply spec_bind; [eapply spec_mono; [apply spec_attempt; exact Hcommit|intros ? ? H; exact H|intros w4; apply Hout; unfold l3; set_solver]|].
  intros [c|er|] w4 H4; cbv iota; [| |done]; apply spec_ret; cbn [fst snd].
  - destruct H4 as (H4 & H5 & H6 & H7 & H8 & H9). split; [by eapply base_weaken|]. split; [by eapply Hout; [|exact H5]; unfold l3; set_solver|].
    intros c' [= <-]. split; [|split].
    + exists e. split_and!; [done|by apply Hfr..|eapply outcome_weaken; [|exact H5]; unfold l3; set_solver|done|done].
    + eapply shows_path; [exact H8|]. destruct Hq1 as [fs ->]. exact Hsp.
    + destruct (current_health p) as [h0|] eqn:Hh0; [|done]. destruct H9 as (mem & Hm & Hh). exists mem. split; [done|].
      intros a slot Ha. rewrite (Hh a slot Ha). unfold channel_sample. cbn [mbind option_bind]. destruct Hq1 as [fs ->].
      by rewrite Hsame by (unfold l0, held; rewrite Hh0; cbn; set_solver).
  - destruct H4 as [H4 _]. split; [eapply base_weaken; [exact Hl3|apply H4]|]. split; [by eapply Hout; [|exact H4]; unfold l3; set_solver|done].
Qed.
End Start.
End Publication.
