(* ===== verification/Coordinated.v ===== *)
(** * Histories of the two shared-memory planes

    Any number of IO processes start, publish topologies, write values and die, with
    any call failing; readers validate the witness at any time.  A transaction is one
    step: it holds the topology lease from its begin to its end, and a reader that
    validates waits for that lease. *)

From Stdlib Require Import Ascii.
From stdpp Require Import base tactics numbers list gmap strings pretty sorting.
From S2P Require Import Prelude Text Float Outbox Slot Fs Shm Snapshot Manifest CommandSink Publication Domain.
#[local] Open Scope Z_scope.

Module Coordinated.
Import Fs Shm Publication.

Inductive event :=
| EStart (p : nat) (snapshot : option string) (fallback : clock) (q : request)
| EPublish (p : nat) (q : request)
| EOnline (p : nat) (channel : Z) (online : bool) (timestamp_ms : Z)
| EHealthBeat (p : nat) (timestamp_ms : Z)
| EPointBeat (p : nat) (timestamp_ms : Z)
| EPoint (p : nat) (slot : nat) (d : Slot.slot_data)
| EKill (p : nat).

(** The running processes, the files, the topologies that transactions asked for, and
    the witnesses they returned, latest first. *)
Record system := Sys {
  procs : gmap nat process; disk : world; asked : list request; returned : list TopologyPublicationCommit }.

(** Values of points are written by the acquisition writer and the command sink through
    a mapping of the current generation, after the path was validated. *)
Definition write_point (current : option ShmWriterGeneration) (slot : nat) (d : Slot.slot_data) : port_io unit :=
  g ← lift (ok_or current Outbox.Unavailable);
  _ ← validate_generation g;
  on_mapping (g_writer g) (fun mem =>
    match set_direct (sw_slot_count (g_writer g)) slot d mem with
    | Ok mem => (Ok tt, mem)
    | _ => (Err Outbox.Conflict, mem)
    end).
(** [ShmAcquisitionStateWriter::update_heartbeat]. *)
Definition point_heartbeat (current : option ShmWriterGeneration) (timestamp_ms : Z) : port_io unit :=
  g ← lift (ok_or current Outbox.Unavailable);
  on_mapping (g_writer g) (fun mem => (Ok tt, update_heartbeat timestamp_ms mem)).

Section System.
Context (config : ShmRuntimeConfig) (health_path : string) (X : list watched).
Local Notation point_path := (config_path config).
Local Notation commit_path := (topology_commit_path_from_shm (config_path config)).
Local Notation held := (held config health_path).
Local Notation base := (base config health_path X).
Local Notation is_plane := (is_plane config health_path).
Local Notation witness_behind := (witness_behind config health_path).
Local Notation left_by := (left_by config health_path X).

(** A call that only writes values. *)
Definition values (p : nat) (m : process → port_io unit) (fs : list fault) (y : system) : system :=
  match procs y !! p with
  | None => y
  | Some proc =>
      match m proc (with_faults fs (disk y)) with
      | (Some (Ok _), w) | (Some (Err _), w) => Sys (procs y) w (asked y) (returned y)
      | (_, w) => Sys (delete p (procs y)) w (asked y) (returned y)
      end
  end.

Definition step (y : system) (e : event * list fault) : system :=
  let '(o, fs) := e in
  let w := with_faults fs (disk y) in
  match o with
  | EStart p snapshot fallback q =>
      match start_publication config health_path snapshot fallback q w with
      | (Some (Ok (c, proc)), w) => Sys (<[p := proc]> (procs y)) w (asked y ++ [q]) (c :: returned y)
      | (_, w) => Sys (delete p (procs y)) w (asked y ++ [q]) (returned y)
      end
  | EPublish p q =>
      match procs y !! p with
      | None => y
      | Some proc =>
          match publish_topology_generation config health_path proc q w with
          | (Some (Ok (Ok c, proc)), w) => Sys (<[p := proc]> (procs y)) w (asked y ++ [q]) (c :: returned y)
          | (Some (Ok (_, proc)), w) => Sys (<[p := proc]> (procs y)) w (asked y ++ [q]) (returned y)
          | (_, w) => Sys (delete p (procs y)) w (asked y ++ [q]) (returned y)
          end
      end
  | EOnline p channel online t => values p (fun proc => set_online (current_health proc) channel online t) fs y
  | EHealthBeat p t => values p (fun proc => update_health_heartbeat (current_health proc) t) fs y
  | EPointBeat p t => values p (fun proc => point_heartbeat (current_points proc) t) fs y
  | EPoint p slot d => values p (fun proc => write_point (current_points proc) slot d) fs y
  | EKill p => Sys (delete p (procs y)) (disk y) (asked y) (returned y)
  end.

Definition run (w : world) (es : list (event * list fault)) : system := fold_left step es (Sys ∅ w [] []).

Definition event_ok (e : event * list fault) : Prop :=
  match e.1 with EStart _ _ _ q | EPublish _ q => request_ok q | _ => True end.

(** ** Writing values *)

(** The files after a value was written through a mapping. *)
Definition touched (l : list (string * SlotWriter)) (w w' : world) : Prop :=
  base l w' ∧ (∀ x, is_plane x → identity_at x w' = identity_at x w) ∧ path_bytes w' commit_path = path_bytes w commit_path.

Lemma touched_quiet l w w' : base l w → quiet w w' → touched l w w'.
Proof. intros Hb [fs ->]. by split_and!; [apply Hb..|done|done]. Qed.

Context (Hpaths : paths_ok config health_path) (b : nat).

(** The memory [mem'] is the same plane with other values. *)
Definition revalued (n : nat) (mem mem' : list Z) : Prop :=
  ∀ layout epoch, plane n layout epoch mem →
    plane n layout epoch mem' ∧ writer_generation (header_snapshot mem') = writer_generation (header_snapshot mem).

Lemma revalued_refl n mem : revalued n mem mem.
Proof. by split. Qed.

Lemma slot_set_revalued n i d mem : (i < n)%nat → revalued n mem (slot_set (slot_addr i) d mem).
Proof.
  intros Hi layout epoch Hp. pose proof (slot_addr_bound n i mem (proj1 Hp) Hi) as Ha.
  assert (header_snapshot (slot_set (slot_addr i) d mem) = header_snapshot mem) as Hh.
  { unfold header_snapshot. by rewrite !slot_set_load_other by (unfold slot_addr, slot_offset, HEADER_SIZE in *; lia). }
  split; [|by rewrite Hh]. eapply header_plane; [done| |done].
  destruct Hp as [[Hl Hok] _]. split; [by rewrite length_slot_set|by apply slot_set_ok].
Qed.

Lemma heartbeat_revalued n t mem : revalued n mem (update_heartbeat t mem).
Proof.
  intros layout epoch Hp. split; [by apply heartbeat_plane|]. pose proof (plane_long _ _ _ _ Hp).
  unfold update_heartbeat. cbn. by rewrite load_store_le_disjoint by lia.
Qed.

Lemma poked l c wr mem w :
  base l w → (c, wr) ∈ l → revalued (sw_slot_count wr) (file_bytes w (sw_ino wr)) mem →
  touched l w (with_data (<[sw_ino wr := mem]> (w_data w)) w).
Proof.
  intros (Hw & Hp & Hh & Hl & HX) Hin Hmem. destruct (Hl c wr Hin) as (Hc & _ & Hlt & Honly & l0 & e0 & Hpl).
  destruct (Hmem _ _ Hpl) as [Hpl' Hgen]. destruct Hw as ([H1 H2] & H3 & H4).
  assert (∀ i, i ≠ sw_ino wr → file_bytes (with_data (<[sw_ino wr := mem]> (w_data w)) w) i = file_bytes w i) as Hother
    by (intros i Hi; by apply file_bytes_insert_ne).
  assert (∀ n layout epoch i, plane n layout epoch (file_bytes w i) →
    plane n layout epoch (file_bytes (with_data (<[sw_ino wr := mem]> (w_data w)) w) i)) as Hplane.
  { intros n layout epoch i H. destruct (decide (i = sw_ino wr)) as [->|Hi]; [|by rewrite Hother].
    rewrite file_bytes_insert. assert (n = sw_slot_count wr) as ->; [|by apply Hmem].
    destruct H as (_ & _ & _ & Hn & _), Hpl as (_ & _ & _ & Hn' & _). rewrite Hn in Hn'. lia. }
  assert (∀ i, marked (file_bytes w i) → marked (file_bytes (with_data (<[sw_ino wr := mem]> (w_data w)) w) i)) as Hmark.
  { intros i H. destruct (decide (i = sw_ino wr)) as [->|Hi]; [|by rewrite Hother]. unfold marked. by rewrite file_bytes_insert, Hgen. }
  split_and!.
  - split_and!.
    + unfold files_ok, fs_ok. split_and!; [done| |done|].
      * cbn. intros i x Hi. apply lookup_insert_Some in Hi as [[<- _]|[_ Hi]]; [done|by eapply H2].
      * intros i. destruct (decide (i = sw_ino wr)) as [->|Hi]; [rewrite file_bytes_insert; apply Hpl'|by rewrite Hother].
    + intros i Hi. destruct (Hp i Hi) as (n & x & e & Hx & He). exists n, x, e. auto.
    + intros i Hi. destruct (Hh i Hi) as (n & x & e & Hx & He). exists n, x, e. auto.
    + intros c' wr' Hin'. destruct (Hl c' wr' Hin') as (Hc' & K1 & K2 & K3 & x & e & Hx). split; [done|]. split_and!; try done. eauto.
    + intros x Hx. destruct (HX x Hx) as (Hc' & K1 & K2 & K3 & K4). split; [done|]. split_and!; try done; [by apply Hplane|].
      cbn [w_names with_data]. destruct (x_retired x); naive_solver.
  - intros x Hx. unfold identity_at, header_at. cbn [w_names with_data]. destruct (w_names w !! x) as [i|] eqn:Hi; [|done]. cbn. f_equal.
    assert (∃ n y e, plane n y e (file_bytes w i)) as (n & y & e & Hy).
    { destruct Hx as [->| ->]; [destruct (Hp i Hi) as (n & y & e & Hy & _)|destruct (Hh i Hi) as (n & y & e & Hy & _)]; eauto. }
    rewrite (plane_identity _ _ _ _ Hy). by eapply plane_identity, Hplane.
  - apply path_bytes_data. intros Hi. apply Honly in Hi. destruct Hpaths as (_ & K1 & K2 & _). destruct Hc as [->| ->]; congruence.
Qed.

(** [f] keeps the identity of a segment. *)
Definition benign {A} (n : nat) (f : list Z → res Outbox.PortErrorKind A * list Z) : Prop :=
  ∀ mem, (f mem).1 ≠ Panic ∧ revalued n mem (f mem).2.

Lemma spec_value {A} l c wr (f : list Z → res Outbox.PortErrorKind A * list Z) w w' :
  base l w → (c, wr) ∈ l → benign (sw_slot_count wr) f → quiet w w' →
  spec b True (on_mapping wr f) (fun _ w1 => touched l w w1) (touched l w) w'.
Proof.
  intros Hb Hin Hf [fs ->] Hbud. unfold wp, on_mapping.
  pose proof (poked l c wr (f (file_bytes w (sw_ino wr))).2 w Hb Hin) as Ht.
  destruct (Hf (file_bytes w (sw_ino wr))) as [Hnp Hpl]. change (file_bytes (with_faults fs w) (sw_ino wr)) with (file_bytes w (sw_ino wr)).
  destruct (f (file_bytes w (sw_ino wr))) as [r mem]. cbn [fst snd] in *. split; [exact Hbud|].
  destruct r; [|split; [|by left]|done]; by apply Ht.
Qed.

Lemma benign_heartbeat n t : benign n (fun mem => (Ok tt, update_heartbeat t mem)).
Proof. intros mem. split; [done|apply heartbeat_revalued]. Qed.

Lemma benign_write n slot d :
  benign n (fun mem => let '(written, mem) := write_slot n slot d mem in (if written then Ok tt else Err Outbox.InvalidData, mem)).
Proof.
  intros mem. unfold write_slot. destruct (Nat.leb_spec n slot); (split; [done|]); [apply revalued_refl|by apply slot_set_revalued].
Qed.

Lemma benign_set n slot d :
  benign n (fun mem => match set_direct n slot d mem with Ok mem => (Ok tt, mem) | _ => (Err Outbox.Conflict, mem) end).
Proof.
  intros mem. unfold set_direct. destruct (Nat.ltb_spec slot n); (split; [done|]); [by apply slot_set_revalued|apply revalued_refl].
Qed.

(** Validated access to a mapping. *)
Lemma spec_validated l wr w w' w1 :
  touched l w w' → quiet w' w1 →
  spec b True (map_err managed_error (validate_authoritative_path wr)) (fun _ w2 => touched l w w2) (touched l w) w1.
Proof.
  intros Ht Hq. apply spec_map_err. eapply spec_mono; [by apply (spec_validate_any b True wr w')|by intros [] w2 [[fs ->] _]|by intros w2 [fs ->]].
Qed.

Lemma spec_leased l w w' :
  base l w → quiet w w' → spec b True (map_err managed_error acquire_read) (fun _ w1 => quiet w w1) (touched l w) w'.
Proof.
  intros Hb Hq. apply spec_map_err. eapply spec_mono; [by apply spec_nop_quiet|done|]. intros w1. by apply touched_quiet.
Qed.

(** A write that is validated, done and validated again. *)
Lemma spec_guarded {A} l c wr (f : list Z → res Outbox.PortErrorKind A * list Z) w w' :
  base l w → (c, wr) ∈ l → benign (sw_slot_count wr) f → quiet w w' →
  spec b True (_ ← map_err managed_error (validate_authoritative_path wr);
               _ ← on_mapping wr f; map_err managed_error (validate_authoritative_path wr))
    (fun _ w1 => touched l w w1) (touched l w) w'.
Proof.
  intros Hb Hin Hf Hq. eapply (spec_bind _ _ _ _ (fun _ w1 => quiet w w1)).
  - apply spec_map_err. eapply spec_mono; [by apply (spec_validate_any b True wr w)|by intros [] ? [? _]|intros w1; by apply touched_quiet].
  - intros [] w1 Hq1. eapply spec_bind; [by eapply spec_value|]. intros a w2 Ht. eapply spec_validated; [exact Ht|apply quiet_refl].
Qed.

Lemma spec_held {A} (o : option A) l w (P : A → world → Prop) (e : Outbox.PortErrorKind) :
  base l w → (∀ a, o = Some a → P a w) → spec b True (lift (ok_or o e)) P (touched l w) w.
Proof.
  intros Hb HP. apply spec_lift; [by destruct o|destruct o; [|done]; intros ? [= <-]; auto|].
  intros er _. split; [done|]. apply touched_quiet; [done|apply quiet_refl].
Qed.

Lemma spec_set_online l current channel online t w :
  base l w → (∀ h, current = Some h → (health_path, hw_writer h) ∈ l) →
  spec b True (set_online current channel online t) (fun _ w1 => touched l w w1) (touched l w) w.
Proof.
  intros Hb Hl. unfold set_online.
  eapply spec_bind; [apply (spec_held current l w (fun h w1 => w1 = w ∧ current = Some h) _ Hb); auto|]. intros h w1 [-> Hh].
  eapply spec_bind; [apply (spec_held (health_slot_for (hw_manifest h) channel) l w (fun _ w1 => w1 = w) _ Hb); auto|]. intros slot w1 ->.
  eapply spec_bind; [by apply spec_leased, quiet_refl|]. intros [] w1 Hq1. eapply spec_guarded; [done|by apply Hl| |done]. apply benign_write.
Qed.

Lemma spec_health_beat l current t w :
  base l w → (∀ h, current = Some h → (health_path, hw_writer h) ∈ l) →
  spec b True (update_health_heartbeat current t) (fun _ w1 => touched l w w1) (touched l w) w.
Proof.
  intros Hb Hl. unfold update_health_heartbeat.
  eapply spec_bind; [apply (spec_held current l w (fun h w1 => w1 = w ∧ current = Some h) _ Hb); auto|]. intros h w1 [-> Hh].
  eapply spec_bind; [by apply spec_leased, quiet_refl|]. intros [] w1 Hq1. eapply spec_guarded; [done|by apply Hl| |done]. apply benign_heartbeat.
Qed.

Lemma spec_point_beat l current t w :
  base l w → (∀ g, current = Some g → (point_path, g_writer g) ∈ l) →
  spec b True (point_heartbeat current t) (fun _ w1 => touched l w w1) (touched l w) w.
Proof.
  intros Hb Hl. unfold point_heartbeat.
  eapply spec_bind; [apply (spec_held current l w (fun g w1 => w1 = w ∧ current = Some g) _ Hb); auto|]. intros g w1 [-> Hg].
  eapply spec_value; [done|by apply Hl|apply benign_heartbeat|apply quiet_refl].
Qed.

Lemma spec_write_point l current slot d w :
  base l w → (∀ g, current = Some g → (point_path, g_writer g) ∈ l) →
  spec b True (write_point current slot d) (fun _ w1 => touched l w w1) (touched l w) w.
Proof.
  intros Hb Hl. unfold write_point, validate_generation, writer_header.
  eapply spec_bind; [apply (spec_held current l w (fun g w1 => w1 = w ∧ current = Some g) _ Hb); auto|]. intros g w1 [-> Hg].
  eapply (spec_bind _ _ _ _ (fun _ w1 => quiet w w1)); [|intros [] w1 Hq1; eapply spec_value; [done|by apply Hl|apply benign_set|done]].
  eapply (spec_bind _ _ _ _ (fun _ w1 => quiet w w1)).
  { apply spec_map_err. eapply spec_mono; [apply (spec_validate_any b True _ w); [done|apply quiet_refl]|by intros [] ? [? _]|intros w1; by apply touched_quiet]. }
  intros [] w1 Hq1. eapply (spec_bind _ _ _ _ (fun _ w2 => quiet w w2)).
  { eapply spec_bind; [apply (spec_mapping _ _ _ (fun _ w2 => quiet w w2)); done|]. intros mem w2 Hq2. by apply spec_ret. }
  intros hd w2 Hq2. apply spec_require; [done|]. intros _. split; [done|by apply touched_quiet].
Qed.

(** ** Histories *)

(** The mappings of the running processes. *)
Definition handles (m : gmap nat process) : list (string * SlotWriter) := (map_to_list m).*2 ≫= held.

Lemma handles_elem m x : x ∈ handles m ↔ ∃ p proc, m !! p = Some proc ∧ x ∈ held proc.
Proof.
  unfold handles. rewrite list_elem_of_bind. setoid_rewrite list_elem_of_fmap. split.
  - intros (proc & Hx & [p proc'] & -> & Hin). apply elem_of_map_to_list in Hin. eauto.
  - intros (p & proc & Hp & Hx). exists proc. split; [done|]. exists (p, proc). split; [done|]. by apply elem_of_map_to_list.
Qed.

Lemma handles_held m p proc : m !! p = Some proc → ∀ x, x ∈ held proc ++ handles m → x ∈ handles m.
Proof. intros Hp x [Hx|Hx]%elem_of_app; [|done]. apply handles_elem. eauto. Qed.

Lemma handles_insert m p proc x : x ∈ handles (<[p := proc]> m) → x ∈ held proc ++ handles m.
Proof.
  rewrite handles_elem, elem_of_app, handles_elem. intros (p' & proc' & [[<- <-]|[_ Hp]]%lookup_insert_Some & Hx); [by left|right; eauto].
Qed.

Lemma handles_delete m p x : x ∈ handles (delete p m) → x ∈ handles m.
Proof. rewrite !handles_elem. intros (p' & proc' & [_ Hp]%lookup_delete_Some & Hx). eauto. Qed.

(** Every epoch that a visible plane shows belongs to one topology that was asked for,
    and both planes show the layouts of that topology. *)
Definition owned (qs : list request) (w : world) : Prop :=
  ∃ owner : gmap Z request, (∀ e q, owner !! e = Some q → q ∈ qs) ∧
    (∀ i, identity_at point_path w = Some i → ∃ q, owner !! i.2 = Some q ∧ i = point_identity q i.2) ∧
    (∀ i, identity_at health_path w = Some i → ∃ q, owner !! i.2 = Some q ∧ i = health_identity q i.2).

Definition newer (c c' : TopologyPublicationCommit) : Prop := tc_epoch c' < tc_epoch c.

(** The witness on disk is not older than any that was returned. *)
Definition history (rs : list TopologyPublicationCommit) (w : world) : Prop :=
  StronglySorted newer rs ∧
  ∀ c, c ∈ rs → ∃ c0, path_bytes w commit_path = Some (encode c0) ∧ commit_ok c0 ∧ (c = c0 ∨ newer c0 c).

Definition sound (qs : list request) (rs : list TopologyPublicationCommit) (w : world) : Prop :=
  witness_behind w ∧ owned qs w ∧ history rs w.

Lemma below_identity w e : below config health_path w e →
  (∀ i, identity_at point_path w = Some i → i.2 < e) ∧ (∀ i, identity_at health_path w = Some i → i.2 < e).
Proof.
  intros [H1 H2]. unfold identity_at. split; intros i (h & Hh & ->)%fmap_Some; [by apply H1|by apply H2].
Qed.

Lemma behind_identity w bs : witness_behind w → path_bytes w commit_path = Some bs →
  ∃ c i j, bs = encode c ∧ commit_ok c ∧ identity_at point_path w = Some i ∧ tc_epoch c ≤ i.2 ∧
    identity_at health_path w = Some j ∧ tc_epoch c ≤ j.2.
Proof.
  intros H Hb. destruct (H bs Hb) as (c & hp & hh & He & Hok & Hp & Hle & Hh & Hle'). exists c, (identity hp), (identity hh).
  unfold identity_at. by rewrite Hp, Hh.
Qed.

Lemma identity_behind w :
  (∀ bs, path_bytes w commit_path = Some bs → ∃ c i j, bs = encode c ∧ commit_ok c ∧ identity_at point_path w = Some i ∧ tc_epoch c ≤ i.2 ∧
    identity_at health_path w = Some j ∧ tc_epoch c ≤ j.2) → witness_behind w.
Proof.
  intros H bs Hb. destruct (H bs Hb) as (c & i & j & He & Hok & (hp & Hp & ->)%fmap_Some & Hle & (hh & Hh & ->)%fmap_Some & Hle').
  by exists c, hp, hh.
Qed.

Lemma sound_touched l qs rs w w' : touched l w w' → sound qs rs w → sound qs rs w'.
Proof.
  intros (_ & Hi & Hc) (Hw & (owner & Ho & Hp & Hh) & Hs & Hr). split_and!.
  - apply identity_behind. intros bs. rewrite Hc, !Hi by (unfold is_plane; auto). by apply behind_identity.
  - exists owner. rewrite !Hi by (unfold is_plane; auto). done.
  - split; [done|]. by rewrite Hc.
Qed.

Lemma owned_outcome l qs q e w w' :
  fresh config health_path w e → outcome config health_path X l q e w w' → owned qs w → owned (qs ++ [q]) w'.
Proof.
  intros [_ [Hbp Hbh]%below_identity] (_ & Hp' & Hh' & _) (owner & Ho & Hp & Hh). exists (<[e := q]> owner). split_and!.
  - intros e' q' [[_ <-]|[_ H]]%lookup_insert_Some; apply elem_of_app; [right; set_solver|left; by eapply Ho].
  - intros i Hi. destruct Hp' as [Hp'|Hp']; rewrite Hp' in Hi.
    + destruct (Hp i Hi) as (q' & Hq & Hid). exists q'. split; [|done]. rewrite lookup_insert_ne; [done|]. specialize (Hbp _ Hi). lia.
    + injection Hi as <-. exists q. by rewrite lookup_insert_eq.
  - intros i Hi. destruct Hh' as [Hh'|Hh']; rewrite Hh' in Hi.
    + destruct (Hh i Hi) as (q' & Hq & Hid). exists q'. split; [|done]. rewrite lookup_insert_ne; [done|]. specialize (Hbh _ Hi). lia.
    + injection Hi as <-. exists q. by rewrite lookup_insert_eq.
Qed.

Lemma behind_outcome l q e w w' :
  fresh config health_path w e → outcome config health_path X l q e w w' → witness_behind w → witness_behind w'.
Proof.
  intros [_ [Hbp Hbh]%below_identity] (_ & Hp & Hh & Hc) Hw. apply identity_behind. intros bs Hb.
  destruct Hc as [Hc|(c & Hc & Hok & He & Hp' & Hh')].
  - rewrite Hc in Hb. destruct (behind_identity w bs Hw Hb) as (c & i & j & -> & Hok & Hi & Hle & Hj & Hle').
    specialize (Hbp i Hi). specialize (Hbh j Hj). destruct Hp as [Hp|Hp], Hh as [Hh|Hh]; rewrite Hp, Hh, ?Hi, ?Hj;
      eexists c, _, _; split_and!; try done; cbn; lia.
  - rewrite Hc in Hb. injection Hb as <-. rewrite Hp', Hh'. eexists c, _, _. split_and!; try done; cbn; lia.
Qed.

(** What was on disk is older than a fresh epoch. *)
Lemma witness_below w e c : fresh config health_path w e → witness_behind w → path_bytes w commit_path = Some (encode c) → commit_ok c → tc_epoch c < e.
Proof.
  intros [_ [Hbp _]%below_identity] Hw Hc Hok. destruct (behind_identity _ _ Hw Hc) as (c' & i & j & He & Hok' & Hi & Hle & _).
  apply encode_inj in He as <-; [|done..]. specialize (Hbp i Hi). lia.
Qed.

Lemma history_witnessed q e w w' rs c :
  fresh config health_path w e → witness_behind w → witnessed config health_path q e c w' → history rs w →
  history rs w' ∧ history (c :: rs) w'.
Proof.
  intros Hf Hw (Hc & Hok & He & _) [Hs Hr].
  assert (∀ c', c' ∈ rs → newer c c') as Hnew.
  { intros c' Hin. destruct (Hr c' Hin) as (c0 & H0 & Hok0 & Hor). pose proof (witness_below w e c0 Hf Hw H0 Hok0).
    unfold newer in *. destruct Hor as [->|]; lia. }
  split; (split; [|]).
  - done.
  - intros c' Hin. exists c. auto.
  - constructor; [done|]. by apply Forall_forall.
  - intros c' [->|Hin]%elem_of_cons; exists c; auto.
Qed.

Lemma sound_left l qs rs q w w' : left_by l q w w' → sound qs rs w → sound (qs ++ [q]) rs w'.
Proof.
  intros [[fs ->]|(e & Hf & Ho)] (Hw & Hown & Hh).
  - split_and!; [done| |apply Hh..]. destruct Hown as (owner & H1 & H2). exists owner. split; [|done]. intros e q' H. apply elem_of_app. left. eauto.
  - split_and!; [by eapply behind_outcome|by eapply owned_outcome|..]; destruct Ho as (_ & _ & _ & [Hc|[c Hc]]).
    + split; [apply Hh|]. rewrite Hc. apply Hh.
    + by eapply history_witnessed.
Qed.

Lemma sound_finished l qs rs q c w w' :
  finished config health_path X l q w c w' → sound qs rs w → sound (qs ++ [q]) (c :: rs) w'.
Proof.
  intros (e & Hf & Ho & Hc & _) (Hw & Hown & Hh). pose proof (history_witnessed _ _ _ _ _ _ Hf Hw Hc Hh) as [_ H].
  by split_and!; [eapply behind_outcome|eapply owned_outcome|apply H..].
Qed.

(** ** The invariant of the system *)

Lemma spec_result {E A} (m : io E A) (P : A → world → Prop) (I : world → Prop) w :
  (∀ b, spec b True m P I w) →
  match m w with
  | (Some (Ok a), w') => P a w'
  | (Some Panic, _) => False
  | (_, w') => I w'
  end.
Proof.
  intros H. specialize (H (budget w) (Nat.le_refl _)). unfold wp in H. destruct (m w) as [[[a|e|]|] w']; [apply H|apply H|apply H|done].
Qed.

Definition inv (y : system) : Prop := base (handles (procs y)) (disk y) ∧ sound (asked y) (returned y) (disk y).

Lemma inv_start w :
  files_ok w → (∀ x, x ∈ [point_path; health_path; commit_path] → w_names w !! x = None) → X = [] →
  inv (Sys ∅ w [] []).
Proof.
  intros Hw Hn HX. assert (w_names w !! point_path = None) as Hp by (apply Hn; set_solver).
  assert (w_names w !! health_path = None) as Hh by (apply Hn; set_solver).
  assert (w_names w !! commit_path = None) as Hc by (apply Hn; set_solver).
  split; [|unfold sound; split_and!]; cbn [procs disk asked returned].
  - split_and!; [done|intros i; by rewrite Hp|intros i; by rewrite Hh| |intros x; rewrite HX; by intros ?%elem_of_nil]. intros c wr Hin%handles_elem. naive_solver.
  - intros bs. unfold path_bytes. by rewrite Hc.
  - exists ∅. unfold identity_at, header_at. rewrite Hp, Hh. by split_and!.
  - split; [constructor|]. by intros c Hin%elem_of_nil.
Qed.

Lemma inv_values p m fs y :
  (∀ proc b w, procs y !! p = Some proc → base (handles (procs y)) w →
     spec b True (m proc) (fun _ w1 => touched (handles (procs y)) w w1) (touched (handles (procs y)) w) w) →
  inv y → inv (values p m fs y).
Proof.
  intros Hm [Hb Hs]. unfold values. destruct (procs y !! p) as [proc|] eqn:Hp; [|done].
  pose proof (spec_result (m proc) _ _ (with_faults fs (disk y)) (fun b => Hm proc b (with_faults fs (disk y)) eq_refl Hb)) as H.
  assert (∀ w, touched (handles (procs y)) (with_faults fs (disk y)) w → inv (Sys (procs y) w (asked y) (returned y)) ∧
    inv (Sys (delete p (procs y)) w (asked y) (returned y))) as Hgo.
  { intros w Ht. pose proof (sound_touched _ _ _ _ _ Ht Hs) as Hs'. split; (split; [|done]); [apply Ht|].
    eapply base_weaken; [apply handles_delete|apply Ht]. }
  destruct (m proc (with_faults fs (disk y))) as [[[a|e|]|] w']; [by apply Hgo|by apply Hgo|done|by apply Hgo].
Qed.
End System.

(** ** Runs without faults *)

Lemma calm_memory {E A} (m : io E A) : (∀ w, (m w).1 ≠ None ∧ w_faults (m w).2 = w_faults w) → calm m.
Proof. intros H w Hb. destruct (H w) as [H1 H2]. split; [done|]. unfold budget. by rewrite H2. Qed.

Lemma calm_map_err {E E' A} (f : E → E') (m : io E A) : calm m → calm (map_err f m).
Proof. intros H w Hb. specialize (H w Hb). unfold map_err. destruct (m w) as [[[]|] w'], H as [H1 H2]; by split. Qed.

Lemma calm_on_mapping {A} wr (f : list Z → res Outbox.PortErrorKind A * list Z) : calm (on_mapping wr f).
Proof. apply calm_memory. intros w. unfold on_mapping. by destruct (f _). Qed.

Lemma calm_check c : calm (check c).
Proof. by destruct c. Qed.

Lemma calm_require c e : calm (require c e).
Proof. by destruct c. Qed.

Ltac calm_step := first
  [ apply calm_check | apply calm_require | apply calm_map_err | apply calm_on_mapping
  | apply calm_bind; [|intros ?] | apply calm_ret | apply calm_lift | apply calm_fail | apply calm_attempt
  | apply calm_syscall; intros ?; cbn; repeat case_match; done | apply calm_memory; intros ?; done | case_match ].
Ltac calm_io := repeat calm_step.

Lemma calm_create path n layout epoch wall sequence : calm (create path n layout epoch wall sequence).
Proof. unfold create, check, from_mmap_with_file. calm_io. Qed.

Lemma calm_reader_open path : calm (reader_open path).
Proof. unfold reader_open, check. calm_io. Qed.

Lemma calm_open_existing path n layout : calm (open_existing path n layout).
Proof. unfold open_existing, check, from_mmap_with_file. calm_io. Qed.

Lemma calm_swap staging canonical g previous : calm (publish_swap staging canonical g previous).
Proof.
  unfold publish_swap, begin_generation_swap, drop_invalidation, commit_generation_swap_locked, validate_authoritative_path, check. calm_io.
Qed.

Lemma calm_replacement path g : calm (open_canonical_for_replacement path g).
Proof.
  unfold open_canonical_for_replacement, validate_authoritative_path, check.
  repeat first [ apply calm_reader_open | apply calm_open_existing | calm_step ].
Qed.

Lemma calm_publish_plane err canonical n layout epoch k fill g previous :
  (∀ wr, calm (fill wr)) → calm (publish_plane err canonical n layout epoch k fill g previous).
Proof.
  intros Hf. unfold publish_plane. cbv zeta.
  repeat first [ apply calm_create | apply calm_swap | apply calm_replacement | apply calm_open_existing | apply Hf | calm_step ].
Qed.

Lemma calm_create_points config manifest snapshot epoch k : calm (create_points config manifest snapshot epoch k).
Proof.
  unfold create_points, publish_generation, compose, validate_generation, writer_header, validate_authoritative_path, acquire_write, require, check.
  repeat first [ apply calm_publish_plane; intros ?; unfold fill_points, restore_snapshot, Snapshot.load | calm_step ].
Qed.

Lemma calm_rebuild_health path current manifest epoch k : calm (rebuild_health path current manifest epoch k).
Proof.
  unfold rebuild_health, publish_health_writer, writer_header, validate_authoritative_path, acquire_write, require, check.
  repeat first [ apply calm_publish_plane; intros ?; unfold fill_health | calm_step ].
Qed.

Lemma calm_open_plane path : calm (open_plane path).
Proof. unfold open_plane. repeat first [ apply calm_reader_open | calm_step ]. Qed.

Lemma calm_read_commit path : calm (read_topology_publication_commit path).
Proof. unfold read_topology_publication_commit. calm_io. Qed.

Lemma calm_commit p health_path epoch : calm (commit p health_path epoch).
Proof.
  unfold commit, commit_topology_publication_under_guard, acquire_authority_pair, acquire_read, write_witness, require. cbv zeta.
  repeat first [ apply calm_open_plane | apply calm_read_commit | calm_step ].
Qed.

Lemma calm_next_epoch p health_path : calm (next_publication_epoch p health_path).
Proof.
  unfold next_publication_epoch, acquire_authority_pair, acquire_read, observed_plane_epoch.
  repeat first [ apply calm_open_plane | apply calm_read_commit | calm_step ].
Qed.

Lemma calm_start config health_path snapshot fallback q : calm (start_publication config health_path snapshot fallback q).
Proof.
  unfold start_publication, begin_topology_publication, acquire_write.
  repeat first [ apply calm_next_epoch | apply calm_create_points | apply calm_rebuild_health | apply calm_commit | calm_step ].
Qed.

Lemma calm_validate point_path health_path ph pn hh hn : calm (validate_topology_publication point_path health_path ph pn hh hn).
Proof.
  unfold validate_topology_publication, validate_topology_publication_locked, acquire_authority_pair, acquire_read, require.
  repeat first [ apply calm_open_plane | apply calm_read_commit | calm_step ].
Qed.

(** A calm operation whose only failures are faults succeeds without them. *)
Lemma spec_calm {E A} (m : io E A) (P : A → world → Prop) (I : world → Prop) w :
  budget w = 0%nat → calm m → spec 0 False m P I w → ∃ a w', m w = (Some (Ok a), w') ∧ P a w' ∧ budget w' = 0%nat.
Proof.
  intros Hb Hc Hs. destruct (Hc w Hb) as [Hl Hb']. specialize (Hs ltac:(lia)). unfold wp in Hs.
  destruct (m w) as [[[a|e|]|] w']; [|..|done]; destruct Hs as [_ Hs]; [eauto|destruct Hs as [_ [?|?]]; [done|lia]|done].
Qed.

Section Runs.
Context (config : ShmRuntimeConfig) (health_path : string) (X : list watched).
Context (Hpaths : paths_ok config health_path) (Hmax : Z.of_nat (max_slots config) ≤ u_max 32).
Local Notation inv := (inv config health_path X).
Local Notation handles := (handles config health_path).
Local Notation base := (base config health_path X).

Lemma inv_lost p q y w' :
  inv y → base (handles (procs y)) w' → left_by config health_path X (handles (procs y)) q (disk y) w' →
  inv (Sys (delete p (procs y)) w' (asked y ++ [q]) (returned y)).
Proof. intros [_ Hs] Hb Hl. split; [eapply base_weaken; [apply handles_delete|done]|by eapply sound_left]. Qed.

Lemma inv_kept p q y proc rs w' :
  base (held config health_path proc ++ handles (procs y)) w' → sound config health_path (asked y ++ [q]) rs w' →
  inv (Sys (<[p := proc]> (procs y)) w' (asked y ++ [q]) rs).
Proof. intros Hb Hs. split; [|done]. eapply base_weaken; [apply handles_insert|done]. Qed.

Lemma left_base l q w w' : base l w → left_by config health_path X l q w w' → base l w'.
Proof. intros Hb [[fs ->]|(e & _ & Ho)]; [done|apply Ho]. Qed.

Lemma system_step y e : event_ok e → inv y → inv (step config health_path y e).
Proof.
  intros He Hy. pose proof Hy as [Hb Hs]. destruct e as [o fs]. unfold step.
  destruct o as [p snapshot fallback q|p q|p channel online t|p t|p t|p slot d|p]; cbn in He.
  - pose proof (spec_result _ _ _ (with_faults fs (disk y)) (fun b => spec_start config health_path X b True Hpaths Hmax
      (handles (procs y)) snapshot fallback q (with_faults fs (disk y)) Hb He (proj1 Hs) (fun _ => I) (fun _ => I))) as H.
    destruct (start_publication _ _ _ _ _ _) as [[[[c proc]|er|]|] w'].
    + destruct H as [H1 H2]. cbn [fst snd] in *. apply inv_kept; [done|]. by eapply sound_finished.
    + apply inv_lost; [done|by eapply left_base|done].
    + done.
    + apply inv_lost; [done|by eapply left_base|done].
  - destruct (procs y !! p) as [proc|] eqn:Hp; [|done].
    assert (base (held config health_path proc ++ handles (procs y)) (with_faults fs (disk y))) as Hb'
      by (eapply base_weaken; [by eapply handles_held|done]).
    pose proof (spec_result _ _ _ (with_faults fs (disk y)) (fun b => spec_publish config health_path X b True Hpaths Hmax
      (handles (procs y)) proc q (with_faults fs (disk y)) I Hb' He (proj1 Hs))) as H.
    destruct (publish_topology_generation _ _ _ _ _) as [[[[r proc']|er|]|] w'].
    + destruct H as (H1 & H2 & H3). cbn [fst snd] in *.
      assert (inv (Sys (<[p := proc']> (procs y)) w' (asked y ++ [q]) (returned y))) as Hold
        by (apply inv_kept; [done|by eapply sound_left]).
      destruct r as [c| |]; [|done|done]. apply inv_kept; [done|]. eapply sound_finished; [exact Hpaths|exact (proj1 (H3 c eq_refl))|exact Hs].
    + apply inv_lost; [done|by eapply left_base|done].
    + done.
    + apply inv_lost; [done|by eapply left_base|done].
  - apply inv_values; [|done]. intros proc b w Hp Hw. apply spec_set_online; [done|done|]. intros h Hh. apply handles_elem. exists p, proc.
    split; [done|]. unfold held. rewrite Hh. cbn. set_solver.
  - apply inv_values; [|done]. intros proc b w Hp Hw. apply spec_health_beat; [done|done|]. intros h Hh. apply handles_elem. exists p, proc.
    split; [done|]. unfold held. rewrite Hh. cbn. set_solver.
  - apply inv_values; [|done]. intros proc b w Hp Hw. apply spec_point_beat; [done|done|]. intros h Hh. apply handles_elem. exists p, proc.
    split; [done|]. unfold held. rewrite Hh. cbn. set_solver.
  - apply inv_values; [|done]. intros proc b w Hp Hw. apply spec_write_point; [done|done|]. intros h Hh. apply handles_elem. exists p, proc.
    split; [done|]. unfold held. rewrite Hh. cbn. set_solver.
  - split; [eapply base_weaken; [apply handles_delete|done]|done].
Qed.

Lemma system_steps es y : Forall event_ok es → inv y → inv (fold_left (step config health_path) es y).
Proof.
  intros Hes. revert y. induction Hes as [|e es He Hes IH]; intros y Hy; cbn [fold_left]; [done|]. by apply IH, system_step.
Qed.
End Runs.

Section Histories.
Context (config : ShmRuntimeConfig) (health_path : string).
Context (Hpaths : paths_ok config health_path) (Hmax : Z.of_nat (max_slots config) ≤ u_max 32).
Local Notation inv := (inv config health_path []).
Local Notation handles := (handles config health_path).
Local Notation base := (base config health_path []).

(** The three names do not exist before the first start. *)
Definition blank (w : world) : Prop :=
  files_ok w ∧ ∀ x, x ∈ [config_path config; health_path; topology_commit_path_from_shm (config_path config)] → w_names w !! x = None.

Lemma inv_run w es : blank w → Forall event_ok es → inv (run config health_path w es).
Proof. intros [Hw Hn] Hes. apply system_steps; [done|done|done|]. by apply inv_start. Qed.

(** ** Validation *)

Section Validation.
Context (b : nat) (F : Prop).

Lemma spec_open_any c w w' :
  F → good c w → quiet w w' →
  spec b F (open_plane c) (fun h w1 => header_at c w = Some h ∧ quiet w w1) (quiet w) w'.
Proof.
  intros HF Hg Hq. destruct (w_names w !! c) as [i|] eqn:Hi.
  - destruct (Hg i Hi) as (n & l & e & Hp & He). eapply spec_mono; [eapply spec_open_plane; [done|done|apply He|done]| |done].
    intros h w1 [-> Hq1]. unfold header_at. by rewrite Hi.
  - unfold open_plane, reader_open. eapply (spec_bind _ _ _ _ (fun _ _ => False)); [|done]. apply spec_map_err.
    eapply (spec_bind _ _ _ _ (fun _ _ => False)); [|done]. apply spec_call; [done| |intros ? fs; by apply quiet_trans].
    intros fs _. destruct Hq as [fs' ->]. cbn. rewrite Hi. split_and!; [done|done|by exists fs].
Qed.

(** What a reader that accepts the planes has seen. *)
Definition accepted (ph : Z) (pn : nat) (hh : Z) (hn : nat) (w : world) (c : TopologyPublicationCommit) : Prop :=
  ∃ p h, header_at (config_path config) w = Some p ∧ header_at health_path w = Some h ∧
    layout_hash p = ph ∧ Z.to_nat (slot_count p) = pn ∧ layout_hash h = hh ∧ Z.to_nat (slot_count h) = hn ∧
    path_bytes w (topology_commit_path_from_shm (config_path config)) = Some (encode c) ∧ commit_ok c ∧ matches_readers c p h = true.

Lemma spec_leases w w' : quiet w w' →
  spec b F (_ ← map_err managed_error acquire_read; acquire_authority_pair) (fun _ w1 => quiet w w1) (quiet w) w'.
Proof.
  intros Hq. eapply spec_bind; [apply spec_map_err; by apply spec_nop_quiet|]. intros [] w1 Hq1. unfold acquire_authority_pair.
  eapply spec_bind; [apply spec_map_err; by apply spec_nop_quiet|]. intros [] w2 Hq2. apply spec_map_err. by apply spec_nop_quiet.
Qed.

Lemma spec_validate_locked l ph pn hh hn w w' :
  F → base l w → witness_ok config w → quiet w w' →
  spec b F (validate_topology_publication_locked (config_path config) health_path ph pn hh hn)
    (fun c w1 => quiet w w1 ∧ accepted ph pn hh hn w c) (quiet w) w'.
Proof.
  intros HF (_ & Hp & Hh & _) Hwit Hq1. unfold validate_topology_publication_locked.
  eapply spec_bind; [by apply spec_open_any|]. intros p w2 [Ep Hq2].
  eapply spec_bind; [by apply spec_open_any|]. intros h w3 [Eh Hq3].
  eapply (spec_bind _ _ _ _ (fun _ w4 => quiet w w4 ∧ layout_hash p = ph ∧ Z.to_nat (slot_count p) = pn ∧ layout_hash h = hh ∧ Z.to_nat (slot_count h) = hn)).
  { apply spec_require; [|done]. intros ?; bool_to_prop. naive_solver. }
  intros [] w4 (Hq4 & H1 & H2 & H3 & H4).
  pose proof (spec_read_witness config b F w w4 Hwit Hq4) as Hread.
  eapply (spec_bind _ _ _ _ (fun c w5 => quiet w w5 ∧ path_bytes w (topology_commit_path_from_shm (config_path config)) = Some (encode c) ∧ commit_ok c)).
  { intros Hbud. specialize (Hread Hbud). unfold wp, attempt in *.
    destruct (read_topology_publication_commit (config_path config) w4) as [[[c|e|]|] w5]; [|..|done]; destruct Hread as (Hle & Hq5 & Hr & Hc); [|..|done].
    - split_and!; [done|done|by apply Hc..].
    - split_and!; [done|done|by left]. }
  intros c w5 (Hq5 & Hc & Hok). eapply (spec_bind _ _ _ _ (fun _ w6 => quiet w w6 ∧ matches_readers c p h = true)); [by apply spec_require|].
  intros [] w6 [Hq6 Hm]. apply spec_ret. split; [done|]. by exists p, h.
Qed.

Lemma spec_validate l ph pn hh hn w w' :
  F → base l w → witness_ok config w → quiet w w' →
  spec b F (validate_topology_publication (config_path config) health_path ph pn hh hn)
    (fun c w1 => quiet w w1 ∧ accepted ph pn hh hn w c) (quiet w) w'.
Proof.
  intros HF Hb Hwit Hq. unfold validate_topology_publication. apply spec_assoc.
  eapply spec_bind; [by apply spec_leases|]. intros [] w1 Hq1. by eapply spec_validate_locked.
Qed.

(** A reader that expects the topology just published accepts it. *)
Lemma spec_validate_finished l q w0 c w w' :
  base l w → finished config health_path [] l q w0 c w → quiet w w' →
  spec b F (validate_topology_publication (config_path config) health_path (Manifest.layout_hash (points q)) (Manifest.slot_count (points q))
              (health_layout_hash (channels q)) (health_slot_count (channels q)))
    (fun c' w1 => c' = c ∧ quiet w w1) (quiet w) w'.
Proof.
  intros (_ & Hgp & Hgh & _) (e & [(He & _) _] & _ & (Hc & Hok & Hec & Hp & Hh) & p & h & Ep & Eh & Heq) Hq.
  unfold identity_at in Hp, Hh. rewrite Ep in Hp. rewrite Eh in Hh. injection Hp as P1 P2 P3. injection Hh as Q1 Q2 Q3.
  unfold validate_topology_publication. apply spec_assoc.
  eapply spec_bind; [by apply spec_leases|]. intros [] w1 Hq1. unfold validate_topology_publication_locked.
  destruct (header_open _ _ _ Hgp Ep) as (i & n & la & ep & Hi & Hpl & Hne & Epp).
  destruct (header_open _ _ _ Hgh Eh) as (j & m & lb & eh & Hj & Hpl' & Hne' & Ehh).
  eapply spec_bind; [by eapply spec_open_plane|]. intros p' w2 [-> Hq2]. rewrite <- Epp.
  eapply spec_bind; [by eapply spec_open_plane|]. intros h' w3 [-> Hq3]. rewrite <- Ehh.
  eapply (spec_bind _ _ _ _ (fun _ w4 => quiet w w4)).
  { apply spec_require; [done|]. rewrite P1, P2, Q1, Q2, !Nat2Z.id, !Z.eqb_refl, !Nat.eqb_refl. done. }
  intros [] w4 Hq4. eapply spec_bind; [by eapply spec_read_commit|]. intros c' w5 [-> Hq5].
  eapply (spec_bind _ _ _ _ (fun _ w6 => quiet w w6)); [|intros [] w6 Hq6; by apply spec_ret].
  apply spec_require; [done|]. unfold matches_readers. rewrite Heq. unfold witness_of. cbn.
  rewrite P3, Q3, !Z.eqb_refl. by rewrite (proj2 (Z.eqb_neq _ _) He).
Qed.
End Validation.

(** ** Properties *)

(** What a reader sees belongs to one topology. *)
Lemma accepted_owned qs ph pn hh hn w c :
  owned config health_path qs w → accepted ph pn hh hn w c →
  ∃ q, q ∈ qs ∧ ph = Manifest.layout_hash (points q) ∧ pn = Manifest.slot_count (points q) ∧
    hh = health_layout_hash (channels q) ∧ hn = health_slot_count (channels q).
Proof.
  intros (owner & Ho & Hp & Hh) (p & h & Ep & Eh & <- & <- & <- & <- & _ & _ & Hm).
  destruct (Hp (identity p)) as (q & Hq & P); [unfold identity_at; by rewrite Ep|].
  destruct (Hh (identity h)) as (q' & Hq' & Q); [unfold identity_at; by rewrite Eh|].
  unfold matches_readers in Hm. bool_to_prop. unfold identity in *; cbn [snd] in *.
  assert (publication_epoch h = publication_epoch p) as He by congruence. rewrite He in Hq'. simplify_eq.
  injection P as P1 P2. injection Q as Q1 Q2. exists q. rewrite P1, P2, Q1, Q2, !Nat2Z.id. split; [by eapply Ho|done].
Qed.

(** C4. Processes start, publish topologies, write values and die in any order, with any
    system call failing or the process dying there.  The epochs of the witnesses that
    transactions return increase.  A reader that validates the two planes at any time,
    under any faults, accepts them only when the point layout and the health layout it
    expects are those of one topology that was asked for, and the witness it returns is
    not older than any witness returned before. *)
Theorem publication_coherent w es :
  blank w → Forall event_ok es →
  let y := run config health_path w es in
  StronglySorted newer (returned y) ∧
  ∀ fs ph pn hh hn c w',
    validate_topology_publication (config_path config) health_path ph pn hh hn (with_faults fs (disk y)) = (Some (Ok c), w') →
    (∃ q, q ∈ asked y ∧ ph = Manifest.layout_hash (points q) ∧ pn = Manifest.slot_count (points q) ∧
       hh = health_layout_hash (channels q) ∧ hn = health_slot_count (channels q)) ∧
    ∀ c', c' ∈ returned y → c' = c ∨ newer c c'.
Proof.
  intros Hw Hes y. pose proof (inv_run w es Hw Hes : inv y) as (Hb & Hwit & Hown & Hs & Hr). split; [done|].
  intros fs ph pn hh hn c w' E.
  pose proof (spec_result _ _ _ (with_faults fs (disk y)) (fun b => spec_validate b True _ ph pn hh hn (disk y) (with_faults fs (disk y)) I Hb
    (witness_behind_ok _ _ _ Hwit) (ex_intro _ fs eq_refl))) as H. rewrite E in H. destruct H as [_ Ha].
  split; [by eapply accepted_owned|]. intros c' Hin. destruct (Hr c' Hin) as (c0 & H0 & Hok0 & Hor).
  destruct Ha as (p & h & _ & _ & _ & _ & _ & _ & Hc & Hok & _). rewrite Hc in H0. apply (inj Some) in H0.
  by apply encode_inj in H0 as <-.
Qed.

(** C5. Whatever earlier processes left behind, a start that meets no fault, whose points
    fit the configured capacity and whose epochs are not exhausted, publishes: it
    returns a witness, and a reader that expects the layouts of the request validates
    both planes and gets that witness. *)
Theorem restart_publishes w es snapshot fallback q :
  blank w → Forall event_ok es → request_ok q → (Manifest.slot_count (points q) ≤ max_slots config)%nat →
  let y := run config health_path w es in
  ¬ exhausted config health_path (disk y) →
  ∃ c proc w', start_publication config health_path snapshot fallback q (with_faults [] (disk y)) = (Some (Ok (c, proc)), w') ∧
    ∃ w'', validate_topology_publication (config_path config) health_path (Manifest.layout_hash (points q)) (Manifest.slot_count (points q))
             (health_layout_hash (channels q)) (health_slot_count (channels q)) w' = (Some (Ok c), w'').
Proof.
  intros Hw Hes Hq Hcap y Hex. pose proof (inv_run w es Hw Hes : inv y) as (Hb & Hwit & _).
  destruct (spec_calm (start_publication config health_path snapshot fallback q) _ _ (with_faults [] (disk y)) eq_refl (calm_start _ _ _ _ _)
    (spec_start config health_path [] 0 False Hpaths Hmax _ snapshot fallback q (with_faults [] (disk y)) Hb Hq Hwit Hex
      ltac:(unfold validate_capacity; by rewrite (proj2 (Nat.leb_le _ _) Hcap)))) as ([c proc] & w' & E & [Hb' Hf] & Hbud).
  exists c, proc, w'. split; [done|]. cbn [fst snd] in *.
  destruct (spec_calm _ _ _ w' Hbud (calm_validate _ _ _ _ _ _)
    (spec_validate_finished 0 False _ q _ c w' w' (base_weaken _ _ _ _ _ _ (fun x Hx => proj2 (elem_of_app _ _ x) (or_intror Hx)) Hb') Hf (quiet_refl w')))
    as (c' & w'' & E' & [-> _] & _). eauto.
Qed.

(** C6. A running process that publishes a new topology carries the live state over:
    when it returns a witness, every point and every channel of the new topology reads,
    in the planes now visible, as the committed sample the process's mapping held for
    the same address, or as unwritten when it held none. *)
Theorem publication_carries w es p proc q fs c proc' w' :
  blank w → Forall event_ok es → request_ok q →
  let y := run config health_path w es in
  procs y !! p = Some proc →
  publish_topology_generation config health_path proc q (with_faults fs (disk y)) = (Some (Ok (Ok c, proc')), w') →
  shows (config_path config) (Manifest.slot_count (points q)) (Manifest.slot_for (points q)) (point_sample (current_points proc) (disk y)) w' ∧
  shows health_path (health_slot_count (channels q)) (health_slot_for (channels q)) (channel_sample (current_health proc) (disk y)) w'.
Proof.
  intros Hw Hes Hq y Hp E. pose proof (inv_run w es Hw Hes : inv y) as (Hb & Hwit & _).
  assert (base (held config health_path proc ++ handles (procs y)) (with_faults fs (disk y))) as Hb'
    by (eapply base_weaken; [by eapply handles_held|done]).
  pose proof (spec_result _ _ _ (with_faults fs (disk y)) (fun b => spec_publish config health_path [] b True Hpaths Hmax
    (handles (procs y)) proc q (with_faults fs (disk y)) I Hb' Hq Hwit)) as H. rewrite E in H.
  destruct H as (_ & _ & H). destruct (H c eq_refl) as (_ & H1 & H2). done.
Qed.
End Histories.

Module Sample.
Definition live : string := "/dev/shm/aether-live-state.shm".
Definition config : ShmRuntimeConfig := RuntimeConfig live 8.
Definition health : string := channel_health_path_from_shm live.
Definition k : clock := Clock 1000 2000 1.

Definition first : request := Request Manifest.sample_manifest (HealthManifest [7; 9] 5) k k.
Definition second : request :=
  Request (Manifest.MkManifest [Manifest.PhysicalPoint 7 Domain.Telemetry 9; Manifest.PhysicalPoint 8 Domain.Telemetry 1] [0; 1]%nat 2 77)
    (HealthManifest [7; 8] 6) k k.
Definition reading : Slot.slot_data := Slot.SlotData (Float.to_bits Float.one) (Float.to_bits Float.one) 900 0.
(** A start and two values; then the process dies between the two planes of the second
    topology. *)
Definition life : list (event * list fault) :=
  [(EStart 0 None k first, []); (EPoint 0 1 reading, []); (EOnline 0 7 true 1000, [])].
Definition torn : list (event * list fault) := life ++ [(EPublish 0 second, replicate 30 FOk ++ [FCrash 0])].
Definition restarted : list (event * list fault) := torn ++ [(EStart 1 None k second, [])].
Definition blank_world : world := World ∅ ∅ 0 [].

Lemma paths : paths_ok config health.
Proof.
  assert (∀ g : Z, pretty g +:+ ".shm" ≠ "health.shm") as Hg.
  { intros g H. apply (f_equal (lacks "e")) in H. rewrite lacks_app, pretty_Z_lacks in H; [done|].
    split; [|done]. intros d. unfold pretty_N_char. by repeat case_match. }
  unfold paths_ok. split_and!; [done..|]. intros x Hx.
  repeat (apply elem_of_cons in Hx as [->|Hx]); [..|by apply elem_of_nil in Hx].
  all: split; [done|]; intros g; split; unfold generation_file_path; cbn; intros H; simplify_eq; by eapply Hg.
Qed.

Lemma starts_blank : blank config health blank_world.
Proof.
  split; [split_and!|]; [split; done|done|intros i; constructor|done].
Qed.

Definition expects (q : request) (w : world) : option (res Outbox.PortErrorKind TopologyPublicationCommit) :=
  (validate_topology_publication live health (Manifest.layout_hash (points q)) (Manifest.slot_count (points q))
     (health_layout_hash (channels q)) (health_slot_count (channels q)) w).1.
Definition epoch_of (r : option (res Outbox.PortErrorKind TopologyPublicationCommit)) : option Z :=
  match r with Some (Ok c) => Some (tc_epoch c) | _ => None end.

(** Between the planes neither topology is accepted; before and after, exactly one is. *)
Example torn_run :
  map (fun es => let w := disk (run config health blank_world es) in (epoch_of (expects first w), epoch_of (expects second w))) [life; torn; restarted] =
  [(Some 1, None); (None, None); (None, Some 3)] ∧
  map tc_epoch (returned (run config health blank_world restarted)) = [3; 1].
Proof. by vm_compute. Qed.

(** An I/O error after the rename of a plane leaves the process with the replaced mapping:
    all its later publications fail, until a process starts. *)
Definition wedged : list (event * list fault) := life ++ [(EPublish 0 second, replicate 24 FOk ++ [FErr 0])].
Example publications_fail_after_rename :
  map (fun es => let y := run config health blank_world es in (map tc_epoch (returned y), epoch_of (expects first (disk y)), epoch_of (expects second (disk y))))
    [wedged; wedged ++ [(EPublish 0 second, [])]; wedged ++ [(EPublish 0 second, []); (EPublish 0 first, [])]; wedged ++ [(EStart 1 None k second, [])]] =
  [([1], None, None); ([1], None, None); ([1], None, None); ([3; 1], None, Some 3)].
Proof. by vm_compute. Qed.

Lemma second_compiled : Manifest.compile (fun _ _ _ => 77) (Manifest.points_by_address (points second)) 8 = Ok (points second).
Proof. by vm_compute. Qed.

Lemma first_ok : request_ok first.
Proof.
  split_and!; [|by apply (bool_decide_unpack _); vm_compute|done..]. eapply (Manifest.compile_ok _ Manifest.sample_addresses 8), Manifest.compile_bijective_witness.
Qed.
Lemma second_ok : request_ok second.
Proof.
  split_and!; [|by apply (bool_decide_unpack _); vm_compute|done..]. eapply Manifest.compile_ok, second_compiled.
Qed.

Lemma events_ok : Forall event_ok life ∧ Forall event_ok torn ∧ Forall event_ok restarted.
Proof.
  assert (Forall event_ok life) as H1 by (apply Forall_cons; split; [exact first_ok|]; by apply Forall_cons; split; [|apply Forall_singleton]).
  assert (Forall event_ok torn) as H2 by (apply Forall_app; split; [done|]; apply Forall_singleton; exact second_ok).
  split_and!; [done|done|]. apply Forall_app. split; [done|]. apply Forall_singleton. exact second_ok.
Qed.

Lemma returned_ok {E A} (r : option (res E A) * world) :
  match r.1 with Some (Ok _) => true | _ => false end = true → ∃ a w', r = (Some (Ok a), w').
Proof. destruct r as [[[a|?|]|] w']; [eauto|done..]. Qed.

Lemma published_ok {E E' A B} (r : option (res E (res E' A * B)) * world) :
  match r.1 with Some (Ok (Ok _, _)) => true | _ => false end = true → ∃ a b w', r = (Some (Ok (Ok a, b)), w').
Proof. destruct r as [[[[[a|?|] b]|?|]|] w']; [eauto|done..]. Qed.

Lemma publication_coherent_witness :
  let y := run config health blank_world restarted in
  StronglySorted newer (returned y) ∧ map tc_epoch (returned y) = [3; 1] ∧
  ∃ c w', validate_topology_publication live health 77 2 6 2 (with_faults [] (disk y)) = (Some (Ok c), w') ∧
    ∀ c', c' ∈ returned y → c' = c ∨ newer c c'.
Proof.
  intros y. destruct (publication_coherent config health paths ltac:(done) blank_world restarted starts_blank (proj2 (proj2 events_ok))) as [H1 H2].
  split; [exact H1|]. split; [by vm_compute|].
  assert (match (validate_topology_publication live health 77 2 6 2 (with_faults [] (disk y))).1 with Some (Ok _) => true | _ => false end = true) as V
    by by vm_compute.
  destruct (returned_ok (validate_topology_publication live health 77 2 6 2 (with_faults [] (disk y))) V) as (c & w' & E). exists c, w'. split; [exact E|]. exact (proj2 (H2 [] 77 2%nat 6 2%nat c w' E)).
Defined.

Lemma torn_not_exhausted : ¬ exhausted config health (disk (run config health blank_world torn)).
Proof.
  intros (e & He & H).
  assert (publication_epoch <$> header_at live (disk (run config health blank_world torn)) = Some 2) as H1 by by vm_compute.
  assert (publication_epoch <$> header_at health (disk (run config health blank_world torn)) = Some 1) as H2 by by vm_compute.
  assert ((fun bs => match decode bs with Ok c => tc_epoch c | _ => 0 end) <$>
    path_bytes (disk (run config health blank_world torn)) (topology_commit_path_from_shm live) = Some 1) as H3 by by vm_compute.
  change (u_max 64 - 1) with 18446744073709551614 in He. cbn [config_path config] in H. destruct H as [(h & Hh & <-)|[(h & Hh & <-)|(c & [Hc Hok] & <-)]].
  - rewrite Hh in H1. injection H1 as H1. lia.
  - rewrite Hh in H2. injection H2 as H2. lia.
  - rewrite Hc in H3. cbn [fmap option_fmap option_map] in H3. rewrite decode_witness in H3 by done. apply (inj Some) in H3. lia.
Qed.

Lemma restart_publishes_witness :
  ∃ c proc w', start_publication config health None k second (with_faults [] (disk (run config health blank_world torn))) = (Some (Ok (c, proc)), w') ∧
    ∃ w'', validate_topology_publication live health 77 2 6 2 w' = (Some (Ok c), w'').
Proof.
  apply (restart_publishes config health paths ltac:(done) blank_world torn None k second starts_blank (proj1 (proj2 events_ok)) second_ok);
    [cbn; lia|exact torn_not_exhausted].
Defined.

(** The point 7/9 moves from slot 1 to slot 0 and channel 7 stays online; channel 8 and
    its point are new. *)
Lemma publication_carries_witness :
  let y := run config health blank_world life in
  ∃ proc c proc' w', procs y !! 0%nat = Some proc ∧
    publish_topology_generation config health proc second (with_faults [] (disk y)) = (Some (Ok (Ok c, proc')), w') ∧
    shows live 2 (Manifest.slot_for (points second)) (point_sample (current_points proc) (disk y)) w' ∧
    shows health 2 (health_slot_for (channels second)) (channel_sample (current_health proc) (disk y)) w' ∧
    point_sample (current_points proc) (disk y) (Manifest.PhysicalPoint 7 Domain.Telemetry 9) = Some reading.
Proof.
  intros y. assert (is_Some (procs y !! 0%nat)) as [proc Hp] by (apply (is_Some_alt _); vm_compute; exact I).
  assert (match procs y !! 0%nat with
          | Some proc => match (publish_topology_generation config health proc second (with_faults [] (disk y))).1 with
                         | Some (Ok (Ok _, _)) => true | _ => false end
          | None => false end = true) as E by by vm_compute.
  assert (match procs y !! 0%nat with
          | Some proc => point_sample (current_points proc) (disk y) (Manifest.PhysicalPoint 7 Domain.Telemetry 9)
          | None => None end = Some reading) as R by by vm_compute.
  rewrite Hp in E, R. destruct (published_ok (publish_topology_generation config health proc second (with_faults [] (disk y))) E) as (c & proc' & w' & Hpub).
  destruct (publication_carries config health paths ltac:(done) blank_world life 0 proc second [] c proc' w' starts_blank (proj1 events_ok) second_ok Hp Hpub)
    as [H1 H2].
  exists proc, c, proc', w'. exact (conj Hp (conj Hpub (conj H1 (conj H2 R)))).
Defined.
End Sample.
End Coordinated.
