(* ===== verification/Readers.v ===== *)
(** * Readers of the two shared-memory planes
    (libs/aether-shm-bridge/src/managed.rs, read_topology.rs, the reader of health.rs)

    A client maps a plane lazily, reopens it when the writer restarts or the name is
    replaced, and fences every read: the generation must be stable before and after it.
    A topology view pins both planes to one validated witness.

    A reader does not stop the writers: every load of a mapping and every system call
    happens at its own moment, and between two moments any number of transactions and
    writes may happen.  Under a lease several calls share one moment.  One thread uses a
    client at a time; a slot load is one step ([Slot] proves it is). *)

From stdpp Require Import base tactics numbers list gmap strings.
From S2P Require Import Prelude Float Domain Outbox Slot Fs Shm Manifest CommandSink Publication Coordinated.
#[local] Open Scope Z_scope.

Module Readers.
Import Domain Fs Shm Publication Coordinated.

(** ** Moments *)

Definition ro (A : Type) : Type := (nat → world) → nat → option (res Outbox.PortErrorKind A) * nat.

#[global] Instance ro_ret : MRet ro := fun A a env t => (Some (Ok a), t).
#[global] Instance ro_bind : MBind ro := fun A B f m env t =>
  match m env t with
  | (Some (Ok a), t) => f a env t
  | (Some (Err e), t) => (Some (Err e), t)
  | (Some Panic, t) => (Some Panic, t)
  | (None, t) => (None, t)
  end.

Definition refuse {A} (e : Outbox.PortErrorKind) : ro A := fun _ t => (Some (Err e), t).
Definition answer {A} (r : res Outbox.PortErrorKind A) : ro A := fun _ t => (Some r, t).
Definition demand (b : bool) (e : Outbox.PortErrorKind) : ro unit := if b then mret tt else refuse e.
(** The result as a value. *)
Definition catch {A} (m : ro A) : ro (res Outbox.PortErrorKind A) := fun env t =>
  match m env t with (Some r, t) => (Some (Ok r), t) | (None, t) => (None, t) end.
(** One load of a mapping. *)
Definition load {A} (ino : nat) (f : list Z → A) : ro A := fun env t => (Some (Ok (f (file_bytes (env t) ino))), S t).
(** One system call, or several under the lease of the plane. *)
Definition call {A} (m : port_io A) : ro A := fun env t => ((m (env t)).1, S t).
(** While the leases are held the files stay as they are; calls may still fail. *)
Definition locked {A} (m : ro A) : ro A := fun env t => m (fun j => with_faults (w_faults (env j)) (env t)) t.

(** ** The client (managed.rs) *)

Record ShmClientConfig := ClientConfig {
  cc_path : string; expected_layout_hash : Z;
  identity_check_interval : Z; writer_stale_after : Z; reconnect_interval : Z }.

(** The device number is constant. *)
Record FileIdentity := Identity { fi_inode : nat; fi_length : nat }.
#[global] Instance identity_eq_dec : EqDecision FileIdentity.
Proof. solve_decision. Defined.

Definition identity_read (path : string) : port_io FileIdentity :=
  syscall unavailable no_effect (fun w =>
    (match w_names w !! path with Some i => inr (Identity i (length (file_bytes w i))) | None => inl NotFound end, w)).

Record OpenReader := Opened { o_reader : SlotReader; o_identity : FileIdentity; o_generation : Z }.

Record ClientState := Client {
  opened : option OpenReader;
  next_identity_check : option Z;
  next_open_attempt : option Z;
  last_open_error : option Outbox.PortErrorKind }.

Record ReconnectingSlotSource := Source {
  s_config : ShmClientConfig; s_state : ClientState; expected_publication_epoch : Z; expected_writer_generation : Z }.
Definition with_state (c : ClientState) (s : ReconnectingSlotSource) : ReconnectingSlotSource :=
  Source (s_config s) c (expected_publication_epoch s) (expected_writer_generation s).

Definition PUBLICATION_VALIDATION_PENDING : Z := u_max 64.

Definition source_new (config : ShmClientConfig) : ReconnectingSlotSource := Source config (Client None None None None) 0 0.
Definition require_coordinated_publication (s : ReconnectingSlotSource) : ReconnectingSlotSource :=
  Source (s_config s) (s_state s) PUBLICATION_VALIDATION_PENDING (expected_writer_generation s).
Definition accept_publication_identity (epoch generation : Z) (s : ReconnectingSlotSource)
    : res Outbox.PortErrorKind ReconnectingSlotSource :=
  if (epoch =? 0) || (epoch =? PUBLICATION_VALIDATION_PENDING) then Err Outbox.InvalidData
  else if generation_unstable generation then Err Outbox.InvalidData
  else Ok (Source (s_config s) (s_state s) epoch generation).

Definition mapped_generation (mem : list Z) : Z := writer_generation (header_snapshot mem).
Definition mapped_epoch (mem : list Z) : Z := publication_epoch (header_snapshot mem).

(** Under the shared lease of the plane. *)
Definition open_current (config : ShmClientConfig) : port_io OpenReader :=
  _ ← map_err managed_error acquire_read;
  reader ← map_err managed_error (reader_open (cc_path config));
  mem ← map_err managed_error (peek_map (sr_ino reader));
  let header := header_snapshot mem in
  _ ← require (layout_hash header =? expected_layout_hash config) Outbox.Conflict;
  _ ← require (negb (generation_unstable (writer_generation header))) Outbox.Conflict;
  identity ← identity_read (cc_path config);
  mret (Opened reader identity (writer_generation header)).

Definition identity_due (now : Z) (c : ClientState) : bool :=
  match next_identity_check c with Some deadline => deadline <=? now | None => true end.
Definition usable (o : OpenReader) (generation : Z) : bool := (generation =? o_generation o) && (Z.land generation 1 =? 0).
Definition refused (now : Z) (c : ClientState) : option (res Outbox.PortErrorKind unit) :=
  match next_open_attempt c with
  | Some deadline => if now <? deadline then Some (Err (default Outbox.Unavailable (last_open_error c))) else None
  | None => None
  end.

(** The part of [ensure_current] under the write lock. *)
Definition refresh (now : Z) (s : ReconnectingSlotSource) : ro (res Outbox.PortErrorKind unit * ReconnectingSlotSource) :=
  let config := s_config s in
  let c := s_state s in
  '(decided, c) ← (match opened c with
    | Some o =>
        generation ← load (sr_ino (o_reader o)) mapped_generation;
        if usable o generation && negb (identity_due now c) then mret (Some (Ok tt), c)
        else if usable o generation then
          r ← catch (call (identity_read (cc_path config)));
          match r with
          | Ok identity =>
              mret (if bool_decide (identity = o_identity o)
                    then (Some (Ok tt), Client (opened c) (Some (now + identity_check_interval config)) (next_open_attempt c) (last_open_error c))
                    else (None, c))
          | Err e => mret (Some (Err e), Client (opened c) (Some (now + reconnect_interval config)) (next_open_attempt c) (Some e))
          | Panic => answer Panic
          end
        else mret (None, c)
    | None => mret (refused now c, c)
    end);
  match decided with
  | Some r => mret (r, with_state c s)
  | None =>
      r ← catch (call (open_current config));
      match r with
      | Ok o => mret (Ok tt, with_state (Client (Some o) (Some (now + identity_check_interval config)) None None) s)
      | Err e => mret (Err e, with_state (Client None (next_identity_check c) (Some (now + reconnect_interval config)) (Some e)) s)
      | Panic => answer Panic
      end
  end.

Definition ensure_current (now : Z) (s : ReconnectingSlotSource) : ro (res Outbox.PortErrorKind unit * ReconnectingSlotSource) :=
  let c := s_state s in
  quick ← (match opened c with
    | Some o =>
        generation ← load (sr_ino (o_reader o)) mapped_generation;
        mret (if usable o generation && negb (identity_due now c) then Some (Ok tt) else None)
    | None => mret (refused now c)
    end);
  match quick with Some r => mret (r, s) | None => refresh now s end.

Definition validate_publication_identity (s : ReconnectingSlotSource) (reader : SlotReader) : ro unit :=
  let expected := expected_publication_epoch s in
  if expected =? 0 then mret tt
  else if expected =? PUBLICATION_VALIDATION_PENDING then refuse Outbox.Conflict
  else
    observed_epoch ← load (sr_ino reader) mapped_epoch;
    _ ← demand (observed_epoch =? expected) Outbox.Conflict;
    generation ← load (sr_ino reader) mapped_generation;
    demand (generation =? expected_writer_generation s) Outbox.Conflict.

Definition validate_reader_fence (s : ReconnectingSlotSource) (o : OpenReader) : ro unit :=
  generation ← load (sr_ino (o_reader o)) mapped_generation;
  _ ← demand ((generation =? o_generation o) && negb (generation_unstable generation)) Outbox.Conflict;
  validate_publication_identity s (o_reader o).

Definition validate_writer_freshness (reader : SlotReader) (now_ms timeout : Z) : ro unit :=
  heartbeat ← load (sr_ino reader) (fun mem => writer_heartbeat (header_snapshot mem));
  demand (negb ((heartbeat =? 0) || (timeout <? saturating_sub now_ms heartbeat))) Outbox.Unavailable.

(** The clock readings of one read: of the deadlines and of the heartbeat. *)
Record instant := Instant { i_now : Z; i_ms : Z }.

(** What a read does with a usable mapping. *)
Definition fenced {A} (s : ReconnectingSlotSource) (now_ms : Z) (read : SlotReader → ro A) : ro A :=
  o ← answer (ok_or (opened (s_state s)) Outbox.Unavailable);
  _ ← validate_reader_fence s o;
  _ ← validate_writer_freshness (o_reader o) now_ms (writer_stale_after (s_config s));
  value ← catch (read (o_reader o));
  _ ← validate_reader_fence s o;
  answer value.

Definition with_reader {A} (k : instant) (read : SlotReader → ro A) (s : ReconnectingSlotSource)
    : ro (res Outbox.PortErrorKind A * ReconnectingSlotSource) :=
  '(r, s) ← ensure_current (i_now k) s;
  match r with
  | Ok _ => v ← catch (fenced s (i_ms k) read); mret (v, s)
  | Err e => mret (Err e, s)
  | Panic => answer Panic
  end.

(** [SlotSnapshot] and [decode_point_quality] (lib.rs). *)
Record SlotSnapshot := Snap { ss_value : Float.f64; ss_raw : Float.f64; ss_timestamp : Z; ss_quality : PointQuality }.
Definition decode_point_quality (code : Z) : res Outbox.PortErrorKind PointQuality :=
  if code =? 0 then Ok Good else if code =? 1 then Ok Uncertain else if code =? 2 then Ok Bad
  else if code =? 3 then Ok QUnavailable else Err Outbox.InvalidData.
Definition snapshot_of (d : Slot.slot_data) : res Outbox.PortErrorKind SlotSnapshot :=
  quality ← decode_point_quality (Slot.quality_code d);
  Ok (Snap (Float.from_bits (Slot.value_bits d)) (Float.from_bits (Slot.raw_bits d)) (Slot.timestamp d) quality).

Fixpoint load_slots (reader : SlotReader) (indices : list nat) : ro (list SlotSnapshot) :=
  match indices with
  | [] => mret []
  | index :: indices =>
      slot ← load (sr_ino reader) (fun mem => read_slot mem (sr_slot_count reader) index);
      d ← answer (ok_or slot Outbox.Conflict);
      sample ← answer (snapshot_of d);
      samples ← load_slots reader indices;
      mret (sample :: samples)
  end.

Definition read_slots (k : instant) (indices : list nat) (s : ReconnectingSlotSource)
    : ro (res Outbox.PortErrorKind (list SlotSnapshot) * ReconnectingSlotSource) :=
  match indices with
  | [] => mret (Ok [], s)
  | _ =>
      with_reader k (fun reader =>
        _ ← demand (forallb (fun index => index <? sr_slot_count reader)%nat indices) Outbox.InvalidData;
        load_slots reader indices) s
  end.

Definition source_slot_count (k : instant) (s : ReconnectingSlotSource) : ro (res Outbox.PortErrorKind nat * ReconnectingSlotSource) :=
  with_reader k (fun reader => mret (sr_slot_count reader)) s.

Definition source_read_slot (k : instant) (index : nat) (s : ReconnectingSlotSource)
    : ro (res Outbox.PortErrorKind SlotSnapshot * ReconnectingSlotSource) :=
  '(r, s) ← read_slots k [index] s;
  mret (match r with
        | Ok samples => ok_or (last samples) Outbox.Permanent
        | Err e => Err e
        | Panic => Panic
        end, s).

Definition validate_layout (now : Z) (expected_slot_count : nat) (s : ReconnectingSlotSource)
    : ro (res Outbox.PortErrorKind unit * ReconnectingSlotSource) :=
  '(r, s) ← ensure_current now s;
  match r with
  | Ok _ =>
      v ← catch (
        o ← answer (ok_or (opened (s_state s)) Outbox.Unavailable);
        header ← load (sr_ino (o_reader o)) header_snapshot;
        generation ← load (sr_ino (o_reader o)) mapped_generation;
        _ ← demand (Z.to_nat (slot_count header) =? expected_slot_count)%nat Outbox.Conflict;
        _ ← demand ((generation =? o_generation o) && negb (generation_unstable generation)) Outbox.Conflict;
        if negb (expected_publication_epoch s =? 0) && negb (expected_publication_epoch s =? PUBLICATION_VALIDATION_PENDING)
        then validate_publication_identity s (o_reader o) else mret tt);
      mret (v, s)
  | Err e => mret (Err e, s)
  | Panic => answer Panic
  end.

(** ** The channel-health reader (health.rs) *)

Record ShmChannelHealthReader := HealthReader { hr_source : ReconnectingSlotSource; hr_manifest : ChannelHealthManifest }.
Definition with_source (s : ReconnectingSlotSource) (h : ShmChannelHealthReader) : ShmChannelHealthReader :=
  HealthReader s (hr_manifest h).

Record ChannelHealthObservation := Health { ho_channel : Z; ho_online : bool; ho_timestamp : Z }.

Definition read_observation (k : instant) (channel : Z) (h : ShmChannelHealthReader)
    : ro (res Outbox.PortErrorKind (option ChannelHealthObservation) * ShmChannelHealthReader) :=
  match health_slot_for (hr_manifest h) channel with
  | None => mret (Ok None, h)
  | Some slot =>
      '(r, s) ← source_read_slot k slot (hr_source h);
      mret (match r with
            | Ok sample =>
                if Float.is_nan (ss_value sample) then Ok None
                else if Float.eqb (ss_value sample) Float.zero then Ok (Some (Health channel false (ss_timestamp sample)))
                else if Float.eqb (ss_value sample) Float.one then Ok (Some (Health channel true (ss_timestamp sample)))
                else Err Outbox.InvalidData
            | Err e => Err e
            | Panic => Panic
            end, with_source s h)
  end.

(** ** The coherent view (read_topology.rs) *)

Record ShmReadTopologyGeneration := ReadTopology {
  rt_point_path : string; rt_health_path : string;
  point_source : ReconnectingSlotSource; point_manifest : Manifest.ChannelPointManifest;
  channel_health : ShmChannelHealthReader;
  pinned_point : Z; pinned_health : Z; pinned_epoch : Z }.
Definition health_manifest (g : ShmReadTopologyGeneration) : ChannelHealthManifest := hr_manifest (channel_health g).
Definition with_sources (p : ReconnectingSlotSource) (h : ShmChannelHealthReader) (g : ShmReadTopologyGeneration) : ShmReadTopologyGeneration :=
  ReadTopology (rt_point_path g) (rt_health_path g) p (point_manifest g) h (pinned_point g) (pinned_health g) (pinned_epoch g).

Definition new_lazy (point_config health_config : ShmClientConfig) (points : Manifest.ChannelPointManifest)
    (health : ChannelHealthManifest) : res Outbox.PortErrorKind ShmReadTopologyGeneration :=
  if bool_decide (cc_path point_config = cc_path health_config) then Err Outbox.InvalidData
  else if negb (expected_layout_hash point_config =? Manifest.layout_hash points) then Err Outbox.InvalidData
  else if negb (expected_layout_hash health_config =? health_layout_hash health) then Err Outbox.InvalidData
  else
    Ok (ReadTopology (cc_path point_config) (cc_path health_config)
          (require_coordinated_publication (source_new point_config)) points
          (HealthReader (require_coordinated_publication (source_new health_config)) health) 0 0 0).

Definition validate_locked_publication (now : Z) (g : ShmReadTopologyGeneration)
    : ro (res Outbox.PortErrorKind TopologyPublicationCommit * ShmReadTopologyGeneration) :=
  '(r, p) ← validate_layout now (Manifest.slot_count (point_manifest g)) (point_source g);
  let g := with_sources p (channel_health g) g in
  match r with
  | Ok _ =>
      '(r, h) ← validate_layout now (health_slot_count (health_manifest g)) (hr_source (channel_health g));
      let g := with_sources (point_source g) (with_source h (channel_health g)) g in
      match r with
      | Ok _ =>
          c ← catch (call (validate_topology_publication_locked (rt_point_path g) (rt_health_path g)
                (Manifest.layout_hash (point_manifest g)) (Manifest.slot_count (point_manifest g))
                (health_layout_hash (health_manifest g)) (health_slot_count (health_manifest g))));
          mret (c, g)
      | Err e => mret (Err e, g)
      | Panic => answer Panic
      end
  | Err e => mret (Err e, g)
  | Panic => answer Panic
  end.

(** A source that was pinned stays pinned when the other one cannot be. *)
Definition pin_publication (c : TopologyPublicationCommit) (g : ShmReadTopologyGeneration)
    : res Outbox.PortErrorKind unit * ShmReadTopologyGeneration :=
  match accept_publication_identity (tc_epoch c) (point_writer_generation c) (point_source g) with
  | Ok p =>
      let g := with_sources p (channel_health g) g in
      match accept_publication_identity (tc_epoch c) (health_writer_generation c) (hr_source (channel_health g)) with
      | Ok h =>
          (Ok tt, ReadTopology (rt_point_path g) (rt_health_path g) p (point_manifest g) (with_source h (channel_health g))
                    (point_writer_generation c) (health_writer_generation c) (tc_epoch c))
      | Err e => (Err e, g)
      | Panic => (Panic, g)
      end
  | Err e => (Err e, g)
  | Panic => (Panic, g)
  end.

(** The three leases are held from the first call on. *)
Definition leased {A} (m : ro A) : ro A :=
  locked (_ ← call (map_err managed_error acquire_read); _ ← call acquire_authority_pair; m).

Definition read_topology_open (point_config health_config : ShmClientConfig) (points : Manifest.ChannelPointManifest)
    (health : ChannelHealthManifest) (now : Z) : ro ShmReadTopologyGeneration :=
  g ← answer (new_lazy point_config health_config points health);
  '(r, g) ← leased (validate_locked_publication now g);
  c ← answer r;
  let '(r, g) := pin_publication c g in
  _ ← answer r;
  mret g.

Definition changed (g : ShmReadTopologyGeneration) (c : TopologyPublicationCommit) : bool :=
  negb (pinned_epoch g =? 0)
  && (negb (tc_epoch c =? pinned_epoch g) || negb (point_writer_generation c =? pinned_point g)
      || negb (health_writer_generation c =? pinned_health g)).

Definition with_validated_authority (now : Z) (g : ShmReadTopologyGeneration)
    : ro (res Outbox.PortErrorKind unit * ShmReadTopologyGeneration) :=
  r ← catch (leased (
    '(r, g) ← validate_locked_publication now g;
    mret (match r with
          | Ok c => if changed g c then (Err Outbox.Conflict, g) else pin_publication c g
          | Err e => (Err e, g)
          | Panic => (Panic, g)
          end)));
  match r with
  | Ok r => mret r
  | Err e => mret (Err e, g)
  | Panic => answer Panic
  end.

(** ** A consumer of the view *)

Inductive op := OValidate (now : Z) | ORead (k : instant) (indices : list nat) | OHealth (k : instant) (channel : Z).
Inductive outcome :=
| Validated (r : res Outbox.PortErrorKind unit)
| Samples (r : res Outbox.PortErrorKind (list SlotSnapshot))
| Observation (r : res Outbox.PortErrorKind (option ChannelHealthObservation)).

Definition perform (o : op) (g : ShmReadTopologyGeneration) : ro (outcome * ShmReadTopologyGeneration) :=
  match o with
  | OValidate now => '(r, g) ← with_validated_authority now g; mret (Validated r, g)
  | ORead k indices =>
      '(r, p) ← read_slots k indices (point_source g); mret (Samples r, with_sources p (channel_health g) g)
  | OHealth k channel =>
      '(r, h) ← read_observation k channel (channel_health g); mret (Observation r, with_sources (point_source g) h g)
  end.

(** The operations one after the other: when each began and ended, and what it returned. *)
Record performed := Performed { p_op : op; p_begin : nat; p_end : nat; p_outcome : outcome }.

Fixpoint consume (ops : list op) (g : ShmReadTopologyGeneration) (env : nat → world) (t : nat) : list performed :=
  match ops with
  | [] => []
  | o :: ops =>
      match perform o g env t with
      | (Some (Ok (r, g)), t') => Performed o t t' r :: consume ops g env t'
      | _ => []
      end
  end.

(** ** Reasoning about moments *)

Definition moment (ys : nat → system) (fs : nat → list fault) (t : nat) : world := with_faults (fs t) (disk (ys t)).

Definition rwp {A} (m : ro A) (Q : res Outbox.PortErrorKind A → nat → Prop) (env : nat → world) (t : nat) : Prop :=
  match m env t with (Some r, t') => (t ≤ t')%nat ∧ Q r t' | (None, _) => True end.

Section Rwp.
Context (env : nat → world).

Lemma rwp_ret {A} (a : A) Q t : Q (Ok a) t → rwp (mret a) Q env t.
Proof. by split. Qed.

Lemma rwp_answer {A} (r : res Outbox.PortErrorKind A) Q t : Q r t → rwp (answer r) Q env t.
Proof. by split. Qed.

Lemma rwp_mono {A} (m : ro A) (Q Q' : res Outbox.PortErrorKind A → nat → Prop) t :
  rwp m Q env t → (∀ r t', (t ≤ t')%nat → Q r t' → Q' r t') → rwp m Q' env t.
Proof. unfold rwp. destruct (m env t) as [[r|] t']; [|done]. intros [H1 H2] H. split; auto. Qed.

Lemma rwp_bind {A B} (m : ro A) (f : A → ro B) Q t :
  rwp m (fun r t' => match r with Ok a => rwp (f a) Q env t' | Err e => Q (Err e) t' | Panic => Q Panic t' end) env t →
  rwp (m ≫= f) Q env t.
Proof.
  unfold rwp, mbind, ro_bind. destruct (m env t) as [[[a|e|]|] t']; [|done..]. intros [Hle H].
  destruct (f a env t') as [[r|] t'']; [|done]. destruct H. split; [lia|done].
Qed.

Lemma rwp_catch {A} (m : ro A) Q t : rwp m (fun r t' => Q (Ok r) t') env t → rwp (catch m) Q env t.
Proof. unfold rwp, catch. by destruct (m env t) as [[r|] t']. Qed.

Lemma rwp_load {A} ino (f : list Z → A) Q t : Q (Ok (f (file_bytes (env t) ino))) (S t) → rwp (load ino f) Q env t.
Proof. intros H. split; [lia|done]. Qed.

Lemma rwp_call {A} (m : port_io A) Q t : (∀ r, (m (env t)).1 = Some r → Q r (S t)) → rwp (call m) Q env t.
Proof. intros H. unfold rwp, call. destruct (m (env t)) as [[r|] w']; [|done]. split; [lia|by apply H]. Qed.

Lemma rwp_demand (b : bool) e (Q : res Outbox.PortErrorKind unit → nat → Prop) t :
  (b = true → Q (Ok tt) t) → (b = false → Q (Err e) t) → rwp (demand b e) Q env t.
Proof. intros H1 H2. destruct b; split; auto. Qed.
End Rwp.

Lemma rwp_locked {A} (m : ro A) Q env t :
  rwp m Q (fun j => with_faults (w_faults (env j)) (env t)) t → rwp (locked m) Q env t.
Proof. done. Qed.

Section Flow.
Context (config : ShmRuntimeConfig) (health_path : string).
Context (Hpaths : paths_ok config health_path) (Hmax : Z.of_nat (max_slots config) ≤ u_max 32).
Local Notation point_path := (config_path config).
Local Notation is_plane := (is_plane config health_path).

(** The writers go on between two moments. *)
Definition flow (ys : nat → system) : Prop :=
  inv config health_path [] (ys 0%nat) ∧
  ∀ t, ∃ es, Forall event_ok es ∧ ys (S t) = fold_left (step config health_path) es (ys t).

Lemma flow_inv ys t : flow ys → inv config health_path [] (ys t).
Proof.
  intros [H0 Hs]. induction t as [|t IH]; [done|]. destruct (Hs t) as (es & Hes & ->). by apply system_steps.
Qed.

Lemma flow_frozen ys t : flow ys → flow (fun _ => ys t).
Proof. intros H. split; [by apply flow_inv|]. intros t'. exists []. split; [constructor|done]. Qed.

Lemma inv_watched x y : inv config health_path [] y → is_plane (x_path x) → watched_ok x (disk y) → inv config health_path [x] y.
Proof.
  intros [(H1 & H2 & H3 & H4 & _) Hs] Hx Hok. split; [|exact Hs]. split_and!; [done..|]. intros x' ->%list_elem_of_singleton. done.
Qed.

Lemma flow_watched ys fs x t t' :
  flow ys → is_plane (x_path x) → (t ≤ t')%nat → watched_ok x (moment ys fs t) → watched_ok x (moment ys fs t').
Proof.
  intros Hf Hx Hle Hok. induction Hle as [|t' Hle IH]; [done|]. destruct Hf as [H0 Hs]. destruct (Hs t') as (es & Hes & E).
  unfold moment in *. rewrite E. assert (inv config health_path [x] (fold_left (step config health_path) es (ys t'))) as Hi.
  { apply system_steps; [done..|]. apply inv_watched; [by apply flow_inv|done|exact IH]. }
  destruct Hi as [(_ & _ & _ & _ & HX) _]. apply (HX x). by apply list_elem_of_singleton.
Qed.

(** A file that is visible now was visible since it was mapped. *)
Lemma flow_named ys fs x t t' :
  flow ys → is_plane (x_path x) → (t ≤ t')%nat → x_retired x = false → watched_ok x (moment ys fs t) →
  w_names (moment ys fs t') !! x_path x = Some (x_ino x) → w_names (moment ys fs t) !! x_path x = Some (x_ino x).
Proof.
  intros Hf Hx Hle Hr Hok Hn. destruct (decide (w_names (moment ys fs t) !! x_path x = Some (x_ino x))) as [|Hne]; [done|].
  destruct x as [path ino n layout epoch b]. cbn in *. subst b.
  assert (watched_ok (Watched path ino n layout epoch true) (moment ys fs t)) as Hok'.
  { destruct Hok as (H1 & H2 & H3 & H4). split_and!; try done. cbn in *. destruct H4; [done|by split]. }
  destruct (flow_watched ys fs (Watched path ino n layout epoch true) t t' Hf Hx Hle Hok') as (_ & _ & _ & H & _). done.
Qed.

(** What a client keeps. *)
Definition mapping_of (s : ReconnectingSlotSource) (o : OpenReader) (epoch : Z) : watched :=
  Watched (cc_path (s_config s)) (sr_ino (o_reader o)) (sr_slot_count (o_reader o)) (expected_layout_hash (s_config s)) epoch false.
Definition source_ok (s : ReconnectingSlotSource) (w : world) : Prop :=
  is_plane (cc_path (s_config s)) ∧ ∀ o, opened (s_state s) = Some o → ∃ epoch, watched_ok (mapping_of s o epoch) w.

Lemma source_later ys fs s t t' :
  flow ys → (t ≤ t')%nat → source_ok s (moment ys fs t) → source_ok s (moment ys fs t').
Proof.
  intros Hf Hle [Hp Ho]. split; [done|]. intros o E. destruct (Ho o E) as [e He]. exists e. by eapply flow_watched.
Qed.

(** ** Opening *)

Lemma spec_identity b path w w' : quiet w w' → spec b True (identity_read path) (fun _ w1 => quiet w w1) (quiet w) w'.
Proof.
  intros Hq. apply spec_call; [done| |intros ? fs; by apply quiet_trans]. intros fs _. destruct Hq as [fs' ->]. cbn.
  destruct (w_names w !! path); split_and!; try done; by exists fs.
Qed.

Lemma spec_reader_any b c w w' :
  good c w → quiet w w' →
  spec b True (reader_open c) (fun rd w1 => quiet w w1 ∧ w_names w !! c = Some (sr_ino rd) ∧
     ∃ layout epoch, plane (sr_slot_count rd) layout epoch (file_bytes w (sr_ino rd))) (quiet w) w'.
Proof.
  intros Hg Hq. destruct (w_names w !! c) as [i|] eqn:Hi.
  - destruct (Hg i Hi) as (n & l & e & Hp & He). eapply spec_mono; [eapply spec_reader_open; [done|done|apply He|done]| |done].
    intros rd w1 [-> Hq1]. cbn. eauto.
  - unfold reader_open. eapply (spec_bind _ _ _ _ (fun _ _ => False)); [|done]. apply spec_call; [done| |intros ? fs; by apply quiet_trans].
    intros fs _. destruct Hq as [fs' ->]. cbn. rewrite Hi. split_and!; [done|done|by exists fs].
Qed.

Lemma spec_open_current b cfg w :
  files_ok w → good (cc_path cfg) w →
  spec b True (open_current cfg) (fun o _ => ∃ epoch,
    watched_ok (Watched (cc_path cfg) (sr_ino (o_reader o)) (sr_slot_count (o_reader o)) (expected_layout_hash cfg) epoch false) w)
    (quiet w) w.
Proof.
  intros Hw Hg. unfold open_current.
  eapply spec_bind; [apply spec_map_err, spec_nop_quiet, quiet_refl|]. intros [] w1 Hq1.
  eapply spec_bind; [apply spec_map_err; by apply spec_reader_any|]. intros rd w2 (Hq2 & Hi & layout & epoch & Hp).
  eapply spec_bind; [apply spec_map_err; by eapply spec_peek|]. intros mem w3 [-> Hq3]. cbv zeta.
  eapply (spec_bind _ _ _ _ (fun _ w4 => quiet w w4 ∧ layout = expected_layout_hash cfg)).
  { apply spec_require; [|done]. intros H%Z.eqb_eq. split; [done|]. destruct Hp as (_ & _ & _ & _ & <- & _). done. }
  intros [] w4 [Hq4 ->]. eapply (spec_bind _ _ _ _ (fun _ w5 => quiet w w5)); [by apply spec_require|]. intros [] w5 Hq5.
  eapply spec_bind; [by apply spec_identity|]. intros id w6 Hq6. apply spec_ret. exists epoch. cbn.
  destruct Hw as ([H1 _] & Hl & _). split_and!; cbn; [by eapply H1| |done|by left]. intros q Hq. by apply (Hl _ _ (sr_ino rd)).
Qed.

(** ** One client *)

Section Client.
Context (ys : nat → system) (fs : nat → list fault) (Hf : flow ys).
Local Notation env := (moment ys fs).

(** The same client with another mapping. *)
Definition kept (s s' : ReconnectingSlotSource) : Prop :=
  s_config s' = s_config s ∧ expected_publication_epoch s' = expected_publication_epoch s ∧
  expected_writer_generation s' = expected_writer_generation s.
Definition client (s : ReconnectingSlotSource) {A} (r : res Outbox.PortErrorKind (A * ReconnectingSlotSource)) (t : nat) : Prop :=
  ∀ a s', r = Ok (a, s') → source_ok s' (env t) ∧ kept s s'.

Lemma client_same s {A} (a : A) t t' :
  (t ≤ t')%nat → source_ok s (env t) → client s (Ok (a, s)) t'.
Proof. intros Hle Hs ? ? [= <- <-]. split; [by eapply source_later|by split_and!]. Qed.

Lemma client_state s c {A} (a : A) t t' :
  (t ≤ t')%nat → source_ok s (env t) → opened c = opened (s_state s) → client s (Ok (a, with_state c s)) t'.
Proof.
  intros Hle Hs Hc ? ? [= <- <-]. split; [|by split_and!]. destruct (source_later ys fs s t t' Hf Hle Hs) as [Hp Ho].
  split; [done|]. intros o E. cbn in E. rewrite Hc in E. by apply Ho.
Qed.

Lemma rwp_open cfg t :
  is_plane (cc_path cfg) →
  rwp (call (open_current cfg)) (fun r t' => ∀ o, r = Ok o → ∃ epoch,
    watched_ok (Watched (cc_path cfg) (sr_ino (o_reader o)) (sr_slot_count (o_reader o)) (expected_layout_hash cfg) epoch false) (env t')) env t.
Proof.
  intros Hp. apply rwp_call. intros r E o ->. destruct (flow_inv ys t Hf) as [(Hw & Hgp & Hgh & _) _].
  pose proof (spec_result _ _ _ (env t) (fun b => spec_open_current b cfg (env t) Hw ltac:(by destruct Hp as [->| ->]))) as H.
  destruct (open_current cfg (env t)) as [[r|] w']; cbn in E; [|done]. injection E as ->. destruct H as [e He].
  exists e. eapply flow_watched; [done|done| |exact He]. lia.
Qed.

Lemma rwp_refresh now s t : source_ok s (env t) → rwp (refresh now s) (client s) env t.
Proof.
  intros Hs. unfold refresh. cbv zeta. apply rwp_bind.
  eapply (rwp_mono _ _ (fun r t' => match r with Ok (_, c) => opened c = opened (s_state s) | _ => True end)).
  - destruct (opened (s_state s)) as [o|] eqn:Ho; [|by apply rwp_ret].
    apply rwp_bind, rwp_load. case_match; [by apply rwp_ret|]. case_match; [|by apply rwp_ret].
    apply rwp_bind, rwp_catch, rwp_call. intros [id|e|] _; [|by apply rwp_ret|by apply rwp_answer].
    apply rwp_ret. by case_bool_decide.
  - intros [[decided c]|e|] t' Hle Hc; [|by intros ? ? [=]..]. destruct decided as [r|].
    + apply rwp_ret. by eapply client_state.
    + apply rwp_bind, rwp_catch. eapply rwp_mono; [apply rwp_open, Hs|]. intros r t1 Hle1 Ho. cbv beta iota.
      destruct r as [o|e|].
      * apply rwp_ret. intros ? ? [= <- <-]. split; [|by split_and!]. split; [apply Hs|]. intros o' [= <-]. by apply Ho.
      * apply rwp_ret. intros ? ? [= <- <-]. split; [|by split_and!]. split; [apply Hs|done].
      * apply rwp_answer. by intros ? ? [=].
Qed.

Lemma rwp_ensure now s t : source_ok s (env t) → rwp (ensure_current now s) (client s) env t.
Proof.
  intros Hs. unfold ensure_current. cbv zeta. apply rwp_bind.
  eapply (rwp_mono _ _ (fun r t' => ∀ e, r ≠ Err e)).
  - destruct (opened (s_state s)) as [o|]; [apply rwp_bind, rwp_load|]; by apply rwp_ret.
  - intros [[r|]|e|] t' Hle Hq; [| |by destruct (Hq e)|by intros ? ? [=]].
    + apply rwp_ret. by eapply client_same.
    + apply rwp_refresh. by eapply source_later.
Qed.

(** ** The fence *)

(** The mapping is visible at the moment [t], and is the pinned publication. *)
Definition visible (s : ReconnectingSlotSource) (o : OpenReader) (epoch : Z) (t : nat) : Prop :=
  w_names (env t) !! cc_path (s_config s) = Some (sr_ino (o_reader o)) ∧
  (expected_publication_epoch s = 0 ∨
   expected_publication_epoch s ≠ PUBLICATION_VALIDATION_PENDING ∧ expected_publication_epoch s = epoch).

Lemma stable_visible s o epoch t :
  watched_ok (mapping_of s o epoch) (env t) → generation_unstable (mapped_generation (file_bytes (env t) (sr_ino (o_reader o)))) = false →
  w_names (env t) !! cc_path (s_config s) = Some (sr_ino (o_reader o)).
Proof. intros (_ & _ & _ & [H|H]) Hg; [done|]. assert (true = false) by (etransitivity; [symmetry; exact H|exact Hg]). done. Qed.

Lemma rwp_identity s o epoch t :
  source_ok s (env t) → watched_ok (mapping_of s o epoch) (env t) →
  rwp (validate_publication_identity s (o_reader o)) (fun r t' => r = Ok tt →
    expected_publication_epoch s = 0 ∨
    expected_publication_epoch s ≠ PUBLICATION_VALIDATION_PENDING ∧ expected_publication_epoch s = epoch) env t.
Proof.
  intros [Hp _] Ho. unfold validate_publication_identity. cbv zeta. destruct (Z.eqb_spec (expected_publication_epoch s) 0) as [H0|H0].
  { apply rwp_ret. by left. }
  destruct (Z.eqb_spec (expected_publication_epoch s) PUBLICATION_VALIDATION_PENDING) as [H1|H1]; [by apply rwp_answer|].
  apply rwp_bind, rwp_load, rwp_bind. apply rwp_demand; [|done]. intros He%Z.eqb_eq. apply rwp_bind, rwp_load.
  apply rwp_demand; [|done]. intros _ _. right. split; [done|]. rewrite <- He. destruct Ho as (_ & _ & (_ & _ & _ & _ & _ & Hpe) & _). exact Hpe.
Qed.

Lemma rwp_fence s o epoch t :
  source_ok s (env t) → watched_ok (mapping_of s o epoch) (env t) →
  rwp (validate_reader_fence s o) (fun r t' => r = Ok tt → visible s o epoch t) env t.
Proof.
  intros Hs Ho. unfold validate_reader_fence. apply rwp_bind, rwp_load, rwp_bind. apply rwp_demand; [|done].
  intros [_ Hg%negb_true_iff]%andb_true_iff. pose proof (stable_visible s o epoch t Ho Hg) as Hn.
  eapply rwp_mono; [apply (rwp_identity s o epoch)| ].
  - eapply source_later; [done| |exact Hs]. lia.
  - eapply flow_watched; [done|apply Hs| |exact Ho]. lia.
  - intros r t' _ H Hr. by split; [|apply H].
Qed.

(** ** Reads *)

(** At the moment [t] the plane visible under [path] has this layout and epoch, and its
    slot [index] holds [d]. *)
Definition seen (path : string) (layout epoch : Z) (index : nat) (d : Slot.slot_data) (t : nat) : Prop :=
  ∃ i n, w_names (env t) !! path = Some i ∧ plane n layout epoch (file_bytes (env t) i) ∧
    read_slot (file_bytes (env t) i) n index = Some d.

(** A sample of the pinned publication, taken while it was the visible one. *)
Definition sampled (s : ReconnectingSlotSource) (t t' : nat) (index : nat) (sample : SlotSnapshot) : Prop :=
  ∃ k d epoch, (t ≤ k < t')%nat ∧ seen (cc_path (s_config s)) (expected_layout_hash (s_config s)) epoch index d k ∧
    snapshot_of d = Ok sample ∧
    (expected_publication_epoch s = 0 ∨
     expected_publication_epoch s ≠ PUBLICATION_VALIDATION_PENDING ∧ expected_publication_epoch s = epoch).

Lemma rwp_load_slots rd indices t :
  rwp (load_slots rd indices) (fun r t' => ∀ l, r = Ok l → Forall2 (fun index sample => ∃ k d, (t ≤ k < t')%nat ∧
    read_slot (file_bytes (env k) (sr_ino rd)) (sr_slot_count rd) index = Some d ∧ snapshot_of d = Ok sample) indices l) env t.
Proof.
  revert t. induction indices as [|index indices IH]; intros t; cbn [load_slots].
  { apply rwp_ret. intros l [= <-]. constructor. }
  apply rwp_bind, rwp_load. destruct (read_slot _ _ index) as [d|] eqn:Hd; cbn [ok_or]; [|by apply rwp_bind, rwp_answer].
  apply rwp_bind, rwp_answer, rwp_bind, rwp_answer. destruct (snapshot_of d) as [sample|e|] eqn:Hs; [|done..].
  apply rwp_bind. eapply rwp_mono; [apply IH|]. intros [l|e|] t' Hle Hl; [|done..]. apply rwp_ret. intros l' [= <-].
  constructor; [exists t, d; split; [lia|done]|]. eapply Forall2_impl; [by apply Hl|].
  intros i x (k & d' & Hk & H). exists k, d'. split; [lia|done].
Qed.

Lemma rwp_fenced s now_ms indices t :
  source_ok s (env t) →
  rwp (fenced s now_ms (fun reader => _ ← demand (forallb (fun index => index <? sr_slot_count reader)%nat indices) Outbox.InvalidData;
                                      load_slots reader indices))
    (fun r t' => ∀ l, r = Ok l → Forall2 (sampled s t t') indices l) env t.
Proof.
  intros Hs. unfold fenced. apply rwp_bind, rwp_answer. destruct (opened (s_state s)) as [o|] eqn:Ho; cbn [ok_or]; [|done].
  destruct Hs as [Hp Hok]. destruct (Hok o Ho) as [epoch Hx]. pose proof (conj Hp Hok : source_ok s (env t)) as Hs.
  apply rwp_bind. eapply rwp_mono; [by apply (rwp_fence s o epoch)|]. intros [[]|e|] t1 Hle1 Hv; [|done..].
  destruct (Hv eq_refl) as [_ Hpin]. unfold validate_writer_freshness. apply rwp_bind, rwp_bind, rwp_load, rwp_demand; [intros _|done].
  apply rwp_bind, rwp_catch.
  eapply (rwp_mono _ _ (fun r t' => ∀ l, r = Ok l → Forall2 (fun index sample => ∃ k d, (t ≤ k < t')%nat ∧
    read_slot (file_bytes (env k) (sr_ino (o_reader o))) (sr_slot_count (o_reader o)) index = Some d ∧ snapshot_of d = Ok sample) indices l)).
  { apply rwp_bind, rwp_demand; [intros _|done]. eapply rwp_mono; [apply rwp_load_slots|]. intros r t2 Hle2 H l Hl.
    eapply Forall2_impl; [by apply H|]. intros i x (k & d & Hk & Hd). exists k, d. split; [lia|done]. }
  intros r t2 Hle2 Hr. cbv beta iota. apply rwp_bind.
  eapply rwp_mono; [apply (rwp_fence s o epoch)|].
  { eapply source_later; [done| |exact Hs]. lia. }
  { eapply flow_watched; [done|apply Hs| |exact Hx]. lia. }
  intros [[]|e|] t3 Hle3 Hv'; [|done..]. destruct (Hv' eq_refl) as [Hn _]. apply rwp_answer. intros l ->.
  eapply Forall2_impl; [by apply Hr|]. intros index sample (k & d & Hk & Hd & Hsn). exists k, d, epoch.
  split; [lia|]. split; [|done].
  assert (watched_ok (mapping_of s o epoch) (env k)) as Hxk by (eapply flow_watched; [done|apply Hs|apply Hk|exact Hx]).
  exists (sr_ino (o_reader o)), (sr_slot_count (o_reader o)). split; [|split; [apply Hxk|done]].
  apply (flow_named ys fs (mapping_of s o epoch) k t2 Hf Hp); [lia|done|exact Hxk|exact Hn].
Qed.

Lemma sampled_mono s t1 t1' t2 t2' index sample :
  (t2 ≤ t1)%nat → (t1' ≤ t2')%nat → sampled s t1 t1' index sample → sampled s t2 t2' index sample.
Proof. intros H1 H2 (k & d & e & Hk & H). exists k, d, e. split; [lia|done]. Qed.

Lemma sampled_kept s s' t t' index sample : kept s s' → sampled s' t t' index sample → sampled s t t' index sample.
Proof. intros (H1 & H2 & H3). unfold sampled. by rewrite H1, H2. Qed.

Lemma rwp_read_slots k indices s t :
  source_ok s (env t) →
  rwp (read_slots k indices s) (fun r t' => client s r t' ∧ ∀ l s', r = Ok (Ok l, s') → Forall2 (sampled s t t') indices l) env t.
Proof.
  intros Hs. unfold read_slots. destruct indices as [|index indices].
  { apply rwp_ret. split; [by eapply client_same|]. by intros l s' [= <- _]. }
  set (idx := index :: indices). unfold with_reader. apply rwp_bind. eapply rwp_mono; [by apply rwp_ensure|].
  intros [[r s1]|e|] t1 Hle1 Hc; [|by split; [intros ? ? [=]|]..]. destruct (Hc r s1 eq_refl) as [Hs1 Hk1].
  destruct r as [[]|e|].
  - apply rwp_bind, rwp_catch. eapply rwp_mono; [by apply rwp_fenced|]. intros r t2 Hle2 Hr. apply rwp_ret. split.
    + intros ? ? [= <- <-]. split; [by eapply source_later|done].
    + intros l s' [= -> <-]. eapply Forall2_impl; [by apply Hr|]. intros i x Hx. eapply sampled_kept; [exact Hk1|].
      eapply sampled_mono; [| |exact Hx]; lia.
  - apply rwp_ret. split; [|done]. intros ? ? [= <- <-]. done.
  - apply rwp_answer. split; [by intros ? ? [=]|done].
Qed.

Lemma rwp_read_slot k index s t :
  source_ok s (env t) →
  rwp (source_read_slot k index s) (fun r t' => client s r t' ∧ ∀ sample s', r = Ok (Ok sample, s') → sampled s t t' index sample) env t.
Proof.
  intros Hs. unfold source_read_slot. apply rwp_bind. eapply rwp_mono; [by apply rwp_read_slots|].
  intros [[r s1]|e|] t1 Hle [Hc Hr]; [|by split; [intros ? ? [=]|]..]. apply rwp_ret. split.
  - intros ? ? [= <- <-]. by eapply Hc.
  - intros sample s' [= E <-]. destruct r as [l|e|]; [|done..]. specialize (Hr l s1 eq_refl).
    inversion Hr as [|? x ? ? Hx Hnil]; subst. inversion Hnil; subst. cbn in E. by injection E as ->.
Qed.

Lemma rwp_validate_layout now n s t :
  source_ok s (env t) →
  rwp (validate_layout now n s) (fun r t' => client s r t' ∧ ∀ s', r = Ok (Ok tt, s') → ∃ o k,
    (t ≤ k < t')%nat ∧ w_names (env k) !! cc_path (s_config s) = Some (sr_ino (o_reader o)) ∧
    generation_unstable (mapped_generation (file_bytes (env k) (sr_ino (o_reader o)))) = false) env t.
Proof.
  intros Hs. unfold validate_layout. apply rwp_bind. eapply rwp_mono; [by apply rwp_ensure|].
  intros [[r s1]|e|] t1 Hle1 Hc; [|by split; [intros ? ? [=]|]..]. destruct (Hc r s1 eq_refl) as [Hs1 Hk1].
  destruct r as [[]|e|].
  - apply rwp_bind, rwp_catch.
    eapply (rwp_mono _ _ (fun r t' => r = Ok tt → ∃ o k, (t ≤ k < t')%nat ∧ w_names (env k) !! cc_path (s_config s1) = Some (sr_ino (o_reader o)) ∧
      generation_unstable (mapped_generation (file_bytes (env k) (sr_ino (o_reader o)))) = false)).
    + apply rwp_bind, rwp_answer. destruct (opened (s_state s1)) as [o|] eqn:Ho; cbn [ok_or]; [|done].
      destruct Hs1 as [Hp Hok]. destruct (Hok o Ho) as [epoch Hx].
      apply rwp_bind, rwp_load, rwp_bind, rwp_load, rwp_bind, rwp_demand; [intros _|done].
      apply rwp_bind, rwp_demand; [|done]. intros [_ Hg%negb_true_iff]%andb_true_iff.
      assert (watched_ok (mapping_of s1 o epoch) (env (S t1))) as Hx' by (eapply flow_watched; [done|exact Hp| |exact Hx]; lia).
      pose proof (stable_visible s1 o epoch (S t1) Hx' Hg) as Hn.
      assert (∀ t', (S (S t1) ≤ t')%nat → ∃ o k, (t ≤ k < t')%nat ∧ w_names (env k) !! cc_path (s_config s1) = Some (sr_ino (o_reader o)) ∧
        generation_unstable (mapped_generation (file_bytes (env k) (sr_ino (o_reader o)))) = false) as Hend.
      { intros t' Ht'. exists o, (S t1). split; [lia|done]. }
      case_match; [|by apply rwp_ret; intros _; apply Hend].
      eapply rwp_mono; [apply (rwp_identity s1 o epoch)|].
      * eapply source_later; [done| |exact (conj Hp Hok)]. lia.
      * eapply flow_watched; [done|exact Hp| |exact Hx]. lia.
      * intros r t' Ht' _ _. by apply Hend.
    + intros r t2 Hle2 Hr. apply rwp_ret. split.
      * intros ? ? [= <- <-]. split; [by eapply source_later|done].
      * intros s' [= -> <-]. destruct Hk1 as (<- & _). by apply Hr.
  - apply rwp_ret. split; [|done]. intros ? ? [= <- <-]. done.
  - apply rwp_answer. split; [by intros ? ? [=]|done].
Qed.
End Client.

(** ** The view *)

Local Notation health_source g := (hr_source (channel_health g)).

(** The clients of the view read the two planes under the hashes of its manifests. *)
Definition wired (g : ShmReadTopologyGeneration) : Prop :=
  rt_point_path g = point_path ∧ rt_health_path g = health_path ∧
  cc_path (s_config (point_source g)) = point_path ∧ cc_path (s_config (health_source g)) = health_path ∧
  expected_layout_hash (s_config (point_source g)) = Manifest.layout_hash (point_manifest g) ∧
  expected_layout_hash (s_config (health_source g)) = health_layout_hash (health_manifest g).

Definition same_view (g g' : ShmReadTopologyGeneration) : Prop :=
  rt_point_path g' = rt_point_path g ∧ rt_health_path g' = rt_health_path g ∧
  point_manifest g' = point_manifest g ∧ health_manifest g' = health_manifest g ∧
  kept (point_source g) (point_source g') ∧ kept (health_source g) (health_source g') ∧
  pinned_point g' = pinned_point g ∧ pinned_health g' = pinned_health g ∧ pinned_epoch g' = pinned_epoch g.

Lemma wired_same g g' : same_view g g' → wired g → wired g'.
Proof.
  intros (H1 & H2 & H3 & H4 & (H5 & _) & (H6 & _) & _) (W1 & W2 & W3 & W4 & W5 & W6). unfold wired.
  rewrite H1, H2, H3, H4, H5, H6. by split_and!.
Qed.

Lemma source_kept_refl s : kept s s.
Proof. by split_and!. Qed.

Definition sources_ok (g : ShmReadTopologyGeneration) (w : world) : Prop :=
  source_ok (point_source g) w ∧ source_ok (health_source g) w.

(** A witness accepted under the leases, and that its generations are stable. *)
Definition agreed (g : ShmReadTopologyGeneration) (w : world) (c : TopologyPublicationCommit) : Prop :=
  accepted config health_path (Manifest.layout_hash (point_manifest g)) (Manifest.slot_count (point_manifest g))
    (health_layout_hash (health_manifest g)) (health_slot_count (health_manifest g)) w c ∧
  generation_unstable (point_writer_generation c) = false ∧ generation_unstable (health_writer_generation c) = false.

Lemma header_named path w i h :
  header_at path w = Some h → w_names w !! path = Some i → writer_generation h = mapped_generation (file_bytes w i).
Proof. unfold header_at. intros H E. rewrite E in H. by injection H as <-. Qed.

Lemma rwp_validate_view y fs g now t :
  inv config health_path [] y → wired g → sources_ok g (disk y) →
  rwp (validate_locked_publication now g) (fun r t' => ∀ r' g', r = Ok (r', g') →
    same_view g g' ∧ sources_ok g' (disk y) ∧ ∀ c, r' = Ok c → agreed g (disk y) c) (moment (fun _ => y) fs) t.
Proof.
  intros Hinv (W1 & W2 & W3 & W4 & W5 & W6) [Hp Hh].
  assert (flow (fun _ => y)) as Hf by (split; [done|]; intros ?; exists []; split; [constructor|done]).
  unfold validate_locked_publication. apply rwp_bind. eapply rwp_mono; [by apply (rwp_validate_layout _ fs Hf)|].
  intros [[r p]|e|] t1 Hle1 [Hc Hv]; [|done..]. destruct (Hc r p eq_refl) as [Hp1 Hk1]. cbv zeta.
  destruct r as [[]|e|]; [| |by apply rwp_answer].
  2: { apply rwp_ret. intros ? ? [= <- <-]. split; [|split; [by split|done]]. split_and!; try done; by apply source_kept_refl. }
  destruct (Hv p eq_refl) as (o & k & _ & Hn & Hg). clear Hv Hc.
  apply rwp_bind. cbn [channel_health with_sources health_manifest]. eapply rwp_mono; [by apply (rwp_validate_layout _ fs Hf)|].
  intros [[r h]|e|] t2 Hle2 [Hc Hv]; [|done..]. destruct (Hc r h eq_refl) as [Hh1 Hk2]. cbv zeta.
  set (g' := with_sources p (with_source h (channel_health g)) g).
  assert (same_view g g') as Hsame by (split_and!; done).
  destruct r as [[]|e|]; [| |by apply rwp_answer].
  2: { apply rwp_ret. intros ? ? [= <- <-]. split; [done|]. split; [by split|done]. }
  destruct (Hv h eq_refl) as (o' & k' & _ & Hn' & Hg'). clear Hv Hc.
  apply rwp_bind, rwp_catch, rwp_call. intros r E. apply rwp_ret. intros ? ? [= <- <-]. split; [done|]. split; [by split|]. intros c ->.
  destruct Hinv as (Hb & Hwit & _).
  change (rt_point_path (with_sources (point_source (with_sources p (channel_health g) g)) (with_source h (channel_health g)) (with_sources p (channel_health g) g)))
    with (rt_point_path g) in E.
  change (rt_health_path (with_sources (point_source (with_sources p (channel_health g) g)) (with_source h (channel_health g)) (with_sources p (channel_health g) g)))
    with (rt_health_path g) in E. rewrite W1, W2 in E.
  pose proof (spec_result _ _ _ (moment (fun _ => y) fs t2) (fun b => spec_validate_locked config health_path b True _
    (Manifest.layout_hash (point_manifest g)) (Manifest.slot_count (point_manifest g)) (health_layout_hash (health_manifest g))
    (health_slot_count (health_manifest g)) (disk y) (moment (fun _ => y) fs t2) I Hb (witness_behind_ok _ _ _ Hwit) (ex_intro _ (fs t2) eq_refl))) as H.
  destruct (validate_topology_publication_locked _ _ _ _ _ _ _) as [[rr|] w'] in E, H; cbn in E; [|done]. injection E as ->.
  destruct H as [_ Ha]. split; [exact Ha|]. destruct Ha as (hp & hh & Ep & Eh & _ & _ & _ & _ & _ & _ & Hm).
  unfold matches_readers in Hm. bool_to_prop. rewrite W3 in Hn. rewrite W4 in Hn'.
  pose proof (header_named _ _ _ _ Ep Hn) as G1. pose proof (header_named _ _ _ _ Eh Hn') as G2.
  split; [replace (point_writer_generation c) with (writer_generation hp) by congruence; rewrite G1; exact Hg|].
  replace (health_writer_generation c) with (writer_generation hh) by congruence. rewrite G2. exact Hg'.
Qed.

(** Some transaction asked for the topology of these manifests. *)
Definition requested (pm : Manifest.ChannelPointManifest) (hm : ChannelHealthManifest) (y : system) : Prop :=
  ∃ q, q ∈ asked y ∧ Manifest.layout_hash pm = Manifest.layout_hash (points q) ∧ Manifest.slot_count pm = Manifest.slot_count (points q) ∧
    health_layout_hash hm = health_layout_hash (channels q) ∧ health_slot_count hm = health_slot_count (channels q).

(** The view is not pinned, or both clients are pinned to one publication of its topology. *)
Definition pinned_ok (g : ShmReadTopologyGeneration) (y : system) : Prop :=
  (pinned_epoch g = 0 ∧ expected_publication_epoch (point_source g) = PUBLICATION_VALIDATION_PENDING ∧
   expected_publication_epoch (health_source g) = PUBLICATION_VALIDATION_PENDING) ∨
  (pinned_epoch g ≠ 0 ∧ expected_publication_epoch (point_source g) = pinned_epoch g ∧
   expected_publication_epoch (health_source g) = pinned_epoch g ∧ requested (point_manifest g) (health_manifest g) y).
Definition view_ok (g : ShmReadTopologyGeneration) (y : system) : Prop := wired g ∧ sources_ok g (disk y) ∧ pinned_ok g y.

Lemma asked_values p m fs y : asked (values p m fs y) = asked y.
Proof. unfold values. destruct (procs y !! p); [|done]. by destruct (m _ _) as [[[]|] w]. Qed.

Lemma asked_step y e : ∀ q, q ∈ asked y → q ∈ asked (step config health_path y e).
Proof.
  intros q Hq. destruct e as [o fs]. unfold step. destruct o as [p sn fb q'|p q'|?|?|?|?|?]; rewrite ?asked_values; try done.
  - destruct (start_publication _ _ _ _ _ _) as [[[[c proc]|e|]|] w]; cbn; set_solver.
  - destruct (procs y !! p); [|done]. destruct (publish_topology_generation _ _ _ _ _) as [[[[[c|e|] proc]|e|]|] w]; cbn; set_solver.
Qed.

Lemma asked_flow ys t t' : flow ys → (t ≤ t')%nat → ∀ q, q ∈ asked (ys t) → q ∈ asked (ys t').
Proof.
  intros [_ Hs] Hle q Hq. induction Hle as [|t' Hle IH]; [done|]. destruct (Hs t') as (es & _ & ->).
  revert IH. generalize (ys t'). induction es as [|e es IHes]; intros y Hy; cbn [fold_left]; [done|]. by apply IHes, asked_step.
Qed.

Lemma view_later ys t t' g : flow ys → (t ≤ t')%nat → view_ok g (ys t) → view_ok g (ys t').
Proof.
  intros Hf Hle (Hw & [Hp Hh] & Hpin). split; [done|]. split.
  - split; [by apply (source_later ys (fun _ => []) _ t t')|by apply (source_later ys (fun _ => []) _ t t')].
  - destruct Hpin as [Hpin|(H1 & H2 & H3 & q & Hq & Hlay)]; [by left|right]. split_and!; try done. exists q. split; [by eapply asked_flow|done].
Qed.

Lemma view_same g g' y : same_view g g' → view_ok g y → sources_ok g' (disk y) → view_ok g' y.
Proof.
  intros Hs (Hw & _ & Hpin) Hok. split; [by eapply wired_same|]. split; [done|].
  destruct Hs as (_ & _ & H3 & H4 & (_ & H5 & _) & (_ & H6 & _) & _ & _ & H7). unfold pinned_ok. by rewrite H3, H4, H5, H6, H7.
Qed.

(** Pinning an agreed witness. *)
Lemma pin_agreed g c y :
  inv config health_path [] y → view_ok g y → agreed g (disk y) c → pinned_epoch g = 0 ∨ tc_epoch c = pinned_epoch g →
  ∃ g', pin_publication c g = (Ok tt, g') ∧ view_ok g' y ∧ point_manifest g' = point_manifest g ∧ health_manifest g' = health_manifest g ∧
    pinned_epoch g' = tc_epoch c.
Proof.
  intros (_ & _ & Hown & _) (Hw & [Hp Hh] & _) (Ha & G1 & G2) _.
  pose proof (accepted_owned config health_path _ _ _ _ _ _ _ Hown Ha) as Hq.
  destruct Ha as (_ & _ & _ & _ & _ & _ & _ & _ & _ & ((E1 & E2 & _) & _) & _).
  unfold pin_publication, accept_publication_identity. unfold PUBLICATION_VALIDATION_PENDING.
  rewrite (proj2 (Z.eqb_neq _ _) E1), (proj2 (Z.eqb_neq _ _) E2), G1, G2. cbn [orb].
  eexists. split; [done|]. split; [|done]. split; [exact Hw|]. split; [by split|]. right. by split_and!.
Qed.

Lemma rwp_authority ys fs now g t :
  flow ys → view_ok g (ys t) →
  rwp (with_validated_authority now g) (fun r t' => ∀ r' g', r = Ok (r', g') →
    view_ok g' (ys t') ∧ point_manifest g' = point_manifest g ∧ health_manifest g' = health_manifest g ∧
    (pinned_epoch g ≠ 0 → pinned_epoch g' = pinned_epoch g)) (moment ys fs) t.
Proof.
  intros Hf Hg. unfold with_validated_authority. apply rwp_bind, rwp_catch.
  eapply (rwp_mono _ _ (fun r t' => ∀ r' g', r = Ok (r', g') →
    view_ok g' (ys t) ∧ point_manifest g' = point_manifest g ∧ health_manifest g' = health_manifest g ∧
    (pinned_epoch g ≠ 0 → pinned_epoch g' = pinned_epoch g))).
  - apply rwp_locked. change (fun j => with_faults (w_faults (moment ys fs j)) (moment ys fs t)) with (moment (fun _ => ys t) fs).
    apply rwp_bind, rwp_call. intros [[]|e|] _; [|done..]. apply rwp_bind, rwp_call. intros [[]|e|] _; [|done..].
    apply rwp_bind. eapply rwp_mono; [apply (rwp_validate_view (ys t)); [by apply flow_inv|apply Hg|apply Hg]|].
    intros [[r g1]|e|] t1 Hle1 Hv; [|done..]. destruct (Hv r g1 eq_refl) as (Hsame & Hok & Hc). apply rwp_ret. intros r' g' [= E].
    pose proof (view_same g g1 (ys t) Hsame Hg Hok) as Hg1. pose proof Hsame as (_ & _ & M1 & M2 & _ & _ & _ & _ & M3).
    assert (view_ok g1 (ys t) ∧ point_manifest g1 = point_manifest g ∧ health_manifest g1 = health_manifest g ∧
      (pinned_epoch g ≠ 0 → pinned_epoch g1 = pinned_epoch g)) as Hstay by (split_and!; try apply Hg1; done).
    destruct r as [c|e|]; [|by simplify_eq..]. destruct (changed g1 c) eqn:Hch; [by simplify_eq|].
    assert (agreed g1 (disk (ys t)) c) as Ha by (unfold agreed; rewrite M1, M2; by apply Hc).
    assert (pinned_epoch g1 = 0 ∨ tc_epoch c = pinned_epoch g1) as Hep.
    { unfold changed in Hch. apply andb_false_iff in Hch as [H|H]; [left; bool_to_prop; done|right]. bool_to_prop. done. }
    destruct (pin_agreed g1 c (ys t) (flow_inv ys t Hf) Hg1 Ha Hep) as (g2 & E2 & H2 & K1 & K2 & K3). rewrite E2 in E. simplify_eq.
    split; [done|]. rewrite K1, K2, M1, M2. split_and!; [done|done|]. intros Hne. rewrite K3. destruct Hep; congruence.
  - intros r t' Hle Hr. cbv beta iota. destruct r as [[r g1]|e|].
    + apply rwp_ret. intros r' g' [= <- <-]. destruct (Hr r g1 eq_refl) as (H1 & H2). split; [by eapply view_later|done].
    + apply rwp_ret. intros r' g' [= <- <-]. split; [by eapply view_later|done].
    + by apply rwp_answer.
Qed.

(** ** Histories of a view *)

(** What one operation reports of the publication with the epoch [e]. *)
Definition reported (ys : nat → system) (fs : nat → list fault) (pm : Manifest.ChannelPointManifest) (hm : ChannelHealthManifest)
    (e : Z) (p : performed) : Prop :=
  match p_op p, p_outcome p with
  | ORead _ indices, Samples (Ok l) =>
      Forall2 (fun index sample => ∃ k d, (p_begin p ≤ k < p_end p)%nat ∧
        seen ys fs point_path (Manifest.layout_hash pm) e index d k ∧ snapshot_of d = Ok sample) indices l ∧
      (indices ≠ [] → requested pm hm (ys (p_end p)))
  | OHealth _ channel, Observation (Ok (Some h)) =>
      (∃ k d slot, (p_begin p ≤ k < p_end p)%nat ∧ health_slot_for hm channel = Some slot ∧
         seen ys fs health_path (health_layout_hash hm) e slot d k ∧
         h = Health channel (Float.eqb (Float.from_bits (Slot.value_bits d)) Float.one) (Slot.timestamp d)) ∧
      requested pm hm (ys (p_end p))
  | _, _ => True
  end.

Lemma requested_later ys pm hm t t' : flow ys → (t ≤ t')%nat → requested pm hm (ys t) → requested pm hm (ys t').
Proof. intros Hf Hle (q & Hq & H). exists q. split; [by eapply asked_flow|done]. Qed.

Lemma zero_not_one x : Float.eqb x Float.zero = true → Float.eqb x Float.one = false.
Proof. destruct x as [[]|[]| |[] m e']; done. Qed.

Lemma rwp_observation ys fs (Hf : flow ys) k channel h t :
  source_ok (hr_source h) (moment ys fs t) →
  rwp (read_observation k channel h) (fun r t' => ∀ r' h', r = Ok (r', h') →
    source_ok (hr_source h') (moment ys fs t') ∧ kept (hr_source h) (hr_source h') ∧ hr_manifest h' = hr_manifest h ∧
    ∀ o, r' = Ok (Some o) → ∃ slot sample, health_slot_for (hr_manifest h) channel = Some slot ∧ sampled ys fs (hr_source h) t t' slot sample ∧
      o = Health channel (Float.eqb (ss_value sample) Float.one) (ss_timestamp sample)) (moment ys fs) t.
Proof.
  intros Hs. unfold read_observation. destruct (health_slot_for (hr_manifest h) channel) as [slot|].
  2: { apply rwp_ret. intros ? ? [= <- <-]. split_and!; try done; apply Hs. }
  apply rwp_bind. eapply rwp_mono; [by apply rwp_read_slot|]. intros [[r s]|e|] t1 Hle [Hc Hr]; [|done..].
  destruct (Hc r s eq_refl) as [Hs1 Hk1]. apply rwp_ret. intros r' h' [= <- <-]. split; [exact Hs1|]. split; [exact Hk1|]. split; [done|].
  intros o E. destruct r as [sample|e|]; [|done..]. exists slot, sample. split; [done|]. split; [by eapply Hr|].
  destruct (Float.is_nan (ss_value sample)); [done|]. destruct (Float.eqb (ss_value sample) Float.zero) eqn:H0.
  - apply zero_not_one in H0. rewrite H0. by injection E as <-.
  - destruct (Float.eqb (ss_value sample) Float.one); [by injection E as <-|done].
Qed.

Lemma sampled_pinned ys fs s t t' index sample :
  sampled ys fs s t t' index sample → expected_publication_epoch s ≠ 0 →
  expected_publication_epoch s ≠ PUBLICATION_VALIDATION_PENDING ∧
  ∃ k d, (t ≤ k < t')%nat ∧ seen ys fs (cc_path (s_config s)) (expected_layout_hash (s_config s)) (expected_publication_epoch s) index d k ∧
    snapshot_of d = Ok sample.
Proof.
  intros (k & d & epoch & Hk & Hseen & Hsn & [H0|[Hne He]]) Hpin; [done|]. split; [done|]. exists k, d. by rewrite He.
Qed.

Lemma snapshot_fields d sample : snapshot_of d = Ok sample →
  ss_value sample = Float.from_bits (Slot.value_bits d) ∧ ss_timestamp sample = Slot.timestamp d.
Proof. unfold snapshot_of. destruct (decode_point_quality _); [|done..]. by intros [= <-]. Qed.

Lemma rwp_perform ys fs o g t :
  flow ys → view_ok g (ys t) →
  rwp (perform o g) (fun r t' => ∀ out g', r = Ok (out, g') →
    view_ok g' (ys t') ∧ point_manifest g' = point_manifest g ∧ health_manifest g' = health_manifest g ∧
    (pinned_epoch g ≠ 0 → pinned_epoch g' = pinned_epoch g) ∧
    ∀ e, pinned_epoch g = 0 ∨ pinned_epoch g = e → reported ys fs (point_manifest g) (health_manifest g) e (Performed o t t' out)) (moment ys fs) t.
Proof.
  intros Hf Hg. pose proof Hg as ((_ & _ & W3 & W4 & W5 & W6) & [Hp Hh] & Hpin). destruct o as [now|k indices|k channel]; cbn [perform].
  - apply rwp_bind. eapply rwp_mono; [by apply rwp_authority|]. intros [[r g1]|e|] t1 Hle H; [|done..]. apply rwp_ret. intros out g' [= <- <-].
    destruct (H r g1 eq_refl) as (H1 & H2 & H3 & H4). by split_and!; try apply H1.
  - apply rwp_bind. eapply rwp_mono; [by apply rwp_read_slots|]. intros [[r p]|e|] t1 Hle [Hc Hr]; [|done..].
    destruct (Hc r p eq_refl) as [Hp1 Hk1]. apply rwp_ret. intros out g' [= <- <-].
    assert (same_view g (with_sources p (channel_health g) g)) as Hsame by (split_and!; done || apply source_kept_refl).
    split. { eapply view_same; [exact Hsame|by eapply view_later|]. split; [exact Hp1|]. by apply (source_later ys (fun _ => []) _ t t1). }
    split; [done|]. split; [done|]. split; [done|]. intros e Hep. unfold reported. cbn [p_op p_outcome p_begin p_end].
    destruct r as [l|er|]; [|done..]. specialize (Hr l p eq_refl).
    assert (∀ index sample, sampled ys fs (point_source g) t t1 index sample → requested (point_manifest g) (health_manifest g) (ys t1) ∧
      ∃ k d, (t ≤ k < t1)%nat ∧ seen ys fs point_path (Manifest.layout_hash (point_manifest g)) e index d k ∧ snapshot_of d = Ok sample) as Hone.
    { intros index sample Hs. destruct Hpin as [(P1 & P2 & _)|(P1 & P2 & P3 & P4)].
      - destruct (sampled_pinned _ _ _ _ _ _ _ Hs) as [H _]; [by rewrite P2|]. done.
      - destruct (sampled_pinned _ _ _ _ _ _ _ Hs) as (_ & k' & d & Hk & Hsn & Hd); [by rewrite P2|]. rewrite W3, W5, P2 in Hsn.
        split; [by eapply requested_later|]. exists k', d. destruct Hep as [?|<-]; [done|]. done. }
    split; [eapply Forall2_impl; [exact Hr|]; intros index sample Hs; by apply Hone|].
    intros Hne. destruct Hr as [|index sample ? ? Hs _]; [done|]. by apply (Hone _ _ Hs).
  - apply rwp_bind. eapply rwp_mono; [by apply rwp_observation|]. intros [[r h]|e|] t1 Hle Hr; [|done..].
    destruct (Hr r h eq_refl) as (Hh1 & Hk1 & Hm & Ho). apply rwp_ret. intros out g' [= <- <-].
    assert (same_view g (with_sources (point_source g) h g)) as Hsame by (split_and!; done || apply source_kept_refl).
    split. { eapply view_same; [exact Hsame|by eapply view_later|]. split; [|exact Hh1]. by apply (source_later ys (fun _ => []) _ t t1). }
    split; [done|]. split; [done|]. split; [done|]. intros e Hep. unfold reported. cbn [p_op p_outcome p_begin p_end].
    destruct r as [[o|]|er|]; [|done..]. destruct (Ho o eq_refl) as (slot & sample & Hsl & Hs & ->).
    destruct Hpin as [(P1 & _ & P2)|(P1 & P2 & P3 & P4)].
    + destruct (sampled_pinned _ _ _ _ _ _ _ Hs) as [H _]; [by rewrite P2|]. done.
    + destruct (sampled_pinned _ _ _ _ _ _ _ Hs) as (_ & k' & d & Hk & Hsn & Hd); [by rewrite P3|]. rewrite W4, W6, P3 in Hsn.
      split; [|by eapply requested_later]. exists k', d, slot. destruct Hep as [?|<-]; [done|].
      destruct (snapshot_fields d sample Hd) as [-> ->]. done.
Qed.

Lemma consume_reported ys fs ops g t :
  flow ys → view_ok g (ys t) →
  ∃ e, (pinned_epoch g ≠ 0 → e = pinned_epoch g) ∧
    Forall (reported ys fs (point_manifest g) (health_manifest g) e) (consume ops g (moment ys fs) t).
Proof.
  intros Hf. revert g t. induction ops as [|o ops IH]; intros g t Hg; cbn [consume]; [exists (pinned_epoch g); by split|].
  pose proof (rwp_perform ys fs o g t Hf Hg) as H. unfold rwp in H.
  destruct (perform o g (moment ys fs) t) as [[[[out g1]|e|]|] t1]; [|exists (pinned_epoch g); by split..].
  destruct H as [Hle H]. destruct (H out g1 eq_refl) as (H1 & M1 & M2 & M3 & M4).
  destruct (IH g1 t1 H1) as (e & He & Hall). rewrite M1, M2 in Hall. exists e.
  assert (pinned_epoch g ≠ 0 → e = pinned_epoch g) as Hpe.
  { intros Hne. rewrite <- (M3 Hne). apply He. by rewrite M3. }
  split; [done|]. constructor; [|done]. apply M4. destruct (decide (pinned_epoch g = 0)) as [|Hne]; [by left|right]. by rewrite Hpe.
Qed.

Lemma lazy_ok pc hc pm hm g y :
  cc_path pc = point_path → cc_path hc = health_path → new_lazy pc hc pm hm = Ok g →
  view_ok g y ∧ point_manifest g = pm ∧ health_manifest g = hm ∧ pinned_epoch g = 0.
Proof.
  intros Hp Hh. unfold new_lazy. case_bool_decide; [done|]. destruct (Z.eqb_spec (expected_layout_hash pc) (Manifest.layout_hash pm)); [|done].
  destruct (Z.eqb_spec (expected_layout_hash hc) (health_layout_hash hm)); [|done]. cbn [negb]. intros [= <-].
  split; [|done]. split; [by split_and!|]. split; [|by left]. split; (split; [|done]); [by left|by right].
Qed.

End Flow.

Module Sample.
Import Coordinated.Sample.

(** Both heartbeats at 1000; the second topology is published at the moment 33. *)
Definition living : list (event * list fault) := life ++ [(EPointBeat 0 1000, []); (EHealthBeat 0 1000, [])].
Definition first_world : system := run config health blank_world living.
Definition second_world : system := step config health first_world (EPublish 0 second, []).
Definition worlds (t : nat) : system := if (t <? 33)%nat then first_world else second_world.
Definition no_faults (t : nat) : list fault := [].

Definition point_config : ShmClientConfig := ClientConfig live 0 250 30000 250.
Definition health_config : ShmClientConfig := ClientConfig health 5 250 30000 250.
Definition at_ms (t : Z) : instant := Instant t t.
Definition ops : list op :=
  [ORead (at_ms 1000) [1%nat]; OValidate 1300; ORead (at_ms 1301) [1%nat; 0%nat]; OHealth (at_ms 1302) 7; ORead (at_ms 1303) [1%nat]; OValidate 1400].

Definition view : res Outbox.PortErrorKind ShmReadTopologyGeneration :=
  new_lazy point_config health_config Manifest.sample_manifest (HealthManifest [7; 9] 5).

Definition summary (p : performed) : option (res Outbox.PortErrorKind (list (option Z * Z))) :=
  match p_outcome p with
  | Samples r => Some ((fun l => map (fun s => (if Float.eqb (ss_value s) Float.one then Some 1 else None, ss_timestamp s)) l) <$> r)
  | Observation r => Some ((fun o => match o with Some h => [(if ho_online h then Some 1 else Some 0, ho_timestamp h)] | None => [] end) <$> r)
  | Validated r => Some ((fun _ => []) <$> r)
  end.

Definition reports : list performed := match view with Ok g => consume ops g (moment worlds no_faults) 0 | _ => [] end.

(** Nothing is read before the validation; then the values of the first topology; once it
    was replaced, during the fifth operation, reads and validations are refused. *)
Example view_run :
  map summary reports =
  [Some (Err Outbox.Conflict); Some (Ok []); Some (Ok [(Some 1, 900); (None, 0)]); Some (Ok [(Some 1, 1000)]);
   Some (Err Outbox.Conflict); Some (Err Outbox.Conflict)].
Proof. by vm_compute. Qed.

Lemma view_new : match view with Ok _ => true | _ => false end = true.
Proof. by vm_compute. Qed.

Lemma living_ok : Forall event_ok living.
Proof. apply Forall_app. split; [apply events_ok|]. apply Forall_cons. split; [done|]. by apply Forall_singleton. Qed.

Lemma switch_flow (y : system) (e : event * list fault) (n : nat) :
  event_ok e → ∀ t, ∃ es, Forall event_ok es ∧
    (if (S t <? n)%nat then y else step config health y e) =
    fold_left (step config health) es (if (t <? n)%nat then y else step config health y e).
Proof.
  intros He t. destruct (Nat.ltb_spec (S t) n), (Nat.ltb_spec t n); [|lia| |].
  - exists []. split; [constructor|reflexivity].
  - exists [e]. split; [by apply Forall_singleton|reflexivity].
  - exists []. split; [constructor|reflexivity].
Qed.

Lemma worlds_flow : ∀ t, ∃ es, Forall event_ok es ∧ worlds (S t) = fold_left (step config health) es (worlds t).
Proof. exact (switch_flow first_world (EPublish 0 second, []) 33 second_ok). Qed.

End Sample.
End Readers.
