(* ===== verification/Processing.v ===== *)
(** * The data-processing domain

    crates/aether-domain/src/data_processing.rs and the source and processor
    contracts of crates/aether-ports/src/data_processing.rs: tasks and their
    forecast specification, bounded frames with quality and provenance, requests,
    results.  Fields are private there, so every value was made by a constructor;
    the [_ok] predicates say what the constructors establish. *)

From Stdlib Require Import ZArith Lia Ascii String Permutation SpecFloat.
From stdpp Require Import base tactics numbers list strings sorting.
From S2P Require Import Prelude Float Domain Outbox Executor Governance.
#[local] Open Scope Z_scope.

Module Processing.
Import Float Domain.

(** ** Shared checks *)

Definition check {E} (b : bool) (e : E) : res E unit := if b then Ok tt else Err e.

Definition nonempty (value : string) : res DomainError string :=
  if Governance.blank (Governance.utf8 value) then Err EmptyIdentifier else Ok value.

Fixpoint map_res {E A B} (f : A → res E B) (l : list A) : res E (list B) :=
  match l with
  | [] => Ok []
  | a :: l => b ← f a; bs ← map_res f l; Ok (b :: bs)
  end.

(** [windows(2).all(..)] *)
Fixpoint windows {A} (f : A → A → bool) (l : list A) : bool :=
  match l with
  | [] => true
  | a :: l' => match l' with b :: _ => f a b | [] => true end && windows f l'
  end.

Definition timestamps_are_strictly_increasing : list Z → bool := windows Z.ltb.

(** No element is the same as one before it. *)
Fixpoint distinct_from {A} (same : A → A → bool) (seen l : list A) : bool :=
  match l with
  | [] => true
  | a :: l => negb (existsb (fun s => same s a) seen) && distinct_from same (seen ++ [a]) l
  end.
Definition distinct {A} (same : A → A → bool) (l : list A) : bool := distinct_from same [] l.
Definition by_name {A} (name : A → string) (a b : A) : bool := String.eqb (name a) (name b).
Definition strings_are_unique : list string → bool := distinct String.eqb.

Definition count {A} (p : A → bool) (l : list A) : nat := length (List.filter p l).

Definition is_lower_hex (c : Ascii.ascii) : bool :=
  let n := Z.of_N (Ascii.N_of_ascii c) in ((48 <=? n) && (n <=? 57)) || ((97 <=? n) && (n <=? 102)).
Definition is_sha256_digest (value : string) : bool :=
  String.prefix "sha256:" value
  && (String.length value =? 71)%nat
  && forallb is_lower_hex (drop 7 (list_ascii_of_string value)).

(** ** Tasks *)

Record TaskIdentity := TaskId { task_id : string; task_revision : Z }.
Record BindingIdentity := BindingId { binding_id : string; binding_revision : Z }.
#[global] Instance task_identity_eq_dec : EqDecision TaskIdentity.
Proof. solve_decision. Defined.
#[global] Instance binding_identity_eq_dec : EqDecision BindingIdentity.
Proof. solve_decision. Defined.

Definition task_identity_new (id : string) (revision : Z) : res DomainError TaskIdentity :=
  if revision =? 0 then Err ZeroRevision else id ← nonempty id; Ok (TaskId id revision).
Definition binding_identity_new (id : string) (revision : Z) : res DomainError BindingIdentity :=
  if revision =? 0 then Err ZeroRevision else id ← nonempty id; Ok (BindingId id revision).

Inductive TaskKind := Forecast.
Inductive FeatureRole := RHistory | RFutureCovariate | RStatic.
Inductive FeatureValueType := TNumber | TText | TBoolean.
#[global] Instance task_kind_eq_dec : EqDecision TaskKind.
Proof. solve_decision. Defined.
#[global] Instance feature_role_eq_dec : EqDecision FeatureRole.
Proof. solve_decision. Defined.
#[global] Instance feature_value_type_eq_dec : EqDecision FeatureValueType.
Proof. solve_decision. Defined.

Record NumericFeatureConstraints := NumericConstraints { nc_minimum : option f64; nc_maximum : option f64; nc_integer : bool }.

Definition numeric_constraints_new (minimum maximum : option f64) (integer : bool)
    : res DomainError NumericFeatureConstraints :=
  if is_some_and (fun v => negb (is_finite v)) minimum || is_some_and (fun v => negb (is_finite v)) maximum
     || match minimum, maximum with Some min, Some max => ltb max min | _, _ => false end
  then Err InvalidFrameQuality else Ok (NumericConstraints minimum maximum integer).

Definition is_none_or {A} (f : A → bool) (o : option A) : bool := from_option f true o.

Definition accepts (c : NumericFeatureConstraints) (value : f64) : bool :=
  is_finite value
  && is_none_or (fun minimum => leb minimum value) (nc_minimum c)
  && is_none_or (fun maximum => leb value maximum) (nc_maximum c)
  && (negb (nc_integer c) || eqb (rem value one) zero).

Record FeatureDefinition := Feature {
  fd_name : string; fd_role : FeatureRole; fd_type : FeatureValueType;
  fd_unit : option string; numeric_constraints : option NumericFeatureConstraints }.

Definition feature_new (name : string) (role : FeatureRole) (ty : FeatureValueType) : res DomainError FeatureDefinition :=
  name ← nonempty name; Ok (Feature name role ty None None).
Definition feature_numeric (name : string) (role : FeatureRole) (unit : string) : res DomainError FeatureDefinition :=
  name ← nonempty name; unit ← nonempty unit; Ok (Feature name role TNumber (Some unit) None).
Definition with_numeric_constraints (c : NumericFeatureConstraints) (d : FeatureDefinition) : res DomainError FeatureDefinition :=
  if bool_decide (fd_type d = TNumber) then Ok (Feature (fd_name d) (fd_role d) (fd_type d) (fd_unit d) (Some c))
  else Err FeatureTypeMismatch.

(** The derived [==]: limits are compared as numbers. *)
Definition option_eqb {A} (f : A → A → bool) (a b : option A) : bool :=
  match a, b with Some a, Some b => f a b | None, None => true | _, _ => false end.
Definition constraints_eqb (a b : NumericFeatureConstraints) : bool :=
  option_eqb eqb (nc_minimum a) (nc_minimum b) && option_eqb eqb (nc_maximum a) (nc_maximum b)
  && Bool.eqb (nc_integer a) (nc_integer b).
Definition definition_eqb (a b : FeatureDefinition) : bool :=
  String.eqb (fd_name a) (fd_name b) && bool_decide (fd_role a = fd_role b) && bool_decide (fd_type a = fd_type b)
  && bool_decide (fd_unit a = fd_unit b) && option_eqb constraints_eqb (numeric_constraints a) (numeric_constraints b).

Record ForecastTarget := Target { target_name : string; target_unit : string; sign_convention : string }.
Definition target_new (name unit sign : string) : res DomainError ForecastTarget :=
  name ← nonempty name; unit ← nonempty unit; sign ← nonempty sign; Ok (Target name unit sign).

Inductive HistoryAggregation := Mean | Last | Sum | Min | Max.
Inductive HistoryDuplicatePolicy := Latest | Reject.
#[global] Instance aggregation_eq_dec : EqDecision HistoryAggregation.
Proof. solve_decision. Defined.

Record HistoryFeaturePolicy := HistoryPolicy {
  hp_feature : string; hp_aggregation : HistoryAggregation; hp_duplicate : HistoryDuplicatePolicy }.
Definition history_policy_new (feature : string) (a : HistoryAggregation) (d : HistoryDuplicatePolicy)
    : res DomainError HistoryFeaturePolicy := feature ← nonempty feature; Ok (HistoryPolicy feature a d).

Record FallbackPolicy := Fallback_ {
  fp_strategy : string; fp_version : string; fp_source_feature : string; fp_max_output_age_ms : Z }.
Definition fallback_policy_new (strategy version source : string) (age : Z) : res DomainError FallbackPolicy :=
  if age =? 0 then Err InvalidProcessingWindow
  else strategy ← nonempty strategy; version ← nonempty version; source ← nonempty source; Ok (Fallback_ strategy version source age).

Record ForecastTaskSpec := Spec {
  spec_target : ForecastTarget; cadence_ms : Z;
  history_aggregation : HistoryAggregation; history_duplicate_policy : HistoryDuplicatePolicy;
  history_feature_policies : list HistoryFeaturePolicy;
  history_steps : Z; max_horizon_steps : Z; max_quantiles : Z;
  max_output_age_ms : Z; max_missing_ratio : f64;
  allowed_fallbacks : list string; fallback_policies : list FallbackPolicy;
  max_input_age_ms : option Z; spec_max_gap_ms : option Z; require_future_issue_time : bool }.

(** [v.is_finite() && (0.0..=1.0).contains(&v)] *)
Definition is_ratio (v : f64) : bool := is_finite v && leb zero v && leb v one.

Definition spec_new (target : ForecastTarget) (cadence : Z) (a : HistoryAggregation) (d : HistoryDuplicatePolicy)
    (steps horizon output_age : Z) (ratio : f64) (fallbacks : list string) : res DomainError ForecastTaskSpec :=
  if (cadence =? 0) || (steps =? 0) || (horizon =? 0) || (output_age =? 0) then Err InvalidProcessingWindow
  else if negb (is_ratio ratio) then Err InvalidFrameQuality
  else
    fallbacks ← map_res nonempty fallbacks;
    if negb (strings_are_unique fallbacks) then Err InvalidProcessingState
    else Ok (Spec target cadence a d [] steps horizon 0 output_age ratio fallbacks [] None None false).

Definition with_input_quality_limits (age gap : Z) (s : ForecastTaskSpec) : res DomainError ForecastTaskSpec :=
  if (age =? 0) || (gap <? cadence_ms s) then Err InvalidFrameQuality
  else Ok (Spec (spec_target s) (cadence_ms s) (history_aggregation s) (history_duplicate_policy s) (history_feature_policies s)
             (history_steps s) (max_horizon_steps s) (max_quantiles s) (max_output_age_ms s) (max_missing_ratio s)
             (allowed_fallbacks s) (fallback_policies s) (Some age) (Some gap) (require_future_issue_time s)).

Definition with_fallback_policies (policies : list FallbackPolicy) (s : ForecastTaskSpec) : res DomainError ForecastTaskSpec :=
  if negb (length policies =? length (allowed_fallbacks s))%nat
     || existsb (fun p => (max_output_age_ms s <? fp_max_output_age_ms p)
                          || negb (existsb (String.eqb (fp_strategy p)) (allowed_fallbacks s))) policies
     || negb (distinct (by_name fp_strategy) policies)
  then Err InvalidProcessingState
  else Ok (Spec (spec_target s) (cadence_ms s) (history_aggregation s) (history_duplicate_policy s) (history_feature_policies s)
             (history_steps s) (max_horizon_steps s) (max_quantiles s) (max_output_age_ms s) (max_missing_ratio s)
             (allowed_fallbacks s) policies (max_input_age_ms s) (spec_max_gap_ms s) (require_future_issue_time s)).

Definition requiring_future_issue_time (s : ForecastTaskSpec) : ForecastTaskSpec :=
  Spec (spec_target s) (cadence_ms s) (history_aggregation s) (history_duplicate_policy s) (history_feature_policies s)
    (history_steps s) (max_horizon_steps s) (max_quantiles s) (max_output_age_ms s) (max_missing_ratio s)
    (allowed_fallbacks s) (fallback_policies s) (max_input_age_ms s) (spec_max_gap_ms s) true.

Definition with_history_feature_policies (policies : list HistoryFeaturePolicy) (s : ForecastTaskSpec) : res DomainError ForecastTaskSpec :=
  match policies with
  | [] => Err InvalidProcessingState
  | _ =>
      if negb (distinct (by_name hp_feature) policies) then Err InvalidProcessingState
      else Ok (Spec (spec_target s) (cadence_ms s) (history_aggregation s) (history_duplicate_policy s) policies
                 (history_steps s) (max_horizon_steps s) (max_quantiles s) (max_output_age_ms s) (max_missing_ratio s)
                 (allowed_fallbacks s) (fallback_policies s) (max_input_age_ms s) (spec_max_gap_ms s) (require_future_issue_time s))
  end.

Definition with_max_quantiles (n : Z) (s : ForecastTaskSpec) : res DomainError ForecastTaskSpec :=
  if (n =? 0) || (19 <? n) then Err InvalidProcessingWindow
  else Ok (Spec (spec_target s) (cadence_ms s) (history_aggregation s) (history_duplicate_policy s) (history_feature_policies s)
             (history_steps s) (max_horizon_steps s) n (max_output_age_ms s) (max_missing_ratio s)
             (allowed_fallbacks s) (fallback_policies s) (max_input_age_ms s) (spec_max_gap_ms s) (require_future_issue_time s)).

Definition find_policy (feature : string) (s : ForecastTaskSpec) : option HistoryFeaturePolicy :=
  List.find (fun p => String.eqb (hp_feature p) feature) (history_feature_policies s).
Definition history_aggregation_for (s : ForecastTaskSpec) (feature : string) : HistoryAggregation :=
  from_option hp_aggregation (history_aggregation s) (find_policy feature s).
Definition history_duplicate_policy_for (s : ForecastTaskSpec) (feature : string) : HistoryDuplicatePolicy :=
  from_option hp_duplicate (history_duplicate_policy s) (find_policy feature s).
Definition fallback_policy (s : ForecastTaskSpec) (strategy : string) : option FallbackPolicy :=
  List.find (fun p => String.eqb (fp_strategy p) strategy) (fallback_policies s).

Record DataProcessingTask := Task {
  task_identity : TaskIdentity; processor_contract : string; task_features : list FeatureDefinition;
  forecast_spec : ForecastTaskSpec; task_remote_egress : bool }.

Definition has_role (role : FeatureRole) (d : FeatureDefinition) : bool := bool_decide (fd_role d = role).
Definition features_of (role : FeatureRole) (t : DataProcessingTask) : list FeatureDefinition :=
  List.filter (has_role role) (task_features t).

Definition task_forecast (identity : TaskIdentity) (contract : string) (features : list FeatureDefinition)
    (spec : ForecastTaskSpec) : res DomainError DataProcessingTask :=
  if (length features =? 0)%nat then Err EmptyCollection
  else if negb (distinct (fun a b => bool_decide (fd_role a = fd_role b) && by_name fd_name a b) features) then Err DuplicateFeature
  else
    target ← ok_or (List.find (fun d => has_role RHistory d && String.eqb (fd_name d) (target_name (spec_target spec))) features) FeatureTypeMismatch;
    if negb (bool_decide (fd_type target = TNumber)) || negb (bool_decide (fd_unit target = Some (target_unit (spec_target spec))))
       || existsb (fun d => negb (has_role RHistory d) && String.eqb (fd_name d) (target_name (spec_target spec))) features
    then Err FeatureTypeMismatch
    else
      let history := List.filter (has_role RHistory) features in
      if existsb (fun p => negb (existsb (fun d => String.eqb (fd_name d) (fp_source_feature p)) history)
                           || (String.eqb (fp_strategy p) "persistence"
                               && negb (String.eqb (fp_source_feature p) (target_name (spec_target spec))))) (fallback_policies spec)
      then Err InvalidProcessingState
      else if negb (length (history_feature_policies spec) =? 0)%nat
              && (negb (length (history_feature_policies spec) =? length history)%nat
                  || existsb (fun d => negb (count (fun p => String.eqb (hp_feature p) (fd_name d)) (history_feature_policies spec) =? 1)%nat) history)
      then Err InvalidProcessingState
      else contract ← nonempty contract; Ok (Task identity contract features spec false).

Definition task_allowing_remote_egress (t : DataProcessingTask) : DataProcessingTask :=
  Task (task_identity t) (processor_contract t) (task_features t) (forecast_spec t) true.

(** ** Samples, series and frames *)

Inductive FeatureValue := Number (v : f64) | Text (s : string) | Boolean (b : bool) | Missing.
Definition value_number (v : f64) : res DomainError FeatureValue :=
  if is_finite v then Ok (Number v) else Err NonFiniteProcessingValue.
Definition value_type (v : FeatureValue) : option FeatureValueType :=
  match v with Number _ => Some TNumber | Text _ => Some TText | Boolean _ => Some TBoolean | Missing => None end.
Definition is_missing (v : FeatureValue) : bool := match v with Missing => true | _ => false end.
Definition as_number (v : FeatureValue) : option f64 := match v with Number x => Some x | _ => None end.

Inductive SampleQuality := SGood | SUncertain | SSubstituted | SMissing.
#[global] Instance sample_quality_eq_dec : EqDecision SampleQuality.
Proof. solve_decision. Defined.
Definition is_quality (q q' : SampleQuality) : bool := bool_decide (q' = q).

Definition validate_sample (d : FeatureDefinition) (v : FeatureValue) (q : SampleQuality) : res DomainError unit :=
  if is_some_and (fun t => negb (bool_decide (t = fd_type d))) (value_type v) then Err FeatureTypeMismatch
  else if negb (Bool.eqb (is_missing v) (is_quality SMissing q)) then Err InvalidSampleQuality
  else
    match numeric_constraints d, as_number v with
    | Some c, Some x => if accepts c x then Ok tt else Err InvalidFrameQuality
    | _, _ => Ok tt
    end.

Fixpoint validate_samples (d : FeatureDefinition) (l : list (FeatureValue * SampleQuality)) : res DomainError unit :=
  match l with
  | [] => Ok tt
  | (v, q) :: l => _ ← validate_sample d v q; validate_samples d l
  end.

Record Series := MkSeries { definition : FeatureDefinition; values : list FeatureValue; quality : list SampleQuality }.
Definition series_new (d : FeatureDefinition) (vs : list FeatureValue) (qs : list SampleQuality) : res DomainError Series :=
  if negb (length vs =? length qs)%nat then Err ArrayLengthMismatch
  else _ ← validate_samples d (zip vs qs); Ok (MkSeries d vs qs).
Definition series_name (s : Series) : string := fd_name (definition s).

Record Segment := MkSegment { timestamps : list Z; series : list Series }.
Definition segment_new (ts : list Z) (ss : list Series) : res DomainError Segment :=
  if (length ts =? 0)%nat || (length ss =? 0)%nat then Err EmptyCollection
  else if negb (timestamps_are_strictly_increasing ts) then Err TimestampsNotStrictlyIncreasing
  else if existsb (fun s => negb (length (values s) =? length ts)%nat) ss then Err ArrayLengthMismatch
  else if negb (distinct (by_name series_name) ss) then Err DuplicateFeature
  else Ok (MkSegment ts ss).

(** The times at which a series has a value. *)
Definition usable_cell (v : FeatureValue) (q : SampleQuality) : bool := negb (is_quality SMissing q) && negb (is_missing v).
Definition usable_times (ts : list Z) (s : Series) : list Z :=
  (fun '(t, _) => t) <$> List.filter (fun '(_, (v, q)) => usable_cell v q) (zip ts (zip (values s) (quality s))).

Definition gap_step (p : Z * Z) (t : Z) : Z * Z := (t, Z.max p.2 (saturating_sub t p.1)).
Definition series_gap (ts : list Z) (cadence window_start last_label : Z) (s : Series) : Z :=
  let '(last_usable, series_maximum) := fold_left gap_step (usable_times ts s) (window_start, cadence) in
  Z.max series_maximum (saturating_sub last_label last_usable).
Definition maximum_observation_gap (history : Segment) (cadence : Z) : Z :=
  match head (timestamps history), last (timestamps history) with
  | Some first_label, Some last_label =>
      let window_start := saturating_sub first_label cadence in
      fold_left (fun maximum s => Z.max maximum (series_gap (timestamps history) cadence window_start last_label s)) (series history) cadence
  | _, _ => cadence
  end.

Record StaticFeature := MkStatic { st_definition : FeatureDefinition; st_value : FeatureValue; st_quality : SampleQuality }.
Definition static_new (d : FeatureDefinition) (v : FeatureValue) (q : SampleQuality) : res DomainError StaticFeature :=
  if negb (has_role RStatic d) then Err FeatureTypeMismatch else _ ← validate_sample d v q; Ok (MkStatic d v q).
Definition static_name (s : StaticFeature) : string := fd_name (st_definition s).

Record FrameQuality := MkQuality {
  fq_watermark : Z; fq_missing_ratio : f64; fq_max_gap_ms : Z; fq_live_tail : bool; fq_substituted : Z }.
Definition frame_quality_new (watermark : Z) (ratio : f64) (gap : Z) (live : bool) (substituted : Z) : res DomainError FrameQuality :=
  if is_ratio ratio then Ok (MkQuality watermark ratio gap live substituted) else Err InvalidFrameQuality.

Inductive SegmentKind := KHistory | KFutureCovariates | KStaticFeatures.
Inductive SourceKind := SrcHistory | SrcLive | SrcHistoryAndLive | SrcCovariate | SrcCalendar | SrcConstant.
#[global] Instance segment_kind_eq_dec : EqDecision SegmentKind.
Proof. solve_decision. Defined.
#[global] Instance source_kind_eq_dec : EqDecision SourceKind.
Proof. solve_decision. Defined.

Definition is_ascii_alphanumeric (c : Ascii.ascii) : bool :=
  let n := Z.of_N (Ascii.N_of_ascii c) in
  ((48 <=? n) && (n <=? 57)) || ((65 <=? n) && (n <=? 90)) || ((97 <=? n) && (n <=? 122)).
Definition is_semantic_source_ref (value : string) : bool :=
  (String.length value <=? 2048)%nat
  && match value with
     | EmptyString => false
     | String c rest =>
         is_ascii_alphanumeric c
         && forallb (fun c => is_ascii_alphanumeric c || existsb (Ascii.eqb c) [".";"_";"-"]%char) (list_ascii_of_string rest)
     end.

Record SourceProvenance := Provenance {
  pv_segment : SegmentKind; pv_feature : string; pv_kind : SourceKind; pv_ref : option string;
  pv_watermark : Z; pv_issued_at : option Z }.

Definition source_is_valid (segment : SegmentKind) (k : SourceKind) : bool :=
  match segment, k with
  | KHistory, (SrcHistory | SrcLive | SrcHistoryAndLive | SrcCalendar) => true
  | KFutureCovariates, (SrcCovariate | SrcCalendar | SrcConstant) => true
  | KStaticFeatures, SrcConstant => true
  | _, _ => false
  end.
Definition provenance_new (segment : SegmentKind) (feature : string) (k : SourceKind) (r : option string) (watermark : Z)
    : res DomainError SourceProvenance :=
  if negb (source_is_valid segment k) then Err InvalidProcessingState
  else if is_some_and (fun v => negb (is_semantic_source_ref v)) r then Err InvalidProcessingState
  else
    r ← (match r with Some v => v ← nonempty v; Ok (Some v) | None => Ok None end);
    feature ← nonempty feature;
    Ok (Provenance segment feature k r watermark None).
Definition with_issued_at (issued_at : Z) (p : SourceProvenance) : res DomainError SourceProvenance :=
  if negb (bool_decide (pv_segment p = KFutureCovariates)) || negb (bool_decide (pv_kind p = SrcCovariate))
     || (pv_watermark p <? issued_at)
  then Err InvalidProcessingWindow
  else Ok (Provenance (pv_segment p) (pv_feature p) (pv_kind p) (pv_ref p) (pv_watermark p) (Some issued_at)).

(** Not a calendar or a constant. *)
Definition actual (p : SourceProvenance) : bool :=
  negb (bool_decide (pv_kind p = SrcCalendar)) && negb (bool_decide (pv_kind p = SrcConstant)).
Definition later_than (as_of : Z) (p : SourceProvenance) : bool :=
  (as_of <? pv_watermark p) || is_some_and (fun t => as_of <? t) (pv_issued_at p).
Definition max_of (l : list Z) : option Z :=
  match l with [] => None | x :: l => Some (fold_left Z.max l x) end.
Definition newest_watermark (l : list SourceProvenance) : option Z := max_of (pv_watermark <$> List.filter actual l).
Definition describes (k : SegmentKind) (name : string) (p : SourceProvenance) : bool :=
  bool_decide (pv_segment p = k) && String.eqb (pv_feature p) name.

Record ProcessingFrame := Frame {
  as_of : Z; frame_cadence : Z; history : Segment; future_covariates : option Segment;
  static_features : list StaticFeature; frame_quality : FrameQuality; provenance : list SourceProvenance }.

Definition frame_new (as_of cadence : Z) (history : Segment) (future : option Segment) (statics : list StaticFeature)
    (q : FrameQuality) (pv : list SourceProvenance) : res DomainError ProcessingFrame :=
  if (cadence =? 0) || negb (bool_decide (last (timestamps history) = Some as_of))
     || is_some_and (fun s => is_some_and (fun t => negb (bool_decide (checked_add 64 as_of cadence = Some t))) (head (timestamps s))) future
     || (as_of <? fq_watermark q) || existsb (later_than as_of) pv
  then Err InvalidProcessingWindow
  else if existsb (fun s => negb (has_role RHistory (definition s))) (series history)
          || is_some_and (fun f => existsb (fun s => negb (has_role RFutureCovariate (definition s))) (series f)) future
  then Err FeatureTypeMismatch
  else if negb (distinct (by_name static_name) statics) then Err DuplicateFeature
  else
    let once k name := (count (describes k name) pv =? 1)%nat in
    if negb (length pv =? length (series history) + from_option (fun f => length (series f)) 0 future + length statics)%nat
       || existsb (fun s => negb (once KHistory (series_name s))) (series history)
       || is_some_and (fun f => existsb (fun s => negb (once KFutureCovariates (series_name s))) (series f)) future
       || existsb (fun s => negb (once KStaticFeatures (static_name s))) statics
    then Err InvalidProcessingState
    else if negb (bool_decide (newest_watermark pv = Some (fq_watermark q))) then Err InvalidFrameQuality
    else Ok (Frame as_of cadence history future statics q pv).

(** ** Requests *)

Record ForecastOptions := Options { horizon_steps : Z; quantiles : list f64 }.
Definition options_new (horizon : Z) (qs : list f64) : res DomainError ForecastOptions :=
  if horizon =? 0 then Err InvalidProcessingWindow
  else if existsb (fun v => negb (is_finite v) || leb v zero || leb one v) qs || negb (windows (fun a b => negb (leb b a)) qs)
  then Err InvalidQuantile
  else Ok (Options horizon qs).

Record ProcessTaskRequest := TaskRequest {
  rq_task : TaskIdentity; rq_binding : BindingIdentity; rq_as_of : Z; rq_options : ForecastOptions }.

Record ArtifactSelector := Selector {
  sel_kind : string; sel_family : string; sel_version : option string; sel_digest : option string }.
Definition selector_new (kind family : string) (version : option string) : res DomainError ArtifactSelector :=
  kind ← nonempty kind; family ← nonempty family;
  version ← (match version with Some v => v ← nonempty v; Ok (Some v) | None => Ok None end);
  Ok (Selector kind family version None).
Definition with_digest (digest : string) (s : ArtifactSelector) : res DomainError ArtifactSelector :=
  if is_sha256_digest digest then Ok (Selector (sel_kind s) (sel_family s) (sel_version s) (Some digest))
  else Err InvalidProcessingState.

Record DataProcessingRequest := ProcessorRequest {
  pr_request_id : string; pr_task : TaskIdentity; pr_binding : BindingIdentity; pr_frame : ProcessingFrame;
  submitted_at : Z; deadline : Z; pr_contract : string; artifact_selector : option ArtifactSelector;
  pr_input_digest : string; pr_options : ForecastOptions }.
Definition request_new (id : string) (t : TaskIdentity) (b : BindingIdentity) (frame : ProcessingFrame) (submitted deadline : Z)
    (contract : string) (artifact : option ArtifactSelector) (digest : string) (options : ForecastOptions)
    : res DomainError DataProcessingRequest :=
  if (deadline <=? submitted) || (deadline <=? as_of frame) then Err InvalidProcessingWindow
  else
    id ← nonempty id; contract ← nonempty contract; digest ← nonempty digest;
    Ok (ProcessorRequest id t b frame submitted deadline contract artifact digest options).

(** ** Results *)

Record ProcessorProvenance := Processor_ { proc_id : string; proc_version : string; proc_contract : string }.
Definition processor_new (id version contract : string) : res DomainError ProcessorProvenance :=
  id ← nonempty id; version ← nonempty version; contract ← nonempty contract; Ok (Processor_ id version contract).

Record ArtifactProvenance := Artifact { art_kind : string; art_family : string; art_version : string; art_digest : string }.
Definition artifact_new (kind family version digest : string) : res DomainError ArtifactProvenance :=
  if negb (is_sha256_digest digest) then Err InvalidProcessingState
  else kind ← nonempty kind; family ← nonempty family; version ← nonempty version; Ok (Artifact kind family version digest).

Record ForecastQuantile := Quantile { q_probability : f64; q_value : f64 }.
Definition quantile_new (probability value : f64) : res DomainError ForecastQuantile :=
  if negb (is_finite probability) || leb probability zero || leb one probability then Err InvalidQuantile
  else if negb (is_finite value) then Err NonFiniteProcessingValue
  else Ok (Quantile probability value).

Record ForecastPoint := ForecastAt { pt_timestamp : Z; pt_value : f64; pt_quantiles : list ForecastQuantile }.
Definition forecast_point_new (t : Z) (value : f64) (qs : list ForecastQuantile) : res DomainError ForecastPoint :=
  if negb (is_finite value) then Err NonFiniteProcessingValue
  else if negb (windows (fun a b => negb (leb (q_probability b) (q_probability a) || ltb (q_value b) (q_value a))) qs) then Err InvalidQuantile
  else Ok (ForecastAt t value qs).

Record ForecastOutput := Output {
  out_target : string; out_unit : string; out_sign : string; out_cadence : Z; out_points : list ForecastPoint }.
Definition output_new (target unit sign : string) (cadence : Z) (points : list ForecastPoint) : res DomainError ForecastOutput :=
  if (cadence =? 0) || (length points =? 0)%nat then Err InvalidProcessingWindow
  else if negb (windows (fun a b => pt_timestamp a <? pt_timestamp b) points) then Err TimestampsNotStrictlyIncreasing
  else if negb (windows (fun a b => pt_timestamp b - pt_timestamp a =? cadence) points) then Err InvalidProcessingWindow
  else target ← nonempty target; unit ← nonempty unit; sign ← nonempty sign; Ok (Output target unit sign cadence points).

Inductive ProcessingStatus := Produced | Fallback | Unavailable.
#[global] Instance status_eq_dec : EqDecision ProcessingStatus.
Proof. solve_decision. Defined.

Record FallbackInfo := FallbackOf {
  fi_strategy : string; fi_version : string; fi_reason : string; fi_source_feature : string; based_on_data_through : Z }.
Definition fallback_info_new (strategy version reason source : string) (through : Z) : res DomainError FallbackInfo :=
  strategy ← nonempty strategy; version ← nonempty version; reason ← nonempty reason; source ← nonempty source;
  Ok (FallbackOf strategy version reason source through).

Record UnavailableInfo := UnavailableOf { un_reason : string; un_retryable : bool; un_retry_after : option Z }.
Definition unavailable_new (reason : string) (retryable : bool) (after : option Z) : res DomainError UnavailableInfo :=
  if is_some_and (fun d => d =? 0) after || (negb retryable && is_some_and (fun _ => true) after) then Err InvalidProcessingState
  else reason ← nonempty reason; Ok (UnavailableOf reason retryable after).

Record ProcessingResult := Result {
  rs_request_id : string; rs_task : TaskIdentity; rs_binding : BindingIdentity; rs_input_digest : string;
  status : ProcessingStatus; processor : ProcessorProvenance; artifact : option ArtifactProvenance;
  input_watermark : Z; produced_at : Z; expires_at : option Z; output : option ForecastOutput;
  fallback : option FallbackInfo; unavailable : option UnavailableInfo; warnings : list string }.

Definition structure_is_valid (s : ProcessingStatus) (expires output fallback unavailable : bool) : bool :=
  match s with
  | Produced => output && expires && negb fallback && negb unavailable
  | Fallback => output && expires && fallback && negb unavailable
  | Unavailable => negb output && negb expires && negb fallback && unavailable
  end.
Definition given {A} (o : option A) : bool := match o with Some _ => true | None => false end.
Definition result_new (id : string) (t : TaskIdentity) (b : BindingIdentity) (digest : string) (s : ProcessingStatus)
    (p : ProcessorProvenance) (a : option ArtifactProvenance) (watermark produced : Z) (expires : option Z)
    (o : option ForecastOutput) (f : option FallbackInfo) (u : option UnavailableInfo) : res DomainError ProcessingResult :=
  if negb (structure_is_valid s (given expires) (given o) (given f) (given u)) then Err InvalidProcessingState
  else if (produced <? watermark) || is_some_and (fun e => e <=? produced) expires
          || is_some_and (fun i => watermark <? based_on_data_through i) f
  then Err InvalidProcessingWindow
  else id ← nonempty id; digest ← nonempty digest; Ok (Result id t b digest s p a watermark produced expires o f u []).
Definition with_warnings (ws : list string) (r : ProcessingResult) : res DomainError ProcessingResult :=
  ws ← map_res nonempty ws;
  if negb (strings_are_unique ws) then Err InvalidProcessingState
  else Ok (Result (rs_request_id r) (rs_task r) (rs_binding r) (rs_input_digest r) (status r) (processor r) (artifact r)
             (input_watermark r) (produced_at r) (expires_at r) (output r) (fallback r) (unavailable r) ws).

Record DerivedData := Derived { result_id : string; accepted_at : Z; dd_quality : FrameQuality; result : ProcessingResult }.
Definition accept (id : string) (at_ : Z) (q : FrameQuality) (r : ProcessingResult) : res DomainError DerivedData :=
  if bool_decide (status r = Unavailable) || is_none_or (fun e => e <=? at_) (expires_at r)
     || negb (fq_watermark q =? input_watermark r)
  then Err InvalidProcessingState
  else id ← nonempty id; Ok (Derived id at_ q r).

(** ** Sources and processors (ports/data_processing.rs) *)

Definition feature_names_are_unique : list FeatureDefinition → bool := distinct (by_name fd_name).

Record HistoryWindow := HWindow {
  hw_task : TaskIdentity; hw_binding : BindingIdentity; hw_features : list FeatureDefinition; hw_start : Z; hw_end : Z;
  hw_max_samples : Z; hw_policies : list HistoryFeaturePolicy; hw_cutoff : option Z }.
Definition domain_invalid {A} (r : res DomainError A) : res Outbox.PortErrorKind A :=
  match r with Ok a => Ok a | Err _ => Err Outbox.InvalidData | Panic => Panic end.
Definition history_window_new (t : TaskIdentity) (b : BindingIdentity) (fs : list FeatureDefinition) (start end_ max : Z)
    (a : HistoryAggregation) (d : HistoryDuplicatePolicy) : res Outbox.PortErrorKind HistoryWindow :=
  if (length fs =? 0)%nat || existsb (fun f => negb (has_role RHistory f)) fs || negb (feature_names_are_unique fs)
     || (end_ <=? start) || (max =? 0)
  then Err Outbox.InvalidData
  else policies ← map_res (fun f => domain_invalid (history_policy_new (fd_name f) a d)) fs; Ok (HWindow t b fs start end_ max policies None).
Definition with_feature_policies (policies : list HistoryFeaturePolicy) (w : HistoryWindow) : res Outbox.PortErrorKind HistoryWindow :=
  if negb (length policies =? length (hw_features w))%nat
     || existsb (fun f => negb (count (fun p => String.eqb (hp_feature p) (fd_name f)) policies =? 1)%nat) (hw_features w)
  then Err Outbox.InvalidData
  else Ok (HWindow (hw_task w) (hw_binding w) (hw_features w) (hw_start w) (hw_end w) (hw_max_samples w) policies (hw_cutoff w)).
Definition with_cutoff (cutoff : Z) (w : HistoryWindow) : res Outbox.PortErrorKind HistoryWindow :=
  if (cutoff <? hw_start w) || (hw_end w <=? cutoff) then Err Outbox.InvalidData
  else Ok (HWindow (hw_task w) (hw_binding w) (hw_features w) (hw_start w) (hw_end w) (hw_max_samples w) (hw_policies w) (Some cutoff)).

Record CovariateWindow := CWindow {
  cw_binding : BindingIdentity; cw_features : list FeatureDefinition; cw_as_of : Z; cw_start : Z; cw_end : Z; cw_max_samples : Z }.
Definition covariate_window_new (b : BindingIdentity) (fs : list FeatureDefinition) (as_of start end_ max : Z)
    : res Outbox.PortErrorKind CovariateWindow :=
  if (length fs =? 0)%nat || existsb (fun f => negb (has_role RFutureCovariate f)) fs || negb (feature_names_are_unique fs)
     || (start <=? as_of) || (end_ <=? start) || (max =? 0)
  then Err Outbox.InvalidData
  else Ok (CWindow b fs as_of start end_ max).

Definition segment_of (r : FeatureRole) : SegmentKind :=
  match r with RHistory => KHistory | RFutureCovariate => KFutureCovariates | RStatic => KStaticFeatures end.
Record SourcedSegment := Sourced { sd_segment : Segment; sd_provenance : list SourceProvenance }.
Definition sourced_new (s : Segment) (pv : list SourceProvenance) : res Outbox.PortErrorKind SourcedSegment :=
  if negb (length pv =? length (series s))%nat
     || existsb (fun x => negb (count (describes (segment_of (fd_role (definition x))) (series_name x)) pv =? 1)%nat) (series s)
  then Err Outbox.InvalidData
  else Ok (Sourced s pv).

Inductive DataBoundary := Local | Remote.
#[global] Instance boundary_eq_dec : EqDecision DataBoundary.
Proof. solve_decision. Defined.
Record DataProcessorDescriptor := Descriptor {
  d_id : string; d_version : string; supported_tasks : list TaskKind; supported_contracts : list string;
  data_boundary : DataBoundary; max_frame_samples : Z; max_request_bytes : Z }.
Definition is_blank (s : string) : bool := Governance.blank (Governance.utf8 s).
Definition descriptor_new (id version : string) (tasks : list TaskKind) (contracts : list string) (boundary : DataBoundary)
    (samples bytes : Z) : res Outbox.PortErrorKind DataProcessorDescriptor :=
  if is_blank id || is_blank version || (length tasks =? 0)%nat || (length contracts =? 0)%nat || existsb is_blank contracts
     || negb (distinct (fun a b => bool_decide (a = b)) tasks) || negb (distinct String.eqb contracts)
     || (samples =? 0) || (bytes =? 0)
  then Err Outbox.InvalidData
  else Ok (Descriptor id version tasks contracts boundary samples bytes).
Definition supports (d : DataProcessorDescriptor) (k : TaskKind) : bool := existsb (fun x => bool_decide (x = k)) (supported_tasks d).
Definition supports_contract (d : DataProcessorDescriptor) (c : string) : bool := existsb (fun x => String.eqb x c) (supported_contracts d).
Inductive ProcessorHealth := Healthy | Degraded | HUnavailable.

(** ** What the constructors establish *)

Lemma nonempty_Ok v w : nonempty v = Ok w → w = v.
Proof. unfold nonempty. by case_if; intros [= <-]. Qed.

Lemma check_true {E} b (e : E) u : check b e = Ok u → b = true.
Proof. by destruct b. Qed.

Lemma map_res_Ok {E A B} (f : A → res E B) l l' : map_res f l = Ok l' → Forall2 (fun a b => f a = Ok b) l l'.
Proof.
  revert l'. induction l as [|a l IH]; intros l'; cbn [map_res]; [intros [= <-]; constructor|].
  intros H. apply res_bind_Ok in H as (b & Hb & H). apply res_bind_Ok in H as (bs & Hbs & [= <-]). constructor; [done|by apply IH].
Qed.

Lemma existsb_false {A} (f : A → bool) l : existsb f l = false ↔ ∀ x, x ∈ l → f x = false.
Proof.
  induction l as [|a l IH]; cbn; [by split; [intros _ x Hx; apply elem_of_nil in Hx|]|].
  rewrite orb_false_iff, IH. split; [intros [H1 H2] x Hx; apply elem_of_cons in Hx as [->|Hx]; auto|].
  intros H. split; [apply H; left|intros x Hx; apply H; by right].
Qed.

Lemma existsb_true {A} (f : A → bool) l : existsb f l = true ↔ ∃ x, x ∈ l ∧ f x = true.
Proof. rewrite List.existsb_exists. by setoid_rewrite <- list_elem_of_In. Qed.

Lemma forallb_true {A} (f : A → bool) l : forallb f l = true ↔ ∀ x, x ∈ l → f x = true.
Proof. rewrite List.forallb_forall. by setoid_rewrite <- list_elem_of_In. Qed.

Lemma list_find_Some {A} (f : A → bool) l x : List.find f l = Some x → x ∈ l ∧ f x = true.
Proof. intros H. apply List.find_some in H as [H1 H2]. by apply list_elem_of_In in H1. Qed.

Lemma distinct_from_names {A} (name : A → string) seen l :
  distinct_from (by_name name) seen l = true →
  NoDup (name <$> l) ∧ ∀ x, x ∈ l → ∀ y, y ∈ seen → name y ≠ name x.
Proof.
  revert seen. induction l as [|a l IH]; intros seen; cbn [distinct_from].
  { intros _. split; [constructor|]. intros x Hx. by apply elem_of_nil in Hx. }
  rewrite andb_true_iff, negb_true_iff, existsb_false. intros [Ha H]. apply IH in H as [Hnd Hl]. split.
  - rewrite fmap_cons. constructor; [|done]. rewrite list_elem_of_fmap. intros (y & Hy & Hin).
    eapply (Hl y Hin a); [apply elem_of_app; right; by left|done].
  - intros x Hx y Hy. apply elem_of_cons in Hx as [->|Hx].
    + specialize (Ha y Hy). unfold by_name in Ha. by apply String.eqb_neq in Ha.
    + apply (Hl x Hx). apply elem_of_app. by left.
Qed.

Lemma distinct_names {A} (name : A → string) l : distinct (by_name name) l = true → NoDup (name <$> l).
Proof. intros H. by apply distinct_from_names in H as [H _]. Qed.

Definition value_ok (v : FeatureValue) : Prop := match v with Number x => is_finite x = true | _ => True end.
Definition series_ok (s : Series) : Prop :=
  series_new (definition s) (values s) (quality s) = Ok s ∧ Forall value_ok (values s).
Definition segment_ok (g : Segment) : Prop := segment_new (timestamps g) (series g) = Ok g ∧ Forall series_ok (series g).
Definition sourced_ok (s : SourcedSegment) : Prop :=
  sourced_new (sd_segment s) (sd_provenance s) = Ok s ∧ segment_ok (sd_segment s).

Definition task_ok (t : DataProcessingTask) : Prop :=
  is_ok (task_forecast (task_identity t) (processor_contract t) (task_features t) (forecast_spec t)) = true.
Definition spec_ok (s : ForecastTaskSpec) : Prop :=
  0 < cadence_ms s < 2 ^ 64 ∧ 0 < history_steps s < 2 ^ 64 ∧ 0 < max_horizon_steps s < 2 ^ 64 ∧ is_ratio (max_missing_ratio s) = true.

Definition point_ok (p : ForecastPoint) : Prop :=
  forecast_point_new (pt_timestamp p) (pt_value p) (pt_quantiles p) = Ok p ∧
  Forall (fun q => quantile_new (q_probability q) (q_value q) = Ok q) (pt_quantiles p).
Definition result_ok (r : ProcessingResult) : Prop :=
  is_ok (result_new (rs_request_id r) (rs_task r) (rs_binding r) (rs_input_digest r) (status r) (processor r) (artifact r)
           (input_watermark r) (produced_at r) (expires_at r) (output r) (fallback r) (unavailable r)) = true ∧
  ∀ o, output r = Some o → Forall point_ok (out_points o).

Lemma spec_new_ok target cadence a d steps horizon age ratio fallbacks s :
  in_u 64 cadence → in_u 64 steps → in_u 64 horizon →
  spec_new target cadence a d steps horizon age ratio fallbacks = Ok s → spec_ok s.
Proof.
  unfold spec_new, in_u. intros H1 H2 H3. destruct (_ || _) eqn:Hz; [done|].
  destruct (is_ratio ratio) eqn:Hr; [|done]. cbn [negb]. intros H. apply res_bind_Ok in H as (l & _ & H).
  destruct (strings_are_unique l); [|done]. injection H as <-. rewrite !orb_false_iff, !Z.eqb_neq in Hz.
  unfold spec_ok. cbn. split_and!; [lia..|done].
Qed.

(** A cell of a series agrees with the definition of its feature. *)
Definition cell_ok (d : FeatureDefinition) (v : FeatureValue) (q : SampleQuality) : Prop :=
  (is_missing v = true ↔ q = SMissing) ∧ (value_type v = None ∨ value_type v = Some (fd_type d)) ∧
  ∀ x, v = Number x → is_finite x = true ∧ ∀ c, numeric_constraints d = Some c → accepts c x = true.

Lemma validate_sample_ok d v q : value_ok v → validate_sample d v q = Ok tt → cell_ok d v q.
Proof.
  unfold validate_sample. intros Hv. destruct (is_some_and _ _) eqn:Ht; [done|].
  destruct (Bool.eqb (is_missing v) (is_quality SMissing q)) eqn:Hm; [|done]. cbn [negb]. apply Bool.eqb_prop in Hm.
  intros Hc. split_and!.
  - rewrite Hm. unfold is_quality. by rewrite bool_decide_eq_true.
  - destruct (value_type v) as [t|]; [|by left]. right. cbn in Ht. by case_bool_decide; subst.
  - intros x ->. split; [done|]. intros c Ec. rewrite Ec in Hc. cbn in Hc. by destruct (accepts c x).
Qed.

Lemma validate_samples_ok d l v q : validate_samples d l = Ok tt → (v, q) ∈ l → validate_sample d v q = Ok tt.
Proof.
  induction l as [|[v' q'] l IH]; cbn [validate_samples]; intros H Hin; [by apply elem_of_nil in Hin|].
  apply res_bind_Ok in H as ([] & H1 & H2). apply elem_of_cons in Hin as [[= -> ->]|Hin]; [done|by apply IH].
Qed.

Lemma series_cells s : series_ok s →
  length (quality s) = length (values s) ∧
  ∀ i v q, values s !! i = Some v → quality s !! i = Some q → cell_ok (definition s) v q.
Proof.
  intros [H Hv]. unfold series_new in H. destruct (Nat.eqb_spec (length (values s)) (length (quality s))) as [El|]; [|done].
  cbn [negb] in H. apply res_bind_Ok in H as ([] & H & _). split; [done|]. intros i v q E1 E2.
  apply validate_sample_ok; [by eapply Forall_lookup_1|]. eapply validate_samples_ok; [done|].
  apply list_elem_of_lookup. exists i. rewrite lookup_zip_with, E1. cbn. by rewrite E2.
Qed.

Lemma segment_facts g : segment_ok g →
  Forall series_ok (series g) ∧ NoDup (series_name <$> series g) ∧
  ∀ s, s ∈ series g → length (values s) = length (timestamps g).
Proof.
  intros [H Hs]. unfold segment_new in H. case_if; [done|]. case_if; [done|].
  destruct (existsb _ (series g)) eqn:El; [done|]. destruct (distinct _ _) eqn:Ed; [|done].
  split_and!; [done|by apply distinct_names|]. intros s Hin. rewrite existsb_false in El. specialize (El s Hin).
  cbn in El. apply negb_false_iff, Nat.eqb_eq in El. done.
Qed.

(** ** Equality of definitions *)

Lemma eqb_cases x y : eqb x y = true → x = y ∨ ∃ s s', x = S754_zero s ∧ y = S754_zero s'.
Proof.
  unfold eqb, SFeqb. destruct x as [s|s| |s m e], y as [s'|s'| |s' m' e']; cbn; try done; eauto; repeat case_match; try done; eauto.
  all: intros _; left; apply Z.compare_eq in H2 as ->; f_equal; apply Pos.compare_eq; unfold Pos.compare.
  all: by destruct (PosDef.Pos.compare_cont Eq m m').
Qed.

Lemma leb_eqb_l x y z : eqb x y = true → leb x z = leb y z.
Proof. intros [->|(s & s' & -> & ->)]%eqb_cases; [done|]. by destruct z as [|[]| |[]]. Qed.
Lemma leb_eqb_r x y z : eqb x y = true → leb z x = leb z y.
Proof. intros [->|(s & s' & -> & ->)]%eqb_cases; [done|]. by destruct z as [|[]| |[]]. Qed.

Lemma accepts_eqb a b x : constraints_eqb a b = true → accepts a x = accepts b x.
Proof.
  unfold constraints_eqb, accepts. rewrite !andb_true_iff. intros [[Hmin Hmax] Hi]. apply Bool.eqb_prop in Hi as ->.
  assert (is_none_or (fun m => leb m x) (nc_minimum a) = is_none_or (fun m => leb m x) (nc_minimum b)) as ->.
  { destruct (nc_minimum a), (nc_minimum b); try done. by apply leb_eqb_l. }
  assert (is_none_or (fun m => leb x m) (nc_maximum a) = is_none_or (fun m => leb x m) (nc_maximum b)) as ->.
  { destruct (nc_maximum a), (nc_maximum b); try done. by apply leb_eqb_r. }
  done.
Qed.

Lemma definition_name a b : definition_eqb a b = true → fd_name a = fd_name b.
Proof. unfold definition_eqb. rewrite !andb_true_iff. intros [[[[H _] _] _] _]. by apply String.eqb_eq. Qed.

Lemma definition_cells a b v q : definition_eqb a b = true → cell_ok a v q → cell_ok b v q.
Proof.
  unfold definition_eqb. rewrite !andb_true_iff, !bool_decide_eq_true. intros [[[_ Ht] _] Hc] (H1 & H2 & H3).
  split_and!; [done|by rewrite <- Ht|]. intros x Hx. destruct (H3 x Hx) as [Hf Ha]. split; [done|]. intros c Ec.
  rewrite Ec in Hc. destruct (numeric_constraints a) as [c'|]; [|done]. rewrite <- (accepts_eqb c' c); [by apply Ha|done].
Qed.

(** ** Observation gaps *)

(** The series has a value at the time [u]. *)
Definition observed (ts : list Z) (s : Series) (u : Z) : Prop :=
  ∃ i v, ts !! i = Some u ∧ values s !! i = Some v ∧ is_missing v = false.

Lemma usable_observed ts s u : u ∈ usable_times ts s → observed ts s u.
Proof.
  unfold usable_times. rewrite list_elem_of_fmap. intros ([t [v q]] & -> & Hin).
  apply list_elem_of_In, List.filter_In in Hin as [Hin Hu]. apply list_elem_of_In, list_elem_of_lookup in Hin as [i Hi].
  apply lookup_zip_with_Some in Hi as (t' & [v' q'] & [= <- <- <-] & H1 & H2).
  apply lookup_zip_with_Some in H2 as (v'' & q'' & [= <- <-] & H2 & _).
  exists i, v. split_and!; [done..|]. unfold usable_cell in Hu. by apply andb_true_iff in Hu as [_ Hu%negb_true_iff].
Qed.

Lemma gap_fold ts p m :
  let '(l, m') := fold_left gap_step ts (p, m) in
  m ≤ m' ∧ ∀ G, m' ≤ G → ∀ a, p ≤ a < l → ∃ u, u ∈ ts ∧ a < u ≤ a + G.
Proof.
  revert p m. induction ts as [|t ts IH]; intros p m; cbn [fold_left]; [split; [done|lia]|].
  unfold gap_step at 2. cbn [fst snd]. specialize (IH t (Z.max m (saturating_sub t p))).
  destruct (fold_left gap_step ts _) as [l m']. destruct IH as [Hm IH]. split; [lia|]. intros G HG a Ha.
  destruct (Z.lt_ge_cases a t) as [Hlt|Hge].
  - exists t. split; [by left|]. unfold saturating_sub in Hm. lia.
  - destruct (IH G HG a) as (u & Hu & Hb); [lia|]. exists u. split; [by right|done].
Qed.

Lemma fold_max_ge {A} (f : A → Z) l m :
  m ≤ fold_left (fun m a => Z.max m (f a)) l m ∧ ∀ a, a ∈ l → f a ≤ fold_left (fun m a => Z.max m (f a)) l m.
Proof.
  revert m. induction l as [|x l IH]; intros m; cbn [fold_left]; [split; [lia|]; intros a Ha; by apply elem_of_nil in Ha|].
  destruct (IH (Z.max m (f x))) as [H1 H2]. split; [lia|]. intros a Ha. apply elem_of_cons in Ha as [->|Ha]; [lia|by apply H2].
Qed.

(** Every stretch of the window as long as the gap has an observation, of every series. *)
Definition covered (g : Segment) (cadence G : Z) : Prop :=
  ∀ first_label last_label, head (timestamps g) = Some first_label → last (timestamps g) = Some last_label →
  ∀ s, s ∈ series g → ∀ a, saturating_sub first_label cadence ≤ a → a + G < last_label →
    ∃ u, observed (timestamps g) s u ∧ a < u ≤ a + G.

Lemma gap_covered g cadence : covered g cadence (maximum_observation_gap g cadence).
Proof.
  intros f l Hf Hl s Hs a Ha Hb. unfold maximum_observation_gap in *. rewrite Hf, Hl in *.
  set (G := fold_left _ _ _) in *.
  destruct (fold_max_ge (series_gap (timestamps g) cadence (saturating_sub f cadence) l) (series g) cadence) as [_ HG].
  specialize (HG s Hs). fold G in HG. unfold series_gap in HG.
  pose proof (gap_fold (usable_times (timestamps g) s) (saturating_sub f cadence) cadence) as Hfold.
  destruct (fold_left gap_step _ _) as [u m]. destruct Hfold as [_ Hfold].
  destruct (Hfold G) with (a := a) as (x & Hx & Hxb); [lia| |exists x; split; [by apply usable_observed|done]].
  unfold saturating_sub in HG at 1. lia.
Qed.

(** ** Features of a segment *)

Lemma same_names (g : Segment) (features : list FeatureDefinition) :
  NoDup (series_name <$> series g) → NoDup (fd_name <$> features) → length (series g) = length features →
  (∀ d, d ∈ features → ∃ s, s ∈ series g ∧ definition_eqb (definition s) d = true) →
  series_name <$> series g ≡ₚ fd_name <$> features ∧
  ∀ s, s ∈ series g → ∃ d, d ∈ features ∧ definition_eqb (definition s) d = true.
Proof.
  intros Hg Hf Hlen Hin.
  assert (series_name <$> series g ≡ₚ fd_name <$> features) as Hp.
  { symmetry. apply submseteq_length_Permutation; [|by rewrite !length_fmap, Hlen]. apply NoDup_submseteq; [done|].
    intros x Hx. apply list_elem_of_fmap in Hx as (d & -> & Hd). destruct (Hin d Hd) as (s & Hs & Hds).
    apply list_elem_of_fmap. exists s. split; [|done]. symmetry. by apply definition_name. }
  split; [done|]. intros s Hs. assert (series_name s ∈ fd_name <$> features) as Hd.
  { rewrite <- Hp. apply list_elem_of_fmap. eauto. }
  apply list_elem_of_fmap in Hd as (d & Hsd & Hd). exists d. split; [done|]. destruct (Hin d Hd) as (s' & Hs' & Hds).
  assert (s' = s) as ->; [|done]. apply definition_name in Hds. unfold series_name in Hsd.
  apply list_elem_of_lookup in Hs as [i Hi]. apply list_elem_of_lookup in Hs' as [j Hj].
  assert (i = j) as ->; [|congruence].
  eapply (NoDup_lookup _ _ _ (series_name s) Hg); rewrite list_lookup_fmap; [by rewrite Hi|]. rewrite Hj. cbn. unfold series_name. congruence.
Qed.
End Processing.
