(* ===== verification/Forecast.v ===== *)
(** * Governed data processing

    crates/aether-application/src/data_processing.rs: commissioned routes, assembly of a
    bounded frame from stored history, covariates and the live tail, the call of an
    untrusted processor, and the acceptance of its result.  The sources, the processor,
    the audit sink, the clock and the semaphore of a route are the class [Ports]; a port
    call that the deadline cuts off answers [None].  The wire contract (crate
    aether-data-processing) is the class [WireContract]: nothing here depends on what
    it encodes. *)

From Stdlib Require Import ZArith Lia Ascii String Permutation.
From stdpp Require Import base tactics numbers list strings.
From S2P Require Import Prelude State Float Domain Outbox Executor Governance Processing.
#[local] Open Scope Z_scope.

Module Forecast.
Import Float Domain Governance Processing.

(** ** Commissioned routes *)

Record PointSample := Sample_ { ps_address : PointAddress; ps_value : f64; ps_timestamp : Z; ps_quality : PointQuality }.

Record PointFeatureBinding := PointBinding { pb_feature : string; pb_address : PointAddress; live_tail : bool }.
Definition point_binding_new (feature : string) (address : PointAddress) : res ApplicationError PointFeatureBinding :=
  if is_blank feature || is_writable (kind address) then Err InvalidProcessingConfiguration
  else Ok (PointBinding feature address false).
Definition with_live_tail (b : PointFeatureBinding) : PointFeatureBinding := PointBinding (pb_feature b) (pb_address b) true.

#[global] Instance point_address_eq_dec : EqDecision PointAddress.
Proof. solve_decision. Defined.

Record DataProcessingBinding := Binding {
  binding_identity : BindingIdentity; point_features : list PointFeatureBinding; binding_statics : list StaticFeature;
  binding_artifact : option ArtifactSelector; binding_remote_egress : bool }.
Definition binding_new (identity : BindingIdentity) (points : list PointFeatureBinding) : res ApplicationError DataProcessingBinding :=
  if (length points =? 0)%nat
     || negb (distinct (fun a b => by_name pb_feature a b || bool_decide (pb_address a = pb_address b)) points)
  then Err InvalidProcessingConfiguration
  else Ok (Binding identity points [] None false).
Definition with_static_features (l : list StaticFeature) (b : DataProcessingBinding) : DataProcessingBinding :=
  Binding (binding_identity b) (point_features b) l (binding_artifact b) (binding_remote_egress b).
Definition with_artifact (a : ArtifactSelector) (b : DataProcessingBinding) : DataProcessingBinding :=
  Binding (binding_identity b) (point_features b) (binding_statics b) (Some a) (binding_remote_egress b).
Definition binding_allowing_remote_egress (b : DataProcessingBinding) : DataProcessingBinding :=
  Binding (binding_identity b) (point_features b) (binding_statics b) (binding_artifact b) true.

Definition checked_mul (w a b : Z) : option Z := if a * b <? 2 ^ w then Some (a * b) else None.

Definition maximum_task_cell_count (t : DataProcessingTask) : res ApplicationError Z :=
  let size role := Z.of_nat (length (features_of role t)) in
  ok_or (count ← checked_mul 64 (size RHistory) (history_steps (forecast_spec t));
         future ← checked_mul 64 (size RFutureCovariate) (max_horizon_steps (forecast_spec t));
         count ← checked_add 64 count future;
         checked_add 64 count (size RStatic)) InvalidProcessingConfiguration.

Definition cells_of (s : Segment) : option Z :=
  fold_left (fun (n : option Z) s => n ← n; checked_add 64 n (Z.of_nat (length (values s)))) (series s) (Some 0).
Definition frame_cell_count (f : ProcessingFrame) : res ApplicationError Z :=
  ok_or (history ← cells_of (history f);
         future ← from_option cells_of (Some 0) (future_covariates f);
         count ← checked_add 64 future history;
         checked_add 64 count (Z.of_nat (length (static_features f)))) (InvalidProcessingRequest InvalidProcessingWindow).

Definition validate_commissioned_binding (t : DataProcessingTask) (b : DataProcessingBinding) : res ApplicationError unit :=
  let expected := features_of RStatic t in
  let target := target_name (spec_target (forecast_spec t)) in
  if negb (length expected =? length (binding_statics b))%nat
     || existsb (fun d => negb (existsb (fun f => definition_eqb (st_definition f) d) (binding_statics b))) expected
  then Err InvalidProcessingConfiguration
  else if existsb (fun p => is_writable (kind (pb_address p))
                            || negb (existsb (fun d => String.eqb (fd_name d) (pb_feature p) && has_role RHistory d
                                                       && bool_decide (fd_type d = TNumber)) (task_features t))) (point_features b)
  then Err InvalidProcessingConfiguration
  else if existsb (fun p => live_tail p && negb (bool_decide (history_aggregation_for (forecast_spec t) (pb_feature p) = Last))) (point_features b)
  then Err InvalidProcessingConfiguration
  else if negb (existsb (fun p => String.eqb (pb_feature p) target) (point_features b)) then Err InvalidProcessingConfiguration
  else Ok tt.

(** The wire contract; [None] is a codec error. *)
Class WireContract := {
  route_contract : DataProcessingTask → BindingIdentity → option ArtifactSelector → string → string → list string → bool;
  compute_input_digest : TaskIdentity → BindingIdentity → string → option ArtifactSelector → ProcessingFrame → ForecastOptions → option string;
  encode_request : DataProcessingRequest → option (list Z);
  encode_result : ProcessingResult → option (list Z);
  uuid_v5 : string → string }.

(** What an audit entry says beside the request and the outcome. *)
Inductive audit_detail := NoDetail | OfError (e : ApplicationError) | OfAttempt (processor : string) (r : DataProcessingRequest).

Class Ports (E P : Type) := {
  descriptor : P → DataProcessorDescriptor;
  health : P → st E (res Outbox.PortErrorKind ProcessorHealth);
  run_processor : P → DataProcessingRequest → st E (option (res Outbox.PortErrorKind ProcessingResult));
  query : HistoryWindow → st E (option (res Outbox.PortErrorKind SourcedSegment));
  resolve : CovariateWindow → st E (option (res Outbox.PortErrorKind SourcedSegment));
  read_many : list PointAddress → st E (option (res Outbox.PortErrorKind (list (option PointSample))));
  audit : RequestContext → AuditOutcome → audit_detail → st E (option (res Outbox.PortErrorKind unit));
  now : st E (res Outbox.PortErrorKind Z);
  try_acquire : TaskIdentity → BindingIdentity → st E bool;
  release : TaskIdentity → BindingIdentity → st E unit }.

(** The fields of the answers are private: they were made by their constructors. *)
Class PortsTyped (E P : Type) `{Ports E P} : Prop := {
  query_typed w e s e' : query w e = (Some (Ok s), e') → sourced_ok s;
  resolve_typed w e s e' : resolve w e = (Some (Ok s), e') → sourced_ok s;
  run_typed p r e x e' : run_processor p r e = (Some (Ok x), e') → result_ok x }.

Section Application.
Context `{WireContract} {E P : Type} `{Ports E P}.

Record DataProcessingRoute := Route {
  route_task : DataProcessingTask; route_binding : DataProcessingBinding; route_processor : P;
  deadline_ms : Z; max_concurrency : Z; remote_egress_preapproved : bool }.

Definition route_new (t : DataProcessingTask) (b : DataProcessingBinding) (p : P) (deadline : Z) : res ApplicationError DataProcessingRoute :=
  let d := descriptor p in
  if negb (route_contract t (binding_identity b) (binding_artifact b) (d_id d) (d_version d) (supported_contracts d))
  then Err InvalidProcessingConfiguration
  else
    cells ← maximum_task_cell_count t;
    if (deadline =? 0) || negb (supports d Forecast) || negb (supports_contract d (processor_contract t))
       || (max_frame_samples d <? cells)
       || (bool_decide (data_boundary d = Remote) && (negb (task_remote_egress t) || negb (binding_remote_egress b)))
    then Err InvalidProcessingConfiguration
    else _ ← validate_commissioned_binding t b; Ok (Route t b p deadline 1 false).
Definition with_max_concurrency (n : Z) (r : DataProcessingRoute) : res ApplicationError DataProcessingRoute :=
  if (n =? 0) || (64 <? n) then Err InvalidProcessingConfiguration
  else Ok (Route (route_task r) (route_binding r) (route_processor r) (deadline_ms r) n (remote_egress_preapproved r)).
Definition with_preapproved_remote_egress (r : DataProcessingRoute) : DataProcessingRoute :=
  Route (route_task r) (route_binding r) (route_processor r) (deadline_ms r) (max_concurrency r) true.

(** [has_covariates]: a covariate source is configured. *)
Record DataProcessingApplication := App { routes : list DataProcessingRoute; has_covariates : bool }.

Definition is_route (t : TaskIdentity) (b : BindingIdentity) (r : DataProcessingRoute) : bool :=
  bool_decide (task_identity (route_task r) = t) && bool_decide (binding_identity (route_binding r) = b).

Fixpoint check_routes (covariates : bool) (seen l : list DataProcessingRoute) : res ApplicationError unit :=
  match l with
  | [] => Ok tt
  | r :: l =>
      if existsb (is_route (task_identity (route_task r)) (binding_identity (route_binding r))) seen then Err InvalidProcessingConfiguration
      else
        _ ← validate_commissioned_binding (route_task r) (route_binding r);
        if existsb (has_role RFutureCovariate) (task_features (route_task r)) && negb covariates then Err InvalidProcessingConfiguration
        else check_routes covariates (seen ++ [r]) l
  end.
Definition application_new (l : list DataProcessingRoute) (covariates : bool) : res ApplicationError DataProcessingApplication :=
  _ ← check_routes covariates [] l; Ok (App l covariates).

Record DataProcessingTaskSummary := TaskSummary {
  ts_definition : DataProcessingTask; ts_binding : BindingIdentity; ts_artifact : option ArtifactSelector;
  ts_processor : DataProcessorDescriptor; ts_deadline_ms : Z; ts_max_concurrency : Z }.
Definition list_tasks (app : DataProcessingApplication) (c : RequestContext) : res ApplicationError (list DataProcessingTaskSummary) :=
  _ ← authorize TASKS_LIST_CAPABILITY c;
  Ok ((fun r => TaskSummary (route_task r) (binding_identity (route_binding r)) (binding_artifact (route_binding r))
                  (descriptor (route_processor r)) (deadline_ms r) (max_concurrency r)) <$> routes app).

(** ** Calls of ports *)

Inductive event :=
| EAudit (o : AuditOutcome) (d : audit_detail) (ok : bool)
| EQuery (w : HistoryWindow) (r : option (res Outbox.PortErrorKind SourcedSegment))
| EResolve (w : CovariateWindow)
| ELive (l : list PointAddress)
| ERun (p : P) (r : DataProcessingRequest).
Record world := World { w_env : E; w_log : list event }.

Definition on_env {A} (m : st E A) : st world A := fun w => let '(a, e) := m (w_env w) in (a, World e (w_log w)).
Definition note (e : event) : st world unit := modify (fun w => World (w_env w) (w_log w ++ [e])).

Definition processor_health (app : DataProcessingApplication) (c : RequestContext)
    : st world (res ApplicationError (list (string * ProcessorHealth))) :=
  match authorize PROCESSOR_HEALTH_CAPABILITY c with
  | Ok _ =>
      l ← st_fold (fun acc r =>
            h ← on_env (health (route_processor r));
            mret (acc ++ [(d_id (descriptor (route_processor r)), match h with Ok h => h | _ => HUnavailable end)])) [] (routes app);
      mret (Ok l)
  | Err e => mret (Err e)
  | Panic => mret Panic
  end.

(** A call under [tokio::time::timeout]: [None] once the deadline has passed. *)
#[local] Notation timed A := (st world (option (res ApplicationError A))).
Definition timed_bind {A B} (m : timed A) (f : A → timed B) : timed B := fun w =>
  match m w with
  | (Some (Ok a), w) => f a w
  | (Some (Err e), w) => (Some (Err e), w)
  | (Some Panic, w) => (Some Panic, w)
  | (None, w) => (None, w)
  end.
Definition pure {A} (r : res ApplicationError A) : timed A := mret (Some r).

Definition port_call {A B} (m : st E (option (res Outbox.PortErrorKind A))) (error : Outbox.PortErrorKind → ApplicationError)
    (f : A → res ApplicationError B) (e : option (res Outbox.PortErrorKind A) → event) : timed B :=
  r ← on_env m; _ ← note (e r);
  mret (match r with Some (Ok a) => Some (f a) | Some (Err k) => Some (Err (error k)) | Some Panic => Some Panic | None => None end).

#[local] Notation "x ←! m ; k" := (timed_bind m (fun x => k)) (at level 20, m at level 100, k at level 200, right associativity).

Definition record_audit (c : RequestContext) (o : AuditOutcome) (d : audit_detail) : st world (res ApplicationError unit) :=
  r ← on_env (audit c o d);
  let ok := match r with Some x => is_ok x | None => false end in
  _ ← note (EAudit o d ok);
  mret (match r with
        | Some (Ok _) => Ok tt
        | Some (Err k) => Err (AuditUnavailable k)
        | Some Panic => Panic
        | None => Err (AuditUnavailable Outbox.Timeout)
        end).
(** [record_audit(..)?; return Err(error)] *)
Definition fail {A} (c : RequestContext) (o : AuditOutcome) (e : ApplicationError) : st world (res ApplicationError A) :=
  _ ←? record_audit c o (OfError e); mret (Err e).

(** ** Frame assembly *)

Definition request_error {A} (r : res DomainError A) : res ApplicationError A :=
  match r with Ok a => Ok a | Err e => Err (InvalidProcessingRequest e) | Panic => Panic end.
Definition quality_error {A} (r : res DomainError A) : res ApplicationError A :=
  match r with Ok a => Ok a | Err e => Err (InputQualityRejected e) | Panic => Panic end.
Definition port_error {A} (r : res Outbox.PortErrorKind A) : res ApplicationError A :=
  match r with Ok a => Ok a | Err k => Err (Port k) | Panic => Panic end.
Definition bad_window : ApplicationError := InvalidProcessingRequest InvalidProcessingWindow.
Definition bad_quality : ApplicationError := InputQualityRejected InvalidFrameQuality.

Definition regular_timestamps (start cadence count : Z) : res ApplicationError (list Z) :=
  map_res (fun index => ok_or (offset ← checked_mul 64 cadence index; checked_add 64 start offset) bad_window) (seqZ 0 count).

Definition validate_segment (s : Segment) (features : list FeatureDefinition) (times : list Z) : res ApplicationError unit :=
  if negb (bool_decide (timestamps s = times)) || negb (length (series s) =? length features)%nat
     || existsb (fun d => negb (existsb (fun x => definition_eqb (definition x) d) (series s))) features
  then Err (InputQualityRejected InvalidProcessingWindow) else Ok tt.

Definition validate_feature_constraints (s : Segment) : res ApplicationError unit :=
  if existsb (fun x => is_some_and (fun c => existsb (fun v => negb (is_missing v) && is_none_or (fun n => negb (accepts c n)) (as_number v)) (values x))
                         (numeric_constraints (definition x))) (series s)
  then Err bad_quality else Ok tt.

Definition validate_segment_provenance (pv : list SourceProvenance) (features : list FeatureDefinition) (k : SegmentKind)
    : res ApplicationError unit :=
  let sources := List.filter (fun p => bool_decide (pv_segment p = k)) pv in
  if negb (length sources =? length features)%nat
     || existsb (fun d => negb (count (fun p => String.eqb (pv_feature p) (fd_name d)) sources =? 1)%nat) features
  then Err bad_quality else Ok tt.

Fixpoint replace_last {A} (x : A) (l : list A) : option (list A) :=
  match l with
  | [] => None
  | a :: l => match l with [] => Some [x] | _ => l ← replace_last x l; Some (a :: l) end
  end.

Definition live_quality (q : PointQuality) : option SampleQuality :=
  match q with Good => Some SGood | Uncertain => Some SUncertain | _ => None end.

(** The samples, each with its mapping, when all of them can be used. *)
Fixpoint accept_samples (as_of : Z) (l : list (PointFeatureBinding * option PointSample)) : option (list (PointFeatureBinding * PointSample)) :=
  match l with
  | [] => Some []
  | (m, Some s) :: l =>
      if negb (bool_decide (ps_address s = pb_address m)) || negb (is_finite (ps_value s)) || negb (ps_timestamp s =? as_of)
         || negb (given (live_quality (ps_quality s)))
      then None else l ← accept_samples as_of l; Some ((m, s) :: l)
  | (_, None) :: _ => None
  end.

(** One series of the merged history; [None] keeps the stored history as it is. *)
Definition merge_series (pv : list SourceProvenance) (accepted : list (PointFeatureBinding * PointSample)) (stored : Series)
    : res ApplicationError (option (Series * SourceProvenance)) :=
  match List.find (fun '(m, _) => String.eqb (pb_feature m) (series_name stored)) accepted with
  | None =>
      source ← ok_or (List.find (fun p => String.eqb (pv_feature p) (series_name stored)) pv) InvalidProcessingConfiguration;
      Ok (Some (stored, source))
  | Some (m, s) =>
      _ ← ok_or (last (values stored)) InvalidProcessingConfiguration;
      v ← request_error (value_number (ps_value s));
      vs ← ok_or (replace_last v (values stored)) InvalidProcessingConfiguration;
      _ ← ok_or (last (quality stored)) InvalidProcessingConfiguration;
      match live_quality (ps_quality s) with
      | None => Ok None
      | Some q =>
          qs ← ok_or (replace_last q (quality stored)) InvalidProcessingConfiguration;
          series ← request_error (series_new (definition stored) vs qs);
          let source_ref := p ← List.find (fun p => String.eqb (pv_feature p) (pb_feature m)) pv; pv_ref p in
          source ← request_error (provenance_new KHistory (pb_feature m) SrcHistoryAndLive source_ref (ps_timestamp s));
          Ok (Some (series, source))
      end
  end.
Fixpoint merge_all (pv : list SourceProvenance) (accepted : list (PointFeatureBinding * PointSample)) (l : list Series)
    : res ApplicationError (option (list (Series * SourceProvenance))) :=
  match l with
  | [] => Ok (Some [])
  | s :: l =>
      r ← merge_series pv accepted s;
      match r with
      | None => Ok None
      | Some x => rest ← merge_all pv accepted l; Ok (rest ← rest; Some (x :: rest))
      end
  end.

Definition merge_live_tail (r : DataProcessingRoute) (as_of : Z) (history : SourcedSegment) : timed (SourcedSegment * bool) :=
  let mappings := List.filter live_tail (point_features (route_binding r)) in
  match mappings with
  | [] => pure (Ok (history, false))
  | _ =>
      if negb (bool_decide (last (timestamps (sd_segment history)) = Some as_of)) then pure (Ok (history, false))
      else
        let addresses := pb_address <$> mappings in
        samples ← on_env (read_many addresses); _ ← note (ELive addresses);
        match samples with
        | None => mret None
        | Some (Ok samples) =>
            match (if (length samples =? length mappings)%nat then accept_samples as_of (zip mappings samples) else None) with
            | None => pure (Ok (history, false))
            | Some accepted =>
                pure (merged ← merge_all (sd_provenance history) accepted (series (sd_segment history));
                      match merged with
                      | None => Ok (history, false)
                      | Some l =>
                          segment ← request_error (segment_new (timestamps (sd_segment history)) (fst <$> l));
                          sourced ← port_error (sourced_new segment (snd <$> l));
                          Ok (sourced, true)
                      end)
            end
        | Some (Err _) => pure (Ok (history, false))
        | Some Panic => mret (Some Panic)
        end
  end.

Definition tally (p : SampleQuality → bool) (n : Z) (s : Series) : Z := saturating_add 64 n (Z.of_nat (count p (quality s))).
Definition frame_cell_counts (history : Segment) (future : option Segment) (statics : list StaticFeature) : Z * Z * Z :=
  let all := series history ++ from_option series [] future in
  let total p := saturating_add 64 (fold_left (tally p) all 0) (Z.of_nat (count (fun s => p (st_quality s)) statics)) in
  (total (is_quality SMissing), total (is_quality SSubstituted),
   saturating_add 64 (fold_left (fun n s => saturating_add 64 n (Z.of_nat (length (values s)))) all 0) (Z.of_nat (length statics))).

Definition missing_ratio_of (missing cells : Z) : f64 := if cells =? 0 then zero else div (of_Z missing) (of_Z cells).

(** The part of [assemble_frame] after the sources have answered. *)
Definition finish_frame (r : DataProcessingRoute) (q : ProcessTaskRequest) (history : SourcedSegment) (live : bool)
    (future : option SourcedSegment) : res ApplicationError ProcessingFrame :=
  let spec := forecast_spec (route_task r) in
  let statics := binding_statics (route_binding r) in
  let definitions := st_definition <$> statics in
  let historic := features_of RHistory (route_task r) in
  let upcoming := features_of RFutureCovariate (route_task r) in
  constants ← map_res (fun s => request_error (provenance_new KStaticFeatures (static_name s) SrcConstant None (rq_as_of q))) statics;
  let pv := sd_provenance history ++ from_option sd_provenance [] future ++ constants in
  _ ← validate_segment_provenance pv historic KHistory;
  _ ← validate_segment_provenance pv upcoming KFutureCovariates;
  _ ← validate_segment_provenance pv definitions KStaticFeatures;
  expected ← ok_or (n ← checked_add 64 (Z.of_nat (length historic)) (Z.of_nat (length upcoming));
                    checked_add 64 n (Z.of_nat (length definitions))) bad_window;
  _ ← check (Z.of_nat (length pv) =? expected) bad_quality;
  watermark ← ok_or (newest_watermark pv) bad_quality;
  _ ← check (negb (existsb (later_than (rq_as_of q)) pv)) (InputQualityRejected InvalidProcessingWindow);
  _ ← check (negb (require_future_issue_time spec
                   && existsb (fun p => bool_decide (pv_segment p = KFutureCovariates) && actual p && negb (given (pv_issued_at p))) pv)) bad_quality;
  _ ← check (negb (is_some_and (fun age => existsb (fun p => age <? saturating_sub (rq_as_of q) (pv_watermark p)) (List.filter actual pv))
                     (max_input_age_ms spec))) bad_quality;
  let '(missing, substituted, cells) := frame_cell_counts (sd_segment history) (sd_segment <$> future) statics in
  let ratio := missing_ratio_of missing cells in
  _ ← check (negb (ltb (max_missing_ratio spec) ratio)) bad_quality;
  let gap := maximum_observation_gap (sd_segment history) (cadence_ms spec) in
  _ ← check (negb (is_some_and (fun allowed => allowed <? gap) (spec_max_gap_ms spec))) bad_quality;
  quality ← quality_error (frame_quality_new watermark ratio gap live substituted);
  quality_error (frame_new (rq_as_of q) (cadence_ms spec) (sd_segment history) (sd_segment <$> future) statics quality pv).

Definition history_window (r : DataProcessingRoute) (q : ProcessTaskRequest) : res ApplicationError (HistoryWindow * Z) :=
  let spec := forecast_spec (route_task r) in
  let features := features_of RHistory (route_task r) in
  policies ← map_res (fun d => request_error (history_policy_new (fd_name d) (history_aggregation_for spec (fd_name d))
                                                 (history_duplicate_policy_for spec (fd_name d)))) features;
  span ← ok_or (checked_mul 64 (cadence_ms spec) (saturating_sub (history_steps spec) 1)) bad_window;
  start ← (if span <=? rq_as_of q then Ok (rq_as_of q - span) else Err bad_window);
  end_ ← ok_or (checked_add 64 (rq_as_of q) (cadence_ms spec)) bad_window;
  window ← port_error (
    w ← history_window_new (task_identity (route_task r)) (binding_identity (route_binding r)) features start end_
          (history_steps spec) (history_aggregation spec) (history_duplicate_policy spec);
    w ← with_feature_policies policies w;
    with_cutoff (rq_as_of q) w);
  Ok (window, start).

Definition covariate_window (r : DataProcessingRoute) (q : ProcessTaskRequest) : res ApplicationError (Z * Z) :=
  let spec := forecast_spec (route_task r) in
  start ← ok_or (checked_add 64 (rq_as_of q) (cadence_ms spec)) bad_window;
  span ← ok_or (checked_mul 64 (cadence_ms spec) (horizon_steps (rq_options q))) bad_window;
  end_ ← ok_or (checked_add 64 start span) bad_window;
  Ok (start, end_).

(** What a source answered, checked against what was asked. *)
Definition checked_source (features : list FeatureDefinition) (k : SegmentKind) (start cadence steps : Z) (s : SourcedSegment)
    : res ApplicationError SourcedSegment :=
  times ← regular_timestamps start cadence steps;
  _ ← validate_segment (sd_segment s) features times;
  _ ← validate_feature_constraints (sd_segment s);
  _ ← validate_segment_provenance (sd_provenance s) features k;
  Ok s.

Definition assemble_future (app : DataProcessingApplication) (r : DataProcessingRoute) (q : ProcessTaskRequest) : timed (option SourcedSegment) :=
  let spec := forecast_spec (route_task r) in
  let features := features_of RFutureCovariate (route_task r) in
  match features with
  | [] => pure (Ok None)
  | _ =>
      bounds ←! pure (covariate_window r q);
      window ←! pure (if has_covariates app
                      then port_error (covariate_window_new (binding_identity (route_binding r)) features (rq_as_of q) bounds.1 bounds.2
                             (horizon_steps (rq_options q)))
                      else Err InvalidProcessingConfiguration);
      future ←! port_call (resolve window) CovariateSourceFailed
        (checked_source features KFutureCovariates bounds.1 (cadence_ms spec) (horizon_steps (rq_options q))) (fun _ => EResolve window);
      pure (Ok (Some future))
  end.

Definition assemble_frame (app : DataProcessingApplication) (r : DataProcessingRoute) (q : ProcessTaskRequest) : timed ProcessingFrame :=
  let spec := forecast_spec (route_task r) in
  let features := features_of RHistory (route_task r) in
  _ ←! pure (check (negb ((max_horizon_steps spec <? horizon_steps (rq_options q))
                          || (max_quantiles spec <? Z.of_nat (length (quantiles (rq_options q)))))) bad_window);
  window ←! pure (history_window r q);
  history ←! port_call (query window.1) HistoryQueryFailed
    (checked_source features KHistory window.2 (cadence_ms spec) (history_steps spec)) (EQuery window.1);
  merged ←! merge_live_tail r (rq_as_of q) history;
  future ←! assemble_future app r q;
  pure (finish_frame r q merged.1 merged.2 future).

(** ** Acceptance of a result *)

Fixpoint rposition {A} (p : A → bool) (l : list A) : option nat :=
  match l with
  | [] => None
  | a :: l => match rposition p l with Some i => Some (S i) | None => if p a then Some O else None end
  end.

Definition at_index {A} (l : list A) (i : nat) : res ApplicationError A := match l !! i with Some a => Ok a | None => Panic end.

Definition artifact_mismatch (s : ArtifactSelector) (a : ArtifactProvenance) : bool :=
  negb (String.eqb (art_kind a) (sel_kind s)) || negb (String.eqb (art_family a) (sel_family s))
  || is_some_and (fun v => negb (String.eqb v (art_version a))) (sel_version s)
  || is_some_and (fun d => negb (String.eqb d (art_digest a))) (sel_digest s).

Definition same_bits (a b : f64) : bool := to_bits a =? to_bits b.

(** The [Fallback] branch of [validate_processor_result]. *)
Definition validate_fallback (spec : ForecastTaskSpec) (request : DataProcessingRequest) (r : ProcessingResult) : res ApplicationError unit :=
  info ← ok_or (fallback r) InvalidProcessorResult;
  _ ← check (existsb (fun s => String.eqb s (fi_strategy info)) (allowed_fallbacks spec)) InvalidProcessorResult;
  let history := history (pr_frame request) in
  cut ← ok_or (last (timestamps history)) InvalidProcessorResult;
  _ ← check (negb (cut <? based_on_data_through info)) InvalidProcessorResult;
  source ← ok_or (List.find (fun s => String.eqb (series_name s) (fi_source_feature info)) (series history)) InvalidProcessorResult;
  index ← ok_or (rposition (fun '(v, q) => usable_cell v q) (zip (values source) (quality source))) InvalidProcessorResult;
  time ← at_index (timestamps history) index;
  _ ← check (time =? based_on_data_through info) InvalidProcessorResult;
  policy ← ok_or (fallback_policy spec (fi_strategy info)) InvalidProcessorResult;
  _ ← check (String.eqb (fi_version info) (fp_version policy) && String.eqb (fi_source_feature info) (fp_source_feature policy)) InvalidProcessorResult;
  expiry ← ok_or (expires_at r) InvalidProcessorResult;
  _ ← check (negb (fp_max_output_age_ms policy <? saturating_sub expiry (produced_at r))) InvalidProcessorResult;
  if String.eqb (fi_strategy info) "persistence" then
    value ← at_index (values source) index;
    x ← ok_or (as_number value) InvalidProcessorResult;
    o ← ok_or (output r) InvalidProcessorResult;
    check (forallb (fun p => same_bits (pt_value p) x && forallb (fun q => same_bits (q_value q) x) (pt_quantiles p)) (out_points o)) InvalidProcessorResult
  else Ok tt.

Definition quantiles_match (requested : list f64) (p : ForecastPoint) : bool :=
  (length (pt_quantiles p) =? length requested)%nat
  && forallb (fun '(actual, expected) => eqb (q_probability actual) expected) (zip (pt_quantiles p) requested).

(** The part of [validate_processor_result] about the output. *)
Definition validate_output (spec : ForecastTaskSpec) (request : DataProcessingRequest) (r : ProcessingResult) : res ApplicationError unit :=
  o ← ok_or (output r) InvalidProcessorResult;
  let options := pr_options request in
  let target := spec_target spec in
  _ ← check (String.eqb (out_target o) (target_name target) && String.eqb (out_unit o) (target_unit target)
             && String.eqb (out_sign o) (sign_convention target) && (out_cadence o =? cadence_ms spec)
             && (Z.of_nat (length (out_points o)) =? horizon_steps options)) InvalidProcessorResult;
  times ← (match future_covariates (pr_frame request) with
           | Some f => Ok (timestamps f)
           | None =>
               start ← ok_or (checked_add 64 (as_of (pr_frame request)) (cadence_ms spec)) InvalidProcessorResult;
               match regular_timestamps start (cadence_ms spec) (horizon_steps options) with
               | Ok l => Ok l
               | Err _ => Err InvalidProcessorResult
               | Panic => Panic
               end
           end);
  check ((length (out_points o) =? length times)%nat
         && forallb (fun '(p, t) => pt_timestamp p =? t) (zip (out_points o) times)
         && forallb (quantiles_match (quantiles options)) (out_points o)) InvalidProcessorResult.

Definition validate_processor_result (route : DataProcessingRoute) (request : DataProcessingRequest) (r : ProcessingResult)
    : res ApplicationError unit :=
  let d := descriptor (route_processor route) in
  let spec := forecast_spec (route_task route) in
  _ ← check (given (encode_result r)) InvalidProcessorResult;
  _ ← check (String.eqb (rs_request_id r) (pr_request_id request) && bool_decide (rs_task r = pr_task request)
             && bool_decide (rs_binding r = pr_binding request) && String.eqb (rs_input_digest r) (pr_input_digest request)
             && (input_watermark r =? fq_watermark (frame_quality (pr_frame request)))
             && String.eqb (proc_id (processor r)) (d_id d) && String.eqb (proc_version (processor r)) (d_version d)
             && String.eqb (proc_contract (processor r)) (pr_contract request)
             && (submitted_at request <=? produced_at r) && (produced_at r <=? deadline request)) InvalidProcessorResult;
  _ ← check (match artifact_selector request, artifact r with Some s, Some a => negb (artifact_mismatch s a) | _, _ => true end) InvalidProcessorResult;
  _ ← check (negb (bool_decide (status r = Produced) && given (artifact_selector request) && negb (given (artifact r)))) InvalidProcessorResult;
  _ ← check (is_none_or (fun expiry => negb (max_output_age_ms spec <? saturating_sub expiry (produced_at r))) (expires_at r)) InvalidProcessorResult;
  if bool_decide (status r = Unavailable) then Ok tt
  else
    _ ← (if bool_decide (status r = Fallback) then validate_fallback spec request r else Ok tt);
    validate_output spec request r.

(** ** The use case *)

Definition nul : string := String Ascii.zero "".
Definition stable_processing_id (scope outer_id digest : string) : string :=
  uuid_v5 ("aether.data-processing.v1" +:+ nul +:+ scope +:+ nul +:+ outer_id +:+ nul +:+ digest).

Definition processor_request (route : DataProcessingRoute) (c : RequestContext) (q : ProcessTaskRequest) (frame : ProcessingFrame)
    : res ApplicationError DataProcessingRequest :=
  let d := descriptor (route_processor route) in
  let t := route_task route in
  let b := route_binding route in
  cells ← frame_cell_count frame;
  _ ← check (negb (max_frame_samples d <? cells)) bad_window;
  digest ← ok_or (compute_input_digest (task_identity t) (binding_identity b) (processor_contract t) (binding_artifact b) frame (rq_options q)) ProcessingCodec;
  deadline ← ok_or (checked_add 64 (timestamp c) (deadline_ms route)) bad_window;
  request ← request_error (request_new (stable_processing_id "processor-request" (request_id c) digest) (task_identity t) (binding_identity b)
              frame (timestamp c) deadline (processor_contract t) (binding_artifact b) digest (rq_options q));
  bytes ← ok_or (encode_request request) ProcessingCodec;
  if max_request_bytes d <? Z.of_nat (length bytes)
  then Err (ProcessingRequestTooLarge (Z.of_nat (length bytes)) (max_request_bytes d))
  else Ok request.

(** From the answer of the processor to the derived data. *)
Definition accept_result (c : RequestContext) (route : DataProcessingRoute) (request : DataProcessingRequest) (r : ProcessingResult)
    : st world (res ApplicationError DerivedData) :=
  match validate_processor_result route request r with
  | Err e => fail c ARejected e
  | Panic => mret Panic
  | Ok _ =>
      if bool_decide (status r = Unavailable) then
        match unavailable r with
        | None => mret (Err InvalidProcessorResult)
        | Some u => fail c Failed (ProcessingUnavailable (un_reason u) (un_retryable u) (un_retry_after u))
        end
      else
        t ← on_env now;
        match t with
        | Err k => fail c Failed (Port k)
        | Panic => mret Panic
        | Ok t =>
            if (t <? produced_at r) || (deadline request <? t) then fail c ARejected InvalidProcessorResult
            else
              match accept (stable_processing_id "derived-data" (rs_request_id r) (rs_input_digest r)) t (frame_quality (pr_frame request)) r with
              | Ok d => _ ←? record_audit c Succeeded NoDetail; mret (Ok d)
              | Err _ => fail c ARejected InvalidProcessorResult
              | Panic => mret Panic
              end
        end
  end.

(** From the frame to the answer of the processor. *)
Definition submit (c : RequestContext) (route : DataProcessingRoute) (q : ProcessTaskRequest) (frame : ProcessingFrame)
    : st world (res ApplicationError DerivedData) :=
  match processor_request route c q frame with
  | Err e => fail c ARejected e
  | Panic => mret Panic
  | Ok request =>
      _ ←? record_audit c Attempted (OfAttempt (d_id (descriptor (route_processor route))) request);
      r ← on_env (run_processor (route_processor route) request);
      _ ← note (ERun (route_processor route) request);
      match r with
      | None => fail c Failed (ProcessorFailed Outbox.Timeout)
      | Some (Err k) => fail c Failed (ProcessorFailed k)
      | Some Panic => mret Panic
      | Some (Ok r) => accept_result c route request r
      end
  end.

(** What is done while the permit of the route is held. *)
Definition execute (app : DataProcessingApplication) (c : RequestContext) (route : DataProcessingRoute) (q : ProcessTaskRequest)
    : st world (res ApplicationError DerivedData) :=
  frame ← assemble_frame app route q;
  match frame with
  | None => fail c Failed (Port Outbox.Timeout)
  | Some (Err e) => fail c Failed e
  | Some Panic => mret Panic
  | Some (Ok frame) => submit c route q frame
  end.

Definition process (app : DataProcessingApplication) (c : RequestContext) (q : ProcessTaskRequest) : st world (res ApplicationError DerivedData) :=
  match authorize PROCESS_DATA_CAPABILITY c with
  | Err e => fail c ARejected e
  | Panic => mret Panic
  | Ok _ =>
      if timestamp c <? rq_as_of q then fail c ARejected bad_window
      else
        match List.find (is_route (rq_task q) (rq_binding q)) (routes app) with
        | None => fail c ARejected InvalidProcessingConfiguration
        | Some route =>
            if negb (rq_as_of q mod cadence_ms (forecast_spec (route_task route)) =? 0) then fail c ARejected bad_window
            else if bool_decide (data_boundary (descriptor (route_processor route)) = Remote) && negb (remote_egress_preapproved route) && negb (confirmed c)
            then fail c ARejected (ConfirmationRequired (cap_name PROCESS_DATA_CAPABILITY))
            else
              permit ← on_env (try_acquire (rq_task q) (rq_binding q));
              match permit with
              | true => r ← execute app c route q; _ ← on_env (release (rq_task q) (rq_binding q)); mret r
              | false => fail c ARejected (ProcessingUnavailable "ROUTE_CONCURRENCY_LIMIT" true (Some 250))
              end
        end
  end.

(** ** Frames *)

Definition grid (start cadence count : Z) : list Z := (fun i => start + cadence * i) <$> seqZ 0 count.

Lemma regular_timestamps_Ok start cadence n l : regular_timestamps start cadence n = Ok l → l = grid start cadence n.
Proof.
  intros Hl%map_res_Ok. unfold grid. induction Hl as [|i t is_ ts Hi _ IH]; [done|]. rewrite fmap_cons, <- IH. f_equal.
  unfold checked_mul, checked_add in Hi. apply ok_or_Ok in Hi. cbn in Hi. case_if; [|done]. cbn in Hi. case_if; [|done]. by injection Hi as <-.
Qed.

(** A segment with the features and times that were asked for, made by its constructors. *)
Definition shaped (features : list FeatureDefinition) (times : list Z) (g : Segment) : Prop :=
  segment_ok g ∧ timestamps g = times ∧ length (series g) = length features ∧
  ∀ d, d ∈ features → ∃ s, s ∈ series g ∧ definition_eqb (definition s) d = true.

(** What that means for its contents. *)
Definition segment_for (features : list FeatureDefinition) (times : list Z) (g : Segment) : Prop :=
  timestamps g = times ∧
  series_name <$> series g ≡ₚ fd_name <$> features ∧
  ∀ s, s ∈ series g →
    length (values s) = length times ∧ length (quality s) = length times ∧
    ∃ d, d ∈ features ∧ definition_eqb (definition s) d = true ∧
      ∀ i v q, values s !! i = Some v → quality s !! i = Some q → cell_ok d v q.

Lemma shaped_for features times g : NoDup (fd_name <$> features) → shaped features times g → segment_for features times g.
Proof.
  intros Hnd (Hok & Ht & Hlen & Hin). destruct (segment_facts g Hok) as (Hs & Hn & Hl).
  destruct (same_names g features Hn Hnd Hlen Hin) as [Hp Hd]. split_and!; [done..|]. intros s Hsin.
  rewrite Forall_forall in Hs. destruct (series_cells s (Hs s Hsin)) as [Hql Hc]. specialize (Hl s Hsin). rewrite Ht in Hl.
  split_and!; [done|by rewrite Hql|]. destruct (Hd s Hsin) as (d & Hdin & Hds). exists d. split_and!; [done..|].
  intros i v q Hv Hq. by eapply definition_cells, Hc.
Qed.

Lemma checked_source_Ok features k start cadence n s s' :
  sourced_ok s → checked_source features k start cadence n s = Ok s' →
  s' = s ∧ shaped features (grid start cadence n) (sd_segment s).
Proof.
  intros [_ Hok] H1. unfold checked_source in H1. apply res_bind_Ok in H1 as (times & Ht & H1). apply res_bind_Ok in H1 as (u & Hseg & H1).
  apply res_bind_Ok in H1 as (u' & _ & H1). apply res_bind_Ok in H1 as (u'' & _ & [= <-]). split; [done|].
  apply regular_timestamps_Ok in Ht as ->. unfold validate_segment in Hseg. destruct (_ || _) eqn:Hb; [done|].
  rewrite !orb_false_iff, !negb_false_iff, bool_decide_eq_true, Nat.eqb_eq, existsb_false in Hb. destruct Hb as [[Hb1 Hb2] Hb3].
  split_and!; [done..|]. intros d Hd. specialize (Hb3 d Hd). cbn in Hb3. apply negb_false_iff, existsb_true in Hb3. done.
Qed.

(** ** The live tail *)

(** All cells but the newest are the stored ones. *)
Definition only_newest (stored s : Series) : Prop :=
  definition s = definition stored ∧
  (s = stored ∨ ∃ vs v v' qs q q', values stored = vs ++ [v] ∧ values s = vs ++ [v'] ∧ quality stored = qs ++ [q] ∧ quality s = qs ++ [q']).

Lemma replace_last_Some {A} (x : A) l l' : replace_last x l = Some l' → ∃ l0 y, l = l0 ++ [y] ∧ l' = l0 ++ [x].
Proof.
  revert l'. induction l as [|a [|b l] IH]; intros l'; [done|intros [= <-]; by exists [], a|].
  change (replace_last x (a :: b :: l)) with (replace_last x (b :: l) ≫= λ l, Some (a :: l)).
  intros H1. destruct (replace_last x (b :: l)) as [r|] eqn:E1; [|done]. cbn in H1. injection H1 as <-.
  destruct (IH r eq_refl) as (l0 & y & -> & ->). by exists (a :: l0), y.
Qed.

Lemma merge_series_Ok pv accepted stored s p :
  series_ok stored → merge_series pv accepted stored = Ok (Some (s, p)) → series_ok s ∧ only_newest stored s.
Proof.
  intros Hok. unfold merge_series. destruct (List.find _ accepted) as [[m x]|].
  2: { intros H1. apply res_bind_Ok in H1 as (? & _ & [= <- <-]). split; [done|]. split; [done|by left]. }
  intros H1. apply res_bind_Ok in H1 as (? & _ & H1). apply res_bind_Ok in H1 as (v & Hv & H1). apply res_bind_Ok in H1 as (vs & Hvs & H1).
  apply res_bind_Ok in H1 as (? & _ & H1). destruct (live_quality _) as [q|]; [|done].
  apply res_bind_Ok in H1 as (qs & Hqs & H1). apply res_bind_Ok in H1 as (s' & Hs & H1). apply res_bind_Ok in H1 as (? & _ & [= <- <-]).
  apply ok_or_Ok in Hvs, Hqs. apply replace_last_Some in Hvs as (l0 & y & E1 & ->), Hqs as (l1 & z & E2 & ->).
  assert (s' = MkSeries (definition stored) (l0 ++ [v]) (l1 ++ [q])) as ->.
  { unfold series_new in Hs. case_if; [done|]. destruct (validate_samples _ _); [|done..]. cbn in Hs. by injection Hs as <-. }
  split; [|split; [done|right; by exists l0, y, v, l1, z, q]]. split.
  - cbn [definition values quality]. by destruct (series_new _ _ _); [injection Hs as ->|done..].
  - cbn [values]. destruct Hok as [_ Hf]. rewrite E1, Forall_app in Hf. apply Forall_app. split; [apply Hf|].
    apply Forall_singleton. unfold value_number in Hv. destruct (is_finite (ps_value x)) eqn:Hx; [|done]. by injection Hv as <-.
Qed.

Lemma merge_all_Ok pv accepted l l' :
  Forall series_ok l → merge_all pv accepted l = Ok (Some l') →
  Forall series_ok (fst <$> l') ∧ Forall2 only_newest l (fst <$> l').
Proof.
  intros Hl. revert l'. induction Hl as [|s l Hs _ IH]; intros l'; cbn [merge_all]; [intros [= <-]; by split; constructor|].
  intros H1. apply res_bind_Ok in H1 as ([[s' p]|] & H1 & H2); [|done]. apply res_bind_Ok in H2 as (rest & H2 & H3).
  destruct rest as [rest|]; [|done]. injection H3 as <-. destruct (IH rest H2). destruct (merge_series_Ok _ _ _ _ _ Hs H1).
  by split; constructor.
Qed.

Lemma only_newest_refl l : Forall2 only_newest l l.
Proof. induction l; constructor; [split; [done|by left]|done]. Qed.

(** The history of a frame: the stored one, but for newest cells. *)
Definition merged_from (stored g : Segment) : Prop :=
  timestamps g = timestamps stored ∧ Forall2 only_newest (series stored) (series g).

Lemma shaped_merged features times stored g :
  shaped features times stored → segment_ok g → merged_from stored g → shaped features times g.
Proof.
  intros (_ & Ht & Hlen & Hin) Hok [Htg Hs]. assert (definition <$> series g = definition <$> series stored) as Hd.
  { clear -Hs. induction Hs as [|a b la lb [Hab _] _ IH]; [done|]. rewrite !fmap_cons, IH. by rewrite Hab. }
  split_and!; [done|congruence|by rewrite <- Hlen; symmetry; apply (Forall2_length _ _ _ Hs)|].
  intros d Hdin. destruct (Hin d Hdin) as (s & Hs' & Hsd). assert (definition s ∈ definition <$> series g) as Hx.
  { rewrite Hd. apply list_elem_of_fmap. eauto. }
  apply list_elem_of_fmap in Hx as (s' & Es & Hs''). exists s'. by rewrite <- Es.
Qed.

Lemma merge_live_tail_Ok route t stored w g b w' :
  segment_ok (sd_segment stored) → merge_live_tail route t stored w = (Some (Ok (g, b)), w') →
  segment_ok (sd_segment g) ∧ merged_from (sd_segment stored) (sd_segment g).
Proof.
  intros Hok. assert (segment_ok (sd_segment stored) ∧ merged_from (sd_segment stored) (sd_segment stored)) as Hsame
    by (split; [done|split; [done|apply only_newest_refl]]).
  unfold merge_live_tail. destruct (List.filter live_tail _) as [|m ms]; [by intros [= <- _ _]|].
  case_if; [by intros [= <- _ _]|]. intros H1. apply st_bind_inv in H1 as (samples & w1 & _ & H1).
  apply st_bind_inv in H1 as ([] & w2 & _ & H1). destruct samples as [[samples|e|]|]; [|by injection H1 as <- _ _|done..].
  destruct (if (_ =? _)%nat then accept_samples _ _ else None) as [accepted|]; [|by injection H1 as <- _ _]. injection H1 as H1 _.
  apply res_bind_Ok in H1 as ([l|] & Hl & H1); [|by injection H1 as <- _]. apply merge_all_Ok in Hl as [Hall Hnew]; [|apply Hok].
  apply res_bind_Ok in H1 as (seg & Hseg & H1). apply res_bind_Ok in H1 as (sourced & Hsrc & [= <- _]).
  assert (seg = MkSegment (timestamps (sd_segment stored)) (fst <$> l)) as ->.
  { unfold segment_new in Hseg. repeat case_if; try done. by injection Hseg as <-. }
  assert (sd_segment sourced = MkSegment (timestamps (sd_segment stored)) (fst <$> l)) as ->.
  { unfold sourced_new in Hsrc. case_if; [done|]. by injection Hsrc as <-. }
  split; [|by split]. split; [|done]. cbn [timestamps series]. by destruct (segment_new _ _); [injection Hseg as ->|done..].
Qed.

(** ** Cells *)

Definition all_series (f : ProcessingFrame) : list Series := series (history f) ++ from_option series [] (future_covariates f).
(** The qualities of all cells. *)
Definition qualities (f : ProcessingFrame) : list SampleQuality := (all_series f ≫= quality) ++ (st_quality <$> static_features f).

Lemma count_app {A} (p : A → bool) l l' : count p (l ++ l') = (count p l + count p l')%nat.
Proof. unfold count. by rewrite List.filter_app, length_app. Qed.
Lemma count_fmap {A B} (p : B → bool) (f : A → B) l : count p (f <$> l) = count (fun a => p (f a)) l.
Proof. induction l as [|a l IH]; [done|]. unfold count in *. cbn. destruct (p (f a)); cbn; congruence. Qed.
Lemma count_le {A} (p : A → bool) l : (count p l ≤ length l)%nat.
Proof. apply List.filter_length_le. Qed.
Lemma count_bind {A B} (p : B → bool) (g : A → list B) l : count p (l ≫= g) = sum_list_with (fun a => count p (g a)) l.
Proof. induction l as [|a l IH]; [done|]. rewrite bind_cons, count_app, IH. done. Qed.
Lemma length_bind {A B} (g : A → list B) l : length (l ≫= g) = sum_list_with (fun a => length (g a)) l.
Proof. induction l as [|a l IH]; [done|]. rewrite bind_cons, length_app, IH. done. Qed.
Lemma sum_list_ext {A} (f g : A → nat) l : (∀ a, a ∈ l → f a = g a) → sum_list_with f l = sum_list_with g l.
Proof. induction l as [|a l IH]; intros Hl; [done|]. cbn. rewrite (Hl a), IH; [done|intros x Hx; apply Hl; by right|by left]. Qed.
Lemma sum_list_app {A} (f : A → nat) l l' : sum_list_with f (l ++ l') = (sum_list_with f l + sum_list_with f l')%nat.
Proof. induction l as [|a l IH]; [done|]. cbn. rewrite IH. lia. Qed.

Lemma saturating_sum {A} (f : A → nat) l n : 0 ≤ n ≤ u_max 64 →
  fold_left (fun n a => saturating_add 64 n (Z.of_nat (f a))) l n = Z.min (n + Z.of_nat (sum_list_with f l)) (u_max 64).
Proof.
  revert n. induction l as [|a l IH]; intros n Hn; cbn [fold_left sum_list_with]; [lia|].
  rewrite IH by (unfold saturating_add; lia). unfold saturating_add. lia.
Qed.

Lemma checked_sum_None (l : list Series) :
  fold_left (fun (n : option Z) s => n ← n; checked_add 64 n (Z.of_nat (length (values s)))) l None = None.
Proof. induction l; done. Qed.
Lemma checked_sum (l : list Series) n m :
  fold_left (fun (n : option Z) s => n ← n; checked_add 64 n (Z.of_nat (length (values s)))) l (Some n) = Some m →
  m = n + Z.of_nat (sum_list_with (fun s => length (values s)) l).
Proof.
  revert n. induction l as [|s l IH]; intros n; cbn [fold_left sum_list_with]; [intros [= <-]; lia|].
  unfold checked_add at 2. cbn. case_if; [intros ->%IH; lia|]. by rewrite checked_sum_None.
Qed.

Lemma qualities_length f : (∀ s, s ∈ all_series f → length (quality s) = length (values s)) →
  length (qualities f) = (sum_list_with (fun s => length (values s)) (series (history f))
    + sum_list_with (fun s => length (values s)) (from_option series [] (future_covariates f)) + length (static_features f))%nat.
Proof.
  intros Hq. unfold qualities. rewrite length_app, length_fmap, length_bind, (sum_list_ext _ (fun s => length (values s))) by done.
  unfold all_series. by rewrite sum_list_app.
Qed.

Lemma cell_count_exact f n :
  (∀ s, s ∈ all_series f → length (quality s) = length (values s)) →
  frame_cell_count f = Ok n → n = Z.of_nat (length (qualities f)) ∧ 0 ≤ n ≤ u_max 64.
Proof.
  intros Hq H1. unfold frame_cell_count in H1. apply ok_or_Ok in H1. rewrite (qualities_length f Hq).
  destruct (cells_of (history f)) as [h|] eqn:Eh; [|done]. apply checked_sum in Eh. cbn in H1.
  destruct (from_option cells_of (Some 0) (future_covariates f)) as [u|] eqn:Eu; [|done]. cbn in H1.
  assert (u = Z.of_nat (sum_list_with (fun s => length (values s)) (from_option series [] (future_covariates f)))) as ->
    by (destruct (future_covariates f); [by apply checked_sum in Eu|by injection Eu as <-]).
  unfold checked_add in H1. case_if; [|done]. cbn in H1. case_if; [|done]. injection H1 as <-.
  apply Z.ltb_lt in Heqb0. unfold u_max. lia.
Qed.

Lemma frame_counts_exact f n :
  (∀ s, s ∈ all_series f → length (quality s) = length (values s)) → frame_cell_count f = Ok n →
  ∃ substituted, frame_cell_counts (history f) (future_covariates f) (static_features f) =
    (Z.of_nat (count (is_quality SMissing) (qualities f)), substituted, Z.of_nat (length (qualities f))).
Proof.
  intros Hq H1. destruct (cell_count_exact f n Hq H1) as [-> Hn]. unfold frame_cell_counts. fold (all_series f). eexists.
  assert (0 ≤ 0 ≤ u_max 64) as H0' by done. unfold tally. rewrite !saturating_sum by done.
  pose proof (count_le (is_quality SMissing) (qualities f)) as Hc. pose proof (qualities_length f Hq) as Hl.
  rewrite <- sum_list_app in Hl. fold (all_series f) in Hl.
  assert (count (is_quality SMissing) (qualities f) =
    (sum_list_with (fun s => count (is_quality SMissing) (quality s)) (all_series f) +
     count (fun s => is_quality SMissing (st_quality s)) (static_features f))%nat) as Hm
    by (unfold qualities; by rewrite count_app, count_bind, count_fmap).
  unfold saturating_add. repeat f_equal; lia.
Qed.

(** ** What an assembled frame promises *)

(** The sources may not look into the future of the request and may not be too old. *)
Definition sources_bounded (spec : ForecastTaskSpec) (f : ProcessingFrame) : Prop :=
  ∀ p, p ∈ provenance f →
    pv_watermark p ≤ as_of f ∧ (∀ i, pv_issued_at p = Some i → i ≤ as_of f) ∧
    (∀ age, max_input_age_ms spec = Some age → actual p = true → as_of f - pv_watermark p ≤ age) ∧
    (require_future_issue_time spec = true → pv_segment p = KFutureCovariates → actual p = true → ∃ i, pv_issued_at p = Some i).

Definition ratio_bounded (spec : ForecastTaskSpec) (f : ProcessingFrame) : Prop :=
  let ratio := missing_ratio_of (Z.of_nat (count (is_quality SMissing) (qualities f))) (Z.of_nat (length (qualities f))) in
  fq_missing_ratio (frame_quality f) = ratio ∧ ltb (max_missing_ratio spec) ratio = false.

Definition frame_sound (route : DataProcessingRoute) (q : ProcessTaskRequest) (stored : Segment) (f : ProcessingFrame) : Prop :=
  let t := route_task route in
  let spec := forecast_spec t in
  let cadence := cadence_ms spec in
  as_of f = rq_as_of q ∧ frame_cadence f = cadence ∧
  segment_for (features_of RHistory t) (grid (rq_as_of q - cadence * (history_steps spec - 1)) cadence (history_steps spec)) (history f) ∧
  merged_from stored (history f) ∧
  match future_covariates f with
  | Some g => segment_for (features_of RFutureCovariate t) (grid (rq_as_of q + cadence) cadence (horizon_steps (rq_options q))) g
  | None => features_of RFutureCovariate t = []
  end ∧
  static_features f = binding_statics (route_binding route) ∧
  horizon_steps (rq_options q) ≤ max_horizon_steps spec ∧
  sources_bounded spec f ∧
  (∀ gap, spec_max_gap_ms spec = Some gap → covered (history f) cadence gap) ∧
  ∀ n, frame_cell_count f = Ok n → n = Z.of_nat (length (qualities f)) ∧ ratio_bounded spec f.

Lemma covered_le g cadence G G' : G ≤ G' → covered g cadence G → covered g cadence G'.
Proof. intros Hle Hc f l Hf Hl s Hs a Ha Hb. destruct (Hc f l Hf Hl s Hs a Ha) as (u & Hu & ?); [lia|]. exists u. split; [done|lia]. Qed.

Lemma frame_new_fields t c h fu st q pv f : frame_new t c h fu st q pv = Ok f → f = Frame t c h fu st q pv.
Proof. unfold frame_new. repeat (case_if; [done|]). by intros [= <-]. Qed.

Lemma existsb_negb_false {A} (p : A → bool) l : negb (existsb p l) = true → ∀ x, x ∈ l → p x = false.
Proof. rewrite negb_true_iff. apply existsb_false. Qed.

(** The checks after the sources have answered. *)
Lemma finish_frame_Ok route q h live future f :
  finish_frame route q h live future = Ok f →
  let spec := forecast_spec (route_task route) in
  as_of f = rq_as_of q ∧ frame_cadence f = cadence_ms spec ∧ history f = sd_segment h ∧ future_covariates f = sd_segment <$> future ∧
  static_features f = binding_statics (route_binding route) ∧ sources_bounded spec f ∧
  (∀ gap, spec_max_gap_ms spec = Some gap → covered (history f) (cadence_ms spec) gap) ∧
  let '(missing, _, cells) := frame_cell_counts (history f) (future_covariates f) (static_features f) in
  fq_missing_ratio (frame_quality f) = missing_ratio_of missing cells ∧ ltb (max_missing_ratio spec) (missing_ratio_of missing cells) = false.
Proof.
  unfold finish_frame. intros H1. apply res_bind_Ok in H1 as (constants & _ & H1). set (pv := _ ++ _) in H1.
  do 3 apply res_bind_Ok in H1 as (? & _ & H1). apply res_bind_Ok in H1 as (expected & _ & H1). apply res_bind_Ok in H1 as (? & _ & H1).
  apply res_bind_Ok in H1 as (watermark & _ & H1).
  apply res_bind_Ok in H1 as (? & Hlater%check_true & H1). apply res_bind_Ok in H1 as (? & Hissue%check_true & H1).
  apply res_bind_Ok in H1 as (? & Hage%check_true & H1). destruct (frame_cell_counts _ _ _) as [[missing substituted] cells] eqn:Ec.
  apply res_bind_Ok in H1 as (? & Hratio%check_true & H1). apply res_bind_Ok in H1 as (? & Hgap%check_true & H1).
  apply res_bind_Ok in H1 as (fq & Hq & H1). unfold quality_error in H1, Hq.
  destruct (frame_new _ _ _ _ _ _ _) as [f'| |] eqn:Hf; [|done..]. injection H1 as ->. apply frame_new_fields in Hf as ->.
  cbn [as_of frame_cadence history future_covariates static_features frame_quality provenance]. rewrite Ec. split_and!; try done.
  - intros p Hp. cbn [as_of provenance] in *. pose proof (existsb_negb_false _ _ Hlater p Hp) as Hl. unfold later_than in Hl.
    apply orb_false_iff in Hl as [Hl1%Z.ltb_ge Hl2]. split_and!; [done| | |].
    + intros i Ei. rewrite Ei in Hl2. cbn in Hl2. by apply Z.ltb_ge.
    + intros age Ea Hact. rewrite Ea in Hage. cbn in Hage. pose proof (existsb_negb_false _ _ Hage p) as Hx. cbn in Hx.
      apply Z.ltb_ge in Hx; [unfold saturating_sub in Hx; lia|]. apply list_elem_of_In, List.filter_In. split; [by apply list_elem_of_In|done].
    + intros Hr Hk Ha. rewrite Hr in Hissue. cbn in Hissue. pose proof (existsb_negb_false _ _ Hissue p Hp) as Hx. cbn in Hx.
      rewrite Ha, bool_decide_eq_true_2 in Hx by done. destruct (pv_issued_at p); [eauto|done].
  - intros gap Eg. rewrite Eg in Hgap. cbn in Hgap. apply negb_true_iff, Z.ltb_ge in Hgap. eapply covered_le, gap_covered. done.
  - unfold frame_quality_new in Hq. destruct (is_ratio _); [|done]. by injection Hq as <-.
  - by apply negb_true_iff in Hratio.
Qed.

Lemma history_window_Ok route q w start :
  spec_ok (forecast_spec (route_task route)) → history_window route q = Ok (w, start) →
  NoDup (fd_name <$> features_of RHistory (route_task route)) ∧
  start = rq_as_of q - cadence_ms (forecast_spec (route_task route)) * (history_steps (forecast_spec (route_task route)) - 1).
Proof.
  intros (Hc & Hs & _) H1. unfold history_window in H1. apply res_bind_Ok in H1 as (ps & _ & H1). apply res_bind_Ok in H1 as (span & Hspan & H1).
  apply res_bind_Ok in H1 as (st & Hst & H1). apply res_bind_Ok in H1 as (en & _ & H1). apply res_bind_Ok in H1 as (win & Hw & [= <- <-]).
  split.
  - unfold port_error in Hw. destruct (_ ≫= _) as [x| |] eqn:Ex; [|done..]. apply res_bind_Ok in Ex as (w1 & Hw1 & _).
    unfold history_window_new in Hw1. destruct (_ || _) eqn:Hb; [done|]. rewrite !orb_false_iff in Hb. destruct Hb as [[[[_ _] Hb] _] _].
    apply negb_false_iff in Hb. by apply distinct_names.
  - apply ok_or_Ok in Hspan. unfold checked_mul, saturating_sub in Hspan. destruct (_ <? _); [|done]. injection Hspan as <-.
    destruct (_ <=? rq_as_of q); [|done]. injection Hst as <-. rewrite Z.max_r by lia. done.
Qed.

Lemma timed_bind_Ok {A B} (m : st world (option (res ApplicationError A))) f w (b : B) w' :
  timed_bind m f w = (Some (Ok b), w') → ∃ a w1, m w = (Some (Ok a), w1) ∧ f a w1 = (Some (Ok b), w').
Proof. unfold timed_bind. destruct (m w) as [[[a|e|]|] w1]; try done. eauto. Qed.

Lemma port_call_Ok {A B} (m : st E (option (res Outbox.PortErrorKind A))) error (f : A → res ApplicationError B) e w b w' :
  port_call m error f e w = (Some (Ok b), w') →
  ∃ a, (m (w_env w)).1 = Some (Ok a) ∧ f a = Ok b ∧ w_log w' = w_log w ++ [e (Some (Ok a))].
Proof.
  unfold port_call, on_env, note, modify, mbind, st_bind. destruct (m (w_env w)) as [[[a|k|]|] e']; cbn; try done.
  intros [= E1 <-]. exists a. split_and!; [done|congruence|done].
Qed.

Context `{!PortsTyped E P}.

Lemma query_sourced win w s : (query win w).1 = Some (Ok s) → sourced_ok s.
Proof. destruct (query win w) as [x e'] eqn:Ex. cbn. intros ->. by eapply query_typed. Qed.
Lemma resolve_sourced win w s : (resolve win w).1 = Some (Ok s) → sourced_ok s.
Proof. destruct (resolve win w) as [x e'] eqn:Ex. cbn. intros ->. by eapply resolve_typed. Qed.

Lemma assemble_future_Ok app route q w future w' :
  assemble_future app route q w = (Some (Ok future), w') →
  match future with
  | Some s => NoDup (fd_name <$> features_of RFutureCovariate (route_task route)) ∧
      shaped (features_of RFutureCovariate (route_task route))
        (grid (rq_as_of q + cadence_ms (forecast_spec (route_task route))) (cadence_ms (forecast_spec (route_task route)))
           (horizon_steps (rq_options q))) (sd_segment s)
  | None => features_of RFutureCovariate (route_task route) = []
  end.
Proof.
  unfold assemble_future. destruct (features_of RFutureCovariate (route_task route)) as [|d ds] eqn:Ef; [by intros [= <- _]|].
  rewrite <- Ef. clear Ef. intros H1. apply timed_bind_Ok in H1 as ([start en] & w1 & [= Hw _] & H1).
  apply timed_bind_Ok in H1 as (win & w2 & [= Hwin _] & H1). apply timed_bind_Ok in H1 as (s & w3 & Hs & H1). injection H1 as <- _.
  apply port_call_Ok in Hs as (a & Ha & Hs & _). apply resolve_sourced in Ha. apply checked_source_Ok in Hs as [-> Hs]; [|done].
  split.
  - destruct (has_covariates app); [|done]. unfold port_error in Hwin. destruct (covariate_window_new _ _ _ _ _ _) eqn:Hc; [|done..].
    unfold covariate_window_new in Hc. destruct (_ || _) eqn:Hb; [done|]. rewrite !orb_false_iff in Hb. destruct Hb as [[[[[_ _] Hb] _] _] _].
    apply negb_false_iff in Hb. by apply distinct_names.
  - unfold covariate_window in Hw. apply res_bind_Ok in Hw as (x & Hx & Hw). apply res_bind_Ok in Hw as (y & _ & Hw).
    apply res_bind_Ok in Hw as (z & _ & [= -> ->]). apply ok_or_Ok in Hx. unfold checked_add in Hx. destruct (_ <? _); [|done].
    by injection Hx as <-.
Qed.

Lemma all_series_lengths f features times :
  segment_for features times (history f) →
  match future_covariates f with Some g => ∃ features times, segment_for features times g | None => True end →
  ∀ s, s ∈ all_series f → length (quality s) = length (values s).
Proof.
  intros (_ & _ & Hh) Hf s Hs. unfold all_series in Hs. apply elem_of_app in Hs as [Hs|Hs].
  - destruct (Hh s Hs) as (-> & -> & _). done.
  - destruct (future_covariates f) as [g|]; [|by apply elem_of_nil in Hs]. destruct Hf as (? & ? & _ & _ & Hg).
    destruct (Hg s Hs) as (-> & -> & _). done.
Qed.

(** ** Assembly only reads *)

Definition is_read (e : event) : Prop := match e with EQuery _ _ | EResolve _ | ELive _ => True | _ => False end.
Definition grows (w w' : world) : Prop := ∃ evs, w_log w' = w_log w ++ evs ∧ Forall is_read evs.
Definition reading {A} (m : st world A) : Prop := ∀ w a w', m w = (a, w') → grows w w'.

Lemma grows_refl w w' : w_log w' = w_log w → grows w w'.
Proof. intros Hw. exists []. by rewrite app_nil_r. Qed.
Lemma grows_trans w w1 w2 : grows w w1 → grows w1 w2 → grows w w2.
Proof. intros (l & E1 & H1) (l' & E2 & H2). exists (l ++ l'). rewrite E2, E1, app_assoc. split; [done|by apply Forall_app]. Qed.

Lemma reading_ret {A} (a : A) : reading (mret a).
Proof. intros w x w' [= _ <-]. by apply grows_refl. Qed.
Lemma reading_env {A} (m : st E A) : reading (on_env m).
Proof. intros w x w'. unfold on_env. destruct (m (w_env w)). intros [= _ <-]. by apply grows_refl. Qed.
Lemma reading_note e : is_read e → reading (note e).
Proof. intros He w x w' [= _ <-]. exists [e]. split; [done|by apply Forall_singleton]. Qed.
Lemma reading_bind {A B} (m : st world A) (f : A → st world B) : reading m → (∀ a, reading (f a)) → reading (m ≫= f).
Proof. intros Hm Hf w b w' H1. apply st_bind_inv in H1 as (a & w1 & H1 & H2). eapply grows_trans; [by eapply Hm|by eapply Hf]. Qed.
Lemma reading_timed {A B} (m : st world (option (res ApplicationError A))) (f : A → st world (option (res ApplicationError B))) :
  reading m → (∀ a, reading (f a)) → reading (timed_bind m f).
Proof.
  intros Hm Hf w b w'. unfold timed_bind. destruct (m w) as [x w1] eqn:E1. apply Hm in E1.
  destruct x as [[a|e|]|]; try (intros [= _ <-]; done). intros H2. eapply grows_trans; [done|by eapply Hf].
Qed.
Lemma reading_port {A B} (m : st E (option (res Outbox.PortErrorKind A))) error (f : A → res ApplicationError B) e :
  (∀ r, is_read (e r)) → reading (port_call m error f e).
Proof.
  intros He. apply reading_bind; [apply reading_env|]. intros r. apply reading_bind; [by apply reading_note|]. intros _. apply reading_ret.
Qed.

Lemma reading_merge route t s : reading (merge_live_tail route t s).
Proof.
  unfold merge_live_tail, pure. destruct (List.filter live_tail _); [apply reading_ret|]. case_if; [apply reading_ret|].
  apply reading_bind; [apply reading_env|]. intros r. apply reading_bind; [by apply reading_note|]. intros _.
  repeat case_match; apply reading_ret.
Qed.
Lemma reading_future app route q : reading (assemble_future app route q).
Proof.
  unfold assemble_future, pure. case_match; [apply reading_ret|]. apply reading_timed; [apply reading_ret|]. intros b.
  apply reading_timed; [apply reading_ret|]. intros win. apply reading_timed; [by apply reading_port|]. intros s. apply reading_ret.
Qed.
Lemma reading_assemble app route q : reading (assemble_frame app route q).
Proof.
  unfold assemble_frame, pure. apply reading_timed; [apply reading_ret|]. intros _. apply reading_timed; [apply reading_ret|]. intros win.
  apply reading_timed; [by apply reading_port|]. intros h. apply reading_timed; [apply reading_merge|]. intros m.
  apply reading_timed; [apply reading_future|]. intros fu. apply reading_ret.
Qed.

Lemma assemble_frame_Ok app route q w f w' :
  spec_ok (forecast_spec (route_task route)) → assemble_frame app route q w = (Some (Ok f), w') →
  ∃ stored win evs, frame_sound route q (sd_segment stored) f ∧ w_log w' = w_log w ++ evs ∧ Forall is_read evs ∧
    EQuery win (Some (Ok stored)) ∈ evs.
Proof.
  intros Hspec H1. unfold assemble_frame in H1. apply timed_bind_Ok in H1 as (u & w0 & [= Hopt <-] & H1).
  apply timed_bind_Ok in H1 as ([win start] & w1 & [= Hw <-] & H1). apply timed_bind_Ok in H1 as (h & w2 & Hq & H1).
  apply timed_bind_Ok in H1 as ([g live] & w3 & Hm & H1). apply timed_bind_Ok in H1 as (fu & w4 & Hfu & H1). injection H1 as Hf <-.
  cbn [fst snd] in *. apply port_call_Ok in Hq as (a & Ha & Hc & Hlog). apply query_sourced in Ha.
  apply checked_source_Ok in Hc as [-> Hshape]; [|done]. apply history_window_Ok in Hw as [Hnd ->]; [|done].
  pose proof (reading_merge _ _ _ _ _ _ Hm) as G1. pose proof (reading_future _ _ _ _ _ _ Hfu) as G2.
  destruct (grows_trans _ _ _ G1 G2) as (evs & Hevs & Hread). exists a, win, (EQuery win (Some (Ok a)) :: evs).
  split; [|rewrite Hevs, Hlog; split_and!; [by rewrite <- app_assoc|by constructor|left]].
  apply merge_live_tail_Ok in Hm as [Hgok Hmerged]; [|apply Ha]. apply assemble_future_Ok in Hfu.
  pose proof (shaped_merged _ _ _ _ Hshape Hgok Hmerged) as Hs. apply shaped_for in Hs; [|done].
  destruct (finish_frame_Ok _ _ _ _ _ _ Hf) as (F1 & F2 & F3 & F4 & F5 & F6 & F7 & F8).
  assert (match future_covariates f with
    | Some g => segment_for (features_of RFutureCovariate (route_task route))
        (grid (rq_as_of q + cadence_ms (forecast_spec (route_task route))) (cadence_ms (forecast_spec (route_task route))) (horizon_steps (rq_options q))) g
    | None => features_of RFutureCovariate (route_task route) = [] end) as Hfuture.
  { rewrite F4. destruct fu as [s|]; cbn; [|done]. destruct Hfu. by apply shaped_for. }
  rewrite <- F3 in Hs, Hmerged. split_and!; try done.
  - apply check_true, negb_true_iff, orb_false_iff in Hopt as [Ho _]. by apply Z.ltb_ge in Ho.
  - intros n Hn. assert (∀ s, s ∈ all_series f → length (quality s) = length (values s)) as Hlens.
    { eapply all_series_lengths; [done|]. destruct (future_covariates f); [eauto|done]. }
    split; [by apply cell_count_exact|]. destruct (frame_counts_exact f n Hlens Hn) as (sub & Ec). rewrite Ec in F8. done.
Qed.

(** ** What an accepted result promises *)

Definition quantiles_for (requested : list f64) (p : ForecastPoint) : Prop :=
  Forall2 (fun qv probability => eqb (q_probability qv) probability = true ∧ is_finite (q_value qv) = true) (pt_quantiles p) requested ∧
  ∀ i a b, pt_quantiles p !! i = Some a → pt_quantiles p !! S i = Some b → leb (q_value a) (q_value b) = true.

Definition output_for (spec : ForecastTaskSpec) (request : DataProcessingRequest) (o : ForecastOutput) : Prop :=
  out_target o = target_name (spec_target spec) ∧ out_unit o = target_unit (spec_target spec) ∧
  out_sign o = sign_convention (spec_target spec) ∧
  pt_timestamp <$> out_points o = grid (as_of (pr_frame request) + cadence_ms spec) (cadence_ms spec) (horizon_steps (pr_options request)) ∧
  Forall (fun p => is_finite (pt_value p) = true ∧ quantiles_for (quantiles (pr_options request)) p) (out_points o).

(** The newest value of the series, at its index. *)
Definition newest_value (s : Series) (i : nat) (v : FeatureValue) : Prop :=
  values s !! i = Some v ∧ is_missing v = false ∧ ∀ j v', (i < j)%nat → values s !! j = Some v' → is_missing v' = true.

Definition fallback_for (spec : ForecastTaskSpec) (request : DataProcessingRequest) (r : ProcessingResult) (o : ForecastOutput) : Prop :=
  let history := history (pr_frame request) in
  ∃ info policy source i v,
    fallback r = Some info ∧ fi_strategy info ∈ allowed_fallbacks spec ∧
    policy ∈ fallback_policies spec ∧ fp_strategy policy = fi_strategy info ∧ fp_version policy = fi_version info ∧
    fp_source_feature policy = fi_source_feature info ∧
    source ∈ series history ∧ series_name source = fi_source_feature info ∧
    newest_value source i v ∧ timestamps history !! i = Some (based_on_data_through info) ∧
    (∀ expiry, expires_at r = Some expiry → expiry - produced_at r ≤ fp_max_output_age_ms policy) ∧
    (fi_strategy info = "persistence" →
       series_name source = target_name (spec_target spec) ∧
       ∃ x, v = Number x ∧ ∀ p, p ∈ out_points o →
         to_bits (pt_value p) = to_bits x ∧ ∀ qv, qv ∈ pt_quantiles p → to_bits (q_value qv) = to_bits x).

Definition conforms (route : DataProcessingRoute) (request : DataProcessingRequest) (d : DerivedData) : Prop :=
  let r := result d in
  let spec := forecast_spec (route_task route) in
  rs_request_id r = pr_request_id request ∧ rs_task r = pr_task request ∧ rs_binding r = pr_binding request ∧
  rs_input_digest r = pr_input_digest request ∧ dd_quality d = frame_quality (pr_frame request) ∧
  submitted_at request ≤ produced_at r ≤ accepted_at d ∧ accepted_at d ≤ deadline request ∧
  (∃ expiry, expires_at r = Some expiry ∧ accepted_at d < expiry ∧ expiry - produced_at r ≤ max_output_age_ms spec) ∧
  ∃ o, output r = Some o ∧ output_for spec request o ∧ (status r = Fallback → fallback_for spec request r o).

Lemma windows_lookup {A} (f : A → A → bool) l i a b : windows f l = true → l !! i = Some a → l !! S i = Some b → f a b = true.
Proof.
  revert i. induction l as [|x l IH]; intros i Hw Ha Hb; [done|]. cbn [windows] in Hw. apply andb_true_iff in Hw as [H1 H2].
  destruct i as [|i]; [|by eapply IH]. injection Ha as <-. cbn in Hb. destruct l as [|y l]; [done|]. by injection Hb as <-.
Qed.

Lemma rposition_Some {A} (p : A → bool) l i : rposition p l = Some i →
  ∃ a, l !! i = Some a ∧ p a = true ∧ ∀ j b, (i < j)%nat → l !! j = Some b → p b = false.
Proof.
  revert i. induction l as [|x l IH]; intros i; cbn [rposition]; [done|]. destruct (rposition p l) as [k|] eqn:Ek.
  - intros [= <-]. destruct (IH k eq_refl) as (a & Ha & Hp & Hl). exists a. split_and!; [done..|].
    intros [|j] b Hj Hb; [lia|]. eapply (Hl j); [lia|done].
  - destruct (p x) eqn:Hx; [|done]. intros [= <-]. exists x. split_and!; [done..|]. intros [|j] b Hj Hb; [lia|]. cbn in Hb.
    clear -Ek Hb. revert j Hb. induction l as [|y l IH]; intros j Hb; [done|]. cbn [rposition] in Ek.
    destruct (rposition p l) eqn:El; [done|]. destruct (p y) eqn:Hy; [done|]. destruct j as [|j]; [by injection Hb as <-|by eapply IH].
Qed.

Lemma zip_pointwise {A B} (f : A → B → Prop) l l' : length l = length l' → (∀ a b, (a, b) ∈ zip l l' → f a b) → Forall2 f l l'.
Proof.
  revert l'. induction l as [|a l IH]; intros [|b l'] Hlen Hl; try done. constructor; [apply Hl; by left|].
  apply IH; [by injection Hlen|]. intros x y Hx. apply Hl. by right.
Qed.

Lemma point_for p requested : point_ok p → quantiles_match requested p = true →
  is_finite (pt_value p) = true ∧ quantiles_for requested p.
Proof.
  intros [Hp Hq] Hm. unfold forecast_point_new in Hp. destruct (is_finite (pt_value p)) eqn:Hfin; [|done]. cbn [negb] in Hp.
  destruct (windows _ _) eqn:Hw; [|done]. split; [done|]. unfold quantiles_match in Hm.
  apply andb_true_iff in Hm as [Hlen%Nat.eqb_eq Hall]. rewrite forallb_true in Hall.
  assert (∀ x, x ∈ pt_quantiles p → is_finite (q_value x) = true) as Hv.
  { intros x Hx. rewrite Forall_forall in Hq. specialize (Hq x Hx). unfold quantile_new in Hq. case_if; [done|].
    by destruct (is_finite (q_value x)). }
  split.
  - apply zip_pointwise; [done|]. intros a b Hab. split; [by apply (Hall (a, b))|]. apply Hv.
    apply list_elem_of_lookup in Hab as [i Hi]. apply lookup_zip_with_Some in Hi as (a' & b' & [= <- <-] & Hi & _).
    by eapply list_elem_of_lookup_2.
  - intros i a b Ha Hb. pose proof (windows_lookup _ _ _ _ _ Hw Ha Hb) as H1. cbn in H1. apply negb_true_iff, orb_false_iff in H1 as [_ H1].
    assert (is_nan (q_value a) = false ∧ is_nan (q_value b) = false) as [Na Nb].
    { split; apply finite_not_nan, Hv; by eapply list_elem_of_lookup_2. }
    rewrite (ltb_leb _ _ Nb Na) in H1. by apply negb_false_iff in H1.
Qed.

(** The times a forecast must have. *)
Definition axis_ok (spec : ForecastTaskSpec) (request : DataProcessingRequest) : Prop :=
  ∀ g, future_covariates (pr_frame request) = Some g →
    timestamps g = grid (as_of (pr_frame request) + cadence_ms spec) (cadence_ms spec) (horizon_steps (pr_options request)).

Lemma validate_output_Ok spec request r u :
  axis_ok spec request → (∀ o, output r = Some o → Forall point_ok (out_points o)) →
  validate_output spec request r = Ok u → ∃ o, output r = Some o ∧ output_for spec request o.
Proof.
  intros Haxis Hpts H1. unfold validate_output in H1. apply res_bind_Ok in H1 as (o & Ho%ok_or_Ok & H1). exists o. split; [done|].
  apply res_bind_Ok in H1 as (? & Hsem%check_true & H1). rewrite !andb_true_iff, !String.eqb_eq in Hsem. destruct Hsem as [[[[T1 T2] T3] _] _].
  apply res_bind_Ok in H1 as (times & Ht & Hall%check_true).
  assert (times = grid (as_of (pr_frame request) + cadence_ms spec) (cadence_ms spec) (horizon_steps (pr_options request))) as ->.
  { destruct (future_covariates (pr_frame request)) as [g|] eqn:Eg; [injection Ht as <-; by apply Haxis|].
    apply res_bind_Ok in Ht as (start & Hs%ok_or_Ok & Ht). unfold checked_add in Hs. destruct (_ <? _); [|done]. injection Hs as <-.
    destruct (regular_timestamps _ _ _) as [l| |] eqn:Er; [|done..]. injection Ht as <-. by apply regular_timestamps_Ok in Er. }
  rewrite !andb_true_iff, Nat.eqb_eq, !forallb_true in Hall. destruct Hall as [[Hlen Htimes] Hq]. split_and!; [done..| |].
  - assert (Forall2 (fun p t => pt_timestamp p = t) (out_points o) (grid (as_of (pr_frame request) + cadence_ms spec) (cadence_ms spec)
      (horizon_steps (pr_options request)))) as Hz.
    { apply zip_pointwise; [done|]. intros p t Hp. specialize (Htimes (p, t) Hp). cbn in Htimes. by apply Z.eqb_eq. }
    clear -Hz. induction Hz as [|p t ps ts Hp _ IH]; [done|]. by rewrite fmap_cons, Hp, IH.
  - specialize (Hpts o Ho). rewrite Forall_forall in Hpts |- *. intros p Hp. apply point_for; [by apply Hpts|by apply Hq].
Qed.

Definition persistence_of_target (spec : ForecastTaskSpec) : Prop :=
  ∀ p, p ∈ fallback_policies spec → fp_strategy p = "persistence" → fp_source_feature p = target_name (spec_target spec).

Lemma task_persistence t : task_ok t → persistence_of_target (forecast_spec t).
Proof.
  unfold task_ok, task_forecast. case_if; [done|]. case_if; [done|]. destruct (List.find _ _); [|done]. cbn. case_if; [done|].
  destruct (existsb _ (fallback_policies _)) eqn:Hx; [done|]. intros _ p Hp Hs. rewrite existsb_false in Hx. specialize (Hx p Hp).
  cbn in Hx. apply orb_false_iff in Hx as [_ Hx]. rewrite Hs in Hx. cbn in Hx. apply negb_false_iff, String.eqb_eq in Hx. done.
Qed.

Lemma newest_usable s i v q :
  (∀ i v q, values s !! i = Some v → quality s !! i = Some q → is_missing v = true ↔ q = SMissing) → length (quality s) = length (values s) →
  rposition (fun '(v, q) => usable_cell v q) (zip (values s) (quality s)) = Some i → values s !! i = Some v → quality s !! i = Some q → newest_value s i v.
Proof.
  intros Hc Hlen Hr Hv Hq. apply rposition_Some in Hr as (a & Ha & Hu & Hl). rewrite lookup_zip_with, Hv in Ha. cbn in Ha.
  rewrite Hq in Ha. injection Ha as <-. unfold usable_cell in Hu. apply andb_true_iff in Hu as [_ Hu%negb_true_iff]. split_and!; [done..|].
  intros j v' Hj Hv'. destruct (quality s !! j) as [q'|] eqn:Hq'; [|apply lookup_ge_None in Hq'; apply lookup_lt_Some in Hv'; lia].
  specialize (Hl j (v', q') Hj). rewrite lookup_zip_with, Hv' in Hl. cbn in Hl. rewrite Hq' in Hl. specialize (Hl eq_refl).
  unfold usable_cell in Hl. apply andb_false_iff in Hl as [Hl%negb_false_iff|Hl%negb_false_iff]; [|done].
  unfold is_quality in Hl. apply bool_decide_eq_true in Hl. by apply (Hc j v' q').
Qed.

Lemma validate_fallback_Ok spec request r o u features times :
  persistence_of_target spec → segment_for features times (history (pr_frame request)) → output r = Some o →
  validate_fallback spec request r = Ok u → fallback_for spec request r o.
Proof.
  intros Hpers (_ & _ & Hseg) Ho H1. unfold validate_fallback in H1. apply res_bind_Ok in H1 as (info & Hinfo%ok_or_Ok & H1).
  apply res_bind_Ok in H1 as (? & Hallow%check_true & H1). apply res_bind_Ok in H1 as (cut & _ & H1). apply res_bind_Ok in H1 as (? & _ & H1).
  apply res_bind_Ok in H1 as (source & Hsource%ok_or_Ok & H1). apply res_bind_Ok in H1 as (i & Hi%ok_or_Ok & H1).
  apply res_bind_Ok in H1 as (time & Htime & H1). apply res_bind_Ok in H1 as (? & Heq%check_true & H1).
  apply res_bind_Ok in H1 as (policy & Hpol%ok_or_Ok & H1). apply res_bind_Ok in H1 as (? & Hver%check_true & H1).
  apply res_bind_Ok in H1 as (expiry & Hexp%ok_or_Ok & H1). apply res_bind_Ok in H1 as (? & Hage%check_true & H1).
  apply list_find_Some in Hsource as [Hin Hname%String.eqb_eq]. apply list_find_Some in Hpol as [Hpin Hstr%String.eqb_eq].
  apply andb_true_iff in Hver as [Hv1%String.eqb_eq Hv2%String.eqb_eq]. apply existsb_true in Hallow as (y & Hx & ->%String.eqb_eq).
  apply Z.eqb_eq in Heq as ->. unfold at_index in Htime. destruct (timestamps _ !! i) as [t|] eqn:Et; [|done]. injection Htime as ->.
  destruct (Hseg source Hin) as (Hl1 & Hl2 & d & _ & _ & Hcells).
  pose proof (rposition_Some _ _ _ Hi) as ([v q] & Hz & _ & _). apply lookup_zip_with_Some in Hz as (v' & q' & [= <- <-] & Hv & Hq).
  exists info, policy, source, i, v. split_and!; try done.
  - eapply newest_usable; [|by rewrite Hl1|done..]. intros j v' q' Hv' Hq'. by apply (Hcells j v' q').
  - intros e Ee. rewrite Hexp in Ee. injection Ee as <-. apply negb_true_iff, Z.ltb_ge in Hage. unfold saturating_sub in Hage. lia.
  - intros Hp. rewrite Hp in H1. cbn in H1. split; [rewrite Hname, Hv2; apply Hpers; [done|congruence]|].
    apply res_bind_Ok in H1 as (v' & Hv' & H1). apply res_bind_Ok in H1 as (z0 & Hx'%ok_or_Ok & H1). apply res_bind_Ok in H1 as (o' & Ho'%ok_or_Ok & H1%check_true).
    unfold at_index in Hv'. rewrite Hv in Hv'. injection Hv' as <-. rewrite Ho in Ho'. injection Ho' as <-.
    exists z0. split; [by destruct v; simplify_eq/=|]. rewrite forallb_true in H1. intros p Hpp. specialize (H1 p Hpp). cbn in H1.
    apply andb_true_iff in H1 as [Hb%Z.eqb_eq Hqs]. rewrite forallb_true in Hqs. split; [done|]. intros qv Hqv. by apply Z.eqb_eq, (Hqs qv).
Qed.

Definition route_ok (route : DataProcessingRoute) : Prop :=
  task_ok (route_task route) ∧ spec_ok (forecast_spec (route_task route)) ∧
  is_ok (route_new (route_task route) (route_binding route) (route_processor route) (deadline_ms route)) = true.

Lemma route_egress route : route_ok route → data_boundary (descriptor (route_processor route)) = Remote →
  task_remote_egress (route_task route) = true ∧ binding_remote_egress (route_binding route) = true.
Proof.
  intros (_ & _ & Hr) Hb. unfold route_new in Hr. case_if; [done|]. destruct (maximum_task_cell_count _); [|done..]. cbn in Hr.
  destruct (_ || _) eqn:Hx; [done|]. rewrite !orb_false_iff in Hx. destruct Hx as [_ Hx]. rewrite Hb in Hx. cbn in Hx.
  apply orb_false_iff in Hx as [H1%negb_false_iff H2%negb_false_iff]. done.
Qed.

(** The request that is sent: exactly the task, the binding and the frame, within the limits of the processor. *)
Definition request_for (route : DataProcessingRoute) (c : RequestContext) (q : ProcessTaskRequest) (request : DataProcessingRequest) : Prop :=
  let d := descriptor (route_processor route) in
  pr_task request = task_identity (route_task route) ∧ pr_binding request = binding_identity (route_binding route) ∧
  pr_contract request = processor_contract (route_task route) ∧ artifact_selector request = binding_artifact (route_binding route) ∧
  pr_options request = rq_options q ∧ submitted_at request = timestamp c ∧ deadline request = timestamp c + deadline_ms route ∧
  compute_input_digest (pr_task request) (pr_binding request) (pr_contract request) (artifact_selector request) (pr_frame request)
    (pr_options request) = Some (pr_input_digest request) ∧
  (∃ n, frame_cell_count (pr_frame request) = Ok n ∧ n ≤ max_frame_samples d) ∧
  ∃ bytes, encode_request request = Some bytes ∧ Z.of_nat (length bytes) ≤ max_request_bytes d.

Lemma processor_request_Ok route c q frame request :
  processor_request route c q frame = Ok request → pr_frame request = frame ∧ request_for route c q request.
Proof.
  unfold processor_request. intros H1. apply res_bind_Ok in H1 as (n & Hn & H1). apply res_bind_Ok in H1 as (? & Hmax%check_true & H1).
  apply res_bind_Ok in H1 as (digest & Hdig%ok_or_Ok & H1). apply res_bind_Ok in H1 as (dl & Hdl%ok_or_Ok & H1).
  apply res_bind_Ok in H1 as (rq & Hrq & H1). apply res_bind_Ok in H1 as (bytes & Hbytes%ok_or_Ok & H1).
  destruct (_ <? _) eqn:Hsize in H1; [done|]. injection H1 as <-. unfold request_error in Hrq. destruct (request_new _ _ _ _ _ _ _ _ _ _) as [rq'| |] eqn:Hx; [|done..].
  injection Hrq as ->. unfold request_new in Hx. case_if; [done|]. apply res_bind_Ok in Hx as (id & _ & Hx).
  apply res_bind_Ok in Hx as (ct & ->%nonempty_Ok & Hx). apply res_bind_Ok in Hx as (dg & ->%nonempty_Ok & [= <-]).
  unfold checked_add in Hdl. destruct (_ <? 2 ^ 64); [|done]. injection Hdl as <-. split; [done|]. split_and!; try done.
  - exists n. split; [done|]. apply negb_true_iff, Z.ltb_ge in Hmax. done.
  - exists bytes. split; [done|]. by apply Z.ltb_ge in Hsize.
Qed.

(** ** The use case *)

(** A run ends with one audit entry, and with [Succeeded] on record exactly when it returns data. *)
Definition finished {A} (x : res ApplicationError A) (tail : list event) : Prop :=
  x = Panic ∧ tail = [] ∨ ∃ o d ok, tail = [EAudit o d ok] ∧ (is_ok x = true ↔ o = Succeeded ∧ ok = true).

Lemma audit_logged c o d w x w' : record_audit c o d w = (x, w') →
  ∃ ok, w_log w' = w_log w ++ [EAudit o d ok] ∧ (x = Ok tt ∧ ok = true ∨ is_ok x = false ∧ ok = false).
Proof.
  unfold record_audit, on_env, note, modify, mbind, st_bind. destruct (audit c o d (w_env w)) as [r e]. cbn. intros [= <- <-].
  destruct r as [[u|k|]|]; cbn; eexists; (split; [done|]); (by left) || (by right).
Qed.

Lemma fail_log {A} c o e w (x : res ApplicationError A) w' : fail c o e w = (x, w') → o ≠ Succeeded →
  ∃ ok, w_log w' = w_log w ++ [EAudit o (OfError e) ok] ∧ finished x [EAudit o (OfError e) ok] ∧ is_ok x = false.
Proof.
  unfold fail, st_try. destruct (record_audit c o (OfError e) w) as [r w1] eqn:Er. apply audit_logged in Er as (ok & Hlog & _).
  intros Hx Ho. assert (is_ok x = false ∧ w_log w' = w_log w1) as [Hf Hw] by (destruct r; by injection Hx as <- <-).
  exists ok. split_and!; [by rewrite Hw, Hlog| |done]. right. exists o, (OfError e), ok. rewrite Hf. split; [done|].
  split; [done|by intros []].
Qed.

Lemma validate_result_Ok route request r u features times :
  route_ok route → result_ok r → segment_for features times (history (pr_frame request)) →
  axis_ok (forecast_spec (route_task route)) request → status r ≠ Unavailable → validate_processor_result route request r = Ok u →
  let spec := forecast_spec (route_task route) in
  rs_request_id r = pr_request_id request ∧ rs_task r = pr_task request ∧ rs_binding r = pr_binding request ∧
  rs_input_digest r = pr_input_digest request ∧ submitted_at request ≤ produced_at r ∧
  (∀ expiry, expires_at r = Some expiry → expiry - produced_at r ≤ max_output_age_ms spec) ∧
  ∃ o, output r = Some o ∧ output_for spec request o ∧ (status r = Fallback → fallback_for spec request r o).
Proof.
  intros (Htask & _ & _) [_ Hpts] Hseg Haxis Hst H1. unfold validate_processor_result in H1. apply res_bind_Ok in H1 as (? & _ & H1).
  apply res_bind_Ok in H1 as (? & Hcor%check_true & H1). rewrite !andb_true_iff, !String.eqb_eq, !bool_decide_eq_true, !Z.leb_le in Hcor.
  destruct Hcor as [[[[[[[[[C1 C2] C3] C4] _] _] _] _] C5] _].
  apply res_bind_Ok in H1 as (? & _ & H1). apply res_bind_Ok in H1 as (? & _ & H1). apply res_bind_Ok in H1 as (? & Hexp%check_true & H1).
  rewrite bool_decide_eq_false_2 in H1 by done. apply res_bind_Ok in H1 as (fb & Hfb & H1).
  destruct (validate_output_Ok _ _ _ _ Haxis Hpts H1) as (o & Ho & Hout). split_and!; try done.
  - intros e He. rewrite He in Hexp. cbn in Hexp. apply negb_true_iff, Z.ltb_ge in Hexp. unfold saturating_sub in Hexp. lia.
  - exists o. split_and!; [done..|]. intros Hf. rewrite bool_decide_eq_true_2 in Hfb by done.
    eapply validate_fallback_Ok; [by apply task_persistence|done..].
Qed.

Lemma accept_Ok id t fq r d : accept id t fq r = Ok d →
  accepted_at d = t ∧ dd_quality d = fq ∧ result d = r ∧ ∃ e, expires_at r = Some e ∧ t < e.
Proof.
  unfold accept. destruct (_ || _) eqn:Hb; [done|]. intros H1. apply res_bind_Ok in H1 as (i & _ & [= <-]).
  rewrite !orb_false_iff in Hb. destruct Hb as [[_ Hb] _]. split_and!; [done..|]. destruct (expires_at r) as [e|]; [|done].
  exists e. split; [done|]. by apply Z.leb_gt in Hb.
Qed.

Lemma accept_result_spec c route request r w x w' features times :
  route_ok route → result_ok r → segment_for features times (history (pr_frame request)) →
  axis_ok (forecast_spec (route_task route)) request → accept_result c route request r w = (x, w') →
  ∃ tail, w_log w' = w_log w ++ tail ∧ finished x tail ∧ ∀ d, x = Ok d → conforms route request d.
Proof.
  intros Hr Hres Hseg Haxis H1. unfold accept_result in H1.
  assert (∀ o e, fail c o e w = (x, w') → o ≠ Succeeded → ∃ tail, w_log w' = w_log w ++ tail ∧ finished x tail ∧
    ∀ d, x = Ok d → conforms route request d) as Hfail.
  { intros o e Hf Ho. apply fail_log in Hf as (ok & Hl & Hfin & Hx); [|done]. eexists. split_and!; [done..|]. by intros d ->. }
  destruct (validate_processor_result route request r) as [u|e|] eqn:Hv; [|by eapply Hfail|].
  2: { injection H1 as <- <-. exists []. rewrite app_nil_r. split_and!; [done|by left|done]. }
  case_bool_decide as Hst.
  { destruct Hres as [Hok _]. destruct (unavailable r) as [un|] eqn:Hun; [by eapply Hfail|]. exfalso.
    unfold result_new in Hok. rewrite Hst in Hok. cbn in Hok. by rewrite !andb_false_r in Hok. }
  apply st_bind_inv in H1 as (t & w1 & Ht & H1).
  assert (w_log w1 = w_log w) as Hlog by (unfold on_env in Ht; destruct (now (w_env w)); by injection Ht as _ <-).
  assert (∀ o e, fail c o e w1 = (x, w') → o ≠ Succeeded → ∃ tail, w_log w' = w_log w ++ tail ∧ finished x tail ∧
    ∀ d, x = Ok d → conforms route request d) as Hfail1.
  { intros o e Hf Ho. apply fail_log in Hf as (ok & Hl & Hfin & Hx); [|done]. rewrite Hlog in Hl. eexists. split_and!; [done..|]. by intros d ->. }
  destruct t as [t|k|]; [|by eapply Hfail1|].
  2: { injection H1 as <- <-. exists []. rewrite Hlog, app_nil_r. split_and!; [done|by left|done]. }
  destruct (_ || _) eqn:Hwin in H1; [by eapply Hfail1|]. apply orb_false_iff in Hwin as [Hw1%Z.ltb_ge Hw2%Z.ltb_ge].
  destruct (accept _ t _ r) as [d|e|] eqn:Ha; [|by eapply Hfail1|].
  2: { injection H1 as <- <-. exists []. rewrite Hlog, app_nil_r. split_and!; [done|by left|done]. }
  unfold st_try in H1. destruct (record_audit c Succeeded NoDetail w1) as [a w2] eqn:Er. apply audit_logged in Er as (ok & Hl2 & Hok).
  exists [EAudit Succeeded NoDetail ok]. split; [by rewrite <- Hlog, <- Hl2; destruct a; injection H1 as _ <-|].
  split.
  { right. exists Succeeded, NoDetail, ok. split; [done|]. destruct Hok as [[-> ->]|[Hx ->]]; [by injection H1 as <- _|].
    destruct a; [done|..]; injection H1 as <- _; (split; [done|by intros []]). }
  intros d' ->. destruct a as [[]|e|]; [|done..]. injection H1 as <- _. apply accept_Ok in Ha as (A1 & A2 & A3 & e & He & Hte).
  destruct (validate_result_Ok _ _ _ _ _ _ Hr Hres Hseg Haxis Hst Hv) as (V1 & V2 & V3 & V4 & V5 & V6 & V7).
  unfold conforms. rewrite A1, A2, A3. split_and!; try done. exists e. split_and!; [done..|by apply V6].
Qed.

(** Who may ask for this route, and where its data may go. *)
Definition permitted (app : DataProcessingApplication) (c : RequestContext) (q : ProcessTaskRequest) (route : DataProcessingRoute) : Prop :=
  authorize PROCESS_DATA_CAPABILITY c = Ok tt ∧ route ∈ routes app ∧
  task_identity (route_task route) = rq_task q ∧ binding_identity (route_binding route) = rq_binding q ∧ rq_as_of q ≤ timestamp c ∧
  (data_boundary (descriptor (route_processor route)) = Remote →
     task_remote_egress (route_task route) = true ∧ binding_remote_egress (route_binding route) = true ∧
     (remote_egress_preapproved route = true ∨ confirmed c = true)).

(** The call of the processor, with the entry that announced it. *)
Definition call_of (route : DataProcessingRoute) (request : DataProcessingRequest) : list event :=
  [EAudit Attempted (OfAttempt (d_id (descriptor (route_processor route))) request) true; ERun (route_processor route) request].

(** From a sound frame: no call and no data, or one call with the request of that frame. *)
Definition submitted (c : RequestContext) (route : DataProcessingRoute) (q : ProcessTaskRequest) (frame : ProcessingFrame)
    (x : res ApplicationError DerivedData) (evs : list event) : Prop :=
  finished x evs ∧ is_ok x = false ∧ Forall (fun e => match e with ERun _ _ => False | _ => True end) evs ∨
  ∃ request tail, evs = call_of route request ++ tail ∧ pr_frame request = frame ∧ request_for route c q request ∧ finished x tail ∧
    ∀ d, x = Ok d → conforms route request d.

Lemma fail_submitted c route q frame o e w x w' : fail c o e w = (x, w') → o ≠ Succeeded →
  ∃ evs, w_log w' = w_log w ++ evs ∧ submitted c route q frame x evs.
Proof.
  intros Hf Ho. apply fail_log in Hf as (ok & Hl & Hfin & Hx); [|done]. eexists. split; [done|]. left. split_and!; [done..|by apply Forall_singleton].
Qed.

Lemma submit_spec c route q frame stored w x w' :
  route_ok route → frame_sound route q stored frame → submit c route q frame w = (x, w') →
  ∃ evs, w_log w' = w_log w ++ evs ∧ submitted c route q frame x evs.
Proof.
  intros Hr Hf H1. unfold submit in H1. destruct (processor_request route c q frame) as [request|e|] eqn:Hp; [|by eapply fail_submitted|].
  2: { injection H1 as <- <-. exists []. rewrite app_nil_r. split; [done|]. left. split_and!; [by left|done|constructor]. }
  apply processor_request_Ok in Hp as [<- Hreq]. unfold st_try in H1.
  destruct (record_audit c Attempted _ w) as [a w1] eqn:Ea. apply audit_logged in Ea as (ok & Hl1 & Hok).
  destruct Hok as [[-> ->]|[Hx ->]].
  2: { assert (is_ok x = false ∧ w' = w1) as [Hx' ->] by (destruct a; [done|by injection H1 as <- <-..]). eexists. split; [done|]. left.
       split_and!; [|done|by apply Forall_singleton]. right. eexists _, _, _. split; [done|]. rewrite Hx'. split; [done|by intros []]. }
  apply st_bind_inv in H1 as (r & w2 & Hrun & H1). apply st_bind_inv in H1 as ([] & w3 & Hnote & H1).
  assert (w_log w3 = w_log w ++ call_of route request) as Hl3.
  { unfold on_env in Hrun. destruct (run_processor _ _ _) in Hrun. injection Hrun as _ <-. injection Hnote as <-. cbn. rewrite Hl1.
    by rewrite <- app_assoc. }
  assert (∀ evs, w_log w' = w_log w3 ++ evs → finished x evs → (∀ d, x = Ok d → conforms route request d) →
    ∃ evs, w_log w' = w_log w ++ evs ∧ submitted c route q (pr_frame request) x evs) as Hdone.
  { intros evs Hl Hfin Hc. exists (call_of route request ++ evs). split; [by rewrite Hl, Hl3, app_assoc|]. right. by exists request, evs. }
  assert (∀ k, fail c Failed k w3 = (x, w') → ∃ evs, w_log w' = w_log w ++ evs ∧ submitted c route q (pr_frame request) x evs) as Hfail.
  { intros k Hk. apply fail_log in Hk as (ok & Hl & Hfin & Hx); [|done]. eapply Hdone; [done..|]. by intros d ->. }
  destruct r as [[r|k|]|]; [|by eapply Hfail| |by eapply Hfail].
  2: { injection H1 as <- <-. apply (Hdone []); [by rewrite app_nil_r|by left|done]. }
  destruct Hf as (F1 & F2 & F3 & F4 & F5 & _). assert (result_ok r) as Hres.
  { unfold on_env in Hrun. destruct (run_processor _ _ _) as [y e] eqn:Ey in Hrun. injection Hrun as -> _. by eapply run_typed. }
  assert (axis_ok (forecast_spec (route_task route)) request) as Haxis.
  { intros g Hg. rewrite Hg in F5. destruct F5 as [F5 _]. destruct Hreq as (_ & _ & _ & _ & Ho & _). by rewrite F5, F1, Ho. }
  destruct (accept_result_spec _ _ _ _ _ _ _ _ _ Hr Hres F3 Haxis H1) as (tail & Hl & Hfin & Hc). by eapply Hdone.
Qed.

(** The events of a run: reads; then either a refusal, or one announced call of the processor
    of a permitted route with the request of a sound frame; then the final entry. *)
Definition governed_run (app : DataProcessingApplication) (c : RequestContext) (q : ProcessTaskRequest)
    (x : res ApplicationError DerivedData) (evs : list event) : Prop :=
  ∃ reads rest, evs = reads ++ rest ∧ Forall is_read reads ∧
    (finished x rest ∧ is_ok x = false ∧ Forall (fun e => match e with ERun _ _ => False | _ => True end) rest ∨
     ∃ route request stored win tail, rest = call_of route request ++ tail ∧ permitted app c q route ∧
       EQuery win (Some (Ok stored)) ∈ reads ∧ frame_sound route q (sd_segment stored) (pr_frame request) ∧
       request_for route c q request ∧ finished x tail ∧ ∀ d, x = Ok d → conforms route request d).

Lemma fail_governed app c q reads o e w w1 x w' :
  w_log w1 = w_log w ++ reads → Forall is_read reads → fail c o e w1 = (x, w') → o ≠ Succeeded →
  ∃ evs, w_log w' = w_log w ++ evs ∧ governed_run app c q x evs.
Proof.
  intros Hl Hr Hf Ho. apply fail_log in Hf as (ok & Hl' & Hfin & Hx); [|done]. eexists. split; [by rewrite Hl', Hl, <- app_assoc|].
  exists reads. eexists. split_and!; [done..|]. left. split_and!; [done..|by apply Forall_singleton].
Qed.

Lemma panic_governed app c q reads w (w' : world) :
  w_log w' = w_log w ++ reads → Forall is_read reads →
  ∃ evs, w_log w' = w_log w ++ evs ∧ governed_run app c q Panic evs.
Proof. intros Hl Hr. exists reads. split; [done|]. exists reads, []. rewrite app_nil_r. split_and!; [done..|]. left. split_and!; [by left|done|constructor]. Qed.

Lemma execute_spec app c route q w x w' :
  route_ok route → permitted app c q route → execute app c route q w = (x, w') →
  ∃ evs, w_log w' = w_log w ++ evs ∧ governed_run app c q x evs.
Proof.
  intros Hr Hperm H1. unfold execute in H1. apply st_bind_inv in H1 as (r & w1 & Ha & H1).
  destruct (reading_assemble _ _ _ _ _ _ Ha) as (reads & Hl & Hread).
  destruct r as [[frame|e|]|]; [|by eapply fail_governed| |by eapply fail_governed].
  2: { injection H1 as <- <-. by eapply panic_governed. }
  apply assemble_frame_Ok in Ha as (stored & win & reads' & Hf & Hl' & _ & Hin); [|apply Hr].
  assert (reads' = reads) as -> by (rewrite Hl in Hl'; by apply app_inv_head in Hl').
  destruct (submit_spec _ _ _ _ _ _ _ _ Hr Hf H1) as (evs & Hl2 & Hs). exists (reads ++ evs). split; [by rewrite Hl2, Hl, app_assoc|].
  exists reads, evs. split_and!; [done..|]. destruct Hs as [Hs|(request & tail & -> & <- & Hreq & Hfin & Hc)]; [by left|].
  right. exists route, request, stored, win, tail. done.
Qed.

Lemma process_spec app c q w x w' :
  Forall route_ok (routes app) → process app c q w = (x, w') →
  ∃ evs, w_log w' = w_log w ++ evs ∧ governed_run app c q x evs.
Proof.
  intros Hroutes H1. unfold process in H1. assert (w_log w = w_log w ++ []) as Hw0 by by rewrite app_nil_r.
  destruct (authorize PROCESS_DATA_CAPABILITY c) as [[]|e|] eqn:Hauth; [|by eapply fail_governed|injection H1 as <- <-; by eapply panic_governed].
  destruct (timestamp c <? rq_as_of q) eqn:Htime; [by eapply fail_governed|].
  destruct (List.find _ (routes app)) as [route|] eqn:Hfind; [|by eapply fail_governed].
  case_if; [by eapply fail_governed|]. destruct (_ && _) eqn:Hremote in H1; [by eapply fail_governed|].
  apply list_find_Some in Hfind as [Hin Hroute]. apply andb_true_iff in Hroute as [Hr1%bool_decide_eq_true Hr2%bool_decide_eq_true].
  rewrite Forall_forall in Hroutes. specialize (Hroutes route Hin).
  assert (permitted app c q route) as Hperm.
  { split_and!; [done..|by apply Z.ltb_ge in Htime|]. intros Hb. destruct (route_egress route Hroutes Hb). split_and!; [done..|].
    rewrite Hb in Hremote. cbn in Hremote. destruct (remote_egress_preapproved route); [by left|]. right. by destruct (confirmed c). }
  apply st_bind_inv in H1 as (permit & w1 & Hp & H1).
  assert (w_log w1 = w_log w) as Hl1 by (unfold on_env in Hp; destruct (try_acquire _ _ _); by injection Hp as _ <-).
  destruct permit; [|eapply (fail_governed _ _ _ []); [by rewrite Hl1, app_nil_r|constructor|done|done]].
  apply st_bind_inv in H1 as (r & w2 & Hex & H1). apply st_bind_inv in H1 as ([] & w3 & Hrel & [= <- <-]).
  assert (w_log w3 = w_log w2) as -> by (unfold on_env in Hrel; destruct (release _ _ _); by injection Hrel as _ <-).
  destruct (execute_spec _ _ _ _ _ _ _ Hroutes Hperm Hex) as (evs & Hl & Hg). exists evs. by rewrite Hl, Hl1.
Qed.

(** C15. Whoever asks and whatever the sources, the audit sink and the processor answer or
    however late they are: when data reaches a processor, the request was authorised, the
    route is the enabled one of the requested task and binding, and data for a remote
    processor was allowed by the task, by the binding, and by a commissioned or explicit
    confirmation; an [Attempted] entry naming the request was durably recorded just
    before; the processor is called once, and at most one further entry follows.  The frame
    it gets is the stored history on the task's grid, with exactly the task's features and
    typed values within their limits, where only newest cells may be live samples; no source
    looks past the request time or is older than allowed, missing cells and observation gaps are
    within the task's limits, the digest is that of the content, and the size is
    within what the processor accepts. *)
Theorem processor_sees app c q w x w' p request :
  Forall route_ok (routes app) → process app c q w = (x, w') → ERun p request ∈ drop (length (w_log w)) (w_log w') →
  ∃ route reads stored win tail,
    p = route_processor route ∧ w_log w' = w_log w ++ reads ++ call_of route request ++ tail ∧ Forall is_read reads ∧
    finished x tail ∧ permitted app c q route ∧ EQuery win (Some (Ok stored)) ∈ reads ∧
    frame_sound route q (sd_segment stored) (pr_frame request) ∧ request_for route c q request.
Proof.
  intros Hr H1 Hin. destruct (process_spec _ _ _ _ _ _ Hr H1) as (evs & Hl & reads & rest & -> & Hread & Hcase).
  rewrite Hl, drop_app_length in Hin. apply elem_of_app in Hin as [Hin|Hin]; [by rewrite Forall_forall in Hread; apply Hread in Hin|].
  destruct Hcase as [(_ & _ & Hno)|(route & rq & stored & win & tail & -> & Hp & Hq & Hf & Hreq & Hfin & _)].
  { rewrite Forall_forall in Hno. by apply Hno in Hin. }
  assert (p = route_processor route ∧ request = rq) as [-> ->].
  { destruct Hfin as [[_ ->]|(o & d & ok & -> & _)]; cbn in Hin; rewrite ?elem_of_cons, ?elem_of_nil in Hin; naive_solver. }
  exists route, reads, stored, win, tail. done.
Qed.

(** C16. Derived data is handed out only when it answers the request: it was produced for the
    very request that was sent, by its processor, in its time, is recorded as [Succeeded], and
    has not expired and does not outlive the task's limit.  The forecast has the target, unit and sign of
    the task and one finite value per step of the requested horizon, at the times that follow
    the request, with the requested quantiles in order.  A fallback is one the task
    declares, in its version and from its source, based on the newest observation in the frame;
    a persistence forecast repeats the newest value of the target, bit for bit. *)
Theorem derived_conforms app c q w d w' :
  Forall route_ok (routes app) → process app c q w = (Ok d, w') →
  ∃ route request reads detail stored,
    w_log w' = w_log w ++ reads ++ call_of route request ++ [EAudit Succeeded detail true] ∧ Forall is_read reads ∧
    permitted app c q route ∧ frame_sound route q stored (pr_frame request) ∧ request_for route c q request ∧ conforms route request d.
Proof.
  intros Hr H1. destruct (process_spec _ _ _ _ _ _ Hr H1) as (evs & Hl & reads & rest & -> & Hread & Hcase).
  destruct Hcase as [(_ & Hx & _)|(route & rq & stored & win & tail & -> & Hp & Hq & Hf & Hreq & Hfin & Hc)]; [done|].
  destruct Hfin as [[Hx _]|(o & detail & ok & -> & Hok)]; [done|]. destruct Hok as [Hok _]. destruct (Hok eq_refl) as [-> ->].
  exists route, rq, reads, detail, (sd_segment stored). split_and!; try done. by apply Hc.
Qed.
End Application.

Lemma result_new_typed id t b digest s p a watermark produced expires o f u r :
  (∀ o', o = Some o' → Forall point_ok (out_points o')) →
  result_new id t b digest s p a watermark produced expires o f u = Ok r → result_ok r.
Proof.
  intros Ho H1. pose proof H1 as H2. unfold result_new in H2. case_if; [done|]. case_if; [done|].
  apply res_bind_Ok in H2 as (i & ->%nonempty_Ok & H2). apply res_bind_Ok in H2 as (dg & ->%nonempty_Ok & [= <-]).
  split; [|done]. cbn [rs_request_id rs_task rs_binding rs_input_digest status processor artifact input_watermark produced_at expires_at
    output fallback unavailable]. by rewrite H1.
Qed.

Module Sample.
Definition TWO : f64 := of_Z 2.
Definition load : FeatureDefinition := Feature "load" RHistory TNumber (Some "kW") (Some (NumericConstraints (Some zero) None false)).
Definition ambient : FeatureDefinition := Feature "ambient" RFutureCovariate TNumber (Some "Cel") None.
Definition spec : ForecastTaskSpec :=
  Spec (Target "load" "kW" "import") 1000 Last Latest [] 3 4 2 5000 one ["persistence"] [Fallback_ "persistence" "1" "load" 5000]
    (Some 3000) (Some 2000) false.
Definition task : DataProcessingTask := Task (TaskId "load-forecast" 1) "forecast.v1" [load; ambient] spec true.
Definition address : PointAddress := Address 7 Telemetry 1.
Definition binding : DataProcessingBinding := Binding (BindingId "site" 1) [PointBinding "load" address true] [] None true.

Definition stored : SourcedSegment :=
  Sourced (MkSegment [8000; 9000; 10000] [MkSeries load [Number one; Number one; Missing] [SGood; SGood; SMissing]])
    [Provenance KHistory "load" SrcHistory (Some "history") 9000 None].
Definition weather : SourcedSegment :=
  Sourced (MkSegment [11000; 12000] [MkSeries ambient [Number one; Number TWO] [SGood; SGood]])
    [Provenance KFutureCovariates "ambient" SrcCovariate None 9500 (Some 9000)].

Definition forecast_at (t : Z) : ForecastPoint := ForecastAt t TWO [].
Definition forecast : ForecastOutput := Output "load" "kW" "import" 1000 [forecast_at 11000; forecast_at 12000].
(** The persistence fallback for any request. *)
Definition answer (r : DataProcessingRequest) : res DomainError ProcessingResult :=
  result_new (pr_request_id r) (pr_task r) (pr_binding r) (pr_input_digest r) Fallback (Processor_ "local" "1" "forecast.v1") None
    (fq_watermark (frame_quality (pr_frame r))) 10500 (Some 15000) (Some forecast) (Some (FallbackOf "persistence" "1" "warming up" "load" 10000)) None.

Instance wire : WireContract := {
  route_contract _ _ _ _ _ _ := true;
  compute_input_digest t b _ _ _ _ := Some (task_id t +:+ binding_id b);
  encode_request _ := Some [];
  encode_result _ := Some [];
  uuid_v5 s := s }.

(** One point is live; the semaphore has a permit; everything else is answered. *)
Instance ports : Ports unit unit := {
  descriptor _ := Descriptor "local" "1" [Processing.Forecast] ["forecast.v1"] Remote 64 4096;
  health _ e := (Ok Healthy, e);
  run_processor _ r e := (Some (match answer r with Ok x => Ok x | _ => Err Outbox.Permanent end), e);
  query _ e := (Some (Ok stored), e);
  resolve _ e := (Some (Ok weather), e);
  read_many _ e := (Some (Ok [Some (Sample_ address TWO 10000 Good)]), e);
  audit _ _ _ e := (Some (Ok tt), e);
  now e := (Ok 10600, e);
  try_acquire _ _ e := (true, e);
  release _ _ e := (tt, e) }.

Lemma forecast_points : Forall point_ok (out_points forecast).
Proof. repeat constructor; by vm_compute. Qed.

Instance ports_typed : PortsTyped unit unit.
Proof.
  split.
  - intros w e s e' [= <- _]. split; [by vm_compute|]. split; [by vm_compute|]. repeat constructor; by vm_compute.
  - intros w e s e' [= <- _]. split; [by vm_compute|]. split; [by vm_compute|]. repeat constructor; by vm_compute.
  - intros p r e x e' Hx. unfold run_processor, ports in Hx. destruct (answer r) as [y| |] eqn:Ha; simplify_eq.
    eapply result_new_typed; [|exact Ha]. intros o [= <-]. exact forecast_points.
Qed.

Definition route : DataProcessingRoute (P := unit) := Route task binding tt 5000 1 false.
Definition app : DataProcessingApplication (P := unit) := App [route] true.
Definition asker : Actor := with_permission "data_processing.run" (actor_new "operator").
Definition context (confirmed : bool) : RequestContext := Request "r-1" asker confirmed 10200.
Definition ask : ProcessTaskRequest := TaskRequest (TaskId "load-forecast" 1) (BindingId "site" 1) 10000 (Options 2 []).
Definition start : world (E := unit) (P := unit) := World tt [].

(** Data goes to the remote processor only with a confirmation; the live sample fills the newest
    cell, and the forecast repeats it. *)
Definition kinds (w : world (E := unit) (P := unit)) : list string :=
  (fun e => match e with
            | EAudit o _ _ => match o with ARejected => "rejected" | Attempted => "attempted" | Succeeded => "succeeded" | Failed => "failed" end
            | EQuery _ _ => "history" | EResolve _ => "covariates" | ELive _ => "live" | ERun _ _ => "run"
            end) <$> w_log w.
Example process_run :
  (is_ok (process app (context false) ask start).1, kinds (process app (context false) ask start).2,
   is_ok (process app (context true) ask start).1, kinds (process app (context true) ask start).2) =
  (false, ["rejected"], true, ["history"; "live"; "covariates"; "attempted"; "run"; "succeeded"]).
Proof. by vm_compute. Qed.

Lemma routes_ok : Forall route_ok (routes app).
Proof. apply Forall_singleton. split; [by vm_compute|]. split; [by vm_compute|by vm_compute]. Qed.

Lemma processor_sees_witness : ∃ request,
  ERun tt request ∈ w_log (process app (context true) ask start).2 ∧
  ∃ route stored, permitted app (context true) ask route ∧ frame_sound route ask (sd_segment stored) (pr_frame request) ∧
    request_for route (context true) ask request.
Proof.
  destruct (process app (context true) ask start) as [x w'] eqn:Hrun.
  assert (∃ request, ERun tt request ∈ drop (length (w_log start)) (w_log w')) as (request & Hin).
  { assert (kinds w' !! 4%nat = Some "run") as Hk by (change w' with (x, w').2; rewrite <- Hrun; by vm_compute).
    unfold kinds in Hk. rewrite list_lookup_fmap in Hk. destruct (w_log w' !! 4%nat) as [ev|] eqn:He; [|done]. cbn in Hk.
    destruct ev as [[]| | | |[] r]; try done. exists r. by eapply list_elem_of_lookup_2. }
  exists request. split; [done|].
  destruct (processor_sees app (context true) ask start x w' tt request routes_ok Hrun Hin)
    as (r & reads & s & win & tail & _ & _ & _ & _ & H1 & _ & H2 & H3). exists r, s. done.
Defined.

Lemma derived_conforms_witness : ∃ d w', process app (context true) ask start = (Ok d, w') ∧
  ∃ route request, route ∈ routes app ∧ conforms route request d.
Proof.
  destruct (process app (context true) ask start) as [x w'] eqn:Hrun.
  assert (is_ok x = true) as Hx by (change x with (x, w').1; rewrite <- Hrun; by vm_compute).
  destruct x as [d| |]; [|done..]. exists d, w'. split; [done|].
  destruct (derived_conforms app (context true) ask start d w' routes_ok Hrun)
    as (r & request & reads & detail & s & _ & _ & (_ & Hin & _) & _ & _ & Hc). exists r, request. done.
Defined.
End Sample.
End Forecast.
