(* ===== verification/Wire.v ===== *)
(** * The wire contract of data processing

    crates/aether-data-processing/src/codec.rs over the structures of dto.rs: requests and
    results to and from their version 1 documents, with every limit both directions check,
    the digest of the input, and what a commissioned route must satisfy.  serde_json, the
    canonical JSON with its SHA-256, and chrono's RFC 3339 conversions are parameters; a
    [BTreeMap<String, _>] is its entries in key order.  The enumerations of the wire have the
    variants of the domain's. *)

From Stdlib Require Import ZArith Lia Ascii String OrdersEx Sorting.Sorted.
From stdpp Require Import base tactics numbers list strings pretty.
From S2P Require Import Prelude State Float Json Domain Outbox Executor Governance Processing Forecast.
#[local] Open Scope Z_scope.

Module Wire.
Import Float Domain Processing.

Inductive CodecError := Json | Contract | OfDomain (e : DomainError) | CanonicalJson.
#[local] Notation result_of A := (res CodecError A).

Definition of_domain {A} (r : res DomainError A) : result_of A :=
  match r with Ok a => Ok a | Err e => Err (OfDomain e) | Panic => Panic end.
(** [map(f).transpose()] *)
Definition map_option {A B} (f : A → result_of B) (o : option A) : result_of (option B) :=
  match o with Some a => b ← f a; Ok (Some b) | None => Ok None end.

Definition MAX_SEGMENT_SAMPLES : Z := 20000.
Definition MAX_FEATURES_PER_SEGMENT : Z := 128.
Definition MAX_STATIC_FEATURES : Z := 128.
Definition MAX_PROVENANCE_ENTRIES : Z := 512.
Definition MAX_WARNINGS : Z := 64.
Definition MAX_FORECAST_POINTS : Z := 4096.
Definition MAX_QUANTILES : Z := 19.
Definition MAX_CADENCE_SECONDS : Z := 86400.

Definition size {A} (l : list A) : Z := Z.of_nat (length l).

(** ** Field validators *)

Definition code (c : ascii) : Z := Z.of_N (N_of_ascii c).
Definition validate_identifier (value : string) : result_of unit :=
  check ((String.length value <=? 256)%nat
         && match list_ascii_of_string value with
            | [] => false
            | c :: rest =>
                is_ascii_alphanumeric c
                && forallb (fun c => is_ascii_alphanumeric c || existsb (Ascii.eqb c) [".";"_";":";"-"]%char) rest
            end) Contract.

(** A control character in UTF-8: U+0000-001F, U+007F-009F. *)
Fixpoint has_control (l : list Z) : bool :=
  match l with
  | [] => false
  | a :: l => (a <? 32) || (a =? 127) || ((a =? 0xC2) && match l with b :: _ => b <? 0xA0 | [] => false end) || has_control l
  end.
Definition validate_text (value : string) (max_bytes : nat) : result_of unit :=
  if String.eqb value "" || (max_bytes <? String.length value)%nat || has_control (Governance.utf8 value) then Err Contract else Ok tt.
Definition validate_feature_name (value : string) : result_of unit := validate_text value 128.
Definition validate_unit (value : string) : result_of unit := validate_text value 64.

Definition is_hexdigit (c : ascii) : bool :=
  let n := code c in ((48 <=? n) && (n <=? 57)) || ((65 <=? n) && (n <=? 70)) || ((97 <=? n) && (n <=? 102)).
Definition validate_uuid (value : string) : result_of unit :=
  let l := list_ascii_of_string value in
  let at_ i cs := is_some_and (fun c => existsb (Ascii.eqb c) cs) (l !! i) in
  check ((length l =? 36)%nat
         && forallb (fun '(i, c) => if existsb (Nat.eqb i) [8; 13; 18; 23]%nat then Ascii.eqb c "-" else is_hexdigit c) (zip (seq 0 36) l)
         && at_ 14%nat ["1";"2";"3";"4";"5";"6";"7";"8"]%char
         && at_ 19%nat ["8";"9";"a";"b";"A";"B"]%char) Contract.

Definition validate_digest (value : string) : result_of unit := check (is_sha256_digest value) Contract.

Definition is_upper (c : ascii) : bool := let n := code c in (65 <=? n) && (n <=? 90).
Definition is_digit (c : ascii) : bool := let n := code c in (48 <=? n) && (n <=? 57).
Definition validate_stable_code (value : string) : result_of unit :=
  let l := list_ascii_of_string value in
  check ((String.length value <=? 128)%nat && match l with c :: _ => is_upper c | [] => false end
         && forallb (fun c => is_upper c || is_digit c || Ascii.eqb c "_") l) Contract.

Fixpoint each {A} (f : A → result_of unit) (l : list A) : result_of unit :=
  match l with [] => Ok tt | a :: l => _ ← f a; each f l end.
Definition validate_stable_codes (values : list string) : result_of unit :=
  _ ← check (size values <=? MAX_WARNINGS) Contract;
  _ ← check (strings_are_unique values) Contract;
  each validate_stable_code values.

Definition finite (v : f64) : result_of f64 := if is_finite v then Ok v else Err Contract.
Definition seconds_to_milliseconds_allow_zero (s : Z) : result_of Z := if s * 1000 <? 2 ^ 64 then Ok (s * 1000) else Err Contract.
Definition seconds_to_milliseconds (s : Z) : result_of Z := if s =? 0 then Err Contract else seconds_to_milliseconds_allow_zero s.
Definition milliseconds_to_seconds (ms : Z) : result_of Z := if ms mod 1000 =? 0 then Ok (ms / 1000) else Err Contract.

(** ** Documents (dto.rs) *)

Record TaskWire := WTask { wt_id : string; wt_revision : Z; wt_kind : TaskKind }.
Record BindingWire := WBinding { wb_id : string; wb_revision : Z }.
Record ArtifactSelectorWire := WSelector { ws_kind : string; ws_family : string; ws_version : option string; ws_digest : option string }.
Inductive ScalarWire := WNumber (v : f64) | WString (s : string) | WBoolean (b : bool) | WNull.
Record SeriesWire := WSeries { se_type : FeatureValueType; se_unit : option string; se_values : list ScalarWire; se_quality : list SampleQuality }.
Record SegmentWire := WSegment { sg_timestamps : list string; sg_features : list (string * SeriesWire) }.
Record StaticFeatureWire := WStatic { sf_type : FeatureValueType; sf_unit : option string; sf_value : ScalarWire; sf_quality : SampleQuality }.
Record FrameQualityWire := WQuality {
  wq_watermark : string; wq_missing_ratio : f64; wq_max_gap_seconds : Z; wq_live_tail : bool; wq_substituted : Z }.
Record SourceProvenanceWire := WSource {
  wp_segment : SegmentKind; wp_feature : string; wp_kind : SourceKind; wp_ref : option string; wp_watermark : string; wp_issued_at : option string }.
Record FrameWire := WFrame {
  wf_schema : string; wf_as_of : string; wf_cadence_seconds : Z; wf_history : SegmentWire; wf_future : option SegmentWire;
  wf_statics : list (string * StaticFeatureWire); wf_quality : FrameQualityWire; wf_provenance : list SourceProvenanceWire }.
Record OptionsWire := WOptions { wo_horizon_steps : Z; wo_quantiles : option (list f64) }.
Record RequestWire := WRequest {
  wr_schema : string; wr_request_id : string; wr_submitted_at : string; wr_deadline : string; wr_task : TaskWire; wr_binding : BindingWire;
  wr_contract : string; wr_artifact : option ArtifactSelectorWire; wr_frame : FrameWire; wr_options : OptionsWire; wr_digest : string }.

Record ProcessorWire := WProcessor { pw_id : string; pw_version : string; pw_contract : string }.
Record ArtifactProvenanceWire := WArtifact { aw_kind : string; aw_family : string; aw_version : string; aw_digest : string }.
Inductive TimestampSemanticsWire := IntervalStart | IntervalEnd | Instant.
Record ForecastPointWire := WPoint { fw_timestamp : string; fw_value : f64; fw_quantiles : option (list (f64 * f64)) }.
Record ForecastOutputWire := WOutput {
  ow_schema : string; ow_kind : TaskKind; ow_target : string; ow_unit : string; ow_sign : string; ow_cadence_seconds : Z;
  ow_semantics : TimestampSemanticsWire; ow_points : list ForecastPointWire }.
Record FallbackWire := WFallback { bw_strategy : string; bw_version : string; bw_reason : string; bw_source : string; bw_through : string }.
Record UnavailableWire := WUnavailable { uw_reason : string; uw_retryable : bool; uw_retry_after_seconds : option Z }.
Record ResultWire := WResult {
  rw_schema : string; rw_request_id : string; rw_task : TaskWire; rw_binding : BindingWire; rw_digest : string; rw_status : ProcessingStatus;
  rw_issued_at : string; rw_expires_at : option string; rw_watermark : string; rw_processor : ProcessorWire;
  rw_artifact : option ArtifactProvenanceWire; rw_output : option ForecastOutputWire; rw_fallback : option FallbackWire;
  rw_unavailable : option UnavailableWire; rw_warnings : list string }.

Inductive AcceptedProcessingStatusWire := AProduced | AFallback.
Record DerivedDataWire := WDerived {
  dw_schema : string; dw_result_id : string; dw_request_id : string; dw_task : TaskWire; dw_binding : BindingWire;
  dw_accepted_at : string; dw_expires_at : string; dw_digest : string; dw_status : AcceptedProcessingStatusWire;
  dw_processor : ProcessorWire; dw_artifact : option ArtifactProvenanceWire; dw_fallback : option FallbackWire;
  dw_warnings : list string; dw_quality : FrameQualityWire; dw_fallback_used : bool; dw_data : ForecastOutputWire }.

#[global] Instance task_wire_eq_dec : EqDecision TaskWire.
Proof. solve_decision. Defined.
#[global] Instance binding_wire_eq_dec : EqDecision BindingWire.
Proof. solve_decision. Defined.
#[global] Instance selector_wire_eq_dec : EqDecision ArtifactSelectorWire.
Proof. solve_decision. Defined.
#[global] Instance scalar_wire_eq_dec : EqDecision ScalarWire.
Proof. solve_decision. Defined.
#[global] Instance series_wire_eq_dec : EqDecision SeriesWire.
Proof. solve_decision. Defined.
#[global] Instance segment_wire_eq_dec : EqDecision SegmentWire.
Proof. solve_decision. Defined.
#[global] Instance static_wire_eq_dec : EqDecision StaticFeatureWire.
Proof. solve_decision. Defined.
#[global] Instance frame_quality_wire_eq_dec : EqDecision FrameQualityWire.
Proof. solve_decision. Defined.
#[global] Instance provenance_wire_eq_dec : EqDecision SourceProvenanceWire.
Proof. solve_decision. Defined.
#[global] Instance frame_wire_eq_dec : EqDecision FrameWire.
Proof. solve_decision. Defined.
#[global] Instance options_wire_eq_dec : EqDecision OptionsWire.
Proof. solve_decision. Defined.
#[global] Instance request_wire_eq_dec : EqDecision RequestWire.
Proof. solve_decision. Defined.
#[global] Instance processor_wire_eq_dec : EqDecision ProcessorWire.
Proof. solve_decision. Defined.
#[global] Instance artifact_wire_eq_dec : EqDecision ArtifactProvenanceWire.
Proof. solve_decision. Defined.
#[global] Instance semantics_wire_eq_dec : EqDecision TimestampSemanticsWire.
Proof. solve_decision. Defined.
#[global] Instance point_wire_eq_dec : EqDecision ForecastPointWire.
Proof. solve_decision. Defined.
#[global] Instance output_wire_eq_dec : EqDecision ForecastOutputWire.
Proof. solve_decision. Defined.
#[global] Instance fallback_wire_eq_dec : EqDecision FallbackWire.
Proof. solve_decision. Defined.
#[global] Instance unavailable_wire_eq_dec : EqDecision UnavailableWire.
Proof. solve_decision. Defined.
#[global] Instance result_wire_eq_dec : EqDecision ResultWire.
Proof. solve_decision. Defined.

Definition REQUEST_SCHEMA : string := "aether.data-processing.request.v1".
Definition RESULT_SCHEMA : string := "aether.data-processing.result.v1".
Definition FRAME_SCHEMA : string := "aether.processing-frame.v1".
Definition DERIVED_DATA_SCHEMA : string := "aether.derived-data.v1".
Definition FORECAST_OUTPUT_SCHEMA : string := "aether.data-processing.output.forecast.v1".

(** ** Maps in key order *)

Fixpoint map_insert {A} (k : string) (v : A) (m : list (string * A)) : list (string * A) :=
  match m with
  | [] => [(k, v)]
  | (k', v') :: m' =>
      match String_as_OT.compare k k' with
      | Lt => (k, v) :: m
      | Eq => (k, v) :: m'
      | Gt => (k', v') :: map_insert k v m'
      end
  end.
Definition contains_key {A} (k : string) (m : list (string * A)) : bool := existsb (fun '(k', _) => String.eqb k' k) m.

(** Entries inserted one by one; a key that is already there is refused. *)
Fixpoint insert_all {A B} (name : A → string) (f : A → result_of B) (l : list A) (m : list (string * B)) : result_of (list (string * B)) :=
  match l with
  | [] => Ok m
  | a :: l =>
      _ ← validate_feature_name (name a);
      b ← f a;
      if contains_key (name a) m then Err Contract else insert_all name f l (map_insert (name a) b m)
  end.

(** ** Documents of the wire *)

(** [reject_explicit_nulls]: null is a missing feature value, a member [value] or an element of [values]. *)
Definition is_null (v : Json.Value) : bool := match v with Json.Null => true | _ => false end.
Fixpoint reject_explicit_nulls (v : Json.Value) (null_array_elements_allowed : bool) : bool :=
  match v with
  | Json.Obj fields =>
      forallb (fun '(name, v) => if is_null v then String.eqb name "value" else reject_explicit_nulls v (String.eqb name "values")) fields
  | Json.Arr values => forallb (fun v => if is_null v then null_array_elements_allowed else reject_explicit_nulls v false) values
  | Json.Null => null_array_elements_allowed
  | _ => true
  end.

(** The numbers of a document. *)
Definition scalar_finite (v : ScalarWire) : bool := match v with WNumber x => is_finite x | _ => true end.
Definition segment_finite (g : SegmentWire) : bool := forallb (fun '(_, s) => forallb scalar_finite (se_values s)) (sg_features g).
Definition request_finite (w : RequestWire) : bool :=
  let f := wr_frame w in
  segment_finite (wf_history f) && is_none_or segment_finite (wf_future f) && forallb (fun '(_, s) => scalar_finite (sf_value s)) (wf_statics f)
  && is_finite (wq_missing_ratio (wf_quality f)) && is_none_or (forallb is_finite) (wo_quantiles (wr_options w)).
Definition point_finite (p : ForecastPointWire) : bool :=
  is_finite (fw_value p) && is_none_or (forallb (fun '(a, b) => is_finite a && is_finite b)) (fw_quantiles p).
Definition result_finite (w : ResultWire) : bool := is_none_or (fun o => forallb point_finite (ow_points o)) (rw_output w).

(** serde's derived conversions, serde_json, the canonical JSON of the digest basis, SHA-256 and chrono. *)
Class Codecs := {
  to_rfc3339 : Z → option string;
  (** offset from UTC in seconds, nanoseconds of the second, milliseconds since the epoch *)
  parse_from_rfc3339 : string → option (Z * Z * Z);
  request_to_vec : RequestWire → option (list Z);
  result_to_vec : ResultWire → option (list Z);
  derived_to_vec : DerivedDataWire → option (list Z);
  value_from_slice : list Z → option Json.Value;
  request_from_value : Json.Value → option RequestWire;
  result_from_value : Json.Value → option ResultWire;
  canonical_to_vec : TaskWire → BindingWire → string → option ArtifactSelectorWire → FrameWire → OptionsWire → option (list Z);
  sha256 : list Z → list Z }.

(** What is documented of them.  A printed time is parsed to the same time; a document with finite
    numbers reads back, members that are absent are not written ([skip_serializing_if]), so no null but
    a missing value is. *)
Class CodecsOk `{Codecs} : Prop := {
  rfc3339_roundtrip ms s x : to_rfc3339 ms = Some s → parse_from_rfc3339 s = Some x → x = (0, ms mod 1000 * 1000000, ms);
  request_json_roundtrip w bytes : request_to_vec w = Some bytes → request_finite w = true →
    ∃ v, value_from_slice bytes = Some v ∧ reject_explicit_nulls v false = true ∧ request_from_value v = Some w;
  result_json_roundtrip w bytes : result_to_vec w = Some bytes → result_finite w = true →
    ∃ v, value_from_slice bytes = Some v ∧ reject_explicit_nulls v false = true ∧ result_from_value v = Some w }.

Section Codec.
Context `{Codecs}.

(** ** Times *)

Definition format_timestamp (t : Z) : result_of string :=
  if t <? 2 ^ 63 then ok_or (to_rfc3339 t) Contract else Err Contract.
Definition utc_shape (value : string) : bool :=
  let l := list_ascii_of_string value in
  (20 <=? length l)%nat && bool_decide (last l = Some "Z"%char)
  && bool_decide (l !! 4%nat = Some "-"%char) && bool_decide (l !! 7%nat = Some "-"%char) && bool_decide (l !! 10%nat = Some "T"%char)
  && forallb is_digit (take 4 l).
Definition parse_timestamp (value : string) : result_of Z :=
  if negb (utc_shape value) then Err Contract
  else
    match parse_from_rfc3339 value with
    | None => Err Contract
    | Some (offset, nanos, ms) =>
        if negb (offset =? 0) || negb (nanos mod 1000000 =? 0) then Err Contract
        else if (0 <=? ms) && (ms <? 2 ^ 64) then Ok ms else Err Contract
    end.

(** ** Parts of requests and results *)

Definition task_to_wire (t : TaskIdentity) : result_of TaskWire :=
  _ ← validate_identifier (task_id t);
  if task_revision t =? 0 then Err Contract else Ok (WTask (task_id t) (task_revision t) Processing.Forecast).
Definition task_from_wire (w : TaskWire) : result_of TaskIdentity :=
  _ ← validate_identifier (wt_id w); of_domain (task_identity_new (wt_id w) (wt_revision w)).
Definition binding_to_wire (b : BindingIdentity) : result_of BindingWire :=
  _ ← validate_identifier (binding_id b);
  if binding_revision b =? 0 then Err Contract else Ok (WBinding (binding_id b) (binding_revision b)).
Definition binding_from_wire (w : BindingWire) : result_of BindingIdentity :=
  _ ← validate_identifier (wb_id w); of_domain (binding_identity_new (wb_id w) (wb_revision w)).

Definition if_some {A} (f : A → result_of unit) (o : option A) : result_of unit := match o with Some a => f a | None => Ok tt end.

Definition artifact_selector_to_wire (o : option ArtifactSelector) : result_of (option ArtifactSelectorWire) :=
  map_option (fun a =>
    _ ← validate_identifier (sel_kind a); _ ← validate_identifier (sel_family a);
    _ ← if_some validate_identifier (sel_version a); _ ← if_some validate_digest (sel_digest a);
    Ok (WSelector (sel_kind a) (sel_family a) (sel_version a) (sel_digest a))) o.
Definition artifact_selector_from_wire (o : option ArtifactSelectorWire) : result_of (option ArtifactSelector) :=
  map_option (fun a =>
    _ ← validate_identifier (ws_kind a); _ ← validate_identifier (ws_family a); _ ← if_some validate_identifier (ws_version a);
    s ← of_domain (selector_new (ws_kind a) (ws_family a) (ws_version a));
    match ws_digest a with Some d => of_domain (with_digest d s) | None => Ok s end) o.

Definition scalar_to_wire (v : FeatureValue) : result_of ScalarWire :=
  match v with
  | Missing => Ok WNull
  | Number x => x ← finite x; Ok (WNumber x)
  | Text s => Ok (WString s)
  | Boolean b => Ok (WBoolean b)
  end.
Definition scalar_from_wire (v : ScalarWire) (expected : FeatureValueType) : result_of FeatureValue :=
  match v, expected with
  | WNull, _ => Ok Missing
  | WNumber x, TNumber => x ← finite x; of_domain (value_number x)
  | WString s, TText => Ok (Text s)
  | WBoolean b, TBoolean => Ok (Boolean b)
  | _, _ => Err Contract
  end.

Definition feature_definition_from_wire (name : string) (role : FeatureRole) (ty : FeatureValueType) (unit : option string) : result_of FeatureDefinition :=
  match ty with
  | TNumber => u ← ok_or unit Contract; _ ← validate_unit u; of_domain (feature_numeric name role u)
  | _ => if given unit then Err Contract else of_domain (feature_new name role ty)
  end.

Definition series_to_wire (s : Series) : result_of SeriesWire :=
  vs ← map_res scalar_to_wire (values s);
  Ok (WSeries (fd_type (definition s)) (fd_unit (definition s)) vs (quality s)).
Definition series_from_wire (role : FeatureRole) (e : string * SeriesWire) : result_of Series :=
  let '(name, w) := e in
  _ ← validate_feature_name name;
  d ← feature_definition_from_wire name role (se_type w) (se_unit w);
  vs ← map_res (fun v => scalar_from_wire v (fd_type d)) (se_values w);
  of_domain (series_new d vs (se_quality w)).

Definition segment_to_wire (g : Segment) : result_of SegmentWire :=
  features ← insert_all series_name series_to_wire (series g) [];
  ts ← map_res format_timestamp (timestamps g);
  Ok (WSegment ts features).
Definition segment_from_wire (role : FeatureRole) (w : SegmentWire) : result_of Segment :=
  ts ← map_res parse_timestamp (sg_timestamps w);
  ss ← map_res (series_from_wire role) (sg_features w);
  of_domain (segment_new ts ss).

Definition static_to_wire (s : StaticFeature) : result_of StaticFeatureWire :=
  v ← scalar_to_wire (st_value s);
  Ok (WStatic (fd_type (st_definition s)) (fd_unit (st_definition s)) v (st_quality s)).
Definition static_features_to_wire (l : list StaticFeature) : result_of (list (string * StaticFeatureWire)) :=
  insert_all static_name static_to_wire l [].
Definition static_from_wire (e : string * StaticFeatureWire) : result_of StaticFeature :=
  let '(name, w) := e in
  _ ← validate_feature_name name;
  d ← feature_definition_from_wire name RStatic (sf_type w) (sf_unit w);
  v ← scalar_from_wire (sf_value w) (fd_type d);
  of_domain (static_new d v (sf_quality w)).
Definition static_features_from_wire (l : list (string * StaticFeatureWire)) : result_of (list StaticFeature) := map_res static_from_wire l.

Definition source_provenance_to_wire (p : SourceProvenance) : result_of SourceProvenanceWire :=
  _ ← validate_feature_name (pv_feature p); _ ← if_some (fun r => validate_text r 2048) (pv_ref p);
  watermark ← format_timestamp (pv_watermark p); issued ← map_option format_timestamp (pv_issued_at p);
  Ok (WSource (pv_segment p) (pv_feature p) (pv_kind p) (pv_ref p) watermark issued).
Definition source_provenance_from_wire (w : SourceProvenanceWire) : result_of SourceProvenance :=
  _ ← validate_feature_name (wp_feature w); _ ← if_some (fun r => validate_text r 2048) (wp_ref w);
  watermark ← parse_timestamp (wp_watermark w);
  p ← of_domain (provenance_new (wp_segment w) (wp_feature w) (wp_kind w) (wp_ref w) watermark);
  match wp_issued_at w with
  | Some t => t ← parse_timestamp t; of_domain (with_issued_at t p)
  | None => Ok p
  end.

(** ** Frames *)

Definition validate_segment_limits (g : SegmentWire) : result_of unit :=
  _ ← check (negb (size (sg_timestamps g) =? 0) && (size (sg_timestamps g) <=? MAX_SEGMENT_SAMPLES)) Contract;
  _ ← check (negb (size (sg_features g) =? 0) && (size (sg_features g) <=? MAX_FEATURES_PER_SEGMENT)) Contract;
  check (forallb (fun '(_, s) => negb (size (se_values s) =? 0) && (size (se_values s) <=? MAX_SEGMENT_SAMPLES)
                                 && negb (size (se_quality s) =? 0) && (size (se_quality s) <=? MAX_SEGMENT_SAMPLES)) (sg_features g)) Contract.
Definition validate_frame_limits (f : FrameWire) : result_of unit :=
  _ ← check (negb (wf_cadence_seconds f =? 0) && (wf_cadence_seconds f <=? MAX_CADENCE_SECONDS)) Contract;
  _ ← validate_segment_limits (wf_history f);
  _ ← if_some validate_segment_limits (wf_future f);
  _ ← check (size (wf_statics f) <=? MAX_STATIC_FEATURES) Contract;
  check (size (wf_provenance f) <=? MAX_PROVENANCE_ENTRIES) Contract.

Definition same_key (a b : SourceProvenanceWire) : bool := bool_decide (wp_segment a = wp_segment b) && String.eqb (wp_feature a) (wp_feature b).
Definition provenance_keys_are_unique : list SourceProvenanceWire → bool := distinct same_key.
Definition provenance_contains (l : list SourceProvenanceWire) (k : SegmentKind) (feature : string) : bool :=
  existsb (fun p => bool_decide (wp_segment p = k) && String.eqb (wp_feature p) feature) l.
Definition target_exists (f : FrameWire) (p : SourceProvenanceWire) : bool :=
  match wp_segment p with
  | KHistory => contains_key (wp_feature p) (sg_features (wf_history f))
  | KFutureCovariates => is_some_and (fun g => contains_key (wp_feature p) (sg_features g)) (wf_future f)
  | KStaticFeatures => contains_key (wp_feature p) (wf_statics f)
  end.
Definition validate_provenance_shape (f : FrameWire) : result_of unit :=
  let l := wf_provenance f in
  let all {A} (k : SegmentKind) (m : list (string * A)) := forallb (fun '(name, _) => provenance_contains l k name) m in
  _ ← check (negb (size l =? 0) && provenance_keys_are_unique l) Contract;
  _ ← check (forallb (target_exists f) l) Contract;
  check (all KHistory (sg_features (wf_history f)) && is_none_or (fun g => all KFutureCovariates (sg_features g)) (wf_future f)
         && all KStaticFeatures (wf_statics f)) Contract.

Definition validate_segment_cadence (g : Segment) (cadence : Z) : result_of unit :=
  check (windows (fun a b => b - a =? cadence) (timestamps g)) Contract.
Definition validate_actual_input_watermark (pv : list SourceProvenance) (watermark : Z) : result_of unit :=
  check (bool_decide (newest_watermark pv = Some watermark)) Contract.
(** Both segments on the cadence, and the recorded gap that of the history. *)
Definition validate_grid (h : Segment) (future : option Segment) (cadence gap : Z) : result_of unit :=
  _ ← validate_segment_cadence h cadence;
  _ ← if_some (fun g => validate_segment_cadence g cadence) future;
  check (gap =? maximum_observation_gap h cadence) Contract.

Definition frame_to_wire (f : ProcessingFrame) : result_of FrameWire :=
  let q := frame_quality f in
  _ ← check (negb (length (provenance f) =? 0)%nat) Contract;
  _ ← validate_actual_input_watermark (provenance f) (fq_watermark q);
  _ ← validate_grid (history f) (future_covariates f) (frame_cadence f) (fq_max_gap_ms q);
  as_of ← format_timestamp (as_of f);
  cadence ← milliseconds_to_seconds (frame_cadence f);
  h ← segment_to_wire (history f);
  future ← map_option segment_to_wire (future_covariates f);
  statics ← static_features_to_wire (static_features f);
  watermark ← format_timestamp (fq_watermark q);
  ratio ← finite (fq_missing_ratio q);
  gap ← milliseconds_to_seconds (fq_max_gap_ms q);
  pv ← map_res source_provenance_to_wire (provenance f);
  let w := WFrame FRAME_SCHEMA as_of cadence h future statics (WQuality watermark ratio gap (fq_live_tail q) (fq_substituted q)) pv in
  _ ← validate_frame_limits w;
  _ ← validate_provenance_shape w;
  Ok w.

Definition frame_from_wire (w : FrameWire) : result_of ProcessingFrame :=
  let wq := wf_quality w in
  _ ← check (String.eqb (wf_schema w) FRAME_SCHEMA) Contract;
  _ ← validate_frame_limits w;
  _ ← validate_provenance_shape w;
  as_of ← parse_timestamp (wf_as_of w);
  cadence ← seconds_to_milliseconds (wf_cadence_seconds w);
  h ← segment_from_wire RHistory (wf_history w);
  future ← map_option (segment_from_wire RFutureCovariate) (wf_future w);
  statics ← static_features_from_wire (wf_statics w);
  watermark ← parse_timestamp (wq_watermark wq);
  ratio ← finite (wq_missing_ratio wq);
  gap ← seconds_to_milliseconds_allow_zero (wq_max_gap_seconds wq);
  q ← of_domain (frame_quality_new watermark ratio gap (wq_live_tail wq) (wq_substituted wq));
  _ ← validate_grid h future cadence (fq_max_gap_ms q);
  pv ← map_res source_provenance_from_wire (wf_provenance w);
  _ ← validate_actual_input_watermark pv (fq_watermark q);
  of_domain (frame_new as_of cadence h future statics q pv).

Definition validate_request_horizon (f : ProcessingFrame) (o : ForecastOptions) : result_of unit :=
  check (is_none_or (fun g => size (timestamps g) =? horizon_steps o) (future_covariates f)) Contract.

Definition options_to_wire (o : ForecastOptions) : result_of OptionsWire :=
  _ ← check ((horizon_steps o <=? MAX_FORECAST_POINTS) && (size (quantiles o) <=? MAX_QUANTILES)) Contract;
  qs ← (if (length (quantiles o) =? 0)%nat then Ok None else l ← map_res finite (quantiles o); Ok (Some l));
  Ok (WOptions (horizon_steps o) qs).
Definition options_from_wire (w : OptionsWire) : result_of ForecastOptions :=
  _ ← check (negb (wo_horizon_steps w =? 0) && (wo_horizon_steps w <=? MAX_FORECAST_POINTS)) Contract;
  _ ← check (negb (is_some_and (fun l => (length l =? 0)%nat) (wo_quantiles w))) Contract;
  _ ← check (is_none_or (fun l => size l <=? MAX_QUANTILES) (wo_quantiles w)) Contract;
  l ← map_res finite (default [] (wo_quantiles w));
  of_domain (options_new (wo_horizon_steps w) l).

(** ** Results *)

Definition processor_to_wire (p : ProcessorProvenance) : result_of ProcessorWire :=
  _ ← validate_identifier (proc_id p); _ ← validate_identifier (proc_version p); _ ← validate_identifier (proc_contract p);
  Ok (WProcessor (proc_id p) (proc_version p) (proc_contract p)).
Definition processor_from_wire (w : ProcessorWire) : result_of ProcessorProvenance :=
  _ ← validate_identifier (pw_id w); _ ← validate_identifier (pw_version w); _ ← validate_identifier (pw_contract w);
  of_domain (processor_new (pw_id w) (pw_version w) (pw_contract w)).

Definition artifact_provenance_to_wire (a : ArtifactProvenance) : result_of ArtifactProvenanceWire :=
  _ ← validate_identifier (art_kind a); _ ← validate_identifier (art_family a); _ ← validate_identifier (art_version a);
  _ ← validate_digest (art_digest a);
  Ok (WArtifact (art_kind a) (art_family a) (art_version a) (art_digest a)).
Definition artifact_provenance_from_wire (w : ArtifactProvenanceWire) : result_of ArtifactProvenance :=
  _ ← validate_identifier (aw_kind w); _ ← validate_identifier (aw_family w); _ ← validate_identifier (aw_version w);
  _ ← validate_digest (aw_digest w);
  of_domain (artifact_new (aw_kind w) (aw_family w) (aw_version w) (aw_digest w)).

Definition quantile_to_wire (q : ForecastQuantile) : result_of (f64 * f64) :=
  p ← finite (q_probability q); v ← finite (q_value q); Ok (p, v).
Definition quantile_from_wire (q : f64 * f64) : result_of ForecastQuantile :=
  p ← finite q.1; v ← finite q.2; of_domain (quantile_new p v).
Definition forecast_point_to_wire (p : ForecastPoint) : result_of ForecastPointWire :=
  t ← format_timestamp (pt_timestamp p);
  v ← finite (pt_value p);
  qs ← (if (length (pt_quantiles p) =? 0)%nat then Ok None else l ← map_res quantile_to_wire (pt_quantiles p); Ok (Some l));
  Ok (WPoint t v qs).
Definition forecast_point_from_wire (w : ForecastPointWire) : result_of ForecastPoint :=
  _ ← check (negb (is_some_and (fun l => (length l =? 0)%nat) (fw_quantiles w))) Contract;
  t ← parse_timestamp (fw_timestamp w);
  v ← finite (fw_value w);
  qs ← map_res quantile_from_wire (default [] (fw_quantiles w));
  of_domain (forecast_point_new t v qs).

Definition output_to_wire (o : ForecastOutput) : result_of ForecastOutputWire :=
  _ ← check ((size (out_points o) <=? MAX_FORECAST_POINTS) && forallb (fun p => size (pt_quantiles p) <=? MAX_QUANTILES) (out_points o)) Contract;
  cadence ← milliseconds_to_seconds (out_cadence o);
  _ ← check (cadence <=? MAX_CADENCE_SECONDS) Contract;
  _ ← validate_feature_name (out_target o); _ ← validate_unit (out_unit o); _ ← validate_identifier (out_sign o);
  points ← map_res forecast_point_to_wire (out_points o);
  Ok (WOutput FORECAST_OUTPUT_SCHEMA Processing.Forecast (out_target o) (out_unit o) (out_sign o) cadence IntervalEnd points).
Definition output_from_wire (w : ForecastOutputWire) : result_of ForecastOutput :=
  _ ← check (String.eqb (ow_schema w) FORECAST_OUTPUT_SCHEMA) Contract;
  _ ← check (match ow_semantics w with IntervalEnd => true | _ => false end) Contract;
  _ ← check (negb (length (ow_points w) =? 0)%nat && (size (ow_points w) <=? MAX_FORECAST_POINTS)) Contract;
  _ ← check (negb (ow_cadence_seconds w =? 0) && (ow_cadence_seconds w <=? MAX_CADENCE_SECONDS)) Contract;
  _ ← check (forallb (fun p => is_none_or (fun l => size l <=? MAX_QUANTILES) (fw_quantiles p)) (ow_points w)) Contract;
  _ ← validate_feature_name (ow_target w); _ ← validate_unit (ow_unit w); _ ← validate_identifier (ow_sign w);
  points ← map_res forecast_point_from_wire (ow_points w);
  cadence ← seconds_to_milliseconds (ow_cadence_seconds w);
  of_domain (output_new (ow_target w) (ow_unit w) (ow_sign w) cadence points).

Definition fallback_to_wire (f : FallbackInfo) : result_of FallbackWire :=
  _ ← validate_identifier (fi_strategy f); _ ← validate_identifier (fi_version f); _ ← validate_stable_code (fi_reason f);
  _ ← validate_identifier (fi_source_feature f);
  through ← format_timestamp (based_on_data_through f);
  Ok (WFallback (fi_strategy f) (fi_version f) (fi_reason f) (fi_source_feature f) through).
Definition fallback_from_wire (w : FallbackWire) : result_of FallbackInfo :=
  _ ← validate_identifier (bw_strategy w); _ ← validate_identifier (bw_version w); _ ← validate_stable_code (bw_reason w);
  _ ← validate_identifier (bw_source w);
  through ← parse_timestamp (bw_through w);
  of_domain (fallback_info_new (bw_strategy w) (bw_version w) (bw_reason w) (bw_source w) through).

Definition unavailable_to_wire (u : UnavailableInfo) : result_of UnavailableWire :=
  _ ← validate_stable_code (un_reason u);
  after ← map_option milliseconds_to_seconds (un_retry_after u);
  Ok (WUnavailable (un_reason u) (un_retryable u) after).
Definition unavailable_from_wire (w : UnavailableWire) : result_of UnavailableInfo :=
  _ ← validate_stable_code (uw_reason w);
  after ← map_option seconds_to_milliseconds (uw_retry_after_seconds w);
  of_domain (unavailable_new (uw_reason w) (uw_retryable w) after).

Definition result_to_wire (r : ProcessingResult) : result_of ResultWire :=
  _ ← validate_uuid (rs_request_id r); _ ← validate_digest (rs_input_digest r); _ ← validate_stable_codes (warnings r);
  task ← task_to_wire (rs_task r);
  binding ← binding_to_wire (rs_binding r);
  issued ← format_timestamp (produced_at r);
  expires ← map_option format_timestamp (expires_at r);
  watermark ← format_timestamp (input_watermark r);
  p ← processor_to_wire (processor r);
  a ← map_option artifact_provenance_to_wire (artifact r);
  o ← map_option output_to_wire (output r);
  f ← map_option fallback_to_wire (fallback r);
  u ← map_option unavailable_to_wire (unavailable r);
  Ok (WResult RESULT_SCHEMA (rs_request_id r) task binding (rs_input_digest r) (status r) issued expires watermark p a o f u (warnings r)).
Definition result_from_wire (w : ResultWire) : result_of ProcessingResult :=
  _ ← check (String.eqb (rw_schema w) RESULT_SCHEMA) Contract;
  _ ← validate_uuid (rw_request_id w); _ ← validate_digest (rw_digest w); _ ← validate_stable_codes (rw_warnings w);
  task ← task_from_wire (rw_task w);
  binding ← binding_from_wire (rw_binding w);
  p ← processor_from_wire (rw_processor w);
  a ← map_option artifact_provenance_from_wire (rw_artifact w);
  watermark ← parse_timestamp (rw_watermark w);
  issued ← parse_timestamp (rw_issued_at w);
  expires ← map_option parse_timestamp (rw_expires_at w);
  o ← map_option output_from_wire (rw_output w);
  f ← map_option fallback_from_wire (rw_fallback w);
  u ← map_option unavailable_from_wire (rw_unavailable w);
  r ← of_domain (result_new (rw_request_id w) task binding (rw_digest w) (rw_status w) p a watermark issued expires o f u);
  of_domain (with_warnings (rw_warnings w) r).

(** ** Requests and their digest *)

Definition nibble (d : Z) : ascii := nth (Z.to_nat d) (list_ascii_of_string "0123456789abcdef") "0"%char.
Fixpoint hex_bytes (bytes : list Z) : string :=
  match bytes with [] => EmptyString | b :: l => String (nibble (b / 16)) (String (nibble (b mod 16)) (hex_bytes l)) end.

Definition compute_input_digest (t : TaskIdentity) (b : BindingIdentity) (contract : string) (a : option ArtifactSelector)
    (f : ProcessingFrame) (o : ForecastOptions) : result_of string :=
  _ ← validate_identifier contract;
  _ ← validate_request_horizon f o;
  t ← task_to_wire t;
  b ← binding_to_wire b;
  a ← artifact_selector_to_wire a;
  f ← frame_to_wire f;
  o ← options_to_wire o;
  canonical ← ok_or (canonical_to_vec t b contract a f o) CanonicalJson;
  Ok ("sha256:" +:+ hex_bytes (sha256 canonical)).

Definition request_digest (r : DataProcessingRequest) : result_of string :=
  compute_input_digest (pr_task r) (pr_binding r) (pr_contract r) (artifact_selector r) (pr_frame r) (pr_options r).

Definition request_to_wire (r : DataProcessingRequest) : result_of RequestWire :=
  _ ← validate_uuid (pr_request_id r); _ ← validate_identifier (pr_contract r); _ ← validate_digest (pr_input_digest r);
  expected ← request_digest r;
  _ ← check (String.eqb expected (pr_input_digest r)) Contract;
  _ ← validate_request_horizon (pr_frame r) (pr_options r);
  submitted ← format_timestamp (submitted_at r);
  deadline ← format_timestamp (deadline r);
  t ← task_to_wire (pr_task r);
  b ← binding_to_wire (pr_binding r);
  a ← artifact_selector_to_wire (artifact_selector r);
  f ← frame_to_wire (pr_frame r);
  o ← options_to_wire (pr_options r);
  Ok (WRequest REQUEST_SCHEMA (pr_request_id r) submitted deadline t b (pr_contract r) a f o (pr_input_digest r)).
Definition request_from_wire (w : RequestWire) : result_of DataProcessingRequest :=
  _ ← check (String.eqb (wr_schema w) REQUEST_SCHEMA) Contract;
  _ ← validate_uuid (wr_request_id w); _ ← validate_identifier (wr_contract w); _ ← validate_digest (wr_digest w);
  t ← task_from_wire (wr_task w);
  b ← binding_from_wire (wr_binding w);
  submitted ← parse_timestamp (wr_submitted_at w);
  deadline ← parse_timestamp (wr_deadline w);
  a ← artifact_selector_from_wire (wr_artifact w);
  f ← frame_from_wire (wr_frame w);
  o ← options_from_wire (wr_options w);
  _ ← validate_request_horizon f o;
  expected ← compute_input_digest t b (wr_contract w) a f o;
  _ ← check (String.eqb expected (wr_digest w)) Contract;
  of_domain (request_new (wr_request_id w) t b f submitted deadline (wr_contract w) a (wr_digest w) o).

(** ** Derived data *)

Definition derived_data_to_wire (d : DerivedData) : result_of DerivedDataWire :=
  let r := result d in
  let q := dd_quality d in
  _ ← validate_uuid (result_id d);
  _ ← check (negb (accepted_at d <? produced_at r)) Contract;
  w ← result_to_wire r;
  s ← (match status r with Produced => Ok (AProduced, false) | Fallback => Ok (AFallback, true) | Unavailable => Err Contract end);
  expires ← ok_or (rw_expires_at w) Contract;
  data ← ok_or (rw_output w) Contract;
  accepted ← format_timestamp (accepted_at d);
  watermark ← format_timestamp (fq_watermark q);
  ratio ← finite (fq_missing_ratio q);
  gap ← milliseconds_to_seconds (fq_max_gap_ms q);
  Ok (WDerived DERIVED_DATA_SCHEMA (result_id d) (rw_request_id w) (rw_task w) (rw_binding w) accepted expires (rw_digest w) s.1
        (rw_processor w) (rw_artifact w) (rw_fallback w) (rw_warnings w)
        (WQuality watermark ratio gap (fq_live_tail q) (fq_substituted q)) s.2 data).

(** ** Encoding and decoding *)

(** Errors inside [Serialize] and [Deserialize] are serde_json's. *)
Definition in_serde {A} (r : result_of A) : result_of A := match r with Err _ => Err Json | r => r end.

Definition encode_request (r : DataProcessingRequest) : result_of (list Z) :=
  w ← request_to_wire r; dto ← request_from_wire w;
  w ← in_serde (request_to_wire dto); ok_or (request_to_vec w) Json.
Definition decode_request (bytes : list Z) : result_of DataProcessingRequest :=
  v ← ok_or (value_from_slice bytes) Json;
  _ ← check (reject_explicit_nulls v false) Json;
  w ← ok_or (request_from_value v) Json; in_serde (request_from_wire w).
Definition encode_result (r : ProcessingResult) : result_of (list Z) :=
  w ← result_to_wire r; dto ← result_from_wire w;
  w ← in_serde (result_to_wire dto); ok_or (result_to_vec w) Json.
Definition decode_result (bytes : list Z) : result_of ProcessingResult :=
  v ← ok_or (value_from_slice bytes) Json;
  _ ← check (reject_explicit_nulls v false) Json;
  w ← ok_or (result_from_value v) Json; in_serde (result_from_wire w).
Definition encode_derived_data (d : DerivedData) : result_of (list Z) :=
  _ ← derived_data_to_wire d; w ← in_serde (derived_data_to_wire d); ok_or (derived_to_vec w) Json.

(** ** Commissioning *)

Definition validate_task_contract (t : DataProcessingTask) : result_of unit :=
  let s := forecast_spec t in
  let n role := size (features_of role t) in
  _ ← validate_identifier (task_id (task_identity t));
  _ ← validate_identifier (processor_contract t);
  _ ← check ((cadence_ms s mod 1000 =? 0) && (cadence_ms s / 1000 <=? MAX_CADENCE_SECONDS)
             && (history_steps s <=? MAX_SEGMENT_SAMPLES) && (max_horizon_steps s <=? MAX_FORECAST_POINTS)) Contract;
  _ ← check ((length (allowed_fallbacks s) =? length (fallback_policies s))%nat
             && forallb (fun p => String.eqb (fp_strategy p) "persistence") (fallback_policies s)) Contract;
  _ ← validate_feature_name (target_name (spec_target s));
  _ ← validate_unit (target_unit (spec_target s));
  _ ← validate_identifier (sign_convention (spec_target s));
  _ ← each validate_identifier (allowed_fallbacks s);
  _ ← each (fun p => _ ← validate_identifier (fp_strategy p); _ ← validate_identifier (fp_version p);
                     validate_feature_name (fp_source_feature p)) (fallback_policies s);
  _ ← each (fun d => _ ← validate_feature_name (fd_name d); if_some validate_unit (fd_unit d)) (task_features t);
  check ((n RHistory <=? MAX_FEATURES_PER_SEGMENT) && (n RFutureCovariate <=? MAX_FEATURES_PER_SEGMENT)
         && (n RStatic <=? MAX_STATIC_FEATURES) && (n RHistory + n RFutureCovariate + n RStatic <=? MAX_PROVENANCE_ENTRIES)) Contract.
Definition validate_commissioned_route_contract (t : DataProcessingTask) (b : BindingIdentity) (a : option ArtifactSelector)
    (processor_id processor_version : string) (contracts : list string) : result_of unit :=
  _ ← validate_task_contract t;
  _ ← binding_to_wire b;
  _ ← artifact_selector_to_wire a;
  _ ← validate_identifier processor_id;
  _ ← validate_identifier processor_version;
  each validate_identifier contracts.
End Codec.

(** ** What one side writes the other reads *)

Section Roundtrip.
Context `{CodecsOk}.

#[local] Ltac unbind := repeat match goal with
  | H : _ ≫= _ = Ok _ |- _ => apply res_bind_Ok in H as (? & ? & H)
  | H : Ok _ = Ok _ |- _ => injection H as H; try subst
  | H : nonempty _ = Ok _ |- _ => apply nonempty_Ok in H; try subst
  | H : of_domain ?r = Ok _ |- _ => destruct r eqn:?; [|discriminate H..]; cbn [of_domain] in H
  | H : ok_or _ _ = Ok _ |- _ => apply ok_or_Ok in H
  | H : (if _ then _ else _) = Ok _ |- _ => case_if; try discriminate H
  end.

Lemma finite_Ok v x : finite v = Ok x → x = v ∧ is_finite v = true.
Proof. unfold finite. by destruct (is_finite v); intros [= <-]. Qed.

Lemma parse_format t s t' : format_timestamp t = Ok s → parse_timestamp s = Ok t' → t' = t.
Proof.
  unfold format_timestamp, parse_timestamp. intros H1 H2. unbind. destruct (parse_from_rfc3339 s) as [x|] eqn:Hx; [|done].
  rewrite (rfc3339_roundtrip _ _ _ H1 Hx) in H2. by unbind.
Qed.

Lemma seconds_back ms s ms' : milliseconds_to_seconds ms = Ok s → seconds_to_milliseconds_allow_zero s = Ok ms' → ms' = ms.
Proof.
  unfold milliseconds_to_seconds, seconds_to_milliseconds_allow_zero. intros H1 H2. unbind. bool_to_prop.
  pose proof (Z.div_mod ms 1000). lia.
Qed.
Lemma positive_seconds_back ms s ms' : milliseconds_to_seconds ms = Ok s → seconds_to_milliseconds s = Ok ms' → ms' = ms.
Proof. unfold seconds_to_milliseconds. case_if; [done|]. apply seconds_back. Qed.

(** A conversion there and back is the identity where it succeeds. *)
Definition inverse {A B} (to_ : A → result_of B) (from_ : B → result_of A) : Prop :=
  ∀ a b a', to_ a = Ok b → from_ b = Ok a' → a' = a.

Lemma inverse_option {A B} (to_ : A → result_of B) from_ : inverse to_ from_ → inverse (map_option to_) (map_option from_).
Proof.
  intros Hi [a|] o o' H1 H2; cbn in H1; unbind; cbn in H2; unbind; [|done]. f_equal. by eapply Hi.
Qed.
Lemma inverse_list {A B} (to_ : A → result_of B) from_ : inverse to_ from_ → inverse (map_res to_) (map_res from_).
Proof.
  intros Hi l. induction l as [|a l IH]; intros m l' H1 H2; cbn in H1; unbind; cbn in H2; unbind; [done|].
  f_equal; [by eapply Hi|by eapply IH].
Qed.

Lemma task_inverse : inverse task_to_wire task_from_wire.
Proof. intros [i r] w t H1 H2. unfold task_to_wire, task_from_wire, task_identity_new in *. by unbind. Qed.
Lemma binding_inverse : inverse binding_to_wire binding_from_wire.
Proof. intros [i r] w t H1 H2. unfold binding_to_wire, binding_from_wire, binding_identity_new in *. by unbind. Qed.
Lemma processor_inverse : inverse processor_to_wire processor_from_wire.
Proof. intros [i v c] w t H1 H2. unfold processor_to_wire, processor_from_wire, processor_new in *. by unbind. Qed.
Lemma artifact_inverse : inverse artifact_provenance_to_wire artifact_provenance_from_wire.
Proof. intros [k f v d] w t H1 H2. unfold artifact_provenance_to_wire, artifact_provenance_from_wire, artifact_new in *. by unbind. Qed.
Lemma fallback_inverse : inverse fallback_to_wire fallback_from_wire.
Proof.
  intros [s v r f t] w x H1 H2. unfold fallback_to_wire, fallback_from_wire, fallback_info_new in *. unbind. cbn in *. unbind.
  f_equal. by eapply parse_format.
Qed.
Lemma unavailable_inverse : inverse unavailable_to_wire unavailable_from_wire.
Proof.
  intros [r b o] w x H1 H2. unfold unavailable_to_wire, unavailable_from_wire, unavailable_new in *. unbind. cbn in *. unbind.
  f_equal. eapply (inverse_option _ _ positive_seconds_back); [done|done].
Qed.
Lemma quantile_inverse : inverse quantile_to_wire quantile_from_wire.
Proof.
  intros [p v] w x H1 H2. unfold quantile_to_wire, quantile_from_wire, quantile_new in *. unbind. cbn in *. unbind.
  repeat match goal with H : finite _ = Ok _ |- _ => apply finite_Ok in H as [-> _] end. done.
Qed.
Lemma point_inverse : inverse forecast_point_to_wire forecast_point_from_wire.
Proof.
  intros [t v qs] w x H1 H2. unfold forecast_point_to_wire, forecast_point_from_wire, forecast_point_new in *. unbind; cbn in *; unbind.
  all: repeat match goal with H : finite _ = Ok _ |- _ => apply finite_Ok in H as [-> _] end.
  - f_equal; [by eapply parse_format|]. bool_to_prop. destruct qs; [|done]. cbn in *. by unbind.
  - f_equal; [by eapply parse_format|]. by eapply (inverse_list _ _ quantile_inverse).
Qed.
Lemma output_inverse : inverse output_to_wire output_from_wire.
Proof.
  intros [g u n c ps] w x H1 H2. unfold output_to_wire, output_from_wire, output_new in *. unbind; cbn in *; unbind.
  f_equal; [by eapply positive_seconds_back|by eapply (inverse_list _ _ point_inverse)].
Qed.

Lemma warnings_back ws l : map_res nonempty ws = Ok l → l = ws.
Proof. revert l. induction ws as [|a ws IH]; intros l H1; cbn in H1; unbind; [done|]. f_equal. by apply IH. Qed.

Lemma result_inverse : inverse result_to_wire result_from_wire.
Proof.
  intros r w x H1 H2. unfold result_to_wire, result_from_wire in *. unbind. cbn in *. unbind.
  unfold result_new, with_warnings in *. unbind. cbn. destruct r. cbn in *.
  f_equal; try (by eapply parse_format); try (by apply warnings_back).
  - by eapply task_inverse.
  - by eapply binding_inverse.
  - by eapply processor_inverse.
  - by eapply (inverse_option _ _ artifact_inverse).
  - by eapply (inverse_option _ _ parse_format).
  - by eapply (inverse_option _ _ output_inverse).
  - by eapply (inverse_option _ _ fallback_inverse).
  - by eapply (inverse_option _ _ unavailable_inverse).
Qed.

(** *** Documents hold finite numbers *)

Lemma map_res_forallb {A B} (f : A → result_of B) (p : B → bool) l l' :
  (∀ a b, f a = Ok b → p b = true) → map_res f l = Ok l' → forallb p l' = true.
Proof. intros Hf H1%map_res_Ok. induction H1; cbn; [done|]. rewrite (Hf _ _ H1). done. Qed.

Lemma quantile_finite q w : quantile_to_wire q = Ok w → (let '(a, b) := w in is_finite a && is_finite b) = true.
Proof.
  unfold quantile_to_wire. intros H1. unbind.
  repeat match goal with H : finite _ = Ok _ |- _ => apply finite_Ok in H as [-> ->] end. done.
Qed.
Lemma point_to_wire_finite q w : forecast_point_to_wire q = Ok w → point_finite w = true.
Proof.
  unfold forecast_point_to_wire, point_finite. intros H1. unbind; cbn.
  all: match goal with H : finite _ = Ok _ |- _ => apply finite_Ok in H as [-> ->] end; cbn; try done.
  by eapply map_res_forallb; [apply quantile_finite|].
Qed.
Lemma result_to_wire_finite r w : result_to_wire r = Ok w → result_finite w = true.
Proof.
  unfold result_to_wire. intros H1. unbind. unfold result_finite. cbn. destruct (output r) as [o|]; cbn in *; unbind; [|done].
  cbn. match goal with H : output_to_wire _ = Ok _ |- _ => unfold output_to_wire in H end. unbind. cbn.
  by eapply map_res_forallb; [apply point_to_wire_finite|].
Qed.


(** *** A decoded result is well formed *)

Lemma map_res_Forall {A B} (f : A → result_of B) (P : B → Prop) l l' :
  (∀ a b, f a = Ok b → P b) → map_res f l = Ok l' → Forall P l'.
Proof. intros Hf H1%map_res_Ok. induction H1; constructor; [by eapply Hf|done]. Qed.

Lemma quantile_from_wire_ok w q : quantile_from_wire w = Ok q → quantile_new (q_probability q) (q_value q) = Ok q.
Proof.
  unfold quantile_from_wire. intros H1. unbind.
  match goal with H : quantile_new _ _ = Ok _ |- _ => pose proof H as Hn; unfold quantile_new in Hn end. by unbind.
Qed.

Lemma point_from_wire_ok w q : forecast_point_from_wire w = Ok q → point_ok q.
Proof.
  unfold forecast_point_from_wire. intros H1. unbind.
  match goal with H : forecast_point_new _ _ _ = Ok _ |- _ => pose proof H as Hn; unfold forecast_point_new in Hn end. unbind.
  split; [done|]. cbn. by eapply map_res_Forall; [apply quantile_from_wire_ok|].
Qed.

Lemma output_from_wire_points w o : output_from_wire w = Ok o → Forall point_ok (out_points o).
Proof.
  unfold output_from_wire. intros H1. unbind. unfold output_new in *. unbind. cbn.
  by eapply map_res_Forall; [apply point_from_wire_ok|].
Qed.

(** A processor behind the wire answers with values of the domain's constructors. *)
Lemma decoded_result_ok bytes r : decode_result bytes = Ok r → result_ok r ∧ strings_are_unique (warnings r) = true.
Proof.
  unfold decode_result. intros H1. unbind. destruct (result_from_wire _) as [r'| |] eqn:Hr; [|done..]. cbn in H1. unbind.
  unfold result_from_wire in Hr. unbind. unfold with_warnings in *. unbind. split; [|by bool_to_prop].
  match goal with H : result_new _ _ _ _ _ _ _ _ _ _ _ _ _ = Ok _ |- _ => apply Forecast.result_new_typed in H as [Hok Hp] end.
  - split; [exact Hok|exact Hp].
  - intros o ->. destruct (rw_output _) as [ow|]; cbn in *; unbind; simplify_eq; by eapply output_from_wire_points.
Qed.

(** *** Maps in key order *)

Definition before {A} (a b : string * A) : Prop := String_as_OT.lt a.1 b.1.
#[local] Instance before_trans {A} : Transitive (@before A).
Proof. intros a b c. unfold before. apply (StrictOrder_Transitive (R := String_as_OT.lt)). Qed.

Lemma map_insert_perm {A} k (v : A) m : contains_key k m = false → map_insert k v m ≡ₚ (k, v) :: m.
Proof.
  induction m as [|[k' v'] m IH]; cbn; [done|]. rewrite orb_false_iff. intros [Hk Hm].
  destruct (String_as_OT.compare_spec k k') as [->| |]; [by rewrite String.eqb_refl in Hk|done|].
  rewrite (IH Hm). constructor.
Qed.

Lemma map_insert_sorted {A} k (v : A) m :
  contains_key k m = false → StronglySorted before m → StronglySorted before (map_insert k v m).
Proof.
  induction m as [|[k' v'] m IH]; cbn; [by repeat constructor|]. rewrite orb_false_iff. intros [Hk Hm] Hs.
  pose proof Hs as [Hs' Hall]%StronglySorted_inv.
  destruct (String_as_OT.compare_spec k k') as [->|Hlt|Hlt]; [by rewrite String.eqb_refl in Hk| |].
  - constructor; [done|]. constructor; [done|]. eapply Forall_impl; [done|]. intros e He. by etrans; [|exact He].
  - constructor; [by apply IH|]. rewrite (map_insert_perm k v m Hm). by constructor.
Qed.

Lemma map_insert_last {A} k (v : A) m : Forall (fun e => before e (k, v)) m → map_insert k v m = m ++ [(k, v)].
Proof.
  induction 1 as [|[k' v'] m Hk Hm IH]; cbn; [done|]. unfold before in Hk. cbn in Hk.
  destruct (String_as_OT.compare_spec k k') as [->|Hlt|_]; [..|by rewrite IH].
  - by destruct (StrictOrder_Irreflexive (R := String_as_OT.lt) k').
  - destruct (StrictOrder_Irreflexive (R := String_as_OT.lt) k). by etrans.
Qed.

Lemma insert_all_spec {A B} (name : A → string) (f : A → result_of B) l m0 m :
  insert_all name f l m0 = Ok m → StronglySorted before m0 →
  StronglySorted before m ∧ ∃ bs, Forall2 (fun a b => f a = Ok b) l bs ∧ m ≡ₚ zip (name <$> l) bs ++ m0.
Proof.
  revert m0. induction l as [|a l IH]; intros m0; cbn [insert_all]; intros H1 Hs; unbind.
  { split; [done|]. exists []. by split. }
  destruct (IH _ H1) as (Hm & bs & Hbs & Hp); [by apply map_insert_sorted|]. split; [done|].
  eexists (_ :: bs). split; [by constructor|]. rewrite Hp, map_insert_perm by done. cbn. by rewrite Permutation_middle.
Qed.

Lemma insert_all_sorted {A B} (name : A → string) (f : A → result_of B) l m0 m :
  Forall2 (fun a e => name a = e.1 ∧ f a = Ok e.2 ∧ validate_feature_name e.1 = Ok tt) l m →
  StronglySorted before (m0 ++ m) → insert_all name f l m0 = Ok (m0 ++ m).
Proof.
  intros Hl. revert m0. induction Hl as [|a [k b] l m (Hn & Hf & Hv) Hl IH]; intros m0 Hs; cbn [insert_all]; [by rewrite app_nil_r|].
  cbn in *. rewrite Hn, Hv. cbn. rewrite Hf. cbn.
  assert (Forall (fun e => before e (k, b)) m0) as Hb.
  { clear -Hs. induction m0 as [|e m0 IH]; [done|]. cbn in Hs. apply StronglySorted_inv in Hs as [Hs Hall].
    constructor; [|by apply IH]. apply Forall_app in Hall as [_ Hall]. by inv Hall. }
  rewrite map_insert_last by done.
  assert (contains_key k m0 = false) as ->.
  { apply existsb_false. intros [k' v'] Hin. apply String.eqb_neq. intros ->. rewrite Forall_forall in Hb. specialize (Hb _ Hin).
    by destruct (StrictOrder_Irreflexive (R := String_as_OT.lt) k). }
  rewrite IH by by rewrite <- app_assoc. by rewrite <- app_assoc.
Qed.

(** Entries written to a map and read back: the same entries, up to what the document leaves out, and the same map. *)
Lemma map_back {A B} (name : A → string) (to_ : A → result_of B) (from_ : string * B → result_of A) (strip : A → A) l m l' :
  (∀ a b a', to_ a = Ok b → from_ (name a, b) = Ok a' → a' = strip a) →
  (∀ e a, from_ e = Ok a → name a = e.1 ∧ to_ a = Ok e.2 ∧ validate_feature_name e.1 = Ok tt) →
  insert_all name to_ l [] = Ok m → map_res from_ m = Ok l' →
  l' ≡ₚ strip <$> l ∧ insert_all name to_ l' [] = Ok m.
Proof.
  intros Hstrip Hfrom H1 H2%map_res_Ok. apply insert_all_spec in H1 as (Hs & bs & Hbs & Hp); [|constructor]. rewrite app_nil_r in Hp. split.
  - destruct (Permutation_Forall2 Hp H2) as (l2 & Hl2 & Hz). rewrite Hl2. clear -Hbs Hz Hstrip.
    revert l2 Hz. induction Hbs as [|a b l bs Hab _ IH]; intros l2 Hz; inv Hz; [done|]. cbn.
    match goal with H : from_ _ = Ok _ |- _ => rewrite (Hstrip _ _ _ Hab H) end. constructor. by apply IH.
  - change m with ([] ++ m). apply insert_all_sorted; [|done]. clear -H2 Hfrom. induction H2; constructor; auto.
Qed.

(** *** Segments and frames *)

(** What a feature keeps on the wire: the limits of its values stay behind. *)
Definition bare (role : FeatureRole) (d : FeatureDefinition) : FeatureDefinition := Feature (fd_name d) role (fd_type d) (fd_unit d) None.
Definition bare_series (role : FeatureRole) (s : Series) : Series := MkSeries (bare role (definition s)) (values s) (quality s).
Definition bare_static (s : StaticFeature) : StaticFeature := MkStatic (bare RStatic (st_definition s)) (st_value s) (st_quality s).

Lemma feature_back name role ty unit d : feature_definition_from_wire name role ty unit = Ok d → d = Feature name role ty unit None.
Proof.
  unfold feature_definition_from_wire, feature_new, feature_numeric. intros H1. destruct ty, unit; cbn in *; by unbind.
Qed.

Lemma scalar_inverse ty : inverse scalar_to_wire (fun v => scalar_from_wire v ty).
Proof.
  intros [x|x|x|] w y H1 H2; cbn in H1; unbind; cbn in H2; destruct ty; unbind; try done.
  all: unfold value_number in *; unbind; repeat match goal with H : finite _ = Ok _ |- _ => apply finite_Ok in H as [-> _] end; done.
Qed.
Lemma scalar_retract ty w v : scalar_from_wire w ty = Ok v → scalar_to_wire v = Ok w.
Proof.
  destruct w, ty; cbn; intros H1; unbind; try done. unfold value_number in *. unbind.
  match goal with H : finite _ = Ok _ |- _ => apply finite_Ok in H as [-> Hf] end. cbn. unfold finite. by rewrite Hf.
Qed.

Lemma map_res_retract {A B} (to_ : A → result_of B) (from_ : B → result_of A) l l' :
  (∀ b a, from_ b = Ok a → to_ a = Ok b) → map_res from_ l = Ok l' → map_res to_ l' = Ok l.
Proof. intros Hr H1%map_res_Ok. induction H1 as [|b a l l' Hb _ IH]; cbn; [done|]. rewrite (Hr _ _ Hb). cbn. by rewrite IH. Qed.

Lemma series_strip role s w s' : series_to_wire s = Ok w → series_from_wire role (series_name s, w) = Ok s' → s' = bare_series role s.
Proof.
  unfold series_to_wire, series_from_wire. intros H1 H2. unbind. cbn in *. unfold series_new in *. unbind.
  match goal with H : feature_definition_from_wire _ _ _ _ = Ok _ |- _ => apply feature_back in H as -> end. unfold bare_series, bare. f_equal.
  by eapply (inverse_list _ _ (scalar_inverse _)).
Qed.
Lemma series_retract role e s : series_from_wire role e = Ok s →
  series_name s = e.1 ∧ series_to_wire s = Ok e.2 ∧ validate_feature_name e.1 = Ok tt.
Proof.
  destruct e as [name w]. unfold series_from_wire, series_to_wire. intros H1. unbind. unfold series_new in *. unbind.
  match goal with H : feature_definition_from_wire _ _ _ _ = Ok _ |- _ => apply feature_back in H as -> end. cbn.
  repeat match goal with u : () |- _ => destruct u end. split_and!; [done| |done].
  erewrite map_res_retract; [..|done]; [by destruct w|]. intros b a. apply scalar_retract.
Qed.

Lemma static_strip s w s' : static_to_wire s = Ok w → static_from_wire (static_name s, w) = Ok s' → s' = bare_static s.
Proof.
  unfold static_to_wire, static_from_wire. intros H1 H2. unbind. cbn in *. unfold static_new in *. unbind.
  match goal with H : feature_definition_from_wire _ _ _ _ = Ok _ |- _ => apply feature_back in H as -> end. unfold bare_static, bare. f_equal.
  by eapply scalar_inverse.
Qed.
Lemma static_retract e s : static_from_wire e = Ok s →
  static_name s = e.1 ∧ static_to_wire s = Ok e.2 ∧ validate_feature_name e.1 = Ok tt.
Proof.
  destruct e as [name w]. unfold static_from_wire, static_to_wire. intros H1. unbind. unfold static_new in *. unbind.
  match goal with H : feature_definition_from_wire _ _ _ _ = Ok _ |- _ => apply feature_back in H as -> end. cbn.
  repeat match goal with u : () |- _ => destruct u end. split_and!; [done| |done].
  erewrite scalar_retract by done. by destruct w.
Qed.

(** The same samples, in the order of the feature names. *)
Definition same_segment (role : FeatureRole) (g g' : Segment) : Prop :=
  timestamps g' = timestamps g ∧ series g' ≡ₚ bare_series role <$> series g.

Lemma segment_back role g w g' : segment_to_wire g = Ok w → segment_from_wire role w = Ok g' →
  same_segment role g g' ∧ segment_to_wire g' = Ok w.
Proof.
  unfold segment_to_wire, segment_from_wire. intros H1 H2. unbind. unfold segment_new in *. unbind. cbn [sg_timestamps sg_features] in *.
  match goal with Hf : insert_all _ _ _ _ = Ok _, Ht : map_res format_timestamp _ = Ok _, Hp : map_res parse_timestamp _ = Ok _,
    Hb : map_res (series_from_wire _) _ = Ok _ |- _ =>
    destruct (map_back _ _ _ (bare_series role) _ _ _ (series_strip role) (series_retract role) Hf Hb) as [Hperm Hback];
    pose proof (inverse_list _ _ parse_format _ _ _ Ht Hp) as Htimes; cbn [timestamps series]; rewrite Hback; cbn; rewrite Htimes, Ht end.
  done.
Qed.

Lemma segment_option_back role o w o' :
  map_option segment_to_wire o = Ok w → map_option (segment_from_wire role) w = Ok o' →
  option_Forall2 (same_segment role) o o' ∧ map_option segment_to_wire o' = Ok w.
Proof.
  intros H1 H2. destruct o as [g|]; cbn in H1; unbind; cbn in H2; unbind; [|by split; [constructor|]].
  match goal with H1 : segment_to_wire _ = Ok _, H2 : segment_from_wire _ _ = Ok _ |- _ => destruct (segment_back _ _ _ _ H1 H2) as [? Hw] end.
  cbn. rewrite Hw. by split; [constructor|].
Qed.

Lemma provenance_inverse : inverse source_provenance_to_wire source_provenance_from_wire.
Proof.
  intros [sg f k r wm o] w x H1 H2. unfold source_provenance_to_wire, source_provenance_from_wire in *. unbind. cbn in *. unbind.
  unfold provenance_new in *. unbind.
  match goal with Hf : format_timestamp _ = Ok _, Hp : parse_timestamp _ = Ok _ |- _ => rewrite (parse_format _ _ _ Hf Hp) in * end.
  destruct r, o; cbn in *; unbind; cbn in *; unfold with_issued_at in *; unbind; cbn; try done.
  all: f_equal; f_equal; by eapply parse_format.
Qed.

Definition same_frame (f f' : ProcessingFrame) : Prop :=
  as_of f' = as_of f ∧ frame_cadence f' = frame_cadence f ∧ same_segment RHistory (history f) (history f') ∧
  option_Forall2 (same_segment RFutureCovariate) (future_covariates f) (future_covariates f') ∧
  static_features f' ≡ₚ bare_static <$> static_features f ∧ frame_quality f' = frame_quality f ∧ provenance f' = provenance f.

Lemma frame_back f w f' : frame_to_wire f = Ok w → frame_from_wire w = Ok f' → same_frame f f' ∧ frame_to_wire f' = Ok w.
Proof.
  intros H1 H2. destruct f as [t c h fu sf [wm ra gp lv sb] pv]. unfold frame_to_wire in H1. cbn in H1.
  apply res_bind_Ok in H1 as (u0 & Hne & H1). apply res_bind_Ok in H1 as (u1 & Hwm & H1). apply res_bind_Ok in H1 as (u2 & Hgrid & H1).
  apply res_bind_Ok in H1 as (wt & Ht & H1). apply res_bind_Ok in H1 as (wc & Hc & H1). apply res_bind_Ok in H1 as (wh & Hh & H1).
  apply res_bind_Ok in H1 as (wfu & Hfu & H1). apply res_bind_Ok in H1 as (wsf & Hsf & H1). apply res_bind_Ok in H1 as (wwm & Hwwm & H1).
  apply res_bind_Ok in H1 as (wra & Hra & H1). apply res_bind_Ok in H1 as (wgp & Hgp & H1). apply res_bind_Ok in H1 as (wpv & Hpv & H1).
  apply res_bind_Ok in H1 as (u3 & Hlim & H1). apply res_bind_Ok in H1 as (u4 & Hshape & H1). injection H1 as <-.
  unfold frame_from_wire in H2. cbn in H2. rewrite Hlim in H2. cbn in H2. rewrite Hshape in H2. cbn in H2.
  apply res_bind_Ok in H2 as (t' & Ht' & H2). apply res_bind_Ok in H2 as (c' & Hc' & H2). apply res_bind_Ok in H2 as (h' & Hh' & H2).
  apply res_bind_Ok in H2 as (fu' & Hfu' & H2). apply res_bind_Ok in H2 as (sf' & Hsf' & H2). apply res_bind_Ok in H2 as (wm' & Hwm' & H2).
  apply res_bind_Ok in H2 as (ra' & Hra' & H2). apply res_bind_Ok in H2 as (gp' & Hgp' & H2). apply res_bind_Ok in H2 as (q' & Hq' & H2).
  apply res_bind_Ok in H2 as (u5 & Hgrid' & H2). apply res_bind_Ok in H2 as (pv' & Hpv' & H2). apply res_bind_Ok in H2 as (u6 & _ & H2).
  pose proof (parse_format _ _ _ Ht Ht') as ->. pose proof (positive_seconds_back _ _ _ Hc Hc') as ->.
  pose proof (parse_format _ _ _ Hwwm Hwm') as ->. pose proof (seconds_back _ _ _ Hgp Hgp') as ->.
  pose proof (inverse_list _ _ provenance_inverse _ _ _ Hpv Hpv') as ->.
  destruct (finite_Ok _ _ Hra) as [-> Hfin]. destruct (finite_Ok _ _ Hra') as [-> _].
  unfold frame_quality_new in Hq'. unbind. unfold frame_new in *. unbind.
  destruct (segment_back _ _ _ _ Hh Hh') as [Sh Rh]. destruct (segment_option_back _ _ _ _ Hfu Hfu') as [Sfu Rfu].
  destruct (map_back _ _ _ bare_static _ _ _ static_strip static_retract Hsf Hsf') as [Ssf Rsf].
  split; [done|]. unfold frame_to_wire, static_features_to_wire. cbn. rewrite Hne. cbn. rewrite Hwm. cbn. cbn in Hgrid'. rewrite Hgrid'. cbn.
  rewrite Ht. cbn. rewrite Hc. cbn. rewrite Rh. cbn. rewrite Rfu. cbn. rewrite Rsf. cbn. rewrite Hwwm. cbn. rewrite Hra. cbn.
  rewrite Hgp. cbn. rewrite Hpv. cbn. rewrite Hlim. cbn. by rewrite Hshape.
Qed.

Lemma selector_inverse : inverse artifact_selector_to_wire artifact_selector_from_wire.
Proof.
  apply inverse_option. intros [k f v d] w x H1 H2. unbind. cbn in *. unbind. unfold selector_new in *. unbind.
  destruct v, d; cbn in *; unbind; unfold with_digest in *; unbind; done.
Qed.
Lemma options_inverse : inverse options_to_wire options_from_wire.
Proof.
  intros [n qs] w x H1 H2. unfold options_to_wire, options_from_wire, options_new in *. unbind; cbn in *; unbind.
  - bool_to_prop. destruct qs; [|done]. cbn in *. by unbind.
  - f_equal. eapply (inverse_list finite finite); [|done|done]. intros a b c Ha Hb.
    apply finite_Ok in Ha as [-> _]. by apply finite_Ok in Hb as [-> _].
Qed.

(** The same request, its features in the order of their names and without the limits of their values. *)
Definition same_request (r r' : DataProcessingRequest) : Prop :=
  pr_request_id r' = pr_request_id r ∧ pr_task r' = pr_task r ∧ pr_binding r' = pr_binding r ∧ submitted_at r' = submitted_at r ∧
  deadline r' = deadline r ∧ pr_contract r' = pr_contract r ∧ artifact_selector r' = artifact_selector r ∧
  pr_input_digest r' = pr_input_digest r ∧ pr_options r' = pr_options r ∧ same_frame (pr_frame r) (pr_frame r').

Lemma request_from_wire_digest w r : request_from_wire w = Ok r → request_digest r = Ok (pr_input_digest r).
Proof.
  unfold request_from_wire, request_digest, request_new. intros H1. unbind. cbn.
  match goal with H : check (String.eqb _ _) _ = Ok _, Hd : compute_input_digest _ _ _ _ _ _ = Ok _ |- _ => apply check_true, String.eqb_eq in H as <- end.
  done.
Qed.

Lemma request_back r w r' : request_to_wire r = Ok w → request_from_wire w = Ok r' → same_request r r' ∧ request_to_wire r' = Ok w.
Proof.
  intros H1 H2. pose proof (request_from_wire_digest _ _ H2) as Hdig. destruct r as [id t b f sub dl ct a dg o].
  unfold request_to_wire in H1. cbn in H1.
  apply res_bind_Ok in H1 as (u0 & Hid & H1). apply res_bind_Ok in H1 as (u1 & Hct & H1). apply res_bind_Ok in H1 as (u2 & Hdg & H1).
  apply res_bind_Ok in H1 as (u3 & _ & H1). apply res_bind_Ok in H1 as (u4 & _ & H1). apply res_bind_Ok in H1 as (u5 & _ & H1).
  apply res_bind_Ok in H1 as (ws & Hs & H1). apply res_bind_Ok in H1 as (wd & Hd & H1). apply res_bind_Ok in H1 as (wt & Ht & H1).
  apply res_bind_Ok in H1 as (wb & Hb & H1). apply res_bind_Ok in H1 as (wa & Ha & H1). apply res_bind_Ok in H1 as (wf & Hf & H1).
  apply res_bind_Ok in H1 as (wo & Ho & H1). injection H1 as <-.
  unfold request_from_wire in H2. cbn in H2. rewrite Hid in H2. cbn in H2. rewrite Hct in H2. cbn in H2. rewrite Hdg in H2. cbn in H2.
  apply res_bind_Ok in H2 as (t' & Ht' & H2). apply res_bind_Ok in H2 as (b' & Hb' & H2). apply res_bind_Ok in H2 as (s' & Hs' & H2).
  apply res_bind_Ok in H2 as (d' & Hd' & H2). apply res_bind_Ok in H2 as (a' & Ha' & H2). apply res_bind_Ok in H2 as (f' & Hf' & H2).
  apply res_bind_Ok in H2 as (o' & Ho' & H2). apply res_bind_Ok in H2 as (u6 & Hhz & H2). apply res_bind_Ok in H2 as (e & _ & H2).
  apply res_bind_Ok in H2 as (u7 & _ & H2).
  pose proof (task_inverse _ _ _ Ht Ht') as ->. pose proof (binding_inverse _ _ _ Hb Hb') as ->. pose proof (parse_format _ _ _ Hs Hs') as ->.
  pose proof (parse_format _ _ _ Hd Hd') as ->. pose proof (selector_inverse _ _ _ Ha Ha') as ->. pose proof (options_inverse _ _ _ Ho Ho') as ->.
  destruct (frame_back _ _ _ Hf Hf') as [Sf Rf]. unfold request_new in H2. unbind. cbn in Hdig.
  split; [by split_and!|]. unfold request_to_wire. cbn. rewrite Hid. cbn. rewrite Hct. cbn. rewrite Hdg. cbn. rewrite Hdig. cbn.
  rewrite String.eqb_refl. cbn. rewrite Hhz. cbn. rewrite Hs. cbn. rewrite Hd. cbn. rewrite Ht. cbn. rewrite Hb. cbn. rewrite Ha. cbn.
  rewrite Rf. cbn. by rewrite Ho.
Qed.

Lemma insert_all_forallb {A B} (name : A → string) (f : A → result_of B) (p : B → bool) l m :
  (∀ a b, f a = Ok b → p b = true) → insert_all name f l [] = Ok m → forallb (fun '(_, b) => p b) m = true.
Proof.
  intros Hf Hm. apply insert_all_spec in Hm as (_ & bs & Hbs & Hp); [|constructor]. apply forallb_true. intros [k b].
  rewrite Hp, app_nil_r. intros Hin%elem_of_zip_r. apply list_elem_of_lookup in Hin as [i Hi].
  destruct (Forall2_lookup_r _ _ _ _ _ Hbs Hi) as (x & _ & Hx). by eapply Hf.
Qed.

Lemma scalar_to_wire_finite v w : scalar_to_wire v = Ok w → scalar_finite w = true.
Proof.
  destruct v; cbn; intros H1; unbind; try done. match goal with H : finite _ = Ok _ |- _ => by apply finite_Ok in H as [-> ?] end.
Qed.
Lemma segment_to_wire_finite g w : segment_to_wire g = Ok w → segment_finite w = true.
Proof.
  unfold segment_to_wire. intros H1. unbind. unfold segment_finite. cbn.
  eapply (insert_all_forallb _ _ (fun s => forallb scalar_finite (se_values s))); [|done]. intros s b Hb. unfold series_to_wire in Hb. unbind. cbn.
  by eapply map_res_forallb; [apply scalar_to_wire_finite|].
Qed.
Lemma frame_to_wire_finite f w : frame_to_wire f = Ok w →
  segment_finite (wf_history w) && is_none_or segment_finite (wf_future w) && forallb (fun '(_, s) => scalar_finite (sf_value s)) (wf_statics w)
  && is_finite (wq_missing_ratio (wf_quality w)) = true.
Proof.
  unfold frame_to_wire. intros H1. unbind. cbn. rewrite !andb_true_iff. split_and!.
  - by eapply segment_to_wire_finite.
  - destruct (future_covariates f); cbn in *; unbind; [|done]. by eapply segment_to_wire_finite.
  - eapply (insert_all_forallb _ _ (fun s => scalar_finite (sf_value s))); [|done]. intros s b Hb. unfold static_to_wire in Hb. unbind.
    by eapply scalar_to_wire_finite.
  - by match goal with H : finite _ = Ok _ |- _ => apply finite_Ok in H as [-> ?] end.
Qed.
Lemma request_to_wire_finite r w : request_to_wire r = Ok w → request_finite w = true.
Proof.
  unfold request_to_wire. intros H1. unbind. unfold request_finite. cbn.
  match goal with H : frame_to_wire _ = Ok _ |- _ => rewrite (frame_to_wire_finite _ _ H) end. cbn.
  match goal with H : options_to_wire _ = Ok _ |- _ => unfold options_to_wire in H end. unbind; cbn; [done|].
  eapply map_res_forallb; [|done]. intros y b Hy. by apply finite_Ok in Hy as [-> ?].
Qed.

Lemma encode_request_wire r bytes : encode_request r = Ok bytes →
  ∃ w r', request_to_wire r = Ok w ∧ request_from_wire w = Ok r' ∧ request_to_wire r' = Ok w ∧ same_request r r' ∧ request_to_vec w = Some bytes ∧
  decode_request bytes = Ok r'.
Proof.
  unfold encode_request. intros H1. apply res_bind_Ok in H1 as (w & Hw & H1). apply res_bind_Ok in H1 as (r' & Hr' & H1).
  destruct (request_back _ _ _ Hw Hr') as [Hs Hb]. rewrite Hb in H1. cbn in H1. apply ok_or_Ok in H1.
  destruct (request_json_roundtrip w bytes H1 (request_to_wire_finite _ _ Hw)) as (v & Hbytes & Hn & Hdoc).
  exists w, r'. split_and!; try done. unfold decode_request. rewrite Hbytes. cbn. rewrite Hn. cbn. rewrite Hdoc. cbn. by rewrite Hr'.
Qed.


(** Bytes are accepted only with the digest of their content. *)
Lemma decoded_request_digest bytes r : decode_request bytes = Ok r → request_digest r = Ok (pr_input_digest r).
Proof.
  unfold decode_request. intros H1. unbind. destruct (request_from_wire _) as [r'| |] eqn:Hr; [|done..]. cbn in H1. unbind.
  by eapply request_from_wire_digest.
Qed.

(** ** The contract of the application *)

Definition to_option {A} (r : result_of A) : option A := match r with Ok a => Some a | _ => None end.
Definition v1_contract (uuid : string → string) : Forecast.WireContract := {|
  Forecast.route_contract t b a id version contracts := is_ok (validate_commissioned_route_contract t b a id version contracts);
  Forecast.compute_input_digest t b contract a f o := to_option (compute_input_digest t b contract a f o);
  Forecast.encode_request r := to_option (encode_request r);
  Forecast.encode_result r := to_option (encode_result r);
  Forecast.uuid_v5 := uuid |}.

(** A request within the limits of the processor reaches it as it was built. *)
Lemma request_received uuid {E P} `{Forecast.Ports E P} (route : Forecast.DataProcessingRoute (P := P)) c q frame request :
  Forecast.processor_request (H := v1_contract uuid) route c q frame = Ok request →
  ∃ bytes r', Z.of_nat (length bytes) ≤ max_request_bytes (Forecast.descriptor (Forecast.route_processor route)) ∧
    decode_request bytes = Ok r' ∧ same_request request r' ∧ same_frame frame (pr_frame r').
Proof.
  intros Hr. apply Forecast.processor_request_Ok in Hr as (<- & _ & _ & _ & _ & _ & _ & _ & _ & _ & bytes & Hb & Hlen). cbn in Hb.
  destruct (encode_request request) as [bs| |] eqn:Hx; [|done..]. injection Hb as ->.
  destruct (encode_request_wire _ _ Hx) as (w & r' & _ & _ & _ & Hs & _ & Hd). exists bytes, r'. split_and!; [done..|apply Hs].
Qed.

(** A number without a unit cannot be sent, though a task may declare one. *)
Lemma series_unit role e s : series_from_wire role e = Ok s → fd_type (definition s) = TNumber → fd_unit (definition s) ≠ None.
Proof.
  destruct e as [name w]. unfold series_from_wire, series_new, feature_definition_from_wire. intros H1. unbind. cbn.
  destruct (se_type w); unbind; try done; unfold feature_numeric, feature_new in *; unbind; done.
Qed.
Lemma unitless_never_sent r s bytes : s ∈ series (history (pr_frame r)) → fd_type (definition s) = TNumber → fd_unit (definition s) = None →
  encode_request r ≠ Ok bytes.
Proof.
  intros Hs Ht Hu (w & r' & _ & Hr' & _ & (_ & _ & _ & _ & _ & _ & _ & _ & _ & _ & _ & [_ Hp] & _) & _)%encode_request_wire.
  assert (bare_series RHistory s ∈ series (history (pr_frame r'))) as Hin by (rewrite Hp; apply list_elem_of_fmap; eauto).
  assert (∃ l, map_res (series_from_wire RHistory) l = Ok (series (history (pr_frame r')))) as [l Hl].
  { unfold request_from_wire, request_new in Hr'. unbind. cbn. unfold frame_from_wire, frame_new in *. unbind. cbn.
    unfold segment_from_wire, segment_new in *. unbind. by eexists. }
  apply map_res_Ok in Hl. apply list_elem_of_lookup in Hin as [i Hi]. destruct (Forall2_lookup_r _ _ _ _ _ Hl Hi) as (e & _ & He).
  by apply series_unit in He.
Qed.
End Roundtrip.

(** ** A request and a result on the wire *)

Module Sample.
Definition times : list (Z * string) :=
  [(1000, "1970-01-01T00:00:01Z"); (2000, "1970-01-01T00:00:02Z"); (3000, "1970-01-01T00:00:03Z"); (5000, "1970-01-01T00:00:05Z")]%string.
Definition base : Codecs := {|
  to_rfc3339 ms := snd <$> List.find (fun '(t, _) => t =? ms) times;
  parse_from_rfc3339 s := (fun '(t, _) => (0, 0, t)) <$> List.find (fun '(_, x) => String.eqb x s) times;
  request_to_vec _ := None; result_to_vec _ := None; derived_to_vec _ := None; value_from_slice _ := None;
  request_from_value _ := None; result_from_value _ := None; canonical_to_vec _ _ _ _ _ _ := Some []; sha256 _ := replicate 32 171 |}.

Definition digest : string := "sha256:abababababababababababababababababababababababababababababababab".
Definition id : string := "123e4567-e89b-42d3-a456-426614174000".
Definition load : FeatureDefinition := Feature "load" RHistory TNumber (Some "kW") (Some (NumericConstraints (Some zero) None false)).
Definition door : FeatureDefinition := Feature "door" RHistory TBoolean None None.
Definition frame : ProcessingFrame :=
  Frame 2000 1000
    (MkSegment [1000; 2000] [MkSeries load [Number one; Missing] [SGood; SMissing]; MkSeries door [Boolean true; Boolean false] [SGood; SGood]])
    None [] (MkQuality 2000 zero 1000 false 0)
    [Provenance KHistory "load" SrcHistory None 1000 None; Provenance KHistory "door" SrcLive None 2000 None].
Definition request (gap : Z) : DataProcessingRequest :=
  ProcessorRequest id (TaskId "load-forecast" 1) (BindingId "site" 1)
    (Frame (as_of frame) (frame_cadence frame) (history frame) None [] (MkQuality 2000 zero gap false 0) (provenance frame))
    2000 5000 "forecast.v1" None digest (Options 1 []).
Definition sent : DataProcessingRequest := request (maximum_observation_gap (history frame) 1000).
Definition answer (source : string) : ProcessingResult :=
  Result id (TaskId "load-forecast" 1) (BindingId "site" 1) digest Fallback (Processor_ "local" "1" "forecast.v1") None 2000 2000 (Some 5000)
    (Some (Output "load" "kW" "import" 1000 [ForecastAt 3000 one []])) (Some (FallbackOf "persistence" "1" "WARMING_UP" source 2000)) None ["STALE"].

Definition request_doc : option RequestWire := to_option (@request_to_wire base sent).
Definition result_doc : option ResultWire := to_option (@result_to_wire base (answer "load")).
Definition codecs : Codecs := {|
  to_rfc3339 := @to_rfc3339 base; parse_from_rfc3339 := @parse_from_rfc3339 base;
  request_to_vec w := if decide (Some w = request_doc) then Some [1] else None;
  result_to_vec w := if decide (Some w = result_doc) then Some [2] else None;
  derived_to_vec _ := None; value_from_slice _ := Some (Json.Obj []);
  request_from_value _ := request_doc; result_from_value _ := result_doc;
  canonical_to_vec := @canonical_to_vec base; sha256 := @sha256 base |}.
#[export] Existing Instance codecs.

#[export] Instance codecs_ok : CodecsOk.
Proof.
  split.
  - intros ms s x H1 H2. change (snd <$> List.find (fun '(t, _) => t =? ms) times = Some s) in H1.
    destruct (List.find _ times) as [[t d]|] eqn:Hf; [|done]. injection H1 as <-. apply List.find_some in Hf as [Hin Ht].
    apply Z.eqb_eq in Ht as <-. cbn in Hin. repeat (destruct Hin as [[= <- <-]|Hin]; [vm_compute in H2; by injection H2 as <-|]). done.
  - intros w bytes H1 _. cbn in *. case_decide as Hw; [|done]. eauto.
  - intros w bytes H1 _. cbn in *. case_decide as Hw; [|done]. eauto.
Qed.



(** Commissioning accepts what the wire then refuses: a number without a unit, and a persistence
    fallback whose source has a feature name that is not an identifier. *)
Definition spec (name : string) : ForecastTaskSpec :=
  Spec (Target name "kW" "import") 1000 Last Latest [] 2 1 0 5000 one ["persistence"] [Fallback_ "persistence" "1" name 5000] None None false.
Definition task (name : string) : DataProcessingTask :=
  Task (TaskId "load-forecast" 1) "forecast.v1" [Feature name RHistory TNumber (Some "kW") None; Feature "count" RHistory TNumber None None]
    (spec name) false.
Definition task_built (name : string) : bool :=
  is_ok (task_forecast (task_identity (task name)) "forecast.v1" (task_features (task name)) (spec name)).
Example commissioned_not_sendable :
  (task_built "site load", validate_task_contract (task "site load"), encode_result (answer "site load")) = (true, Ok tt, Err Contract).
Proof. by vm_compute. Qed.
End Sample.
End Wire.
